(* ===== verification/_CoqProject ===== *)
-Q . S2P
Prelude.v
Merkle.v
MerkleProofs.v
BitArray.v
BitArrayProofs.v
SafeMath.v
Proto.v
Validator.v
RoundRobin.v
ProposerProofs.v
ValidatorUpdateProofs.v
ValidatorSetProofs.v
Types.v
SignBytesProofs.v
Validation.v
ValidationProofs.v
VoteSet.v
VoteSetProofs.v
CommitProofs.v
HeightVoteSet.v
HeightVoteSetProofs.v
PartSet.v
PartSetProofs.v
Decode.v
DecodeProofs.v
PrivVal.v
PrivValProofs.v
Header.v
LightVerifier.v
LightVerifierProofs.v
Block.v
BlockProofs.v
ChainState.v
ChainStateProofs.v
Evidence.v
EvidencePool.v
EvidenceProofs.v
LightStore.v
LightClient.v
LightClientProofs.v
StateOutcome.v
PeerManager.v
PeerManagerProofs.v
Pruning.v
StateStore.v
StateStoreProofs.v
BlockStore.v
BlockStoreProofs.v
SnapshotPool.v
SnapshotPoolProofs.v
ChunkQueue.v
ChunkQueueProofs.v
StateSync.v
StateSyncProofs.v
CList.v
Heap.v
Mempool.v
MempoolProofs.v
MempoolRun.v
BlockSync.v
BlockSyncProofs.v
Consensus.v
ConsensusFrame.v
ConsensusProofs.v
ConsensusCommitProofs.v
ConsensusVotes.v
ConsensusSafety.v
ConsensusRun.v
BlockSyncRun.v
