(* ===== verification/Prelude.v ===== *)
(** * A verification development for the Tendermint core of relaychainmodel

    The repository is a Byzantine-fault-tolerant replication engine: validators
    with voting power exchange signed proposals, prevotes and precommits, and a
    block is decided when precommits with more than two thirds of the power are
    for it.  The development models the parts that decide whether this is safe,
    from the bytes that are hashed and signed up to the consensus state machine and
    the light client, and proves what those parts promise to each other.

    ** How the program is modelled

    A Go function becomes a Rocq function with the same name.  A call returns a
    value, a non-nil error or panics: the type [outcome E A] of this file, with
    [go A] for calls that return no error.  State that a method updates in place
    is passed in and returned; pointers that may be nil are options; slices are
    lists indexed by [Z] with the run-time bounds check ([slice_get],
    [slice_set]).  Machine integers are [Z] with the conversions [int64],
    [int32], [uint64], [uint32] written where the source wraps.  Loops are
    fixpoints on the data, or on a fuel that is shown to be enough where the
    recursion is not structural: [length items] for the Merkle trees (each level
    has fewer leaves than the one above), ten for varints (64 bits in groups of
    seven), the length of the input for the protobuf decoders.

    Third-party code is a class: SHA-256 ([Sha256]), keys and signatures
    ([Crypto], [BatchCrypto], [PrivKeys]), the gogo/protobuf encodings of time
    and of the wrapper messages ([TimeCodec], [TimeDecoder], [WrapperCodec]),
    [proto.Equal] ([ProtoEqual]) and JSON documents ([TmJSON]).  Their laws state
    documented behaviour; no law says that SHA-256 has no collisions, so the
    binding theorems conclude with the collision they would exhibit.

    ** The files

    - Prelude.v: bytes, machine integers, outcomes, slices, sorting, tactics and
      hints.
    - Merkle.v, MerkleProofs.v (crypto/merkle, crypto/tmhash): tree hashing in its
      recursive and iterative form, proofs and their verification.  Proofs made
      for a list verify; a proof that verifies shows the item at its index or a
      collision; the two tree hashes agree.
    - BitArray.v, BitArrayProofs.v (libs/bits): bit arrays on 64-bit words and
      their conversions; the operations are those on bits, at every size.
    - SafeMath.v (libs/math, types/validator_set.go): overflow-checked and clipping
      arithmetic is exact or reports.
    - Proto.v: varints and length-delimited fields of the generated marshallers.
    - Validator.v, RoundRobin.v, ProposerProofs.v, ValidatorUpdateProofs.v,
      ValidatorSetProofs.v (types/validator.go, types/validator_set.go):
      validator sets, proposer rotation and updates.  Every set built by the
      operations satisfies the invariant [wf_set]; an update has the effect of an
      abstract map update on every branch; while the total power leaves room below
      the largest priority ([fits]) each validator proposes in proportion to its
      power and no priority is clipped; the hash binds keys and powers.
    - Types.v, SignBytesProofs.v (types/block.go, vote.go, proposal.go,
      canonical.go, the generated canonical marshallers): the data types, their
      validation and the sign bytes, which determine what was signed.
    - Decode.v, DecodeProofs.v (the generated canonical unmarshallers,
      internal/libs/protoio): decoding inverts encoding.
    - Validation.v, ValidationProofs.v (types/validation.go): commit verification,
      single and batch.  An accepted commit carries valid signatures of more than
      two thirds of the power, or of the trust level's share; for [VerifyCommit]
      and validators with keys of one type the condition is exact.
    - VoteSet.v, VoteSetProofs.v, CommitProofs.v (types/vote_set.go): vote sets as
      a state machine under votes and peer claims.  A majority is reported exactly
      when the votes held have it, two conflicting majorities have common signers
      with a third of the power, and the commit made from a set verifies.
    - HeightVoteSet.v, HeightVoteSetProofs.v (internal/consensus/types): the vote
      sets of all rounds of a height, with the bound on rounds peers can open.
    - PartSet.v, PartSetProofs.v (types/part_set.go): blocks cut into parts with
      Merkle proofs, reassembled and read.
    - PrivVal.v, PrivValProofs.v (privval/file.go): the private validator and its
      state file as a process that crashes and restarts.  It never hands out two
      different signed messages for one height, round and step.
    - Header.v, LightVerifier.v, LightVerifierProofs.v (types/block.go,
      types/light.go, types/encoding_helper.go, light/verifier.go): headers, their
      hash, and the light client's verification of a header against a trusted
      one, with what acceptance guarantees and who is to blame for a fork.

    - Block.v, BlockProofs.v (types/block.go, types/tx.go): blocks, their
      transactions, evidence and last commit, the hash that binds all of them and
      the proofs of single transactions.

    - ChainState.v, ChainStateProofs.v (types/params.go, types/results.go,
      internal/state/state.go, time.go, validation.go, execution.go): the state
      after a block, the median time of a commit, and the block executor.  A block a
      node proposes passes its own validation, applying a block keeps the state
      well formed, and the median time stays within the reported times.
    - Evidence.v, EvidencePool.v, EvidenceProofs.v (types/evidence.go,
      internal/evidence): evidence of double votes and of attacks on light clients,
      its conversion from and to messages, and the pool with its pending and committed
      evidence.  Conflicting votes a node sees become evidence that verifies; evidence
      of a double vote never names a validator that signed one vote; a block's evidence
      passes only when every piece verifies, is new and occurs once; what a block
      commits leaves the pending evidence.
    - LightStore.v, LightClient.v, LightClientProofs.v (light/store/db, light/client.go,
      light/detector.go): the light client as a program over its providers, whose
      answers and their order are arbitrary.  The monad [LM] keeps the client a call
      reached when it fails; [None] is fuel that ran out.  A block is trusted only
      when verified steps lead to it from a trusted one, and the search by bisection
      ends within the square of the gap between the two heights.
    - StateOutcome.v: programs that change a state and may fail or panic, with a
      weakest-precondition calculus for them.
    - PeerManager.v, PeerManagerProofs.v (internal/p2p/peermanager.go, address.go,
      types/node_id.go): the peer manager, with the maps of addresses that copies of a
      peer share and the ranking it caches.  Its sets of dialing, connected, evicted and
      upgrading peers stay consistent and within the limits, and it dials only peers that
      are due; two theorems show what events about peers break.
    - Pruning.v, StateStore.v, StateStoreProofs.v, BlockStore.v, BlockStoreProofs.v
      (internal/state/store.go, state.go, internal/store/store.go, types/genesis.go,
      block_meta.go): the stores of states and blocks, as tables of messages from which ranges
      are deleted in batches.  The fuel of the deletion is the size of the table, and it is shown
      to delete the range and nothing else.  While the states of a chain are saved and pruned,
      every retained height loads its validators and parameters, and every retained block is
      loaded as it was saved; one lemma shows that the proposer of a loaded set can differ.
    - SnapshotPool.v, SnapshotPoolProofs.v, ChunkQueue.v, ChunkQueueProofs.v, StateSync.v,
      StateSyncProofs.v (internal/statesync/snapshots.go, chunks.go, syncer.go): state sync, with
      the pool of announced snapshots, the queue of chunks with its files and channels, and the
      goroutines of the syncer interleaved at the calls where they wait.  The pool keeps its
      indexes and nothing rejected is used again; when a sync succeeds the application holds
      the verified snapshot, whose chunks it got in order and as they arrived; the one way in
      which the goroutine panics is exact.  Lemmas show runs in which a confused key, an
      unvalidated message or a retry breaks a sync.
    - CList.v, Heap.v, Mempool.v, MempoolProofs.v, MempoolRun.v (internal/libs/clist,
      internal/mempool): the prioritized mempool with its cache, its store and its four
      indexes, which share the transactions as objects.  CList.v is the linked list whose
      removed elements stay readable, Heap.v the heap of Go's standard library, proved
      against the interface [HeapInterface] with its laws; the fuel of its loops is the
      size of the heap.  While no transaction enters the store twice, every sequence of calls
      keeps the indexes in agreement and within the limits; without rechecks nothing
      panics and a block gets the best transactions first; a newcomer displaces only lower priorities; a block leaves none of its
      transactions behind.  Four lemmas show runs in which duplicates or rechecks break
      this.
    - BlockSync.v, BlockSyncProofs.v, BlockSyncRun.v (internal/blocksync/v2): the
      scheduler and the processor of block sync as two state machines that take their
      events in any order.  The scheduler's window, requests and responses stay
      consistent, a tick requests the lowest missing block, and only blocks with the
      commit of two thirds are applied, in order; two theorems show when it crashes or
      never starts.
    - Consensus.v (internal/consensus/state.go, types/round_state.go,
      config/config.go): the consensus state machine.  A handler is a function of
      the monad [M]: it changes the node's state, appends to a log what it sends,
      schedules and stores, and may panic, keeping the state reached; part sets are
      shared objects behind references.  The clock, the disk, the signer, the
      application, the mempool and the stores answer through an environment indexed
      by the number of the call, so nothing is assumed of them.  [receive] is one
      turn of the receive routine.
    - ConsensusFrame.v, ConsensusProofs.v, ConsensusCommitProofs.v: what each handler
      leaves unchanged, and the invariant [Inv] with its preservation.  They use the
      vote sets only through the interface [VotesInterface]; ConsensusVotes.v
      discharges it with the theorems on vote sets.
    - ConsensusSafety.v: worlds of any number of nodes.  A step delivers one message,
      claim or timeout to one node; votes of correct validators cannot be forged, all
      others are arbitrary; a node that panicked stops; nodes do not restart.  When
      less than a third of a height's power is faulty, no two nodes store different
      blocks for it.  ConsensusRun.v executes two nodes to their first decision.

    A file whose name ends in Proofs holds the theorems on the definitions of the
    file it is named after; theorems stated for the manifest are marked with their
    claim number, and lemmas named [_witness] apply them to concrete data with
    small stand-ins for the cryptography.

    ** Not modelled

    Network code (the rest of internal/p2p, rpc, abci), the database itself (tm-db), the
    write-ahead log and its replay, timers,
    configuration files, commands, event bus and indexers: input and output,
    goroutines and glue around third-party code.  Printing and JSON methods of the
    modelled types.  Mutexes: the modelled methods run under their lock.  The
    state providers and the backfill of state sync, the older mempool and block pool and the
    gossip of the reactors are not modelled. *)
From Stdlib Require Import ZArith Lia Sorting.Sorted Strings.Byte.
From stdpp Require Import base list strings gmap sorting.

#[global] Open Scope Z_scope.

(** ** Bytes *)

Module Export Bytes.

#[export] Instance byte_eq_decision : EqDecision byte := Byte.byte_eq_dec.

#[export] Instance byte_countable : Countable byte :=
  inj_countable Byte.to_N Byte.of_N Byte.of_to_N.

(** [bytes] models Go's [[]byte] by its contents.  Where the source
    distinguishes [nil] from an empty slice the model uses [option bytes]. *)
Abbreviation bytes := (list byte).

(** [bytes.Compare]: lexicographic order on unsigned bytes. *)
Fixpoint bytes_compare (a b : bytes) : comparison :=
  match a, b with
  | [], [] => Eq
  | [], _ :: _ => Lt
  | _ :: _, [] => Gt
  | x :: a', y :: b' =>
      match N.compare (Byte.to_N x) (Byte.to_N y) with
      | Eq => bytes_compare a' b'
      | c => c
      end
  end.

(** [bytes.Equal]. *)
Definition bytes_equal (a b : bytes) : bool := bool_decide (a = b).

Definition bytes_ltb (a b : bytes) : bool :=
  match bytes_compare a b with Lt => true | _ => false end.

Lemma byte_to_N_inj x y : Byte.to_N x = Byte.to_N y -> x = y.
Proof.
  intros H. apply (f_equal Byte.of_N) in H.
  rewrite !Byte.of_to_N in H. by injection H.
Qed.

Lemma bytes_compare_eq a b : bytes_compare a b = Eq <-> a = b.
Proof.
  revert b. induction a as [|x a IH]; intros [|y b]; simpl; try done.
  destruct (N.compare_spec (Byte.to_N x) (Byte.to_N y)) as [H|H|H].
  - apply byte_to_N_inj in H as ->. rewrite IH. naive_solver.
  - split; [done|]. intros [= -> _]. lia.
  - split; [done|]. intros [= -> _]. lia.
Qed.

Lemma bytes_compare_antisym a b : bytes_compare b a = CompOpp (bytes_compare a b).
Proof.
  revert b. induction a as [|x a IH]; intros [|y b]; simpl; try done.
  rewrite (N.compare_antisym (Byte.to_N x)).
  destruct (N.compare (Byte.to_N x) (Byte.to_N y)); simpl; auto.
Qed.

Lemma bytes_compare_lt_trans a b c :
  bytes_compare a b = Lt -> bytes_compare b c = Lt -> bytes_compare a c = Lt.
Proof.
  revert b c. induction a as [|x a IH]; intros [|y b] [|z c]; simpl; try done.
  destruct (N.compare_spec (Byte.to_N x) (Byte.to_N y)) as [Hxy|Hxy|Hxy];
  destruct (N.compare_spec (Byte.to_N y) (Byte.to_N z)) as [Hyz|Hyz|Hyz];
  destruct (N.compare_spec (Byte.to_N x) (Byte.to_N z)) as [Hxz|Hxz|Hxz];
    try done; try lia; eauto.
Qed.

Lemma bytes_equal_spec a b : reflect (a = b) (bytes_equal a b).
Proof. apply bool_decide_reflect. Qed.

Lemma bytes_equal_refl a : bytes_equal a a = true.
Proof. by apply bool_decide_eq_true. Qed.

Lemma bytes_ltb_irrefl a : bytes_ltb a a = false.
Proof. unfold bytes_ltb. by rewrite (proj2 (bytes_compare_eq a a) eq_refl). Qed.

Lemma bytes_ltb_asym a b : bytes_ltb a b = true -> bytes_ltb b a = false.
Proof.
  unfold bytes_ltb. rewrite (bytes_compare_antisym a b).
  by destruct (bytes_compare a b).
Qed.

Lemma bytes_ltb_trans a b c :
  bytes_ltb a b = true -> bytes_ltb b c = true -> bytes_ltb a c = true.
Proof.
  unfold bytes_ltb.
  destruct (bytes_compare a b) eqn:H1; try done.
  destruct (bytes_compare b c) eqn:H2; try done.
  by rewrite (bytes_compare_lt_trans _ _ _ H1 H2).
Qed.

Lemma bytes_ltb_total a b :
  bytes_ltb a b = false -> bytes_ltb b a = false -> a = b.
Proof.
  unfold bytes_ltb. rewrite (bytes_compare_antisym a b).
  destruct (bytes_compare a b) eqn:H; try done.
  intros _ _. by apply bytes_compare_eq.
Qed.

End Bytes.

(** ** Machine integers: [Z] with the wrap-around of the width written out *)

Module Export MachineInt.

Definition wrap_signed (w : Z) (z : Z) : Z :=
  (z + 2 ^ (w - 1)) mod 2 ^ w - 2 ^ (w - 1).
Definition wrap_unsigned (w : Z) (z : Z) : Z := z mod 2 ^ w.

Definition MaxInt64 : Z := 2 ^ 63 - 1.
Definition MinInt64 : Z := - 2 ^ 63.
Definition MaxInt32 : Z := 2 ^ 31 - 1.
Definition MinInt32 : Z := - 2 ^ 31.
Definition MaxUint64 : Z := 2 ^ 64 - 1.
Definition MaxUint32 : Z := 2 ^ 32 - 1.

Definition int64 (z : Z) : Z := wrap_signed 64 z.
Definition int32 (z : Z) : Z := wrap_signed 32 z.
Definition uint64 (z : Z) : Z := wrap_unsigned 64 z.
Definition uint32 (z : Z) : Z := wrap_unsigned 32 z.

Definition is_int64 (z : Z) : Prop := MinInt64 <= z <= MaxInt64.
Definition is_int32 (z : Z) : Prop := MinInt32 <= z <= MaxInt32.
Definition is_uint64 (z : Z) : Prop := 0 <= z <= MaxUint64.
Definition is_uint32 (z : Z) : Prop := 0 <= z <= MaxUint32.
#[export] Instance is_int64_dec z : Decision (is_int64 z).
Proof. unfold is_int64. apply _. Defined.
#[export] Instance is_uint64_dec z : Decision (is_uint64 z).
Proof. unfold is_uint64. apply _. Defined.
#[export] Instance is_int32_dec z : Decision (is_int32 z).
Proof. unfold is_int32. apply _. Defined.

Ltac int_unfold :=
  unfold is_int64, is_int32, is_uint64, is_uint32, MaxInt64, MinInt64, MaxInt32,
    MinInt32, MaxUint64, MaxUint32 in *.
(** Arithmetic with the bounds of the integer types written out. *)
Ltac int_lia := int_unfold; lia.

Lemma int64_id z : is_int64 z -> int64 z = z.
Proof.
  unfold int64, wrap_signed. intros H. rewrite Z.mod_small; int_lia.
Qed.
Lemma int32_id z : is_int32 z -> int32 z = z.
Proof.
  unfold int32, wrap_signed. intros H. rewrite Z.mod_small; int_lia.
Qed.
Lemma uint64_id z : is_uint64 z -> uint64 z = z.
Proof. unfold uint64, wrap_unsigned. intros H. rewrite Z.mod_small; int_lia. Qed.
Lemma uint32_id z : is_uint32 z -> uint32 z = z.
Proof. unfold uint32, wrap_unsigned. intros H. rewrite Z.mod_small; int_lia. Qed.

Lemma int64_range z : is_int64 (int64 z).
Proof.
  unfold int64, wrap_signed.
  pose proof (Z.mod_pos_bound (z + 2 ^ (64 - 1)) (2 ^ 64)). int_lia.
Qed.
Lemma int32_range z : is_int32 (int32 z).
Proof.
  unfold int32, wrap_signed.
  pose proof (Z.mod_pos_bound (z + 2 ^ (32 - 1)) (2 ^ 32)). int_lia.
Qed.
Lemma uint64_range z : is_uint64 (uint64 z).
Proof. unfold uint64, wrap_unsigned. pose proof (Z.mod_pos_bound z (2 ^ 64)). int_lia. Qed.
Lemma uint32_range z : is_uint32 (uint32 z).
Proof. unfold uint32, wrap_unsigned. pose proof (Z.mod_pos_bound z (2 ^ 32)). int_lia. Qed.

End MachineInt.

Global Arguments bytes_equal : simpl never.
Global Arguments bytes_ltb : simpl never.
Global Arguments int64 : simpl never.
Global Arguments int32 : simpl never.
Global Arguments uint64 : simpl never.
Global Arguments uint32 : simpl never.
Global Arguments MaxInt64 : simpl never.
Global Arguments MinInt64 : simpl never.

(** ** Outcomes of Go calls

    A call returns a value, returns a non-nil [error], or panics. *)

Module Export Outcome.

Inductive outcome (E A : Type) : Type :=
  | Val (a : A)
  | Fail (e : E)
  | Panic (why : string).
Global Arguments Val {E A} _.
Global Arguments Fail {E A} _.
Global Arguments Panic {E A} _.

#[export] Instance outcome_ret {E} : MRet (outcome E) := fun _ a => Val a.
#[export] Instance outcome_bind {E} : MBind (outcome E) := fun _ _ k m =>
  match m with Val a => k a | Fail e => Fail e | Panic w => Panic w end.
#[export] Instance outcome_fmap {E} : FMap (outcome E) := fun _ _ f m =>
  match m with Val a => Val (f a) | Fail e => Fail e | Panic w => Panic w end.

(** Calls that return no error: only the value or a panic. *)
Abbreviation go := (outcome Empty_set).

Definition lift {E A} (m : go A) : outcome E A :=
  match m with Val a => Val a | Fail e => match e with end | Panic w => Panic w end.

(** [if err != nil { return wrap(err) }]. *)
Definition wrap_err {E E' A} (f : E -> E') (m : outcome E A) : outcome E' A :=
  match m with Val a => Val a | Fail e => Fail (f e) | Panic w => Panic w end.

(** [if cond { return err }] at the head of a function. *)
Definition fail_if {E} (b : bool) (e : E) : outcome E unit :=
  if b then Fail e else Val tt.
Definition panic_if {E} (b : bool) (w : string) : outcome E unit :=
  if b then Panic w else Val tt.

Definition is_val {E A} (m : outcome E A) : bool :=
  match m with Val _ => true | _ => false end.

Section lemmas.
Context {E A B : Type}.

Lemma Val_inj (a b : A) : Val (E := E) a = Val b -> a = b.
Proof. congruence. Qed.

Lemma bind_val (m : outcome E A) (k : A -> outcome E B) b :
  m ≫= k = Val b <-> exists a, m = Val a /\ k a = Val b.
Proof. destruct m; unfold mbind; simpl; naive_solver. Qed.

Lemma bind_fail (m : outcome E A) (k : A -> outcome E B) e :
  m ≫= k = Fail e <-> m = Fail e \/ exists a, m = Val a /\ k a = Fail e.
Proof. destruct m; unfold mbind; simpl; naive_solver. Qed.

Lemma fail_if_val (b : bool) (e : E) u : fail_if b e = Val u <-> b = false.
Proof. destruct b, u; simpl; naive_solver. Qed.

Lemma panic_if_val (b : bool) w u : panic_if (E := E) b w = Val u <-> b = false.
Proof. destruct b, u; simpl; naive_solver. Qed.

Lemma wrap_err_val {E'} (f : E -> E') (m : outcome E A) a :
  wrap_err f m = Val a <-> m = Val a.
Proof. destruct m; simpl; naive_solver. Qed.

Lemma lift_val (m : go A) a : lift (E := E) m = Val a <-> m = Val a.
Proof. destruct m as [|[]|]; simpl; naive_solver. Qed.
End lemmas.

End Outcome.

(** Decompose hypotheses that say a composed call returned a value. *)
Ltac inv_val :=
  repeat match goal with
  | H : (_ ≫= _) = Val _ |- _ => apply bind_val in H as (? & ? & ?)
  | H : fail_if _ _ = Val _ |- _ => apply fail_if_val in H
  | H : panic_if _ _ = Val _ |- _ => apply panic_if_val in H
  | H : wrap_err _ _ = Val _ |- _ => apply wrap_err_val in H
  | H : lift _ = Val _ |- _ => apply lift_val in H
  | H : Val _ = Val _ |- _ => injection H as H; subst
  | H : Fail _ = Val _ |- _ => discriminate H
  | H : Panic _ = Val _ |- _ => discriminate H
  | H : mret _ = Val _ |- _ => injection H as H; subst
  | H : (_ || _)%bool = false |- _ => apply orb_false_iff in H as [? ?]
  | H : (_ && _)%bool = true |- _ => apply andb_true_iff in H as [? ?]
  | H : negb _ = false |- _ => apply negb_false_iff in H
  | H : negb _ = true |- _ => apply negb_true_iff in H
  | x : unit |- _ => destruct x
  end.

(** Turn boolean comparisons on [Z] in the context into propositions. *)
Ltac z_bool :=
  repeat match goal with
  | H : (_ <? _) = true |- _ => apply Z.ltb_lt in H
  | H : (_ <? _) = false |- _ => apply Z.ltb_ge in H
  | H : (_ <=? _) = true |- _ => apply Z.leb_le in H
  | H : (_ <=? _) = false |- _ => apply Z.leb_gt in H
  | H : (_ =? _) = true |- _ => apply Z.eqb_eq in H
  | H : (_ =? _) = false |- _ => apply Z.eqb_neq in H
  | H : (_ >? _) = _ |- _ => rewrite Z.gtb_ltb in H
  | H : (_ >=? _) = _ |- _ => rewrite Z.geb_leb in H
  end.

(** Case analysis on the comparisons of the goal, closing impossible cases. *)
Ltac z_cases :=
  repeat match goal with
  | |- context [?a <? ?b] => destruct (Z.ltb_spec a b); try lia
  | |- context [?a <=? ?b] => destruct (Z.leb_spec a b); try lia
  | |- context [?a =? ?b] => destruct (Z.eqb_spec a b); try lia
  | |- context [?a >? ?b] => rewrite (Z.gtb_ltb a b)
  | |- context [?a >=? ?b] => rewrite (Z.geb_leb a b)
  end.

(** Compute through the binds whose first call is known. *)
Ltac go_step := cbn [mbind outcome_bind mret outcome_ret fail_if panic_if lift wrap_err negb andb orb].

(** ** Slices: lists indexed by Go's [int], with the run-time bounds check *)

Module Export Slices.

Definition len {A} (l : list A) : Z := Z.of_nat (length l).

(** The element at index [i], or [None] when the index is out of range. *)
Definition zlookup {A} (l : list A) (i : Z) : option A :=
  if 0 <=? i then l !! Z.to_nat i else None.

(** [l[i]]: reading out of range panics. *)
Definition slice_get {E A} (l : list A) (i : Z) : outcome E A :=
  match zlookup l i with Some a => Val a | None => Panic "index out of range" end.

(** [l[i] = a]: writing out of range panics. *)
Definition slice_set {E A} (l : list A) (i : Z) (a : A) : outcome E (list A) :=
  match zlookup l i with
  | Some _ => Val (<[Z.to_nat i := a]> l)
  | None => Panic "index out of range"
  end.

Definition sumZ {A} (f : A -> Z) (l : list A) : Z := foldr (fun x acc => f x + acc) 0 l.

Section lemmas.
Context {A : Type}.
Implicit Types (l : list A) (f g : A -> Z).

Lemma zlookup_nat l (n : nat) : zlookup l (Z.of_nat n) = l !! n.
Proof. unfold zlookup. rewrite Nat2Z.id. by destruct (Z.leb_spec 0 (Z.of_nat n)); [|lia]. Qed.

Lemma zlookup_Some l i a :
  zlookup l i = Some a <-> 0 <= i < len l /\ l !! Z.to_nat i = Some a.
Proof.
  unfold zlookup, len. destruct (Z.leb_spec 0 i); split.
  - intros H1. split; [|done]. apply lookup_lt_Some in H1. lia.
  - naive_solver.
  - done.
  - lia.
Qed.

Lemma zlookup_None l i : zlookup l i = None <-> i < 0 \/ len l <= i.
Proof.
  unfold zlookup, len. destruct (Z.leb_spec 0 i).
  - rewrite lookup_ge_None. lia.
  - naive_solver lia.
Qed.

Lemma slice_get_val {E} l i a :
  slice_get (E := E) l i = Val a <-> 0 <= i < len l /\ l !! Z.to_nat i = Some a.
Proof. rewrite <- zlookup_Some. unfold slice_get. destruct (zlookup l i); naive_solver. Qed.

Lemma slice_set_val {E} l i a l' :
  slice_set (E := E) l i a = Val l' <-> 0 <= i < len l /\ l' = <[Z.to_nat i := a]> l.
Proof.
  unfold slice_set. destruct (zlookup l i) eqn:H.
  - apply zlookup_Some in H. naive_solver.
  - apply zlookup_None in H. naive_solver lia.
Qed.

Lemma sumZ_app f l1 l2 : sumZ f (l1 ++ l2) = sumZ f l1 + sumZ f l2.
Proof. unfold sumZ. induction l1; simpl; lia. Qed.

Lemma sumZ_nonneg f l : Forall (fun x => 0 <= f x) l -> 0 <= sumZ f l.
Proof. unfold sumZ. induction 1; simpl; lia. Qed.

Lemma sumZ_ext f g l : Forall (fun x => f x = g x) l -> sumZ f l = sumZ g l.
Proof. unfold sumZ. induction 1; simpl; lia. Qed.

Lemma sumZ_le f g l : Forall (fun x => f x <= g x) l -> sumZ f l <= sumZ g l.
Proof. unfold sumZ. induction 1; simpl; lia. Qed.

Lemma sumZ_add f g l : sumZ (fun x => f x + g x) l = sumZ f l + sumZ g l.
Proof. unfold sumZ. induction l; simpl; lia. Qed.

Lemma sumZ_const c l : sumZ (fun _ => c) l = c * len l.
Proof. unfold sumZ, len. induction l; simpl length; [simpl; lia|]. simpl foldr. lia. Qed.

Lemma sumZ_elem_le f l x :
  x ∈ l -> Forall (fun x => 0 <= f x) l -> f x <= sumZ f l.
Proof.
  intros Hin. induction 1 as [|y l Hy Hl IH]; [by apply not_elem_of_nil in Hin|].
  apply sumZ_nonneg in Hl. unfold sumZ in *. simpl.
  apply elem_of_cons in Hin as [->|Hin]; [lia|]. specialize (IH Hin). lia.
Qed.

Lemma sumZ_insert f l i x y :
  l !! i = Some x -> sumZ f (<[i := y]> l) = sumZ f l - f x + f y.
Proof.
  revert i. unfold sumZ. induction l as [|z l IH]; intros [|i] H; simpl in *; simplify_eq; [lia|].
  rewrite (IH i H). lia.
Qed.

Lemma sumZ_map {B} (h : B -> A) f (l : list B) : sumZ f (h <$> l) = sumZ (fun b => f (h b)) l.
Proof. unfold sumZ. induction l; [done|]. rewrite fmap_cons. simpl. lia. Qed.

#[export] Instance sumZ_perm f : Proper (Permutation ==> eq) (sumZ f).
Proof. intros l1 l2. unfold sumZ. induction 1; simpl; lia. Qed.
Lemma filter_ext_elem (P Q : A -> Prop) `{!forall x, Decision (P x), !forall x, Decision (Q x)} l :
  (forall x, x ∈ l -> P x <-> Q x) -> filter P l = filter Q l.
Proof.
  induction l as [|x l IH]; intros Hiff; [done|]. rewrite !filter_cons.
  rewrite IH by (intros; apply Hiff; by right). pose proof (Hiff x ltac:(left)).
  repeat case_decide; naive_solver.
Qed.
Lemma filter_all (P : A -> Prop) `{!forall x, Decision (P x)} l :
  (forall x, x ∈ l -> P x) -> filter P l = l.
Proof.
  induction l as [|x l IH]; intros HP; [done|].
  rewrite filter_cons, decide_True by (apply HP; left). f_equal. apply IH. intros y Hy. apply HP. by right.
Qed.
Lemma filter_none (P : A -> Prop) `{!forall x, Decision (P x)} l :
  (forall x, x ∈ l -> ~ P x) -> filter P l = [].
Proof.
  induction l as [|x l IH]; intros HP; [done|].
  rewrite filter_cons, decide_False by (apply HP; left). apply IH. intros y Hy. apply HP. by right.
Qed.
Lemma StronglySorted_filter_sub (R : A -> A -> Prop) (P : A -> Prop) `{!forall x, Decision (P x)} l :
  StronglySorted R l -> StronglySorted R (filter P l).
Proof.
  induction 1 as [|x l Hl IH Hx]; [constructor|]. rewrite filter_cons.
  case_decide; [|done]. constructor; [done|].
  rewrite Forall_forall in *. intros y [_ Hy]%list_elem_of_filter. auto.
Qed.
End lemmas.

Lemma StronglySorted_seqZ m n : StronglySorted Z.lt (seqZ m n).
Proof.
  destruct (Z.le_ge_cases 0 n) as [Hn|Hn]; [|rewrite seqZ_nil by lia; constructor].
  revert m. apply (Zlt_0_ind (fun n => forall m, StronglySorted Z.lt (seqZ m n))); [|done].
  clear. intros n IH Hn m. destruct (decide (n = 0)) as [->|]; [constructor|].
  rewrite seqZ_cons by lia. constructor; [apply IH; lia|]. apply Forall_seqZ. lia.
Qed.

End Slices.

(** ** [sort.Sort]: a stable insertion sort by a boolean [Less]

    On the strict total orders the source sorts by, every sorting algorithm
    gives the same list ([sort_unique]). *)

Module Export GoSort.
Section sort.
Context {A : Type} (less : A -> A -> bool).

Fixpoint sort_insert (x : A) (l : list A) : list A :=
  match l with
  | [] => [x]
  | y :: l' => if less y x then y :: sort_insert x l' else x :: y :: l'
  end.

Definition sort_by (l : list A) : list A := foldr sort_insert [] l.

(** [a] may stand before [b] in a sorted list. *)
Definition sort_le (a b : A) : Prop := less b a = false.

Lemma sort_insert_perm x l : sort_insert x l ≡ₚ x :: l.
Proof.
  induction l as [|y l IH]; simpl; [done|].
  destruct (less y x); [|done]. rewrite IH. apply Permutation_swap.
Qed.

Lemma sort_by_perm l : sort_by l ≡ₚ l.
Proof.
  induction l as [|x l IH]; simpl; [done|]. by rewrite sort_insert_perm, IH.
Qed.

Hypothesis less_asym : forall a b, less a b = true -> less b a = false.
Hypothesis le_trans : forall a b c, sort_le a b -> sort_le b c -> sort_le a c.

Lemma sort_insert_sorted x l :
  StronglySorted sort_le l -> StronglySorted sort_le (sort_insert x l).
Proof.
  induction 1 as [|y l Hl IH Hy]; simpl; [by repeat constructor|].
  destruct (less y x) eqn:Hyx.
  - constructor; [done|]. rewrite sort_insert_perm. constructor; [|done].
    by apply less_asym.
  - constructor; [by constructor|]. constructor; [done|].
    eapply Forall_impl; [done|]. intros z Hz. by apply (le_trans _ y).
Qed.

Lemma sort_by_sorted l : StronglySorted sort_le (sort_by l).
Proof. induction l; simpl; [constructor|]. by apply sort_insert_sorted. Qed.

(** A sorted permutation is unique when the order separates its elements. *)
Lemma sort_unique l l1 l2 :
  (forall a b, a ∈ l -> b ∈ l -> sort_le a b -> sort_le b a -> a = b) ->
  l1 ≡ₚ l -> l2 ≡ₚ l -> StronglySorted sort_le l1 -> StronglySorted sort_le l2 -> l1 = l2.
Proof.
  intros Hanti H1 H2 Hs1 Hs2.
  assert (H12 : l1 ≡ₚ l2) by (by rewrite H1).
  assert (Hanti1 : forall a b, a ∈ l1 -> b ∈ l1 -> sort_le a b -> sort_le b a -> a = b).
  { intros a b Ha Hb. apply Hanti; by rewrite <- H1. }
  clear Hanti H1 H2 l. revert l2 Hs2 H12.
  induction Hs1 as [|x l1 Hs1 IH Hx]; intros l2 Hs2 H12.
  - symmetry. apply Permutation_nil. done.
  - destruct Hs2 as [|y l2 Hs2 Hy]; [by apply Permutation_sym, Permutation_nil_cons in H12|].
    assert (x = y) as ->.
    { assert (Hxin : x ∈ y :: l2) by (rewrite <- H12; left).
      assert (Hyin : y ∈ x :: l1) by (rewrite H12; left).
      apply elem_of_cons in Hxin as [?|Hxin]; [done|].
      apply elem_of_cons in Hyin as [?|Hyin]; [done|].
      rewrite Forall_forall in Hx, Hy.
      apply Hanti1; [left|by right|by apply Hx|by apply Hy]. }
    f_equal. apply IH; [|done|by apply Permutation_cons_inv in H12].
    intros a b Ha Hb. apply Hanti1; by right.
Qed.
End sort.
End GoSort.

(** ** Hints shared by the components *)

Create HintDb tm.
Create Rewrite HintDb tm.
#[export] Hint Resolve bytes_equal_refl bytes_ltb_irrefl sumZ_nonneg int64_range
  int32_range uint64_range uint32_range sort_by_perm : tm.
#[export] Hint Rewrite @sumZ_app @sumZ_add @sumZ_const : tm.
