(* ===== verification/Merkle.v ===== *)
(** * crypto/merkle: RFC-6962 style Merkle trees and inclusion proofs

    Models [hash.go], [tree.go] and [proof.go].  SHA-256 is a parameter of the
    whole file; the only fact used about it is the length of its digests. *)
From Stdlib Require Import ZArith Lia Strings.Byte.
From stdpp Require Import base list strings.
From S2P Require Import Prelude.

(** What the rest of the development relies on about SHA-256. *)
Class Sha256 : Type := {
  sha256 : bytes -> bytes;
  sha256_length : forall b, length (sha256 b) = 32%nat
}.

Section merkle.
Context `{Sha256}.

(** ** tmhash and hash.go *)

(** crypto/tmhash [Sum] and [Size]. *)
Definition tmhash_Sum (bz : bytes) : bytes := sha256 bz.
Definition tmhash_Size : Z := 32.

(** Go's [hash.Hash]: the state is what was written since the last reset. *)
Definition hasher_reset : bytes := [].
Definition hasher_write (s p : bytes) : bytes := s ++ p.
Definition hasher_sum (s : bytes) : bytes := sha256 s.

Definition leafPrefix : bytes := [x00].
Definition innerPrefix : bytes := [x01].

Definition emptyHash : bytes := tmhash_Sum [].
Definition leafHash (leaf : bytes) : bytes := tmhash_Sum (leafPrefix ++ leaf).
Definition leafHashOpt (leaf : bytes) : bytes :=
  hasher_sum (hasher_write (hasher_write hasher_reset leafPrefix) leaf).
Definition innerHash (left right : bytes) : bytes :=
  tmhash_Sum (innerPrefix ++ left ++ right).
Definition innerHashOpt (left right : bytes) : bytes :=
  hasher_sum (hasher_write (hasher_write (hasher_write hasher_reset innerPrefix) left) right).

(** ** tree.go *)

(** [bits.Len]: the number of bits needed to write [u]. *)
Definition bits_Len (u : Z) : Z := if u =? 0 then 0 else Z.log2 u + 1.

Definition getSplitPoint (length : Z) : go Z :=
  _ ← panic_if (length <? 1) "Trying to split a tree with size < 1";
  let bitlen := bits_Len (uint64 length) in
  let k := int64 (Z.shiftl 1 (bitlen - 1)) in
  Val (if k =? length then Z.shiftr k 1 else k).

(** The recursion halves a list of at least two items: [length items] is
    enough fuel ([hashFromByteSlices_total]). *)
Fixpoint hashFromByteSlices (fuel : nat) (items : list bytes) : go bytes :=
  match items with
  | [] => Val emptyHash
  | [item] => Val (leafHashOpt item)
  | _ =>
      match fuel with
      | O => Panic "out of fuel"
      | S fuel' =>
          k ← getSplitPoint (len items);
          left ← hashFromByteSlices fuel' (take (Z.to_nat k) items);
          right ← hashFromByteSlices fuel' (drop (Z.to_nat k) items);
          Val (innerHashOpt left right)
      end
  end.

Definition HashFromByteSlices (items : list bytes) : go bytes :=
  hashFromByteSlices (length items) items.

(** One pass of the inner loop: [items] is rewritten in place, [rp] and [wp]
    are the read and write positions; the result is the array and the new size. *)
Fixpoint iterative_level (fuel : nat) (items : list bytes) (size rp wp : Z)
    : go (list bytes * Z) :=
  if rp <? size then
    match fuel with
    | O => Panic "out of fuel"
    | S fuel' =>
        if rp + 1 <? size then
          a ← slice_get items rp;
          b ← slice_get items (rp + 1);
          items' ← slice_set items wp (innerHashOpt a b);
          iterative_level fuel' items' size (rp + 2) (wp + 1)
        else
          a ← slice_get items rp;
          items' ← slice_set items wp a;
          iterative_level fuel' items' size (rp + 1) (wp + 1)
    end
  else Val (items, wp).

Fixpoint iterative_loop (fuel : nat) (items : list bytes) (size : Z) : go bytes :=
  if size =? 0 then Val emptyHash
  else if size =? 1 then slice_get items 0
  else
    match fuel with
    | O => Panic "out of fuel"
    | S fuel' =>
        '(items', size') ← iterative_level (length items) items size 0 0;
        iterative_loop fuel' items' size'
    end.

Definition HashFromByteSlicesIterative (input : list bytes) : go bytes :=
  iterative_loop (length input) (leafHash <$> input) (len input).

(** ** proof.go *)

Definition MaxAunts : Z := 100.

(** [LeafHash] is [None] for a nil slice: [computeHashFromAunts] tests it. *)
Record Proof := mkProof {
  Total : Z;
  Index : Z;
  LeafHash : option bytes;
  Aunts : list bytes
}.

Inductive ProofError :=
  | ErrProofTotalNegative
  | ErrProofIndexNegative
  | ErrInvalidLeafHash
  | ErrInvalidRootHash
  | ErrLeafHashSize
  | ErrTooManyAunts
  | ErrAuntSize.

(** The recursion drops the last of [innerHashes] at each call, so the
    recursive function reads the list from its end. *)
Fixpoint computeHashFromAunts_rev (index total : Z) (leaf : option bytes)
    (rev_innerHashes : list bytes) : go (option bytes) :=
  if (index >=? total) || (index <? 0) || (total <=? 0) then Val None
  else if total =? 1 then
    Val (match rev_innerHashes with [] => leaf | _ => None end)
  else
    match rev_innerHashes with
    | [] => Val None
    | last :: init =>
        numLeft ← getSplitPoint total;
        if index <? numLeft then
          leftHash ← computeHashFromAunts_rev index numLeft leaf init;
          Val (match leftHash with None => None | Some h => Some (innerHash h last) end)
        else
          rightHash ← computeHashFromAunts_rev (index - numLeft) (total - numLeft) leaf init;
          Val (match rightHash with None => None | Some h => Some (innerHash last h) end)
    end.

Definition computeHashFromAunts (index total : Z) (leaf : option bytes)
    (innerHashes : list bytes) : go (option bytes) :=
  computeHashFromAunts_rev index total leaf (rev innerHashes).

Definition ComputeRootHash (sp : Proof) : go (option bytes) :=
  computeHashFromAunts (Index sp) (Total sp) (LeafHash sp) (Aunts sp).

(** [bytes.Equal] does not distinguish nil from empty. *)
Definition Verify (sp : Proof) (rootHash leaf : bytes) : outcome ProofError unit :=
  _ ← fail_if (Total sp <? 0) ErrProofTotalNegative;
  _ ← fail_if (Index sp <? 0) ErrProofIndexNegative;
  _ ← fail_if (negb (bytes_equal (default [] (LeafHash sp)) (leafHash leaf))) ErrInvalidLeafHash;
  computedHash ← lift (ComputeRootHash sp);
  fail_if (negb (bytes_equal (default [] computedHash) rootHash)) ErrInvalidRootHash.

Fixpoint check_aunts (aunts : list bytes) : outcome ProofError unit :=
  match aunts with
  | [] => Val tt
  | auntHash :: rest =>
      _ ← fail_if (negb (len auntHash =? tmhash_Size)) ErrAuntSize;
      check_aunts rest
  end.

Definition Proof_ValidateBasic (sp : Proof) : outcome ProofError unit :=
  _ ← fail_if (Total sp <? 0) ErrProofTotalNegative;
  _ ← fail_if (Index sp <? 0) ErrProofIndexNegative;
  _ ← fail_if (negb (len (default [] (LeafHash sp)) =? tmhash_Size)) ErrLeafHashSize;
  _ ← fail_if (len (Aunts sp) >? MaxAunts) ErrTooManyAunts;
  check_aunts (Aunts sp).

(** A [ProofNode] without its [Parent] pointer; the sibling pointers are only
    read for their hash. *)
Record ProofNode := mkProofNode {
  pn_Hash : bytes;
  pn_Left : option bytes;
  pn_Right : option bytes
}.

(** A trail: the nodes met by following [Parent] from a leaf to the root.
    All trails of a subtree end in the same (shared) root node, so assigning
    to the root's fields rewrites the last node of every trail. *)
Abbreviation trail := (list ProofNode).

Fixpoint update_root (f : ProofNode -> ProofNode) (root : ProofNode) (t : trail) : trail :=
  match t with
  | [] => []
  | [n] => [f n; root]
  | n :: t' => n :: update_root f root t'
  end.

Definition set_Right (h : bytes) (n : ProofNode) : ProofNode :=
  mkProofNode (pn_Hash n) (pn_Left n) (Some h).
Definition set_Left (h : bytes) (n : ProofNode) : ProofNode :=
  mkProofNode (pn_Hash n) (Some h) (pn_Right n).

Definition FlattenAunts (t : trail) : list bytes :=
  omap (fun n => match pn_Left n with Some h => Some h | None => pn_Right n end) t.

Fixpoint trailsFromByteSlices (fuel : nat) (items : list bytes)
    : go (list trail * ProofNode) :=
  match items with
  | [] => Val ([], mkProofNode emptyHash None None)
  | [item] =>
      let n := mkProofNode (leafHash item) None None in Val ([[n]], n)
  | _ =>
      match fuel with
      | O => Panic "out of fuel"
      | S fuel' =>
          k ← getSplitPoint (len items);
          '(lefts, leftRoot) ← trailsFromByteSlices fuel' (take (Z.to_nat k) items);
          '(rights, rightRoot) ← trailsFromByteSlices fuel' (drop (Z.to_nat k) items);
          let root := mkProofNode (innerHash (pn_Hash leftRoot) (pn_Hash rightRoot)) None None in
          Val ((update_root (set_Right (pn_Hash rightRoot)) root <$> lefts) ++
               (update_root (set_Left (pn_Hash leftRoot)) root <$> rights), root)
      end
  end.

Definition trail_hash (t : trail) : option bytes := pn_Hash <$> head t.

Definition ProofsFromByteSlices (items : list bytes) : go (bytes * list Proof) :=
  '(trails, rootSPN) ← trailsFromByteSlices (length items) items;
  Val (pn_Hash rootSPN,
       imap (fun i t => mkProof (len items) (Z.of_nat i) (trail_hash t) (FlattenAunts t)) trails).


(** ** The split point *)

Definition split_point (n : Z) : Z :=
  if 2 ^ Z.log2 n =? n then 2 ^ Z.log2 n / 2 else 2 ^ Z.log2 n.

Lemma getSplitPoint_val n :
  1 <= n <= MaxInt64 -> getSplitPoint n = Val (split_point n).
Proof.
  intros Hn. unfold getSplitPoint, split_point, bits_Len.
  destruct (Z.ltb_spec n 1); [int_lia|]. simpl. unfold mbind; simpl.
  rewrite uint64_id by int_lia.
  destruct (Z.eqb_spec n 0); [lia|].
  replace (Z.log2 n + 1 - 1) with (Z.log2 n) by lia.
  pose proof (Z.log2_spec n). pose proof (Z.log2_nonneg n).
  rewrite Z.shiftl_1_l, int64_id by int_lia.
  rewrite Z.shiftr_div_pow2 by lia. done.
Qed.

Lemma split_point_spec n :
  2 <= n -> exists e, 0 <= e /\ split_point n = 2 ^ e /\ split_point n < n <= 2 * split_point n.
Proof.
  intros Hn. unfold split_point.
  pose proof (Z.log2_spec n ltac:(lia)) as Hl.
  pose proof (Z.log2_pos n ltac:(lia)) as Hp.
  assert (Hs : 2 ^ Z.log2 n = 2 * 2 ^ (Z.log2 n - 1)).
  { rewrite <- Z.pow_succ_r by lia. f_equal. lia. }
  rewrite Z.pow_succ_r in Hl by lia.
  destruct (Z.eqb_spec (2 ^ Z.log2 n) n) as [He|He].
  - exists (Z.log2 n - 1). rewrite Hs, Z.mul_comm, Z.div_mul by lia. lia.
  - exists (Z.log2 n). lia.
Qed.

(** A power of two strictly below [n] with [n] at most twice as big is the split point. *)
Lemma split_point_unique n e :
  2 <= n -> 0 <= e -> 2 ^ e < n <= 2 * 2 ^ e -> split_point n = 2 ^ e.
Proof.
  intros Hn He Hr. destruct (split_point_spec n Hn) as (e' & He' & -> & Hr').
  f_equal. rewrite <- !Z.pow_succ_r in * by lia.
  apply Z.le_antisymm.
  - assert (2 ^ e' < 2 ^ Z.succ e) as Hlt by lia.
    apply Z.pow_lt_mono_r_iff in Hlt; lia.
  - assert (2 ^ e < 2 ^ Z.succ e') as Hlt by lia.
    apply Z.pow_lt_mono_r_iff in Hlt; lia.
Qed.

(** The split of a list of [n >= 2] items. *)
Definition split_nat {A} (l : list A) : nat := Z.to_nat (split_point (len l)).

Lemma split_nat_bounds {A} (l : list A) :
  (2 <= length l)%nat -> (0 < split_nat l < length l)%nat.
Proof.
  intros Hl. unfold split_nat, len.
  destruct (split_point_spec (Z.of_nat (length l)) ltac:(lia)) as (e & He & Heq & Hr).
  lia.
Qed.

(** Induction that follows the recursion of the tree functions. *)
Lemma split_ind {A} (P : list A -> Prop) :
  P [] -> (forall x, P [x]) ->
  (forall l, (2 <= length l)%nat ->
     P (take (split_nat l) l) -> P (drop (split_nat l) l) -> P l) ->
  forall l, P l.
Proof.
  intros H0 H1 H2 l.
  remember (length l) as n eqn:Hn. revert l Hn.
  induction n as [n IH] using lt_wf_ind. intros l ->.
  destruct l as [|x [|y l]]; [done..|].
  assert (Hb := split_nat_bounds (x :: y :: l) ltac:(simpl; lia)).
  apply H2; [simpl; lia|eapply IH; [|done]..].
  - rewrite length_take. lia.
  - rewrite length_drop. lia.
Qed.

(** ** The reference: the root of a list of node hashes *)

Fixpoint root_fuel (fuel : nat) (nodes : list bytes) : bytes :=
  match nodes with
  | [] => emptyHash
  | [x] => x
  | _ =>
      match fuel with
      | O => []
      | S f => innerHash (root_fuel f (take (split_nat nodes) nodes))
                 (root_fuel f (drop (split_nat nodes) nodes))
      end
  end.

Definition root_of (nodes : list bytes) : bytes := root_fuel (length nodes) nodes.

Lemma split_nat_lengths {A} (l : list A) n :
  (2 <= length l <= S n)%nat ->
  (length (take (split_nat l) l) <= n)%nat /\ (length (drop (split_nat l) l) <= n)%nat.
Proof.
  intros Hl. pose proof (split_nat_bounds l ltac:(lia)).
  rewrite length_take, length_drop. lia.
Qed.

Lemma root_fuel_enough f f' nodes :
  (length nodes <= f)%nat -> (length nodes <= f')%nat -> root_fuel f nodes = root_fuel f' nodes.
Proof.
  revert f f'. induction nodes as [|x|l Hl IH1 IH2] using split_ind; intros f f' Hf Hf'.
  - by destruct f, f'.
  - by destruct f, f'.
  - destruct f as [|f], f' as [|f']; [lia..|].
    destruct (split_nat_lengths l f ltac:(lia)), (split_nat_lengths l f' ltac:(lia)).
    destruct l as [|x [|y l]]; simpl in Hl; [lia..|].
    cbn [root_fuel]. f_equal; [by apply IH1|by apply IH2].
Qed.

Lemma root_of_split nodes :
  (2 <= length nodes)%nat ->
  root_of nodes =
    innerHash (root_of (take (split_nat nodes) nodes)) (root_of (drop (split_nat nodes) nodes)).
Proof.
  intros Hl. unfold root_of at 1. destruct (length nodes) as [|n] eqn:Hn; [lia|].
  destruct (split_nat_lengths nodes n ltac:(lia)).
  destruct nodes as [|x [|y l]]; simpl in Hl, Hn; [lia..|].
  cbn [root_fuel]. unfold root_of. f_equal; by apply root_fuel_enough.
Qed.

Lemma split_nat_fmap {A B} (f : A -> B) (l : list A) : split_nat (f <$> l) = split_nat l.
Proof. unfold split_nat, len. by rewrite length_fmap. Qed.

Lemma root_of_length nodes :
  Forall (fun b => length b = 32%nat) nodes -> length (root_of nodes) = 32%nat.
Proof.
  intros Hn. destruct (decide (2 <= length nodes)%nat) as [Hl|Hl].
  - rewrite root_of_split by done. apply sha256_length.
  - destruct nodes as [|x [|]]; simpl in Hl; [apply sha256_length| |lia].
    by inversion Hn.
Qed.

(** ** The recursive hash computes the root and never panics *)

Lemma leafHashOpt_eq leaf : leafHashOpt leaf = leafHash leaf.
Proof. done. Qed.
Lemma innerHashOpt_eq l r : innerHashOpt l r = innerHash l r.
Proof.
  unfold innerHashOpt, innerHash, hasher_sum, hasher_write, hasher_reset, tmhash_Sum.
  by rewrite app_nil_l, <- app_assoc.
Qed.

Lemma hashFromByteSlices_total fuel items :
  (length items <= fuel)%nat -> len items <= MaxInt64 ->
  hashFromByteSlices fuel items = Val (root_of (leafHash <$> items)).
Proof.
  revert fuel. induction items as [|x|l Hl IH1 IH2] using split_ind; intros fuel Hf Hm.
  - by destruct fuel.
  - by destruct fuel.
  - rewrite root_of_split by (by rewrite length_fmap).
    rewrite <- fmap_take, <- fmap_drop, split_nat_fmap.
    destruct fuel as [|f]; [lia|].
    destruct (split_nat_lengths l f ltac:(lia)) as [Ht Hd].
    assert (Hs : getSplitPoint (len l) = Val (split_point (len l))).
    { apply getSplitPoint_val. unfold len in *. lia. }
    unfold len in *. rewrite length_take in *. rewrite length_drop in *.
    specialize (IH1 f ltac:(lia) ltac:(lia)). specialize (IH2 f ltac:(lia) ltac:(lia)).
    destruct l as [|x [|y l]]; simpl in Hl; [lia..|].
    cbn [hashFromByteSlices]. unfold len. rewrite Hs. unfold mbind, outcome_bind.
    fold (len (x :: y :: l)). fold (split_nat (x :: y :: l)).
    rewrite IH1, IH2. by rewrite innerHashOpt_eq.
Qed.

Lemma HashFromByteSlices_root items :
  len items <= MaxInt64 -> HashFromByteSlices items = Val (root_of (leafHash <$> items)).
Proof. intros. by apply hashFromByteSlices_total. Qed.

(** ** The iterative hash *)

(** What one level of the iterative algorithm computes. *)
Fixpoint pair_up (nodes : list bytes) : list bytes :=
  match nodes with
  | a :: b :: rest => innerHash a b :: pair_up rest
  | _ => nodes
  end.

Lemma pair_up_app l1 l2 :
  Nat.Even (length l1) -> pair_up (l1 ++ l2) = pair_up l1 ++ pair_up l2.
Proof.
  intros [m Hm]. revert l1 Hm. induction m as [|m IH]; intros l1 Hm.
  - by destruct l1.
  - destruct l1 as [|a [|b l1]]; simpl in Hm; [lia..|].
    simpl. f_equal. apply IH. lia.
Qed.

Lemma length_pair_up l : length (pair_up l) = Nat.div2 (S (length l)).
Proof.
  induction l as [l IH] using (induction_ltof1 _ (@length bytes)).
  destruct l as [|a [|b l]]; [done..|]. cbn [pair_up length]. rewrite IH; [done|].
  unfold ltof. simpl. lia.
Qed.

(** Halving: the split point of the paired level is half the split point. *)
Lemma split_point_half n :
  3 <= n -> exists k, split_point n = 2 * k /\ split_point ((n + 1) / 2) = k.
Proof.
  intros Hn. destruct (split_point_spec n ltac:(lia)) as (e & He & Hk & Hr).
  assert (e <> 0) by (intros ->; rewrite Hk in Hr; lia).
  exists (2 ^ (e - 1)).
  assert (H2 : 2 * 2 ^ (e - 1) = 2 ^ e) by (rewrite <- Z.pow_succ_r by lia; f_equal; lia).
  split; [lia|]. rewrite Hk in Hr.
  apply split_point_unique; [apply Z.div_le_lower_bound; lia|lia|].
  split; [apply Z.lt_le_trans with (2 ^ (e - 1) + 1); [lia|]|].
  - apply Z.div_le_lower_bound; lia.
  - assert ((n + 1) / 2 < 2 ^ e + 1) by (apply Z.div_lt_upper_bound; lia). lia.
Qed.

Lemma pair_up_split nodes :
  (3 <= length nodes)%nat ->
  take (split_nat (pair_up nodes)) (pair_up nodes) = pair_up (take (split_nat nodes) nodes) /\
  drop (split_nat (pair_up nodes)) (pair_up nodes) = pair_up (drop (split_nat nodes) nodes).
Proof.
  intros Hl. destruct (split_point_half (len nodes)) as (k & Hk & Hk2); [unfold len; lia|].
  pose proof (split_nat_bounds nodes ltac:(lia)) as Hb.
  assert (Hs : split_nat nodes = (2 * Z.to_nat k)%nat) by (unfold split_nat in *; lia).
  assert (Hs2 : split_nat (pair_up nodes) = Z.to_nat k).
  { unfold split_nat, len. rewrite length_pair_up, Nat.div2_div, Nat2Z.inj_div.
    rewrite Nat2Z.inj_succ. unfold len in Hk2. rewrite <- Hk2. do 3 f_equal. }
  assert (Hp : pair_up nodes =
    pair_up (take (split_nat nodes) nodes) ++ pair_up (drop (split_nat nodes) nodes)).
  { rewrite <- pair_up_app, take_drop; [done|].
    exists (Z.to_nat k). rewrite length_take. lia. }
  assert (Hlen : length (pair_up (take (split_nat nodes) nodes)) = split_nat (pair_up nodes)).
  { rewrite length_pair_up, length_take, Hs2, Hs, Nat.min_l by lia.
    rewrite Nat.div2_succ_double. done. }
  rewrite <- Hlen, Hp. by rewrite take_app_length, drop_app_length.
Qed.

Lemma root_of_pair_up nodes : root_of (pair_up nodes) = root_of nodes.
Proof.
  induction nodes as [|x|l Hl IH1 IH2] using split_ind; [done..|].
  destruct (decide (length l = 2%nat)) as [H2|H2].
  - destruct l as [|a [|b [|]]]; simplify_eq/=. done.
  - destruct (pair_up_split l ltac:(lia)) as [Ht Hd].
    rewrite (root_of_split (pair_up l)).
    2: { rewrite length_pair_up, Nat.div2_div. apply Nat.div_le_lower_bound; lia. }
    by rewrite Ht, Hd, IH1, IH2, <- root_of_split.
Qed.

Lemma take_S_insert {A} (l : list A) w x :
  (w < length l)%nat -> take (S w) (<[w := x]> l) = take w l ++ [x].
Proof.
  intros Hw. rewrite (take_S_r _ _ x) by (by apply list_lookup_insert_eq).
  by rewrite take_insert_ge.
Qed.

(** The write of the loop body keeps "prefix written so far ++ pairs still to
    read", both when two nodes are read and when one is left. *)
Lemma level_step2 items (w r m : nat) a b :
  (w <= r)%nat -> (w < length items)%nat ->
  items !! r = Some a -> items !! S r = Some b ->
  take (S w) (<[w := innerHashOpt a b]> items) ++
    pair_up (take m (drop (S (S r)) (<[w := innerHashOpt a b]> items))) =
  take w items ++ pair_up (take (S (S m)) (drop r items)).
Proof.
  intros Hw Hl Ha Hb. rewrite take_S_insert by done. rewrite drop_insert_lt by lia.
  rewrite (drop_S items a r Ha), (drop_S items b (S r) Hb). simpl.
  by rewrite innerHashOpt_eq, <- app_assoc.
Qed.

Lemma level_step1 items (w r : nat) a :
  (w <= r)%nat -> (w < length items)%nat -> items !! r = Some a ->
  take (S w) (<[w := a]> items) = take w items ++ pair_up (take 1 (drop r items)).
Proof.
  intros Hw Hl Ha. rewrite take_S_insert by done. by rewrite (drop_S items a r Ha).
Qed.

(** One pass of the inner loop writes the paired level over a prefix of the array. *)
Lemma iterative_level_spec fuel items size rp wp :
  0 <= wp <= rp -> rp <= size <= len items -> size - rp <= Z.of_nat fuel ->
  exists items' wp',
    iterative_level fuel items size rp wp = Val (items', wp') /\
    length items' = length items /\ 0 <= wp' /\
    take (Z.to_nat wp') items' =
      take (Z.to_nat wp) items ++ pair_up (take (Z.to_nat (size - rp)) (drop (Z.to_nat rp) items)).
Proof.
  revert items rp wp. induction fuel as [|fuel IH]; intros items rp wp Hw Hr Hf.
  { exists items, wp. simpl. destruct (Z.ltb_spec rp size); [lia|].
    replace (size - rp) with 0 by lia. simpl. rewrite app_nil_r. naive_solver lia. }
  cbn [iterative_level]. unfold len in Hr.
  destruct (Z.ltb_spec rp size) as [Hlt|].
  2: { exists items, wp. replace (size - rp) with 0 by lia. simpl. rewrite app_nil_r. naive_solver lia. }
  destruct (lookup_lt_is_Some_2 items (Z.to_nat rp)) as [a Ha]; [lia|].
  assert (Hga : slice_get (E := Empty_set) items rp = Val a).
  { apply slice_get_val. unfold len. split; [lia|done]. }
  assert (Hset : forall x, slice_set (E := Empty_set) items wp x = Val (<[Z.to_nat wp := x]> items)).
  { intros x. apply slice_set_val. unfold len. split; [lia|done]. }
  destruct (Z.ltb_spec (rp + 1) size) as [Hlt2|Hge].
  - destruct (lookup_lt_is_Some_2 items (Z.to_nat (rp + 1))) as [b Hb]; [lia|].
    assert (Hgb : slice_get (E := Empty_set) items (rp + 1) = Val b).
    { apply slice_get_val. unfold len. split; [lia|done]. }
    rewrite Hga; cbn [mbind outcome_bind]. rewrite Hgb; cbn [mbind outcome_bind].
    rewrite Hset; cbn [mbind outcome_bind].
    destruct (IH (<[Z.to_nat wp := innerHashOpt a b]> items) (rp + 2) (wp + 1))
      as (items' & wp' & -> & Hlen & Hwp & Htake);
      [lia|unfold len; rewrite length_insert; lia|lia|].
    rewrite length_insert in Hlen. exists items', wp'. repeat split; [done..|].
    rewrite Htake.
    replace (Z.to_nat (wp + 1)) with (S (Z.to_nat wp)) by lia.
    replace (Z.to_nat (rp + 2)) with (S (S (Z.to_nat rp))) by lia.
    replace (Z.to_nat (size - rp)) with (S (S (Z.to_nat (size - (rp + 2))))) by lia.
    replace (Z.to_nat (rp + 1)) with (S (Z.to_nat rp)) in Hb by lia.
    apply level_step2; [lia..|done|done].
  - rewrite Hga; cbn [mbind outcome_bind]. rewrite Hset; cbn [mbind outcome_bind].
    destruct (IH (<[Z.to_nat wp := a]> items) (rp + 1) (wp + 1))
      as (items' & wp' & -> & Hlen & Hwp & Htake);
      [lia|unfold len; rewrite length_insert; lia|lia|].
    rewrite length_insert in Hlen. exists items', wp'. repeat split; [done..|].
    rewrite Htake.
    replace (Z.to_nat (wp + 1)) with (S (Z.to_nat wp)) by lia.
    replace (Z.to_nat (size - (rp + 1))) with 0%nat by lia.
    replace (Z.to_nat (size - rp)) with 1%nat by lia. cbn [pair_up take].
    rewrite app_nil_r. apply level_step1; [lia..|done].
Qed.

Lemma iterative_level_wp fuel items size rp wp items' wp' :
  iterative_level fuel items size rp wp = Val (items', wp') -> 0 <= size - rp ->
  wp <= wp' /\ wp' - wp <= size - rp /\ (rp + 1 < size -> wp' - wp < size - rp).
Proof.
  revert items rp wp. induction fuel as [|fuel IH]; intros items rp wp;
    cbn [iterative_level]; destruct (Z.ltb_spec rp size); try done;
    try (intros [= <- <-]; lia).
  destruct (Z.ltb_spec (rp + 1) size); intros Hv Hs; inv_val;
    match goal with Hv : iterative_level _ _ _ _ _ = _ |- _ => apply IH in Hv; lia end.
Qed.

Lemma iterative_loop_spec fuel items size :
  0 <= size <= len items -> size <= Z.of_nat fuel ->
  iterative_loop fuel items size = Val (root_of (take (Z.to_nat size) items)).
Proof.
  revert items size. induction fuel as [|fuel IH]; intros items size Hs Hf.
  { replace size with 0 by lia. done. }
  cbn [iterative_loop].
  destruct (Z.eqb_spec size 0) as [->|]; [done|].
  destruct (Z.eqb_spec size 1) as [->|].
  { destruct items as [|x l]; [unfold len in Hs; simpl in Hs; lia|done]. }
  unfold len in Hs.
  destruct (iterative_level_spec (length items) items size 0 0) as (items' & wp & Hv & Hl & Hw & Ht);
    [lia|unfold len; lia|lia|].
  rewrite Hv. cbn [mbind outcome_bind].
  apply iterative_level_wp in Hv; [|lia].
  assert (wp <= len items').
  { unfold len. rewrite Hl. lia. }
  rewrite IH by lia. simpl in Ht. rewrite Z.sub_0_r, drop_0 in Ht.
  by rewrite Ht, root_of_pair_up.
Qed.

Lemma HashFromByteSlicesIterative_root input :
  HashFromByteSlicesIterative input = Val (root_of (leafHash <$> input)).
Proof.
  unfold HashFromByteSlicesIterative. rewrite iterative_loop_spec.
  - unfold len. rewrite Nat2Z.id, take_ge; [done|]. by rewrite length_fmap.
  - unfold len. rewrite length_fmap. lia.
  - unfold len. lia.
Qed.

End merkle.
