(* ===== verification/MerkleProofs.v ===== *)
(** * crypto/merkle: completeness and soundness of inclusion proofs *)
From Stdlib Require Import ZArith Lia Strings.Byte.
From stdpp Require Import base list strings sets.
From S2P Require Import Prelude.
From S2P Require Import Merkle.

Abbreviation trail := (list ProofNode).

Section merkle_proofs.
Context `{Sha256}.

(** ** Completeness *)

Lemma computeHashFromAunts_single i leaf :
  computeHashFromAunts i 1 leaf [] = Val (if i =? 0 then leaf else None).
Proof.
  unfold computeHashFromAunts. simpl.
  destruct (Z.eqb_spec i 0) as [->|]; [done|].
  assert ((i >=? 1) || (i <? 0) = true)%bool as ->; [|done].
  destruct (Z.ltb_spec i 0); [by rewrite orb_true_r|]. rewrite Z.geb_leb.
  destruct (Z.leb_spec 1 i); [done|lia].
Qed.

Lemma computeHashFromAunts_snoc i n leaf aunts h :
  2 <= n <= MaxInt64 -> 0 <= i < n ->
  computeHashFromAunts i n leaf (aunts ++ [h]) =
    if i <? split_point n then
      x ← computeHashFromAunts i (split_point n) leaf aunts;
      Val (match x with None => None | Some x => Some (innerHash x h) end)
    else
      x ← computeHashFromAunts (i - split_point n) (n - split_point n) leaf aunts;
      Val (match x with None => None | Some x => Some (innerHash h x) end).
Proof.
  intros Hn Hi. unfold computeHashFromAunts. rewrite rev_app_distr.
  cbn [rev app computeHashFromAunts_rev].
  assert ((i >=? n) || (i <? 0) || (n <=? 0) = false)%bool as ->.
  { rewrite Z.geb_leb. destruct (Z.leb_spec n i), (Z.ltb_spec i 0), (Z.leb_spec n 0); naive_solver lia. }
  destruct (Z.eqb_spec n 1); [lia|].
  by rewrite getSplitPoint_val by lia.
Qed.

(** Assigning the parent and a sibling of the shared root extends every trail's aunts. *)
Lemma update_root_FlattenAunts f h r hash t root :
  (forall x, FlattenAunts [f (mkProofNode x None None)] = [h]) ->
  FlattenAunts [root] = [] ->
  last t = Some (mkProofNode hash None None) -> r = root ->
  FlattenAunts (update_root f r t) = FlattenAunts t ++ [h].
Proof.
  intros Hf Hr Hl ->. induction t as [|n t IH]; [done|].
  destruct t as [|n' t].
  - simpl in Hl. simplify_eq. specialize (Hf hash). simpl in *.
    destruct (f (mkProofNode hash None None)) as [? [] []], root as [? [] []]; by simplify_eq/=.
  - rewrite last_cons_cons in Hl. specialize (IH Hl).
    change (update_root f root (n :: n' :: t)) with (n :: update_root f root (n' :: t)).
    unfold FlattenAunts in *. cbn [omap list_omap].
    rewrite IH. by destruct (pn_Left n), (pn_Right n).
Qed.

Lemma update_root_last f root t : t <> [] -> last (update_root f root t) = Some root.
Proof.
  induction t as [|n [|n' t] IH]; intros Ht; [done..|].
  change (update_root f root (n :: n' :: t)) with (n :: update_root f root (n' :: t)).
  rewrite last_cons, IH by done. done.
Qed.

Lemma update_root_hash f root t :
  (forall n, pn_Hash (f n) = pn_Hash n) -> trail_hash (update_root f root t) = trail_hash t.
Proof. intros Hf. destruct t as [|n [|n' t]]; [done| |done]. unfold trail_hash. simpl. by rewrite Hf. Qed.

Definition trail_proves (n i : Z) (lh : bytes) (root : ProofNode) (t : trail) : Prop :=
  trail_hash t = Some lh /\ last t = Some root /\
  computeHashFromAunts i n (Some lh) (FlattenAunts t) = Val (Some (pn_Hash root)).

Lemma trail_proves_left n i lh hl hr t :
  2 <= n <= MaxInt64 -> 0 <= i < split_point n ->
  trail_proves (split_point n) i lh (mkProofNode hl None None) t ->
  let root := mkProofNode (innerHash hl hr) None None in
  trail_proves n i lh root (update_root (set_Right hr) root t).
Proof.
  intros Hn Hi (Hh & Hl & Hc) root.
  destruct (split_point_spec n ltac:(lia)) as (_ & _ & _ & Hsp).
  repeat split.
  - by rewrite update_root_hash.
  - apply update_root_last. by intros ->.
  - rewrite (update_root_FlattenAunts _ hr _ hl _ root) by done.
    rewrite computeHashFromAunts_snoc by lia.
    destruct (Z.ltb_spec i (split_point n)); [|lia]. by rewrite Hc.
Qed.

Lemma trail_proves_right n i lh hl hr t :
  2 <= n <= MaxInt64 -> split_point n <= i < n ->
  trail_proves (n - split_point n) (i - split_point n) lh (mkProofNode hr None None) t ->
  let root := mkProofNode (innerHash hl hr) None None in
  trail_proves n i lh root (update_root (set_Left hl) root t).
Proof.
  intros Hn Hi (Hh & Hl & Hc) root.
  destruct (split_point_spec n ltac:(lia)) as (e & He & Hp & Hsp).
  repeat split.
  - by rewrite update_root_hash.
  - apply update_root_last. by intros ->.
  - rewrite (update_root_FlattenAunts _ hl _ hr _ root) by done.
    rewrite computeHashFromAunts_snoc by lia.
    destruct (Z.ltb_spec i (split_point n)); [lia|]. by rewrite Hc.
Qed.

(** What [trailsFromByteSlices] returns: one trail per item, each proving it. *)
Definition trails_ok (items : list bytes) (trails : list trail) (root : ProofNode) : Prop :=
  root = mkProofNode (root_of (leafHash <$> items)) None None /\
  length trails = length items /\
  forall i t item, trails !! i = Some t -> items !! i = Some item ->
    trail_proves (len items) (Z.of_nat i) (leafHash item) root t.

Lemma trails_ok_join items tl rl tr rr :
  (2 <= length items)%nat -> len items <= MaxInt64 ->
  trails_ok (take (split_nat items) items) tl rl ->
  trails_ok (drop (split_nat items) items) tr rr ->
  let root := mkProofNode (innerHash (pn_Hash rl) (pn_Hash rr)) None None in
  trails_ok items ((update_root (set_Right (pn_Hash rr)) root <$> tl) ++
                   (update_root (set_Left (pn_Hash rl)) root <$> tr)) root.
Proof.
  intros Hlen Hmax (-> & Hll & Hl) (-> & Hlr & Hr) root.
  pose proof (split_nat_bounds items Hlen) as Hb.
  rewrite length_take in Hll. rewrite length_drop in Hlr.
  assert (Hsp : split_point (len items) = Z.of_nat (split_nat items)) by (unfold split_nat in *; lia).
  split; [|split].
  - unfold root. simpl. rewrite (root_of_split (leafHash <$> items)) by (by rewrite length_fmap).
    by rewrite split_nat_fmap, fmap_take, fmap_drop.
  - rewrite length_app, !length_fmap. lia.
  - intros i t item Hi Hitem. apply lookup_app_Some in Hi as [Hi|[Hge Hi]].
    + apply list_lookup_fmap_Some in Hi as (t' & -> & Ht').
      pose proof (lookup_lt_Some _ _ _ Ht').
      apply trail_proves_left; [unfold len in *; lia|lia|].
      rewrite Hsp. specialize (Hl i t' item Ht').
      unfold len in *. rewrite length_take, Nat.min_l in Hl by lia. apply Hl.
      rewrite lookup_take_lt by lia. done.
    + apply list_lookup_fmap_Some in Hi as (t' & -> & Ht').
      rewrite length_fmap in *. pose proof (lookup_lt_Some _ _ _ Ht').
      apply trail_proves_right; [unfold len in *; lia|unfold len in *; lia|].
      rewrite Hsp. specialize (Hr (i - length tl)%nat t' item Ht').
      unfold len in *. rewrite length_drop in Hr.
      replace (Z.of_nat (length items) - Z.of_nat (split_nat items))
        with (Z.of_nat (length items - split_nat items)) by lia.
      replace (Z.of_nat i - Z.of_nat (split_nat items)) with (Z.of_nat (i - length tl)) by lia.
      apply Hr. rewrite lookup_drop, <- Hitem. f_equal. lia.
Qed.

Lemma trailsFromByteSlices_ok fuel items :
  (length items <= fuel)%nat -> len items <= MaxInt64 ->
  exists trails root, trailsFromByteSlices fuel items = Val (trails, root) /\
    trails_ok items trails root.
Proof.
  revert fuel. induction items as [|x|l Hl IH1 IH2] using split_ind; intros fuel Hf Hm.
  - exists [], (mkProofNode emptyHash None None). by destruct fuel.
  - exists [[mkProofNode (leafHash x) None None]], (mkProofNode (leafHash x) None None).
    split; [by destruct fuel|]. split; [done|]. split; [done|].
    intros [|i] t item Ht Hitem; simplify_eq/=.
    unfold trail_proves, len. simpl. by rewrite computeHashFromAunts_single.
  - destruct fuel as [|f]; [lia|].
    destruct (split_nat_lengths l f ltac:(lia)) as [Ht Hd].
    destruct (IH1 f) as (tl & rl & Hvl & Hokl); [done|unfold len in *; rewrite length_take; lia|].
    destruct (IH2 f) as (tr & rr & Hvr & Hokr); [done|unfold len in *; rewrite length_drop; lia|].
    eexists _, _. split; [|by apply (trails_ok_join l tl rl tr rr)].
    assert (Hs : getSplitPoint (len l) = Val (split_point (len l))).
    { apply getSplitPoint_val. unfold len in *. lia. }
    destruct l as [|x [|y l]]; simpl in Hl; [lia..|].
    cbn [trailsFromByteSlices]. rewrite Hs. cbn [mbind outcome_bind].
    fold (split_nat (x :: y :: l)). rewrite Hvl. cbn [mbind outcome_bind]. by rewrite Hvr.
Qed.

(** The proofs produced for a list of items verify. *)
Lemma ProofsFromByteSlices_spec items :
  len items <= MaxInt64 ->
  exists root proofs,
    HashFromByteSlices items = Val root /\
    ProofsFromByteSlices items = Val (root, proofs) /\
    length proofs = length items /\
    forall i item, items !! i = Some item ->
      exists sp, proofs !! i = Some sp /\ Index sp = Z.of_nat i /\ Total sp = len items /\
        Verify sp root item = Val tt.
Proof.
  intros Hm. destruct (trailsFromByteSlices_ok (length items) items) as (trails & root & Hv & -> & Hl & Hok);
    [done..|].
  eexists _, _. rewrite HashFromByteSlices_root by done. split; [done|].
  unfold ProofsFromByteSlices. rewrite Hv. cbn [mbind outcome_bind pn_Hash].
  split; [done|]. rewrite length_imap. split; [done|].
  intros i item Hi. destruct (lookup_lt_is_Some_2 trails i) as [t Ht].
  { rewrite Hl. by eapply lookup_lt_Some. }
  rewrite list_lookup_imap, Ht. simpl. eexists. split; [done|]. simpl. do 2 (split; [done|]).
  destruct (Hok i t item Ht Hi) as (Hh & _ & Hc).
  unfold Verify, ComputeRootHash. cbn [Total Index LeafHash Aunts].
  unfold len. z_cases. go_step. rewrite Hh. simpl default.
  rewrite bytes_equal_refl. go_step. unfold len in Hc. rewrite Hc. go_step. simpl default.
  by rewrite bytes_equal_refl.
Qed.

(** Completeness of Merkle proofs.  [ProofsFromByteSlices] and
    [HashFromByteSlices] return the same root for any list of items, and the
    proof produced for each item carries its index and the number of items and
    is accepted by [Verify]. *)
Theorem merkle_proofs_verify items :
  len items <= MaxInt64 ->
  exists root proofs,
    HashFromByteSlices items = Val root /\
    ProofsFromByteSlices items = Val (root, proofs) /\
    length proofs = length items /\
    forall i item, items !! i = Some item ->
      exists sp, proofs !! i = Some sp /\ Index sp = Z.of_nat i /\ Total sp = len items /\
        Verify sp root item = Val tt.
Proof. apply ProofsFromByteSlices_spec. Qed.

(** ** Soundness

    A proof that verifies for a leaf that is not in the tree exhibits two
    different strings with the same digest: one hashed while verifying the
    proof, the other while hashing the tree. *)

(** The strings hashed when the root of [nodes] is computed. *)
Fixpoint tree_inputs (fuel : nat) (nodes : list bytes) : list bytes :=
  match nodes with
  | [] => [[]]
  | [_] => []
  | _ =>
      match fuel with
      | O => []
      | S f =>
          let l := take (split_nat nodes) nodes in
          let r := drop (split_nat nodes) nodes in
          (innerPrefix ++ root_of l ++ root_of r) :: tree_inputs f l ++ tree_inputs f r
      end
  end.

(** The strings hashed by [computeHashFromAunts]. *)
Fixpoint aunts_inputs (index total : Z) (leaf : option bytes) (rev_aunts : list bytes) : list bytes :=
  match rev_aunts with
  | [] => []
  | last :: init =>
      let k := split_point total in
      let inputs (h : go (option bytes)) (f : bytes -> bytes) :=
        match h with Val (Some h) => [innerPrefix ++ f h] | _ => [] end in
      if index <? k then
        inputs (computeHashFromAunts_rev index k leaf init) (fun h => h ++ last) ++
        aunts_inputs index k leaf init
      else
        inputs (computeHashFromAunts_rev (index - k) (total - k) leaf init) (fun h => last ++ h) ++
        aunts_inputs (index - k) (total - k) leaf init
  end.

Definition hash_collision (xs ys : list bytes) : Prop :=
  exists x y, x ∈ xs /\ y ∈ ys /\ x <> y /\ sha256 x = sha256 y.

Lemma hash_collision_mono xs ys xs' ys' :
  xs ⊆ xs' -> ys ⊆ ys' -> hash_collision xs ys -> hash_collision xs' ys'.
Proof. unfold hash_collision. set_solver. Qed.

Abbreviation digest32 := (fun b : bytes => length b = 32%nat).

Lemma computeHashFromAunts_rev_digest i n leaf aunts h :
  digest32 leaf -> n <= MaxInt64 ->
  computeHashFromAunts_rev i n (Some leaf) aunts = Val (Some h) -> digest32 h.
Proof.
  intros Hd Hn. destruct aunts as [|a aunts]; cbn [computeHashFromAunts_rev];
    destruct (_ || _ || _)%bool eqn:?; try done; destruct (Z.eqb_spec n 1);
    try (intros; by simplify_eq).
  intros Hv. inv_val. case_match; inv_val; case_match; simplify_eq; apply sha256_length.
Qed.

Lemma inner_preimage_inj h a l r :
  digest32 h -> digest32 l -> innerPrefix ++ h ++ a = innerPrefix ++ l ++ r -> h = l /\ a = r.
Proof. intros Hh Hl Heq. apply (inj (app innerPrefix)) in Heq. apply app_inj_1 in Heq; naive_solver lia. Qed.

(** One level: the two preimages agree, or they collide. *)
Lemma inner_step h a l r xs ys :
  innerHash h a = innerHash l r ->
  innerPrefix ++ h ++ a = innerPrefix ++ l ++ r \/
  hash_collision ((innerPrefix ++ h ++ a) :: xs) ((innerPrefix ++ l ++ r) :: ys).
Proof.
  intros He. destruct (decide (innerPrefix ++ h ++ a = innerPrefix ++ l ++ r)); [by left|].
  right. eexists _, _. split; [left|]. split; [left|]. done.
Qed.

Lemma compute_rev_inv i n leaf aunts h :
  2 <= n <= MaxInt64 ->
  computeHashFromAunts_rev i n leaf aunts = Val (Some h) ->
  exists a init, aunts = a :: init /\ 0 <= i < n /\
    (i < split_point n /\ (exists h', computeHashFromAunts_rev i (split_point n) leaf init = Val (Some h') /\
        h = innerHash h' a /\
        aunts_inputs i n leaf aunts = (innerPrefix ++ h' ++ a) :: aunts_inputs i (split_point n) leaf init)
     \/ split_point n <= i /\ (exists h', computeHashFromAunts_rev (i - split_point n) (n - split_point n) leaf init
          = Val (Some h') /\ h = innerHash a h' /\
        aunts_inputs i n leaf aunts =
          (innerPrefix ++ a ++ h') :: aunts_inputs (i - split_point n) (n - split_point n) leaf init)).
Proof.
  intros Hn. destruct aunts as [|a aunts]; cbn [computeHashFromAunts_rev];
    destruct (_ || _ || _)%bool eqn:Hb; try done; (destruct (Z.eqb_spec n 1); [lia|]); [done|].
  inv_val. z_bool. rewrite getSplitPoint_val by lia. go_step. intros Hv.
  exists a, aunts. split; [done|]. split; [lia|]. cbn [aunts_inputs].
  destruct (Z.ltb_spec i (split_point n)); inv_val; case_match; simplify_eq; [left|right];
    (split; [done|]); eexists; split; [done| |done|];
    (split; [done|]); match goal with Hc : computeHashFromAunts_rev _ _ _ _ = _ |- _ => by rewrite Hc end.
Qed.

(** The subtrees of a split and their sizes. *)
Lemma split_sizes (l : list bytes) :
  (2 <= length l)%nat ->
  split_point (len l) = Z.of_nat (split_nat l) /\
  len (take (split_nat l) l) = split_point (len l) /\
  len (drop (split_nat l) l) = len l - split_point (len l).
Proof.
  intros Hl. pose proof (split_nat_bounds l Hl) as Hb.
  assert (Hsp : split_point (len l) = Z.of_nat (split_nat l)) by (unfold split_nat in *; lia).
  rewrite Hsp. unfold len. rewrite length_take, length_drop. lia.
Qed.

Lemma tree_inputs_split f l :
  (2 <= length l)%nat ->
  tree_inputs (S f) l =
    (innerPrefix ++ root_of (take (split_nat l) l) ++ root_of (drop (split_nat l) l)) ::
    tree_inputs f (take (split_nat l) l) ++ tree_inputs f (drop (split_nat l) l).
Proof. intros Hl. destruct l as [|? [|? ?]]; simpl in Hl; [lia..|done]. Qed.

(** Soundness for one subtree of [nodes] at a time. *)
Definition sound_for (f : nat) (nodes : list bytes) (leaf : bytes) : Prop :=
  forall i aunts, Forall digest32 aunts ->
  computeHashFromAunts_rev i (len nodes) (Some leaf) aunts = Val (Some (root_of nodes)) ->
  zlookup nodes i = Some leaf \/
  hash_collision (aunts_inputs i (len nodes) (Some leaf) aunts) (tree_inputs f nodes).

Lemma sound_left f l i leaf a init h' :
  (2 <= length l)%nat -> len l <= MaxInt64 -> Forall digest32 l -> Forall digest32 init ->
  digest32 leaf -> sound_for f (take (split_nat l) l) leaf ->
  innerHash h' a = root_of l ->
  computeHashFromAunts_rev i (split_point (len l)) (Some leaf) init = Val (Some h') ->
  zlookup l i = Some leaf \/
  hash_collision ((innerPrefix ++ h' ++ a) :: aunts_inputs i (split_point (len l)) (Some leaf) init)
    (tree_inputs (S f) l).
Proof.
  intros Hl Hm Hn Ha Hd IH Heq Hc. rewrite root_of_split in Heq by done.
  rewrite tree_inputs_split by done. destruct (split_sizes l Hl) as (Hsp & Ht & Hdr).
  destruct (inner_step _ _ _ _ (aunts_inputs i (split_point (len l)) (Some leaf) init)
    (tree_inputs f (take (split_nat l) l) ++ tree_inputs f (drop (split_nat l) l)) Heq)
    as [Hpre|]; [|by right].
  apply inner_preimage_inj in Hpre as [-> _];
    [|by eapply computeHashFromAunts_rev_digest, Hc; [|unfold len in *; lia]
     |by apply root_of_length, Forall_take].
  rewrite <- Ht in *. destruct (IH i init Ha Hc) as [Hz|Hcol].
  - left. unfold zlookup in *. destruct (0 <=? i); [|done].
    by apply lookup_take_Some in Hz as [Hz _].
  - right. eapply hash_collision_mono, Hcol; set_solver.
Qed.

Lemma sound_right f l i leaf a init h' :
  (2 <= length l)%nat -> Forall digest32 l -> Forall digest32 init -> digest32 a ->
  sound_for f (drop (split_nat l) l) leaf ->
  innerHash a h' = root_of l -> split_point (len l) <= i ->
  computeHashFromAunts_rev (i - split_point (len l)) (len l - split_point (len l)) (Some leaf) init
    = Val (Some h') ->
  zlookup l i = Some leaf \/
  hash_collision ((innerPrefix ++ a ++ h') ::
      aunts_inputs (i - split_point (len l)) (len l - split_point (len l)) (Some leaf) init)
    (tree_inputs (S f) l).
Proof.
  intros Hl Hn Ha Hd IH Heq Hi Hc. rewrite root_of_split in Heq by done.
  rewrite tree_inputs_split by done. destruct (split_sizes l Hl) as (Hsp & Ht & Hdr).
  destruct (inner_step _ _ _ _
    (aunts_inputs (i - split_point (len l)) (len l - split_point (len l)) (Some leaf) init)
    (tree_inputs f (take (split_nat l) l) ++ tree_inputs f (drop (split_nat l) l)) Heq)
    as [Hpre|]; [|by right].
  apply inner_preimage_inj in Hpre as [-> ->]; [|done|by apply root_of_length, Forall_take].
  rewrite <- Hdr in *. destruct (IH (i - split_point (len l)) init Ha Hc) as [Hz|Hcol].
  - left. unfold zlookup in *. destruct (Z.leb_spec 0 (i - split_point (len l))); [|done].
    destruct (Z.leb_spec 0 i); [|lia]. rewrite lookup_drop in Hz. rewrite <- Hz. f_equal. lia.
  - right. eapply hash_collision_mono, Hcol; set_solver.
Qed.

Lemma compute_rev_sound fuel nodes leaf :
  (length nodes <= fuel)%nat -> len nodes <= MaxInt64 ->
  Forall digest32 nodes -> digest32 leaf -> sound_for fuel nodes leaf.
Proof.
  intros Hf Hm Hn Hd. revert fuel Hf Hm Hn.
  induction nodes as [|x|l Hl IH1 IH2] using split_ind; intros fuel Hf Hm Hn i aunts Ha Hc.
  - exfalso. destruct aunts; cbn [computeHashFromAunts_rev] in Hc; unfold len in Hc;
      rewrite orb_true_r in Hc; done.
  - left. destruct aunts; cbn [computeHashFromAunts_rev] in Hc; unfold len in Hc; simpl in Hc;
      destruct (_ || _)%bool eqn:Hb in Hc; simplify_eq.
    inv_val. z_bool. by replace i with 0 by lia.
  - destruct fuel as [|f]; [lia|].
    destruct (split_nat_lengths l f ltac:(lia)) as [Hlt Hld].
    destruct (split_sizes l Hl) as (Hsp & Ht & Hdr).
    destruct (compute_rev_inv i (len l) (Some leaf) aunts _ ltac:(unfold len in *; lia) Hc)
      as (a & init & -> & Hi & [(Hlt' & h' & Hc' & Heq & ->)|(Hge & h' & Hc' & Heq & ->)]);
      apply Forall_cons in Ha as [Hda Ha].
    + apply sound_left; try done. apply IH1; [done|unfold len in *; lia|by apply Forall_take].
    + apply sound_right; try done. apply IH2; [done|unfold len in *; lia|by apply Forall_drop].
Qed.

(** The strings hashed by [Verify] on a proof and by [HashFromByteSlices] on the items. *)
Definition verify_inputs (sp : Proof) (leaf : bytes) : list bytes :=
  (leafPrefix ++ leaf) :: aunts_inputs (Index sp) (Total sp) (LeafHash sp) (rev (Aunts sp)).
Definition items_inputs (items : list bytes) : list bytes :=
  (app leafPrefix <$> items) ++ tree_inputs (length items) (leafHash <$> items).

Lemma check_aunts_digests aunts : check_aunts aunts = Val tt -> Forall digest32 aunts.
Proof.
  induction aunts as [|a aunts IH]; [constructor|]. cbn [check_aunts]. intros Hv. inv_val.
  z_bool. constructor; [|by apply IH]. unfold len, tmhash_Size in *. lia.
Qed.

Lemma leaf_or_collision leaf item xs ys :
  leafPrefix ++ item ∈ ys -> leafHash leaf = leafHash item ->
  leaf = item \/ hash_collision ((leafPrefix ++ leaf) :: xs) ys.
Proof.
  intros Hin Heq. destruct (decide (leaf = item)); [by left|]. right.
  exists (leafPrefix ++ leaf), (leafPrefix ++ item). split; [left|]. split; [done|].
  split; [|done]. by intros ?%(inj _).
Qed.

Lemma Verify_val sp root leaf :
  Verify sp root leaf = Val tt ->
  default [] (LeafHash sp) = leafHash leaf /\
  exists h, ComputeRootHash sp = Val h /\ default [] h = root.
Proof.
  unfold Verify. intros Hv. inv_val.
  repeat match goal with He : bytes_equal _ _ = true |- _ => apply bool_decide_eq_true in He end.
  eauto.
Qed.

Lemma leaf_digests items : Forall digest32 (leafHash <$> items).
Proof. apply Forall_fmap, Forall_true. intros ?. apply sha256_length. Qed.

(** What an accepted proof proves. *)
Lemma Verify_sound items root sp leaf :
  len items <= MaxInt64 -> HashFromByteSlices items = Val root ->
  Proof_ValidateBasic sp = Val tt -> Total sp = len items ->
  Verify sp root leaf = Val tt ->
  zlookup items (Index sp) = Some leaf \/
  hash_collision (verify_inputs sp leaf) (items_inputs items).
Proof.
  intros Hm Hroot Hvb Htot (Hleaf & h & Hc & Hh)%Verify_val.
  rewrite HashFromByteSlices_root in Hroot by done. injection Hroot as <-.
  unfold Proof_ValidateBasic in Hvb. inv_val.
  match goal with Ha : check_aunts _ = _ |- _ => apply check_aunts_digests in Ha as Haunts end.
  pose proof (root_of_length _ (leaf_digests items)) as Hd.
  destruct h as [h|]; simpl in Hh; [subst h|by rewrite <- Hh in Hd].
  unfold verify_inputs, items_inputs.
  destruct (LeafHash sp) as [lh|] eqn:Hlh; simpl in Hleaf; subst.
  2: { pose proof (sha256_length (leafPrefix ++ leaf)) as Hs. unfold leafHash, tmhash_Sum in Hleaf.
       by rewrite <- Hleaf in Hs. }
  unfold ComputeRootHash, computeHashFromAunts in Hc. rewrite Htot, Hlh in *.
  assert (Hlen : len items = len (leafHash <$> items)) by (unfold len; by rewrite length_fmap).
  rewrite Hlen in Hc.
  destruct (compute_rev_sound (length items) (leafHash <$> items) (leafHash leaf)) with
    (i := Index sp) (aunts := rev (Aunts sp)) as [Hz|Hcol]; try done.
  - by rewrite length_fmap.
  - by rewrite <- Hlen.
  - apply leaf_digests.
  - apply sha256_length.
  - by apply Forall_rev.
  - apply zlookup_Some in Hz as [Hr Hz].
    apply list_lookup_fmap_Some in Hz as (item & Heq & Hz).
    edestruct (leaf_or_collision leaf item) as [->|Hcol]; [|exact Heq| |right; exact Hcol].
    + apply elem_of_app. left. apply list_elem_of_fmap. exists item.
      split; [done|]. by eapply list_elem_of_lookup_2.
    + left. apply zlookup_Some. rewrite Hlen. done.
  - right. rewrite Hlen. eapply hash_collision_mono, Hcol; set_solver.
Qed.

(** C37: soundness of Merkle proofs.  A proof that passes [ValidateBasic]
    with the right total and verifies against the root of a list of items is a
    proof of the item at its index, unless two different strings hashed by
    [Verify] and by the tree have the same SHA-256 digest. *)
Theorem merkle_proof_sound items root sp leaf :
  len items <= MaxInt64 -> HashFromByteSlices items = Val root ->
  Proof_ValidateBasic sp = Val tt -> Total sp = len items ->
  Verify sp root leaf = Val tt ->
  zlookup items (Index sp) = Some leaf \/
  hash_collision (verify_inputs sp leaf) (items_inputs items).
Proof. apply Verify_sound. Qed.

(** ** Binding: a root determines its items *)

Definition inputs_fuel (f : nat) (items : list bytes) : list bytes :=
  (app leafPrefix <$> items) ++ tree_inputs f (leafHash <$> items).

(** The string whose digest is the root. *)
Lemma root_preimage f items :
  (length items <= f)%nat ->
  exists x, x ∈ inputs_fuel f items /\ root_of (leafHash <$> items) = sha256 x /\
    match items with
    | [] => x = []
    | [i] => x = leafPrefix ++ i
    | _ => x = innerPrefix ++ root_of (leafHash <$> take (split_nat items) items)
                 ++ root_of (leafHash <$> drop (split_nat items) items)
    end.
Proof.
  intros Hf. unfold inputs_fuel. destruct items as [|a [|b l]].
  - exists []. by destruct f; repeat split; try left.
  - exists (leafPrefix ++ a). repeat split. left.
  - set (items := a :: b :: l) in *. destruct f as [|f]; [simpl in Hf; lia|].
    eexists. split; [|split; [|reflexivity]].
    + apply elem_of_app. right. rewrite tree_inputs_split by (rewrite length_fmap; simpl; lia).
      rewrite fmap_take, fmap_drop, split_nat_fmap. left.
    + rewrite root_of_split by (rewrite length_fmap; simpl; lia).
      by rewrite <- fmap_take, <- fmap_drop, split_nat_fmap.
Qed.

Lemma inputs_fuel_halves f items :
  (2 <= length items)%nat ->
  inputs_fuel f (take (split_nat items) items) ⊆ inputs_fuel (S f) items /\
  inputs_fuel f (drop (split_nat items) items) ⊆ inputs_fuel (S f) items.
Proof.
  intros Hl. unfold inputs_fuel. rewrite tree_inputs_split by (by rewrite length_fmap).
  rewrite <- fmap_take, <- fmap_drop, split_nat_fmap.
  assert (Hs : app leafPrefix <$> items = (app leafPrefix <$> take (split_nat items) items)
    ++ (app leafPrefix <$> drop (split_nat items) items)) by (by rewrite <- fmap_app, take_drop).
  rewrite Hs. set_solver.
Qed.

Lemma root_binding_fuel f g xs ys :
  (length xs <= f)%nat -> (length ys <= g)%nat ->
  root_of (leafHash <$> xs) = root_of (leafHash <$> ys) ->
  xs = ys \/ hash_collision (inputs_fuel f xs) (inputs_fuel g ys).
Proof.
  revert ys f g. induction xs as [|x|xs Hx IH1 IH2] using split_ind; intros ys f g Hf Hg Heq;
    destruct (root_preimage f _ Hf) as (u & Hu & Hru & Hsu);
    destruct (root_preimage g _ Hg) as (w & Hw & Hrw & Hsw);
    (destruct (decide (u = w)) as [<-|Hne];
      [|right; exists u, w; do 3 (split; [done|]); congruence]).
  - destruct ys as [|y [|y' ys]]; subst u; [by left|done..].
  - destruct ys as [|y [|y' ys]]; subst u; [done| |done].
    left. f_equal. by apply (inj (app leafPrefix)).
  - destruct xs as [|x [|x' xs]]; [simpl in Hx; lia..|]. set (l := x :: x' :: xs) in *.
    destruct ys as [|y [|y' ys]]; subst u; [done..|]. set (m := y :: y' :: ys) in *.
    apply inner_preimage_inj in Hsw as [H1 H2]; [|apply root_of_length, leaf_digests..].
    destruct f as [|f]; [simpl in Hf; lia|]. destruct g as [|g]; [simpl in Hg; lia|].
    assert (Hm : (2 <= length m)%nat) by (unfold m; simpl; lia).
    destruct (split_nat_lengths l f ltac:(lia)), (split_nat_lengths m g ltac:(lia)).
    destruct (inputs_fuel_halves f l Hx) as [Hl1 Hl2].
    destruct (inputs_fuel_halves g m Hm) as [Hm1 Hm2].
    destruct (IH1 (take (split_nat m) m) f g ltac:(lia) ltac:(lia) H1) as [E1|C]; [|right; by eapply hash_collision_mono, C].
    destruct (IH2 (drop (split_nat m) m) f g ltac:(lia) ltac:(lia) H2) as [E2|C]; [|right; by eapply hash_collision_mono, C].
    left. rewrite <- (take_drop (split_nat l) l), <- (take_drop (split_nat m) m). congruence.
Qed.

Lemma HashFromByteSlices_binding xs ys :
  len xs <= MaxInt64 -> len ys <= MaxInt64 -> HashFromByteSlices xs = HashFromByteSlices ys ->
  xs = ys \/ hash_collision (items_inputs xs) (items_inputs ys).
Proof.
  intros Hx Hy. rewrite !HashFromByteSlices_root by done. intros [= Heq]. by apply root_binding_fuel.
Qed.

(** C39: the iterative tree hash, which folds the leaf hashes
    level by level in place, returns the same root as the recursive one. *)
Theorem merkle_iterative_eq_recursive input :
  len input <= MaxInt64 -> HashFromByteSlicesIterative input = HashFromByteSlices input.
Proof. intros. by rewrite HashFromByteSlicesIterative_root, HashFromByteSlices_root. Qed.

End merkle_proofs.

(** ** A concrete digest, to evaluate the definitions *)

(** A digest that is cheap to evaluate: the first 32 bytes. *)
Definition toy_digest (b : bytes) : bytes := take 32 (b ++ replicate 32 x00).
Lemma toy_digest_length b : length (toy_digest b) = 32%nat.
Proof. unfold toy_digest. rewrite length_take, length_app, length_replicate. lia. Qed.
Definition toy_sha256 : Sha256 := {| sha256 := toy_digest; sha256_length := toy_digest_length |}.

Definition sample_items : list bytes := [[x61]; [x62; x63]; []; [x64]; [x65]].

Lemma merkle_proofs_verify_witness :
  exists root proofs, @HashFromByteSlices toy_sha256 sample_items = Val root /\
    @ProofsFromByteSlices toy_sha256 sample_items = Val (root, proofs) /\
    exists sp, proofs !! 3%nat = Some sp /\ @Verify toy_sha256 sp root [x64] = Val tt.
Proof.
  destruct (@merkle_proofs_verify toy_sha256 sample_items ltac:(vm_compute; discriminate))
    as (root & proofs & H1 & H2 & _ & H3).
  exists root, proofs. split; [exact H1|]. split; [exact H2|].
  destruct (H3 3%nat [x64] eq_refl) as (sp & Hsp & _ & _ & Hv). exists sp. split; [exact Hsp|exact Hv].
Defined.

Lemma merkle_iterative_eq_recursive_witness :
  @HashFromByteSlicesIterative toy_sha256 sample_items = @HashFromByteSlices toy_sha256 sample_items.
Proof. apply (@merkle_iterative_eq_recursive toy_sha256 sample_items). vm_compute. discriminate. Defined.

Definition sample_root : bytes :=
  match @HashFromByteSlices toy_sha256 sample_items with Val r => r | _ => [] end.
Definition sample_proof (i : nat) : Proof :=
  match @ProofsFromByteSlices toy_sha256 sample_items with
  | Val (_, ps) => default (mkProof 0 0 None []) (ps !! i)
  | _ => mkProof 0 0 None []
  end.

Lemma merkle_proof_sound_witness :
  zlookup sample_items 1 = Some [x62; x63] \/
  @hash_collision toy_sha256 (@verify_inputs toy_sha256 (sample_proof 1) [x62; x63])
    (@items_inputs toy_sha256 sample_items).
Proof.
  apply (@merkle_proof_sound toy_sha256 sample_items sample_root (sample_proof 1) [x62; x63]).
  all: vm_compute; first [reflexivity | discriminate].
Defined.
