(* ===== verification/BitArray.v ===== *)
(** * libs/bits: the bit array of vote sets and part sets

    Models [bit_array.go].  A [*BitArray] is an [option BitArray] ([None] is
    nil); the methods that mutate their receiver return it.  The words are
    [uint64] values kept as [Z]. *)
From Stdlib Require Import ZArith Lia Strings.Byte.
From stdpp Require Import base list strings.
From S2P Require Import Prelude.

Module BitArray.

Record BitArray := mkBitArray { Bits : Z; Elems : list Z }.

#[export] Instance BitArray_eq_dec : EqDecision BitArray.
Proof. solve_decision. Defined.

(** ** Words *)

(** [x << n] on [uint64]: shifting by 64 or more gives zero. *)
Definition shl64 (x n : Z) : Z := if n <? 64 then uint64 (Z.shiftl x n) else 0.
(** [^x] on [uint64]. *)
Definition not64 (x : Z) : Z := Z.lxor x MaxUint64.

(** Go's [copy(dst, src)] for slices of different lengths. *)
Definition copy_slice {A} (dst src : list A) : list A :=
  take (length dst) src ++ drop (length src) dst.

Definition numElems (bits : Z) : Z := Z.quot (int64 (bits + 63)) 64.
Definition make_elems (n : Z) : list Z := replicate (Z.to_nat n) 0.

(** ** Construction and single bits *)

Definition NewBitArray (bits : Z) : option BitArray :=
  if bits <=? 0 then None else Some (mkBitArray bits (make_elems (numElems bits))).

Definition Size (bA : option BitArray) : Z :=
  match bA with None => 0 | Some bA => Bits bA end.

Definition bit_mask (i : Z) : Z := shl64 1 (uint64 (Z.rem i 64)).

Definition getIndex (bA : BitArray) (i : Z) : go bool :=
  if i >=? Bits bA then Val false
  else
    e ← slice_get (Elems bA) (Z.quot i 64);
    Val (Z.land e (bit_mask i) >? 0).

Definition GetIndex (bA : option BitArray) (i : Z) : go bool :=
  match bA with None => Val false | Some bA => getIndex bA i end.

Definition setIndex (bA : BitArray) (i : Z) (v : bool) : go (BitArray * bool) :=
  if i >=? Bits bA then Val (bA, false)
  else
    e ← slice_get (Elems bA) (Z.quot i 64);
    elems ← slice_set (Elems bA) (Z.quot i 64)
      (if v then Z.lor e (bit_mask i) else Z.land e (not64 (bit_mask i)));
    Val (mkBitArray (Bits bA) elems, true).

Definition SetIndex (bA : option BitArray) (i : Z) (v : bool) : go (option BitArray * bool) :=
  match bA with
  | None => Val (None, false)
  | Some bA => '(bA', ok) ← setIndex bA i v; Val (Some bA', ok)
  end.

(** ** Whole-array operations *)

Definition Copy (bA : option BitArray) : option BitArray := bA.

Definition copyBits (bA : BitArray) (bits : Z) : BitArray :=
  mkBitArray bits (copy_slice (make_elems (numElems bits)) (Elems bA)).

(** [for i := 0; i < n; i++ { c[i] = op(c[i], o[i]) }]. *)
Fixpoint zip_prefix (op : Z -> Z -> Z) (n : nat) (c o : list Z) : go (list Z) :=
  match n with
  | O => Val c
  | S n' =>
      match c, o with
      | x :: c', y :: o' => rest ← zip_prefix op n' c' o'; Val (op x y :: rest)
      | _, _ => Panic "index out of range"
      end
  end.

Definition Or (bA o : option BitArray) : go (option BitArray) :=
  match bA, o with
  | None, None => Val None
  | None, Some _ => Val (Copy o)
  | Some _, None => Val (Copy bA)
  | Some a, Some b =>
      let c := copyBits a (Z.max (Bits a) (Bits b)) in
      let smaller := Z.min (len (Elems a)) (len (Elems b)) in
      elems ← zip_prefix Z.lor (Z.to_nat smaller) (Elems c) (Elems b);
      Val (Some (mkBitArray (Bits c) elems))
  end.

Definition And (bA o : option BitArray) : go (option BitArray) :=
  match bA, o with
  | Some a, Some b =>
      let c := copyBits a (Z.min (Bits a) (Bits b)) in
      elems ← zip_prefix Z.land (length (Elems c)) (Elems c) (Elems b);
      Val (Some (mkBitArray (Bits c) elems))
  | _, _ => Val None
  end.

Definition Not (bA : option BitArray) : option BitArray :=
  match bA with
  | None => None
  | Some a => Some (mkBitArray (Bits a) (not64 <$> Elems a))
  end.

Definition Sub (bA o : option BitArray) : go (option BitArray) :=
  match bA, o with
  | Some a, Some b =>
      let c := copyBits a (Bits a) in
      let smaller := Z.min (len (Elems a)) (len (Elems b)) in
      elems ← zip_prefix Z.ldiff (Z.to_nat smaller) (Elems c) (Elems b);
      Val (Some (mkBitArray (Bits c) elems))
  | _, _ => Val None
  end.

Definition IsEmpty (bA : option BitArray) : bool :=
  match bA with
  | None => true
  | Some a => forallb (fun e => negb (e >? 0)) (Elems a)
  end.

Definition IsFull (bA : option BitArray) : go bool :=
  match bA with
  | None => Val true
  | Some a =>
      match last (Elems a) with
      | None => Panic "slice bounds out of range"
      | Some lastElem =>
          if forallb (fun e => not64 e =? 0) (take (length (Elems a) - 1) (Elems a)) then
            let lastElemBits := Z.rem (int64 (Bits a + 63)) 64 + 1 in
            Val (Z.land (uint64 (lastElem + 1)) (uint64 (shl64 1 (uint64 lastElemBits) - 1)) =? 0)
          else Val false
      end
  end.

Definition Update (bA o : option BitArray) : option BitArray :=
  match bA, o with
  | Some a, Some b => Some (mkBitArray (Bits a) (copy_slice (Elems a) (Elems b)))
  | _, _ => bA
  end.

(** ** Picking a set bit *)

(** The indices [curBit .. curBit + n - 1] whose bit is set in [elem]. *)
Fixpoint true_bits (n : nat) (j curBit elem : Z) : list Z :=
  match n with
  | O => []
  | S n' =>
      (if Z.land elem (shl64 1 j) >? 0 then [curBit] else []) ++
      true_bits n' (j + 1) (curBit + 1) elem
  end.

Fixpoint true_words (elems : list Z) (curBit : Z) : list Z :=
  match elems with
  | [] => []
  | elem :: rest =>
      (if elem =? 0 then [] else true_bits 64 0 curBit elem) ++ true_words rest (curBit + 64)
  end.

Definition getTrueIndices (bA : BitArray) : go (list Z) :=
  match last (Elems bA) with
  | None => Panic "index out of range"
  | Some lastElem =>
      let full := take (length (Elems bA) - 1) (Elems bA) in
      let curBit := 64 * len full in
      Val (true_words full 0 ++ true_bits (Z.to_nat (Bits bA - curBit)) 0 curBit lastElem)
  end.

(** [rnd n] is [mrand.Intn(n)]. *)
Definition PickRandom (rnd : Z -> Z) (bA : option BitArray) : go (Z * bool) :=
  match bA with
  | None => Val (0, false)
  | Some a =>
      trueIndices ← getTrueIndices a;
      if len trueIndices =? 0 then Val (0, false)
      else i ← slice_get trueIndices (rnd (len trueIndices)); Val (i, true)
  end.

(** ** JSON and protobuf *)

Definition quote : byte := x22.
Definition json_null : bytes := [x6e; x75; x6c; x6c].
Definition bit_char (b : bool) : byte := if b then x78 else x5f.

Fixpoint json_bits (n : nat) (i : Z) (bA : BitArray) : go bytes :=
  match n with
  | O => Val []
  | S n' => b ← getIndex bA i; rest ← json_bits n' (i + 1) bA; Val (bit_char b :: rest)
  end.

Definition MarshalJSON (bA : option BitArray) : go bytes :=
  match bA with
  | None => Val json_null
  | Some a => bits ← json_bits (Z.to_nat (Bits a)) 0 a; Val (quote :: bits ++ [quote])
  end.

Inductive BitArrayError := ErrJSONFormat | ErrNegativeBits | ErrTooManyBits | ErrInvalidElems.

Definition is_bit_char (c : byte) : bool := bool_decide (c = x78) || bool_decide (c = x5f).

(** The capture of the regular expression: a quoted string of underscores and x's. *)
Definition match_bits (b : bytes) : option bytes :=
  match b with
  | q :: rest =>
      match last rest with
      | Some q' =>
          let inner := take (length rest - 1) rest in
          if bool_decide (q = quote) && bool_decide (q' = quote) && forallb is_bit_char inner
          then Some inner else None
      | None => None
      end
  | [] => None
  end.

Fixpoint set_bits (bits : bytes) (i : Z) (bA : option BitArray) : go (option BitArray) :=
  match bits with
  | [] => Val bA
  | c :: rest =>
      bA' ← (if bool_decide (c = x78) then '(b, _) ← SetIndex bA i true; Val b else Val bA);
      set_bits rest (i + 1) bA'
  end.

(** The result is the new value of the receiver; [*bA = *bA2] dereferences nil
    when [NewBitArray] returned nil. *)
Definition UnmarshalJSON (bz : bytes) : outcome BitArrayError BitArray :=
  if bool_decide (bz = json_null) then Val (mkBitArray 0 [])
  else
    match match_bits bz with
    | None => Fail ErrJSONFormat
    | Some bits =>
        bA2 ← lift (set_bits bits 0 (NewBitArray (len bits)));
        match bA2 with
        | None => Panic "invalid memory address or nil pointer dereference"
        | Some b => Val b
        end
    end.

Record ProtoBitArray := mkProtoBitArray { pb_Bits : Z; pb_Elems : list Z }.

Definition ToProto (bA : option BitArray) : option ProtoBitArray :=
  match bA with
  | None => None
  | Some a =>
      if (len (Elems a) =? 0) && (Bits a =? 0) then None
      else Some (mkProtoBitArray (int64 (Bits a)) (Elems a))
  end.

Definition FromProto (bA : BitArray) (p : option ProtoBitArray) : outcome BitArrayError BitArray :=
  match p with
  | None => Val bA
  | Some p =>
      _ ← fail_if (pb_Bits p <? 0) ErrNegativeBits;
      _ ← fail_if (pb_Bits p >? MaxInt32) ErrTooManyBits;
      _ ← fail_if (negb (len (pb_Elems p) =? numElems (pb_Bits p))) ErrInvalidElems;
      Val (mkBitArray (pb_Bits p) (pb_Elems p))
  end.

End BitArray.
