(* ===== verification/BitArrayProofs.v ===== *)
(** * libs/bits: what the bit array operations compute

    The abstraction of a bit array is the function from indices to bits; the
    operations are specified through it. *)
From Stdlib Require Import ZArith Lia Strings.Byte Sorting.Sorted.
From stdpp Require Import base list strings sets.
From S2P Require Import Prelude.
From S2P Require Import BitArray.
Import BitArray.BitArray.

(** ** Words *)

Lemma testbit_MaxUint64 k : 0 <= k -> Z.testbit MaxUint64 k = (k <? 64).
Proof.
  intros Hk. change MaxUint64 with (Z.ones 64). rewrite Z.testbit_ones by lia.
  destruct (Z.leb_spec 0 k); [done|lia].
Qed.

Lemma is_uint64_bits e : is_uint64 e <-> 0 <= e /\ forall k, 64 <= k -> Z.testbit e k = false.
Proof.
  split.
  - intros He. split; [int_lia|]. intros k Hk.
    destruct (decide (e = 0)) as [->|]; [apply Z.bits_0|].
    apply Z.bits_above_log2; [int_lia|].
    assert (Z.log2 e < 64) by (apply Z.log2_lt_pow2; int_lia). lia.
  - intros [H0 Hb]. destruct (decide (e = 0)) as [->|]; [int_lia|].
    assert (Z.log2 e < 64).
    { destruct (Z.lt_ge_cases (Z.log2 e) 64) as [|Hge]; [done|].
      apply Hb in Hge. rewrite Z.bit_log2 in Hge by lia. done. }
    assert (e < 2 ^ 64) by (apply Z.log2_lt_pow2; lia). int_lia.
Qed.

Lemma shl64_one j : 0 <= j < 64 -> shl64 1 j = 2 ^ j.
Proof.
  intros Hj. unfold shl64. z_cases. rewrite Z.shiftl_1_l. apply uint64_id.
  assert (2 ^ j <= 2 ^ 63) by (apply Z.pow_le_mono_r; lia).
  assert (0 < 2 ^ j) by (apply Z.pow_pos_nonneg; lia). int_lia.
Qed.

Lemma bit_mask_pow i : 0 <= i -> bit_mask i = 2 ^ (i mod 64).
Proof.
  intros Hi. unfold bit_mask. rewrite Z.rem_mod_nonneg by lia.
  pose proof (Z.mod_pos_bound i 64). rewrite uint64_id by int_lia. by rewrite shl64_one by lia.
Qed.

Lemma land_pow2_gtb e j : 0 <= j -> (Z.land e (2 ^ j) >? 0) = Z.testbit e j.
Proof.
  intros Hj.
  assert (Hl : Z.land e (2 ^ j) = if Z.testbit e j then 2 ^ j else 0).
  { apply Z.bits_inj'. intros k Hk. rewrite Z.land_spec, Z.pow2_bits_eqb by lia.
    destruct (Z.testbit e j) eqn:Hb; [rewrite Z.pow2_bits_eqb by lia|rewrite Z.bits_0];
      destruct (Z.eqb_spec j k) as [->|]; by rewrite ?Hb, ?andb_false_r. }
  rewrite Hl. assert (0 < 2 ^ j) by (apply Z.pow_pos_nonneg; lia).
  destruct (Z.testbit e j); rewrite Z.gtb_ltb; z_cases; done.
Qed.

Lemma testbit_not64 e k : 0 <= k < 64 -> Z.testbit (not64 e) k = negb (Z.testbit e k).
Proof.
  intros Hk. unfold not64. rewrite Z.lxor_spec, testbit_MaxUint64 by lia.
  z_cases. by destruct (Z.testbit e k).
Qed.

Lemma is_uint64_lor a b : is_uint64 a -> is_uint64 b -> is_uint64 (Z.lor a b).
Proof.
  rewrite !is_uint64_bits. intros [Ha Hab] [Hb Hbb]. split; [by apply Z.lor_nonneg|].
  intros k Hk. by rewrite Z.lor_spec, Hab, Hbb.
Qed.
Lemma is_uint64_land a b : is_uint64 a -> is_uint64 (Z.land a b).
Proof.
  rewrite !is_uint64_bits. intros [Ha Hab]. split; [apply Z.land_nonneg; lia|].
  intros k Hk. by rewrite Z.land_spec, Hab.
Qed.
Lemma is_uint64_ldiff a b : is_uint64 a -> is_uint64 (Z.ldiff a b).
Proof.
  rewrite !is_uint64_bits. intros [Ha Hab]. split; [apply Z.ldiff_nonneg; lia|].
  intros k Hk. by rewrite Z.ldiff_spec, Hab.
Qed.
Lemma is_uint64_not64 a : is_uint64 a -> is_uint64 (not64 a).
Proof.
  rewrite !is_uint64_bits. intros [Ha Hab]. unfold not64.
  split; [apply Z.lxor_nonneg; int_lia|]. intros k Hk.
  rewrite Z.lxor_spec, Hab, testbit_MaxUint64 by lia. z_cases. done.
Qed.
Lemma is_uint64_pow2 j : 0 <= j < 64 -> is_uint64 (2 ^ j).
Proof. intros. rewrite <- shl64_one by done. unfold shl64. z_cases. apply uint64_range. Qed.

#[export] Hint Resolve is_uint64_lor is_uint64_land is_uint64_ldiff is_uint64_not64 is_uint64_pow2 : tm.

(** Writing bit [m] of a word. *)
Lemma testbit_set e m k (v : bool) :
  0 <= m < 64 -> 0 <= k < 64 ->
  Z.testbit (if v then Z.lor e (2 ^ m) else Z.land e (not64 (2 ^ m))) k =
    if m =? k then v else Z.testbit e k.
Proof.
  intros Hm Hk. destruct v.
  - rewrite Z.lor_spec, Z.pow2_bits_eqb by lia.
    destruct (m =? k); by rewrite ?orb_true_r, ?orb_false_r.
  - rewrite Z.land_spec, testbit_not64, Z.pow2_bits_eqb by lia.
    destruct (m =? k); by rewrite ?andb_false_r, ?andb_true_r.
Qed.

(** ** The abstraction and well-formedness *)

(** The bit at index [i], also beyond [Bits] (the unused bits of the last word). *)
Definition bit (bA : BitArray) (i : Z) : bool :=
  match zlookup (Elems bA) (i / 64) with Some e => Z.testbit e (i mod 64) | None => false end.

(** The type invariant.  The bound on [Bits] is the one [FromProto] checks. *)
Definition wf (bA : BitArray) : Prop :=
  0 < Bits bA <= MaxInt32 /\ len (Elems bA) = numElems (Bits bA) /\ Forall is_uint64 (Elems bA).

(** No bit is set beyond [Bits]. *)
Definition clean (bA : BitArray) : Prop := forall i, Bits bA <= i -> bit bA i = false.

Lemma numElems_div b : 0 <= b <= MaxInt32 -> numElems b = (b + 63) / 64.
Proof.
  intros Hb. unfold numElems. rewrite int64_id by int_lia. apply Z.quot_div_nonneg; lia.
Qed.

Lemma numElems_bounds b : 0 < b <= MaxInt32 -> 64 * (numElems b - 1) < b <= 64 * numElems b.
Proof.
  intros Hb. rewrite numElems_div by lia.
  pose proof (Z.div_mod (b + 63) 64). pose proof (Z.mod_pos_bound (b + 63) 64). lia.
Qed.

Lemma index_in_range bA i :
  wf bA -> 0 <= i < Bits bA -> 0 <= i / 64 < len (Elems bA) /\ 0 <= i mod 64 < 64.
Proof.
  intros (Hb & Hl & _) Hi. rewrite Hl. pose proof (numElems_bounds (Bits bA) Hb).
  split; [|apply Z.mod_pos_bound; lia]. split; [apply Z.div_pos; lia|].
  apply Z.div_lt_upper_bound; lia.
Qed.

Lemma elem_in_range bA i :
  wf bA -> 0 <= i < Bits bA -> exists e, zlookup (Elems bA) (i / 64) = Some e /\ is_uint64 e.
Proof.
  intros Hw Hi. destruct (index_in_range bA i Hw Hi) as [Hr _].
  destruct (lookup_lt_is_Some_2 (Elems bA) (Z.to_nat (i / 64))) as [e He].
  { unfold len in Hr. lia. }
  exists e. split; [by apply zlookup_Some|].
  destruct Hw as (_ & _ & Hf). rewrite Forall_lookup in Hf. eauto.
Qed.

Lemma getIndex_bit bA i :
  wf bA -> 0 <= i -> getIndex bA i = Val (if i <? Bits bA then bit bA i else false).
Proof.
  intros Hw Hi. unfold getIndex, bit. rewrite Z.geb_leb.
  destruct (Z.leb_spec (Bits bA) i), (Z.ltb_spec i (Bits bA)); try lia; [done|].
  destruct (elem_in_range bA i Hw) as (e & He & _); [lia|].
  rewrite Z.quot_div_nonneg by lia. unfold slice_get. rewrite He. go_step.
  pose proof (Z.mod_pos_bound i 64).
  by rewrite bit_mask_pow, land_pow2_gtb by lia.
Qed.

Lemma setIndex_val bA i v :
  wf bA -> 0 <= i < Bits bA ->
  exists bA', setIndex bA i v = Val (bA', true) /\ wf bA' /\ Bits bA' = Bits bA /\
    forall j, 0 <= j -> bit bA' j = if j =? i then v else bit bA j.
Proof.
  intros Hw Hi. destruct (elem_in_range bA i Hw Hi) as (e & He & Hu).
  destruct (index_in_range bA i Hw Hi) as [Hr Hm].
  unfold setIndex. z_cases. rewrite Z.quot_div_nonneg by lia.
  unfold slice_get, slice_set. rewrite He. go_step. eexists. split; [done|].
  rewrite bit_mask_pow by lia. apply zlookup_Some in He as [Hr' He].
  destruct Hw as (Hb & Hl & Hf). split; [|split; [done|]].
  - repeat split; simpl; [lia..| |].
    + unfold len in *. by rewrite length_insert.
    + apply Forall_insert; [done|]. destruct v; auto with tm.
  - intros j Hj. unfold bit. simpl. unfold zlookup.
    pose proof (Z.div_pos j 64 ltac:(lia) ltac:(lia)). pose proof (Z.mod_pos_bound j 64 ltac:(lia)).
    destruct (Z.leb_spec 0 (j / 64)); [|lia].
    destruct (decide (Z.to_nat (j / 64) = Z.to_nat (i / 64))) as [Heq|Hne].
    + rewrite Heq, list_lookup_insert_eq, He by (unfold len in *; lia).
      assert (Hij : (j =? i) = (i mod 64 =? j mod 64)).
      { pose proof (Z.div_mod i 64). pose proof (Z.div_mod j 64).
        destruct (Z.eqb_spec j i), (Z.eqb_spec (i mod 64) (j mod 64)); try done; exfalso; lia. }
      rewrite Hij. by apply testbit_set.
    + rewrite list_lookup_insert_ne by congruence.
      destruct (Z.eqb_spec j i) as [->|]; [done|]. done.
Qed.

(** ** Word-wise operations *)

Definition word (l : list Z) (k : Z) : Z := default 0 (zlookup l k).

Lemma bit_word bA i : bit bA i = Z.testbit (word (Elems bA) (i / 64)) (i mod 64).
Proof. unfold bit, word. destruct (zlookup _ _); simpl; [done|]. by rewrite Z.bits_0. Qed.

Lemma word_nonneg_index l k : k < 0 -> word l k = 0.
Proof. intros Hk. unfold word. by rewrite (proj2 (zlookup_None l k)) by lia. Qed.

Lemma zip_prefix_val op n c o :
  (n <= length c)%nat -> (n <= length o)%nat ->
  exists r, zip_prefix op n c o = Val r /\ length r = length c /\
    forall k, word r k = if (0 <=? k) && (k <? Z.of_nat n) then op (word c k) (word o k) else word c k.
Proof.
  revert c o. induction n as [|n IH]; intros c o Hc Ho.
  - exists c. split; [done|]. split; [done|]. intros k. destruct (Z.leb_spec 0 k); [|done].
    destruct (Z.ltb_spec k (Z.of_nat 0)); [lia|done].
  - destruct c as [|x c]; simpl in Hc; [lia|]. destruct o as [|y o]; simpl in Ho; [lia|].
    destruct (IH c o) as (r & Hr & Hl & Hw); [lia..|].
    exists (op x y :: r). cbn [zip_prefix]. rewrite Hr. split; [done|]. simpl. split; [lia|].
    intros k. destruct (Z.leb_spec 0 k); [|by rewrite !word_nonneg_index by lia].
    destruct (decide (k = 0)) as [->|Hk0]; [done|].
    assert (Hshift : forall z (l : list Z), word (z :: l) k = word l (k - 1)).
    { intros z l. unfold word, zlookup. destruct (Z.leb_spec 0 k), (Z.leb_spec 0 (k - 1)); try lia.
      replace (Z.to_nat k) with (S (Z.to_nat (k - 1))) by lia. done. }
    rewrite !Hshift, Hw.
    destruct (Z.leb_spec 0 (k - 1)); [|lia].
    destruct (Z.ltb_spec (k - 1) (Z.of_nat n)), (Z.ltb_spec k (Z.of_nat (S n))); try lia; done.
Qed.

Lemma word_copyBits bA bits k :
  word (Elems (copyBits bA bits)) k = if k <? numElems bits then word (Elems bA) k else 0.
Proof.
  unfold copyBits, copy_slice, make_elems, word. simpl. rewrite length_replicate.
  unfold zlookup. destruct (Z.leb_spec 0 k); [|by destruct (_ <? _)].
  destruct (Z.ltb_spec k (numElems bits)).
  - destruct (decide (Z.to_nat k < length (Elems bA))%nat).
    + rewrite lookup_app_l by (rewrite length_take; lia). by rewrite lookup_take_lt by lia.
    + rewrite lookup_app_r by (rewrite length_take; lia).
      rewrite (lookup_ge_None_2 (Elems bA)) by lia. simpl.
      rewrite length_take, lookup_drop. rewrite lookup_replicate_2 by lia. done.
  - rewrite lookup_ge_None_2; [done|]. rewrite length_app, length_take, length_drop, length_replicate. lia.
Qed.

Lemma length_copyBits bA bits : 0 <= numElems bits -> len (Elems (copyBits bA bits)) = numElems bits.
Proof.
  intros Hn. unfold copyBits, copy_slice, make_elems, len. simpl.
  rewrite length_app, length_take, length_drop, length_replicate. lia.
Qed.

Lemma word_ge l k : len l <= k -> word l k = 0.
Proof. intros Hk. unfold word. by rewrite (proj2 (zlookup_None l k)) by lia. Qed.

Lemma bits_pos_elems bA : wf bA -> 0 < len (Elems bA).
Proof. intros (Hb & Hl & _). pose proof (numElems_bounds _ Hb). lia. Qed.

Lemma numElems_mono a b : 0 <= a <= b -> b <= MaxInt32 -> numElems a <= numElems b.
Proof. intros Ha Hb. rewrite !numElems_div by lia. apply Z.div_le_mono; lia. Qed.

(** The words of the results. *)
Lemma And_words a b :
  wf a -> wf b -> exists c, And (Some a) (Some b) = Val (Some c) /\
    Bits c = Z.min (Bits a) (Bits b) /\
    forall k, 0 <= k < numElems (Bits c) ->
      word (Elems c) k = Z.land (word (Elems a) k) (word (Elems b) k).
Proof.
  intros (Ha & Hla & _) (Hb & Hlb & _). unfold And.
  set (m := Z.min (Bits a) (Bits b)).
  assert (Hm : 0 <= numElems m) by (pose proof (numElems_bounds m ltac:(lia)); lia).
  assert (numElems m <= numElems (Bits b)) by (apply numElems_mono; lia).
  pose proof (length_copyBits a m Hm) as Hlc. unfold len in Hlc, Hlb.
  destruct (zip_prefix_val Z.land (length (Elems (copyBits a m))) (Elems (copyBits a m)) (Elems b))
    as (r & Hr & _ & Hw); [lia..|].
  rewrite Hr. eexists. split; [done|]. simpl. split; [done|]. intros k Hk.
  rewrite Hw, word_copyBits. z_cases. done.
Qed.

Lemma Sub_words a b :
  wf a -> wf b -> exists c, Sub (Some a) (Some b) = Val (Some c) /\ Bits c = Bits a /\
    forall k, 0 <= k < numElems (Bits a) ->
      word (Elems c) k = Z.ldiff (word (Elems a) k) (word (Elems b) k).
Proof.
  intros (Ha & Hla & _) (Hb & Hlb & _). unfold Sub.
  pose proof (numElems_bounds _ Ha). pose proof (numElems_bounds _ Hb).
  pose proof (length_copyBits a (Bits a) ltac:(lia)) as Hlc. unfold len in *.
  destruct (zip_prefix_val Z.ldiff (Z.to_nat (Z.min (Z.of_nat (length (Elems a))) (Z.of_nat (length (Elems b)))))
    (Elems (copyBits a (Bits a))) (Elems b)) as (r & Hr & _ & Hw); [lia..|].
  unfold len. rewrite Hr. eexists. split; [done|]. simpl. split; [done|]. intros k Hk.
  rewrite Hw, word_copyBits.
  destruct (Z.leb_spec 0 k), (Z.ltb_spec k (numElems (Bits a))); try lia. simpl.
  destruct (Z.ltb_spec k (Z.of_nat (Z.to_nat (Z.min (Z.of_nat (length (Elems a))) (Z.of_nat (length (Elems b))))))); [done|].
  rewrite (word_ge (Elems b)) by (unfold len; lia). by rewrite Z.ldiff_0_r.
Qed.

(** [Or] only reads the words of [b] that [a] has, too. *)
Lemma Or_words a b :
  wf a -> wf b -> exists c, Or (Some a) (Some b) = Val (Some c) /\
    Bits c = Z.max (Bits a) (Bits b) /\
    forall k, 0 <= k < numElems (Bits c) ->
      word (Elems c) k =
        if k <? numElems (Bits a) then Z.lor (word (Elems a) k) (word (Elems b) k) else 0.
Proof.
  intros (Ha & Hla & _) (Hb & Hlb & _). unfold Or.
  set (m := Z.max (Bits a) (Bits b)).
  pose proof (numElems_bounds _ Ha). pose proof (numElems_bounds _ Hb).
  pose proof (numElems_mono (Bits a) m ltac:(lia) ltac:(lia)).
  pose proof (numElems_mono (Bits b) m ltac:(lia) ltac:(lia)).
  pose proof (length_copyBits a m ltac:(lia)) as Hlc. unfold len in *.
  destruct (zip_prefix_val Z.lor (Z.to_nat (Z.min (Z.of_nat (length (Elems a))) (Z.of_nat (length (Elems b)))))
    (Elems (copyBits a m)) (Elems b)) as (r & Hr & _ & Hw); [lia..|].
  unfold len. rewrite Hr. eexists. split; [done|]. simpl. split; [done|]. intros k Hk.
  rewrite Hw, word_copyBits.
  destruct (Z.leb_spec 0 k), (Z.ltb_spec k (numElems m)); try lia. simpl.
  destruct (Z.ltb_spec k (numElems (Bits a))).
  - destruct (Z.ltb_spec k (Z.of_nat (Z.to_nat (Z.min (Z.of_nat (length (Elems a))) (Z.of_nat (length (Elems b))))))); [done|].
    rewrite (word_ge (Elems b)) by (unfold len; lia). by rewrite Z.lor_0_r.
  - destruct (Z.ltb_spec k (Z.of_nat (Z.to_nat (Z.min (Z.of_nat (length (Elems a))) (Z.of_nat (length (Elems b))))))); [lia|].
    by rewrite word_ge by (unfold len; lia).
Qed.

Lemma index_word n i : 0 < n <= MaxInt32 -> 0 <= i < n -> 0 <= i / 64 < numElems n /\ 0 <= i mod 64 < 64.
Proof.
  intros Hn Hi. pose proof (numElems_bounds n Hn). split; [|apply Z.mod_pos_bound; lia].
  split; [apply Z.div_pos; lia|apply Z.div_lt_upper_bound; lia].
Qed.

(** ** The operations, bit by bit *)

(** Setting a bit inside a well-formed array succeeds, keeps the
    invariant and the size, and changes what [getIndex] returns at that index only. *)
Theorem bitarray_set_get bA i v :
  wf bA -> clean bA -> 0 <= i < Bits bA ->
  exists bA', setIndex bA i v = Val (bA', true) /\ wf bA' /\ clean bA' /\ Bits bA' = Bits bA /\
    forall j, 0 <= j -> getIndex bA' j = if j =? i then Val v else getIndex bA j.
Proof.
  intros Hw Hc Hi. destruct (setIndex_val bA i v Hw Hi) as (bA' & Hs & Hw' & Hb & Hbit).
  exists bA'. split; [done|]. split; [done|]. split; [|split; [done|]].
  - intros j Hj. rewrite Hbit by lia. destruct (Z.eqb_spec j i); [lia|]. apply Hc. lia.
  - intros j Hj. rewrite !getIndex_bit, Hbit, Hb by done.
    destruct (Z.eqb_spec j i) as [->|]; [|done]. by destruct (Z.ltb_spec i (Bits bA)); [|lia].
Qed.

(** The word-wise [And], [Sub] and [Not], and [Or] when the receiver has
    at least as many words, compute the bit-wise operation at every index of the result. *)
Theorem bitarray_bitwise a b :
  wf a -> wf b ->
  (exists c, And (Some a) (Some b) = Val (Some c) /\ Bits c = Z.min (Bits a) (Bits b) /\
     forall i, 0 <= i < Bits c -> bit c i = bit a i && bit b i) /\
  (exists c, Sub (Some a) (Some b) = Val (Some c) /\ Bits c = Bits a /\
     forall i, 0 <= i < Bits a -> bit c i = bit a i && negb (bit b i)) /\
  (exists c, Not (Some a) = Some c /\ Bits c = Bits a /\
     forall i, 0 <= i < Bits a -> bit c i = negb (bit a i)) /\
  (exists c, Or (Some a) (Some b) = Val (Some c) /\ Bits c = Z.max (Bits a) (Bits b) /\
     (numElems (Bits b) <= numElems (Bits a) ->
      forall i, 0 <= i < Bits c -> bit c i = bit a i || bit b i)).
Proof.
  intros Ha Hb. repeat split.
  - destruct (And_words a b Ha Hb) as (c & Hc & Hn & Hw). exists c. do 2 (split; [done|]).
    intros i Hi. destruct (index_word (Bits c) i) as [Hk Hm]; [destruct Ha, Hb; lia|lia|].
    by rewrite !bit_word, Hw, Z.land_spec by lia.
  - destruct (Sub_words a b Ha Hb) as (c & Hc & Hn & Hw). exists c. do 2 (split; [done|]).
    intros i Hi. destruct (index_word (Bits a) i) as [Hk Hm]; [apply Ha|lia|].
    by rewrite !bit_word, Hw, Z.ldiff_spec by lia.
  - eexists. split; [done|]. simpl. split; [done|]. intros i Hi.
    destruct (elem_in_range a i Ha Hi) as (e & He & _). unfold bit. simpl.
    apply zlookup_Some in He as [Hr He]. destruct (index_in_range a i Ha Hi) as [_ Hm].
    unfold zlookup. destruct (Z.leb_spec 0 (i / 64)); [|lia].
    rewrite list_lookup_fmap, He. simpl. by rewrite testbit_not64.
  - destruct (Or_words a b Ha Hb) as (c & Hc & Hn & Hw). exists c. do 2 (split; [done|]).
    intros Hle i Hi. pose proof (numElems_mono (Bits a) (Bits c)) as Hmono.
    destruct (index_word (Bits c) i) as [Hk Hm]; [destruct Ha, Hb; lia|lia|].
    assert (numElems (Bits c) = numElems (Bits a)).
    { rewrite Hn. destruct (Z.max_spec (Bits a) (Bits b)) as [[? ->]|[? ->]]; [|done].
      apply Z.le_antisymm; [done|]. apply numElems_mono; destruct Ha, Hb; lia. }
    rewrite !bit_word, Hw by lia. destruct (Z.ltb_spec (i / 64) (numElems (Bits a))); [|lia].
    by rewrite Z.lor_spec.
Qed.

(** ** Set indices *)

Lemma true_bits_filter n j cur e :
  0 <= j -> j + Z.of_nat n <= 64 ->
  true_bits n j cur e = filter (fun i => Z.testbit e (i - cur + j) = true) (seqZ cur (Z.of_nat n)).
Proof.
  revert j cur. induction n as [|n IH]; intros j cur Hj Hn; [done|].
  cbn [true_bits]. rewrite seqZ_cons by lia.
  replace (Z.pred (Z.of_nat (S n))) with (Z.of_nat n) by lia.
  rewrite filter_cons. replace (cur - cur + j) with j by lia.
  rewrite shl64_one, land_pow2_gtb by lia. rewrite IH by lia.
  rewrite (list_filter_iff _ (fun i => Z.testbit e (i - cur + j) = true)).
  2: { intros i. by replace (i - (cur + 1) + (j + 1)) with (i - cur + j) by lia. }
  replace (Z.succ cur) with (cur + 1) by lia.
  destruct (Z.testbit e j); case_decide; done.
Qed.

Lemma word_cons e l k : 0 <= k -> word (e :: l) (k + 1) = word l k.
Proof.
  intros Hk. unfold word, zlookup. destruct (Z.leb_spec 0 k), (Z.leb_spec 0 (k + 1)); try lia.
  by replace (Z.to_nat (k + 1)) with (S (Z.to_nat k)) by lia.
Qed.

Lemma true_words_filter elems cur :
  true_words elems cur =
    filter (fun i => Z.testbit (word elems ((i - cur) / 64)) ((i - cur) mod 64) = true)
      (seqZ cur (64 * len elems)).
Proof.
  revert cur. induction elems as [|e elems IH]; intros cur; [done|].
  cbn [true_words]. replace (64 * len (e :: elems)) with (Z.of_nat 64 + 64 * len elems)
    by (unfold len; simpl length; lia).
  rewrite seqZ_app, filter_app by (unfold len; lia). f_equal.
  - transitivity (true_bits 64 0 cur e).
    + destruct (Z.eqb_spec e 0) as [->|]; [|done]. rewrite true_bits_filter by lia. symmetry.
      clear IH. induction (seqZ cur (Z.of_nat 64)) as [|x l IHl]; [done|].
      rewrite filter_cons. case_decide as Hd; [by rewrite Z.bits_0 in Hd|done].
    + rewrite true_bits_filter by lia. apply filter_ext_elem. intros i Hi%elem_of_seqZ.
      rewrite (Z.div_small (i - cur)), (Z.mod_small (i - cur)) by lia.
      unfold word. simpl. by replace (i - cur + 0) with (i - cur) by lia.
  - rewrite IH. apply filter_ext_elem. intros i Hi%elem_of_seqZ.
    replace (i - cur) with (i - (cur + 64) + 1 * 64) by lia.
    rewrite Z.div_add, Z.mod_add by lia.
    rewrite word_cons; [done|apply Z.div_pos; lia].
Qed.

Lemma getTrueIndices_filter bA :
  wf bA -> getTrueIndices bA = Val (filter (fun i => bit bA i = true) (seqZ 0 (Bits bA))).
Proof.
  intros Hw. pose proof (bits_pos_elems bA Hw) as Hp. destruct Hw as (Hb & Hl & _).
  pose proof (numElems_bounds _ Hb) as Hn. unfold getTrueIndices, bit.
  destruct (Elems bA) as [|x l _] eqn:He using rev_ind; [unfold len in Hp; simpl in Hp; lia|].
  rewrite last_snoc, length_app. simpl length. replace (length l + 1 - 1)%nat with (length l) by lia.
  rewrite take_app_length. f_equal.
  unfold len in Hl. rewrite length_app in Hl. simpl length in Hl.
  replace (Bits bA) with (64 * len l + Z.of_nat (Z.to_nat (Bits bA - 64 * len l))) at 2
    by (unfold len; lia).
  rewrite seqZ_app, filter_app by (unfold len; lia). f_equal.
  - rewrite true_words_filter. apply filter_ext_elem. intros i Hi%elem_of_seqZ.
    rewrite Z.sub_0_r. unfold word, zlookup.
    assert (0 <= i / 64 < len l) by (split; [apply Z.div_pos|apply Z.div_lt_upper_bound]; lia).
    destruct (Z.leb_spec 0 (i / 64)); [|lia].
    rewrite lookup_app_l by (unfold len in *; lia).
    destruct (lookup_lt_is_Some_2 l (Z.to_nat (i / 64))) as [e ->]; [unfold len in *; lia|done].
  - rewrite true_bits_filter by (unfold len; lia). rewrite Z.add_0_l.
    apply filter_ext_elem. intros i Hi%elem_of_seqZ.
    assert (Hlt : 0 <= i - 64 * len l < 64) by (unfold len in *; lia).
    assert (Hq : i / 64 = len l) by (symmetry; apply Z.div_unique with (i - 64 * len l); lia).
    assert (Hr : i mod 64 = i - 64 * len l) by (symmetry; apply Z.mod_unique with (len l); lia).
    rewrite Hq, Hr, Z.add_0_r. unfold len. rewrite zlookup_nat.
    by rewrite lookup_app_r, Nat.sub_diag by lia.
Qed.

(** [getTrueIndices] lists exactly the set indices in increasing
    order, and [PickRandom] returns one of them whatever the random source, or
    reports that there is none. *)
Theorem bitarray_true_indices bA :
  wf bA ->
  exists l, getTrueIndices bA = Val l /\ StronglySorted Z.lt l /\
    (forall i, i ∈ l <-> 0 <= i < Bits bA /\ getIndex bA i = Val true) /\
    (forall rnd, (forall n, 0 < n -> 0 <= rnd n < n) ->
       exists i ok, PickRandom rnd (Some bA) = Val (i, ok) /\
         ok = bool_decide (l <> []) /\ (ok = true -> i ∈ l)).
Proof.
  intros Hw. eexists. split; [by apply getTrueIndices_filter|]. split; [|split].
  - apply StronglySorted_filter_sub, StronglySorted_seqZ.
  - intros i. rewrite list_elem_of_filter, elem_of_seqZ. split.
    + intros [Hb Hi]. split; [lia|]. rewrite getIndex_bit by (done || lia). z_cases. by rewrite Hb.
    + intros [Hi Hg]. split; [|lia]. rewrite getIndex_bit in Hg by (done || lia).
      destruct (Z.ltb_spec i (Bits bA)); [by injection Hg|lia].
  - intros rnd Hrnd. unfold PickRandom. rewrite getTrueIndices_filter by done. go_step.
    destruct (filter _ _) as [|x l]; [by exists 0, false|].
    destruct (Z.eqb_spec (len (x :: l)) 0); [unfold len in *; simpl in *; lia|].
    pose proof (Hrnd (len (x :: l)) ltac:(unfold len in *; simpl in *; lia)) as Hr.
    destruct (lookup_lt_is_Some_2 (x :: l) (Z.to_nat (rnd (len (x :: l))))) as [y Hy].
    { unfold len in *. lia. }
    rewrite (proj2 (slice_get_val (x :: l) _ y)) by done. go_step.
    exists y, true. split; [done|]. split; [done|]. intros _. by eapply list_elem_of_lookup_2.
Qed.

(** ** Emptiness and fullness *)

Lemma word_is_uint64 l k : Forall is_uint64 l -> is_uint64 (word l k).
Proof.
  intros Hf. unfold word. destruct (zlookup l k) eqn:Hz; simpl; [|int_lia].
  apply zlookup_Some in Hz as [_ Hz]. rewrite Forall_lookup in Hf. eauto.
Qed.

Lemma word_zero_bits e : is_uint64 e -> (forall j, 0 <= j < 64 -> Z.testbit e j = false) -> e = 0.
Proof.
  intros [_ Hb]%is_uint64_bits Hz. apply Z.bits_inj_0. intros j.
  destruct (Z.lt_ge_cases j 0); [by apply Z.testbit_neg_r|].
  destruct (Z.lt_ge_cases j 64); [by apply Hz|by apply Hb].
Qed.

(** Two well-formed arrays with the same bits are equal. *)
Lemma bitarray_ext a b :
  wf a -> wf b -> Bits a = Bits b -> (forall i, 0 <= i -> bit a i = bit b i) -> a = b.
Proof.
  intros (Ha & Hla & Hfa) (Hb & Hlb & Hfb) Hbits Hbit. destruct a as [n l], b as [n' l']. simpl in *.
  subst n'. f_equal. apply list_eq_same_length with (length l); [unfold len in *; lia|done|].
  intros k x y Hk Hx Hy. apply Z.bits_inj'. intros j Hj.
  rewrite Forall_lookup in Hfa, Hfb.
  destruct (proj1 (is_uint64_bits x)) as [_ Hxb]; [eauto|].
  destruct (proj1 (is_uint64_bits y)) as [_ Hyb]; [eauto|].
  destruct (Z.lt_ge_cases j 64); [|by rewrite Hxb, Hyb].
  specialize (Hbit (64 * Z.of_nat k + j) ltac:(lia)). unfold bit in Hbit. simpl in Hbit.
  assert (Hq : (64 * Z.of_nat k + j) / 64 = Z.of_nat k) by (symmetry; apply Z.div_unique with j; lia).
  assert (Hr : (64 * Z.of_nat k + j) mod 64 = j) by (symmetry; apply Z.mod_unique with (Z.of_nat k); lia).
  by rewrite Hq, Hr, !zlookup_nat, Hx, Hy in Hbit.
Qed.

Lemma last_word_bits a :
  wf a -> let r := Z.rem (int64 (Bits a + 63)) 64 + 1 in
  1 <= r <= 64 /\ Bits a = 64 * (len (Elems a) - 1) + r.
Proof.
  intros (Hb & Hl & _). rewrite Hl, numElems_div by lia. rewrite int64_id by int_lia.
  rewrite Z.rem_mod_nonneg by lia. pose proof (Z.div_mod (Bits a + 63) 64).
  pose proof (Z.mod_pos_bound (Bits a + 63) 64). lia.
Qed.

(** The test on the last word: its low [r] bits are all set. *)
Lemma low_bits_full e r :
  is_uint64 e -> 1 <= r <= 64 ->
  (Z.land (uint64 (e + 1)) (uint64 (shl64 1 (uint64 r) - 1)) =? 0) = true <->
  forall j, 0 <= j < r -> Z.testbit e j = true.
Proof.
  intros He Hr.
  assert (Hmask : uint64 (shl64 1 (uint64 r) - 1) = Z.ones r).
  { rewrite (uint64_id r) by int_lia. destruct (decide (r = 64)) as [->|]; [done|].
    rewrite shl64_one by lia. rewrite Z.ones_equiv, <- Z.sub_1_r. apply uint64_id.
    pose proof (is_uint64_pow2 r ltac:(lia)). assert (0 < 2 ^ r) by (apply Z.pow_pos_nonneg; lia). int_lia. }
  rewrite Hmask, Z.land_ones, Z.eqb_eq by lia.
  unfold uint64, wrap_unsigned. rewrite Z.mod_mod_divide.
  2: { exists (2 ^ (64 - r)). rewrite <- Z.pow_add_r by lia. f_equal. lia. }
  assert (Hp : 0 < 2 ^ r) by (apply Z.pow_pos_nonneg; lia).
  transitivity (e mod 2 ^ r = 2 ^ r - 1).
  - pose proof (Z.mod_pos_bound e (2 ^ r) Hp). rewrite Z.add_mod by lia.
    destruct (decide (r = 0)) as [->|]; [lia|].
    assert (2 <= 2 ^ r) by (change 2 with (2 ^ 1) at 1; apply Z.pow_le_mono_r; lia).
    rewrite (Z.mod_small 1) by lia. split.
    + intros Hz. destruct (Z.lt_ge_cases (e mod 2 ^ r + 1) (2 ^ r)); [|lia].
      rewrite Z.mod_small in Hz; lia.
    + intros ->. replace (2 ^ r - 1 + 1) with (2 ^ r) by lia. by rewrite Z.mod_same by lia.
  - rewrite <- Z.land_ones by lia. replace (2 ^ r - 1) with (Z.ones r) by (rewrite Z.ones_equiv; lia).
    split.
    + intros Heq j Hj. apply (f_equal (fun z => Z.testbit z j)) in Heq.
      rewrite Z.land_spec, Z.testbit_ones in Heq by lia. destruct (Z.testbit e j); [done|].
      destruct (Z.leb_spec 0 j), (Z.ltb_spec j r); try lia.
    + intros Hj. apply Z.bits_inj'. intros j Hj0. rewrite Z.land_spec, Z.testbit_ones by lia.
      destruct (Z.leb_spec 0 j), (Z.ltb_spec j r); first [lia|by rewrite Hj by lia|by rewrite andb_false_r].
Qed.

Lemma not64_zero e : is_uint64 e -> (not64 e =? 0) = true <-> forall j, 0 <= j < 64 -> Z.testbit e j = true.
Proof.
  intros He. rewrite Z.eqb_eq. split.
  - intros Hn j Hj. apply (f_equal (fun z => Z.testbit z j)) in Hn.
    rewrite testbit_not64, Z.bits_0 in Hn by done. by destruct (Z.testbit e j).
  - intros Hj. apply word_zero_bits; [auto with tm|]. intros j Hj'. by rewrite testbit_not64, Hj.
Qed.

(** Splitting an index range into full words and the last word. *)
Lemma bits_by_words (P : Z -> Z -> Prop) n r :
  1 <= r <= 64 -> 0 <= n ->
  (forall i, 0 <= i < 64 * n + r -> P (i / 64) (i mod 64)) <->
  (forall k j, 0 <= k < n -> 0 <= j < 64 -> P k j) /\ (forall j, 0 <= j < r -> P n j).
Proof.
  intros Hr Hn. assert (Hdm : forall k j, 0 <= j < 64 -> (64 * k + j) / 64 = k /\ (64 * k + j) mod 64 = j).
  { intros k j Hj. split; [symmetry; apply Z.div_unique with j; lia|].
    symmetry; apply Z.mod_unique with k; lia. }
  split.
  - intros H. split.
    + intros k j Hk Hj. destruct (Hdm k j Hj) as [Hq Hm]. specialize (H (64 * k + j) ltac:(nia)). by rewrite Hq, Hm in H.
    + intros j Hj. destruct (Hdm n j ltac:(lia)) as [Hq Hm]. specialize (H (64 * n + j) ltac:(lia)). by rewrite Hq, Hm in H.
  - intros [H1 H2] i Hi. pose proof (Z.div_mod i 64). pose proof (Z.mod_pos_bound i 64).
    assert (0 <= i / 64) by (apply Z.div_pos; lia).
    destruct (Z.lt_ge_cases (i / 64) n); [by apply H1; lia|].
    assert (i / 64 = n) as -> by lia. apply H2. lia.
Qed.

Lemma full_words_bits l e :
  Forall is_uint64 l ->
  forallb (fun e => not64 e =? 0) l = true <->
  forall k j, 0 <= k < len l -> 0 <= j < 64 -> Z.testbit (word (l ++ [e]) k) j = true.
Proof.
  intros Hf. rewrite forallb_forall. rewrite Forall_lookup in Hf. split.
  - intros Hal k j Hk Hj. destruct (lookup_lt_is_Some_2 l (Z.to_nat k)) as [x Hx]; [unfold len in *; lia|].
    unfold word. rewrite (proj2 (zlookup_Some (l ++ [e]) k x)); simpl.
    + apply not64_zero; [eauto| |done].
      apply Hal, list_elem_of_In. by eapply list_elem_of_lookup_2.
    + split; [unfold len in *; rewrite length_app; simpl; lia|]. by apply lookup_app_l_Some.
  - intros Hal x Hx%list_elem_of_In. apply list_elem_of_lookup in Hx as [k Hk].
    apply not64_zero; [eauto|]. intros j Hj.
    pose proof (lookup_lt_Some _ _ _ Hk). specialize (Hal (Z.of_nat k) j ltac:(unfold len; lia) Hj).
    unfold word in Hal. by rewrite zlookup_nat, (lookup_app_l_Some _ _ _ _ Hk) in Hal.
Qed.

Lemma IsFull_bits a : wf a -> exists b, IsFull (Some a) = Val b /\
  (b = true <-> forall i, 0 <= i < Bits a -> bit a i = true).
Proof.
  intros Hw. destruct (last_word_bits a Hw) as [Hr Hbits]. pose proof (bits_pos_elems a Hw) as Hp.
  destruct Hw as (Hb & Hl & Hf). unfold IsFull.
  assert (Hword : forall i, bit a i = Z.testbit (word (Elems a) (i / 64)) (i mod 64)) by apply bit_word.
  destruct (Elems a) as [|e l _] eqn:He using rev_ind; [unfold len in Hp; simpl in Hp; lia|].
  rewrite last_snoc, length_app. simpl length. replace (length l + 1 - 1)%nat with (length l) by lia.
  rewrite take_app_length. apply Forall_app in Hf as [Hfl Hfe]. apply Forall_cons in Hfe as [Hfe _].
  set (r := Z.rem (int64 (Bits a + 63)) 64 + 1) in *.
  assert (Hlen : len (l ++ [e]) - 1 = len l) by (unfold len; rewrite length_app; simpl; lia).
  rewrite Hlen in Hbits.
  assert (Hlast : word (l ++ [e]) (len l) = e).
  { unfold word, len. rewrite zlookup_nat, lookup_app_r, Nat.sub_diag by lia. done. }
  assert (Hgoal : (forall i, 0 <= i < Bits a -> bit a i = true) <->
    forallb (fun e => not64 e =? 0) l = true /\ forall j, 0 <= j < r -> Z.testbit e j = true).
  { pose proof (bits_by_words (fun k j => Z.testbit (word (l ++ [e]) k) j = true) (len l) r Hr
      ltac:(unfold len; lia)) as Hsplit. cbv beta in Hsplit. rewrite Hlast, <- Hbits in Hsplit.
    rewrite (full_words_bits l e Hfl), <- Hsplit. split; intros Hx i Hi; specialize (Hx i Hi); by rewrite ?Hword in *. }
  destruct (forallb _ l).
  - eexists. split; [done|]. rewrite low_bits_full, Hgoal by done. naive_solver.
  - exists false. split; [done|]. rewrite Hgoal. naive_solver.
Qed.

Lemma IsEmpty_bits a : wf a -> IsEmpty (Some a) = true <-> forall i, 0 <= i -> bit a i = false.
Proof.
  intros (Hb & Hl & Hf). unfold IsEmpty. rewrite forallb_forall. split.
  - intros Hz i Hi. unfold bit. destruct (zlookup (Elems a) (i / 64)) eqn:He; [|done].
    apply zlookup_Some in He as [_ He].
    assert (Hin : z ∈ Elems a) by (by eapply list_elem_of_lookup_2).
    rewrite Forall_forall in Hf. specialize (Hf z Hin). apply list_elem_of_In, Hz in Hin.
    inv_val. z_bool. replace z with 0 by int_lia. apply Z.bits_0.
  - intros Hbit x Hx%list_elem_of_In. pose proof Hx as Hx'. apply list_elem_of_lookup in Hx as [k Hk].
    rewrite Forall_forall in Hf.
    rewrite (word_zero_bits x); [done|by apply Hf|]. intros j Hj.
    specialize (Hbit (64 * Z.of_nat k + j) ltac:(lia)). unfold bit in Hbit.
    replace ((64 * Z.of_nat k + j) / 64) with (Z.of_nat k) in Hbit by (apply Z.div_unique with j; lia).
    replace ((64 * Z.of_nat k + j) mod 64) with j in Hbit by (apply Z.mod_unique with (Z.of_nat k); lia).
    by rewrite zlookup_nat, Hk in Hbit.
Qed.

(** On an array without stray bits, [IsEmpty] holds exactly when no bit
    is set and [IsFull] exactly when all bits are; the mask arithmetic on the last
    word is right for every size. *)
Theorem bitarray_empty_full a :
  wf a -> clean a ->
  (IsEmpty (Some a) = true <-> forall i, 0 <= i < Bits a -> bit a i = false) /\
  exists b, IsFull (Some a) = Val b /\ (b = true <-> forall i, 0 <= i < Bits a -> bit a i = true).
Proof.
  intros Hw Hc. split; [|by apply IsFull_bits].
  rewrite IsEmpty_bits by done. split; [naive_solver|]. intros Hz i Hi.
  destruct (Z.lt_ge_cases i (Bits a)); [by apply Hz|by apply Hc].
Qed.

(** ** Encodings *)

Lemma bit_zero_elems n m i : bit (mkBitArray n (replicate m 0)) i = false.
Proof.
  unfold bit. simpl. destruct (zlookup _ _) eqn:Hz; [|done].
  apply zlookup_Some in Hz as [_ [-> _]%lookup_replicate]. apply Z.bits_0.
Qed.

Lemma NewBitArray_wf n :
  0 < n <= MaxInt32 ->
  exists a, NewBitArray n = Some a /\ wf a /\ clean a /\ Bits a = n /\ forall i, bit a i = false.
Proof.
  intros Hn. unfold NewBitArray, make_elems. destruct (Z.leb_spec n 0); [lia|].
  eexists. split; [done|]. pose proof (numElems_bounds n Hn).
  assert (Hz := bit_zero_elems n (Z.to_nat (numElems n))).
  split; [|by split; [intros i _|]]. repeat split; simpl; [lia..| |].
  - unfold len. rewrite length_replicate. lia.
  - apply Forall_replicate. int_lia.
Qed.

(** ** Bit arrays that mirror which entries of a list are present *)

Section mirror.
Context {A : Type}.

Definition bits_ok (bits : option BitArray) (votes : list (option A)) : Prop :=
  match bits with
  | None => votes = []
  | Some bA => wf bA /\ Bits bA = len votes /\
      forall i o, votes !! i = Some o -> bit bA (Z.of_nat i) = bool_decide (is_Some o)
  end.

Lemma bits_ok_new n : 0 <= n <= MaxInt32 -> bits_ok (NewBitArray n) (replicate (Z.to_nat n) (None : option A)).
Proof.
  intros Hn. destruct (decide (n = 0)) as [->|Hne]; [done|].
  destruct (NewBitArray_wf n ltac:(lia)) as (a & -> & Hw & _ & Hb & Hbit). split; [done|]. split.
  - unfold len. rewrite length_replicate. lia.
  - intros i o [-> _]%lookup_replicate. by rewrite Hbit.
Qed.

Lemma bits_ok_set bits votes i v :
  bits_ok bits votes -> (i < length votes)%nat ->
  exists bits' b, SetIndex bits (Z.of_nat i) true = Val (bits', b) /\ bits_ok bits' (<[i := Some v]> votes).
Proof.
  intros Hb Hi. destruct bits as [bA|]; simpl in Hb; [|subst; simpl in Hi; lia].
  destruct Hb as (Hw & Hlen & Hbit). destruct (setIndex_val bA (Z.of_nat i) true Hw) as (bA' & Hs & Hw' & Hb' & Hbit').
  { rewrite Hlen. unfold len. lia. }
  simpl. rewrite Hs. go_step. eexists _, _. split; [done|]. split; [done|]. split.
  - unfold len in *. rewrite length_insert. lia.
  - intros j o Hj. rewrite Hbit' by lia. destruct (Z.eqb_spec (Z.of_nat j) (Z.of_nat i)) as [Hij|Hij].
    + apply Nat2Z.inj in Hij as ->. rewrite list_lookup_insert_eq in Hj by done. by injection Hj as <-.
    + rewrite list_lookup_insert_ne in Hj by lia. by apply Hbit.
Qed.
End mirror.

(** Only which entries are present matters. *)
Lemma bits_ok_same_shape {A B} bits (votes : list (option A)) (votes' : list (option B)) :
  bits_ok bits votes -> length votes = length votes' ->
  (forall i o o', votes !! i = Some o -> votes' !! i = Some o' -> is_Some o <-> is_Some o') -> bits_ok bits votes'.
Proof.
  destruct bits as [bA|]; simpl; [|by intros -> Hl; destruct votes'].
  intros (Hw & Hb & Hbit) Hl Hsh. split; [done|]. split; [unfold len in *; lia|].
  intros i o' Ho'. destruct (lookup_lt_is_Some_2 votes i) as [o Ho]; [apply lookup_lt_Some in Ho'; lia|].
  rewrite (Hbit i o Ho). apply bool_decide_ext. by eapply Hsh.
Qed.

Lemma json_bits_val n i a :
  wf a -> 0 <= i -> i + Z.of_nat n <= Bits a ->
  json_bits n i a = Val ((fun j => bit_char (bit a j)) <$> seqZ i (Z.of_nat n)).
Proof.
  intros Hw. revert i. induction n as [|n IH]; intros i Hi Hn; [done|].
  cbn [json_bits]. rewrite getIndex_bit, IH by (done || lia). z_cases. go_step.
  rewrite (seqZ_cons i (Z.of_nat (S n))) by lia. rewrite fmap_cons, <- Z.add_1_r.
  by replace (Z.pred (Z.of_nat (S n))) with (Z.of_nat n) by lia.
Qed.

Lemma set_bits_val bits i a :
  wf a -> 0 <= i -> i + len bits <= Bits a ->
  exists b, set_bits bits i (Some a) = Val (Some b) /\ wf b /\ Bits b = Bits a /\
    forall j, 0 <= j -> bit b j =
      match zlookup bits (j - i) with Some c => bool_decide (c = x78) || bit a j | None => bit a j end.
Proof.
  revert i a. induction bits as [|c bits IH]; intros i a Hw Hi Hl.
  { exists a. repeat split; try done; try apply Hw. intros j Hj.
    by rewrite (proj2 (zlookup_None [] (j - i))) by (unfold len; simpl; lia). }
  unfold len in Hl. simpl length in Hl.
  assert (Hstep : exists a', (if bool_decide (c = x78) then '(b, _) ← SetIndex (Some a) i true; Val b
      else Val (Some a) : go (option BitArray)) = Val (Some a') /\ wf a' /\ Bits a' = Bits a /\
      forall j, 0 <= j -> bit a' j = if j =? i then bool_decide (c = x78) || bit a j else bit a j).
  { destruct (setIndex_val a i true Hw ltac:(lia)) as (a' & Hs & Hw' & Hb & Hbit).
    case_bool_decide; [|exists a; repeat split; try done; try apply Hw; intros j _; by destruct (_ =? _)].
    exists a'. simpl. rewrite Hs. done. }
  destruct Hstep as (a' & Hs & Hw' & Hb & Hbit). cbn [set_bits]. rewrite Hs. go_step.
  destruct (IH (i + 1) a') as (b & -> & Hwb & Hbb & Hbitb); [done|lia|unfold len; lia|].
  exists b. split; [done|]. split; [done|]. split; [lia|]. intros j Hj.
  rewrite Hbitb, Hbit by lia. destruct (Z.eqb_spec j i) as [->|Hne].
  - rewrite (proj2 (zlookup_None bits _)) by lia. by rewrite Z.sub_diag.
  - unfold zlookup. destruct (Z.leb_spec 0 (j - (i + 1))), (Z.leb_spec 0 (j - i)); try lia; [|done].
    by replace (Z.to_nat (j - i)) with (S (Z.to_nat (j - (i + 1)))) by lia.
Qed.

Lemma match_bits_quoted bits :
  forallb is_bit_char bits = true -> match_bits (quote :: bits ++ [quote]) = Some bits.
Proof.
  intros Hb. unfold match_bits. rewrite last_snoc, length_app. simpl length.
  replace (length bits + 1 - 1)%nat with (length bits) by lia.
  by rewrite take_app_length, Hb.
Qed.

Lemma bit_char_spec b : is_bit_char (bit_char b) = true /\ bool_decide (bit_char b = x78) = b.
Proof. by destruct b. Qed.

(** Decoding what [MarshalJSON] wrote gives an array with the same
    size and bits (the same array when there are no stray bits), and [FromProto]
    inverts [ToProto]. *)
Theorem bitarray_roundtrips a a0 :
  wf a ->
  (exists js b, MarshalJSON (Some a) = Val js /\ UnmarshalJSON js = Val b /\ wf b /\ clean b /\
     Bits b = Bits a /\ (forall i, 0 <= i < Bits a -> bit b i = bit a i) /\ (clean a -> b = a)) /\
  FromProto a0 (ToProto (Some a)) = Val a.
Proof.
  intros Hw. pose proof Hw as (Hb & Hl & Hf). split.
  2: { unfold ToProto, FromProto. destruct a as [n l]. simpl in *.
       destruct (Z.eqb_spec n 0); [lia|]. rewrite andb_false_r. simpl.
       rewrite int64_id by int_lia. rewrite Hl, Z.eqb_refl. z_cases. done. }
  set (js := (fun j => bit_char (bit a j)) <$> seqZ 0 (Bits a)).
  assert (Hlen : len js = Bits a) by (unfold js, len; rewrite length_fmap, length_seqZ; lia).
  destruct (NewBitArray_wf (Bits a) Hb) as (z & Hz & Hwz & _ & Hbz & Hbitz).
  destruct (set_bits_val js 0 z) as (b & Hs & Hwb & Hbb & Hbitb); [done|lia|lia|].
  assert (Hbits : forall i, 0 <= i -> bit b i = if i <? Bits a then bit a i else false).
  { intros i Hi. rewrite Hbitb, Z.sub_0_r, Hbitz by done. destruct (Z.ltb_spec i (Bits a)).
    - rewrite (proj2 (zlookup_Some js i (bit_char (bit a i)))).
      + by rewrite (proj2 (bit_char_spec _)), orb_false_r.
      + split; [lia|]. unfold js. rewrite list_lookup_fmap, lookup_seqZ_lt by lia. simpl.
        by rewrite Z2Nat.id by lia.
    - by rewrite (proj2 (zlookup_None js i)) by lia. }
  exists (quote :: js ++ [quote]), b. split; [|split; [|split; [done|split; [|split; [lia|split]]]]].
  - unfold MarshalJSON. rewrite json_bits_val by (done || lia). go_step.
    by rewrite Z2Nat.id by lia.
  - unfold UnmarshalJSON. case_bool_decide as Hn; [by destruct js|].
    rewrite match_bits_quoted.
    + rewrite Hlen, Hz, Hs. done.
    + apply forallb_forall. intros c Hc%list_elem_of_In. unfold js in Hc.
      apply list_elem_of_fmap in Hc as (j & -> & _). apply bit_char_spec.
  - intros i Hi. rewrite Hbits by lia. destruct (Z.ltb_spec i (Bits a)); [lia|done].
  - intros i Hi. rewrite Hbits by lia. destruct (Z.ltb_spec i (Bits a)); [done|lia].
  - intros Hc. apply bitarray_ext; [done..|lia|]. intros i Hi. rewrite Hbits by lia.
    destruct (Z.ltb_spec i (Bits a)); [done|]. symmetry. by apply Hc.
Qed.

(** ** Behaviour at the corners

    [Or] walks the words the operands share: when the receiver is shorter by
    whole words, the set bits of the argument's other words are lost.  [Not]
    sets the unused bits of the last word, which [IsEmpty] then sees.  The
    decoders accept the empty array, on which other operations panic. *)

Definition short_array : BitArray := mkBitArray 10 [1].
Definition long_array : BitArray := mkBitArray 100 [0; 64].

(** Corner cases.  [Or] with a receiver that is shorter by whole words
    drops set bits of the argument; [IsEmpty] is false on the complement of a full
    array although no bit is set; the empty JSON string makes [UnmarshalJSON] panic;
    and [FromProto] accepts an empty array on which [IsFull] and [PickRandom] panic. *)
Theorem bitarray_corners :
  (getIndex long_array 70 = Val true /\
   exists c, Or (Some short_array) (Some long_array) = Val (Some c) /\ Bits c = 100 /\
     getIndex c 70 = Val false) /\
  (exists c, Not (Some (mkBitArray 10 [1023])) = Some c /\ IsEmpty (Some c) = false /\
     forall i, 0 <= i < Bits c -> getIndex c i = Val false) /\
  (exists w, UnmarshalJSON [quote; quote] = Panic w) /\
  (exists c w w', FromProto short_array (Some (mkProtoBitArray 0 [])) = Val c /\
     IsFull (Some c) = Panic w /\ PickRandom (fun _ => 0) (Some c) = Panic w').
Proof.
  split; [split; [done|by eexists; split; [vm_compute|]]|].
  split; [|split; [by eexists|by do 3 eexists]].
  eexists. split; [done|]. split; [done|]. simpl. intros i Hi.
  assert (Hall : Forall (fun i => getIndex (mkBitArray 10 (not64 <$> [1023])) i = Val false) (seqZ 0 10))
    by (by repeat constructor).
  rewrite Forall_seqZ in Hall. by apply Hall.
Qed.

(** ** Concrete instances *)

Lemma wf_short_array : wf short_array.
Proof. repeat split; try done. by repeat constructor. Qed.

Lemma wf_long_array : wf long_array.
Proof. repeat split; try done. by repeat constructor. Qed.

Lemma clean_short_array : clean short_array.
Proof.
  intros i Hi. change 1 with (2 ^ 0) in *. unfold bit. simpl in *.
  destruct (zlookup [1] (i / 64)) as [e|] eqn:He; [|done].
  apply zlookup_Some in He as [Hr He]. unfold len in Hr. simpl in Hr.
  replace (i / 64) with 0 in He by lia. injection He as <-.
  apply (Z.pow2_bits_false 0). pose proof (Z.div_mod i 64). lia.
Qed.

Lemma bitarray_set_get_witness :
  exists bA', setIndex short_array 3 true = Val (bA', true) /\ getIndex bA' 3 = Val true.
Proof.
  destruct (bitarray_set_get short_array 3 true wf_short_array clean_short_array)
    as (c & Hs & _ & _ & _ & Hg); [done|].
  exists c. split; [exact Hs|]. rewrite Hg; done.
Defined.

Lemma bitarray_bitwise_witness :
  exists c, And (Some short_array) (Some long_array) = Val (Some c) /\ Bits c = 10.
Proof.
  destruct (bitarray_bitwise short_array long_array wf_short_array wf_long_array)
    as [(c & Hc & Hb & _) _].
  exists c. split; [exact Hc|]. rewrite Hb. reflexivity.
Defined.

Lemma bitarray_true_indices_witness :
  exists l, getTrueIndices long_array = Val l /\ 70 ∈ l.
Proof.
  destruct (bitarray_true_indices long_array wf_long_array) as (l & Hl & _ & Hin & _).
  exists l. split; [exact Hl|]. apply Hin. done.
Defined.

Lemma bitarray_empty_full_witness :
  exists b, IsFull (Some short_array) = Val b /\
    (b = true <-> forall i, 0 <= i < 10 -> bit short_array i = true).
Proof. exact (proj2 (bitarray_empty_full short_array wf_short_array clean_short_array)). Defined.

Lemma bitarray_roundtrips_witness :
  FromProto long_array (ToProto (Some short_array)) = Val short_array.
Proof. apply (bitarray_roundtrips short_array long_array wf_short_array). Defined.
