(* ===== verification/SafeMath.v ===== *)
(** * libs/math and the checked int64 arithmetic of types/validator_set.go

    The source adds, subtracts, multiplies and converts machine integers with
    overflow checks.  The definitions keep every intermediate result at its
    width; the lemmas say that the checks are exact, so that the components
    can reason with unbounded integers. *)
From Stdlib Require Import ZArith Lia.
From stdpp Require Import base strings.
From S2P Require Import Prelude.

(** ** libs/math/safemath.go *)

Definition SafeAddInt32 (a b : Z) : go Z :=
  if (b >? 0) && (a >? int32 (MaxInt32 - b)) then Panic "int32 overflow"
  else if (b <? 0) && (a <? int32 (MinInt32 - b)) then Panic "int32 overflow"
  else Val (int32 (a + b)).

Definition SafeSubInt32 (a b : Z) : go Z :=
  if (b >? 0) && (a <? int32 (MinInt32 + b)) then Panic "int32 overflow"
  else if (b <? 0) && (a >? int32 (MaxInt32 + b)) then Panic "int32 overflow"
  else Val (int32 (a - b)).

Definition SafeConvertInt32 (a : Z) : go Z :=
  if a >? MaxInt32 then Panic "int32 overflow"
  else if a <? MinInt32 then Panic "int32 overflow"
  else Val (int32 a).

Inductive SafeMathError := ErrOverflowUint8 | ErrOverflowInt8.

Definition SafeConvertUint8 (a : Z) : outcome SafeMathError Z :=
  if a >? 255 then Fail ErrOverflowUint8
  else if a <? 0 then Fail ErrOverflowUint8
  else Val (wrap_unsigned 8 a).

Definition SafeConvertInt8 (a : Z) : outcome SafeMathError Z :=
  if a >? 127 then Fail ErrOverflowInt8
  else if a <? -128 then Fail ErrOverflowInt8
  else Val (wrap_signed 8 a).

(** ** libs/math/fraction.go *)

Record Fraction := mkFraction { Numerator : Z; Denominator : Z }.

(** ** types/validator_set.go: int64 with an overflow flag *)

Definition safeAdd (a b : Z) : Z * bool :=
  if (b >? 0) && (a >? int64 (MaxInt64 - b)) then (-1, true)
  else if (b <? 0) && (a <? int64 (MinInt64 - b)) then (-1, true)
  else (int64 (a + b), false).

Definition safeSub (a b : Z) : Z * bool :=
  if (b >? 0) && (a <? int64 (MinInt64 + b)) then (-1, true)
  else if (b <? 0) && (a >? int64 (MaxInt64 + b)) then (-1, true)
  else (int64 (a - b), false).

Definition safeAddClip (a b : Z) : Z :=
  let (c, overflow) := safeAdd a b in
  if overflow then (if b <? 0 then MinInt64 else MaxInt64) else c.

Definition safeSubClip (a b : Z) : Z :=
  let (c, overflow) := safeSub a b in
  if overflow then (if b >? 0 then MinInt64 else MaxInt64) else c.

(** Go's [/] truncates towards zero. *)
Definition safeMul (a b : Z) : Z * bool :=
  if (a =? 0) || (b =? 0) then (0, false)
  else
    let absOfB := if b <? 0 then int64 (- b) else b in
    let absOfA := if a <? 0 then int64 (- a) else a in
    if absOfA >? Z.quot MaxInt64 absOfB then (0, true)
    else (int64 (a * b), false).

(** ** Exactness *)

Definition clip64 (z : Z) : Z := Z.max MinInt64 (Z.min MaxInt64 z).

Ltac safe_cases :=
  repeat match goal with
  | |- context [?a >? ?b] => rewrite (Z.gtb_ltb a b)
  | |- context [?a <? ?b] => destruct (Z.ltb_spec a b)
  end.

Lemma safeAdd_spec a b :
  is_int64 a -> is_int64 b ->
  safeAdd a b = if decide (is_int64 (a + b)) then (a + b, false) else (-1, true).
Proof.
  intros Ha Hb. unfold safeAdd.
  destruct (Z.lt_trichotomy b 0) as [H|[->|H]].
  - rewrite (int64_id (MinInt64 - b)) by int_lia.
    safe_cases; simpl; case_decide; try int_lia; rewrite ?int64_id by done; done.
  - simpl. rewrite Z.add_0_r. case_decide; [|done]. by rewrite int64_id.
  - rewrite (int64_id (MaxInt64 - b)) by int_lia.
    safe_cases; simpl; case_decide; try int_lia; rewrite ?int64_id by done; done.
Qed.

Lemma safeSub_spec a b :
  is_int64 a -> is_int64 b ->
  safeSub a b = if decide (is_int64 (a - b)) then (a - b, false) else (-1, true).
Proof.
  intros Ha Hb. unfold safeSub.
  destruct (Z.lt_trichotomy b 0) as [H|[->|H]].
  - rewrite (int64_id (MaxInt64 + b)) by int_lia.
    safe_cases; simpl; case_decide; try int_lia; rewrite ?int64_id by done; done.
  - simpl. rewrite Z.sub_0_r. case_decide; [|done]. by rewrite int64_id.
  - rewrite (int64_id (MinInt64 + b)) by int_lia.
    safe_cases; simpl; case_decide; try int_lia; rewrite ?int64_id by done; done.
Qed.

Lemma safeAddClip_spec a b : is_int64 a -> is_int64 b -> safeAddClip a b = clip64 (a + b).
Proof.
  intros Ha Hb. unfold safeAddClip, clip64. rewrite safeAdd_spec by done.
  case_decide; [int_lia|]. destruct (Z.ltb_spec b 0); int_lia.
Qed.

Lemma safeSubClip_spec a b : is_int64 a -> is_int64 b -> safeSubClip a b = clip64 (a - b).
Proof.
  intros Ha Hb. unfold safeSubClip, clip64. rewrite safeSub_spec by done.
  case_decide; [int_lia|]. rewrite Z.gtb_ltb. destruct (Z.ltb_spec 0 b); int_lia.
Qed.

Lemma safeAddClip_exact a b :
  is_int64 a -> is_int64 b -> is_int64 (a + b) -> safeAddClip a b = a + b.
Proof. intros. rewrite safeAddClip_spec by done. unfold clip64. int_lia. Qed.

Lemma safeSubClip_exact a b :
  is_int64 a -> is_int64 b -> is_int64 (a - b) -> safeSubClip a b = a - b.
Proof. intros. rewrite safeSubClip_spec by done. unfold clip64. int_lia. Qed.

Lemma safeAddClip_int64 a b : is_int64 (safeAddClip a b).
Proof.
  unfold safeAddClip, safeAdd. repeat case_match; simplify_eq; try apply int64_range; int_lia.
Qed.

Lemma safeSubClip_int64 a b : is_int64 (safeSubClip a b).
Proof.
  unfold safeSubClip, safeSub. repeat case_match; simplify_eq; try apply int64_range; int_lia.
Qed.

(** The absolute value of an [int64] other than the minimum. *)
Lemma abs64 a : is_int64 a -> a <> MinInt64 -> (if a <? 0 then int64 (- a) else a) = Z.abs a.
Proof. intros Ha Hn. destruct (Z.ltb_spec a 0); [rewrite int64_id by int_lia|]; lia. Qed.

Lemma quot_lt_mul a b m : 0 < b -> 0 <= m -> (Z.quot m b <? a) = (m <? a * b).
Proof.
  intros Hb Hm. rewrite Z.quot_div_nonneg by lia.
  pose proof (Z.div_mod m b). pose proof (Z.mod_pos_bound m b).
  destruct (Z.ltb_spec (m / b) a), (Z.ltb_spec m (a * b)); try done; nia.
Qed.

Lemma safeMul_spec a b :
  is_int64 a -> is_int64 b -> a <> MinInt64 -> b <> MinInt64 ->
  safeMul a b = if decide (Z.abs (a * b) <= MaxInt64) then (a * b, false) else (0, true).
Proof.
  intros Ha Hb Hna Hnb. unfold safeMul.
  destruct (Z.eqb_spec a 0) as [->|Ha0]; [done|].
  destruct (Z.eqb_spec b 0) as [->|Hb0]; [by rewrite Z.mul_0_r|]. cbn [orb]. cbv zeta.
  rewrite !abs64, Z.gtb_ltb, quot_lt_mul, Z.abs_mul by (done || int_lia).
  destruct (Z.ltb_spec MaxInt64 (Z.abs a * Z.abs b)); case_decide; try lia; [done|].
  rewrite int64_id; [done|]. rewrite <- Z.abs_mul in *. int_lia.
Qed.

(** The checked operations of [libs/math] and of the validator set are
    exact: they return the mathematical result when it is representable and
    otherwise panic, report the overflow or clip to the nearest bound; the
    multiplication is exact whenever neither factor is the minimal [int64]. *)
Theorem safe_arithmetic_exact a b :
  (is_int64 a -> is_int64 b ->
     safeAdd a b = (if decide (is_int64 (a + b)) then (a + b, false) else (-1, true)) /\
     safeSub a b = (if decide (is_int64 (a - b)) then (a - b, false) else (-1, true)) /\
     safeAddClip a b = clip64 (a + b) /\ safeSubClip a b = clip64 (a - b) /\
     (a <> MinInt64 -> b <> MinInt64 ->
      safeMul a b = if decide (Z.abs (a * b) <= MaxInt64) then (a * b, false) else (0, true))) /\
  (is_int32 a -> is_int32 b ->
     SafeAddInt32 a b = (if decide (is_int32 (a + b)) then Val (a + b) else Panic "int32 overflow") /\
     SafeSubInt32 a b = (if decide (is_int32 (a - b)) then Val (a - b) else Panic "int32 overflow")) /\
  SafeConvertInt32 a = (if decide (is_int32 a) then Val a else Panic "int32 overflow") /\
  SafeConvertUint8 a = (if decide (0 <= a <= 255) then Val a else Fail ErrOverflowUint8) /\
  SafeConvertInt8 a = (if decide (-128 <= a <= 127) then Val a else Fail ErrOverflowInt8).
Proof.
  split; [|split; [|split; [|split]]].
  - intros Ha Hb. split; [by apply safeAdd_spec|]. split; [by apply safeSub_spec|].
    split; [by apply safeAddClip_spec|]. split; [by apply safeSubClip_spec|]. by apply safeMul_spec.
  - intros Ha Hb. unfold SafeAddInt32, SafeSubInt32.
    destruct (Z.lt_trichotomy b 0) as [H|[->|H]].
    + rewrite (int32_id (MinInt32 - b)), (int32_id (MaxInt32 + b)) by int_lia.
      safe_cases; simpl; split; case_decide; try int_lia; rewrite ?int32_id by done; done.
    + simpl. rewrite Z.add_0_r, Z.sub_0_r. case_decide; [|done]. by rewrite int32_id.
    + rewrite (int32_id (MaxInt32 - b)), (int32_id (MinInt32 + b)) by int_lia.
      safe_cases; simpl; split; case_decide; try int_lia; rewrite ?int32_id by done; done.
  - unfold SafeConvertInt32. safe_cases; case_decide; try int_lia; rewrite ?int32_id by done; done.
  - unfold SafeConvertUint8, wrap_unsigned. safe_cases; case_decide; try lia; try done.
    by rewrite Z.mod_small by lia.
  - unfold SafeConvertInt8, wrap_signed. safe_cases; case_decide; try lia; try done.
    rewrite Z.mod_small by lia. f_equal. lia.
Qed.

Lemma safe_arithmetic_exact_witness :
  safeMul (2 ^ 61) 5 = (0, true) /\ SafeAddInt32 MaxInt32 1 = Panic "int32 overflow".
Proof.
  split.
  - destruct (proj1 (safe_arithmetic_exact (2 ^ 61) 5)) as (_ & _ & _ & _ & H); [done..|].
    rewrite H by done. reflexivity.
  - destruct (proj1 (proj2 (safe_arithmetic_exact MaxInt32 1))) as [H _]; [done..|].
    rewrite H. reflexivity.
Defined.

(** [safeMul] misses the overflow of the minimal [int64]: negating it
    gives itself, the guard compares a negative number, and the product wraps
    around without the overflow flag. *)
Theorem safeMul_min_wraps :
  safeMul MinInt64 2 = (0, false) /\ safeMul MinInt64 (-1) = (MinInt64, false) /\
  ~ is_int64 (MinInt64 * 2).
Proof. split; [done|split; [done|int_lia]]. Qed.

#[export] Hint Resolve safeAddClip_int64 safeSubClip_int64 : tm.
