(* ===== verification/Proto.v ===== *)
(** * The protobuf wire format used by the hashed and signed messages

    The varint of the generated marshallers (for instance
    [encodeVarintValidator]), length-delimited fields, and the fact that both
    are self-delimiting, which is what makes the encodings injective. *)
From Stdlib Require Import ZArith Lia Strings.Byte.
From stdpp Require Import base list.
From S2P Require Import Prelude.

(** A byte from the low eight bits of an integer ([uint8(v)]). *)
Definition byte_of (z : Z) : byte := default x00 (Byte.of_N (Z.to_N (z mod 256))).

Lemma byte_of_to_N z : 0 <= z < 256 -> Z.of_N (Byte.to_N (byte_of z)) = z.
Proof.
  intros Hz. unfold byte_of. rewrite Z.mod_small by lia.
  destruct (Byte.of_N (Z.to_N z)) as [b|] eqn:Hb; simpl.
  - apply Byte.to_of_N in Hb. rewrite Hb. lia.
  - apply Byte.of_N_None_iff in Hb. lia.
Qed.

Lemma byte_of_inj a b : 0 <= a < 256 -> 0 <= b < 256 -> byte_of a = byte_of b -> a = b.
Proof. intros Ha Hb H. rewrite <- (byte_of_to_N a), <- (byte_of_to_N b) by lia. by rewrite H. Qed.

(** [for v >= 1<<7 { emit uint8(v&0x7f | 0x80); v >>= 7 }; emit uint8(v)]:
    ten rounds are enough for a [uint64]. *)
Fixpoint uvarint_go (fuel : nat) (v : Z) : bytes :=
  match fuel with
  | O => [byte_of v]
  | S fuel' =>
      if v >=? 128 then byte_of (Z.lor (Z.land v 127) 128) :: uvarint_go fuel' (Z.shiftr v 7)
      else [byte_of v]
  end.

Definition uvarint (v : Z) : bytes := uvarint_go 9 v.

(** A length-delimited field with the given tag byte. *)
Definition len_field (tag : byte) (b : bytes) : bytes := tag :: uvarint (len b) ++ b.
(** Fields the marshallers leave out when they hold the zero value. *)
Definition bytes_field (tag : byte) (b : bytes) : bytes :=
  if len b >? 0 then len_field tag b else [].
Definition varint_field (tag : byte) (v : Z) : bytes :=
  if v =? 0 then [] else tag :: uvarint (uint64 v).

Lemma land127 v : 0 <= v -> Z.land v 127 = v mod 128.
Proof. intros. change 127 with (Z.ones 7). by rewrite Z.land_ones by lia. Qed.

Lemma lor128 v : 0 <= v -> Z.lor (Z.land v 127) 128 = v mod 128 + 128.
Proof.
  intros Hv. rewrite land127 by done. symmetry. apply Z.add_nocarry_lor.
  rewrite <- land127 by done. rewrite <- Z.land_assoc.
  change (Z.land 127 128) with 0. apply Z.land_0_r.
Qed.

(** Varints are self-delimiting. *)
Lemma uvarint_go_inj fuel a b r s :
  0 <= a < 2 ^ (7 * Z.of_nat fuel + 7) -> 0 <= b < 2 ^ (7 * Z.of_nat fuel + 7) ->
  uvarint_go fuel a ++ r = uvarint_go fuel b ++ s -> a = b /\ r = s.
Proof.
  revert a b. induction fuel as [|fuel IH]; intros a b Ha Hb.
  { simpl in *. intros [= H ->]. split; [|done]. apply byte_of_inj; [lia..|done]. }
  replace (7 * Z.of_nat (S fuel) + 7) with ((7 * Z.of_nat fuel + 7) + 7) in * by lia.
  set (m := 7 * Z.of_nat fuel + 7) in *.
  rewrite Z.pow_add_r in Ha, Hb by lia. change (2 ^ 7) with 128 in *.
  cbn [uvarint_go]. rewrite !Z.geb_leb, !lor128, !Z.shiftr_div_pow2 by lia. change (2 ^ 7) with 128.
  pose proof (Z.mod_pos_bound a 128). pose proof (Z.mod_pos_bound b 128).
  destruct (Z.leb_spec 128 a), (Z.leb_spec 128 b); simpl; intros [= Hbyte Hrest].
  - apply byte_of_inj in Hbyte; [|lia..].
    apply IH in Hrest as [Hq ->]; [|split; [apply Z.div_pos|apply Z.div_lt_upper_bound]; lia..].
    split; [|done]. pose proof (Z.div_mod a 128). pose proof (Z.div_mod b 128). lia.
  - apply byte_of_inj in Hbyte; lia.
  - apply byte_of_inj in Hbyte; lia.
  - apply byte_of_inj in Hbyte; [|lia..]. done.
Qed.

Lemma uvarint_inj a b r s :
  is_uint64 a -> is_uint64 b -> uvarint a ++ r = uvarint b ++ s -> a = b /\ r = s.
Proof.
  intros Ha Hb. apply uvarint_go_inj.
  - change (7 * Z.of_nat 9 + 7) with 70. assert (2 ^ 64 < 2 ^ 70) by done. int_lia.
  - change (7 * Z.of_nat 9 + 7) with 70. assert (2 ^ 64 < 2 ^ 70) by done. int_lia.
Qed.

Lemma len_field_inj tag a b r s :
  is_uint64 (len a) -> is_uint64 (len b) ->
  len_field tag a ++ r = len_field tag b ++ s -> a = b /\ r = s.
Proof.
  intros Ha Hb. unfold len_field. intros [= H]. rewrite <- !app_assoc in H.
  apply uvarint_inj in H as [Hl H]; [|done..]. unfold len in Hl. apply app_inj_1 in H; [done|lia].
Qed.

Lemma uint64_inj a b : is_int64 a -> is_int64 b -> uint64 a = uint64 b -> a = b.
Proof.
  intros Ha Hb. unfold uint64, wrap_unsigned. intros H.
  assert ((a - b) mod 2 ^ 64 = 0) as Hd by (rewrite Zminus_mod, H, Z.sub_diag; done).
  apply Z.mod_divide in Hd as [k Hk]; [|done]. int_lia.
Qed.

Lemma varint_field_inj tag a b :
  is_int64 a -> is_int64 b -> varint_field tag a = varint_field tag b -> a = b.
Proof.
  intros Ha Hb. unfold varint_field.
  destruct (Z.eqb_spec a 0), (Z.eqb_spec b 0); try done; [lia|]. intros [= H].
  apply (f_equal (fun l => l ++ [])) in H.
  apply uvarint_inj in H as [H _]; [by apply uint64_inj|apply uint64_range..].
Qed.

(** A varint takes between one and ten bytes. *)
Lemma uvarint_length v : 1 <= len (uvarint v) <= 10.
Proof.
  unfold uvarint. assert (H : forall fuel v, 1 <= len (uvarint_go fuel v) <= Z.of_nat fuel + 1).
  { induction fuel as [|fuel IH]; intros w; cbn [uvarint_go]; [done|].
    destruct (w >=? 128); unfold len in *; simpl; [specialize (IH (Z.shiftr w 7)); lia|lia]. }
  specialize (H 9%nat v). lia.
Qed.
