(* ===== verification/Validator.v ===== *)
(** * types/validator.go and types/validator_set.go: the model

    A [*Validator] held in a set is the record at a position of the list
    [Validators]; the code that compares pointers ([findPreviousProposer]) or
    mutates through one ([incrementProposerPriority]) is modelled with the
    position.  Methods that mutate their receiver return it.  [Proposer] is
    the value of the proposer when it was assigned: the source keeps a pointer
    to an element, whose priority later operations may still change, and uses
    it for its address and key.

    Public keys are of the three types of [crypto/encoding/codec.go]; the
    address derivation and the signature check are supplied by [Crypto]. *)
From Stdlib Require Import ZArith Lia Strings.Byte.
From stdpp Require Import base list strings.
From S2P Require Import Prelude.
From S2P Require Import Merkle.
From S2P Require Import SafeMath.
From S2P Require Import Proto.

(** ** crypto *)

Inductive KeyType := Ed25519 | Secp256k1 | Sr25519.
#[export] Instance KeyType_eq_dec : EqDecision KeyType.
Proof. solve_decision. Defined.

Record PubKey := mkPubKey { pk_Type : KeyType; pk_Bytes : bytes }.
#[export] Instance PubKey_eq_dec : EqDecision PubKey.
Proof. solve_decision. Defined.

(** The cryptographic primitives: the address of a key and the verification
    of a signature on a message. *)
Class Crypto := {
  pk_Address : PubKey -> bytes;
  VerifySignature : PubKey -> bytes -> bytes -> bool;
}.

Definition AddressSize : Z := 20.

Definition key_tag (t : KeyType) : byte :=
  match t with Ed25519 => x0a | Secp256k1 => x12 | Sr25519 => x1a end.

(** [PubKeyToProto] followed by the marshaller of [PublicKey]. *)
Definition PubKey_Marshal (pk : PubKey) : bytes := len_field (key_tag (pk_Type pk)) (pk_Bytes pk).

(** ** Validators *)

Record Validator := mkValidator {
  Address : bytes;
  PubKey_ : option PubKey;
  VotingPower : Z;
  ProposerPriority : Z
}.
#[export] Instance Validator_eq_dec : EqDecision Validator.
Proof. solve_decision. Defined.

Definition set_Priority (v : Validator) (p : Z) : Validator :=
  mkValidator (Address v) (PubKey_ v) (VotingPower v) p.

Definition NewValidator `{!Crypto} (pubKey : PubKey) (votingPower : Z) : Validator :=
  mkValidator (pk_Address pubKey) (Some pubKey) votingPower 0.

Inductive ValidatorError :=
  | ErrNilValidator | ErrNoPubKey | ErrNegativePower | ErrAddressSize.

Definition Validator_ValidateBasic (v : option Validator) : outcome ValidatorError unit :=
  match v with
  | None => Fail ErrNilValidator
  | Some v =>
      _ ← fail_if (bool_decide (PubKey_ v = None)) ErrNoPubKey;
      _ ← fail_if (VotingPower v <? 0) ErrNegativePower;
      _ ← fail_if (negb (len (Address v) =? AddressSize)) ErrAddressSize;
      Val tt
  end.

(** [CompareProposerPriority]: the pointer to the validator with the higher
    priority; [P] is the type of pointers. *)
Definition CompareProposerPriority {P} (deref : P -> Validator) (v : option P) (other : P) : go P :=
  match v with
  | None => Val other
  | Some v =>
      if ProposerPriority (deref v) >? ProposerPriority (deref other) then Val v
      else if ProposerPriority (deref v) <? ProposerPriority (deref other) then Val other
      else
        match bytes_compare (Address (deref v)) (Address (deref other)) with
        | Lt => Val v
        | Gt => Val other
        | Eq => Panic "Cannot compare identical validators"
        end
  end.

(** [Bytes]: the marshalled [SimpleValidator]; a nil key has no encoding. *)
Definition Validator_Bytes (v : Validator) : go bytes :=
  match PubKey_ v with
  | None => Panic "toproto: key type is not supported"
  | Some pk => Val (len_field x0a (PubKey_Marshal pk) ++ varint_field x10 (VotingPower v))
  end.

(** ** Validator sets *)

Definition MaxTotalVotingPower : Z := Z.quot MaxInt64 8.
Definition PriorityWindowSizeFactor : Z := 2.

Record ValidatorSet := mkValidatorSet {
  Validators : list Validator;
  Proposer : option Validator;
  totalVotingPower : Z
}.

Definition empty_set : ValidatorSet := mkValidatorSet [] None 0.

Definition with_Validators (vals : ValidatorSet) (l : list Validator) : ValidatorSet :=
  mkValidatorSet l (Proposer vals) (totalVotingPower vals).

Definition IsNilOrEmpty (vals : option ValidatorSet) : bool :=
  match vals with None => true | Some vals => len (Validators vals) =? 0 end.

Definition is_empty (vals : ValidatorSet) : bool := IsNilOrEmpty (Some vals).

Inductive ValidatorSetError :=
  | ErrEmptyValidatorSet
  | ErrInvalidValidator (idx : Z) (e : ValidatorError)
  | ErrProposerInvalid (e : ValidatorError)
  | ErrDuplicateEntry
  | ErrVotingPowerNegative
  | ErrVotingPowerTooHigh
  | ErrDeletesNotAllowed
  | ErrWouldBeEmpty
  | ErrRemoveNotFound (address : bytes)
  | ErrTotalVotingPowerOverflow
  | ErrValidator (e : ValidatorError).

Fixpoint validate_each (idx : Z) (l : list Validator) : outcome ValidatorSetError unit :=
  match l with
  | [] => Val tt
  | v :: l' =>
      _ ← wrap_err (ErrInvalidValidator idx) (Validator_ValidateBasic (Some v));
      validate_each (idx + 1) l'
  end.

Definition ValidatorSet_ValidateBasic (vals : option ValidatorSet) : outcome ValidatorSetError unit :=
  match vals with
  | None => Fail ErrEmptyValidatorSet
  | Some vals =>
      _ ← fail_if (is_empty vals) ErrEmptyValidatorSet;
      _ ← validate_each 0 (Validators vals);
      wrap_err ErrProposerInvalid (Validator_ValidateBasic (Proposer vals))
  end.

(** The elements of the set with their positions: the model of pointers to them. *)
Definition pointers (l : list Validator) : list (nat * Validator) := imap pair l.

(** ** Total voting power *)

Fixpoint sum_voting_power (sum : Z) (l : list Validator) : go Z :=
  match l with
  | [] => Val sum
  | v :: l' =>
      let sum := safeAddClip sum (VotingPower v) in
      if sum >? MaxTotalVotingPower then Panic "Total voting power should be guarded to not exceed"
      else sum_voting_power sum l'
  end.

Definition updateTotalVotingPower (vals : ValidatorSet) : go ValidatorSet :=
  sum ← sum_voting_power 0 (Validators vals);
  Val (mkValidatorSet (Validators vals) (Proposer vals) sum).

Definition TotalVotingPower (vals : ValidatorSet) : go (Z * ValidatorSet) :=
  vals ← (if totalVotingPower vals =? 0 then updateTotalVotingPower vals else Val vals);
  Val (totalVotingPower vals, vals).

(** ** Proposer selection *)

Fixpoint max_min_priority (l : list Validator) (max min : Z) : Z * Z :=
  match l with
  | [] => (max, min)
  | v :: l' =>
      let min := if ProposerPriority v <? min then ProposerPriority v else min in
      let max := if ProposerPriority v >? max then ProposerPriority v else max in
      max_min_priority l' max min
  end.

Definition computeMaxMinPriorityDiff (vals : ValidatorSet) : go Z :=
  _ ← panic_if (is_empty vals) "empty validator set";
  let (max, min) := max_min_priority (Validators vals) MinInt64 MaxInt64 in
  let diff := int64 (max - min) in
  Val (if diff <? 0 then int64 (-1 * diff) else diff).

Definition RescalePriorities (vals : ValidatorSet) (diffMax : Z) : go ValidatorSet :=
  _ ← panic_if (is_empty vals) "empty validator set";
  if diffMax <=? 0 then Val vals
  else
    diff ← computeMaxMinPriorityDiff vals;
    let ratio := Z.quot (int64 (int64 (diff + diffMax) - 1)) diffMax in
    if diff >? diffMax then
      _ ← panic_if (ratio =? 0) "integer divide by zero";
      Val (with_Validators vals
        ((fun v => set_Priority v (int64 (Z.quot (ProposerPriority v) ratio))) <$> Validators vals))
    else Val vals.

(** [big.Int.Div] is Euclidean division, which for a positive divisor is the floor. *)
Definition computeAvgProposerPriority (vals : ValidatorSet) : go Z :=
  let n := len (Validators vals) in
  _ ← panic_if (n =? 0) "division by zero";
  let avg := sumZ ProposerPriority (Validators vals) / n in
  if bool_decide (is_int64 avg) then Val avg else Panic "Cannot represent avg ProposerPriority as an int64".

Definition shiftByAvgProposerPriority (vals : ValidatorSet) : go ValidatorSet :=
  _ ← panic_if (is_empty vals) "empty validator set";
  avg ← computeAvgProposerPriority vals;
  Val (with_Validators vals
    ((fun v => set_Priority v (safeSubClip (ProposerPriority v) avg)) <$> Validators vals)).

Fixpoint most_priority (res : option (nat * Validator)) (l : list (nat * Validator))
    : go (option (nat * Validator)) :=
  match l with
  | [] => Val res
  | val :: l' => res ← CompareProposerPriority snd res val; most_priority (Some res) l'
  end.

Definition getValWithMostPriority (vals : ValidatorSet) : go (option (nat * Validator)) :=
  most_priority None (pointers (Validators vals)).

Definition add_voting_power (v : Validator) : Validator :=
  set_Priority v (safeAddClip (ProposerPriority v) (VotingPower v)).

Definition incrementProposerPriority (vals : ValidatorSet) : go (ValidatorSet * Validator) :=
  let vals := with_Validators vals (add_voting_power <$> Validators vals) in
  mostest ← getValWithMostPriority vals;
  match mostest with
  | None => Panic "invalid memory address or nil pointer dereference"
  | Some (i, m) =>
      '(total, vals) ← TotalVotingPower vals;
      let m := set_Priority m (safeSubClip (ProposerPriority m) total) in
      Val (with_Validators vals (<[i := m]> (Validators vals)), m)
  end.

(** [for i := int32(0); i < times; i++]. *)
Fixpoint increment_times (n : nat) (vals : ValidatorSet) (proposer : option Validator)
    : go (ValidatorSet * option Validator) :=
  match n with
  | O => Val (vals, proposer)
  | S n' => '(vals, p) ← incrementProposerPriority vals; increment_times n' vals (Some p)
  end.

Definition IncrementProposerPriority (vals : ValidatorSet) (times : Z) : go ValidatorSet :=
  _ ← panic_if (is_empty vals) "empty validator set";
  _ ← panic_if (times <=? 0) "Cannot call IncrementProposerPriority with non-positive times";
  '(total, vals) ← TotalVotingPower vals;
  let diffMax := int64 (PriorityWindowSizeFactor * total) in
  vals ← RescalePriorities vals diffMax;
  vals ← shiftByAvgProposerPriority vals;
  '(vals, proposer) ← increment_times (Z.to_nat times) vals None;
  Val (mkValidatorSet (Validators vals) proposer (totalVotingPower vals)).

Definition ValidatorSet_Copy (vals : ValidatorSet) : ValidatorSet := vals.

Definition CopyIncrementProposerPriority (vals : ValidatorSet) (times : Z) : go ValidatorSet :=
  IncrementProposerPriority (ValidatorSet_Copy vals) times.

Fixpoint find_proposer (proposer : option (nat * Validator)) (l : list (nat * Validator))
    : go (option (nat * Validator)) :=
  match l with
  | [] => Val proposer
  | val :: l' =>
      if match proposer with
         | None => true
         | Some p => negb (bytes_equal (Address val.2) (Address p.2))
         end
      then p ← CompareProposerPriority snd proposer val; find_proposer (Some p) l'
      else find_proposer proposer l'
  end.

Definition findProposer (vals : ValidatorSet) : go (option Validator) :=
  p ← find_proposer None (pointers (Validators vals));
  Val (option_map snd p).

Definition GetProposer (vals : ValidatorSet) : go (option Validator * ValidatorSet) :=
  if len (Validators vals) =? 0 then Val (None, vals)
  else
    match Proposer vals with
    | Some p => Val (Some p, vals)
    | None =>
        p ← findProposer vals;
        match p with
        | None => Panic "invalid memory address or nil pointer dereference"
        | Some p => Val (Some p, mkValidatorSet (Validators vals) (Some p) (totalVotingPower vals))
        end
    end.

(** The comparison of pointers is the comparison of positions. *)
Fixpoint find_previous_proposer (prev : option (nat * Validator)) (l : list (nat * Validator))
    : go (option (nat * Validator)) :=
  match l with
  | [] => Val prev
  | val :: l' =>
      match prev with
      | None => find_previous_proposer (Some val) l'
      | Some p =>
          c ← CompareProposerPriority snd prev val;
          if (p.1 =? c.1)%nat then find_previous_proposer (Some val) l'
          else find_previous_proposer prev l'
      end
  end.

Definition findPreviousProposer (vals : ValidatorSet) : go (option Validator) :=
  p ← find_previous_proposer None (pointers (Validators vals));
  Val (option_map snd p).

(** ** Lookup *)

Definition HasAddress (vals : ValidatorSet) (address : bytes) : bool :=
  existsb (fun v => bytes_equal (Address v) address) (Validators vals).

Fixpoint get_by_address (idx : Z) (l : list Validator) (address : bytes) : Z * option Validator :=
  match l with
  | [] => (-1, None)
  | v :: l' =>
      if bytes_equal (Address v) address then (int32 idx, Some v)
      else get_by_address (idx + 1) l' address
  end.

Definition GetByAddress (vals : ValidatorSet) (address : bytes) : Z * option Validator :=
  get_by_address 0 (Validators vals) address.

Definition GetByIndex (vals : ValidatorSet) (index : Z) : option (bytes * Validator) :=
  if (index <? 0) || (index >=? len (Validators vals)) then None
  else match zlookup (Validators vals) index with
       | Some v => Some (Address v, v)
       | None => None
       end.

Definition Size (vals : ValidatorSet) : Z := len (Validators vals).

(** [Hash]: the Merkle root of the validators' encodings. *)
Fixpoint validators_bytes (l : list Validator) : go (list bytes) :=
  match l with
  | [] => Val []
  | v :: l' => b ← Validator_Bytes v; bs ← validators_bytes l'; Val (b :: bs)
  end.

Definition ValidatorSet_Hash `{!Sha256} (vals : ValidatorSet) : go bytes :=
  bzs ← validators_bytes (Validators vals);
  HashFromByteSlices bzs.

(** ** Updates *)

Definition ByAddress_Less (a b : Validator) : bool := bytes_ltb (Address a) (Address b).

Definition ByVotingPower_Less (a b : Validator) : bool :=
  if VotingPower a =? VotingPower b then bytes_ltb (Address a) (Address b)
  else VotingPower a >? VotingPower b.

(** The scan of the sorted changes; [prevAddr] is nil before the first. *)
Fixpoint process_changes (prevAddr : bytes) (changes updates removals : list Validator)
    : outcome ValidatorSetError (list Validator * list Validator) :=
  match changes with
  | [] => Val (updates, removals)
  | v :: changes' =>
      _ ← fail_if (bytes_equal (Address v) prevAddr) ErrDuplicateEntry;
      _ ← fail_if (VotingPower v <? 0) ErrVotingPowerNegative;
      _ ← fail_if (VotingPower v >? MaxTotalVotingPower) ErrVotingPowerTooHigh;
      if VotingPower v =? 0 then process_changes (Address v) changes' updates (removals ++ [v])
      else process_changes (Address v) changes' (updates ++ [v]) removals
  end.

Definition processChanges (origChanges : list Validator)
    : outcome ValidatorSetError (list Validator * list Validator) :=
  process_changes [] (sort_by ByAddress_Less origChanges) [] [].

Definition delta (vals : ValidatorSet) (update : Validator) : Z :=
  match GetByAddress vals (Address update) with
  | (_, Some v) => int64 (VotingPower update - VotingPower v)
  | (_, None) => VotingPower update
  end.

Fixpoint add_deltas (vals : ValidatorSet) (tvp : Z) (l : list Validator) : outcome ValidatorSetError Z :=
  match l with
  | [] => Val tvp
  | upd :: l' =>
      let tvp := int64 (tvp + delta vals upd) in
      if tvp >? MaxTotalVotingPower then Fail ErrTotalVotingPowerOverflow
      else add_deltas vals tvp l'
  end.

(** [sort.Slice] leaves the order of equal deltas open; the sums do not depend on it. *)
Definition verifyUpdates (updates : list Validator) (vals : ValidatorSet) (removedPower : Z)
    : outcome ValidatorSetError (Z * ValidatorSet) :=
  let updatesCopy := sort_by (fun a b => delta vals a <? delta vals b) updates in
  '(total, vals) ← lift (TotalVotingPower vals);
  tvp ← add_deltas vals (int64 (total - removedPower)) updatesCopy;
  Val (int64 (tvp + removedPower), vals).

Definition numNewValidators (updates : list Validator) (vals : ValidatorSet) : Z :=
  len (filter (fun v => HasAddress vals (Address v) = false) updates).

Definition computeNewPriorities (updates : list Validator) (vals : ValidatorSet)
    (updatedTotalVotingPower : Z) : list Validator :=
  (fun v =>
    match GetByAddress vals (Address v) with
    | (_, None) =>
        set_Priority v (int64 (- int64 (updatedTotalVotingPower + Z.shiftr updatedTotalVotingPower 3)))
    | (_, Some val) => set_Priority v (ProposerPriority val)
    end) <$> updates.

(** The merge loop of [applyUpdates]. *)
Fixpoint merge_updates (existing : list Validator) : list Validator -> list Validator :=
  fix merge (updates : list Validator) : list Validator :=
    match existing, updates with
    | [], _ => updates
    | _, [] => existing
    | e :: existing', u :: updates' =>
        match bytes_compare (Address e) (Address u) with
        | Lt => e :: merge_updates existing' updates
        | Eq => u :: merge_updates existing' updates'
        | Gt => u :: merge updates'
        end
    end.

Definition applyUpdates (vals : ValidatorSet) (updates : list Validator) : ValidatorSet :=
  with_Validators vals (merge_updates (sort_by ByAddress_Less (Validators vals)) updates).

(** [room] is the number of free cells of [merged]. *)
Fixpoint remove_deletes (room : Z) (existing deletes : list Validator) : go (list Validator) :=
  match deletes with
  | [] => if len existing >? room then Panic "index out of range" else Val existing
  | d :: deletes' =>
      match existing with
      | [] => Panic "index out of range"
      | e :: existing' =>
          if bytes_equal (Address e) (Address d) then remove_deletes room existing' deletes'
          else if room <=? 0 then Panic "index out of range"
          else rest ← remove_deletes (room - 1) existing' deletes; Val (e :: rest)
      end
  end.

Definition applyRemovals (vals : ValidatorSet) (deletes : list Validator) : go ValidatorSet :=
  let room := len (Validators vals) - len deletes in
  _ ← panic_if (room <? 0) "makeslice: len out of range";
  merged ← remove_deletes room (Validators vals) deletes;
  Val (with_Validators vals merged).

Fixpoint removed_power (vals : ValidatorSet) (removed : Z) (deletes : list Validator)
    : outcome ValidatorSetError Z :=
  match deletes with
  | [] => Val removed
  | d :: deletes' =>
      match GetByAddress vals (Address d) with
      | (_, None) => Fail (ErrRemoveNotFound (Address d))
      | (_, Some v) => removed_power vals (int64 (removed + VotingPower v)) deletes'
      end
  end.

Definition verifyRemovals (deletes : list Validator) (vals : ValidatorSet) : outcome ValidatorSetError Z :=
  removed ← removed_power vals 0 deletes;
  _ ← panic_if (len deletes >? len (Validators vals)) "more deletes than validators";
  Val removed.

Definition updateWithChangeSet (vals : ValidatorSet) (changes : list Validator) (allowDeletes : bool)
    : outcome ValidatorSetError ValidatorSet :=
  if len changes =? 0 then Val vals
  else
    '(updates, deletes) ← processChanges changes;
    _ ← fail_if (negb allowDeletes && negb (len deletes =? 0)) ErrDeletesNotAllowed;
    _ ← fail_if ((numNewValidators updates vals =? 0) && (len (Validators vals) =? len deletes)) ErrWouldBeEmpty;
    removedVotingPower ← verifyRemovals deletes vals;
    '(tvpAfterUpdatesBeforeRemovals, vals) ← verifyUpdates updates vals removedVotingPower;
    let updates := computeNewPriorities updates vals tvpAfterUpdatesBeforeRemovals in
    let vals := applyUpdates vals updates in
    vals ← lift (applyRemovals vals deletes);
    vals ← lift (updateTotalVotingPower vals);
    '(total, vals) ← lift (TotalVotingPower vals);
    vals ← lift (RescalePriorities vals (int64 (PriorityWindowSizeFactor * total)));
    vals ← lift (shiftByAvgProposerPriority vals);
    Val (with_Validators vals (sort_by ByVotingPower_Less (Validators vals))).

Definition UpdateWithChangeSet (vals : ValidatorSet) (changes : list Validator)
    : outcome ValidatorSetError ValidatorSet :=
  updateWithChangeSet vals changes true.

Definition NewValidatorSet (valz : list Validator) : go ValidatorSet :=
  match updateWithChangeSet empty_set valz false with
  | Fail _ => Panic "Cannot create validator set"
  | Panic w => Panic w
  | Val vals => if len valz >? 0 then IncrementProposerPriority vals 1 else Val vals
  end.

Definition ValidatorSetFromExistingValidators (valz : list Validator)
    : outcome ValidatorSetError ValidatorSet :=
  _ ← fail_if (len valz =? 0) ErrEmptyValidatorSet;
  _ ← wrap_err (fun e => match e with ErrInvalidValidator _ e => ErrValidator e | e => e end)
        (validate_each 0 valz);
  let vals := mkValidatorSet valz None 0 in
  p ← lift (findPreviousProposer vals);
  vals ← lift (updateTotalVotingPower (mkValidatorSet valz p 0));
  Val (with_Validators vals (sort_by ByVotingPower_Less (Validators vals))).
