(* ===== verification/RoundRobin.v ===== *)
(** * The weighted round robin behind proposer selection

    An abstract account of [incrementProposerPriority] on unbounded integers:
    every validator gains its voting power, the one with the highest priority
    is elected and pays the total.  Priorities of any run stay within bounds
    that depend only on the total power and the number of validators; this is
    the fact behind "prevent clipping in incrementProposerPriority()" in
    types/validator_set.go. *)
From Stdlib Require Import ZArith Lia Sorting.Sorted.
From stdpp Require Import base list.
From S2P Require Import Prelude.

(** ** Harmonic sums, rounded up *)

Definition cdiv (a b : Z) : Z := (a + b - 1) / b.

(** [P/1 + P/2 + ... + P/n], each term rounded up. *)
Fixpoint harmonic (P : Z) (n : nat) : Z :=
  match n with O => 0 | S n' => harmonic P n' + cdiv P (Z.of_nat n) end.

Lemma cdiv_spec a b : 0 < b -> a <= b * cdiv a b.
Proof.
  intros Hb. unfold cdiv. pose proof (Z.div_mod (a + b - 1) b). pose proof (Z.mod_pos_bound (a + b - 1) b). lia.
Qed.

Lemma cdiv_nonneg a b : 0 <= a -> 0 < b -> 0 <= cdiv a b.
Proof. intros. unfold cdiv. apply Z.div_pos; lia. Qed.

Lemma cdiv_mono a a' b : 0 < b -> a <= a' -> cdiv a b <= cdiv a' b.
Proof. intros. unfold cdiv. apply Z.div_le_mono; lia. Qed.

Lemma harmonic_mono_n P n m : 0 <= P -> (n <= m)%nat -> harmonic P n <= harmonic P m.
Proof.
  intros HP. induction 1 as [|m Hm IH]; [done|]. cbn [harmonic].
  pose proof (cdiv_nonneg P (Z.of_nat (S m))). lia.
Qed.

Lemma harmonic_mono_P P Q n : P <= Q -> harmonic P n <= harmonic Q n.
Proof.
  intros HP. induction n as [|n IH]; [done|]. cbn [harmonic].
  pose proof (cdiv_mono P Q (Z.of_nat (S n))). lia.
Qed.

Lemma cdiv_anti a b c : 0 <= a -> 0 < b <= c -> cdiv a c <= cdiv a b.
Proof.
  intros Ha Hb. unfold cdiv. pose proof (cdiv_spec a b ltac:(lia)) as Hs. unfold cdiv in Hs.
  assert ((a + c - 1) / c < (a + b - 1) / b + 1); [|lia]. apply Z.div_lt_upper_bound; [lia|].
  assert (0 <= (a + b - 1) / b) by (apply Z.div_pos; lia). nia.
Qed.
(** [k] more terms are at most [k] times the first of them. *)
Lemma harmonic_chunk P m k : 0 <= P -> harmonic P (m + k) <= harmonic P m + Z.of_nat k * cdiv P (Z.of_nat m + 1).
Proof.
  intros HP. induction k as [|k IH]; [rewrite Nat.add_0_r; lia|]. rewrite Nat.add_succ_r. cbn [harmonic].
  assert (cdiv P (Z.of_nat (S (m + k))) <= cdiv P (Z.of_nat m + 1)); [|lia].
  apply cdiv_anti; lia.
Qed.
(** A bound by [j] chunks of [k] terms each, cheap to evaluate. *)
Fixpoint chunked (P : Z) (m k j : nat) : Z :=
  match j with O => harmonic P m | S j' => chunked P m k j' + Z.of_nat k * cdiv P (Z.of_nat m + Z.of_nat k * Z.of_nat j' + 1) end.
Lemma harmonic_chunked P m k j : 0 <= P -> harmonic P (m + k * j) <= chunked P m k j.
Proof.
  intros HP. induction j as [|j IH]; [rewrite Nat.mul_0_r, Nat.add_0_r; done|]. cbn [chunked].
  replace (m + k * S j)%nat with ((m + k * j) + k)%nat by lia. etrans; [by apply harmonic_chunk|].
  replace (Z.of_nat (m + k * j) + 1) with (Z.of_nat m + Z.of_nat k * Z.of_nat j + 1) by lia. lia.
Qed.

(** ** One election, by index *)

Section game.
Context (n : nat) (v : nat -> Z) (P : Z).
Hypothesis v_nonneg : forall i, 0 <= v i.
Hypothesis v_total : sumZ v (seq 0 n) = P.

(** [i] is elected: it has the highest raised priority. *)
Definition elects (p : nat -> Z) (i : nat) : Prop :=
  (i < n)%nat /\ forall j, (j < n)%nat -> p j + v j <= p i + v i.

Definition elected (p : nat -> Z) (i : nat) (j : nat) : Z :=
  p j + v j - (if decide (j = i) then P else 0).

(** Sets of validators, as duplicate-free lists of indices. *)
Definition group (K : list nat) : Prop := NoDup K /\ forall j, j ∈ K -> (j < n)%nat.

Lemma group_submseteq K : group K -> K ⊆+ seq 0 n.
Proof.
  intros [Hnd Hin]. apply NoDup_submseteq; [done|]. intros j Hj. apply elem_of_seq.
  specialize (Hin j Hj). lia.
Qed.

Lemma group_length K : group K -> (length K <= n)%nat.
Proof.
  intros HK. apply group_submseteq, submseteq_length in HK. by rewrite length_seq in HK.
Qed.

Lemma group_power K : group K -> sumZ v K <= P.
Proof.
  intros HK. apply group_submseteq, submseteq_Permutation in HK as [L HL].
  rewrite <- v_total, HL, sumZ_app.
  assert (0 <= sumZ v L) by (apply sumZ_nonneg, Forall_forall; auto). lia.
Qed.

Lemma sumZ_elected p i K :
  NoDup K ->
  sumZ (elected p i) K = sumZ (fun j => p j + v j) K - (if decide (i ∈ K) then P else 0).
Proof.
  unfold sumZ. induction 1 as [|x K Hx HK IH]; [by rewrite decide_False by apply not_elem_of_nil|].
  cbn [foldr]. rewrite IH. unfold elected. destruct (decide (x = i)) as [->|Hne].
  - rewrite (decide_False (P := i ∈ K)), decide_True by (done || by left). lia.
  - destruct (decide (i ∈ K)).
    + rewrite decide_True by (by right). lia.
    + rewrite decide_False; [lia|]. by intros [?|?]%elem_of_cons.
Qed.

(** The mean priority of a group of [k] is at most [base] plus the tail of
    the harmonic sum beyond [k]. *)
Definition ceiling (base : Z) (k : nat) : Z := base + harmonic P n - harmonic P k.
Definition below (base : Z) (p : nat -> Z) : Prop :=
  forall K, group K -> sumZ p K <= len K * ceiling base (length K).

Lemma below_start base p :
  0 <= P -> (forall j, (j < n)%nat -> p j <= base) -> below base p.
Proof.
  intros HP Hp K HK. pose proof (group_length K HK) as Hlen.
  pose proof (harmonic_mono_n P (length K) n HP Hlen).
  transitivity (sumZ (fun _ => base) K).
  - apply sumZ_le, Forall_forall. intros j Hj. by apply Hp, HK.
  - rewrite sumZ_const. unfold ceiling, len. nia.
Qed.

Lemma below_elected base p i : elects p i -> below base p -> below base (elected p i).
Proof.
  intros [Hi Hmax] Hp K HK. pose proof HK as [Hnd Hin]. rewrite sumZ_elected, sumZ_add by done.
  pose proof (group_power K HK). destruct (decide (i ∈ K)) as [|Hni].
  { specialize (Hp K HK). lia. }
  assert (HK' : group (i :: K)).
  { split; [by constructor|]. intros j [->|Hj]%elem_of_cons; auto. }
  pose proof (Hp _ HK') as Hsum. pose proof (group_power _ HK') as Hpow.
  assert (Hmean : sumZ (fun j => p j + v j) K <= (p i + v i) * len K).
  { rewrite <- sumZ_const. apply sumZ_le, Forall_forall. intros j Hj. by apply Hmax, Hin. }
  rewrite sumZ_add in Hmean. unfold ceiling, len in *.
  cbn [length harmonic sumZ foldr] in *. fold (sumZ p K) (sumZ v K) in *.
  set (k := Z.of_nat (length K)) in *. replace (Z.of_nat (S (length K))) with (k + 1) in * by lia.
  pose proof (cdiv_spec P (k + 1) ltac:(lia)) as Hc. set (c := cdiv P (k + 1)) in *.
  set (b := base + harmonic P n - harmonic P (length K)) in *.
  assert (0 <= k) by lia.
  apply (Z.mul_le_mono_pos_l _ _ (k + 1)); [lia|].
  assert (k * (p i + sumZ p K + (v i + sumZ v K)) <= k * ((k + 1) * (b - c) + P)) by (apply Z.mul_le_mono_nonneg_l; lia).
  assert (k * P <= k * ((k + 1) * c)) by (apply Z.mul_le_mono_nonneg_l; lia).
  lia.
Qed.

(** The elected validator had a positive raised priority when the sum of all
    priorities is not negative. *)
Lemma elected_positive p i : 0 < P -> 0 <= sumZ p (seq 0 n) -> elects p i -> 0 < p i + v i.
Proof.
  intros HP Hs [Hi Hmax]. destruct (Z.lt_ge_cases 0 (p i + v i)) as [|Hle]; [done|].
  assert (sumZ (fun j => p j + v j) (seq 0 n) <= sumZ (fun _ => 0) (seq 0 n)).
  { apply sumZ_le, Forall_forall. intros j Hj%elem_of_seq. specialize (Hmax j). lia. }
  rewrite sumZ_add, sumZ_const in H. lia.
Qed.

Lemma sumZ_elected_all p i : (i < n)%nat -> sumZ (elected p i) (seq 0 n) = sumZ p (seq 0 n).
Proof.
  intros Hi. rewrite sumZ_elected, sumZ_add by apply NoDup_seq.
  rewrite decide_True by (apply elem_of_seq; lia). lia.
Qed.

(** ** Runs *)

(** The priorities before and after electing the listed indices in turn. *)
Inductive run : (nat -> Z) -> list nat -> (nat -> Z) -> Prop :=
  | run_nil p : run p [] p
  | run_cons p i p1 ch p' :
      elects p i -> (forall j, p1 j = elected p i j) -> run p1 ch p' -> run p (i :: ch) p'.

(** How often [j] was elected. *)
Definition count (j : nat) (ch : list nat) : Z := len (filter (.= j) ch).

Lemma run_closed_form p ch p' :
  run p ch p' -> forall j, p' j = p j + len ch * v j - P * count j ch.
Proof.
  induction 1 as [p|p i p1 ch p' Hi Hp1 Hrun IH]; intros j; [unfold count, len; simpl; lia|].
  rewrite IH, Hp1. unfold elected, count, len. rewrite filter_cons. cbn [length].
  destruct (decide (j = i)) as [->|]; [rewrite decide_True by done|rewrite decide_False by congruence];
    cbn [length]; lia.
Qed.

Lemma below_ext base p q : (forall j, p j = q j) -> below base p -> below base q.
Proof.
  intros Heq Hp K HK. rewrite <- (sumZ_ext p q); [by apply Hp|]. apply Forall_forall. auto.
Qed.

(** The invariant of a run: the priorities do not sum to a negative number,
    are at least [lo], and every group is below its ceiling. *)
Definition in_bounds (lo base : Z) (p : nat -> Z) : Prop :=
  0 <= sumZ p (seq 0 n) /\ (forall j, (j < n)%nat -> lo <= p j) /\ below base p.

Lemma elected_in_bounds lo base p i p1 :
  0 < P -> lo <= - P -> in_bounds lo base p -> elects p i -> (forall j, p1 j = elected p i j) ->
  in_bounds lo base p1.
Proof.
  intros HP Hlo (Hs & Hl & Hb) Hi Hp1. split; [|split].
  - rewrite (sumZ_ext p1 (elected p i)) by (apply Forall_forall; auto).
    rewrite sumZ_elected_all; [done|apply Hi].
  - intros j Hj. rewrite Hp1. unfold elected. specialize (Hl j Hj). pose proof (v_nonneg j).
    case_decide as Heq; [|lia]. subst j. pose proof (elected_positive p i HP Hs Hi). lia.
  - eapply below_ext; [intros j; symmetry; apply Hp1|]. by apply below_elected.
Qed.

Lemma run_in_bounds lo base p ch p' :
  0 < P -> lo <= - P -> in_bounds lo base p -> run p ch p' -> in_bounds lo base p'.
Proof. intros HP Hlo Hb Hrun. induction Hrun; eauto using elected_in_bounds. Qed.

Lemma below_single base p j : (j < n)%nat -> below base p -> p j <= base + harmonic P n - P.
Proof.
  intros Hj Hb. assert (HK : group [j]).
  { split; [apply NoDup_singleton|]. by intros ? ->%list_elem_of_singleton. }
  specialize (Hb [j] HK). unfold ceiling, len, sumZ in Hb. cbn [length harmonic foldr] in Hb.
  change (Z.of_nat 1) with 1 in Hb. unfold cdiv in Hb. rewrite Z.div_1_r in Hb. lia.
Qed.
End game.
