(* ===== verification/ProposerProofs.v ===== *)
(** * Proposer selection: the code refines the weighted round robin

    [IncrementProposerPriority] of types/validator_set.go never clips and
    elects proposers as [RoundRobin.run] does, so the number of times a
    validator proposes is proportional to its voting power up to a constant. *)
From Stdlib Require Import ZArith Lia.
From stdpp Require Import base list.
From S2P Require Import Prelude.
From S2P Require Import SafeMath.
From S2P Require Import Validator.
From S2P Require Import RoundRobin.

(** ** The invariant of a validator set *)

Record wf_set (vals : ValidatorSet) : Prop := {
  wf_distinct : NoDup (Address <$> Validators vals);
  wf_power : Forall (fun v => 0 < VotingPower v) (Validators vals);
  wf_total : totalVotingPower vals = sumZ VotingPower (Validators vals);
  wf_max : sumZ VotingPower (Validators vals) <= MaxTotalVotingPower;
  wf_priority : Forall (fun v => -2 * MaxTotalVotingPower <= ProposerPriority v <= 3 * MaxTotalVotingPower)
                  (Validators vals)
}.

Abbreviation total vals := (sumZ VotingPower (Validators vals)).

Lemma MaxTotal_bound : 8 * MaxTotalVotingPower <= MaxInt64 /\ MaxInt64 < 8 * MaxTotalVotingPower + 8.
Proof. done. Qed.

(** Arithmetic against the bounds of [int64] and [MaxTotalVotingPower]. *)
Ltac power_lia := pose proof MaxTotal_bound; int_unfold; lia.

Lemma total_nonneg l : Forall (fun v => 0 < VotingPower v) l -> 0 <= sumZ VotingPower l.
Proof. intros H. apply sumZ_nonneg. eapply Forall_impl; [done|]. simpl. lia. Qed.

Lemma total_pos l : Forall (fun v => 0 < VotingPower v) l -> l <> [] -> 0 < sumZ VotingPower l.
Proof.
  intros H Hl. destruct H as [|v l Hv H]; [done|]. apply total_nonneg in H. unfold sumZ in *. simpl. lia.
Qed.

Lemma sum_voting_power_val l acc :
  Forall (fun v => 0 < VotingPower v) l -> 0 <= acc -> acc + sumZ VotingPower l <= MaxTotalVotingPower ->
  sum_voting_power acc l = Val (acc + sumZ VotingPower l).
Proof.
  intros H. revert acc. induction H as [|v l Hv Hl IH]; intros acc Ha Hs; cbn [sum_voting_power].
  { f_equal. unfold sumZ. simpl. lia. }
  pose proof (total_nonneg l Hl). unfold sumZ in *. cbn [foldr] in *.
  rewrite safeAddClip_exact by power_lia. rewrite Z.gtb_ltb. z_cases.
  rewrite IH by lia. f_equal. lia.
Qed.

Lemma updateTotalVotingPower_val vals :
  Forall (fun v => 0 < VotingPower v) (Validators vals) -> total vals <= MaxTotalVotingPower ->
  updateTotalVotingPower vals = Val (mkValidatorSet (Validators vals) (Proposer vals) (total vals)).
Proof.
  intros Hp Hm. unfold updateTotalVotingPower. by rewrite sum_voting_power_val by (done || lia).
Qed.

Lemma TotalVotingPower_val vals :
  Forall (fun v => 0 < VotingPower v) (Validators vals) -> total vals <= MaxTotalVotingPower ->
  totalVotingPower vals = total vals -> TotalVotingPower vals = Val (total vals, vals).
Proof.
  intros Hp Hm Ht. unfold TotalVotingPower. destruct (Z.eqb_spec (totalVotingPower vals) 0).
  - rewrite updateTotalVotingPower_val by done. go_step. simpl. rewrite <- Ht. by destruct vals.
  - go_step. by rewrite Ht.
Qed.

(** ** The validator with the highest priority *)

(** Higher priority first, then the smaller address. *)
Definition outranks (m w : Validator) : Prop :=
  ProposerPriority w < ProposerPriority m \/
  (ProposerPriority w = ProposerPriority m /\ bytes_ltb (Address m) (Address w) = true).

Lemma outranks_trans a b c : outranks a b -> outranks b c -> outranks a c.
Proof.
  unfold outranks. intros [?|[? ?]] [?|[? ?]]; [left; lia..|].
  right. split; [lia|]. by eapply bytes_ltb_trans.
Qed.

Lemma outranks_le a b : outranks a b -> ProposerPriority b <= ProposerPriority a.
Proof. unfold outranks. lia. Qed.

Lemma CompareProposerPriority_spec {P} (deref : P -> Validator) v other :
  Address (deref v) <> Address (deref other) ->
  exists r, CompareProposerPriority deref (Some v) other = Val r /\
    ((r = v /\ outranks (deref v) (deref other)) \/ (r = other /\ outranks (deref other) (deref v))).
Proof.
  intros Hne. unfold CompareProposerPriority, outranks, bytes_ltb. rewrite Z.gtb_ltb.
  destruct (Z.ltb_spec (ProposerPriority (deref other)) (ProposerPriority (deref v))); [naive_solver|].
  destruct (Z.ltb_spec (ProposerPriority (deref v)) (ProposerPriority (deref other))); [naive_solver|].
  rewrite (bytes_compare_antisym (Address (deref v)) (Address (deref other))).
  destruct (bytes_compare (Address (deref v)) (Address (deref other))) eqn:Hc.
  - by apply bytes_compare_eq in Hc.
  - eexists. split; [done|]. left. split; [done|]. right. split; [lia|done].
  - eexists. split; [done|]. right. split; [done|]. right. split; [lia|done].
Qed.

Abbreviation addr x := (Address (snd x)).

Lemma most_priority_spec (p : nat * Validator) l :
  NoDup ((fun x : nat * Validator => addr x) <$> p :: l) ->
  exists r, most_priority (Some p) l = Val (Some r) /\ r ∈ p :: l /\
    forall x, x ∈ p :: l -> x = r \/ outranks (snd r) (snd x).
Proof.
  revert p. induction l as [|x l IH]; intros p Hnd.
  { exists p. split; [done|]. split; [left|]. intros x ->%list_elem_of_singleton. by left. }
  rewrite !fmap_cons in Hnd. apply NoDup_cons in Hnd as [Hp Hnd]. pose proof Hnd as [Hx Hl]%NoDup_cons.
  destruct (CompareProposerPriority_spec snd p x) as (r & Hr & Hcase).
  { intros Heq. apply Hp. rewrite Heq. left. }
  cbn [most_priority]. rewrite Hr. go_step.
  assert (Hndr : NoDup ((fun x : nat * Validator => addr x) <$> r :: l)).
  { destruct Hcase as [[-> _]|[-> _]]; [|done]. apply NoDup_cons. split; [|done].
    intros Hin. apply Hp. by right. }
  destruct (IH r Hndr) as (m & Hm & Hin & Hmax). exists m. split; [done|].
  assert (Hrm : r = m \/ outranks (snd m) (snd r)) by (apply Hmax; left).
  split.
  - apply elem_of_cons in Hin as [->|Hin]; [|by right; right].
    destruct Hcase as [[-> _]|[-> _]]; [left|right; left].
  - assert (Hpx : forall y, y = p \/ y = x -> y = m \/ outranks (snd m) (snd y)).
    { intros y Hy. destruct Hcase as [[-> Ho]|[-> Ho]], Hrm as [->|Hrm], Hy as [->| ->];
        eauto using outranks_trans. }
    intros y [->|[->|Hy]%elem_of_cons]%elem_of_cons; [auto..|]. apply Hmax. by right.
Qed.

Lemma pointers_addresses l : (fun x => addr x) <$> pointers l = Address <$> l.
Proof.
  unfold pointers. apply list_eq. intros i. rewrite !list_lookup_fmap, list_lookup_imap.
  by destruct (l !! i).
Qed.

Lemma elem_of_pointers l i v : (i, v) ∈ pointers l <-> l !! i = Some v.
Proof.
  unfold pointers. rewrite list_elem_of_lookup. setoid_rewrite list_lookup_imap_Some. naive_solver.
Qed.

Lemma getValWithMostPriority_spec vals :
  Validators vals <> [] -> NoDup (Address <$> Validators vals) ->
  exists i m, getValWithMostPriority vals = Val (Some (i, m)) /\ Validators vals !! i = Some m /\
    forall j w, Validators vals !! j = Some w -> j = i \/ outranks m w.
Proof.
  intros Hne Hnd. unfold getValWithMostPriority. rewrite <- pointers_addresses in Hnd.
  destruct (pointers (Validators vals)) as [|p l] eqn:Hp.
  { destruct (Validators vals); done. }
  destruct (most_priority_spec p l Hnd) as ([i m] & Hm & Hin & Hmax).
  exists i, m. cbn [most_priority CompareProposerPriority]. go_step. split; [done|].
  rewrite <- Hp in Hin, Hmax. split; [by apply elem_of_pointers|].
  intros j w Hj%elem_of_pointers. destruct (Hmax _ Hj) as [[= -> ->]|]; auto.
Qed.

(** ** One election *)

Definition prio_at (l : list Validator) (j : nat) : Z := from_option ProposerPriority 0 (l !! j).
Definition power_at (l : list Validator) (j : nat) : Z := from_option VotingPower 0 (l !! j).

Lemma sumZ_index {A} (f : A -> Z) l :
  sumZ f l = sumZ (fun j => from_option f 0 (l !! j)) (seq 0 (length l)).
Proof.
  induction l as [|x l IH] using rev_ind; [done|].
  rewrite sumZ_app, length_app, seq_app, sumZ_app. simpl. f_equal.
  - rewrite IH. apply sumZ_ext, Forall_forall. intros j Hj%elem_of_seq. rewrite lookup_app_l by lia. done.
  - unfold sumZ. simpl. by rewrite lookup_app_r, Nat.sub_diag by lia.
Qed.

(** Equal but for the priority. *)
Definition same_validator (v w : Validator) : Prop :=
  Address v = Address w /\ PubKey_ v = PubKey_ w /\ VotingPower v = VotingPower w.
Abbreviation same_validators := (Forall2 same_validator).

#[export] Instance same_validator_equiv : Equivalence same_validator.
Proof. unfold same_validator. split; repeat intro; naive_solver congruence. Qed.

Lemma set_Priority_same v p : same_validator v (set_Priority v p).
Proof. done. Qed.

Lemma same_addresses l l' : same_validators l l' -> Address <$> l = Address <$> l'.
Proof. induction 1 as [|v w l l' [? _] _ IH]; [done|]. by rewrite !fmap_cons, IH, H. Qed.

Lemma same_power_at l l' j : same_validators l l' -> power_at l j = power_at l' j.
Proof.
  intros H. unfold power_at.
  destruct (l !! j) as [v|] eqn:Hv.
  - destruct (Forall2_lookup_l _ _ _ _ _ H Hv) as (w & -> & Hw). apply Hw.
  - apply Forall2_length in H. apply lookup_ge_None in Hv.
    by rewrite (proj2 (lookup_ge_None l' j)) by lia.
Qed.

Lemma same_total l l' : same_validators l l' -> sumZ VotingPower l = sumZ VotingPower l'.
Proof. unfold sumZ. induction 1 as [|v w l l' (_ & _ & ?)]; simpl; lia. Qed.

Lemma same_powers l l' (Q : Z -> Prop) :
  same_validators l l' -> Forall (fun v => Q (VotingPower v)) l -> Forall (fun v => Q (VotingPower v)) l'.
Proof.
  induction 1 as [|v w l l' (_ & _ & Hv) _ IH]; intros HQ; inversion_clear HQ; constructor; auto.
  by rewrite <- Hv.
Qed.

Lemma same_set_Priority (f : Validator -> Z) l : same_validators l ((fun v => set_Priority v (f v)) <$> l).
Proof. induction l; constructor; done. Qed.

Lemma same_insert l i v w : l !! i = Some v -> same_validator v w -> same_validators l (<[i := w]> l).
Proof.
  revert i. induction l as [|x l IH]; intros [|i] Hi Hs; simpl in *; simplify_eq; constructor; auto; [|reflexivity].
  clear. induction l; constructor; done.
Qed.

(** What the selection relies on: everything in [wf_set] but the bounds on priorities. *)
Record electable (vals : ValidatorSet) : Prop := {
  el_nonempty : Validators vals <> [];
  el_distinct : NoDup (Address <$> Validators vals);
  el_power : Forall (fun v => 0 < VotingPower v) (Validators vals);
  el_total : totalVotingPower vals = total vals;
  el_max : total vals <= MaxTotalVotingPower
}.

Lemma electable_same vals vals' :
  electable vals -> same_validators (Validators vals) (Validators vals') ->
  totalVotingPower vals' = totalVotingPower vals -> electable vals'.
Proof.
  intros [Hne Hnd Hp Ht Hm] Hs Htot. split.
  - intros H. rewrite H in Hs. by inversion Hs; subst.
  - by rewrite <- (same_addresses _ _ Hs).
  - by apply (same_powers _ _ (fun z => 0 < z) Hs).
  - by rewrite Htot, Ht, (same_total _ _ Hs).
  - by rewrite <- (same_total _ _ Hs).
Qed.

Lemma power_le_total l v :
  Forall (fun v => 0 < VotingPower v) l -> v ∈ l -> 0 < VotingPower v <= sumZ VotingPower l.
Proof.
  intros Hp Hv. split; [rewrite Forall_forall in Hp; by apply Hp|].
  apply sumZ_elem_le; [done|]. eapply Forall_impl; [done|]. simpl. lia.
Qed.

(** Raising the priorities does not clip. *)
Lemma add_voting_power_exact l j :
  Forall (fun v => 0 < VotingPower v) l -> sumZ VotingPower l <= MaxTotalVotingPower ->
  Forall (fun v => MinInt64 <= ProposerPriority v /\ ProposerPriority v + VotingPower v <= MaxInt64) l ->
  prio_at (add_voting_power <$> l) j = prio_at l j + power_at l j.
Proof.
  intros Hp Hm Hb. unfold prio_at, power_at. rewrite list_lookup_fmap.
  destruct (l !! j) as [v|] eqn:Hv; [|done]. simpl. apply list_elem_of_lookup_2 in Hv.
  pose proof (power_le_total l v Hp Hv). rewrite Forall_forall in Hb. specialize (Hb v Hv).
  apply safeAddClip_exact; power_lia.
Qed.

(** The election of one proposer. *)
Lemma incrementProposerPriority_elects vals :
  electable vals ->
  Forall (fun v => MinInt64 + MaxTotalVotingPower <= ProposerPriority v /\
                   ProposerPriority v + VotingPower v <= MaxInt64) (Validators vals) ->
  exists vals' m i,
    incrementProposerPriority vals = Val (vals', m) /\
    same_validators (Validators vals) (Validators vals') /\
    totalVotingPower vals' = totalVotingPower vals /\
    Validators vals' !! i = Some m /\
    elects (length (Validators vals)) (power_at (Validators vals)) (prio_at (Validators vals)) i /\
    forall j, prio_at (Validators vals') j =
      elected (power_at (Validators vals)) (total vals) (prio_at (Validators vals)) i j.
Proof.
  intros [Hne Hnd Hp Ht Hm] Hb. unfold incrementProposerPriority.
  set (l := Validators vals) in *. set (q := add_voting_power <$> l).
  assert (Hsame : same_validators l q) by apply (same_set_Priority _ l).
  assert (Hraise : forall j, prio_at q j = prio_at l j + power_at l j).
  { intros j. apply add_voting_power_exact; [done..|]. eapply Forall_impl; [done|]. simpl. power_lia. }
  destruct (getValWithMostPriority_spec (with_Validators vals q)) as (i & m & Hget & Hi & Hmax).
  { simpl. intros H. apply Hne. by apply fmap_nil_inv in H. }
  { simpl. by rewrite <- (same_addresses _ _ Hsame). }
  rewrite Hget. go_step. simpl in Hi, Hmax. rewrite TotalVotingPower_val.
  2: by apply (same_powers l q (fun z => 0 < z)).
  2: simpl; by rewrite <- (same_total _ _ Hsame).
  2: simpl; by rewrite Ht, (same_total _ _ Hsame).
  go_step. simpl. rewrite <- (same_total _ _ Hsame).
  assert (Hlen : length q = length l) by apply length_fmap.
  assert (Hil : (i < length l)%nat) by (apply lookup_lt_Some in Hi; lia).
  assert (Hmi : ProposerPriority m = prio_at l i + power_at l i) by (rewrite <- Hraise; unfold prio_at; by rewrite Hi).
  assert (Hmb : MinInt64 + sumZ VotingPower l <= ProposerPriority m <= MaxInt64).
  { destruct (lookup_lt_is_Some_2 l i Hil) as [v Hv]. rewrite Hmi. unfold prio_at, power_at. rewrite Hv. simpl.
    apply list_elem_of_lookup_2 in Hv. rewrite Forall_forall in Hb. specialize (Hb v Hv).
    pose proof (power_le_total l v Hp Hv). power_lia. }
  pose proof (total_nonneg l Hp).
  eexists _, _, i. split; [done|]. simpl. repeat split.
  - etransitivity; [exact Hsame|]. by eapply same_insert.
  - by rewrite list_lookup_insert_eq by lia.
  - done.
  - intros j Hj. rewrite <- !Hraise. destruct (lookup_lt_is_Some_2 q j) as [w Hw]; [lia|].
    unfold prio_at. rewrite Hw, Hi. simpl. destruct (Hmax j w Hw) as [->|Ho%outranks_le]; [|done].
    rewrite Hi in Hw. by injection Hw as ->.
  - intros j. unfold elected. rewrite <- Hraise. unfold prio_at. case_decide as Hj.
    + subst j. rewrite list_lookup_insert_eq, Hi by lia. simpl. apply safeSubClip_exact; power_lia.
    + rewrite list_lookup_insert_ne by done. fold l. lia.
Qed.

Lemma elects_ext n v w p i : (forall j, v j = w j) -> elects n v p i -> elects n w p i.
Proof. intros H [Hi Hmax]. split; [done|]. intros j Hj. rewrite <- !H. by apply Hmax. Qed.

(** What a run of elections starts from: priorities centred in a window of
    twice the total power, and room above for the harmonic ceiling. *)
Definition no_clip (P : Z) (n : nat) : Prop := 2 * P + harmonic P n <= MaxInt64.

Section elections.
Context (n : nat) (v : nat -> Z) (P : Z).
Hypothesis v_nonneg : forall j, 0 <= v j.
Hypothesis v_total : sumZ v (seq 0 n) = P.
Hypothesis P_pos : 0 < P.
Hypothesis P_room : no_clip P n.

Abbreviation bounded := (in_bounds n P (-2 * P) (2 * P)).

(** Within the bounds of a run the next election does not clip. *)
Lemma bounded_no_clip vals :
  electable vals -> length (Validators vals) = n -> total vals = P ->
  bounded (prio_at (Validators vals)) ->
  Forall (fun x => MinInt64 + MaxTotalVotingPower <= ProposerPriority x /\
                   ProposerPriority x + VotingPower x <= MaxInt64) (Validators vals).
Proof.
  intros Hel Hlen HP (_ & Hlo & Hbelow). apply Forall_lookup. intros j x Hx.
  assert (Hj : (j < n)%nat) by (apply lookup_lt_Some in Hx; lia).
  pose proof (power_le_total _ x (el_power _ Hel) (list_elem_of_lookup_2 _ _ _ Hx)).
  pose proof (el_max _ Hel).
  specialize (Hlo j Hj). pose proof (below_single n P (2 * P) _ j Hj Hbelow) as Hhi.
  unfold prio_at in Hlo, Hhi. rewrite Hx in Hlo, Hhi. simpl in Hlo, Hhi. unfold no_clip in P_room. power_lia.
Qed.

Lemma increment_times_run k vals p0 :
  electable vals -> length (Validators vals) = n -> total vals = P ->
  (forall j, power_at (Validators vals) j = v j) -> bounded (prio_at (Validators vals)) ->
  exists vals' pr ch,
    increment_times k vals p0 = Val (vals', pr) /\
    same_validators (Validators vals) (Validators vals') /\
    totalVotingPower vals' = totalVotingPower vals /\
    length ch = k /\ run n v P (prio_at (Validators vals)) ch (prio_at (Validators vals')) /\
    (k = O -> pr = p0) /\
    (k <> O -> exists i m, last ch = Some i /\ pr = Some m /\ Validators vals' !! i = Some m) /\
    (forall j i, ch !! j = Some i -> exists vj m, increment_times (S j) vals p0 = Val (vj, Some m) /\ Validators vj !! i = Some m).
Proof.
  revert vals p0. induction k as [|k IH]; intros vals p0 Hel Hlen HP Hv Hb.
  { exists vals, p0, []. repeat split; try done. constructor. }
  destruct (incrementProposerPriority_elects vals Hel) as (vals1 & m & i & Hinc & Hsame & Htot & Hi & Hel1 & Hp1).
  { by apply bounded_no_clip. }
  rewrite HP in Hp1. apply (elects_ext _ _ v) in Hel1; [|done]. rewrite Hlen in Hel1.
  assert (Hp1' : forall j, prio_at (Validators vals1) j = elected v P (prio_at (Validators vals)) i j).
  { intros j. rewrite Hp1. unfold elected. by rewrite Hv. }
  destruct (IH vals1 (Some m)) as (vals' & pr & ch & Hrun & Hsame' & Htot' & Hk & Hr & H0 & HS & Heach).
  - by eapply electable_same.
  - by rewrite <- Hlen, (Forall2_length _ _ _ Hsame).
  - by rewrite <- (same_total _ _ Hsame).
  - intros j. by rewrite <- (same_power_at _ _ j Hsame).
  - eapply elected_in_bounds; eauto; lia.
  - exists vals', pr, (i :: ch). cbn [increment_times]. rewrite Hinc. go_step. split; [done|].
    split; [by etransitivity|]. split; [congruence|]. split; [simpl; congruence|].
    split; [by econstructor|]. split; [done|]. split; [intros _; destruct k as [|k']|].
    + destruct ch; [|done]. inversion Hr; subst. rewrite H0 by done. exists i, m.
      split; [done|]. split; [done|]. injection Hrun as <- _. done.
    + destruct HS as (i' & m' & Hlast & Hpr & Hm'); [done|]. exists i', m'.
      split; [|done]. destruct ch; [done|]. done.
    + intros [|j] i'; cbn [lookup list_lookup]; [intros [= <-]; by exists vals1, m|].
      intros Hj. apply Heach in Hj as (vj & m' & Hrunj & Hm'). exists vj, m'. split; [exact Hrunj|done].
Qed.

(** A run is fair: elections are proportional to voting power up to a constant. *)
Lemma run_fair p ch p' :
  bounded p -> (forall j, (j < n)%nat -> p j <= 2 * P) -> run n v P p ch p' ->
  forall j, (j < n)%nat ->
    -2 * P <= p' j <= P + harmonic P n /\
    -4 * P <= len ch * v j - P * count j ch <= 3 * P + harmonic P n.
Proof.
  intros Hb Hhi Hrun j Hj.
  destruct (run_in_bounds n v P v_nonneg v_total (-2 * P) (2 * P) _ _ _ P_pos ltac:(lia) Hb Hrun)
    as (_ & Hlo & Hbelow).
  specialize (Hlo j Hj). pose proof (below_single n P (2 * P) _ j Hj Hbelow).
  pose proof (run_closed_form _ _ _ _ _ _ Hrun j). pose proof (proj1 (proj2 Hb) j Hj).
  specialize (Hhi j Hj). lia.
Qed.
End elections.

(** ** Rescaling and centring *)

Definition window (D : Z) (l : list Validator) : Prop :=
  forall x y, x ∈ l -> y ∈ l -> ProposerPriority x - ProposerPriority y <= D.

Lemma max_min_priority_spec l mx mn :
  let '(mx', mn') := max_min_priority l mx mn in
  mx <= mx' /\ mn' <= mn /\ Forall (fun v => mn' <= ProposerPriority v <= mx') l /\
  (mx' = mx \/ exists v, v ∈ l /\ mx' = ProposerPriority v) /\
  (mn' = mn \/ exists v, v ∈ l /\ mn' = ProposerPriority v).
Proof.
  revert mx mn. induction l as [|v l IH]; intros mx mn; simpl; [repeat split; auto; lia|].
  specialize (IH (if ProposerPriority v >? mx then ProposerPriority v else mx)
                 (if ProposerPriority v <? mn then ProposerPriority v else mn)).
  rewrite Z.gtb_ltb in *.
  destruct (max_min_priority _ _ _) as [mx' mn']. destruct IH as (Hx & Hn & Hall & Hmx & Hmn).
  destruct (Z.ltb_spec mx (ProposerPriority v)), (Z.ltb_spec (ProposerPriority v) mn);
    (split; [lia|]; split; [lia|]; split; [constructor; [lia|done]|]; split);
    destruct Hmx as [->|(w & Hw & ->)], Hmn as [->|(w' & Hw' & ->)];
    first [left; reflexivity | right; exists v; split; [left|reflexivity] | right; exists w; split; [by right|done] | right; exists w'; split; [by right|done]].
Qed.

(** The difference between the highest and the lowest priority, when it fits. *)
Lemma computeMaxMinPriorityDiff_val vals D :
  Validators vals <> [] -> Forall (fun v => is_int64 (ProposerPriority v)) (Validators vals) ->
  window D (Validators vals) -> D <= MaxInt64 ->
  exists d, computeMaxMinPriorityDiff vals = Val d /\ 0 <= d <= D /\ window d (Validators vals).
Proof.
  intros Hne Hint Hwin HD. unfold computeMaxMinPriorityDiff, is_empty, IsNilOrEmpty.
  destruct (Z.eqb_spec (len (Validators vals)) 0) as [Hl|_].
  { destruct (Validators vals); [done|unfold len in Hl; simpl in Hl; lia]. }
  go_step. pose proof (max_min_priority_spec (Validators vals) MinInt64 MaxInt64) as Hspec.
  destruct (max_min_priority _ _ _) as [mx mn]. destruct Hspec as (_ & _ & Hall & Hmx & Hmn).
  rewrite Forall_forall in Hall, Hint.
  assert (exists x y, x ∈ Validators vals /\ y ∈ Validators vals /\
    mx = ProposerPriority x /\ mn = ProposerPriority y) as (x & y & Hx & Hy & -> & ->).
  { destruct (Validators vals) as [|v0 l]; [done|].
    pose proof (Hall v0 ltac:(left)). pose proof (Hint v0 ltac:(left)).
    destruct Hmx as [->|(x & Hx & ->)], Hmn as [->|(y & Hy & ->)].
    - exists v0, v0. repeat split; try left; int_lia.
    - exists v0, y. repeat split; try done; try left; int_lia.
    - exists x, v0. repeat split; try done; try left; int_lia.
    - by exists x, y. }
  pose proof (Hwin x y Hx Hy). pose proof (Hall x Hx). rewrite int64_id by int_lia.
  destruct (Z.ltb_spec (ProposerPriority x - ProposerPriority y) 0); [lia|].
  eexists. split; [done|]. split; [lia|]. intros a b Ha Hb.
  pose proof (Hall a Ha). pose proof (Hall b Hb). lia.
Qed.

Lemma quot_window a b r D : 0 < r -> 0 <= D -> a - b <= r * D -> Z.quot a r - Z.quot b r <= D.
Proof.
  intros Hr HD Hab.
  assert (Hpos : forall x y, 0 <= y -> x <= y + r * D -> Z.quot x r <= Z.quot y r + D).
  { intros x y Hy Hx. rewrite (Z.quot_div_nonneg y r), <- Z.div_add by lia.
    transitivity (Z.quot (y + D * r) r); [apply Z.quot_le_mono; lia|].
    rewrite Z.quot_div_nonneg; nia. }
  destruct (Z.le_gt_cases 0 b); [specialize (Hpos a b); lia|].
  destruct (Z.le_gt_cases a 0).
  - specialize (Hpos (- b) (- a)). rewrite !Z.quot_opp_l in Hpos by lia. lia.
  - replace b with (- (- b)) by lia. rewrite Z.quot_opp_l, !Z.quot_div_nonneg by lia.
    pose proof (Z.div_mod a r). pose proof (Z.mod_pos_bound a r).
    pose proof (Z.div_mod (- b) r). pose proof (Z.mod_pos_bound (- b) r). nia.
Qed.

Lemma quot_between lo hi a r : 0 < r -> lo <= 0 <= hi -> lo <= a <= hi -> lo <= Z.quot a r <= hi.
Proof.
  intros Hr H0 Ha. destruct (Z.le_gt_cases 0 a).
  - rewrite Z.quot_div_nonneg by lia. pose proof (Z.div_pos a r). pose proof (Z.div_le_upper_bound a r a). nia.
  - replace a with (- (- a)) in * by lia. rewrite Z.quot_opp_l, Z.quot_div_nonneg by lia.
    pose proof (Z.div_pos (- a) r). pose proof (Z.div_le_upper_bound (- a) r (- a)). nia.
Qed.

Lemma nonempty_is_empty vals : Validators vals <> [] -> is_empty vals = false.
Proof.
  intros H. unfold is_empty, IsNilOrEmpty, len. apply Z.eqb_neq. by destruct (Validators vals).
Qed.

(** [RescalePriorities] brings the priorities into a window of width [D]. *)
Lemma RescalePriorities_window vals D W lo hi :
  Validators vals <> [] -> 0 < D -> W + D <= MaxInt64 -> window W (Validators vals) ->
  MinInt64 <= lo <= 0 -> 0 <= hi <= MaxInt64 ->
  Forall (fun v => lo <= ProposerPriority v <= hi) (Validators vals) ->
  exists vals', RescalePriorities vals D = Val vals' /\
    same_validators (Validators vals) (Validators vals') /\
    totalVotingPower vals' = totalVotingPower vals /\ Proposer vals' = Proposer vals /\
    window D (Validators vals') /\
    Forall (fun v => lo <= ProposerPriority v <= hi) (Validators vals').
Proof.
  intros Hne HD HW Hwin Hlo Hhi Hb. unfold RescalePriorities. rewrite nonempty_is_empty by done.
  go_step. destruct (Z.leb_spec D 0); [lia|].
  destruct (computeMaxMinPriorityDiff_val vals W) as (d & Hd & Hdb & Hdw); [done| |done|lia|].
  { eapply Forall_impl; [done|]. simpl. int_lia. }
  rewrite Hd. go_step. rewrite Z.gtb_ltb. destruct (Z.ltb_spec D d) as [HDd|HDd].
  2: { exists vals. repeat split; try done. intros x y Hx Hy. specialize (Hdw x y Hx Hy). lia. }
  rewrite (int64_id (d + D)), (int64_id (d + D - 1)), Z.quot_div_nonneg by int_lia.
  change ((d + D - 1) / D) with (cdiv d D). pose proof (cdiv_spec d D HD) as Hr.
  assert (1 < cdiv d D) by nia. destruct (Z.eqb_spec (cdiv d D) 0); [lia|]. go_step.
  assert (Hq : forall v, v ∈ Validators vals ->
    int64 (Z.quot (ProposerPriority v) (cdiv d D)) = Z.quot (ProposerPriority v) (cdiv d D) /\
    lo <= Z.quot (ProposerPriority v) (cdiv d D) <= hi).
  { intros v Hv. rewrite Forall_forall in Hb. specialize (Hb v Hv).
    pose proof (quot_between lo hi (ProposerPriority v) (cdiv d D)). split; [apply int64_id; int_lia|lia]. }
  eexists. split; [done|]. simpl. repeat split.
  - apply (same_set_Priority (fun v => int64 (Z.quot (ProposerPriority v) (cdiv d D)))).
  - intros x y (v & -> & Hv)%list_elem_of_fmap (w & -> & Hw)%list_elem_of_fmap. simpl.
    rewrite (proj1 (Hq v Hv)), (proj1 (Hq w Hw)). apply quot_window; [lia..|]. specialize (Hdw v w Hv Hw). lia.
  - apply Forall_fmap, Forall_forall. intros v Hv. simpl. rewrite (proj1 (Hq v Hv)). by apply Hq.
Qed.

Lemma sumZ_sub {A} (f : A -> Z) c l : sumZ (fun x => f x - c) l = sumZ f l - c * len l.
Proof. unfold sumZ, len. induction l; simpl length; [simpl; lia|]. simpl foldr. lia. Qed.

(** [shiftByAvgProposerPriority] centres the priorities: their sum lies
    between zero and the number of validators. *)
Lemma shiftByAvgProposerPriority_centres vals D lo hi :
  Validators vals <> [] -> 0 <= D <= MaxInt64 -> window D (Validators vals) ->
  MinInt64 <= lo -> hi <= MaxInt64 ->
  Forall (fun v => lo <= ProposerPriority v <= hi) (Validators vals) ->
  exists vals', shiftByAvgProposerPriority vals = Val vals' /\
    same_validators (Validators vals) (Validators vals') /\
    totalVotingPower vals' = totalVotingPower vals /\ Proposer vals' = Proposer vals /\
    window D (Validators vals') /\
    Forall (fun v => - D <= ProposerPriority v <= D) (Validators vals') /\
    0 <= sumZ ProposerPriority (Validators vals') < len (Validators vals').
Proof.
  intros Hne HD Hwin Hlo Hhi Hb. unfold shiftByAvgProposerPriority, computeAvgProposerPriority.
  rewrite nonempty_is_empty by done. go_step. set (l := Validators vals) in *.
  assert (Hn : 0 < len l) by (unfold len; destruct l; [done|simpl; lia]).
  destruct (Z.eqb_spec (len l) 0); [lia|]. go_step. set (S := sumZ ProposerPriority l).
  pose proof (Z.div_mod S (len l) ltac:(lia)) as Hdm. pose proof (Z.mod_pos_bound S (len l) Hn).
  set (avg := S / len l) in *.
  assert (Hmean : forall a b, Forall (fun v => a <= ProposerPriority v <= b) l -> a <= avg <= b).
  { intros a b Hab. assert (a * len l <= S).
    { unfold S. rewrite <- sumZ_const. apply sumZ_le. eapply Forall_impl; [done|]. simpl. lia. }
    assert (S <= b * len l).
    { unfold S. rewrite <- sumZ_const. apply sumZ_le. eapply Forall_impl; [done|]. simpl. lia. }
    nia. }
  pose proof (Hmean lo hi Hb). rewrite bool_decide_true by int_lia. go_step.
  assert (Hsub : forall v, v ∈ l -> safeSubClip (ProposerPriority v) avg = ProposerPriority v - avg /\
    - D <= ProposerPriority v - avg <= D).
  { intros v Hv. assert (ProposerPriority v - D <= avg <= ProposerPriority v + D).
    { apply Hmean, Forall_forall. intros w Hw. pose proof (Hwin v w Hv Hw). pose proof (Hwin w v Hw Hv). lia. }
    rewrite Forall_forall in Hb. specialize (Hb v Hv). split; [apply safeSubClip_exact; int_lia|lia]. }
  eexists. split; [done|]. simpl. repeat split.
  - apply (same_set_Priority (fun v => safeSubClip (ProposerPriority v) avg)).
  - intros x y (v & -> & Hv)%list_elem_of_fmap (w & -> & Hw)%list_elem_of_fmap. simpl.
    rewrite (proj1 (Hsub v Hv)), (proj1 (Hsub w Hw)). specialize (Hwin v w Hv Hw). lia.
  - apply Forall_fmap, Forall_forall. intros v Hv. simpl. rewrite (proj1 (Hsub v Hv)). by apply Hsub.
  - rewrite sumZ_map, (sumZ_ext _ (fun v => ProposerPriority v - avg)), sumZ_sub; [fold S; lia|].
    apply Forall_forall. intros v Hv. by apply Hsub.
  - rewrite sumZ_map, (sumZ_ext _ (fun v => ProposerPriority v - avg)), sumZ_sub.
    + fold S. unfold len. rewrite length_fmap. fold (len l). lia.
    + apply Forall_forall. intros v Hv. by apply Hsub.
Qed.

(** Rescaling to twice the total power and centring, as both callers do. *)
Lemma rescale_and_centre vals W lo hi :
  electable vals -> W + 2 * total vals <= MaxInt64 -> window W (Validators vals) ->
  MinInt64 <= lo <= 0 -> 0 <= hi <= MaxInt64 ->
  Forall (fun v => lo <= ProposerPriority v <= hi) (Validators vals) ->
  exists vals1 vals2,
    RescalePriorities vals (int64 (PriorityWindowSizeFactor * total vals)) = Val vals1 /\
    shiftByAvgProposerPriority vals1 = Val vals2 /\
    electable vals2 /\ same_validators (Validators vals) (Validators vals2) /\
    totalVotingPower vals2 = totalVotingPower vals /\ Proposer vals2 = Proposer vals /\
    window (2 * total vals) (Validators vals2) /\
    Forall (fun v => -2 * total vals <= ProposerPriority v <= 2 * total vals) (Validators vals2) /\
    0 <= sumZ ProposerPriority (Validators vals2) < len (Validators vals2).
Proof.
  intros Hel HW Hwin Hlo Hhi Hb. pose proof Hel as [Hne Hnd Hp Ht Hm].
  pose proof (total_pos _ Hp Hne). unfold PriorityWindowSizeFactor. rewrite int64_id by power_lia.
  destruct (RescalePriorities_window vals (2 * total vals) W lo hi)
    as (vals1 & Hr & Hs1 & Ht1 & Hp1 & Hw1 & Hb1); [done|lia|lia|done|lia|lia|done|].
  assert (Hel1 : electable vals1) by (by eapply electable_same).
  destruct (shiftByAvgProposerPriority_centres vals1 (2 * total vals) lo hi)
    as (vals2 & Hsh & Hs2 & Ht2 & Hp2 & Hw2 & Hb2 & Hsum2);
    [apply Hel1|power_lia|done|lia|lia|done|].
  exists vals1, vals2. split; [done|]. split; [done|]. split; [by eapply electable_same; eauto|].
  split; [by etransitivity|]. split; [congruence|]. split; [congruence|]. split; [done|].
  split; [|done]. eapply Forall_impl; [done|]. simpl. lia.
Qed.

Lemma wf_electable vals : wf_set vals -> Validators vals <> [] -> electable vals.
Proof. intros [] ?. by split. Qed.

Lemma window_of_bounds l lo hi :
  Forall (fun v => lo <= ProposerPriority v <= hi) l -> window (hi - lo) l.
Proof.
  rewrite Forall_forall. intros Hb x y Hx Hy. pose proof (Hb x Hx). pose proof (Hb y Hy). lia.
Qed.

Lemma centred_in_bounds P l :
  0 <= P -> 0 <= sumZ ProposerPriority l ->
  Forall (fun v => -2 * P <= ProposerPriority v <= 2 * P) l ->
  in_bounds (length l) P (-2 * P) (2 * P) (prio_at l).
Proof.
  intros HP Hs Hb. split; [by rewrite sumZ_index in Hs|].
  assert (Hj : forall j, (j < length l)%nat -> -2 * P <= prio_at l j <= 2 * P).
  { intros j Hj. destruct (lookup_lt_is_Some_2 l j Hj) as [v Hv]. unfold prio_at. rewrite Hv. simpl.
    rewrite Forall_lookup in Hb. by apply (Hb j). }
  split; [intros j Hlt; specialize (Hj j Hlt); lia|]. apply below_start; [done|]. intros j Hlt. by apply Hj.
Qed.

Lemma power_at_nonneg l : Forall (fun v => 0 < VotingPower v) l -> forall j, 0 <= power_at l j.
Proof.
  intros Hp j. unfold power_at. destruct (l !! j) eqn:Hv; [|done]. simpl.
  rewrite Forall_lookup in Hp. specialize (Hp j _ Hv). simpl in Hp. lia.
Qed.

Lemma prio_at_le P l j :
  Forall (fun v => -2 * P <= ProposerPriority v <= 2 * P) l -> 0 <= P -> prio_at l j <= 2 * P.
Proof.
  intros Hb HP. unfold prio_at. destruct (l !! j) eqn:Hx; [|simpl; lia].
  rewrite Forall_lookup in Hb. by apply (Hb j).
Qed.

(** What a call of [IncrementProposerPriority] computes: [l0] are the rescaled
    and centred priorities, [ch] the indices elected in turn. *)
Lemma IncrementProposerPriority_run vals times :
  wf_set vals -> Validators vals <> [] -> 0 < times ->
  let l := Validators vals in let P := total vals in let n := length l in
  no_clip P n ->
  exists vals' l0 ch,
    IncrementProposerPriority vals times = Val vals' /\
    same_validators l (Validators vals') /\ totalVotingPower vals' = P /\
    Forall (fun v => -2 * P <= ProposerPriority v <= 2 * P) l0 /\ same_validators l l0 /\
    run n (power_at l) P (prio_at l0) ch (prio_at (Validators vals')) /\ len ch = times /\
    (exists i, last ch = Some i /\ Proposer vals' = Validators vals' !! i) /\
    (forall k, 0 < k <= times -> exists vk i m, IncrementProposerPriority vals k = Val vk /\
       ch !! Z.to_nat (k - 1) = Some i /\ Validators vk !! i = Some m /\ Proposer vk = Some m) /\
    (forall j, (j < n)%nat ->
       -2 * P <= prio_at (Validators vals') j <= P + harmonic P n /\
       -4 * P <= times * power_at l j - P * count j ch <= 3 * P + harmonic P n).
Proof.
  intros Hwf Hne Ht l P n Hroom. pose proof (wf_electable _ Hwf Hne) as Hel.
  pose proof Hel as [_ _ Hp Htot Hm]. pose proof (total_pos _ Hp Hne) as HP.
  unfold IncrementProposerPriority. rewrite nonempty_is_empty by done. destruct (Z.leb_spec times 0); [lia|].
  go_step. rewrite TotalVotingPower_val by done. go_step.
  destruct (rescale_and_centre vals (5 * MaxTotalVotingPower) (-2 * MaxTotalVotingPower) (3 * MaxTotalVotingPower))
    as (vals1 & vals2 & Hr & Hsh & Hel2 & Hs2 & Ht2 & _ & _ & Hb2 & Hsum2);
    [done|power_lia| |power_lia|power_lia|apply Hwf|].
  { replace (5 * MaxTotalVotingPower) with (3 * MaxTotalVotingPower - -2 * MaxTotalVotingPower) by lia.
    apply window_of_bounds, Hwf. }
  rewrite Hr. go_step. rewrite Hsh. go_step.
  assert (Hlen : length (Validators vals2) = n) by (symmetry; apply (Forall2_length _ _ _ Hs2)).
  assert (Hv : sumZ (power_at l) (seq 0 n) = P) by (symmetry; apply sumZ_index).
  assert (Hin : in_bounds n P (-2 * P) (2 * P) (prio_at (Validators vals2))).
  { rewrite <- Hlen. apply centred_in_bounds; [lia|lia|done]. }
  destruct (increment_times_run n (power_at l) P (power_at_nonneg l Hp) Hv HP Hroom (Z.to_nat times) vals2 None)
    as (vals' & pr & ch & Hrun & Hs' & Ht' & Hk & Hruns & _ & Hlast & Heach);
    [done|done|by rewrite <- (same_total _ _ Hs2)|intros j; symmetry; by apply same_power_at|done|].
  rewrite Hrun. go_step. destruct Hlast as (i & m & Hi & Hpr & Hm'); [lia|].
  assert (Hch : len ch = times) by (unfold len; lia).
  exists (mkValidatorSet (Validators vals') pr (totalVotingPower vals')), (Validators vals2), ch. simpl.
  split; [done|]. split; [by etransitivity|]. split; [unfold P; congruence|]. split; [done|]. split; [done|].
  split; [done|]. split; [done|]. split; [exists i; split; congruence|]. split.
  { intros k Hkt. destruct (lookup_lt_is_Some_2 ch (Z.to_nat (k - 1))) as [ik Hik]; [lia|]. destruct (Heach _ _ Hik) as (vk & mk & Hrk & Hmk).
    replace (S (Z.to_nat (k - 1))) with (Z.to_nat k) in Hrk by lia. destruct (Z.leb_spec k 0); [lia|]. go_step.
    rewrite Hrk. go_step. by eexists _, ik, mk. }
  rewrite <- Hch. eapply run_fair; eauto using power_at_nonneg. intros j Hj. apply prio_at_le; [done|lia].
Qed.

Lemma no_clip_mono P Q n m : 0 <= P <= Q -> (n <= m)%nat -> no_clip Q m -> no_clip P n.
Proof.
  unfold no_clip. intros HP Hn Hq. pose proof (harmonic_mono_n P n m ltac:(lia) Hn).
  pose proof (harmonic_mono_P P Q m ltac:(lia)). lia.
Qed.


(** Sizes for which no run clips: any legal total power with up to 200
    validators, and a twelfth of the int64 range with up to [MaxVotesCount]. *)
Definition fits (vals : ValidatorSet) : Prop :=
  len (Validators vals) <= 200 \/ (len (Validators vals) <= 10000 /\ total vals <= MaxInt64 / 12).

Lemma fits_no_clip vals :
  0 <= total vals <= MaxTotalVotingPower -> fits vals -> no_clip (total vals) (length (Validators vals)).
Proof.
  unfold fits, len. intros HP [Hn|[Hn HP']].
  - apply (no_clip_mono _ MaxTotalVotingPower _ (Z.to_nat 200)); [lia|lia|]. by vm_compute.
  - apply (no_clip_mono _ (MaxInt64 / 12) _ (Z.to_nat 300 + Z.to_nat 100 * Z.to_nat 97)); [lia|lia|].
    unfold no_clip. assert (Hpos : 0 <= MaxInt64 / 12) by (vm_compute; discriminate).
    pose proof (harmonic_chunked _ (Z.to_nat 300) (Z.to_nat 100) (Z.to_nat 97) Hpos).
    assert (2 * (MaxInt64 / 12) + chunked (MaxInt64 / 12) (Z.to_nat 300) (Z.to_nat 100) (Z.to_nat 97) <= MaxInt64)
      by (vm_compute; discriminate).
    lia.
Qed.

(** C31: proposer selection is fair.  For a well-formed, non-empty set whose size fits (up to 200
    validators, or up to 10000 with a total power of at most a twelfth of the int64 range),
    over any number of rounds there is a list of elections, one per round, in which the k-th is
    the proposer recorded after k rounds; the number of times a validator is elected in it differs
    from its share [times * power / total] by a constant that depends on the total power and
    the number of validators only, and the recorded proposer is the one elected last. *)
Theorem proposer_selection_fair vals times :
  wf_set vals -> Validators vals <> [] -> 0 < times -> fits vals ->
  let l := Validators vals in let P := total vals in let n := length l in
  exists vals' ch,
    IncrementProposerPriority vals times = Val vals' /\ len ch = times /\
    same_validators l (Validators vals') /\
    (forall k, 0 < k <= times -> exists vk i m, IncrementProposerPriority vals k = Val vk /\
       ch !! Z.to_nat (k - 1) = Some i /\ Validators vk !! i = Some m /\ Proposer vk = Some m) /\
    (exists i, last ch = Some i /\ Proposer vals' = Validators vals' !! i) /\
    (forall j, (j < n)%nat ->
       -4 * P <= times * power_at l j - P * count j ch <= 3 * P + harmonic P n).
Proof.
  intros Hwf Hne Ht Hfits l P n. pose proof (wf_electable _ Hwf Hne) as Hel.
  destruct (IncrementProposerPriority_run vals times Hwf Hne Ht) as (vals' & l0 & ch & Hi & Hs & _ & _ & _ & _ & Hch & Hl & Hk & Hj).
  { apply fits_no_clip; [|done]. pose proof (total_pos _ (el_power _ Hel) Hne). pose proof (el_max _ Hel). lia. }
  exists vals', ch. repeat split; try done; apply Hj; done.
Qed.

(** No clipping in [incrementProposerPriority].  For sets within the
    size limits, [IncrementProposerPriority] behaves for any number of rounds as the
    unbounded weighted round robin: the saturating additions and subtractions are
    exact, priorities follow the closed form of a run and keep a distance of the
    total power from the ends of the int64 range. *)
Theorem proposer_never_clips vals times :
  wf_set vals -> Validators vals <> [] -> 0 < times -> fits vals ->
  let l := Validators vals in let P := total vals in let n := length l in
  exists vals' l0 ch,
    IncrementProposerPriority vals times = Val vals' /\
    Forall (fun v => -2 * P <= ProposerPriority v <= 2 * P) l0 /\ same_validators l l0 /\
    run n (power_at l) P (prio_at l0) ch (prio_at (Validators vals')) /\
    (forall j, (j < n)%nat ->
       prio_at (Validators vals') j = prio_at l0 j + times * power_at l j - P * count j ch /\
       MinInt64 + P <= prio_at (Validators vals') j <= MaxInt64 - P).
Proof.
  intros Hwf Hne Ht Hfits l P n. pose proof (wf_electable _ Hwf Hne) as Hel.
  pose proof (total_pos _ (el_power _ Hel) Hne). pose proof (el_max _ Hel).
  assert (Hroom : no_clip P n) by (apply fits_no_clip; [lia|done]).
  destruct (IncrementProposerPriority_run vals times Hwf Hne Ht Hroom)
    as (vals' & l0 & ch & Hi & Hs & _ & Hb & Hs0 & Hrun & Hch & _ & _ & Hj).
  exists vals', l0, ch. do 4 (split; [done|]). intros j Hlt. destruct (Hj j Hlt) as [Hbj _]. split.
  - rewrite <- Hch. apply (run_closed_form _ _ _ _ _ _ Hrun).
  - unfold no_clip in Hroom. unfold n, l, P in *. power_lia.
Qed.

(** ** Rotations of any number of rounds

    Whatever the priorities do, also where an addition is clipped, the validators stay. *)

Lemma incrementProposerPriority_same vals : electable vals ->
  exists vals' m, incrementProposerPriority vals = Val (vals', m) /\ same_validators (Validators vals) (Validators vals') /\
    totalVotingPower vals' = totalVotingPower vals /\ m ∈ Validators vals'.
Proof.
  intros [Hne Hnd Hp Ht Hm]. unfold incrementProposerPriority. set (l := Validators vals) in *. set (q := add_voting_power <$> l).
  assert (Hsame : same_validators l q) by apply (same_set_Priority _ l).
  destruct (getValWithMostPriority_spec (with_Validators vals q)) as (i & m & Hget & Hi & _).
  { simpl. intros Hq. apply Hne. by apply fmap_nil_inv in Hq. }
  { simpl. by rewrite <- (same_addresses _ _ Hsame). }
  rewrite Hget. go_step. simpl in Hi. rewrite TotalVotingPower_val.
  2: by apply (same_powers l q (fun z => 0 < z)).
  2: simpl; by rewrite <- (same_total _ _ Hsame).
  2: simpl; by rewrite Ht, (same_total _ _ Hsame).
  go_step. eexists _, _. split; [done|]. simpl. split_and!; [|done|].
  - etransitivity; [exact Hsame|]. by eapply same_insert.
  - apply list_elem_of_lookup_2 with i. apply list_lookup_insert_eq. by apply lookup_lt_Some in Hi.
Qed.

Lemma increment_times_same k : forall vals p0, electable vals -> (k = O -> exists p, p0 = Some p /\ p ∈ Validators vals) ->
  exists vals' p, increment_times k vals p0 = Val (vals', Some p) /\ same_validators (Validators vals) (Validators vals') /\
    totalVotingPower vals' = totalVotingPower vals /\ p ∈ Validators vals'.
Proof.
  induction k as [|k IH]; intros vals p0 Hel H0; cbn [increment_times].
  { destruct H0 as (p & -> & Hp); [done|]. by exists vals, p. }
  destruct (incrementProposerPriority_same vals Hel) as (v1 & m & Hinc & Hs & Ht & Hm). rewrite Hinc. go_step.
  destruct (IH v1 (Some m)) as (v2 & p & Hrun & Hs2 & Ht2 & Hp); [by eapply electable_same|intros ->; by exists m|].
  exists v2, p. split_and!; [done|by etransitivity|congruence|done].
Qed.

Lemma IncrementProposerPriority_same vals times : wf_set vals -> Validators vals <> [] -> 0 < times ->
  exists vals' p, IncrementProposerPriority vals times = Val vals' /\ same_validators (Validators vals) (Validators vals') /\
    totalVotingPower vals' = totalVotingPower vals /\ Proposer vals' = Some p /\ p ∈ Validators vals'.
Proof.
  intros Hwf Hne Ht. pose proof (wf_electable _ Hwf Hne) as Hel. pose proof Hel as [_ _ Hp Htot Hm].
  unfold IncrementProposerPriority. rewrite nonempty_is_empty by done. destruct (Z.leb_spec times 0); [lia|].
  go_step. rewrite TotalVotingPower_val by done. go_step.
  destruct (rescale_and_centre vals (5 * MaxTotalVotingPower) (-2 * MaxTotalVotingPower) (3 * MaxTotalVotingPower))
    as (vals1 & vals2 & Hr & Hsh & Hel2 & Hs2 & Ht2 & _); [done|power_lia| |power_lia|power_lia|apply Hwf|].
  { replace (5 * MaxTotalVotingPower) with (3 * MaxTotalVotingPower - -2 * MaxTotalVotingPower) by lia. apply window_of_bounds, Hwf. }
  rewrite Hr. go_step. rewrite Hsh. go_step.
  destruct (increment_times_same (Z.to_nat times) vals2 None Hel2) as (v' & p & Hrun & Hs & Ht' & Hin); [lia|]. rewrite Hrun. go_step.
  eexists _, p. split; [done|]. simpl. split_and!; [by etransitivity|congruence|done|done].
Qed.

(** ** The invariant is kept *)

Lemma wf_of_electable vals :
  electable vals ->
  Forall (fun v => -2 * MaxTotalVotingPower <= ProposerPriority v <= 3 * MaxTotalVotingPower) (Validators vals) ->
  wf_set vals.
Proof. intros []. by split. Qed.

(** One election from centred priorities stays within [-2P, 3P]. *)
Lemma elected_once_bounds l i j :
  let P := sumZ VotingPower l in
  Forall (fun v => 0 < VotingPower v) l -> 0 < P -> 0 <= sumZ ProposerPriority l ->
  Forall (fun v => -2 * P <= ProposerPriority v <= 2 * P) l ->
  elects (length l) (power_at l) (prio_at l) i -> (j < length l)%nat ->
  -2 * P <= elected (power_at l) P (prio_at l) i j <= 3 * P.
Proof.
  intros P Hp HP Hs Hb Hi Hj. destruct (lookup_lt_is_Some_2 l j Hj) as [v Hv].
  pose proof (list_elem_of_lookup_2 _ _ _ Hv) as Hin. pose proof (power_le_total l v Hp Hin) as Hvp.
  rewrite Forall_forall in Hb. specialize (Hb v Hin). fold P in Hvp.
  rewrite sumZ_index in Hs.
  pose proof (elected_positive (length l) (power_at l) P ltac:(symmetry; apply sumZ_index) (prio_at l) i HP Hs Hi) as Hpos.
  unfold elected. case_decide as Hij; [subst j|]; unfold prio_at, power_at in *; rewrite Hv in *; simpl in *; lia.
Qed.

Lemma IncrementProposerPriority_once vals :
  wf_set vals -> Validators vals <> [] ->
  exists vals' i m, IncrementProposerPriority vals 1 = Val vals' /\ wf_set vals' /\
    same_validators (Validators vals) (Validators vals') /\
    Validators vals' !! i = Some m /\ Proposer vals' = Some m.
Proof.
  intros Hwf Hne. pose proof (wf_electable _ Hwf Hne) as Hel. pose proof Hel as [_ _ Hp Htot Hm].
  pose proof (total_pos _ Hp Hne) as HP. unfold IncrementProposerPriority.
  rewrite nonempty_is_empty by done. go_step. rewrite TotalVotingPower_val by done. go_step.
  destruct (rescale_and_centre vals (5 * MaxTotalVotingPower) (-2 * MaxTotalVotingPower) (3 * MaxTotalVotingPower))
    as (vals1 & vals2 & Hr & Hsh & Hel2 & Hs2 & Ht2 & _ & _ & Hb2 & Hsum2);
    [done|power_lia| |power_lia|power_lia|apply Hwf|].
  { replace (5 * MaxTotalVotingPower) with (3 * MaxTotalVotingPower - -2 * MaxTotalVotingPower) by lia.
    apply window_of_bounds, Hwf. }
  rewrite Hr. go_step. rewrite Hsh. go_step. rewrite (same_total _ _ Hs2) in *.
  destruct (incrementProposerPriority_elects vals2 Hel2) as (vals3 & m & i & Hinc & Hs3 & Ht3 & Hi & Hel3 & Hp3).
  { apply Forall_forall. intros v Hv. pose proof (power_le_total _ v (el_power _ Hel2) Hv).
    rewrite Forall_forall in Hb2. specialize (Hb2 v Hv). power_lia. }
  change (Z.to_nat 1) with 1%nat. cbn [increment_times]. rewrite Hinc. go_step.
  exists (mkValidatorSet (Validators vals3) (Some m) (totalVotingPower vals3)), i, m. simpl.
  split; [done|]. split; [|split; [by etransitivity|done]].
  apply wf_of_electable; [by eapply (electable_same vals2)|]. apply Forall_lookup. simpl. intros j v Hv.
  assert (Hpj : prio_at (Validators vals3) j = ProposerPriority v) by (unfold prio_at; by rewrite Hv).
  apply lookup_lt_Some in Hv. rewrite <- (Forall2_length _ _ _ Hs3) in Hv.
  pose proof (elected_once_bounds _ i j (el_power _ Hel2) HP ltac:(lia) Hb2 Hel3 Hv). rewrite <- Hpj, Hp3. lia.
Qed.
