(* ===== verification/ValidatorUpdateProofs.v ===== *)
(** * Validator set updates refine an update of a map from addresses to powers

    [updateWithChangeSet] of types/validator_set.go: a set of changes is
    either applied as a whole, with exactly the effect of updating the map of
    voting powers, or rejected with an error; it never panics, and it keeps the
    invariant [wf_set]. *)
From Stdlib Require Import ZArith Lia Sorting.Sorted.
From stdpp Require Import base list gmap sorting.
From S2P Require Import Prelude.
From S2P Require Import SafeMath.
From S2P Require Import Validator.
From S2P Require Import ProposerProofs.

(** ** The abstract state *)

Definition powers (l : list Validator) : gmap bytes Z :=
  list_to_map ((fun v => (Address v, VotingPower v)) <$> l).

Definition apply_change (v : Validator) (m : gmap bytes Z) : gmap bytes Z :=
  if VotingPower v =? 0 then delete (Address v) m else <[Address v := VotingPower v]> m.
Definition apply_changes (m : gmap bytes Z) (changes : list Validator) : gmap bytes Z :=
  foldr apply_change m changes.

Definition map_total (m : gmap bytes Z) : Z := sumZ snd (map_to_list m).

Abbreviation distinct l := (NoDup (Address <$> l)).

Lemma powers_lookup l a p :
  distinct l -> powers l !! a = Some p <-> exists v, v ∈ l /\ Address v = a /\ VotingPower v = p.
Proof.
  intros Hnd. unfold powers. rewrite <- elem_of_list_to_map.
  - rewrite list_elem_of_fmap. naive_solver.
  - by rewrite <- list_fmap_compose.
Qed.

Lemma powers_lookup_None l a : powers l !! a = None <-> a ∉ Address <$> l.
Proof. unfold powers. rewrite <- not_elem_of_list_to_map. by rewrite <- list_fmap_compose. Qed.

Lemma map_total_powers l : distinct l -> map_total (powers l) = sumZ VotingPower l.
Proof.
  intros Hnd. unfold map_total, powers. rewrite map_to_list_to_map.
  - by rewrite sumZ_map.
  - by rewrite <- list_fmap_compose.
Qed.

Lemma apply_changes_ne m l a : a ∉ Address <$> l -> apply_changes m l !! a = m !! a.
Proof.
  induction l as [|v l IH]; intros Ha; [done|]. rewrite fmap_cons, not_elem_of_cons in Ha.
  destruct Ha as [Hv Ha]. simpl. unfold apply_change.
  destruct (VotingPower v =? 0); [rewrite lookup_delete_ne|rewrite lookup_insert_ne]; auto.
Qed.

Lemma apply_changes_elem m l v :
  distinct l -> v ∈ l ->
  apply_changes m l !! Address v = if VotingPower v =? 0 then None else Some (VotingPower v).
Proof.
  induction l as [|w l IH]; intros Hnd Hv; [by apply not_elem_of_nil in Hv|].
  rewrite fmap_cons in Hnd. apply NoDup_cons in Hnd as [Hw Hnd].
  apply elem_of_cons in Hv as [->|Hv]; simpl; unfold apply_change.
  - destruct (VotingPower w =? 0); [apply lookup_delete_eq|apply lookup_insert_eq].
  - assert (Address w <> Address v) by (intros Heq; apply Hw; rewrite Heq; by apply list_elem_of_fmap_2).
    destruct (VotingPower w =? 0); [rewrite lookup_delete_ne|rewrite lookup_insert_ne]; auto.
Qed.

(** ** Lookup by address *)

Lemma get_by_address_snd l a idx v :
  distinct l -> (get_by_address idx l a).2 = Some v <-> v ∈ l /\ Address v = a.
Proof.
  revert idx. induction l as [|w l IH]; intros idx Hnd; simpl.
  { split; [done|]. intros [H _]. by apply not_elem_of_nil in H. }
  rewrite fmap_cons in Hnd. apply NoDup_cons in Hnd as [Hw Hnd].
  destruct (bytes_equal_spec (Address w) a) as [<-|Hne]; simpl.
  - split; [intros [= <-]; split; [left|done]|]. intros [[->|Hv]%elem_of_cons Ha]; [done|].
    exfalso. apply Hw. rewrite <- Ha. by apply list_elem_of_fmap_2.
  - rewrite (IH (idx + 1) Hnd), elem_of_cons. naive_solver.
Qed.

Lemma get_by_address_None l a idx : (get_by_address idx l a).2 = None <-> a ∉ Address <$> l.
Proof.
  revert idx. induction l as [|w l IH]; intros idx; cbn [get_by_address]; [split; [intros _; apply not_elem_of_nil|done]|].
  rewrite fmap_cons, not_elem_of_cons. destruct (bytes_equal_spec (Address w) a) as [<-|Hne]; simpl.
  - naive_solver.
  - rewrite (IH (idx + 1)). naive_solver.
Qed.

(** The current power of an address, zero when it is not in the set. *)
Definition old_power (l : list Validator) (a : bytes) : Z :=
  match (get_by_address 0 l a).2 with Some v => VotingPower v | None => 0 end.

Lemma delta_old_power vals u :
  delta vals u = match (get_by_address 0 (Validators vals) (Address u)).2 with
                 | Some v => int64 (VotingPower u - VotingPower v)
                 | None => VotingPower u end.
Proof. unfold delta, GetByAddress. by destruct (get_by_address _ _ _) as [? [?|]]. Qed.

Lemma HasAddress_spec vals a : HasAddress vals a = true <-> a ∈ Address <$> Validators vals.
Proof.
  unfold HasAddress. rewrite existsb_exists, list_elem_of_fmap. split.
  - intros (v & Hv%list_elem_of_In & Ha). destruct (bytes_equal_spec (Address v) a); [by exists v|done].
  - intros (v & -> & Hv). exists v. split; [by apply list_elem_of_In|apply bytes_equal_refl].
Qed.

(** ** Strictly sorted by address *)

Definition addr_lt (a b : Validator) : Prop := bytes_ltb (Address a) (Address b) = true.
Abbreviation ssorted := (StronglySorted addr_lt).

Lemma ByAddress_trans a b c :
  sort_le ByAddress_Less a b -> sort_le ByAddress_Less b c -> sort_le ByAddress_Less a c.
Proof.
  unfold sort_le, ByAddress_Less. intros H1 H2.
  destruct (bytes_ltb (Address c) (Address a)) eqn:H; [|done].
  destruct (bytes_ltb (Address a) (Address b)) eqn:Hab.
  - by rewrite (bytes_ltb_trans _ _ _ H Hab) in H2.
  - pose proof (bytes_ltb_total _ _ Hab H1) as Heq. rewrite Heq in H. congruence.
Qed.

Lemma sort_ByAddress_sorted l : StronglySorted (sort_le ByAddress_Less) (sort_by ByAddress_Less l).
Proof.
  apply sort_by_sorted; [|exact ByAddress_trans]. intros a b. apply bytes_ltb_asym.
Qed.

Lemma ssorted_of_sorted l : StronglySorted (sort_le ByAddress_Less) l -> distinct l -> ssorted l.
Proof.
  induction 1 as [|v l Hl IH Hv]; intros Hnd; [constructor|].
  rewrite fmap_cons in Hnd. apply NoDup_cons in Hnd as [Hni Hnd]. constructor; [auto|].
  rewrite Forall_forall in *. intros w Hw. specialize (Hv w Hw). unfold sort_le, ByAddress_Less, addr_lt in *.
  destruct (bytes_ltb (Address v) (Address w)) eqn:Hlt; [done|].
  exfalso. apply Hni. rewrite (bytes_ltb_total _ _ Hlt Hv). by apply list_elem_of_fmap_2.
Qed.

Lemma addr_lt_ne a b : addr_lt a b -> Address a <> Address b.
Proof. unfold addr_lt. intros H Heq. rewrite Heq, bytes_ltb_irrefl in H. done. Qed.

Lemma ssorted_distinct l : ssorted l -> distinct l.
Proof.
  induction 1 as [|v l Hl IH Hv]; [constructor|]. rewrite fmap_cons. apply NoDup_cons. split; [|done].
  intros (w & Heq & Hw)%list_elem_of_fmap. rewrite Forall_forall in Hv. by apply (addr_lt_ne v w); auto.
Qed.

Lemma distinct_NoDup l : distinct l -> NoDup l.
Proof. apply NoDup_fmap_1. Qed.

Lemma distinct_filter (Q : Validator -> Prop) `{!forall x, Decision (Q x)} l :
  distinct l -> distinct (filter Q l).
Proof.
  induction l as [|v l IH]; intros Hnd; [done|]. rewrite fmap_cons in Hnd. apply NoDup_cons in Hnd as [Hv Hnd].
  rewrite filter_cons. case_decide; [|auto]. rewrite fmap_cons. apply NoDup_cons. split; [|auto].
  intros (w & Heq & [_ Hw]%list_elem_of_filter)%list_elem_of_fmap. apply Hv. rewrite Heq. by apply list_elem_of_fmap_2.
Qed.

#[export] Instance distinct_perm : Proper (Permutation ==> iff) (fun l : list Validator => distinct l).
Proof. intros l l' H. by rewrite H. Qed.

Lemma ssorted_filter (Q : Validator -> Prop) `{!forall x, Decision (Q x)} l : ssorted l -> ssorted (filter Q l).
Proof. apply StronglySorted_filter_sub. Qed.

(** ** Splitting the changes *)

Definition is_update (v : Validator) : Prop := VotingPower v <> 0.
Definition is_removal (v : Validator) : Prop := VotingPower v = 0.
#[export] Instance is_update_dec v : Decision (is_update v).
Proof. unfold is_update. apply _. Defined.
#[export] Instance is_removal_dec v : Decision (is_removal v).
Proof. unfold is_removal. apply _. Defined.

(** Changes that pass the scan after an entry with address [prev]. *)
Definition scan_ok (prev : bytes) (l : list Validator) : Prop :=
  Forall (fun v => Address v <> prev) l /\ distinct l /\
  Forall (fun v => 0 <= VotingPower v <= MaxTotalVotingPower) l.

Lemma process_changes_ok prev l u r :
  scan_ok prev l ->
  process_changes prev l u r = Val (u ++ filter is_update l, r ++ filter is_removal l).
Proof.
  revert prev u r. induction l as [|v l IH]; intros prev u r (Hprev & Hnd & Hp); [by rewrite !app_nil_r|].
  apply Forall_cons in Hprev as [Hv Hprev]. apply Forall_cons in Hp as [Hvp Hp].
  rewrite fmap_cons in Hnd. apply NoDup_cons in Hnd as [Hni Hnd].
  cbn [process_changes]. destruct (bytes_equal_spec (Address v) prev); [done|].
  rewrite Z.gtb_ltb. destruct (Z.ltb_spec (VotingPower v) 0); [lia|].
  destruct (Z.ltb_spec MaxTotalVotingPower (VotingPower v)); [lia|]. go_step.
  assert (Hok : scan_ok (Address v) l).
  { split; [|done]. apply Forall_forall. intros w Hw Heq. apply Hni. rewrite <- Heq. by apply list_elem_of_fmap_2. }
  destruct (Z.eqb_spec (VotingPower v) 0); rewrite IH by done; rewrite !filter_cons; unfold is_update, is_removal.
  - rewrite decide_False, decide_True by naive_solver. by rewrite <- app_assoc.
  - rewrite decide_True, decide_False by naive_solver. by rewrite <- app_assoc.
Qed.

Lemma process_changes_bad prev l u r :
  StronglySorted (sort_le ByAddress_Less) l -> Forall (fun v => bytes_ltb (Address v) prev = false) l ->
  ~ scan_ok prev l -> exists e, process_changes prev l u r = Fail e.
Proof.
  intros Hs. revert prev u r. induction Hs as [|v l Hl IH Hv]; intros prev u r Hge Hbad.
  { exfalso. apply Hbad. split; [done|]. split; [constructor|done]. }
  apply Forall_cons in Hge as [Hgv Hge]. cbn [process_changes].
  destruct (bytes_equal_spec (Address v) prev) as [|Hne]; [by eexists|].
  destruct (Z.ltb_spec (VotingPower v) 0); [by eexists|]. rewrite Z.gtb_ltb.
  destruct (Z.ltb_spec MaxTotalVotingPower (VotingPower v)); [by eexists|]. go_step.
  assert (Hbad' : ~ scan_ok (Address v) l).
  { intros (Hp & Hnd & Hpow). apply Hbad. split; [|split].
    - constructor; [done|]. apply Forall_forall. intros w Hw Heq. subst prev.
      rewrite Forall_forall in Hv. specialize (Hv w Hw). unfold sort_le, ByAddress_Less in Hv.
      apply Hne. symmetry. by apply bytes_ltb_total.
    - rewrite fmap_cons. apply NoDup_cons. split; [|done]. intros (w & Heq & Hw)%list_elem_of_fmap.
      rewrite Forall_forall in Hp. by apply (Hp w).
    - by constructor. }
  destruct (VotingPower v =? 0); by apply IH.
Qed.

Lemma processChanges_ok l :
  scan_ok [] l -> exists s, s ≡ₚ l /\ ssorted s /\ processChanges l = Val (filter is_update s, filter is_removal s).
Proof.
  intros (Hprev & Hnd & Hp). exists (sort_by ByAddress_Less l). pose proof (sort_by_perm ByAddress_Less l) as Hperm.
  split; [done|]. split.
  - apply ssorted_of_sorted; [apply sort_ByAddress_sorted|]. by rewrite Hperm.
  - unfold processChanges. rewrite process_changes_ok; [done|]. unfold scan_ok. by rewrite !Hperm.
Qed.

Lemma bytes_ltb_nil a : bytes_ltb a [] = false.
Proof. unfold bytes_ltb. by destruct a. Qed.

Lemma processChanges_bad l : ~ scan_ok [] l -> exists e, processChanges l = Fail e.
Proof.
  intros Hbad. apply process_changes_bad; [apply sort_ByAddress_sorted| |].
  - apply Forall_forall. intros v _. apply bytes_ltb_nil.
  - unfold scan_ok in *. by rewrite !(sort_by_perm ByAddress_Less l).
Qed.

(** ** Merging updates and dropping removals *)

Abbreviation addresses l := (Address <$> l).

Lemma merge_updates_nil_r l : merge_updates l [] = l.
Proof. by destruct l. Qed.

Lemma merge_updates_cons e l u us :
  merge_updates (e :: l) (u :: us) =
    match bytes_compare (Address e) (Address u) with
    | Lt => e :: merge_updates l (u :: us)
    | Eq => u :: merge_updates l us
    | Gt => u :: merge_updates (e :: l) us
    end.
Proof. done. Qed.

Lemma addr_lt_not_elem a l : Forall (addr_lt a) l -> Address a ∉ addresses l.
Proof.
  rewrite Forall_forall. intros H (w & Heq & Hw)%list_elem_of_fmap. by apply (addr_lt_ne a w); auto.
Qed.

Lemma merge_updates_elem l us x :
  ssorted l -> ssorted us ->
  x ∈ merge_updates l us <-> x ∈ us \/ (x ∈ l /\ Address x ∉ addresses us).
Proof.
  intros Hl. revert us. induction Hl as [|e l Hl IHl He]; intros us Hus.
  { destruct us; split; auto; intros [?|[? _]]; auto; by apply not_elem_of_nil in H. }
  induction Hus as [|u us Hus IHu Hu].
  { rewrite merge_updates_nil_r. split; [|intros [?|[? _]]; [by apply not_elem_of_nil in H|done]].
    intros Hx. right. split; [done|apply not_elem_of_nil]. }
  assert (HuS : ssorted (u :: us)) by (by constructor). rewrite merge_updates_cons, fmap_cons.
  pose proof (bytes_compare_antisym (Address e) (Address u)) as Hanti.
  destruct (bytes_compare (Address e) (Address u)) eqn:Hc.
  - apply bytes_compare_eq in Hc. rewrite elem_of_cons, (IHl us Hus), !elem_of_cons.
    rewrite <- Hc. split; [|naive_solver].
    intros [->|[?|[Hx Hn]]]; [auto..|]. right. split; [auto|]. intros [Heq|?]; [|done].
    rewrite Forall_forall in He. by apply (addr_lt_ne e x); auto.
  - assert (Heu : Forall (addr_lt e) (u :: us)).
    { assert (Hlt : addr_lt e u) by (unfold addr_lt, bytes_ltb; by rewrite Hc). constructor; [done|].
      eapply Forall_impl; [done|]. intros w. by apply bytes_ltb_trans. }
    rewrite elem_of_cons, (IHl (u :: us) HuS), !elem_of_cons. apply addr_lt_not_elem in Heu.
    rewrite fmap_cons, elem_of_cons in Heu. rewrite fmap_cons, elem_of_cons.
    split; [intros [->|[?|[? ?]]]|intros [?|[[->|?] ?]]]; auto.
  - assert (Hue : addr_lt u e) by (unfold addr_lt, bytes_ltb; by rewrite Hanti).
    rewrite elem_of_cons, IHu, !elem_of_cons. split; [|naive_solver].
    intros [->|[?|[Hx Hn]]]; [auto..|]. right. split; [auto|]. intros [Heq|?]; [|done]. destruct Hx as [->|Hx]; [by apply (addr_lt_ne u e)|].
    rewrite Forall_forall in He. apply (addr_lt_ne u x); [|done].
    by apply (bytes_ltb_trans _ (Address e)); [|apply He].
Qed.

Lemma merge_updates_sorted l us : ssorted l -> ssorted us -> ssorted (merge_updates l us).
Proof.
  intros Hl. revert us. induction Hl as [|e l Hl IHl He]; intros us Hus; [by destruct us|].
  induction Hus as [|u us Hus IHu Hu]; [rewrite merge_updates_nil_r; by constructor|].
  assert (HuS : ssorted (u :: us)) by (by constructor). assert (HeS : ssorted (e :: l)) by (by constructor).
  rewrite merge_updates_cons. pose proof (bytes_compare_antisym (Address e) (Address u)) as Hanti.
  destruct (bytes_compare (Address e) (Address u)) eqn:Hc; constructor; auto; apply Forall_forall;
    intros x Hx; (apply merge_updates_elem in Hx; [|done..]); rewrite Forall_forall in He, Hu.
  - apply bytes_compare_eq in Hc. destruct Hx as [Hx|[Hx _]]; [auto|].
    unfold addr_lt. rewrite <- Hc. by apply He.
  - assert (Hlt : addr_lt e u) by (unfold addr_lt, bytes_ltb; by rewrite Hc).
    destruct Hx as [[->|Hx]%elem_of_cons|[Hx _]]; [done| |by apply He].
    by eapply bytes_ltb_trans; [|apply Hu].
  - assert (Hlt : addr_lt u e) by (unfold addr_lt, bytes_ltb; by rewrite Hanti).
    destruct Hx as [Hx|[[->|Hx]%elem_of_cons _]]; [by apply Hu|done|].
    by eapply bytes_ltb_trans; [|apply He].
Qed.

Lemma distinct_subset_length l l' :
  distinct l -> (forall a, a ∈ addresses l -> a ∈ addresses l') -> len l <= len l'.
Proof.
  intros Hnd Hsub. unfold len. rewrite <- (length_fmap Address l), <- (length_fmap Address l').
  apply Nat2Z.inj_le, submseteq_length, NoDup_submseteq; auto.
Qed.

(** The first entry differs from the first to delete: it stays. *)
Lemma deletes_in_tail e l d ds :
  Forall (addr_lt e) l -> Forall (addr_lt d) ds -> Address e <> Address d ->
  (forall a, a ∈ addresses (d :: ds) -> a ∈ addresses (e :: l)) ->
  forall a, a ∈ addresses (d :: ds) -> a ∈ addresses l.
Proof.
  intros He Hd Hne Hsub a Ha.
  assert (Hdl : Address d ∈ addresses l).
  { assert (H : Address d ∈ addresses (e :: l)) by (apply Hsub; left).
    apply elem_of_cons in H as [H|H]; [by symmetry in H|done]. }
  pose proof (Hsub a Ha) as H. apply elem_of_cons in H as [->|H]; [|done].
  apply elem_of_cons in Ha as [Ha|Ha]; [done|].
  apply list_elem_of_fmap in Ha as (w & Hw & Hwin). apply list_elem_of_fmap in Hdl as (y & Hy & Hyin).
  rewrite Forall_forall in He, Hd. pose proof (He y Hyin) as Hey. pose proof (Hd w Hwin) as Hdw.
  unfold addr_lt in *. rewrite <- Hy in Hey. rewrite <- Hw in Hdw.
  by rewrite (bytes_ltb_asym _ _ Hey) in Hdw.
Qed.

Lemma remove_deletes_val l ds room :
  ssorted l -> ssorted ds -> (forall a, a ∈ addresses ds -> a ∈ addresses l) ->
  len l - len ds <= room ->
  remove_deletes room l ds = Val (filter (fun v => Address v ∉ addresses ds) l).
Proof.
  intros Hl. revert ds room. induction Hl as [|e l Hl IH He]; intros ds room Hds Hsub Hroom.
  - destruct ds as [|d ds].
    2: { exfalso. apply (not_elem_of_nil (Address d)), Hsub. left. }
    cbn [remove_deletes]. rewrite Z.gtb_ltb. unfold len in *. cbn [length] in *.
    destruct (Z.ltb_spec room (Z.of_nat 0)); [lia|done].
  - destruct Hds as [|d ds Hds Hd].
    + cbn [remove_deletes]. unfold len in *. simpl length in *. rewrite Z.gtb_ltb.
      destruct (Z.ltb_spec room (Z.of_nat (S (length l)))); [lia|]. f_equal. symmetry.
      apply filter_all. intros v _. apply not_elem_of_nil.
    + cbn [remove_deletes]. pose proof (addr_lt_not_elem _ _ He) as Hel.
      pose proof (addr_lt_not_elem _ _ Hd) as Hdd. rewrite filter_cons, fmap_cons.
      destruct (bytes_equal_spec (Address e) (Address d)) as [Heq|Hne].
      * rewrite decide_False by (rewrite Heq; intros Hn; apply Hn; left). rewrite IH; [|done| |].
        -- f_equal. apply filter_ext_elem. intros v Hv. rewrite not_elem_of_cons.
           split; [|naive_solver]. intros Hn. split; [|done]. intros Hvd. apply Hel.
           rewrite Heq, <- Hvd. by apply list_elem_of_fmap_2.
        -- intros a Ha. assert (Hin : a ∈ addresses (e :: l)) by (apply Hsub; by right).
           apply elem_of_cons in Hin as [->|Hin]; [by rewrite Heq in Ha|done].
        -- unfold len in *. simpl in Hroom. lia.
      * pose proof (deletes_in_tail e l d ds He Hd Hne Hsub) as Hsub'.
        rewrite decide_True.
        2: { intros Hin. apply Hel. by apply Hsub'. }
        assert (Hdds : ssorted (d :: ds)) by (by constructor).
        pose proof (distinct_subset_length (d :: ds) l (ssorted_distinct _ Hdds) Hsub').
        unfold len in *. simpl length in *. destruct (Z.leb_spec room 0); [lia|].
        rewrite IH; [done|by constructor|done|simpl length; lia].
Qed.

(** ** Sums of voting power *)

Lemma sumZ_filter_split {A} (f : A -> Z) (Q : A -> Prop) `{!forall x, Decision (Q x)} l :
  sumZ f l = sumZ f (filter Q l) + sumZ f (filter (fun x => ~ Q x) l).
Proof.
  unfold sumZ. induction l as [|x l IH]; [done|]. rewrite !filter_cons. simpl.
  destruct (decide (Q x)), (decide (~ Q x)); simpl; try lia; by (exfalso; auto).
Qed.

(** The current powers of the addresses in [ds] sum to the power of the
    validators at those addresses. *)
Lemma sumZ_old_power l ds :
  distinct l -> distinct ds ->
  sumZ (fun d => old_power l (Address d)) ds = sumZ VotingPower (filter (fun v => Address v ∈ addresses ds) l).
Proof.
  intros Hl. induction ds as [|d ds IH]; intros Hnd.
  { rewrite filter_none; [done|]. intros v _. apply not_elem_of_nil. }
  rewrite fmap_cons in Hnd. apply NoDup_cons in Hnd as [Hd Hnd]. unfold sumZ at 1. cbn [foldr].
  fold (sumZ (fun d => old_power l (Address d)) ds). rewrite IH by done.
  symmetry. rewrite (sumZ_filter_split _ (fun v => Address v = Address d) (filter _ l)).
  rewrite !list_filter_filter.
  f_equal; [|f_equal; apply filter_ext_elem].
  2: { intros v Hv. rewrite fmap_cons, elem_of_cons. split; [naive_solver|]. intros H. split; [|auto].
       intros Heq. by rewrite Heq in H. }
  unfold old_power. destruct (get_by_address 0 l (Address d)).2 as [v|] eqn:Hg.
  - apply get_by_address_snd in Hg as [Hv Ha]; [|done].
    rewrite (sumZ_perm _ _ [v]); [unfold sumZ; simpl; lia|].
    { apply NoDup_Permutation; [apply NoDup_filter, distinct_NoDup; done|apply NoDup_singleton|].
      intros x. rewrite list_elem_of_filter, list_elem_of_singleton, fmap_cons, elem_of_cons.
      split; [|naive_solver]. intros ((Hx & _) & Hxl).
      assert (Hx' : (get_by_address 0 l (Address d)).2 = Some x) by (by apply get_by_address_snd).
      assert (Hv' : (get_by_address 0 l (Address d)).2 = Some v) by (by apply get_by_address_snd). congruence. }
  - apply get_by_address_None in Hg.
    rewrite filter_none; [done|]. intros x Hx [Heq _]. apply Hg. rewrite <- Heq. by apply list_elem_of_fmap_2.
Qed.

(** ** The checks before an update *)

Section checks.
Context (vals : ValidatorSet).
Hypothesis Hwf : wf_set vals.
Abbreviation l := (Validators vals).

Definition change (u : Validator) : Z := VotingPower u - old_power l (Address u).

Lemma old_power_bounds a : 0 <= old_power l a <= MaxTotalVotingPower.
Proof.
  unfold old_power. destruct (get_by_address 0 l a).2 as [v|] eqn:Hg; [|by compute].
  apply get_by_address_snd in Hg as [Hv _]; [|apply Hwf].
  pose proof (power_le_total _ v (wf_power _ Hwf) Hv). pose proof (wf_max _ Hwf). lia.
Qed.

Lemma delta_exact u : 0 <= VotingPower u <= MaxTotalVotingPower -> delta vals u = change u.
Proof.
  intros Hu. pose proof (old_power_bounds (Address u)) as Hold. rewrite delta_old_power. unfold change, old_power in *.
  destruct (get_by_address 0 l (Address u)).2; [apply int64_id; power_lia|lia].
Qed.

Lemma removed_power_ok ds acc :
  (forall d, d ∈ ds -> Address d ∈ addresses l) -> 0 <= acc ->
  acc + sumZ (fun d => old_power l (Address d)) ds <= MaxInt64 ->
  removed_power vals acc ds = Val (acc + sumZ (fun d => old_power l (Address d)) ds).
Proof.
  revert acc. induction ds as [|d ds IH]; intros acc Hin Ha Hs; [unfold sumZ; simpl; f_equal; lia|].
  assert (0 <= sumZ (fun d => old_power l (Address d)) ds).
  { apply sumZ_nonneg, Forall_forall. intros x _. apply old_power_bounds. }
  pose proof (old_power_bounds (Address d)) as Hold.
  unfold sumZ in *. cbn [removed_power foldr] in *. unfold GetByAddress.
  destruct (get_by_address 0 l (Address d)) as [i [v|]] eqn:Hg.
  - assert (Hv : old_power l (Address d) = VotingPower v) by (unfold old_power; by rewrite Hg).
    rewrite int64_id by int_lia. rewrite IH by (lia || (intros x Hx; apply Hin; by right)). f_equal. lia.
  - exfalso. apply (proj1 (get_by_address_None l (Address d) 0)); [by rewrite Hg|]. apply Hin. left.
Qed.

Lemma removed_power_missing ds acc d :
  d ∈ ds -> Address d ∉ addresses l -> exists e, removed_power vals acc ds = Fail e.
Proof.
  revert acc. induction ds as [|x ds IH]; intros acc Hd Hni; [by apply not_elem_of_nil in Hd|].
  cbn [removed_power]. unfold GetByAddress.
  destruct (get_by_address 0 l (Address x)) as [i [v|]] eqn:Hg; [|by eexists].
  apply elem_of_cons in Hd as [->|Hd]; [|by apply IH].
  apply (proj2 (get_by_address_None l (Address x) 0)) in Hni. by rewrite Hg in Hni.
Qed.

(** The running check over the sorted changes decides whether their sum fits. *)
Lemma add_deltas_sum us t :
  Forall (fun u => 0 <= VotingPower u <= MaxTotalVotingPower) us ->
  StronglySorted (fun a b => change a <= change b) us ->
  t <= MaxTotalVotingPower -> 0 <= t + sumZ (fun u => Z.min 0 (change u)) us ->
  (t + sumZ change us <= MaxTotalVotingPower -> add_deltas vals t us = Val (t + sumZ change us)) /\
  (MaxTotalVotingPower < t + sumZ change us -> add_deltas vals t us = Fail ErrTotalVotingPowerOverflow).
Proof.
  intros Hp Hs. revert t. induction Hs as [|u us Hs IH Hu]; intros t Ht Hneg.
  { unfold sumZ. cbn. rewrite Z.add_0_r. split; [done|lia]. }
  apply Forall_cons in Hp as [Hup Hp]. cbn [add_deltas]. rewrite delta_exact by done.
  assert (Hmin : sumZ (fun u => Z.min 0 (change u)) us <= 0).
  { transitivity (sumZ (fun _ => 0) us); [apply sumZ_le, Forall_forall; lia|]. rewrite sumZ_const. lia. }
  pose proof (old_power_bounds (Address u)).
  assert (change u <= MaxTotalVotingPower) by (unfold change; lia).
  unfold sumZ in Hneg |- *. cbn [foldr] in *. fold (sumZ change us) (sumZ (fun u => Z.min 0 (change u)) us) in *.
  rewrite int64_id by power_lia. rewrite Z.gtb_ltb.
  destruct (Z.ltb_spec MaxTotalVotingPower (t + change u)).
  - assert (0 <= sumZ change us).
    { apply sumZ_nonneg. eapply Forall_impl; [exact Hu|]. simpl. lia. }
    split; [lia|done].
  - rewrite Z.add_assoc. apply IH; [done|lia|lia].
Qed.

Definition by_delta (a b : Validator) : bool := delta vals a <? delta vals b.

Lemma sort_by_delta us :
  Forall (fun u => 0 <= VotingPower u <= MaxTotalVotingPower) us ->
  StronglySorted (fun a b => change a <= change b) (sort_by by_delta us).
Proof.
  intros Hp. assert (Hs : StronglySorted (sort_le by_delta) (sort_by by_delta us)).
  { apply sort_by_sorted; unfold sort_le, by_delta.
    - intros a b. rewrite Z.ltb_lt, Z.ltb_ge. lia.
    - intros a b c. rewrite !Z.ltb_ge. lia. }
  assert (Hin : Forall (fun u => 0 <= VotingPower u <= MaxTotalVotingPower) (sort_by by_delta us))
    by (by rewrite sort_by_perm).
  induction Hs as [|u s Hs IH Hu]; [constructor|]. apply Forall_cons in Hin as [Hup Hin].
  constructor; [auto|]. rewrite Forall_forall in *. intros w Hw. specialize (Hu w Hw).
  unfold sort_le, by_delta in Hu. apply Z.ltb_ge in Hu. rewrite !delta_exact in Hu by auto. done.
Qed.
End checks.

(** ** The effect of a legal set of changes *)

Section effect.
Context (vals : ValidatorSet) (s : list Validator).
Hypothesis Hwf : wf_set vals.
Hypothesis Hsorted : ssorted s.
Hypothesis Hpower : Forall (fun v => 0 <= VotingPower v <= MaxTotalVotingPower) s.
Abbreviation l := (Validators vals).
Abbreviation U := (filter is_update s).
Abbreviation R := (filter is_removal s).
Hypothesis Hin : forall d, d ∈ R -> Address d ∈ addresses l.

(** The validators the changes do not mention. *)
Definition kept : list Validator := filter (fun v => Address v ∉ addresses s) l.
(** The old set's power that is replaced or removed. *)
Definition removed : Z := sumZ (fun d => old_power l (Address d)) R.

Lemma s_distinct : distinct s.
Proof. by apply ssorted_distinct. Qed.

Lemma change_elem v : v ∈ s <-> v ∈ U \/ v ∈ R.
Proof.
  rewrite !list_elem_of_filter. unfold is_update, is_removal.
  destruct (decide (VotingPower v = 0)); naive_solver.
Qed.

Lemma U_R_disjoint u d : u ∈ U -> d ∈ R -> Address u <> Address d.
Proof.
  rewrite !list_elem_of_filter. intros [Hu Hus] [Hd Hds] Heq.
  assert (u = d) as ->; [|by apply Hu]. pose proof s_distinct as Hnd.
  apply list_elem_of_lookup in Hus as [i Hi]. apply list_elem_of_lookup in Hds as [j Hj].
  assert (i = j) as <-; [|congruence].
  eapply NoDup_lookup; [exact Hnd|by rewrite list_lookup_fmap, Hi|]. rewrite list_lookup_fmap, Hj. simpl. by f_equal.
Qed.

Lemma U_distinct : distinct U.
Proof. apply ssorted_distinct, ssorted_filter, Hsorted. Qed.
Lemma R_distinct : distinct R.
Proof. apply ssorted_distinct, ssorted_filter, Hsorted. Qed.

Lemma s_split : sumZ (fun d => old_power l (Address d)) s = sumZ (fun d => old_power l (Address d)) U + removed.
Proof.
  rewrite (sumZ_filter_split _ is_update s). unfold removed. do 2 f_equal.
  apply filter_ext_elem. intros v _. unfold is_update, is_removal. lia.
Qed.

Lemma kept_total : sumZ VotingPower kept = total vals - removed - sumZ (fun d => old_power l (Address d)) U.
Proof.
  pose proof (sumZ_filter_split VotingPower (fun v => Address v ∈ addresses s) l) as Hsplit.
  rewrite <- sumZ_old_power in Hsplit by (apply Hwf || apply s_distinct).
  pose proof s_split. unfold kept. lia.
Qed.

Lemma removed_bounds : 0 <= removed <= total vals /\ 0 <= sumZ (fun d => old_power l (Address d)) U.
Proof.
  assert (0 <= sumZ VotingPower kept).
  { apply total_nonneg. apply Forall_forall. intros v [_ Hv]%list_elem_of_filter.
    pose proof (wf_power _ Hwf) as Hp. rewrite Forall_forall in Hp. by apply Hp. }
  assert (0 <= sumZ (fun d => old_power l (Address d)) U /\ 0 <= removed) as [? ?].
  { split; apply sumZ_nonneg, Forall_forall; intros; by apply old_power_bounds. }
  pose proof kept_total. lia.
Qed.

Lemma U_power : Forall (fun u => 0 <= VotingPower u <= MaxTotalVotingPower) U.
Proof. apply Forall_forall. intros v [_ Hv]%list_elem_of_filter. rewrite Forall_forall in Hpower. auto. Qed.

(** The total voting power after the changes. *)
Definition new_total : Z := sumZ VotingPower kept + sumZ VotingPower U.

Lemma verifyRemovals_ok : verifyRemovals R vals = Val removed.
Proof.
  unfold verifyRemovals. pose proof removed_bounds. pose proof (wf_max _ Hwf). fold removed in *.
  rewrite removed_power_ok by (done || (fold removed; power_lia)). go_step. fold removed.
  pose proof (distinct_subset_length R l R_distinct) as Hlen. rewrite Z.gtb_ltb.
  destruct (Z.ltb_spec (len l) (len R)) as [Hlt|]; [|go_step; f_equal; lia].
  exfalso. assert (len R <= len l); [|lia]. apply Hlen. intros a (d & -> & Hd)%list_elem_of_fmap. by apply Hin.
Qed.

Lemma change_sum us : sumZ (change vals) us = sumZ VotingPower us - sumZ (fun d => old_power l (Address d)) us.
Proof. unfold sumZ, change. induction us; simpl; lia. Qed.

Lemma verifyUpdates_spec :
  (new_total <= MaxTotalVotingPower -> verifyUpdates U vals removed = Val (new_total + removed, vals)) /\
  (MaxTotalVotingPower < new_total -> exists e, verifyUpdates U vals removed = Fail e).
Proof.
  unfold verifyUpdates. fold (by_delta vals). rewrite TotalVotingPower_val by (apply Hwf). go_step.
  pose proof removed_bounds as [Hr HU]. pose proof (wf_max _ Hwf). rewrite int64_id by power_lia.
  set (us := sort_by (by_delta vals) U). assert (Hperm : us ≡ₚ U) by apply sort_by_perm.
  pose proof kept_total as Hk.
  assert (0 <= sumZ VotingPower kept).
  { apply total_nonneg. apply Forall_forall. intros v [_ Hv]%list_elem_of_filter.
    pose proof (wf_power _ Hwf) as Hp. rewrite Forall_forall in Hp. by apply Hp. }
  assert (0 <= sumZ VotingPower U).
  { apply sumZ_nonneg. eapply Forall_impl; [apply U_power|]. simpl. lia. }
  assert (Hneg : - sumZ (fun d => old_power l (Address d)) U <= sumZ (fun u => Z.min 0 (change vals u)) us).
  { rewrite Hperm. pose proof U_power as Hp. revert Hp. clear -Hwf. unfold sumZ, change.
    induction U as [|u us IH]; intros Hp; [done|]. apply Forall_cons in Hp as [Hu Hp].
    specialize (IH Hp). pose proof (old_power_bounds vals Hwf (Address u)). cbn [foldr] in *. lia. }
  destruct (add_deltas_sum vals Hwf us (total vals - removed)) as [Hok Hbad].
  - rewrite Hperm. apply U_power.
  - apply sort_by_delta; [done|apply U_power].
  - lia.
  - lia.
  - assert (Hsum : sumZ (change vals) us = sumZ (change vals) U) by (by rewrite Hperm).
    rewrite Hsum, change_sum in Hok, Hbad. unfold new_total. split.
    + intros Hle. rewrite Hok by lia. go_step. rewrite int64_id by power_lia. do 2 f_equal. lia.
    + intros Hlt. rewrite Hbad by lia. by eexists.
Qed.

Lemma empty_check :
  (numNewValidators U vals =? 0) && (len l =? len R) = true <-> U = [] /\ kept = [].
Proof.
  assert (HRl : forall a, a ∈ addresses R -> a ∈ addresses l).
  { intros a (d & -> & Hd)%list_elem_of_fmap. by apply Hin. }
  rewrite andb_true_iff, !Z.eqb_eq. unfold numNewValidators, kept. split.
  - intros [Hnew Hlen].
    assert (Hperm : addresses R ≡ₚ addresses l).
    { apply submseteq_length_Permutation.
      - by apply NoDup_submseteq; [apply R_distinct|].
      - rewrite !length_fmap. unfold len in Hlen. lia. }
    split.
    + destruct U as [|u us] eqn:HU; [done|]. exfalso.
      assert (Hu : u ∈ U) by (rewrite HU; left). rewrite filter_cons in Hnew.
      destruct (decide (HasAddress vals (Address u) = false)) as [Hf|Ht].
      * unfold len in Hnew. cbn [length] in Hnew. lia.
      * apply not_false_is_true, HasAddress_spec in Ht. rewrite <- Hperm in Ht.
        apply list_elem_of_fmap in Ht as (d & Heq & Hd). by apply (U_R_disjoint u d).
    + apply filter_none. intros v Hv Hn. apply Hn.
      assert (Hvl : Address v ∈ addresses R) by (rewrite Hperm; by apply list_elem_of_fmap_2).
      apply list_elem_of_fmap in Hvl as (d & -> & Hd). apply list_elem_of_fmap_2, change_elem. by right.
  - intros [HU Hk]. rewrite HU. split; [done|]. apply Z.le_antisymm.
    + apply distinct_subset_length; [apply Hwf|]. intros a (v & -> & Hv)%list_elem_of_fmap.
      destruct (decide (Address v ∈ addresses s)) as [Hs|Hs].
      * apply list_elem_of_fmap in Hs as (c & -> & Hc). apply list_elem_of_fmap_2.
        apply change_elem in Hc as [Hc|Hc]; [rewrite HU in Hc; by apply not_elem_of_nil in Hc|done].
      * exfalso. apply (filter_nil_not_elem_of _ _ v Hk); done.
    + apply distinct_subset_length; [apply R_distinct|done].
Qed.

(** The updates with their priorities. *)
Definition new_updates : list Validator := computeNewPriorities U vals (new_total + removed).

Lemma new_updates_same : same_validators U new_updates.
Proof.
  unfold new_updates, computeNewPriorities. induction U as [|u us IH]; [constructor|].
  rewrite fmap_cons. constructor; [|done]. by destruct (GetByAddress vals (Address u)) as [? [?|]].
Qed.

Lemma new_updates_sorted : ssorted new_updates.
Proof.
  assert (Hs : ssorted U) by (by apply ssorted_filter). revert Hs.
  generalize new_updates_same. generalize new_updates as us'. induction 1 as [|u u' us us' Hu Hus IH]; intros Hs; [constructor|].
  apply StronglySorted_inv in Hs as [Hs Hall]. constructor; [auto|].
  apply Forall_forall. intros w' Hw'. apply list_elem_of_lookup in Hw' as [i Hi].
  destruct (Forall2_lookup_r _ _ _ _ _ Hus Hi) as (w & Hw & Hww). rewrite Forall_lookup in Hall. specialize (Hall i w Hw).
  unfold addr_lt in *. destruct Hu as [<- _], Hww as [<- _]. done.
Qed.

Lemma new_updates_addresses : addresses new_updates = addresses U.
Proof. symmetry. apply same_addresses, new_updates_same. Qed.

Lemma merged_perm :
  exists merged, applyRemovals (applyUpdates vals new_updates) R = Val (with_Validators vals merged) /\
    merged ≡ₚ new_updates ++ kept.
Proof.
  unfold applyUpdates, applyRemovals, with_Validators. simpl. set (e := sort_by ByAddress_Less l).
  assert (He : ssorted e).
  { apply ssorted_of_sorted; [apply sort_ByAddress_sorted|]. unfold e. rewrite sort_by_perm. apply Hwf. }
  set (M := merge_updates e new_updates).
  assert (HM : ssorted M) by (apply merge_updates_sorted; [done|apply new_updates_sorted]).
  assert (Hel : forall x, x ∈ M <-> x ∈ new_updates \/ (x ∈ l /\ Address x ∉ addresses U)).
  { intros x. unfold M. rewrite merge_updates_elem, new_updates_addresses by (done || apply new_updates_sorted).
    unfold e. by rewrite sort_by_perm. }
  assert (Hsub : forall a, a ∈ addresses R -> a ∈ addresses M).
  { intros a (d & -> & Hd)%list_elem_of_fmap. pose proof (Hin d Hd) as (v & Heq & Hv)%list_elem_of_fmap.
    rewrite Heq. apply list_elem_of_fmap_2, Hel. right. split; [done|]. rewrite <- Heq.
    intros (u & Hdu & Hu)%list_elem_of_fmap. by apply (U_R_disjoint u d). }
  pose proof (distinct_subset_length R M R_distinct Hsub).
  destruct (Z.ltb_spec (len M - len R) 0); [lia|]. go_step.
  rewrite remove_deletes_val; [|done|by apply ssorted_filter|done|lia]. go_step.
  eexists. split; [done|]. apply NoDup_Permutation.
  - apply NoDup_filter, distinct_NoDup, ssorted_distinct, HM.
  - apply NoDup_app. split; [apply distinct_NoDup, ssorted_distinct, new_updates_sorted|].
    split; [|apply NoDup_filter, distinct_NoDup, Hwf].
    intros x Hx [Hn _]%list_elem_of_filter. apply Hn. apply (list_elem_of_fmap_2 Address) in Hx.
    rewrite new_updates_addresses in Hx. apply list_elem_of_fmap in Hx as (u & -> & Hu).
    apply list_elem_of_fmap_2, change_elem. by left.
  - intros x. unfold kept. rewrite elem_of_app, !list_elem_of_filter, Hel.
    assert (Hs : Address x ∈ addresses s <-> Address x ∈ addresses U \/ Address x ∈ addresses R).
    { rewrite !list_elem_of_fmap. setoid_rewrite change_elem. naive_solver. }
    rewrite Hs. split; [tauto|]. intros [Hx|Hx]; [|tauto]. split; [|by left].
    intros (d & Heq & Hd)%list_elem_of_fmap. apply (list_elem_of_fmap_2 Address) in Hx.
    rewrite new_updates_addresses in Hx. apply list_elem_of_fmap in Hx as (u & Hux & Hu).
    by apply (U_R_disjoint u d); [..|congruence].
Qed.

Lemma new_updates_priority :
  new_total <= MaxTotalVotingPower ->
  Forall (fun v => -3 * MaxTotalVotingPower <= ProposerPriority v <= 3 * MaxTotalVotingPower) (new_updates ++ kept).
Proof.
  intros Hle. pose proof (wf_priority _ Hwf) as Hp. rewrite Forall_forall in Hp.
  pose proof removed_bounds. pose proof (wf_max _ Hwf).
  assert (0 <= new_total).
  { unfold new_total. apply Z.add_nonneg_nonneg.
    - apply total_nonneg, Forall_forall. intros v [_ Hv]%list_elem_of_filter.
      pose proof (wf_power _ Hwf) as Hw. rewrite Forall_forall in Hw. by apply Hw.
    - apply sumZ_nonneg. eapply Forall_impl; [apply U_power|]. simpl. lia. }
  apply Forall_app. split; apply Forall_forall.
  - intros v (u & -> & Hu)%list_elem_of_fmap. unfold GetByAddress.
    destruct (get_by_address 0 l (Address u)) as [i [w|]] eqn:Hg; simpl.
    + assert (Hw : w ∈ l) by (apply (get_by_address_snd l (Address u) 0); [apply Hwf|by rewrite Hg]).
      specialize (Hp w Hw). power_lia.
    + rewrite Z.shiftr_div_pow2 by lia. change (2 ^ 3) with 8. set (t := new_total + removed).
      assert (0 <= t <= 2 * MaxTotalVotingPower) by (unfold t; lia). pose proof (Z.div_mod t 8). pose proof (Z.mod_pos_bound t 8).
      rewrite (int64_id (t + t / 8)) by power_lia. rewrite int64_id by power_lia. power_lia.
  - intros v [_ Hv]%list_elem_of_filter. specialize (Hp v Hv). power_lia.
Qed.

Lemma merged_electable merged :
  merged ≡ₚ new_updates ++ kept -> new_total <= MaxTotalVotingPower -> merged <> [] ->
  electable (mkValidatorSet merged (Proposer vals) (sumZ VotingPower merged)) /\
  sumZ VotingPower merged = new_total.
Proof.
  intros Hperm Hle Hne.
  assert (Htot : sumZ VotingPower merged = new_total).
  { rewrite Hperm, sumZ_app, <- (same_total _ _ new_updates_same). unfold new_total. lia. }
  split; [|done]. split; simpl; [done| | |done|lia].
  - rewrite Hperm, fmap_app. apply NoDup_app. rewrite new_updates_addresses.
    split; [apply U_distinct|]. split.
    + intros a (u & -> & Hu)%list_elem_of_fmap (v & Heq & Hv)%list_elem_of_fmap.
      apply list_elem_of_filter in Hv as [Hv _]. apply Hv. rewrite <- Heq.
      apply list_elem_of_fmap_2, change_elem. by left.
    + apply distinct_filter, Hwf.
  - rewrite Hperm. apply Forall_app. split.
    + apply (same_powers _ _ (fun z => 0 < z) new_updates_same). apply Forall_forall. intros u Hu.
      pose proof U_power as Hp. rewrite Forall_forall in Hp. specialize (Hp u Hu).
      apply list_elem_of_filter in Hu as [Hu _]. unfold is_update in Hu. lia.
    + apply Forall_forall. intros v [_ Hv]%list_elem_of_filter.
      pose proof (wf_power _ Hwf) as Hp. rewrite Forall_forall in Hp. by apply Hp.
Qed.
End effect.

Lemma powers_same l l' : same_validators l l' -> powers l = powers l'.
Proof.
  intros H. unfold powers. f_equal. induction H as [|v w l l' (Ha & _ & Hp) _ IH]; [done|].
  by rewrite !fmap_cons, IH, Ha, Hp.
Qed.

Lemma powers_perm l l' : distinct l -> l ≡ₚ l' -> powers l = powers l'.
Proof.
  intros Hnd Hperm. unfold powers. apply list_to_map_proper; [|by rewrite Hperm].
  by rewrite <- list_fmap_compose.
Qed.

Lemma ByVotingPower_asym a b : ByVotingPower_Less a b = true -> ByVotingPower_Less b a = false.
Proof.
  unfold ByVotingPower_Less. rewrite (Z.eqb_sym (VotingPower b)), !Z.gtb_ltb.
  destruct (Z.eqb_spec (VotingPower a) (VotingPower b)); [apply bytes_ltb_asym|]. rewrite Z.ltb_lt, Z.ltb_ge. lia.
Qed.

Lemma ByVotingPower_trans a b c :
  sort_le ByVotingPower_Less a b -> sort_le ByVotingPower_Less b c -> sort_le ByVotingPower_Less a c.
Proof.
  unfold sort_le, ByVotingPower_Less. rewrite !Z.gtb_ltb.
  destruct (Z.eqb_spec (VotingPower b) (VotingPower a)), (Z.eqb_spec (VotingPower c) (VotingPower a)),
    (Z.eqb_spec (VotingPower c) (VotingPower b)); rewrite ?Z.ltb_ge; try lia.
  apply (ByAddress_trans a b c).
Qed.

(** The end of an update: total, scaling, centring and the final order. *)
Definition finish_update (vals : ValidatorSet) : go ValidatorSet :=
  vals ← updateTotalVotingPower vals;
  '(total, vals) ← TotalVotingPower vals;
  vals ← RescalePriorities vals (int64 (PriorityWindowSizeFactor * total));
  vals ← shiftByAvgProposerPriority vals;
  Val (with_Validators vals (sort_by ByVotingPower_Less (Validators vals))).

Lemma finish_update_ok vals :
  electable (mkValidatorSet (Validators vals) (Proposer vals) (total vals)) ->
  Forall (fun v => -3 * MaxTotalVotingPower <= ProposerPriority v <= 3 * MaxTotalVotingPower) (Validators vals) ->
  exists vals', finish_update vals = Val vals' /\ wf_set vals' /\
    powers (Validators vals') = powers (Validators vals) /\ Proposer vals' = Proposer vals /\
    StronglySorted (sort_le ByVotingPower_Less) (Validators vals').
Proof.
  intros Hel Hb. unfold finish_update. pose proof Hel as [Hne Hnd Hp _ Hm]. simpl in *.
  rewrite updateTotalVotingPower_val by done. go_step. rewrite TotalVotingPower_val by done. go_step.
  set (vals1 := mkValidatorSet (Validators vals) (Proposer vals) (total vals)) in *.
  destruct (rescale_and_centre vals1 (6 * MaxTotalVotingPower) (-3 * MaxTotalVotingPower) (3 * MaxTotalVotingPower))
    as (vals2 & vals3 & Hr & Hsh & Hel3 & Hs3 & Ht3 & Hp3 & _ & Hb3 & _);
    [done|simpl; power_lia| |power_lia|power_lia|done|].
  { replace (6 * MaxTotalVotingPower) with (3 * MaxTotalVotingPower - -3 * MaxTotalVotingPower) by lia.
    by apply window_of_bounds. }
  simpl in Hr. simpl. rewrite Hr. go_step. rewrite Hsh. go_step.
  pose proof (sort_by_perm ByVotingPower_Less (Validators vals3)) as Hperm.
  assert (Hwf3 : wf_set vals3).
  { apply wf_of_electable; [done|]. eapply Forall_impl; [done|]. simpl in *. power_lia. }
  destruct Hwf3 as [Hd3 Hpw3 Htt3 Hmx3 Hpr3].
  eexists. split; [done|]. split; [by split; simpl; rewrite ?Hperm|]. simpl. split; [|split; [done|]].
  - rewrite (powers_perm _ (Validators vals3)) by (by rewrite ?Hperm). symmetry. by apply powers_same.
  - apply sort_by_sorted; [exact ByVotingPower_asym|exact ByVotingPower_trans].
Qed.

Lemma merged_powers vals s changes merged :
  wf_set vals -> ssorted s -> s ≡ₚ changes ->
  merged ≡ₚ new_updates vals s ++ kept vals s -> distinct merged ->
  powers merged = apply_changes (powers (Validators vals)) changes.
Proof.
  intros Hwf Hs Hsc Hperm Hnd.
  assert (Hdc : distinct changes) by (rewrite <- Hsc; by apply ssorted_distinct).
  apply map_eq. intros a. destruct (decide (a ∈ addresses changes)) as [Ha|Ha].
  - apply list_elem_of_fmap in Ha as (c & -> & Hc). rewrite apply_changes_elem by done.
    assert (Hcs : c ∈ s) by (by rewrite Hsc). destruct (Z.eqb_spec (VotingPower c) 0) as [H0|H0].
    + apply powers_lookup_None. rewrite Hperm, fmap_app, elem_of_app, new_updates_addresses.
      intros [Hu|Hk].
      * apply list_elem_of_fmap in Hu as (u & Heq & Hu).
        apply (U_R_disjoint s Hs u c); [done| |done]. by apply list_elem_of_filter.
      * apply list_elem_of_fmap in Hk as (v & Heq & [Hv _]%list_elem_of_filter). apply Hv. rewrite <- Heq.
        by apply list_elem_of_fmap_2.
    + apply powers_lookup; [done|]. assert (Hcu : c ∈ filter is_update s) by (by apply list_elem_of_filter).
      apply list_elem_of_lookup in Hcu as [i Hi].
      destruct (Forall2_lookup_l _ _ _ _ _ (new_updates_same vals s) Hi) as (c' & Hc' & (Had & _ & Hpw)).
      exists c'. rewrite Hperm, elem_of_app. split; [left; by eapply list_elem_of_lookup_2|done].
  - rewrite apply_changes_ne by done. apply option_eq. intros p.
    rewrite !powers_lookup by (done || apply Hwf). split; intros (v & Hv & <- & <-); exists v; split; try done.
    + rewrite Hperm, elem_of_app in Hv. destruct Hv as [Hv|Hv]; [|by apply list_elem_of_filter in Hv as [_ Hv]].
      exfalso. apply Ha. apply (list_elem_of_fmap_2 Address) in Hv. rewrite new_updates_addresses in Hv.
      apply list_elem_of_fmap in Hv as (u & -> & [_ Hu]%list_elem_of_filter). rewrite <- Hsc.
      by apply list_elem_of_fmap_2.
    + rewrite Hperm, elem_of_app. right. apply list_elem_of_filter. by rewrite Hsc.
Qed.

(** Changes that may be applied to a set with the given powers. *)
Definition legal (m : gmap bytes Z) (changes : list Validator) (allowDeletes : bool) : Prop :=
  distinct changes /\
  Forall (fun v => Address v <> [] /\ 0 <= VotingPower v <= MaxTotalVotingPower) changes /\
  (forall v, v ∈ changes -> VotingPower v = 0 -> allowDeletes = true /\ is_Some (m !! Address v)) /\
  apply_changes m changes <> ∅ /\ map_total (apply_changes m changes) <= MaxTotalVotingPower.

Lemma scan_ok_iff changes :
  scan_ok [] changes <-> distinct changes /\
    Forall (fun v => Address v <> [] /\ 0 <= VotingPower v <= MaxTotalVotingPower) changes.
Proof. unfold scan_ok. rewrite !Forall_and. tauto. Qed.

Lemma lift_bind {E A B} (m : go A) (k : A -> go B) :
  lift (E := E) (m ≫= k) = lift m ≫= fun a => lift (k a).
Proof. by destruct m as [|[]|]. Qed.

(** [updateWithChangeSet] with the removals and total computed by [merged]. *)
Lemma updateWithChangeSet_unfold vals changes allow s :
  changes <> [] -> processChanges changes = Val (filter is_update s, filter is_removal s) ->
  updateWithChangeSet vals changes allow =
    (_ ← fail_if (negb allow && negb (len (filter is_removal s) =? 0)) ErrDeletesNotAllowed;
     _ ← fail_if ((numNewValidators (filter is_update s) vals =? 0) &&
                  (len (Validators vals) =? len (filter is_removal s))) ErrWouldBeEmpty;
     removed ← verifyRemovals (filter is_removal s) vals;
     '(tvp, vals) ← verifyUpdates (filter is_update s) vals removed;
     lift (vals ← applyRemovals (applyUpdates vals (computeNewPriorities (filter is_update s) vals tvp)) (filter is_removal s);
           finish_update vals)).
Proof.
  intros Hne Hp. unfold updateWithChangeSet. rewrite Hp. unfold len at 1.
  destruct changes as [|c cs]; [done|]. cbn [length]. destruct (Z.eqb_spec (Z.of_nat (S (length cs))) 0); [lia|].
  go_step. destruct (fail_if _ _); [go_step|done..]. destruct (fail_if _ _); [go_step|done..].
  destruct (verifyRemovals _ _) as [r| |]; [go_step|done..].
  destruct (verifyUpdates _ _ _) as [[t v]| |]; [go_step|done..].
  destruct (applyRemovals _ _) as [v1|[]|]; [|done]. go_step. unfold finish_update.
  destruct (updateTotalVotingPower v1) as [v2|[]|]; [|done]. go_step.
  destruct (TotalVotingPower v2) as [[t3 v3]|[]|]; [|done]. go_step.
  destruct (RescalePriorities _ _) as [v4|[]|]; [|done]. go_step.
  by destruct (shiftByAvgProposerPriority v4) as [v5|[]|].
Qed.

Section refinement.
Context (vals : ValidatorSet) (changes s : list Validator) (allow : bool).
Hypothesis Hwf : wf_set vals.
Hypothesis Hne : changes <> [].
Hypothesis Hperm : s ≡ₚ changes.
Hypothesis Hsorted : ssorted s.
Hypothesis Hpow : Forall (fun v => 0 <= VotingPower v <= MaxTotalVotingPower) s.
Hypothesis Hproc : processChanges changes = Val (filter is_update s, filter is_removal s).
Abbreviation m := (powers (Validators vals)).
Abbreviation spec := (apply_changes m changes).

Hypothesis Hdel : forall v, v ∈ changes -> VotingPower v = 0 -> allow = true /\ is_Some (m !! Address v).

Lemma removals_present d : d ∈ filter is_removal s -> Address d ∈ addresses (Validators vals).
Proof.
  intros [H0 Hd]%list_elem_of_filter. rewrite Hperm in Hd. destruct (Hdel d Hd H0) as [_ [p Hp]].
  apply powers_lookup in Hp as (v & Hv & <- & _); [by apply list_elem_of_fmap_2|apply Hwf].
Qed.

Lemma deletes_allowed : negb allow && negb (len (filter is_removal s) =? 0) = false.
Proof.
  destruct (filter is_removal s) as [|d ds] eqn:Hd; [by rewrite andb_false_r|].
  assert (Hin : d ∈ filter is_removal s) by (rewrite Hd; left).
  apply list_elem_of_filter in Hin as [H0 Hin]. rewrite Hperm in Hin.
  by destruct (Hdel d Hin H0) as [-> _].
Qed.

(** The abstract result, through the list the code builds. *)
Lemma merged_spec :
  exists merged, applyRemovals (applyUpdates vals (new_updates vals s)) (filter is_removal s)
      = Val (with_Validators vals merged) /\
    merged ≡ₚ new_updates vals s ++ kept vals s /\ powers merged = spec /\
    map_total spec = new_total vals s /\ (spec = ∅ <-> filter is_update s = [] /\ kept vals s = []).
Proof.
  destruct (merged_perm vals s Hwf Hsorted removals_present) as (merged & Hm & Hmp).
  assert (Hd : distinct merged).
  { rewrite Hmp, fmap_app. apply NoDup_app. rewrite new_updates_addresses.
    split; [by apply U_distinct|]. split; [|apply distinct_filter, Hwf].
    intros a (u & -> & [_ Hu]%list_elem_of_filter)%list_elem_of_fmap (v & Heq & [Hv _]%list_elem_of_filter)%list_elem_of_fmap.
    apply Hv. rewrite <- Heq. by apply list_elem_of_fmap_2. }
  assert (Hpm : powers merged = spec) by (by apply (merged_powers vals s)).
  exists merged. split; [done|]. split; [done|]. split; [done|]. rewrite <- Hpm. split.
  - rewrite map_total_powers, Hmp, sumZ_app, <- (same_total _ _ (new_updates_same vals s)) by done.
    unfold new_total. lia.
  - assert (Hnil : powers merged = ∅ <-> merged = []).
    { split; [|by intros ->]. intros He. destruct merged as [|v mg]; [done|].
      assert (Hv : powers (v :: mg) !! Address v = Some (VotingPower v)) by (apply powers_lookup; [done|exists v; split; [left|done]]).
      by rewrite He in Hv. }
    rewrite Hnil. pose proof (Forall2_length _ _ _ (new_updates_same vals s)) as Hlen. split.
    + intros ->. apply Permutation_nil in Hmp as [Hu ->]%app_nil.
      rewrite Hu in Hlen. by destruct (filter is_update s).
    + intros [Hu Hk]. rewrite Hu, Hk in *. destruct (new_updates vals s); [|done].
      apply Permutation_nil. by symmetry.
Qed.

Lemma legal_update :
  spec <> ∅ -> map_total spec <= MaxTotalVotingPower ->
  exists vals', updateWithChangeSet vals changes allow = Val vals' /\ wf_set vals' /\
    powers (Validators vals') = spec /\ Proposer vals' = Proposer vals /\
    StronglySorted (sort_le ByVotingPower_Less) (Validators vals').
Proof.
  intros Hse Hst. destruct merged_spec as (merged & Hm & Hmp & Hpm & Htot & Hempty).
  rewrite (updateWithChangeSet_unfold _ _ _ s), deletes_allowed by done. go_step.
  destruct ((numNewValidators _ _ =? 0) && _) eqn:Hchk.
  { apply (empty_check vals s Hwf Hsorted removals_present) in Hchk. by apply Hempty in Hchk. }
  go_step. rewrite (verifyRemovals_ok vals s Hwf Hsorted removals_present). go_step.
  rewrite (proj1 (verifyUpdates_spec vals s Hwf Hsorted Hpow)) by lia. go_step.
  fold (new_updates vals s). rewrite Hm. go_step.
  assert (merged <> []).
  { intros ->. apply Hse. by rewrite <- Hpm. }
  destruct (merged_electable vals s Hwf Hsorted Hpow merged Hmp ltac:(lia) ltac:(done)) as [Hel _].
  destruct (finish_update_ok (with_Validators vals merged)) as (vals' & Hf & Hwf' & Hp' & Hpr & Hs'); [done| |].
  { simpl. rewrite Hmp. apply new_updates_priority; [done..|lia]. }
  rewrite Hf. go_step. exists vals'. simpl in Hp', Hpr. rewrite Hpm in Hp'. done.
Qed.

Lemma illegal_update :
  spec = ∅ \/ MaxTotalVotingPower < map_total spec -> exists e, updateWithChangeSet vals changes allow = Fail e.
Proof.
  intros Hbad. destruct merged_spec as (merged & Hm & Hmp & Hpm & Htot & Hempty).
  rewrite (updateWithChangeSet_unfold _ _ _ s), deletes_allowed by done. go_step.
  destruct ((numNewValidators _ _ =? 0) && _) eqn:Hchk; [by eexists|]. go_step.
  rewrite (verifyRemovals_ok vals s Hwf Hsorted removals_present). go_step.
  destruct Hbad as [Hse|Hst].
  { apply Hempty in Hse. apply (empty_check vals s Hwf Hsorted removals_present) in Hse. congruence. }
  destruct (proj2 (verifyUpdates_spec vals s Hwf Hsorted Hpow)) as [e He]; [lia|].
  rewrite He. by eexists.
Qed.
End refinement.

#[export] Instance scan_ok_dec prev l : Decision (scan_ok prev l).
Proof. unfold scan_ok. apply _. Defined.

(** A removal that is not allowed, or of an unknown validator, is rejected. *)
Lemma bad_removal vals changes s allow v :
  changes <> [] -> s ≡ₚ changes ->
  processChanges changes = Val (filter is_update s, filter is_removal s) ->
  v ∈ changes -> VotingPower v = 0 -> allow = false \/ Address v ∉ addresses (Validators vals) ->
  exists e, updateWithChangeSet vals changes allow = Fail e.
Proof.
  intros Hne Hperm Hproc Hv H0 Hbad. rewrite (updateWithChangeSet_unfold _ _ _ s) by done.
  assert (Hin : v ∈ filter is_removal s) by (apply list_elem_of_filter; by rewrite Hperm).
  destruct (negb allow && _) eqn:Hdel; [by eexists|]. go_step.
  destruct ((numNewValidators _ _ =? 0) && _); [by eexists|]. go_step.
  destruct Hbad as [->|Hni].
  - apply andb_false_iff in Hdel as [|Hlen]; [done|]. apply negb_false_iff, Z.eqb_eq in Hlen.
    destruct (filter is_removal s); [by apply not_elem_of_nil in Hin|unfold len in Hlen; simpl in Hlen; lia].
  - unfold verifyRemovals. destruct (removed_power_missing vals (filter is_removal s) 0 v Hin Hni) as [e ->].
    by eexists.
Qed.

Lemma update_refines vals changes allow :
  wf_set vals -> changes <> [] ->
  let m := powers (Validators vals) in
  (legal m changes allow ->
   exists vals', updateWithChangeSet vals changes allow = Val vals' /\ wf_set vals' /\
     powers (Validators vals') = apply_changes m changes /\ Proposer vals' = Proposer vals /\
     StronglySorted (sort_le ByVotingPower_Less) (Validators vals')) /\
  (~ legal m changes allow -> exists e, updateWithChangeSet vals changes allow = Fail e).
Proof.
  intros Hwf Hne m.
  destruct (decide (scan_ok [] changes)) as [Hscan|Hscan].
  2: { split; [intros (Hd & Hf & _); exfalso; by apply Hscan, scan_ok_iff|]. intros _.
       destruct (processChanges_bad changes Hscan) as [e He]. exists e. unfold updateWithChangeSet.
       unfold len. destruct changes; [done|]. cbn [length]. destruct (Z.eqb_spec (Z.of_nat (S (length changes))) 0); [lia|].
       by rewrite He. }
  destruct (processChanges_ok changes Hscan) as (s & Hperm & Hs & Hproc).
  assert (Hpow : Forall (fun v => 0 <= VotingPower v <= MaxTotalVotingPower) s) by (rewrite Hperm; apply Hscan).
  apply scan_ok_iff in Hscan as [Hd Hf].
  destruct (decide (Forall (fun v => VotingPower v = 0 -> allow = true /\ is_Some (m !! Address v)) changes)) as [Hdel|Hdel].
  - rewrite Forall_forall in Hdel. split.
    + intros (_ & _ & _ & Hse & Hst). by apply (legal_update vals changes s).
    + intros Hbad. apply (illegal_update vals changes s); try done.
      destruct (decide (apply_changes m changes = ∅)) as [|Hse]; [by left|]. right.
      apply Z.lt_nge. intros Hle. apply Hbad. exact (conj Hd (conj Hf (conj Hdel (conj Hse Hle)))).
  - split; [intros (_ & _ & Hdel' & _); exfalso; by apply Hdel, Forall_forall|]. intros _.
    apply not_Forall_Exists in Hdel; [|apply _]. apply Exists_exists in Hdel as (v & Hv & Hn). simpl in Hn.
    destruct (decide (VotingPower v = 0)) as [H0|]; [|tauto].
    apply (bad_removal vals changes s allow v); try done.
    destruct allow; [right|by left]. intros Hin. apply Hn. intros _. split; [done|].
    apply not_eq_None_Some. intros Hnone. by apply powers_lookup_None in Hnone.
Qed.

#[export] Instance legal_dec m changes allow : Decision (legal m changes allow).
Proof.
  unfold legal. destruct (decide (Forall (fun v => VotingPower v = 0 -> allow = true /\ is_Some (m !! Address v)) changes))
    as [Hd|Hd]; rewrite Forall_forall in Hd.
  - destruct (decide (distinct changes /\
      Forall (fun v => Address v <> [] /\ 0 <= VotingPower v <= MaxTotalVotingPower) changes /\
      apply_changes m changes <> ∅ /\ map_total (apply_changes m changes) <= MaxTotalVotingPower)) as [H|H].
    + left. destruct H as (? & ? & ? & ?). auto.
    + right. intros (? & ? & _ & ? & ?). apply H. auto.
  - right. intros (_ & _ & H & _). by apply Hd.
Defined.
