(* ===== verification/ValidatorSetProofs.v ===== *)
(** * Validator sets: construction, reachable states, lookup and hash

    The invariant holds of every set the code can build from genesis
    validators, updates and proposer rotations, and the set's hash binds the
    keys and powers. *)
From Stdlib Require Import ZArith Lia Sorting.Sorted Strings.Byte.
From stdpp Require Import base list gmap.
From S2P Require Import Prelude.
From S2P Require Import Merkle.
From S2P Require Import MerkleProofs.
From S2P Require Import SafeMath.
From S2P Require Import Proto.
From S2P Require Import Validator.
From S2P Require Import RoundRobin.
From S2P Require Import ProposerProofs.
From S2P Require Import ValidatorUpdateProofs.

(** ** Construction *)

Lemma wf_empty : wf_set empty_set.
Proof. by split; simpl; try constructor. Qed.

Lemma same_nonempty l l' : same_validators l l' -> l <> [] -> l' <> [].
Proof. intros H Hl ->. by inversion H; subst. Qed.

Lemma powers_empty_iff l : powers l = ∅ -> l = [].
Proof.
  destruct l as [|v l]; [done|]. intros H. apply (f_equal (fun m => m !! Address v)) in H.
  rewrite lookup_empty in H. apply powers_lookup_None in H. exfalso. apply H. left.
Qed.

(** [NewValidatorSet] builds a set that satisfies the invariant, has
    the given powers and a proposer of the set exactly when the validators are legal
    (distinct addresses, positive powers, total within [MaxTotalVotingPower]), and
    panics otherwise. *)
Theorem new_validator_set_spec valz :
  valz <> [] ->
  (legal ∅ valz false ->
   exists vals i m, NewValidatorSet valz = Val vals /\ wf_set vals /\
     powers (Validators vals) = apply_changes ∅ valz /\
     Validators vals !! i = Some m /\ Proposer vals = Some m) /\
  (~ legal ∅ valz false -> exists w, NewValidatorSet valz = Panic w).
Proof.
  intros Hne. destruct (update_refines empty_set valz false wf_empty Hne) as [Hok Hbad].
  unfold NewValidatorSet. split.
  - intros Hlegal. destruct (Hok Hlegal) as (vals & -> & Hwf & Hp & _).
    assert (Hnev : Validators vals <> []).
    { destruct Hlegal as (_ & _ & _ & Hem & _). intros H. rewrite H in Hp. by symmetry in Hp. }
    assert (0 < len valz) by (unfold len; destruct valz; [done|simpl; lia]).
    rewrite Z.gtb_ltb. destruct (Z.ltb_spec 0 (len valz)); [|lia].
    destruct (IncrementProposerPriority_once vals Hwf Hnev) as (vals' & i & m & -> & Hwf' & Hs & Hi & Hpr).
    exists vals', i, m. by rewrite <- (powers_same _ _ Hs).
  - intros Hil. destruct (Hbad Hil) as [e ->]. by eexists.
Qed.

(** ** Reachable sets *)

(** Rotations that cannot leave the range of the invariant: a single round,
    or any number of rounds in a set that leaves room for the harmonic bound. *)
Definition rotation_ok (vals : ValidatorSet) (times : Z) : Prop :=
  times = 1 \/ (0 < times /\ len (Validators vals) <= 10000 /\ 4 * total vals <= MaxTotalVotingPower).

Inductive reachable : ValidatorSet -> Prop :=
  | reach_new valz vals : NewValidatorSet valz = Val vals -> reachable vals
  | reach_update vals changes vals' :
      reachable vals -> UpdateWithChangeSet vals changes = Val vals' -> reachable vals'
  | reach_rotate vals times vals' :
      reachable vals -> rotation_ok vals times ->
      IncrementProposerPriority vals times = Val vals' -> reachable vals'.

Lemma updateWithChangeSet_wf vals changes allow vals' :
  wf_set vals -> updateWithChangeSet vals changes allow = Val vals' -> wf_set vals'.
Proof.
  intros Hwf Hup. destruct (decide (changes = [])) as [->|Hne]; [by injection Hup as <-|].
  destruct (update_refines vals changes allow Hwf Hne) as [Hok Hbad].
  destruct (decide (legal (powers (Validators vals)) changes allow)) as [Hl|Hl].
  - destruct (Hok Hl) as (v & Hv & Hwfv & _). congruence.
  - destruct (Hbad Hl) as [e He]. congruence.
Qed.

Lemma IncrementProposerPriority_wf vals times :
  wf_set vals -> Validators vals <> [] -> rotation_ok vals times ->
  exists vals', IncrementProposerPriority vals times = Val vals' /\ wf_set vals' /\
    same_validators (Validators vals) (Validators vals').
Proof.
  intros Hwf Hne [->|(Ht & Hn & HP)].
  { destruct (IncrementProposerPriority_once vals Hwf Hne) as (v & ? & ? & ? & ? & ? & _). by exists v. }
  pose proof (wf_electable _ Hwf Hne) as Hel. pose proof (total_pos _ (el_power _ Hel) Hne).
  assert (Hh : 4 * harmonic (total vals) (length (Validators vals)) <= 10 * MaxTotalVotingPower).
  { pose proof (harmonic_mono_n (total vals) (length (Validators vals)) (Z.to_nat 300 + Z.to_nat 100 * Z.to_nat 97)
      ltac:(lia) ltac:(unfold len in Hn; lia)).
    pose proof (harmonic_mono_P (total vals) (MaxTotalVotingPower / 4) (Z.to_nat 300 + Z.to_nat 100 * Z.to_nat 97)
      ltac:(apply Z.div_le_lower_bound; lia)).
    assert (Hpos : 0 <= MaxTotalVotingPower / 4) by (vm_compute; discriminate).
    pose proof (harmonic_chunked _ (Z.to_nat 300) (Z.to_nat 100) (Z.to_nat 97) Hpos).
    assert (4 * chunked (MaxTotalVotingPower / 4) (Z.to_nat 300) (Z.to_nat 100) (Z.to_nat 97) <= 10 * MaxTotalVotingPower)
      by (vm_compute; discriminate).
    lia. }
  assert (Hroom : no_clip (total vals) (length (Validators vals))) by (unfold no_clip; power_lia).
  destruct (IncrementProposerPriority_run vals times Hwf Hne Ht Hroom)
    as (vals' & l0 & ch & Hi & Hs & Htot & _ & _ & _ & _ & _ & _ & Hj).
  exists vals'. split; [done|]. split; [|done]. apply wf_of_electable.
  - eapply electable_same; [exact Hel|done|]. rewrite Htot. symmetry. apply Hwf.
  - apply Forall_lookup. intros j v Hv. pose proof (lookup_lt_Some _ _ _ Hv) as Hlt.
    rewrite <- (Forall2_length _ _ _ Hs) in Hlt. destruct (Hj j Hlt) as [Hb _].
    unfold prio_at in Hb. rewrite Hv in Hb. simpl in Hb. power_lia.
Qed.

Lemma NewValidatorSet_wf valz vals : NewValidatorSet valz = Val vals -> wf_set vals.
Proof.
  unfold NewValidatorSet. destruct (updateWithChangeSet empty_set valz false) as [v| |] eqn:Hu; try done.
  apply updateWithChangeSet_wf in Hu as Hwf; [|apply wf_empty]. rewrite Z.gtb_ltb.
  destruct (Z.ltb_spec 0 (len valz)); [|by intros [= <-]].
  destruct (decide (Validators v = [])) as [Hnil|Hne].
  - intros Hi. unfold IncrementProposerPriority, is_empty, IsNilOrEmpty in Hi. by rewrite Hnil in Hi.
  - destruct (IncrementProposerPriority_once v Hwf Hne) as (v' & ? & ? & -> & ? & _). by intros [= <-].
Qed.

Lemma empty_rotate vals times vals' :
  Validators vals = [] -> IncrementProposerPriority vals times = Val vals' -> False.
Proof. intros Hnil Hi. unfold IncrementProposerPriority, is_empty, IsNilOrEmpty in Hi. by rewrite Hnil in Hi. Qed.

Lemma reachable_invariant vals : reachable vals -> wf_set vals.
Proof.
  induction 1 as [valz vals Hn|vals ch vals' _ IH Hu|vals times vals' _ IH Hr Hi].
  - by eapply NewValidatorSet_wf.
  - by eapply updateWithChangeSet_wf.
  - destruct (decide (Validators vals = [])) as [Hnil|Hne]; [by destruct (empty_rotate vals times vals')|].
    destruct (IncrementProposerPriority_wf vals times IH Hne Hr) as (v & Hv & Hwf & _). congruence.
Qed.

(** C32: every validator set reached from its construction through updates and rotations
    (of one round, or of several while the set has at most 10000 validators and at most a
    quarter of the largest total power) satisfies the invariant: distinct addresses, positive
    powers within the limit, the right cached total and priorities in their range.  On such a
    set an update never panics; a rotation of any positive number of rounds succeeds and changes
    priorities only if there is a validator, and panics if there is none. *)
Theorem reachable_sets_sound vals :
  reachable vals ->
  wf_set vals /\
  (forall changes w, UpdateWithChangeSet vals changes <> Panic w) /\
  (forall times, Validators vals <> [] -> 0 < times ->
     exists vals', IncrementProposerPriority vals times = Val vals' /\
       same_validators (Validators vals) (Validators vals')) /\
  (Validators vals = [] -> forall times, exists w, IncrementProposerPriority vals times = Panic w).
Proof.
  intros Hr. apply reachable_invariant in Hr as Hwf. split; [done|]. split_and!.
  - intros changes w. unfold UpdateWithChangeSet. destruct (decide (changes = [])) as [->|Hne]; [done|].
    destruct (update_refines vals changes true Hwf Hne) as [Hok Hbad].
    destruct (decide (legal (powers (Validators vals)) changes true)) as [Hl|Hl].
    + destruct (Hok Hl) as (v & -> & _). done.
    + destruct (Hbad Hl) as [e ->]. done.
  - intros times Hne Ht. destruct (IncrementProposerPriority_same vals times Hwf Hne Ht) as (v & p & ? & ? & _). by exists v.
  - intros Hnil times. unfold IncrementProposerPriority, is_empty, IsNilOrEmpty. rewrite Hnil. by eexists.
Qed.

(** C27: [UpdateWithChangeSet] refines the update of a map from addresses
    to powers.  A legal set of changes is applied as a whole: the new powers and the
    cached total are those of the updated map and the validators are sorted by power;
    an illegal one is rejected with an error. *)
Theorem validator_update_refines vals changes :
  reachable vals -> changes <> [] ->
  let m := powers (Validators vals) in
  (legal m changes true ->
   exists vals', UpdateWithChangeSet vals changes = Val vals' /\ reachable vals' /\
     powers (Validators vals') = apply_changes m changes /\
     totalVotingPower vals' = map_total (apply_changes m changes) /\
     StronglySorted (sort_le ByVotingPower_Less) (Validators vals')) /\
  (~ legal m changes true -> exists e, UpdateWithChangeSet vals changes = Fail e).
Proof.
  intros Hr Hne m. apply reachable_invariant in Hr as Hwf.
  destruct (update_refines vals changes true Hwf Hne) as [Hok Hbad]. split; [|exact Hbad].
  intros Hl. destruct (Hok Hl) as (v & Hv & Hwfv & Hp & _ & Hs). exists v. split; [done|].
  split; [by eapply reach_update|]. split; [done|]. split; [|done].
  rewrite (wf_total _ Hwfv), <- map_total_powers by apply Hwfv. by rewrite Hp.
Qed.

(** ** Lookup *)

Lemma get_by_address_index l a k i v :
  distinct l -> 0 <= k -> k + len l <= MaxInt32 ->
  get_by_address k l a = (i, Some v) <-> zlookup l (i - k) = Some v /\ Address v = a.
Proof.
  revert k. induction l as [|w l IH]; intros k Hnd Hk Hl; cbn [get_by_address].
  { split; [done|]. by intros [[_ H]%zlookup_Some _]. }
  rewrite fmap_cons in Hnd. apply NoDup_cons in Hnd as [Hw Hnd]. unfold len in Hl. cbn [length] in Hl.
  assert (Hsucc : forall j, j <> k -> zlookup (w :: l) (j - k) = zlookup l (j - (k + 1))).
  { intros j Hj. unfold zlookup. destruct (Z.leb_spec 0 (j - k)), (Z.leb_spec 0 (j - (k + 1))); try lia; [|done].
    by replace (Z.to_nat (j - k)) with (S (Z.to_nat (j - (k + 1)))) by lia. }
  destruct (bytes_equal_spec (Address w) a) as [<-|Hne].
  - rewrite int32_id by int_lia. split; [intros [= <- <-]; by rewrite Z.sub_diag|].
    intros [Hz Ha]. destruct (decide (i = k)) as [->|Hik].
    + rewrite Z.sub_diag in Hz. by injection Hz as ->.
    + rewrite Hsucc in Hz by done. apply zlookup_Some in Hz as [_ Hz%list_elem_of_lookup_2].
      exfalso. apply Hw. rewrite <- Ha. by apply list_elem_of_fmap_2.
  - rewrite IH by (done || unfold len; lia). destruct (decide (i = k)) as [->|Hik]; [|by rewrite Hsucc].
    rewrite Z.sub_diag. split.
    + intros [Hz _]. apply zlookup_Some in Hz as [Hz _]. lia.
    + intros [[= ->] Ha]. done.
Qed.

(** Lookup by address and by index agree: an address is found at the
    index under which it is stored, and is reported missing exactly when it is not in
    the set. *)
Theorem validator_lookup vals a i v :
  reachable vals -> len (Validators vals) <= MaxInt32 ->
  (GetByAddress vals a = (i, Some v) <-> GetByIndex vals i = Some (a, v)) /\
  (HasAddress vals a = true <-> exists i v, GetByAddress vals a = (i, Some v)) /\
  (HasAddress vals a = false -> GetByAddress vals a = (-1, None)) /\
  (is_Some (GetByIndex vals i) <-> 0 <= i < Size vals).
Proof.
  intros Hr Hl. apply reachable_invariant in Hr as Hwf. pose proof (wf_distinct _ Hwf) as Hd.
  assert (Hidx : GetByIndex vals i = match zlookup (Validators vals) i with Some v => Some (Address v, v) | None => None end).
  { unfold GetByIndex. rewrite Z.geb_leb. destruct (zlookup (Validators vals) i) eqn:Hz.
    - apply zlookup_Some in Hz as [Hz _]. destruct (Z.ltb_spec i 0), (Z.leb_spec (len (Validators vals)) i); try lia. done.
    - by destruct (_ || _). }
  assert (Hnone : forall k, snd (get_by_address k (Validators vals) a) = None -> get_by_address k (Validators vals) a = (-1, None)).
  { clear. induction (Validators vals) as [|w l IH]; intros k; [done|]. cbn [get_by_address].
    destruct (bytes_equal _ _); [done|]. apply IH. }
  split; [|split; [|split]].
  - unfold GetByAddress. rewrite get_by_address_index, Z.sub_0_r, Hidx by (done || lia).
    destruct (zlookup (Validators vals) i); naive_solver.
  - rewrite HasAddress_spec. unfold GetByAddress. split.
    + intros Hin. destruct (get_by_address 0 (Validators vals) a) as [j [w|]] eqn:Hg; [by exists j, w|].
      by apply (f_equal snd), get_by_address_None in Hg.
    + intros (j & w & Hg). apply (f_equal snd), get_by_address_snd in Hg as [Hw <-]; [|done]. by apply list_elem_of_fmap_2.
  - intros Hf. apply Hnone, get_by_address_None. intros Hin%HasAddress_spec. congruence.
  - rewrite Hidx. unfold Size. destruct (zlookup (Validators vals) i) eqn:Hz.
    + apply zlookup_Some in Hz as [Hz _]. split; [done|by eexists].
    + apply zlookup_None in Hz. split; [by intros [? ?]|lia].
Qed.

(** ** The hash *)

(** The sizes [PubKeyFromProto] accepts. *)
Definition PubKeySize (t : KeyType) : Z := match t with Secp256k1 => 33 | _ => 32 end.
Definition key_ok (v : Validator) : Prop :=
  exists pk, PubKey_ v = Some pk /\ len (pk_Bytes pk) = PubKeySize (pk_Type pk) /\ is_int64 (VotingPower v).

Lemma len_field_len tag b : len (len_field tag b) <= len b + 11.
Proof.
  unfold len_field. pose proof (uvarint_length (len b)). unfold len in *. cbn [length]. rewrite length_app. lia.
Qed.

Lemma PubKey_Marshal_inj a b :
  len (pk_Bytes a) = PubKeySize (pk_Type a) -> len (pk_Bytes b) = PubKeySize (pk_Type b) ->
  PubKey_Marshal a = PubKey_Marshal b -> a = b.
Proof.
  destruct a as [ta ba], b as [tb bb]. unfold PubKey_Marshal. simpl. intros Ha Hb Heq.
  assert (ta = tb) as -> by (destruct ta, tb; done).
  apply (f_equal (fun l => l ++ [])) in Heq. apply len_field_inj in Heq as [-> _]; [done|..];
    [rewrite Ha|rewrite Hb]; by destruct tb.
Qed.

Lemma Validator_Bytes_inj v w b :
  key_ok v -> key_ok w -> Validator_Bytes v = Val b -> Validator_Bytes w = Val b ->
  PubKey_ v = PubKey_ w /\ VotingPower v = VotingPower w.
Proof.
  intros (pv & Hv & Hsv & Hpv) (pw & Hw & Hsw & Hpw). unfold Validator_Bytes. rewrite Hv, Hw.
  intros Hbv Hbw.
  assert (Heq : len_field x0a (PubKey_Marshal pv) ++ varint_field x10 (VotingPower v) =
    len_field x0a (PubKey_Marshal pw) ++ varint_field x10 (VotingPower w)) by congruence. clear Hbv Hbw.
  assert (Hlen : forall pk, len (pk_Bytes pk) = PubKeySize (pk_Type pk) -> is_uint64 (len (PubKey_Marshal pk))).
  { intros pk Hpk. unfold PubKey_Marshal. pose proof (len_field_len (key_tag (pk_Type pk)) (pk_Bytes pk)) as Hl.
    assert (PubKeySize (pk_Type pk) <= 33) by (by destruct (pk_Type pk)).
    assert (0 <= len (len_field (key_tag (pk_Type pk)) (pk_Bytes pk))) by (unfold len; lia). int_lia. }
  apply len_field_inj in Heq as [Hk Hp]; [|by apply Hlen..].
  apply varint_field_inj in Hp; [|done..]. by rewrite (PubKey_Marshal_inj _ _ Hsv Hsw Hk).
Qed.

Lemma validators_bytes_inj l l' bs :
  Forall key_ok l -> Forall key_ok l' -> validators_bytes l = Val bs -> validators_bytes l' = Val bs ->
  (fun v => (PubKey_ v, VotingPower v)) <$> l = (fun v => (PubKey_ v, VotingPower v)) <$> l'.
Proof.
  intros Hl. revert l' bs. induction Hl as [|v l Hv Hl IH]; intros l' bs Hl' Hb Hb'.
  - destruct l'; [done|]. simpl in Hb'. injection Hb as <-. by inv_val.
  - destruct l' as [|w l']; [injection Hb' as <-; simpl in Hb; by inv_val|].
    apply Forall_cons in Hl' as [Hw Hl']. cbn [validators_bytes] in *. inv_val. simplify_eq.
    destruct (Validator_Bytes_inj v w _ Hv Hw ltac:(eassumption) ltac:(eassumption)) as [Hkey Hpow].
    rewrite !fmap_cons, Hkey, Hpow. f_equal. by eapply IH.
Qed.

Lemma ValidatorSet_Hash_binding `{!Sha256} a b h :
  Forall key_ok (Validators a) -> Forall key_ok (Validators b) ->
  len (Validators a) <= MaxInt64 -> len (Validators b) <= MaxInt64 ->
  ValidatorSet_Hash a = Val h -> ValidatorSet_Hash b = Val h ->
  (fun v => (PubKey_ v, VotingPower v)) <$> Validators a = (fun v => (PubKey_ v, VotingPower v)) <$> Validators b \/
  exists xs ys, validators_bytes (Validators a) = Val xs /\ validators_bytes (Validators b) = Val ys /\
    hash_collision (items_inputs xs) (items_inputs ys).
Proof.
  intros Ha Hb Hla Hlb. unfold ValidatorSet_Hash. intros (xs & Hx & Hhx)%bind_val (ys & Hy & Hhy)%bind_val.
  assert (Hlen : forall l bs, validators_bytes l = Val bs -> length bs = length l).
  { clear. induction l as [|v l IH]; intros bs Hbs; cbn [validators_bytes] in Hbs; inv_val; [done|].
    simpl. f_equal. by apply IH. }
  destruct (HashFromByteSlices_binding xs ys) as [->|Hc].
  - unfold len in *. by rewrite (Hlen _ _ Hx).
  - unfold len in *. by rewrite (Hlen _ _ Hy).
  - congruence.
  - left. by eapply validators_bytes_inj.
  - right. by exists xs, ys.
Qed.

(** Two validator sets with the same hash have the same keys and
    powers in the same order, unless the Merkle trees exhibit a SHA-256 collision. *)
Theorem validator_set_hash_binding `{!Sha256} a b h :
  Forall key_ok (Validators a) -> Forall key_ok (Validators b) ->
  len (Validators a) <= MaxInt64 -> len (Validators b) <= MaxInt64 ->
  ValidatorSet_Hash a = Val h -> ValidatorSet_Hash b = Val h ->
  (fun v => (PubKey_ v, VotingPower v)) <$> Validators a = (fun v => (PubKey_ v, VotingPower v)) <$> Validators b \/
  exists xs ys, validators_bytes (Validators a) = Val xs /\ validators_bytes (Validators b) = Val ys /\
    hash_collision (items_inputs xs) (items_inputs ys).
Proof. apply ValidatorSet_Hash_binding. Qed.

(** ** Concrete instances *)

Definition sample_key (b : byte) : PubKey := mkPubKey Ed25519 (replicate 32 b).
Definition sample_validator (b : byte) (power : Z) : Validator :=
  mkValidator (replicate 20 b) (Some (sample_key b)) power 0.
Definition sample_valz : list Validator :=
  [sample_validator x01 1; sample_validator x02 2; sample_validator x03 3].
Definition sample_set : ValidatorSet :=
  match NewValidatorSet sample_valz with Val v => v | _ => empty_set end.
Definition sample_changes : list Validator :=
  [sample_validator x04 10; sample_validator x01 0; sample_validator x02 7].

Lemma sample_reachable : reachable sample_set.
Proof. apply (reach_new sample_valz). vm_compute. reflexivity. Qed.

Lemma sample_nonempty : Validators sample_set <> [].
Proof. vm_compute. discriminate. Qed.

Lemma new_validator_set_spec_witness :
  exists vals i m, NewValidatorSet sample_valz = Val vals /\ Validators vals !! i = Some m /\ Proposer vals = Some m.
Proof.
  destruct (new_validator_set_spec sample_valz ltac:(discriminate)) as [H _].
  destruct H as (vals & i & m & H1 & _ & _ & H2 & H3).
  - apply (bool_decide_eq_true_1 (legal ∅ sample_valz false)). vm_compute. reflexivity.
  - exists vals, i, m. split; [exact H1|split; [exact H2|exact H3]].
Defined.

Lemma reachable_sets_sound_witness :
  exists vals', IncrementProposerPriority sample_set 100 = Val vals'.
Proof.
  destruct (reachable_sets_sound sample_set sample_reachable) as (_ & _ & H & _).
  destruct (H 100 sample_nonempty) as (v & Hv & _); [|exists v; exact Hv].
  vm_compute. reflexivity.
Defined.

Lemma validator_update_refines_witness :
  exists vals', UpdateWithChangeSet sample_set sample_changes = Val vals' /\
    powers (Validators vals') !! replicate 20 x04 = Some 10.
Proof.
  destruct (validator_update_refines sample_set sample_changes sample_reachable ltac:(discriminate)) as [H _].
  destruct H as (v & Hv & _ & Hp & _).
  - apply (bool_decide_eq_true_1 (legal (powers (Validators sample_set)) sample_changes true)).
    vm_compute. reflexivity.
  - exists v. split; [exact Hv|]. rewrite Hp. vm_compute. reflexivity.
Defined.

Lemma validator_lookup_witness :
  GetByIndex sample_set 0 = Some (replicate 20 x03, default (sample_validator x00 0) (Validators sample_set !! 0%nat)).
Proof.
  apply (validator_lookup sample_set (replicate 20 x03) 0); [exact sample_reachable|vm_compute; discriminate|].
  vm_compute. reflexivity.
Defined.

Definition key_okb (v : Validator) : bool :=
  match PubKey_ v with
  | Some pk => (len (pk_Bytes pk) =? PubKeySize (pk_Type pk)) && bool_decide (is_int64 (VotingPower v))
  | None => false
  end.
Lemma key_okb_spec l : forallb key_okb l = true -> Forall key_ok l.
Proof.
  intros H. apply Forall_forall. intros v Hv%list_elem_of_In. rewrite forallb_forall in H. specialize (H v Hv).
  unfold key_okb in H. destruct (PubKey_ v) as [pk|] eqn:Hpk; [|done]. apply andb_true_iff in H as [H1 H2].
  exists pk. split; [done|]. split; [by apply Z.eqb_eq|by apply bool_decide_eq_true in H2].
Qed.

Lemma validator_set_hash_binding_witness :
  let rotated := match IncrementProposerPriority sample_set 1 with Val v => v | _ => sample_set end in
  (fun v => (PubKey_ v, VotingPower v)) <$> Validators sample_set
    = (fun v => (PubKey_ v, VotingPower v)) <$> Validators rotated \/
  exists xs ys, validators_bytes (Validators sample_set) = Val xs /\ validators_bytes (Validators rotated) = Val ys /\
    @hash_collision toy_sha256 (@items_inputs toy_sha256 xs) (@items_inputs toy_sha256 ys).
Proof.
  intros rotated.
  apply (@validator_set_hash_binding toy_sha256 sample_set rotated
    (match @ValidatorSet_Hash toy_sha256 sample_set with Val h => h | _ => [] end)).
  - apply key_okb_spec. vm_compute. reflexivity.
  - apply key_okb_spec. vm_compute. reflexivity.
  - vm_compute. discriminate.
  - vm_compute. discriminate.
  - vm_compute. reflexivity.
  - vm_compute. reflexivity.
Defined.

Lemma sample_fits : fits sample_set.
Proof. left. vm_compute. discriminate. Qed.

Lemma proposer_selection_fair_witness :
  exists vals' ch, IncrementProposerPriority sample_set 60 = Val vals' /\ len ch = 60 /\
    -4 * total sample_set <= 60 * power_at (Validators sample_set) 0 - total sample_set * count 0 ch
      <= 3 * total sample_set + harmonic (total sample_set) 3.
Proof.
  destruct (proposer_selection_fair sample_set 60 (reachable_invariant _ sample_reachable) sample_nonempty
    ltac:(reflexivity) sample_fits) as (vals' & ch & H1 & H2 & _ & _ & _ & H3).
  exists vals', ch. split; [exact H1|]. split; [exact H2|]. apply (H3 0%nat). vm_compute. repeat constructor.
Defined.

Lemma proposer_never_clips_witness :
  exists vals', IncrementProposerPriority sample_set 1000 = Val vals' /\
    MinInt64 + total sample_set <= prio_at (Validators vals') 1 <= MaxInt64 - total sample_set.
Proof.
  destruct (proposer_never_clips sample_set 1000 (reachable_invariant _ sample_reachable) sample_nonempty
    ltac:(reflexivity) sample_fits) as (vals' & l0 & ch & H1 & _ & _ & _ & H2).
  exists vals'. split; [exact H1|]. apply (H2 1%nat). vm_compute. repeat constructor.
Defined.
