(* ===== verification/Types.v ===== *)
(** * types: block identifiers, votes, commits and proposals

    Models types/part_set.go (the header), types/block.go ([BlockID],
    [CommitSig], [Commit]), types/vote.go, types/proposal.go and
    types/canonical.go with the generated marshallers of
    proto/tendermint/types/canonical.pb.go, byte for byte.

    Times are nanoseconds since the zero time of Go's [time.Time]; their
    protobuf encoding is that of gogo/protobuf and is supplied by [TimeCodec].
    The nil slice and the empty slice are not distinguished: the code compares
    these fields with [bytes.Equal] and [len] only. *)
From Stdlib Require Import ZArith Lia Strings.Byte.
From stdpp Require Import base list strings.
From S2P Require Import Prelude.
From S2P Require Import Merkle.
From S2P Require Import BitArray.
From S2P Require Import Proto.
From S2P Require Import Validator.

(** [StdTimeMarshal] of gogo/protobuf: fails outside the years 1 to 9999; the
    encoding determines the time and is short. *)
Class TimeCodec := {
  StdTimeMarshal : Z -> option bytes;
  StdTimeMarshal_inj : forall t t' b, StdTimeMarshal t = Some b -> StdTimeMarshal t' = Some b -> t = t';
  StdTimeMarshal_len : forall t b, StdTimeMarshal t = Some b -> len b <= 32;
}.

Abbreviation Time := Z.
Definition zero_time : Time := 0.
Abbreviation ChainID := bytes.

Inductive TypeError :=
  | ErrHashSize | ErrPartSetHeaderHash (e : TypeError)
  | ErrNegativeHeight | ErrNegativeRound | ErrNegativePOLRound | ErrInvalidType
  | ErrBlockID (e : TypeError) | ErrBlockIDIncomplete
  | ErrAddressLen | ErrNegativeIndex | ErrSignatureMissing | ErrSignatureTooBig
  | ErrUnknownFlag | ErrAddressPresent | ErrTimePresent | ErrSignaturePresent
  | ErrCommitNilBlock | ErrNoSignatures | ErrCommitSig (idx : Z) (e : TypeError).

Definition MaxSignatureSize : Z := 64.

Definition ValidateHash (h : bytes) : outcome TypeError unit :=
  fail_if ((len h >? 0) && negb (len h =? 32)) ErrHashSize.

(** ** PartSetHeader and BlockID *)

Record PartSetHeader := mkPartSetHeader { psh_Total : Z; psh_Hash : bytes }.
Record BlockID := mkBlockID { bid_Hash : bytes; bid_PartSetHeader : PartSetHeader }.
#[export] Instance PartSetHeader_eq_dec : EqDecision PartSetHeader.
Proof. solve_decision. Defined.
#[export] Instance BlockID_eq_dec : EqDecision BlockID.
Proof. solve_decision. Defined.

Definition PartSetHeader_IsZero (psh : PartSetHeader) : bool :=
  (psh_Total psh =? 0) && (len (psh_Hash psh) =? 0).
Definition PartSetHeader_Equals (psh other : PartSetHeader) : bool :=
  (psh_Total psh =? psh_Total other) && bytes_equal (psh_Hash psh) (psh_Hash other).
Definition PartSetHeader_ValidateBasic (psh : PartSetHeader) : outcome TypeError unit :=
  wrap_err ErrPartSetHeaderHash (ValidateHash (psh_Hash psh)).

Definition BlockID_Equals (b other : BlockID) : bool :=
  bytes_equal (bid_Hash b) (bid_Hash other) &&
  PartSetHeader_Equals (bid_PartSetHeader b) (bid_PartSetHeader other).
Definition BlockID_ValidateBasic (b : BlockID) : outcome TypeError unit :=
  _ ← ValidateHash (bid_Hash b);
  PartSetHeader_ValidateBasic (bid_PartSetHeader b).
Definition BlockID_IsZero (b : BlockID) : bool :=
  (len (bid_Hash b) =? 0) && PartSetHeader_IsZero (bid_PartSetHeader b).
Definition BlockID_IsComplete (b : BlockID) : bool :=
  (len (bid_Hash b) =? 32) && (psh_Total (bid_PartSetHeader b) >? 0) &&
  (len (psh_Hash (bid_PartSetHeader b)) =? 32).
Definition nilBlockID : BlockID := mkBlockID [] (mkPartSetHeader 0 []).

Definition PartSetHeader_Marshal (psh : PartSetHeader) : bytes :=
  varint_field x08 (psh_Total psh) ++ bytes_field x12 (psh_Hash psh).
(** [fmt.Sprint] concatenates two strings without a space. *)
Definition BlockID_Key (b : BlockID) : bytes :=
  bid_Hash b ++ PartSetHeader_Marshal (bid_PartSetHeader b).

(** ** Votes *)

Definition PrevoteType : Z := 1.
Definition PrecommitType : Z := 2.
Definition ProposalType : Z := 32.
Definition IsVoteTypeValid (t : Z) : bool := (t =? PrevoteType) || (t =? PrecommitType).

Record Vote := mkVote {
  v_Type : Z;
  v_Height : Z;
  v_Round : Z;
  v_BlockID : BlockID;
  v_Timestamp : Time;
  v_ValidatorAddress : bytes;
  v_ValidatorIndex : Z;
  v_Signature : bytes
}.
#[export] Instance Vote_eq_dec : EqDecision Vote.
Proof. solve_decision. Defined.

Definition Vote_ValidateBasic (vote : Vote) : outcome TypeError unit :=
  _ ← fail_if (negb (IsVoteTypeValid (v_Type vote))) ErrInvalidType;
  _ ← fail_if (v_Height vote <? 0) ErrNegativeHeight;
  _ ← fail_if (v_Round vote <? 0) ErrNegativeRound;
  _ ← wrap_err ErrBlockID (BlockID_ValidateBasic (v_BlockID vote));
  _ ← fail_if (negb (BlockID_IsZero (v_BlockID vote)) && negb (BlockID_IsComplete (v_BlockID vote)))
        ErrBlockIDIncomplete;
  _ ← fail_if (negb (len (v_ValidatorAddress vote) =? AddressSize)) ErrAddressLen;
  _ ← fail_if (v_ValidatorIndex vote <? 0) ErrNegativeIndex;
  _ ← fail_if (len (v_Signature vote) =? 0) ErrSignatureMissing;
  _ ← fail_if (len (v_Signature vote) >? MaxSignatureSize) ErrSignatureTooBig;
  Val tt.

(** ** The bytes that are signed *)

(** Little-endian [PutUint64]. *)
Fixpoint le_bytes (n : nat) (z : Z) : bytes :=
  match n with O => [] | S n' => byte_of z :: le_bytes n' (Z.shiftr z 8) end.
Definition fixed64_field (tag : byte) (z : Z) : bytes :=
  if z =? 0 then [] else tag :: le_bytes 8 (uint64 z).

Record CanonicalVote := mkCanonicalVote {
  cv_Type : Z; cv_Height : Z; cv_Round : Z; cv_BlockID : option BlockID; cv_Timestamp : Time; cv_ChainID : bytes
}.
#[export] Instance CanonicalVote_eq_dec : EqDecision CanonicalVote.
Proof. solve_decision. Defined.

Record CanonicalProposal := mkCanonicalProposal {
  cp_Type : Z; cp_Height : Z; cp_Round : Z; cp_POLRound : Z; cp_BlockID : option BlockID;
  cp_Timestamp : Time; cp_ChainID : bytes
}.
#[export] Instance CanonicalProposal_eq_dec : EqDecision CanonicalProposal.
Proof. solve_decision. Defined.

(** Panics on a block ID that does not pass [ValidateBasic]. *)
Definition CanonicalizeBlockID (bid : BlockID) : go (option BlockID) :=
  match BlockID_ValidateBasic bid with
  | Val _ => Val (if BlockID_IsZero bid then None else Some bid)
  | _ => Panic "wrong BlockID"
  end.

Definition CanonicalizeVote (chainID : ChainID) (vote : Vote) : go CanonicalVote :=
  bid ← CanonicalizeBlockID (v_BlockID vote);
  Val (mkCanonicalVote (v_Type vote) (v_Height vote) (v_Round vote) bid (v_Timestamp vote) chainID).

Definition CanonicalBlockID_Marshal (bid : BlockID) : bytes :=
  bytes_field x0a (bid_Hash bid) ++ len_field x12 (PartSetHeader_Marshal (bid_PartSetHeader bid)).

Definition opt_field (tag : byte) (b : option bytes) : bytes :=
  match b with None => [] | Some b => len_field tag b end.

Definition CanonicalVote_Marshal `{!TimeCodec} (v : CanonicalVote) : go bytes :=
  match StdTimeMarshal (cv_Timestamp v) with
  | None => Panic "timestamp out of range"
  | Some t =>
      Val (varint_field x08 (cv_Type v) ++ fixed64_field x11 (cv_Height v) ++ fixed64_field x19 (cv_Round v) ++
           opt_field x22 (option_map CanonicalBlockID_Marshal (cv_BlockID v)) ++ len_field x2a t ++
           bytes_field x32 (cv_ChainID v))
  end.

Definition CanonicalProposal_Marshal `{!TimeCodec} (p : CanonicalProposal) : go bytes :=
  match StdTimeMarshal (cp_Timestamp p) with
  | None => Panic "timestamp out of range"
  | Some t =>
      Val (varint_field x08 (cp_Type p) ++ fixed64_field x11 (cp_Height p) ++ fixed64_field x19 (cp_Round p) ++
           varint_field x20 (cp_POLRound p) ++
           opt_field x2a (option_map CanonicalBlockID_Marshal (cp_BlockID p)) ++ len_field x32 t ++
           bytes_field x3a (cp_ChainID p))
  end.

(** [protoio.MarshalDelimited]: the message with its length in front. *)
Definition MarshalDelimited (msg : bytes) : bytes := uvarint (len msg) ++ msg.

Definition VoteSignBytes `{!TimeCodec} (chainID : ChainID) (vote : Vote) : go bytes :=
  pb ← CanonicalizeVote chainID vote;
  bz ← CanonicalVote_Marshal pb;
  Val (MarshalDelimited bz).

Inductive VoteVerifyError := ErrVoteInvalidValidatorAddress | ErrVoteInvalidSignature.

Definition Vote_Verify `{!Crypto, !TimeCodec} (vote : Vote) (chainID : ChainID) (pubKey : PubKey)
    : outcome VoteVerifyError unit :=
  _ ← fail_if (negb (bytes_equal (pk_Address pubKey) (v_ValidatorAddress vote))) ErrVoteInvalidValidatorAddress;
  bz ← lift (VoteSignBytes chainID vote);
  fail_if (negb (VerifySignature pubKey bz (v_Signature vote))) ErrVoteInvalidSignature.

(** ** Commits *)

Inductive BlockIDFlag := BlockIDFlagAbsent | BlockIDFlagCommit | BlockIDFlagNil | BlockIDFlagUnknown (b : Z).
#[export] Instance BlockIDFlag_eq_dec : EqDecision BlockIDFlag.
Proof. solve_decision. Defined.

Record CommitSig := mkCommitSig {
  cs_BlockIDFlag : BlockIDFlag;
  cs_ValidatorAddress : bytes;
  cs_Timestamp : Time;
  cs_Signature : bytes
}.
#[export] Instance CommitSig_eq_dec : EqDecision CommitSig.
Proof. solve_decision. Defined.

Definition NewCommitSigForBlock (signature valAddr : bytes) (ts : Time) : CommitSig :=
  mkCommitSig BlockIDFlagCommit valAddr ts signature.
Definition NewCommitSigAbsent : CommitSig := mkCommitSig BlockIDFlagAbsent [] zero_time [].
Definition ForBlock (cs : CommitSig) : bool := bool_decide (cs_BlockIDFlag cs = BlockIDFlagCommit).
Definition Absent (cs : CommitSig) : bool := bool_decide (cs_BlockIDFlag cs = BlockIDFlagAbsent).

(** [CommitSig.BlockID]. *)
Definition CommitSig_BlockID (cs : CommitSig) (commitBlockID : BlockID) : go BlockID :=
  match cs_BlockIDFlag cs with
  | BlockIDFlagAbsent => Val nilBlockID
  | BlockIDFlagCommit => Val commitBlockID
  | BlockIDFlagNil => Val nilBlockID
  | BlockIDFlagUnknown _ => Panic "Unknown BlockIDFlag"
  end.

Definition CommitSig_ValidateBasic (cs : CommitSig) : outcome TypeError unit :=
  match cs_BlockIDFlag cs with
  | BlockIDFlagUnknown _ => Fail ErrUnknownFlag
  | BlockIDFlagAbsent =>
      _ ← fail_if (negb (len (cs_ValidatorAddress cs) =? 0)) ErrAddressPresent;
      _ ← fail_if (negb (cs_Timestamp cs =? zero_time)) ErrTimePresent;
      fail_if (negb (len (cs_Signature cs) =? 0)) ErrSignaturePresent
  | _ =>
      _ ← fail_if (negb (len (cs_ValidatorAddress cs) =? AddressSize)) ErrAddressLen;
      _ ← fail_if (len (cs_Signature cs) =? 0) ErrSignatureMissing;
      fail_if (len (cs_Signature cs) >? MaxSignatureSize) ErrSignatureTooBig
  end.

(** [Vote.CommitSig] on a vote that may be nil. *)
Definition Vote_CommitSig (vote : option Vote) : go CommitSig :=
  match vote with
  | None => Val NewCommitSigAbsent
  | Some v =>
      flag ← (if BlockID_IsComplete (v_BlockID v) then Val BlockIDFlagCommit
              else if BlockID_IsZero (v_BlockID v) then Val BlockIDFlagNil
              else Panic "Invalid vote - expected BlockID to be either empty or complete");
      Val (mkCommitSig flag (v_ValidatorAddress v) (v_Timestamp v) (v_Signature v))
  end.

Record Commit := mkCommit { c_Height : Z; c_Round : Z; c_BlockID : BlockID; c_Signatures : list CommitSig }.
#[export] Instance Commit_eq_dec : EqDecision Commit.
Proof. solve_decision. Defined.

Definition Commit_GetVote (commit : Commit) (valIdx : Z) : go Vote :=
  cs ← slice_get (c_Signatures commit) valIdx;
  bid ← CommitSig_BlockID cs (c_BlockID commit);
  Val (mkVote PrecommitType (c_Height commit) (c_Round commit) bid (cs_Timestamp cs)
         (cs_ValidatorAddress cs) valIdx (cs_Signature cs)).

Definition Commit_VoteSignBytes `{!TimeCodec} (chainID : ChainID) (commit : Commit) (valIdx : Z) : go bytes :=
  v ← Commit_GetVote commit valIdx;
  VoteSignBytes chainID v.

Definition Commit_Size (commit : option Commit) : Z :=
  match commit with None => 0 | Some c => len (c_Signatures c) end.
Definition Commit_IsCommit (commit : Commit) : bool := negb (len (c_Signatures commit) =? 0).

(** [Commit.BitArray] (the result is memoized by the source). *)
Fixpoint commit_bits (i : Z) (sigs : list CommitSig) (bA : option BitArray.BitArray)
    : go (option BitArray.BitArray) :=
  match sigs with
  | [] => Val bA
  | cs :: rest => '(bA, _) ← BitArray.SetIndex bA i (negb (Absent cs)); commit_bits (i + 1) rest bA
  end.
Definition Commit_BitArray (commit : Commit) : go (option BitArray.BitArray) :=
  commit_bits 0 (c_Signatures commit) (BitArray.NewBitArray (len (c_Signatures commit))).

Fixpoint validate_sigs (i : Z) (sigs : list CommitSig) : outcome TypeError unit :=
  match sigs with
  | [] => Val tt
  | cs :: rest => _ ← wrap_err (ErrCommitSig i) (CommitSig_ValidateBasic cs); validate_sigs (i + 1) rest
  end.

Definition Commit_ValidateBasic (commit : Commit) : outcome TypeError unit :=
  _ ← fail_if (c_Height commit <? 0) ErrNegativeHeight;
  _ ← fail_if (c_Round commit <? 0) ErrNegativeRound;
  if c_Height commit >=? 1 then
    _ ← fail_if (BlockID_IsZero (c_BlockID commit)) ErrCommitNilBlock;
    _ ← fail_if (len (c_Signatures commit) =? 0) ErrNoSignatures;
    validate_sigs 0 (c_Signatures commit)
  else Val tt.

(** ** Proposals *)

Record Proposal := mkProposal {
  p_Type : Z;
  p_Height : Z;
  p_Round : Z;
  p_POLRound : Z;
  p_BlockID : BlockID;
  p_Timestamp : Time;
  p_Signature : bytes
}.

Definition Proposal_ValidateBasic (p : Proposal) : outcome TypeError unit :=
  _ ← fail_if (negb (p_Type p =? ProposalType)) ErrInvalidType;
  _ ← fail_if (p_Height p <? 0) ErrNegativeHeight;
  _ ← fail_if (p_Round p <? 0) ErrNegativeRound;
  _ ← fail_if (p_POLRound p <? -1) ErrNegativePOLRound;
  _ ← wrap_err ErrBlockID (BlockID_ValidateBasic (p_BlockID p));
  _ ← fail_if (negb (BlockID_IsComplete (p_BlockID p))) ErrBlockIDIncomplete;
  _ ← fail_if (len (p_Signature p) =? 0) ErrSignatureMissing;
  _ ← fail_if (len (p_Signature p) >? MaxSignatureSize) ErrSignatureTooBig;
  Val tt.

Definition CanonicalizeProposal (chainID : ChainID) (p : Proposal) : go CanonicalProposal :=
  bid ← CanonicalizeBlockID (p_BlockID p);
  Val (mkCanonicalProposal ProposalType (p_Height p) (p_Round p) (p_POLRound p) bid (p_Timestamp p) chainID).

Definition ProposalSignBytes `{!TimeCodec} (chainID : ChainID) (p : Proposal) : go bytes :=
  pb ← CanonicalizeProposal chainID p;
  bz ← CanonicalProposal_Marshal pb;
  Val (MarshalDelimited bz).
