(* ===== verification/SignBytesProofs.v ===== *)
(** * types/canonical.go: signed bytes determine what is signed

    The canonical encodings of votes and proposals are injective and do not
    overlap, and the key under which vote sets index a block ID is injective
    on the block IDs a valid vote may carry. *)
From Stdlib Require Import ZArith Lia Strings.Byte.
From stdpp Require Import base list.
From S2P Require Import Prelude.
From S2P Require Import Proto.
From S2P Require Import Validator.
From S2P Require Import Types.

(** ** Self-delimiting fields *)

Definition starts (tag : byte) (r : bytes) : Prop := head r = Some tag.

(** A field encoder can be read back when what follows has another tag. *)
Definition readable {A} (dom : A -> Prop) (tag : byte) (F : A -> bytes) : Prop :=
  forall a b r s, dom a -> dom b -> ~ starts tag r -> ~ starts tag s -> F a ++ r = F b ++ s -> a = b /\ r = s.

(** A field that is left out for one value and starts with its tag otherwise. *)
Lemma readable_optional {A} (dom : A -> Prop) tag (F : A -> bytes) :
  (forall a, F a = [] \/ starts tag (F a)) ->
  (forall a b, dom a -> dom b -> F a = [] -> F b = [] -> a = b) ->
  (forall a b r s, dom a -> dom b -> F a <> [] -> F b <> [] -> F a ++ r = F b ++ s -> a = b /\ r = s) ->
  readable dom tag F.
Proof.
  intros Hstart Hnil Hinj a b r s Ha Hb Hr Hs Heq.
  assert (Hhead : forall x y, starts tag x -> starts tag (x ++ y)) by (intros [|] ? Hx; done).
  destruct (Hstart a) as [Ea|Ea], (Hstart b) as [Eb|Eb].
  - rewrite Ea, Eb in Heq. split; [by apply Hnil|done].
  - exfalso. apply Hr. rewrite Ea in Heq. simpl in Heq. rewrite Heq. by apply Hhead.
  - exfalso. apply Hs. rewrite Eb in Heq. simpl in Heq. rewrite <- Heq. by apply Hhead.
  - apply Hinj; [done..| | |done]; [intros H; by rewrite H in Ea|intros H; by rewrite H in Eb].
Qed.

Lemma varint_field_readable tag : readable is_int64 tag (varint_field tag).
Proof.
  apply readable_optional; unfold varint_field.
  - intros a. destruct (a =? 0); [by left|by right].
  - intros a b _ _. by destruct (Z.eqb_spec a 0), (Z.eqb_spec b 0); subst.
  - intros a b r s Ha Hb. destruct (a =? 0), (b =? 0); try done. intros _ _ [= H].
    apply uvarint_inj in H as [H ->]; [|apply uint64_range..]. split; [by apply uint64_inj|done].
Qed.

Lemma le_bytes_inj n a b r s :
  0 <= a < 2 ^ (8 * Z.of_nat n) -> 0 <= b < 2 ^ (8 * Z.of_nat n) ->
  le_bytes n a ++ r = le_bytes n b ++ s -> a = b /\ r = s.
Proof.
  revert a b. induction n as [|n IH]; intros a b Ha Hb; [change (2 ^ _) with 1 in *; intros; split; [lia|done]|].
  replace (8 * Z.of_nat (S n)) with (8 * Z.of_nat n + 8) in * by lia. set (m := 8 * Z.of_nat n) in *.
  rewrite Z.pow_add_r in Ha, Hb by lia. change (2 ^ 8) with 256 in *.
  cbn [le_bytes]. rewrite !Z.shiftr_div_pow2 by lia. change (2 ^ 8) with 256. intros Heq.
  assert (Hbyte : byte_of a = byte_of b) by (simpl in Heq; congruence).
  assert (Hrest : le_bytes n (a / 256) ++ r = le_bytes n (b / 256) ++ s) by (simpl in Heq; congruence).
  apply IH in Hrest as [Hq ->]; [|split; [apply Z.div_pos|apply Z.div_lt_upper_bound]; lia..].
  split; [|done]. pose proof (Z.mod_pos_bound a 256). pose proof (Z.mod_pos_bound b 256).
  assert (a mod 256 = b mod 256).
  { apply byte_of_inj; [lia..|]. unfold byte_of in *. by rewrite !Z.mod_mod by lia. }
  pose proof (Z.div_mod a 256). pose proof (Z.div_mod b 256). lia.
Qed.

Lemma fixed64_field_readable tag : readable is_int64 tag (fixed64_field tag).
Proof.
  apply readable_optional; unfold fixed64_field.
  - intros a. destruct (a =? 0); [by left|by right].
  - intros a b _ _. by destruct (Z.eqb_spec a 0), (Z.eqb_spec b 0); subst.
  - intros a b r s Ha Hb. destruct (a =? 0), (b =? 0); try done. intros _ _ Heq.
    assert (H : le_bytes 8 (uint64 a) ++ r = le_bytes 8 (uint64 b) ++ s) by (cbn [app] in Heq; congruence).
    pose proof (uint64_range a). pose proof (uint64_range b).
    apply le_bytes_inj in H as [H ->]; [|change (8 * Z.of_nat 8) with 64; int_lia..].
    split; [by apply uint64_inj|done].
Qed.

Definition fits64 (b : bytes) : Prop := is_uint64 (len b).

Lemma bytes_field_readable tag : readable fits64 tag (bytes_field tag).
Proof.
  apply readable_optional; unfold bytes_field.
  - intros a. destruct (_ >? _); [by right|by left].
  - intros a b _ _. rewrite !Z.gtb_ltb. unfold len.
    destruct (Z.ltb_spec 0 (Z.of_nat (length a))), (Z.ltb_spec 0 (Z.of_nat (length b))); try done. intros _ _.
    by destruct a, b; simpl in *; try lia.
  - intros a b r s Ha Hb. destruct (len a >? 0), (len b >? 0); try done. intros _ _. by apply len_field_inj.
Qed.

Lemma opt_field_readable tag : readable (fun o => from_option fits64 True o) tag (opt_field tag).
Proof.
  apply readable_optional; unfold opt_field.
  - intros [a|]; [by right|by left].
  - by intros [a|] [b|].
  - intros [a|] [b|] r s Ha Hb; try done. intros _ _ [-> ->]%len_field_inj; done.
Qed.

(** The tag of the next field when fields are left out. *)
Lemma not_starts_app tag f r : ~ starts tag f -> ~ starts tag r -> ~ starts tag (f ++ r).
Proof. destruct f; [by intros _|done]. Qed.
Lemma not_starts_varint tag t z : tag <> t -> ~ starts tag (varint_field t z).
Proof. unfold varint_field, starts. destruct (_ =? _); simpl; congruence. Qed.
Lemma not_starts_fixed64 tag t z : tag <> t -> ~ starts tag (fixed64_field t z).
Proof. unfold fixed64_field, starts. destruct (_ =? _); simpl; congruence. Qed.
Lemma not_starts_bytes tag t b : tag <> t -> ~ starts tag (bytes_field t b).
Proof. unfold bytes_field, starts, len_field. destruct (_ >? _); simpl; congruence. Qed.
Lemma not_starts_opt tag t b : tag <> t -> ~ starts tag (opt_field t b).
Proof. unfold opt_field, starts, len_field. destruct b; simpl; congruence. Qed.
Lemma not_starts_len tag t b : tag <> t -> ~ starts tag (len_field t b).
Proof. unfold len_field, starts. simpl. congruence. Qed.

Ltac no_tag := repeat first [apply not_starts_app | apply not_starts_varint | apply not_starts_fixed64
  | apply not_starts_bytes | apply not_starts_opt | apply not_starts_len]; try discriminate.

(** ** Block IDs *)

Definition blockid_sized (b : BlockID) : Prop :=
  len (bid_Hash b) <= 32 /\ len (psh_Hash (bid_PartSetHeader b)) <= 32 /\ is_uint32 (psh_Total (bid_PartSetHeader b)).

Lemma BlockID_ValidateBasic_sized b :
  is_uint32 (psh_Total (bid_PartSetHeader b)) -> BlockID_ValidateBasic b = Val tt -> blockid_sized b.
Proof.
  unfold BlockID_ValidateBasic, PartSetHeader_ValidateBasic, ValidateHash. intros Ht Hv. inv_val.
  assert (Hlen : forall h : bytes, (len h >? 0) && negb (len h =? 32) = false -> len h <= 32).
  { intros h Hh. rewrite Z.gtb_ltb in Hh. destruct (Z.ltb_spec 0 (len h)); [|lia].
    simpl in Hh. apply negb_false_iff, Z.eqb_eq in Hh. lia. }
  split; [auto|]. auto.
Qed.

Lemma small_fits64 (b : bytes) n : len b <= n -> n <= 2 ^ 32 -> fits64 b.
Proof. intros Hb Hn. unfold fits64. pose proof (Zle_0_nat (length b)). fold (len b) in *. int_lia. Qed.

Lemma PartSetHeader_Marshal_len psh : len (PartSetHeader_Marshal psh) <= len (psh_Hash psh) + 22.
Proof.
  unfold PartSetHeader_Marshal, varint_field, bytes_field, len_field.
  pose proof (uvarint_length (uint64 (psh_Total psh))). pose proof (uvarint_length (len (psh_Hash psh))).
  unfold len in *. rewrite length_app.
  destruct (psh_Total psh =? 0), (Z.of_nat (length (psh_Hash psh)) >? 0); cbn [length app]; rewrite ?length_app; lia.
Qed.

Lemma PartSetHeader_Marshal_inj a b :
  len (psh_Hash a) <= 32 -> len (psh_Hash b) <= 32 -> is_uint32 (psh_Total a) -> is_uint32 (psh_Total b) ->
  PartSetHeader_Marshal a = PartSetHeader_Marshal b -> a = b.
Proof.
  intros Ha Hb Hta Htb Heq. unfold PartSetHeader_Marshal in Heq. destruct a as [ta ha], b as [tb hb]. simpl in *.
  apply varint_field_readable in Heq as [-> Heq]; [|int_lia..|no_tag|no_tag].
  apply (f_equal (fun l => l ++ [])) in Heq.
  apply bytes_field_readable in Heq as [-> _]; [done|by eapply small_fits64..| |]; by unfold starts.
Qed.

Lemma CanonicalBlockID_Marshal_inj a b :
  blockid_sized a -> blockid_sized b -> CanonicalBlockID_Marshal a = CanonicalBlockID_Marshal b -> a = b.
Proof.
  intros (Ha & Hpa & Hta) (Hb & Hpb & Htb) Heq. unfold CanonicalBlockID_Marshal in Heq.
  destruct a as [ha pa], b as [hb pb]. simpl in *.
  apply bytes_field_readable in Heq as [-> Heq]; [|by eapply small_fits64..|no_tag|no_tag].
  apply (f_equal (fun l => l ++ [])) in Heq.
  pose proof (PartSetHeader_Marshal_len pa). pose proof (PartSetHeader_Marshal_len pb).
  apply len_field_inj in Heq as [Heq _]; [|apply (small_fits64 _ 54); lia..].
  by rewrite (PartSetHeader_Marshal_inj pa pb).
Qed.

Lemma CanonicalBlockID_Marshal_len b : blockid_sized b -> len (CanonicalBlockID_Marshal b) <= 200.
Proof.
  intros (Ha & Hp & Ht). unfold CanonicalBlockID_Marshal, bytes_field, len_field.
  pose proof (PartSetHeader_Marshal_len (bid_PartSetHeader b)).
  pose proof (uvarint_length (len (bid_Hash b))). pose proof (uvarint_length (len (PartSetHeader_Marshal (bid_PartSetHeader b)))).
  unfold len in *. rewrite length_app. cbn [length]. rewrite length_app.
  destruct (_ >? _); cbn [length]; rewrite ?length_app; lia.
Qed.

(** ** Sign bytes *)

Section sign_bytes.
Context `{!TimeCodec}.

(** The widths of a vote's and a proposal's fields, and a chain ID of
    reasonable length (the source limits it to 50 bytes). *)
Definition vote_sized (c : ChainID) (v : Vote) : Prop :=
  is_int32 (v_Type v) /\ is_int64 (v_Height v) /\ is_int32 (v_Round v) /\
  is_uint32 (psh_Total (bid_PartSetHeader (v_BlockID v))) /\ len c <= 2 ^ 16.
Definition proposal_sized (c : ChainID) (p : Proposal) : Prop :=
  is_int64 (p_Height p) /\ is_int32 (p_Round p) /\ is_int32 (p_POLRound p) /\
  is_uint32 (psh_Total (bid_PartSetHeader (p_BlockID p))) /\ len c <= 2 ^ 16.

Lemma MarshalDelimited_inj a b : fits64 a -> fits64 b -> MarshalDelimited a = MarshalDelimited b -> a = b.
Proof. intros Ha Hb Heq. unfold MarshalDelimited in Heq. by apply uvarint_inj in Heq as [_ ?]. Qed.

(** The encoded block ID of a vote or proposal: present unless it is zero. *)
Lemma CanonicalizeBlockID_val bid o :
  is_uint32 (psh_Total (bid_PartSetHeader bid)) -> CanonicalizeBlockID bid = Val o ->
  blockid_sized bid /\ o = (if BlockID_IsZero bid then None else Some bid).
Proof.
  intros Ht. unfold CanonicalizeBlockID. destruct (BlockID_ValidateBasic bid) as [[]| |] eqn:Hv; try done.
  intros [= <-]. split; [by apply BlockID_ValidateBasic_sized|done].
Qed.

Lemma BlockID_IsZero_eq a b :
  BlockID_IsZero a = true -> BlockID_IsZero b = true -> a = b.
Proof.
  destruct a as [ha [ta pa]], b as [hb [tb pb]]. unfold BlockID_IsZero, PartSetHeader_IsZero, len. simpl.
  intros Ha Hb. inv_val. z_bool. destruct ha, hb, pa, pb; simpl in *; try lia. congruence.
Qed.

Lemma block_field_inj tag a b r s :
  blockid_sized a -> blockid_sized b -> ~ starts tag r -> ~ starts tag s ->
  opt_field tag (option_map CanonicalBlockID_Marshal (if BlockID_IsZero a then None else Some a)) ++ r =
  opt_field tag (option_map CanonicalBlockID_Marshal (if BlockID_IsZero b then None else Some b)) ++ s ->
  a = b /\ r = s.
Proof.
  intros Ha Hb Hr Hs Heq. pose proof (CanonicalBlockID_Marshal_len a Ha). pose proof (CanonicalBlockID_Marshal_len b Hb).
  assert (Hdom : forall x, len (CanonicalBlockID_Marshal x) <= 200 ->
    from_option fits64 True (option_map CanonicalBlockID_Marshal (if BlockID_IsZero x then None else Some x))).
  { intros x Hx. destruct (BlockID_IsZero x); [exact I|by eapply small_fits64]. }
  apply opt_field_readable in Heq as [Ho ->]; [|by apply Hdom..|done|done].
  split; [|done]. destruct (BlockID_IsZero a) eqn:Za, (BlockID_IsZero b) eqn:Zb; try done.
  - by apply BlockID_IsZero_eq.
  - simpl in Ho. injection Ho as Ho. by apply CanonicalBlockID_Marshal_inj.
Qed.

(** Time and chain ID end both messages. *)
Lemma tail_inj ttime tchain t t' bt bt' c c' :
  ttime <> tchain -> StdTimeMarshal t = Some bt -> StdTimeMarshal t' = Some bt' -> len c <= 2 ^ 16 -> len c' <= 2 ^ 16 ->
  len_field ttime bt ++ bytes_field tchain c = len_field ttime bt' ++ bytes_field tchain c' -> t = t' /\ c = c'.
Proof.
  intros Htag Ht Ht' Hc Hc' Heq. pose proof (StdTimeMarshal_len _ _ Ht). pose proof (StdTimeMarshal_len _ _ Ht').
  apply len_field_inj in Heq as [-> Heq]; [|by eapply small_fits64..].
  split; [by eapply StdTimeMarshal_inj|]. apply (f_equal (fun l => l ++ [])) in Heq.
  apply bytes_field_readable in Heq as [-> _]; [done|apply (small_fits64 _ (2 ^ 16)); done..| |]; by unfold starts.
Qed.

(** The length of a message is far below the limits of the length prefix. *)
Lemma app_len_le (a b : bytes) n m : len a <= n -> len b <= m -> len (a ++ b) <= n + m.
Proof. unfold len. rewrite length_app. lia. Qed.
Lemma varint_field_len tag z : len (varint_field tag z) <= 11.
Proof.
  unfold varint_field. destruct (_ =? _); [by compute|]. pose proof (uvarint_length (uint64 z)). unfold len in *. simpl. lia.
Qed.
Lemma fixed64_field_len tag z : len (fixed64_field tag z) <= 9.
Proof. unfold fixed64_field. destruct (_ =? _); done. Qed.
Lemma bytes_field_len tag b : len (bytes_field tag b) <= len b + 11.
Proof.
  unfold bytes_field, len_field. pose proof (uvarint_length (len b)). unfold len in *.
  destruct (_ >? _); simpl; rewrite ?length_app; lia.
Qed.
Lemma len_field_le tag b n : len b <= n -> len (len_field tag b) <= n + 11.
Proof. intros. unfold len_field. pose proof (uvarint_length (len b)). unfold len in *. simpl. rewrite length_app. lia. Qed.
Lemma opt_block_len tag a : blockid_sized a ->
  len (opt_field tag (option_map CanonicalBlockID_Marshal (if BlockID_IsZero a then None else Some a))) <= 211.
Proof.
  intros Ha. destruct (BlockID_IsZero a); simpl; [by compute|]. by apply (len_field_le _ _ 200), CanonicalBlockID_Marshal_len.
Qed.

Lemma CanonicalVote_Marshal_len c v pb bz :
  vote_sized c v -> CanonicalizeVote c v = Val pb -> CanonicalVote_Marshal pb = Val bz -> len bz <= 2 ^ 17.
Proof.
  intros (_ & _ & _ & Ht & Hc) (o & Ho & Hpb)%bind_val Hm. injection Hpb as <-.
  apply CanonicalizeBlockID_val in Ho as [Hs ->]; [|done]. unfold CanonicalVote_Marshal in Hm. cbn [cv_Type cv_Height cv_Round cv_BlockID cv_Timestamp cv_ChainID] in Hm.
  destruct (StdTimeMarshal (v_Timestamp v)) as [t|] eqn:Htime; [|done]. apply Val_inj in Hm as <-.
  pose proof (StdTimeMarshal_len _ _ Htime). pose proof (bytes_field_len x32 c).
  transitivity (11 + (9 + (9 + (211 + (43 + (2 ^ 16 + 11)))))); [|done].
  do 5 (apply app_len_le; [first [apply varint_field_len | apply fixed64_field_len | by apply opt_block_len
    | by apply (len_field_le _ _ 32)]|]). lia.
Qed.

Lemma CanonicalProposal_Marshal_len c p pb bz :
  proposal_sized c p -> CanonicalizeProposal c p = Val pb -> CanonicalProposal_Marshal pb = Val bz -> len bz <= 2 ^ 17.
Proof.
  intros (_ & _ & _ & Ht & Hc) (o & Ho & Hpb)%bind_val Hm. injection Hpb as <-.
  apply CanonicalizeBlockID_val in Ho as [Hs ->]; [|done]. unfold CanonicalProposal_Marshal in Hm.
  cbn [cp_Type cp_Height cp_Round cp_POLRound cp_BlockID cp_Timestamp cp_ChainID] in Hm.
  destruct (StdTimeMarshal (p_Timestamp p)) as [t|] eqn:Htime; [|done]. apply Val_inj in Hm as <-.
  pose proof (StdTimeMarshal_len _ _ Htime). pose proof (bytes_field_len x3a c).
  transitivity (11 + (9 + (9 + (11 + (211 + (43 + (2 ^ 16 + 11))))))); [|done].
  do 6 (apply app_len_le; [first [apply varint_field_len | apply fixed64_field_len | by apply opt_block_len
    | by apply (len_field_le _ _ 32)]|]). lia.
Qed.

Lemma VoteSignBytes_inv c v b :
  VoteSignBytes c v = Val b -> vote_sized c v ->
  exists t, StdTimeMarshal (v_Timestamp v) = Some t /\ blockid_sized (v_BlockID v) /\
  let bz := varint_field x08 (v_Type v) ++ fixed64_field x11 (v_Height v) ++ fixed64_field x19 (v_Round v) ++
      opt_field x22 (option_map CanonicalBlockID_Marshal (if BlockID_IsZero (v_BlockID v) then None else Some (v_BlockID v))) ++
      len_field x2a t ++ bytes_field x32 c in b = MarshalDelimited bz /\ fits64 bz.
Proof.
  intros (pb & Hc & (bz & Hm & Hb)%bind_val)%bind_val Hs. injection Hb as <-.
  pose proof (small_fits64 _ _ (CanonicalVote_Marshal_len _ _ _ _ Hs Hc Hm) ltac:(done)) as Hfit.
  apply bind_val in Hc as (o & Ho & Hpb). injection Hpb as <-.
  apply CanonicalizeBlockID_val in Ho as [Hsz ->]; [|apply Hs].
  unfold CanonicalVote_Marshal in Hm. cbn [cv_Type cv_Height cv_Round cv_BlockID cv_Timestamp cv_ChainID] in Hm.
  destruct (StdTimeMarshal (v_Timestamp v)) as [t|] eqn:Ht; [|done]. apply Val_inj in Hm as <-. by exists t.
Qed.

Lemma ProposalSignBytes_inv c p b :
  ProposalSignBytes c p = Val b -> proposal_sized c p ->
  exists t, StdTimeMarshal (p_Timestamp p) = Some t /\ blockid_sized (p_BlockID p) /\
  let bz := varint_field x08 ProposalType ++ fixed64_field x11 (p_Height p) ++ fixed64_field x19 (p_Round p) ++
      varint_field x20 (p_POLRound p) ++
      opt_field x2a (option_map CanonicalBlockID_Marshal (if BlockID_IsZero (p_BlockID p) then None else Some (p_BlockID p))) ++
      len_field x32 t ++ bytes_field x3a c in b = MarshalDelimited bz /\ fits64 bz.
Proof.
  intros (pb & Hc & (bz & Hm & Hb)%bind_val)%bind_val Hs. injection Hb as <-.
  pose proof (small_fits64 _ _ (CanonicalProposal_Marshal_len _ _ _ _ Hs Hc Hm) ltac:(done)) as Hfit.
  apply bind_val in Hc as (o & Ho & Hpb). injection Hpb as <-.
  apply CanonicalizeBlockID_val in Ho as [Hsz ->]; [|apply Hs].
  unfold CanonicalProposal_Marshal in Hm.
  cbn [cp_Type cp_Height cp_Round cp_POLRound cp_BlockID cp_Timestamp cp_ChainID] in Hm.
  destruct (StdTimeMarshal (p_Timestamp p)) as [t|] eqn:Ht; [|done]. apply Val_inj in Hm as <-. by exists t.
Qed.

(** The bytes signed for a vote determine it. *)
Lemma VoteSignBytes_inj c c' b v v' :
  vote_sized c v -> vote_sized c' v' -> VoteSignBytes c v = Val b -> VoteSignBytes c' v' = Val b ->
  c = c' /\ v_Type v = v_Type v' /\ v_Height v = v_Height v' /\ v_Round v = v_Round v' /\
  v_BlockID v = v_BlockID v' /\ v_Timestamp v = v_Timestamp v'.
Proof.
  intros Hs Hs' Hv Hv'. destruct (VoteSignBytes_inv _ _ _ Hv Hs) as (t & Ht & Hz & Hb & Hf).
  destruct (VoteSignBytes_inv _ _ _ Hv' Hs') as (t' & Ht' & Hz' & Hb' & Hf'). subst b.
  apply MarshalDelimited_inj in Hb' as Heq; [|done..]. clear Hb' Hf Hf' Hv Hv'.
  destruct Hs as (Ha1 & Ha2 & Ha3 & _ & Ha4), Hs' as (Hb1 & Hb2 & Hb3 & _ & Hb4).
  apply varint_field_readable in Heq as [E1 Heq]; [|int_lia..|no_tag|no_tag].
  apply fixed64_field_readable in Heq as [E2 Heq]; [|int_lia..|no_tag|no_tag].
  apply fixed64_field_readable in Heq as [E3 Heq]; [|int_lia..|no_tag|no_tag].
  apply block_field_inj in Heq as [E4 Heq]; [|done..|no_tag|no_tag].
  by destruct (tail_inj x2a x32 _ _ _ _ _ _ ltac:(discriminate) Ht Ht' Ha4 Hb4 Heq).
Qed.

(** No vote has the sign bytes of a proposal. *)
Lemma vote_not_proposal c c' b v p :
  vote_sized c v -> proposal_sized c' p -> IsVoteTypeValid (v_Type v) = true ->
  VoteSignBytes c v = Val b -> ProposalSignBytes c' p <> Val b.
Proof.
  intros Hs Hs' Hvalid Hv Hp. destruct (VoteSignBytes_inv _ _ _ Hv Hs) as (t & Ht & Hz & Hb & Hf).
  destruct (ProposalSignBytes_inv _ _ _ Hp Hs') as (t' & Ht' & Hz' & Hb' & Hf'). subst b.
  apply MarshalDelimited_inj in Hb' as Heq; [|done..]. destruct Hs as (Ha1 & _).
  apply varint_field_readable in Heq as [E1 _]; [|int_lia|done|no_tag|no_tag].
  rewrite E1 in Hvalid. discriminate Hvalid.
Qed.

(** C36: a signature binds what was voted.  The bytes signed for a vote
    determine its chain, type, height, round, block ID and timestamp; the same
    holds for proposals; and no vote has the sign bytes of a proposal. *)
Theorem sign_bytes_binding c c' b :
  (forall v v', vote_sized c v -> vote_sized c' v' ->
     VoteSignBytes c v = Val b -> VoteSignBytes c' v' = Val b ->
     c = c' /\ v_Type v = v_Type v' /\ v_Height v = v_Height v' /\ v_Round v = v_Round v' /\
     v_BlockID v = v_BlockID v' /\ v_Timestamp v = v_Timestamp v') /\
  (forall p p', proposal_sized c p -> proposal_sized c' p' ->
     ProposalSignBytes c p = Val b -> ProposalSignBytes c' p' = Val b ->
     c = c' /\ p_Height p = p_Height p' /\ p_Round p = p_Round p' /\ p_POLRound p = p_POLRound p' /\
     p_BlockID p = p_BlockID p' /\ p_Timestamp p = p_Timestamp p') /\
  (forall v p, vote_sized c v -> proposal_sized c' p -> IsVoteTypeValid (v_Type v) = true ->
     VoteSignBytes c v = Val b -> ProposalSignBytes c' p <> Val b).
Proof.
  split; [|split].
  - intros v v'. apply VoteSignBytes_inj.
  - intros p p' Hs Hs' Hp Hp'. destruct (ProposalSignBytes_inv _ _ _ Hp Hs) as (t & Ht & Hz & Hb & Hf).
    destruct (ProposalSignBytes_inv _ _ _ Hp' Hs') as (t' & Ht' & Hz' & Hb' & Hf'). subst b.
    apply MarshalDelimited_inj in Hb' as Heq; [|done..]. clear Hb' Hf Hf' Hp Hp'.
    destruct Hs as (Ha1 & Ha2 & Ha3 & _ & Ha4), Hs' as (Hb1 & Hb2 & Hb3 & _ & Hb4).
    apply varint_field_readable in Heq as [_ Heq]; [|done..|no_tag|no_tag].
    apply fixed64_field_readable in Heq as [E2 Heq]; [|int_lia..|no_tag|no_tag].
    apply fixed64_field_readable in Heq as [E3 Heq]; [|int_lia..|no_tag|no_tag].
    apply varint_field_readable in Heq as [E4 Heq]; [|int_lia..|no_tag|no_tag].
    apply block_field_inj in Heq as [E5 Heq]; [|done..|no_tag|no_tag].
    by destruct (tail_inj x32 x3a _ _ _ _ _ _ ltac:(discriminate) Ht Ht' Ha4 Hb4 Heq).
  - intros v p. apply vote_not_proposal.
Qed.
End sign_bytes.

(** ** Keys of block IDs *)

(** The block IDs a vote that passes [ValidateBasic] may carry. *)
Definition votable (b : BlockID) : Prop :=
  (BlockID_IsZero b = true \/ BlockID_IsComplete b = true) /\ is_uint32 (psh_Total (bid_PartSetHeader b)).

Lemma BlockID_Equals_spec a b : BlockID_Equals a b = true <-> a = b.
Proof.
  destruct a as [ha [ta pa]], b as [hb [tb pb]]. unfold BlockID_Equals, PartSetHeader_Equals. simpl.
  rewrite !andb_true_iff, Z.eqb_eq. split; [|by intros [= -> -> ->]; rewrite !bytes_equal_refl].
  intros (H1 & -> & H2). destruct (bytes_equal_spec ha hb), (bytes_equal_spec pa pb); by subst.
Qed.

Lemma BlockID_Key_inj a b : votable a -> votable b -> BlockID_Key a = BlockID_Key b -> a = b.
Proof.
  assert (Hz : forall x, BlockID_IsZero x = true -> x = nilBlockID).
  { intros x Hx. by apply BlockID_IsZero_eq. }
  assert (Hne : forall x, BlockID_IsComplete x = true -> BlockID_Key x <> BlockID_Key nilBlockID).
  { intros [h p]. unfold BlockID_IsComplete, BlockID_Key, len. simpl. intros Hx Hk. inv_val. z_bool.
    by destruct h. }
  intros [Ha Hta] [Hb Htb] Hkey. destruct Ha as [Ha|Ha], Hb as [Hb|Hb].
  - by rewrite (Hz a), (Hz b).
  - exfalso. apply (Hne b Hb). by rewrite <- Hkey, (Hz a).
  - exfalso. apply (Hne a Ha). by rewrite Hkey, (Hz b).
  - destruct a as [ha pa], b as [hb pb]. unfold BlockID_IsComplete, BlockID_Key in *. simpl in *. inv_val. z_bool.
    apply app_inj_1 in Hkey as [-> Hp]; [|unfold len in *; lia].
    rewrite (PartSetHeader_Marshal_inj pa pb); [done|lia|lia|done..].
Qed.

(** ** A concrete time encoding, to evaluate the definitions *)

Definition toy_time_marshal (t : Z) : option bytes :=
  if bool_decide (is_uint64 t) then Some (uvarint t) else None.

Lemma toy_time_inj t t' b : toy_time_marshal t = Some b -> toy_time_marshal t' = Some b -> t = t'.
Proof.
  unfold toy_time_marshal. do 2 case_bool_decide; try done. intros [= <-] [= Heq].
  apply (f_equal (fun l => l ++ [])) in Heq. by apply uvarint_inj in Heq as [-> _].
Qed.
Lemma toy_time_len t b : toy_time_marshal t = Some b -> len b <= 32.
Proof.
  unfold toy_time_marshal. case_bool_decide; [|done]. intros [= <-]. pose proof (uvarint_length t). lia.
Qed.
Definition toy_time : TimeCodec :=
  {| StdTimeMarshal := toy_time_marshal; StdTimeMarshal_inj := toy_time_inj; StdTimeMarshal_len := toy_time_len |}.

Definition sample_blockid (b : byte) : BlockID := mkBlockID (replicate 32 b) (mkPartSetHeader 1 (replicate 32 b)).
Definition sample_vote (b : byte) : Vote :=
  mkVote PrecommitType 5 1 (sample_blockid b) 77 (replicate 20 x01) 0 [x01].

Lemma sign_bytes_binding_witness :
  @VoteSignBytes toy_time [x61] (sample_vote x07) <> @VoteSignBytes toy_time [x61] (sample_vote x08).
Proof.
  intros Heq.
  destruct (@VoteSignBytes toy_time [x61] (sample_vote x07)) as [b| |] eqn:Hb; [|vm_compute in Hb; discriminate..].
  destruct (@sign_bytes_binding toy_time [x61] [x61] b) as [H _].
  destruct (H (sample_vote x07) (sample_vote x08)) as (_ & _ & _ & _ & Hid & _).
  - vm_compute. repeat split; discriminate.
  - vm_compute. repeat split; discriminate.
  - exact Hb.
  - symmetry. exact Heq.
  - discriminate Hid.
Defined.
