(* ===== verification/Validation.v ===== *)
(** * types/validation.go: verification of commits

    [VerifyCommit], [VerifyCommitLight] and [VerifyCommitLightTrusting] with
    their single and batch verification loops.  The batch verifiers of
    crypto/ed25519 and crypto/sr25519 wrap a third-party implementation, which
    is supplied by [BatchCrypto]. *)
From Stdlib Require Import ZArith Lia Strings.Byte.
From stdpp Require Import base list strings gmap.
From S2P Require Import Prelude.
From S2P Require Import SafeMath.
From S2P Require Import Validator.
From S2P Require Import Types.

(** ** crypto/batch *)

(** An entry of a batch: key, message and signature. *)
Definition batch_entry : Type := PubKey * bytes * bytes.

(** [decodable pk sig]: the checks that [Add] makes on the bytes of the key and
    the signature; [BatchVerify]: the verdict on the batch and on each entry. *)
Class BatchCrypto := {
  decodable : PubKey -> bytes -> bool;
  BatchVerify : list batch_entry -> bool * list bool;
}.

(** What the batch verifiers document: the verdicts are those of verifying
    each signature, and the batch is valid when all are. *)
Class BatchLaws `{!Crypto, !BatchCrypto} : Prop := {
  batch_verdicts : forall es, (BatchVerify es).2 = (fun '(pk, msg, sig) => VerifySignature pk msg sig) <$> es;
  batch_all : forall es, (BatchVerify es).1 = forallb id (BatchVerify es).2;
}.

Definition SupportsBatchVerifier (pk : option PubKey) : go bool :=
  match pk with
  | None => Panic "invalid memory address or nil pointer dereference"
  | Some pk => Val (match pk_Type pk with Ed25519 | Sr25519 => true | Secp256k1 => false end)
  end.

(** ** Verification *)

Inductive CommitError :=
  | ErrNilValidatorSet | ErrNilCommit
  | ErrInvalidCommitSignatures (expected actual : Z)
  | ErrInvalidCommitHeight (expected actual : Z)
  | ErrWrongBlockID
  | ErrZeroDenominator | ErrTrustOverflow
  | ErrBatchUnsupported | ErrBatchAdd | ErrBatchBug
  | ErrDoubleVote (first second : Z)
  | ErrWrongSignature (idx : Z)
  | ErrNotEnoughVotingPowerSigned (got needed : Z).

Definition batchVerifyThreshold : Z := 2.

Definition shouldBatchVerify (vals : ValidatorSet) (commit : Commit) : go bool :=
  if len (c_Signatures commit) >=? batchVerifyThreshold then
    '(p, _) ← GetProposer vals;
    match p with
    | None => Panic "invalid memory address or nil pointer dereference"
    | Some p => SupportsBatchVerifier (PubKey_ p)
    end
  else Val false.

Section verify.
Context `{!Crypto, !BatchCrypto, !TimeCodec}.
Context (chainID : ChainID) (vals : ValidatorSet) (commit : Commit).
Context (votingPowerNeeded : Z) (ignoreSig countSig : CommitSig -> bool).
Context (countAllSignatures lookUpByIndex : bool).

(** The validator of a signature: by index, or by address with the check for
    double votes; [None] when the signature is to be skipped. *)
Definition lookup_signer (idx : Z) (cs : CommitSig) (seenVals : gmap Z Z)
    : outcome CommitError (option Validator * gmap Z Z) :=
  if lookUpByIndex then
    val ← slice_get (Validators vals) idx;
    Val (Some val, seenVals)
  else
    match GetByAddress vals (cs_ValidatorAddress cs) with
    | (_, None) => Val (None, seenVals)
    | (valIdx, Some val) =>
        match seenVals !! valIdx with
        | Some firstIndex => Fail (ErrDoubleVote firstIndex idx)
        | None => Val (Some val, <[valIdx := idx]> seenVals)
        end
    end.

Definition pubkey_of (val : Validator) : outcome CommitError PubKey :=
  match PubKey_ val with
  | Some pk => Val pk
  | None => Panic "invalid memory address or nil pointer dereference"
  end.

Fixpoint single_loop (idx : Z) (sigs : list CommitSig) (seenVals : gmap Z Z) (tallied : Z)
    : outcome CommitError unit :=
  match sigs with
  | [] =>
      if tallied <=? votingPowerNeeded then Fail (ErrNotEnoughVotingPowerSigned tallied votingPowerNeeded)
      else Val tt
  | cs :: rest =>
      if ignoreSig cs then single_loop (idx + 1) rest seenVals tallied
      else
        '(val, seenVals) ← lookup_signer idx cs seenVals;
        match val with
        | None => single_loop (idx + 1) rest seenVals tallied
        | Some val =>
            voteSignBytes ← lift (Commit_VoteSignBytes chainID commit (int32 idx));
            pk ← pubkey_of val;
            _ ← fail_if (negb (VerifySignature pk voteSignBytes (cs_Signature cs))) (ErrWrongSignature idx);
            let tallied := if countSig cs then int64 (tallied + VotingPower val) else tallied in
            if negb countAllSignatures && (tallied >? votingPowerNeeded) then Val tt
            else single_loop (idx + 1) rest seenVals tallied
        end
  end.

Definition verifyCommitSingle : outcome CommitError unit := single_loop 0 (c_Signatures commit) ∅ 0.

(** [bv.Add] of a verifier for keys of type [kt]. *)
Definition batch_add (kt : KeyType) (pk : PubKey) (msg sig : bytes) (bv : list batch_entry)
    : outcome CommitError (list batch_entry) :=
  if bool_decide (pk_Type pk = kt) && decodable pk sig then Val (bv ++ [(pk, msg, sig)])
  else Fail ErrBatchAdd.

(** The collecting loop: the batch, the commit indices of its entries and the tally. *)
Fixpoint batch_loop (kt : KeyType) (idx : Z) (sigs : list CommitSig) (seenVals : gmap Z Z)
    (bv : list batch_entry) (batchSigIdxs : list Z) (tallied : Z)
    : outcome CommitError (list batch_entry * list Z * Z) :=
  match sigs with
  | [] => Val (bv, batchSigIdxs, tallied)
  | cs :: rest =>
      if ignoreSig cs then batch_loop kt (idx + 1) rest seenVals bv batchSigIdxs tallied
      else
        '(val, seenVals) ← lookup_signer idx cs seenVals;
        match val with
        | None => batch_loop kt (idx + 1) rest seenVals bv batchSigIdxs tallied
        | Some val =>
            voteSignBytes ← lift (Commit_VoteSignBytes chainID commit (int32 idx));
            pk ← pubkey_of val;
            bv ← batch_add kt pk voteSignBytes (cs_Signature cs) bv;
            let batchSigIdxs := batchSigIdxs ++ [idx] in
            let tallied := if countSig cs then int64 (tallied + VotingPower val) else tallied in
            if negb countAllSignatures && (tallied >? votingPowerNeeded) then Val (bv, batchSigIdxs, tallied)
            else batch_loop kt (idx + 1) rest seenVals bv batchSigIdxs tallied
        end
  end.

(** The first entry that is not valid, as an index of the commit. *)
Fixpoint first_invalid (validSigs : list bool) (batchSigIdxs : list Z) : outcome CommitError unit :=
  match validSigs, batchSigIdxs with
  | [], _ => Fail ErrBatchBug
  | true :: oks, _ :: idxs => first_invalid oks idxs
  | true :: oks, [] => first_invalid oks []
  | false :: _, idx :: _ => Fail (ErrWrongSignature idx)
  | false :: _, [] => Panic "index out of range"
  end.

Definition verifyCommitBatch : outcome CommitError unit :=
  '(p, _) ← lift (GetProposer vals);
  match p with
  | None => Panic "invalid memory address or nil pointer dereference"
  | Some p =>
      ok ← lift (SupportsBatchVerifier (PubKey_ p));
      if negb ok || (len (c_Signatures commit) <? batchVerifyThreshold) then Fail ErrBatchUnsupported
      else
        pk ← pubkey_of p;
        '(bv, idxs, tallied) ← batch_loop (pk_Type pk) 0 (c_Signatures commit) ∅ [] [] 0;
        if tallied <=? votingPowerNeeded then Fail (ErrNotEnoughVotingPowerSigned tallied votingPowerNeeded)
        else
          let (ok, validSigs) := BatchVerify bv in
          if ok then Val tt else first_invalid validSigs idxs
  end.
End verify.

Definition verifyBasicValsAndCommit (vals : option ValidatorSet) (commit : option Commit) (height : Z)
    (blockID : BlockID) : outcome CommitError (ValidatorSet * Commit) :=
  match vals, commit with
  | None, _ => Fail ErrNilValidatorSet
  | Some _, None => Fail ErrNilCommit
  | Some vals, Some commit =>
      _ ← fail_if (negb (Validator.Size vals =? len (c_Signatures commit)))
            (ErrInvalidCommitSignatures (Validator.Size vals) (len (c_Signatures commit)));
      _ ← fail_if (negb (height =? c_Height commit)) (ErrInvalidCommitHeight height (c_Height commit));
      _ ← fail_if (negb (BlockID_Equals blockID (c_BlockID commit))) ErrWrongBlockID;
      Val (vals, commit)
  end.

Section entry_points.
Context `{!Crypto, !BatchCrypto, !TimeCodec}.

(** The choice between the two loops. *)
Definition verify_with (chainID : ChainID) (vals : ValidatorSet) (commit : Commit) (needed : Z)
    (ignore count : CommitSig -> bool) (countAll byIndex : bool) : outcome CommitError unit :=
  lift (shouldBatchVerify vals commit) ≫= fun b : bool =>
  if b then verifyCommitBatch chainID vals commit needed ignore count countAll byIndex
  else verifyCommitSingle chainID vals commit needed ignore count countAll byIndex.

Definition VerifyCommit (chainID : ChainID) (vals : option ValidatorSet) (blockID : BlockID) (height : Z)
    (commit : option Commit) : outcome CommitError unit :=
  '(vals, commit) ← verifyBasicValsAndCommit vals commit height blockID;
  '(total, vals) ← lift (TotalVotingPower vals);
  let votingPowerNeeded := Z.quot (int64 (total * 2)) 3 in
  verify_with chainID vals commit votingPowerNeeded Absent ForBlock true true.

Definition VerifyCommitLight (chainID : ChainID) (vals : option ValidatorSet) (blockID : BlockID) (height : Z)
    (commit : option Commit) : outcome CommitError unit :=
  '(vals, commit) ← verifyBasicValsAndCommit vals commit height blockID;
  '(total, vals) ← lift (TotalVotingPower vals);
  let votingPowerNeeded := Z.quot (int64 (total * 2)) 3 in
  verify_with chainID vals commit votingPowerNeeded (fun c => negb (ForBlock c)) (fun _ => true) false true.

Definition VerifyCommitLightTrusting (chainID : ChainID) (vals : option ValidatorSet) (commit : option Commit)
    (trustLevel : Fraction) : outcome CommitError unit :=
  match vals with
  | None => Fail ErrNilValidatorSet
  | Some vals =>
      _ ← fail_if (Denominator trustLevel =? 0) ErrZeroDenominator;
      match commit with
      | None => Fail ErrNilCommit
      | Some commit =>
          '(total, vals) ← lift (TotalVotingPower vals);
          let (mul, overflow) := safeMul total (int64 (Numerator trustLevel)) in
          _ ← fail_if overflow ErrTrustOverflow;
          _ ← panic_if (int64 (Denominator trustLevel) =? 0) "integer divide by zero";
          let votingPowerNeeded := int64 (Z.quot mul (int64 (Denominator trustLevel))) in
          verify_with chainID vals commit votingPowerNeeded (fun c => negb (ForBlock c)) (fun _ => true) false false
      end
  end.
End entry_points.
