(* ===== verification/ValidationProofs.v ===== *)
(** * types/validation.go: what an accepted commit guarantees

    The batch and the single loop accept the same commits; [VerifyCommit]
    accepts exactly the commits in which every present signature is valid and
    more than two thirds of the power signed the block; the light variants
    accept only with enough valid power. *)
From Stdlib Require Import ZArith Lia Strings.Byte.
From stdpp Require Import base list gmap.
From S2P Require Import Prelude.
From S2P Require Import SafeMath.
From S2P Require Import Validator.
From S2P Require Import ProposerProofs.
From S2P Require Import ValidatorUpdateProofs.
From S2P Require Import ValidatorSetProofs.
From S2P Require Import Types.
From S2P Require Import SignBytesProofs.
From S2P Require Import Validation.

(** A signature that verifies can be decoded. *)
Class DecodeLaw `{!Crypto, !BatchCrypto} : Prop :=
  verify_decodable : forall pk msg sig, VerifySignature pk msg sig = true -> decodable pk sig = true.

(** ** Batch and single verification *)

Section loops.
Context `{!Crypto, !BatchCrypto, !TimeCodec}.
Context (chainID : ChainID) (vals : ValidatorSet) (commit : Commit) (needed : Z).
Context (ignoreSig countSig : CommitSig -> bool) (countAll byIndex : bool).

Abbreviation single := (single_loop chainID vals commit needed ignoreSig countSig countAll byIndex).
Abbreviation batch := (batch_loop chainID vals commit needed ignoreSig countSig countAll byIndex).
Definition entry_ok (e : batch_entry) : bool := let '(pk, msg, sig) := e in VerifySignature pk msg sig.

(** What the batch loop collects extends the batch it started from. *)
Lemma batch_loop_extends kt idx sigs seen bv idxs t bv' idxs' t' :
  batch kt idx sigs seen bv idxs t = Val (bv', idxs', t') -> exists es, bv' = bv ++ es.
Proof.
  revert idx seen bv idxs t. induction sigs as [|cs sigs IH]; intros idx seen bv idxs t; cbn [batch_loop].
  { intros [= <- _ _]. exists []. by rewrite app_nil_r. }
  destruct (ignoreSig cs); [apply IH|]. intros ([val seen'] & _ & Hk)%bind_val.
  destruct val as [val|]; [|by eapply IH].
  apply bind_val in Hk as (b & _ & Hk). apply bind_val in Hk as (pk & _ & Hk).
  apply bind_val in Hk as (bv1 & Ha & Hk). unfold batch_add in Ha.
  destruct (_ && decodable _ _); [|done]. injection Ha as <-. destruct (_ && (_ >? _)).
  - injection Hk as <- _ _. by eexists.
  - apply IH in Hk as [es ->]. rewrite <- app_assoc. by eexists.
Qed.

(** An accepted batch is accepted by the single loop. *)
Lemma batch_to_single kt idx sigs seen bv idxs t bv' idxs' t' :
  batch kt idx sigs seen bv idxs t = Val (bv', idxs', t') ->
  forallb entry_ok bv' = true -> needed < t' -> single idx sigs seen t = Val tt.
Proof.
  revert idx seen bv idxs t. induction sigs as [|cs sigs IH]; intros idx seen bv idxs t; cbn [batch_loop single_loop].
  { intros [= _ _ <-] _ Ht. by destruct (Z.leb_spec t needed); [lia|]. }
  destruct (ignoreSig cs); [apply IH|]. intros ([val seen'] & -> & Hk)%bind_val Hok Ht. go_step.
  destruct val as [val|]; [|by eapply IH].
  apply bind_val in Hk as (b & -> & Hk). go_step. apply bind_val in Hk as (pk & -> & Hk). go_step.
  apply bind_val in Hk as (bv1 & Ha & Hk). unfold batch_add in Ha.
  destruct (_ && decodable _ _); [|done]. injection Ha as <-.
  assert (Hin : (pk, b, cs_Signature cs) ∈ bv').
  { destruct (_ && (_ >? _)).
    - injection Hk as <- _ _. apply elem_of_app. right. left.
    - apply batch_loop_extends in Hk as [es ->]. rewrite !elem_of_app. left. right. left. }
  rewrite forallb_forall in Hok. pose proof (Hok _ (proj1 (list_elem_of_In _ _) Hin)) as Hv. simpl in Hv. rewrite Hv. go_step.
  rewrite <- forallb_forall in Hok. destruct (_ && (_ >? _)); [done|]. by eapply IH.
Qed.

(** Conversely, when the keys suit the batch verifier. *)
Lemma single_to_batch `{!DecodeLaw} kt idx sigs seen bv idxs t :
  Forall (fun v => exists pk, PubKey_ v = Some pk /\ pk_Type pk = kt) (Validators vals) ->
  single idx sigs seen t = Val tt -> forallb entry_ok bv = true ->
  exists bv' idxs' t', batch kt idx sigs seen bv idxs t = Val (bv', idxs', t') /\
    forallb entry_ok bv' = true /\ needed < t'.
Proof.
  intros Hkeys. revert idx seen bv idxs t.
  induction sigs as [|cs sigs IH]; intros idx seen bv idxs t; cbn [batch_loop single_loop].
  { destruct (Z.leb_spec t needed); [done|]. intros _ Hok. by exists bv, idxs, t. }
  destruct (ignoreSig cs); [apply IH|]. intros ([val seen'] & Hl & Hk)%bind_val Hok. rewrite Hl. go_step.
  destruct val as [val|]; [|by apply IH].
  apply bind_val in Hk as (b & -> & Hk). go_step. apply bind_val in Hk as (pk & Hpk & Hk). rewrite Hpk. go_step.
  apply bind_val in Hk as (? & Hsig%fail_if_val & Hk). apply negb_false_iff in Hsig.
  assert (Hval : val ∈ Validators vals).
  { unfold lookup_signer in Hl. destruct byIndex.
    - apply bind_val in Hl as (v & Hv & Heq). apply slice_get_val in Hv as [_ Hv].
      injection Heq as -> _. by eapply list_elem_of_lookup_2.
    - unfold GetByAddress in Hl. destruct (get_by_address 0 _ _) as [i [w|]] eqn:Hg; [|done].
      destruct (seen !! i); [done|]. injection Hl as -> _. clear -Hg. revert Hg. generalize 0 as k.
      induction (Validators vals) as [|x l IHl]; intros k; cbn [get_by_address]; [done|].
      destruct (bytes_equal _ _); [intros [= _ <-]; left|intros Hg; right; by eapply IHl]. }
  rewrite Forall_forall in Hkeys. destruct (Hkeys val Hval) as (pk' & Hpk' & Hkt).
  unfold pubkey_of in Hpk. rewrite Hpk' in Hpk. injection Hpk as <-.
  unfold batch_add. rewrite bool_decide_true, (verify_decodable _ _ _ Hsig) by done. go_step.
  assert (Hok' : forallb entry_ok (bv ++ [(pk', b, cs_Signature cs)]) = true).
  { rewrite forallb_app, Hok. simpl. by rewrite Hsig. }
  destruct (negb countAll && (_ >? _)) eqn:Hstop; [|by apply IH].
  apply andb_true_iff in Hstop as [_ Hgt]. rewrite Z.gtb_ltb in Hgt. apply Z.ltb_lt in Hgt. by do 3 eexists.
Qed.
End loops.

Section batch_single.
Context `{!Crypto, !BatchCrypto, !TimeCodec, !BatchLaws}.

Lemma BatchVerify_spec es : (BatchVerify es).1 = forallb entry_ok es.
Proof.
  rewrite batch_all, batch_verdicts. induction es as [|[[pk m] s] es IH]; [done|].
  rewrite fmap_cons. cbn [forallb id]. by rewrite IH.
Qed.

Lemma first_invalid_not_val oks idxs : first_invalid oks idxs <> Val tt.
Proof. revert idxs. induction oks as [|[] oks IH]; intros [|i idxs]; simpl; auto; done. Qed.

Lemma verifyCommitBatch_single cid vals commit needed ig ct ca bi :
  verifyCommitBatch cid vals commit needed ig ct ca bi = Val tt ->
  verifyCommitSingle cid vals commit needed ig ct ca bi = Val tt.
Proof.
  unfold verifyCommitBatch, verifyCommitSingle. intros ([p w] & _ & Hk)%bind_val.
  destruct p as [p|]; [|done]. apply bind_val in Hk as (ok & _ & Hk). destruct (_ || _); [done|].
  apply bind_val in Hk as (pk & _ & Hk). apply bind_val in Hk as ([[bv idxs] t] & Hb & Hk).
  destruct (Z.leb_spec t needed); [done|]. destruct (BatchVerify bv) as [ok' oks] eqn:Hv. destruct ok'.
  - eapply batch_to_single; [exact Hb| |done]. rewrite <- BatchVerify_spec, Hv. done.
  - by apply first_invalid_not_val in Hk.
Qed.

(** Whichever loop is used, acceptance implies acceptance by the single loop. *)
Lemma verify_with_single cid vals commit needed ig ct ca bi :
  verify_with cid vals commit needed ig ct ca bi = Val tt ->
  verifyCommitSingle cid vals commit needed ig ct ca bi = Val tt.
Proof.
  unfold verify_with. intros (b & _ & Hk)%bind_val. destruct b; [by apply verifyCommitBatch_single|done].
Qed.

(** The keys of the set and its proposer are of one type. *)
Definition one_key_type (vals : ValidatorSet) (kt : KeyType) : Prop :=
  Forall (fun v => exists pk, PubKey_ v = Some pk /\ pk_Type pk = kt) (Validators vals) /\
  exists p pk, Proposer vals = Some p /\ PubKey_ p = Some pk /\ pk_Type pk = kt.

Lemma verify_with_iff `{!DecodeLaw} cid vals commit needed ig ct ca bi kt :
  one_key_type vals kt -> Validators vals <> [] ->
  verify_with cid vals commit needed ig ct ca bi = Val tt <->
  verifyCommitSingle cid vals commit needed ig ct ca bi = Val tt.
Proof.
  intros [Hkeys (p & pk & Hp & Hpk & Hkt)] Hne. split; [apply verify_with_single|]. intros Hs.
  assert (Hget : GetProposer vals = Val (Some p, vals)).
  { unfold GetProposer. rewrite Hp. destruct (Validators vals); [done|]. unfold len. simpl. done. }
  unfold verify_with, shouldBatchVerify, batchVerifyThreshold. rewrite Z.geb_leb.
  destruct (Z.leb_spec 2 (len (c_Signatures commit))) as [Hlen|]; [|done]. rewrite Hget. go_step.
  unfold SupportsBatchVerifier. rewrite Hpk. go_step. rewrite Hkt.
  assert (Hbatch : SupportsBatchVerifier (PubKey_ p) = Val true ->
    verifyCommitBatch cid vals commit needed ig ct ca bi = Val tt).
  { intros Hsup. unfold verifyCommitBatch. rewrite Hget. go_step. rewrite Hsup. go_step. unfold batchVerifyThreshold.
    destruct (Z.ltb_spec (len (c_Signatures commit)) 2); [lia|]. simpl. unfold pubkey_of. rewrite Hpk. go_step.
    destruct (single_to_batch cid vals commit needed ig ct ca bi (pk_Type pk) 0 (c_Signatures commit) ∅ [] [] 0)
      as (bv & idxs & t & Hb & Hok & Ht); [by rewrite Hkt|done..|].
    rewrite Hb. go_step. destruct (Z.leb_spec t needed); [lia|].
    rewrite <- BatchVerify_spec in Hok. destruct (BatchVerify bv) as [ok oks]. simpl in Hok. by rewrite Hok. }
  unfold SupportsBatchVerifier in Hbatch. rewrite Hpk, Hkt in Hbatch. by destruct kt; auto.
Qed.
End batch_single.

(** ** Tallies *)

Section tally.
Context `{!Crypto, !BatchCrypto, !TimeCodec}.
Context (chainID : ChainID) (vals : ValidatorSet) (commit : Commit).
Abbreviation l := (Validators vals).

(** The signature at index [idx] is valid for the key of [v]. *)
Definition sig_ok (idx : Z) (cs : CommitSig) (v : Validator) : bool :=
  match Commit_VoteSignBytes chainID commit idx, PubKey_ v with
  | Val b, Some pk => VerifySignature pk b (cs_Signature cs)
  | _, _ => false
  end.

(** The power of the validators whose own signature satisfies [count]. *)
Fixpoint tally (count : Z -> CommitSig -> Validator -> bool) (idx : Z) (sigs : list CommitSig) (vs : list Validator) : Z :=
  match sigs, vs with
  | cs :: sigs', v :: vs' => (if count idx cs v then VotingPower v else 0) + tally count (idx + 1) sigs' vs'
  | _, _ => 0
  end.

(** The power that validly signed the commit's block. *)
Definition signed_power : Z :=
  tally (fun idx cs v => ForBlock cs && sig_ok idx cs v) 0 (c_Signatures commit) l.

Lemma tally_bounds count idx sigs vs :
  Forall (fun v => 0 < VotingPower v) vs -> 0 <= tally count idx sigs vs <= sumZ VotingPower vs.
Proof.
  intros Hpos. revert idx sigs. induction Hpos as [|v vs Hv Hvs IH]; intros idx sigs.
  { destruct sigs; by compute. }
  destruct sigs as [|cs sigs]; cbn [tally].
  - pose proof (total_nonneg (v :: vs) ltac:(by constructor)). lia.
  - specialize (IH (idx + 1) sigs). unfold sumZ in *. cbn [foldr]. destruct (count idx cs v); lia.
Qed.

Lemma tally_mono c1 c2 idx sigs vs :
  Forall (fun v => 0 < VotingPower v) vs -> (forall i cs v, c1 i cs v = true -> c2 i cs v = true) ->
  tally c1 idx sigs vs <= tally c2 idx sigs vs.
Proof.
  intros Hpos Hc. revert idx sigs. induction Hpos as [|v vs Hv Hvs IH]; intros idx [|cs sigs]; cbn [tally]; try done.
  specialize (IH (idx + 1) sigs). specialize (Hc idx cs v).
  destruct (c1 idx cs v); [rewrite Hc by done|destruct (c2 idx cs v)]; lia.
Qed.

Context (needed : Z) (ignoreSig countSig : CommitSig -> bool).
Hypothesis Hwf : wf_set vals.
Hypothesis Hlen32 : len (c_Signatures commit) <= MaxInt32.
Hypothesis Hsize : len l = len (c_Signatures commit).

(** One step of the loop in index mode, on a signature that is not ignored. *)
Lemma single_step countAll idx cs sigs seen t v :
  0 <= idx -> idx < len l -> l !! Z.to_nat idx = Some v -> ignoreSig cs = false ->
  0 <= t -> t + VotingPower v <= MaxInt64 ->
  single_loop chainID vals commit needed ignoreSig countSig countAll true idx (cs :: sigs) seen t = Val tt <->
  sig_ok idx cs v = true /\
  let t' := if countSig cs then t + VotingPower v else t in
  ((countAll = false /\ needed < t') \/
   ((countAll = true \/ t' <= needed) /\
    single_loop chainID vals commit needed ignoreSig countSig countAll true (idx + 1) sigs seen t' = Val tt)).
Proof.
  intros Hidx Hn Hv Hig Ht Hmax. pose proof (wf_power _ Hwf) as Hp. rewrite Forall_lookup in Hp.
  pose proof (Hp _ _ Hv) as Hvp. cbn [single_loop]. rewrite Hig. unfold lookup_signer.
  rewrite (proj2 (slice_get_val l idx v)) by done. go_step.
  rewrite int32_id by int_lia. rewrite int64_id by (simpl in *; int_lia).
  unfold sig_ok, pubkey_of. destruct (Commit_VoteSignBytes chainID commit idx) as [b|[]|]; [|go_step; naive_solver].
  go_step. destruct (PubKey_ v) as [pk|]; [|go_step; naive_solver]. go_step.
  destruct (VerifySignature pk b (cs_Signature cs)); [|go_step; naive_solver]. go_step.
  set (t' := if countSig cs then t + VotingPower v else t). rewrite Z.gtb_ltb.
  destruct countAll; simpl.
  - split; [intros Hk; split; [done|right; auto]|]. intros [_ [[? _]|[_ ?]]]; done.
  - destruct (Z.ltb_spec needed t').
    + split; [intros _; split; [done|left; auto]|done].
    + split; [intros Hk; split; [done|right; auto]|]. intros [_ [[_ ?]|[_ ?]]]; [lia|done].
Qed.

(** Acceptance in index mode: the valid power counted exceeds what is needed. *)
Lemma single_loop_sound countAll idx sigs seen t :
  (forall cs, ignoreSig cs = false -> countSig cs = true -> ForBlock cs = true) ->
  0 <= idx -> sigs = drop (Z.to_nat idx) (c_Signatures commit) -> 0 <= t ->
  t + sumZ VotingPower (drop (Z.to_nat idx) l) <= MaxInt64 ->
  single_loop chainID vals commit needed ignoreSig countSig countAll true idx sigs seen t = Val tt ->
  needed < t + tally (fun i cs v => ForBlock cs && sig_ok i cs v) idx sigs (drop (Z.to_nat idx) l).
Proof.
  intros Hcount. revert idx t. induction sigs as [|cs sigs IH]; intros idx t Hidx Hd Ht Hmax.
  { cbn [single_loop tally]. destruct (Z.leb_spec t needed); [done|]. lia. }
  assert (Hcs : c_Signatures commit !! Z.to_nat idx = Some cs).
  { rewrite <- (Nat.add_0_r (Z.to_nat idx)), <- lookup_drop, <- Hd. done. }
  assert (Hn : (Z.to_nat idx < length (c_Signatures commit))%nat) by (by apply lookup_lt_Some in Hcs).
  destruct (lookup_lt_is_Some_2 l (Z.to_nat idx)) as [v Hv]; [unfold len in Hsize; lia|].
  rewrite (drop_S l v _ Hv) in Hmax |- *. rewrite (drop_S _ cs _ Hcs) in Hd. injection Hd as Hd.
  replace (S (Z.to_nat idx)) with (Z.to_nat (idx + 1)) in * by lia.
  pose proof (wf_power _ Hwf) as Hp. rewrite Forall_lookup in Hp. pose proof (Hp _ _ Hv) as Hvp.
  pose proof (tally_bounds (fun i cs v => ForBlock cs && sig_ok i cs v) (idx + 1) sigs (drop (Z.to_nat (idx + 1)) l)
    ltac:(apply Forall_drop, Hwf)) as Hb.
  unfold sumZ in Hmax. cbn [foldr] in Hmax. fold (sumZ VotingPower (drop (Z.to_nat (idx + 1)) l)) in Hmax.
  cbn [tally]. simpl in Hvp. destruct (ignoreSig cs) eqn:Hig.
  { cbn [single_loop]. rewrite Hig. intros Hk. apply IH in Hk; [|lia|done|done|lia].
    destruct (_ && _); lia. }
  rewrite (single_step countAll idx cs sigs seen t v) by (done || unfold len in *; lia).
  intros [Hok Hcase]. rewrite Hok, andb_true_r.
  assert (Hfb : countSig cs = true -> ForBlock cs = true) by auto.
  destruct Hcase as [[_ Hgt]|[_ Hk]].
  - destruct (countSig cs); [rewrite Hfb by done; lia|]. destruct (ForBlock cs); lia.
  - apply IH in Hk; [|lia|done|destruct (countSig cs); lia|destruct (countSig cs); lia].
    destruct (countSig cs); [rewrite Hfb by done; lia|]. destruct (ForBlock cs); lia.
Qed.

(** Every signature that is not ignored is valid. *)
Fixpoint present_ok (idx : Z) (sigs : list CommitSig) (vs : list Validator) : bool :=
  match sigs, vs with
  | cs :: sigs', v :: vs' => (ignoreSig cs || sig_ok idx cs v) && present_ok (idx + 1) sigs' vs'
  | _, _ => true
  end.

(** With all signatures counted, acceptance in index mode is exactly this. *)
Lemma single_loop_exact idx sigs seen t :
  0 <= idx -> sigs = drop (Z.to_nat idx) (c_Signatures commit) -> 0 <= t ->
  t + sumZ VotingPower (drop (Z.to_nat idx) l) <= MaxInt64 ->
  single_loop chainID vals commit needed ignoreSig countSig true true idx sigs seen t = Val tt <->
  present_ok idx sigs (drop (Z.to_nat idx) l) = true /\
  needed < t + tally (fun _ cs _ => negb (ignoreSig cs) && countSig cs) idx sigs (drop (Z.to_nat idx) l).
Proof.
  revert idx t. induction sigs as [|cs sigs IH]; intros idx t Hidx Hd Ht Hmax.
  { cbn [single_loop tally present_ok]. destruct (Z.leb_spec t needed); [|split; [split; [done|lia]|done]].
    split; [done|]. lia. }
  assert (Hcs : c_Signatures commit !! Z.to_nat idx = Some cs).
  { rewrite <- (Nat.add_0_r (Z.to_nat idx)), <- lookup_drop, <- Hd. done. }
  assert (Hn : (Z.to_nat idx < length (c_Signatures commit))%nat) by (by apply lookup_lt_Some in Hcs).
  destruct (lookup_lt_is_Some_2 l (Z.to_nat idx)) as [v Hv]; [unfold len in Hsize; lia|].
  rewrite (drop_S l v _ Hv) in Hmax |- *. rewrite (drop_S _ cs _ Hcs) in Hd. injection Hd as Hd.
  replace (S (Z.to_nat idx)) with (Z.to_nat (idx + 1)) in * by lia.
  pose proof (wf_power _ Hwf) as Hp. rewrite Forall_lookup in Hp. pose proof (Hp _ _ Hv) as Hvp.
  assert (Hrest : 0 <= sumZ VotingPower (drop (Z.to_nat (idx + 1)) l)) by (apply total_nonneg, Forall_drop, Hwf).
  unfold sumZ in Hmax. cbn [foldr] in Hmax. fold (sumZ VotingPower (drop (Z.to_nat (idx + 1)) l)) in Hmax.
  cbn [tally present_ok]. simpl in Hvp. destruct (ignoreSig cs) eqn:Hig.
  { cbn [single_loop]. rewrite Hig. simpl. rewrite IH by (done || lia). by rewrite Z.add_0_l. }
  rewrite (single_step true idx cs sigs seen t v) by (done || unfold len in *; lia). simpl.
  rewrite andb_true_iff. cbv zeta. rewrite IH by (done || destruct (countSig cs); lia).
  destruct (countSig cs).
  - rewrite Z.add_assoc. naive_solver.
  - rewrite Z.add_0_l. naive_solver.
Qed.
End tally.

(** ** The entry points *)

Section commits.
Context `{!Crypto, !BatchCrypto, !TimeCodec, !BatchLaws}.

Lemma two_thirds_needed vals :
  wf_set vals -> Z.quot (int64 (total vals * 2)) 3 = (2 * total vals) / 3.
Proof.
  intros Hwf. pose proof (wf_max _ Hwf). pose proof (total_nonneg _ (wf_power _ Hwf)).
  rewrite int64_id by power_lia. rewrite Z.quot_div_nonneg by lia. f_equal. lia.
Qed.

Lemma exceeds_two_thirds a P : (2 * P) / 3 < a <-> 2 * P < 3 * a.
Proof. pose proof (Z.div_mod (2 * P) 3). pose proof (Z.mod_pos_bound (2 * P) 3). lia. Qed.

Lemma verifyBasic_val vals commit h bid r :
  verifyBasicValsAndCommit vals commit h bid = Val r <->
  exists v c, vals = Some v /\ commit = Some c /\ r = (v, c) /\
    len (Validators v) = len (c_Signatures c) /\ h = c_Height c /\ bid = c_BlockID c.
Proof.
  unfold verifyBasicValsAndCommit. destruct vals as [v|]; [|naive_solver]. destruct commit as [c|]; [|naive_solver].
  split.
  - intros Hb. inv_val. z_bool.
    match goal with He : BlockID_Equals _ _ = true |- _ => apply BlockID_Equals_spec in He end.
    exists v, c. naive_solver.
  - intros (v' & c' & [= <-] & [= <-] & -> & Hl & -> & ->). unfold Validator.Size. rewrite Hl, !Z.eqb_refl. go_step.
    by rewrite (proj2 (BlockID_Equals_spec _ _) eq_refl).
Qed.

Lemma ForBlock_not_Absent cs : ForBlock cs = true -> Absent cs = false.
Proof. unfold ForBlock, Absent. rewrite bool_decide_eq_true, bool_decide_eq_false. congruence. Qed.

(** When every present signature is valid, what is counted is what is valid. *)
Lemma tally_present cid commit idx sigs vs :
  present_ok cid commit Absent idx sigs vs = true ->
  tally (fun _ cs _ => negb (Absent cs) && ForBlock cs) idx sigs vs =
  tally (fun i cs v => ForBlock cs && sig_ok cid commit i cs v) idx sigs vs.
Proof.
  revert idx vs. induction sigs as [|cs sigs IH]; intros idx [|v vs]; cbn [present_ok tally]; try done.
  rewrite andb_true_iff. intros [Hok Hrest]. rewrite IH by done. f_equal.
  destruct (ForBlock cs) eqn:Hfb; [|by rewrite andb_false_r].
  rewrite (ForBlock_not_Absent cs Hfb) in *. simpl in *. by rewrite Hok.
Qed.

Lemma commit_tally_room vals : wf_set vals -> 0 + sumZ VotingPower (drop (Z.to_nat 0) (Validators vals)) <= MaxInt64.
Proof. intros Hwf. rewrite drop_0. pose proof (wf_max _ Hwf). power_lia. Qed.

(** The exact condition under which [VerifyCommit] accepts. *)
Lemma VerifyCommit_iff `{!DecodeLaw} cid vals commit bid h kt :
  wf_set vals -> Validators vals <> [] -> one_key_type vals kt -> len (c_Signatures commit) <= MaxInt32 ->
  VerifyCommit cid (Some vals) bid h (Some commit) = Val tt <->
  len (Validators vals) = len (c_Signatures commit) /\ h = c_Height commit /\ bid = c_BlockID commit /\
  present_ok cid commit Absent 0 (c_Signatures commit) (Validators vals) = true /\
  2 * total vals < 3 * signed_power cid vals commit.
Proof.
  intros Hwf Hne Hkeys Hl32. unfold VerifyCommit.
  destruct (decide (len (Validators vals) = len (c_Signatures commit) /\ h = c_Height commit /\ bid = c_BlockID commit))
    as [(Hlen & -> & ->)|Hbad].
  2: { split; [|naive_solver]. intros (r & Hr & _)%bind_val. apply verifyBasic_val in Hr as (v & c & [= <-] & [= <-] & _ & ?). done. }
  assert (Hb : verifyBasicValsAndCommit (Some vals) (Some commit) (c_Height commit) (c_BlockID commit) = Val (vals, commit)).
  { apply verifyBasic_val. by exists vals, commit. }
  rewrite Hb. go_step. rewrite TotalVotingPower_val by apply Hwf. go_step.
  rewrite (verify_with_iff _ _ _ _ _ _ _ _ kt) by done. unfold verifyCommitSingle.
  rewrite (single_loop_exact cid vals commit) by (done || by apply commit_tally_room).
  change (Z.to_nat 0) with 0%nat. rewrite !drop_0, two_thirds_needed, Z.add_0_l, exceeds_two_thirds by done.
  unfold signed_power. split; [intros [Hp Ht]|intros (_ & _ & _ & Hp & Ht)].
  - rewrite (tally_present cid commit) in Ht by done. naive_solver.
  - by rewrite (tally_present cid commit).
Qed.

(** C10: for a well-formed, non-empty validator set whose keys, the proposer's included,
    are all of one type, and a commit with at most as many entries as a 32-bit index can
    count, [VerifyCommit] accepts exactly when the commit is for the given height and
    block, has one entry per validator, every entry that is not absent carries a valid
    signature, and the validators with a valid signature for the block hold more than two
    thirds of the total power.  (Where the set mixes key types only the direction from
    acceptance holds: the batch verifier made for the proposer's type refuses the keys of
    another type.) *)
Theorem verify_commit_exact `{!DecodeLaw} cid vals commit bid h kt :
  wf_set vals -> Validators vals <> [] -> one_key_type vals kt -> len (c_Signatures commit) <= MaxInt32 ->
  VerifyCommit cid (Some vals) bid h (Some commit) = Val tt <->
  len (Validators vals) = len (c_Signatures commit) /\ h = c_Height commit /\ bid = c_BlockID commit /\
  present_ok cid commit Absent 0 (c_Signatures commit) (Validators vals) = true /\
  2 * total vals < 3 * signed_power cid vals commit.
Proof. apply VerifyCommit_iff. Qed.

Lemma verified_two_thirds cid vals commit bid h :
  wf_set vals -> len (c_Signatures commit) <= MaxInt32 ->
  VerifyCommit cid (Some vals) bid h (Some commit) = Val tt \/
  VerifyCommitLight cid (Some vals) bid h (Some commit) = Val tt ->
  h = c_Height commit /\ bid = c_BlockID commit /\ 2 * total vals < 3 * signed_power cid vals commit.
Proof.
  intros Hwf Hl32 Hv.
  assert (Hsound : forall ig ct ca, (forall cs, ig cs = false -> ct cs = true -> ForBlock cs = true) ->
    len (Validators vals) = len (c_Signatures commit) ->
    verify_with cid vals commit (Z.quot (int64 (total vals * 2)) 3) ig ct ca true = Val tt ->
    2 * total vals < 3 * signed_power cid vals commit).
  { intros ig ct ca Hcount Hlen Hw%verify_with_single. unfold verifyCommitSingle in Hw.
    apply (single_loop_sound cid vals commit) in Hw; try done; [|by apply commit_tally_room].
    change (Z.to_nat 0) with 0%nat in Hw. rewrite drop_0, two_thirds_needed, Z.add_0_l, exceeds_two_thirds in Hw by done.
    done. }
  destruct Hv as [Hv|Hv]; unfold VerifyCommit, VerifyCommitLight in Hv;
    apply bind_val in Hv as (r & Hr & Hv); apply verifyBasic_val in Hr as (v & c & [= <-] & [= <-] & -> & Hlen & -> & ->);
    rewrite TotalVotingPower_val in Hv by apply Hwf; split; [done|split; [done|]| done|split; [done|]].
  - by eapply Hsound, Hv.
  - eapply Hsound, Hv; [|done]. intros cs Hig _. by apply negb_false_iff.
Qed.

(** C30: a commit accepted by [VerifyCommit] or [VerifyCommitLight], through
    the batch or the single verifier, carries valid signatures for its block from
    validators with more than two thirds of the total power. *)
Theorem verified_commit_two_thirds cid vals commit bid h :
  wf_set vals -> len (c_Signatures commit) <= MaxInt32 ->
  VerifyCommit cid (Some vals) bid h (Some commit) = Val tt \/
  VerifyCommitLight cid (Some vals) bid h (Some commit) = Val tt ->
  h = c_Height commit /\ bid = c_BlockID commit /\ 2 * total vals < 3 * signed_power cid vals commit.
Proof. apply verified_two_thirds. Qed.

(** ** Trusting verification: signatures looked up by address *)

(** Some entry of the commit is [v]'s valid signature for the block. *)
Fixpoint signs (cid : ChainID) (commit : Commit) (idx : Z) (sigs : list CommitSig) (v : Validator) : bool :=
  match sigs with
  | [] => false
  | cs :: rest =>
      (ForBlock cs && bytes_equal (Address v) (cs_ValidatorAddress cs) && sig_ok cid commit idx cs v) ||
      signs cid commit (idx + 1) rest v
  end.

(** The power of the trusted validators that validly signed the commit's block. *)
Definition trusted_power (cid : ChainID) (vals : ValidatorSet) (commit : Commit) : Z :=
  sumZ (fun v => if signs cid commit 0 (c_Signatures commit) v then VotingPower v else 0) (Validators vals).

Lemma sumZ_take_out (f f' : nat -> Z) n i p :
  (i < n)%nat -> f' i + p <= f i -> (forall j, j <> i -> f' j <= f j) -> p + sumZ f' (seq 0 n) <= sumZ f (seq 0 n).
Proof.
  intros Hi Hfi Hf.
  assert (Hp : sumZ (fun j => if decide (j = i) then p else 0) (seq 0 n) = p).
  { assert (Hgen : forall K, NoDup K -> sumZ (fun j => if decide (j = i) then p else 0) K = if decide (i ∈ K) then p else 0).
    { unfold sumZ. induction 1 as [|x K Hx HK IH]; [by rewrite decide_False by apply not_elem_of_nil|]. cbn [foldr].
      rewrite IH. destruct (decide (x = i)) as [->|Hne].
      - rewrite decide_False, decide_True by (done || by left). lia.
      - destruct (decide (i ∈ K)); [rewrite decide_True by (by right)|rewrite decide_False by (by intros [?|?]%elem_of_cons)]; lia. }
    rewrite Hgen by apply NoDup_seq. rewrite decide_True; [done|]. apply elem_of_seq. lia. }
  rewrite <- Hp at 1. rewrite <- sumZ_add. apply sumZ_le, Forall_forall. intros j _.
  destruct (decide (j = i)) as [->|Hne]; [lia|]. specialize (Hf j Hne). lia.
Qed.

(** The power not seen yet that satisfies [Q]. *)
Definition unseen (l : list Validator) (seen : gmap Z Z) (Q : Validator -> bool) (j : nat) : Z :=
  match seen !! Z.of_nat j, l !! j with
  | None, Some v => if Q v then VotingPower v else 0
  | _, _ => 0
  end.

Lemma unseen_insert l seen (Q Q' : Validator -> bool) i v x :
  Forall (fun v => 0 < VotingPower v) l ->
  l !! i = Some v -> seen !! Z.of_nat i = None -> Q v = true -> (forall w, Q' w = true -> Q w = true) ->
  VotingPower v + sumZ (unseen l (<[Z.of_nat i := x]> seen) Q') (seq 0 (length l)) <=
  sumZ (unseen l seen Q) (seq 0 (length l)).
Proof.
  intros Hp Hi Hs HQ HQ'. apply sumZ_take_out with i.
  - by apply lookup_lt_Some in Hi.
  - unfold unseen. rewrite lookup_insert_eq, Hs, Hi, HQ. lia.
  - intros j Hne. unfold unseen. rewrite lookup_insert_ne by lia. destruct (seen !! Z.of_nat j); [done|].
    destruct (l !! j) as [w|] eqn:Hw; [|done]. rewrite Forall_lookup in Hp. specialize (Hp _ _ Hw). simpl in Hp.
    specialize (HQ' w). destruct (Q' w); [rewrite HQ' by done; lia|]. destruct (Q w); lia.
Qed.

Lemma unseen_mono l seen (Q Q' : Validator -> bool) :
  Forall (fun v => 0 < VotingPower v) l -> (forall w, Q' w = true -> Q w = true) ->
  sumZ (unseen l seen Q') (seq 0 (length l)) <= sumZ (unseen l seen Q) (seq 0 (length l)).
Proof.
  intros Hp HQ. apply sumZ_le, Forall_forall. intros j _. unfold unseen. destruct (seen !! Z.of_nat j); [done|].
  destruct (l !! j) as [w|] eqn:Hw; [|done]. rewrite Forall_lookup in Hp. specialize (Hp _ _ Hw). simpl in Hp.
  specialize (HQ w). destruct (Q' w); [rewrite HQ by done; lia|]. destruct (Q w); lia.
Qed.

Lemma unseen_nonneg l seen Q :
  Forall (fun v => 0 < VotingPower v) l -> 0 <= sumZ (unseen l seen Q) (seq 0 (length l)).
Proof.
  intros Hp. apply sumZ_nonneg, Forall_forall. intros j _. unfold unseen. destruct (seen !! Z.of_nat j); [done|].
  destruct (l !! j) as [w|] eqn:Hw; [|done]. rewrite Forall_lookup in Hp. specialize (Hp _ _ Hw). simpl in Hp.
  destruct (Q w); lia.
Qed.

Lemma single_loop_trusting cid vals commit needed idx sigs seen t :
  wf_set vals -> len (Validators vals) <= MaxInt32 ->
  0 <= idx -> idx + len sigs <= MaxInt32 -> 0 <= t ->
  t + sumZ (unseen (Validators vals) seen (fun _ => true)) (seq 0 (length (Validators vals))) <= MaxInt64 ->
  single_loop cid vals commit needed (fun c => negb (ForBlock c)) (fun _ => true) false false idx sigs seen t = Val tt ->
  needed < t + sumZ (unseen (Validators vals) seen (signs cid commit idx sigs)) (seq 0 (length (Validators vals))).
Proof.
  intros Hwf Hl. pose proof (wf_power _ Hwf) as Hp.
  revert idx seen t. induction sigs as [|cs sigs IH]; intros idx seen t Hidx Hs32 Ht Hmax.
  { cbn [single_loop]. destruct (Z.leb_spec t needed); [done|]. intros _.
    pose proof (unseen_nonneg (Validators vals) seen (signs cid commit idx []) Hp). lia. }
  unfold len in Hs32. cbn [length] in Hs32. cbn [single_loop].
  assert (Hmono : forall seen, sumZ (unseen (Validators vals) seen (signs cid commit (idx + 1) sigs)) (seq 0 (length (Validators vals)))
    <= sumZ (unseen (Validators vals) seen (signs cid commit idx (cs :: sigs))) (seq 0 (length (Validators vals)))).
  { intros sn. apply unseen_mono; [done|]. intros w Hw. cbn [signs]. by rewrite Hw, orb_true_r. }
  specialize (Hmono seen). destruct (ForBlock cs) eqn:Hfb; cbn [negb].
  2: { intros Hk. apply IH in Hk; [lia|lia|unfold len; lia|done|done]. }
  unfold lookup_signer. destruct (GetByAddress vals (cs_ValidatorAddress cs)) as [vi [v|]] eqn:Hg; cbn [mbind outcome_bind].
  2: { intros Hk. apply IH in Hk; [lia|lia|unfold len; lia|done|done]. }
  destruct (seen !! vi) eqn:Hseen; [done|]. go_step.
  unfold GetByAddress in Hg. apply get_by_address_index in Hg as [Hz Haddr]; [|apply Hwf|lia|lia].
  rewrite Z.sub_0_r in Hz. apply zlookup_Some in Hz as [Hvi Hv].
  assert (Hnat : Z.of_nat (Z.to_nat vi) = vi) by lia. rewrite int32_id by int_lia.
  intros Hk. apply bind_val in Hk as (b & Hb & Hk). apply bind_val in Hk as (pk & Hpk & Hk).
  apply bind_val in Hk as ([] & Hsig%fail_if_val & Hk). apply negb_false_iff in Hsig.
  apply lift_val in Hb.
  assert (Hsigns : signs cid commit idx (cs :: sigs) v = true).
  { cbn [signs]. unfold sig_ok. rewrite Hfb, Hb, Haddr, bytes_equal_refl. unfold pubkey_of in Hpk.
    destruct (PubKey_ v) as [pk'|]; [|done]. injection Hpk as ->. by rewrite Hsig. }
  pose proof (power_le_total _ v Hp (list_elem_of_lookup_2 _ _ _ Hv)) as Hvp.
  pose proof (unseen_insert (Validators vals) seen (fun _ => true) (fun _ => true) (Z.to_nat vi) v idx Hp Hv
    ltac:(by rewrite Hnat) eq_refl ltac:(done)) as Hroom.
  pose proof (unseen_insert (Validators vals) seen (signs cid commit idx (cs :: sigs)) (signs cid commit (idx + 1) sigs)
    (Z.to_nat vi) v idx Hp Hv ltac:(by rewrite Hnat) Hsigns
    ltac:(intros w Hw; cbn [signs]; by rewrite Hw, orb_true_r)) as Hgain.
  rewrite Hnat in Hroom, Hgain.
  pose proof (unseen_nonneg (Validators vals) (<[vi:=idx]> seen) (fun _ => true) Hp).
  pose proof (unseen_nonneg (Validators vals) (<[vi:=idx]> seen) (signs cid commit (idx + 1) sigs) Hp).
  rewrite int64_id in Hk by int_lia. rewrite Z.gtb_ltb in Hk. simpl in Hk.
  destruct (Z.ltb_spec needed (t + VotingPower v)); [lia|].
  apply IH in Hk; [lia|lia|unfold len; lia|lia|lia].
Qed.

Lemma unseen_empty l (Q : Validator -> bool) :
  sumZ (unseen l ∅ Q) (seq 0 (length l)) = sumZ (fun v => if Q v then VotingPower v else 0) l.
Proof.
  rewrite (sumZ_index (fun v => if Q v then VotingPower v else 0)). apply sumZ_ext, Forall_forall. intros j _.
  unfold unseen. rewrite lookup_empty. by destruct (l !! j).
Qed.

Lemma trusting_sound cid vals commit num den :
  wf_set vals -> len (Validators vals) <= MaxInt32 -> len (c_Signatures commit) <= MaxInt32 ->
  0 <= num <= MaxInt64 -> 0 < den <= MaxInt64 ->
  VerifyCommitLightTrusting cid (Some vals) (Some commit) (mkFraction num den) = Val tt ->
  num * total vals < den * trusted_power cid vals commit.
Proof.
  intros Hwf Hl Hs Hnum Hden. unfold VerifyCommitLightTrusting. cbn [Denominator Numerator].
  destruct (Z.eqb_spec den 0); [lia|]. go_step. rewrite TotalVotingPower_val by apply Hwf. go_step.
  pose proof (wf_max _ Hwf). pose proof (total_nonneg _ (wf_power _ Hwf)).
  rewrite (int64_id num), (int64_id den) by int_lia. rewrite safeMul_spec by power_lia.
  case_decide as Hfit; [|done]. go_step. destruct (Z.eqb_spec den 0); [lia|]. go_step.
  rewrite Z.quot_div_nonneg by nia. pose proof (Z.div_mod (total vals * num) den ltac:(lia)).
  pose proof (Z.mod_pos_bound (total vals * num) den ltac:(lia)).
  assert (0 <= total vals * num / den <= total vals * num) by (split; [apply Z.div_pos; nia|apply Z.div_le_upper_bound; nia]).
  rewrite int64_id by int_lia. intros Hv%verify_with_single. unfold verifyCommitSingle in Hv.
  apply single_loop_trusting in Hv; [|done|done|lia|lia|lia|].
  - rewrite unseen_empty, Z.add_0_l in Hv. fold (trusted_power cid vals commit) in Hv. nia.
  - rewrite unseen_empty, Z.add_0_l. rewrite (sumZ_ext _ VotingPower) by (by apply Forall_forall). power_lia.
Qed.

(** A commit accepted by [VerifyCommitLightTrusting] carries valid
    signatures for its block from validators of the trusted set, each counted
    once, whose power exceeds the trust level's share of the total power; the
    trust level's numerator and denominator are below [MaxInt64], as
    [ParseFraction] enforces. *)
Theorem trusting_commit_sound cid vals commit num den :
  wf_set vals -> len (Validators vals) <= MaxInt32 -> len (c_Signatures commit) <= MaxInt32 ->
  0 <= num <= MaxInt64 -> 0 < den <= MaxInt64 ->
  VerifyCommitLightTrusting cid (Some vals) (Some commit) (mkFraction num den) = Val tt ->
  num * total vals < den * trusted_power cid vals commit.
Proof. apply trusting_sound. Qed.
End commits.

(** ** A trust level beyond the int64 range

    [VerifyCommitLightTrusting] converts the unsigned denominator to [int64].
    For a denominator above [MaxInt64] the power needed is negative and a commit
    without any signature is accepted, although the level lies between one third
    and one. *)

Definition wide_level : Fraction := mkFraction (2 ^ 62 - 3) (3 * 2 ^ 62 - 10).
Definition pair_set : ValidatorSet :=
  match NewValidatorSet [sample_validator x01 1; sample_validator x02 1] with Val v => v | _ => empty_set end.
Definition empty_commit : Commit := mkCommit 5 0 (sample_blockid x07) [].

(** With a denominator above [MaxInt64] the trusting verification accepts
    a commit that carries no signature at all, for every choice of the
    cryptographic primitives, although the trust level is between 1/3 and 1. *)
Theorem trusting_wide_level_accepts_nothing `{!Crypto, !BatchCrypto, !TimeCodec} cid :
  Denominator wide_level <= 3 * Numerator wide_level /\ Numerator wide_level < Denominator wide_level /\
  is_uint64 (Denominator wide_level) /\ total pair_set = 2 /\
  VerifyCommitLightTrusting cid (Some pair_set) (Some empty_commit) wide_level = Val tt.
Proof. by vm_compute. Qed.

(** ** Concrete primitives, to evaluate the definitions *)

(** A toy signature is the first byte of the key followed by the message. *)
Definition toy_verify (pk : PubKey) (msg sig : bytes) : bool := bytes_equal sig (take 1 (pk_Bytes pk) ++ msg).
Definition toy_crypto : Crypto := {| pk_Address := fun pk => take 20 (pk_Bytes pk); VerifySignature := toy_verify |}.
Definition toy_batch : BatchCrypto :=
  {| decodable := fun _ _ => true;
     BatchVerify := fun es => (forallb (fun '(pk, msg, sig) => toy_verify pk msg sig) es,
                               (fun '(pk, msg, sig) => toy_verify pk msg sig) <$> es) |}.
Lemma toy_batch_laws : @BatchLaws toy_crypto toy_batch.
Proof.
  split; [done|]. intros es. simpl. induction es as [|[[pk m] s] es IH]; [done|].
  rewrite fmap_cons. cbn [forallb id]. by rewrite IH.
Qed.
Lemma toy_decode_law : @DecodeLaw toy_crypto toy_batch.
Proof. done. Qed.

(** A commit for height 5 signed by the validators with the given first key byte. *)
Definition toy_commit_frame (sigs : list CommitSig) : Commit := mkCommit 5 1 (sample_blockid x07) sigs.
Definition toy_sig (i : Z) (b : byte) : CommitSig :=
  let blank := mkCommitSig BlockIDFlagCommit (replicate 20 b) 77 [] in
  let vote := mkVote PrecommitType 5 1 (sample_blockid x07) 77 (replicate 20 b) i [] in
  match @VoteSignBytes toy_time [x61] vote with
  | Val bz => mkCommitSig BlockIDFlagCommit (replicate 20 b) 77 (b :: bz)
  | _ => blank
  end.
(** The sample set is sorted by power: 3, 2, 1; the first two sign. *)
Definition sample_commit : Commit := toy_commit_frame [toy_sig 0 x03; toy_sig 1 x02; NewCommitSigAbsent].

Definition key_type_is (kt : KeyType) (v : Validator) : bool :=
  match PubKey_ v with Some pk => bool_decide (pk_Type pk = kt) | None => false end.
Definition one_key_typeb (vals : ValidatorSet) (kt : KeyType) : bool :=
  forallb (key_type_is kt) (Validators vals) &&
  match Proposer vals with Some p => key_type_is kt p | None => false end.
Lemma one_key_typeb_spec vals kt : one_key_typeb vals kt = true -> one_key_type vals kt.
Proof.
  assert (Hk : forall v, key_type_is kt v = true -> exists pk, PubKey_ v = Some pk /\ pk_Type pk = kt).
  { intros v. unfold key_type_is. destruct (PubKey_ v) as [pk|]; [|done]. rewrite bool_decide_eq_true. by exists pk. }
  unfold one_key_typeb. rewrite andb_true_iff, forallb_forall. intros [Hl Hp]. split.
  - apply Forall_forall. intros v Hv. by apply Hk, Hl, list_elem_of_In.
  - destruct (Proposer vals) as [p|]; [|done]. destruct (Hk p Hp) as (pk & ? & ?). by exists p, pk.
Qed.

Lemma sample_one_key : one_key_type sample_set Ed25519.
Proof. apply one_key_typeb_spec. vm_compute. reflexivity. Qed.

Lemma verify_commit_exact_witness :
  @VerifyCommit toy_crypto toy_batch toy_time [x61] (Some sample_set) (sample_blockid x07) 5 (Some sample_commit) = Val tt.
Proof.
  apply (@verify_commit_exact toy_crypto toy_batch toy_time toy_batch_laws toy_decode_law
    [x61] sample_set sample_commit (sample_blockid x07) 5 Ed25519).
  - exact (reachable_invariant _ sample_reachable).
  - exact sample_nonempty.
  - exact sample_one_key.
  - vm_compute. discriminate.
  - vm_compute. repeat split.
Defined.

Lemma verified_commit_two_thirds_witness :
  2 * total sample_set < 3 * @signed_power toy_crypto toy_time [x61] sample_set sample_commit.
Proof.
  apply (@verified_commit_two_thirds toy_crypto toy_batch toy_time toy_batch_laws [x61] sample_set sample_commit
    (sample_blockid x07) 5).
  - exact (reachable_invariant _ sample_reachable).
  - vm_compute. discriminate.
  - right. vm_compute. reflexivity.
Defined.

Lemma trusting_commit_sound_witness :
  1 * total sample_set < 3 * @trusted_power toy_crypto toy_time [x61] sample_set sample_commit.
Proof.
  apply (@trusting_commit_sound toy_crypto toy_batch toy_time toy_batch_laws [x61] sample_set sample_commit 1 3).
  - exact (reachable_invariant _ sample_reachable).
  - vm_compute. discriminate.
  - vm_compute. discriminate.
  - vm_compute. split; discriminate.
  - vm_compute. split; [reflexivity|discriminate].
  - vm_compute. reflexivity.
Defined.
