(* ===== verification/VoteSet.v ===== *)
(** * types/vote_set.go: collecting votes at one height, round and step

    A [*blockVotes] is held by the map [votesByBlock] only and is modelled by
    the value under its key.  [AddVote] returns the new set together with the
    Go results [(added, err)], because a conflicting vote is reported as an
    error although the set may have changed. *)
From Stdlib Require Import ZArith Lia Strings.Byte.
From stdpp Require Import base list strings gmap.
From S2P Require Import Prelude.
From S2P Require Import BitArray.
From S2P Require Import Validator.
From S2P Require Import Types.

Definition MaxVotesCount : Z := 10000.

Record blockVotes := mkBlockVotes {
  bv_peerMaj23 : bool;
  bv_bitArray : option BitArray.BitArray;
  bv_votes : list (option Vote);
  bv_sum : Z
}.

Record VoteSet := mkVoteSet {
  vs_chainID : ChainID;
  vs_height : Z;
  vs_round : Z;
  vs_signedMsgType : Z;
  vs_valSet : ValidatorSet;
  vs_votesBitArray : option BitArray.BitArray;
  vs_votes : list (option Vote);
  vs_sum : Z;
  vs_maj23 : option BlockID;
  vs_votesByBlock : gmap bytes blockVotes;
  vs_peerMaj23s : gmap bytes BlockID
}.

Definition newBlockVotes (peerMaj23 : bool) (numValidators : Z) : blockVotes :=
  mkBlockVotes peerMaj23 (BitArray.NewBitArray numValidators) (replicate (Z.to_nat numValidators) None) 0.

Definition NewVoteSet (chainID : ChainID) (height round signedMsgType : Z) (valSet : ValidatorSet) : go VoteSet :=
  _ ← panic_if (height =? 0) "Cannot make VoteSet for height == 0, doesn't make sense.";
  Val (mkVoteSet chainID height round signedMsgType valSet
         (BitArray.NewBitArray (Validator.Size valSet))
         (replicate (Z.to_nat (Validator.Size valSet)) None) 0 None ∅ ∅).

(** Field updates. *)
Definition with_vote (vs : VoteSet) (votes : list (option Vote)) (bits : option BitArray.BitArray) (sum : Z) : VoteSet :=
  mkVoteSet (vs_chainID vs) (vs_height vs) (vs_round vs) (vs_signedMsgType vs) (vs_valSet vs)
    bits votes sum (vs_maj23 vs) (vs_votesByBlock vs) (vs_peerMaj23s vs).
Definition with_block (vs : VoteSet) (key : bytes) (bv : blockVotes) : VoteSet :=
  mkVoteSet (vs_chainID vs) (vs_height vs) (vs_round vs) (vs_signedMsgType vs) (vs_valSet vs)
    (vs_votesBitArray vs) (vs_votes vs) (vs_sum vs) (vs_maj23 vs) (<[key := bv]> (vs_votesByBlock vs)) (vs_peerMaj23s vs).
Definition with_maj23 (vs : VoteSet) (maj23 : BlockID) (votes : list (option Vote)) : VoteSet :=
  mkVoteSet (vs_chainID vs) (vs_height vs) (vs_round vs) (vs_signedMsgType vs) (vs_valSet vs)
    (vs_votesBitArray vs) votes (vs_sum vs) (Some maj23) (vs_votesByBlock vs) (vs_peerMaj23s vs).
Definition with_valSet (vs : VoteSet) (valSet : ValidatorSet) : VoteSet :=
  mkVoteSet (vs_chainID vs) (vs_height vs) (vs_round vs) (vs_signedMsgType vs) valSet
    (vs_votesBitArray vs) (vs_votes vs) (vs_sum vs) (vs_maj23 vs) (vs_votesByBlock vs) (vs_peerMaj23s vs).
Definition with_peer (vs : VoteSet) (peer : bytes) (bid : BlockID) : VoteSet :=
  mkVoteSet (vs_chainID vs) (vs_height vs) (vs_round vs) (vs_signedMsgType vs) (vs_valSet vs)
    (vs_votesBitArray vs) (vs_votes vs) (vs_sum vs) (vs_maj23 vs) (vs_votesByBlock vs) (<[peer := bid]> (vs_peerMaj23s vs)).

(** [getByIndex] on a pointer that may be nil. *)
Definition getByIndex (bv : option blockVotes) (index : Z) : go (option Vote) :=
  match bv with None => Val None | Some bv => slice_get (bv_votes bv) index end.

Definition blockVotes_addVerifiedVote (bv : blockVotes) (vote : Vote) (votingPower : Z) : go blockVotes :=
  let valIndex := v_ValidatorIndex vote in
  existing ← slice_get (bv_votes bv) valIndex;
  match existing with
  | Some _ => Val bv
  | None =>
      '(bits, _) ← BitArray.SetIndex (bv_bitArray bv) valIndex true;
      votes ← slice_set (bv_votes bv) valIndex (Some vote);
      Val (mkBlockVotes (bv_peerMaj23 bv) bits votes (int64 (bv_sum bv + votingPower)))
  end.

Definition getVote (vs : VoteSet) (valIndex : Z) (blockKey : bytes) : go (option Vote) :=
  existing ← slice_get (vs_votes vs) valIndex;
  match existing with
  | Some v =>
      if bytes_equal (BlockID_Key (v_BlockID v)) blockKey then Val (Some v)
      else getByIndex (vs_votesByBlock vs !! blockKey) valIndex
  | None => getByIndex (vs_votesByBlock vs !! blockKey) valIndex
  end.

(** [votes[i] = vote] and the bit array. *)
Definition put_vote (vs : VoteSet) (vote : Vote) (addPower : Z) : go VoteSet :=
  votes ← slice_set (vs_votes vs) (v_ValidatorIndex vote) (Some vote);
  '(bits, _) ← BitArray.SetIndex (vs_votesBitArray vs) (v_ValidatorIndex vote) true;
  Val (with_vote vs votes bits (int64 (vs_sum vs + addPower))).

(** [for i, vote := range votesByBlock.votes { if vote != nil { votes[i] = vote } }]. *)
Fixpoint copy_votes (dst src : list (option Vote)) : go (list (option Vote)) :=
  match src with
  | [] => Val dst
  | v :: src' =>
      match dst with
      | [] => match v with
              | Some _ => Panic "index out of range"
              | None => copy_votes [] src'
              end
      | d :: dst' => rest ← copy_votes dst' src'; Val (match v with Some _ => v | None => d end :: rest)
      end
  end.

(** The first part of [addVerifiedVote]: the canonical list; returns the conflicting vote. *)
Definition add_canonical (vs : VoteSet) (vote : Vote) (blockKey : bytes) (votingPower : Z)
    : go (VoteSet * option Vote) :=
  existing ← slice_get (vs_votes vs) (v_ValidatorIndex vote);
  match existing with
  | Some existing =>
      _ ← panic_if (BlockID_Equals (v_BlockID existing) (v_BlockID vote)) "addVerifiedVote does not expect duplicate votes";
      let replace := match vs_maj23 vs with
                     | Some m => bytes_equal (BlockID_Key m) blockKey
                     | None => false
                     end in
      vs ← (if replace then put_vote vs vote 0 else Val vs);
      Val (vs, Some existing)
  | None =>
      vs ← put_vote vs vote votingPower;
      Val (vs, None)
  end.

(** The second part: the votes of the block, and the first quorum. *)
Definition add_to_block (vs : VoteSet) (bv : blockVotes) (vote : Vote) (blockKey : bytes) (votingPower : Z)
    : go VoteSet :=
  let origSum := bv_sum bv in
  '(total, valSet) ← TotalVotingPower (vs_valSet vs);
  let quorum := int64 (Z.quot (int64 (total * 2)) 3 + 1) in
  bv ← blockVotes_addVerifiedVote bv vote votingPower;
  let vs := with_block (with_valSet vs valSet) blockKey bv in
  if (origSum <? quorum) && (quorum <=? bv_sum bv) then
    match vs_maj23 vs with
    | None => votes ← copy_votes (vs_votes vs) (bv_votes bv); Val (with_maj23 vs (v_BlockID vote) votes)
    | Some _ => Val vs
    end
  else Val vs.

Definition addVerifiedVote (vs : VoteSet) (vote : Vote) (blockKey : bytes) (votingPower : Z)
    : go (VoteSet * bool * option Vote) :=
  '(vs, conflicting) ← add_canonical vs vote blockKey votingPower;
  match vs_votesByBlock vs !! blockKey, conflicting with
  | Some bv, Some c =>
      if negb (bv_peerMaj23 bv) then Val (vs, false, conflicting)
      else vs ← add_to_block vs bv vote blockKey votingPower; Val (vs, true, conflicting)
  | Some bv, None => vs ← add_to_block vs bv vote blockKey votingPower; Val (vs, true, None)
  | None, Some _ => Val (vs, false, conflicting)
  | None, None =>
      vs ← add_to_block vs (newBlockVotes false (Validator.Size (vs_valSet vs))) vote blockKey votingPower;
      Val (vs, true, None)
  end.

Inductive AddVoteError :=
  | ErrVoteNil
  | ErrVoteInvalidValidatorIndex
  | ErrVoteInvalidAddress
  | ErrVoteUnexpectedStep
  | ErrVoteNonDeterministicSignature
  | ErrVoteVerify (e : VoteVerifyError)
  | ErrVoteConflictingVotes (voteA voteB : Vote).

Section add.
Context `{!Crypto, !TimeCodec}.

Definition addVote (vs : VoteSet) (vote : option Vote) : go (VoteSet * bool * option AddVoteError) :=
  match vote with
  | None => Val (vs, false, Some ErrVoteNil)
  | Some vote =>
      let valIndex := v_ValidatorIndex vote in
      let valAddr := v_ValidatorAddress vote in
      let blockKey := BlockID_Key (v_BlockID vote) in
      if valIndex <? 0 then Val (vs, false, Some ErrVoteInvalidValidatorIndex)
      else if len valAddr =? 0 then Val (vs, false, Some ErrVoteInvalidAddress)
      else if negb (v_Height vote =? vs_height vs) || negb (v_Round vote =? vs_round vs) ||
              negb (v_Type vote =? vs_signedMsgType vs)
      then Val (vs, false, Some ErrVoteUnexpectedStep)
      else
        match Validator.GetByIndex (vs_valSet vs) valIndex with
        | None => Val (vs, false, Some ErrVoteInvalidValidatorIndex)
        | Some (lookupAddr, val) =>
            if negb (bytes_equal valAddr lookupAddr) then Val (vs, false, Some ErrVoteInvalidAddress)
            else
              existing ← getVote vs valIndex blockKey;
              match existing with
              | Some e =>
                  Val (vs, false,
                    if bytes_equal (v_Signature e) (v_Signature vote) then None
                    else Some ErrVoteNonDeterministicSignature)
              | None =>
                  match PubKey_ val with
                  | None => Panic "invalid memory address or nil pointer dereference"
                  | Some pk =>
                      match Vote_Verify vote (vs_chainID vs) pk with
                      | Panic w => Panic w
                      | Fail e => Val (vs, false, Some (ErrVoteVerify e))
                      | Val _ =>
                          '(vs, added, conflicting) ← addVerifiedVote vs vote blockKey (VotingPower val);
                          match conflicting with
                          | Some c => Val (vs, added, Some (ErrVoteConflictingVotes c vote))
                          | None => _ ← panic_if (negb added) "Expected to add non-conflicting vote"; Val (vs, added, None)
                          end
                      end
                  end
              end
        end
  end.

Definition AddVote (vs : option VoteSet) (vote : option Vote) : go (VoteSet * bool * option AddVoteError) :=
  match vs with None => Panic "AddVote() on nil VoteSet" | Some vs => addVote vs vote end.
End add.

(** [SetPeerMaj23]: the boolean is [err != nil]. *)
Definition SetPeerMaj23 (vs : VoteSet) (peerID : bytes) (blockID : BlockID) : VoteSet * bool :=
  let blockKey := BlockID_Key blockID in
  match vs_peerMaj23s vs !! peerID with
  | Some existing => (vs, negb (BlockID_Equals existing blockID))
  | None =>
      let vs := with_peer vs peerID blockID in
      match vs_votesByBlock vs !! blockKey with
      | Some bv =>
          if bv_peerMaj23 bv then (vs, false)
          else (with_block vs blockKey (mkBlockVotes true (bv_bitArray bv) (bv_votes bv) (bv_sum bv)), false)
      | None => (with_block vs blockKey (newBlockVotes true (Validator.Size (vs_valSet vs))), false)
      end
  end.

(** ** Queries *)

Definition VoteSet_BitArray (vs : option VoteSet) : option BitArray.BitArray :=
  match vs with None => None | Some vs => vs_votesBitArray vs end.
Definition BitArrayByBlockID (vs : VoteSet) (blockID : BlockID) : option BitArray.BitArray :=
  match vs_votesByBlock vs !! BlockID_Key blockID with Some bv => bv_bitArray bv | None => None end.
Definition VoteSet_GetByIndex (vs : VoteSet) (valIndex : Z) : go (option Vote) :=
  if valIndex >=? len (vs_votes vs) then Val None else slice_get (vs_votes vs) valIndex.
Definition VoteSet_List (vs : VoteSet) : list Vote := omap id (vs_votes vs).
Definition VoteSet_GetByAddress (vs : VoteSet) (address : bytes) : go (option Vote) :=
  match Validator.GetByAddress (vs_valSet vs) address with
  | (_, None) => Panic "GetByAddress(address) returned nil"
  | (valIndex, Some _) => slice_get (vs_votes vs) valIndex
  end.
Definition HasTwoThirdsMajority (vs : VoteSet) : bool := bool_decide (is_Some (vs_maj23 vs)).
Definition VoteSet_IsCommit (vs : VoteSet) : bool :=
  (vs_signedMsgType vs =? PrecommitType) && bool_decide (is_Some (vs_maj23 vs)).
Definition HasTwoThirdsAny (vs : VoteSet) : go bool :=
  '(total, _) ← TotalVotingPower (vs_valSet vs);
  Val (vs_sum vs >? Z.quot (int64 (total * 2)) 3).
Definition HasAll (vs : VoteSet) : go bool :=
  '(total, _) ← TotalVotingPower (vs_valSet vs);
  Val (vs_sum vs =? total).
Definition TwoThirdsMajority (vs : VoteSet) : BlockID * bool :=
  match vs_maj23 vs with Some b => (b, true) | None => (nilBlockID, false) end.

(** ** Commits *)

Fixpoint commit_sigs (maj23 : BlockID) (votes : list (option Vote)) : go (list CommitSig) :=
  match votes with
  | [] => Val []
  | v :: rest =>
      cs ← Vote_CommitSig v;
      let cs := if ForBlock cs && negb (match v with Some v => BlockID_Equals (v_BlockID v) maj23 | None => false end)
                then NewCommitSigAbsent else cs in
      sigs ← commit_sigs maj23 rest;
      Val (cs :: sigs)
  end.

Definition MakeCommit (vs : VoteSet) : go Commit :=
  _ ← panic_if (negb (vs_signedMsgType vs =? PrecommitType)) "Cannot MakeCommit() unless VoteSet.Type is PrecommitType";
  match vs_maj23 vs with
  | None => Panic "Cannot MakeCommit() unless a blockhash has +2/3"
  | Some maj23 =>
      sigs ← commit_sigs maj23 (vs_votes vs);
      Val (mkCommit (vs_height vs) (vs_round vs) maj23 sigs)
  end.

(** [CommitToVoteSet] of types/block.go. *)
Fixpoint add_commit_votes `{!Crypto, !TimeCodec} (commit : Commit) (idx : Z) (sigs : list CommitSig) (vs : VoteSet) : go VoteSet :=
  match sigs with
  | [] => Val vs
  | cs :: rest =>
      if Absent cs then add_commit_votes commit (idx + 1) rest vs
      else
        vote ← Commit_GetVote commit (int32 idx);
        '(vs, added, err) ← AddVote (Some vs) (Some vote);
        match added, err with
        | true, None => add_commit_votes commit (idx + 1) rest vs
        | _, _ => Panic "Failed to reconstruct LastCommit"
        end
  end.

Definition CommitToVoteSet `{!Crypto, !TimeCodec} (chainID : ChainID) (commit : Commit) (vals : ValidatorSet) : go VoteSet :=
  vs ← NewVoteSet chainID (c_Height commit) (c_Round commit) PrecommitType vals;
  add_commit_votes commit 0 (c_Signatures commit) vs.
