(* ===== verification/VoteSetProofs.v ===== *)
(** * types/vote_set.go: vote sets find quorums and report equivocation

    The invariant of a vote set, its preservation by [AddVote] and
    [SetPeerMaj23], and what follows for every reachable set: no panic, exact
    tallies, a two-thirds majority that is real and stable, evidence for
    conflicting votes, and commits that verify. *)
From Stdlib Require Import ZArith Lia Strings.Byte.
From stdpp Require Import base list strings gmap.
From S2P Require Import Prelude.
From S2P Require Import BitArray.
From S2P Require Import BitArrayProofs.
From S2P Require Import Validator.
From S2P Require Import ProposerProofs.
From S2P Require Import ValidatorUpdateProofs.
From S2P Require Import ValidatorSetProofs.
From S2P Require Import Types.
From S2P Require Import SignBytesProofs.
From S2P Require Import Validation.
From S2P Require Import ValidationProofs.
From S2P Require Import VoteSet.

(** ** The power of a list of votes *)

Definition vote_counts (P : Vote -> bool) (o : option Vote) : bool :=
  match o with Some v => P v | None => false end.

(** The power of the validators whose vote satisfies [P]. *)
Fixpoint held (P : Vote -> bool) (l : list Validator) (votes : list (option Vote)) : Z :=
  match l, votes with
  | val :: l', o :: votes' => (if vote_counts P o then VotingPower val else 0) + held P l' votes'
  | _, _ => 0
  end.

Definition any_vote (_ : Vote) : bool := true.
Definition for_block (b : BlockID) (v : Vote) : bool := bool_decide (v_BlockID v = b).

Section held.
Context (l : list Validator) (Hpos : Forall (fun v => 0 < VotingPower v) l).

Lemma held_bounds P votes : 0 <= held P l votes <= sumZ VotingPower l.
Proof.
  revert votes. induction Hpos as [|v l' Hv Hl IH]; intros [|o votes]; cbn [held];
    unfold sumZ; cbn [foldr]; try lia; fold (sumZ VotingPower l').
  - pose proof (total_nonneg l' Hl). lia.
  - specialize (IH Hl votes). destruct (vote_counts P o); lia.
Qed.

Lemma held_mono P Q votes votes' :
  (forall i o o', votes !! i = Some o -> votes' !! i = Some o' -> vote_counts P o = true -> vote_counts Q o' = true) ->
  length votes = length votes' -> held P l votes <= held Q l votes'.
Proof.
  revert votes votes'. induction Hpos as [|v l' Hv Hl IH]; intros [|o votes] [|o' votes'] Hsub Hlen; cbn [held];
    try done; try lia.
  pose proof (Hsub 0%nat o o' eq_refl eq_refl).
  assert (held P l' votes <= held Q l' votes').
  { apply IH; [done| |by injection Hlen]. intros i. apply (Hsub (S i)). }
  destruct (vote_counts P o); [rewrite H by done; lia|]. destruct (vote_counts Q o'); lia.
Qed.

(** Two lists of votes cannot both hold much power without overlapping. *)
Fixpoint held_both (P Q : Vote -> bool) (l : list Validator) (votes votes' : list (option Vote)) : Z :=
  match l, votes, votes' with
  | val :: l', o :: vs, o' :: vs' =>
      (if vote_counts P o && vote_counts Q o' then VotingPower val else 0) + held_both P Q l' vs vs'
  | _, _, _ => 0
  end.

Lemma held_overlap P Q votes votes' :
  length votes = length votes' ->
  held P l votes + held Q l votes' <= sumZ VotingPower l + held_both P Q l votes votes'.
Proof.
  revert votes votes'. induction Hpos as [|v l' Hv Hl IH]; intros [|o votes] [|o' votes'] Hlen; cbn [held held_both];
    unfold sumZ; cbn [foldr]; try done; try lia; fold (sumZ VotingPower l').
  - pose proof (total_nonneg l' Hl). lia.
  - specialize (IH Hl votes votes' ltac:(by injection Hlen)).
    destruct (vote_counts P o), (vote_counts Q o'); simpl; lia.
Qed.
End held.

Lemma held_none P l n : held P l (replicate n None) = 0.
Proof. revert l. induction n as [|n IH]; intros [|v l]; cbn [held replicate]; try done. simpl. by rewrite IH. Qed.

Lemma held_insert P l votes i val o o' :
  l !! i = Some val -> votes !! i = Some o ->
  held P l (<[i := o']> votes) =
  held P l votes - (if vote_counts P o then VotingPower val else 0) + (if vote_counts P o' then VotingPower val else 0).
Proof.
  revert l i. induction votes as [|x votes IH]; intros [|v l] [|i] Hl Hv; simpl in *; try done; simplify_eq.
  - lia.
  - rewrite (IH _ _ Hl Hv). lia.
Qed.

(** ** The invariant *)

Section inv.
Context `{!Crypto, !TimeCodec}.

Abbreviation validators vs := (Validators (vs_valSet vs)).

(** What [v] must satisfy to stand at index [i] of a vote set. *)
Definition valid_vote (vs : VoteSet) (i : nat) (v : Vote) : Prop :=
  v_ValidatorIndex v = Z.of_nat i /\ v_Height v = vs_height vs /\ v_Round v = vs_round vs /\
  v_Type v = vs_signedMsgType vs /\ votable (v_BlockID v) /\
  exists val pk, validators vs !! i = Some val /\ v_ValidatorAddress v = Address val /\ PubKey_ val = Some pk /\
    Vote_Verify v (vs_chainID vs) pk = Val tt.

(** The least power that exceeds two thirds. *)
Definition quorum (vs : VoteSet) : Z := (2 * total (vs_valSet vs)) / 3 + 1.

Record block_inv (vs : VoteSet) (key : bytes) (bv : blockVotes) : Prop := {
  bi_len : length (bv_votes bv) = length (validators vs);
  bi_valid : forall i v, bv_votes bv !! i = Some (Some v) ->
    valid_vote vs i v /\ BlockID_Key (v_BlockID v) = key /\ exists v', vs_votes vs !! i = Some (Some v');
  bi_sum : bv_sum bv = held any_vote (validators vs) (bv_votes bv);
  bi_bits : bits_ok (bv_bitArray bv) (bv_votes bv)
}.

(** A majority is the block of a quorum whose votes are the canonical ones. *)
Definition maj_inv (vs : VoteSet) : Prop :=
  match vs_maj23 vs with
  | Some b => votable b /\ exists bv, vs_votesByBlock vs !! BlockID_Key b = Some bv /\ quorum vs <= bv_sum bv /\
      forall i v, bv_votes bv !! i = Some (Some v) -> vs_votes vs !! i = Some (Some v)
  | None => forall key bv, vs_votesByBlock vs !! key = Some bv -> bv_sum bv < quorum vs
  end.

(** Every canonical vote is for the majority or is among the votes of its block. *)
Definition tracked (vs : VoteSet) (i : nat) (v : Vote) : Prop :=
  vs_maj23 vs = Some (v_BlockID v) \/
  exists bv, vs_votesByBlock vs !! BlockID_Key (v_BlockID v) = Some bv /\ bv_votes bv !! i = Some (Some v).

(** The invariant, where the canonical vote at index [u] may not be tracked yet. *)
Record inv_but (u : option nat) (vs : VoteSet) : Prop := {
  inv_set : wf_set (vs_valSet vs);
  inv_keys : Forall (fun v => is_Some (PubKey_ v)) (validators vs);
  inv_size : len (validators vs) <= MaxInt32;
  inv_len : length (vs_votes vs) = length (validators vs);
  inv_valid : forall i v, vs_votes vs !! i = Some (Some v) -> valid_vote vs i v;
  inv_tracked : forall i v, u <> Some i -> vs_votes vs !! i = Some (Some v) -> tracked vs i v;
  inv_sum : vs_sum vs = held any_vote (validators vs) (vs_votes vs);
  inv_bits : bits_ok (vs_votesBitArray vs) (vs_votes vs);
  inv_blocks : forall key bv, vs_votesByBlock vs !! key = Some bv -> block_inv vs key bv;
  inv_maj : maj_inv vs
}.
Definition inv : VoteSet -> Prop := inv_but None.

(** The parameters of a vote set, which no operation changes. *)
Definition same_step (vs vs' : VoteSet) : Prop :=
  vs_chainID vs' = vs_chainID vs /\ vs_height vs' = vs_height vs /\ vs_round vs' = vs_round vs /\
  vs_signedMsgType vs' = vs_signedMsgType vs /\ vs_valSet vs' = vs_valSet vs.

#[export] Instance same_step_preorder : PreOrder same_step.
Proof. unfold same_step. split; [firstorder|]. intros a b c. naive_solver congruence. Qed.

Lemma valid_vote_step vs vs' i v : same_step vs vs' -> valid_vote vs' i v <-> valid_vote vs i v.
Proof. unfold valid_vote, same_step. intros (-> & -> & -> & -> & ->). done. Qed.
Lemma quorum_step vs vs' : same_step vs vs' -> quorum vs' = quorum vs.
Proof. unfold quorum. by intros (_ & _ & _ & _ & ->). Qed.

(** The votes of a block stay valid when the canonical list keeps its entries. *)
Lemma block_inv_step vs vs' key bv :
  same_step vs vs' -> (forall i v, vs_votes vs !! i = Some (Some v) -> exists v', vs_votes vs' !! i = Some (Some v')) ->
  block_inv vs key bv -> block_inv vs' key bv.
Proof.
  intros Hs Hv [Hl Hval Hsum Hbits]. pose proof Hs as (_ & _ & _ & _ & Heq). split; rewrite ?Heq; try done.
  intros i v Hi. apply Hval in Hi as (H1 & H2 & v' & H3). rewrite (valid_vote_step vs) by done. eauto.
Qed.

Lemma new_block_inv vs peer key :
  len (validators vs) <= MaxInt32 -> block_inv vs key (newBlockVotes peer (Validator.Size (vs_valSet vs))).
Proof.
  intros Hs. unfold newBlockVotes, Validator.Size. split; simpl.
  - rewrite length_replicate. unfold len. lia.
  - by intros i v [? _]%lookup_replicate.
  - by rewrite held_none.
  - apply bits_ok_new. unfold len in *. lia.
Qed.

Lemma quorum_val vs :
  wf_set (vs_valSet vs) -> int64 (Z.quot (int64 (total (vs_valSet vs) * 2)) 3 + 1) = quorum vs.
Proof.
  intros Hwf. unfold quorum. pose proof (wf_max _ Hwf). pose proof (total_nonneg _ (wf_power _ Hwf)).
  rewrite two_thirds_needed by done.
  pose proof (Z.div_le_upper_bound (2 * total (vs_valSet vs)) 3 (2 * total (vs_valSet vs)) ltac:(lia) ltac:(lia)).
  pose proof (Z.div_pos (2 * total (vs_valSet vs)) 3 ltac:(lia) ltac:(lia)).
  apply int64_id. power_lia.
Qed.

Lemma quorum_pos vs : wf_set (vs_valSet vs) -> 0 < quorum vs.
Proof.
  intros Hwf. unfold quorum. pose proof (total_nonneg _ (wf_power _ Hwf)).
  pose proof (Z.div_pos (2 * total (vs_valSet vs)) 3 ltac:(lia) ltac:(lia)). lia.
Qed.

Lemma quorum_iff vs a : quorum vs <= a <-> 2 * total (vs_valSet vs) < 3 * a.
Proof. unfold quorum. rewrite <- exceeds_two_thirds. lia. Qed.

(** ** The canonical list *)

(** The vote is new: no vote of the same validator for the same block is known. *)
Definition fresh (vs : VoteSet) (i : nat) (key : bytes) : Prop :=
  (forall v, vs_votes vs !! i = Some (Some v) -> BlockID_Key (v_BlockID v) <> key) /\
  (forall bv v, vs_votesByBlock vs !! key = Some bv -> bv_votes bv !! i <> Some (Some v)).

Lemma put_vote_val vs i vote power :
  v_ValidatorIndex vote = Z.of_nat i -> (i < length (vs_votes vs))%nat -> bits_ok (vs_votesBitArray vs) (vs_votes vs) ->
  exists bits, put_vote vs vote power = Val (with_vote vs (<[i := Some vote]> (vs_votes vs)) bits (int64 (vs_sum vs + power)))
    /\ bits_ok bits (<[i := Some vote]> (vs_votes vs)).
Proof.
  intros Hidx Hi Hb. unfold put_vote. rewrite Hidx.
  rewrite (proj2 (slice_set_val (vs_votes vs) (Z.of_nat i) (Some vote) (<[i := Some vote]> (vs_votes vs))))
    by (rewrite Nat2Z.id; unfold len; split; [lia|done]).
  go_step. destruct (bits_ok_set _ _ _ vote Hb Hi) as (bits & b & -> & Hb'). go_step.
  by exists bits.
Qed.

(** Writing a new vote into the canonical list keeps the invariant, its tracking apart. *)
Lemma put_vote_inv vs i vote bits sum :
  inv vs -> valid_vote vs i vote -> fresh vs i (BlockID_Key (v_BlockID vote)) ->
  (vs_votes vs !! i = Some None \/ exists m, vs_maj23 vs = Some m /\ BlockID_Key m = BlockID_Key (v_BlockID vote)) ->
  bits_ok bits (<[i := Some vote]> (vs_votes vs)) ->
  sum = held any_vote (validators vs) (<[i := Some vote]> (vs_votes vs)) ->
  inv_but (Some i) (with_vote vs (<[i := Some vote]> (vs_votes vs)) bits sum).
Proof.
  intros [Hset Hkeys Hsize Hlen Hvalid Htr Hsum Hbits Hblocks Hmaj] Hv [_ Hfresh] Hcase Hb Hs.
  set (vs' := with_vote _ _ _ _). assert (Hst : same_step vs vs') by (repeat split).
  split; try done.
  - simpl. by rewrite length_insert.
  - intros j v Hj. apply (valid_vote_step vs vs' j v Hst). simpl in Hj.
    apply list_lookup_insert_Some in Hj as [(<- & [= <-] & _)|[_ Hj]]; [done|by apply Hvalid].
  - intros j v Hne Hj. simpl in Hj. rewrite list_lookup_insert_ne in Hj by congruence. by apply Htr.
  - intros key bv Hbv. apply (block_inv_step vs vs'); [done| |by apply Hblocks].
    intros j v Hj. simpl. destruct (decide (i = j)) as [->|Hne]; [|rewrite list_lookup_insert_ne by done; eauto].
    rewrite list_lookup_insert_eq by (by apply lookup_lt_Some in Hj). eauto.
  - unfold maj_inv in *. simpl. destruct (vs_maj23 vs) as [b|]; [|done].
    destruct Hmaj as (Hvb & bv & Hbv & Hq & Hin). split; [done|]. exists bv. split; [done|]. split; [done|].
    intros j v Hj. destruct (decide (i = j)) as [->|Hne]; [exfalso|rewrite list_lookup_insert_ne by done; by apply Hin].
    destruct Hcase as [Hnone|(m & [= <-] & Hk)].
    + apply Hin in Hj. congruence.
    + rewrite Hk in Hbv. by eapply Hfresh.
Qed.

(** The two outcomes of the first half of [addVerifiedVote]. *)
Definition canonical_post (vs : VoteSet) (i : nat) (vote : Vote) (vs1 : VoteSet) (c : option Vote) : Prop :=
  inv_but (Some i) vs1 /\ same_step vs vs1 /\
  vs_votesByBlock vs1 = vs_votesByBlock vs /\ vs_maj23 vs1 = vs_maj23 vs /\
  (forall j v, vs_votes vs !! j = Some (Some v) -> exists v', vs_votes vs1 !! j = Some (Some v')) /\
  ((vs_votes vs1 !! i = Some (Some vote) /\
     (c = None \/ exists e, c = Some e /\ vs_votes vs !! i = Some (Some e) /\ tracked vs1 i vote)) \/
   (exists e, c = Some e /\ vs1 = vs /\ vs_votes vs !! i = Some (Some e) /\
     forall m, vs_maj23 vs = Some m -> BlockID_Key m <> BlockID_Key (v_BlockID vote))).

Lemma inv_weaken u vs : inv vs -> inv_but u vs.
Proof. intros []. split; try done. intros. by apply inv_tracked0. Qed.

Lemma insert_keeps_present (votes : list (option Vote)) i vote j v :
  votes !! j = Some (Some v) -> exists v', <[i := Some vote]> votes !! j = Some (Some v').
Proof.
  intros Hj. destruct (decide (i = j)) as [->|Hne].
  - rewrite list_lookup_insert_eq by (by apply lookup_lt_Some in Hj). eauto.
  - rewrite list_lookup_insert_ne by done. eauto.
Qed.

(** The power added by a new vote keeps the sum within the total. *)
Lemma held_add_new vs i vote val :
  inv vs -> validators vs !! i = Some val -> vs_votes vs !! i = Some None ->
  int64 (vs_sum vs + VotingPower val) = held any_vote (validators vs) (<[i := Some vote]> (vs_votes vs)).
Proof.
  intros Hinv Hval Hnone. pose proof (inv_set _ _ Hinv) as Hwf.
  pose proof (held_bounds _ (wf_power _ Hwf) any_vote (<[i := Some vote]> (vs_votes vs))) as Hb.
  pose proof (wf_max _ Hwf). rewrite (held_insert _ _ _ _ val None) in Hb |- * by done. simpl in *.
  rewrite <- (inv_sum _ _ Hinv) in *. rewrite int64_id; power_lia.
Qed.

Lemma add_canonical_inv vs i vote val :
  inv vs -> valid_vote vs i vote -> validators vs !! i = Some val -> fresh vs i (BlockID_Key (v_BlockID vote)) ->
  exists vs1 c, add_canonical vs vote (BlockID_Key (v_BlockID vote)) (VotingPower val) = Val (vs1, c) /\
    canonical_post vs i vote vs1 c.
Proof.
  intros Hinv Hv Hval Hfresh. pose proof (proj1 Hv) as Hidx. unfold add_canonical. rewrite Hidx.
  assert (Hi : (i < length (vs_votes vs))%nat).
  { rewrite (inv_len _ _ Hinv). by apply lookup_lt_Some in Hval. }
  destruct (lookup_lt_is_Some_2 _ _ Hi) as [o Ho].
  rewrite (proj2 (slice_get_val (vs_votes vs) (Z.of_nat i) o)) by (rewrite Nat2Z.id; unfold len; split; [lia|done]).
  go_step. destruct (put_vote_val vs i vote (VotingPower val) Hidx Hi (inv_bits _ _ Hinv)) as (bits & Hp & Hb).
  destruct (put_vote_val vs i vote 0 Hidx Hi (inv_bits _ _ Hinv)) as (bits0 & Hp0 & Hb0).
  assert (Hins : <[i := Some vote]> (vs_votes vs) !! i = Some (Some vote)) by (by apply list_lookup_insert_eq).
  destruct o as [e|].
  - destruct (BlockID_Equals (v_BlockID e) (v_BlockID vote)) eqn:Heq.
    { apply BlockID_Equals_spec in Heq. exfalso. apply (proj1 Hfresh e Ho). by rewrite Heq. }
    go_step. destruct (vs_maj23 vs) as [m|] eqn:Hm.
    + destruct (bytes_equal_spec (BlockID_Key m) (BlockID_Key (v_BlockID vote))) as [Hk|Hk].
      * rewrite Hp0. go_step. eexists _, _. split; [done|].
        assert (Hbid : m = v_BlockID vote).
        { apply BlockID_Key_inj; [|apply Hv|done]. pose proof (inv_maj _ _ Hinv) as Hmaj. unfold maj_inv in Hmaj.
          rewrite Hm in Hmaj. apply Hmaj. }
        split; [|repeat split; try done; [by intros j v; apply insert_keeps_present|]].
        { apply put_vote_inv; [done|done|done|right; eauto|done|].
          rewrite (held_insert _ _ _ _ val (Some e)) by done. simpl. rewrite <- (inv_sum _ _ Hinv), Z.add_0_r.
          rewrite int64_id; [lia|]. rewrite (inv_sum _ _ Hinv).
          pose proof (held_bounds _ (wf_power _ (inv_set _ _ Hinv)) any_vote (vs_votes vs)).
          pose proof (wf_max _ (inv_set _ _ Hinv)). power_lia. }
        left. split; [done|]. right. exists e. split; [done|]. split; [done|]. left. simpl. by rewrite Hm, Hbid.
      * go_step. eexists _, _. split; [done|]. split; [by apply inv_weaken|]. repeat split; try done; [eauto|].
        right. exists e. split; [done|]. split; [done|]. split; [done|]. intros m' Hm'. congruence.
    + go_step. eexists _, _. split; [done|]. split; [by apply inv_weaken|]. repeat split; try done; [eauto|].
      right. exists e. split; [done|]. split; [done|]. split; [done|]. intros m' Hm'. congruence.
  - rewrite Hp. go_step. eexists _, _. split; [done|].
    split; [|repeat split; try done; [by intros j v; apply insert_keeps_present|]].
    { apply put_vote_inv; [done|done|done|by left|done|]. by apply held_add_new. }
    left. split; [done|]. by left.
Qed.

(** ** The votes of a block *)

Lemma block_add_val vs key bv i vote val :
  wf_set (vs_valSet vs) -> block_inv vs key bv -> valid_vote vs i vote -> BlockID_Key (v_BlockID vote) = key ->
  validators vs !! i = Some val -> (forall v, bv_votes bv !! i <> Some (Some v)) ->
  (exists v, vs_votes vs !! i = Some (Some v)) ->
  exists bv', blockVotes_addVerifiedVote bv vote (VotingPower val) = Val bv' /\ block_inv vs key bv' /\
    bv_votes bv' = <[i := Some vote]> (bv_votes bv).
Proof.
  intros Hwf [Hlen Hvalid Hsum Hbits] Hv Hk Hval Hnew Hpres. pose proof (proj1 Hv) as Hidx.
  assert (Hi : (i < length (bv_votes bv))%nat) by (rewrite Hlen; by apply lookup_lt_Some in Hval).
  destruct (lookup_lt_is_Some_2 _ _ Hi) as [o Ho]. destruct o as [v|]; [by destruct (Hnew v)|].
  unfold blockVotes_addVerifiedVote. rewrite Hidx.
  rewrite (proj2 (slice_get_val (bv_votes bv) (Z.of_nat i) None)) by (rewrite Nat2Z.id; unfold len; split; [lia|done]).
  go_step. destruct (bits_ok_set _ _ _ vote Hbits Hi) as (bits & b & -> & Hb'). go_step.
  rewrite (proj2 (slice_set_val (bv_votes bv) (Z.of_nat i) (Some vote) (<[i := Some vote]> (bv_votes bv))))
    by (rewrite Nat2Z.id; unfold len; split; [lia|done]).
  go_step. eexists. split; [done|]. split; [|done].
  pose proof (held_bounds _ (wf_power _ Hwf) any_vote (<[i := Some vote]> (bv_votes bv))) as Hbd.
  pose proof (wf_max _ Hwf). split; simpl.
  - by rewrite length_insert.
  - intros j v Hj. apply list_lookup_insert_Some in Hj as [(<- & [= <-] & _)|[_ Hj]]; [done|by apply Hvalid].
  - rewrite (held_insert _ _ _ _ val None) in Hbd |- * by done. simpl in *. rewrite <- Hsum in *.
    rewrite int64_id; power_lia.
  - done.
Qed.

Lemma copy_votes_val dst src :
  length dst = length src ->
  exists votes, copy_votes dst src = Val votes /\ length votes = length dst /\
    forall i, votes !! i = match src !! i with Some (Some v) => Some (Some v) | _ => dst !! i end.
Proof.
  revert dst. induction src as [|s src IH]; intros [|d dst] Hl; try done; cbn [copy_votes].
  { exists []. split; [done|]. split; [done|]. by intros []. }
  destruct (IH dst ltac:(by injection Hl)) as (votes & -> & Hlen & Hlk). go_step.
  eexists. split; [done|]. split; [by simpl; rewrite Hlen|]. intros [|i]; [by destruct s|]. apply Hlk.
Qed.

(** The block's votes have been extended; the majority is not decided yet. *)
Section extend.
Context (vs : VoteSet) (i : nat) (vote : Vote) (bv bv' : blockVotes).
Abbreviation key := (BlockID_Key (v_BlockID vote)).
Hypothesis Hinv : inv_but (Some i) vs.
Hypothesis Hv : valid_vote vs i vote.
Hypothesis Hbv : block_inv vs key bv.
Hypothesis Hold : vs_votesByBlock vs !! key = Some bv \/ vs_votesByBlock vs !! key = None.
Hypothesis Hnew : forall v, bv_votes bv !! i <> Some (Some v).
Hypothesis Hbv' : block_inv vs key bv'.
Hypothesis Hvotes : bv_votes bv' = <[i := Some vote]> (bv_votes bv).
Hypothesis Hcan : vs_votes vs !! i = Some (Some vote) \/
  (exists e, vs_votes vs !! i = Some (Some e) /\ tracked vs i e /\ BlockID_Key (v_BlockID e) <> key).
Hypothesis Hmaj : forall m, vs_maj23 vs = Some m -> BlockID_Key m = key -> vs_votes vs !! i = Some (Some vote).

Abbreviation vs2 := (with_block (with_valSet vs (vs_valSet vs)) key bv').

Lemma extend_lookup : bv_votes bv' !! i = Some (Some vote).
Proof.
  rewrite Hvotes, list_lookup_insert_eq; [done|]. rewrite (bi_len _ _ _ Hbv).
  destruct Hv as (_ & _ & _ & _ & _ & val & pk & Hval & _). by apply lookup_lt_Some in Hval.
Qed.

Lemma extend_sum_le : bv_sum bv <= bv_sum bv'.
Proof.
  rewrite (bi_sum _ _ _ Hbv), (bi_sum _ _ _ Hbv'). apply held_mono; [apply Hinv| |].
  - intros j o o' Ho Ho' Hc. rewrite Hvotes in Ho'. apply list_lookup_insert_Some in Ho' as [(_ & <- & _)|[_ Ho']]; [done|].
    by simplify_eq.
  - by rewrite Hvotes, length_insert.
Qed.

Lemma extend_tracked j v : vs_votes vs !! j = Some (Some v) -> tracked vs2 j v.
Proof.
  intros Hj. destruct (decide (j = i)) as [->|Hne].
  - destruct Hcan as [Hc|(e & Hc & Ht & Hke)].
    + assert (v = vote) as -> by congruence. right. exists bv'. simpl. rewrite lookup_insert. case_decide; [|done].
      split; [done|apply extend_lookup].
    + assert (v = e) as -> by congruence. destruct Ht as [?|(b & Hb & Hbi)]; [by left|]. right. exists b. simpl.
      by rewrite lookup_insert_ne by congruence.
  - destruct (inv_tracked _ _ Hinv j v) as [?|(b & Hb & Hbi)]; [congruence|done|by left|]. right. simpl.
    destruct (decide (BlockID_Key (v_BlockID v) = key)) as [Heq|Hneq].
    + exists bv'. rewrite Heq, lookup_insert, Hvotes, list_lookup_insert_ne by congruence. case_decide; [|done].
      split; [done|]. rewrite Heq in Hb. destruct Hold as [Ho|Ho]; congruence.
    + exists b. by rewrite lookup_insert_ne by congruence.
Qed.

Lemma extend_blocks k b : vs_votesByBlock vs2 !! k = Some b -> block_inv vs2 k b.
Proof.
  simpl. intros Hk. apply (block_inv_step vs); [by repeat split|simpl; eauto|].
  apply lookup_insert_Some in Hk as [[<- <-]|[_ Hk]]; [done|by eapply inv_blocks].
Qed.

(** Once a majority is known it stays. *)
Lemma extend_maj_known m : vs_maj23 vs = Some m -> inv vs2.
Proof.
  intros Hm. destruct Hinv as [H1 H2 H3 H4 H5 H6 H7 H8 H9 H10]. split; try done.
  - intros j v _ Hj. by apply extend_tracked.
  - apply extend_blocks.
  - unfold maj_inv in *. simpl. rewrite Hm in *. destruct H10 as (Hvm & b & Hb & Hq & Hin). split; [done|].
    destruct (decide (BlockID_Key m = key)) as [Heq|Hne].
    + exists bv'. rewrite Heq, lookup_insert. case_decide; [|done]. split; [done|].
      assert (b = bv) as ->. { rewrite Heq in Hb. destruct Hold; congruence. }
      split; [pose proof extend_sum_le; unfold quorum in *; simpl; lia|].
      intros j v Hj. rewrite Hvotes in Hj.
      apply list_lookup_insert_Some in Hj as [(<- & [= <-] & _)|[_ Hj]]; [by apply (Hmaj m)|by apply Hin].
    + exists b. by rewrite lookup_insert_ne by congruence.
Qed.

Lemma extend_maj_none : vs_maj23 vs = None -> bv_sum bv' < quorum vs -> inv vs2.
Proof.
  intros Hm Hlt. destruct Hinv as [H1 H2 H3 H4 H5 H6 H7 H8 H9 H10]. split; try done.
  - intros j v _ Hj. by apply extend_tracked.
  - apply extend_blocks.
  - unfold maj_inv in *. simpl. rewrite Hm in *. intros k b Hk.
    apply lookup_insert_Some in Hk as [[_ <-]|[_ Hk]]; [done|by apply (H10 k)].
Qed.

(** The first quorum: its votes become the canonical ones. *)
Lemma extend_maj_new votes :
  vs_maj23 vs = None -> quorum vs <= bv_sum bv' -> length votes = length (vs_votes vs) ->
  (forall j, votes !! j = match bv_votes bv' !! j with Some (Some v) => Some (Some v) | _ => vs_votes vs !! j end) ->
  inv (with_maj23 vs2 (v_BlockID vote) votes).
Proof.
  intros Hm Hq Hlen Hlk. set (vs3 := with_maj23 _ _ _). assert (Hst : same_step vs vs3) by (repeat split).
  assert (Hshape : forall j o o', vs_votes vs !! j = Some o -> votes !! j = Some o' -> is_Some o <-> is_Some o').
  { intros j o o' Ho Ho'. rewrite Hlk in Ho'. destruct (bv_votes bv' !! j) as [[v|]|] eqn:Hj; [|naive_solver..].
    apply (bi_valid _ _ _ Hbv') in Hj as (_ & _ & v' & Hv'). naive_solver. }
  assert (Hpres : forall j v, vs_votes vs !! j = Some (Some v) -> exists v', votes !! j = Some (Some v')).
  { intros j v Hj. rewrite Hlk. destruct (bv_votes bv' !! j) as [[v'|]|]; eauto. }
  destruct Hinv as [H1 H2 H3 H4 H5 H6 H7 H8 H9 H10]. split; try done.
  - simpl. by rewrite Hlen.
  - intros j v Hj. apply (valid_vote_step vs vs3 j v Hst). simpl in Hj. rewrite Hlk in Hj.
    destruct (bv_votes bv' !! j) as [[v'|]|] eqn:Hb; [|by apply H5..].
    simplify_eq. by apply (bi_valid _ _ _ Hbv').
  - intros j v _ Hj. simpl in Hj. rewrite Hlk in Hj. destruct (bv_votes bv' !! j) as [[v'|]|] eqn:Hb.
    + simplify_eq. right. exists bv'. simpl. apply (bi_valid _ _ _ Hbv') in Hb as Hb'. destruct Hb' as (_ & -> & _).
      by rewrite lookup_insert_eq.
    + destruct (extend_tracked j v Hj) as [Ht|Ht]; [simpl in Ht; congruence|by right].
    + destruct (extend_tracked j v Hj) as [Ht|Ht]; [simpl in Ht; congruence|by right].
  - simpl. rewrite H7. apply Z.le_antisymm; apply held_mono; try apply H1; try done; intros j o o' Ho Ho' Hc.
    + destruct o as [v|]; [|done]. destruct (Hpres j v Ho) as (v' & Hv'). by simplify_eq.
    + destruct o as [v|]; [|done]. assert (Hs : is_Some o') by (apply (Hshape j o' (Some v)); eauto).
      by destruct Hs as [? ->].
  - simpl. by eapply bits_ok_same_shape.
  - intros k b Hk. apply (block_inv_step vs vs3); [done|done|].
    simpl in Hk. apply lookup_insert_Some in Hk as [[<- <-]|[_ Hk]]; [done|by apply H9].
  - unfold maj_inv. simpl. split; [apply Hv|]. exists bv'. rewrite lookup_insert_eq. split; [done|]. split; [done|].
    intros j v Hj. by rewrite Hlk, Hj.
Qed.
End extend.

(** A vote is recorded among the votes of its block. *)
Definition recorded (vs : VoteSet) (i : nat) (vote : Vote) : Prop :=
  exists bv, vs_votesByBlock vs !! BlockID_Key (v_BlockID vote) = Some bv /\ bv_votes bv !! i = Some (Some vote).

(** What every operation guarantees about its result. *)
Definition advances (vs vs' : VoteSet) : Prop :=
  inv vs' /\ same_step vs vs' /\ (forall m, vs_maj23 vs = Some m -> vs_maj23 vs' = Some m) /\
  (forall j v, vs_votes vs !! j = Some (Some v) -> exists v', vs_votes vs' !! j = Some (Some v')).

Lemma add_to_block_inv vs i vote val bv :
  inv_but (Some i) vs -> valid_vote vs i vote -> validators vs !! i = Some val ->
  block_inv vs (BlockID_Key (v_BlockID vote)) bv ->
  (vs_votesByBlock vs !! BlockID_Key (v_BlockID vote) = Some bv \/
   (vs_votesByBlock vs !! BlockID_Key (v_BlockID vote) = None /\ bv_sum bv = 0)) ->
  (forall v, bv_votes bv !! i <> Some (Some v)) ->
  (vs_votes vs !! i = Some (Some vote) \/
   exists e, vs_votes vs !! i = Some (Some e) /\ tracked vs i e /\ BlockID_Key (v_BlockID e) <> BlockID_Key (v_BlockID vote)) ->
  (forall m, vs_maj23 vs = Some m -> BlockID_Key m = BlockID_Key (v_BlockID vote) -> vs_votes vs !! i = Some (Some vote)) ->
  exists vs', add_to_block vs bv vote (BlockID_Key (v_BlockID vote)) (VotingPower val) = Val vs' /\
    advances vs vs' /\ recorded vs' i vote.
Proof.
  intros Hinv Hv Hval Hbv Hold Hnew Hcan Hmaj. pose proof (inv_set _ _ Hinv) as Hwf.
  destruct (block_add_val vs _ bv i vote val Hwf Hbv Hv eq_refl Hval Hnew) as (bv' & Hadd & Hbv' & Hvotes).
  { destruct Hcan as [?|(e & ? & _)]; eauto. }
  unfold add_to_block. rewrite TotalVotingPower_val by apply Hwf. go_step. rewrite Hadd. go_step.
  rewrite quorum_val by done. set (vs2 := with_block _ _ _). assert (Hst : same_step vs vs2) by (repeat split).
  assert (Hold' : vs_votesByBlock vs !! BlockID_Key (v_BlockID vote) = Some bv \/
    vs_votesByBlock vs !! BlockID_Key (v_BlockID vote) = None) by naive_solver.
  assert (Hlk : bv_votes bv' !! i = Some (Some vote)) by (by apply (extend_lookup vs i vote bv bv')).
  assert (Hrec : forall mb votes, recorded (with_maj23 vs2 mb votes) i vote).
  { intros mb votes. exists bv'. simpl. by rewrite lookup_insert_eq. }
  assert (Hrec2 : recorded vs2 i vote). { exists bv'. simpl. by rewrite lookup_insert_eq. }
  destruct (vs_maj23 vs) as [m|] eqn:Hm.
  - assert (Hi2 : inv vs2) by (by eapply (extend_maj_known vs i vote bv bv'); rewrite ?Hm).
    assert (Hadv : advances vs vs2). { split; [done|]. split; [done|]. split; [done|]. eauto. }
    change (vs_maj23 vs2) with (vs_maj23 vs). rewrite Hm. exists vs2. destruct (_ && _); done.
  - assert (Hq0 : bv_sum bv < quorum vs).
    { destruct Hold as [Hb|[_ ->]]; [|by apply quorum_pos]. pose proof (inv_maj _ _ Hinv) as Hmi. unfold maj_inv in Hmi.
      rewrite Hm in Hmi. by eapply Hmi. }
    destruct (Z.ltb_spec (bv_sum bv) (quorum vs)) as [_|]; [|lia].
    destruct (Z.leb_spec (quorum vs) (bv_sum bv')) as [Hq|Hq]; simpl.
    + rewrite Hm. destruct (copy_votes_val (vs_votes vs) (bv_votes bv')) as (votes & -> & Hlen & Hl).
      { by rewrite (inv_len _ _ Hinv), (bi_len _ _ _ Hbv'). }
      go_step. eexists. split; [done|]. split; [|apply Hrec].
      assert (Hi3 : inv (with_maj23 vs2 (v_BlockID vote) votes)) by (by eapply (extend_maj_new vs i vote bv bv')).
      split; [done|]. split; [by repeat split|]. split; [by rewrite Hm|].
      intros j v Hj. simpl. rewrite Hl. destruct (bv_votes bv' !! j) as [[v'|]|]; eauto.
    + exists vs2. split; [done|]. split; [|done].
      assert (Hi2 : inv vs2) by (by eapply (extend_maj_none vs i vote bv bv'); rewrite ?Hm).
      split; [done|]. split; [done|]. split; [by rewrite Hm|]. eauto.
Qed.

Lemma inv_close vs i :
  inv_but (Some i) vs -> (forall v, vs_votes vs !! i = Some (Some v) -> tracked vs i v) -> inv vs.
Proof.
  intros [H1 H2 H3 H4 H5 H6 H7 H8 H9 H10] Ht. split; try done. intros j v _ Hj.
  destruct (decide (j = i)) as [->|]; [by apply Ht|]. apply H6; [congruence|done].
Qed.

(** A verified new vote: never a panic; a conflict is with a vote for another block. *)
Lemma addVerifiedVote_inv vs i vote val :
  inv vs -> valid_vote vs i vote -> validators vs !! i = Some val -> fresh vs i (BlockID_Key (v_BlockID vote)) ->
  exists vs' added c, addVerifiedVote vs vote (BlockID_Key (v_BlockID vote)) (VotingPower val) = Val (vs', added, c) /\
    advances vs vs' /\ (added = true -> recorded vs' i vote) /\
    match c with
    | None => added = true
    | Some e => vs_votes vs !! i = Some (Some e)
    end.
Proof.
  intros Hinv Hv Hval Hfresh.
  destruct (add_canonical_inv vs i vote val Hinv Hv Hval Hfresh) as (vs1 & c & Hadd & Hi1 & Hst & Hbb & Hmm & Hpres & Hcase).
  unfold addVerifiedVote. rewrite Hadd. go_step.
  assert (Hadv1 : inv vs1 -> advances vs vs1).
  { intros Hi. split; [done|]. split; [done|]. split; [by rewrite Hmm|done]. }
  assert (Hclose : forall e, c = Some e -> inv vs1).
  { intros e ->. apply (inv_close vs1 i Hi1). intros v Hv1.
    destruct Hcase as [(Hc & [?|(e' & _ & _ & Ht)])|(e' & _ & -> & He & _)]; [done|by simplify_eq|].
    by apply (inv_tracked _ _ Hinv). }
  assert (Hc : match c with None => True | Some e => vs_votes vs !! i = Some (Some e) end).
  { destruct Hcase as [(_ & [->|(e & -> & He & _)])|(e & -> & _ & He & _)]; done. }
  assert (Hgo : forall bv, (vs_votesByBlock vs1 !! BlockID_Key (v_BlockID vote) = Some bv \/
      (vs_votesByBlock vs1 !! BlockID_Key (v_BlockID vote) = None /\ bv_sum bv = 0)) ->
    block_inv vs1 (BlockID_Key (v_BlockID vote)) bv -> (forall v, bv_votes bv !! i <> Some (Some v)) ->
    exists vs', add_to_block vs1 bv vote (BlockID_Key (v_BlockID vote)) (VotingPower val) = Val vs' /\
      advances vs vs' /\ recorded vs' i vote).
  { intros bv Hold Hbi Hnew. destruct (add_to_block_inv vs1 i vote val bv) as (vs' & Hr & (Ha1 & Ha2 & Ha3 & Ha4) & Hrec);
      try done.
    - by apply (valid_vote_step vs).
    - destruct Hst as (_ & _ & _ & _ & Heq). by rewrite Heq.
    - destruct Hcase as [(Hc1 & _)|(e & -> & -> & He & _)]; [by left|right]. exists e. split; [done|].
      split; [by apply (inv_tracked _ _ Hinv)|by apply Hfresh].
    - intros m Hm Hk. destruct Hcase as [(Hc1 & _)|(e & -> & -> & He & Hno)]; [done|]. by destruct (Hno m Hm).
    - exists vs'. split; [done|]. split; [|done]. split; [done|]. split; [by transitivity vs1|].
      rewrite <- Hmm. split; [done|]. intros j v Hj. destruct (Hpres j v Hj) as (v' & Hv'). eauto. }
  destruct (vs_votesByBlock vs1 !! BlockID_Key (v_BlockID vote)) as [bv|] eqn:Hb.
  - destruct (Hgo bv) as (vs' & Hr & Hadv & Hrec); [by left|by apply (inv_blocks _ _ Hi1)|by intros v; rewrite Hbb in Hb; apply Hfresh|].
    destruct c as [e|]; [|rewrite Hr; go_step; by exists vs', true, None].
    destruct (bv_peerMaj23 bv); simpl; [|exists vs1, false, (Some e); naive_solver].
    rewrite Hr. go_step. by exists vs', true, (Some e).
  - destruct c as [e|]; [exists vs1, false, (Some e); naive_solver|].
    destruct (Hgo (newBlockVotes false (Validator.Size (vs_valSet vs1)))) as (vs' & Hr & Hadv & Hrec).
    + by right.
    + apply new_block_inv, Hi1.
    + by intros v [? _]%lookup_replicate.
    + rewrite Hr. go_step. by exists vs', true, None.
Qed.

(** ** AddVote *)

(** Votes as they come off the wire: the block ID is empty or complete and the
    time is in the range of the encoding. *)
Definition wire_vote (vote : Vote) : Prop :=
  votable (v_BlockID vote) /\ is_Some (StdTimeMarshal (v_Timestamp vote)).

Lemma votable_ValidateBasic b : votable b -> BlockID_ValidateBasic b = Val tt.
Proof.
  intros [Hb _]. unfold BlockID_ValidateBasic, PartSetHeader_ValidateBasic, ValidateHash.
  assert (Hl : (len (bid_Hash b) = 0 \/ len (bid_Hash b) = 32) /\
    (len (psh_Hash (bid_PartSetHeader b)) = 0 \/ len (psh_Hash (bid_PartSetHeader b)) = 32)).
  { destruct Hb as [Hb|Hb]; unfold BlockID_IsZero, PartSetHeader_IsZero, BlockID_IsComplete in Hb; inv_val; z_bool; lia. }
  by destruct Hl as [[-> | ->] [-> | ->]].
Qed.

Lemma wire_vote_sign_bytes cid vote : wire_vote vote -> exists b, VoteSignBytes cid vote = Val b.
Proof.
  intros [Hb [t Ht]]. unfold VoteSignBytes, CanonicalizeVote, CanonicalizeBlockID.
  rewrite votable_ValidateBasic by done. go_step. unfold CanonicalVote_Marshal. simpl. rewrite Ht. go_step. by eexists.
Qed.

Lemma wire_vote_verify cid vote pk :
  wire_vote vote -> Vote_Verify vote cid pk = Val tt \/ exists e, Vote_Verify vote cid pk = Fail e.
Proof.
  intros Hw. unfold Vote_Verify. destruct (wire_vote_sign_bytes cid vote Hw) as [b ->].
  destruct (negb (bytes_equal _ _)); go_step; [eauto|]. destruct (VerifySignature _ _ _); simpl; eauto.
Qed.

(** [getVote] finds nothing exactly when the vote is new. *)
Lemma getVote_spec vs i key :
  inv vs -> (i < length (validators vs))%nat ->
  (getVote vs (Z.of_nat i) key = Val None /\ fresh vs i key) \/
  exists v, getVote vs (Z.of_nat i) key = Val (Some v) /\ valid_vote vs i v /\ BlockID_Key (v_BlockID v) = key.
Proof.
  intros Hinv Hi. unfold getVote, getByIndex.
  destruct (lookup_lt_is_Some_2 (vs_votes vs) i) as [o Ho]; [by rewrite (inv_len _ _ Hinv)|].
  rewrite (proj2 (slice_get_val (vs_votes vs) (Z.of_nat i) o))
    by (rewrite Nat2Z.id; split; [unfold len; rewrite (inv_len _ _ Hinv); lia|done]). go_step.
  assert (Hblk : (forall v, o = Some v -> BlockID_Key (v_BlockID v) <> key) ->
    (match vs_votesByBlock vs !! key with None => Val None | Some bv => slice_get (bv_votes bv) (Z.of_nat i) end
       = Val (E := Empty_set) None /\ fresh vs i key) \/
    exists v, match vs_votesByBlock vs !! key with None => Val None | Some bv => slice_get (bv_votes bv) (Z.of_nat i) end
       = Val (E := Empty_set) (Some v) /\ valid_vote vs i v /\ BlockID_Key (v_BlockID v) = key).
  { intros Hne. destruct (vs_votesByBlock vs !! key) as [bv|] eqn:Hbv; [|left; split; [done|split; naive_solver]].
    pose proof (inv_blocks _ _ Hinv _ _ Hbv) as Hbi.
    destruct (lookup_lt_is_Some_2 (bv_votes bv) i) as [x Hx]; [by rewrite (bi_len _ _ _ Hbi)|].
    rewrite (proj2 (slice_get_val (bv_votes bv) (Z.of_nat i) x))
      by (rewrite Nat2Z.id; split; [unfold len; rewrite (bi_len _ _ _ Hbi); lia|done]).
    destruct x as [v|]; [|left; split; [done|]; split; [naive_solver|]; intros; simplify_eq; congruence].
    right. exists v. apply (bi_valid _ _ _ Hbi) in Hx as (? & ? & _). done. }
  destruct o as [v|]; [|by apply Hblk].
  destruct (bytes_equal_spec (BlockID_Key (v_BlockID v)) key) as [Hk|Hk]; [|apply Hblk; naive_solver].
  right. exists v. split; [done|]. split; [by apply (inv_valid _ _ Hinv)|done].
Qed.

(** What [AddVote] reports and does, for every vote it may be given. *)
Definition add_vote_post (vs : VoteSet) (vote : Vote) (vs' : VoteSet) (added : bool) (err : option AddVoteError) : Prop :=
  advances vs vs' /\
  match err with
  | None =>
      if added then exists i, valid_vote vs i vote /\ recorded vs' i vote
      else vs' = vs /\ exists i v, valid_vote vs i v /\ v_Signature v = v_Signature vote /\
        BlockID_Key (v_BlockID v) = BlockID_Key (v_BlockID vote)
  | Some (ErrVoteConflictingVotes a b) =>
      b = vote /\ v_BlockID a <> v_BlockID vote /\
      exists i, valid_vote vs i a /\ valid_vote vs i vote /\ (added = true -> recorded vs' i vote)
  | Some _ => added = false /\ vs' = vs
  end.

Lemma advances_refl vs : inv vs -> advances vs vs.
Proof. intros Hi. split; [done|]. split; [done|]. split; [done|]. eauto. Qed.

Lemma GetByIndex_lookup vals i :
  0 <= i -> Validator.GetByIndex vals i =
    match Validators vals !! Z.to_nat i with Some v => Some (Address v, v) | None => None end.
Proof.
  intros Hi. unfold Validator.GetByIndex, zlookup. destruct (Z.ltb_spec i 0); [lia|]. rewrite Z.geb_leb.
  destruct (Z.leb_spec 0 i); [|lia]. simpl. destruct (Z.leb_spec (len (Validators vals)) i) as [Hl|]; [|done].
  by rewrite lookup_ge_None_2 by (unfold len in Hl; lia).
Qed.

Lemma addVote_spec vs vote :
  inv vs -> wire_vote vote -> v_ValidatorIndex vote <= MaxInt32 ->
  exists vs' added err, addVote vs (Some vote) = Val (vs', added, err) /\ add_vote_post vs vote vs' added err.
Proof.
  intros Hinv Hw Hmax.
  assert (Hstay : forall e, (forall a b, e <> ErrVoteConflictingVotes a b) ->
    exists vs' added err, Val (E := Empty_set) (vs, false, Some e) = Val (vs', added, err) /\ add_vote_post vs vote vs' added err).
  { intros e He. exists vs, false, (Some e). split; [done|]. split; [by apply advances_refl|]. destruct e; try done. by destruct (He voteA voteB). }
  unfold addVote. destruct (Z.ltb_spec (v_ValidatorIndex vote) 0); [by apply Hstay|].
  destruct (_ =? _); [by apply Hstay|].
  destruct (negb _ || _ || _) eqn:Hstep; [by apply Hstay|]. inv_val. z_bool.
  rewrite GetByIndex_lookup by done. set (i := Z.to_nat (v_ValidatorIndex vote)).
  assert (Hidx : v_ValidatorIndex vote = Z.of_nat i) by lia.
  destruct (validators vs !! i) as [val|] eqn:Hval; [|by apply Hstay].
  destruct (bytes_equal_spec (v_ValidatorAddress vote) (Address val)) as [Haddr|]; [|by apply Hstay]. simpl.
  rewrite Hidx. destruct (getVote_spec vs i (BlockID_Key (v_BlockID vote)) Hinv) as [[-> Hfresh]|(v & -> & Hvv & Hk)];
    [by apply lookup_lt_Some in Hval| |]; go_step.
  - pose proof (inv_keys _ _ Hinv) as Hkeys. rewrite Forall_lookup in Hkeys. destruct (Hkeys _ _ Hval) as [pk Hpk].
    simpl in Hpk. rewrite Hpk. destruct (wire_vote_verify (vs_chainID vs) vote pk Hw) as [Hver|[e ->]]; [|by apply Hstay].
    rewrite Hver. assert (Hv : valid_vote vs i vote). { repeat split; try done; try apply Hw. by exists val, pk. }
    destruct (addVerifiedVote_inv vs i vote val Hinv Hv Hval Hfresh) as (vs' & added & c & -> & Hadv & Hrec & Hc).
    go_step. destruct c as [e|].
    + eexists _, _, _. split; [done|]. split; [done|]. split; [done|].
      split; [intros Heq; apply (proj1 Hfresh e Hc); by rewrite Heq|].
      exists i. split; [by apply (inv_valid _ _ Hinv)|done].
    + rewrite Hc. go_step. eexists _, _, _. split; [done|]. split; [done|]. exists i. auto.
  - destruct (bytes_equal_spec (v_Signature v) (v_Signature vote)); [|by apply Hstay].
    exists vs, false, None. split; [done|]. split; [by apply advances_refl|]. split; [done|]. by exists i, v.
Qed.

(** A first vote of a validator that verifies is always added. *)
Lemma addVote_complete vs i vote :
  inv vs -> wire_vote vote -> valid_vote vs i vote -> v_ValidatorAddress vote <> [] ->
  vs_votes vs !! i = Some None ->
  exists vs', addVote vs (Some vote) = Val (vs', true, None).
Proof.
  intros Hinv Hw Hv Ha Hnone. pose proof Hv as (Hidx & Hh & Hr & Ht & _ & val & pk & Hval & Haddr & Hpk & Hver).
  assert (Hfresh : fresh vs i (BlockID_Key (v_BlockID vote))).
  { split; [congruence|]. intros bv v Hbv Hi. apply (inv_blocks _ _ Hinv) in Hbv.
    apply (bi_valid _ _ _ Hbv) in Hi as (_ & _ & v' & ?). congruence. }
  unfold addVote. destruct (Z.ltb_spec (v_ValidatorIndex vote) 0); [lia|].
  destruct (Z.eqb_spec (len (v_ValidatorAddress vote)) 0) as [Hl|_]; [by destruct (v_ValidatorAddress vote)|].
  rewrite Hh, Hr, Ht, !Z.eqb_refl. cbn [negb orb]. rewrite GetByIndex_lookup, Hidx, Nat2Z.id, Hval by lia.
  rewrite Haddr, bytes_equal_refl. cbn [negb].
  destruct (getVote_spec vs i (BlockID_Key (v_BlockID vote)) Hinv) as [[-> _]|(v & Hg & Hvv & Hk)];
    [by apply lookup_lt_Some in Hval| |].
  - go_step. rewrite Hpk, Hver.
    destruct (addVerifiedVote_inv vs i vote val Hinv Hv Hval Hfresh) as (vs' & added & c & -> & _ & _ & Hc).
    go_step. destruct c as [e|]; [congruence|]. rewrite Hc. go_step. by exists vs'.
  - unfold getVote in Hg.
    rewrite (proj2 (slice_get_val (vs_votes vs) (Z.of_nat i) None)) in Hg
      by (rewrite Nat2Z.id; split; [unfold len; apply lookup_lt_Some in Hnone; lia|done]).
    go_step. unfold getByIndex in Hg.
    destruct (vs_votesByBlock vs !! BlockID_Key (v_BlockID vote)) as [bv|] eqn:Hbv; [|done].
    apply slice_get_val in Hg as [_ Hg]. rewrite Nat2Z.id in Hg. by destruct (proj2 Hfresh bv v Hbv).
Qed.

(** ** Reachable vote sets *)

Lemma SetPeerMaj23_advances vs peer bid : inv vs -> advances vs (SetPeerMaj23 vs peer bid).1.
Proof.
  intros Hinv. pose proof Hinv as [H1 H2 H3 H4 H5 H6 H7 H8 H9 H10]. unfold SetPeerMaj23.
  destruct (vs_peerMaj23s vs !! peer); [by apply advances_refl|].
  assert (Hblk : forall bv, block_inv vs (BlockID_Key bid) bv ->
    (vs_votesByBlock vs !! BlockID_Key bid = None -> bv_sum bv < quorum vs) ->
    (forall old, vs_votesByBlock vs !! BlockID_Key bid = Some old -> bv_votes old = bv_votes bv /\ bv_sum old = bv_sum bv) ->
    advances vs (with_block (with_peer vs peer bid) (BlockID_Key bid) bv)).
  { intros bv Hbi Hq Hold. split; [|split; [by repeat split|split; [done|eauto]]]. split; try done.
    - intros i v _ Hi. destruct (H6 i v ltac:(done) Hi) as [?|(b & Hb & Hbi')]; [by left|]. right. simpl.
      destruct (decide (BlockID_Key (v_BlockID v) = BlockID_Key bid)) as [Heq|Hne].
      + exists bv. rewrite Heq, lookup_insert_eq. split; [done|]. rewrite Heq in Hb. by destruct (Hold _ Hb) as [<- _].
      + exists b. by rewrite lookup_insert_ne by congruence.
    - intros k b Hk. apply (block_inv_step vs); [by repeat split|simpl; eauto|].
      simpl in Hk. apply lookup_insert_Some in Hk as [[<- <-]|[_ Hk]]; [done|by apply H9].
    - unfold maj_inv in *. simpl. destruct (vs_maj23 vs) as [m|].
      + destruct H10 as (Hvm & b & Hb & Hqb & Hin). split; [done|].
        destruct (decide (BlockID_Key m = BlockID_Key bid)) as [Heq|Hne].
        * exists bv. rewrite Heq, lookup_insert_eq. split; [done|]. rewrite Heq in Hb. destruct (Hold _ Hb) as [<- <-]. done.
        * exists b. by rewrite lookup_insert_ne by congruence.
      + intros k b Hk. apply lookup_insert_Some in Hk as [[_ <-]|[_ Hk]]; [|by apply (H10 k)].
        destruct (vs_votesByBlock vs !! BlockID_Key bid) as [old|] eqn:Ho; [|by apply Hq].
        destruct (Hold old eq_refl) as [_ <-]. by apply (H10 (BlockID_Key bid)). }
  simpl. destruct (vs_votesByBlock vs !! BlockID_Key bid) as [bv|] eqn:Hbv.
  - destruct (bv_peerMaj23 bv); simpl.
    + split; [|split; [by repeat split|split; [done|eauto]]]. split; try done.
      intros k b Hk. apply (block_inv_step vs); [by repeat split|simpl; eauto|by apply H9].
    + apply H9 in Hbv as Hbi. destruct Hbi. apply Hblk; [by split|done|by intros old [= <-]].
  - apply Hblk; [by apply new_block_inv|intros _; by apply quorum_pos|done].
Qed.

Inductive vote_step : VoteSet -> VoteSet -> Prop :=
  | step_add vs vote vs' added err :
      wire_vote vote -> v_ValidatorIndex vote <= MaxInt32 ->
      AddVote (Some vs) (Some vote) = Val (vs', added, err) -> vote_step vs vs'
  | step_peer vs peer bid : vote_step vs (SetPeerMaj23 vs peer bid).1.

(** Freshly made for a validator set whose members have keys. *)
Definition initial (vs : VoteSet) : Prop :=
  exists cid h r t vals, reachable vals /\ Forall (fun v => is_Some (PubKey_ v)) (Validators vals) /\
    len (Validators vals) <= MaxInt32 /\ NewVoteSet cid h r t vals = Val vs.

Definition reachable_votes (vs : VoteSet) : Prop := exists vs0, initial vs0 /\ rtc vote_step vs0 vs.

Lemma initial_inv vs : initial vs -> inv vs.
Proof.
  intros (cid & h & r & t & vals & Hr & Hk & Hs & Hn). apply reachable_invariant in Hr. unfold NewVoteSet in Hn.
  destruct (h =? 0); [done|]. go_step. injection Hn as <-. unfold Validator.Size. split; simpl; try done.
  - rewrite length_replicate. unfold len. lia.
  - by intros i v [? _]%lookup_replicate.
  - by intros i v _ [? _]%lookup_replicate.
  - by rewrite held_none.
  - apply bits_ok_new. unfold len in *. lia.
Qed.

Lemma vote_step_advances vs vs' : inv vs -> vote_step vs vs' -> advances vs vs'.
Proof.
  intros Hinv Hst. destruct Hst as [vs vote vs' added err Hw Hm Hadd|vs peer bid]; [|by apply SetPeerMaj23_advances].
  destruct (addVote_spec vs vote Hinv Hw Hm) as (vs1 & a1 & e1 & H1 & Hp & _). 
  unfold AddVote in Hadd. rewrite H1 in Hadd. by injection Hadd as <- _ _.
Qed.

Lemma vote_steps_advance vs vs' : inv vs -> rtc vote_step vs vs' -> advances vs vs'.
Proof.
  intros Hinv Hs. induction Hs as [vs|vs vs1 vs2 H1 _ IH]; [by apply advances_refl|].
  apply vote_step_advances in H1 as (Hi1 & Hs1 & Hm1 & Hp1); [|done]. destruct (IH Hi1) as (Hi2 & Hs2 & Hm2 & Hp2).
  split; [done|]. split; [by transitivity vs1|]. split; [auto|].
  intros j v Hj. destruct (Hp1 j v Hj) as [v' Hv']. eauto.
Qed.

Lemma reachable_votes_inv vs : reachable_votes vs -> inv vs.
Proof. intros (vs0 & Hi%initial_inv & Hs). by apply (vote_steps_advance vs0). Qed.

(** [AddVote] on a reachable vote set never panics.  It reports success
    exactly for a recorded valid vote, [(false, nil)] only for a vote it already has,
    a conflict only with a valid vote of the same validator for another block (both
    signatures verify), and leaves the set alone on every other error; the first valid
    vote of a validator is always added. *)
Theorem vote_set_add_vote vs vote :
  reachable_votes vs -> wire_vote vote -> v_ValidatorIndex vote <= MaxInt32 ->
  exists vs' added err, AddVote (Some vs) (Some vote) = Val (vs', added, err) /\
    match err with
    | None =>
        if added then exists i, valid_vote vs i vote /\ recorded vs' i vote
        else vs' = vs /\ exists i v, valid_vote vs i v /\ v_Signature v = v_Signature vote /\ v_BlockID v = v_BlockID vote
    | Some (ErrVoteConflictingVotes a b) =>
        b = vote /\ v_BlockID a <> v_BlockID vote /\
        exists i, valid_vote vs i a /\ valid_vote vs i vote /\ (added = true -> recorded vs' i vote)
    | Some _ => added = false /\ vs' = vs
    end /\
    forall i, valid_vote vs i vote -> v_ValidatorAddress vote <> [] -> vs_votes vs !! i = Some None ->
      added = true /\ err = None.
Proof.
  intros Hr%reachable_votes_inv Hw Hm. unfold AddVote.
  destruct (addVote_spec vs vote Hr Hw Hm) as (vs' & added & err & Hadd & _ & Hpost).
  exists vs', added, err. split; [done|]. split.
  - destruct err as [e|]; [done|]. destruct added; [done|]. destruct Hpost as (-> & i & v & Hv & Hs & Hk).
    split; [done|]. exists i, v. split; [done|]. split; [done|]. apply BlockID_Key_inj; [apply Hv|apply Hw|done].
  - intros i Hv Ha Hn. destruct (addVote_complete vs i vote Hr Hw Hv Ha Hn) as (vs1 & H1). by rewrite Hadd in H1; simplify_eq.
Qed.

(** The power behind the block of a majority, among the canonical votes. *)
Lemma majority_power vs b :
  inv vs -> vs_maj23 vs = Some b -> 2 * total (vs_valSet vs) < 3 * held (for_block b) (validators vs) (vs_votes vs).
Proof.
  intros Hinv Hm. pose proof (inv_maj _ _ Hinv) as Hmaj. unfold maj_inv in Hmaj. rewrite Hm in Hmaj.
  destruct Hmaj as (Hvb & bv & Hbv & Hq & Hin). pose proof (inv_blocks _ _ Hinv _ _ Hbv) as Hbi.
  rewrite (bi_sum _ _ _ Hbi) in Hq. apply quorum_iff in Hq. eapply Z.lt_le_trans; [exact Hq|].
  apply Z.mul_le_mono_nonneg_l; [lia|]. apply held_mono; [apply Hinv| |by rewrite (bi_len _ _ _ Hbi), (inv_len _ _ Hinv)].
  intros i [v|] o' Ho Ho' Hc; [|done]. apply Hin in Ho as Hv. simplify_eq. simpl.
  apply (bi_valid _ _ _ Hbi) in Ho as (Hvv & Hk & _). apply bool_decide_eq_true.
  apply BlockID_Key_inj; [apply Hvv|done|done].
Qed.

(** Without a majority no block has more than two thirds of the canonical votes. *)
Lemma no_majority_power vs b :
  inv vs -> vs_maj23 vs = None -> 3 * held (for_block b) (validators vs) (vs_votes vs) <= 2 * total (vs_valSet vs).
Proof.
  intros Hinv Hm. pose proof (inv_maj _ _ Hinv) as Hmaj. unfold maj_inv in Hmaj. rewrite Hm in Hmaj.
  pose proof (wf_power _ (inv_set _ _ Hinv)) as Hpos.
  assert (Htr : forall i v, vs_votes vs !! i = Some (Some v) -> v_BlockID v = b ->
    exists bv, vs_votesByBlock vs !! BlockID_Key b = Some bv /\ bv_votes bv !! i = Some (Some v)).
  { intros i v Hi <-. destruct (inv_tracked _ _ Hinv i v ltac:(done) Hi) as [?|?]; [congruence|done]. }
  destruct (vs_votesByBlock vs !! BlockID_Key b) as [bv|] eqn:Hbv.
  - pose proof (Hmaj _ _ Hbv) as Hlt. pose proof (inv_blocks _ _ Hinv _ _ Hbv) as Hbi.
    rewrite (bi_sum _ _ _ Hbi) in Hlt.
    assert (held (for_block b) (validators vs) (vs_votes vs) <= held any_vote (validators vs) (bv_votes bv)).
    { apply held_mono; [done| |by rewrite (bi_len _ _ _ Hbi), (inv_len _ _ Hinv)].
      intros i [v|] o' Ho Ho' Hc; [|done]. simpl in Hc. apply bool_decide_eq_true in Hc.
      destruct (Htr i v Ho Hc) as (bv' & [= <-] & Hi). by simplify_eq. }
    apply Z.nlt_ge. intros Hgt. assert (quorum vs <= held any_vote (validators vs) (bv_votes bv)); [|lia].
    apply quorum_iff. lia.
  - assert (held (for_block b) (validators vs) (vs_votes vs) <= held any_vote (validators vs) (replicate (length (vs_votes vs)) None)).
    { apply held_mono; [done| |by rewrite length_replicate]. intros i [v|] o' Ho Ho' Hc; [|done].
      simpl in Hc. apply bool_decide_eq_true in Hc. by destruct (Htr i v Ho Hc) as (bv' & ? & _). }
    rewrite held_none in *. pose proof (total_nonneg _ Hpos). lia.
Qed.

(** C4: the majority of a reachable vote set is real, complete and final.
    When [TwoThirdsMajority] reports a block, valid votes for it with more than two
    thirds of the power are held, and every later state reports the same block; when it
    reports none, no block has more than two thirds of the votes held. *)
Theorem vote_set_majority vs :
  reachable_votes vs ->
  (forall b, TwoThirdsMajority vs = (b, true) ->
     2 * total (vs_valSet vs) < 3 * held (for_block b) (validators vs) (vs_votes vs) /\
     forall vs', rtc vote_step vs vs' -> TwoThirdsMajority vs' = (b, true)) /\
  (HasTwoThirdsMajority vs = false ->
     forall b, 3 * held (for_block b) (validators vs) (vs_votes vs) <= 2 * total (vs_valSet vs)) /\
  (forall i v, vs_votes vs !! i = Some (Some v) -> valid_vote vs i v).
Proof.
  intros Hr%reachable_votes_inv. split; [|split].
  - intros b. unfold TwoThirdsMajority. destruct (vs_maj23 vs) as [m|] eqn:Hm; [|done]. intros [= <-].
    split; [by apply majority_power|]. intros vs' Hs. apply vote_steps_advance in Hs as (_ & _ & Hst & _); [|done].
    by rewrite (Hst m Hm).
  - unfold HasTwoThirdsMajority. rewrite bool_decide_eq_false. intros Hn b. apply no_majority_power; [done|].
    destruct (vs_maj23 vs); [by destruct Hn|done].
  - apply (inv_valid _ _ Hr).
Qed.

(** The tallies of a reachable vote set are exact: the sum is the power of
    the validators that voted, [HasTwoThirdsAny] and [HasAll] compare it with the
    total without overflow, and the bit array marks exactly the votes held. *)
Theorem vote_set_tallies vs :
  reachable_votes vs ->
  vs_sum vs = held any_vote (validators vs) (vs_votes vs) /\
  HasTwoThirdsAny vs = Val (2 * total (vs_valSet vs) <? 3 * vs_sum vs) /\
  HasAll vs = Val (vs_sum vs =? total (vs_valSet vs)) /\
  forall i o, vs_votes vs !! i = Some o ->
    BitArray.GetIndex (VoteSet_BitArray (Some vs)) (Z.of_nat i) = Val (bool_decide (is_Some o)) /\
    VoteSet_GetByIndex vs (Z.of_nat i) = Val o.
Proof.
  intros Hr%reachable_votes_inv. pose proof (inv_set _ _ Hr) as Hwf. split; [apply Hr|].
  unfold HasTwoThirdsAny, HasAll. rewrite TotalVotingPower_val by apply Hwf. go_step.
  split; [|split; [done|]].
  - f_equal. rewrite Z.gtb_ltb, two_thirds_needed by done. apply eq_true_iff_eq. rewrite !Z.ltb_lt. apply exceeds_two_thirds.
  - intros i o Ho. pose proof (lookup_lt_Some _ _ _ Ho) as Hi. split.
    + simpl. pose proof (inv_bits _ _ Hr) as Hb. destruct (vs_votesBitArray vs) as [bA|]; simpl in *; [|by rewrite Hb in Ho].
      destruct Hb as (Hw & Hlen & Hbit). rewrite getIndex_bit by (done || lia). rewrite (Hbit i o Ho), Hlen.
      by destruct (Z.ltb_spec (Z.of_nat i) (len (vs_votes vs))); [|unfold len in *; lia].
    + unfold VoteSet_GetByIndex. rewrite Z.geb_leb. destruct (Z.leb_spec (len (vs_votes vs)) (Z.of_nat i)); [unfold len in *; lia|].
      apply slice_get_val. rewrite Nat2Z.id. split; [lia|done].
Qed.

(** C5: accountability.  If two vote sets for the same step and validators (of
    two nodes, say) have majorities for different blocks, then validators with more
    than one third of the power have validly signed a vote for each of the two blocks. *)
Theorem vote_set_accountability vs1 vs2 b1 b2 :
  reachable_votes vs1 -> reachable_votes vs2 -> same_step vs1 vs2 ->
  TwoThirdsMajority vs1 = (b1, true) -> TwoThirdsMajority vs2 = (b2, true) -> b1 <> b2 ->
  total (vs_valSet vs1) < 3 * held_both (for_block b1) (for_block b2) (validators vs1) (vs_votes vs1) (vs_votes vs2) /\
  (forall i v1 v2, vs_votes vs1 !! i = Some (Some v1) -> vs_votes vs2 !! i = Some (Some v2) ->
     for_block b1 v1 = true -> for_block b2 v2 = true ->
     valid_vote vs1 i v1 /\ valid_vote vs1 i v2 /\ v_BlockID v1 <> v_BlockID v2).
Proof.
  intros Hr1%reachable_votes_inv Hr2%reachable_votes_inv Hst. unfold TwoThirdsMajority.
  destruct (vs_maj23 vs1) as [m1|] eqn:Hm1; [|done]. destruct (vs_maj23 vs2) as [m2|] eqn:Hm2; [|done].
  intros [= <-] [= <-] Hne. apply majority_power in Hm1, Hm2; [|done..].
  pose proof Hst as (_ & _ & _ & _ & Hvals). rewrite Hvals in Hm2. split.
  - pose proof (held_overlap _ (wf_power _ (inv_set _ _ Hr1)) (for_block m1) (for_block m2) (vs_votes vs1) (vs_votes vs2)).
    rewrite (inv_len _ _ Hr1), (inv_len _ _ Hr2), Hvals in *. lia.
  - intros i v1 v2 Hi1 Hi2 Hf1%bool_decide_eq_true Hf2%bool_decide_eq_true.
    split; [by apply (inv_valid _ _ Hr1)|]. split; [|congruence].
    apply (valid_vote_step vs1 vs2 i v2 Hst). by apply (inv_valid _ _ Hr2).
Qed.
End inv.
