(* ===== verification/CommitProofs.v ===== *)
(** * Commits made from vote sets

    [MakeCommit] of types/vote_set.go turns a precommit set with a majority
    into a commit that types/validation.go accepts and from which the votes can
    be read back; concrete vote sets, on which the theorems about vote sets are
    evaluated; and [CommitToVoteSet] of types/block.go on a commit that was only
    verified by [VerifyCommitLight]. *)
From Stdlib Require Import ZArith Lia Strings.Byte.
From stdpp Require Import base list strings gmap.
From S2P Require Import Prelude.
From S2P Require Import BitArray.
From S2P Require Import Validator.
From S2P Require Import ProposerProofs.
From S2P Require Import ValidatorUpdateProofs.
From S2P Require Import ValidatorSetProofs.
From S2P Require Import Types.
From S2P Require Import SignBytesProofs.
From S2P Require Import Validation.
From S2P Require Import ValidationProofs.
From S2P Require Import VoteSet.
From S2P Require Import VoteSetProofs.

(** ** The signatures of a commit *)

(** What [MakeCommit] writes for one entry of the vote list. *)
Definition commit_sig_of (maj23 : BlockID) (o : option Vote) : CommitSig :=
  match o with
  | None => NewCommitSigAbsent
  | Some v =>
      if BlockID_IsComplete (v_BlockID v) then
        if bool_decide (v_BlockID v = maj23)
        then mkCommitSig BlockIDFlagCommit (v_ValidatorAddress v) (v_Timestamp v) (v_Signature v)
        else NewCommitSigAbsent
      else mkCommitSig BlockIDFlagNil (v_ValidatorAddress v) (v_Timestamp v) (v_Signature v)
  end.

Lemma commit_sigs_val maj23 votes :
  (forall i v, votes !! i = Some (Some v) -> votable (v_BlockID v)) ->
  commit_sigs maj23 votes = Val (commit_sig_of maj23 <$> votes).
Proof.
  induction votes as [|o votes IH]; intros Hv; [done|]. cbn [commit_sigs]. rewrite fmap_cons.
  rewrite IH by (intros i; apply (Hv (S i))). specialize (Hv 0%nat). destruct o as [v|]; [|done].
  destruct (Hv v eq_refl) as [Hb _]. unfold Vote_CommitSig, commit_sig_of.
  destruct (BlockID_IsComplete (v_BlockID v)) eqn:Hc.
  - go_step. unfold ForBlock. simpl. case_bool_decide as Heq.
    + by rewrite (proj2 (BlockID_Equals_spec _ _) Heq).
    + destruct (BlockID_Equals _ _) eqn:He; [by apply BlockID_Equals_spec in He|done].
  - destruct Hb as [Hz|?]; [|congruence]. by rewrite Hz.
Qed.

Section make_commit.
Context `{!Crypto, !TimeCodec}.
Abbreviation validators vs := (Validators (vs_valSet vs)).

(** The commit of a vote set with majority [b]. *)
Definition commit_of (vs : VoteSet) (b : BlockID) : Commit :=
  mkCommit (vs_height vs) (vs_round vs) b (commit_sig_of b <$> vs_votes vs).

Lemma MakeCommit_val vs b :
  inv vs -> vs_signedMsgType vs = PrecommitType -> vs_maj23 vs = Some b -> MakeCommit vs = Val (commit_of vs b).
Proof.
  intros Hinv Ht Hm. unfold MakeCommit. rewrite Ht, Hm. go_step. cbn -[commit_sigs].
  rewrite commit_sigs_val; [done|]. intros i v Hi. by apply (inv_valid _ _ Hinv) in Hi as (_ & _ & _ & _ & ? & _).
Qed.

(** A present signature of the commit gives back the vote it was made from. *)
Lemma commit_of_GetVote vs b i cs :
  inv vs -> vs_signedMsgType vs = PrecommitType ->
  c_Signatures (commit_of vs b) !! i = Some cs -> Absent cs = false ->
  exists v, vs_votes vs !! i = Some (Some v) /\ Commit_GetVote (commit_of vs b) (Z.of_nat i) = Val v /\
    cs_Signature cs = v_Signature v /\ (ForBlock cs = true <-> BlockID_IsComplete (v_BlockID v) = true /\ v_BlockID v = b).
Proof.
  intros Hinv Ht Hcs Ha. pose proof Hcs as Hcs'. simpl in Hcs. apply list_lookup_fmap_Some in Hcs as (o & Heq & Ho).
  destruct o as [v|]; [|by rewrite Heq in Ha]. exists v. split; [done|].
  destruct (inv_valid _ _ Hinv i v Ho) as (Hidx & Hh & Hr & Hty & [Hb _] & _).
  unfold Commit_GetVote. rewrite (proj2 (slice_get_val (c_Signatures (commit_of vs b)) (Z.of_nat i) cs))
    by (rewrite Nat2Z.id; split; [unfold len; apply lookup_lt_Some in Hcs'; lia|done]). go_step.
  unfold CommitSig_BlockID, ForBlock. subst cs. simpl in *.
  destruct v as [ty h r bid ts addr idx sg]. simpl in *. subst. rewrite Ht.
  destruct (BlockID_IsComplete bid) eqn:Hc.
  - destruct (bool_decide (bid = b)) eqn:He; [|done]. apply bool_decide_eq_true in He as ->. simpl. naive_solver.
  - destruct Hb as [Hz|?]; [|congruence]. rewrite (BlockID_IsZero_eq bid nilBlockID Hz eq_refl). simpl. naive_solver.
Qed.

Lemma Vote_Verify_signature v cid pk :
  Vote_Verify v cid pk = Val tt -> exists bz, VoteSignBytes cid v = Val bz /\ VerifySignature pk bz (v_Signature v) = true.
Proof. unfold Vote_Verify. intros Hv. inv_val. eauto. Qed.

(** Every present signature verifies. *)
Lemma commit_of_sig_ok vs b i cs val :
  inv vs -> vs_signedMsgType vs = PrecommitType ->
  c_Signatures (commit_of vs b) !! i = Some cs -> validators vs !! i = Some val -> Absent cs = false ->
  sig_ok (vs_chainID vs) (commit_of vs b) (Z.of_nat i) cs val = true.
Proof.
  intros Hinv Ht Hcs Hval Ha. destruct (commit_of_GetVote vs b i cs Hinv Ht Hcs Ha) as (v & Hv & Hg & Hsig & _).
  destruct (inv_valid _ _ Hinv i v Hv) as (_ & _ & _ & _ & _ & val' & pk & Hval' & _ & Hpk & Hver).
  assert (val' = val) as -> by congruence. destruct (Vote_Verify_signature _ _ _ Hver) as (bz & Hbz & Hok).
  unfold sig_ok, Commit_VoteSignBytes. rewrite Hg. go_step. by rewrite Hbz, Hpk, Hsig.
Qed.
End make_commit.

Lemma present_ok_lookup `{!Crypto, !TimeCodec} cid commit ig idx sigs vs :
  (forall i cs v, sigs !! i = Some cs -> vs !! i = Some v -> ig cs = false -> sig_ok cid commit (idx + Z.of_nat i) cs v = true) ->
  present_ok cid commit ig idx sigs vs = true.
Proof.
  revert idx vs. induction sigs as [|cs sigs IH]; intros idx [|v vs] Hok; try done. cbn [present_ok].
  apply andb_true_iff. split.
  - destruct (ig cs) eqn:Hig; [done|]. specialize (Hok 0%nat cs v eq_refl eq_refl Hig). by rewrite Z.add_0_r in Hok.
  - apply IH. intros i cs' v' H1 H2 H3. specialize (Hok (S i) cs' v' H1 H2 H3).
    by replace (idx + 1 + Z.of_nat i) with (idx + Z.of_nat (S i)) by lia.
Qed.

Lemma held_le_tally P count idx sigs vs votes :
  Forall (fun v => 0 < VotingPower v) vs -> length votes = length sigs ->
  (forall i o cs v, votes !! i = Some o -> sigs !! i = Some cs -> vs !! i = Some v -> vote_counts P o = true ->
     count (idx + Z.of_nat i) cs v = true) ->
  held P vs votes <= tally count idx sigs vs.
Proof.
  intros Hpos. revert idx sigs votes. induction Hpos as [|v vs Hv Hvs IH]; intros idx [|cs sigs] [|o votes] Hlen Hc;
    cbn [held tally]; try done.
  assert (held P vs votes <= tally count (idx + 1) sigs vs).
  { apply IH; [by injection Hlen|]. intros i o' cs' v' H1 H2 H3 H4. specialize (Hc (S i) o' cs' v' H1 H2 H3 H4).
    by replace (idx + 1 + Z.of_nat i) with (idx + Z.of_nat (S i)) by lia. }
  specialize (Hc 0%nat o cs v eq_refl eq_refl eq_refl). rewrite Z.add_0_r in Hc.
  destruct (vote_counts P o); [rewrite Hc by done; lia|]. destruct (count idx cs v); lia.
Qed.

Section verifies.
Context `{!Crypto, !BatchCrypto, !TimeCodec, !BatchLaws, !DecodeLaw}.

(** C34: a commit made from a precommit set with a majority for a complete block ID, where
    the keys of the validators and of the proposer are all of one type, is accepted by
    [VerifyCommit] for that block, height and validator set, and each signature it carries
    gives back the vote it was made from.  (A set with keys of several types is excluded:
    there the batch verifier refuses such a commit.) *)
Theorem make_commit_verifies vs b kt :
  reachable_votes vs -> vs_signedMsgType vs = PrecommitType -> TwoThirdsMajority vs = (b, true) ->
  BlockID_IsComplete b = true -> one_key_type (vs_valSet vs) kt ->
  exists c, MakeCommit vs = Val c /\
    VerifyCommit (vs_chainID vs) (Some (vs_valSet vs)) b (vs_height vs) (Some c) = Val tt /\
    forall i cs, c_Signatures c !! i = Some cs -> Absent cs = false ->
      exists v, VoteSet_GetByIndex vs (Z.of_nat i) = Val (Some v) /\ Commit_GetVote c (Z.of_nat i) = Val v.
Proof.
  intros Hinv%reachable_votes_inv Ht Hmaj Hc Hkt. unfold TwoThirdsMajority in Hmaj.
  destruct (vs_maj23 vs) as [m|] eqn:Hm; [|done]. injection Hmaj as ->.
  exists (commit_of vs b). split; [by apply MakeCommit_val|].
  pose proof (inv_set _ _ Hinv) as Hwf. pose proof (majority_power vs b Hinv Hm) as Hpow.
  assert (Hlen : length (vs_votes vs) = length (Validators (vs_valSet vs))) by apply Hinv.
  split.
  - rewrite (VerifyCommit_iff _ _ _ _ _ kt); [|done| |done|].
    2: { intros Hnil. rewrite Hnil in Hpow. simpl in Hpow. unfold sumZ in Hpow. simpl in Hpow. lia. }
    2: { unfold len. simpl. rewrite length_fmap, Hlen. apply Hinv. }
    split; [unfold len; simpl; by rewrite length_fmap, Hlen|]. split; [done|]. split; [done|]. split.
    + apply present_ok_lookup. intros i cs v Hcs Hv Ha. rewrite Z.add_0_l. by apply commit_of_sig_ok.
    + eapply Z.lt_le_trans; [exact Hpow|]. apply Z.mul_le_mono_nonneg_l; [lia|]. unfold signed_power.
      apply held_le_tally; [apply Hwf|simpl; by rewrite length_fmap|]. intros i [v|] cs val Ho Hcs Hval Hf; [|done].
      rewrite Z.add_0_l. simpl in Hf. apply bool_decide_eq_true in Hf.
      assert (Hcs' : cs = mkCommitSig BlockIDFlagCommit (v_ValidatorAddress v) (v_Timestamp v) (v_Signature v)).
      { simpl in Hcs. rewrite list_lookup_fmap, Ho in Hcs. injection Hcs as <-. simpl. rewrite Hf, Hc.
        by rewrite bool_decide_eq_true_2. }
      rewrite (commit_of_sig_ok vs b i cs val) by (done || by subst). by subst.
  - intros i cs Hcs Ha. destruct (commit_of_GetVote vs b i cs Hinv Ht Hcs Ha) as (v & Hv & Hg & _). exists v.
    split; [|done]. pose proof (lookup_lt_Some _ _ _ Hv). unfold VoteSet_GetByIndex. rewrite Z.geb_leb.
    destruct (Z.leb_spec (len (vs_votes vs)) (Z.of_nat i)); [unfold len in *; lia|].
    apply slice_get_val. rewrite Nat2Z.id. split; [lia|done].
Qed.
End verifies.

(** ** Concrete vote sets *)

Section sample.
#[local] Existing Instances toy_crypto toy_time toy_batch.

(** A precommit of the validator with key byte [k] at index [i] for block [b], signed. *)
Definition toy_vote (b : byte) (i : Z) (k : byte) : Vote :=
  let blank := mkVote PrecommitType 5 1 (sample_blockid b) 77 (replicate 20 k) i [] in
  match VoteSignBytes [x61] blank with
  | Val bz => mkVote PrecommitType 5 1 (sample_blockid b) 77 (replicate 20 k) i (k :: bz)
  | _ => blank
  end.
Definition sample_votes0 : VoteSet :=
  match NewVoteSet [x61] 5 1 PrecommitType sample_set with
  | Val vs => vs
  | _ => mkVoteSet [] 0 0 0 sample_set None [] 0 None ∅ ∅
  end.
Definition add_toy (vs : VoteSet) (v : Vote) : VoteSet :=
  match AddVote (Some vs) (Some v) with Val (vs', _, _) => vs' | _ => vs end.
(** Validators 0 and 1 (five sixths of the power) vote for block [b]. *)
Definition sample_votes1 (b : byte) : VoteSet := add_toy sample_votes0 (toy_vote b 0 x03).
Definition sample_votes2 (b : byte) : VoteSet := add_toy (sample_votes1 b) (toy_vote b 1 x02).

Lemma sample_blockid_votable b : votable (sample_blockid b).
Proof. split; [right; reflexivity|by compute]. Qed.

Lemma toy_vote_wire b i k : wire_vote (toy_vote b i k).
Proof.
  unfold toy_vote. destruct (VoteSignBytes _ _); (split; [apply sample_blockid_votable|by eexists]).
Qed.

Lemma sample_initial : initial sample_votes0.
Proof.
  exists [x61], 5, 1, PrecommitType, sample_set. split; [apply sample_reachable|]. split; [|split; [by vm_compute|done]].
  destruct sample_one_key as [Hk _]. eapply Forall_impl; [exact Hk|]. intros v (pk & -> & _). eauto.
Qed.

Lemma sample_votes0_reachable : reachable_votes sample_votes0.
Proof. exists sample_votes0. split; [apply sample_initial|done]. Qed.

(** The two blocks the samples vote for. *)
Lemma sample_votes2_reachable b : b = x07 \/ b = x08 -> reachable_votes (sample_votes2 b).
Proof.
  intros Hb. exists sample_votes0. split; [apply sample_initial|].
  eapply rtc_l; [|eapply rtc_l; [|reflexivity]].
  - apply (step_add _ (toy_vote b 0 x03) (sample_votes1 b) true None); [apply toy_vote_wire|by destruct Hb as [-> | ->]; vm_compute|].
    destruct Hb as [-> | ->]; vm_compute; reflexivity.
  - apply (step_add _ (toy_vote b 1 x02) (sample_votes2 b) true None); [apply toy_vote_wire|by destruct Hb as [-> | ->]; vm_compute|].
    destruct Hb as [-> | ->]; vm_compute; reflexivity.
Qed.
End sample.

Definition sample_validator_at (i : nat) : Validator :=
  default (sample_validator x00 0) (Validators sample_set !! i).

Lemma toy_vote_valid : @valid_vote toy_crypto toy_time sample_votes0 0 (toy_vote x07 0 x03).
Proof.
  repeat (split; [by vm_compute|]). split; [apply sample_blockid_votable|].
  exists (sample_validator_at 0), (sample_key x03). repeat split; vm_compute; reflexivity.
Qed.

Lemma vote_set_add_vote_witness :
  exists vs', @AddVote toy_crypto toy_time (Some sample_votes0) (Some (toy_vote x07 0 x03)) = Val (vs', true, None).
Proof.
  destruct (@vote_set_add_vote toy_crypto toy_time sample_votes0 (toy_vote x07 0 x03)) as (vs' & added & err & Hadd & _ & Hc).
  - exact sample_votes0_reachable.
  - apply toy_vote_wire.
  - vm_compute. discriminate.
  - destruct (Hc 0%nat toy_vote_valid) as [-> ->].
    + vm_compute. discriminate.
    + vm_compute. reflexivity.
    + exists vs'. exact Hadd.
Defined.

Lemma vote_set_majority_witness :
  2 * total sample_set < 3 * held (for_block (sample_blockid x07)) (Validators sample_set) (vs_votes (sample_votes2 x07)).
Proof.
  destruct (@vote_set_majority toy_crypto toy_time (sample_votes2 x07)) as [H _].
  - apply sample_votes2_reachable. left. reflexivity.
  - destruct (H (sample_blockid x07)) as [H1 _].
    + vm_compute. reflexivity.
    + exact H1.
Defined.

Lemma vote_set_tallies_witness :
  HasTwoThirdsAny (sample_votes2 x07) = Val (2 * 6 <? 3 * 5).
Proof.
  destruct (@vote_set_tallies toy_crypto toy_time (sample_votes2 x07)) as (_ & H & _).
  - apply sample_votes2_reachable. left. reflexivity.
  - exact H.
Defined.

Lemma vote_set_accountability_witness :
  total sample_set < 3 * held_both (for_block (sample_blockid x07)) (for_block (sample_blockid x08))
    (Validators sample_set) (vs_votes (sample_votes2 x07)) (vs_votes (sample_votes2 x08)).
Proof.
  apply (@vote_set_accountability toy_crypto toy_time (sample_votes2 x07) (sample_votes2 x08)
    (sample_blockid x07) (sample_blockid x08)).
  - apply sample_votes2_reachable. left. reflexivity.
  - apply sample_votes2_reachable. right. reflexivity.
  - vm_compute. repeat split.
  - vm_compute. reflexivity.
  - vm_compute. reflexivity.
  - discriminate.
Defined.

Lemma make_commit_verifies_witness :
  exists c, MakeCommit (sample_votes2 x07) = Val c /\
    @VerifyCommit toy_crypto toy_batch toy_time [x61] (Some sample_set) (sample_blockid x07) 5 (Some c) = Val tt.
Proof.
  destruct (@make_commit_verifies toy_crypto toy_batch toy_time toy_batch_laws toy_decode_law (sample_votes2 x07)
    (sample_blockid x07) Ed25519) as (c & H1 & H2 & _).
  - apply sample_votes2_reachable. left. reflexivity.
  - vm_compute. reflexivity.
  - vm_compute. reflexivity.
  - vm_compute. reflexivity.
  - exact sample_one_key.
  - exists c. split; [exact H1|exact H2].
Defined.

(** ** A commit that is accepted but cannot be turned into a vote set *)

(** A signature scheme with short signatures: the first byte of the key. *)
Definition short_crypto : Crypto :=
  {| pk_Address := fun pk => take 20 (pk_Bytes pk);
     VerifySignature := fun pk _ sig => bytes_equal sig (take 1 (pk_Bytes pk)) |}.
Definition short_batch : BatchCrypto :=
  {| decodable := fun _ _ => true;
     BatchVerify := fun es => (forallb (fun '(pk, msg, sig) => bytes_equal sig (take 1 (pk_Bytes pk))) es,
                               (fun '(pk, msg, sig) => bytes_equal sig (take 1 (pk_Bytes pk))) <$> es) |}.
Definition short_sig (k s : byte) : CommitSig := mkCommitSig BlockIDFlagCommit (replicate 20 k) 77 [s].
(** The first two signatures are valid and suffice; the third is not. *)
Definition padded_commit : Commit := toy_commit_frame [short_sig x03 x03; short_sig x02 x02; short_sig x01 x00].

(** A commit that passes [ValidateBasic] and [VerifyCommitLight], which
    is all block sync checks before it stores the commit, can make [CommitToVoteSet],
    which the consensus state calls on the stored commit, panic. *)
Theorem light_verified_commit_can_panic :
  Commit_ValidateBasic padded_commit = Val tt /\
  @VerifyCommitLight short_crypto short_batch toy_time [x61] (Some sample_set) (sample_blockid x07) 5 (Some padded_commit)
    = Val tt /\
  @CommitToVoteSet short_crypto toy_time [x61] padded_commit sample_set = Panic "Failed to reconstruct LastCommit".
Proof. split; [|split]; vm_compute; reflexivity. Qed.
