(* ===== verification/HeightVoteSet.v ===== *)
(** * internal/consensus/types/height_vote_set.go: the votes of one height

    One pair of vote sets per round, up to two unexpected "catchup" rounds per
    peer.  The [*VoteSet] pointers are held by the map only while the height's
    mutex is locked and are modelled by the values under their round. *)
From Stdlib Require Import ZArith Lia Strings.Byte.
From stdpp Require Import base list strings gmap.
From S2P Require Import Prelude.
From S2P Require Import SafeMath.
From S2P Require Import Validator.
From S2P Require Import Types.
From S2P Require Import VoteSet.

Record RoundVoteSet := mkRoundVoteSet { rv_Prevotes : VoteSet; rv_Precommits : VoteSet }.

Record HeightVoteSet := mkHeightVoteSet {
  hvs_chainID : ChainID;
  hvs_height : Z;
  hvs_valSet : ValidatorSet;
  hvs_round : Z;
  hvs_roundVoteSets : gmap Z RoundVoteSet;
  hvs_peerCatchupRounds : gmap bytes (list Z)
}.

Definition with_rounds (hvs : HeightVoteSet) (rounds : gmap Z RoundVoteSet) : HeightVoteSet :=
  mkHeightVoteSet (hvs_chainID hvs) (hvs_height hvs) (hvs_valSet hvs) (hvs_round hvs) rounds (hvs_peerCatchupRounds hvs).
Definition with_round (hvs : HeightVoteSet) (round : Z) : HeightVoteSet :=
  mkHeightVoteSet (hvs_chainID hvs) (hvs_height hvs) (hvs_valSet hvs) round (hvs_roundVoteSets hvs) (hvs_peerCatchupRounds hvs).
Definition with_catchup (hvs : HeightVoteSet) (peer : bytes) (rounds : list Z) : HeightVoteSet :=
  mkHeightVoteSet (hvs_chainID hvs) (hvs_height hvs) (hvs_valSet hvs) (hvs_round hvs) (hvs_roundVoteSets hvs)
    (<[peer := rounds]> (hvs_peerCatchupRounds hvs)).

Definition addRound (hvs : HeightVoteSet) (round : Z) : go HeightVoteSet :=
  match hvs_roundVoteSets hvs !! round with
  | Some _ => Panic "addRound() for an existing round"
  | None =>
      prevotes ← NewVoteSet (hvs_chainID hvs) (hvs_height hvs) round PrevoteType (hvs_valSet hvs);
      precommits ← NewVoteSet (hvs_chainID hvs) (hvs_height hvs) round PrecommitType (hvs_valSet hvs);
      Val (with_rounds hvs (<[round := mkRoundVoteSet prevotes precommits]> (hvs_roundVoteSets hvs)))
  end.

(** [Reset]: forgets the rounds and the peers, and starts round 0. *)
Definition HeightVoteSet_Reset (hvs : HeightVoteSet) (height : Z) (valSet : ValidatorSet) : go HeightVoteSet :=
  let hvs := mkHeightVoteSet (hvs_chainID hvs) height valSet (hvs_round hvs) ∅ ∅ in
  hvs ← addRound hvs 0;
  Val (with_round hvs 0).

Definition NewHeightVoteSet (chainID : ChainID) (height : Z) (valSet : ValidatorSet) : go HeightVoteSet :=
  HeightVoteSet_Reset (mkHeightVoteSet chainID 0 empty_set 0 ∅ ∅) height valSet.

(** [for r := newRound; r <= round; r++]: [fuel] rounds of the loop, [r] an [int32]. *)
Fixpoint set_round_loop (fuel : nat) (r round : Z) (hvs : HeightVoteSet) : go HeightVoteSet :=
  if r <=? round then
    match fuel with
    | O => Panic "the loop does not end"
    | S fuel' =>
        match hvs_roundVoteSets hvs !! r with
        | Some _ => set_round_loop fuel' (int32 (r + 1)) round hvs
        | None => hvs ← addRound hvs r; set_round_loop fuel' (int32 (r + 1)) round hvs
        end
    end
  else Val hvs.

Definition SetRound (hvs : HeightVoteSet) (round : Z) : go HeightVoteSet :=
  newRound ← SafeSubInt32 (hvs_round hvs) 1;
  _ ← panic_if (negb (hvs_round hvs =? 0) && (round <? newRound)) "SetRound() must increment hvs.round";
  hvs ← set_round_loop (Z.to_nat (round - newRound + 1)) newRound round hvs;
  Val (with_round hvs round).

Definition getVoteSet (hvs : HeightVoteSet) (round voteType : Z) : go (option VoteSet) :=
  match hvs_roundVoteSets hvs !! round with
  | None => Val None
  | Some rvs =>
      if voteType =? PrevoteType then Val (Some (rv_Prevotes rvs))
      else if voteType =? PrecommitType then Val (Some (rv_Precommits rvs))
      else Panic "Unexpected vote type"
  end.

(** The effect of a call through the pointer [getVoteSet] returned. *)
Definition put_vote_set (hvs : HeightVoteSet) (round voteType : Z) (vs : VoteSet) : HeightVoteSet :=
  match hvs_roundVoteSets hvs !! round with
  | None => hvs
  | Some rvs =>
      with_rounds hvs (<[round := if voteType =? PrevoteType then mkRoundVoteSet vs (rv_Precommits rvs)
                                  else mkRoundVoteSet (rv_Prevotes rvs) vs]> (hvs_roundVoteSets hvs))
  end.

Inductive HeightVoteError := ErrGotVoteFromUnwantedRound | ErrVoteSet (e : AddVoteError).

Section add.
Context `{!Crypto, !TimeCodec}.

(** [voteSet.AddVote(vote)] on the vote set of the vote's round and type. *)
Definition add_to_round (hvs : HeightVoteSet) (vote : Vote) : go (HeightVoteSet * bool * option HeightVoteError) :=
  voteSet ← getVoteSet hvs (v_Round vote) (v_Type vote);
  '(vs, added, err) ← AddVote voteSet (Some vote);
  Val (put_vote_set hvs (v_Round vote) (v_Type vote) vs, added, option_map ErrVoteSet err).

Definition HeightVoteSet_AddVote (hvs : HeightVoteSet) (vote : Vote) (peerID : bytes)
    : go (HeightVoteSet * bool * option HeightVoteError) :=
  if negb (IsVoteTypeValid (v_Type vote)) then Val (hvs, false, None)
  else
    voteSet ← getVoteSet hvs (v_Round vote) (v_Type vote);
    match voteSet with
    | Some _ => add_to_round hvs vote
    | None =>
        let rndz := default [] (hvs_peerCatchupRounds hvs !! peerID) in
        if len rndz <? 2 then
          hvs ← addRound hvs (v_Round vote);
          add_to_round (with_catchup hvs peerID (rndz ++ [v_Round vote])) vote
        else Val (hvs, false, Some ErrGotVoteFromUnwantedRound)
    end.
End add.

Definition Prevotes (hvs : HeightVoteSet) (round : Z) : go (option VoteSet) := getVoteSet hvs round PrevoteType.
Definition Precommits (hvs : HeightVoteSet) (round : Z) : go (option VoteSet) := getVoteSet hvs round PrecommitType.

(** [for r := hvs.round; r >= 0; r--]: [n] rounds remain, from [n - 1] down. *)
Fixpoint pol_search (hvs : HeightVoteSet) (n : nat) : go (Z * BlockID) :=
  match n with
  | O => Val (-1, nilBlockID)
  | S n' =>
      rvs ← getVoteSet hvs (Z.of_nat n') PrevoteType;
      match rvs with
      | None => pol_search hvs n'
      | Some vs =>
          let (polBlockID, ok) := TwoThirdsMajority vs in
          if ok then Val (Z.of_nat n', polBlockID) else pol_search hvs n'
      end
  end.

Definition POLInfo (hvs : HeightVoteSet) : go (Z * BlockID) := pol_search hvs (Z.to_nat (hvs_round hvs + 1)).

(** The boolean is [err != nil]. *)
Definition HeightVoteSet_SetPeerMaj23 (hvs : HeightVoteSet) (round voteType : Z) (peerID : bytes) (blockID : BlockID)
    : go (HeightVoteSet * bool) :=
  if negb (IsVoteTypeValid voteType) then Val (hvs, true)
  else
    voteSet ← getVoteSet hvs round voteType;
    match voteSet with
    | None => Val (hvs, false)
    | Some vs =>
        let (vs, err) := SetPeerMaj23 vs peerID blockID in
        Val (put_vote_set hvs round voteType vs, err)
    end.
