(* ===== verification/HeightVoteSetProofs.v ===== *)
(** * The votes of one height: no panic, bounded rounds, the proof-of-lock

    Every vote set a [HeightVoteSet] holds is a reachable vote set of its round
    and type, so the theorems about vote sets apply to it; a peer can add at
    most two rounds; [POLInfo] finds the last round with a majority. *)
From Stdlib Require Import ZArith Lia Strings.Byte.
From stdpp Require Import base list strings gmap.
From S2P Require Import Prelude.
From S2P Require Import SafeMath.
From S2P Require Import Validator.
From S2P Require Import ValidatorSetProofs.
From S2P Require Import Types.
From S2P Require Import SignBytesProofs.
From S2P Require Import ValidationProofs.
From S2P Require Import VoteSet.
From S2P Require Import VoteSetProofs.
From S2P Require Import CommitProofs.
From S2P Require Import HeightVoteSet.

Section inv.
Context `{!Crypto, !TimeCodec}.

(** A vote set of the height's validators for the given round and type. *)
Definition round_ok (hvs : HeightVoteSet) (r t : Z) (vs : VoteSet) : Prop :=
  reachable_votes vs /\ vs_chainID vs = hvs_chainID hvs /\ vs_height vs = hvs_height hvs /\ vs_round vs = r /\
  vs_signedMsgType vs = t /\ vs_valSet vs = hvs_valSet hvs.

(** The validators a height may be started with. *)
Definition good_set (vals : ValidatorSet) : Prop :=
  reachable vals /\ Forall (fun v => is_Some (PubKey_ v)) (Validators vals) /\ len (Validators vals) <= MaxInt32.

(** The rounds up to [lo] are present; those present are between -1 and [hi] or were asked for by a peer. *)
Record inv_at (lo hi : Z) (hvs : HeightVoteSet) : Prop := {
  h_vals : good_set (hvs_valSet hvs);
  h_height : hvs_height hvs <> 0;
  h_sets : forall r rvs, hvs_roundVoteSets hvs !! r = Some rvs ->
    round_ok hvs r PrevoteType (rv_Prevotes rvs) /\ round_ok hvs r PrecommitType (rv_Precommits rvs);
  h_all : forall r, 0 <= r <= lo -> is_Some (hvs_roundVoteSets hvs !! r);
  h_origin : forall r, is_Some (hvs_roundVoteSets hvs !! r) ->
    -1 <= r <= hi \/ exists p l, hvs_peerCatchupRounds hvs !! p = Some l /\ r ∈ l;
  h_catchup : forall p l, hvs_peerCatchupRounds hvs !! p = Some l -> (length l <= 2)%nat
}.

Definition height_inv (hvs : HeightVoteSet) : Prop :=
  0 <= hvs_round hvs < MaxInt32 /\ inv_at (hvs_round hvs) (hvs_round hvs) hvs.

Lemma inv_at_weaken lo lo' hi hi' hvs : lo' <= lo -> hi <= hi' -> inv_at lo hi hvs -> inv_at lo' hi' hvs.
Proof.
  intros Hlo Hhi [J1 J2 J3 J4 J5 J6]. split; try done.
  - intros r Hr. apply J4. lia.
  - intros r Hr. destruct (J5 r Hr); [left; lia|by right].
Qed.

Lemma NewVoteSet_round hvs r t :
  good_set (hvs_valSet hvs) -> hvs_height hvs <> 0 ->
  exists vs, NewVoteSet (hvs_chainID hvs) (hvs_height hvs) r t (hvs_valSet hvs) = Val vs /\ round_ok hvs r t vs.
Proof.
  intros (Hr & Hk & Hs) Hh. unfold NewVoteSet. destruct (Z.eqb_spec (hvs_height hvs) 0); [done|]. go_step.
  eexists. split; [done|]. repeat split. eexists. split; [|reflexivity].
  exists (hvs_chainID hvs), (hvs_height hvs), r, t, (hvs_valSet hvs). split; [done|]. split; [done|]. split; [done|].
  unfold NewVoteSet. by destruct (Z.eqb_spec (hvs_height hvs) 0).
Qed.

(** [round_ok] looks at the height's parameters only. *)
Lemma round_ok_same hvs hvs' r t vs :
  hvs_chainID hvs' = hvs_chainID hvs -> hvs_height hvs' = hvs_height hvs -> hvs_valSet hvs' = hvs_valSet hvs ->
  round_ok hvs r t vs -> round_ok hvs' r t vs.
Proof. unfold round_ok. by intros -> -> ->. Qed.

(** A new round, given a reason for it. *)
Lemma addRound_val lo hi hvs r :
  inv_at lo hi hvs -> hvs_roundVoteSets hvs !! r = None ->
  exists rvs, addRound hvs r = Val (with_rounds hvs (<[r := rvs]> (hvs_roundVoteSets hvs))) /\
    round_ok hvs r PrevoteType (rv_Prevotes rvs) /\ round_ok hvs r PrecommitType (rv_Precommits rvs).
Proof.
  intros Hinv Hn. unfold addRound. rewrite Hn.
  destruct (NewVoteSet_round hvs r PrevoteType) as (v1 & -> & Ho1); [apply Hinv..|].
  destruct (NewVoteSet_round hvs r PrecommitType) as (v2 & -> & Ho2); [apply Hinv..|]. go_step. by eexists.
Qed.

Lemma inv_at_insert lo hi hvs r rvs :
  inv_at lo hi hvs -> round_ok hvs r PrevoteType (rv_Prevotes rvs) -> round_ok hvs r PrecommitType (rv_Precommits rvs) ->
  (-1 <= r <= hi \/ exists p l, hvs_peerCatchupRounds hvs !! p = Some l /\ r ∈ l) ->
  inv_at lo hi (with_rounds hvs (<[r := rvs]> (hvs_roundVoteSets hvs))).
Proof.
  intros [J1 J2 J3 J4 J5 J6] Ho1 Ho2 Hr. split; try done; simpl.
  - intros r' rvs' Hl. apply lookup_insert_Some in Hl as [[<- <-]|[_ Hl]].
    + split; by eapply round_ok_same.
    + apply J3 in Hl as [? ?]. split; by eapply round_ok_same.
  - intros r' Hr'. destruct (decide (r = r')) as [->|]; [rewrite lookup_insert_eq|rewrite lookup_insert_ne by done]; eauto.
  - intros r' [x Hx]. apply lookup_insert_Some in Hx as [[<- _]|[_ Hx]]; [done|]. apply J5. eauto.
Qed.

Lemma set_round_loop_inv fuel r hi hvs :
  inv_at (r - 1) hi hvs -> -1 <= r <= hi + 1 -> hi < MaxInt32 -> fuel = Z.to_nat (hi - r + 1) ->
  exists hvs', set_round_loop fuel r hi hvs = Val hvs' /\ inv_at hi hi hvs' /\
    forall r0 rvs, hvs_roundVoteSets hvs !! r0 = Some rvs -> hvs_roundVoteSets hvs' !! r0 = Some rvs.
Proof.
  revert r hvs. induction fuel as [|fuel IH]; intros r hvs Hinv Hr Hhi Hf; cbn [set_round_loop].
  - destruct (Z.leb_spec r hi); [lia|]. exists hvs. split; [done|]. replace (r - 1) with hi in Hinv by lia. done.
  - destruct (Z.leb_spec r hi); [|lia]. rewrite int32_id by int_lia.
    destruct (hvs_roundVoteSets hvs !! r) as [rvs|] eqn:Hl.
    + apply IH; [|lia..]. destruct Hinv as [J1 J2 J3 J4 J5 J6]. split; try done.
      intros r' Hr'. destruct (decide (r' = r)) as [->|]; [eauto|]. apply J4. lia.
    + destruct (addRound_val _ _ hvs r Hinv Hl) as (rvs & -> & Ho1 & Ho2). go_step.
      destruct (IH (r + 1) (with_rounds hvs (<[r := rvs]> (hvs_roundVoteSets hvs)))) as (hvs' & -> & Hi' & Hmono); [|lia..|].
      { pose proof (inv_at_insert _ _ hvs r rvs Hinv Ho1 Ho2 ltac:(left; lia)) as [J1 J2 J3 J4 J5 J6]. split; try done.
        intros r' Hr'. destruct (decide (r' = r)) as [->|]; [simpl; rewrite lookup_insert_eq; eauto|]. apply J4. lia. }
      exists hvs'. split; [done|]. split; [done|]. intros r0 x Hx. apply Hmono. simpl. by rewrite lookup_insert_ne by congruence.
Qed.

Lemma SetRound_inv hvs round :
  height_inv hvs -> hvs_round hvs <= round < MaxInt32 ->
  exists hvs', SetRound hvs round = Val hvs' /\ height_inv hvs' /\ hvs_round hvs' = round /\
    forall r rvs, hvs_roundVoteSets hvs !! r = Some rvs -> hvs_roundVoteSets hvs' !! r = Some rvs.
Proof.
  intros [Hr Hinv] Hround. unfold SetRound, SafeSubInt32.
  assert (Hsub : (if (1 >? 0) && (hvs_round hvs <? int32 (MinInt32 + 1)) then Panic "int32 overflow"
    else if (1 <? 0) && (hvs_round hvs >? int32 (MaxInt32 + 1)) then Panic "int32 overflow"
    else Val (E := Empty_set) (int32 (hvs_round hvs - 1))) = Val (hvs_round hvs - 1)).
  { rewrite (int32_id (MinInt32 + 1)) by int_lia. rewrite (int32_id (hvs_round hvs - 1)) by int_lia. simpl.
    destruct (Z.ltb_spec (hvs_round hvs) (MinInt32 + 1)); [int_lia|done]. }
  rewrite Hsub. go_step. destruct (Z.ltb_spec round (hvs_round hvs - 1)); [lia|]. rewrite andb_false_r. go_step.
  destruct (set_round_loop_inv (Z.to_nat (round - (hvs_round hvs - 1) + 1)) (hvs_round hvs - 1) round hvs)
    as (hvs' & -> & Hi' & Hmono); [|lia|lia|done|].
  { eapply inv_at_weaken; [| |done]; lia. }
  go_step. eexists. split; [done|]. split; [|done]. split; [simpl; lia|]. destruct Hi'. by split.
Qed.

(** ** Adding votes *)

Lemma IsVoteTypeValid_cases t : IsVoteTypeValid t = true -> t = PrevoteType \/ t = PrecommitType.
Proof. unfold IsVoteTypeValid. rewrite orb_true_iff, !Z.eqb_eq. done. Qed.

(** The vote set of a valid type in a round that is present. *)
Lemma getVoteSet_present lo hi hvs r t rvs :
  inv_at lo hi hvs -> IsVoteTypeValid t = true -> hvs_roundVoteSets hvs !! r = Some rvs ->
  exists vs, getVoteSet hvs r t = Val (Some vs) /\ round_ok hvs r t vs.
Proof.
  intros Hinv Ht Hl. apply (h_sets _ _ _ Hinv) in Hl as Hok. unfold getVoteSet. rewrite Hl.
  destruct (IsVoteTypeValid_cases t Ht) as [-> | ->]; simpl; naive_solver.
Qed.

(** A vote set is replaced by one it steps to. *)
Lemma put_vote_set_inv lo hi hvs r t vs vs' :
  inv_at lo hi hvs -> IsVoteTypeValid t = true -> getVoteSet hvs r t = Val (Some vs) -> vote_step vs vs' ->
  inv_at lo hi (put_vote_set hvs r t vs') /\ getVoteSet (put_vote_set hvs r t vs') r t = Val (Some vs') /\
  (forall r' t', (r', t') <> (r, t) -> IsVoteTypeValid t' = true -> getVoteSet (put_vote_set hvs r t vs') r' t' = getVoteSet hvs r' t').
Proof.
  intros Hinv Ht Hg Hst. unfold getVoteSet in Hg. destruct (hvs_roundVoteSets hvs !! r) as [rvs|] eqn:Hl; [|done].
  pose proof (h_sets _ _ _ Hinv r rvs Hl) as [Ho1 Ho2].
  assert (Horig : -1 <= r <= hi \/ exists p l, hvs_peerCatchupRounds hvs !! p = Some l /\ r ∈ l) by (apply Hinv; eauto).
  assert (Hstep : forall t vs, round_ok hvs r t vs -> vote_step vs vs' -> round_ok hvs r t vs').
  { clear. intros t vs (Hr & Hrest) Hst. pose proof (reachable_votes_inv _ Hr) as Hi.
    destruct (vote_step_advances vs vs' Hi Hst) as (_ & (E1 & E2 & E3 & E4 & E5) & _).
    split; [destruct Hr as (vs0 & Hi0 & Hs); exists vs0; split; [done|]; by eapply rtc_r|].
    by rewrite E1, E2, E3, E4, E5. }
  unfold put_vote_set, getVoteSet. rewrite Hl.
  destruct (IsVoteTypeValid_cases t Ht) as [-> | ->]; simpl in *; injection Hg as <-.
  - split; [|split].
    + apply inv_at_insert; try done. simpl. by eapply Hstep.
    + by rewrite lookup_insert_eq.
    + intros r' t' Hne Ht'. destruct (decide (r' = r)) as [->|]; [|by rewrite lookup_insert_ne by done].
      rewrite lookup_insert_eq, Hl. destruct (IsVoteTypeValid_cases t' Ht') as [-> | ->]; [done|done].
  - split; [|split].
    + apply inv_at_insert; try done. simpl. by eapply Hstep.
    + by rewrite lookup_insert_eq.
    + intros r' t' Hne Ht'. destruct (decide (r' = r)) as [->|]; [|by rewrite lookup_insert_ne by done].
      rewrite lookup_insert_eq, Hl. destruct (IsVoteTypeValid_cases t' Ht') as [-> | ->]; [done|done].
Qed.

Lemma add_to_round_inv lo hi hvs vote rvs :
  inv_at lo hi hvs -> IsVoteTypeValid (v_Type vote) = true -> wire_vote vote -> v_ValidatorIndex vote <= MaxInt32 ->
  hvs_roundVoteSets hvs !! v_Round vote = Some rvs ->
  exists vs vs' added err, getVoteSet hvs (v_Round vote) (v_Type vote) = Val (Some vs) /\
    AddVote (Some vs) (Some vote) = Val (vs', added, err) /\
    add_to_round hvs vote = Val (put_vote_set hvs (v_Round vote) (v_Type vote) vs', added, option_map ErrVoteSet err) /\
    vote_step vs vs' /\ inv_at lo hi (put_vote_set hvs (v_Round vote) (v_Type vote) vs').
Proof.
  intros Hinv Ht Hw Hm Hl. destruct (getVoteSet_present lo hi hvs _ _ rvs Hinv Ht Hl) as (vs & Hg & Hr & _).
  destruct (addVote_spec vs vote (reachable_votes_inv _ Hr) Hw Hm) as (vs' & added & err & Hadd & _).
  exists vs, vs', added, err. unfold add_to_round. rewrite Hg. go_step. unfold AddVote. rewrite Hadd. go_step.
  assert (Hst : vote_step vs vs') by (by eapply (step_add vs vote vs' added err)).
  split; [done|]. split; [done|]. split; [done|]. split; [done|]. by apply (put_vote_set_inv lo hi hvs _ _ vs vs').
Qed.

(** [AddVote] of a height: one vote set changes, by its own [AddVote]. *)
Lemma HeightVoteSet_AddVote_inv hvs vote peer :
  height_inv hvs -> wire_vote vote -> v_ValidatorIndex vote <= MaxInt32 ->
  exists hvs' added err, HeightVoteSet_AddVote hvs vote peer = Val (hvs', added, err) /\ height_inv hvs' /\
    hvs_round hvs' = hvs_round hvs /\
    (err = Some ErrGotVoteFromUnwantedRound <->
      IsVoteTypeValid (v_Type vote) = true /\ hvs_roundVoteSets hvs !! v_Round vote = None /\
      exists l, hvs_peerCatchupRounds hvs !! peer = Some l /\ length l = 2%nat) /\
    (IsVoteTypeValid (v_Type vote) = true -> err <> Some ErrGotVoteFromUnwantedRound ->
      exists vs vs' e, reachable_votes vs /\ AddVote (Some vs) (Some vote) = Val (vs', added, e) /\ err = option_map ErrVoteSet e /\
        getVoteSet hvs' (v_Round vote) (v_Type vote) = Val (Some vs') /\
        (forall vs0, getVoteSet hvs (v_Round vote) (v_Type vote) = Val (Some vs0) -> vs0 = vs)).
Proof.
  intros [Hr Hinv] Hw Hm. unfold HeightVoteSet_AddVote. destruct (IsVoteTypeValid (v_Type vote)) eqn:Ht; simpl.
  2: { exists hvs, false, None. split; [done|]. split; [done|]. split; [done|]. split; [naive_solver|done]. }
  assert (Hmap : forall (e : option AddVoteError), option_map ErrVoteSet e <> Some ErrGotVoteFromUnwantedRound) by (by intros []).
  assert (Hgo : forall h rvs, inv_at (hvs_round hvs) (hvs_round hvs) h -> hvs_round h = hvs_round hvs ->
    hvs_roundVoteSets h !! v_Round vote = Some rvs ->
    exists h' added e, add_to_round h vote = Val (h', added, option_map ErrVoteSet e) /\ height_inv h' /\
      hvs_round h' = hvs_round hvs /\
      exists vs vs', getVoteSet h (v_Round vote) (v_Type vote) = Val (Some vs) /\ reachable_votes vs /\
        AddVote (Some vs) (Some vote) = Val (vs', added, e) /\ getVoteSet h' (v_Round vote) (v_Type vote) = Val (Some vs')).
  { intros h rvs Hh Hround Hl.
    destruct (add_to_round_inv _ _ h vote rvs Hh Ht Hw Hm Hl) as (vs & vs' & added & err & Hg & Hadd & Hres & Hst & Hinv').
    exists (put_vote_set h (v_Round vote) (v_Type vote) vs'), added, err. split; [done|].
    assert (Hrd : hvs_round (put_vote_set h (v_Round vote) (v_Type vote) vs') = hvs_round hvs).
    { unfold put_vote_set. by rewrite Hl. }
    split; [split; by rewrite Hrd|]. split; [done|]. exists vs, vs'. split; [done|].
    destruct (getVoteSet_present _ _ h _ _ rvs Hh Ht Hl) as (vs1 & Hg1 & Hr1 & _). assert (vs1 = vs) as -> by congruence.
    split; [done|]. split; [done|]. by apply (put_vote_set_inv _ _ h _ _ vs vs' Hh Ht Hg Hst). }
  destruct (hvs_roundVoteSets hvs !! v_Round vote) as [rvs|] eqn:Hl.
  - destruct (Hgo hvs rvs Hinv eq_refl Hl) as (h' & added & e & Hres & Hi' & Hrd & vs & vs' & Hg & Hr' & Hadd & Hg').
    rewrite Hg. go_step. rewrite Hres. exists h', added, (option_map ErrVoteSet e). split; [done|]. split; [done|]. split; [done|].
    split; [split; [by intros ?%Hmap|naive_solver]|]. intros _ _. exists vs, vs', e. naive_solver.
  - assert (Hnone : getVoteSet hvs (v_Round vote) (v_Type vote) = Val None) by (unfold getVoteSet; by rewrite Hl).
    rewrite Hnone. go_step. set (rndz := default [] (hvs_peerCatchupRounds hvs !! peer)).
    destruct (Z.ltb_spec (len rndz) 2) as [Hlt|Hge].
    + destruct (addRound_val _ _ hvs _ Hinv Hl) as (rvs & -> & Ho1 & Ho2). go_step.
      set (h := with_catchup _ _ _).
      assert (Hh : inv_at (hvs_round hvs) (hvs_round hvs) h).
      { assert (Hc : inv_at (hvs_round hvs) (hvs_round hvs) (with_catchup hvs peer (rndz ++ [v_Round vote]))).
        { destruct Hinv as [J1 J2 J3 J4 J5 J6]. split; try done; simpl.
          - intros r Hr1. destruct (J5 r Hr1) as [?|(p & l & Hp & Hin)]; [by left|]. right.
            destruct (decide (p = peer)) as [->|]; [|exists p, l; by rewrite lookup_insert_ne by done].
            exists peer, (rndz ++ [v_Round vote]). rewrite lookup_insert_eq. split; [done|]. unfold rndz. rewrite Hp. set_solver.
          - intros p l Hp. apply lookup_insert_Some in Hp as [[_ <-]|[_ Hp]]; [|by eapply J6].
            rewrite length_app. simpl. unfold len in Hlt. lia. }
        apply (inv_at_insert _ _ _ (v_Round vote) rvs Hc).
        - by eapply round_ok_same.
        - by eapply round_ok_same.
        - right. exists peer, (rndz ++ [v_Round vote]). simpl. rewrite lookup_insert_eq. set_solver. }
      destruct (Hgo h rvs Hh eq_refl) as (h' & added & e & Hres & Hi' & Hrd & vs & vs' & Hg & Hr' & Hadd & Hg').
      { simpl. by rewrite lookup_insert_eq. }
      rewrite Hres. exists h', added, (option_map ErrVoteSet e). split; [done|]. split; [done|]. split; [done|].
      split; [split; [by intros ?%Hmap|]|].
      * intros (_ & _ & l & Hp & Hlen). unfold rndz in Hlt. rewrite Hp in Hlt. unfold len in Hlt. simpl in Hlt. lia.
      * intros _ _. exists vs, vs', e. naive_solver.
    + exists hvs, false, (Some ErrGotVoteFromUnwantedRound). split; [done|]. split; [done|]. split; [done|].
      split; [|naive_solver]. split; [intros _|done]. split; [done|]. split; [done|].
      unfold rndz in Hge. destruct (hvs_peerCatchupRounds hvs !! peer) as [l|] eqn:Hp; [|unfold len in Hge; simpl in Hge; lia].
      exists l. split; [done|]. apply (h_catchup _ _ _ Hinv) in Hp. unfold len in Hge. simpl in Hge. lia.
Qed.

(** ** Reachable heights *)

Inductive height_step : HeightVoteSet -> HeightVoteSet -> Prop :=
  | hs_vote hvs vote peer hvs' added err :
      wire_vote vote -> v_ValidatorIndex vote <= MaxInt32 ->
      HeightVoteSet_AddVote hvs vote peer = Val (hvs', added, err) -> height_step hvs hvs'
  | hs_round hvs round hvs' :
      hvs_round hvs <= round < MaxInt32 -> SetRound hvs round = Val hvs' -> height_step hvs hvs'
  | hs_peer hvs round t peer bid hvs' err :
      HeightVoteSet_SetPeerMaj23 hvs round t peer bid = Val (hvs', err) -> height_step hvs hvs'.

Definition reachable_height (hvs : HeightVoteSet) : Prop :=
  exists cid h vals hvs0, good_set vals /\ h <> 0 /\ NewHeightVoteSet cid h vals = Val hvs0 /\ rtc height_step hvs0 hvs.

Lemma NewHeightVoteSet_inv cid h vals :
  good_set vals -> h <> 0 -> exists hvs, NewHeightVoteSet cid h vals = Val hvs /\ height_inv hvs.
Proof.
  intros Hg Hh. unfold NewHeightVoteSet, HeightVoteSet_Reset. simpl. set (hvs0 := mkHeightVoteSet _ _ _ _ _ _).
  assert (Hi : inv_at (-1) (-1) hvs0).
  { split; simpl; try done; [intros r Hr; lia|by intros r [? ?]]. }
  destruct (addRound_val (-1) (-1) hvs0 0 Hi eq_refl) as (rvs & -> & Ho1 & Ho2). go_step. eexists. split; [done|].
  split; [simpl; int_lia|]. split; simpl; try done.
  - intros r x Hx. apply lookup_insert_Some in Hx as [[<- <-]|[_ Hx]]; [done|done].
  - intros r Hr. replace r with 0 by lia. rewrite lookup_insert_eq. eauto.
  - intros r [x Hx]. apply lookup_insert_Some in Hx as [[<- _]|[_ Hx]]; [left; lia|done].
Qed.

Lemma SetPeerMaj23_height_inv hvs round t peer bid :
  height_inv hvs -> exists hvs' err, HeightVoteSet_SetPeerMaj23 hvs round t peer bid = Val (hvs', err) /\ height_inv hvs'.
Proof.
  intros [Hr Hinv]. unfold HeightVoteSet_SetPeerMaj23. destruct (IsVoteTypeValid t) eqn:Ht; simpl; [|by eexists _, _].
  destruct (hvs_roundVoteSets hvs !! round) as [rvs|] eqn:Hl.
  - destruct (getVoteSet_present _ _ hvs _ _ rvs Hinv Ht Hl) as (vs & Hg & _). rewrite Hg. go_step.
    pose proof (step_peer vs peer bid) as Hst. destruct (SetPeerMaj23 vs peer bid) as [vs' err]. eexists _, _. split; [done|].
    assert (Hrd : hvs_round (put_vote_set hvs round t vs') = hvs_round hvs) by (unfold put_vote_set; by rewrite Hl).
    split; rewrite Hrd; [done|]. by apply (put_vote_set_inv _ _ hvs round t vs vs').
  - unfold getVoteSet. rewrite Hl. go_step. by eexists _, _.
Qed.

Lemma reachable_height_inv hvs : reachable_height hvs -> height_inv hvs.
Proof.
  intros (cid & h & vals & hvs0 & Hg & Hh & Hnew & Hs).
  destruct (NewHeightVoteSet_inv cid h vals Hg Hh) as (h0 & Hn0 & Hi). assert (h0 = hvs0) as -> by congruence.
  clear Hnew Hn0. induction Hs as [|x y z Hst _ IH]; [done|]. apply IH. clear IH.
  destruct Hst as [x vote peer y added err Hw Hm Hadd|x round y Hrd Hset|x round t peer bid y err Hp].
  - destruct (HeightVoteSet_AddVote_inv x vote peer Hi Hw Hm) as (y' & a & e & Hadd' & Hi' & _). congruence.
  - destruct (SetRound_inv x round Hi Hrd) as (y' & Hset' & Hi' & _). congruence.
  - destruct (SetPeerMaj23_height_inv x round t peer bid Hi) as (y' & e & Hp' & Hi'). congruence.
Qed.

Lemma length_join_le {A} (n : nat) (ls : list (list A)) :
  Forall (fun l => (length l <= n)%nat) ls -> (length (mjoin ls) <= n * length ls)%nat.
Proof. induction 1 as [|l ls Hl _ IH]; [by simpl; lia|].
  change (mjoin (l :: ls)) with (l ++ mjoin ls). cbn [length]. rewrite length_app, Nat.mul_succ_r. lia.
Qed.

(** The rounds a map can hold, counted. *)
Lemma rounds_bounded hvs :
  height_inv hvs ->
  Z.of_nat (size (hvs_roundVoteSets hvs)) <= hvs_round hvs + 2 + 2 * Z.of_nat (size (hvs_peerCatchupRounds hvs)).
Proof.
  intros [Hr Hinv]. set (L := seqZ (-1) (hvs_round hvs + 2) ++ mjoin (snd <$> map_to_list (hvs_peerCatchupRounds hvs))).
  assert (Hsub : (fst <$> map_to_list (hvs_roundVoteSets hvs)) ⊆+ L).
  { apply NoDup_submseteq; [apply NoDup_fst_map_to_list|]. intros r ([r' x] & -> & Hx%elem_of_map_to_list)%list_elem_of_fmap.
    simpl. unfold L. apply elem_of_app. destruct (h_origin _ _ _ Hinv r' ltac:(eauto)) as [Hb|(p & l & Hp & Hin)].
    - left. apply elem_of_seqZ. lia.
    - right. apply list_elem_of_join. exists l. split; [done|]. apply list_elem_of_fmap. exists (p, l).
      split; [done|]. by apply elem_of_map_to_list. }
  apply submseteq_length in Hsub. rewrite length_fmap, length_map_to_list in Hsub.
  unfold L in Hsub. rewrite length_app, length_seqZ in Hsub.
  assert (Hj : (length (mjoin (snd <$> map_to_list (hvs_peerCatchupRounds hvs))) <= 2 * size (hvs_peerCatchupRounds hvs))%nat).
  { rewrite <- length_map_to_list.
    assert (Hall : Forall (fun x => (length x.2 <= 2)%nat) (map_to_list (hvs_peerCatchupRounds hvs))).
    { apply Forall_forall. intros [p l] Hp%elem_of_map_to_list. by apply (h_catchup _ _ _ Hinv p). }
    pose proof (length_join_le 2 (snd <$> map_to_list (hvs_peerCatchupRounds hvs))) as Hle. rewrite length_fmap in Hle.
    apply Hle. by apply Forall_fmap. }
  lia.
Qed.

(** [AddVote] of a height never panics on a reachable height.  A peer is
    refused exactly when the round is unknown and the peer has already used its two
    catchup rounds; otherwise the call is the [AddVote] of the reachable vote set of the
    vote's round and type, whose result is stored. *)
Theorem height_add_vote hvs vote peer :
  reachable_height hvs -> wire_vote vote -> v_ValidatorIndex vote <= MaxInt32 ->
  exists hvs' added err, HeightVoteSet_AddVote hvs vote peer = Val (hvs', added, err) /\
    (err = Some ErrGotVoteFromUnwantedRound <->
      IsVoteTypeValid (v_Type vote) = true /\ hvs_roundVoteSets hvs !! v_Round vote = None /\
      exists l, hvs_peerCatchupRounds hvs !! peer = Some l /\ length l = 2%nat) /\
    (IsVoteTypeValid (v_Type vote) = true -> err <> Some ErrGotVoteFromUnwantedRound ->
      exists vs vs' e, reachable_votes vs /\ AddVote (Some vs) (Some vote) = Val (vs', added, e) /\ err = option_map ErrVoteSet e /\
        getVoteSet hvs' (v_Round vote) (v_Type vote) = Val (Some vs') /\
        (forall vs0, getVoteSet hvs (v_Round vote) (v_Type vote) = Val (Some vs0) -> vs0 = vs)).
Proof.
  intros Hr%reachable_height_inv Hw Hm.
  destruct (HeightVoteSet_AddVote_inv hvs vote peer Hr Hw Hm) as (hvs' & added & err & H1 & _ & _ & H2 & H3).
  by exists hvs', added, err.
Qed.

(** The rounds of a reachable height.  Every round up to the current one
    has its two vote sets, which are reachable vote sets of that height, round and type;
    the number of rounds kept is bounded by the current round and twice the number of
    peers that sent votes for unknown rounds; moving to a later round never panics and
    keeps the votes. *)
Theorem height_rounds hvs :
  reachable_height hvs ->
  (forall r, 0 <= r <= hvs_round hvs -> exists pv pc,
     Prevotes hvs r = Val (Some pv) /\ Precommits hvs r = Val (Some pc) /\
     round_ok hvs r PrevoteType pv /\ round_ok hvs r PrecommitType pc) /\
  Z.of_nat (size (hvs_roundVoteSets hvs)) <= hvs_round hvs + 2 + 2 * Z.of_nat (size (hvs_peerCatchupRounds hvs)) /\
  (forall round, hvs_round hvs <= round < MaxInt32 ->
     exists hvs', SetRound hvs round = Val hvs' /\ hvs_round hvs' = round /\
       forall r vs t, getVoteSet hvs r t = Val (Some vs) -> getVoteSet hvs' r t = Val (Some vs)).
Proof.
  intros Hr%reachable_height_inv. split; [|split].
  - intros r Hb. destruct Hr as [Hr Hinv]. destruct (h_all _ _ _ Hinv r Hb) as [rvs Hl].
    destruct (h_sets _ _ _ Hinv r rvs Hl) as [Ho1 Ho2]. exists (rv_Prevotes rvs), (rv_Precommits rvs).
    unfold Prevotes, Precommits, getVoteSet. by rewrite Hl.
  - by apply rounds_bounded.
  - intros round Hround. destruct (SetRound_inv hvs round Hr Hround) as (hvs' & Hs & _ & Hrd & Hmono).
    exists hvs'. split; [done|]. split; [done|]. intros r vs t. unfold getVoteSet.
    destruct (hvs_roundVoteSets hvs !! r) as [rvs|] eqn:Hl; [|done]. by rewrite (Hmono r rvs Hl).
Qed.

Lemma pol_search_spec hvs n :
  exists r b, pol_search hvs n = Val (r, b) /\
    ((r = -1 /\ b = nilBlockID) \/
     (0 <= r < Z.of_nat n /\ exists vs, Prevotes hvs r = Val (Some vs) /\ TwoThirdsMajority vs = (b, true))) /\
    forall r' vs, r < r' < Z.of_nat n -> 0 <= r' -> Prevotes hvs r' = Val (Some vs) -> HasTwoThirdsMajority vs = false.
Proof.
  induction n as [|n (r & b & Hs & Hcase & Hno)]; cbn [pol_search].
  { exists (-1), nilBlockID. split; [done|]. split; [by left|]. intros r' vs ? ?. lia. }
  destruct (getVoteSet hvs (Z.of_nat n) PrevoteType) as [o|[]|] eqn:Hg.
  2: { unfold getVoteSet in Hg. destruct (hvs_roundVoteSets hvs !! Z.of_nat n); done. }
  assert (Hskip : (forall vs, o = Some vs -> HasTwoThirdsMajority vs = false) ->
    exists r b, pol_search hvs n = Val (r, b) /\
    ((r = -1 /\ b = nilBlockID) \/
     (0 <= r < Z.of_nat (S n) /\ exists vs, Prevotes hvs r = Val (Some vs) /\ TwoThirdsMajority vs = (b, true))) /\
    forall r' vs, r < r' < Z.of_nat (S n) -> 0 <= r' -> Prevotes hvs r' = Val (Some vs) -> HasTwoThirdsMajority vs = false).
  { intros Hnone. exists r, b. split; [done|]. split; [destruct Hcase as [?|[? ?]]; [by left|right; split; [lia|done]]|].
    intros r' vs Hr' H0' Hp. destruct (decide (r' = Z.of_nat n)) as [->|]; [|apply (Hno r'); [lia|done|done]].
    unfold Prevotes in Hp. rewrite Hg in Hp. apply Hnone. congruence. }
  go_step. destruct o as [vs|]; [|by apply Hskip]. unfold TwoThirdsMajority at 1.
  destruct (vs_maj23 vs) as [m|] eqn:Hm.
  - exists (Z.of_nat n), m. split; [done|]. split.
    + right. split; [lia|]. exists vs. split; [done|]. unfold TwoThirdsMajority. by rewrite Hm.
    + intros r' vs' Hr'. lia.
  - apply Hskip. intros vs' [= <-]. unfold HasTwoThirdsMajority. rewrite Hm. apply bool_decide_eq_false. by intros [? ?].
Qed.

(** [POLInfo] returns the last round, up to the current one, whose prevotes
    have a two-thirds majority, with that majority, or -1 when there is none. *)
Theorem height_pol_info hvs :
  reachable_height hvs ->
  exists r b, POLInfo hvs = Val (r, b) /\
    ((r = -1 /\ b = nilBlockID) \/
     (0 <= r <= hvs_round hvs /\ exists vs, Prevotes hvs r = Val (Some vs) /\ TwoThirdsMajority vs = (b, true))) /\
    forall r' vs, r < r' <= hvs_round hvs -> 0 <= r' -> Prevotes hvs r' = Val (Some vs) -> HasTwoThirdsMajority vs = false.
Proof.
  intros [Hr _]%reachable_height_inv. unfold POLInfo.
  destruct (pol_search_spec hvs (Z.to_nat (hvs_round hvs + 1))) as (r & b & Hs & Hcase & Hno).
  rewrite Z2Nat.id in * by lia. exists r, b. split; [done|]. split.
  - destruct Hcase as [?|[? ?]]; [by left|right; split; [lia|done]].
  - intros r' vs Hr'. apply Hno. lia.
Qed.
End inv.

(** ** A concrete height *)

Definition sample_height : HeightVoteSet :=
  match NewHeightVoteSet [x61] 5 sample_set with Val h => h | _ => mkHeightVoteSet [] 0 sample_set 0 ∅ ∅ end.

Lemma sample_good : good_set sample_set.
Proof.
  split; [apply sample_reachable|]. split; [|by vm_compute].
  destruct sample_one_key as [Hk _]. eapply Forall_impl; [exact Hk|]. intros v (pk & -> & _). eauto.
Qed.

Lemma sample_height_reachable : @reachable_height toy_crypto toy_time sample_height.
Proof.
  exists [x61], 5, sample_set, sample_height. split; [apply sample_good|]. split; [done|]. split; [|reflexivity].
  vm_compute. reflexivity.
Qed.

Definition catchup_result : go (HeightVoteSet * bool * option HeightVoteError) :=
  @HeightVoteSet_AddVote toy_crypto toy_time sample_height (toy_vote x07 0 x03) [x10].
Definition catchup_state : HeightVoteSet := match catchup_result with Val (h, _, _) => h | _ => sample_height end.
Lemma catchup_verdict :
  @HeightVoteSet_AddVote toy_crypto toy_time sample_height (toy_vote x07 0 x03) [x10] = Val (catchup_state, true, None).
Proof. vm_compute. reflexivity. Qed.

(** A vote for round 1 while the height is at round 0: a catchup round. *)
Lemma height_add_vote_witness :
  exists hvs' vs, @HeightVoteSet_AddVote toy_crypto toy_time sample_height (toy_vote x07 0 x03) [x10] = Val (hvs', true, None) /\
    getVoteSet hvs' 1 PrecommitType = Val (Some vs).
Proof.
  destruct (@height_add_vote toy_crypto toy_time sample_height (toy_vote x07 0 x03) [x10])
    as (hvs' & added & err & H1 & _ & H2).
  - exact sample_height_reachable.
  - apply toy_vote_wire.
  - vm_compute. discriminate.
  - assert (Hok : added = true /\ err = None).
    { pose proof (eq_trans (eq_sym catchup_verdict) H1) as Hq. apply Val_inj in Hq.
      apply pair_equal_spec in Hq as [Hq He]. apply pair_equal_spec in Hq as [_ Ha]. split; symmetry; [exact Ha|exact He]. }
    destruct Hok as [-> ->]. destruct H2 as (vs & vs' & e & _ & _ & _ & H3 & _); [reflexivity|discriminate|].
    exists hvs', vs'. split; [exact H1|exact H3].
Defined.

Lemma height_rounds_witness :
  exists hvs', SetRound sample_height 3 = Val hvs' /\ hvs_round hvs' = 3.
Proof.
  destruct (@height_rounds toy_crypto toy_time sample_height sample_height_reachable) as (_ & _ & H).
  destruct (H 3) as (hvs' & H1 & H2 & _).
  - vm_compute. split; [discriminate|reflexivity].
  - exists hvs'. split; [exact H1|exact H2].
Defined.

Lemma height_pol_info_witness : exists r b, POLInfo sample_height = Val (r, b).
Proof.
  destruct (@height_pol_info toy_crypto toy_time sample_height sample_height_reachable) as (r & b & H & _).
  exists r, b. exact H.
Defined.

(** The first [SetRound] of a height also creates vote sets for round -1,
    although the rounds kept are documented to be 0 to the current round. *)
Theorem set_round_creates_round_minus_one :
  match SetRound sample_height 1 with
  | Val hvs => bool_decide (is_Some (hvs_roundVoteSets hvs !! (-1)))
  | _ => false
  end = true.
Proof. vm_compute. reflexivity. Qed.
