(* ===== verification/PartSet.v ===== *)
(** * types/part_set.go: blocks split into parts with Merkle proofs *)
From Stdlib Require Import ZArith Lia Strings.Byte.
From stdpp Require Import base list strings.
From S2P Require Import Prelude.
From S2P Require Import Merkle.
From S2P Require Import BitArray.
From S2P Require Import Types.

Definition BlockPartSizeBytes : Z := 65536.

Record Part := mkPart { pt_Index : Z; pt_Bytes : bytes; pt_Proof : Merkle.Proof }.

Inductive PartError := ErrPartTooBig | ErrPartProof (e : ProofError).

Definition Part_ValidateBasic (part : Part) : outcome PartError unit :=
  _ ← fail_if (len (pt_Bytes part) >? BlockPartSizeBytes) ErrPartTooBig;
  wrap_err ErrPartProof (Proof_ValidateBasic (pt_Proof part)).

(** A [*Part] is shared with whoever made it and is never written to once its
    proof is set; it is modelled by its value, a nil entry by [None]. *)
Record PartSet := mkPartSet {
  ps_total : Z;
  ps_hash : bytes;
  ps_parts : list (option Part);
  ps_partsBitArray : option BitArray.BitArray;
  ps_count : Z;
  ps_byteSize : Z
}.

(** [data[lo:hi]], with the run-time check of the bounds. *)
Definition slice_range (data : bytes) (lo hi : Z) : go bytes :=
  if (0 <=? lo) && (lo <=? hi) && (hi <=? len data) then Val (take (Z.to_nat (hi - lo)) (drop (Z.to_nat lo) data))
  else Panic "slice bounds out of range".

(** The first loop of [NewPartSetFromData]: [n] parts from index [i]. *)
Fixpoint split_parts (n : nat) (i : Z) (data : bytes) (partSize : Z) (bits : option BitArray.BitArray)
    : go (list bytes * option BitArray.BitArray) :=
  match n with
  | O => Val ([], bits)
  | S n' =>
      chunk ← slice_range data (uint32 (i * partSize)) (Z.min (len data) (uint32 (uint32 (i + 1) * partSize)));
      '(bits, _) ← BitArray.SetIndex bits i true;
      '(chunks, bits) ← split_parts n' (i + 1) data partSize bits;
      Val (chunk :: chunks, bits)
  end.

(** The second loop: part [i] gets proof [i]. *)
Fixpoint attach_proofs (i : Z) (chunks : list bytes) (proofs : list Merkle.Proof) : go (list (option Part)) :=
  match chunks, proofs with
  | [], _ => Val []
  | _ :: _, [] => Panic "index out of range"
  | chunk :: chunks', proof :: proofs' =>
      rest ← attach_proofs (i + 1) chunks' proofs';
      Val (Some (mkPart i chunk proof) :: rest)
  end.

Section parts.
Context `{!Sha256}.

Definition NewPartSetFromData (data : bytes) (partSize : Z) : go PartSet :=
  _ ← panic_if (partSize =? 0) "integer divide by zero";
  let total := Z.quot (uint32 (uint32 (uint32 (len data) + partSize) - 1)) partSize in
  '(chunks, bits) ← split_parts (Z.to_nat total) 0 data partSize (BitArray.NewBitArray total);
  '(root, proofs) ← ProofsFromByteSlices chunks;
  parts ← attach_proofs 0 chunks proofs;
  Val (mkPartSet total root parts bits total (len data)).

Definition NewPartSetFromHeader (header : PartSetHeader) : PartSet :=
  mkPartSet (psh_Total header) (psh_Hash header) (replicate (Z.to_nat (psh_Total header)) None)
    (BitArray.NewBitArray (psh_Total header)) 0 0.

Definition PartSet_Header (ps : option PartSet) : PartSetHeader :=
  match ps with None => mkPartSetHeader 0 [] | Some ps => mkPartSetHeader (ps_total ps) (ps_hash ps) end.
Definition HasHeader (ps : option PartSet) (header : PartSetHeader) : bool :=
  match ps with None => false | Some _ => PartSetHeader_Equals (PartSet_Header ps) header end.
Definition PartSet_Hash (ps : option PartSet) : go bytes :=
  match ps with None => HashFromByteSlices [] | Some ps => Val (ps_hash ps) end.
Definition PartSet_HashesTo (ps : option PartSet) (hash : bytes) : bool :=
  match ps with None => false | Some ps => bytes_equal (ps_hash ps) hash end.
Definition PartSet_BitArray (ps : PartSet) : option BitArray.BitArray := BitArray.Copy (ps_partsBitArray ps).
Definition PartSet_Count (ps : option PartSet) : Z := match ps with None => 0 | Some ps => ps_count ps end.
Definition PartSet_ByteSize (ps : option PartSet) : Z := match ps with None => 0 | Some ps => ps_byteSize ps end.
Definition PartSet_Total (ps : option PartSet) : Z := match ps with None => 0 | Some ps => ps_total ps end.

Inductive PartSetError := ErrPartSetUnexpectedIndex | ErrPartSetInvalidProof.

(** [AddPart]: the new set with the Go results [(added, err)]. *)
Definition AddPart (ps : PartSet) (part : Part) : go (PartSet * bool * option PartSetError) :=
  if pt_Index part >=? ps_total ps then Val (ps, false, Some ErrPartSetUnexpectedIndex)
  else
    existing ← slice_get (ps_parts ps) (pt_Index part);
    match existing with
    | Some _ => Val (ps, false, None)
    | None =>
        match Verify (pt_Proof part) (ps_hash ps) (pt_Bytes part) with
        | Panic w => Panic w
        | Fail _ => Val (ps, false, Some ErrPartSetInvalidProof)
        | Val _ =>
            parts ← slice_set (ps_parts ps) (pt_Index part) (Some part);
            '(bits, _) ← BitArray.SetIndex (ps_partsBitArray ps) (pt_Index part) true;
            Val (mkPartSet (ps_total ps) (ps_hash ps) parts bits (uint32 (ps_count ps + 1))
                   (int64 (ps_byteSize ps + len (pt_Bytes part))), true, None)
        end
    end.
End parts.

Definition GetPart (ps : PartSet) (index : Z) : go (option Part) := slice_get (ps_parts ps) index.
Definition IsComplete (ps : PartSet) : bool := ps_count ps =? ps_total ps.

(** ** The reader *)

(** The unread bytes of the current part and its index. *)
Record PartSetReader := mkPartSetReader { psr_i : Z; psr_parts : list (option Part); psr_reader : bytes }.

Definition part_bytes (parts : list (option Part)) (i : Z) : go bytes :=
  part ← slice_get parts i;
  match part with
  | Some part => Val (pt_Bytes part)
  | None => Panic "invalid memory address or nil pointer dereference"
  end.

Definition NewPartSetReader (parts : list (option Part)) : go PartSetReader :=
  bz ← part_bytes parts 0;
  Val (mkPartSetReader 0 parts bz).

Definition GetReader (ps : PartSet) : go PartSetReader :=
  _ ← panic_if (negb (IsComplete ps)) "Cannot GetReader() on incomplete PartSet";
  NewPartSetReader (ps_parts ps).

(** [bytes.Reader.Read] into a buffer of length [n]: the bytes, the rest, and [err == io.EOF]. *)
Definition reader_read (r : bytes) (n : Z) : bytes * bytes * bool :=
  if len r =? 0 then ([], r, true) else (take (Z.to_nat n) r, drop (Z.to_nat n) r, false).

(** [Read] into a buffer of length [n]: the bytes read and [err == io.EOF].  Two
    calls per part are enough: one ends a part, one opens the next. *)
Fixpoint Read (fuel : nat) (psr : PartSetReader) (n : Z) : go (PartSetReader * bytes * bool) :=
  let readerLen := len (psr_reader psr) in
  if readerLen >=? n then
    let '(bz, rest, eof) := reader_read (psr_reader psr) n in
    Val (mkPartSetReader (psr_i psr) (psr_parts psr) rest, bz, eof)
  else
    match fuel with
    | O => Panic "out of fuel"
    | S fuel' =>
        if readerLen >? 0 then
          '(psr, bz1, eof) ← Read fuel' psr readerLen;
          if (eof : bool) then Val (psr, bz1, true)
          else
            '(psr, bz2, eof) ← Read fuel' psr (n - readerLen);
            Val (psr, bz1 ++ bz2, eof)
        else
          let i := psr_i psr + 1 in
          if i >=? len (psr_parts psr) then Val (mkPartSetReader i (psr_parts psr) (psr_reader psr), [], true)
          else
            bz ← part_bytes (psr_parts psr) i;
            Read fuel' (mkPartSetReader i (psr_parts psr) bz) n
    end.
