(* ===== verification/PartSetProofs.v ===== *)
(** * types/part_set.go: splitting, reassembling and reading back

    The parts of a block, delivered in any order, rebuild the data; a part set
    whose parts carry the proof of their own index can only be completed with
    the original data, unless SHA-256 collides. *)
From Stdlib Require Import ZArith Lia Strings.Byte.
From stdpp Require Import base list strings relations.
From S2P Require Import Prelude.
From S2P Require Import Merkle.
From S2P Require Import MerkleProofs.
From S2P Require Import BitArray.
From S2P Require Import BitArrayProofs.
From S2P Require Import Types.
From S2P Require Import PartSet.

(** ** Splitting *)

(** Chunk [i] of the data, and the list of [n] chunks from the [i]th. *)
Definition chunk (data : bytes) (p : nat) (i : nat) : bytes := take p (drop (i * p) data).
Definition chunks (data : bytes) (p : nat) (i n : nat) : list bytes := chunk data p <$> seq i n.

(** The number of parts. *)
Definition part_count (data : bytes) (p : Z) : Z := (len data + p - 1) / p.

Lemma part_count_bounds data p :
  0 < p -> data <> [] -> (part_count data p - 1) * p < len data <= part_count data p * p /\ 0 < part_count data p.
Proof.
  intros Hp Hd. unfold part_count. assert (0 < len data) by (destruct data; [done|unfold len; simpl; lia]).
  pose proof (Z.div_mod (len data + p - 1) p ltac:(lia)). pose proof (Z.mod_pos_bound (len data + p - 1) p Hp).
  split; [|apply Z.div_str_pos; lia]. nia.
Qed.

Lemma chunks_concat data p i n :
  (0 < p)%nat -> (length data <= (i + n) * p)%nat -> mjoin (chunks data p i n) = drop (i * p) data.
Proof.
  intros Hp. revert i. induction n as [|n IH]; intros i Hl.
  { rewrite drop_ge by lia. done. }
  unfold chunks. cbn [seq]. rewrite fmap_cons. change (mjoin (?x :: ?y)) with (x ++ mjoin y).
  fold (chunks data p (S i) n). rewrite IH by lia. unfold chunk.
  replace (S i * p)%nat with (i * p + p)%nat by lia. rewrite <- drop_drop. apply take_drop.
Qed.

Lemma slice_range_chunk data p i :
  0 < p -> 0 <= i -> i * p < len data -> len data + p <= MaxUint32 ->
  slice_range data (uint32 (i * p)) (Z.min (len data) (uint32 (uint32 (i + 1) * p))) = Val (chunk data (Z.to_nat p) (Z.to_nat i)).
Proof.
  intros Hp Hi Hlt Hmax. pose proof (Z.mul_nonneg_nonneg i p Hi ltac:(lia)).
  assert (Hi1 : i <= i * p) by nia. assert (Hs : (i + 1) * p = i * p + p) by lia.
  rewrite (uint32_id (i + 1)) by int_lia. rewrite !uint32_id by int_lia. unfold slice_range.
  destruct (Z.leb_spec 0 (i * p)); [|lia]. destruct (Z.leb_spec (i * p) (Z.min (len data) ((i + 1) * p))); [|lia].
  destruct (Z.leb_spec (Z.min (len data) ((i + 1) * p)) (len data)); [|lia]. simpl. f_equal. unfold chunk.
  rewrite Z2Nat.inj_mul by lia. destruct (Z.le_ge_cases (len data) ((i + 1) * p)) as [Hle|Hge].
  - rewrite Z.min_l by done. rewrite !take_ge; [done|rewrite length_drop; unfold len in *; nia|rewrite length_drop; unfold len in *; nia].
  - rewrite Z.min_r by done. do 2 f_equal. lia.
Qed.

Lemma split_parts_val data p n i bits (all : list (option bytes)) :
  0 < p -> len data + p <= MaxUint32 -> 0 <= i ->
  (forall j, i <= j < i + Z.of_nat n -> j * p < len data) ->
  bits_ok bits all -> i + Z.of_nat n <= len all ->
  exists bits', split_parts n i data p bits = Val (chunks data (Z.to_nat p) (Z.to_nat i) n, bits') /\
    bits_ok bits' (imap (fun j o => if decide (Z.to_nat i <= j < Z.to_nat i + n)%nat then Some (default [] o) else o) all).
Proof.
  intros Hp Hmax. revert i bits all. induction n as [|n IH]; intros i bits all Hi Hin Hb Hlen; cbn [split_parts].
  - exists bits. split; [done|]. eapply bits_ok_same_shape; [exact Hb|by rewrite length_imap|].
    intros j o o' Ho Ho'. rewrite list_lookup_imap, Ho in Ho'. simpl in Ho'. injection Ho' as <-.
    rewrite decide_False by lia. done.
  - rewrite slice_range_chunk by (done || apply Hin; lia). go_step.
    destruct (bits_ok_set bits all (Z.to_nat i) [] Hb) as (bits1 & b & Hs & Hb1); [unfold len in Hlen; lia|].
    rewrite Z2Nat.id in Hs by done. rewrite Hs. go_step.
    destruct (IH (i + 1) bits1 (<[Z.to_nat i := Some []]> all)) as (bits' & -> & Hb').
    + lia.
    + intros j Hj. apply Hin. lia.
    + done.
    + unfold len in *. rewrite length_insert. lia.
    + go_step. exists bits'. split.
      * unfold chunks. cbn [seq]. rewrite fmap_cons. replace (Z.to_nat (i + 1)) with (S (Z.to_nat i)) by lia. done.
      * eapply bits_ok_same_shape; [exact Hb'|by rewrite !length_imap, length_insert|].
        intros j o o'. rewrite !list_lookup_imap. intros Ho Ho'.
        apply fmap_Some in Ho as (x & Hx & ->). apply fmap_Some in Ho' as (y & Hy & ->).
        destruct (decide (j = Z.to_nat i)) as [->|Hne].
        -- rewrite list_lookup_insert_eq in Hx by (apply lookup_lt_Some in Hy; done). injection Hx as <-.
           repeat case_decide; split; eauto; lia.
        -- rewrite list_lookup_insert_ne in Hx by congruence. assert (x = y) as -> by congruence.
           repeat case_decide; try lia; done.
Qed.

Lemma attach_proofs_val i cs pfs :
  length cs = length pfs ->
  exists parts, attach_proofs i cs pfs = Val (Some <$> parts) /\ length parts = length cs /\
    forall j c pf, cs !! j = Some c -> pfs !! j = Some pf -> parts !! j = Some (mkPart (i + Z.of_nat j) c pf).
Proof.
  revert i pfs. induction cs as [|c cs IH]; intros i [|pf pfs] Hl; try done; cbn [attach_proofs].
  { by exists []. }
  destruct (IH (i + 1) pfs ltac:(by injection Hl)) as (parts & -> & Hlen & Hlk). go_step.
  exists (mkPart i c pf :: parts). split; [done|]. split; [simpl; by rewrite Hlen|].
  intros [|j] c' pf' Hc Hpf; simpl in *; [simplify_eq; by rewrite Z.add_0_r|].
  rewrite (Hlk j c' pf' Hc Hpf). do 2 f_equal. lia.
Qed.

Section parts.
Context `{!Sha256}.

(** The parts of some data: each carries its chunk and a proof for its own index. *)
Definition parts_of (data : bytes) (p : Z) (root : bytes) (parts : list Part) : Prop :=
  len parts = part_count data p /\
  HashFromByteSlices (pt_Bytes <$> parts) = Val root /\
  mjoin (pt_Bytes <$> parts) = data /\
  forall i part, parts !! i = Some part ->
    pt_Index part = Z.of_nat i /\ Index (pt_Proof part) = Z.of_nat i /\ Total (pt_Proof part) = len parts /\
    Verify (pt_Proof part) root (pt_Bytes part) = Val tt.

Lemma NewPartSetFromData_val data p :
  0 < p -> data <> [] -> len data + p <= MaxInt32 ->
  exists root parts bits,
    NewPartSetFromData data p = Val (mkPartSet (len parts) root (Some <$> parts) bits (len parts) (len data)) /\
    parts_of data p root parts /\ bits_ok bits (Some <$> parts).
Proof.
  intros Hp Hd Hmax. pose proof (part_count_bounds data p Hp Hd) as [Hpc Hpos].
  assert (Hdl : 0 < len data) by (destruct data; [done|unfold len; simpl; lia]).
  unfold NewPartSetFromData. destruct (Z.eqb_spec p 0) as [?|_]; [lia|]. go_step.
  assert (Htot : Z.quot (uint32 (uint32 (uint32 (len data) + p) - 1)) p = part_count data p).
  { rewrite (uint32_id (len data)), (uint32_id (len data + p)), uint32_id by int_lia.
    apply Z.quot_div_nonneg; lia. }
  rewrite Htot. set (n := Z.to_nat (part_count data p)).
  assert (Hpc2 : part_count data p <= MaxInt32) by nia.
  destruct (split_parts_val data p n 0 (BitArray.NewBitArray (part_count data p)) (replicate n None)) as (bits & -> & Hb).
  - done.
  - int_lia.
  - lia.
  - intros j Hj. unfold n in Hj. nia.
  - apply bits_ok_new. lia.
  - unfold len. rewrite length_replicate. lia.
  - go_step. change (Z.to_nat 0) with 0%nat in *. set (cs := chunks data (Z.to_nat p) 0 n) in *.
    assert (Hcs : length cs = n) by (unfold cs, chunks; by rewrite length_fmap, length_seq).
    destruct (ProofsFromByteSlices_spec cs) as (root & pfs & Hroot & Hpfs & Hplen & Hver); [unfold len; rewrite Hcs; int_lia|].
    rewrite Hpfs. go_step. destruct (attach_proofs_val 0 cs pfs) as (parts & -> & Hlen & Hlk); [done|]. go_step.
    assert (Hbytes : pt_Bytes <$> parts = cs).
    { apply list_eq. intros j. rewrite list_lookup_fmap. destruct (cs !! j) as [c|] eqn:Hc.
      - destruct (Hver j c Hc) as (sp & Hsp & _). by rewrite (Hlk j c sp Hc Hsp).
      - apply lookup_ge_None in Hc. by rewrite lookup_ge_None_2 by lia. }
    assert (Hlz : len parts = part_count data p) by (unfold len; lia).
    exists root, parts, bits. rewrite Hlz. split; [done|]. split.
    + split; [done|]. rewrite Hbytes. split; [done|]. split.
      * unfold cs. rewrite chunks_concat; [done|lia|]. unfold n, len in *. nia.
      * intros i part Hpart. destruct (lookup_lt_is_Some_2 cs i) as [c Hc]; [apply lookup_lt_Some in Hpart; lia|].
        destruct (Hver i c Hc) as (sp & Hsp & Hidx & Ht & Hv). rewrite (Hlk i c sp Hc Hsp) in Hpart. injection Hpart as <-.
        simpl. rewrite Hlz. split; [done|]. split; [done|]. split; [rewrite Ht; unfold len; lia|done].
    + eapply bits_ok_same_shape; [exact Hb|rewrite length_imap, length_replicate, length_fmap; lia|].
      intros j o o'. rewrite list_lookup_imap, list_lookup_fmap. intros Ho Ho'.
      apply fmap_Some in Ho as (x & Hx & ->). apply fmap_Some in Ho' as (y & Hy & ->).
      apply lookup_replicate in Hx as [-> Hj]. rewrite decide_True by lia. split; eauto.
Qed.

(** ** Reassembly *)

(** The number of parts present and their size. *)
Definition present_count (l : list (option Part)) : Z := sumZ (fun o => match o with Some _ => 1 | None => 0 end) l.
Definition present_bytes (l : list (option Part)) : Z := sumZ (fun o => match o with Some q => len (pt_Bytes q) | None => 0 end) l.

Lemma present_count_bounds l : 0 <= present_count l <= len l.
Proof. unfold present_count, sumZ, len. induction l as [|[q|] l IH]; simpl; lia. Qed.

Lemma present_count_full l : present_count l = len l -> exists parts, l = Some <$> parts.
Proof.
  induction l as [|[q|] l IH]; intros Hc.
  - by exists [].
  - destruct IH as [parts ->]; [unfold present_count, sumZ, len in *; simpl in *; lia|]. by exists (q :: parts).
  - pose proof (present_count_bounds l). unfold present_count, sumZ, len in *. simpl in *. lia.
Qed.

Lemma present_bytes_full parts : present_bytes (Some <$> parts) = len (mjoin (pt_Bytes <$> parts)).
Proof.
  induction parts as [|q parts IH]; [done|]. rewrite !fmap_cons. change (mjoin (?x :: ?y)) with (x ++ mjoin y).
  unfold present_bytes, sumZ, len in *. simpl foldr. rewrite length_app. lia.
Qed.

(** The invariant of a part set that is being filled; [ok] is what is known of its parts. *)
Record filling (total : Z) (root : bytes) (ok : nat -> Part -> Prop) (ps : PartSet) : Prop := {
  fl_total : ps_total ps = total;
  fl_hash : ps_hash ps = root;
  fl_len : len (ps_parts ps) = total;
  fl_ok : forall i q, ps_parts ps !! i = Some (Some q) -> ok i q;
  fl_count : ps_count ps = present_count (ps_parts ps);
  fl_bytes : ps_byteSize ps = int64 (present_bytes (ps_parts ps));
  fl_bits : bits_ok (ps_partsBitArray ps) (ps_parts ps)
}.

Lemma new_filling total root ok :
  0 <= total <= MaxInt32 -> filling total root ok (NewPartSetFromHeader (mkPartSetHeader total root)).
Proof.
  intros Ht. unfold NewPartSetFromHeader. split; simpl; try done.
  - unfold len. rewrite length_replicate. lia.
  - by intros i q [? _]%lookup_replicate.
  - unfold present_count. generalize (Z.to_nat total). induction n; [done|]. unfold sumZ in *. simpl. lia.
  - unfold present_bytes. generalize (Z.to_nat total). induction n as [|n IH]; [done|]. unfold sumZ in *. simpl in *. by rewrite Z.add_0_l.
  - by apply bits_ok_new.
Qed.

Lemma int64_add_l a b : int64 (int64 a + b) = int64 (a + b).
Proof.
  unfold int64, wrap_signed.
  replace ((a + 2 ^ (64 - 1)) mod 2 ^ 64 - 2 ^ (64 - 1) + b + 2 ^ (64 - 1)) with ((a + 2 ^ (64 - 1)) mod 2 ^ 64 + b) by lia.
  rewrite Z.add_mod_idemp_l by lia. do 2 f_equal. lia.
Qed.

(** [Verify] of a proof whose total is not negative never panics. *)
Lemma computeHashFromAunts_rev_total i n leaf aunts : exists h, computeHashFromAunts_rev i n leaf aunts = Val h.
Proof.
  revert i n. induction aunts as [|a aunts IH]; intros i n; cbn [computeHashFromAunts_rev].
  - destruct (_ || _); [eauto|]. destruct (n =? 1); eauto.
  - destruct (_ || _) eqn:Hg; [eauto|]. destruct (n =? 1); [eauto|].
    assert (Hn : 1 <= n) by (apply orb_false_iff in Hg as [_ Hg]; apply Z.leb_gt in Hg; lia).
    unfold getSplitPoint. destruct (Z.ltb_spec n 1); [lia|]. go_step.
    match goal with |- context [if i <? ?k then _ else _] =>
      destruct (IH i k) as [h1 Hl], (IH (i - k) (n - k)) as [h2 Hr]; destruct (i <? k) end; [rewrite Hl|rewrite Hr]; go_step; eauto.
Qed.

Lemma Verify_total sp root leaf : Verify sp root leaf = Val tt \/ exists e, Verify sp root leaf = Fail e.
Proof.
  unfold Verify, ComputeRootHash, computeHashFromAunts.
  destruct (computeHashFromAunts_rev_total (Index sp) (Total sp) (LeafHash sp) (rev (Aunts sp))) as [h ->].
  destruct (Total sp <? 0); go_step; [eauto|]. destruct (Index sp <? 0); go_step; [eauto|].
  destruct (bytes_equal (default [] (LeafHash sp)) _); go_step; [|eauto].
  destruct (bytes_equal _ root); simpl; eauto.
Qed.

Definition present (ps : PartSet) (i : nat) : Prop := exists q, ps_parts ps !! i = Some (Some q).

(** [AddPart] of a part in range: it never panics, fills an empty slot exactly
    when the proof verifies, and keeps the counts. *)
Lemma AddPart_spec total root ok ps part :
  filling total root ok ps -> total <= MaxInt32 -> 0 <= pt_Index part < total ->
  (Verify (pt_Proof part) root (pt_Bytes part) = Val tt -> ok (Z.to_nat (pt_Index part)) part) ->
  exists ps' added err, AddPart ps part = Val (ps', added, err) /\ filling total root ok ps' /\
    (forall i q, ps_parts ps !! i = Some (Some q) -> ps_parts ps' !! i = Some (Some q)) /\
    (Verify (pt_Proof part) root (pt_Bytes part) = Val tt -> err = None /\ present ps' (Z.to_nat (pt_Index part))) /\
    (added = true <-> ps_parts ps !! Z.to_nat (pt_Index part) = Some None /\ Verify (pt_Proof part) root (pt_Bytes part) = Val tt) /\
    (added = false -> ps' = ps).
Proof.
  intros [Ht Hh Hl Hok Hc Hby Hbits] Hmax Hidx Hpart. unfold AddPart. rewrite Ht, Hh, Z.geb_leb.
  destruct (Z.leb_spec total (pt_Index part)); [lia|]. set (i := Z.to_nat (pt_Index part)) in *.
  assert (Hi : (i < length (ps_parts ps))%nat) by (unfold len in Hl; lia).
  destruct (lookup_lt_is_Some_2 _ _ Hi) as [o Ho].
  rewrite (proj2 (slice_get_val (ps_parts ps) (pt_Index part) o)) by (split; [lia|done]). go_step.
  destruct o as [q|].
  { exists ps, false, None. split; [done|]. split; [by split|]. split; [done|]. split; [by split; [|exists q]|].
    split; [|done]. split; [done|]. intros [? _]. congruence. }
  destruct (Verify_total (pt_Proof part) root (pt_Bytes part)) as [Hv|[e He]].
  2: { rewrite He. exists ps, false, (Some ErrPartSetInvalidProof). split; [done|]. split; [by split|]. split; [done|].
       split; [done|]. split; [|done]. split; [done|]. by intros [_ ?]. }
  rewrite Hv. rewrite (proj2 (slice_set_val (ps_parts ps) (pt_Index part) (Some part) (<[i := Some part]> (ps_parts ps))))
    by (split; [lia|done]). go_step.
  destruct (bits_ok_set _ _ i part Hbits Hi) as (bits & b & Hs & Hb'). unfold i in Hs. rewrite Z2Nat.id in Hs by lia.
  rewrite Hs. go_step. eexists _, true, None. split; [done|]. split; [|split; [|split; [|split; [done|done]]]].
  - split; simpl; try done.
    + unfold len in *. by rewrite length_insert.
    + intros j q Hj. apply list_lookup_insert_Some in Hj as [(<- & [= <-] & _)|[_ Hj]]; [by apply Hpart|by apply Hok].
    + rewrite Hc. unfold present_count. rewrite (sumZ_insert _ _ _ None) by done. fold (present_count (ps_parts ps)).
      pose proof (present_count_bounds (<[i := Some part]> (ps_parts ps))) as Hb. unfold present_count in Hb at 1 2.
      rewrite (sumZ_insert _ _ _ None) in Hb by done. fold (present_count (ps_parts ps)) in Hb.
      pose proof (present_count_bounds (ps_parts ps)). unfold len in Hb. rewrite length_insert in Hb.
      fold (len (ps_parts ps)) in Hb. rewrite uint32_id; [lia|]. int_lia.
    + rewrite Hby, int64_add_l. unfold present_bytes. rewrite (sumZ_insert _ _ _ None) by done. f_equal. lia.
  - intros j q Hj. simpl. rewrite list_lookup_insert_ne; [done|]. intros <-. congruence.
  - intros _. split; [done|]. exists part. simpl. by rewrite list_lookup_insert_eq.
Qed.

(** Parts delivered one after the other; an error stops the delivery. *)
Fixpoint deliver (ps : PartSet) (parts : list Part) : outcome PartSetError PartSet :=
  match parts with
  | [] => Val ps
  | part :: rest =>
      '(ps, _, err) ← lift (AddPart ps part);
      match err with None => deliver ps rest | Some e => Fail e end
  end.

Lemma deliver_spec total root (all : list Part) ps order :
  len all = total -> total <= MaxInt32 ->
  (forall i q, all !! i = Some q -> pt_Index q = Z.of_nat i /\ Verify (pt_Proof q) root (pt_Bytes q) = Val tt) ->
  filling total root (fun i q => all !! i = Some q) ps -> Forall (fun q => q ∈ all) order ->
  exists ps', deliver ps order = Val ps' /\ filling total root (fun i q => all !! i = Some q) ps' /\
    (forall i, present ps i -> present ps' i) /\
    forall q, q ∈ order -> present ps' (Z.to_nat (pt_Index q)).
Proof.
  intros Hlen Hmax Hall Hf Hin. revert ps Hf. induction Hin as [|q order Hq Hin IH]; intros ps Hf; cbn [deliver].
  { exists ps. split; [done|]. split; [done|]. split; [done|]. by intros q ?%not_elem_of_nil. }
  apply list_elem_of_lookup in Hq as [i Hi]. destruct (Hall i q Hi) as [Hidx Hv].
  pose proof (lookup_lt_Some _ _ _ Hi) as Hlt.
  destruct (AddPart_spec total root (fun i q => all !! i = Some q) ps q Hf Hmax) as (ps1 & added & err & -> & Hf1 & Hkeep & Hok & _).
  { unfold len in Hlen. lia. }
  { intros _. by rewrite Hidx, Nat2Z.id. }
  destruct (Hok Hv) as [-> Hp]. go_step. destruct (IH ps1 Hf1) as (ps' & -> & Hf' & Hmono & Hpres).
  exists ps'. split; [done|]. split; [done|]. split.
  - intros j [x Hx]. apply Hmono. exists x. by apply Hkeep.
  - intros x [->|Hx]%elem_of_cons; [by apply Hmono|by apply Hpres].
Qed.
End parts.

(** ** Reading *)

(** What a reader has still to return. *)
Definition pending (parts : list Part) (psr : PartSetReader) : bytes :=
  psr_reader psr ++ mjoin (pt_Bytes <$> drop (Z.to_nat (psr_i psr + 1)) parts).

Lemma reader_read_val r n :
  0 < n -> n <= len r -> reader_read r n = (take (Z.to_nat n) r, drop (Z.to_nat n) r, false).
Proof. intros Hn Hl. unfold reader_read. by destruct (Z.eqb_spec (len r) 0); [lia|]. Qed.

Lemma Read_spec parts fuel psr n :
  psr_parts psr = Some <$> parts -> 0 <= psr_i psr -> 0 < n ->
  2 * Z.max 0 (len parts - psr_i psr) + (if len (psr_reader psr) =? 0 then 1 else 2) <= Z.of_nat fuel ->
  exists psr', Read fuel psr n = Val (psr', take (Z.to_nat n) (pending parts psr), len (pending parts psr) <? n) /\
    psr_parts psr' = Some <$> parts /\ psr_i psr <= psr_i psr' /\
    pending parts psr' = drop (Z.to_nat n) (pending parts psr).
Proof.
  revert psr n. induction fuel as [|fuel IH]; intros psr n Hp Hi Hn Hf; [destruct (_ =? _); lia|].
  assert (Hdirect : n <= len (psr_reader psr) ->
    exists psr', (let '(bz, rest, eof) := reader_read (psr_reader psr) n in
      Val (E := Empty_set) (mkPartSetReader (psr_i psr) (psr_parts psr) rest, bz, eof)) =
      Val (psr', take (Z.to_nat n) (pending parts psr), len (pending parts psr) <? n) /\
    psr_parts psr' = Some <$> parts /\ psr_i psr <= psr_i psr' /\
    pending parts psr' = drop (Z.to_nat n) (pending parts psr)).
  { intros Hle. rewrite reader_read_val by lia. unfold pending.
    exists (mkPartSetReader (psr_i psr) (psr_parts psr) (drop (Z.to_nat n) (psr_reader psr))).
    rewrite take_app_le, drop_app_le by (unfold len in Hle; lia). split; [|split; [done|split; [done|done]]].
    do 2 f_equal. symmetry. apply Z.ltb_ge. unfold len in *. rewrite length_app. lia. }
  cbn [Read]. rewrite Z.geb_leb. destruct (Z.leb_spec n (len (psr_reader psr))) as [Hle|Hgt]; [by apply Hdirect|].
  rewrite Z.gtb_ltb. destruct (Z.ltb_spec 0 (len (psr_reader psr))) as [Hpos|Hzero].
  - (* the rest of this part, then the following parts *)
    assert (Hfirst : Read fuel psr (len (psr_reader psr)) = Val (mkPartSetReader (psr_i psr) (psr_parts psr) [], psr_reader psr, false)).
    { destruct fuel; cbn [Read]; rewrite Z.geb_leb, Z.leb_refl, reader_read_val by lia; unfold len; rewrite Nat2Z.id, take_ge, drop_ge by lia; done. }
    rewrite Hfirst. go_step.
    destruct (IH (mkPartSetReader (psr_i psr) (psr_parts psr) []) (n - len (psr_reader psr))) as (psr' & -> & Hp' & Hi' & Hpend).
    + done.
    + done.
    + lia.
    + simpl. destruct (Z.eqb_spec (len (psr_reader psr)) 0); lia.
    + go_step. exists psr'. unfold pending in *. cbn [psr_reader psr_i] in *. rewrite app_nil_l in *.
      split; [|split; [done|split; [done|]]].
      * do 2 f_equal; [f_equal|].
        -- rewrite take_app_ge by (unfold len in *; lia). do 2 f_equal. unfold len. lia.
        -- unfold len in *. rewrite length_app. apply eq_true_iff_eq. rewrite !Z.ltb_lt. lia.
      * rewrite Hpend, drop_app_ge by (unfold len in *; lia). f_equal. unfold len. lia.
  - (* open the next part *)
    assert (Hnil : psr_reader psr = []) by (apply length_zero_iff_nil; unfold len in Hzero; lia).
    assert (Hlen : len (psr_parts psr) = len parts) by (rewrite Hp; unfold len; by rewrite length_fmap).
    rewrite Hlen, Z.geb_leb. destruct (Z.leb_spec (len parts) (psr_i psr + 1)) as [Hend|Hmore].
    + exists (mkPartSetReader (psr_i psr + 1) (psr_parts psr) (psr_reader psr)).
      split; [|split; [exact Hp|split; [simpl; lia|]]].
      * unfold pending. rewrite Hnil, drop_ge by (unfold len in Hend; lia). simpl. rewrite take_nil.
        by rewrite (proj2 (Z.ltb_lt (len []) n) Hn).
      * unfold pending. simpl. rewrite Hnil, (drop_ge parts) by (unfold len in Hend; lia).
        rewrite (drop_ge parts) by (unfold len in Hend; lia). simpl. by rewrite ?drop_nil.
    + destruct (lookup_lt_is_Some_2 parts (Z.to_nat (psr_i psr + 1))) as [q Hq]; [unfold len in Hmore; lia|].
      unfold part_bytes. rewrite (proj2 (slice_get_val (psr_parts psr) (psr_i psr + 1) (Some q))).
      2: { split; [lia|]. by rewrite Hp, list_lookup_fmap, Hq. }
      go_step. destruct (IH (mkPartSetReader (psr_i psr + 1) (psr_parts psr) (pt_Bytes q)) n) as (psr' & Hr & Hp' & Hi' & Hpend).
      * done.
      * simpl. lia.
      * done.
      * cbn [psr_i psr_reader]. rewrite Hnil in Hf. simpl in Hf. destruct (_ =? _); lia.
      * assert (Heq : pending parts (mkPartSetReader (psr_i psr + 1) (psr_parts psr) (pt_Bytes q)) = pending parts psr).
        { unfold pending. cbn [psr_i psr_reader]. rewrite Hnil, app_nil_l, (drop_S parts q _ Hq), fmap_cons.
          change (mjoin (?x :: ?y)) with (x ++ mjoin y). do 4 f_equal. lia. }
        rewrite Heq in *. exists psr'. split; [done|]. split; [done|]. split; [simpl in Hi'; lia|done].
Qed.

(** Fuel for any read of a set of [n] parts. *)
Definition read_fuel (n : nat) : nat := 2 * n + 2.

(** ** The theorems *)

Section theorems.
Context `{!Sha256}.

Lemma filling_complete total root ok ps :
  filling total root ok ps -> IsComplete ps = true -> exists parts, ps_parts ps = Some <$> parts /\ len parts = total.
Proof.
  intros Hf Hc. unfold IsComplete in Hc. apply Z.eqb_eq in Hc. rewrite (fl_count _ _ _ _ Hf), (fl_total _ _ _ _ Hf) in Hc.
  destruct (present_count_full (ps_parts ps)) as [parts Hp]; [rewrite Hc; symmetry; apply Hf|].
  exists parts. split; [done|]. pose proof (fl_len _ _ _ _ Hf) as Hl. rewrite Hp in Hl. unfold len in *. by rewrite length_fmap in Hl.
Qed.

(** A reader over all the parts returns the data, whatever the buffer sizes. *)
Lemma GetReader_spec ps parts data :
  IsComplete ps = true -> ps_parts ps = Some <$> parts -> parts <> [] -> mjoin (pt_Bytes <$> parts) = data ->
  exists r, GetReader ps = Val r /\ psr_parts r = Some <$> parts /\ psr_i r = 0 /\ pending parts r = data.
Proof.
  intros Hc Hp Hne Hd. unfold GetReader, NewPartSetReader, part_bytes. rewrite Hc, Hp. go_step.
  destruct parts as [|q parts]; [done|]. rewrite fmap_cons. unfold slice_get, zlookup. simpl. eexists. split; [done|].
  split; [done|]. split; [done|]. unfold pending. simpl. rewrite drop_0, <- Hd. done.
Qed.

(** A block survives being split and reassembled.  The parts made from
    any non-empty data, delivered in any order and with any repetitions to a part set
    that knows only the header, are all accepted; the set is then complete, counts the
    bytes of the data, and its reader returns the data: a read of any length returns the
    next bytes, with end-of-file exactly when fewer are left. *)
Theorem part_set_roundtrip data partSize order :
  0 < partSize -> data <> [] -> len data + partSize <= MaxInt32 ->
  exists full parts, NewPartSetFromData data partSize = Val full /\ ps_parts full = Some <$> parts /\
    ((forall q, q ∈ order <-> q ∈ parts) ->
     exists ps r, deliver (NewPartSetFromHeader (PartSet_Header (Some full))) order = Val ps /\
       IsComplete ps = true /\ ps_parts ps = ps_parts full /\ PartSet_ByteSize (Some ps) = len data /\
       HasHeader (Some ps) (PartSet_Header (Some full)) = true /\ GetReader ps = Val r /\
       forall n, 0 < n -> exists r', Read (read_fuel (length parts)) r n = Val (r', take (Z.to_nat n) data, len data <? n)).
Proof.
  intros Hp Hd Hmax. destruct (NewPartSetFromData_val data partSize Hp Hd Hmax) as (root & parts & bits & Hnew & (Hcnt & Hroot & Hdata & Hparts) & Hb).
  eexists _, parts. split; [exact Hnew|]. split; [done|]. intros Horder. simpl.
  pose proof (part_count_bounds data partSize Hp Hd) as [Hpc Hpos].
  assert (Hlmax : 0 <= len parts <= MaxInt32) by nia.
  assert (Hne : parts <> []) by (intros ->; unfold len in *; simpl in *; lia).
  destruct (deliver_spec (len parts) root parts (NewPartSetFromHeader (mkPartSetHeader (len parts) root)) order)
    as (ps & Hdel & Hf & _ & Hpres); try done.
  - lia.
  - intros i q Hq. by apply Hparts in Hq as (? & _ & _ & ?).
  - by apply new_filling.
  - apply Forall_forall. intros q. apply Horder.
  - assert (Hall : ps_parts ps = Some <$> parts).
    { apply list_eq. intros i. rewrite list_lookup_fmap. destruct (parts !! i) as [q|] eqn:Hq.
      - pose proof (Hparts i q Hq) as (Hidx & _). destruct (Hpres q) as [x Hx]; [apply Horder; by eapply list_elem_of_lookup_2|].
        rewrite Hidx, Nat2Z.id in Hx. pose proof (fl_ok _ _ _ _ Hf i x Hx) as Hx'. simpl in *. congruence.
      - apply lookup_ge_None. pose proof (fl_len _ _ _ _ Hf). apply lookup_ge_None in Hq. unfold len in *. lia. }
    assert (Hcomp : IsComplete ps = true).
    { unfold IsComplete. rewrite (fl_count _ _ _ _ Hf), (fl_total _ _ _ _ Hf), Hall. apply Z.eqb_eq.
      unfold present_count, len. clear. induction parts; [done|]. unfold sumZ in *. rewrite fmap_cons. simpl in *. lia. }
    destruct (GetReader_spec ps parts data Hcomp Hall Hne Hdata) as (r & Hr & Hrp & Hri & Hpend).
    exists ps, r. split; [done|]. split; [done|]. split; [done|]. split; [|split; [|split; [done|]]].
    + simpl. rewrite (fl_bytes _ _ _ _ Hf), Hall, present_bytes_full, Hdata. apply int64_id.
      assert (0 <= len data) by (unfold len; lia). int_lia.
    + unfold HasHeader, PartSetHeader_Equals. simpl. by rewrite (fl_total _ _ _ _ Hf), (fl_hash _ _ _ _ Hf), Z.eqb_refl, bytes_equal_refl.
    + intros n Hn. destruct (Read_spec parts (read_fuel (length parts)) r n Hrp) as (r' & Hread & _); [lia|done| |].
      * rewrite Hri. unfold read_fuel, len. destruct (_ =? _); lia.
      * exists r'. by rewrite Hread, Hpend.
Qed.

(** A part whose proof is for its own position in a set of the given size. *)
Definition own_proof (total : Z) (part : Part) : Prop :=
  Part_ValidateBasic part = Val tt /\ 0 <= pt_Index part < total /\
  Index (pt_Proof part) = pt_Index part /\ Total (pt_Proof part) = total.

Inductive fill_step (total : Z) : PartSet -> PartSet -> Prop :=
  | fill_add ps part ps' added err :
      own_proof total part -> AddPart ps part = Val (ps', added, err) -> fill_step total ps ps'.

(** What a verified part is, unless two hashed strings collide. *)
Definition genuine (items : list bytes) (i : nat) (q : Part) : Prop :=
  items !! i = Some (pt_Bytes q) \/ hash_collision (verify_inputs (pt_Proof q) (pt_Bytes q)) (items_inputs items).

Lemma all_or_one {A B} (f : A -> B) (C : A -> Prop) (l : list A) (items : list B) :
  (forall i q, l !! i = Some q -> items !! i = Some (f q) \/ C q) -> length l = length items ->
  f <$> l = items \/ exists q, q ∈ l /\ C q.
Proof.
  revert items. induction l as [|q l IH]; intros [|x items] Hg Hlen; try done; [by left|].
  destruct (IH items) as [Hl|(q' & Hq' & HC)].
  - intros i. apply (Hg (S i)).
  - by injection Hlen.
  - destruct (Hg 0%nat q eq_refl) as [Hx|HC]; [left|right; exists q; split; [left|done]].
    simpl in Hx. injection Hx as ->. by rewrite fmap_cons, Hl.
  - right. exists q'. split; [by right|done].
Qed.

(** A part set filled from the network holds the data its header commits
    to.  If every part offered passes [ValidateBasic] and carries a proof for its own
    index and the set's total, then a completed set reads back exactly the data whose
    part set header it was created from, unless SHA-256 collides on hashed strings. *)
Theorem part_set_binding data partSize full ps :
  0 < partSize -> data <> [] -> len data + partSize <= MaxInt32 -> NewPartSetFromData data partSize = Val full ->
  rtc (fill_step (ps_total full)) (NewPartSetFromHeader (PartSet_Header (Some full))) ps -> IsComplete ps = true ->
  (exists r r', GetReader ps = Val r /\ Read (read_fuel (length (ps_parts ps))) r (len data + 1) = Val (r', data, true)) \/
  exists parts items q, ps_parts full = Some <$> parts /\ items = pt_Bytes <$> parts /\ Some q ∈ ps_parts ps /\
    hash_collision (verify_inputs (pt_Proof q) (pt_Bytes q)) (items_inputs items).
Proof.
  intros Hp Hd Hmax Hfull Hsteps Hcomp.
  destruct (NewPartSetFromData_val data partSize Hp Hd Hmax) as (root & parts & bits & Hnew & (Hcnt & Hroot & Hdata & Hparts) & Hb).
  rewrite Hnew in Hfull. injection Hfull as <-. simpl in *.
  pose proof (part_count_bounds data partSize Hp Hd) as [Hpc Hpos].
  assert (Hlmax : 0 <= len parts <= MaxInt32) by nia.
  assert (Hitems : len (pt_Bytes <$> parts) = len parts) by (unfold len; by rewrite length_fmap).
  assert (Hf : filling (len parts) root (genuine (pt_Bytes <$> parts)) ps).
  { pose proof (new_filling (len parts) root (genuine (pt_Bytes <$> parts)) Hlmax) as H0.
    induction Hsteps as [|x y z Hst _ IH]; [done|]. apply IH; [done|]. destruct Hst as [x part y added err (Hvb & Hidx & Hpi & Hpt) Hadd].
    destruct (AddPart_spec (len parts) root (genuine (pt_Bytes <$> parts)) x part H0 ltac:(lia) Hidx) as (y' & a & e & Hadd' & Hf' & _); [|congruence].
    intros Hver. unfold Part_ValidateBasic in Hvb. inv_val.
    match goal with Hv : Proof_ValidateBasic _ = Val tt |- _ =>
      destruct (Verify_sound (pt_Bytes <$> parts) root (pt_Proof part) (pt_Bytes part)) as [Hz|Hcol]; try done end.
    - rewrite Hitems. int_lia.
    - by rewrite Hitems.
    - left. rewrite Hpi in Hz. by apply zlookup_Some in Hz as [_ Hz].
    - by right. }
  destruct (filling_complete _ _ _ ps Hf Hcomp) as (qs & Hqs & Hlen).
  assert (Hcase : pt_Bytes <$> qs = pt_Bytes <$> parts \/
    exists q, q ∈ qs /\ hash_collision (verify_inputs (pt_Proof q) (pt_Bytes q)) (items_inputs (pt_Bytes <$> parts))).
  { apply all_or_one; [|unfold len in *; lia]. intros i q Hq. apply (fl_ok _ _ _ _ Hf). by rewrite Hqs, list_lookup_fmap, Hq. }
  destruct Hcase as [Hsame|(q & Hq & Hcol)].
  - left. assert (Hne : qs <> []) by (intros ->; unfold len in *; simpl in *; lia).
    destruct (GetReader_spec ps qs data Hcomp Hqs Hne) as (r & Hr & Hrp & Hri & Hpend); [by rewrite Hsame|].
    exists r. destruct (Read_spec qs (read_fuel (length (ps_parts ps))) r (len data + 1) Hrp) as (r' & Hread & _).
    + lia.
    + unfold len. lia.
    + rewrite Hri, Hqs, length_fmap. unfold read_fuel, len. destruct (_ =? _); lia.
    + exists r'. split; [done|]. rewrite Hread, Hpend, take_ge by (unfold len; lia). by rewrite (proj2 (Z.ltb_lt _ _)) by lia.
  - right. exists parts, (pt_Bytes <$> parts), q. split; [done|]. split; [done|]. split; [|done].
    rewrite Hqs. apply list_elem_of_fmap. by exists q.
Qed.
End theorems.

(** ** A concrete part set *)

Definition sample_data : bytes := [x61; x62; x63; x64; x65].
Definition sample_full : PartSet :=
  match @NewPartSetFromData toy_sha256 sample_data 2 with Val ps => ps | _ => mkPartSet 0 [] [] None 0 0 end.
Definition sample_parts : list Part := omap id (ps_parts sample_full).

Lemma omap_id_Some {A} (l : list A) : omap id (Some <$> l) = l.
Proof. induction l as [|x l IH]; [done|]. rewrite fmap_cons.
  change (omap id (Some x :: (Some <$> l))) with (x :: omap id (Some <$> l)). by rewrite IH.
Qed.

Lemma part_set_roundtrip_witness :
  exists ps r r', @deliver toy_sha256 (NewPartSetFromHeader (PartSet_Header (Some sample_full))) (rev sample_parts) = Val ps /\
    GetReader ps = Val r /\ Read (read_fuel 3) r 10 = Val (r', sample_data, true).
Proof.
  destruct (@part_set_roundtrip toy_sha256 sample_data 2 (rev sample_parts)) as (full & parts & Hnew & Hparts & H).
  - reflexivity.
  - discriminate.
  - vm_compute. discriminate.
  - assert (Hfull : full = sample_full). { unfold sample_full. rewrite Hnew. reflexivity. }
    subst full. assert (Hp : parts = sample_parts). { unfold sample_parts. rewrite Hparts. symmetry. apply omap_id_Some. }
    subst parts. destruct H as (ps & r & H1 & _ & _ & _ & _ & H2 & H3).
    + intros q. rewrite <- (reverse_Permutation sample_parts) at 2. unfold reverse. by rewrite rev_append_rev, app_nil_r.
    + destruct (H3 10) as (r' & Hr); [reflexivity|]. exists ps, r, r'. split; [exact H1|]. split; [exact H2|]. exact Hr.
Defined.

(** The set after the first [n] parts. *)
Definition sample_filled (n : nat) : PartSet :=
  match @deliver toy_sha256 (NewPartSetFromHeader (PartSet_Header (Some sample_full))) (take n sample_parts) with
  | Val ps => ps
  | _ => sample_full
  end.
Definition sample_part (n : nat) : Part := default (mkPart 0 [] (mkProof 0 0 None [])) (sample_parts !! n).

Definition own_proofb (total : Z) (part : Part) : bool :=
  is_val (Part_ValidateBasic part) && (0 <=? pt_Index part) && (pt_Index part <? total) &&
  (Index (pt_Proof part) =? pt_Index part) && (Total (pt_Proof part) =? total).
Lemma own_proofb_spec total part : own_proofb total part = true -> own_proof total part.
Proof.
  unfold own_proofb. rewrite !andb_true_iff, !Z.eqb_eq, Z.leb_le, Z.ltb_lt. intros [[[[Hv H1] H2] H3] H4].
  split; [|done]. by destruct (Part_ValidateBasic part) as [[]| |].
Qed.

Lemma sample_filling : rtc (@fill_step toy_sha256 (ps_total sample_full))
  (NewPartSetFromHeader (PartSet_Header (Some sample_full))) (sample_filled 3).
Proof.
  assert (Hstep : forall n, (n < 3)%nat -> @fill_step toy_sha256 (ps_total sample_full) (sample_filled n) (sample_filled (S n))).
  { intros n Hn. apply (fill_add _ _ (sample_part n) _ true None).
    - apply own_proofb_spec. destruct n as [|[|[|]]]; try lia; vm_compute; reflexivity.
    - destruct n as [|[|[|]]]; try lia; vm_compute; reflexivity. }
  change (NewPartSetFromHeader (PartSet_Header (Some sample_full))) with (sample_filled 0).
  eapply rtc_l; [apply Hstep; lia|]. eapply rtc_l; [apply Hstep; lia|]. eapply rtc_l; [apply Hstep; lia|]. reflexivity.
Qed.

Lemma part_set_binding_witness :
  (exists r r', GetReader (sample_filled 3) = Val r /\
     Read (read_fuel (length (ps_parts (sample_filled 3)))) r (len sample_data + 1) = Val (r', sample_data, true)) \/
  exists parts items q, ps_parts sample_full = Some <$> parts /\ items = pt_Bytes <$> parts /\ Some q ∈ ps_parts (sample_filled 3) /\
    @hash_collision toy_sha256 (@verify_inputs toy_sha256 (pt_Proof q) (pt_Bytes q)) (@items_inputs toy_sha256 items).
Proof.
  apply (@part_set_binding toy_sha256 sample_data 2 sample_full (sample_filled 3)).
  - reflexivity.
  - discriminate.
  - vm_compute. discriminate.
  - vm_compute. reflexivity.
  - exact sample_filling.
  - vm_compute. reflexivity.
Defined.

(** ** A part whose proof is for another index *)

(** The second part of the data, offered as the first. *)
Definition misplaced_part : Part := mkPart 0 (pt_Bytes (sample_part 1)) (pt_Proof (sample_part 1)).

(** [AddPart] does not compare the index of a part with that of its
    proof.  The second part of some data, renumbered as the first, passes
    [ValidateBasic] and is added; with it the set becomes complete under the same header
    and its reader returns other data. *)
Theorem part_set_accepts_misplaced_part :
  Part_ValidateBasic misplaced_part = Val tt /\
  match @deliver toy_sha256 (NewPartSetFromHeader (PartSet_Header (Some sample_full)))
          [misplaced_part; sample_part 1; sample_part 2] with
  | Val ps =>
      IsComplete ps = true /\
      match GetReader ps with
      | Val r => match Read (read_fuel 3) r 10 with
                 | Val (_, bz, eof) => eof = true /\ bz = [x63; x64; x63; x64; x65] /\ bz <> sample_data
                 | _ => False
                 end
      | _ => False
      end
  | _ => False
  end.
Proof. vm_compute. repeat split. discriminate. Qed.
