(* ===== verification/Decode.v ===== *)
(** * Decoding the canonical messages

    The generated [Unmarshal] methods of proto/tendermint/types/canonical.pb.go
    and [UnmarshalDelimited] of internal/libs/protoio/reader.go.  The generated
    methods repeat the same loop for each message: it is written once
    ([unmarshal_loop]) with the [switch] on the field number as an argument.
    A position is the index [iNdEx] with the bytes from it on. *)
From Stdlib Require Import ZArith Lia Strings.Byte.
From stdpp Require Import base list strings.
From S2P Require Import Prelude.
From S2P Require Import Proto.
From S2P Require Import Types.

Inductive DecodeError :=
  | ErrIntOverflow | ErrUnexpectedEOF | ErrInvalidLength | ErrEndGroup | ErrIllegalTag | ErrWrongWireType
  | ErrUnexpectedEndOfGroup | ErrIllegalWireType | ErrTime
  | ErrUvarintOverflow | ErrOutOfRangeLength | ErrMaxSize.

Definition Zbyte (b : byte) : Z := Z.of_N (Byte.to_N b).

Abbreviation position := (Z * bytes)%type.

(** [for shift := uint(0); ; shift += 7 { ... x |= T(b&0x7F) << shift ... }], where
    [wrap] is the conversion to the type [T]; ten rounds reach the overflow check. *)
Fixpoint varint_loop (fuel : nat) (wrap : Z -> Z) (shift acc : Z) (idx : Z) (rest : bytes)
    : outcome DecodeError (Z * position) :=
  if shift >=? 64 then Fail ErrIntOverflow
  else
    match rest with
    | [] => Fail ErrUnexpectedEOF
    | b :: rest' =>
        let acc := Z.lor acc (wrap (Z.shiftl (Z.land (Zbyte b) 127) shift)) in
        if Zbyte b <? 128 then Val (acc, (idx + 1, rest'))
        else
          match fuel with
          | O => Fail ErrIntOverflow
          | S fuel' => varint_loop fuel' wrap (shift + 7) acc (idx + 1) rest'
          end
    end.
Definition dec_varint (wrap : Z -> Z) (st : position) : outcome DecodeError (Z * position) :=
  varint_loop 10 wrap 0 0 st.1 st.2.

(** The bytes of a length-delimited field; [l] is the length of the message. *)
Definition dec_slice (l : Z) (n : Z) (st : position) : outcome DecodeError (bytes * position) :=
  _ ← fail_if (n <? 0) ErrInvalidLength;
  let postIndex := int64 (st.1 + n) in
  _ ← fail_if (postIndex <? 0) ErrInvalidLength;
  _ ← fail_if (postIndex >? l) ErrUnexpectedEOF;
  Val (take (Z.to_nat n) st.2, (postIndex, drop (Z.to_nat n) st.2)).
Definition dec_bytes (l : Z) (st : position) : outcome DecodeError (bytes * position) :=
  '(n, st) ← dec_varint int64 st;
  dec_slice l n st.
Definition dec_string (l : Z) (st : position) : outcome DecodeError (bytes * position) :=
  '(n, st) ← dec_varint uint64 st;
  dec_slice l (int64 n) st.

Fixpoint le_value (b : bytes) : Z :=
  match b with [] => 0 | x :: b' => Zbyte x + 256 * le_value b' end.
Definition dec_fixed64 (l : Z) (st : position) : outcome DecodeError (Z * position) :=
  _ ← fail_if (st.1 + 8 >? l) ErrUnexpectedEOF;
  Val (int64 (le_value (take 8 st.2)), (st.1 + 8, drop 8 st.2)).

(** [skipCanonical]: the number of bytes of the next field; groups nest. *)
Fixpoint skip_loop (fuel : nat) (depth : Z) (idx : Z) (rest : bytes) : outcome DecodeError Z :=
  match rest, fuel with
  | [], _ | _, O => Fail ErrUnexpectedEOF
  | _ :: _, S fuel' =>
      '(wire, st) ← dec_varint uint64 (idx, rest);
      let wireType := Z.land wire 7 in
      '(depth, st) ←
        (if wireType =? 0 then '(_, st) ← dec_varint uint64 st; Val (depth, st)
         else if wireType =? 1 then Val (depth, (int64 (st.1 + 8), drop 8 st.2))
         else if wireType =? 2 then
           '(length, st) ← dec_varint int64 st;
           _ ← fail_if (length <? 0) ErrInvalidLength;
           Val (depth, (int64 (st.1 + length), drop (Z.to_nat length) st.2))
         else if wireType =? 3 then Val (depth + 1, st)
         else if wireType =? 4 then
           _ ← fail_if (depth =? 0) ErrUnexpectedEndOfGroup;
           Val (depth - 1, st)
         else if wireType =? 5 then Val (depth, (int64 (st.1 + 4), drop 4 st.2))
         else Fail ErrIllegalWireType);
      _ ← fail_if (st.1 <? 0) ErrInvalidLength;
      if depth =? 0 then Val st.1 else skip_loop fuel' depth st.1 st.2
  end.
Definition skipCanonical (dAtA : bytes) : outcome DecodeError Z := skip_loop (length dAtA) 0 0 dAtA.

(** The [for] loop of an [Unmarshal]: [field] is the [switch], [None] its default. *)
Section loop.
Context {M : Type} (l : Z)
  (field : Z -> Z -> M -> position -> option (outcome DecodeError (M * position))).

Fixpoint unmarshal_loop (fuel : nat) (m : M) (st : position) : outcome DecodeError M :=
  match st.2, fuel with
  | [], _ => if st.1 >? l then Fail ErrUnexpectedEOF else Val m
  | _, O => Fail ErrUnexpectedEOF
  | _ :: _, S fuel' =>
      '(wire, st') ← dec_varint uint64 st;
      let fieldNum := int32 (Z.shiftr wire 3) in
      let wireType := Z.land wire 7 in
      _ ← fail_if (wireType =? 4) ErrEndGroup;
      _ ← fail_if (fieldNum <=? 0) ErrIllegalTag;
      match field fieldNum wireType m st' with
      | Some r => '(m, st) ← r; unmarshal_loop fuel' m st
      | None =>
          skippy ← skipCanonical st.2;
          _ ← fail_if ((skippy <? 0) || (int64 (st.1 + skippy) <? 0)) ErrInvalidLength;
          _ ← fail_if (int64 (st.1 + skippy) >? l) ErrUnexpectedEOF;
          unmarshal_loop fuel' m (st.1 + skippy, drop (Z.to_nat skippy) st.2)
      end
  end.
End loop.

Definition unmarshal {M} (field : Z -> Z -> Z -> M -> position -> option (outcome DecodeError (M * position)))
    (m : M) (dAtA : bytes) : outcome DecodeError M :=
  unmarshal_loop (len dAtA) (field (len dAtA)) (length dAtA) m (0, dAtA).

(** [if wireType != w { return error }; decode; m.Field = v]. *)
Definition set_field {M A} (w wireType : Z) (dec : outcome DecodeError (A * position)) (put : A -> M)
    : option (outcome DecodeError (M * position)) :=
  Some (_ ← fail_if (negb (wireType =? w)) ErrWrongWireType; '(a, st) ← dec; Val (put a, st)).

Definition CanonicalPartSetHeader_field (l fieldNum wireType : Z) (m : PartSetHeader) (st : position) :=
  if fieldNum =? 1 then
    set_field 0 wireType (dec_varint uint32 st) (fun v => mkPartSetHeader v (psh_Hash m))
  else if fieldNum =? 2 then
    set_field 2 wireType (dec_bytes l st) (fun v => mkPartSetHeader (psh_Total m) v)
  else None.
Definition CanonicalPartSetHeader_Unmarshal (m : PartSetHeader) (dAtA : bytes) : outcome DecodeError PartSetHeader :=
  unmarshal CanonicalPartSetHeader_field m dAtA.

(** An embedded message: its bytes decoded by its own [Unmarshal]. *)
Definition dec_message {A} (l : Z) (sub : bytes -> outcome DecodeError A) (st : position) : outcome DecodeError (A * position) :=
  '(bz, st) ← dec_bytes l st;
  a ← sub bz;
  Val (a, st).

Definition CanonicalBlockID_field (l fieldNum wireType : Z) (m : BlockID) (st : position) :=
  if fieldNum =? 1 then
    set_field 2 wireType (dec_bytes l st) (fun v => mkBlockID v (bid_PartSetHeader m))
  else if fieldNum =? 2 then
    set_field 2 wireType (dec_message l (CanonicalPartSetHeader_Unmarshal (bid_PartSetHeader m)) st)
      (fun v => mkBlockID (bid_Hash m) v)
  else None.
Definition CanonicalBlockID_Unmarshal (m : BlockID) (dAtA : bytes) : outcome DecodeError BlockID :=
  unmarshal CanonicalBlockID_field m dAtA.

(** [StdTimeUnmarshal] of gogo/protobuf, which reads what [StdTimeMarshal] writes. *)
Class TimeDecoder `{!TimeCodec} := {
  StdTimeUnmarshal : bytes -> option Time;
  StdTimeUnmarshal_marshal : forall t b, StdTimeMarshal t = Some b -> StdTimeUnmarshal b = Some t
}.

Section messages.
Context `{!TimeCodec, !TimeDecoder}.

Definition time_of (bz : bytes) : outcome DecodeError Time :=
  match StdTimeUnmarshal bz with Some t => Val t | None => Fail ErrTime end.

Definition CanonicalVote_field (l fieldNum wireType : Z) (m : CanonicalVote) (st : position) :=
  let '(mkCanonicalVote ty h r bid ts cid) := m in
  if fieldNum =? 1 then set_field 0 wireType (dec_varint int32 st) (fun v => mkCanonicalVote v h r bid ts cid)
  else if fieldNum =? 2 then set_field 1 wireType (dec_fixed64 l st) (fun v => mkCanonicalVote ty v r bid ts cid)
  else if fieldNum =? 3 then set_field 1 wireType (dec_fixed64 l st) (fun v => mkCanonicalVote ty h v bid ts cid)
  else if fieldNum =? 4 then
    set_field 2 wireType (dec_message l (CanonicalBlockID_Unmarshal (default nilBlockID bid)) st)
      (fun v => mkCanonicalVote ty h r (Some v) ts cid)
  else if fieldNum =? 5 then set_field 2 wireType (dec_message l time_of st) (fun v => mkCanonicalVote ty h r bid v cid)
  else if fieldNum =? 6 then set_field 2 wireType (dec_string l st) (fun v => mkCanonicalVote ty h r bid ts v)
  else None.
Definition CanonicalVote_Unmarshal (dAtA : bytes) : outcome DecodeError CanonicalVote :=
  unmarshal CanonicalVote_field (mkCanonicalVote 0 0 0 None zero_time []) dAtA.

Definition CanonicalProposal_field (l fieldNum wireType : Z) (m : CanonicalProposal) (st : position) :=
  let '(mkCanonicalProposal ty h r pol bid ts cid) := m in
  if fieldNum =? 1 then set_field 0 wireType (dec_varint int32 st) (fun v => mkCanonicalProposal v h r pol bid ts cid)
  else if fieldNum =? 2 then set_field 1 wireType (dec_fixed64 l st) (fun v => mkCanonicalProposal ty v r pol bid ts cid)
  else if fieldNum =? 3 then set_field 1 wireType (dec_fixed64 l st) (fun v => mkCanonicalProposal ty h v pol bid ts cid)
  else if fieldNum =? 4 then set_field 0 wireType (dec_varint int64 st) (fun v => mkCanonicalProposal ty h r v bid ts cid)
  else if fieldNum =? 5 then
    set_field 2 wireType (dec_message l (CanonicalBlockID_Unmarshal (default nilBlockID bid)) st)
      (fun v => mkCanonicalProposal ty h r pol (Some v) ts cid)
  else if fieldNum =? 6 then set_field 2 wireType (dec_message l time_of st) (fun v => mkCanonicalProposal ty h r pol bid v cid)
  else if fieldNum =? 7 then set_field 2 wireType (dec_string l st) (fun v => mkCanonicalProposal ty h r pol bid ts v)
  else None.
Definition CanonicalProposal_Unmarshal (dAtA : bytes) : outcome DecodeError CanonicalProposal :=
  unmarshal CanonicalProposal_field (mkCanonicalProposal 0 0 0 0 None zero_time []) dAtA.
End messages.

(** ** Delimited messages *)

(** [binary.ReadUvarint] of the Go library: byte [i] of at most ten. *)
Fixpoint ReadUvarint (fuel : nat) (i shift x n : Z) (data : bytes) : outcome DecodeError (Z * Z * bytes) :=
  match fuel, data with
  | O, _ => Fail ErrUvarintOverflow
  | S _, [] => Fail ErrUnexpectedEOF
  | S fuel', b :: rest =>
      if Zbyte b <? 128 then
        if (i =? 9) && (Zbyte b >? 1) then Fail ErrUvarintOverflow
        else Val (Z.lor x (uint64 (Z.shiftl (Zbyte b) shift)), n + 1, rest)
      else ReadUvarint fuel' (i + 1) (shift + 7) (Z.lor x (uint64 (Z.shiftl (Z.land (Zbyte b) 127) shift))) (n + 1) rest
  end.

(** [ReadMsg] on the data and the message's [Unmarshal]. *)
Definition ReadMsg {M} (unmarshal : bytes -> outcome DecodeError M) (maxSize : Z) (data : bytes) : outcome DecodeError M :=
  '(l, n, rest) ← ReadUvarint 10 0 0 0 0 data;
  let length := int64 l in
  _ ← fail_if ((l >=? MaxInt64) || (length <? 0) || (int64 (n + length) <? 0)) ErrOutOfRangeLength;
  _ ← fail_if (length >? maxSize) ErrMaxSize;
  _ ← fail_if (length >? len rest) ErrUnexpectedEOF;
  unmarshal (take (Z.to_nat length) rest).

Definition UnmarshalDelimited {M} (unmarshal : bytes -> outcome DecodeError M) (data : bytes) : outcome DecodeError M :=
  ReadMsg unmarshal (len data) data.
