(* ===== verification/DecodeProofs.v ===== *)
(** * Decoding inverts encoding for the canonical messages *)
From Stdlib Require Import ZArith Lia Strings.Byte.
From stdpp Require Import base list strings.
From S2P Require Import Prelude.
From S2P Require Import Proto.
From S2P Require Import Validator.
From S2P Require Import Types.
From S2P Require Import SignBytesProofs.
From S2P Require Import Decode.

(** ** Conversions commute with bitwise or *)

Lemma testbit_wrap_signed w z i :
  0 < w -> 0 <= i -> Z.testbit (wrap_signed w z) i = Z.testbit z (Z.min i (w - 1)).
Proof.
  intros Hw Hi. unfold wrap_signed. set (h := 2 ^ (w - 1)).
  assert (Hp : 2 ^ w = 2 * h) by (unfold h; replace w with (Z.succ (w - 1)) at 1 by lia; rewrite Z.pow_succ_r; lia).
  assert (Hh : 0 < h) by (unfold h; apply Z.pow_pos_nonneg; lia). rewrite Hp.
  set (x := (z + h) mod (2 * h) - h).
  assert (Hx : - h <= x < h) by (unfold x; pose proof (Z.mod_pos_bound (z + h) (2 * h)); lia).
  assert (Hmod : x mod (2 * h) = z mod (2 * h)).
  { unfold x. rewrite Zminus_mod_idemp_l. f_equal. lia. }
  assert (Hlow : forall j, 0 <= j < w -> Z.testbit x j = Z.testbit z j).
  { intros j Hj. rewrite <- (Z.mod_pow2_bits_low x w), <- (Z.mod_pow2_bits_low z w) by lia. by rewrite Hp, Hmod. }
  destruct (Z.le_gt_cases i (w - 1)) as [Hle|Hgt]; [rewrite Z.min_l by lia; apply Hlow; lia|].
  rewrite Z.min_r, <- Hlow by lia. destruct (Z.lt_ge_cases x 0) as [Hneg|Hpos].
  - assert (Hlog : Z.log2 (Z.pred (- x)) < w - 1 \/ Z.pred (- x) = 0).
    { destruct (decide (Z.pred (- x) = 0)); [by right|left]. apply Z.log2_lt_pow2; fold h; lia. }
    destruct Hlog as [Hlog|Hz].
    + rewrite !Z.bits_above_log2_neg by lia. done.
    + replace x with (-1) by lia. by rewrite !Z.bits_m1 by lia.
  - destruct (decide (x = 0)) as [->|]; [by rewrite !Z.bits_0|].
    rewrite !Z.bits_above_log2; [done|lia|apply Z.log2_lt_pow2; fold h; lia|lia|].
    apply Z.lt_le_trans with (w - 1); [apply Z.log2_lt_pow2; fold h; lia|lia].
Qed.

(** The conversion to an integer type, bit by bit. *)
Class Bitwise (wrap : Z -> Z) : Prop := {
  bitwise_lor : forall a b, wrap (Z.lor a b) = Z.lor (wrap a) (wrap b);
  bitwise_0 : wrap 0 = 0
}.

Lemma wrap_signed_bitwise w : 0 < w -> Bitwise (wrap_signed w).
Proof.
  intros Hw. split.
  - intros a b. apply Z.bits_inj'. intros i Hi. by rewrite Z.lor_spec, !testbit_wrap_signed, Z.lor_spec by done.
  - apply Z.bits_inj'. intros i Hi. by rewrite testbit_wrap_signed, !Z.bits_0 by done.
Qed.
Lemma wrap_unsigned_bitwise w : 0 <= w -> Bitwise (wrap_unsigned w).
Proof.
  intros Hw. unfold wrap_unsigned. split; [|by apply Zmod_0_l].
  intros a b. rewrite <- !Z.land_ones by done. apply Z.land_lor_distr_l.
Qed.
#[export] Instance int64_bitwise : Bitwise int64 := wrap_signed_bitwise 64 eq_refl.
#[export] Instance int32_bitwise : Bitwise int32 := wrap_signed_bitwise 32 eq_refl.
#[export] Instance uint64_bitwise : Bitwise uint64.
Proof. by apply wrap_unsigned_bitwise. Qed.
#[export] Instance uint32_bitwise : Bitwise uint32.
Proof. by apply wrap_unsigned_bitwise. Qed.

(** ** Varints *)

Lemma Zbyte_of z : 0 <= z < 256 -> Zbyte (byte_of z) = z.
Proof. apply byte_of_to_N. Qed.

Lemma varint_split v shift :
  0 <= v -> 0 <= shift -> Z.lor (Z.shiftl (v mod 128) shift) (Z.shiftl (v / 128) (shift + 7)) = Z.shiftl v shift.
Proof.
  intros Hv Hs. rewrite (Z.add_comm shift 7), <- Z.shiftl_shiftl, <- Z.shiftl_lor by lia. f_equal.
  change 128 with (2 ^ 7). rewrite <- Z.land_ones, <- Z.shiftr_div_pow2 by lia.
  apply Z.bits_inj'. intros i Hi. rewrite Z.lor_spec, Z.land_spec, Z.shiftl_spec by lia.
  destruct (Z.lt_ge_cases i 7).
  - rewrite Z.ones_spec_low, (Z.testbit_neg_r _ (i - 7)) by lia. by rewrite andb_true_r, orb_false_r.
  - rewrite Z.ones_spec_high, Z.shiftr_spec by lia. rewrite andb_false_r. simpl. f_equal. lia.
Qed.

Lemma varint_byte v : 0 <= v -> Z.land (Zbyte (byte_of (Z.lor (Z.land v 127) 128))) 127 = v mod 128 /\
  128 <= Zbyte (byte_of (Z.lor (Z.land v 127) 128)).
Proof.
  intros Hv. rewrite lor128 by done. pose proof (Z.mod_pos_bound v 128).
  rewrite Zbyte_of by lia. split; [|lia]. rewrite land127 by lia.
  replace (v mod 128 + 128) with (v mod 128 + 1 * 128) by lia. rewrite Z.mod_add, Z.mod_mod by lia. done.
Qed.

Lemma varint_loop_uvarint `{!Bitwise wrap} f fuel shift acc idx v rest :
  (f <= fuel)%nat -> 0 <= shift -> shift + 7 * Z.of_nat f < 64 -> 0 <= v < 2 ^ (7 * Z.of_nat f + 7) ->
  varint_loop fuel wrap shift acc idx (uvarint_go f v ++ rest) =
  Val (Z.lor acc (wrap (Z.shiftl v shift)), (idx + len (uvarint_go f v), rest)).
Proof.
  revert fuel shift acc idx v. induction f as [|f IH]; intros fuel shift acc idx v Hf Hs Hsh Hv.
  - change (2 ^ (7 * Z.of_nat 0 + 7)) with 128 in Hv.
    assert (Hone : varint_loop fuel wrap shift acc idx (uvarint_go 0 v ++ rest) = Val (Z.lor acc (wrap (Z.shiftl v shift)), (idx + 1, rest))).
    { destruct fuel; cbn [varint_loop uvarint_go app]; rewrite Z.geb_leb, Zbyte_of by lia;
        destruct (Z.leb_spec 64 shift); try lia; destruct (Z.ltb_spec v 128); try lia;
        rewrite land127, Z.mod_small by lia; done. }
    rewrite Hone. done.
  - replace (7 * Z.of_nat (S f) + 7) with ((7 * Z.of_nat f + 7) + 7) in Hv by lia.
    rewrite Z.pow_add_r in Hv by lia. change (2 ^ 7) with 128 in Hv.
    destruct fuel as [|fuel]; [lia|]. cbn [uvarint_go]. rewrite Z.geb_leb. destruct (Z.leb_spec 128 v) as [Hbig|Hsmall].
    + assert (Hv0 : 0 <= v) by apply Hv. destruct (varint_byte v Hv0) as [Hland Hge]. rewrite <- app_comm_cons. cbn [varint_loop].
      rewrite Z.geb_leb. destruct (Z.leb_spec 64 shift); [lia|]. destruct (Z.ltb_spec (Zbyte (byte_of (Z.lor (Z.land v 127) 128))) 128); [lia|].
      rewrite Hland, Z.shiftr_div_pow2 by done. change (2 ^ 7) with 128.
      assert (Hq : 0 <= v / 128 < 2 ^ (7 * Z.of_nat f + 7)).
      { split; [by apply Z.div_pos|apply Z.div_lt_upper_bound; [done|]]. rewrite Z.mul_comm. apply Hv. }
      clear Hv Hge. rewrite IH; [|lia|lia|lia|done].
      f_equal. rewrite <- Z.lor_assoc, <- bitwise_lor, varint_split by done. f_equal. f_equal. unfold len. simpl. lia.
    + cbn [varint_loop app]. rewrite Z.geb_leb, Zbyte_of by lia. destruct (Z.leb_spec 64 shift); [lia|].
      destruct (Z.ltb_spec v 128); [|lia]. rewrite land127, Z.mod_small by lia. done.
Qed.

Lemma dec_varint_uvarint `{!Bitwise wrap} idx v rest :
  is_uint64 v -> dec_varint wrap (idx, uvarint v ++ rest) = Val (wrap v, (idx + len (uvarint v), rest)).
Proof.
  intros Hv. unfold dec_varint, uvarint. cbn [fst snd].
  rewrite (varint_loop_uvarint 9); [by rewrite Z.lor_0_l, Z.shiftl_0_r|lia|done|done|].
  change (7 * Z.of_nat 9 + 7) with 70. assert (2 ^ 64 < 2 ^ 70) by done. int_lia.
Qed.

(** ** Fixed-width integers *)

Lemma le_value_bytes n z : 0 <= z < 2 ^ (8 * Z.of_nat n) -> le_value (le_bytes n z) = z.
Proof.
  revert z. induction n as [|n IH]; intros z Hz; [change (2 ^ (8 * Z.of_nat 0)) with 1 in Hz; simpl; lia|].
  replace (8 * Z.of_nat (S n)) with (8 * Z.of_nat n + 8) in Hz by lia. rewrite Z.pow_add_r in Hz by lia.
  change (2 ^ 8) with 256 in Hz. cbn [le_bytes le_value]. rewrite Z.shiftr_div_pow2 by lia. change (2 ^ 8) with 256.
  rewrite IH by (split; [apply Z.div_pos; lia|apply Z.div_lt_upper_bound; lia]).
  assert (Hb : byte_of z = byte_of (z mod 256)) by (unfold byte_of; by rewrite Z.mod_mod by lia).
  pose proof (Z.mod_pos_bound z 256). rewrite Hb, Zbyte_of by lia. pose proof (Z.div_mod z 256). lia.
Qed.

Lemma le_bytes_length n z : length (le_bytes n z) = n.
Proof. revert z. induction n as [|n IH]; intros z; simpl; [done|]. by rewrite IH. Qed.

Lemma int64_uint64 z : is_int64 z -> int64 (uint64 z) = z.
Proof.
  intros Hz. apply Z.bits_inj'. intros i Hi. unfold int64, uint64, wrap_unsigned.
  rewrite <- (int64_id z Hz) at 2. unfold int64. rewrite !testbit_wrap_signed by lia.
  by rewrite Z.mod_pow2_bits_low by lia.
Qed.
Lemma int32_uint64 z : is_int32 z -> int32 (uint64 z) = z.
Proof.
  intros Hz. apply Z.bits_inj'. intros i Hi. unfold int32, uint64, wrap_unsigned.
  rewrite <- (int32_id z Hz) at 2. unfold int32. rewrite !testbit_wrap_signed by lia.
  by rewrite Z.mod_pow2_bits_low by lia.
Qed.

Global Arguments dec_varint : simpl never.
Global Arguments uvarint : simpl never.
Global Arguments le_bytes : simpl never.

(** ** Fields *)

Section fields.
Context {M : Type} (l : Z) (field : Z -> Z -> M -> position -> option (outcome DecodeError (M * position))).
Hypothesis Hl : l <= MaxInt64.

(** From message [m] and index [idx], the loop reads [seg] and holds [m']. *)
Definition reads (m : M) (idx : Z) (seg : bytes) (m' : M) : Prop :=
  forall fuel rest, 0 <= idx -> (length (seg ++ rest) <= fuel)%nat -> idx + len (seg ++ rest) = l ->
  exists fuel', (length rest <= fuel')%nat /\
    unmarshal_loop l field fuel m (idx, seg ++ rest) = unmarshal_loop l field fuel' m' (idx + len seg, rest).

Lemma reads_nil m idx : reads m idx [] m.
Proof. intros fuel rest _ Hf _. exists fuel. split; [done|]. unfold len. simpl. by rewrite Z.add_0_r. Qed.

Lemma reads_app m idx s1 m1 s2 m2 :
  reads m idx s1 m1 -> reads m1 (idx + len s1) s2 m2 -> reads m idx (s1 ++ s2) m2.
Proof.
  intros H1 H2 fuel rest Hi Hf Hlen. rewrite <- app_assoc in *.
  destruct (H1 fuel (s2 ++ rest) Hi Hf Hlen) as (f1 & Hf1 & ->).
  destruct (H2 f1 rest) as (f2 & Hf2 & ->); [unfold len; lia|done|unfold len in *; rewrite !length_app in *; lia|].
  exists f2. split; [done|]. do 2 f_equal. unfold len. rewrite length_app. lia.
Qed.

(** One field: a one-byte tag and a body that the [switch] decodes. *)
Lemma reads_field m idx tag body m' :
  Zbyte tag < 128 -> 0 < Z.shiftr (Zbyte tag) 3 -> Z.land (Zbyte tag) 7 <> 4 ->
  (forall rest, 0 <= idx -> idx + 1 + len (body ++ rest) = l ->
     field (Z.shiftr (Zbyte tag) 3) (Z.land (Zbyte tag) 7) m (idx + 1, body ++ rest) =
     Some (Val (m', (idx + 1 + len body, rest)))) ->
  reads m idx (tag :: body) m'.
Proof.
  intros Htag Hnum Hw Hfield fuel rest Hi Hf Hlen. destruct fuel as [|fuel]; [simpl in Hf; lia|].
  assert (Hb : 0 <= Zbyte tag) by (unfold Zbyte; lia).
  assert (Htagdec : dec_varint uint64 (idx, (tag :: body) ++ rest) = Val (Zbyte tag, (idx + 1, body ++ rest))).
  { unfold dec_varint. cbn [fst snd app varint_loop]. cbn [Z.geb Z.compare]. rewrite (proj2 (Z.ltb_lt _ _) Htag).
    rewrite land127, Z.mod_small, Z.shiftl_0_r, Z.lor_0_l, uint64_id by (lia || int_lia). done. }
  cbn [unmarshal_loop snd]. change ((tag :: body) ++ rest) with (tag :: (body ++ rest)) in *. rewrite Htagdec.
  cbn [mbind outcome_bind]. rewrite (proj2 (Z.eqb_neq _ 4) Hw). cbn [fail_if mbind outcome_bind].
  assert (Hn32 : int32 (Z.shiftr (Zbyte tag) 3) = Z.shiftr (Zbyte tag) 3).
  { apply int32_id. assert (Z.shiftr (Zbyte tag) 3 <= Zbyte tag); [|int_lia].
    rewrite Z.shiftr_div_pow2 by lia. apply Z.div_le_upper_bound; lia. }
  rewrite Hn32. destruct (Z.leb_spec (Z.shiftr (Zbyte tag) 3) 0); [lia|]. cbn [fail_if mbind outcome_bind].
  rewrite Hfield; [|done|unfold len in *; simpl in Hlen; lia]. cbn [mbind outcome_bind].
  exists fuel. split; [simpl in Hf; rewrite length_app in Hf; lia|]. do 2 f_equal. unfold len. simpl. lia.
Qed.

Lemma dec_slice_exact idx body rest :
  0 <= idx -> idx + len (body ++ rest) = l -> dec_slice l (len body) (idx, body ++ rest) = Val (body, (idx + len body, rest)).
Proof.
  intros Hi Hlen. unfold dec_slice. cbn [fst snd]. destruct (Z.ltb_spec (len body) 0); [unfold len in *; lia|]. go_step.
  assert (Hle : idx + len body <= l) by (unfold len in *; rewrite length_app in Hlen; lia).
  rewrite int64_id by (unfold len in *; int_lia). destruct (Z.ltb_spec (idx + len body) 0); [unfold len in *; lia|]. go_step.
  rewrite Z.gtb_ltb. destruct (Z.ltb_spec l (idx + len body)); [lia|]. go_step.
  unfold len. rewrite Nat2Z.id, take_app_length, drop_app_length. done.
Qed.

(** The body of a length-delimited field. *)
Lemma dec_bytes_exact idx b rest :
  0 <= idx -> idx + len ((uvarint (len b) ++ b) ++ rest) = l ->
  dec_bytes l (idx, (uvarint (len b) ++ b) ++ rest) = Val (b, (idx + len (uvarint (len b) ++ b), rest)).
Proof.
  intros Hi Hlen. rewrite <- app_assoc in *. unfold dec_bytes.
  assert (Hb : len b <= MaxInt64) by (unfold len in *; rewrite !length_app in Hlen; lia).
  rewrite dec_varint_uvarint by (unfold len in *; int_lia). go_step. rewrite int64_id by (unfold len in *; int_lia).
  pose proof (uvarint_length (len b)). rewrite dec_slice_exact; [|lia|unfold len in *; rewrite length_app in Hlen; lia].
  do 3 f_equal. unfold len. rewrite length_app. lia.
Qed.

Lemma dec_string_exact idx b rest :
  0 <= idx -> idx + len ((uvarint (len b) ++ b) ++ rest) = l ->
  dec_string l (idx, (uvarint (len b) ++ b) ++ rest) = Val (b, (idx + len (uvarint (len b) ++ b), rest)).
Proof.
  intros Hi Hlen. rewrite <- app_assoc in *. unfold dec_string.
  assert (Hb : len b <= MaxInt64) by (unfold len in *; rewrite !length_app in Hlen; lia).
  rewrite dec_varint_uvarint by (unfold len in *; int_lia). go_step. rewrite uint64_id, int64_id by (unfold len in *; int_lia).
  pose proof (uvarint_length (len b)). rewrite dec_slice_exact; [|lia|unfold len in *; rewrite length_app in Hlen; lia].
  do 3 f_equal. unfold len. rewrite length_app. lia.
Qed.

Lemma dec_fixed64_exact idx z rest :
  idx + len (le_bytes 8 (uint64 z) ++ rest) = l -> is_int64 z ->
  dec_fixed64 l (idx, le_bytes 8 (uint64 z) ++ rest) = Val (z, (idx + len (le_bytes 8 (uint64 z)), rest)).
Proof.
  intros Hlen Hz. unfold dec_fixed64. cbn [fst snd]. unfold len in *. rewrite length_app, le_bytes_length in *.
  rewrite Z.gtb_ltb. destruct (Z.ltb_spec l (idx + 8)); [lia|]. go_step.
  rewrite (take_app_length' _ _ 8) by (symmetry; apply le_bytes_length). rewrite (drop_app_length' _ _ 8) by (symmetry; apply le_bytes_length).
  pose proof (uint64_range z). rewrite le_value_bytes by (change (8 * Z.of_nat 8) with 64; int_lia). by rewrite int64_uint64.
Qed.
End fields.

(** A message read to its end. *)
Lemma unmarshal_reads {M} (field : Z -> Z -> Z -> M -> position -> option (outcome DecodeError (M * position))) m data m' :
  reads (len data) (field (len data)) m 0 data m' -> unmarshal field m data = Val m'.
Proof.
  intros Hr. unfold unmarshal. destruct (Hr (length data) []) as (f & _ & Heq).
  - lia.
  - by rewrite app_nil_r.
  - rewrite app_nil_r. lia.
  - rewrite app_nil_r in Heq. rewrite Heq. destruct f; cbn [unmarshal_loop fst snd]; rewrite Z.gtb_ltb, Z.add_0_l, Z.ltb_irrefl; done.
Qed.

(** The fields a marshaller may leave out: the message holds the zero value before. *)
Section kinds.
Context {M : Type} (l : Z) (field : Z -> Z -> M -> position -> option (outcome DecodeError (M * position))).
Hypothesis Hl : l <= MaxInt64.
Context (tag : byte) (idx : Z).
Abbreviation num := (Z.shiftr (Zbyte tag) 3).
Abbreviation wire := (Z.land (Zbyte tag) 7).
Hypothesis Htag : Zbyte tag < 128 /\ 0 < num.

Lemma reads_set {A} w body (dec : position -> outcome DecodeError (A * position)) (put : A -> M) m a :
  wire = w -> w <> 4 ->
  (forall st, field num w m st = set_field w w (dec st) put) ->
  (forall rest, 0 <= idx -> idx + 1 + len (body ++ rest) = l -> dec (idx + 1, body ++ rest) = Val (a, (idx + 1 + len body, rest))) ->
  reads l field m idx (tag :: body) (put a).
Proof.
  intros Hw H4 Hf Hdec. apply reads_field; [apply Htag|apply Htag|by rewrite Hw|].
  intros rest Hi Hlen. rewrite Hw, Hf. unfold set_field. rewrite Z.eqb_refl. go_step. by rewrite Hdec.
Qed.

Lemma reads_varint_field `{!Bitwise wrap} (put : Z -> M) z :
  wire = 0 -> (forall st, field num 0 (put 0) st = set_field 0 0 (dec_varint wrap st) put) -> wrap (uint64 z) = z ->
  reads l field (put 0) idx (varint_field tag z) (put z).
Proof.
  intros Hw Hf Hz. unfold varint_field. destruct (Z.eqb_spec z 0) as [->|]; [apply reads_nil|].
  apply (reads_set 0 _ (dec_varint wrap)); [done|done|done|]. intros rest _ _.
  rewrite dec_varint_uvarint by apply uint64_range. by rewrite Hz.
Qed.

Lemma reads_fixed64_field (put : Z -> M) z :
  wire = 1 -> (forall st, field num 1 (put 0) st = set_field 1 1 (dec_fixed64 l st) put) -> is_int64 z ->
  reads l field (put 0) idx (fixed64_field tag z) (put z).
Proof.
  intros Hw Hf Hz. unfold fixed64_field. destruct (Z.eqb_spec z 0) as [->|]; [apply reads_nil|].
  apply (reads_set 1 _ (dec_fixed64 l)); [done|done|done|]. intros rest _ Hlen. by apply dec_fixed64_exact.
Qed.

Lemma reads_bytes_field (put : bytes -> M) b :
  wire = 2 -> (forall st, field num 2 (put []) st = set_field 2 2 (dec_bytes l st) put) ->
  reads l field (put []) idx (bytes_field tag b) (put b).
Proof.
  intros Hw Hf. unfold bytes_field. rewrite Z.gtb_ltb. destruct (Z.ltb_spec 0 (len b)) as [_|Hb].
  - apply (reads_set 2 _ (dec_bytes l)); [done|done|done|]. intros rest Hi Hlen. apply dec_bytes_exact; [done|lia|done].
  - assert (b = []) as -> by (destruct b; [done|unfold len in Hb; simpl in Hb; lia]). apply reads_nil.
Qed.

Lemma reads_string_field (put : bytes -> M) b :
  wire = 2 -> (forall st, field num 2 (put []) st = set_field 2 2 (dec_string l st) put) ->
  reads l field (put []) idx (bytes_field tag b) (put b).
Proof.
  intros Hw Hf. unfold bytes_field. rewrite Z.gtb_ltb. destruct (Z.ltb_spec 0 (len b)) as [_|Hb].
  - apply (reads_set 2 _ (dec_string l)); [done|done|done|]. intros rest Hi Hlen. apply dec_string_exact; [done|lia|done].
  - assert (b = []) as -> by (destruct b; [done|unfold len in Hb; simpl in Hb; lia]). apply reads_nil.
Qed.

(** An embedded message that its own [Unmarshal] reads back. *)
Lemma reads_message {A} (put : A -> M) m (sub : bytes -> outcome DecodeError A) b a :
  wire = 2 -> (forall st, field num 2 m st = set_field 2 2 (dec_message l sub st) put) ->
  (len b <= l -> sub b = Val a) -> reads l field m idx (len_field tag b) (put a).
Proof.
  intros Hw Hf Hsub. apply (reads_set 2 _ (dec_message l sub)); [done|done|done|].
  intros rest Hi Hlen. unfold dec_message. rewrite dec_bytes_exact by (done || lia). go_step.
  rewrite Hsub; [done|]. unfold len in *. rewrite !length_app in Hlen. lia.
Qed.
End kinds.

(** A tag byte is below 128 and has a positive field number. *)
Ltac tag_ok := by split; vm_compute.

Lemma uint32_uint64 z : is_uint32 z -> uint32 (uint64 z) = z.
Proof. intros Hz. rewrite uint64_id, uint32_id by int_lia. done. Qed.

Lemma PartSetHeader_Unmarshal_Marshal psh :
  is_uint32 (psh_Total psh) -> len (PartSetHeader_Marshal psh) <= MaxInt64 ->
  CanonicalPartSetHeader_Unmarshal (mkPartSetHeader 0 []) (PartSetHeader_Marshal psh) = Val psh.
Proof.
  destruct psh as [n h]. cbn [psh_Total]. intros Hn Hl. apply unmarshal_reads. revert Hl.
  generalize (len (PartSetHeader_Marshal (mkPartSetHeader n h))) as l. intros l Hl. unfold PartSetHeader_Marshal. cbn [psh_Total psh_Hash].
  eapply (reads_app _ _ _ _ _ (mkPartSetHeader n [])).
  - apply (reads_varint_field _ _ x08 0 ltac:(tag_ok) (wrap := uint32) (fun v => mkPartSetHeader v [])); [done|done|].
    by apply uint32_uint64.
  - by apply (reads_bytes_field _ _ Hl x12 _ ltac:(tag_ok) (fun v => mkPartSetHeader n v)).
Qed.

Lemma CanonicalBlockID_Unmarshal_Marshal b :
  is_uint32 (psh_Total (bid_PartSetHeader b)) -> len (CanonicalBlockID_Marshal b) <= MaxInt64 ->
  CanonicalBlockID_Unmarshal nilBlockID (CanonicalBlockID_Marshal b) = Val b.
Proof.
  destruct b as [h psh]. cbn [bid_PartSetHeader]. intros Hn Hl. apply unmarshal_reads. revert Hl.
  generalize (len (CanonicalBlockID_Marshal (mkBlockID h psh))) as l. intros l Hl. unfold CanonicalBlockID_Marshal.
  cbn [bid_Hash bid_PartSetHeader].
  eapply (reads_app _ _ _ _ _ (mkBlockID h (mkPartSetHeader 0 []))).
  - by apply (reads_bytes_field _ _ Hl x0a 0 ltac:(tag_ok) (fun v => mkBlockID v (mkPartSetHeader 0 []))).
  - apply (reads_message _ _ Hl x12 _ ltac:(tag_ok) (fun v => mkBlockID h v) _
      (CanonicalPartSetHeader_Unmarshal (mkPartSetHeader 0 []))); [done|done|].
    intros Hle. apply PartSetHeader_Unmarshal_Marshal; [done|lia].
Qed.

Section messages.
Context `{!TimeCodec, !TimeDecoder}.

(** The optional block ID field. *)
Lemma reads_blockid {M} (l : Z) (field : Z -> Z -> M -> position -> option (outcome DecodeError (M * position)))
    tag idx (put : option BlockID -> M) bid :
  l <= MaxInt64 -> Zbyte tag < 128 /\ 0 < Z.shiftr (Zbyte tag) 3 -> Z.land (Zbyte tag) 7 = 2 ->
  (forall st, field (Z.shiftr (Zbyte tag) 3) 2 (put None) st =
     set_field 2 2 (dec_message l (CanonicalBlockID_Unmarshal nilBlockID) st) (fun v => put (Some v))) ->
  (forall b, bid = Some b -> is_uint32 (psh_Total (bid_PartSetHeader b))) ->
  reads l field (put None) idx (opt_field tag (option_map CanonicalBlockID_Marshal bid)) (put bid).
Proof.
  intros Hl Htag Hw Hf Hb. destruct bid as [b|]; [|apply reads_nil].
  apply (reads_message _ _ Hl tag idx Htag (fun v => put (Some v)) _ (CanonicalBlockID_Unmarshal nilBlockID)); [done|done|].
  intros Hle. apply CanonicalBlockID_Unmarshal_Marshal; [by apply Hb|lia].
Qed.

Lemma time_of_marshal t b : StdTimeMarshal t = Some b -> time_of b = Val t.
Proof. intros Ht. unfold time_of. by rewrite (StdTimeUnmarshal_marshal t b Ht). Qed.

(** Messages whose integers fit their wire types. *)
Definition vote_fits (v : CanonicalVote) : Prop :=
  is_int32 (cv_Type v) /\ is_int64 (cv_Height v) /\ is_int64 (cv_Round v) /\
  forall b, cv_BlockID v = Some b -> is_uint32 (psh_Total (bid_PartSetHeader b)).
Definition proposal_fits (p : CanonicalProposal) : Prop :=
  is_int32 (cp_Type p) /\ is_int64 (cp_Height p) /\ is_int64 (cp_Round p) /\ is_int64 (cp_POLRound p) /\
  forall b, cp_BlockID p = Some b -> is_uint32 (psh_Total (bid_PartSetHeader b)).

Lemma CanonicalVote_Unmarshal_Marshal v bz :
  vote_fits v -> CanonicalVote_Marshal v = Val bz -> len bz <= MaxInt64 -> CanonicalVote_Unmarshal bz = Val v.
Proof.
  destruct v as [ty h r bid ts cid]. intros (Hty & Hh & Hr & Hb) Hm Hl. cbn [cv_Type cv_Height cv_Round cv_BlockID] in *.
  unfold CanonicalVote_Marshal in Hm. cbn [cv_Type cv_Height cv_Round cv_BlockID cv_Timestamp cv_ChainID] in Hm.
  destruct (StdTimeMarshal ts) as [t|] eqn:Ht; [|done]. apply Val_inj in Hm. apply unmarshal_reads. revert Hl.
  generalize (len bz) as l. intros l Hl. subst bz.
  eapply (reads_app _ _ _ _ _ (mkCanonicalVote ty 0 0 None zero_time [])).
  { apply (reads_varint_field _ _ x08 0 ltac:(tag_ok) (wrap := int32) (fun v => mkCanonicalVote v 0 0 None zero_time [])); [done|done|].
    by apply int32_uint64. }
  eapply (reads_app _ _ _ _ _ (mkCanonicalVote ty h 0 None zero_time [])).
  { by apply (reads_fixed64_field _ _ x11 _ ltac:(tag_ok) (fun v => mkCanonicalVote ty v 0 None zero_time [])). }
  eapply (reads_app _ _ _ _ _ (mkCanonicalVote ty h r None zero_time [])).
  { by apply (reads_fixed64_field _ _ x19 _ ltac:(tag_ok) (fun v => mkCanonicalVote ty h v None zero_time [])). }
  eapply (reads_app _ _ _ _ _ (mkCanonicalVote ty h r bid zero_time [])).
  { by apply (reads_blockid _ _ x22 _ (fun v => mkCanonicalVote ty h r v zero_time []) bid Hl ltac:(tag_ok)). }
  eapply (reads_app _ _ _ _ _ (mkCanonicalVote ty h r bid ts [])).
  { apply (reads_message _ _ Hl x2a _ ltac:(tag_ok) (fun v => mkCanonicalVote ty h r bid v []) _ time_of); [done|done|].
    intros _. by apply time_of_marshal. }
  by apply (reads_string_field _ _ Hl x32 _ ltac:(tag_ok) (fun v => mkCanonicalVote ty h r bid ts v)).
Qed.

Lemma CanonicalProposal_Unmarshal_Marshal p bz :
  proposal_fits p -> CanonicalProposal_Marshal p = Val bz -> len bz <= MaxInt64 -> CanonicalProposal_Unmarshal bz = Val p.
Proof.
  destruct p as [ty h r pol bid ts cid]. intros (Hty & Hh & Hr & Hp & Hb) Hm Hl.
  cbn [cp_Type cp_Height cp_Round cp_POLRound cp_BlockID] in *.
  unfold CanonicalProposal_Marshal in Hm. cbn [cp_Type cp_Height cp_Round cp_POLRound cp_BlockID cp_Timestamp cp_ChainID] in Hm.
  destruct (StdTimeMarshal ts) as [t|] eqn:Ht; [|done]. apply Val_inj in Hm. apply unmarshal_reads. revert Hl.
  generalize (len bz) as l. intros l Hl. subst bz.
  eapply (reads_app _ _ _ _ _ (mkCanonicalProposal ty 0 0 0 None zero_time [])).
  { apply (reads_varint_field _ _ x08 0 ltac:(tag_ok) (wrap := int32) (fun v => mkCanonicalProposal v 0 0 0 None zero_time [])); [done|done|].
    by apply int32_uint64. }
  eapply (reads_app _ _ _ _ _ (mkCanonicalProposal ty h 0 0 None zero_time [])).
  { by apply (reads_fixed64_field _ _ x11 _ ltac:(tag_ok) (fun v => mkCanonicalProposal ty v 0 0 None zero_time [])). }
  eapply (reads_app _ _ _ _ _ (mkCanonicalProposal ty h r 0 None zero_time [])).
  { by apply (reads_fixed64_field _ _ x19 _ ltac:(tag_ok) (fun v => mkCanonicalProposal ty h v 0 None zero_time [])). }
  eapply (reads_app _ _ _ _ _ (mkCanonicalProposal ty h r pol None zero_time [])).
  { apply (reads_varint_field _ _ x20 _ ltac:(tag_ok) (wrap := int64) (fun v => mkCanonicalProposal ty h r v None zero_time [])); [done|done|].
    by apply int64_uint64. }
  eapply (reads_app _ _ _ _ _ (mkCanonicalProposal ty h r pol bid zero_time [])).
  { by apply (reads_blockid _ _ x2a _ (fun v => mkCanonicalProposal ty h r pol v zero_time []) bid Hl ltac:(tag_ok)). }
  eapply (reads_app _ _ _ _ _ (mkCanonicalProposal ty h r pol bid ts [])).
  { apply (reads_message _ _ Hl x32 _ ltac:(tag_ok) (fun v => mkCanonicalProposal ty h r pol bid v []) _ time_of); [done|done|].
    intros _. by apply time_of_marshal. }
  by apply (reads_string_field _ _ Hl x3a _ ltac:(tag_ok) (fun v => mkCanonicalProposal ty h r pol bid ts v)).
Qed.
End messages.

(** ** Delimited messages *)

(** The tenth byte carries one bit. *)
Lemma ReadUvarint_last {A} i v (r : outcome DecodeError A) :
  i <= 9 -> v < 2 ^ (64 - 7 * i) -> (if (i =? 9) && (v >? 1) then Fail ErrUvarintOverflow else r) = r.
Proof.
  intros Hi Hv. destruct (Z.eqb_spec i 9) as [->|]; [|done]. change (2 ^ (64 - 7 * 9)) with 2 in Hv.
  rewrite Z.gtb_ltb. destruct (Z.ltb_spec 1 v); [lia|done].
Qed.

Lemma ReadUvarint_uvarint f fuel i x n v rest :
  (f < fuel)%nat -> 0 <= i -> i + Z.of_nat f <= 9 -> 0 <= v < 2 ^ (7 * Z.of_nat f + 7) -> v < 2 ^ (64 - 7 * i) ->
  ReadUvarint fuel i (7 * i) x n (uvarint_go f v ++ rest) =
  Val (Z.lor x (uint64 (Z.shiftl v (7 * i))), n + len (uvarint_go f v), rest).
Proof.
  revert fuel i x n v. induction f as [|f IH]; intros fuel i x n v Hf Hi Hif Hv Hv64; (destruct fuel as [|fuel]; [lia|]).
  - change (2 ^ (7 * Z.of_nat 0 + 7)) with 128 in Hv. cbn [uvarint_go app ReadUvarint]. rewrite Zbyte_of by lia.
    destruct (Z.ltb_spec v 128); [|lia]. rewrite ReadUvarint_last; [done|lia|done].
  - replace (7 * Z.of_nat (S f) + 7) with ((7 * Z.of_nat f + 7) + 7) in Hv by lia.
    rewrite Z.pow_add_r in Hv by lia. change (2 ^ 7) with 128 in Hv.
    cbn [uvarint_go]. rewrite Z.geb_leb. destruct (Z.leb_spec 128 v) as [Hbig|Hsmall].
    + assert (Hv0 : 0 <= v) by apply Hv. destruct (varint_byte v Hv0) as [Hland Hge]. rewrite <- app_comm_cons. cbn [ReadUvarint].
      destruct (Z.ltb_spec (Zbyte (byte_of (Z.lor (Z.land v 127) 128))) 128); [lia|].
      rewrite Hland, Z.shiftr_div_pow2 by done. change (2 ^ 7) with 128. replace (7 * i + 7) with (7 * (i + 1)) by lia.
      assert (Hq : 0 <= v / 128 < 2 ^ (7 * Z.of_nat f + 7)).
      { split; [by apply Z.div_pos|apply Z.div_lt_upper_bound; [done|]]. rewrite Z.mul_comm. apply Hv. }
      assert (Hq64 : v / 128 < 2 ^ (64 - 7 * (i + 1))).
      { apply Z.div_lt_upper_bound; [done|]. change 128 with (2 ^ 7). rewrite <- Z.pow_add_r by lia.
        by replace (7 + (64 - 7 * (i + 1))) with (64 - 7 * i) by lia. }
      clear Hv Hge. rewrite IH; [|lia|lia|lia|done|done]. replace (7 * (i + 1)) with (7 * i + 7) by lia.
      f_equal. rewrite <- Z.lor_assoc, <- bitwise_lor, varint_split by lia. f_equal. f_equal. unfold len. simpl. lia.
    + cbn [ReadUvarint app]. rewrite Zbyte_of by lia. destruct (Z.ltb_spec v 128); [|lia].
      rewrite ReadUvarint_last; [done|lia|done].
Qed.

Lemma UnmarshalDelimited_MarshalDelimited {M} (unmarshal : bytes -> outcome DecodeError M) bz :
  len bz <= 2 ^ 17 -> UnmarshalDelimited unmarshal (MarshalDelimited bz) = unmarshal bz.
Proof.
  intros Hl. assert (H0 : 0 <= len bz) by (unfold len; lia). assert (Hp : 2 ^ 17 < 2 ^ 64) by done.
  unfold UnmarshalDelimited, ReadMsg, MarshalDelimited. set (maxSize := len (uvarint (len bz) ++ bz)).
  assert (Hmax : len bz <= maxSize) by (unfold maxSize, len; rewrite length_app; lia).
  pose proof (ReadUvarint_uvarint 9 10 0 0 0 (len bz) bz) as HR. change (7 * 0) with 0 in HR.
  unfold uvarint. rewrite HR; [|lia|lia|lia| |by lia].
  2: { change (7 * Z.of_nat 9 + 7) with 70. assert (2 ^ 64 < 2 ^ 70) by done. lia. }
  clear HR. rewrite Z.lor_0_l, Z.shiftl_0_r, uint64_id by int_lia. cbn [mbind outcome_bind].
  pose proof (uvarint_length (len bz)) as Hu. unfold uvarint in Hu. change (2 ^ 17) with 131072 in Hl.
  rewrite (int64_id (len bz)) by int_lia. rewrite int64_id by int_lia.
  replace (take (Z.to_nat (len bz)) bz) with bz by (rewrite take_ge; [done|unfold len; lia]).
  assert (HM : len bz < MaxInt64) by int_lia.
  z_cases. done.
Qed.

Section sign_bytes.
Context `{!TimeCodec, !TimeDecoder}.

Lemma CanonicalizeVote_fits c v pb : vote_sized c v -> CanonicalizeVote c v = Val pb -> vote_fits pb.
Proof.
  intros (Hty & Hh & Hr & Ht & _) (o & Ho & Hpb)%bind_val. injection Hpb as <-.
  apply CanonicalizeBlockID_val in Ho as [_ ->]; [|done].
  unfold vote_fits. cbn [cv_Type cv_Height cv_Round cv_BlockID]. split_and!; [done|done|int_lia|].
  intros b. destruct (BlockID_IsZero _); [done|]. by intros [= <-].
Qed.
Lemma CanonicalizeProposal_fits c p pb : proposal_sized c p -> CanonicalizeProposal c p = Val pb -> proposal_fits pb.
Proof.
  intros (Hh & Hr & Hp & Ht & _) (o & Ho & Hpb)%bind_val. injection Hpb as <-.
  apply CanonicalizeBlockID_val in Ho as [_ ->]; [|done].
  unfold proposal_fits. cbn [cp_Type cp_Height cp_Round cp_POLRound cp_BlockID]. split_and!; [done|done|int_lia|int_lia|].
  intros b. destruct (BlockID_IsZero _); [done|]. by intros [= <-].
Qed.

Lemma VoteSignBytes_decode c v b :
  vote_sized c v -> VoteSignBytes c v = Val b ->
  exists pb, CanonicalizeVote c v = Val pb /\ UnmarshalDelimited CanonicalVote_Unmarshal b = Val pb.
Proof.
  intros Hs (pb & Hc & (bz & Hm & Hb)%bind_val)%bind_val. injection Hb as <-. exists pb. split; [done|].
  pose proof (CanonicalVote_Marshal_len _ _ _ _ Hs Hc Hm) as Hl. assert (2 ^ 17 < 2 ^ 63 - 1) by done.
  rewrite UnmarshalDelimited_MarshalDelimited by done.
  apply CanonicalVote_Unmarshal_Marshal; [by eapply CanonicalizeVote_fits|done|int_lia].
Qed.
Lemma ProposalSignBytes_decode c p b :
  proposal_sized c p -> ProposalSignBytes c p = Val b ->
  exists pb, CanonicalizeProposal c p = Val pb /\ UnmarshalDelimited CanonicalProposal_Unmarshal b = Val pb.
Proof.
  intros Hs (pb & Hc & (bz & Hm & Hb)%bind_val)%bind_val. injection Hb as <-. exists pb. split; [done|].
  pose proof (CanonicalProposal_Marshal_len _ _ _ _ Hs Hc Hm) as Hl. assert (2 ^ 17 < 2 ^ 63 - 1) by done.
  rewrite UnmarshalDelimited_MarshalDelimited by done.
  apply CanonicalProposal_Unmarshal_Marshal; [by eapply CanonicalizeProposal_fits|done|int_lia].
Qed.

(** The bytes that are signed can be read back.  Unmarshalling the
    delimited sign bytes of a vote returns its canonical form, and likewise for
    a proposal: the generated decoder inverts the generated encoder, length
    prefix included. *)
Theorem sign_bytes_roundtrip c b :
  (forall v, vote_sized c v -> VoteSignBytes c v = Val b ->
     exists pb, CanonicalizeVote c v = Val pb /\ UnmarshalDelimited CanonicalVote_Unmarshal b = Val pb) /\
  (forall p, proposal_sized c p -> ProposalSignBytes c p = Val b ->
     exists pb, CanonicalizeProposal c p = Val pb /\ UnmarshalDelimited CanonicalProposal_Unmarshal b = Val pb).
Proof. split; intros *; [apply VoteSignBytes_decode|apply ProposalSignBytes_decode]. Qed.
End sign_bytes.

(** The concrete time encoding has a decoder. *)
Definition toy_time_unmarshal (b : bytes) : option Time :=
  match dec_varint uint64 (0, b) with Val (t, (_, [])) => Some t | _ => None end.
Lemma toy_time_decodes t b : toy_time_marshal t = Some b -> toy_time_unmarshal b = Some t.
Proof.
  unfold toy_time_marshal, toy_time_unmarshal. case_bool_decide as Ht; [|done]. intros [= <-].
  rewrite <- (app_nil_r (uvarint t)), dec_varint_uvarint by done. by rewrite uint64_id.
Qed.
Definition toy_decoder : @TimeDecoder toy_time :=
  @Build_TimeDecoder toy_time toy_time_unmarshal toy_time_decodes.

Lemma sign_bytes_roundtrip_witness :
  exists b pb, @VoteSignBytes toy_time [x61] (sample_vote x07) = Val b /\ CanonicalizeVote [x61] (sample_vote x07) = Val pb /\
  UnmarshalDelimited (@CanonicalVote_Unmarshal toy_time toy_decoder) b = Val pb.
Proof.
  destruct (@VoteSignBytes toy_time [x61] (sample_vote x07)) as [b| |] eqn:Hb; [|vm_compute in Hb; discriminate..].
  destruct (proj1 (@sign_bytes_roundtrip toy_time toy_decoder [x61] b) (sample_vote x07)) as (pb & Hc & Hu).
  - vm_compute. repeat split; discriminate.
  - exact Hb.
  - exists b, pb. auto.
Defined.
