(* ===== verification/PrivVal.v ===== *)
(** * privval: the file-backed private validator

    Models privval/file.go.  The validator signs votes and proposals and keeps
    the last height, round and step it signed, with the bytes and the signature,
    in a file that is written before the signature is handed out.

    The files are a map from paths to JSON documents; the encoder and decoder of
    libs/json are the class [TmJSON], the private key is the class [PrivKeys],
    [proto.Equal] of gogo/protobuf the class [ProtoEqual].  [WriteFileAtomic]
    replaces the whole file or, when it fails, makes [Save] panic; that run is
    the crash of the step relation in PrivValProofs.v. *)
From Stdlib Require Import ZArith Lia Strings.Byte.
From stdpp Require Import base list strings gmap.
From S2P Require Import Prelude.
From S2P Require Import Validator.
From S2P Require Import Types.
From S2P Require Import Decode.

Inductive PVError :=
  | ErrHeightRegression | ErrRoundRegression | ErrStepRegression | ErrNoSignBytes
  | ErrConflictingData | ErrSign | ErrReadFile | ErrReadKey | ErrReadState | ErrKeyType
  | ErrSigningVote (e : PVError) | ErrSigningProposal (e : PVError).

(** [crypto.PrivKey]: [Sign] may return an error; its second argument is the
    entropy of the schemes that draw some (sr25519). *)
Class PrivKeys := {
  PrivKey : Type;
  sk_PubKey : PrivKey -> PubKey;
  Sign : PrivKey -> Z -> bytes -> option bytes
}.

(** [proto.Equal] at the two canonical messages. *)
Class ProtoEqual := {
  Equal_vote : CanonicalVote -> CanonicalVote -> bool;
  Equal_proposal : CanonicalProposal -> CanonicalProposal -> bool;
  Equal_vote_spec : forall a b, Equal_vote a b = true <-> a = b;
  Equal_proposal_spec : forall a b, Equal_proposal a b = true <-> a = b
}.

Definition stepNone : Z := 0.
Definition stepPropose : Z := 1.
Definition stepPrevote : Z := 2.
Definition stepPrecommit : Z := 3.

Definition voteToStep (vote : Vote) : go Z :=
  if v_Type vote =? PrevoteType then Val stepPrevote
  else if v_Type vote =? PrecommitType then Val stepPrecommit
  else Panic "Unknown vote type".

(** ** The last signed state *)

(** [Signature] and [SignBytes] may be nil. *)
Record FilePVLastSignState := mkLastSignState {
  lss_Height : Z;
  lss_Round : Z;
  lss_Step : Z;
  lss_Signature : option bytes;
  lss_SignBytes : option bytes;
  lss_filePath : string
}.
Definition state_at (path : string) (s : FilePVLastSignState) : FilePVLastSignState :=
  mkLastSignState (lss_Height s) (lss_Round s) (lss_Step s) (lss_Signature s) (lss_SignBytes s) path.
Definition empty_state (path : string) : FilePVLastSignState := mkLastSignState 0 0 0 None None path.

Definition CheckHRS (lss : FilePVLastSignState) (height round step : Z) : outcome PVError bool :=
  if lss_Height lss >? height then Fail ErrHeightRegression
  else if lss_Height lss =? height then
    if lss_Round lss >? round then Fail ErrRoundRegression
    else if lss_Round lss =? round then
      if lss_Step lss >? step then Fail ErrStepRegression
      else if lss_Step lss =? step then
        match lss_SignBytes lss with
        | Some _ =>
            match lss_Signature lss with
            | None => Panic "pv: Signature is nil but SignBytes is not!"
            | Some _ => Val true
            end
        | None => Fail ErrNoSignBytes
        end
      else Val false
    else Val false
  else Val false.

(** ** The key and the files *)

Record FilePVKey `{!PrivKeys} := mkFilePVKey {
  key_Address : bytes;
  key_PubKey : PubKey;
  key_PrivKey : PrivKey;
  key_filePath : string
}.
Global Arguments mkFilePVKey {_} _ _ _ _.

(** The JSON documents of the two files.  The path is not part of a document;
    what was written can be read back. *)
Class TmJSON `{!PrivKeys} := {
  KeyJSON : Type;
  StateJSON : Type;
  MarshalKey : FilePVKey -> KeyJSON;
  UnmarshalKey : KeyJSON -> option FilePVKey;
  MarshalState : FilePVLastSignState -> StateJSON;
  UnmarshalState : StateJSON -> option FilePVLastSignState;
  UnmarshalKey_Marshal : forall k, exists k', UnmarshalKey (MarshalKey k) = Some k' /\ key_PrivKey k' = key_PrivKey k;
  UnmarshalState_Marshal : forall s, UnmarshalState (MarshalState s) = Some (state_at EmptyString s)
}.

Section files.
Context `{!Crypto, !TimeCodec, !TimeDecoder, !PrivKeys, !ProtoEqual, !TmJSON}.

Record Files := mkFiles { key_files : gmap string KeyJSON; state_files : gmap string StateJSON }.

Definition FilePVKey_Save (pvKey : FilePVKey) (fs : Files) : go Files :=
  if bool_decide (key_filePath pvKey = EmptyString) then Panic "cannot save PrivValidator key: filePath not set"
  else Val (mkFiles (<[key_filePath pvKey := MarshalKey pvKey]> (key_files fs)) (state_files fs)).

Definition LastSignState_Save (lss : FilePVLastSignState) (fs : Files) : go Files :=
  if bool_decide (lss_filePath lss = EmptyString) then Panic "cannot save FilePVLastSignState: filePath not set"
  else Val (mkFiles (key_files fs) (<[lss_filePath lss := MarshalState lss]> (state_files fs))).

Record FilePV := mkFilePV { Key : FilePVKey; LastSignState : FilePVLastSignState }.

Definition NewFilePV (privKey : PrivKey) (keyFilePath stateFilePath : string) : FilePV :=
  mkFilePV (mkFilePVKey (pk_Address (sk_PubKey privKey)) (sk_PubKey privKey) privKey keyFilePath)
           (mkLastSignState 0 0 stepNone None None stateFilePath).

(** [secp] and [ed] are the fresh keys of the two generators. *)
Definition GenFilePV (secp ed : PrivKey) (keyFilePath stateFilePath keyType : string) : outcome PVError FilePV :=
  if bool_decide (keyType = "secp256k1") then Val (NewFilePV secp keyFilePath stateFilePath)
  else if bool_decide (keyType = EmptyString) || bool_decide (keyType = "ed25519")
  then Val (NewFilePV ed keyFilePath stateFilePath)
  else Fail ErrKeyType.

Definition or_err {A} (e : PVError) (o : option A) : outcome PVError A :=
  match o with Some a => Val a | None => Fail e end.

Definition loadFilePV (fs : Files) (keyFilePath stateFilePath : string) (loadState : bool) : outcome PVError FilePV :=
  keyJSONBytes ← or_err ErrReadFile (key_files fs !! keyFilePath);
  pvKey ← or_err ErrReadKey (UnmarshalKey keyJSONBytes);
  let pk := sk_PubKey (key_PrivKey pvKey) in
  let pvKey := mkFilePVKey (pk_Address pk) pk (key_PrivKey pvKey) keyFilePath in
  pvState ← (if loadState then
               stateJSONBytes ← or_err ErrReadFile (state_files fs !! stateFilePath);
               or_err ErrReadState (UnmarshalState stateJSONBytes)
             else Val (empty_state EmptyString));
  Val (mkFilePV pvKey (state_at stateFilePath pvState)).
Definition LoadFilePV (fs : Files) (keyFilePath stateFilePath : string) : outcome PVError FilePV :=
  loadFilePV fs keyFilePath stateFilePath true.
Definition LoadFilePVEmptyState (fs : Files) (keyFilePath stateFilePath : string) : outcome PVError FilePV :=
  loadFilePV fs keyFilePath stateFilePath false.

Definition FilePV_Save (pv : FilePV) (fs : Files) : go Files :=
  fs ← FilePVKey_Save (Key pv) fs;
  LastSignState_Save (LastSignState pv) fs.

Definition LoadOrGenFilePV (ed : PrivKey) (fs : Files) (keyFilePath stateFilePath : string) : outcome PVError (FilePV * Files) :=
  match key_files fs !! keyFilePath with
  | Some _ => pv ← LoadFilePV fs keyFilePath stateFilePath; Val (pv, fs)
  | None =>
      pv ← GenFilePV ed ed keyFilePath stateFilePath EmptyString;
      fs ← lift (FilePV_Save pv fs);
      Val (pv, fs)
  end.

Definition Reset (pv : FilePV) (fs : Files) : go (FilePV * Files) :=
  let pv := mkFilePV (Key pv) (empty_state (lss_filePath (LastSignState pv))) in
  fs ← FilePV_Save pv fs;
  Val (pv, fs).

(** ** Signing *)

Definition with_Signature (v : Vote) (sig : bytes) : Vote :=
  mkVote (v_Type v) (v_Height v) (v_Round v) (v_BlockID v) (v_Timestamp v) (v_ValidatorAddress v) (v_ValidatorIndex v) sig.
Definition with_Timestamp (v : Vote) (ts : Time) : Vote :=
  mkVote (v_Type v) (v_Height v) (v_Round v) (v_BlockID v) ts (v_ValidatorAddress v) (v_ValidatorIndex v) (v_Signature v).
Definition proposal_with_Signature (p : Proposal) (sig : bytes) : Proposal :=
  mkProposal (p_Type p) (p_Height p) (p_Round p) (p_POLRound p) (p_BlockID p) (p_Timestamp p) sig.
Definition proposal_with_Timestamp (p : Proposal) (ts : Time) : Proposal :=
  mkProposal (p_Type p) (p_Height p) (p_Round p) (p_POLRound p) (p_BlockID p) ts (p_Signature p).
Definition cv_with_Timestamp (v : CanonicalVote) (ts : Time) : CanonicalVote :=
  mkCanonicalVote (cv_Type v) (cv_Height v) (cv_Round v) (cv_BlockID v) ts (cv_ChainID v).
Definition cp_with_Timestamp (p : CanonicalProposal) (ts : Time) : CanonicalProposal :=
  mkCanonicalProposal (cp_Type p) (cp_Height p) (cp_Round p) (cp_POLRound p) (cp_BlockID p) ts (cp_ChainID p).

(** [if err := m; err != nil { panic(...) }]. *)
Definition must {E A} (w : string) (m : outcome E A) : go A :=
  match m with Val a => Val a | Fail _ => Panic w | Panic w' => Panic w' end.

Definition checkVotesOnlyDifferByTimestamp (now : Time) (lastSignBytes newSignBytes : bytes) : go (Time * bool) :=
  lastVote ← must "LastSignBytes cannot be unmarshalled into vote" (UnmarshalDelimited CanonicalVote_Unmarshal lastSignBytes);
  newVote ← must "signBytes cannot be unmarshalled into vote" (UnmarshalDelimited CanonicalVote_Unmarshal newSignBytes);
  let lastTime := cv_Timestamp lastVote in
  Val (lastTime, Equal_vote (cv_with_Timestamp newVote now) (cv_with_Timestamp lastVote now)).

Definition checkProposalsOnlyDifferByTimestamp (now : Time) (lastSignBytes newSignBytes : bytes) : go (Time * bool) :=
  lastProposal ← must "LastSignBytes cannot be unmarshalled into proposal"
                   (UnmarshalDelimited CanonicalProposal_Unmarshal lastSignBytes);
  newProposal ← must "signBytes cannot be unmarshalled into proposal"
                   (UnmarshalDelimited CanonicalProposal_Unmarshal newSignBytes);
  let lastTime := cp_Timestamp lastProposal in
  Val (lastTime, Equal_proposal (cp_with_Timestamp newProposal now) (cp_with_Timestamp lastProposal now)).

Definition saveSigned (pv : FilePV) (fs : Files) (height round step : Z) (signBytes sig : bytes) : go (FilePV * Files) :=
  let lss := mkLastSignState height round step (Some sig) (Some signBytes) (lss_filePath (LastSignState pv)) in
  fs ← LastSignState_Save lss fs;
  Val (mkFilePV (Key pv) lss, fs).

(** The bytes of a slice that may be nil. *)
Definition slice_bytes (b : option bytes) : bytes := from_option id [] b.

(** The vote is updated in place by the source: the result carries it. *)
Definition signVote (now : Time) (seed : Z) (pv : FilePV) (fs : Files) (chainID : ChainID) (vote : Vote)
    : outcome PVError (FilePV * Files * Vote) :=
  let height := v_Height vote in
  let round := v_Round vote in
  step ← lift (voteToStep vote);
  let lss := LastSignState pv in
  sameHRS ← CheckHRS lss height round step;
  signBytes ← lift (VoteSignBytes chainID vote);
  if sameHRS : bool then
    if bytes_equal signBytes (slice_bytes (lss_SignBytes lss)) then
      Val (pv, fs, with_Signature vote (slice_bytes (lss_Signature lss)))
    else
      '(timestamp, ok) ← lift (checkVotesOnlyDifferByTimestamp now (slice_bytes (lss_SignBytes lss)) signBytes);
      if ok : bool then
        Val (pv, fs, with_Signature (with_Timestamp vote timestamp) (slice_bytes (lss_Signature lss)))
      else Fail ErrConflictingData
  else
    sig ← or_err ErrSign (Sign (key_PrivKey (Key pv)) seed signBytes);
    '(pv, fs) ← lift (saveSigned pv fs height round step signBytes sig);
    Val (pv, fs, with_Signature vote sig).

Definition signProposal (now : Time) (seed : Z) (pv : FilePV) (fs : Files) (chainID : ChainID) (proposal : Proposal)
    : outcome PVError (FilePV * Files * Proposal) :=
  let height := p_Height proposal in
  let round := p_Round proposal in
  let step := stepPropose in
  let lss := LastSignState pv in
  sameHRS ← CheckHRS lss height round step;
  signBytes ← lift (ProposalSignBytes chainID proposal);
  if sameHRS : bool then
    if bytes_equal signBytes (slice_bytes (lss_SignBytes lss)) then
      Val (pv, fs, proposal_with_Signature proposal (slice_bytes (lss_Signature lss)))
    else
      '(timestamp, ok) ← lift (checkProposalsOnlyDifferByTimestamp now (slice_bytes (lss_SignBytes lss)) signBytes);
      if ok : bool then
        Val (pv, fs, proposal_with_Signature (proposal_with_Timestamp proposal timestamp) (slice_bytes (lss_Signature lss)))
      else Fail ErrConflictingData
  else
    sig ← or_err ErrSign (Sign (key_PrivKey (Key pv)) seed signBytes);
    '(pv, fs) ← lift (saveSigned pv fs height round step signBytes sig);
    Val (pv, fs, proposal_with_Signature proposal sig).

Definition SignVote (now : Time) (seed : Z) (pv : FilePV) (fs : Files) (chainID : ChainID) (vote : Vote)
    : outcome PVError (FilePV * Files * Vote) :=
  wrap_err ErrSigningVote (signVote now seed pv fs chainID vote).
Definition SignProposal (now : Time) (seed : Z) (pv : FilePV) (fs : Files) (chainID : ChainID) (proposal : Proposal)
    : outcome PVError (FilePV * Files * Proposal) :=
  wrap_err ErrSigningProposal (signProposal now seed pv fs chainID proposal).
End files.
