(* ===== verification/PrivValProofs.v ===== *)
(** * The private validator never signs two messages for one step

    Votes and proposals are treated alike: a [Message] is either, with its
    height, round and step, its canonical form and the bytes to sign. *)
From Stdlib Require Import ZArith Lia Strings.Byte.
From stdpp Require Import base list strings gmap relations.
From S2P Require Import Prelude.
From S2P Require Import Validator.
From S2P Require Import Types.
From S2P Require Import SignBytesProofs.
From S2P Require Import ValidationProofs.
From S2P Require Import Decode.
From S2P Require Import DecodeProofs.
From S2P Require Import PrivVal.

(** ** Heights, rounds and steps in lexicographic order *)

Abbreviation HRS := (Z * Z * Z)%type.

Definition hrs_compare (a b : HRS) : comparison :=
  match a.1.1 ?= b.1.1 with
  | Eq => match a.1.2 ?= b.1.2 with Eq => a.2 ?= b.2 | o => o end
  | o => o
  end.
Definition hrs_lt (a b : HRS) : Prop := hrs_compare a b = Lt.

Lemma hrs_lt_lex a b :
  hrs_lt a b <-> a.1.1 < b.1.1 \/ a.1.1 = b.1.1 /\ (a.1.2 < b.1.2 \/ a.1.2 = b.1.2 /\ a.2 < b.2).
Proof.
  unfold hrs_lt, hrs_compare.
  destruct (Z.compare_spec a.1.1 b.1.1), (Z.compare_spec a.1.2 b.1.2), (Z.compare_spec a.2 b.2);
    (split; intros; first [done | lia]).
Qed.
Lemma hrs_compare_eq a b : hrs_compare a b = Eq <-> a = b.
Proof.
  destruct a as [[h r] s], b as [[h' r'] s']. unfold hrs_compare. simpl.
  destruct (Z.compare_spec h h'), (Z.compare_spec r r'), (Z.compare_spec s s'); split; intros; simplify_eq; first [done | lia].
Qed.
#[export] Instance hrs_lt_trans : Transitive hrs_lt.
Proof. intros a b c. rewrite !hrs_lt_lex. lia. Qed.
#[export] Instance hrs_lt_irrefl : Irreflexive hrs_lt.
Proof. intros a Ha%hrs_lt_lex. lia. Qed.

Definition lss_hrs (lss : FilePVLastSignState) : HRS := (lss_Height lss, lss_Round lss, lss_Step lss).

(** The error for a message that is behind the last one. *)
Definition regression (last new : HRS) : PVError :=
  if last.1.1 >? new.1.1 then ErrHeightRegression
  else if last.1.2 >? new.1.2 then ErrRoundRegression else ErrStepRegression.

Lemma CheckHRS_spec lss h r s :
  CheckHRS lss h r s =
  match hrs_compare (lss_hrs lss) (h, r, s) with
  | Lt => Val false
  | Gt => Fail (regression (lss_hrs lss) (h, r, s))
  | Eq => match lss_SignBytes lss, lss_Signature lss with
          | None, _ => Fail ErrNoSignBytes
          | Some _, None => Panic "pv: Signature is nil but SignBytes is not!"
          | Some _, Some _ => Val true
          end
  end.
Proof.
  unfold CheckHRS, hrs_compare, regression, lss_hrs. cbn [fst snd].
  destruct (Z.compare_spec (lss_Height lss) h), (Z.compare_spec (lss_Round lss) r), (Z.compare_spec (lss_Step lss) s);
    z_cases; done.
Qed.

(** ** Messages *)

Inductive Message := MVote (v : Vote) | MProposal (p : Proposal).
Inductive Canon := CVote (v : CanonicalVote) | CProposal (p : CanonicalProposal).
#[export] Instance Canon_eq_dec : EqDecision Canon.
Proof. solve_decision. Defined.
#[export] Instance canon_eq_dec : EqDecision (go Canon).
Proof. solve_decision. Defined.

Definition vote_step_of (v : Vote) : Z := if v_Type v =? PrevoteType then stepPrevote else stepPrecommit.

Definition m_hrs (m : Message) : HRS :=
  match m with
  | MVote v => (v_Height v, v_Round v, vote_step_of v)
  | MProposal p => (p_Height p, p_Round p, stepPropose)
  end.
Definition m_signature (m : Message) : bytes := match m with MVote v => v_Signature v | MProposal p => p_Signature p end.
Definition m_time (m : Message) : Time := match m with MVote v => v_Timestamp v | MProposal p => p_Timestamp p end.
Definition m_sign (m : Message) (sig : bytes) : Message :=
  match m with MVote v => MVote (with_Signature v sig) | MProposal p => MProposal (proposal_with_Signature p sig) end.
Definition m_at (m : Message) (t : Time) : Message :=
  match m with MVote v => MVote (with_Timestamp v t) | MProposal p => MProposal (proposal_with_Timestamp p t) end.
Definition m_canon (c : ChainID) (m : Message) : go Canon :=
  match m with MVote v => CVote <$> CanonicalizeVote c v | MProposal p => CProposal <$> CanonicalizeProposal c p end.
(** The values of a vote or proposal fit their Go types. *)
Definition m_sized (c : ChainID) (m : Message) : Prop :=
  match m with MVote v => vote_sized c v /\ IsVoteTypeValid (v_Type v) = true | MProposal p => proposal_sized c p end.

(** Equal up to the timestamp (and the signature). *)
Definition same_but_time (c : ChainID) (m : Message) (c' : ChainID) (m' : Message) : Prop :=
  m_canon c (m_at m zero_time) = m_canon c' (m_at m' zero_time).
#[export] Instance same_but_time_dec c m c' m' : Decision (same_but_time c m c' m').
Proof. unfold same_but_time. apply _. Defined.

Section signing.
Context `{!Crypto, !TimeCodec, !TimeDecoder, !PrivKeys, !ProtoEqual, !TmJSON}.

Definition m_sign_bytes (c : ChainID) (m : Message) : go bytes :=
  match m with MVote v => VoteSignBytes c v | MProposal p => ProposalSignBytes c p end.

(** [SignVote] or [SignProposal]. *)
Definition pv_sign (now : Time) (seed : Z) (pv : FilePV) (fs : Files) (c : ChainID) (m : Message)
    : outcome PVError (FilePV * Files * Message) :=
  match m with
  | MVote v => '(pv, fs, v) ← SignVote now seed pv fs c v; Val (pv, fs, MVote v)
  | MProposal p => '(pv, fs, p) ← SignProposal now seed pv fs c p; Val (pv, fs, MProposal p)
  end.
Definition m_err (m : Message) : PVError -> PVError :=
  match m with MVote _ => ErrSigningVote | MProposal _ => ErrSigningProposal end.

Lemma m_hrs_sign m sig : m_hrs (m_sign m sig) = m_hrs m.
Proof. by destruct m. Qed.
Lemma m_hrs_at m t : m_hrs (m_at m t) = m_hrs m.
Proof. by destruct m. Qed.
Lemma m_sized_sign c m sig : m_sized c (m_sign m sig) <-> m_sized c m.
Proof. by destruct m. Qed.
Lemma m_sized_at c m t : m_sized c (m_at m t) <-> m_sized c m.
Proof. by destruct m. Qed.
Lemma m_sign_bytes_sign c m sig : m_sign_bytes c (m_sign m sig) = m_sign_bytes c m.
Proof. by destruct m. Qed.
Lemma m_signature_sign m sig : m_signature (m_sign m sig) = sig.
Proof. by destruct m. Qed.

(** The sign bytes are those of the canonical form. *)
Lemma m_sign_bytes_canon c m c' m' :
  m_canon c m = m_canon c' m' -> (exists k, m_canon c m = Val k) -> m_sign_bytes c m = m_sign_bytes c' m'.
Proof.
  intros Heq [k Hk]. rewrite Hk in Heq. symmetry in Heq.
  destruct m as [v|p], m' as [v'|p']; simpl in *; unfold VoteSignBytes, ProposalSignBytes in *.
  all: repeat match goal with
    | H : _ <$> ?x = Val _ |- _ => destruct x as [?| |] eqn:?; try discriminate H; apply Val_inj in H
    end; simplify_eq; done.
Qed.

(** Setting the time sets it in the canonical form. *)
Lemma same_but_time_at c m c' m' :
  same_but_time c m c' m' <-> m_canon c (m_at m (m_time m')) = m_canon c' m'.
Proof.
  unfold same_but_time. destruct m as [v|p], m' as [v'|p']; simpl; unfold CanonicalizeVote, CanonicalizeProposal;
    cbn [with_Timestamp proposal_with_Timestamp v_BlockID v_Type v_Height v_Round v_Timestamp
         p_BlockID p_Height p_Round p_POLRound p_Timestamp];
    repeat match goal with |- context [CanonicalizeBlockID ?b] => destruct (CanonicalizeBlockID b) as [?|[]|] end;
    unfold mbind, outcome_bind, fmap, outcome_fmap; split; intros; simplify_eq; congruence.
Qed.

(** Equal canonical forms stay equal at another time. *)
Lemma m_canon_at c m c' m' t : m_canon c m = m_canon c' m' -> m_canon c (m_at m t) = m_canon c' (m_at m' t).
Proof.
  destruct m as [v|p], m' as [v'|p']; simpl; unfold CanonicalizeVote, CanonicalizeProposal;
    cbn [with_Timestamp proposal_with_Timestamp v_BlockID v_Type v_Height v_Round v_Timestamp
         p_BlockID p_Height p_Round p_POLRound p_Timestamp];
    repeat match goal with |- context [CanonicalizeBlockID ?b] => destruct (CanonicalizeBlockID b) as [?|[]|] end;
    unfold mbind, outcome_bind, fmap, outcome_fmap; intros; simplify_eq; congruence.
Qed.
Lemma m_canon_hrs c m c' m' k : m_canon c m = Val k -> m_canon c' m' = Val k -> m_hrs m = m_hrs m'.
Proof.
  destruct m as [v|p], m' as [v'|p']; simpl; unfold CanonicalizeVote, CanonicalizeProposal;
    repeat match goal with |- context [CanonicalizeBlockID ?b] => destruct (CanonicalizeBlockID b) as [?|[]|] end;
    unfold mbind, outcome_bind, fmap, outcome_fmap; intros; simplify_eq; unfold vote_step_of;
    repeat match goal with H : v_Type _ = _ |- _ => rewrite H end; congruence.
Qed.

Lemma m_sign_bytes_val c m b : m_sign_bytes c m = Val b -> exists k, m_canon c m = Val k.
Proof.
  destruct m as [v|p]; simpl; intros (k & Hk & _)%bind_val; rewrite Hk; [by exists (CVote k)|by exists (CProposal k)].
Qed.

(** Equal sign bytes come from equal canonical forms. *)
Lemma m_sign_bytes_inj c m c' m' b :
  m_sized c m -> m_sized c' m' -> m_hrs m = m_hrs m' ->
  m_sign_bytes c m = Val b -> m_sign_bytes c' m' = Val b -> m_canon c m = m_canon c' m'.
Proof.
  destruct m as [v|p], m' as [v'|p']; simpl; intros Hs Hs' Hh Hb Hb'.
  - destruct (VoteSignBytes_decode _ _ _ (proj1 Hs) Hb) as (k & -> & Hk).
    destruct (VoteSignBytes_decode _ _ _ (proj1 Hs') Hb') as (k' & -> & Hk'). congruence.
  - unfold vote_step_of in Hh. destruct (_ =? _); simplify_eq.
  - unfold vote_step_of in Hh. destruct (_ =? _); simplify_eq.
  - destruct (ProposalSignBytes_decode _ _ _ Hs Hb) as (k & -> & Hk).
    destruct (ProposalSignBytes_decode _ _ _ Hs' Hb') as (k' & -> & Hk'). congruence.
Qed.

(** ** The comparison of sign bytes *)

Lemma CanonicalizeVote_at c v k t :
  CanonicalizeVote c v = Val k -> CanonicalizeVote c (with_Timestamp v t) = Val (cv_with_Timestamp k t) /\ cv_Timestamp k = v_Timestamp v.
Proof.
  unfold CanonicalizeVote. intros (o & Ho & Hk)%bind_val. injection Hk as <-. cbn [with_Timestamp v_BlockID].
  by rewrite Ho.
Qed.
Lemma CanonicalizeProposal_at c p k t :
  CanonicalizeProposal c p = Val k ->
  CanonicalizeProposal c (proposal_with_Timestamp p t) = Val (cp_with_Timestamp k t) /\ cp_Timestamp k = p_Timestamp p.
Proof.
  unfold CanonicalizeProposal. intros (o & Ho & Hk)%bind_val. injection Hk as <-. cbn [proposal_with_Timestamp p_BlockID].
  by rewrite Ho.
Qed.

Lemma check_votes_spec now c v b c0 v0 b0 :
  vote_sized c v -> VoteSignBytes c v = Val b -> vote_sized c0 v0 -> VoteSignBytes c0 v0 = Val b0 ->
  checkVotesOnlyDifferByTimestamp now b0 b =
  Val (v_Timestamp v0, bool_decide (same_but_time c (MVote v) c0 (MVote v0))).
Proof.
  intros Hs Hb Hs0 Hb0.
  destruct (VoteSignBytes_decode _ _ _ Hs Hb) as (k & Hc & Hk).
  destruct (VoteSignBytes_decode _ _ _ Hs0 Hb0) as (k0 & Hc0 & Hk0).
  unfold checkVotesOnlyDifferByTimestamp. rewrite Hk, Hk0. cbn [must mbind outcome_bind].
  destruct (CanonicalizeVote_at _ _ _ zero_time Hc) as [Hz _].
  destruct (CanonicalizeVote_at _ _ _ zero_time Hc0) as [Hz0 Ht0]. rewrite Ht0. f_equal. f_equal.
  apply eq_true_iff_eq. rewrite Equal_vote_spec, bool_decide_eq_true. unfold same_but_time. simpl. rewrite Hz, Hz0.
  destruct k, k0. unfold cv_with_Timestamp. simpl. split; intros Heq; [congruence|apply Val_inj in Heq; congruence].
Qed.
Lemma check_proposals_spec now c p b c0 p0 b0 :
  proposal_sized c p -> ProposalSignBytes c p = Val b -> proposal_sized c0 p0 -> ProposalSignBytes c0 p0 = Val b0 ->
  checkProposalsOnlyDifferByTimestamp now b0 b =
  Val (p_Timestamp p0, bool_decide (same_but_time c (MProposal p) c0 (MProposal p0))).
Proof.
  intros Hs Hb Hs0 Hb0.
  destruct (ProposalSignBytes_decode _ _ _ Hs Hb) as (k & Hc & Hk).
  destruct (ProposalSignBytes_decode _ _ _ Hs0 Hb0) as (k0 & Hc0 & Hk0).
  unfold checkProposalsOnlyDifferByTimestamp. rewrite Hk, Hk0. cbn [must mbind outcome_bind].
  destruct (CanonicalizeProposal_at _ _ _ zero_time Hc) as [Hz _].
  destruct (CanonicalizeProposal_at _ _ _ zero_time Hc0) as [Hz0 Ht0]. rewrite Ht0. f_equal. f_equal.
  apply eq_true_iff_eq. rewrite Equal_proposal_spec, bool_decide_eq_true. unfold same_but_time. simpl. rewrite Hz, Hz0.
  destruct k, k0. unfold cp_with_Timestamp. simpl. split; intros Heq; [congruence|apply Val_inj in Heq; congruence].
Qed.

Lemma m_at_self m : m_at m (m_time m) = m.
Proof. destruct m as [v|p]; [destruct v|destruct p]; done. Qed.

(** ** What one call does *)

(** The validator after it signed [b] for the step of [m]. *)
Definition signed_state (lss : FilePVLastSignState) (m : Message) (b sig : bytes) : FilePVLastSignState :=
  mkLastSignState (m_hrs m).1.1 (m_hrs m).1.2 (m_hrs m).2 (Some sig) (Some b) (lss_filePath lss).
Definition write_state (fs : Files) (lss : FilePVLastSignState) : Files :=
  mkFiles (key_files fs) (<[lss_filePath lss := MarshalState lss]> (state_files fs)).

(** The sign bytes and the signature are kept together and are those of a
    message for the recorded height, round and step. *)
Definition lss_ok (lss : FilePVLastSignState) : Prop :=
  match lss_SignBytes lss, lss_Signature lss with
  | None, None => True
  | Some b, Some _ => exists c m, m_sized c m /\ m_sign_bytes c m = Val b /\ m_hrs m = lss_hrs lss
  | _, _ => False
  end.

(** The call by cases on the order of the message and the last one. *)
Definition sign_result (seed : Z) (pv : FilePV) (fs : Files) (c : ChainID) (m : Message) (b : bytes)
    (last : option (ChainID * Message)) : outcome PVError (FilePV * Files * Message) :=
  let lss := LastSignState pv in
  match hrs_compare (lss_hrs lss) (m_hrs m) with
  | Gt => Fail (m_err m (regression (lss_hrs lss) (m_hrs m)))
  | Lt =>
      match Sign (key_PrivKey (Key pv)) seed b with
      | None => Fail (m_err m ErrSign)
      | Some sig =>
          let lss' := signed_state lss m b sig in
          Val (mkFilePV (Key pv) lss', write_state fs lss', m_sign m sig)
      end
  | Eq =>
      match last with
      | None => Fail (m_err m ErrNoSignBytes)
      | Some (c0, m0) =>
          if bool_decide (same_but_time c m c0 m0)
          then Val (pv, fs, m_sign (m_at m (m_time m0)) (slice_bytes (lss_Signature lss)))
          else Fail (m_err m ErrConflictingData)
      end
  end.

(** [last] is a message whose bytes are the recorded ones. *)
Definition last_message (lss : FilePVLastSignState) (last : option (ChainID * Message)) : Prop :=
  match last with
  | None => lss_SignBytes lss = None /\ lss_Signature lss = None
  | Some (c0, m0) => m_sized c0 m0 /\ m_hrs m0 = lss_hrs lss /\
      exists b sig, m_sign_bytes c0 m0 = Val b /\ lss_SignBytes lss = Some b /\ lss_Signature lss = Some sig
  end.

Lemma lss_ok_last lss : lss_ok lss -> exists last, last_message lss last.
Proof.
  unfold lss_ok. destruct (lss_SignBytes lss) as [b|] eqn:Hb, (lss_Signature lss) as [sig|] eqn:Hs; try done.
  - intros (c & m & Hm & Hbm & Hh). exists (Some (c, m)). simpl. rewrite Hb, Hs. eauto 10.
  - intros _. exists None. simpl. done.
Qed.

Lemma vote_same_type v v0 :
  IsVoteTypeValid (v_Type v) = true -> IsVoteTypeValid (v_Type v0) = true -> vote_step_of v = vote_step_of v0 -> v_Type v = v_Type v0.
Proof.
  unfold IsVoteTypeValid, vote_step_of. intros [J1|J1]%orb_true_iff [J2|J2]%orb_true_iff; z_bool; rewrite J1, J2; done.
Qed.

Lemma saveSigned_val pv fs h r s b sig :
  lss_filePath (LastSignState pv) <> EmptyString ->
  let lss := mkLastSignState h r s (Some sig) (Some b) (lss_filePath (LastSignState pv)) in
  saveSigned pv fs h r s b sig = Val (mkFilePV (Key pv) lss, write_state fs lss).
Proof. intros Hp. unfold saveSigned, LastSignState_Save. simpl. by rewrite bool_decide_false. Qed.

(** Equal bytes: the messages agree, the time included. *)
Lemma same_bytes_same c m c0 m0 b :
  m_sized c m -> m_sized c0 m0 -> m_hrs m0 = m_hrs m -> m_sign_bytes c m = Val b -> m_sign_bytes c0 m0 = Val b ->
  same_but_time c m c0 m0 /\ m_at m (m_time m0) = m.
Proof.
  intros Hs Hs0 Hh Hb Hb0. pose proof (m_sign_bytes_inj c m c0 m0 b Hs Hs0 (eq_sym Hh) Hb Hb0) as Heq.
  assert (Ht : m_time m0 = m_time m).
  { destruct (m_sign_bytes_val _ _ _ Hb) as [k Hk]. rewrite Hk in Heq. symmetry in Heq.
    destruct m as [v|p], m0 as [v0|p0]; simpl in *; unfold CanonicalizeVote, CanonicalizeProposal in *;
      repeat match goal with
      | H : context [CanonicalizeBlockID ?x] |- _ => destruct (CanonicalizeBlockID x) as [?|[]|]; try discriminate H
      end; unfold mbind, outcome_bind, fmap, outcome_fmap in *; congruence. }
  rewrite Ht, m_at_self. split; [|done]. apply same_but_time_at. by rewrite Ht, m_at_self.
Qed.

Lemma vote_resign now c v b m0 c0 b0 sig (pv : FilePV) (fs : Files) :
  m_sized c (MVote v) -> VoteSignBytes c v = Val b -> m_sized c0 m0 -> m_sign_bytes c0 m0 = Val b0 -> m_hrs m0 = m_hrs (MVote v) ->
  (if bytes_equal b b0 then Val (pv, fs, with_Signature v sig)
   else '(timestamp, ok) ← lift (checkVotesOnlyDifferByTimestamp now b0 b);
        if ok : bool then Val (pv, fs, with_Signature (with_Timestamp v timestamp) sig) else Fail ErrConflictingData) =
  if bool_decide (same_but_time c (MVote v) c0 m0) then Val (pv, fs, with_Signature (with_Timestamp v (m_time m0)) sig)
  else Fail ErrConflictingData.
Proof.
  intros Hs Hb Hs0 Hb0 Hh. destruct (bytes_equal_spec b b0) as [<-|Hne].
  - destruct (same_bytes_same c (MVote v) c0 m0 b) as [Hsame Hat]; [done..|].
    rewrite bool_decide_true by done. by injection Hat as ->.
  - destruct m0 as [v0|p0]; [|by unfold m_hrs, vote_step_of in Hh; destruct (_ =? _); simplify_eq].
    rewrite (check_votes_spec now c v b c0 v0 b0) by (done || apply Hs || apply Hs0). cbn [lift mbind outcome_bind m_time].
    by case_bool_decide.
Qed.
Lemma proposal_resign now c p b m0 c0 b0 sig (pv : FilePV) (fs : Files) :
  m_sized c (MProposal p) -> ProposalSignBytes c p = Val b -> m_sized c0 m0 -> m_sign_bytes c0 m0 = Val b0 ->
  m_hrs m0 = m_hrs (MProposal p) ->
  (if bytes_equal b b0 then Val (pv, fs, proposal_with_Signature p sig)
   else '(timestamp, ok) ← lift (checkProposalsOnlyDifferByTimestamp now b0 b);
        if ok : bool then Val (pv, fs, proposal_with_Signature (proposal_with_Timestamp p timestamp) sig)
        else Fail ErrConflictingData) =
  if bool_decide (same_but_time c (MProposal p) c0 m0)
  then Val (pv, fs, proposal_with_Signature (proposal_with_Timestamp p (m_time m0)) sig)
  else Fail ErrConflictingData.
Proof.
  intros Hs Hb Hs0 Hb0 Hh. destruct (bytes_equal_spec b b0) as [<-|Hne].
  - destruct (same_bytes_same c (MProposal p) c0 m0 b) as [Hsame Hat]; [done..|].
    rewrite bool_decide_true by done. by injection Hat as ->.
  - destruct m0 as [v0|p0]; [by unfold m_hrs, vote_step_of in Hh; destruct (_ =? _); simplify_eq|].
    rewrite (check_proposals_spec now c p b c0 p0 b0) by (done || apply Hs || apply Hs0). cbn [lift mbind outcome_bind m_time].
    by case_bool_decide.
Qed.

Lemma voteToStep_val v : IsVoteTypeValid (v_Type v) = true -> voteToStep v = Val (vote_step_of v).
Proof.
  unfold IsVoteTypeValid, voteToStep, vote_step_of. intros [J1|J1]%orb_true_iff; z_bool; by rewrite J1.
Qed.

Lemma pv_sign_spec now seed pv fs c m b last :
  m_sized c m -> m_sign_bytes c m = Val b -> lss_filePath (LastSignState pv) <> EmptyString ->
  last_message (LastSignState pv) last ->
  pv_sign now seed pv fs c m = sign_result seed pv fs c m b last.
Proof.
  intros Hs Hb Hp Hlast. unfold sign_result. destruct (hrs_compare _ _) eqn:Hcmp.
  - pose proof (proj1 (hrs_compare_eq _ _) Hcmp) as Hh.
    destruct m as [v|p]; unfold pv_sign, SignVote, SignProposal, signVote, signProposal;
      [rewrite voteToStep_val by apply Hs|]; unfold m_hrs in Hcmp; cbn [lift mbind outcome_bind m_sign_bytes] in *;
      rewrite CheckHRS_spec, Hcmp; (destruct last as [[c0 m0]|]; simpl in Hlast;
      [destruct Hlast as (Hs0 & Hh0 & b0 & sig & Hb0 & HSB & HSig)|destruct Hlast as [HSB HSig]; by rewrite HSB, HSig]);
      rewrite HSB, HSig; cbn [mbind outcome_bind slice_bytes from_option id]; rewrite Hb; cbn [lift mbind outcome_bind].
    + rewrite (vote_resign now c v b m0 c0 b0) by (done || congruence). by case_bool_decide.
    + rewrite (proposal_resign now c p b m0 c0 b0) by (done || congruence). by case_bool_decide.
  - destruct m as [v|p]; unfold pv_sign, SignVote, SignProposal, signVote, signProposal;
      [rewrite voteToStep_val by apply Hs|]; unfold m_hrs in Hcmp; cbn [lift mbind outcome_bind m_sign_bytes] in *;
      rewrite CheckHRS_spec, Hcmp; cbn [mbind outcome_bind]; rewrite Hb; cbn [lift mbind outcome_bind];
      destruct (Sign _ _ _) as [sig|]; [|done| |done]; cbn [or_err mbind outcome_bind];
      rewrite saveSigned_val by done; done.
  - destruct m as [v|p]; unfold pv_sign, SignVote, SignProposal, signVote, signProposal;
      [rewrite voteToStep_val by apply Hs|]; unfold m_hrs in Hcmp; cbn [lift mbind outcome_bind] in *;
      rewrite CheckHRS_spec, Hcmp; done.
Qed.

(** ** The validator process, its crashes and its restarts *)

(** The running validator (none after a crash), the files, and the signed
    messages handed out so far. *)
Record Node := mkNode { running : option FilePV; files : Files; released : list (ChainID * Message) }.

Context (sk : PrivKey) (keyPath statePath : string).

(** A crash may come before the file is written, or between the write and the
    return of the call; a panic stops the process. *)
Inductive node_step : Node -> Node -> Prop :=
  | step_sign now seed pv fs rel c m pv' fs' m' :
      m_sized c m -> pv_sign now seed pv fs c m = Val (pv', fs', m') ->
      node_step (mkNode (Some pv) fs rel) (mkNode (Some pv') fs' ((c, m') :: rel))
  | step_refuse now seed pv fs rel c m e :
      m_sized c m -> pv_sign now seed pv fs c m = Fail e ->
      node_step (mkNode (Some pv) fs rel) (mkNode (Some pv) fs rel)
  | step_lost now seed pv fs rel c m pv' fs' m' :
      m_sized c m -> pv_sign now seed pv fs c m = Val (pv', fs', m') ->
      node_step (mkNode (Some pv) fs rel) (mkNode None fs' rel)
  | step_crash r fs rel : node_step (mkNode r fs rel) (mkNode None fs rel)
  | step_restart pv fs rel :
      LoadFilePV fs keyPath statePath = Val pv -> node_step (mkNode None fs rel) (mkNode (Some pv) fs rel).

Inductive node_initial : Node -> Prop :=
  | initial_node fs0 fs :
      FilePV_Save (NewFilePV sk keyPath statePath) fs0 = Val fs ->
      node_initial (mkNode (Some (NewFilePV sk keyPath statePath)) fs []).

Definition node_reachable (n : Node) : Prop := exists n0, node_initial n0 /\ rtc node_step n0 n.

(** What the files hold. *)
Definition stored (fs : Files) (lss : FilePVLastSignState) : Prop :=
  exists j kj k, state_files fs !! statePath = Some j /\ UnmarshalState j = Some lss /\
    key_files fs !! keyPath = Some kj /\ UnmarshalKey kj = Some k /\ key_PrivKey k = sk.

(** A message handed out was signed by the key; it is behind the recorded
    step, or it is the recorded one. *)
Definition released_ok (lss : FilePVLastSignState) (c : ChainID) (m : Message) (b : bytes) : Prop :=
  m_sized c m /\ m_sign_bytes c m = Val b /\ (exists seed, Sign sk seed b = Some (m_signature m)) /\
  (hrs_lt (m_hrs m) (lss_hrs lss) \/
   m_hrs m = lss_hrs lss /\ lss_SignBytes lss = Some b /\ lss_Signature lss = Some (m_signature m)).

Definition lss_signed (lss : FilePVLastSignState) : Prop :=
  forall b sig, lss_SignBytes lss = Some b -> lss_Signature lss = Some sig -> exists seed, Sign sk seed b = Some sig.

Record node_ok (n : Node) (lss : FilePVLastSignState) : Prop := {
  nok_stored : stored (files n) lss;
  nok_lss : lss_ok lss;
  nok_signed : lss_signed lss;
  nok_running : forall pv, running n = Some pv -> LastSignState pv = state_at statePath lss /\ key_PrivKey (Key pv) = sk;
  nok_released : forall c m, (c, m) ∈ released n -> exists b, released_ok lss c m b;
  nok_unique : forall c m c' m', (c, m) ∈ released n -> (c', m') ∈ released n -> m_hrs m = m_hrs m' ->
    m_sign_bytes c m = m_sign_bytes c' m' /\ m_signature m = m_signature m'
}.

Lemma lss_ok_at path lss : lss_ok (state_at path lss) <-> lss_ok lss.
Proof. done. Qed.

Lemma stored_write fs lss lss' :
  stored fs lss -> lss_filePath lss' = statePath -> stored (write_state fs lss') (state_at EmptyString lss').
Proof.
  intros (j & kj & k & _ & _ & Hk) Hp. exists (MarshalState lss'), kj, k. split_and!; try apply Hk.
  - simpl. rewrite Hp. apply lookup_insert_eq.
  - apply UnmarshalState_Marshal.
Qed.

(** After a signature for a later step. *)
Lemma node_ok_fresh n lss c m b sig seed pv' :
  node_ok n lss -> m_sized c m -> m_sign_bytes c m = Val b -> hrs_lt (lss_hrs lss) (m_hrs m) ->
  Sign sk seed b = Some sig -> running n = Some pv' ->
  let lss' := signed_state (LastSignState pv') m b sig in
  let new := mkFilePV (Key pv') lss' in
  node_ok (mkNode (Some new) (write_state (files n) lss') ((c, m_sign m sig) :: released n)) (state_at EmptyString lss').
Proof.
  intros [Hst Hok Hsg Hrun Hrel Huniq] Hs Hb Hlt Hsign Hpv lss' new. destruct (Hrun _ Hpv) as [Hl Hk].
  assert (Hh : lss_hrs (state_at EmptyString lss') = m_hrs m) by (unfold lss_hrs; simpl; by destruct (m_hrs m) as [[??]?]).
  assert (Hnew : forall c0 m0, (c0, m0) ∈ released n -> hrs_lt (m_hrs m0) (m_hrs m)).
  { intros c0 m0 Hin. destruct (Hrel _ _ Hin) as (b0 & _ & _ & _ & [Hlt0|[-> _]]); [by etrans|done]. }
  split.
  - apply (stored_write _ lss); [done|]. unfold lss', signed_state. cbn [lss_filePath]. by rewrite Hl.
  - simpl. exists c, m. split_and!; [done|done|by rewrite Hh].
  - intros b1 sig1 [= <-] [= <-]. by exists seed.
  - intros pv [= <-]. split; [|done]. unfold new, lss', signed_state, state_at. simpl. by rewrite Hl.
  - intros c0 m0 [[= -> ->]|Hin]%elem_of_cons.
    + exists b. split_and!; [by apply m_sized_sign|by rewrite m_sign_bytes_sign|rewrite m_signature_sign; by exists seed|].
      right. rewrite m_hrs_sign, m_signature_sign. by rewrite Hh.
    + destruct (Hrel _ _ Hin) as (b0 & Hs0 & Hb0 & Hg0 & _). exists b0. split_and!; [done..|].
      left. rewrite Hh. by apply (Hnew c0).
  - intros c1 m1 c2 m2 [[= -> ->]|Hin1]%elem_of_cons [[= -> ->]|Hin2]%elem_of_cons Heq.
    + done.
    + exfalso. rewrite m_hrs_sign in Heq. apply Hnew in Hin2. rewrite <- Heq in Hin2. by apply (irreflexivity hrs_lt) in Hin2.
    + exfalso. rewrite m_hrs_sign in Heq. apply Hnew in Hin1. rewrite Heq in Hin1. by apply (irreflexivity hrs_lt) in Hin1.
    + by apply Huniq.
Qed.

(** After the last signature is handed out again. *)
Lemma node_ok_again n lss c m b sig c0 m0 :
  node_ok n lss -> m_sized c m -> m_hrs m = lss_hrs lss ->
  m_sized c0 m0 -> m_sign_bytes c0 m0 = Val b -> lss_SignBytes lss = Some b -> lss_Signature lss = Some sig ->
  same_but_time c m c0 m0 ->
  node_ok (mkNode (running n) (files n) ((c, m_sign (m_at m (m_time m0)) sig) :: released n)) lss.
Proof.
  intros [Hst Hok Hsg Hrun Hrel Huniq] Hs Hh Hs0 Hb0 HSB HSig Hsame. set (m' := m_sign (m_at m (m_time m0)) sig).
  assert (Hb' : m_sign_bytes c m' = Val b).
  { unfold m'. rewrite m_sign_bytes_sign, <- Hb0. apply m_sign_bytes_canon; [by apply same_but_time_at|].
    apply same_but_time_at in Hsame as ->. by eapply m_sign_bytes_val. }
  assert (Hh' : m_hrs m' = lss_hrs lss) by (unfold m'; by rewrite m_hrs_sign, m_hrs_at).
  assert (Hg' : m_signature m' = sig) by apply m_signature_sign.
  assert (Hold : forall c1 m1, (c1, m1) ∈ released n -> m_hrs m1 = lss_hrs lss -> m_sign_bytes c1 m1 = Val b /\ m_signature m1 = sig).
  { intros c1 m1 Hin Heq. destruct (Hrel _ _ Hin) as (b1 & _ & Hb1 & _ & [Hlt|(_ & HSB1 & HSig1)]).
    - rewrite Heq in Hlt. by apply (irreflexivity hrs_lt) in Hlt.
    - split; congruence. }
  split; try done.
  - intros c1 m1 [[= -> ->]|Hin]%elem_of_cons; [|by apply Hrel]. exists b. fold m'. split_and!.
    + unfold m'. by apply m_sized_sign, m_sized_at.
    + done.
    + rewrite Hg'. by apply Hsg.
    + right. by rewrite Hg'.
  - intros c1 m1 c2 m2 [[= -> ->]|Hin1]%elem_of_cons [[= -> ->]|Hin2]%elem_of_cons Heq; fold m' in Heq |- *.
    + done.
    + destruct (Hold c2 m2) as [-> ->]; [done|congruence|done].
    + destruct (Hold c1 m1) as [-> ->]; [done|congruence|done].
    + by apply Huniq.
Qed.

Lemma pv_sign_bytes now seed pv fs c m r : pv_sign now seed pv fs c m = Val r -> exists b, m_sign_bytes c m = Val b.
Proof.
  destruct m as [v|p]; simpl; unfold SignVote, SignProposal, signVote, signProposal; intros Hr; inv_val; eauto.
Qed.

Lemma last_message_at lss last path : last_message (state_at path lss) last <-> last_message lss last.
Proof. by destruct last as [[??]|]. Qed.

(** A call of the running validator, by cases. *)
Lemma node_ok_sign n lss pv now seed c m b :
  statePath <> EmptyString -> node_ok n lss -> running n = Some pv -> m_sized c m -> m_sign_bytes c m = Val b ->
  exists last, last_message lss last /\ pv_sign now seed pv (files n) c m = sign_result seed pv (files n) c m b last.
Proof.
  intros Hp Hok Hrun Hs Hb. destruct (nok_running _ _ Hok _ Hrun) as [Hl _].
  destruct (lss_ok_last lss (nok_lss _ _ Hok)) as [last Hlast]. exists last. split; [done|].
  apply pv_sign_spec; [done|done|by rewrite Hl|]. rewrite Hl. by apply last_message_at.
Qed.

Lemma node_ok_released n lss pv now seed c m pv' fs' m' :
  statePath <> EmptyString -> node_ok n lss -> running n = Some pv -> m_sized c m ->
  pv_sign now seed pv (files n) c m = Val (pv', fs', m') ->
  exists lss', node_ok (mkNode (Some pv') fs' ((c, m') :: released n)) lss'.
Proof.
  intros Hp Hok Hrun Hs Hsign. destruct (pv_sign_bytes _ _ _ _ _ _ _ Hsign) as [b Hb].
  destruct (node_ok_sign n lss pv now seed c m b) as (last & Hlast & Heq); [done..|]. rewrite Heq in Hsign.
  destruct (nok_running _ _ Hok _ Hrun) as [Hl Hk]. unfold sign_result in Hsign. rewrite Hl, Hk in Hsign.
  destruct (hrs_compare _ _) eqn:Hcmp; [| |done].
  - destruct last as [[c0 m0]|]; [|done]. case_bool_decide as Hsame; [|done]. apply Val_inj in Hsign. simplify_eq.
    destruct Hlast as (Hs0 & Hh0 & b0 & sig & Hb0 & HSB & HSig). exists lss. simpl. rewrite HSig. simpl.
    rewrite <- Hrun. apply (node_ok_again n lss c m b0 sig c0 m0); try done. symmetry. by apply hrs_compare_eq.
  - destruct (Sign _ _ _) as [sig|] eqn:Hsig; [|done]. apply Val_inj in Hsign. simplify_eq.
    rewrite <- Hl. eexists. by apply (node_ok_fresh n lss c m b sig seed pv).
Qed.

Lemma node_ok_crash n lss : node_ok n lss -> node_ok (mkNode None (files n) (released n)) lss.
Proof. intros [Hst Hok Hsg _ Hrel Huniq]. by split. Qed.
Lemma node_ok_forget r fs x rel lss : node_ok (mkNode r fs (x :: rel)) lss -> node_ok (mkNode None fs rel) lss.
Proof. intros [Hst Hok Hsg _ Hrel Huniq]. split; try done; intros; [apply Hrel|apply Huniq]; try done; by right. Qed.

Lemma stored_load fs lss :
  stored fs lss -> exists k, key_PrivKey k = sk /\ LoadFilePV fs keyPath statePath = Val (mkFilePV k (state_at statePath lss)).
Proof.
  intros (j & kj & k & Hj & Hlss & Hkj & Hk & Hsk). unfold LoadFilePV, loadFilePV. rewrite Hkj. cbn [or_err mbind outcome_bind].
  rewrite Hk. cbn [or_err mbind outcome_bind]. rewrite Hj. cbn [or_err mbind outcome_bind]. rewrite Hlss.
  cbn [or_err mbind outcome_bind]. eexists. split; [|reflexivity]. done.
Qed.

Lemma node_step_ok n n' lss : statePath <> EmptyString -> node_ok n lss -> node_step n n' -> exists lss', node_ok n' lss'.
Proof.
  intros Hp Hok Hstep. destruct Hstep as [now seed pv fs rel c m pv' fs' m' Hs Hsign|now seed pv fs rel c m e Hs Hsign
    |now seed pv fs rel c m pv' fs' m' Hs Hsign|r fs rel|pv fs rel Hload].
  - by apply (node_ok_released (mkNode (Some pv) fs rel) lss pv now seed c m).
  - eauto.
  - destruct (node_ok_released (mkNode (Some pv) fs rel) lss pv now seed c m pv' fs' m') as [lss' Hok']; [done..|].
    exists lss'. by eapply node_ok_forget.
  - exists lss. by apply (node_ok_crash (mkNode r fs rel)).
  - exists lss. destruct (stored_load _ _ (nok_stored _ _ Hok)) as (k & Hk & Hl). simpl in Hl. rewrite Hl in Hload.
    apply Val_inj in Hload as <-. destruct Hok as [Hst Hok Hsg _ Hrel Huniq]. split; try done. by intros pv [= <-].
Qed.

Lemma initial_ok n : node_initial n -> statePath <> EmptyString /\ exists lss, node_ok n lss.
Proof.
  intros [fs0 fs Hsave]. unfold FilePV_Save, FilePVKey_Save, LastSignState_Save in Hsave. cbn [key_filePath lss_filePath NewFilePV Key LastSignState] in Hsave.
  destruct (decide (keyPath = EmptyString)); [by rewrite (bool_decide_true (keyPath = EmptyString)) in Hsave|].
  rewrite (bool_decide_false (keyPath = EmptyString)) in Hsave by done. cbn [mbind outcome_bind] in Hsave.
  destruct (decide (statePath = EmptyString)); [by rewrite (bool_decide_true (statePath = EmptyString)) in Hsave|].
  rewrite (bool_decide_false (statePath = EmptyString)) in Hsave by done. apply Val_inj in Hsave as <-. split; [done|].
  set (pvKey := mkFilePVKey _ _ _ _). destruct (UnmarshalKey_Marshal pvKey) as (k & Hk & Hsk).
  exists (empty_state EmptyString). split; try done.
  - exists (MarshalState (mkLastSignState 0 0 stepNone None None statePath)), (MarshalKey pvKey), k. split_and!; simpl.
    + apply lookup_insert_eq.
    + apply UnmarshalState_Marshal.
    + apply lookup_insert_eq.
    + done.
    + done.
  - by intros pv [= <-].
  - intros c m Hin. by apply elem_of_nil in Hin.
  - intros c m c' m' Hin. by apply elem_of_nil in Hin.
Qed.

Lemma node_reachable_ok n : node_reachable n -> statePath <> EmptyString /\ exists lss, node_ok n lss.
Proof.
  intros (n0 & Hinit & Hsteps). destruct (initial_ok _ Hinit) as [Hp Hok]. split; [done|].
  clear Hinit. induction Hsteps as [n|n1 n2 n3 Hstep _ IH]; [done|]. destruct Hok as [lss Hok].
  apply IH. by eapply node_step_ok.
Qed.

Lemma same_but_time_hrs c m c' m' b : m_sign_bytes c' m' = Val b -> same_but_time c m c' m' -> m_hrs m = m_hrs m'.
Proof.
  intros [k Hk]%m_sign_bytes_val Hsame%same_but_time_at. rewrite Hk in Hsame.
  rewrite <- (m_hrs_at m (m_time m')). by eapply m_canon_hrs.
Qed.

(** ** Properties *)

(** C6: no double signing.  In every run of the validator, with crashes and
    restarts at any point, two signed messages it handed out for the same height,
    round and step have the same canonical form (chain, block, timestamp and
    proof-of-lock round included) and the same signature, and that signature
    verifies under the validator's key. *)
Theorem no_double_sign n c m c' m' :
  (forall seed b sig, Sign sk seed b = Some sig -> VerifySignature (sk_PubKey sk) b sig = true) ->
  node_reachable n -> (c, m) ∈ released n -> (c', m') ∈ released n -> m_hrs m = m_hrs m' ->
  m_canon c m = m_canon c' m' /\ m_signature m = m_signature m' /\
  exists b, m_sign_bytes c m = Val b /\ VerifySignature (sk_PubKey sk) b (m_signature m) = true.
Proof.
  intros Hlaw [_ [lss Hok]]%node_reachable_ok Hin Hin' Hh.
  destruct (nok_released _ _ Hok _ _ Hin) as (b & Hs & Hb & [seed Hsig] & _).
  destruct (nok_released _ _ Hok _ _ Hin') as (b' & Hs' & Hb' & _).
  destruct (nok_unique _ _ Hok _ _ _ _ Hin Hin' Hh) as [Heq Hsigs].
  split_and!; [|done|eauto]. apply (m_sign_bytes_inj c m c' m' b); try done. by rewrite <- Heq.
Qed.

(** A call of [SignVote] or [SignProposal] on every branch.  The
    validator compares the message with the last one in the lexicographic order
    of height, round and step: behind it, the regression is refused; ahead of it,
    the key signs and the new state is written before the signature is returned;
    at the same step the last signature is returned with the last timestamp when
    the message differs in the timestamp at most, and otherwise the conflict is
    refused.  It never panics on a message whose sign bytes exist. *)
Theorem private_validator_signs n pv now seed c m b :
  node_reachable n -> running n = Some pv -> m_sized c m -> m_sign_bytes c m = Val b ->
  exists last, last_message (LastSignState pv) last /\
    pv_sign now seed pv (files n) c m = sign_result seed pv (files n) c m b last.
Proof.
  intros [Hp [lss Hok]]%node_reachable_ok Hrun Hs Hb.
  destruct (node_ok_sign n lss pv now seed c m b) as (last & Hlast & Heq); [done..|]. exists last. split; [|done].
  destruct (nok_running _ _ Hok _ Hrun) as [-> _]. by apply last_message_at.
Qed.

(** Restarting after a crash.  The validator can always be loaded from
    its files, whenever the process stopped.  Loaded again, it refuses every
    message behind a message it has handed out and every message for the same
    step that is not the same up to the timestamp; and for the step it signed
    last it returns a message with the same sign bytes and the same signature. *)
Theorem restart_keeps_promises n :
  node_reachable n ->
  exists pv, LoadFilePV (files n) keyPath statePath = Val pv /\
  forall c m now seed c' m' b, (c, m) ∈ released n -> m_sized c' m' -> m_sign_bytes c' m' = Val b ->
    (hrs_lt (m_hrs m') (m_hrs m) \/ m_hrs m' = m_hrs m /\ ~ same_but_time c' m' c m ->
       exists e, pv_sign now seed pv (files n) c' m' = Fail e) /\
    (m_hrs m = lss_hrs (LastSignState pv) -> same_but_time c' m' c m ->
       exists m'', pv_sign now seed pv (files n) c' m' = Val (pv, files n, m'') /\
         m_sign_bytes c' m'' = m_sign_bytes c m /\ m_signature m'' = m_signature m).
Proof.
  intros [Hp [lss Hok]]%node_reachable_ok. destruct (stored_load _ _ (nok_stored _ _ Hok)) as (k & Hk & Hload).
  exists (mkFilePV k (state_at statePath lss)). split; [done|]. intros c m now seed c' m' b Hin Hs Hb.
  destruct (lss_ok_last lss (nok_lss _ _ Hok)) as [last Hlast].
  rewrite (pv_sign_spec now seed (mkFilePV k (state_at statePath lss)) (files n) c' m' b last); [|done|done|done|by apply last_message_at].
  destruct (nok_released _ _ Hok _ _ Hin) as (b1 & Hs1 & Hb1 & _ & Hwhere). unfold sign_result. cbn [LastSignState Key].
  change (lss_hrs (state_at statePath lss)) with (lss_hrs lss).
  assert (Hrec : m_hrs m = lss_hrs lss -> exists c0 m0, last = Some (c0, m0) /\ m_canon c0 m0 = m_canon c m /\
    lss_Signature lss = Some (m_signature m) /\ m_hrs m0 = m_hrs m).
  { intros Hh. destruct Hwhere as [Hlt|(_ & HSB & HSig)]; [rewrite Hh in Hlt; by apply (irreflexivity hrs_lt) in Hlt|].
    destruct last as [[c0 m0]|]; simpl in Hlast; [|by rewrite HSB in Hlast; destruct Hlast].
    destruct Hlast as (Hs0 & Hh0 & b0 & sig & Hb0 & HSB0 & _). exists c0, m0. split_and!; [done| |done|congruence].
    apply (m_sign_bytes_inj c0 m0 c m b1); congruence. }
  split.
  - intros Hbad. destruct (hrs_compare _ _) eqn:Hcmp; [| |by eauto].
    + apply hrs_compare_eq in Hcmp. destruct Hbad as [Hlt|[Hh Hdiff]].
      { exfalso. rewrite <- Hcmp in Hlt. destruct Hwhere as [Hlt1|[Hh1 _]];
          [by apply (irreflexivity hrs_lt (lss_hrs lss)); etrans|rewrite Hh1 in Hlt; by apply (irreflexivity hrs_lt) in Hlt]. }
      destruct Hrec as (c0 & m0 & -> & Hcan & _ & _); [congruence|]. rewrite bool_decide_false; [eauto|].
      intros Hsame. apply Hdiff. unfold same_but_time in *. rewrite Hsame. by apply m_canon_at.
    + exfalso. fold (hrs_lt (lss_hrs lss) (m_hrs m')) in Hcmp.
      assert (Hlt : hrs_lt (lss_hrs lss) (m_hrs m)) by (destruct Hbad as [Hlt|[<- _]]; [by etrans|done]).
      destruct Hwhere as [Hlt1|[Hh1 _]]; [|rewrite Hh1 in Hlt]; by apply (irreflexivity hrs_lt (lss_hrs lss)); etrans.
  - intros Hh Hsame. destruct (Hrec Hh) as (c0 & m0 & -> & Hcan & HSig & Hh0).
    assert (Hsame0 : same_but_time c' m' c0 m0) by (unfold same_but_time in *; rewrite Hsame; symmetry; by apply m_canon_at).
    assert (Hkind : m_hrs m' = m_hrs m) by (symmetry; by eapply same_but_time_hrs).
    rewrite (proj2 (hrs_compare_eq _ _)) by congruence. rewrite bool_decide_true by done.
    eexists. split; [done|]. rewrite m_sign_bytes_sign, m_signature_sign. cbn [state_at lss_Signature]. rewrite HSig.
    split; [|done]. apply same_but_time_at in Hsame0. apply m_sign_bytes_canon; [congruence|].
    rewrite Hsame0, Hcan. by eapply m_sign_bytes_val.
Qed.
End signing.

(** ** A concrete validator *)

Definition toy_keys : PrivKeys :=
  {| PrivKey := bytes; sk_PubKey := mkPubKey Ed25519; Sign := fun sk _ msg => Some (take 1 sk ++ msg) |}.
Definition toy_equal : ProtoEqual.
Proof.
  refine {| Equal_vote := fun a b => bool_decide (a = b); Equal_proposal := fun a b => bool_decide (a = b) |};
    intros a b; apply bool_decide_eq_true.
Defined.
Lemma toy_key_reads (k : @FilePVKey toy_keys) : exists k', Some k = Some k' /\ key_PrivKey k' = key_PrivKey k.
Proof. by exists k. Qed.
Definition toy_json : @TmJSON toy_keys :=
  @Build_TmJSON toy_keys FilePVKey FilePVLastSignState id Some id (fun s => Some (state_at EmptyString s))
    toy_key_reads (fun s => eq_refl).
#[local] Existing Instances toy_crypto toy_time toy_decoder toy_keys toy_equal toy_json.

Definition sample_sk : PrivKey := replicate 32 x09.
Definition sample_pv : FilePV := NewFilePV sample_sk "key.json" "state.json".
Definition sample_files : Files :=
  match FilePV_Save sample_pv (mkFiles ∅ ∅) with Val fs => fs | _ => mkFiles ∅ ∅ end.
(** The node after it signed a vote. *)
Definition sample_message : Message := MVote (sample_vote x07).
Definition sample_signed : Node :=
  match pv_sign 99 0 sample_pv sample_files [x61] sample_message with
  | Val (pv, fs, m) => mkNode (Some pv) fs [([x61], m)]
  | _ => mkNode None sample_files []
  end.
(** The node after a crash, a restart, and the same vote at a later time. *)
Definition sample_again : Node :=
  match LoadFilePV (files sample_signed) "key.json" "state.json" with
  | Val pv =>
      match pv_sign 100 0 pv (files sample_signed) [x61] (m_at sample_message 88) with
      | Val (pv, fs, m) => mkNode (Some pv) fs (([x61], m) :: released sample_signed)
      | _ => sample_signed
      end
  | _ => sample_signed
  end.

Lemma sample_message_sized t : m_sized [x61] (m_at sample_message t).
Proof. vm_compute. repeat split; discriminate. Qed.

Lemma sample_signed_reachable : node_reachable sample_sk "key.json" "state.json" sample_signed.
Proof.
  exists (mkNode (Some sample_pv) sample_files []). split.
  - by apply (initial_node sample_sk "key.json" "state.json" (mkFiles ∅ ∅)).
  - apply rtc_once. unfold sample_signed.
    destruct (pv_sign 99 0 sample_pv sample_files [x61] sample_message) as [[[pv fs] m]| |] eqn:Hs; [|by vm_compute in Hs..].
    apply (step_sign _ _ 99 0 _ _ _ [x61] sample_message); [exact (sample_message_sized 77)|exact Hs].
Qed.
Lemma sample_again_reachable : node_reachable sample_sk "key.json" "state.json" sample_again.
Proof.
  destruct sample_signed_reachable as (n0 & Hinit & Hsteps). exists n0. split; [done|]. etrans; [done|].
  unfold sample_again. destruct (LoadFilePV _ _ _) as [pv| |] eqn:Hl; [|by vm_compute in Hl..].
  destruct (pv_sign 100 0 pv _ _ _) as [[[pv' fs] m]| |] eqn:Hs.
  - apply rtc_l with (mkNode None (files sample_signed) (released sample_signed)); [by destruct sample_signed; apply step_crash|].
    eapply rtc_l; [by apply step_restart|].
    apply rtc_once. by apply (step_sign _ _ 100 0 _ _ _ [x61] (m_at sample_message 88)); [apply sample_message_sized|].
  - exfalso. vm_compute in Hl. apply Val_inj in Hl as <-. by vm_compute in Hs.
  - exfalso. vm_compute in Hl. apply Val_inj in Hl as <-. by vm_compute in Hs.
Qed.

Lemma toy_signs_verify seed b sig :
  Sign sample_sk seed b = Some sig -> VerifySignature (sk_PubKey sample_sk) b sig = true.
Proof. intros [= <-]. apply bytes_equal_refl. Qed.

Lemma no_double_sign_witness :
  exists m m', ([x61], m) ∈ released sample_again /\ ([x61], m') ∈ released sample_again /\ m_hrs m = m_hrs m' /\
  m_canon [x61] m = m_canon [x61] m'.
Proof.
  destruct (released sample_again) as [|[c m] [|[c' m'] rest]] eqn:Hr; [vm_compute in Hr; discriminate..|].
  assert (Hc : c = [x61] /\ c' = [x61] /\ m_hrs m = m_hrs m') by (vm_compute in Hr; injection Hr as <- <- <- <- _; done).
  destruct Hc as (-> & -> & Hh). exists m, m'. split_and!; [left|right; left|exact Hh|].
  apply (no_double_sign sample_sk "key.json" "state.json" sample_again [x61] m [x61] m' toy_signs_verify sample_again_reachable);
    [rewrite Hr; left|rewrite Hr; right; left|exact Hh].
Defined.

Lemma private_validator_signs_witness :
  exists pv last, running sample_signed = Some pv /\ last_message (LastSignState pv) last /\
  exists b, m_sign_bytes [x61] (m_at sample_message 88) = Val b /\
  pv_sign 100 0 pv (files sample_signed) [x61] (m_at sample_message 88) =
  sign_result 0 pv (files sample_signed) [x61] (m_at sample_message 88) b last.
Proof.
  destruct (running sample_signed) as [pv|] eqn:Hrun; [|vm_compute in Hrun; discriminate].
  destruct (m_sign_bytes [x61] (m_at sample_message 88)) as [b| |] eqn:Hb; [|vm_compute in Hb; discriminate..].
  destruct (private_validator_signs sample_sk "key.json" "state.json" sample_signed pv 100 0 [x61] (m_at sample_message 88) b
    sample_signed_reachable Hrun (sample_message_sized 88) Hb) as (last & Hlast & Heq).
  exists pv, last. split; [reflexivity|]. split; [exact Hlast|]. exists b. split; [reflexivity|exact Heq].
Defined.

Lemma restart_keeps_promises_witness :
  exists pv, LoadFilePV (files sample_signed) "key.json" "state.json" = Val pv /\
  exists e, pv_sign 100 0 pv (files sample_signed) [x61] (MVote (sample_vote x08)) = Fail e.
Proof.
  destruct (restart_keeps_promises sample_sk "key.json" "state.json" sample_signed sample_signed_reachable) as (pv & Hl & H).
  exists pv. split; [exact Hl|].
  destruct (released sample_signed) as [|[c m] rest] eqn:Hr; [vm_compute in Hr; discriminate|].
  destruct (m_sign_bytes [x61] (MVote (sample_vote x08))) as [b| |] eqn:Hb; [|vm_compute in Hb; discriminate..].
  destruct (H c m 100 0 [x61] (MVote (sample_vote x08)) b) as [Hrefuse _].
  - left.
  - vm_compute. repeat split; discriminate.
  - exact Hb.
  - apply Hrefuse. right. vm_compute in Hr. injection Hr as <- <- _. split; [reflexivity|]. vm_compute. discriminate.
Defined.
