(* ===== verification/Header.v ===== *)
(** * types: block headers, signed headers and light blocks

    Models the header of types/block.go, types/encoding_helper.go and
    types/light.go.  A [nil] hash and an empty hash are not distinguished: the
    code uses [len] and [bytes.Equal] only.  The encodings of the wrapper
    messages of gogo/protobuf are the class [WrapperCodec]. *)
From Stdlib Require Import ZArith Lia Strings.Byte.
From stdpp Require Import base list strings.
From S2P Require Import Prelude.
From S2P Require Import Merkle.
From S2P Require Import Proto.
From S2P Require Import Validator.
From S2P Require Import Types.

(** [StringValue], [Int64Value] and [BytesValue] of gogo/protobuf: the encoding
    of a value that is not the zero value is not empty and determines it. *)
Class WrapperCodec := {
  StringValue_Marshal : bytes -> bytes;
  Int64Value_Marshal : Z -> bytes;
  BytesValue_Marshal : bytes -> bytes;
  StringValue_inj : forall a b, StringValue_Marshal a = StringValue_Marshal b -> a = b;
  StringValue_nonempty : forall a, a <> [] -> StringValue_Marshal a <> [];
  Int64Value_inj : forall a b, is_int64 a -> is_int64 b -> Int64Value_Marshal a = Int64Value_Marshal b -> a = b;
  Int64Value_nonempty : forall a, is_int64 a -> a <> 0 -> Int64Value_Marshal a <> [];
  BytesValue_inj : forall a b, BytesValue_Marshal a = BytesValue_Marshal b -> a = b;
  BytesValue_nonempty : forall a, a <> [] -> BytesValue_Marshal a <> []
}.

Section cdc.
Context `{!WrapperCodec}.
(** [cdcEncode] at the three types the header uses; empty values give nil. *)
Definition cdcEncode_string (s : bytes) : bytes := if len s =? 0 then [] else StringValue_Marshal s.
Definition cdcEncode_int64 (z : Z) : bytes := if z =? 0 then [] else Int64Value_Marshal z.
Definition cdcEncode_bytes (b : bytes) : bytes := if len b =? 0 then [] else BytesValue_Marshal b.
End cdc.

(** ** The header *)

Record Consensus := mkConsensus { ver_Block : Z; ver_App : Z }.
#[export] Instance Consensus_eq_dec : EqDecision Consensus.
Proof. solve_decision. Defined.
Definition BlockProtocol : Z := 11.
Definition MaxChainIDLen : Z := 50.
(** [Consensus.ToProto] and the marshaller of proto/tendermint/version. *)
Definition Consensus_Marshal (v : Consensus) : bytes := varint_field x08 (ver_Block v) ++ varint_field x10 (ver_App v).

Record Header := mkHeader {
  h_Version : Consensus;
  h_ChainID : ChainID;
  h_Height : Z;
  h_Time : Time;
  h_LastBlockID : BlockID;
  h_LastCommitHash : bytes;
  h_DataHash : bytes;
  h_ValidatorsHash : bytes;
  h_NextValidatorsHash : bytes;
  h_ConsensusHash : bytes;
  h_AppHash : bytes;
  h_LastResultsHash : bytes;
  h_EvidenceHash : bytes;
  h_ProposerAddress : bytes
}.
#[export] Instance Header_eq_dec : EqDecision Header.
Proof. solve_decision. Defined.

Inductive HeaderError :=
  | ErrBlockProtocol | ErrChainIDTooLong | ErrHeaderNegativeHeight | ErrZeroHeight
  | ErrLastBlockID (e : TypeError) | ErrLastCommitHash | ErrDataHash | ErrEvidenceHash
  | ErrProposerAddress | ErrValidatorsHash | ErrNextValidatorsHash | ErrConsensusHash | ErrLastResultsHash.

Definition Header_ValidateBasic (h : Header) : outcome HeaderError unit :=
  _ ← fail_if (negb (ver_Block (h_Version h) =? BlockProtocol)) ErrBlockProtocol;
  _ ← fail_if (len (h_ChainID h) >? MaxChainIDLen) ErrChainIDTooLong;
  _ ← fail_if (h_Height h <? 0) ErrHeaderNegativeHeight;
  _ ← fail_if (h_Height h =? 0) ErrZeroHeight;
  _ ← wrap_err ErrLastBlockID (BlockID_ValidateBasic (h_LastBlockID h));
  _ ← wrap_err (fun _ => ErrLastCommitHash) (ValidateHash (h_LastCommitHash h));
  _ ← wrap_err (fun _ => ErrDataHash) (ValidateHash (h_DataHash h));
  _ ← wrap_err (fun _ => ErrEvidenceHash) (ValidateHash (h_EvidenceHash h));
  _ ← fail_if (negb (len (h_ProposerAddress h) =? AddressSize)) ErrProposerAddress;
  _ ← wrap_err (fun _ => ErrValidatorsHash) (ValidateHash (h_ValidatorsHash h));
  _ ← wrap_err (fun _ => ErrNextValidatorsHash) (ValidateHash (h_NextValidatorsHash h));
  _ ← wrap_err (fun _ => ErrConsensusHash) (ValidateHash (h_ConsensusHash h));
  wrap_err (fun _ => ErrLastResultsHash) (ValidateHash (h_LastResultsHash h)).

(** [Header.Populate]. *)
Definition Header_Populate (h : Header) (version : Consensus) (chainID : ChainID) (timestamp : Time) (lastBlockID : BlockID)
    (valHash nextValHash consensusHash appHash lastResultsHash proposerAddress : bytes) : Header :=
  mkHeader version chainID (h_Height h) timestamp lastBlockID (h_LastCommitHash h) (h_DataHash h) valHash nextValHash
    consensusHash appHash lastResultsHash (h_EvidenceHash h) proposerAddress.

Section hash.
Context `{!Sha256, !TimeCodec, !WrapperCodec}.

(** The leaves of the header's Merkle tree; the block ID is encoded as the
    canonical one is. *)
Definition header_items (h : Header) (pbt : bytes) : list bytes :=
  [Consensus_Marshal (h_Version h); cdcEncode_string (h_ChainID h); cdcEncode_int64 (h_Height h); pbt;
   CanonicalBlockID_Marshal (h_LastBlockID h); cdcEncode_bytes (h_LastCommitHash h); cdcEncode_bytes (h_DataHash h);
   cdcEncode_bytes (h_ValidatorsHash h); cdcEncode_bytes (h_NextValidatorsHash h); cdcEncode_bytes (h_ConsensusHash h);
   cdcEncode_bytes (h_AppHash h); cdcEncode_bytes (h_LastResultsHash h); cdcEncode_bytes (h_EvidenceHash h);
   cdcEncode_bytes (h_ProposerAddress h)].

Definition Header_Hash (h : Header) : go bytes :=
  if len (h_ValidatorsHash h) =? 0 then Val []
  else
    match StdTimeMarshal (h_Time h) with
    | None => Val []
    | Some pbt => HashFromByteSlices (header_items h pbt)
    end.

(** ** Signed headers and light blocks *)

(** Both pointers may be nil. *)
Record SignedHeader := mkSignedHeader { sh_Header : option Header; sh_Commit : option Commit }.
Record LightBlock := mkLightBlock { lb_SignedHeader : option SignedHeader; lb_ValidatorSet : option ValidatorSet }.

Inductive SignedHeaderError :=
  | ErrMissingHeader | ErrMissingCommit | ErrInvalidHeaderBasic (e : HeaderError) | ErrInvalidCommitBasic (e : TypeError)
  | ErrOtherChain | ErrCommitHeightMismatch | ErrCommitHashMismatch.

Definition SignedHeader_ValidateBasic (sh : SignedHeader) (chainID : ChainID) : outcome SignedHeaderError unit :=
  match sh_Header sh, sh_Commit sh with
  | None, _ => Fail ErrMissingHeader
  | _, None => Fail ErrMissingCommit
  | Some h, Some commit =>
      _ ← wrap_err ErrInvalidHeaderBasic (Header_ValidateBasic h);
      _ ← wrap_err ErrInvalidCommitBasic (Commit_ValidateBasic commit);
      _ ← fail_if (negb (bytes_equal (h_ChainID h) chainID)) ErrOtherChain;
      _ ← fail_if (negb (c_Height commit =? h_Height h)) ErrCommitHeightMismatch;
      hhash ← lift (Header_Hash h);
      fail_if (negb (bytes_equal hhash (bid_Hash (c_BlockID commit)))) ErrCommitHashMismatch
  end.

Inductive LightBlockError :=
  | ErrMissingSignedHeader | ErrMissingValidatorSet | ErrInvalidSignedHeader (e : SignedHeaderError)
  | ErrInvalidValidatorSet (e : ValidatorSetError) | ErrValidatorHashMismatch.

Definition LightBlock_ValidateBasic (lb : LightBlock) (chainID : ChainID) : outcome LightBlockError unit :=
  match lb_SignedHeader lb, lb_ValidatorSet lb with
  | None, _ => Fail ErrMissingSignedHeader
  | _, None => Fail ErrMissingValidatorSet
  | Some sh, Some vals =>
      _ ← wrap_err ErrInvalidSignedHeader (SignedHeader_ValidateBasic sh chainID);
      _ ← wrap_err ErrInvalidValidatorSet (ValidatorSet_ValidateBasic (Some vals));
      valSetHash ← lift (ValidatorSet_Hash vals);
      match sh_Header sh with
      | None => Panic "invalid memory address or nil pointer dereference"
      | Some h => fail_if (negb (bytes_equal (h_ValidatorsHash h) valSetHash)) ErrValidatorHashMismatch
      end
  end.
End hash.
