(* ===== verification/LightVerifier.v ===== *)
(** * light: verification of headers against a trusted header

    Models light/verifier.go.  Times and durations are nanoseconds. *)
From Stdlib Require Import ZArith Lia Strings.Byte.
From stdpp Require Import base list strings.
From S2P Require Import Prelude.
From S2P Require Import Merkle.
From S2P Require Import SafeMath.
From S2P Require Import Validator.
From S2P Require Import Types.
From S2P Require Import Validation.
From S2P Require Import Header.

Inductive InvalidHeader :=
  | InvBasic (e : SignedHeaderError) | InvHeader (e : HeaderError)
  | InvHeight | InvTime | InvFuture | InvValidatorsHash | InvNextValidators | InvCommit (e : CommitError)
  | InvChain | InvOlderTime | InvLastBlock.

Inductive LightError :=
  | ErrAdjacent | ErrNonAdjacent | ErrTrustLevel
  | ErrOldHeaderExpired (at_ now : Time)
  | ErrInvalidHeader (e : InvalidHeader)
  | ErrNewValSetCantBeTrusted (e : CommitError).

Definition DefaultTrustLevel : Fraction := mkFraction 1 3.

(** [h.Height] and the like through the embedded pointer. *)
Definition deref {E} (h : SignedHeader) : outcome E Header :=
  match sh_Header h with Some h => Val h | None => Panic "invalid memory address or nil pointer dereference" end.

Definition checkRequiredHeaderFields (h : Header) : go unit :=
  _ ← panic_if (h_Height h =? 0) "height in trusted header must be set (non zero";
  _ ← panic_if (h_Time h =? zero_time) "time in trusted header must be set";
  panic_if (len (h_ChainID h) =? 0) "chain ID in trusted header must be set".

Definition HeaderExpired (h : Header) (trustingPeriod now : Time) : bool :=
  let expirationTime := h_Time h + trustingPeriod in
  negb (expirationTime >? now).

(** The product is computed on [uint64]. *)
Definition ValidateTrustLevel (lvl : Fraction) : outcome LightError unit :=
  fail_if ((uint64 (Numerator lvl * 3) <? Denominator lvl) || (Numerator lvl >=? Denominator lvl) || (Denominator lvl =? 0))
    ErrTrustLevel.

Section verifier.
Context `{!Crypto, !BatchCrypto, !Sha256, !TimeCodec, !WrapperCodec}.

Definition verifyNewHeaderAndVals (untrustedHeader : SignedHeader) (untrustedVals : option ValidatorSet)
    (trusted : Header) (now maxClockDrift : Time) : outcome InvalidHeader unit :=
  _ ← wrap_err InvBasic (SignedHeader_ValidateBasic untrustedHeader (h_ChainID trusted));
  untrusted ← deref untrustedHeader;
  _ ← fail_if (h_Height untrusted <=? h_Height trusted) InvHeight;
  _ ← fail_if (negb (h_Time untrusted >? h_Time trusted)) InvTime;
  _ ← fail_if (negb (h_Time untrusted <? now + maxClockDrift)) InvFuture;
  match untrustedVals with
  | None => Panic "invalid memory address or nil pointer dereference"
  | Some vals =>
      vhash ← lift (ValidatorSet_Hash vals);
      fail_if (negb (bytes_equal (h_ValidatorsHash untrusted) vhash)) InvValidatorsHash
  end.

(** [untrustedVals.VerifyCommitLight(trustedHeader.ChainID, untrustedHeader.Commit.BlockID, ...)]. *)
Definition verify_new_commit (trusted untrusted : Header) (commit : option Commit) (untrustedVals : option ValidatorSet)
    : outcome LightError unit :=
  match commit with
  | None => Panic "invalid memory address or nil pointer dereference"
  | Some c =>
      wrap_err (fun e => ErrInvalidHeader (InvCommit e))
        (VerifyCommitLight (h_ChainID trusted) untrustedVals (c_BlockID c) (h_Height untrusted) (Some c))
  end.

Definition trusting_error (e : CommitError) : LightError :=
  match e with
  | ErrNotEnoughVotingPowerSigned _ _ => ErrNewValSetCantBeTrusted e
  | _ => ErrInvalidHeader (InvCommit e)
  end.

Definition VerifyNonAdjacent (trustedHeader : SignedHeader) (trustedVals : option ValidatorSet)
    (untrustedHeader : SignedHeader) (untrustedVals : option ValidatorSet)
    (trustingPeriod now maxClockDrift : Time) (trustLevel : Fraction) : outcome LightError unit :=
  trusted ← deref trustedHeader;
  _ ← lift (checkRequiredHeaderFields trusted);
  untrusted ← deref untrustedHeader;
  _ ← fail_if (h_Height untrusted =? int64 (h_Height trusted + 1)) ErrNonAdjacent;
  _ ← ValidateTrustLevel trustLevel;
  _ ← fail_if (HeaderExpired untrusted trustingPeriod now) (ErrOldHeaderExpired (h_Time untrusted + trustingPeriod) now);
  _ ← wrap_err ErrInvalidHeader (verifyNewHeaderAndVals untrustedHeader untrustedVals trusted now maxClockDrift);
  _ ← wrap_err trusting_error
        (VerifyCommitLightTrusting (h_ChainID trusted) trustedVals (sh_Commit untrustedHeader) trustLevel);
  verify_new_commit trusted untrusted (sh_Commit untrustedHeader) untrustedVals.

Definition VerifyAdjacent (trustedHeader untrustedHeader : SignedHeader) (untrustedVals : option ValidatorSet)
    (trustingPeriod now maxClockDrift : Time) : outcome LightError unit :=
  trusted ← deref trustedHeader;
  _ ← lift (checkRequiredHeaderFields trusted);
  _ ← panic_if (len (h_NextValidatorsHash trusted) =? 0) "next validators hash in trusted header is empty";
  untrusted ← deref untrustedHeader;
  _ ← fail_if (negb (h_Height untrusted =? int64 (h_Height trusted + 1))) ErrAdjacent;
  _ ← fail_if (HeaderExpired untrusted trustingPeriod now) (ErrOldHeaderExpired (h_Time untrusted + trustingPeriod) now);
  _ ← wrap_err ErrInvalidHeader (verifyNewHeaderAndVals untrustedHeader untrustedVals trusted now maxClockDrift);
  _ ← fail_if (negb (bytes_equal (h_ValidatorsHash untrusted) (h_NextValidatorsHash trusted)))
        (ErrInvalidHeader InvNextValidators);
  verify_new_commit trusted untrusted (sh_Commit untrustedHeader) untrustedVals.

Definition LightVerify (trustedHeader : SignedHeader) (trustedVals : option ValidatorSet)
    (untrustedHeader : SignedHeader) (untrustedVals : option ValidatorSet)
    (trustingPeriod now maxClockDrift : Time) (trustLevel : Fraction) : outcome LightError unit :=
  untrusted ← deref untrustedHeader;
  trusted ← deref trustedHeader;
  if negb (h_Height untrusted =? int64 (h_Height trusted + 1))
  then VerifyNonAdjacent trustedHeader trustedVals untrustedHeader untrustedVals trustingPeriod now maxClockDrift trustLevel
  else VerifyAdjacent trustedHeader untrustedHeader untrustedVals trustingPeriod now maxClockDrift.

Definition VerifyBackwards (untrustedHeader trustedHeader : Header) : outcome LightError unit :=
  _ ← wrap_err (fun e => ErrInvalidHeader (InvHeader e)) (Header_ValidateBasic untrustedHeader);
  _ ← fail_if (negb (bytes_equal (h_ChainID untrustedHeader) (h_ChainID trustedHeader))) (ErrInvalidHeader InvChain);
  _ ← fail_if (negb (h_Time untrustedHeader <? h_Time trustedHeader)) (ErrInvalidHeader InvOlderTime);
  hash ← lift (Header_Hash untrustedHeader);
  fail_if (negb (bytes_equal hash (bid_Hash (h_LastBlockID trustedHeader)))) (ErrInvalidHeader InvLastBlock).
End verifier.
