(* ===== verification/LightVerifierProofs.v ===== *)
(** * What an accepted header guarantees *)
From Stdlib Require Import ZArith Lia Strings.Byte.
From stdpp Require Import base list strings.
From S2P Require Import Prelude.
From S2P Require Import Merkle.
From S2P Require Import MerkleProofs.
From S2P Require Import SafeMath.
From S2P Require Import Proto.
From S2P Require Import Validator.
From S2P Require Import ProposerProofs.
From S2P Require Import ValidatorUpdateProofs.
From S2P Require Import ValidatorSetProofs.
From S2P Require Import Types.
From S2P Require Import SignBytesProofs.
From S2P Require Import Validation.
From S2P Require Import ValidationProofs.
From S2P Require Import Header.
From S2P Require Import LightVerifier.

(** ** The hash of a header determines the header *)

Definition header_sized (h : Header) : Prop :=
  is_uint64 (ver_Block (h_Version h)) /\ is_uint64 (ver_App (h_Version h)) /\ is_int64 (h_Height h) /\
  blockid_sized (h_LastBlockID h).

Section cdc.
Context `{!WrapperCodec}.
Lemma cdcEncode_string_inj a b : cdcEncode_string a = cdcEncode_string b -> a = b.
Proof.
  unfold cdcEncode_string. intros Heq. destruct (decide (a = [])) as [->|Ha], (decide (b = [])) as [->|Hb]; try done.
  - destruct b; [done|]. simpl in Heq. by destruct (StringValue_nonempty _ Hb).
  - destruct a; [done|]. simpl in Heq. by destruct (StringValue_nonempty _ Ha).
  - destruct a, b; try done. by apply StringValue_inj.
Qed.
Lemma cdcEncode_bytes_inj a b : cdcEncode_bytes a = cdcEncode_bytes b -> a = b.
Proof.
  unfold cdcEncode_bytes. intros Heq. destruct (decide (a = [])) as [->|Ha], (decide (b = [])) as [->|Hb]; try done.
  - destruct b; [done|]. simpl in Heq. by destruct (BytesValue_nonempty _ Hb).
  - destruct a; [done|]. simpl in Heq. by destruct (BytesValue_nonempty _ Ha).
  - destruct a, b; try done. by apply BytesValue_inj.
Qed.
Lemma cdcEncode_int64_inj a b : is_int64 a -> is_int64 b -> cdcEncode_int64 a = cdcEncode_int64 b -> a = b.
Proof.
  unfold cdcEncode_int64. intros Ha Hb. destruct (Z.eqb_spec a 0) as [->|Hna], (Z.eqb_spec b 0) as [->|Hnb]; intros Heq; try done.
  - by destruct (Int64Value_nonempty _ Hb Hnb).
  - by destruct (Int64Value_nonempty _ Ha Hna).
  - by apply Int64Value_inj.
Qed.

Lemma Consensus_Marshal_inj a b :
  is_uint64 (ver_Block a) -> is_uint64 (ver_App a) -> is_uint64 (ver_Block b) -> is_uint64 (ver_App b) ->
  Consensus_Marshal a = Consensus_Marshal b -> a = b.
Proof.
  intros Ha Ha' Hb Hb' Heq. unfold Consensus_Marshal in Heq. destruct a as [a1 a2], b as [b1 b2]. simpl in *.
  assert (Huv : forall tag x y r s, is_uint64 x -> is_uint64 y -> ~ starts tag r -> ~ starts tag s ->
    varint_field tag x ++ r = varint_field tag y ++ s -> x = y /\ r = s).
  { clear. intros tag x y r s Hx Hy Hr Hs. unfold varint_field. rewrite !uint64_id by done.
    destruct (Z.eqb_spec x 0) as [->|], (Z.eqb_spec y 0) as [->|]; cbn [app]; intros Heq.
    - done.
    - by destruct Hr; rewrite Heq.
    - by destruct Hs; rewrite <- Heq.
    - apply (f_equal tail) in Heq. cbn [tail] in Heq. by apply uvarint_inj in Heq. }
  apply Huv in Heq as [-> Heq]; [|done|done|no_tag|no_tag].
  apply (f_equal (fun l => l ++ [])) in Heq. by apply Huv in Heq as [-> _]; [|done|done|by unfold starts|by unfold starts].
Qed.
End cdc.

Section hash.
Context `{!Sha256, !TimeCodec, !WrapperCodec}.

Lemma header_items_inj a b ta tb :
  header_sized a -> header_sized b -> StdTimeMarshal (h_Time a) = Some ta -> StdTimeMarshal (h_Time b) = Some tb ->
  header_items a ta = header_items b tb -> a = b.
Proof.
  intros (Ha1 & Ha2 & Ha3 & Ha4) (Hb1 & Hb2 & Hb3 & Hb4) Hta Htb Heq.
  destruct a as [a1 a2 a3 a4 a5 a6 a7 a8 a9 a10 a11 a12 a13 a14], b as [b1 b2 b3 b4 b5 b6 b7 b8 b9 b10 b11 b12 b13 b14].
  unfold header_items in Heq.
  cbn [h_Version h_ChainID h_Height h_Time h_LastBlockID h_LastCommitHash h_DataHash h_ValidatorsHash h_NextValidatorsHash
    h_ConsensusHash h_AppHash h_LastResultsHash h_EvidenceHash h_ProposerAddress] in *.
  injection Heq as J1 J2 J3 J4 J5 J6 J7 J8 J9 J10 J11 J12 J13 J14. subst tb.
  pose proof (StdTimeMarshal_inj _ _ _ Hta Htb) as Ht.
  apply Consensus_Marshal_inj in J1; [|done..]. apply cdcEncode_string_inj in J2. apply cdcEncode_int64_inj in J3; [|done..].
  apply CanonicalBlockID_Marshal_inj in J5; [|done..].
  repeat match goal with H : cdcEncode_bytes _ = cdcEncode_bytes _ |- _ => apply cdcEncode_bytes_inj in H end.
  by subst.
Qed.

(** The tree of a header's fields. *)
Definition header_tree (h : Header) : list bytes :=
  match StdTimeMarshal (h_Time h) with Some t => header_items h t | None => [] end.

Lemma Header_Hash_binding a b x :
  header_sized a -> header_sized b -> Header_Hash a = Val x -> Header_Hash b = Val x -> x <> [] ->
  a = b \/ hash_collision (items_inputs (header_tree a)) (items_inputs (header_tree b)).
Proof.
  intros Ha Hb. unfold Header_Hash, header_tree.
  assert (Hnil : forall P : Prop, Val (E := Empty_set) [] = Val x -> x <> [] -> P).
  { intros P Hx%Val_inj Hne. destruct Hne. symmetry. exact Hx. }
  destruct (_ =? _); [intros Hx _ Hne; exact (Hnil _ Hx Hne)|].
  destruct (StdTimeMarshal (h_Time a)) as [ta|] eqn:Hta; [|intros Hx _ Hne; exact (Hnil _ Hx Hne)]. intros Hxa.
  destruct (len (h_ValidatorsHash b) =? 0); [apply Hnil|].
  destruct (StdTimeMarshal (h_Time b)) as [tb|] eqn:Htb; [|apply Hnil]. intros Hxb _.
  destruct (HashFromByteSlices_binding (header_items a ta) (header_items b tb)) as [Heq|Hc];
    [done|done|by rewrite Hxa, Hxb| |right; exact Hc].
  left. by eapply header_items_inj.
Qed.

(** The hash of a header binds all its fields.  Two headers with the
    same non-empty hash are equal, or the two Merkle trees of their fields
    exhibit a SHA-256 collision. *)
Theorem header_hash_binding a b x :
  header_sized a -> header_sized b -> Header_Hash a = Val x -> Header_Hash b = Val x -> x <> [] ->
  a = b \/ hash_collision (items_inputs (header_tree a)) (items_inputs (header_tree b)).
Proof. apply Header_Hash_binding. Qed.
End hash.

(** ** Trust levels *)

Lemma trust_level_sound n d : is_uint64 n -> ValidateTrustLevel (mkFraction n d) = Val tt -> d <= 3 * n /\ n < d.
Proof.
  intros Hn. unfold ValidateTrustLevel. cbn [Numerator Denominator]. rewrite fail_if_val.
  intros [[J1 J2]%orb_false_iff J3]%orb_false_iff. z_bool. split; [|lia].
  unfold uint64, wrap_unsigned in J1. pose proof (Z.mod_le (n * 3) (2 ^ 64)). int_lia.
Qed.

(** The trust levels accepted lie between one third and one: no level
    below 1/3 or at least 1 passes, and every level in the range passes when
    three times its numerator fits 64 bits. *)
Theorem trust_level_range n d :
  is_uint64 n -> is_uint64 d ->
  (ValidateTrustLevel (mkFraction n d) = Val tt -> d <= 3 * n /\ n < d) /\
  (3 * n <= MaxUint64 -> 0 < d -> d <= 3 * n -> n < d -> ValidateTrustLevel (mkFraction n d) = Val tt).
Proof.
  intros Hn Hd. split; [by apply trust_level_sound|].
  unfold ValidateTrustLevel. cbn [Numerator Denominator]. rewrite fail_if_val.
  intros Hfit Hpos Hlo Hhi. rewrite uint64_id by int_lia. z_cases; done.
Qed.

(** ** Acceptance *)

Section accept.
Context `{!Crypto, !BatchCrypto, !BatchLaws, !Sha256, !TimeCodec, !WrapperCodec}.

(** What [SignedHeader.ValidateBasic] and the checks against the trusted header
    establish for a new header and its commit. *)
Record linked (t u : Header) (c : Commit) (vals : ValidatorSet) (trustingPeriod now drift : Time) : Prop := {
  lk_basic : Header_ValidateBasic u = Val tt;
  lk_chain : h_ChainID u = h_ChainID t;
  lk_height : h_Height t < h_Height u;
  lk_time : h_Time t < h_Time u;
  lk_future : h_Time u < now + drift;
  lk_fresh : now < h_Time u + trustingPeriod;
  lk_commit_height : c_Height c = h_Height u;
  lk_commit_hash : Header_Hash u = Val (bid_Hash (c_BlockID c));
  lk_vals : ValidatorSet_Hash vals = Val (h_ValidatorsHash u)
}.

Lemma verifyNewHeaderAndVals_val ush uvals t now drift :
  verifyNewHeaderAndVals ush uvals t now drift = Val tt ->
  exists u c vals, sh_Header ush = Some u /\ sh_Commit ush = Some c /\ uvals = Some vals /\
    forall p, HeaderExpired u p now = false -> linked t u c vals p now drift.
Proof.
  unfold verifyNewHeaderAndVals, SignedHeader_ValidateBasic, deref.
  destruct (sh_Header ush) as [u|]; [|done]. destruct (sh_Commit ush) as [c|]; [|done].
  intros Hv. inv_val. destruct uvals as [vals|]; [|done]. inv_val.
  repeat match goal with H : bytes_equal ?a ?b = true |- _ => destruct (bytes_equal_spec a b); [clear H|done] end. z_bool.
  eexists _, c, vals. split; [reflexivity|]. split_and!; [done..|]. intros p Hp. unfold HeaderExpired in Hp. inv_val. z_bool.
  split; try congruence; try done; lia.
Qed.

Lemma verify_new_commit_val t u c vals :
  wf_set vals -> len (c_Signatures c) <= MaxInt32 ->
  verify_new_commit t u (Some c) (Some vals) = Val tt -> 2 * total vals < 3 * signed_power (h_ChainID t) vals c.
Proof.
  intros Hwf Hl Hv. unfold verify_new_commit in Hv. apply wrap_err_val in Hv.
  by destruct (verified_two_thirds (h_ChainID t) vals c (c_BlockID c) (h_Height u) Hwf Hl (or_intror Hv)) as (_ & _ & ?).
Qed.

Lemma VerifyAdjacent_val tsh ush uvals p now drift :
  VerifyAdjacent tsh ush uvals p now drift = Val tt ->
  exists t u c vals, sh_Header tsh = Some t /\ sh_Header ush = Some u /\ sh_Commit ush = Some c /\ uvals = Some vals /\
    linked t u c vals p now drift /\ h_Height u = int64 (h_Height t + 1) /\ h_ValidatorsHash u = h_NextValidatorsHash t /\
    verify_new_commit t u (Some c) (Some vals) = Val tt.
Proof.
  unfold VerifyAdjacent, deref. destruct (sh_Header tsh) as [t|]; [|done]. intros Hv.
  apply bind_val in Hv as (t' & [= <-] & Hv). apply bind_val in Hv as ([] & _ & Hv). apply bind_val in Hv as ([] & _ & Hv).
  destruct (sh_Header ush) as [u|] eqn:Hu; [|done]. apply bind_val in Hv as (u' & [= <-] & Hv).
  apply bind_val in Hv as ([] & Hadj%fail_if_val & Hv). apply bind_val in Hv as ([] & Hexp%fail_if_val & Hv).
  apply bind_val in Hv as ([] & Hnew%wrap_err_val & Hv). apply bind_val in Hv as ([] & Hnext%fail_if_val & Hv).
  apply verifyNewHeaderAndVals_val in Hnew as (u' & c & vals & [= <-]%(eq_trans (eq_sym Hu)) & Hc & -> & Hlink).
  apply negb_false_iff in Hadj, Hnext. z_bool. rewrite Hc in Hv.
  destruct (bytes_equal_spec (h_ValidatorsHash u) (h_NextValidatorsHash t)); [|done].
  exists t, u, c, vals. split_and!; try done. by apply Hlink.
Qed.

Lemma VerifyNonAdjacent_val tsh tvals ush uvals p now drift lvl :
  VerifyNonAdjacent tsh tvals ush uvals p now drift lvl = Val tt ->
  exists t u c vals, sh_Header tsh = Some t /\ sh_Header ush = Some u /\ sh_Commit ush = Some c /\ uvals = Some vals /\
    linked t u c vals p now drift /\ ValidateTrustLevel lvl = Val tt /\
    VerifyCommitLightTrusting (h_ChainID t) tvals (Some c) lvl = Val tt /\
    verify_new_commit t u (Some c) (Some vals) = Val tt.
Proof.
  unfold VerifyNonAdjacent, deref. destruct (sh_Header tsh) as [t|]; [|done]. intros Hv.
  apply bind_val in Hv as (t' & [= <-] & Hv). apply bind_val in Hv as ([] & _ & Hv).
  destruct (sh_Header ush) as [u|] eqn:Hu; [|done]. apply bind_val in Hv as (u' & [= <-] & Hv).
  apply bind_val in Hv as ([] & _ & Hv). apply bind_val in Hv as ([] & Hlvl & Hv).
  apply bind_val in Hv as ([] & Hexp%fail_if_val & Hv).
  apply bind_val in Hv as ([] & Hnew%wrap_err_val & Hv). apply bind_val in Hv as ([] & Htr%wrap_err_val & Hv).
  apply verifyNewHeaderAndVals_val in Hnew as (u' & c & vals & [= <-]%(eq_trans (eq_sym Hu)) & Hc & -> & Hlink).
  rewrite Hc in Hv, Htr. exists t, u, c, vals. split_and!; try done. by apply Hlink.
Qed.

(** C7: what it takes for the light client to accept a header.  The header
    is well-formed, of the trusted chain, at a later height and time than the
    trusted one, not from the future and not expired; its hash is the block the
    commit is for; the validators given are those it names; and validators with
    more than two thirds of their power signed it.  At the next height the header
    names the validators the trusted header announced; otherwise trusted
    validators with more than the trust level's share of the power, at least one
    third, signed it. *)
Theorem light_header_accepted tsh tvals ush uvals p now drift n d :
  is_uint64 n -> is_uint64 d -> d <= MaxInt64 ->
  (forall vals, uvals = Some vals \/ tvals = Some vals -> wf_set vals /\ len (Validators vals) <= MaxInt32) ->
  (forall c, sh_Commit ush = Some c -> len (c_Signatures c) <= MaxInt32) ->
  LightVerify tsh tvals ush uvals p now drift (mkFraction n d) = Val tt ->
  exists t u c vals, sh_Header tsh = Some t /\ sh_Header ush = Some u /\ sh_Commit ush = Some c /\ uvals = Some vals /\
    linked t u c vals p now drift /\
    2 * total vals < 3 * signed_power (h_ChainID t) vals c /\
    (if h_Height u =? int64 (h_Height t + 1) then h_ValidatorsHash u = h_NextValidatorsHash t
     else exists tv, tvals = Some tv /\ n * total tv < d * trusted_power (h_ChainID t) tv c /\ d <= 3 * n < 3 * d).
Proof.
  intros Hn Hd Hd63 Hvals Hsigs Hv. unfold LightVerify, deref in Hv.
  destruct (sh_Header ush) as [u|] eqn:Hu; [|done]. apply bind_val in Hv as (u' & [= <-] & Hv).
  destruct (sh_Header tsh) as [t|] eqn:Ht; [|done]. apply bind_val in Hv as (t' & [= <-] & Hv).
  destruct (h_Height u =? int64 (h_Height t + 1)) eqn:Hadj; simpl in Hv.
  - apply VerifyAdjacent_val in Hv as (t' & u' & c & vals & Ht' & Hu' & Hc & -> & Hlink & _ & Hnext & Hcommit).
    assert (t' = t) as -> by congruence. assert (u' = u) as -> by congruence. exists t, u, c, vals. rewrite Hadj. destruct (Hvals vals) as [Hwf _]; [by left|].
    split_and!; try done. apply (verify_new_commit_val t u); auto.
  - apply VerifyNonAdjacent_val in Hv as (t' & u' & c & vals & Ht' & Hu' & Hc & -> & Hlink & Hlvl & Htrust & Hcommit).
    assert (t' = t) as -> by congruence. assert (u' = u) as -> by congruence. exists t, u, c, vals. rewrite Hadj. destruct (Hvals vals) as [Hwf _]; [by left|].
    split_and!; try done; [apply (verify_new_commit_val t u); auto|].
    destruct tvals as [tv|]; [|done]. exists tv. destruct (Hvals tv) as [Hwt Hlt]; [by right|].
    pose proof (trust_level_sound n d Hn Hlvl). split; [done|]. split; [|lia].
    apply trusting_sound; auto; int_lia.
Qed.

(** ** Forks are attributable *)

(** The validator [v] at index [i] validly signed the commit's block. *)
Definition signer (cid : ChainID) (c : Commit) (i : nat) (v : Validator) : bool :=
  match c_Signatures c !! i with
  | Some cs => ForBlock cs && sig_ok cid c (Z.of_nat i) cs v
  | None => false
  end.
(** The power of the validators of a list, by index, that satisfy [P]. *)
Definition power_where (P : nat -> Validator -> bool) (l : list Validator) : Z :=
  sumZ (fun '(i, v) => if P i v then VotingPower v else 0) (imap pair l).

Lemma power_where_cons P v l :
  power_where P (v :: l) = (if P 0%nat v then VotingPower v else 0) + power_where (fun i => P (S i)) l.
Proof.
  unfold power_where. cbn [imap]. unfold sumZ at 1. cbn [foldr]. f_equal.
  change (foldr _ 0 _) with (sumZ (fun '(i, v) => if P i v then VotingPower v else 0) (imap (pair ∘ S) l)).
  assert (Hm : imap (pair ∘ S) l = (fun '(i, v) => (S i, v)) <$> imap pair l) by (by rewrite fmap_imap).
  rewrite Hm, sumZ_map. apply sumZ_ext, Forall_forall. by intros [j w] _.
Qed.

Lemma power_where_overlap P Q l :
  Forall (fun v => 0 < VotingPower v) l ->
  power_where P l + power_where Q l <= power_where (fun i v => P i v && Q i v) l + sumZ VotingPower l.
Proof.
  intros Hl. revert P Q. induction Hl as [|v l Hv Hl IH]; intros P Q; [done|].
  rewrite !power_where_cons. specialize (IH (fun i => P (S i)) (fun i => Q (S i))).
  change (sumZ VotingPower (v :: l)) with (VotingPower v + sumZ VotingPower l). cbv beta in *. destruct (P 0%nat v), (Q 0%nat v); simpl; lia.
Qed.

(** Signing depends on the key and the power only. *)
Lemma power_where_keys P l l' :
  (forall i v v', PubKey_ v = PubKey_ v' -> P i v = P i v') ->
  (fun v => (PubKey_ v, VotingPower v)) <$> l = (fun v => (PubKey_ v, VotingPower v)) <$> l' ->
  power_where P l = power_where P l'.
Proof.
  revert P l'. induction l as [|v l IH]; intros P [|v' l'] HP Heq; try done. rewrite !fmap_cons in Heq.
  injection Heq as Hk Hp Heq. rewrite !power_where_cons, (HP 0%nat v v' Hk), Hp. f_equal. apply IH; [|done].
  intros i w w' Hw. by apply HP.
Qed.

Lemma power_where_none P l : (forall i v, P i v = false) -> power_where P l = 0.
Proof.
  intros HP. unfold power_where. rewrite (sumZ_ext _ (fun _ => 0)); [rewrite sumZ_const; lia|].
  apply Forall_forall. intros [i v] _. by rewrite HP.
Qed.

Lemma tally_power_where cid c k sigs l :
  sigs = drop k (c_Signatures c) ->
  tally (fun idx cs v => ForBlock cs && sig_ok cid c idx cs v) (Z.of_nat k) sigs l =
  power_where (fun i v => signer cid c (k + i) v) l.
Proof.
  revert k sigs. induction l as [|v l IH]; intros k sigs ->; [by destruct (drop k _)|].
  rewrite power_where_cons, Nat.add_0_r. unfold signer at 1.
  destruct (c_Signatures c !! k) as [cs|] eqn:Hk.
  - rewrite (drop_S _ _ _ Hk). cbn [tally]. f_equal. replace (Z.of_nat k + 1) with (Z.of_nat (S k)) by lia.
    rewrite (IH (S k)) by done. unfold power_where. apply sumZ_ext, Forall_forall. intros [i w] _.
    by replace (S k + i)%nat with (k + S i)%nat by lia.
  - rewrite drop_ge by (by apply lookup_ge_None). rewrite power_where_none; [done|]. intros i w. unfold signer.
    rewrite lookup_ge_None_2; [done|]. apply lookup_ge_None in Hk. lia.
Qed.

Lemma signed_power_where cid vals c : signed_power cid vals c = power_where (signer cid c) (Validators vals).
Proof. unfold signed_power. by rewrite (tally_power_where cid c 0). Qed.

Lemma signer_key cid c i v v' : PubKey_ v = PubKey_ v' -> signer cid c i v = signer cid c i v'.
Proof. intros Hk. unfold signer, sig_ok. by rewrite Hk. Qed.

(** C35: accountability of forks seen by the light client.  If two signed
    headers are accepted for the height after one trusted header, then their
    validator sets have the same keys and powers, of which more than one third
    validly signed the blocks of both commits (so that a fork has authors),
    unless the trees of the sets exhibit a SHA-256 collision. *)
Theorem light_fork_accountable tsh ush1 ush2 vals1 vals2 c1 c2 p1 now1 d1 p2 now2 d2 :
  (forall vals, vals = vals1 \/ vals = vals2 ->
     wf_set vals /\ Forall key_ok (Validators vals) /\ len (Validators vals) <= MaxInt32) ->
  sh_Commit ush1 = Some c1 -> sh_Commit ush2 = Some c2 ->
  len (c_Signatures c1) <= MaxInt32 -> len (c_Signatures c2) <= MaxInt32 ->
  VerifyAdjacent tsh ush1 (Some vals1) p1 now1 d1 = Val tt ->
  VerifyAdjacent tsh ush2 (Some vals2) p2 now2 d2 = Val tt ->
  c_Height c1 = c_Height c2 /\
  (((fun v => (PubKey_ v, VotingPower v)) <$> Validators vals1 = (fun v => (PubKey_ v, VotingPower v)) <$> Validators vals2 /\
    exists cid, total vals1 < 3 * power_where (fun i v => signer cid c1 i v && signer cid c2 i v) (Validators vals1)) \/
   exists xs ys, validators_bytes (Validators vals1) = Val xs /\ validators_bytes (Validators vals2) = Val ys /\
     hash_collision (items_inputs xs) (items_inputs ys)).
Proof.
  intros Hsets Hc1 Hc2 Hl1 Hl2 Hv1 Hv2.
  destruct (Hsets vals1) as (Hwf1 & Hk1 & Hn1); [by left|]. destruct (Hsets vals2) as (Hwf2 & Hk2 & Hn2); [by right|].
  apply VerifyAdjacent_val in Hv1 as (t & u1 & c1' & v1 & Ht & _ & Hc1' & [= <-] & Hlink1 & Hh1 & Hnext1 & Hcom1).
  apply VerifyAdjacent_val in Hv2 as (t' & u2 & c2' & v2 & Ht' & _ & Hc2' & [= <-] & Hlink2 & Hh2 & Hnext2 & Hcom2).
  assert (t' = t) as -> by congruence. assert (c1' = c1) as -> by congruence. assert (c2' = c2) as -> by congruence.
  split. { rewrite (lk_commit_height _ _ _ _ _ _ _ Hlink1), (lk_commit_height _ _ _ _ _ _ _ Hlink2). congruence. }
  apply verify_new_commit_val in Hcom1, Hcom2; [|done..].
  destruct (ValidatorSet_Hash_binding vals1 vals2 (h_NextValidatorsHash t)) as [Hkeys|Hcol]; [done|done|int_lia|int_lia|..].
  - rewrite <- Hnext1. apply Hlink1.
  - rewrite <- Hnext2. apply Hlink2.
  - left. split; [done|]. exists (h_ChainID t). rewrite signed_power_where in Hcom1, Hcom2.
    rewrite <- (power_where_keys (signer (h_ChainID t) c2) (Validators vals1) (Validators vals2)) in Hcom2
      by (done || intros; by apply signer_key).
    assert (Htot : total vals2 = total vals1).
    { rewrite <- !(sumZ_map (fun v => (PubKey_ v, VotingPower v)) snd). by rewrite Hkeys. }
    pose proof (power_where_overlap (signer (h_ChainID t) c1) (signer (h_ChainID t) c2) _ (wf_power _ Hwf1)).
    lia.
  - right. done.
Qed.

(** Verifying backwards follows the chain of hashes: two headers
    accepted as the predecessor of one trusted header are equal, or the trees of
    their fields exhibit a SHA-256 collision. *)
Theorem backwards_unique t a b :
  header_sized a -> header_sized b -> bid_Hash (h_LastBlockID t) <> [] ->
  VerifyBackwards a t = Val tt -> VerifyBackwards b t = Val tt ->
  (a = b \/ hash_collision (items_inputs (header_tree a)) (items_inputs (header_tree b))) /\
  h_ChainID a = h_ChainID t /\ h_Time a < h_Time t /\ Header_Hash a = Val (bid_Hash (h_LastBlockID t)).
Proof.
  intros Ha Hb Hne. assert (Hlink : forall u, VerifyBackwards u t = Val tt ->
    h_ChainID u = h_ChainID t /\ h_Time u < h_Time t /\ Header_Hash u = Val (bid_Hash (h_LastBlockID t))).
  { intros u Hv. unfold VerifyBackwards in Hv. inv_val.
    repeat match goal with H : bytes_equal ?a ?b = true |- _ => destruct (bytes_equal_spec a b); [clear H|done] end. z_bool.
    subst. done. }
  intros Hva%Hlink Hvb%Hlink. split; [|done].
  apply (Header_Hash_binding a b (bid_Hash (h_LastBlockID t))); [done|done|apply Hva|apply Hvb|done].
Qed.
End accept.

(** ** Concrete headers *)

Lemma toy_int64_inj a b : is_int64 a -> is_int64 b -> x08 :: uvarint (uint64 a) = x08 :: uvarint (uint64 b) -> a = b.
Proof.
  intros Ha Hb Heq. apply (f_equal (fun l => tail l ++ [])) in Heq. cbn [tail] in Heq.
  apply uvarint_inj in Heq as [Heq _]; [|apply uint64_range..]. by apply uint64_inj.
Qed.
Definition toy_wrappers : WrapperCodec.
Proof.
  refine {| StringValue_Marshal := cons x0a; BytesValue_Marshal := cons x0a;
            Int64Value_Marshal := fun z => x08 :: uvarint (uint64 z) |};
    [by intros ?? [= ->]|done|apply toy_int64_inj|done|by intros ?? [= ->]|done].
Defined.
(** Signatures of 33 bytes: the first byte of the key and a digest of the message. *)
Definition digest_verify (pk : PubKey) (msg sig : bytes) : bool := bytes_equal sig (take 1 (pk_Bytes pk) ++ toy_digest msg).
Definition digest_crypto : Crypto := {| pk_Address := fun pk => take 20 (pk_Bytes pk); VerifySignature := digest_verify |}.
Definition digest_batch : BatchCrypto :=
  {| decodable := fun _ _ => true;
     BatchVerify := fun es => (forallb (fun '(pk, msg, sig) => digest_verify pk msg sig) es,
                               (fun '(pk, msg, sig) => digest_verify pk msg sig) <$> es) |}.
Lemma digest_laws : @BatchLaws digest_crypto digest_batch.
Proof.
  split; [done|]. intros es. simpl. induction es as [|[[pk m] s] es IH]; [done|].
  rewrite fmap_cons. cbn [forallb id]. by rewrite IH.
Qed.
#[local] Existing Instances digest_crypto digest_batch digest_laws toy_sha256 toy_time toy_wrappers.

Definition sample_vals_hash : bytes := match ValidatorSet_Hash sample_set with Val h => h | _ => [] end.
Definition sample_header (height time : Z) (data : byte) : Header :=
  mkHeader (mkConsensus BlockProtocol (Z.of_N (Byte.to_N data))) [x61] height time (sample_blockid x07) [] (replicate 32 data) sample_vals_hash
    sample_vals_hash [] [] [] [] (replicate 20 x03).
Definition header_hash_of (h : Header) : bytes := match Header_Hash h with Val x => x | _ => [] end.
(** The commit of the first two of the three sample validators. *)
Definition sign_for (bid : BlockID) (height i : Z) (b : byte) : CommitSig :=
  match VoteSignBytes [x61] (mkVote PrecommitType height 1 bid 77 (replicate 20 b) i []) with
  | Val bz => mkCommitSig BlockIDFlagCommit (replicate 20 b) 77 (b :: toy_digest bz)
  | _ => NewCommitSigAbsent
  end.
Definition sample_commit_for (height time : Z) (data : byte) : Commit :=
  let bid := mkBlockID (header_hash_of (sample_header height time data)) (mkPartSetHeader 1 (replicate 32 data)) in
  mkCommit height 1 bid [sign_for bid height 0 x03; sign_for bid height 1 x02; NewCommitSigAbsent].
Definition sample_signed_header (height time : Z) (data : byte) : SignedHeader :=
  mkSignedHeader (Some (sample_header height time data)) (Some (sample_commit_for height time data)).

Definition sample_trusted : SignedHeader := sample_signed_header 4 70 x01.

Lemma some_either {A} (a b : A) : Some a = Some b \/ Some a = Some b -> b = a.
Proof. by intros [[= ->]|[= ->]]. Qed.
Lemma sample_set_good vals :
  vals = sample_set -> wf_set vals /\ Forall key_ok (Validators vals) /\ len (Validators vals) <= MaxInt32.
Proof.
  intros ->. split; [exact (reachable_invariant _ sample_reachable)|]. split; [|vm_compute; discriminate].
  apply key_okb_spec. vm_compute. reflexivity.
Qed.

Lemma header_hash_binding_witness :
  header_hash_of (sample_header 5 77 x01) <> [] /\
  (sample_header 5 77 x01 = sample_header 5 77 x01 \/
   hash_collision (items_inputs (header_tree (sample_header 5 77 x01))) (items_inputs (header_tree (sample_header 5 77 x01)))).
Proof.
  split; [vm_compute; discriminate|].
  apply (header_hash_binding _ _ (header_hash_of (sample_header 5 77 x01))).
  - vm_compute. repeat split; discriminate.
  - vm_compute. repeat split; discriminate.
  - vm_compute. reflexivity.
  - vm_compute. reflexivity.
  - vm_compute. discriminate.
Defined.

Lemma trust_level_range_witness : ValidateTrustLevel DefaultTrustLevel = Val tt /\ 3 <= 3 * 1.
Proof.
  destruct (trust_level_range 1 3 ltac:(done) ltac:(done)) as [Hsound Hcomplete].
  assert (Hv : ValidateTrustLevel DefaultTrustLevel = Val tt) by (apply Hcomplete; done).
  split; [exact Hv|]. apply Hsound. exact Hv.
Defined.

(** A header five heights later is accepted with the default trust level. *)
Lemma light_header_accepted_witness :
  exists c tv, sh_Commit (sample_signed_header 9 77 x02) = Some c /\ total tv < 3 * trusted_power [x61] tv c.
Proof.
  destruct (light_header_accepted sample_trusted (Some sample_set) (sample_signed_header 9 77 x02) (Some sample_set)
    100 80 10 1 3) as (t & u & c & vals & Ht & Hu & Hc & _ & _ & _ & Hcase).
  - done.
  - done.
  - done.
  - intros vals Hv. destruct (sample_set_good vals (some_either sample_set vals Hv)) as (? & _ & ?). split; assumption.
  - intros c Hc. rewrite (some_either _ _ (or_introl Hc)). vm_compute. discriminate.
  - vm_compute. reflexivity.
  - assert (Hadj : (h_Height u =? int64 (h_Height t + 1)) = false /\ h_ChainID t = [x61])
      by (rewrite (some_either _ _ (or_introl Ht)), (some_either _ _ (or_introl Hu)); split; reflexivity).
    destruct Hadj as [Hadj Hchain]. rewrite Hadj, Hchain in Hcase.
    destruct Hcase as (tv & _ & Hpow & _). exists c, tv. split; [exact Hc|]. rewrite Z.mul_1_l in Hpow. exact Hpow.
Defined.

(** Two headers for height 5 with different data, signed by the same validators. *)
Lemma light_fork_accountable_witness :
  c_BlockID (sample_commit_for 5 77 x02) <> c_BlockID (sample_commit_for 5 77 x03) /\
  c_Height (sample_commit_for 5 77 x02) = c_Height (sample_commit_for 5 77 x03).
Proof.
  split; [vm_compute; discriminate|].
  apply (light_fork_accountable sample_trusted (sample_signed_header 5 77 x02) (sample_signed_header 5 77 x03)
    sample_set sample_set (sample_commit_for 5 77 x02) (sample_commit_for 5 77 x03) 100 80 10 100 80 10).
  - intros vals Hv. apply sample_set_good. tauto.
  - reflexivity.
  - reflexivity.
  - vm_compute. discriminate.
  - vm_compute. discriminate.
  - vm_compute. reflexivity.
  - vm_compute. reflexivity.
Defined.

Lemma backwards_unique_witness :
  exists t a, VerifyBackwards a t = Val tt /\ h_Time a < h_Time t.
Proof.
  pose (a := sample_header 4 70 x01).
  pose (t := mkHeader (mkConsensus BlockProtocol 1) [x61] 5 77 (mkBlockID (header_hash_of a) (mkPartSetHeader 1 (replicate 32 x01)))
    [] [] sample_vals_hash sample_vals_hash [] [] [] [] (replicate 20 x03)).
  exists t, a. assert (Hv : VerifyBackwards a t = Val tt) by (vm_compute; reflexivity). split; [exact Hv|].
  apply (backwards_unique t a a).
  - vm_compute. repeat split; discriminate.
  - vm_compute. repeat split; discriminate.
  - vm_compute. discriminate.
  - exact Hv.
  - exact Hv.
Defined.

(** The trusting period is compared with the new header only.  A
    header is accepted from a trusted header whose own trusting period has
    passed, although the contract of [VerifyAdjacent] and [VerifyNonAdjacent]
    lists an expired trusted header as an error. *)
Theorem expired_trusted_header_accepted :
  exists tsh ush vals p now drift t,
    sh_Header tsh = Some t /\ HeaderExpired t p now = true /\
    VerifyAdjacent tsh ush (Some vals) p now drift = Val tt.
Proof.
  exists sample_trusted, (sample_signed_header 5 77 x02), sample_set, 5, 80, 10, (sample_header 4 70 x01).
  split; [reflexivity|]. split; vm_compute; reflexivity.
Qed.
