(* ===== verification/Block.v ===== *)
(** * types: blocks

    Models the block, its data and its evidence list of types/block.go, the
    transactions of types/tx.go and the hash of a commit.  The caches of the
    source (the hashes it stores in the structures) are recomputed.  Evidence is
    the Go interface: the class [EvidenceOps].  A hash that is empty counts as
    nil for [fillHeader]: the blocks the source builds or accepts have no other
    empty hash. *)
From Stdlib Require Import ZArith Lia Strings.Byte.
From stdpp Require Import base list strings.
From S2P Require Import Prelude.
From S2P Require Import Merkle.
From S2P Require Import Proto.
From S2P Require Import Validator.
From S2P Require Import Types.
From S2P Require Import PartSet.
From S2P Require Import Header.

(** The interface [Evidence], as far as blocks use it. *)
Class EvidenceOps := {
  Evidence : Type;
  EvidenceError : Type;
  ev_Bytes : Evidence -> bytes;
  ev_ValidateBasic : Evidence -> outcome EvidenceError unit
}.

Abbreviation Tx := bytes.

Section block.
Context `{!Sha256, !TimeCodec, !WrapperCodec, !EvidenceOps}.

(** ** Transactions *)

Definition Tx_Hash (tx : Tx) : bytes := tmhash_Sum tx.
Definition Txs_Hash (txs : list Tx) : go bytes := HashFromByteSlices (Tx_Hash <$> txs).

Fixpoint index_where (f : Tx -> bool) (i : Z) (txs : list Tx) : Z :=
  match txs with
  | [] => -1
  | tx :: rest => if f tx then i else index_where f (i + 1) rest
  end.
Definition Txs_Index (txs : list Tx) (tx : Tx) : Z := index_where (fun t => bytes_equal t tx) 0 txs.
Definition Txs_IndexByHash (txs : list Tx) (hash : bytes) : Z := index_where (fun t => bytes_equal (Tx_Hash t) hash) 0 txs.

Record TxProof := mkTxProof { tp_RootHash : bytes; tp_Data : Tx; tp_Proof : Proof }.

Definition Txs_Proof (txs : list Tx) (i : Z) : go TxProof :=
  '(root, proofs) ← ProofsFromByteSlices (Tx_Hash <$> txs);
  tx ← slice_get txs i;
  proof ← slice_get proofs i;
  Val (mkTxProof root tx proof).

Inductive TxProofError := ErrDifferentDataHash | ErrProofNegativeIndex | ErrProofTotal | ErrProofInconsistent.

Definition TxProof_Leaf (tp : TxProof) : bytes := Tx_Hash (tp_Data tp).
Definition TxProof_Validate (tp : TxProof) (dataHash : bytes) : outcome TxProofError unit :=
  _ ← fail_if (negb (bytes_equal dataHash (tp_RootHash tp))) ErrDifferentDataHash;
  _ ← fail_if (Index (tp_Proof tp) <? 0) ErrProofNegativeIndex;
  _ ← fail_if (Total (tp_Proof tp) <=? 0) ErrProofTotal;
  wrap_err (fun _ => ErrProofInconsistent) (Verify (tp_Proof tp) (tp_RootHash tp) (TxProof_Leaf tp)).

(** ** The hash of a commit *)

Definition flag_number (f : BlockIDFlag) : Z :=
  match f with BlockIDFlagAbsent => 1 | BlockIDFlagCommit => 2 | BlockIDFlagNil => 3 | BlockIDFlagUnknown b => b end.

(** [CommitSig.ToProto] and the generated marshaller; a time out of range makes [Hash] panic. *)
Definition CommitSig_Marshal (cs : CommitSig) : go bytes :=
  match StdTimeMarshal (cs_Timestamp cs) with
  | None => Panic "timestamp out of range"
  | Some t =>
      Val (varint_field x08 (flag_number (cs_BlockIDFlag cs)) ++ bytes_field x12 (cs_ValidatorAddress cs) ++
           len_field x1a t ++ bytes_field x22 (cs_Signature cs))
  end.
Fixpoint marshal_sigs (sigs : list CommitSig) : go (list bytes) :=
  match sigs with
  | [] => Val []
  | cs :: rest => bz ← CommitSig_Marshal cs; bs ← marshal_sigs rest; Val (bz :: bs)
  end.
Definition Commit_Hash (commit : option Commit) : go bytes :=
  match commit with
  | None => Val []
  | Some c => bs ← marshal_sigs (c_Signatures c); HashFromByteSlices bs
  end.

(** ** Blocks *)

Definition EvidenceList_Hash (evl : list Evidence) : go bytes := HashFromByteSlices (ev_Bytes <$> evl).

Record Block := mkBlock {
  b_Header : Header;
  b_Txs : list Tx;
  b_Evidence : list Evidence;
  b_LastCommit : option Commit
}.

Inductive BlockError :=
  | ErrNilBlock | ErrBlockHeader (e : HeaderError) | ErrNilLastCommit | ErrLastCommit (e : TypeError)
  | ErrWrongLastCommitHash | ErrWrongDataHash | ErrInvalidEvidence (i : Z) (e : EvidenceError) | ErrWrongEvidenceHash.

Fixpoint validate_evidence (i : Z) (evl : list Evidence) : outcome BlockError unit :=
  match evl with
  | [] => Val tt
  | ev :: rest => _ ← wrap_err (ErrInvalidEvidence i) (ev_ValidateBasic ev); validate_evidence (i + 1) rest
  end.

Definition Block_ValidateBasic (b : option Block) : outcome BlockError unit :=
  match b with
  | None => Fail ErrNilBlock
  | Some b =>
      _ ← wrap_err ErrBlockHeader (Header_ValidateBasic (b_Header b));
      match b_LastCommit b with
      | None => Fail ErrNilLastCommit
      | Some lc =>
          _ ← wrap_err ErrLastCommit (Commit_ValidateBasic lc);
          w ← lift (Commit_Hash (Some lc));
          _ ← fail_if (negb (bytes_equal w (h_LastCommitHash (b_Header b)))) ErrWrongLastCommitHash;
          w ← lift (Txs_Hash (b_Txs b));
          _ ← fail_if (negb (bytes_equal w (h_DataHash (b_Header b)))) ErrWrongDataHash;
          _ ← validate_evidence 0 (b_Evidence b);
          w ← lift (EvidenceList_Hash (b_Evidence b));
          fail_if (negb (bytes_equal w (h_EvidenceHash (b_Header b)))) ErrWrongEvidenceHash
      end
  end.

(** [if hash == nil { hash = compute() }]. *)
Definition fill (hash : bytes) (compute : go bytes) : go bytes := if len hash =? 0 then compute else Val hash.

Definition fillHeader (b : Block) : go Block :=
  let h := b_Header b in
  lch ← fill (h_LastCommitHash h) (Commit_Hash (b_LastCommit b));
  dh ← fill (h_DataHash h) (Txs_Hash (b_Txs b));
  eh ← fill (h_EvidenceHash h) (EvidenceList_Hash (b_Evidence b));
  Val (mkBlock (mkHeader (h_Version h) (h_ChainID h) (h_Height h) (h_Time h) (h_LastBlockID h) lch dh (h_ValidatorsHash h)
                 (h_NextValidatorsHash h) (h_ConsensusHash h) (h_AppHash h) (h_LastResultsHash h) eh (h_ProposerAddress h))
        (b_Txs b) (b_Evidence b) (b_LastCommit b)).

Definition Block_Hash (b : option Block) : go bytes :=
  match b with
  | None => Val []
  | Some b =>
      match b_LastCommit b with
      | None => Val []
      | Some _ => b ← fillHeader b; Header_Hash (b_Header b)
      end
  end.

Definition Block_HashesTo (b : option Block) (hash : bytes) : go bool :=
  if len hash =? 0 then Val false
  else
    match b with
    | None => Val false
    | Some _ => h ← Block_Hash b; Val (bytes_equal h hash)
    end.

Definition MakeBlock (height : Z) (txs : list Tx) (lastCommit : option Commit) (evidence : list Evidence) : go Block :=
  fillHeader (mkBlock (mkHeader (mkConsensus BlockProtocol 0) [] height zero_time nilBlockID [] [] [] [] [] [] [] [] [])
                txs evidence lastCommit).

(** ** Size limits *)

Definition MaxHeaderBytes : Z := 626.
Definition MaxOverheadForBlock : Z := 11.
Definition MaxCommitOverheadBytes : Z := 94.
Definition MaxCommitSigBytes : Z := 109.
Definition MaxCommitBytes (valCount : Z) : Z := int64 (MaxCommitOverheadBytes + int64 ((MaxCommitSigBytes + 2) * valCount)).
Definition MaxDataBytes (maxBytes evidenceBytes valsCount : Z) : go Z :=
  let maxDataBytes := int64 (int64 (int64 (maxBytes - MaxOverheadForBlock - MaxHeaderBytes) - MaxCommitBytes valsCount) - evidenceBytes) in
  _ ← panic_if (maxDataBytes <? 0) "Negative MaxDataBytes";
  Val maxDataBytes.
Definition MaxDataBytesNoEvidence (maxBytes valsCount : Z) : go Z :=
  let maxDataBytes := int64 (int64 (maxBytes - MaxOverheadForBlock - MaxHeaderBytes) - MaxCommitBytes valsCount) in
  _ ← panic_if (maxDataBytes <? 0) "Negative MaxDataBytesUnknownEvidence";
  Val maxDataBytes.
End block.
