(* ===== verification/BlockProofs.v ===== *)
(** * The hash of a block binds its contents; proofs of transactions *)
From Stdlib Require Import ZArith Lia Strings.Byte.
From stdpp Require Import base list strings sets.
From S2P Require Import Prelude.
From S2P Require Import Merkle.
From S2P Require Import MerkleProofs.
From S2P Require Import Proto.
From S2P Require Import Validator.
From S2P Require Import ValidatorSetProofs.
From S2P Require Import Types.
From S2P Require Import SignBytesProofs.
From S2P Require Import Header.
From S2P Require Import LightVerifierProofs.
From S2P Require Import Block.

Section blocks.
Context `{!Sha256, !TimeCodec, !WrapperCodec, !EvidenceOps}.

Lemma HashFromByteSlices_len items x : len items <= MaxInt64 -> HashFromByteSlices items = Val x -> len x = 32.
Proof.
  intros Hl. rewrite HashFromByteSlices_root by done. intros Hx%Val_inj. subst x. unfold len.
  rewrite root_of_length; [done|]. apply leaf_digests.
Qed.

(** ** Commits *)

Definition sig_sized (cs : CommitSig) : Prop :=
  0 <= flag_number (cs_BlockIDFlag cs) < 256 /\ len (cs_ValidatorAddress cs) <= 2 ^ 32 /\ len (cs_Signature cs) <= 2 ^ 32 /\
  match cs_BlockIDFlag cs with BlockIDFlagUnknown b => b = 0 \/ 3 < b | _ => True end.

Lemma flag_number_inj a b : sig_sized a -> sig_sized b ->
  flag_number (cs_BlockIDFlag a) = flag_number (cs_BlockIDFlag b) -> cs_BlockIDFlag a = cs_BlockIDFlag b.
Proof.
  intros (_ & _ & _ & Ha) (_ & _ & _ & Hb). destruct (cs_BlockIDFlag a), (cs_BlockIDFlag b); simpl; intros; try done; try lia.
  by f_equal.
Qed.

Lemma CommitSig_Marshal_inj a b bz :
  sig_sized a -> sig_sized b -> CommitSig_Marshal a = Val bz -> CommitSig_Marshal b = Val bz -> a = b.
Proof.
  intros Ha Hb. unfold CommitSig_Marshal.
  destruct (StdTimeMarshal (cs_Timestamp a)) as [ta|] eqn:Hta; [|done]. intros Hx%Val_inj.
  destruct (StdTimeMarshal (cs_Timestamp b)) as [tb|] eqn:Htb; [|done]. intros Hy%Val_inj. rewrite <- Hy in Hx. clear Hy.
  pose proof (flag_number_inj a b Ha Hb) as Hflag. destruct Ha as (Hfa & Haa & Hsa & _), Hb as (Hfb & Hab & Hsb & _).
  apply varint_field_readable in Hx as [Hf Hx]; [|int_lia..|no_tag|no_tag].
  apply bytes_field_readable in Hx as [Hadr Hx]; [|by eapply small_fits64..|no_tag|no_tag].
  pose proof (StdTimeMarshal_len _ _ Hta). pose proof (StdTimeMarshal_len _ _ Htb).
  apply len_field_inj in Hx as [Ht Hx]; [|by eapply small_fits64..].
  apply (f_equal (fun l => l ++ [])) in Hx.
  apply bytes_field_readable in Hx as [Hs _]; [|by eapply small_fits64..|by unfold starts|by unfold starts].
  rewrite Ht in Hta. pose proof (StdTimeMarshal_inj _ _ _ Hta Htb). destruct a, b; simpl in *. f_equal; auto.
Qed.

Lemma marshal_sigs_inj l l' bs :
  Forall sig_sized l -> Forall sig_sized l' -> marshal_sigs l = Val bs -> marshal_sigs l' = Val bs -> l = l'.
Proof.
  intros Hl. revert l' bs. induction Hl as [|cs l Hcs Hl IH]; intros l' bs Hl' Hb Hb'.
  - destruct l'; [done|]. simpl in Hb'. injection Hb as <-. by inv_val.
  - destruct l' as [|cs' l']; [injection Hb' as <-; simpl in Hb; by inv_val|].
    apply Forall_cons in Hl' as [Hcs' Hl']. cbn [marshal_sigs] in *.
    apply bind_val in Hb as (z & Hz & (zs & Hzs & Hb)%bind_val). apply bind_val in Hb' as (z' & Hz' & (zs' & Hzs' & Hb')%bind_val).
    apply Val_inj in Hb, Hb'. rewrite <- Hb' in Hb. injection Hb as -> ->.
    f_equal; [by eapply CommitSig_Marshal_inj|by eapply IH].
Qed.
Lemma marshal_sigs_length l bs : marshal_sigs l = Val bs -> length bs = length l.
Proof.
  revert bs. induction l as [|cs l IH]; intros bs Hb; cbn [marshal_sigs] in Hb; inv_val; [done|]. simpl. f_equal. by apply IH.
Qed.

(** ** Transactions *)

Lemma Tx_Hash_list_inj txs txs' :
  Tx_Hash <$> txs = Tx_Hash <$> txs' -> txs = txs' \/ hash_collision txs txs'.
Proof.
  revert txs'. induction txs as [|tx txs IH]; intros [|tx' txs'] Heq; try done; [by left|].
  rewrite !fmap_cons in Heq. injection Heq as Hh Heq. destruct (decide (tx = tx')) as [->|Hne].
  - destruct (IH _ Heq) as [->|Hc]; [by left|right]. by eapply hash_collision_mono, Hc; set_solver.
  - right. exists tx, tx'. split_and!; [left|left|done|done].
Qed.

(** ** Blocks *)

Definition commit_bytes (c : option Commit) : list bytes :=
  match c with Some c => match marshal_sigs (c_Signatures c) with Val bs => bs | _ => [] end | None => [] end.

(** The strings that are hashed for a block. *)
Definition block_inputs (b : Block) : list bytes :=
  items_inputs (header_tree (b_Header b)) ++ items_inputs (commit_bytes (b_LastCommit b)) ++
  items_inputs (Tx_Hash <$> b_Txs b) ++ b_Txs b ++ items_inputs (ev_Bytes <$> b_Evidence b).

Definition block_sized (b : Block) : Prop :=
  header_sized (b_Header b) /\ len (b_Txs b) <= MaxInt64 /\ len (b_Evidence b) <= MaxInt64 /\
  forall c, b_LastCommit b = Some c -> Forall sig_sized (c_Signatures c) /\ len (c_Signatures c) <= MaxInt64.

(** What [ValidateBasic] establishes. *)
Record consistent (b : Block) (c : Commit) : Prop := {
  con_commit : b_LastCommit b = Some c;
  con_commit_hash : Commit_Hash (Some c) = Val (h_LastCommitHash (b_Header b));
  con_data_hash : Txs_Hash (b_Txs b) = Val (h_DataHash (b_Header b));
  con_evidence_hash : EvidenceList_Hash (b_Evidence b) = Val (h_EvidenceHash (b_Header b))
}.

Lemma bytes_equal_eq (a b : bytes) : bytes_equal a b = true -> a = b.
Proof. by destruct (bytes_equal_spec a b). Qed.

Lemma Block_ValidateBasic_consistent b : Block_ValidateBasic (Some b) = Val tt -> exists c, consistent b c.
Proof.
  simpl. intros Hv. apply bind_val in Hv as (_ & _ & Hv). destruct (b_LastCommit b) as [c|] eqn:Hc; [|done].
  exists c. apply bind_val in Hv as (_ & _ & Hv). apply bind_val in Hv as (w1 & Hw1%lift_val & Hv).
  apply bind_val in Hv as ([] & E1%fail_if_val & Hv). apply bind_val in Hv as (w2 & Hw2%lift_val & Hv).
  apply bind_val in Hv as ([] & E2%fail_if_val & Hv). apply bind_val in Hv as (_ & _ & Hv).
  apply bind_val in Hv as (w3 & Hw3%lift_val & Hv). apply fail_if_val in Hv.
  apply negb_false_iff, bytes_equal_eq in E1, E2, Hv. subst. by split.
Qed.

Lemma fill_full hash compute x : hash <> [] -> fill hash compute = Val x -> x = hash.
Proof. intros Hne. unfold fill. destruct hash; [done|]. simpl. by intros Hx%Val_inj. Qed.
Lemma fill_full_val hash compute : hash <> [] -> fill hash compute = Val hash.
Proof. intros Hne. unfold fill. by destruct hash. Qed.

Lemma hash32_nonempty (x : bytes) : len x = 32 -> x <> [].
Proof. by intros Hl ->. Qed.

(** A consistent block has its hashes filled in. *)
Lemma fillHeader_consistent b c : block_sized b -> consistent b c -> fillHeader b = Val b.
Proof.
  intros (_ & Ht & He & Hc) [Hlc H1c H2c H3c]. destruct (Hc c Hlc) as [_ Hl].
  pose proof H1c as H1'. unfold Commit_Hash in H1'. apply bind_val in H1' as (bs & Hbs & Hroot).
  assert (Hl1 : len bs <= MaxInt64) by (unfold len in *; by rewrite (marshal_sigs_length _ _ Hbs)).
  apply HashFromByteSlices_len in Hroot; [|done].
  pose proof H2c as H2'. apply HashFromByteSlices_len in H2'; [|unfold len in *; by rewrite length_fmap].
  pose proof H3c as H3'. apply HashFromByteSlices_len in H3'; [|unfold len in *; by rewrite length_fmap].
  unfold fillHeader. rewrite !fill_full_val by (by apply hash32_nonempty). cbn [mbind outcome_bind].
  destruct b as [[] ? ? ?]. done.
Qed.

Lemma Block_Hash_consistent b c :
  block_sized b -> consistent b c -> Block_Hash (Some b) = Header_Hash (b_Header b).
Proof. intros Hs Hc. unfold Block_Hash. rewrite (con_commit _ _ Hc), (fillHeader_consistent b c Hs Hc). done. Qed.

(** C38: the hash of a block binds the block.  Two blocks that pass
    [ValidateBasic] and have the same hash have the same header, the same
    transactions, the same evidence and the same signatures in the last commit,
    unless the strings hashed for the two blocks exhibit a SHA-256 collision. *)
Theorem block_hash_binding a b x :
  block_sized a -> block_sized b ->
  Block_ValidateBasic (Some a) = Val tt -> Block_ValidateBasic (Some b) = Val tt ->
  Block_Hash (Some a) = Val x -> Block_Hash (Some b) = Val x -> x <> [] ->
  (b_Header a = b_Header b /\ b_Txs a = b_Txs b /\ ev_Bytes <$> b_Evidence a = ev_Bytes <$> b_Evidence b /\
   option_map c_Signatures (b_LastCommit a) = option_map c_Signatures (b_LastCommit b)) \/
  hash_collision (block_inputs a) (block_inputs b).
Proof.
  intros Ha Hb [ca Hca]%Block_ValidateBasic_consistent [cb Hcb]%Block_ValidateBasic_consistent.
  rewrite (Block_Hash_consistent a ca Ha Hca), (Block_Hash_consistent b cb Hb Hcb). intros Hxa Hxb Hne.
  destruct (Header_Hash_binding _ _ x (proj1 Ha) (proj1 Hb) Hxa Hxb Hne) as [Hh|Hc];
    [|right; by eapply hash_collision_mono, Hc; unfold block_inputs; set_solver].
  destruct Hca as [La Ca Da Ea], Hcb as [Lb Cb Db Eb]. rewrite <- Hh in Cb, Db, Eb.
  destruct Ha as (_ & Hta & Hea & Hsa), Hb as (_ & Htb & Heb & Hsb).
  destruct (Hsa ca La) as [Hsa' Hla], (Hsb cb Lb) as [Hsb' Hlb].
  unfold Txs_Hash in Da, Db. unfold EvidenceList_Hash in Ea, Eb. unfold Commit_Hash in Ca, Cb.
  apply bind_val in Ca as (xs & Hxs & Ca). apply bind_val in Cb as (ys & Hys & Cb).
  destruct (HashFromByteSlices_binding (Tx_Hash <$> b_Txs a) (Tx_Hash <$> b_Txs b)) as [Ht|Hc];
    [unfold len in *; by rewrite length_fmap..|by rewrite Da, Db| |right; by eapply hash_collision_mono, Hc; unfold block_inputs; set_solver].
  destruct (Tx_Hash_list_inj _ _ Ht) as [Htx|Hc]; [|right; by eapply hash_collision_mono, Hc; unfold block_inputs; set_solver].
  destruct (HashFromByteSlices_binding (ev_Bytes <$> b_Evidence a) (ev_Bytes <$> b_Evidence b)) as [He|Hc];
    [unfold len in *; by rewrite length_fmap..|by rewrite Ea, Eb| |right; by eapply hash_collision_mono, Hc; unfold block_inputs; set_solver].
  destruct (HashFromByteSlices_binding xs ys) as [Hc|Hc];
    [unfold len in *; by rewrite (marshal_sigs_length _ _ Hxs)|unfold len in *; by rewrite (marshal_sigs_length _ _ Hys)
    |by rewrite Ca, Cb| |
     right; eapply hash_collision_mono, Hc; unfold block_inputs, commit_bytes; rewrite ?La, ?Lb, ?Hxs, ?Hys; set_solver].
  left. split_and!; [done..|]. rewrite La, Lb. simpl. f_equal. subst ys. by eapply marshal_sigs_inj.
Qed.

(** Proofs of transactions.  For every index of a transaction there is
    a proof, it carries that transaction, and it validates against the hash of
    the list; and a proof that passes the basic checks and validates for a list
    of its length shows the hash of the transaction at its index, or exhibits a collision. *)
Theorem tx_proofs txs root :
  len txs <= MaxInt64 -> Txs_Hash txs = Val root ->
  (forall i tx, txs !! i = Some tx ->
     exists tp, Txs_Proof txs (Z.of_nat i) = Val tp /\ tp_Data tp = tx /\ TxProof_Validate tp root = Val tt) /\
  (forall tp, Proof_ValidateBasic (tp_Proof tp) = Val tt -> Total (tp_Proof tp) = len txs ->
     TxProof_Validate tp root = Val tt ->
     (exists tx, zlookup txs (Index (tp_Proof tp)) = Some tx /\ Tx_Hash tx = Tx_Hash (tp_Data tp)) \/
     hash_collision (verify_inputs (tp_Proof tp) (Tx_Hash (tp_Data tp))) (items_inputs (Tx_Hash <$> txs))).
Proof.
  intros Hl Hroot. unfold Txs_Hash in Hroot.
  assert (Hl' : len (Tx_Hash <$> txs) = len txs) by (unfold len; by rewrite length_fmap). split.
  - intros i tx Hi. destruct (ProofsFromByteSlices_spec (Tx_Hash <$> txs)) as (r & proofs & Hr & Hp & Hn & Hall); [lia|].
    assert (r = root) as -> by (rewrite Hroot in Hr; by apply Val_inj in Hr).
    destruct (Hall i (Tx_Hash tx)) as (sp & Hsp & Hidx & Htot & Hver); [by rewrite list_lookup_fmap, Hi|].
    pose proof (lookup_lt_Some _ _ _ Hi) as Hlt. exists (mkTxProof root tx sp). split; [|split; [done|]].
    + unfold Txs_Proof. rewrite Hp. cbn [mbind outcome_bind].
      rewrite (proj2 (slice_get_val txs (Z.of_nat i) tx)) by (rewrite Nat2Z.id; unfold len; split; [lia|done]). cbn [mbind outcome_bind].
      rewrite (proj2 (slice_get_val proofs (Z.of_nat i) sp)); [done|]. rewrite Nat2Z.id. rewrite length_fmap in Hn.
      unfold len. split; [lia|done].
    + unfold TxProof_Validate. cbn [tp_RootHash tp_Proof]. rewrite bytes_equal_refl, Hidx, Htot. cbn [negb fail_if mbind outcome_bind].
      destruct (Z.ltb_spec (Z.of_nat i) 0); [lia|]. cbn [fail_if mbind outcome_bind].
      destruct (Z.leb_spec (len (Tx_Hash <$> txs)) 0); [unfold len in *; lia|]. cbn [fail_if mbind outcome_bind].
      unfold TxProof_Leaf. cbn [tp_Data]. by rewrite Hver.
  - intros tp Hvb Htot Hv. unfold TxProof_Validate in Hv.
    apply bind_val in Hv as ([] & Hr%fail_if_val & Hv). apply negb_false_iff, bytes_equal_eq in Hr.
    apply bind_val in Hv as (_ & _ & Hv). apply bind_val in Hv as (_ & _ & Hv). apply wrap_err_val in Hv. rewrite <- Hr in Hv.
    destruct (Verify_sound (Tx_Hash <$> txs) root (tp_Proof tp) (TxProof_Leaf tp)) as [Hz|Hc]; [lia|done|done|lia|done| |by right].
    left. unfold zlookup in *. destruct (0 <=? _); [|done]. rewrite list_lookup_fmap in Hz.
    destruct (txs !! Z.to_nat (Index (tp_Proof tp))) as [tx|]; [|done]. injection Hz as Hz. by exists tx.
Qed.

(** A block with another header, as [Header.Populate] leaves it. *)
Definition with_header (b : Block) (h : Header) : Block := mkBlock h (b_Txs b) (b_Evidence b) (b_LastCommit b).

Lemma HashFromByteSlices_total items : len items <= MaxInt64 -> exists x, HashFromByteSlices items = Val x.
Proof. intros Hl. eexists. by apply HashFromByteSlices_root. Qed.

(** What [MakeBlock] builds is accepted: given a valid last commit whose times can
    be encoded and valid evidence, [MakeBlock] returns a block, and with any header
    values added by [Populate] that are valid themselves, the block passes
    [ValidateBasic]. *)
Lemma make_block_validates height txs lc evl :
  Commit_ValidateBasic lc = Val tt -> (exists x, Commit_Hash (Some lc) = Val x) ->
  len txs <= MaxInt64 -> len evl <= MaxInt64 -> validate_evidence 0 evl = Val tt ->
  exists b, MakeBlock height txs (Some lc) evl = Val b /\ h_Height (b_Header b) = height /\ b_Txs b = txs /\
  forall version chainID timestamp lastBlockID valHash nextValHash consensusHash appHash lastResultsHash proposer,
    let h := Header_Populate (b_Header b) version chainID timestamp lastBlockID valHash nextValHash consensusHash appHash
               lastResultsHash proposer in
    Header_ValidateBasic h = Val tt -> Block_ValidateBasic (Some (with_header b h)) = Val tt.
Proof.
  intros Hlc [x Hx] Ht He Hev.
  destruct (HashFromByteSlices_total (Tx_Hash <$> txs)) as [y Hy]; [unfold len in *; by rewrite length_fmap|].
  destruct (HashFromByteSlices_total (ev_Bytes <$> evl)) as [z Hz]; [unfold len in *; by rewrite length_fmap|].
  unfold MakeBlock, fillHeader. cbn [b_Header h_LastCommitHash h_DataHash h_EvidenceHash b_LastCommit b_Txs b_Evidence].
  assert (Hfill : forall c, fill [] c = c) by done. rewrite !Hfill, Hx. unfold Txs_Hash, EvidenceList_Hash. cbn [mbind outcome_bind].
  rewrite Hy. cbn [mbind outcome_bind]. rewrite Hz. cbn [mbind outcome_bind].
  eexists. split; [reflexivity|]. split; [done|]. split; [done|]. intros * Hh.
  unfold Block_ValidateBasic, with_header. cbn [b_Header b_LastCommit b_Txs b_Evidence] in *. rewrite Hh. cbn [wrap_err mbind outcome_bind].
  rewrite Hlc, Hx. cbn [wrap_err lift mbind outcome_bind Header_Populate h_LastCommitHash h_DataHash h_EvidenceHash].
  unfold Txs_Hash, EvidenceList_Hash. rewrite bytes_equal_refl, Hy. cbn [negb fail_if lift mbind outcome_bind].
  rewrite bytes_equal_refl, Hev, Hz. cbn [negb fail_if lift mbind outcome_bind]. by rewrite bytes_equal_refl.
Qed.
End blocks.

(** ** A concrete block *)

Definition toy_evidence : EvidenceOps :=
  {| Evidence := bytes; EvidenceError := Empty_set; ev_Bytes := id; ev_ValidateBasic := fun _ => Val tt |}.
#[local] Existing Instances toy_sha256 toy_time toy_wrappers toy_evidence.

Definition sample_evidence : list (@Evidence toy_evidence) := [[x63]].
Definition sample_block : Block :=
  match MakeBlock 5 [[x61]; [x62]] (Some (sample_commit_for 4 70 x01)) sample_evidence with
  | Val b => with_header b (Header_Populate (b_Header b) (mkConsensus BlockProtocol 1) [x61] 77 (sample_blockid x07)
                              sample_vals_hash sample_vals_hash [] [] [] (replicate 20 x03))
  | _ => mkBlock (sample_header 5 77 x01) [] [] None
  end.

Definition sample_block_hash : bytes := match Block_Hash (Some sample_block) with Val x => x | _ => [] end.
Lemma sample_block_sized : block_sized sample_block.
Proof.
  split; [vm_compute; repeat split; discriminate|]. split; [vm_compute; discriminate|]. split; [vm_compute; discriminate|].
  intros c Hc. vm_compute in Hc. injection Hc as <-. split; [|vm_compute; discriminate].
  repeat constructor; vm_compute; discriminate.
Qed.
Lemma block_hash_binding_witness :
  sample_block_hash <> [] /\
  ((b_Header sample_block = b_Header sample_block /\ b_Txs sample_block = b_Txs sample_block /\
    ev_Bytes <$> b_Evidence sample_block = ev_Bytes <$> b_Evidence sample_block /\
    option_map c_Signatures (b_LastCommit sample_block) = option_map c_Signatures (b_LastCommit sample_block)) \/
   hash_collision (block_inputs sample_block) (block_inputs sample_block)).
Proof.
  split; [vm_compute; discriminate|].
  apply (block_hash_binding sample_block sample_block sample_block_hash sample_block_sized sample_block_sized).
  - vm_compute. reflexivity.
  - vm_compute. reflexivity.
  - vm_compute. reflexivity.
  - vm_compute. reflexivity.
  - vm_compute. discriminate.
Defined.

Definition sample_txs_root : bytes := match Txs_Hash [[x61]; [x62]; [x63]] with Val x => x | _ => [] end.
Lemma tx_proofs_witness :
  exists tp, Txs_Proof [[x61]; [x62]; [x63]] 1 = Val tp /\ tp_Data tp = [x62] /\ TxProof_Validate tp sample_txs_root = Val tt.
Proof.
  destruct (tx_proofs [[x61]; [x62]; [x63]] sample_txs_root) as [H _].
  - vm_compute. discriminate.
  - vm_compute. reflexivity.
  - apply (H 1%nat [x62]). reflexivity.
Defined.
