(* ===== verification/ChainState.v ===== *)
(** * internal/state: the chain state and the blocks it admits

    Models the consensus parameters (types/params.go), the state after a block
    (internal/state/state.go), the median time of a commit
    (internal/state/time.go), the validation of a block against a state
    (internal/state/validation.go) and the steps of a block executor
    (internal/state/execution.go).  The application, the stores, the mempool and
    the evidence pool answer through the arguments of the executor's functions. *)
From Stdlib Require Import ZArith Lia Strings.Byte.
From stdpp Require Import base list strings gmap.
From S2P Require Import Prelude.
From S2P Require Import Merkle.
From S2P Require Import Proto.
From S2P Require Import Validator.
From S2P Require Import Types.
From S2P Require Import Validation.
From S2P Require Import PartSet.
From S2P Require Import Header.
From S2P Require Import Block.

(** A field or method of a pointer that may be nil. *)
Definition deref {E A} (p : option A) : outcome E A :=
  match p with Some a => Val a | None => Panic "invalid memory address or nil pointer dereference" end.

(** ** Consensus parameters *)

Record BlockParams := mkBlockParams { bp_MaxBytes : Z; bp_MaxGas : Z }.
Record EvidenceParams := mkEvidenceParams { ep_MaxAgeNumBlocks : Z; ep_MaxAgeDuration : Z; ep_MaxBytes : Z }.
Record ValidatorParams := mkValidatorParams { vp_PubKeyTypes : list string }.
Record VersionParams := mkVersionParams { vp_AppVersion : Z }.
Record ConsensusParams := mkConsensusParams {
  cp_Block : BlockParams;
  cp_Evidence : EvidenceParams;
  cp_Validator : ValidatorParams;
  cp_Version : VersionParams
}.

Definition MaxBlockSizeBytes : Z := 104857600.
Definition KeyType_name (t : KeyType) : string :=
  match t with Ed25519 => "ed25519" | Secp256k1 => "secp256k1" | Sr25519 => "sr25519" end.
Definition ABCIPubKeyTypes : list string := KeyType_name <$> [Ed25519; Secp256k1; Sr25519].

Definition DefaultConsensusParams : ConsensusParams :=
  mkConsensusParams (mkBlockParams 22020096 (-1)) (mkEvidenceParams 100000 (48 * 3600 * 1000000000) 1048576)
    (mkValidatorParams [KeyType_name Ed25519]) (mkVersionParams 0).

Definition IsValidPubkeyType (val : ValidatorParams) (pubkeyType : string) : bool :=
  bool_decide (pubkeyType ∈ vp_PubKeyTypes val).

Inductive ParamsError :=
  | ErrMaxBytesNotPositive | ErrMaxBytesTooBig | ErrMaxGas | ErrMaxAgeNumBlocks | ErrMaxAgeDuration
  | ErrEvidenceMaxBytesTooBig | ErrEvidenceMaxBytesNegative | ErrNoPubKeyTypes | ErrUnknownPubKeyType.

Definition ValidateConsensusParams (params : ConsensusParams) : outcome ParamsError unit :=
  let b := cp_Block params in
  let e := cp_Evidence params in
  _ ← fail_if (bp_MaxBytes b <=? 0) ErrMaxBytesNotPositive;
  _ ← fail_if (bp_MaxBytes b >? MaxBlockSizeBytes) ErrMaxBytesTooBig;
  _ ← fail_if (bp_MaxGas b <? -1) ErrMaxGas;
  _ ← fail_if (ep_MaxAgeNumBlocks e <=? 0) ErrMaxAgeNumBlocks;
  _ ← fail_if (ep_MaxAgeDuration e <=? 0) ErrMaxAgeDuration;
  _ ← fail_if (ep_MaxBytes e >? bp_MaxBytes b) ErrEvidenceMaxBytesTooBig;
  _ ← fail_if (ep_MaxBytes e <? 0) ErrEvidenceMaxBytesNegative;
  _ ← fail_if (len (vp_PubKeyTypes (cp_Validator params)) =? 0) ErrNoPubKeyTypes;
  fail_if (negb (forallb (fun t => bool_decide (t ∈ ABCIPubKeyTypes)) (vp_PubKeyTypes (cp_Validator params)))) ErrUnknownPubKeyType.

(** The marshaller of [HashedParams] and the digest of its bytes. *)
Definition HashedParams_Marshal (blockMaxBytes blockMaxGas : Z) : bytes :=
  varint_field x08 blockMaxBytes ++ varint_field x10 blockMaxGas.
Definition HashConsensusParams `{!Sha256} (params : ConsensusParams) : bytes :=
  tmhash_Sum (HashedParams_Marshal (bp_MaxBytes (cp_Block params)) (bp_MaxGas (cp_Block params))).

(** The protobuf [ConsensusParams] of an [EndBlock] response: every part may be nil. *)
Record ParamUpdates := mkParamUpdates {
  pu_Block : option BlockParams;
  pu_Evidence : option EvidenceParams;
  pu_Validator : option ValidatorParams;
  pu_Version : option VersionParams
}.

Definition UpdateConsensusParams (params : ConsensusParams) (params2 : option ParamUpdates) : ConsensusParams :=
  match params2 with
  | None => params
  | Some p2 =>
      mkConsensusParams (default (cp_Block params) (pu_Block p2)) (default (cp_Evidence params) (pu_Evidence p2))
        (default (cp_Validator params) (pu_Validator p2)) (default (cp_Version params) (pu_Version p2))
  end.

(** ** The state *)

Record Version := mkVersion { sv_Consensus : Consensus; sv_Software : string }.

(** A [*ValidatorSet] of the empty state is nil. *)
Record State := mkState {
  sm_Version : Version;
  sm_ChainID : ChainID;
  sm_InitialHeight : Z;
  sm_LastBlockHeight : Z;
  sm_LastBlockID : BlockID;
  sm_LastBlockTime : Time;
  sm_NextValidators : option ValidatorSet;
  sm_Validators : option ValidatorSet;
  sm_LastValidators : option ValidatorSet;
  sm_LastHeightValidatorsChanged : Z;
  sm_ConsensusParams : ConsensusParams;
  sm_LastHeightConsensusParamsChanged : Z;
  sm_LastResultsHash : bytes;
  sm_AppHash : bytes
}.

(** The zero value [State{}]. *)
Definition empty_state : State :=
  mkState (mkVersion (mkConsensus 0 0) "") [] 0 0 nilBlockID zero_time None None None 0
    (mkConsensusParams (mkBlockParams 0 0) (mkEvidenceParams 0 0 0) (mkValidatorParams []) (mkVersionParams 0)) 0 [] [].

Definition IsEmpty (state : State) : bool := match sm_Validators state with None => true | Some _ => false end.

(** ** The median time of a commit *)

Record weightedTime := mkWeightedTime { wt_Time : Time; wt_Weight : Z }.

(** [Time.UnixNano]: nanoseconds since 1970, as an [int64] that wraps around. *)
Definition UnixNano (t : Time) : Z := int64 (t - 62135596800 * 1000000000).

Definition weightedTime_less (a b : option weightedTime) : bool :=
  match a, b with
  | None, _ => false
  | Some _, None => true
  | Some a, Some b => UnixNano (wt_Time a) <? UnixNano (wt_Time b)
  end.

Fixpoint median_loop (median : Z) (l : list (option weightedTime)) : Time :=
  match l with
  | [] => zero_time
  | None :: l' => median_loop median l'
  | Some w :: l' => if median <=? wt_Weight w then wt_Time w else median_loop (int64 (median - wt_Weight w)) l'
  end.

Definition weightedMedian (weightedTimes : list (option weightedTime)) (totalVotingPower : Z) : Time :=
  median_loop (Z.quot totalVotingPower 2) (sort_by weightedTime_less weightedTimes).

(** The loop over the signatures: the weighted times and the power of the signers. *)
Fixpoint weigh (sigs : list CommitSig) (validators : ValidatorSet) (totalVotingPower : Z) : list (option weightedTime) * Z :=
  match sigs with
  | [] => ([], totalVotingPower)
  | cs :: rest =>
      let '(w, totalVotingPower) :=
        if Absent cs then (None, totalVotingPower)
        else match (GetByAddress validators (cs_ValidatorAddress cs)).2 with
             | Some v => (Some (mkWeightedTime (cs_Timestamp cs) (VotingPower v)), int64 (totalVotingPower + VotingPower v))
             | None => (None, totalVotingPower)
             end in
      let '(ws, total) := weigh rest validators totalVotingPower in
      (w :: ws, total)
  end.

Definition MedianTime (commit : Commit) (validators : ValidatorSet) : Time :=
  let '(weightedTimes, totalVotingPower) := weigh (c_Signatures commit) validators 0 in
  weightedMedian weightedTimes totalVotingPower.

(** ** Encodings of blocks and evidence lists *)

(** [Block.ToProto] with the generated marshaller, and the generated
    unmarshaller with the conversions of [BlockFromProto]: what is written is
    read back. *)
Class BlockCodec `{!EvidenceOps} := {
  Block_Marshal : Block -> option bytes;
  Block_Unmarshal : bytes -> option Block;
  Block_Unmarshal_Marshal : forall b bz, Block_Marshal b = Some bz -> Block_Unmarshal bz = Some b;
  (** [EvidenceList.Size] of the converted list; [None] when the conversion fails. *)
  EvidenceList_Size : list Evidence -> option Z
}.

(** [BlockExecutor.cache]: the hashes of the blocks found valid. *)
Abbreviation ValidCache := (gset bytes).

Section state.
Context `{!Crypto, !BatchCrypto, !Sha256, !TimeCodec, !WrapperCodec, !EvidenceOps, !BlockCodec}.

(** [EvidenceData.ByteSize]. *)
Definition EvidenceData_ByteSize (evl : list Evidence) : go Z :=
  match evl with
  | [] => Val 0
  | _ => match EvidenceList_Size evl with Some n => Val n | None => Panic "EvidenceData.ToProto" end
  end.

(** [Block.MakePartSet]. *)
Definition MakePartSet (b : Block) (partSize : Z) : go PartSet :=
  match Block_Marshal b with
  | None => Panic "Block.ToProto"
  | Some bz => NewPartSetFromData bz partSize
  end.

(** [proto.Unmarshal] followed by [BlockFromProto]. *)
Definition BlockFromBytes (bz : bytes) : outcome (option BlockError) Block :=
  match Block_Unmarshal bz with
  | None => Fail None
  | Some b => _ ← wrap_err Some (Block_ValidateBasic (Some b)); Val b
  end.

(** [State.MakeBlock]. *)
Definition State_MakeBlock (state : State) (height : Z) (txs : list Tx) (commit : Commit) (evidence : list Evidence)
    (proposerAddress : bytes) : go (Block * PartSet) :=
  block ← MakeBlock height txs (Some commit) evidence;
  timestamp ← (if height =? sm_InitialHeight state then Val (sm_LastBlockTime state)
               else lv ← deref (sm_LastValidators state); Val (MedianTime commit lv));
  vals ← deref (sm_Validators state);
  valsHash ← ValidatorSet_Hash vals;
  nvals ← deref (sm_NextValidators state);
  nextHash ← ValidatorSet_Hash nvals;
  let header := Header_Populate (b_Header block) (sv_Consensus (sm_Version state)) (sm_ChainID state) timestamp
                  (sm_LastBlockID state) valsHash nextHash (HashConsensusParams (sm_ConsensusParams state))
                  (sm_AppHash state) (sm_LastResultsHash state) proposerAddress in
  let block := mkBlock header (b_Txs block) (b_Evidence block) (b_LastCommit block) in
  ps ← MakePartSet block BlockPartSizeBytes;
  Val (block, ps).

(** ** Validation *)

Inductive ValidateError :=
  | ErrBlockBasic (e : BlockError) | ErrWrongVersion | ErrWrongChainID | ErrWrongInitialHeight | ErrWrongHeight
  | ErrWrongLastBlockID | ErrWrongAppHash | ErrWrongConsensusHash | ErrWrongLastResultsHash | ErrWrongValidatorsHash
  | ErrWrongNextValidatorsHash | ErrInitialCommit | ErrBlockCommit (e : CommitError) | ErrNotAValidator
  | ErrTimeNotAfter | ErrNotMedianTime | ErrNotGenesisTime | ErrBelowInitialHeight | ErrEvidenceOverflow.

(** The time of the block, on each side of the [switch]. *)
Definition validate_time (state : State) (height : Z) (time : Time) (lastCommit : Commit) : outcome ValidateError unit :=
  if height >? sm_InitialHeight state then
    _ ← fail_if (negb (time >? sm_LastBlockTime state)) ErrTimeNotAfter;
    lv ← deref (sm_LastValidators state);
    fail_if (negb (time =? MedianTime lastCommit lv)) ErrNotMedianTime
  else if height =? sm_InitialHeight state then fail_if (negb (time =? sm_LastBlockTime state)) ErrNotGenesisTime
  else Fail ErrBelowInitialHeight.

Definition validate_last_commit (state : State) (height : Z) (lastCommit : Commit) : outcome ValidateError unit :=
  if height =? sm_InitialHeight state then fail_if (negb (len (c_Signatures lastCommit) =? 0)) ErrInitialCommit
  else wrap_err ErrBlockCommit
         (VerifyCommit (sm_ChainID state) (sm_LastValidators state) (sm_LastBlockID state) (int64 (height - 1)) (Some lastCommit)).

Definition validateBlock (state : State) (block : Block) : outcome ValidateError unit :=
  let h := b_Header block in
  let v := sv_Consensus (sm_Version state) in
  _ ← wrap_err ErrBlockBasic (Block_ValidateBasic (Some block));
  _ ← fail_if (negb (ver_App (h_Version h) =? ver_App v) || negb (ver_Block (h_Version h) =? ver_Block v)) ErrWrongVersion;
  _ ← fail_if (negb (bytes_equal (h_ChainID h) (sm_ChainID state))) ErrWrongChainID;
  _ ← fail_if ((sm_LastBlockHeight state =? 0) && negb (h_Height h =? sm_InitialHeight state)) ErrWrongInitialHeight;
  _ ← fail_if ((sm_LastBlockHeight state >? 0) && negb (h_Height h =? int64 (sm_LastBlockHeight state + 1))) ErrWrongHeight;
  _ ← fail_if (negb (BlockID_Equals (h_LastBlockID h) (sm_LastBlockID state))) ErrWrongLastBlockID;
  _ ← fail_if (negb (bytes_equal (h_AppHash h) (sm_AppHash state))) ErrWrongAppHash;
  _ ← fail_if (negb (bytes_equal (h_ConsensusHash h) (HashConsensusParams (sm_ConsensusParams state)))) ErrWrongConsensusHash;
  _ ← fail_if (negb (bytes_equal (h_LastResultsHash h) (sm_LastResultsHash state))) ErrWrongLastResultsHash;
  vals ← deref (sm_Validators state);
  valsHash ← lift (ValidatorSet_Hash vals);
  _ ← fail_if (negb (bytes_equal (h_ValidatorsHash h) valsHash)) ErrWrongValidatorsHash;
  nvals ← deref (sm_NextValidators state);
  nextHash ← lift (ValidatorSet_Hash nvals);
  _ ← fail_if (negb (bytes_equal (h_NextValidatorsHash h) nextHash)) ErrWrongNextValidatorsHash;
  lastCommit ← deref (b_LastCommit block);
  _ ← validate_last_commit state (h_Height h) lastCommit;
  _ ← fail_if (negb (HasAddress vals (h_ProposerAddress h))) ErrNotAValidator;
  _ ← validate_time state (h_Height h) (h_Time h) lastCommit;
  got ← lift (EvidenceData_ByteSize (b_Evidence block));
  fail_if (got >? ep_MaxBytes (cp_Evidence (sm_ConsensusParams state))) ErrEvidenceOverflow.

(** ** The results of a block *)

(** The fields of [ResponseDeliverTx] apart from the events. *)
Record ResponseDeliverTx := mkResponseDeliverTx {
  dt_Code : Z; dt_Data : bytes; dt_Log : bytes; dt_Info : bytes; dt_GasWanted : Z; dt_GasUsed : Z; dt_Codespace : bytes
}.
Definition deterministicResponseDeliverTx (r : ResponseDeliverTx) : ResponseDeliverTx :=
  mkResponseDeliverTx (dt_Code r) (dt_Data r) [] [] (dt_GasWanted r) (dt_GasUsed r) [].
Definition ResponseDeliverTx_Marshal (r : ResponseDeliverTx) : bytes :=
  varint_field x08 (dt_Code r) ++ bytes_field x12 (dt_Data r) ++ bytes_field x1a (dt_Log r) ++ bytes_field x22 (dt_Info r) ++
  varint_field x28 (dt_GasWanted r) ++ varint_field x30 (dt_GasUsed r) ++ bytes_field x42 (dt_Codespace r).
Definition NewResults (responses : list ResponseDeliverTx) : list ResponseDeliverTx := deterministicResponseDeliverTx <$> responses.
Definition ABCIResults_Hash (a : list ResponseDeliverTx) : go bytes := HashFromByteSlices (ResponseDeliverTx_Marshal <$> a).

(** A key as the application sends it: [None] is an unknown kind. *)
Record ValidatorUpdate := mkValidatorUpdate { vu_PubKey : option PubKey; vu_Power : Z }.
Record ABCIResponses := mkABCIResponses {
  ar_DeliverTxs : list ResponseDeliverTx;
  ar_ValidatorUpdates : list ValidatorUpdate;
  ar_ConsensusParamUpdates : option ParamUpdates
}.
Definition ABCIResponsesResultsHash (ar : ABCIResponses) : go bytes := ABCIResults_Hash (NewResults (ar_DeliverTxs ar)).

(** ** Updating the state *)

Inductive ApplyError :=
  | ErrInvalidBlock (e : option ValidateError) | ErrProxyAppConn | ErrSaveABCIResponses | ErrUpdatePower | ErrUpdateKey
  | ErrUpdateKeyType | ErrChangingValidators (e : ValidatorSetError) | ErrUpdatingParams (e : ParamsError) | ErrCommit | ErrSaveState.

Definition PubKeySize (t : KeyType) : Z := match t with Secp256k1 => 33 | _ => 32 end.
(** [encoding.PubKeyFromProto]. *)
Definition PubKeyFromProto (k : option PubKey) : outcome ApplyError PubKey :=
  match k with
  | None => Fail ErrUpdateKey
  | Some pk => _ ← fail_if (negb (len (pk_Bytes pk) =? PubKeySize (pk_Type pk))) ErrUpdateKey; Val pk
  end.

Fixpoint validateValidatorUpdates (abciUpdates : list ValidatorUpdate) (params : ValidatorParams) : outcome ApplyError unit :=
  match abciUpdates with
  | [] => Val tt
  | u :: rest =>
      _ ← fail_if (vu_Power u <? 0) ErrUpdatePower;
      if vu_Power u =? 0 then validateValidatorUpdates rest params
      else
        pk ← PubKeyFromProto (vu_PubKey u);
        _ ← fail_if (negb (IsValidPubkeyType params (KeyType_name (pk_Type pk)))) ErrUpdateKeyType;
        validateValidatorUpdates rest params
  end.

(** [PB2TM.ValidatorUpdates]. *)
Fixpoint PB2TM_ValidatorUpdates (vals : list ValidatorUpdate) : outcome ApplyError (list Validator) :=
  match vals with
  | [] => Val []
  | u :: rest =>
      pub ← PubKeyFromProto (vu_PubKey u);
      tmVals ← PB2TM_ValidatorUpdates rest;
      Val (NewValidator pub (vu_Power u) :: tmVals)
  end.

Definition updateState (state : State) (blockID : BlockID) (header : Header) (abciResponses : ABCIResponses)
    (validatorUpdates : list Validator) : outcome ApplyError State :=
  nextVals ← deref (sm_NextValidators state);
  '(nValSet, lastHeightValsChanged) ←
    (if len validatorUpdates >? 0 then
       nValSet ← wrap_err ErrChangingValidators (UpdateWithChangeSet nextVals validatorUpdates);
       Val (nValSet, int64 (h_Height header + 1 + 1))
     else Val (nextVals, sm_LastHeightValidatorsChanged state));
  nValSet ← lift (IncrementProposerPriority nValSet 1);
  '(nextParams, version, lastHeightParamsChanged) ←
    (match ar_ConsensusParamUpdates abciResponses with
     | Some u =>
         let nextParams := UpdateConsensusParams (sm_ConsensusParams state) (Some u) in
         _ ← wrap_err ErrUpdatingParams (ValidateConsensusParams nextParams);
         let v := sm_Version state in
         Val (nextParams, mkVersion (mkConsensus (ver_Block (sv_Consensus v)) (vp_AppVersion (cp_Version nextParams))) (sv_Software v),
              int64 (h_Height header + 1))
     | None => Val (sm_ConsensusParams state, sm_Version state, sm_LastHeightConsensusParamsChanged state)
     end);
  vals ← deref (sm_Validators state);
  results ← lift (ABCIResponsesResultsHash abciResponses);
  Val (mkState version (sm_ChainID state) (sm_InitialHeight state) (h_Height header) blockID (h_Time header)
         (Some nValSet) (Some nextVals) (Some vals) lastHeightValsChanged nextParams lastHeightParamsChanged results []).

Definition with_AppHash (state : State) (appHash : bytes) : State :=
  mkState (sm_Version state) (sm_ChainID state) (sm_InitialHeight state) (sm_LastBlockHeight state) (sm_LastBlockID state)
    (sm_LastBlockTime state) (sm_NextValidators state) (sm_Validators state) (sm_LastValidators state)
    (sm_LastHeightValidatorsChanged state) (sm_ConsensusParams state) (sm_LastHeightConsensusParamsChanged state)
    (sm_LastResultsHash state) appHash.

(** ** The block executor *)

(** What the application, the stores and the evidence pool answer while a block
    is applied: the responses, whether they were saved, the application hash of
    [Commit], whether the file that counts transactions could be rewritten, and
    whether the state was saved. *)
Record Execution := mkExecution {
  ex_Responses : option ABCIResponses;
  ex_SaveResponses : bool;
  ex_Commit : option bytes;
  ex_TxsFile : bool;
  ex_SaveState : bool
}.

(** [ValidateBlock]; [evidence_ok] is the answer of [evpool.CheckEvidence].  The
    error is [None] when the evidence pool refused. *)
Definition ValidateBlock (cache : ValidCache) (evidence_ok : list Evidence -> bool) (state : State) (block : Block)
    : go (ValidCache * option (option ValidateError)) :=
  hash ← Block_Hash (Some block);
  if bool_decide (hash ∈ cache) then Val (cache, None)
  else
    match validateBlock state block with
    | Panic w => Panic w
    | Fail e => Val (cache, Some (Some e))
    | Val _ => if evidence_ok (b_Evidence block) then Val ({[hash]} ∪ cache, None) else Val (cache, Some None)
    end.

(** [ApplyBlock] after its call of [ValidateBlock]. *)
Definition apply_valid (ex : Execution) (state : State) (blockID : BlockID) (block : Block) : outcome ApplyError State :=
  match ex_Responses ex with
  | None => Fail ErrProxyAppConn
  | Some abciResponses =>
      _ ← fail_if (negb (ex_SaveResponses ex)) ErrSaveABCIResponses;
      _ ← validateValidatorUpdates (ar_ValidatorUpdates abciResponses) (cp_Validator (sm_ConsensusParams state));
      validatorUpdates ← PB2TM_ValidatorUpdates (ar_ValidatorUpdates abciResponses);
      state ← updateState state blockID (b_Header block) abciResponses validatorUpdates;
      match ex_Commit ex with
      | None => Fail ErrCommit
      | Some appHash =>
          _ ← panic_if (negb (ex_TxsFile ex)) "txs_in_cs";
          let state := with_AppHash state appHash in
          _ ← fail_if (negb (ex_SaveState ex)) ErrSaveState;
          Val state
      end
  end.

Definition ApplyBlock (cache : ValidCache) (evidence_ok : list Evidence -> bool) (ex : Execution) (state : State)
    (blockID : BlockID) (block : Block) : go (ValidCache * (State + ApplyError)) :=
  '(cache, err) ← ValidateBlock cache evidence_ok state block;
  match err with
  | Some e => Val (cache, inr (ErrInvalidBlock e))
  | None =>
      match apply_valid ex state blockID block with
      | Panic w => Panic w
      | Fail e => Val (cache, inr e)
      | Val state => Val (∅, inl state)
      end
  end.

(** [CreateProposalBlock], given what the evidence pool and the mempool return. *)
Definition CreateProposalBlock (pending : Z -> list Evidence * Z) (reap : Z -> Z -> list Tx) (height : Z) (state : State)
    (commit : Commit) (proposerAddr : bytes) : go (Block * PartSet) :=
  let maxBytes := bp_MaxBytes (cp_Block (sm_ConsensusParams state)) in
  let maxGas := bp_MaxGas (cp_Block (sm_ConsensusParams state)) in
  let '(evidence, evSize) := pending (ep_MaxBytes (cp_Evidence (sm_ConsensusParams state))) in
  vals ← deref (sm_Validators state);
  maxDataBytes ← MaxDataBytes maxBytes evSize (Validator.Size vals);
  State_MakeBlock state height (reap maxDataBytes maxGas) commit evidence proposerAddr.
End state.
