(* ===== verification/ChainStateProofs.v ===== *)
(** * internal/state: the chain state stays in order

    The median time of a commit and what faulty validators can do to it, the
    validator sets as they move through the state, and the blocks a proposer
    makes from a state. *)
From Stdlib Require Import ZArith Lia Sorting.Sorted Strings.Byte.
From stdpp Require Import base list strings gmap sorting.
From S2P Require Import Prelude.
From S2P Require Import Merkle.
From S2P Require Import MerkleProofs.
From S2P Require Import Proto.
From S2P Require Import Validator.
From S2P Require Import ProposerProofs.
From S2P Require Import ValidatorUpdateProofs.
From S2P Require Import ValidatorSetProofs.
From S2P Require Import Types.
From S2P Require Import SignBytesProofs.
From S2P Require Import Validation.
From S2P Require Import ValidationProofs.
From S2P Require Import PartSet.
From S2P Require Import Header.
From S2P Require Import LightVerifierProofs.
From S2P Require Import Block.
From S2P Require Import BlockProofs.
From S2P Require Import ChainState.

(** ** The weighted median *)

(** The weight of the times that satisfy [P]. *)
Definition weight (P : Time -> bool) (o : option weightedTime) : Z :=
  match o with Some w => if P (wt_Time w) then wt_Weight w else 0 | None => 0 end.
Abbreviation weights P l := (sumZ (weight P) l).
Definition all_times (_ : Time) : bool := true.

Lemma weights_cons P o l : weights P (o :: l) = weight P o + weights P l.
Proof. done. Qed.

(** Weights as the validators have them, times within the range of [UnixNano]. *)
Definition fair (o : option weightedTime) : Prop :=
  match o with Some w => 0 < wt_Weight w /\ is_int64 (wt_Time w - 62135596800 * 1000000000) | None => True end.

Lemma fair_weights P l : Forall fair l -> 0 <= weights P l <= weights all_times l.
Proof.
  induction 1 as [|o l Ho _ IH]; [done|]. rewrite !weights_cons. destruct o as [w|]; simpl in *; [|done].
  destruct (P (wt_Time w)); lia.
Qed.

Lemma less_nano a b :
  fair (Some a) -> fair (Some b) -> weightedTime_less (Some a) (Some b) = (wt_Time a <? wt_Time b).
Proof.
  intros [_ Ha] [_ Hb]. simpl. unfold UnixNano. rewrite !int64_id by done. apply eq_true_iff_eq. rewrite !Z.ltb_lt. lia.
Qed.

(** The order of the sorted times: nil comes last. *)
Definition time_le (a b : option weightedTime) : Prop :=
  match a, b with Some a, Some b => wt_Time a <= wt_Time b | None, Some _ => False | _, None => True end.

Lemma times_sorted l : Forall fair l -> StronglySorted time_le (sort_by weightedTime_less l).
Proof.
  intros Hf. assert (Hs : StronglySorted (sort_le weightedTime_less) (sort_by weightedTime_less l)).
  { apply sort_by_sorted.
    - intros [a|] [b|]; simpl; try done. rewrite Z.ltb_lt, Z.ltb_ge. lia.
    - unfold sort_le. intros [a|] [b|] [c|]; simpl; try done. rewrite !Z.ltb_ge. lia. }
  assert (Hf' : Forall fair (sort_by weightedTime_less l)) by (by rewrite sort_by_perm).
  clear Hf. induction Hs as [|x k Hs IH Hx]; [constructor|]. inversion_clear Hf' as [|? ? Hfx Hfk]. constructor; [by apply IH|].
  rewrite Forall_forall in Hx, Hfk |- *. intros y Hy. specialize (Hx y Hy). specialize (Hfk y Hy). unfold sort_le in Hx.
  destruct x as [x|], y as [y|]; try done. rewrite (less_nano y x) in Hx by done. apply Z.ltb_ge in Hx. done.
Qed.

(** The loop stops at the time at which the weight reaches the median. *)
Lemma median_loop_spec m l :
  Forall fair l -> 0 <= m <= weights all_times l -> 0 < weights all_times l <= MaxInt64 ->
  exists l1 w l2, l = l1 ++ Some w :: l2 /\ median_loop m l = wt_Time w /\
    m <= weights all_times l1 + wt_Weight w /\ weights all_times l1 <= Z.max (m - 1) 0.
Proof.
  intros Hf. revert m. induction Hf as [|o l Ho Hl IH]; intros m Hm Ht; [unfold sumZ in Ht; simpl in Ht; lia|].
  pose proof (fair_weights all_times l Hl) as Hn. rewrite weights_cons in *. destruct o as [w|].
  - destruct Ho as [Hw _]. change (weight all_times (Some w)) with (wt_Weight w) in *.
    cbn [median_loop]. destruct (Z.leb_spec m (wt_Weight w)) as [Hle|Hgt].
    + exists [], w, l. split; [done|]. split; [done|]. change (weights all_times []) with 0. lia.
    + rewrite int64_id by int_lia.
      destruct (IH (m - wt_Weight w)) as (l1 & w' & l2 & -> & Hmed & H1 & H2); [lia|lia|].
      exists (Some w :: l1), w', l2. split; [done|]. split; [done|]. rewrite weights_cons.
      change (weight all_times (Some w)) with (wt_Weight w). lia.
  - change (weight all_times None) with 0 in *. destruct (IH m) as (l1 & w' & l2 & -> & Hmed & H1 & H2); [lia|lia|]. exists (None :: l1), w', l2.
    split; [done|]. split; [done|]. by rewrite weights_cons.
Qed.

Lemma weights_all P l : (forall w, Some w ∈ l -> P (wt_Time w) = true) -> weights P l = weights all_times l.
Proof.
  induction l as [|o l IH]; intros Hp; [done|]. rewrite !weights_cons, IH by (intros w Hw; apply Hp; set_solver).
  f_equal. destruct o as [w|]; [|done]. simpl. by rewrite (Hp w) by set_solver.
Qed.

Lemma weightedMedian_bounds l :
  Forall fair l -> 0 < weights all_times l <= MaxInt64 ->
  (exists w, Some w ∈ l /\ weightedMedian l (weights all_times l) = wt_Time w) /\
  (forall hi, 2 * weights (fun t => hi <? t) l < weights all_times l -> weightedMedian l (weights all_times l) <= hi) /\
  (forall lo, weights (fun t => t <? lo) l < weights all_times l / 2 -> lo <= weightedMedian l (weights all_times l)).
Proof.
  intros Hf Ht. set (T := weights all_times l) in *. unfold weightedMedian. set (k := sort_by weightedTime_less l).
  assert (Hp : k ≡ₚ l) by apply sort_by_perm. assert (Hk : Forall fair k) by (by rewrite Hp).
  assert (Hw : forall P, weights P l = weights P k) by (intros P; by rewrite Hp).
  assert (HT : weights all_times k = T) by (by rewrite <- Hw). rewrite Z.quot_div_nonneg by lia.
  pose proof (times_sorted l Hf) as Hs. fold k in Hs.
  destruct (median_loop_spec (T / 2) k Hk) as (l1 & w & l2 & Hsplit & Hmed & H1 & H2); [rewrite HT; split; [apply Z.div_pos; lia|apply Z.div_le_upper_bound; lia]|lia|].
  rewrite Hmed. assert (Hin : Some w ∈ k) by (rewrite Hsplit; set_solver). split; [exists w; by rewrite <- Hp|].
  rewrite Hsplit in Hs, HT, Hk. apply StronglySorted_app in Hs as (Hs1 & _ & Hs2). apply StronglySorted_inv in Hs2 as [_ Hs2].
  rewrite Forall_forall in Hs2. rewrite sumZ_app, weights_cons in HT. change (weight all_times (Some w)) with (wt_Weight w) in HT.
  apply Forall_app in Hk as [Hk1 Hk2]. apply Forall_cons in Hk2 as [[Hpos _] Hk3].
  assert (Hcut : forall P, weights P l = weights P l1 + ((if P (wt_Time w) then wt_Weight w else 0) + weights P l2)).
  { intros P. rewrite Hw, Hsplit, sumZ_app. done. }
  assert (Hd : 2 * (T / 2) <= T /\ T < 2 * (T / 2) + 2) by (pose proof (Z.div_mod T 2); pose proof (Z.mod_pos_bound T 2); lia).
  split.
  - intros hi Hhi. destruct (Z.le_gt_cases (wt_Time w) hi) as [|Hgt]; [done|]. exfalso. rewrite Hcut in Hhi.
    rewrite (weights_all _ l2) in Hhi. 2:{ intros w' Hw'. specialize (Hs2 _ Hw'). simpl in Hs2. apply Z.ltb_lt. lia. }
    destruct (Z.ltb_spec hi (wt_Time w)); [|lia]. pose proof (fair_weights (fun t => hi <? t) l1 Hk1). lia.
  - intros lo Hlo. destruct (Z.le_gt_cases lo (wt_Time w)) as [|Hgt]; [done|]. exfalso. rewrite Hcut in Hlo.
    rewrite (weights_all _ l1) in Hlo. 2:{ intros w' Hw'. specialize (Hs1 (Some w') (Some w) Hw' ltac:(left)). simpl in Hs1. apply Z.ltb_lt. lia. }
    destruct (Z.ltb_spec (wt_Time w) lo); [|lia]. pose proof (fair_weights (fun t => t <? lo) l2 Hk3). lia.
Qed.

(** ** The time of a block *)

(** The time a signature counts for, with the power of its validator. *)
Definition signer_time (vals : ValidatorSet) (cs : CommitSig) : option weightedTime :=
  if Absent cs then None
  else match (GetByAddress vals (cs_ValidatorAddress cs)).2 with
       | Some v => Some (mkWeightedTime (cs_Timestamp cs) (VotingPower v))
       | None => None
       end.
(** The power behind the times that satisfy [P]. *)
Definition time_power (P : Time -> bool) (commit : Commit) (vals : ValidatorSet) : Z :=
  weights P (signer_time vals <$> c_Signatures commit).

Lemma weigh_spec sigs vals acc :
  Forall fair (signer_time vals <$> sigs) -> 0 <= acc -> acc + weights all_times (signer_time vals <$> sigs) <= MaxInt64 ->
  weigh sigs vals acc = (signer_time vals <$> sigs, acc + weights all_times (signer_time vals <$> sigs)).
Proof.
  revert acc. induction sigs as [|cs sigs IH]; intros acc Hf Ha Ht.
  - cbn [weigh]. change (weights all_times _) with 0. by rewrite Z.add_0_r.
  - rewrite fmap_cons in *. apply Forall_cons in Hf as [Hc Hf]. pose proof (fair_weights all_times _ Hf) as Hn. rewrite weights_cons in *.
    assert (Hw : 0 <= weight all_times (signer_time vals cs)) by (destruct (signer_time vals cs) as [w|]; simpl in *; lia).
    assert (E : (if Absent cs then (None, acc) else match (GetByAddress vals (cs_ValidatorAddress cs)).2 with
             | Some v => (Some (mkWeightedTime (cs_Timestamp cs) (VotingPower v)), int64 (acc + VotingPower v))
             | None => (None, acc) end) = (signer_time vals cs, acc + weight all_times (signer_time vals cs))).
    { unfold signer_time in *. destruct (Absent cs); [simpl; f_equal; lia|].
      destruct (GetByAddress _ _).2 as [v|]; [|simpl; f_equal; lia]. change (weight all_times _) with (VotingPower v) in *.
      rewrite int64_id by (unfold is_int64; int_lia). done. }
    cbn [weigh]. rewrite E, IH by (done || lia). f_equal. lia.
Qed.

(** C33: what bounds the time of a block.  The median is the timestamp of one
    of the signers.  It is at most [hi] when signers with less than half of the
    signing power have times after [hi], and at least [lo] when those with times
    before [lo] weigh less than half of it, rounded down; the sums do not overflow. *)
Theorem median_time_bounds commit vals :
  Forall fair (signer_time vals <$> c_Signatures commit) -> 0 < time_power all_times commit vals <= MaxInt64 ->
  (exists cs, cs ∈ c_Signatures commit /\ Absent cs = false /\ MedianTime commit vals = cs_Timestamp cs) /\
  (forall hi, 2 * time_power (fun t => hi <? t) commit vals < time_power all_times commit vals -> MedianTime commit vals <= hi) /\
  (forall lo, time_power (fun t => t <? lo) commit vals < time_power all_times commit vals / 2 -> lo <= MedianTime commit vals).
Proof.
  intros Hf Ht. unfold MedianTime. rewrite weigh_spec by (done || (unfold time_power in Ht; lia)). rewrite Z.add_0_l.
  destruct (weightedMedian_bounds _ Hf Ht) as ((w & Hw & ->) & Hhi & Hlo). split; [|done].
  apply list_elem_of_fmap in Hw as (cs & Hcs & Hin). exists cs. split; [done|]. unfold signer_time in Hcs.
  destruct (Absent cs); [done|]. destruct (GetByAddress _ _).2; [|done]. by injection Hcs as ->.
Qed.

(** A set in which a minority can set the time back: four validators of power 1. *)
Definition epoch : Time := 62135596800 * 1000000000.
Definition epoch_time : TimeCodec.
Proof.
  refine {| StdTimeMarshal := fun t => toy_time_marshal (t - epoch) |}.
  - intros t t' b H1 H2. pose proof (toy_time_inj _ _ _ H1 H2). lia.
  - intros t b. apply toy_time_len.
Defined.
Definition four_set : ValidatorSet :=
  match NewValidatorSet [sample_validator x01 1; sample_validator x02 1; sample_validator x03 1; sample_validator x04 1] with
  | Val v => v
  | _ => empty_set
  end.
Definition sign_at (t : Time) (i : Z) (b : byte) : CommitSig :=
  match @VoteSignBytes epoch_time [x61] (mkVote PrecommitType 5 1 (sample_blockid x07) t (replicate 20 b) i []) with
  | Val bz => mkCommitSig BlockIDFlagCommit (replicate 20 b) t (b :: toy_digest bz)
  | _ => NewCommitSigAbsent
  end.
(** The first validator reports an early time, two others the same later one. *)
Definition early : Time := epoch + 1000.
Definition honest : Time := epoch + 999000.
Definition early_commit : Commit :=
  mkCommit 5 1 (sample_blockid x07) [sign_at early 0 x01; sign_at honest 1 x02; sign_at honest 2 x03; NewCommitSigAbsent].

Definition fairb (o : option weightedTime) : bool :=
  match o with
  | Some w => (0 <? wt_Weight w) && (MinInt64 <=? wt_Time w - epoch) && (wt_Time w - epoch <=? MaxInt64)
  | None => true
  end.
Lemma fairb_spec l : forallb fairb l = true -> Forall fair l.
Proof.
  rewrite forallb_forall. intros Hl. apply Forall_forall. intros [w|] Ho; [|done]. apply list_elem_of_In in Ho. specialize (Hl _ Ho). simpl in *.
  rewrite !andb_true_iff in Hl. destruct Hl as [[H1 H2] H3]. z_bool. split; [done|]. unfold epoch in *. int_lia.
Qed.

Lemma median_time_bounds_witness : MedianTime early_commit four_set <= honest.
Proof.
  destruct (median_time_bounds early_commit four_set) as (_ & Hhi & _).
  - apply fairb_spec. vm_compute. reflexivity.
  - vm_compute. split; [reflexivity|discriminate].
  - apply Hhi. vm_compute. reflexivity.
Defined.

(** A faulty minority can set the block time.  A commit that verifies, in
    which one validator with a quarter of the power reports a time before those of all
    other signers, has that time as its median: the computed time need not lie between
    the times of the honest signers. *)
Theorem median_time_set_by_minority :
  @VerifyCommit digest_crypto digest_batch epoch_time [x61] (Some four_set) (sample_blockid x07) 5 (Some early_commit) = Val tt /\
  (exists v, v ∈ Validators four_set /\ Address v = replicate 20 x01 /\ 3 * VotingPower v < total four_set) /\
  (forall cs, cs ∈ c_Signatures early_commit -> Absent cs = false -> cs_ValidatorAddress cs <> replicate 20 x01 ->
     cs_Timestamp cs = honest) /\
  MedianTime early_commit four_set = early /\ early < honest.
Proof.
  split; [vm_compute; reflexivity|]. split; [|split; [|split; [vm_compute; reflexivity|unfold early, honest; lia]]].
  - assert (Hl : exists v rest, Validators four_set = v :: rest /\ Address v = replicate 20 x01 /\ 3 * VotingPower v < total four_set).
    { eexists _, _. split; [vm_compute; reflexivity|]. split; vm_compute; reflexivity. }
    destruct Hl as (v & rest & Hv & Ha & Hp). exists v. split; [|exact (conj Ha Hp)].
    rewrite Hv. apply elem_of_cons. left. reflexivity.
  - assert (Hall : forallb (fun cs => Absent cs || bytes_equal (cs_ValidatorAddress cs) (replicate 20 x01) || (cs_Timestamp cs =? honest))
        (c_Signatures early_commit) = true) by (vm_compute; reflexivity).
    intros cs Hcs%list_elem_of_In Ha Hne. rewrite forallb_forall in Hall. specialize (Hall cs Hcs). rewrite Ha in Hall.
    destruct (bytes_equal_spec (cs_ValidatorAddress cs) (replicate 20 x01)); [done|]. by apply Z.eqb_eq in Hall.
Qed.

(** ** The state after a block *)

(** A validator set of a state: well formed and, where blocks are made from it, not empty. *)
Definition live_set (o : option ValidatorSet) : Prop := exists vals, o = Some vals /\ reachable vals /\ Validators vals <> [].

Record state_ok (st : State) : Prop := {
  so_next : live_set (sm_NextValidators st);
  so_current : live_set (sm_Validators st);
  so_last : exists vals, sm_LastValidators st = Some vals /\ reachable vals;
  so_params : ValidateConsensusParams (sm_ConsensusParams st) = Val tt
}.

Lemma same_validators_powers l l' : same_validators l l' -> powers l' = powers l.
Proof.
  intros Hs. unfold powers. f_equal. induction Hs as [|v w l l' (Ha & _ & Hp) _ IH]; [done|]. rewrite !fmap_cons. congruence.
Qed.

Section blocks.
Context `{!Crypto, !BatchCrypto, !Sha256, !TimeCodec, !WrapperCodec, !EvidenceOps, !BlockCodec}.

(** The validators after the changes of a block, rotated once. *)
Lemma next_validators vals ups lh h :
  reachable vals -> Validators vals <> [] ->
  let changed := if len ups >? 0 then nValSet ← wrap_err ErrChangingValidators (UpdateWithChangeSet vals ups); Val (nValSet, int64 (h + 1 + 1))
                 else Val (vals, lh) in
  (exists e, changed = Fail (ErrChangingValidators e) /\ ~ legal (powers (Validators vals)) ups true) \/
  (exists v v' lh', changed = Val (v, lh') /\ IncrementProposerPriority v 1 = Val v' /\ reachable v' /\ Validators v' <> [] /\
     powers (Validators v') = apply_changes (powers (Validators vals)) ups).
Proof.
  intros Hr Hne changed. assert (Hrot : forall v, reachable v -> Validators v <> [] ->
    exists v', IncrementProposerPriority v 1 = Val v' /\ reachable v' /\ Validators v' <> [] /\ powers (Validators v') = powers (Validators v)).
  { intros v Hrv Hnv. destruct (IncrementProposerPriority_wf v 1 (reachable_invariant v Hrv) Hnv ltac:(by left)) as (v' & Hi & _ & Hs).
    exists v'. split; [done|]. split; [by apply (reach_rotate v 1 v' Hrv ltac:(by left))|].
    split; [by eapply same_nonempty|by apply same_validators_powers]. }
  destruct (decide (ups = [])) as [->|Hups].
  { right. destruct (Hrot vals Hr Hne) as (v' & ? & ? & ? & ?). by exists vals, v', lh. }
  assert (Hlen : (len ups >? 0) = true) by (rewrite Z.gtb_lt; unfold len; destruct ups; [done|simpl; lia]).
  unfold changed. rewrite Hlen. clear changed. unfold UpdateWithChangeSet.
  destruct (update_refines vals ups true (reachable_invariant vals Hr) Hups) as [Hok Hbad].
  destruct (decide (legal (powers (Validators vals)) ups true)) as [Hl|Hl].
  - right. destruct (Hok Hl) as (v & Hv & _ & Hp & _). rewrite Hv.
    assert (Hrv : reachable v) by (by eapply reach_update). assert (Hnv : Validators v <> []).
    { intros Hn. destruct Hl as (_ & _ & _ & Hnonempty & _). by rewrite <- Hp, Hn in Hnonempty. }
    destruct (Hrot v Hrv Hnv) as (v' & ? & ? & ? & ?). exists v, v', (int64 (h + 1 + 1)). split; [done|]. by rewrite <- Hp.
  - left. destruct (Hbad Hl) as [e ->]. by exists e.
Qed.

(** Applying the results of a block keeps the chain state in order.  From a
    state whose validator sets are well formed and whose parameters are valid,
    [updateState] never panics: it fails exactly for illegal validator changes or
    invalid parameters, and otherwise the next validators become the current ones, the
    current ones the last ones, the new next validators are the old ones with the
    changes applied, and the new state is in order again. *)
Theorem update_state_ok st bid h resp ups :
  state_ok st -> len (ar_DeliverTxs resp) <= MaxInt64 ->
  (exists e, updateState st bid h resp ups = Fail e /\
     ((exists vals, sm_NextValidators st = Some vals /\ ~ legal (powers (Validators vals)) ups true) \/
      is_val (ValidateConsensusParams (UpdateConsensusParams (sm_ConsensusParams st) (ar_ConsensusParamUpdates resp))) = false)) \/
  (exists st' vals vals', updateState st bid h resp ups = Val st' /\ state_ok st' /\
     sm_Validators st' = sm_NextValidators st /\ sm_LastValidators st' = sm_Validators st /\
     sm_LastBlockHeight st' = h_Height h /\ sm_LastBlockID st' = bid /\ sm_LastBlockTime st' = h_Time h /\
     sm_NextValidators st = Some vals /\ sm_NextValidators st' = Some vals' /\
     powers (Validators vals') = apply_changes (powers (Validators vals)) ups /\
     sm_ConsensusParams st' = UpdateConsensusParams (sm_ConsensusParams st) (ar_ConsensusParamUpdates resp)).
Proof.
  intros [(nv & En & Hrn & Hnn) (cv & Ec & Hrc & Hnc) (lv & El & Hrl) Hpar] Hlen. unfold updateState. rewrite En, Ec. cbn [deref mbind outcome_bind].
  destruct (next_validators nv ups (sm_LastHeightValidatorsChanged st) (h_Height h) Hrn Hnn) as [(e & Hf & Hl)|(v & v' & lh & Hv & Hi & Hr' & Hn' & Hp)].
  { left. exists (ErrChangingValidators e). split; [|left; by exists nv]. by rewrite Hf. }
  rewrite Hv. cbn [mbind outcome_bind]. rewrite Hi. cbn [lift mbind outcome_bind].
  destruct (HashFromByteSlices_total (ResponseDeliverTx_Marshal <$> NewResults (ar_DeliverTxs resp))) as [x Hx].
  { unfold len, NewResults in *. by rewrite !length_fmap. }
  assert (Hres : ABCIResponsesResultsHash resp = Val x) by done.
  assert (Hlive : live_set (Some v')) by (by exists v'). assert (Hnext : live_set (Some nv)) by (by exists nv).
  destruct (ar_ConsensusParamUpdates resp) as [u|] eqn:Hu.
  - set (np := UpdateConsensusParams (sm_ConsensusParams st) (Some u)).
    destruct (ValidateConsensusParams np) as [[]|e|w] eqn:Hnp; cbn [wrap_err mbind outcome_bind].
    + right. rewrite Hres. cbn [lift mbind outcome_bind]. eexists _, nv, v'. split; [done|]. split; [split; simpl; try done; eauto|].
      done.
    + left. exists (ErrUpdatingParams e). split; [done|by right].
    + exfalso. unfold ValidateConsensusParams in Hnp. repeat (destruct (fail_if _ _) as [[]| |] eqn:?; cbn [mbind outcome_bind] in Hnp; [|done|]);
        unfold fail_if in *; by repeat case_match.
  - right. rewrite Hres. cbn [lift mbind outcome_bind]. eexists _, nv, v'. split; [done|]. split; [split; simpl; try done; eauto|].
    done.
Qed.

(** A successful [updateState] or [ApplyBlock] keeps the chain state in order, and moves its
    next validators to the current ones. *)
Lemma updateState_val_ok st bid h resp ups st' : state_ok st -> updateState st bid h resp ups = Val st' ->
  state_ok st' /\ sm_Validators st' = sm_NextValidators st /\ sm_LastValidators st' = sm_Validators st.
Proof.
  intros [(nv & En & Hrn & Hnn) (cv & Ec & Hrc & Hnc) (lv & El & Hrl) Hpar]. unfold updateState. rewrite En, Ec. cbn [deref mbind outcome_bind].
  destruct (next_validators nv ups (sm_LastHeightValidatorsChanged st) (h_Height h) Hrn Hnn) as [(e & Hf & _)|(v & v' & lh & Hv & Hi & Hr' & Hn' & _)];
    [rewrite Hf; discriminate|].
  rewrite Hv. cbn [mbind outcome_bind]. rewrite Hi. cbn [lift mbind outcome_bind]. intros Hu.
  apply bind_val in Hu as ([[np lhp] ver] & Hp & Hu). apply bind_val in Hu as (rh & _ & Hu). injection Hu as <-. simpl.
  split; [|done]. split; simpl; [by exists v'|by exists nv|by exists cv|].
  destruct (ar_ConsensusParamUpdates resp) as [u|]; [|by injection Hp as <- <- <-].
  apply bind_val in Hp as ([] & Hok & Hp). injection Hp as <- <- <-.
  clear Hpar. destruct (ValidateConsensusParams _) as [[]| |]; [done|discriminate..].
Qed.
Lemma ApplyBlock_ok cache evidence_ok ex st bid b cache' st' : state_ok st -> ApplyBlock cache evidence_ok ex st bid b = Val (cache', inl st') ->
  state_ok st' /\ sm_Validators st' = sm_NextValidators st.
Proof.
  intros Hok Hap. unfold ApplyBlock in Hap. apply bind_val in Hap as ([c e] & _ & Hap). destruct e; [done|].
  destruct (apply_valid ex st bid b) as [st1| |] eqn:Ha; simplify_eq. unfold apply_valid in Ha. destruct (ex_Responses ex); [|done].
  do 3 apply bind_val in Ha as (? & _ & Ha). apply bind_val in Ha as (st2 & Hu & Ha).
  destruct (updateState_val_ok _ _ _ _ _ _ Hok Hu) as ([] & Hv & _).
  destruct (ex_Commit ex); [|done]. apply bind_val in Ha as (? & _ & Ha). apply bind_val in Ha as (? & _ & Ha). simplify_eq. by split.
Qed.

(** The height of the block that follows a state. *)
Definition follows (st : State) (height : Z) : Prop :=
  if sm_LastBlockHeight st =? 0 then height = sm_InitialHeight st
  else height = int64 (sm_LastBlockHeight st + 1) /\ 0 < sm_LastBlockHeight st /\ sm_InitialHeight st < height.

(** The last commit a block of that height needs: none for the first block, a
    verified one whose median time is after the last block otherwise. *)
Definition commit_fits (st : State) (height : Z) (commit : Commit) : Prop :=
  if height =? sm_InitialHeight st then c_Signatures commit = []
  else VerifyCommit (sm_ChainID st) (sm_LastValidators st) (sm_LastBlockID st) (int64 (height - 1)) (Some commit) = Val tt /\
       forall lv, sm_LastValidators st = Some lv -> sm_LastBlockTime st < MedianTime commit lv.

(** Proposers make valid blocks.  The block [MakeBlock] builds from a state,
    with a last commit that fits, valid evidence within its limit, a proposer among the
    validators and a header within the basic limits, passes [validateBlock] against the
    same state. *)
Theorem proposal_validates st height txs commit evl addr block ps n :
  State_MakeBlock st height txs commit evl addr = Val (block, ps) -> follows st height -> commit_fits st height commit ->
  Commit_ValidateBasic commit = Val tt -> (exists x, Commit_Hash (Some commit) = Val x) -> len txs <= MaxInt64 -> len evl <= MaxInt64 ->
  validate_evidence 0 evl = Val tt -> Header_ValidateBasic (b_Header block) = Val tt ->
  (forall vals, sm_Validators st = Some vals -> HasAddress vals addr = true) ->
  EvidenceData_ByteSize evl = Val n -> n <= ep_MaxBytes (cp_Evidence (sm_ConsensusParams st)) ->
  validateBlock st block = Val tt.
Proof.
  intros Hmake Hh Hc Hcv Hch Htx Hev Hevv Hhv Haddr Hsize Hmax.
  destruct (make_block_validates height txs commit evl Hcv Hch Htx Hev Hevv) as (b & Hb & Hbh & Hbt & Hbasic).
  unfold State_MakeBlock in Hmake. rewrite Hb in Hmake. cbn [mbind outcome_bind] in Hmake.
  apply bind_val in Hmake as (ts & Hts & Hmake). apply bind_val in Hmake as (vals & Hvals & Hmake).
  apply bind_val in Hmake as (vh & Hvh & Hmake). apply bind_val in Hmake as (nvals & Hnvals & Hmake).
  apply bind_val in Hmake as (nh & Hnh & Hmake). apply bind_val in Hmake as (ps' & _ & Hmake). injection Hmake as <- <-.
  assert (Ev : sm_Validators st = Some vals) by (destruct (sm_Validators st); simpl in Hvals; congruence).
  assert (En : sm_NextValidators st = Some nvals) by (destruct (sm_NextValidators st); simpl in Hnvals; congruence).
  assert (Hlc : b_LastCommit b = Some commit /\ b_Evidence b = evl).
  { unfold MakeBlock, fillHeader in Hb. inv_val. done. }
  destruct Hlc as [Hlc Hbe]. unfold validateBlock. specialize (Hbasic _ _ _ _ _ _ _ _ _ _ Hhv). unfold with_header in Hbasic.
  rewrite Hbasic. cbn [wrap_err mbind outcome_bind b_Header b_LastCommit b_Evidence Header_Populate h_Version h_ChainID h_Height h_LastBlockID
    h_AppHash h_ConsensusHash h_LastResultsHash h_ValidatorsHash h_NextValidatorsHash h_ProposerAddress h_Time] in *.
  rewrite !Z.eqb_refl, bytes_equal_refl, Hbh. cbn [negb orb fail_if mbind outcome_bind].
  rewrite (proj2 (BlockID_Equals_spec _ _) eq_refl), !bytes_equal_refl, Ev, En. cbn [negb fail_if mbind outcome_bind deref].
  rewrite Hvh, Hnh. cbn [lift mbind outcome_bind]. rewrite !bytes_equal_refl, Hlc, Hbe, Hsize, (Haddr vals Ev). cbn [negb fail_if mbind outcome_bind deref lift].
  unfold follows, commit_fits, validate_last_commit, validate_time in *.
  assert (Hsz : (n >? ep_MaxBytes (cp_Evidence (sm_ConsensusParams st))) = false) by (rewrite Z.gtb_ltb, Z.ltb_ge; lia). rewrite Hsz.
  destruct (Z.eqb_spec (sm_LastBlockHeight st) 0) as [Hz|Hnz].
  - subst height. rewrite Z.eqb_refl, Hz in *. rewrite Hc. assert (Hgt : (sm_InitialHeight st >? sm_InitialHeight st) = false) by (rewrite Z.gtb_ltb, Z.ltb_ge; lia).
    rewrite Hgt. injection Hts as <-. rewrite Z.eqb_refl. done.
  - destruct Hh as (Heq & Hpos & Hinit). destruct (Z.eqb_spec height (sm_InitialHeight st)) as [|Hne]; [lia|]. destruct Hc as [Hver Hmed].
    rewrite <- Heq, Z.eqb_refl, Hver. cbn [andb negb fail_if wrap_err mbind outcome_bind]. rewrite andb_false_r.
    assert (Hgt : (height >? sm_InitialHeight st) = true) by (rewrite Z.gtb_lt; lia). rewrite Hgt.
    apply bind_val in Hts as (lv & Hlv & Hts). injection Hts as <-.
    assert (El : sm_LastValidators st = Some lv) by (destruct (sm_LastValidators st); simpl in Hlv; congruence).
    rewrite El. cbn [deref mbind outcome_bind fail_if]. rewrite Z.eqb_refl. specialize (Hmed lv El).
    assert (Hg2 : (MedianTime commit lv >? sm_LastBlockTime st) = true) by (rewrite Z.gtb_lt; lia). by rewrite Hg2.
Qed.
End blocks.
