(* ===== verification/Evidence.v ===== *)
(** * types: evidence of misbehaviour, and its verification

    Models types/evidence.go and internal/evidence/verify.go.  Pointers that may
    be nil are options; the byzantine validators of an attack are a slice for
    which the code distinguishes nil from empty, so it is an option of a list.
    A protobuf message has the fields of the value it encodes: [ToProto] and
    [FromProto] are modelled as the checks and changes they make, and the bytes
    of a message are the class [EvidenceCodec]. *)
From Stdlib Require Import ZArith Lia Strings.Byte.
From stdpp Require Import base list strings gmap.
From S2P Require Import Prelude.
From S2P Require Import Merkle.
From S2P Require Import SafeMath.
From S2P Require Import Proto.
From S2P Require Import Validator.
From S2P Require Import Types.
From S2P Require Import Validation.
From S2P Require Import Header.
From S2P Require Import LightVerifier.
From S2P Require Import Block.
From S2P Require Import ChainState.

(** A nil pointer is dereferenced. *)
Abbreviation nil_panic := (Panic "invalid memory address or nil pointer dereference").

(** ** Evidence *)

Record DuplicateVoteEvidence := mkDuplicateVoteEvidence {
  dve_VoteA : option Vote;
  dve_VoteB : option Vote;
  dve_TotalVotingPower : Z;
  dve_ValidatorPower : Z;
  dve_Timestamp : Time
}.

Record LightClientAttackEvidence := mkLightClientAttackEvidence {
  lca_ConflictingBlock : option LightBlock;
  lca_CommonHeight : Z;
  lca_ByzantineValidators : option (list (option Validator));
  lca_TotalVotingPower : Z;
  lca_Timestamp : Time
}.

(** The two implementations of the interface [Evidence]. *)
Inductive evidence :=
  | DuplicateVote (dve : DuplicateVoteEvidence)
  | LightClientAttack (lca : LightClientAttackEvidence).

Inductive EvError :=
  | ErrMissingVote | ErrMissingValSet | ErrNotInValSet
  | ErrEmptyVotes | ErrVoteA (e : TypeError) | ErrVoteB (e : TypeError) | ErrVoteOrder
  | ErrAbciTime | ErrAbciPower | ErrAbciTotal
  | ErrNilConflicting | ErrConflictingNoHeader | ErrNoTotalPower | ErrCommonHeight | ErrCommonAhead
  | ErrConflictingBlock (e : LightBlockError)
  | ErrAmnesiaValidators | ErrNumByzantine | ErrByzantineAddress | ErrByzantinePower
  | ErrToProto | ErrFromProto.

(** The encoded messages. *)
Class EvidenceCodec := {
  DuplicateVote_Bytes : DuplicateVoteEvidence -> bytes;
  LightClientAttack_Bytes : LightClientAttackEvidence -> bytes
}.

Section evidence.
Context `{!Crypto, !BatchCrypto, !Sha256, !TimeCodec, !WrapperCodec, !EvidenceCodec}.

(** ** Duplicate votes *)

(** [strings.Compare(a.BlockID.Key(), b.BlockID.Key())]. *)
Definition compare_keys (a b : Vote) : comparison := bytes_compare (BlockID_Key (v_BlockID a)) (BlockID_Key (v_BlockID b)).

Definition NewDuplicateVoteEvidence (vote1 vote2 : option Vote) (blockTime : Time) (valSet : option ValidatorSet)
    : outcome EvError DuplicateVoteEvidence :=
  match vote1, vote2, valSet with
  | None, _, _ | _, None, _ => Fail ErrMissingVote
  | _, _, None => Fail ErrMissingValSet
  | Some vote1, Some vote2, Some vals =>
      match (GetByAddress vals (v_ValidatorAddress vote1)).2 with
      | None => Fail ErrNotInValSet
      | Some val =>
          let '(voteA, voteB) := match compare_keys vote1 vote2 with Lt => (vote1, vote2) | _ => (vote2, vote1) end in
          '(total, _) ← lift (TotalVotingPower vals);
          Val (mkDuplicateVoteEvidence (Some voteA) (Some voteB) total (VotingPower val) blockTime)
      end
  end.

Definition DuplicateVote_Hash (dve : DuplicateVoteEvidence) : bytes := tmhash_Sum (DuplicateVote_Bytes dve).

Definition DuplicateVote_Height (dve : DuplicateVoteEvidence) : go Z :=
  match dve_VoteA dve with None => nil_panic | Some v => Val (v_Height v) end.

Definition DuplicateVote_ValidateBasic (dve : DuplicateVoteEvidence) : outcome EvError unit :=
  match dve_VoteA dve, dve_VoteB dve with
  | Some a, Some b =>
      _ ← wrap_err ErrVoteA (Vote_ValidateBasic a);
      _ ← wrap_err ErrVoteB (Vote_ValidateBasic b);
      match compare_keys a b with Lt => Val tt | _ => Fail ErrVoteOrder end
  | _, _ => Fail ErrEmptyVotes
  end.

Definition DuplicateVote_ValidateABCI (dve : DuplicateVoteEvidence) (val : Validator) (valSet : ValidatorSet) (evidenceTime : Time)
    : outcome EvError unit :=
  _ ← fail_if (negb (dve_Timestamp dve =? evidenceTime)) ErrAbciTime;
  _ ← fail_if (negb (VotingPower val =? dve_ValidatorPower dve)) ErrAbciPower;
  '(total, _) ← lift (TotalVotingPower valSet);
  fail_if (negb (total =? dve_TotalVotingPower dve)) ErrAbciTotal.

Definition DuplicateVote_GenerateABCI (dve : DuplicateVoteEvidence) (val : Validator) (valSet : ValidatorSet) (evidenceTime : Time)
    : go DuplicateVoteEvidence :=
  '(total, _) ← TotalVotingPower valSet;
  Val (mkDuplicateVoteEvidence (dve_VoteA dve) (dve_VoteB dve) total (VotingPower val) evidenceTime).

(** ** Attacks on light clients *)

(** The header and the commit of a light block through the embedded pointers. *)
Definition lb_header {E} (lb : LightBlock) : outcome E Header :=
  match lb_SignedHeader lb with
  | Some sh => match sh_Header sh with Some h => Val h | None => nil_panic end
  | None => nil_panic
  end.
Definition lb_commit {E} (lb : LightBlock) : outcome E Commit :=
  match lb_SignedHeader lb with
  | Some sh => match sh_Commit sh with Some c => Val c | None => nil_panic end
  | None => nil_panic
  end.
Definition sh_header {E} (sh : SignedHeader) : outcome E Header := match sh_Header sh with Some h => Val h | None => nil_panic end.
Definition sh_commit {E} (sh : SignedHeader) : outcome E Commit := match sh_Commit sh with Some c => Val c | None => nil_panic end.
(** [Header.Hash] on a pointer that may be nil. *)
Definition sh_hash (sh : SignedHeader) : go bytes := match sh_Header sh with Some h => Header_Hash h | None => Val [] end.
Definition lb_hash (lb : LightBlock) : go bytes := match lb_SignedHeader lb with Some sh => sh_hash sh | None => nil_panic end.
Definition conflicting {E} (l : LightClientAttackEvidence) : outcome E LightBlock :=
  match lca_ConflictingBlock l with Some lb => Val lb | None => nil_panic end.

Definition ConflictingHeaderIsInvalid (lb : LightBlock) (trusted : Header) : go bool :=
  h ← lb_header lb;
  Val (negb (bytes_equal (h_ValidatorsHash trusted) (h_ValidatorsHash h)) ||
       negb (bytes_equal (h_NextValidatorsHash trusted) (h_NextValidatorsHash h)) ||
       negb (bytes_equal (h_ConsensusHash trusted) (h_ConsensusHash h)) ||
       negb (bytes_equal (h_AppHash trusted) (h_AppHash h)) ||
       negb (bytes_equal (h_LastResultsHash trusted) (h_LastResultsHash h))).

(** [sort.Sort(ValidatorsByVotingPower(validators))]: comparing reads both
    validators, so a nil one among several panics. *)
Definition sort_by_power (vals : list (option Validator)) : go (list (option Validator)) :=
  if 2 <=? len vals then
    match mapM id vals with
    | None => nil_panic
    | Some l => Val (Some <$> sort_by ByVotingPower_Less l)
    end
  else Val vals.

(** The signers for the block that are in the common validator set. *)
Definition lunatic_signers (commonVals : ValidatorSet) (sigs : list CommitSig) : list (option Validator) :=
  omap (fun cs => if ForBlock cs then Some <$> (GetByAddress commonVals (cs_ValidatorAddress cs)).2 else None) sigs.

(** The signers of both commits, by index. *)
Fixpoint double_signers (vals : option ValidatorSet) (i : Z) (sigs trusted : list CommitSig) : go (list (option Validator)) :=
  match sigs with
  | [] => Val []
  | sigA :: rest =>
      if negb (ForBlock sigA) then double_signers vals (i + 1) rest trusted
      else
        sigB ← slice_get trusted i;
        if negb (ForBlock sigB) then double_signers vals (i + 1) rest trusted
        else
          match vals with
          | None => nil_panic
          | Some vs =>
              l ← double_signers vals (i + 1) rest trusted;
              Val ((GetByAddress vs (cs_ValidatorAddress sigA)).2 :: l)
          end
  end.

(** The slice is nil exactly when it is empty: it is built by appending. *)
Definition GetByzantineValidators (lb : LightBlock) (commonVals : ValidatorSet) (trusted : SignedHeader)
    : go (list (option Validator)) :=
  th ← sh_header trusted;
  invalid ← ConflictingHeaderIsInvalid lb th;
  c ← lb_commit lb;
  if (invalid : bool) then sort_by_power (lunatic_signers commonVals (c_Signatures c))
  else
    tc ← sh_commit trusted;
    if c_Round tc =? c_Round c then
      vals ← double_signers (lb_ValidatorSet lb) 0 (c_Signatures c) (c_Signatures tc);
      sort_by_power vals
    else Val [].

(** [binary.PutVarint]: zigzag, then a varint. *)
Definition put_varint (x : Z) : bytes :=
  let ux := uint64 (x * 2) in uvarint (if x <? 0 then MaxUint64 - ux else ux).

(** The buffer that is hashed: only the first 31 bytes of the block hash are copied. *)
Definition attack_hash_input (blockHash : bytes) (commonHeight : Z) : bytes :=
  take 31 blockHash ++ replicate (31 - length blockHash) x00 ++ [x00] ++ put_varint commonHeight.
Definition LightClientAttack_Hash (l : LightClientAttackEvidence) : go bytes :=
  lb ← conflicting l;
  h ← lb_hash lb;
  Val (tmhash_Sum (attack_hash_input h (lca_CommonHeight l))).

Definition LightClientAttack_ValidateBasic (l : LightClientAttackEvidence) : outcome EvError unit :=
  match lca_ConflictingBlock l with
  | None => Fail ErrNilConflicting
  | Some lb =>
      match lb_SignedHeader lb with
      | None => nil_panic
      | Some sh =>
          match sh_Header sh with
          | None => Fail ErrConflictingNoHeader
          | Some h =>
              _ ← fail_if (lca_TotalVotingPower l <=? 0) ErrNoTotalPower;
              _ ← fail_if (lca_CommonHeight l <=? 0) ErrCommonHeight;
              _ ← fail_if (lca_CommonHeight l >? h_Height h) ErrCommonAhead;
              wrap_err ErrConflictingBlock (LightBlock_ValidateBasic lb (h_ChainID h))
          end
      end
  end.

(** The listed validators are those found, in the same order. *)
Fixpoint match_byzantine (found listed : list (option Validator)) : outcome EvError unit :=
  match found, listed with
  | [], _ => Val tt
  | Some v :: fs, Some b :: bs =>
      _ ← fail_if (negb (bytes_equal (Address b) (Address v))) ErrByzantineAddress;
      _ ← fail_if (negb (VotingPower b =? VotingPower v)) ErrByzantinePower;
      match_byzantine fs bs
  | _, _ => nil_panic
  end.

Definition LightClientAttack_ValidateABCI (l : LightClientAttackEvidence) (commonVals : ValidatorSet) (trusted : SignedHeader)
    (evidenceTime : Time) : outcome EvError unit :=
  '(total, _) ← lift (TotalVotingPower commonVals);
  _ ← fail_if (negb (lca_TotalVotingPower l =? total)) ErrAbciTotal;
  _ ← fail_if (negb (lca_Timestamp l =? evidenceTime)) ErrAbciTime;
  lb ← conflicting l;
  validators ← lift (GetByzantineValidators lb commonVals trusted);
  _ ← fail_if ((len validators =? 0) && match lca_ByzantineValidators l with Some _ => true | None => false end) ErrAmnesiaValidators;
  let listed := from_option id [] (lca_ByzantineValidators l) in
  _ ← fail_if (negb (len validators =? len listed)) ErrNumByzantine;
  match_byzantine validators listed.

Definition LightClientAttack_GenerateABCI (l : LightClientAttackEvidence) (commonVals : ValidatorSet) (trusted : SignedHeader)
    (evidenceTime : Time) : go LightClientAttackEvidence :=
  '(total, _) ← TotalVotingPower commonVals;
  lb ← conflicting l;
  validators ← GetByzantineValidators lb commonVals trusted;
  Val (mkLightClientAttackEvidence (lca_ConflictingBlock l) (lca_CommonHeight l)
         (match validators with [] => None | _ => Some validators end) total evidenceTime).

(** ** The interface *)

Definition Evidence_Height (ev : evidence) : go Z :=
  match ev with DuplicateVote dve => DuplicateVote_Height dve | LightClientAttack l => Val (lca_CommonHeight l) end.
Definition Evidence_Time (ev : evidence) : Time :=
  match ev with DuplicateVote dve => dve_Timestamp dve | LightClientAttack l => lca_Timestamp l end.
Definition Evidence_Hash (ev : evidence) : go bytes :=
  match ev with DuplicateVote dve => Val (DuplicateVote_Hash dve) | LightClientAttack l => LightClientAttack_Hash l end.
Definition Evidence_Bytes (ev : evidence) : bytes :=
  match ev with DuplicateVote dve => DuplicateVote_Bytes dve | LightClientAttack l => LightClientAttack_Bytes l end.
Definition Evidence_ValidateBasic (ev : evidence) : outcome EvError unit :=
  match ev with DuplicateVote dve => DuplicateVote_ValidateBasic dve | LightClientAttack l => LightClientAttack_ValidateBasic l end.

(** [EvidenceList.Has]. *)
Fixpoint EvidenceList_Has (evl : list evidence) (ev : evidence) : go bool :=
  match evl with
  | [] => Val false
  | e :: rest =>
      h ← Evidence_Hash ev;
      h' ← Evidence_Hash e;
      if bytes_equal h h' then Val true else EvidenceList_Has rest ev
  end.

(** ** Messages *)

(** A validator that is nil or has no key has no message. *)
Definition Validator_ToProto (v : option Validator) : outcome EvError Validator :=
  match v with
  | None => Fail ErrToProto
  | Some v => _ ← fail_if (bool_decide (PubKey_ v = None)) ErrToProto; Val v
  end.
Fixpoint validators_to_proto (l : list (option Validator)) : outcome EvError (list Validator) :=
  match l with
  | [] => Val []
  | v :: rest => v ← Validator_ToProto v; vs ← validators_to_proto rest; Val (v :: vs)
  end.
(** The cached total is not sent; an empty set is the empty message. *)
Definition ValidatorSet_ToProto (vals : ValidatorSet) : outcome EvError ValidatorSet :=
  if is_empty vals then Val (mkValidatorSet [] None 0)
  else
    vs ← validators_to_proto (Some <$> Validators vals);
    p ← Validator_ToProto (Proposer vals);
    Val (mkValidatorSet vs (Some p) 0).
Definition LightBlock_ToProto (lb : LightBlock) : outcome EvError LightBlock :=
  match lb_ValidatorSet lb with
  | None => Val lb
  | Some vals => vp ← ValidatorSet_ToProto vals; Val (mkLightBlock (lb_SignedHeader lb) (Some vp))
  end.

(** [encoding.PubKeyFromProto]: the size of the key is that of its type. *)
Definition key_from_proto (k : option PubKey) : outcome EvError PubKey :=
  match k with
  | None => Fail ErrFromProto
  | Some pk => _ ← fail_if (negb (len (pk_Bytes pk) =? PubKeySize (pk_Type pk))) ErrFromProto; Val pk
  end.
Definition ValidatorFromProto (v : Validator) : outcome EvError Validator :=
  _ ← key_from_proto (PubKey_ v); Val v.
Fixpoint validators_from_proto (l : list Validator) : outcome EvError (list Validator) :=
  match l with
  | [] => Val []
  | v :: rest => v ← ValidatorFromProto v; vs ← validators_from_proto rest; Val (v :: vs)
  end.
(** The total is recomputed, which panics when it is too large. *)
Definition ValidatorSetFromProto (vp : ValidatorSet) : outcome EvError ValidatorSet :=
  vs ← validators_from_proto (Validators vp);
  match Proposer vp with
  | None => Fail ErrFromProto
  | Some p =>
      p ← ValidatorFromProto p;
      '(_, vals) ← lift (TotalVotingPower (mkValidatorSet vs (Some p) 0));
      _ ← wrap_err (fun _ => ErrFromProto) (ValidatorSet_ValidateBasic (Some vals));
      Val vals
  end.
Definition HeaderFromProto (h : Header) : outcome EvError Header :=
  _ ← wrap_err (fun _ => ErrFromProto) (BlockID_ValidateBasic (h_LastBlockID h));
  _ ← wrap_err (fun _ => ErrFromProto) (Header_ValidateBasic h);
  Val h.
Definition CommitFromProto (c : Commit) : outcome EvError Commit :=
  _ ← wrap_err (fun _ => ErrFromProto) (BlockID_ValidateBasic (c_BlockID c));
  _ ← wrap_err (fun _ => ErrFromProto) (validate_sigs 0 (c_Signatures c));
  _ ← wrap_err (fun _ => ErrFromProto) (Commit_ValidateBasic c);
  Val c.
Definition SignedHeaderFromProto (sh : SignedHeader) : outcome EvError SignedHeader :=
  _ ← (match sh_Header sh with Some h => _ ← HeaderFromProto h; Val tt | None => Val tt end);
  _ ← (match sh_Commit sh with Some c => _ ← CommitFromProto c; Val tt | None => Val tt end);
  Val sh.
Definition LightBlockFromProto (lb : LightBlock) : outcome EvError LightBlock :=
  _ ← (match lb_SignedHeader lb with Some sh => _ ← SignedHeaderFromProto sh; Val tt | None => Val tt end);
  match lb_ValidatorSet lb with
  | None => Val lb
  | Some vp => vals ← ValidatorSetFromProto vp; Val (mkLightBlock (lb_SignedHeader lb) (Some vals))
  end.

Definition VoteFromProto (pv : Vote) : outcome EvError Vote :=
  _ ← wrap_err (fun _ => ErrFromProto) (BlockID_ValidateBasic (v_BlockID pv));
  _ ← wrap_err (fun _ => ErrFromProto) (Vote_ValidateBasic pv);
  Val pv.
(** [VoteFromProto] of a pointer. *)
Definition vote_from_proto (pv : option Vote) : outcome EvError Vote :=
  match pv with None => Fail ErrFromProto | Some pv => VoteFromProto pv end.
Definition DuplicateVoteEvidenceFromProto (pb : DuplicateVoteEvidence) : outcome EvError DuplicateVoteEvidence :=
  vA ← vote_from_proto (dve_VoteA pb);
  vB ← vote_from_proto (dve_VoteB pb);
  let dve := mkDuplicateVoteEvidence (Some vA) (Some vB) (dve_TotalVotingPower pb) (dve_ValidatorPower pb) (dve_Timestamp pb) in
  _ ← DuplicateVote_ValidateBasic dve;
  Val dve.

(** The message of an attack: its list of validators has no nil. *)
Record LightAttackMessage := mkLightAttackMessage {
  lam_ConflictingBlock : option LightBlock;
  lam_CommonHeight : Z;
  lam_ByzantineValidators : list Validator;
  lam_TotalVotingPower : Z;
  lam_Timestamp : Time
}.
Inductive EvidenceMessage := DuplicateVoteMessage (dve : DuplicateVoteEvidence) | LightClientAttackMessage (l : LightAttackMessage).

Definition LightClientAttackEvidence_ToProto (l : LightClientAttackEvidence) : outcome EvError LightAttackMessage :=
  cb ← (match lca_ConflictingBlock l with None => Val None | Some lb => pb ← LightBlock_ToProto lb; Val (Some pb) end);
  byz ← validators_to_proto (from_option id [] (lca_ByzantineValidators l));
  Val (mkLightAttackMessage cb (lca_CommonHeight l) byz (lca_TotalVotingPower l) (lca_Timestamp l)).

(** The slice of validators is made by the decoder: it is never nil. *)
Definition LightClientAttackEvidenceFromProto (pb : LightAttackMessage) : outcome EvError LightClientAttackEvidence :=
  match lam_ConflictingBlock pb with
  | None => Fail ErrFromProto
  | Some cb =>
      cb ← LightBlockFromProto cb;
      byz ← validators_from_proto (lam_ByzantineValidators pb);
      let l := mkLightClientAttackEvidence (Some cb) (lam_CommonHeight pb) (Some (Some <$> byz)) (lam_TotalVotingPower pb) (lam_Timestamp pb) in
      _ ← LightClientAttack_ValidateBasic l;
      Val l
  end.

Definition EvidenceToProto (ev : evidence) : outcome EvError EvidenceMessage :=
  match ev with
  | DuplicateVote dve => Val (DuplicateVoteMessage dve)
  | LightClientAttack l => m ← LightClientAttackEvidence_ToProto l; Val (LightClientAttackMessage m)
  end.
Definition EvidenceFromProto (m : EvidenceMessage) : outcome EvError evidence :=
  match m with
  | DuplicateVoteMessage dve => dve ← DuplicateVoteEvidenceFromProto dve; Val (DuplicateVote dve)
  | LightClientAttackMessage l => l ← LightClientAttackEvidenceFromProto l; Val (LightClientAttack l)
  end.

(** ** Verification *)

Inductive VerifyEvError :=
  | ErrNotAValidator | ErrHRSMismatch | ErrAddressMismatch | ErrSameBlockID | ErrKeyMismatch | ErrSignatureA | ErrSignatureB
  | ErrTrusting (e : CommitError) | ErrNotDerived | ErrConflictingCommit (e : CommitError) | ErrTimeNotViolated | ErrSameHash.

Definition VerifyDuplicateVote (e : DuplicateVoteEvidence) (chainID : ChainID) (valSet : ValidatorSet) : outcome VerifyEvError unit :=
  match dve_VoteA e, dve_VoteB e with
  | Some a, Some b =>
      match (GetByAddress valSet (v_ValidatorAddress a)).2 with
      | None => Fail ErrNotAValidator
      | Some val =>
          _ ← fail_if (negb (v_Height a =? v_Height b) || negb (v_Round a =? v_Round b) || negb (v_Type a =? v_Type b)) ErrHRSMismatch;
          _ ← fail_if (negb (bytes_equal (v_ValidatorAddress a) (v_ValidatorAddress b))) ErrAddressMismatch;
          _ ← fail_if (BlockID_Equals (v_BlockID a) (v_BlockID b)) ErrSameBlockID;
          match PubKey_ val with
          | None => nil_panic
          | Some pubKey =>
              _ ← fail_if (negb (bytes_equal (pk_Address pubKey) (v_ValidatorAddress a))) ErrKeyMismatch;
              bzA ← lift (VoteSignBytes chainID a);
              _ ← fail_if (negb (VerifySignature pubKey bzA (v_Signature a))) ErrSignatureA;
              bzB ← lift (VoteSignBytes chainID b);
              fail_if (negb (VerifySignature pubKey bzB (v_Signature b))) ErrSignatureB
          end
      end
  | _, _ => nil_panic
  end.

Definition VerifyLightClientAttack (e : LightClientAttackEvidence) (commonHeader trustedHeader : SignedHeader)
    (commonVals : ValidatorSet) : outcome VerifyEvError unit :=
  lb ← conflicting e;
  common ← sh_header commonHeader;
  ch ← lb_header lb;
  trusted ← sh_header trustedHeader;
  c ← lb_commit lb;
  _ ← (if negb (h_Height common =? h_Height ch) then
         wrap_err ErrTrusting (VerifyCommitLightTrusting (h_ChainID trusted) (Some commonVals) (Some c) DefaultTrustLevel)
       else invalid ← lift (ConflictingHeaderIsInvalid lb trusted); fail_if invalid ErrNotDerived);
  _ ← wrap_err ErrConflictingCommit
        (VerifyCommitLight (h_ChainID trusted) (lb_ValidatorSet lb) (c_BlockID c) (h_Height ch) (Some c));
  if (h_Height ch >? h_Height trusted) && (h_Time ch >? h_Time trusted) then Fail ErrTimeNotViolated
  else
    th ← lift (Header_Hash trusted);
    hh ← lift (Header_Hash ch);
    fail_if (bytes_equal th hh) ErrSameHash.
End evidence.
