(* ===== verification/EvidencePool.v ===== *)
(** * internal/evidence: the evidence pool

    Models internal/evidence/pool.go and [Pool.verify] of verify.go.  The
    database is a map from the height and hash of the keys to the stored
    messages, for pending evidence, and to the height of the block, for committed
    evidence; it does not fail.  Its iterators go through the keys in order.
    The state store and the block store are the record [Stores].  The votes that
    consensus reports are not nil.  [verify] changes the evidence it is given
    through the pointer, so it returns it. *)
From Stdlib Require Import ZArith Lia Strings.Byte.
From stdpp Require Import base list strings gmap.
From S2P Require Import Prelude.
From S2P Require Import Merkle.
From S2P Require Import SafeMath.
From S2P Require Import Validator.
From S2P Require Import Types.
From S2P Require Import Validation.
From S2P Require Import Header.
From S2P Require Import ChainState.
From S2P Require Import Evidence.

(** The key of a piece of evidence in the database: its height and hash. *)
Abbreviation EvKey := (Z * bytes)%type.

Record Pool := mkPool {
  ep_pending : gmap EvKey EvidenceMessage;
  ep_committed : gmap EvKey Z;
  ep_list : list evidence;
  ep_size : Z;
  ep_state : State;
  ep_buffer : list (Vote * Vote);
  ep_pruningHeight : Z;
  ep_pruningTime : Time
}.

(** What the pool reads of the block store and the state store. *)
Record Stores := mkStores {
  LoadBlockMeta : Z -> option Header;
  LoadBlockCommit : Z -> option Commit;
  StoreHeight : Z;
  LoadValidators : Z -> option ValidatorSet
}.

Definition with_pending (p : Pool) (pending : gmap EvKey EvidenceMessage) (size : Z) : Pool :=
  mkPool pending (ep_committed p) (ep_list p) size (ep_state p) (ep_buffer p) (ep_pruningHeight p) (ep_pruningTime p).
Definition with_committed (p : Pool) (committed : gmap EvKey Z) : Pool :=
  mkPool (ep_pending p) committed (ep_list p) (ep_size p) (ep_state p) (ep_buffer p) (ep_pruningHeight p) (ep_pruningTime p).
Definition with_list (p : Pool) (l : list evidence) : Pool :=
  mkPool (ep_pending p) (ep_committed p) l (ep_size p) (ep_state p) (ep_buffer p) (ep_pruningHeight p) (ep_pruningTime p).
Definition with_state (p : Pool) (st : State) : Pool :=
  mkPool (ep_pending p) (ep_committed p) (ep_list p) (ep_size p) st (ep_buffer p) (ep_pruningHeight p) (ep_pruningTime p).
Definition with_buffer (p : Pool) (b : list (Vote * Vote)) : Pool :=
  mkPool (ep_pending p) (ep_committed p) (ep_list p) (ep_size p) (ep_state p) b (ep_pruningHeight p) (ep_pruningTime p).
Definition with_pruning (p : Pool) (height : Z) (time : Time) : Pool :=
  mkPool (ep_pending p) (ep_committed p) (ep_list p) (ep_size p) (ep_state p) (ep_buffer p) height time.

Inductive PoolError :=
  | ErrNoBlock | ErrLoadValidators | ErrNoSignedHeader | ErrLatestBefore
  | ErrExpired | ErrInvalid (e : VerifyEvError) | ErrAbci (e : EvError)
  | ErrAlreadyCommitted | ErrDuplicateEvidence | ErrAddPending (e : EvError).

(** Keys in the order of the database. *)
Definition key_less (a b : EvKey) : bool := (a.1 <? b.1) || ((a.1 =? b.1) && bytes_ltb a.2 b.2).
Definition entries (m : gmap EvKey EvidenceMessage) : list (EvKey * EvidenceMessage) :=
  sort_by (fun a b => key_less a.1 b.1) (map_to_list m).

(** The size of an encoded list of evidence. *)
Class ListCodec := { EvidenceMessages_Size : list EvidenceMessage -> Z }.

Section pool.
Context `{!Crypto, !BatchCrypto, !Sha256, !TimeCodec, !WrapperCodec, !EvidenceCodec, !ListCodec}.
Context (stores : Stores).

Definition key_of (ev : evidence) : go EvKey :=
  height ← Evidence_Height ev;
  hash ← Evidence_Hash ev;
  Val (height, hash).

Definition isPending (p : Pool) (ev : evidence) : go bool := k ← key_of ev; Val (bool_decide (is_Some (ep_pending p !! k))).
Definition isCommitted (p : Pool) (ev : evidence) : go bool := k ← key_of ev; Val (bool_decide (is_Some (ep_committed p !! k))).

Definition isExpired (p : Pool) (height : Z) (time : Time) : bool :=
  let params := cp_Evidence (sm_ConsensusParams (ep_state p)) in
  let ageDuration := clip64 (sm_LastBlockTime (ep_state p) - time) in
  let ageNumBlocks := int64 (sm_LastBlockHeight (ep_state p) - height) in
  (ageNumBlocks >? ep_MaxAgeNumBlocks params) && (ageDuration >? ep_MaxAgeDuration params).

Definition addPendingEvidence (p : Pool) (ev : evidence) : outcome EvError Pool :=
  evpb ← EvidenceToProto ev;
  k ← lift (key_of ev);
  Val (with_pending p (<[k := evpb]> (ep_pending p)) (uint32 (ep_size p + 1))).

(** The pool after an attempt to add, whose error is only logged. *)
Definition try_add (p : Pool) (ev : evidence) : go Pool :=
  match addPendingEvidence p ev with Val p => Val p | Fail _ => Val p | Panic w => Panic w end.

(** ** Verification against the state *)

Definition getSignedHeader (height : Z) : option SignedHeader :=
  match LoadBlockMeta stores height, LoadBlockCommit stores height with
  | Some h, Some c => Some (mkSignedHeader (Some h) (Some c))
  | _, _ => None
  end.

(** What [verify] returns: the pool, the evidence and the error. *)
Abbreviation Verified := (Pool * evidence * option PoolError)%type.

(** The ABCI part failed: the evidence is regenerated and stored. *)
Definition rectify (p : Pool) (ev : evidence) (e : EvError) : go Verified := p ← try_add p ev; Val (p, ev, Some (ErrAbci e)).

Definition verify_duplicate (p : Pool) (dve : DuplicateVoteEvidence) (evTime : Time) : go Verified :=
  let ev := DuplicateVote dve in
  height ← DuplicateVote_Height dve;
  match LoadValidators stores height with
  | None => Val (p, ev, Some ErrLoadValidators)
  | Some valSet =>
      match VerifyDuplicateVote dve (sm_ChainID (ep_state p)) valSet with
      | Panic w => Panic w
      | Fail e => Val (p, ev, Some (ErrInvalid e))
      | Val _ =>
          match dve_VoteA dve with
          | None => nil_panic
          | Some a =>
              match (GetByAddress valSet (v_ValidatorAddress a)).2 with
              | None => nil_panic
              | Some val =>
                  match DuplicateVote_ValidateABCI dve val valSet evTime with
                  | Panic w => Panic w
                  | Val _ => Val (p, ev, None)
                  | Fail e => dve ← DuplicateVote_GenerateABCI dve val valSet evTime; rectify p (DuplicateVote dve) e
                  end
              end
          end
      end
  end.

(** The header to compare with: that of the conflicting block's height, or the
    latest one when its time is not before that of the conflicting block. *)
Definition trusted_header (common : SignedHeader) (commonHeight : Z) (conflicting : Header) : outcome PoolError SignedHeader :=
  if commonHeight =? h_Height conflicting then Val common
  else
    match getSignedHeader (h_Height conflicting) with
    | Some sh => Val sh
    | None =>
        match getSignedHeader (StoreHeight stores) with
        | None => Fail ErrNoSignedHeader
        | Some sh =>
            h ← sh_header sh;
            _ ← fail_if (h_Time h <? h_Time conflicting) ErrLatestBefore;
            Val sh
        end
    end.

Definition verify_attack (p : Pool) (l : LightClientAttackEvidence) (evTime : Time) : go Verified :=
  let ev := LightClientAttack l in
  match getSignedHeader (lca_CommonHeight l) with
  | None => Val (p, ev, Some ErrNoSignedHeader)
  | Some common =>
      match LoadValidators stores (lca_CommonHeight l) with
      | None => Val (p, ev, Some ErrLoadValidators)
      | Some commonVals =>
          lb ← conflicting l;
          ch ← lb_header lb;
          match trusted_header common (lca_CommonHeight l) ch with
          | Panic w => Panic w
          | Fail e => Val (p, ev, Some e)
          | Val trusted =>
              match VerifyLightClientAttack l common trusted commonVals with
              | Panic w => Panic w
              | Fail e => Val (p, ev, Some (ErrInvalid e))
              | Val _ =>
                  match LightClientAttack_ValidateABCI l commonVals trusted evTime with
                  | Panic w => Panic w
                  | Val _ => Val (p, ev, None)
                  | Fail e => l ← LightClientAttack_GenerateABCI l commonVals trusted evTime; rectify p (LightClientAttack l) e
                  end
              end
          end
      end
  end.

Definition verify (p : Pool) (ev : evidence) : go Verified :=
  height ← Evidence_Height ev;
  match LoadBlockMeta stores height with
  | None => Val (p, ev, Some ErrNoBlock)
  | Some meta =>
      if isExpired p height (h_Time meta) then Val (p, ev, Some ErrExpired)
      else
        match ev with
        | DuplicateVote dve => verify_duplicate p dve (h_Time meta)
        | LightClientAttack l => verify_attack p l (h_Time meta)
        end
  end.

(** ** Adding evidence *)

Definition AddEvidence (p : Pool) (ev : evidence) : go (Pool * evidence * option PoolError) :=
  pending ← isPending p ev;
  if (pending : bool) then Val (p, ev, None)
  else
    committed ← isCommitted p ev;
    if (committed : bool) then Val (p, ev, None)
    else
      '(p, ev, err) ← verify p ev;
      match err with
      | Some e => Val (p, ev, Some e)
      | None =>
          match addPendingEvidence p ev with
          | Panic w => Panic w
          | Fail e => Val (p, ev, Some (ErrAddPending e))
          | Val p => Val (with_list p (ep_list p ++ [ev]), ev, None)
          end
      end.

Definition ReportConflictingVotes (p : Pool) (voteA voteB : Vote) : Pool := with_buffer p (ep_buffer p ++ [(voteA, voteB)]).

(** One piece of evidence of a block, given the hashes of those before it. *)
Definition check_one (p : Pool) (ev : evidence) (hashes : list bytes) : go (Pool * evidence * list bytes * option PoolError) :=
  pending ← isPending p ev;
  let light := match ev with LightClientAttack _ => true | DuplicateVote _ => false end in
  '(p, ev, err) ←
    (if light || negb pending then
       committed ← isCommitted p ev;
       if (committed : bool) then Val (p, ev, Some ErrAlreadyCommitted)
       else
         '(p, ev, err) ← verify p ev;
         match err with
         | Some e => Val (p, ev, Some e)
         | None => p ← try_add p ev; Val (p, ev, None)
         end
     else Val (p, ev, None));
  match err with
  | Some e => Val (p, ev, hashes, Some e)
  | None =>
      hash ← Evidence_Hash ev;
      if bool_decide (hash ∈ hashes) then Val (p, ev, hashes, Some ErrDuplicateEvidence) else Val (p, ev, hash :: hashes, None)
  end.

Fixpoint check_all (p : Pool) (evList : list evidence) (hashes : list bytes) : go (Pool * list evidence * option PoolError) :=
  match evList with
  | [] => Val (p, [], None)
  | ev :: rest =>
      '(p, ev, hashes, err) ← check_one p ev hashes;
      match err with
      | Some e => Val (p, ev :: rest, Some e)
      | None => '(p, rest, err) ← check_all p rest hashes; Val (p, ev :: rest, err)
      end
  end.
Definition CheckEvidence (p : Pool) (evList : list evidence) : go (Pool * list evidence * option PoolError) := check_all p evList [].

(** ** Listing *)

Fixpoint list_evidence (maxBytes : Z) (before : list EvidenceMessage) (size : Z) (l : list EvidenceMessage)
    : go (list evidence * Z * option EvError) :=
  match l with
  | [] => Val ([], size, None)
  | m :: rest =>
      let evSize := EvidenceMessages_Size (before ++ [m]) in
      if negb (maxBytes =? -1) && (evSize >? maxBytes) then Val ([], size, None)
      else
        match EvidenceFromProto m with
        | Panic w => Panic w
        | Fail e => Val ([], size, Some e)
        | Val ev =>
            '(evs, total, err) ← list_evidence maxBytes (before ++ [m]) evSize rest;
            Val (match err with Some _ => [] | None => ev :: evs end, total, err)
        end
  end.
Definition listEvidence (p : Pool) (maxBytes : Z) : go (list evidence * Z * option EvError) :=
  list_evidence maxBytes [] 0 (snd <$> entries (ep_pending p)).

Definition PendingEvidence (p : Pool) (maxBytes : Z) : go (list evidence * Z) :=
  if ep_size p =? 0 then Val ([], 0)
  else '(evs, size, _) ← listEvidence p maxBytes; Val (evs, size).

(** ** Removal *)

(** Elements of the concurrent list whose hash is in the map. *)
Fixpoint removeEvidenceFromList (l : list evidence) (hashes : gset bytes) : go (list evidence) :=
  match l with
  | [] => Val []
  | ev :: rest =>
      h ← Evidence_Hash ev;
      rest ← removeEvidenceFromList rest hashes;
      Val (if bool_decide (h ∈ hashes) then rest else ev :: rest)
  end.

(** The removal common to committed and expired evidence: the batch of deleted
    keys is written, the list and the size follow. *)
Definition drop_evidence (p : Pool) (keys : list EvKey) (hashes : gset bytes) : go Pool :=
  if Z.of_nat (size hashes) =? 0 then Val p
  else
    let p := with_pending p (foldr (fun k m => base.delete k m) (ep_pending p) keys) (ep_size p) in
    l ← removeEvidenceFromList (ep_list p) hashes;
    let p := with_list p l in
    Val (with_pending p (ep_pending p) (uint32 (ep_size p - Z.of_nat (size hashes)))).

(** Keys to delete from the pending evidence and hashes to drop, while the
    evidence of the block is marked as committed. *)
Fixpoint mark_committed (p : Pool) (evl : list evidence) (height : Z) (keys : list EvKey) (hashes : gset bytes)
    : go (Pool * list EvKey * gset bytes) :=
  match evl with
  | [] => Val (p, keys, hashes)
  | ev :: rest =>
      pending ← isPending p ev;
      k ← key_of ev;
      let '(keys, hashes) := if (pending : bool) then (keys ++ [k], {[k.2]} ∪ hashes) else (keys, hashes) in
      mark_committed (with_committed p (<[k := height]> (ep_committed p))) rest height keys hashes
  end.
Definition markEvidenceAsCommitted (p : Pool) (evl : list evidence) (height : Z) : go Pool :=
  '(p, keys, hashes) ← mark_committed p evl height [] ∅;
  drop_evidence p keys hashes.

(** The expired entries at the front, and when the next one expires. *)
Fixpoint batch_expired (p : Pool) (l : list (EvKey * EvidenceMessage)) (keys : list EvKey) (hashes : gset bytes)
    : go (Z * Time * list EvKey * gset bytes) :=
  match l with
  | [] => Val (sm_LastBlockHeight (ep_state p), sm_LastBlockTime (ep_state p), keys, hashes)
  | (k, m) :: rest =>
      match EvidenceFromProto m with
      | Panic w => Panic w
      | Fail _ => batch_expired p rest keys hashes
      | Val ev =>
          height ← Evidence_Height ev;
          let params := cp_Evidence (sm_ConsensusParams (ep_state p)) in
          if negb (isExpired p height (Evidence_Time ev)) then
            Val (int64 (height + ep_MaxAgeNumBlocks params + 1), Evidence_Time ev + ep_MaxAgeDuration params + 1000000000, keys, hashes)
          else
            hash ← Evidence_Hash ev;
            batch_expired p rest (keys ++ [k]) ({[hash]} ∪ hashes)
      end
  end.
Definition removeExpiredPendingEvidence (p : Pool) : go (Pool * Z * Time) :=
  '(height, time, keys, hashes) ← batch_expired p (entries (ep_pending p)) [] ∅;
  p ← drop_evidence p keys hashes;
  Val (p, height, time).

(** ** Updating *)

(** The evidence made of two conflicting votes; [None] when it cannot be made. *)
Definition votes_to_evidence (state : State) (voteA voteB : Vote) : go (option DuplicateVoteEvidence) :=
  let result (m : outcome EvError DuplicateVoteEvidence) : go (option DuplicateVoteEvidence) :=
    match m with Val d => Val (Some d) | Fail _ => Val None | Panic w => Panic w end in
  if v_Height voteA =? sm_LastBlockHeight state then
    result (NewDuplicateVoteEvidence (Some voteA) (Some voteB) (sm_LastBlockTime state) (sm_LastValidators state))
  else if v_Height voteA <? sm_LastBlockHeight state then
    match LoadValidators stores (v_Height voteA), LoadBlockMeta stores (v_Height voteA) with
    | Some valSet, Some meta => result (NewDuplicateVoteEvidence (Some voteA) (Some voteB) (h_Time meta) (Some valSet))
    | _, _ => Val None
    end
  else Val None.

Definition process_one (state : State) (p : Pool) (voteA voteB : Vote) : go Pool :=
  dve ← votes_to_evidence state voteA voteB;
  match dve with
  | None => Val p
  | Some dve =>
      let ev := DuplicateVote dve in
      pending ← isPending p ev;
      committed ← isCommitted p ev;
      if pending || committed then Val p
      else
        match addPendingEvidence p ev with
        | Panic w => Panic w
        | Fail _ => Val p
        | Val p => Val (with_list p (ep_list p ++ [ev]))
        end
  end.
Fixpoint process_votes (state : State) (p : Pool) (l : list (Vote * Vote)) : go Pool :=
  match l with
  | [] => Val p
  | (voteA, voteB) :: rest => p ← process_one state p voteA voteB; process_votes state p rest
  end.
Definition processConsensusBuffer (p : Pool) (state : State) : go Pool :=
  p ← process_votes state p (ep_buffer p);
  Val (with_buffer p []).

Definition Update (p : Pool) (state : State) (ev : list evidence) : go Pool :=
  _ ← panic_if (sm_LastBlockHeight state <=? sm_LastBlockHeight (ep_state p))
        "failed EvidencePool.Update new state height is less than or equal to previous state height";
  p ← processConsensusBuffer p state;
  let p := with_state p state in
  p ← markEvidenceAsCommitted p ev (sm_LastBlockHeight state);
  if negb (ep_size p =? 0) && (sm_LastBlockHeight state >? ep_pruningHeight p) && (sm_LastBlockTime state >? ep_pruningTime p) then
    '(p, height, time) ← removeExpiredPendingEvidence p;
    Val (with_pruning p height time)
  else Val p.

(** [NewPool] over what the database holds. *)
Definition NewPool (pending : gmap EvKey EvidenceMessage) (committed : gmap EvKey Z) (state : State) : go (Pool + EvError) :=
  let p := mkPool pending committed [] 0 state [] 0 zero_time in
  '(p, height, time) ← removeExpiredPendingEvidence p;
  '(evList, _, err) ← listEvidence p (-1);
  match err with
  | Some e => Val (inr e)
  | None => Val (inl (mkPool (ep_pending p) (ep_committed p) evList (len evList) state [] height time))
  end.
End pool.
