(* ===== verification/EvidenceProofs.v ===== *)
(** * What evidence proves, and how it goes through the pool *)
From Stdlib Require Import ZArith Lia Strings.Byte.
From stdpp Require Import base list strings gmap relations.
From S2P Require Import Prelude.
From S2P Require Import Merkle.
From S2P Require Import MerkleProofs.
From S2P Require Import SafeMath.
From S2P Require Import Proto.
From S2P Require Import Validator.
From S2P Require Import ProposerProofs.
From S2P Require Import ValidatorUpdateProofs.
From S2P Require Import ValidatorSetProofs.
From S2P Require Import Types.
From S2P Require Import SignBytesProofs.
From S2P Require Import Validation.
From S2P Require Import ValidationProofs.
From S2P Require Import VoteSet.
From S2P Require Import VoteSetProofs.
From S2P Require Import CommitProofs.
From S2P Require Import Decode.
From S2P Require Import DecodeProofs.
From S2P Require Import PrivVal.
From S2P Require Import PrivValProofs.
From S2P Require Import Header.
From S2P Require Import LightVerifier.
From S2P Require Import LightVerifierProofs.
From S2P Require Import ChainState.
From S2P Require Import Evidence.
From S2P Require Import EvidencePool.

(** ** Duplicate votes *)

Section duplicate.
Context `{!Crypto, !TimeCodec}.

(** What [VerifyDuplicateVote] accepts. *)
Lemma VerifyDuplicateVote_val e cid vals :
  VerifyDuplicateVote e cid vals = Val tt <->
  exists a b v pk bzA bzB,
    dve_VoteA e = Some a /\ dve_VoteB e = Some b /\ (GetByAddress vals (v_ValidatorAddress a)).2 = Some v /\ PubKey_ v = Some pk /\
    v_Height a = v_Height b /\ v_Round a = v_Round b /\ v_Type a = v_Type b /\ v_ValidatorAddress a = v_ValidatorAddress b /\
    v_BlockID a <> v_BlockID b /\ pk_Address pk = v_ValidatorAddress a /\
    VoteSignBytes cid a = Val bzA /\ VerifySignature pk bzA (v_Signature a) = true /\
    VoteSignBytes cid b = Val bzB /\ VerifySignature pk bzB (v_Signature b) = true.
Proof.
  unfold VerifyDuplicateVote. split.
  - destruct (dve_VoteA e) as [a|]; [|done]. destruct (dve_VoteB e) as [b|]; [|done].
    destruct (GetByAddress _ _).2 as [v|] eqn:Hv; [|done]. intros Hver. apply bind_val in Hver as (? & H1 & Hver).
    apply bind_val in Hver as (? & H2 & Hver). apply bind_val in Hver as (? & H3 & Hver).
    destruct (PubKey_ v) as [pk|] eqn:Hpk; [|done]. inv_val. z_bool.
    exists a, b, v, pk. eexists _, _. split_and!; try done.
    + by destruct (bytes_equal_spec (v_ValidatorAddress a) (v_ValidatorAddress b)).
    + intros Heq. apply BlockID_Equals_spec in Heq. congruence.
    + by destruct (bytes_equal_spec (pk_Address pk) (v_ValidatorAddress a)).
  - intros (a & b & v & pk & bzA & bzB & -> & -> & -> & Hpk & -> & -> & -> & Ha & Hb & Hk & H1 & H2 & H3 & H4).
    rewrite !Z.eqb_refl, Ha, bytes_equal_refl, Hpk, Hk, Ha, bytes_equal_refl. go_step.
    destruct (BlockID_Equals _ _) eqn:He; [by apply BlockID_Equals_spec in He|]. go_step.
    rewrite H1. go_step. rewrite H2. go_step. rewrite H3. go_step. by rewrite H4.
Qed.

(** The votes are put in the order of their keys. *)
Lemma compare_keys_flip a b : compare_keys b a = CompOpp (compare_keys a b).
Proof. apply bytes_compare_antisym. Qed.

Lemma compare_keys_distinct a b :
  votable (v_BlockID a) -> votable (v_BlockID b) -> v_BlockID a <> v_BlockID b -> compare_keys a b <> Eq.
Proof. intros Ha Hb Hne Hc. apply bytes_compare_eq in Hc. by apply Hne, BlockID_Key_inj. Qed.

Lemma Vote_Verify_val v cid pk :
  Vote_Verify v cid pk = Val tt ->
  pk_Address pk = v_ValidatorAddress v /\ exists bz, VoteSignBytes cid v = Val bz /\ VerifySignature pk bz (v_Signature v) = true.
Proof.
  unfold Vote_Verify. intros Hv. inv_val. split; [by destruct (bytes_equal_spec (pk_Address pk) (v_ValidatorAddress v))|eauto].
Qed.

Lemma GetByAddress_at vals i v :
  NoDup (Address <$> Validators vals) -> len (Validators vals) <= MaxInt32 -> Validators vals !! i = Some v ->
  GetByAddress vals (Address v) = (Z.of_nat i, Some v).
Proof.
  intros Hnd Hl Hi. unfold GetByAddress. rewrite get_by_address_index by (done || lia). split; [|done].
  rewrite Z.sub_0_r. unfold zlookup. destruct (Z.leb_spec 0 (Z.of_nat i)); [|lia]. by rewrite Nat2Z.id.
Qed.

(** C29: every conflict is provable.  When a reachable vote set reports two
    conflicting votes, the evidence made of them for the vote set's validators is
    accepted by the verification of duplicate votes and of the application's part, and
    passes basic validation when the votes do. *)
Theorem conflicting_votes_make_evidence vs vote vs' added a b t :
  reachable_votes vs -> wire_vote vote -> v_ValidatorIndex vote <= MaxInt32 ->
  AddVote (Some vs) (Some vote) = Val (vs', added, Some (ErrVoteConflictingVotes a b)) ->
  exists dve val,
    NewDuplicateVoteEvidence (Some a) (Some b) t (Some (vs_valSet vs)) = Val dve /\
    VerifyDuplicateVote dve (vs_chainID vs) (vs_valSet vs) = Val tt /\
    (GetByAddress (vs_valSet vs) (v_ValidatorAddress a)).2 = Some val /\
    DuplicateVote_ValidateABCI dve val (vs_valSet vs) t = Val tt /\
    (Vote_ValidateBasic a = Val tt -> Vote_ValidateBasic b = Val tt -> DuplicateVote_ValidateBasic dve = Val tt).
Proof.
  intros Hr%reachable_votes_inv Hw Hm Hadd.
  destruct (addVote_spec vs vote Hr Hw Hm) as (vs1 & ad1 & err1 & Hadd1 & _ & Hpost).
  unfold AddVote in Hadd. rewrite Hadd1 in Hadd. injection Hadd as -> -> ->. destruct Hpost as (-> & Hne & i & Ha & Hb & _).
  destruct Ha as (Ha1 & Ha2 & Ha3 & Ha4 & Hva & val & pk & Hval & Hadr & Hpk & (Hka & bzA & HbA & HsA)%Vote_Verify_val).
  destruct Hb as (Hb1 & Hb2 & Hb3 & Hb4 & Hvb & val' & pk' & Hval' & Hadr' & Hpk' & (Hkb & bzB & HbB & HsB)%Vote_Verify_val).
  assert (val' = val) as -> by congruence. assert (pk' = pk) as -> by congruence.
  pose proof (GetByAddress_at _ _ _ (wf_distinct _ (inv_set _ _ Hr)) (inv_size _ _ Hr) Hval) as Hg. rewrite <- Hadr in Hg.
  pose proof (TotalVotingPower_val _ (wf_power _ (inv_set _ _ Hr)) (wf_max _ (inv_set _ _ Hr)) (wf_total _ (inv_set _ _ Hr))) as Ht.
  unfold NewDuplicateVoteEvidence. rewrite Hg. cbn [snd].
  pose proof (compare_keys_distinct a vote Hva Hvb Hne) as Hc.
  assert (Hcase : compare_keys a vote = Lt \/ compare_keys vote a = Lt).
  { rewrite (compare_keys_flip a vote). destruct (compare_keys a vote); [done|by left|by right]. }
  assert (Habci : forall x y, DuplicateVote_ValidateABCI
    (mkDuplicateVoteEvidence x y (total (vs_valSet vs)) (VotingPower val) t) val (vs_valSet vs) t = Val tt).
  { intros x y. unfold DuplicateVote_ValidateABCI. simpl. rewrite !Z.eqb_refl. go_step. rewrite Ht. go_step. by rewrite Z.eqb_refl. }
  destruct Hcase as [Hlt|Hlt].
  - rewrite Hlt, Ht. go_step. eexists _, val. split_and!; [done| |done|apply Habci|].
    + apply VerifyDuplicateVote_val. exists a, vote, val, pk, bzA, bzB. rewrite Hg. split_and!; congruence || done.
    + intros H1 H2. unfold DuplicateVote_ValidateBasic. simpl. rewrite H1, H2. go_step. by rewrite Hlt.
  - rewrite (compare_keys_flip vote a), Hlt, Ht. go_step. eexists _, val. split_and!; [done| |done|apply Habci|].
    + apply VerifyDuplicateVote_val. exists vote, a, val, pk, bzB, bzA. simpl. rewrite Hadr', <- Hadr, Hg. split_and!; congruence || done.
    + intros H1 H2. unfold DuplicateVote_ValidateBasic. simpl. rewrite H1, H2. go_step. by rewrite Hlt.
Qed.
End duplicate.

(** C26: no correct validator is accused.  Let the key of a validator be used by one
    private validator only, through crashes and restarts, and let no other signatures
    verify under it than those of messages it handed out.  Then no evidence of
    duplicate votes against that key is accepted. *)
Theorem evidence_spares_correct `{!Crypto, !TimeCodec, !TimeDecoder, !PrivKeys, !ProtoEqual, !TmJSON}
    sk keyPath statePath n cid e vals a b v :
  node_reachable sk keyPath statePath n ->
  (forall bz sig, VerifySignature (sk_PubKey sk) bz sig = true ->
     exists c m, (c, m) ∈ released n /\ m_sign_bytes c m = Val bz) ->
  dve_VoteA e = Some a -> dve_VoteB e = Some b -> vote_sized cid a -> vote_sized cid b -> IsVoteTypeValid (v_Type a) = true ->
  (GetByAddress vals (v_ValidatorAddress a)).2 = Some v -> PubKey_ v = Some (sk_PubKey sk) ->
  VerifyDuplicateVote e cid vals <> Val tt.
Proof.
  intros [_ [lss Hok]]%node_reachable_ok Hunf Ha Hb Sa Sb Ht Hg Hpk Hver.
  apply VerifyDuplicateVote_val in Hver as (a' & b' & v' & pk & bzA & bzB & Ha' & Hb' & Hg' & Hpk' & Eh & Er & Et & _ & Hne & _ & HbA & HsA & HbB & HsB).
  assert (a' = a) as -> by congruence. assert (b' = b) as -> by congruence. assert (v' = v) as -> by congruence.
  assert (pk = sk_PubKey sk) as -> by congruence.
  assert (Hhrs : forall u bz, vote_sized cid u -> IsVoteTypeValid (v_Type u) = true -> VoteSignBytes cid u = Val bz ->
    forall sig, VerifySignature (sk_PubKey sk) bz sig = true ->
    exists c m, (c, m) ∈ released n /\ m_sign_bytes c m = Val bz /\ m_hrs m = m_hrs (MVote u)).
  { intros u bz Su Htu Hu sig Hs. destruct (Hunf _ _ Hs) as (c & m & Hin & Hm). exists c, m. split; [done|]. split; [done|].
    destruct (nok_released _ _ _ _ _ Hok _ _ Hin) as (bz' & Hsz & _).
    destruct m as [w|p]; simpl in *.
    - destruct Hsz as [Hsz _]. destruct (VoteSignBytes_inj _ _ _ _ _ Hsz Su Hm Hu) as (_ & E1 & E2 & E3 & _).
      unfold vote_step_of. by rewrite E1, E2, E3.
    - by destruct (vote_not_proposal _ _ _ _ _ Su Hsz Htu Hu). }
  destruct (Hhrs a bzA Sa Ht HbA _ HsA) as (c1 & m1 & I1 & M1 & R1).
  destruct (Hhrs b bzB Sb ltac:(congruence) HbB _ HsB) as (c2 & m2 & I2 & M2 & R2).
  assert (Hm : m_hrs m1 = m_hrs m2). { rewrite R1, R2. simpl. unfold vote_step_of. by rewrite Eh, Er, Et. }
  destruct (nok_unique _ _ _ _ _ Hok _ _ _ _ I1 I2 Hm) as [Heq _]. rewrite M1, M2 in Heq. injection Heq as <-.
  destruct (VoteSignBytes_inj _ _ _ _ _ Sa Sb HbA HbB) as (_ & _ & _ & _ & Hbid & _). by apply Hne.
Qed.

(** ** The pool *)

Section pool.
Context `{!Crypto, !BatchCrypto, !Sha256, !TimeCodec, !WrapperCodec, !EvidenceCodec, !ListCodec}.
Context (stores : Stores).

(** Verification succeeds without touching the pool or the evidence, and
    depends on the pool's state only. *)
Lemma verify_ok p ev p' ev' : verify stores p ev = Val (p', ev', None) -> p' = p /\ ev' = ev.
Proof.
  unfold verify, verify_duplicate, verify_attack, rectify. intros Hv. apply bind_val in Hv as (h & _ & Hv).
  destruct (LoadBlockMeta stores h); [|done]. destruct (isExpired _ _ _); [done|]. destruct ev as [dve|l].
  - apply bind_val in Hv as (h' & _ & Hv). destruct (LoadValidators stores h'); [|done].
    destruct (VerifyDuplicateVote _ _ _); try done. destruct (dve_VoteA dve); [|done]. destruct (GetByAddress _ _).2; [|done].
    destruct (DuplicateVote_ValidateABCI _ _ _ _); [by simplify_eq| |done]. by inv_val.
  - destruct (getSignedHeader _ _); [|done]. destruct (LoadValidators _ _); [|done].
    apply bind_val in Hv as (lb & _ & Hv). apply bind_val in Hv as (ch & _ & Hv). destruct (trusted_header _ _ _ _); try done.
    destruct (VerifyLightClientAttack _ _ _ _); try done.
    destruct (LightClientAttack_ValidateABCI _ _ _ _); [by simplify_eq| |done]. by inv_val.
Qed.

Lemma verify_state p q ev : ep_state q = ep_state p -> verify stores p ev = Val (p, ev, None) -> verify stores q ev = Val (q, ev, None).
Proof.
  unfold verify, verify_duplicate, verify_attack, rectify, isExpired. intros -> Hv.
  destruct (Evidence_Height ev) as [h| |]; try done. revert Hv. go_step.
  destruct (LoadBlockMeta stores h); [|done]. destruct (_ && _); [done|]. destruct ev as [dve|l].
  - destruct (DuplicateVote_Height dve) as [h'| |]; try done. go_step. destruct (LoadValidators stores h'); [|done].
    destruct (VerifyDuplicateVote _ _ _); try done. destruct (dve_VoteA dve); [|done]. destruct (GetByAddress _ _).2; [|done].
    destruct (DuplicateVote_ValidateABCI _ _ _ _); [done| |done]. intros Hv. by inv_val.
  - destruct (getSignedHeader _ _); [|done]. destruct (LoadValidators _ _); [|done].
    destruct (conflicting l) as [lb| |]; try done. go_step. destruct (lb_header lb); try done. go_step.
    destruct (trusted_header _ _ _ _); try done. destruct (VerifyLightClientAttack _ _ _ _); try done.
    destruct (LightClientAttack_ValidateABCI _ _ _ _); [done| |done]. intros Hv. by inv_val.
Qed.

(** Adding pending evidence changes the pending evidence at its key only. *)
Lemma try_add_val p ev p' :
  try_add p ev = Val p' ->
  p' = p \/ exists k m, key_of ev = Val k /\ p' = with_pending p (<[k := m]> (ep_pending p)) (uint32 (ep_size p + 1)).
Proof.
  unfold try_add, addPendingEvidence. destruct (EvidenceToProto ev) as [m| |]; go_step; [|intros [= <-]; by left|done].
  destruct (key_of ev) as [k|[]|] eqn:Hk; go_step; [|done]. intros [= <-]. right. by exists k, m.
Qed.

Lemma key_of_hash ev k : key_of ev = Val k -> Evidence_Hash ev = Val k.2.
Proof. unfold key_of. intros Hk. by inv_val. Qed.

(** Evidence a block may carry: pending already, or new and verified. *)
Definition admissible (p : Pool) (ev : evidence) : Prop :=
  (isPending p ev = Val true /\ exists dve, ev = DuplicateVote dve) \/
  (isCommitted p ev = Val false /\ verify stores p ev = Val (p, ev, None)).

(** The pool [q] reached from [p] while a block is checked. *)
Record checked_from (p q : Pool) (hashes : list bytes) : Prop := {
  cf_state : ep_state q = ep_state p;
  cf_committed : ep_committed q = ep_committed p;
  cf_grows : forall k, is_Some (ep_pending p !! k) -> is_Some (ep_pending q !! k);
  cf_new : forall k, is_Some (ep_pending q !! k) -> is_Some (ep_pending p !! k) \/ k.2 ∈ hashes
}.

Lemma checked_add p q hashes ev q' h :
  checked_from p q hashes -> try_add q ev = Val q' -> Evidence_Hash ev = Val h -> checked_from p q' (h :: hashes).
Proof.
  intros [Hs Hc Hg Hn] Ht Hh. apply try_add_val in Ht as [->|(k & m & Hk & ->)].
  - split; try done. intros k [?|?]%Hn; [by left|]. right. by right.
  - apply key_of_hash in Hk. rewrite Hh in Hk. injection Hk as ->. split; try done; simpl.
    + intros k' Hk'%Hg. destruct (decide (k = k')) as [->|]; [by rewrite lookup_insert_eq|by rewrite lookup_insert_ne].
    + intros k' Hk'. destruct (decide (k = k')) as [->|Hne]; [right; left|]. rewrite lookup_insert_ne in Hk' by done.
      destruct (Hn _ Hk') as [?|?]; [by left|]. right. by right.
Qed.

Lemma check_one_ok p q hashes ev q' ev' hashes' :
  checked_from p q hashes -> check_one stores q ev hashes = Val (q', ev', hashes', None) ->
  ev' = ev /\ admissible p ev /\ exists h, Evidence_Hash ev = Val h /\ hashes' = h :: hashes /\ (h ∉ hashes) /\ checked_from p q' (h :: hashes).
Proof.
  intros Hcf Hone. unfold check_one in Hone. apply bind_val in Hone as (pending & Hp & Hone).
  apply bind_val in Hone as ([[q1 ev1] err] & Hmid & Hone). destruct err as [e|]; [done|].
  apply bind_val in Hone as (h & Hh & Hone). case_bool_decide as Hin; [done|]. injection Hone as <- <- <-.
  destruct (_ || _) eqn:Hcase in Hmid.
  - apply bind_val in Hmid as (committed & Hc & Hmid). destruct committed; [done|].
    apply bind_val in Hmid as ([[q2 ev2] err] & Hv & Hmid). destruct err; [done|].
    apply verify_ok in Hv as Heq. destruct Heq as [-> ->]. apply bind_val in Hmid as (q3 & Ha & Hmid). injection Hmid as <- <-.
    split; [done|]. split; [|exists h; split_and!; try done; by eapply checked_add].
    right. unfold isCommitted in *. rewrite (cf_committed _ _ _ Hcf) in Hc. split; [done|].
    apply (verify_state q p); [by rewrite (cf_state _ _ _ Hcf)|done].
  - injection Hmid as -> ->. split; [done|]. destruct pending; [|by destruct ev1]. split.
    + left. split; [|destruct ev1; [eauto|done]]. unfold isPending in *. apply bind_val in Hp as (k & Hk & Hp). rewrite Hk. go_step.
      f_equal. injection Hp as Hp. apply bool_decide_eq_true in Hp. apply bool_decide_eq_true.
      destruct (cf_new _ _ _ Hcf _ Hp) as [?|Hi]; [done|]. apply key_of_hash in Hk. rewrite Hh in Hk. injection Hk as ->. done.
    + exists h. split_and!; try done. destruct Hcf as [Hs Hc Hg Hn]. split; try done. intros k [?|?]%Hn; [by left|]. right. by right.
Qed.

Lemma check_all_ok p q evl hashes q' evl' :
  checked_from p q hashes -> NoDup hashes -> check_all stores q evl hashes = Val (q', evl', None) ->
  evl' = evl /\ ep_committed q' = ep_committed p /\ (forall k, is_Some (ep_pending p !! k) -> is_Some (ep_pending q' !! k)) /\
  Forall (admissible p) evl /\ exists hs, Forall2 (fun ev h => Evidence_Hash ev = Val h) evl hs /\ NoDup (hs ++ hashes).
Proof.
  revert q hashes evl'. induction evl as [|ev evl IH]; intros q hashes evl' Hcf Hnd Hall.
  - injection Hall as <- <-. destruct Hcf. split_and!; try done. by exists [].
  - cbn [check_all] in Hall. apply bind_val in Hall as ([[[q1 ev1] hs1] err] & Hone & Hall). destruct err; [done|].
    apply bind_val in Hall as ([[q2 rest] err] & Hrest & Hall). injection Hall as <- <- ->.
    destruct (check_one_ok _ _ _ _ _ _ _ Hcf Hone) as (-> & Had & h & Hh & -> & Hin & Hcf').
    destruct (IH _ _ _ Hcf' ltac:(by constructor) Hrest) as (-> & Hc & Hg & Hadm & hs & Hhs & Hnd').
    split_and!; try done; [by constructor|]. exists (h :: hs). split; [by constructor|].
    apply (NoDup_Permutation_proper (hs ++ h :: hashes)); [|done]. simpl. by rewrite Permutation_middle.
Qed.

(** The evidence of an accepted block.  When [CheckEvidence] accepts a list,
    the evidence has pairwise different hashes, is left as it was, and each piece is
    either a duplicate vote that was pending, or was not committed and passes the
    verification against the state, the block store and the validators of its height;
    nothing is forgotten or marked as committed. *)
Theorem block_evidence_checked p evl p' evl' :
  CheckEvidence stores p evl = Val (p', evl', None) ->
  evl' = evl /\ ep_committed p' = ep_committed p /\ (forall k, is_Some (ep_pending p !! k) -> is_Some (ep_pending p' !! k)) /\
  (exists hashes, Forall2 (fun ev h => Evidence_Hash ev = Val h) evl hashes /\ NoDup hashes) /\
  forall ev, ev ∈ evl ->
    (isPending p ev = Val true /\ exists dve, ev = DuplicateVote dve) \/
    (isCommitted p ev = Val false /\ verify stores p ev = Val (p, ev, None)).
Proof.
  intros Hc. apply (check_all_ok p p) in Hc as (-> & Hc1 & Hc2 & Hc3 & hs & Hhs & Hnd); [|by split; auto|constructor].
  split_and!; try done; [|by apply Forall_forall]. exists hs. by rewrite app_nil_r in Hnd.
Qed.

(** *** Committing evidence *)

Lemma drop_evidence_val p keys hashes p' :
  drop_evidence p keys hashes = Val p' -> (keys <> [] -> hashes <> ∅) ->
  ep_committed p' = ep_committed p /\ ep_state p' = ep_state p /\ ep_buffer p' = ep_buffer p /\
  forall k, is_Some (ep_pending p' !! k) -> is_Some (ep_pending p !! k) /\ (k ∉ keys).
Proof.
  unfold drop_evidence. intros Hd Hne. destruct (Z.eqb_spec (Z.of_nat (size hashes)) 0) as [Hz|Hz].
  - injection Hd as <-. split_and!; try done. intros k Hk. split; [done|]. intros Hin.
    assert (Hs : size hashes = 0%nat) by lia. apply size_empty_inv in Hs. apply Hne; [by intros ->; apply elem_of_nil in Hin|].
    by apply leibniz_equiv.
  - apply bind_val in Hd as (l & _ & Hd). injection Hd as <-. split_and!; try done. simpl. intros k.
    clear. induction keys as [|k0 keys IH]; simpl; [intros Hk; split; [done|by apply not_elem_of_nil]|].
    intros Hk. destruct (decide (k = k0)) as [->|Hkne]; [rewrite lookup_delete_eq in Hk; by destruct Hk|].
    rewrite lookup_delete_ne in Hk by done. destruct (IH Hk). split; [done|]. by apply not_elem_of_cons.
Qed.

Lemma mark_committed_val p evl h keys hashes p' keys' hashes' :
  mark_committed p evl h keys hashes = Val (p', keys', hashes') -> (keys <> [] -> hashes <> ∅) ->
  ep_pending p' = ep_pending p /\ ep_state p' = ep_state p /\ ep_buffer p' = ep_buffer p /\ (keys' <> [] -> hashes' <> ∅) /\
  (forall k, k ∈ keys -> k ∈ keys') /\ (forall k, is_Some (ep_committed p !! k) -> is_Some (ep_committed p' !! k)) /\
  forall ev, ev ∈ evl -> exists k, key_of ev = Val k /\ is_Some (ep_committed p' !! k) /\ (is_Some (ep_pending p !! k) -> k ∈ keys').
Proof.
  revert p keys hashes. induction evl as [|ev evl IH]; intros p keys hashes Hm Hne; cbn [mark_committed] in Hm.
  { injection Hm as <- <- <-. split_and!; try done. by intros ev ?%elem_of_nil. }
  apply bind_val in Hm as (pending & Hp & Hm). apply bind_val in Hm as (k & Hk & Hm).
  unfold isPending in Hp. rewrite Hk in Hp. injection Hp as Hp.
  set (keys1 := if pending then keys ++ [k] else keys) in *.
  assert (Hm' : mark_committed (with_committed p (<[k := h]> (ep_committed p))) evl h keys1 (if pending then {[k.2]} ∪ hashes else hashes)
    = Val (p', keys', hashes')) by (by destruct pending).
  apply IH in Hm' as (E1 & E2 & E3 & E4 & E5 & E6 & E7).
  2:{ destruct pending; [|done]. intros _ He. by apply (non_empty_union_L {[k.2]} hashes); [left; apply non_empty_singleton_L|]. }
  assert (Hc : is_Some (ep_committed p' !! k)) by (apply E6; simpl; by rewrite lookup_insert_eq).
  split_and!; try done.
  - intros k' Hk'. apply E5. unfold keys1. destruct pending; [|done]. apply elem_of_app. by left.
  - intros k' Hk'. apply E6. simpl. destruct (decide (k = k')) as [->|]; [by rewrite lookup_insert_eq|by rewrite lookup_insert_ne].
  - intros ev' [->|Hin]%elem_of_cons; [|by apply E7]. exists k. split_and!; try done. intros Hpk.
    apply E5. unfold keys1. rewrite <- Hp, bool_decide_eq_true_2 by done. apply elem_of_app. right. left.
Qed.

Lemma process_votes_val st p l p' :
  process_votes stores st p l = Val p' ->
  ep_committed p' = ep_committed p /\ ep_state p' = ep_state p /\ ep_buffer p' = ep_buffer p.
Proof.
  revert p. induction l as [|[a b] l IH]; intros p Hp; cbn [process_votes] in Hp; [by injection Hp as <-|].
  apply bind_val in Hp as (q & Hq & Hp). apply IH in Hp as (-> & -> & ->). clear IH. unfold process_one in Hq.
  apply bind_val in Hq as (o & _ & Hq). destruct o as [dve|]; [|by injection Hq as <-].
  apply bind_val in Hq as (b1 & _ & Hq). apply bind_val in Hq as (b2 & _ & Hq). destruct (b1 || b2); [by injection Hq as <-|].
  unfold addPendingEvidence in Hq. destruct (EvidenceToProto _); [|by injection Hq as <-|done].
  revert Hq. go_step. destruct (key_of _) as [k|[]|]; go_step; [|done]. by intros [= <-].
Qed.

(** Committed evidence leaves the pool.  After [Update] with the evidence of a
    block, each piece of it is committed and no longer pending, everything committed
    before stays committed, the buffer of conflicting votes is empty and the pool has
    the new state. *)
Theorem evidence_update_commits p st evl p' :
  Update stores p st evl = Val p' ->
  ep_state p' = st /\ ep_buffer p' = [] /\
  (forall k, is_Some (ep_committed p !! k) -> is_Some (ep_committed p' !! k)) /\
  forall ev, ev ∈ evl -> isCommitted p' ev = Val true /\ isPending p' ev = Val false.
Proof.
  unfold Update, processConsensusBuffer, markEvidenceAsCommitted. intros Hu. apply bind_val in Hu as (u & _ & Hu).
  apply bind_val in Hu as (q & Hq & Hu). apply bind_val in Hq as (q0 & Hq0 & Hq). injection Hq as <-.
  apply process_votes_val in Hq0 as (Ec & _ & _).
  apply bind_val in Hu as (q2 & Hq2 & Hu). apply bind_val in Hq2 as ([[q1 keys] hashes] & Hm & Hd).
  apply mark_committed_val in Hm as (E1 & E2 & E3 & E4 & _ & E6 & E7); [|done].
  assert (Hfin : ep_committed p' = ep_committed q2 /\ ep_state p' = ep_state q2 /\ ep_buffer p' = ep_buffer q2 /\
    forall k, is_Some (ep_pending p' !! k) -> is_Some (ep_pending q2 !! k)).
  { destruct (_ && _) in Hu; [|by injection Hu as <-]. apply bind_val in Hu as ([[q3 hh] tt'] & Hr & Hu). injection Hu as <-.
    unfold removeExpiredPendingEvidence in Hr. apply bind_val in Hr as ([[[h1 t1] ks] hs] & Hb & Hr).
    apply bind_val in Hr as (q4 & Hq4 & Hr). injection Hr as <- _ _.
    cbn. apply drop_evidence_val in Hq4 as (-> & -> & -> & Hk); [split_and!; try done; intros k Hk'; by apply Hk|].
    assert (Hgen : forall l ks0 hs0, (ks0 <> [] -> hs0 <> ∅) -> batch_expired q2 l ks0 hs0 = Val (h1, t1, ks, hs) -> ks <> [] -> hs <> ∅).
    { clear. induction l as [|[k m] l IH]; intros ks0 hs0 Hne Hb; cbn [batch_expired] in Hb; [by injection Hb as _ _ <- <-|].
      destruct (EvidenceFromProto m) as [ev| |]; [|by eapply IH|done]. apply bind_val in Hb as (hh & _ & Hb).
      destruct (negb _); [by injection Hb as _ _ <- <-|]. apply bind_val in Hb as (hash & _ & Hb).
      eapply IH; [|exact Hb]. intros _. set_solver. }
    by eapply Hgen; [|exact Hb]. }
  destruct Hfin as (F1 & F2 & F3 & F4). apply drop_evidence_val in Hd as (D1 & D2 & D3 & D4); [|done].
  rewrite F2, D2, E2. split; [done|]. rewrite F3, D3, E3. split; [done|]. rewrite F1, D1. split.
  - intros k Hk. apply E6. simpl. by rewrite Ec.
  - intros ev Hev. destruct (E7 ev Hev) as (k & Hk & Hc & Hp). unfold isCommitted, isPending. rewrite Hk. go_step. rewrite F1, D1.
    rewrite bool_decide_eq_true_2 by done. split; [done|]. f_equal. apply bool_decide_eq_false_2. intros [Hq Hn]%F4%D4.
    apply Hn, Hp. by rewrite <- E1.
Qed.
End pool.

(** ** Evidence that comes back *)

Section back.
Context `{!Crypto, !BatchCrypto, !Sha256, !TimeCodec, !WrapperCodec, !EvidenceCodec, !ListCodec}.
Context (stores : Stores).

(** The same votes with another timestamp. *)
Definition retimed (dve : DuplicateVoteEvidence) (t : Time) : DuplicateVoteEvidence :=
  mkDuplicateVoteEvidence (dve_VoteA dve) (dve_VoteB dve) (dve_TotalVotingPower dve) (dve_ValidatorPower dve) t.

Lemma verify_retimed p dve t :
  verify stores p (DuplicateVote dve) = Val (p, DuplicateVote dve, None) -> t <> dve_Timestamp dve ->
  verify stores p (DuplicateVote (retimed dve t)) = rectify p (DuplicateVote dve) ErrAbciTime.
Proof.
  unfold verify, verify_duplicate. cbn [Evidence_Height]. change (DuplicateVote_Height (retimed dve t)) with (DuplicateVote_Height dve).
  change (dve_VoteA (retimed dve t)) with (dve_VoteA dve).
  intros Hv Hne. destruct (DuplicateVote_Height dve) as [h|[]|]; [|done]. revert Hv. go_step.
  destruct (LoadBlockMeta stores h) as [meta|]; [|done]. destruct (isExpired _ _ _); [done|].
  destruct (LoadValidators stores h) as [vals|]; [|done].
  change (VerifyDuplicateVote (retimed dve t)) with (VerifyDuplicateVote dve).
  destruct (VerifyDuplicateVote _ _ _); try done. destruct (dve_VoteA dve) as [va|] eqn:Ha; [|done].
  destruct (GetByAddress _ _).2 as [val|]; [|done].
  unfold DuplicateVote_ValidateABCI, DuplicateVote_GenerateABCI, rectify. cbn [retimed dve_Timestamp dve_ValidatorPower dve_TotalVotingPower dve_VoteA dve_VoteB].
  destruct (Z.eqb_spec (dve_Timestamp dve) (h_Time meta)) as [E1|]; go_step; [|intros Hv; by inv_val].
  destruct (Z.eqb_spec (VotingPower val) (dve_ValidatorPower dve)) as [E2|]; go_step; [|intros Hv; by inv_val].
  destruct (TotalVotingPower vals) as [[tot vals']|[]|]; go_step; [|done].
  destruct (Z.eqb_spec tot (dve_TotalVotingPower dve)) as [E3|]; go_step; [|intros Hv; by inv_val].
  intros _. destruct (Z.eqb_spec t (h_Time meta)); [congruence|]. go_step. rewrite E2, E3, <- E1.
  by destruct dve as [x y c d e].
Qed.

(** Evidence can be committed twice.  Let a piece of evidence be committed and
    valid.  A copy of it with another timestamp is refused, but [verify] first restores
    the timestamp and stores the result as pending without looking whether it is
    committed; from then on [CheckEvidence] accepts the committed evidence in a block. *)
Theorem committed_evidence_accepted_again p dve t k :
  verify stores p (DuplicateVote dve) = Val (p, DuplicateVote dve, None) ->
  key_of (DuplicateVote dve) = Val k -> is_Some (ep_committed p !! k) -> ep_pending p !! k = None ->
  isPending p (DuplicateVote (retimed dve t)) = Val false -> isCommitted p (DuplicateVote (retimed dve t)) = Val false ->
  t <> dve_Timestamp dve ->
  CheckEvidence stores p [DuplicateVote dve] = Val (p, [DuplicateVote dve], Some ErrAlreadyCommitted) /\
  exists p', AddEvidence stores p (DuplicateVote (retimed dve t)) = Val (p', DuplicateVote dve, Some (ErrAbci ErrAbciTime)) /\
    ep_committed p' = ep_committed p /\
    CheckEvidence stores p' [DuplicateVote dve] = Val (p', [DuplicateVote dve], None).
Proof.
  intros Hv Hk Hc Hn Hp' Hc' Hne. unfold CheckEvidence, check_all, check_one, isPending, isCommitted in *. rewrite !Hk. split.
  - go_step. rewrite Hn, bool_decide_eq_false_2 by (by intros [? ?]). go_step. by rewrite bool_decide_eq_true_2.
  - exists (with_pending p (<[k := DuplicateVoteMessage dve]> (ep_pending p)) (uint32 (ep_size p + 1))). split; [|split; [done|]].
    + unfold AddEvidence, isPending, isCommitted. rewrite Hp'. go_step. rewrite Hc'. go_step.
      rewrite (verify_retimed p dve t Hv Hne). unfold rectify, try_add, addPendingEvidence. cbn [EvidenceToProto]. go_step. rewrite Hk. done.
    + go_step. cbn [ep_pending with_pending]. rewrite lookup_insert_eq, bool_decide_eq_true_2 by done. go_step.
      rewrite (key_of_hash _ _ Hk). go_step. by rewrite bool_decide_eq_false_2 by apply not_elem_of_nil.
Qed.

(** ** Attacks with no known culprit *)

(** Evidence of an amnesia attack is never accepted.  Decoded evidence has a
    list of validators that is not nil, and [ValidateABCI] asks for a nil list when no
    culprit can be named: when the conflicting block differs from the stored one of
    its height only in data and round, the evidence fails the verification whatever the
    pool, so that a block carrying it is refused. *)
Theorem amnesia_evidence_refused p m l lb h tsh th c tc p' ev' :
  LightClientAttackEvidenceFromProto m = Val l -> lca_ConflictingBlock l = Some lb ->
  lb_header lb = Val (E := Empty_set) h -> lb_commit lb = Val (E := Empty_set) c -> h_Height h = lca_CommonHeight l ->
  getSignedHeader stores (lca_CommonHeight l) = Some tsh -> sh_Header tsh = Some th -> sh_Commit tsh = Some tc ->
  ConflictingHeaderIsInvalid lb th = Val false -> c_Round tc <> c_Round c ->
  verify stores p (LightClientAttack l) <> Val (p', ev', None).
Proof.
  intros Hm Hlb Hh Hcm Hheight Hs Hth Htc Hinv Hr Hv. unfold verify, verify_attack, rectify in Hv. cbn [Evidence_Height] in Hv.
  apply bind_val in Hv as (h0 & _ & Hv). destruct (LoadBlockMeta stores h0); [|done]. destruct (isExpired _ _ _); [done|].
  rewrite Hs in Hv. destruct (LoadValidators _ _) as [vals|]; [|done]. unfold conflicting in Hv. rewrite Hlb in Hv.
  revert Hv. go_step. rewrite Hh. go_step. unfold trusted_header. rewrite <- Hheight, Z.eqb_refl.
  destruct (VerifyLightClientAttack _ _ _ _); try done.
  assert (Hbyz : GetByzantineValidators lb vals tsh = Val []).
  { unfold GetByzantineValidators, sh_header, sh_commit. rewrite Hth. go_step. rewrite Hinv. go_step. rewrite Hcm. go_step.
    rewrite Htc. go_step. by destruct (Z.eqb_spec (c_Round tc) (c_Round c)). }
  assert (Hsome : is_Some (lca_ByzantineValidators l)).
  { unfold LightClientAttackEvidenceFromProto in Hm. destruct (lam_ConflictingBlock m); [|done].
    apply bind_val in Hm as (cb & _ & Hm). apply bind_val in Hm as (byz & _ & Hm). apply bind_val in Hm as (u & _ & Hm).
    injection Hm as <-. by eexists. }
  destruct Hsome as [byz Hsome]. unfold LightClientAttack_ValidateABCI, conflicting. rewrite Hlb, Hsome.
  destruct (TotalVotingPower vals) as [[tot vals']|[]|]; go_step; [|done].
  destruct (negb (lca_TotalVotingPower l =? tot)); go_step; [intros Hv; by inv_val|].
  destruct (negb (lca_Timestamp l =? _)); go_step; [intros Hv; by inv_val|]. rewrite Hbyz. simpl. intros Hv. by inv_val.
Qed.
End back.

(** ** Concrete evidence *)

Definition toy_evidence_codec : EvidenceCodec :=
  {| DuplicateVote_Bytes := fun dve => uvarint (dve_Timestamp dve) ++ from_option v_Signature [] (dve_VoteA dve) ++
       from_option v_Signature [] (dve_VoteB dve);
     LightClientAttack_Bytes := fun l => uvarint (lca_CommonHeight l) |}.
Definition toy_list : ListCodec := {| EvidenceMessages_Size := fun l => 100 * len l |}.
#[local] Existing Instances digest_crypto digest_batch digest_laws toy_sha256 toy_time toy_wrappers toy_evidence_codec toy_list.

(** The chain's blocks of heights 4, 5 and 9, decided by the sample validators. *)
Definition block_at (height : Z) : option SignedHeader :=
  if height =? 4 then Some (sample_signed_header 4 70 x01)
  else if height =? 5 then Some (sample_signed_header 5 77 x02)
  else if height =? 9 then Some (sample_signed_header 9 90 x02)
  else None.
Definition toy_stores : Stores :=
  mkStores (fun h => block_at h ≫= sh_Header) (fun h => block_at h ≫= sh_Commit) 9 (fun _ => Some sample_set).
Definition toy_state (height : Z) : State :=
  mkState (mkVersion (mkConsensus BlockProtocol 0) EmptyString) [x61] 1 height nilBlockID 90 (Some sample_set) (Some sample_set) (Some sample_set)
    1 DefaultConsensusParams 1 [] [].
Definition toy_pool : Pool := mkPool ∅ ∅ [] 0 (toy_state 9) [] 0 0.

(** Two votes of the first validator for height 5. *)
Definition double_vote (b : byte) : Vote :=
  match VoteSignBytes [x61] (mkVote PrecommitType 5 1 (sample_blockid b) 77 (replicate 20 x03) 0 []) with
  | Val bz => mkVote PrecommitType 5 1 (sample_blockid b) 77 (replicate 20 x03) 0 (x03 :: toy_digest bz)
  | _ => sample_vote b
  end.
Definition toy_dve : DuplicateVoteEvidence := mkDuplicateVoteEvidence (Some (double_vote x07)) (Some (double_vote x08)) 6 3 77.

Lemma toy_dve_verifies : verify toy_stores toy_pool (DuplicateVote toy_dve) = Val (toy_pool, DuplicateVote toy_dve, None).
Proof. vm_compute. reflexivity. Qed.

Definition checked_pool : Pool :=
  match CheckEvidence toy_stores toy_pool [DuplicateVote toy_dve] with Val (p, _, _) => p | _ => toy_pool end.
Lemma block_evidence_checked_witness :
  CheckEvidence toy_stores toy_pool [DuplicateVote toy_dve] = Val (checked_pool, [DuplicateVote toy_dve], None) /\
  ((isPending toy_pool (DuplicateVote toy_dve) = Val true /\ exists dve, DuplicateVote toy_dve = DuplicateVote dve) \/
   (isCommitted toy_pool (DuplicateVote toy_dve) = Val false /\
    verify toy_stores toy_pool (DuplicateVote toy_dve) = Val (toy_pool, DuplicateVote toy_dve, None))).
Proof.
  assert (Hc : CheckEvidence toy_stores toy_pool [DuplicateVote toy_dve] = Val (checked_pool, [DuplicateVote toy_dve], None))
    by (vm_compute; reflexivity).
  split; [exact Hc|]. destruct (block_evidence_checked toy_stores _ _ _ _ Hc) as (_ & _ & _ & _ & Hall). apply Hall. left.
Defined.

Definition updated_pool : Pool :=
  match Update toy_stores toy_pool (toy_state 10) [DuplicateVote toy_dve] with Val p => p | _ => toy_pool end.
Lemma evidence_update_commits_witness :
  Update toy_stores toy_pool (toy_state 10) [DuplicateVote toy_dve] = Val updated_pool /\
  isCommitted updated_pool (DuplicateVote toy_dve) = Val true.
Proof.
  assert (Hu : Update toy_stores toy_pool (toy_state 10) [DuplicateVote toy_dve] = Val updated_pool) by (vm_compute; reflexivity).
  split; [exact Hu|]. destruct (evidence_update_commits toy_stores _ _ _ _ Hu) as (_ & _ & _ & Hall). exact (proj1 (Hall _ ltac:(left))).
Defined.

Definition dve_key : EvKey := match key_of (DuplicateVote toy_dve) with Val k => k | _ => (0, []) end.
Definition committed_pool : Pool := mkPool ∅ {[dve_key := 8]} [] 0 (toy_state 9) [] 0 0.
Lemma committed_evidence_accepted_again_witness :
  exists p, AddEvidence toy_stores committed_pool (DuplicateVote (retimed toy_dve 78)) = Val (p, DuplicateVote toy_dve, Some (ErrAbci ErrAbciTime)) /\
  CheckEvidence toy_stores p [DuplicateVote toy_dve] = Val (p, [DuplicateVote toy_dve], None).
Proof.
  destruct (committed_evidence_accepted_again toy_stores committed_pool toy_dve 78 dve_key) as [_ (p & H1 & _ & H2)].
  - vm_compute. reflexivity.
  - vm_compute. reflexivity.
  - exists 8. vm_compute. reflexivity.
  - vm_compute. reflexivity.
  - vm_compute. reflexivity.
  - vm_compute. reflexivity.
  - discriminate.
  - exists p. split; [exact H1|exact H2].
Defined.

(** A block for height 5 with other data, committed in another round. *)
Definition amnesia_header : Header :=
  let h := sample_header 5 77 x02 in
  mkHeader (mkConsensus BlockProtocol 9) (h_ChainID h) 5 77 (h_LastBlockID h) [] (replicate 32 x09) (h_ValidatorsHash h) (h_NextValidatorsHash h)
    [] [] [] [] (h_ProposerAddress h).
Definition sign_round (bid : BlockID) (round i : Z) (b : byte) : CommitSig :=
  match VoteSignBytes [x61] (mkVote PrecommitType 5 round bid 77 (replicate 20 b) i []) with
  | Val bz => mkCommitSig BlockIDFlagCommit (replicate 20 b) 77 (b :: toy_digest bz)
  | _ => NewCommitSigAbsent
  end.
Definition amnesia_block : LightBlock :=
  let bid := mkBlockID (header_hash_of amnesia_header) (mkPartSetHeader 1 (replicate 32 x09)) in
  mkLightBlock (Some (mkSignedHeader (Some amnesia_header) (Some (mkCommit 5 2 bid [sign_round bid 2 0 x03; sign_round bid 2 1 x02; NewCommitSigAbsent]))))
    (Some sample_set).
Definition amnesia_message : LightAttackMessage := mkLightAttackMessage (Some amnesia_block) 5 [] 6 77.
(** The evidence as it is decoded; it is valid but for the list of validators. *)
Definition amnesia_evidence : LightClientAttackEvidence := mkLightClientAttackEvidence (Some amnesia_block) 5 (Some []) 6 77.

Lemma amnesia_evidence_refused_witness :
  VerifyLightClientAttack amnesia_evidence (sample_signed_header 5 77 x02) (sample_signed_header 5 77 x02) sample_set = Val tt /\
  forall p p' ev', verify toy_stores p (LightClientAttack amnesia_evidence) <> Val (p', ev', None).
Proof.
  split; [vm_compute; reflexivity|]. intros p p' ev'.
  apply (amnesia_evidence_refused toy_stores p amnesia_message amnesia_evidence amnesia_block amnesia_header
    (sample_signed_header 5 77 x02) (sample_header 5 77 x02) (match lb_commit (E := Empty_set) amnesia_block with Val c => c | _ => empty_commit end)
    (sample_commit_for 5 77 x02)); try (vm_compute; reflexivity). vm_compute. discriminate.
Defined.

(** ** A correct validator accused

    The attackers invent a validator set in which they have almost all the power.
    Their signatures come first and suffice; an invalid signature in the name of a
    correct validator is never checked. *)

Definition lunatic_set : ValidatorSet :=
  match NewValidatorSet [sample_validator x03 10; sample_validator x01 1] with Val v => v | _ => empty_set end.
Definition lunatic_header : Header :=
  let h := sample_header 9 88 x02 in
  mkHeader (mkConsensus BlockProtocol 9) (h_ChainID h) 9 88 (h_LastBlockID h) [] (replicate 32 x09)
    (match ValidatorSet_Hash lunatic_set with Val x => x | _ => [] end) (h_NextValidatorsHash h) [] [] [] [] (h_ProposerAddress h).
Definition lunatic_bid : BlockID := mkBlockID (header_hash_of lunatic_header) (mkPartSetHeader 1 (replicate 32 x09)).
Definition lunatic_commit : Commit :=
  mkCommit 9 1 lunatic_bid [sign_for lunatic_bid 9 0 x03; mkCommitSig BlockIDFlagCommit (replicate 20 x01) 77 [x00]].
Definition framing_evidence : LightClientAttackEvidence :=
  mkLightClientAttackEvidence (Some (mkLightBlock (Some (mkSignedHeader (Some lunatic_header) (Some lunatic_commit))) (Some lunatic_set)))
    4 (Some [Some (sample_validator x03 3); Some (sample_validator x01 1)]) 6 70.

(** Evidence can accuse a validator that signed nothing.  There is evidence of
    an attack on light clients that passes basic validation and the whole verification
    of the pool, and names a validator of the common set whose signature on the
    conflicting block is invalid. *)
Lemma attack_evidence_accuses_correct :
  LightClientAttack_ValidateBasic framing_evidence = Val tt /\
  verify toy_stores toy_pool (LightClientAttack framing_evidence) = Val (toy_pool, LightClientAttack framing_evidence, None) /\
  exists v cs, Some v ∈ from_option id [] (lca_ByzantineValidators framing_evidence) /\ cs ∈ c_Signatures lunatic_commit /\
    cs_ValidatorAddress cs = Address v /\ HasAddress sample_set (Address v) = true /\ sig_ok [x61] lunatic_commit 1 cs v = false.
Proof.
  split; [vm_compute; reflexivity|]. split; [vm_compute; reflexivity|].
  exists (sample_validator x01 1), (mkCommitSig BlockIDFlagCommit (replicate 20 x01) 77 [x00]).
  split; [right; left|]. split; [right; left|]. repeat split; vm_compute; reflexivity.
Qed.

Lemma conflicting_votes_make_evidence_witness :
  exists dve, @NewDuplicateVoteEvidence (Some (toy_vote x07 0 x03)) (Some (toy_vote x08 0 x03)) 77 (Some sample_set) = Val dve /\
    @VerifyDuplicateVote toy_crypto toy_time dve [x61] sample_set = Val tt.
Proof.
  assert (Hset : vs_valSet (sample_votes2 x07) = sample_set /\ vs_chainID (sample_votes2 x07) = [x61]) by (split; vm_compute; reflexivity).
  destruct Hset as [Hset Hcid].
  destruct (@conflicting_votes_make_evidence toy_crypto toy_time (sample_votes2 x07) (toy_vote x08 0 x03) (sample_votes2 x07) false
    (toy_vote x07 0 x03) (toy_vote x08 0 x03) 77) as (dve & val & Hnew & Hver & _).
  - exact (sample_votes2_reachable x07 (or_introl eq_refl)).
  - apply toy_vote_wire.
  - vm_compute. discriminate.
  - vm_compute. reflexivity.
  - exists dve. rewrite Hset in Hnew, Hver. rewrite Hcid in Hver. split; [exact Hnew|exact Hver].
Defined.

(** A key under which only the signature of the sample vote verifies. *)
Definition sample_sign_bytes : bytes := match VoteSignBytes [x61] (sample_vote x07) with Val bz => bz | _ => [] end.
Definition sealed_crypto : Crypto :=
  {| pk_Address := fun pk => take 20 (pk_Bytes pk); VerifySignature := fun _ bz _ => bytes_equal bz sample_sign_bytes |}.
Lemma sealed_reachable :
  @node_reachable sealed_crypto toy_time toy_decoder toy_keys toy_equal toy_json sample_sk "key.json" "state.json" sample_signed.
Proof.
  exists (mkNode (Some sample_pv) sample_files []). split.
  - by apply (@initial_node sealed_crypto toy_keys toy_json sample_sk "key.json" "state.json" (mkFiles ∅ ∅)).
  - apply rtc_once. unfold sample_signed.
    destruct (pv_sign 99 0 sample_pv sample_files [x61] sample_message) as [[[pv fs] m]| |] eqn:Hs; [|by vm_compute in Hs..].
    apply (step_sign _ _ 99 0 _ _ _ [x61] sample_message); [exact (sample_message_sized 77)|exact Hs].
Qed.
Definition owner_set : ValidatorSet := mkValidatorSet [mkValidator (replicate 20 x01) (Some (@sk_PubKey toy_keys sample_sk)) 1 0] None 1.
Definition false_evidence : DuplicateVoteEvidence := mkDuplicateVoteEvidence (Some (sample_vote x07)) (Some (sample_vote x08)) 1 1 77.
Lemma evidence_spares_correct_witness : @VerifyDuplicateVote sealed_crypto toy_time false_evidence [x61] owner_set <> Val tt.
Proof.
  apply (@evidence_spares_correct sealed_crypto toy_time toy_decoder toy_keys toy_equal toy_json sample_sk "key.json" "state.json" sample_signed
    [x61] false_evidence owner_set (sample_vote x07) (sample_vote x08)
    (mkValidator (replicate 20 x01) (Some (@sk_PubKey toy_keys sample_sk)) 1 0)).
  - exact sealed_reachable.
  - intros bz sig Hv. change (bytes_equal bz sample_sign_bytes = true) in Hv.
    destruct (bytes_equal_spec bz sample_sign_bytes) as [->|]; [|discriminate Hv].
    destruct (released sample_signed) as [|[c m] rest] eqn:Hr; [vm_compute in Hr; discriminate Hr|].
    exists c, m. split; [left|]. vm_compute in Hr. injection Hr as <- <- _. vm_compute. reflexivity.
  - reflexivity.
  - reflexivity.
  - vm_compute. repeat split; discriminate.
  - vm_compute. repeat split; discriminate.
  - reflexivity.
  - vm_compute. reflexivity.
  - reflexivity.
Defined.
