(* ===== verification/LightStore.v ===== *)
(** * light/store: the light client's block store

    Models light/store/db/db.go.  The database maps the height of the key to the
    stored message, in the order of heights, and keeps the number of blocks apart,
    as a [uint16]; it does not fail.  What is read goes through the conversions of
    the message. *)
From Stdlib Require Import ZArith Lia Strings.Byte.
From stdpp Require Import base list strings gmap.
From S2P Require Import Prelude.
From S2P Require Import Merkle.
From S2P Require Import Validator.
From S2P Require Import Types.
From S2P Require Import Header.
From S2P Require Import Evidence.

Record LightStore := mkLightStore { ls_blocks : gmap Z LightBlock; ls_size : Z }.

Inductive StoreError := ErrLightBlockNotFound | ErrSaveLightBlock (e : EvError) | ErrLoadLightBlock (e : EvError).

Definition uint16 (z : Z) : Z := wrap_unsigned 16 z.

(** The heights in the database, ascending. *)
Definition heights (s : LightStore) : list Z := sort_by Z.ltb (map_to_list (ls_blocks s)).*1.

Definition SaveLightBlock (s : LightStore) (lb : LightBlock) : outcome StoreError LightStore :=
  h ← lb_header lb;
  _ ← panic_if (h_Height h <=? 0) "negative or zero height";
  lbpb ← wrap_err ErrSaveLightBlock (LightBlock_ToProto lb);
  Val (mkLightStore (<[h_Height h := lbpb]> (ls_blocks s)) (uint16 (ls_size s + 1))).

Definition DeleteLightBlock (s : LightStore) (height : Z) : go LightStore :=
  _ ← panic_if (height <=? 0) "negative or zero height";
  Val (mkLightStore (base.delete height (ls_blocks s)) (uint16 (ls_size s - 1))).

Definition load_message (o : option LightBlock) : outcome StoreError LightBlock :=
  match o with
  | None => Fail ErrLightBlockNotFound
  | Some m => wrap_err ErrLoadLightBlock (LightBlockFromProto m)
  end.

Definition LightBlock_at (s : LightStore) (height : Z) : outcome StoreError LightBlock :=
  _ ← panic_if (height <=? 0) "negative or zero height";
  load_message (ls_blocks s !! height).

Definition LastLightBlockHeight (s : LightStore) : Z := default (-1) (last (heights s)).
Definition FirstLightBlockHeight (s : LightStore) : Z := default (-1) (head (heights s)).

(** The newest block before a height. *)
Definition LightBlockBefore (s : LightStore) (height : Z) : outcome StoreError LightBlock :=
  _ ← panic_if (height <=? 0) "negative or zero height";
  load_message (last (List.filter (fun h => h <? height) (heights s)) ≫= fun h => ls_blocks s !! h).

(** The oldest blocks are deleted. *)
Definition Prune (s : LightStore) (size : Z) : LightStore :=
  if ls_size s <=? size then s
  else
    let numToPrune := uint16 (ls_size s - size) in
    mkLightStore (foldr (fun h m => base.delete h m) (ls_blocks s) (take (Z.to_nat numToPrune) (heights s))) size.
