(* ===== verification/LightClient.v ===== *)
(** * light: the light client

    Models light/client.go, light/detector.go and light/trust_options.go over the
    verifier and the store.  A call may change the client and then fail or panic: the
    monad [LM] keeps the client it reached.  [None] is a loop that has run out of
    fuel; it is not a result of the code.

    Providers are known by numbers; their answers, whether the context is done and
    the order in which the answers of concurrent requests arrive are the record
    [Network], indexed by the number of the call, so they are arbitrary.  The
    evidence that is reported is kept in the client's log. *)
From Stdlib Require Import ZArith Lia Strings.Byte.
From stdpp Require Import base list strings gmap.
From S2P Require Import Prelude.
From S2P Require Import Merkle.
From S2P Require Import SafeMath.
From S2P Require Import Validator.
From S2P Require Import Types.
From S2P Require Import Validation.
From S2P Require Import Header.
From S2P Require Import LightVerifier.
From S2P Require Import Evidence.
From S2P Require Import LightStore.

(** ** Providers *)

(** light/provider/errors.go, and the errors of the context. *)
Inductive ProviderError :=
  | ProvHeightTooHigh | ProvLightBlockNotFound | ProvNoResponse | ProvConnectionClosed | ProvBadLightBlock
  | ProvUnreliable | ProvOther | CtxCanceled | CtxDeadlineExceeded.
#[export] Instance ProviderError_eq_dec : EqDecision ProviderError.
Proof. solve_decision. Defined.

Abbreviation Provider := nat.

Record Network := mkNetwork {
  net_LightBlock : nat -> Provider -> Z -> LightBlock + ProviderError;
  net_CtxErr : nat -> bool;
  (** The order in which the answers of concurrent requests arrive: positions in the list of witnesses. *)
  net_Arrivals : nat -> list nat
}.

(** [providerShouldBeRemoved]. *)
Definition providerShouldBeRemoved (e : ProviderError) : bool :=
  match e with ProvUnreliable | ProvBadLightBlock | ProvConnectionClosed => true | _ => false end.
Definition ctx_error (e : ProviderError) : bool := match e with CtxCanceled | CtxDeadlineExceeded => true | _ => false end.
Definition benign (e : ProviderError) : bool :=
  match e with ProvNoResponse | ProvLightBlockNotFound | ProvHeightTooHigh => true | _ => false end.

(** ** The client *)

Inductive mode := sequential | skipping | unknown_mode.

Record Client := mkClient {
  cl_chainID : ChainID;
  cl_trustingPeriod : Time;
  cl_mode : mode;
  cl_trustLevel : Fraction;
  cl_maxClockDrift : Time;
  cl_primary : Provider;
  cl_witnesses : list Provider;
  cl_store : LightStore;
  cl_latest : option LightBlock;
  cl_pruningSize : Z;
  cl_sent : list (Provider * LightClientAttackEvidence);
  cl_calls : nat
}.

Definition defaultPruningSize : Z := 1000.
Definition defaultMaxClockDrift : Time := 10 * 1000000000.
Definition verifySkippingNumerator : Z := 9.
Definition verifySkippingDenominator : Z := 16.

Inductive ClientError :=
  | EProvider (e : ProviderError)
  | ELight (e : LightError)
  | EStore (e : StoreError)
  | EVerificationFailed (from to : Z) (reason : ClientError)
  | ENoWitnesses | ELightClientAttack | EFailedHeaderCrossReferencing | ENoDivergence
  | EConflictingHeaders (witness : nat) | EMsg (why : string) | ECommit (e : CommitError).

Definition with_providers (c : Client) (primary : Provider) (witnesses : list Provider) : Client :=
  mkClient (cl_chainID c) (cl_trustingPeriod c) (cl_mode c) (cl_trustLevel c) (cl_maxClockDrift c) primary witnesses (cl_store c)
    (cl_latest c) (cl_pruningSize c) (cl_sent c) (cl_calls c).
Definition with_store (c : Client) (s : LightStore) : Client :=
  mkClient (cl_chainID c) (cl_trustingPeriod c) (cl_mode c) (cl_trustLevel c) (cl_maxClockDrift c) (cl_primary c) (cl_witnesses c) s
    (cl_latest c) (cl_pruningSize c) (cl_sent c) (cl_calls c).
Definition with_latest (c : Client) (l : option LightBlock) : Client :=
  mkClient (cl_chainID c) (cl_trustingPeriod c) (cl_mode c) (cl_trustLevel c) (cl_maxClockDrift c) (cl_primary c) (cl_witnesses c) (cl_store c)
    l (cl_pruningSize c) (cl_sent c) (cl_calls c).
Definition with_sent (c : Client) (p : Provider) (ev : LightClientAttackEvidence) : Client :=
  mkClient (cl_chainID c) (cl_trustingPeriod c) (cl_mode c) (cl_trustLevel c) (cl_maxClockDrift c) (cl_primary c) (cl_witnesses c) (cl_store c)
    (cl_latest c) (cl_pruningSize c) (cl_sent c ++ [(p, ev)]) (cl_calls c).
Definition with_calls (c : Client) (n : nat) : Client :=
  mkClient (cl_chainID c) (cl_trustingPeriod c) (cl_mode c) (cl_trustLevel c) (cl_maxClockDrift c) (cl_primary c) (cl_witnesses c) (cl_store c)
    (cl_latest c) (cl_pruningSize c) (cl_sent c) n.

(** ** The monad *)

Definition LM (A : Type) : Type := Client -> option (Client * outcome ClientError A).
#[export] Instance LM_ret : MRet LM := fun _ a c => Some (c, Val a).
#[export] Instance LM_bind : MBind LM := fun _ _ k m c =>
  match m c with
  | None => None
  | Some (c', Val a) => k a c'
  | Some (c', Fail e) => Some (c', Fail e)
  | Some (c', Panic w) => Some (c', Panic w)
  end.
Definition client : LM Client := fun c => Some (c, Val c).
Definition update_client (f : Client -> Client) : LM unit := fun c => Some (f c, Val tt).
Definition call {A} (m : outcome ClientError A) : LM A := fun c => Some (c, m).
Definition err {A} (e : ClientError) : LM A := call (Fail e).
Definition tick : LM nat := fun c => Some (with_calls c (S (cl_calls c)), Val (cl_calls c)).
(** The result with its error as a value; a panic is not caught. *)
Definition attempt {A} (m : LM A) : LM (A + ClientError) := fun c =>
  match m c with
  | None => None
  | Some (c', Val a) => Some (c', Val (inl a))
  | Some (c', Fail e) => Some (c', Val (inr e))
  | Some (c', Panic w) => Some (c', Panic w)
  end.
Definition out_of_fuel {A} : LM A := fun _ => None.

(** [lb.Height], and the embedded signed header. *)
Definition height_of {E} (lb : LightBlock) : outcome E Z := h ← lb_header lb; Val (h_Height h).
Definition signed_header {E} (lb : LightBlock) : outcome E SignedHeader :=
  match lb_SignedHeader lb with Some sh => Val sh | None => nil_panic end.

Section client.
Context `{!Crypto, !BatchCrypto, !Sha256, !TimeCodec, !WrapperCodec}.
Context (net : Network).

(** ** Requests *)

Definition getLightBlock (p : Provider) (height : Z) : LM (LightBlock + ProviderError) :=
  n ← tick;
  mret (if net_CtxErr net n then inr ProvNoResponse else net_LightBlock net n p height).

(** [removeWitnesses]: from the highest index, the last witness takes the place of the removed one. *)
Fixpoint remove_each (indexes : list nat) (ws : list Provider) : go (list Provider) :=
  match indexes with
  | [] => Val ws
  | i :: rest =>
      match last ws with
      | None => Panic "index out of range"
      | Some l => if (i <? length ws)%nat then remove_each rest (take (length ws - 1) (<[i := l]> ws)) else Panic "index out of range"
      end
  end.
Definition removeWitnesses (indexes : list nat) : LM unit :=
  c ← client;
  if (length (cl_witnesses c) <=? length indexes)%nat then err ENoWitnesses
  else
    ws ← call (lift (remove_each (sort_by (fun a b => (b <? a)%nat) indexes) (cl_witnesses c)));
    update_client (fun c => with_providers c (cl_primary c) ws).

(** The answers of all witnesses, in the order of arrival. *)
Fixpoint ask_all (i : nat) (ws : list Provider) (height : Z) : LM (list (nat * (LightBlock + ProviderError))) :=
  match ws with
  | [] => mret []
  | w :: rest => n ← tick; rs ← ask_all (S i) rest height; mret ((i, net_LightBlock net n w height) :: rs)
  end.
(** Each answer arrives once: those not named in [order] come last. *)
Definition arrange {A} (order : list nat) (rs : list A) : list A :=
  let first := remove_dups (List.filter (fun i => (i <? length rs)%nat) order) in
  omap (fun i => rs !! i) (first ++ List.filter (fun i => negb (bool_decide (i ∈ first))) (seq 0 (length rs))).

(** The loop over the answers; an answer promotes its witness. *)
Fixpoint first_answer (remove : bool) (rs : list (nat * (LightBlock + ProviderError))) (toRemove : list nat) (lastError : ClientError)
    : LM LightBlock :=
  match rs with
  | [] => err lastError
  | (i, inl lb) :: _ =>
      c ← client;
      let ws := if remove then cl_witnesses c else cl_witnesses c ++ [cl_primary c] in
      p ← call (slice_get ws (Z.of_nat i));
      _ ← update_client (fun c => with_providers c p ws);
      _ ← removeWitnesses (toRemove ++ [i]);
      mret lb
  | (i, inr e) :: rest =>
      if ctx_error e then err (EProvider e)
      else if benign e then first_answer remove rest toRemove (EProvider e)
      else first_answer remove rest (toRemove ++ [i]) (EProvider e)
  end.

Definition findNewPrimary (height : Z) (remove : bool) : LM LightBlock :=
  c ← client;
  if (length (cl_witnesses c) <? 1)%nat then err ENoWitnesses
  else
    n ← tick;
    rs ← ask_all 0 (cl_witnesses c) height;
    first_answer remove (arrange (net_Arrivals net n) rs) [] ENoWitnesses.

Definition lightBlockFromPrimary (height : Z) : LM LightBlock :=
  c ← client;
  r ← getLightBlock (cl_primary c) height;
  match r with
  | inl l => mret l
  | inr e =>
      if ctx_error e then err (EProvider e)
      else findNewPrimary height (negb (benign e))
  end.

(** ** Skipping verification *)

Definition schedule (lastVerifiedHeight lastFailedHeight : Z) : Z :=
  int64 (lastVerifiedHeight +
    Z.quot (int64 (int64 (lastFailedHeight - lastVerifiedHeight) * verifySkippingNumerator)) verifySkippingDenominator).

(** [Verify] of two light blocks with the client's parameters. *)
Definition verify_block (c : Client) (trusted new : LightBlock) (now : Time) : outcome LightError unit :=
  tsh ← signed_header trusted;
  nsh ← signed_header new;
  LightVerify tsh (lb_ValidatorSet trusted) nsh (lb_ValidatorSet new) (cl_trustingPeriod c) now (cl_maxClockDrift c) (cl_trustLevel c).

Fixpoint skip_loop (fuel : nat) (source : Provider) (newLightBlock : LightBlock) (now : Time)
    (blockCache : list LightBlock) (depth : nat) (verifiedBlock : LightBlock) (trace : list LightBlock) : LM (list LightBlock) :=
  match fuel with
  | O => out_of_fuel
  | S fuel =>
      c ← client;
      b ← call (slice_get blockCache (Z.of_nat depth));
      vh ← call (height_of verifiedBlock);
      bh ← call (height_of b);
      match verify_block c verifiedBlock b now with
      | Panic w => call (Panic w)
      | Val _ =>
          if (depth =? 0)%nat then mret (trace ++ [newLightBlock])
          else skip_loop fuel source newLightBlock now (take depth blockCache) 0 b (trace ++ [b])
      | Fail (ErrNewValSetCantBeTrusted _) =>
          if (depth =? length blockCache - 1)%nat then
            let pivotHeight := schedule vh bh in
            r ← getLightBlock source pivotHeight;
            match r with
            | inr e => err (EVerificationFailed vh pivotHeight (EProvider e))
            | inl interimBlock => skip_loop fuel source newLightBlock now (blockCache ++ [interimBlock]) (S depth) verifiedBlock trace
            end
          else skip_loop fuel source newLightBlock now blockCache (S depth) verifiedBlock trace
      | Fail e => err (EVerificationFailed vh bh (ELight e))
      end
  end.

Definition verifySkipping (fuel : nat) (source : Provider) (trustedBlock newLightBlock : LightBlock) (now : Time) : LM (list LightBlock) :=
  skip_loop fuel source newLightBlock now [newLightBlock] 0 trustedBlock [trustedBlock].

(** ** The detector *)

(** What [compareNewHeaderWithWitness] sends on the channel. *)
Inductive WitnessMsg :=
  | WMatch | WConflict (block : LightBlock) (witness : nat) | WBad (e : ProviderError) (witness : nat) | WErr (e : ProviderError).

Definition getTargetBlockOrLatest (height : Z) (witness : Provider) : LM ((bool * LightBlock) + ProviderError) :=
  r ← getLightBlock witness 0;
  match r with
  | inr e => mret (inr e)
  | inl lb =>
      h ← call (height_of lb);
      if h =? height then mret (inl (true, lb))
      else if h >? height then
        r ← getLightBlock witness height;
        mret (match r with inl lb => inl (true, lb) | inr e => inr e end)
      else mret (inl (false, lb))
  end.

(** The hashes are compared; after a conflict the function goes on and also reports a match. *)
Definition compare_hashes (h : SignedHeader) (lb : LightBlock) (i : nat) : LM (list WitnessMsg) :=
  hh ← call (lift (sh_hash h));
  wh ← call (lift (lb_hash lb));
  mret (if bytes_equal hh wh then [WMatch] else [WConflict lb i; WMatch]).

Definition witness_error (e : ProviderError) (i : nat) : list WitnessMsg :=
  [if providerShouldBeRemoved e then WBad e i else WErr e].

Definition compareNewHeaderWithWitness (h : SignedHeader) (witness : Provider) (i : nat) : LM (list WitnessMsg) :=
  hdr ← call (sh_header h);
  r ← getLightBlock witness (h_Height hdr);
  match r with
  | inl lb => compare_hashes h lb i
  | inr (ProvNoResponse | ProvLightBlockNotFound | CtxDeadlineExceeded | CtxCanceled) as e =>
      mret [WErr (match e with inr e => e | inl _ => ProvNoResponse end)]
  | inr ProvHeightTooHigh =>
      r ← getTargetBlockOrLatest (h_Height hdr) witness;
      match r with
      | inr e => mret (witness_error e i)
      | inl (true, lb) => compare_hashes h lb i
      | inl (false, lb) =>
          lh ← call (lb_header lb);
          if negb (h_Time lh <? h_Time hdr) then mret [WConflict lb i]
          else
            r ← getTargetBlockOrLatest (h_Height hdr) witness;
            match r with
            | inr e => mret (witness_error e i)
            | inl (true, lb) => compare_hashes h lb i
            | inl (false, lb) =>
                lh ← call (lb_header lb);
                mret (if negb (h_Time lh <? h_Time hdr) then [WConflict lb i] else [WErr ProvNoResponse])
            end
      end
  | inr e => mret [WBad e i]
  end.

(** One goroutine per witness; the messages of a witness arrive in their order,
    those of different witnesses in any order. *)
Fixpoint compare_all (h : SignedHeader) (i : nat) (ws : list Provider) : LM (list (list WitnessMsg)) :=
  match ws with
  | [] => mret []
  | w :: rest => q ← compareNewHeaderWithWitness h w i; qs ← compare_all h (S i) rest; mret (q :: qs)
  end.
Fixpoint interleave (order : list nat) (queues : list (list WitnessMsg)) : list WitnessMsg :=
  match order with
  | [] => concat queues
  | i :: rest =>
      match queues !! i with
      | Some (m :: q) => m :: interleave rest (<[i := q]> queues)
      | _ => interleave rest queues
      end
  end.

(** [examineConflictingHeaderAgainstTrace]: the loop over the trace. *)
Fixpoint examine_loop (fuel : nat) (idx : nat) (trace : list LightBlock) (targetBlock : LightBlock) (source : Provider) (now : Time)
    (previous : option LightBlock) (sourceTrace : list LightBlock) : LM (list LightBlock * LightBlock) :=
  match trace with
  | [] => err ENoDivergence
  | traceBlock :: rest =>
      th ← call (lb_header traceBlock);
      target ← call (lb_header targetBlock);
      if h_Height th >? h_Height target then
        if h_Time th >? h_Time target then err (EMsg "sanity check failed: expected traceblock to have a lesser time than the target block")
        else
          match previous with
          | None => call nil_panic
          | Some prev =>
              ph ← call (height_of prev);
              if ph =? h_Height target then mret (sourceTrace, traceBlock)
              else tr ← verifySkipping fuel source prev targetBlock now; mret (tr, traceBlock)
          end
      else
        sourceBlock ← (if h_Height th =? h_Height target then mret targetBlock
                       else
                         r ← getLightBlock source (h_Height th);
                         match r with inl b => mret b | inr e => err (EProvider e) end);
        shash ← call (lift (lb_hash sourceBlock));
        thash ← call (lift (lb_hash traceBlock));
        if (idx =? 0)%nat then
          if negb (bytes_equal shash thash) then err (EMsg "trusted block is different to the source's first block")
          else examine_loop fuel (S idx) rest targetBlock source now (Some sourceBlock) sourceTrace
        else
          match previous with
          | None => call nil_panic
          | Some prev =>
              tr ← verifySkipping fuel source prev sourceBlock now;
              if negb (bytes_equal shash thash) then mret (tr, traceBlock)
              else examine_loop fuel (S idx) rest targetBlock source now (Some sourceBlock) tr
          end
  end.

Definition examineConflictingHeaderAgainstTrace (fuel : nat) (trace : list LightBlock) (targetBlock : LightBlock) (source : Provider)
    (now : Time) : LM (list LightBlock * LightBlock) :=
  first ← call (slice_get trace 0);
  fh ← call (height_of first);
  th ← call (height_of targetBlock);
  if th <? fh then err (EMsg "target block has a height lower than the trusted height")
  else examine_loop fuel 0 trace targetBlock source now None [].

Definition newLightClientAttackEvidence (conflicted trusted common : LightBlock) : go LightClientAttackEvidence :=
  th ← lb_header trusted;
  tsh ← signed_header trusted;
  invalid ← ConflictingHeaderIsInvalid conflicted th;
  ch ← lb_header common;
  cvals ← (match lb_ValidatorSet common with Some v => Val v | None => nil_panic end);
  '(height, time, total) ←
    (if (invalid : bool) then '(t, _) ← TotalVotingPower cvals; Val (h_Height ch, h_Time ch, t)
     else
       tvals ← (match lb_ValidatorSet trusted with Some v => Val v | None => nil_panic end);
       '(t, _) ← TotalVotingPower tvals; Val (h_Height th, h_Time th, t));
  byz ← GetByzantineValidators conflicted cvals tsh;
  Val (mkLightClientAttackEvidence (Some conflicted) height (match byz with [] => None | _ => Some byz end) total time).

(** [None]: the witness's header could not be verified and nothing is reported. *)
Definition handleConflictingHeaders (fuel : nat) (primaryTrace : list LightBlock) (challengingBlock : LightBlock) (witnessIndex : nat)
    (now : Time) : LM (option ClientError) :=
  c ← client;
  supportingWitness ← call (slice_get (cl_witnesses c) (Z.of_nat witnessIndex));
  r ← attempt (examineConflictingHeaderAgainstTrace fuel primaryTrace challengingBlock supportingWitness now);
  match r with
  | inr _ => mret None
  | inl (witnessTrace, primaryBlock) =>
      commonBlock ← call (slice_get witnessTrace 0);
      trustedBlock ← call (slice_get witnessTrace (len witnessTrace - 1));
      ev ← call (lift (newLightClientAttackEvidence primaryBlock trustedBlock commonBlock));
      _ ← update_client (fun c => with_sent c supportingWitness ev);
      r ← attempt (examineConflictingHeaderAgainstTrace fuel witnessTrace primaryBlock (cl_primary c) now);
      match r with
      | inr _ => mret (Some ELightClientAttack)
      | inl (primaryTrace, witnessBlock) =>
          commonBlock ← call (slice_get primaryTrace 0);
          trustedBlock ← call (slice_get primaryTrace (len primaryTrace - 1));
          ev ← call (lift (newLightClientAttackEvidence witnessBlock trustedBlock commonBlock));
          _ ← update_client (fun c => with_sent c (cl_primary c) ev);
          mret (Some ELightClientAttack)
      end
  end.

(** The loop over the messages: whether a header matched, and the witnesses to remove. *)
Fixpoint process_messages (fuel : nat) (primaryTrace : list LightBlock) (now : Time) (msgs : list WitnessMsg) (matched : bool)
    (toRemove : list nat) : LM (bool * list nat) :=
  match msgs with
  | [] => mret (matched, toRemove)
  | WMatch :: rest => process_messages fuel primaryTrace now rest true toRemove
  | WConflict block i :: rest =>
      e ← handleConflictingHeaders fuel primaryTrace block i now;
      match e with
      | Some e => err e
      | None => process_messages fuel primaryTrace now rest matched (toRemove ++ [i])
      end
  | WBad _ i :: rest => process_messages fuel primaryTrace now rest matched (toRemove ++ [i])
  | WErr e :: rest => if ctx_error e then err (EProvider e) else process_messages fuel primaryTrace now rest matched toRemove
  end.

Definition detectDivergence (fuel : nat) (primaryTrace : list LightBlock) (now : Time) : LM unit :=
  if len primaryTrace <? 2 then err (EMsg "nil or single block primary trace")
  else
    lb ← call (slice_get primaryTrace (len primaryTrace - 1));
    lastVerifiedHeader ← call (signed_header lb);
    c ← client;
    if (length (cl_witnesses c) =? 0)%nat then err ENoWitnesses
    else
      n ← tick;
      queues ← compare_all lastVerifiedHeader 0 (cl_witnesses c);
      let msgs := take (length (cl_witnesses c)) (interleave (net_Arrivals net n) queues) in
      '(headerMatched, witnessesToRemove) ← process_messages fuel primaryTrace now msgs false [];
      _ ← removeWitnesses witnessesToRemove;
      if (headerMatched : bool) then mret tt else err EFailedHeaderCrossReferencing.

(** ** Verification of a block *)

Definition is_invalid_header (e : LightError) : bool := match e with ErrInvalidHeader _ => true | _ => false end.
Definition is_expired (e : LightError) : bool := match e with ErrOldHeaderExpired _ _ => true | _ => false end.

(** Whether a replacement has the target header. *)
Definition same_hash (a b : LightBlock) : LM bool :=
  ha ← call (lift (lb_hash a));
  hb ← call (lift (lb_hash b));
  mret (bytes_equal ha hb).

Fixpoint sequential_loop (fuel : nat) (newLightBlock : LightBlock) (now : Time) (height : Z) (verifiedBlock : LightBlock)
    (trace : list LightBlock) : LM (list LightBlock) :=
  match fuel with
  | O => out_of_fuel
  | S fuel =>
      nh ← call (height_of newLightBlock);
      if negb (height <=? nh) then mret trace
      else
        vh ← call (height_of verifiedBlock);
        interim ← (if height =? nh then mret newLightBlock
                   else
                     r ← attempt (lightBlockFromPrimary height);
                     match r with inl b => mret b | inr e => err (EVerificationFailed vh height e) end);
        ih ← call (height_of interim);
        c ← client;
        vsh ← call (signed_header verifiedBlock);
        ish ← call (signed_header interim);
        match VerifyAdjacent vsh ish (lb_ValidatorSet interim) (cl_trustingPeriod c) now (cl_maxClockDrift c) with
        | Panic w => call (Panic w)
        | Val _ => sequential_loop fuel newLightBlock now (int64 (height + 1)) interim (trace ++ [interim])
        | Fail e =>
            let failure := EVerificationFailed vh ih (ELight e) in
            if is_invalid_header e then
              if ih =? nh then err failure
              else
                r ← attempt (findNewPrimary nh true);
                match r with
                | inr _ => err failure
                | inl replacement =>
                    same ← same_hash replacement newLightBlock;
                    if negb same then err failure else sequential_loop fuel newLightBlock now height verifiedBlock trace
                end
            else err failure
        end
  end.

Definition verifySequential (fuel : nat) (trustedBlock newLightBlock : LightBlock) (now : Time) : LM unit :=
  th ← call (height_of trustedBlock);
  trace ← sequential_loop fuel newLightBlock now (int64 (th + 1)) trustedBlock [trustedBlock];
  detectDivergence fuel trace now.

Fixpoint verifySkippingAgainstPrimary (fuel : nat) (trustedBlock newLightBlock : LightBlock) (now : Time) : LM unit :=
  match fuel with
  | O => out_of_fuel
  | S fuel' =>
      c ← client;
      r ← attempt (verifySkipping fuel (cl_primary c) trustedBlock newLightBlock now);
      match r with
      | inl trace => detectDivergence fuel trace now
      | inr (EVerificationFailed from to reason) =>
          nh ← call (height_of newLightBlock);
          (** The error to return, or whether the primary is removed before the next attempt. *)
          let next :=
            match reason with
            | ELight e =>
                if is_invalid_header e && (to =? nh) then inl (EVerificationFailed from to reason)
                else if is_invalid_header e then inr true
                else if is_expired e then inl (EVerificationFailed from to reason)
                else inr false
            | EProvider e => if ctx_error e then inl reason else inr (providerShouldBeRemoved e)
            | _ => inr false
            end in
          match next with
          | inl e => err e
          | inr replace =>
              r ← attempt (findNewPrimary nh replace);
              match r with
              | inr _ => err reason
              | inl replacement =>
                  same ← same_hash replacement newLightBlock;
                  if negb same then err reason
                  else verifySkippingAgainstPrimary fuel' trustedBlock replacement now
              end
          end
      | inr e => err e
      end
  end.

Fixpoint backwards (fuel : nat) (verifiedHeader newHeader : Header) : LM unit :=
  match fuel with
  | O => out_of_fuel
  | S fuel =>
      if negb (h_Height verifiedHeader >? h_Height newHeader) then mret tt
      else
        r ← attempt (lightBlockFromPrimary (int64 (h_Height verifiedHeader - 1)));
        match r with
        | inr e => err e
        | inl interimBlock =>
            interimHeader ← call (lb_header interimBlock);
            match VerifyBackwards interimHeader verifiedHeader with
            | Panic w => call (Panic w)
            | Val _ => backwards fuel interimHeader newHeader
            | Fail e =>
                r ← attempt (findNewPrimary (h_Height newHeader) true);
                match r with
                | inr _ => err (ELight e)
                | inl newPrimarysBlock =>
                    ha ← call (lift (lb_hash newPrimarysBlock));
                    hb ← call (lift (Header_Hash newHeader));
                    if negb (bytes_equal ha hb) then err (ELight e)
                    else
                      nh ← call (lb_header newPrimarysBlock);
                      backwards fuel verifiedHeader nh
                end
            end
        end
  end.

Definition updateTrustedLightBlock (l : LightBlock) : LM unit :=
  c ← client;
  s ← call (wrap_err EStore (SaveLightBlock (cl_store c) l));
  _ ← update_client (fun c => with_store c s);
  _ ← (if cl_pruningSize c >? 0 then update_client (fun c => with_store c (Prune s (cl_pruningSize c))) else mret tt);
  h ← call (height_of l);
  match cl_latest c with
  | None => update_client (fun c => with_latest c (Some l))
  | Some b => bh ← call (height_of b); if h >? bh then update_client (fun c => with_latest c (Some l)) else mret tt
  end.

Definition verifyLightBlock (fuel : nat) (newLightBlock : LightBlock) (now : Time) : LM unit :=
  c ← client;
  verifyFunc ← (match cl_mode c with
                | sequential => mret (verifySequential fuel)
                | skipping => mret (verifySkippingAgainstPrimary fuel)
                | unknown_mode => call (Panic "Unknown verification mode")
                end);
  let firstBlockHeight := FirstLightBlockHeight (cl_store c) in
  nh ← call (lb_header newLightBlock);
  latest ← call (match cl_latest c with Some l => Val l | None => nil_panic end);
  lh ← call (height_of latest);
  _ ← (if h_Height nh >=? lh then verifyFunc latest newLightBlock now
       else if h_Height nh <? firstBlockHeight then
         firstBlock ← call (wrap_err EStore (LightBlock_at (cl_store c) firstBlockHeight));
         fh ← call (lb_header firstBlock);
         backwards fuel fh nh
       else
         closestBlock ← call (wrap_err EStore (LightBlockBefore (cl_store c) (h_Height nh)));
         verifyFunc closestBlock newLightBlock now);
  updateTrustedLightBlock newLightBlock.

(** ** The interface *)

Definition compareWithLatestHeight (height : Z) : LM Z :=
  c ← client;
  let latestHeight := LastLightBlockHeight (cl_store c) in
  if latestHeight =? -1 then err (EMsg "no headers exist")
  else if height >? latestHeight then err (EMsg "unverified header/valset requested")
  else if height =? 0 then mret latestHeight
  else if height <? 0 then err (EMsg "negative height")
  else mret height.

Definition TrustedLightBlock (height : Z) : LM LightBlock :=
  height ← compareWithLatestHeight height;
  c ← client;
  call (wrap_err EStore (LightBlock_at (cl_store c) height)).

Definition VerifyLightBlockAtHeight (fuel : nat) (height : Z) (now : Time) : LM LightBlock :=
  if height <=? 0 then err (EMsg "negative or zero height")
  else
    r ← attempt (TrustedLightBlock height);
    match r with
    | inl h => mret h
    | inr _ =>
        l ← lightBlockFromPrimary height;
        _ ← verifyLightBlock fuel l now;
        mret l
    end.

Definition VerifyHeader (fuel : nat) (newHeader : option Header) (now : Time) : LM unit :=
  match newHeader with
  | None => err (EMsg "nil header")
  | Some newHeader =>
      if h_Height newHeader <=? 0 then err (EMsg "negative or zero height")
      else
        hash ← call (lift (Header_Hash newHeader));
        r ← attempt (TrustedLightBlock (h_Height newHeader));
        match r with
        | inl l =>
            lh ← call (lift (lb_hash l));
            if negb (bytes_equal lh hash) then err (EMsg "existing trusted header does not match newHeader") else mret tt
        | inr _ =>
            l ← lightBlockFromPrimary (h_Height newHeader);
            lh ← call (lift (lb_hash l));
            if negb (bytes_equal lh hash) then err (EMsg "header from primary does not match newHeader")
            else verifyLightBlock fuel l now
        end
  end.

(** [None] when there is no block yet. *)
Definition ClientUpdate (fuel : nat) (now : Time) : LM (option LightBlock) :=
  c ← client;
  let lastTrustedHeight := LastLightBlockHeight (cl_store c) in
  if lastTrustedHeight =? -1 then mret None
  else
    latestBlock ← lightBlockFromPrimary 0;
    h ← call (height_of latestBlock);
    if h >? lastTrustedHeight then
      _ ← verifyLightBlock fuel latestBlock now;
      mret (Some latestBlock)
    else c ← client; mret (cl_latest c).

Definition Cleanup : LM unit :=
  _ ← update_client (fun c => with_latest c None);
  update_client (fun c => with_store c (Prune (cl_store c) 0)).

Definition AddProvider (p : Provider) : LM unit :=
  update_client (fun c => with_providers c (cl_primary c) (cl_witnesses c ++ [p])).

(** ** Initialization *)

Record TrustOptions := mkTrustOptions { to_Period : Time; to_Height : Z; to_Hash : bytes }.

Definition TrustOptions_ValidateBasic (opts : TrustOptions) : outcome ClientError unit :=
  _ ← fail_if (to_Period opts <=? 0) (EMsg "negative or zero period");
  _ ← fail_if (to_Height opts <=? 0) (EMsg "negative or zero height");
  fail_if (negb (len (to_Hash opts) =? 32)) (EMsg "expected hash size").

Fixpoint first_messages (msgs : list WitnessMsg) (toRemove : list nat) : LM (list nat) :=
  match msgs with
  | [] => mret toRemove
  | WMatch :: rest => first_messages rest toRemove
  | WConflict _ i :: _ => err (EConflictingHeaders i)
  | WBad _ i :: rest => first_messages rest (toRemove ++ [i])
  | WErr e :: rest => if ctx_error e then err (EProvider e) else first_messages rest toRemove
  end.
Definition compareFirstHeaderWithWitnesses (h : SignedHeader) : LM unit :=
  c ← client;
  if (length (cl_witnesses c) <? 1)%nat then err ENoWitnesses
  else
    n ← tick;
    queues ← compare_all h 0 (cl_witnesses c);
    toRemove ← first_messages (take (length (cl_witnesses c)) (interleave (net_Arrivals net n) queues)) [];
    removeWitnesses toRemove.

Definition initializeWithTrustOptions (options : TrustOptions) : LM unit :=
  l ← lightBlockFromPrimary (to_Height options);
  hash ← call (lift (lb_hash l));
  if negb (bytes_equal hash (to_Hash options)) then err (EMsg "expected header's hash")
  else
    commit ← call (lb_commit l);
    h ← call (height_of l);
    c ← client;
    _ ← call (wrap_err ECommit (VerifyCommitLight (cl_chainID c) (lb_ValidatorSet l) (c_BlockID commit) h (Some commit)));
    sh ← call (signed_header l);
    _ ← compareFirstHeaderWithWitnesses sh;
    updateTrustedLightBlock l.

Definition restoreTrustedLightBlock : LM unit :=
  c ← client;
  let lastHeight := LastLightBlockHeight (cl_store c) in
  if lastHeight <=? 0 then err (EMsg "trusted store is empty")
  else
    b ← call (wrap_err EStore (LightBlock_at (cl_store c) lastHeight));
    update_client (fun c => with_latest c (Some b)).

(** The options are those of the client [c], which has no block yet. *)
Definition NewClientFromTrustedStore : LM unit :=
  c ← client;
  if (length (cl_witnesses c) <? 1)%nat then err ENoWitnesses
  else
    _ ← call (wrap_err ELight (ValidateTrustLevel (cl_trustLevel c)));
    restoreTrustedLightBlock.

Definition NewClient (trustOptions : TrustOptions) : LM unit :=
  c ← client;
  if LastLightBlockHeight (cl_store c) >? 0 then NewClientFromTrustedStore
  else
    _ ← call (TrustOptions_ValidateBasic trustOptions);
    if (length (cl_witnesses c) <? 1)%nat then err ENoWitnesses
    else
      _ ← call (wrap_err ELight (ValidateTrustLevel (cl_trustLevel c)));
      initializeWithTrustOptions trustOptions.
End client.
