(* ===== verification/LightClientProofs.v ===== *)
(** * What the light client trusts, and that its searches end *)
From Stdlib Require Import ZArith Lia Strings.Byte.
From stdpp Require Import base list strings gmap.
From S2P Require Import Prelude.
From S2P Require Import Merkle.
From S2P Require Import MerkleProofs.
From S2P Require Import SafeMath.
From S2P Require Import Validator.
From S2P Require Import ProposerProofs.
From S2P Require Import ValidatorUpdateProofs.
From S2P Require Import ValidatorSetProofs.
From S2P Require Import Types.
From S2P Require Import SignBytesProofs.
From S2P Require Import Validation.
From S2P Require Import ValidationProofs.
From S2P Require Import Header.
From S2P Require Import BlockProofs.
From S2P Require Import LightVerifier.
From S2P Require Import LightVerifierProofs.
From S2P Require Import Evidence.
From S2P Require Import LightStore.
From S2P Require Import LightClient.

(** ** Runs of the monad *)

Lemma lm_bind {A B} (m : LM A) (k : A -> LM B) c c' b :
  (m ≫= k) c = Some (c', Val b) <-> exists c1 a, m c = Some (c1, Val a) /\ k a c1 = Some (c', Val b).
Proof.
  unfold mbind, LM_bind. split.
  - destruct (m c) as [[c1 [a| |]]|]; naive_solver.
  - intros (c1 & a & -> & Hk). done.
Qed.
Lemma lm_call {A} (m : outcome ClientError A) c c' a : call m c = Some (c', Val a) <-> c' = c /\ m = Val a.
Proof. unfold call. naive_solver. Qed.
Lemma lm_run {A B} (m : LM A) (k : A -> LM B) a c c1 : m c = Some (c1, Val a) -> (m ≫= k) c = k a c1.
Proof. unfold mbind, LM_bind. by intros ->. Qed.
Lemma lm_run_call {A B} (m : outcome ClientError A) a (k : A -> LM B) c : m = Val a -> (call m ≫= k) c = k a c.
Proof. by intros ->. Qed.
Lemma lm_attempt {A} (m : LM A) c c' r :
  attempt m c = Some (c', Val r) ->
  match r with inl a => m c = Some (c', Val a) | inr e => m c = Some (c', Fail e) end.
Proof. unfold attempt. destruct (m c) as [[c1 [a|e|w]]|]; intros Heq; by simplify_eq. Qed.

(** Decompose a run that returned a value. *)
Ltac lm_inv :=
  repeat match goal with
  | H : (_ ≫= _) ?c = Some (_, Val _) |- _ => apply lm_bind in H as (? & ? & ? & ?)
  | H : call _ ?c = Some (_, Val _) |- _ => apply lm_call in H as [? ?]; subst
  | H : client ?c = Some (_, Val _) |- _ => unfold client in H; (injection H as ? ? || injection H as ?); subst
  | H : update_client _ ?c = Some (_, Val _) |- _ => unfold update_client in H; (injection H as ? ? || injection H as ?); subst
  | H : mret _ ?c = Some (_, Val _) |- _ => unfold mret, LM_ret in H; (injection H as ? ? || injection H as ?); subst
  | H : tick ?c = Some (_, Val _) |- _ => unfold tick in H; (injection H as ? ? || injection H as ?); subst
  | H : err _ ?c = Some (_, Val _) |- _ => discriminate H
  | H : out_of_fuel ?c = Some _ |- _ => discriminate H
  | H : attempt _ ?c = Some (_, Val _) |- _ => apply lm_attempt in H
  end.

(** *** What a run leaves alone *)

(** Searching, verifying and reporting change the providers and the log only. *)
Definition same_trust (c c' : Client) : Prop :=
  cl_chainID c' = cl_chainID c /\ cl_trustingPeriod c' = cl_trustingPeriod c /\ cl_mode c' = cl_mode c /\
  cl_trustLevel c' = cl_trustLevel c /\ cl_maxClockDrift c' = cl_maxClockDrift c /\ cl_store c' = cl_store c /\
  cl_latest c' = cl_latest c /\ cl_pruningSize c' = cl_pruningSize c.
#[export] Instance same_trust_equiv : Equivalence same_trust.
Proof. unfold same_trust. split; [by intros c|intros a b|intros a b c]; intuition congruence. Qed.

Definition keeps {A} (m : LM A) : Prop := forall c c' r, m c = Some (c', r) -> same_trust c c'.

Lemma keeps_ret {A} (a : A) : keeps (mret a).
Proof. intros c c' r [= <- _]. done. Qed.
Lemma keeps_call {A} (m : outcome ClientError A) : keeps (call m).
Proof. intros c c' r [= <- _]. done. Qed.
Lemma keeps_err {A} e : keeps (err (A := A) e).
Proof. apply keeps_call. Qed.
Lemma keeps_client : keeps client.
Proof. intros c c' r [= <- _]. done. Qed.
Lemma keeps_tick : keeps tick.
Proof. intros c c' r [= <- _]. done. Qed.
Lemma keeps_fuel {A} : keeps (out_of_fuel (A := A)).
Proof. by intros c c' r. Qed.
Lemma keeps_providers f g : keeps (update_client (fun c => with_providers c (f c) (g c))).
Proof. intros c c' r [= <- _]. done. Qed.
Lemma keeps_sent p ev : keeps (update_client (fun c => with_sent c (p c) ev)).
Proof. intros c c' r [= <- _]. done. Qed.
Lemma keeps_run {A B} (m : LM A) (k : A -> LM B) : keeps m -> (forall a, keeps (k a)) -> keeps (m ≫= k).
Proof.
  intros Hm Hk c c' r. unfold mbind, LM_bind. destruct (m c) as [[c1 [a|e|w]]|] eqn:Hc; [| | |done].
  - intros Hr. etrans; [by eapply Hm|by eapply Hk].
  - intros [= <- _]. by eapply Hm.
  - intros [= <- _]. by eapply Hm.
Qed.
Lemma keeps_attempt {A} (m : LM A) : keeps m -> keeps (attempt m).
Proof.
  intros Hm c c' r. unfold attempt. destruct (m c) as [[c1 [a|e|w]]|] eqn:Hc; [| | |done]; intros [= <- _]; by eapply Hm.
Qed.

Create HintDb keeps discriminated.
#[export] Hint Resolve keeps_ret keeps_call keeps_err keeps_client keeps_tick keeps_fuel keeps_providers keeps_sent keeps_attempt : keeps.

(** Split a program into its steps and the cases it distinguishes. *)
Ltac keeps_step :=
  match goal with
  | |- forall _, _ => intro
  | |- keeps (_ ≫= _) => apply keeps_run
  | |- keeps (attempt _) => apply keeps_attempt
  | |- keeps (if ?b then _ else _) => destruct b
  | |- keeps (match ?x with _ => _ end) => destruct x
  | |- keeps (let _ := _ in _) => cbv zeta
  end.
Ltac keeps_tac := repeat (keeps_step || (solve [eauto with keeps nocore])).

Section client.
Context `{!Crypto, !BatchCrypto, !Sha256, !TimeCodec, !WrapperCodec}.
Context (net : Network).

Lemma keeps_getLightBlock p h : keeps (getLightBlock net p h).
Proof. unfold getLightBlock. keeps_tac. Qed.
Lemma keeps_removeWitnesses is_ : keeps (removeWitnesses is_).
Proof. unfold removeWitnesses. keeps_tac. Qed.
#[local] Hint Resolve keeps_getLightBlock keeps_removeWitnesses : keeps.
Lemma keeps_ask_all i ws h : keeps (ask_all net i ws h).
Proof. revert i. induction ws; intros i; cbn [ask_all]; keeps_tac. Qed.
Lemma keeps_first_answer rm rs tr e : keeps (first_answer rm rs tr e).
Proof.
  revert tr e. induction rs as [|[i [lb|e']] rs IH]; intros tr e; cbn [first_answer]; keeps_tac.
Qed.
#[local] Hint Resolve keeps_ask_all keeps_first_answer : keeps.
Lemma keeps_findNewPrimary h rm : keeps (findNewPrimary net h rm).
Proof. unfold findNewPrimary. keeps_tac. Qed.
#[local] Hint Resolve keeps_findNewPrimary : keeps.
Lemma keeps_lightBlockFromPrimary h : keeps (lightBlockFromPrimary net h).
Proof. unfold lightBlockFromPrimary. keeps_tac. Qed.
#[local] Hint Resolve keeps_lightBlockFromPrimary : keeps.
Lemma keeps_skip_loop fuel s n now cache d v tr : keeps (skip_loop net fuel s n now cache d v tr).
Proof. revert cache d v tr. induction fuel as [|fuel IH]; intros; cbn [skip_loop]; keeps_tac. Qed.
Lemma keeps_verifySkipping fuel s t n now : keeps (verifySkipping net fuel s t n now).
Proof. apply keeps_skip_loop. Qed.
#[local] Hint Resolve keeps_verifySkipping : keeps.
Lemma keeps_compareNewHeaderWithWitness h w i : keeps (compareNewHeaderWithWitness net h w i).
Proof. unfold compareNewHeaderWithWitness, compare_hashes, getTargetBlockOrLatest. keeps_tac. Qed.
#[local] Hint Resolve keeps_compareNewHeaderWithWitness : keeps.
Lemma keeps_compare_all h i ws : keeps (compare_all net h i ws).
Proof. revert i. induction ws; intros i; cbn [compare_all]; keeps_tac. Qed.
Lemma keeps_examine_loop fuel i tr t s now p st : keeps (examine_loop net fuel i tr t s now p st).
Proof. revert i p st. induction tr as [|b tr IH]; intros; cbn [examine_loop]; keeps_tac. Qed.
#[local] Hint Resolve keeps_compare_all keeps_examine_loop : keeps.
Lemma keeps_handleConflictingHeaders fuel tr b i now : keeps (handleConflictingHeaders net fuel tr b i now).
Proof.
  unfold handleConflictingHeaders, examineConflictingHeaderAgainstTrace. keeps_tac.
Qed.
#[local] Hint Resolve keeps_handleConflictingHeaders : keeps.
Lemma keeps_process_messages fuel tr now ms m rm : keeps (process_messages net fuel tr now ms m rm).
Proof. revert m rm. induction ms as [|[] ms IH]; intros; cbn [process_messages]; keeps_tac. Qed.
#[local] Hint Resolve keeps_process_messages : keeps.
Lemma keeps_detectDivergence fuel tr now : keeps (detectDivergence net fuel tr now).
Proof. unfold detectDivergence. keeps_tac. Qed.
#[local] Hint Resolve keeps_detectDivergence : keeps.
Lemma keeps_sequential_loop fuel n now h v tr : keeps (sequential_loop net fuel n now h v tr).
Proof. revert h v tr. induction fuel as [|fuel IH]; intros; cbn [sequential_loop]; unfold same_hash; keeps_tac. Qed.
#[local] Hint Resolve keeps_sequential_loop : keeps.
Lemma keeps_backwards fuel v n : keeps (backwards net fuel v n).
Proof. revert v n. induction fuel as [|fuel IH]; intros; cbn [backwards]; keeps_tac. Qed.
Lemma keeps_skippingAgainstPrimary fuel t n now : keeps (verifySkippingAgainstPrimary net fuel t n now).
Proof. revert n. induction fuel as [|fuel IH]; intros; cbn [verifySkippingAgainstPrimary]; unfold same_hash; keeps_tac. Qed.
Lemma keeps_verifySequential fuel t n now : keeps (verifySequential net fuel t n now).
Proof. unfold verifySequential. keeps_tac. Qed.

(** ** Traces *)

(** Each block of the trace verifies against the one before it. *)
Definition linked_trace (c : Client) (now : Time) (l : list LightBlock) : Prop :=
  forall i a b, l !! i = Some a -> l !! S i = Some b -> verify_block c a b now = Val tt.

Lemma verify_block_same c c' a b now : same_trust c c' -> verify_block c' a b now = verify_block c a b now.
Proof. intros (_ & Hp & _ & Hl & Hd & _). unfold verify_block. by rewrite Hp, Hl, Hd. Qed.
Lemma linked_trace_same c c' now l : same_trust c c' -> linked_trace c now l -> linked_trace c' now l.
Proof. intros Hs Hl i a b Ha Hb. rewrite (verify_block_same c c') by done. by eapply Hl. Qed.

Lemma linked_trace_one c now b : linked_trace c now [b].
Proof. intros [|i] x y; simpl; [done|]. by rewrite lookup_nil. Qed.
Lemma linked_trace_snoc c now l v b :
  linked_trace c now l -> last l = Some v -> verify_block c v b now = Val tt -> linked_trace c now (l ++ [b]).
Proof.
  intros Hl Hv Hb i x y Hx Hy. apply lookup_app_Some in Hy as [Hy|[Hi Hy]].
  - apply (Hl i); [|done]. rewrite lookup_app_l in Hx; [done|]. apply lookup_lt_Some in Hy. lia.
  - apply list_lookup_singleton_Some in Hy as [Hz ->]. assert (length l = S i) by lia.
    rewrite lookup_app_l in Hx by lia. rewrite last_lookup in Hv. replace (Nat.pred (length l)) with i in Hv by lia. congruence.
Qed.

Lemma slice_get_nat {E A} (l : list A) (i : nat) a : slice_get (E := E) l (Z.of_nat i) = Val a <-> l !! i = Some a.
Proof.
  unfold slice_get, zlookup. destruct (Z.leb_spec 0 (Z.of_nat i)); [|lia]. rewrite Nat2Z.id. destruct (l !! i); naive_solver.
Qed.

Lemma skip_loop_trace fuel s new now cache d v tr c c' res :
  skip_loop net fuel s new now cache d v tr c = Some (c', Val res) ->
  cache !! 0%nat = Some new -> last tr = Some v -> linked_trace c now tr ->
  head res = head tr /\ last res = Some new /\ linked_trace c now res.
Proof.
  revert cache d v tr c. induction fuel as [|fuel IH]; intros cache d v tr c Hr Hc0 Hv Hl; [done|].
  cbn [skip_loop] in Hr. apply lm_bind in Hr as (? & ? & [= <- <-] & Hr).
  apply lm_bind in Hr as (? & b & [-> Hb]%lm_call & Hr). apply lm_bind in Hr as (? & vh & [-> Hvh]%lm_call & Hr).
  apply lm_bind in Hr as (? & bh & [-> Hbh]%lm_call & Hr). apply slice_get_nat in Hb.
  assert (Hhd : forall x, head (tr ++ [x]) = head tr) by (destruct tr; done).
  destruct (verify_block c v b now) as [[]|e|w] eqn:Hver; [| |by lm_inv].
  - destruct (Nat.eqb_spec d 0) as [->|Hd].
    + lm_inv. assert (b = new) as -> by congruence. rewrite Hhd, last_snoc. split_and!; [done..|]. by eapply linked_trace_snoc.
    + apply IH in Hr as (Hh & Hla & Hli); [by rewrite Hh, Hhd| |by rewrite last_snoc|by eapply linked_trace_snoc].
      rewrite lookup_take_lt by lia. done.
  - destruct e; try by lm_inv. destruct (Nat.eqb d (length cache - 1)).
    + apply lm_bind in Hr as (c1 & [ib|] & Hk%keeps_getLightBlock & Hr); [|by lm_inv].
      apply IH in Hr as (Hh & Hla & Hli); [|by apply lookup_app_l_Some|done|by eapply linked_trace_same].
      split_and!; try done. by eapply linked_trace_same.
    + by apply IH in Hr.
Qed.

Lemma lb_header_val {E} lb h : lb_header (E := E) lb = Val h <-> exists sh, lb_SignedHeader lb = Some sh /\ sh_Header sh = Some h.
Proof.
  unfold lb_header, sh_header. destruct (lb_SignedHeader lb) as [sh|]; simpl; [|naive_solver]. destruct (sh_Header sh) as [|] eqn:?; naive_solver.
Qed.
Lemma height_of_val {E} lb z : height_of (E := E) lb = Val z <-> exists h, lb_header (E := E) lb = Val h /\ h_Height h = z.
Proof.
  unfold height_of. split; [intros (h & ? & [= <-])%bind_val; eauto|]. intros (h & -> & <-). done.
Qed.
Lemma signed_header_val {E} lb sh : signed_header (E := E) lb = Val sh <-> lb_SignedHeader lb = Some sh.
Proof. unfold signed_header. destruct (lb_SignedHeader lb); naive_solver. Qed.

(** The verification of the next height is what [Verify] does there. *)
Lemma adjacent_verify_block c v b now vsh bsh :
  lb_SignedHeader v = Some vsh -> lb_SignedHeader b = Some bsh ->
  VerifyAdjacent vsh bsh (lb_ValidatorSet b) (cl_trustingPeriod c) now (cl_maxClockDrift c) = Val tt -> verify_block c v b now = Val tt.
Proof.
  intros Hv Hb Ha. unfold verify_block, signed_header. rewrite Hv, Hb. go_step. unfold LightVerify, deref.
  pose proof Ha as (t & u & _ & _ & Ht & Hu & _ & _ & _ & Hh & _)%VerifyAdjacent_val. rewrite Hu, Ht. go_step.
  rewrite Hh, Z.eqb_refl. done.
Qed.

Lemma sequential_step_run fuel new now h v tr c c' res (nh : Z) :
  sequential_loop net (S fuel) new now h v tr c = Some (c', Val res) -> height_of (E := ClientError) new = Val nh ->
  (res = tr /\ nh < h) \/
  (h <= nh /\ exists c1 b, same_trust c c1 /\ (h = nh -> b = new) /\ verify_block c v b now = Val tt /\
     sequential_loop net fuel new now (int64 (h + 1)) b (tr ++ [b]) c1 = Some (c', Val res)) \/
  (h <= nh /\ exists c1, same_trust c c1 /\ sequential_loop net fuel new now h v tr c1 = Some (c', Val res)).
Proof.
  intros Hr Hnh. cbn [sequential_loop] in Hr. rewrite Hnh in Hr.
  apply lm_bind in Hr as (? & ? & [-> [= <-]]%lm_call & Hr). destruct (Z.leb_spec h nh) as [Hle|Hgt]; cbn [negb] in Hr; [|lm_inv; auto].
  right. apply lm_bind in Hr as (? & vh & [-> Hvh]%lm_call & Hr). apply lm_bind in Hr as (c1 & b & Hb & Hr).
  assert (same_trust c c1 /\ (h = nh -> b = new)) as [Hs1 Hnew].
  { destruct (Z.eqb_spec h nh) as [->|Hne]; [lm_inv; done|]. split; [|done].
    apply lm_bind in Hb as (c2 & r & Hb%(keeps_attempt _ (keeps_lightBlockFromPrimary _)) & Hr2). destruct r; lm_inv. done. }
  apply lm_bind in Hr as (? & ih & [-> Hih]%lm_call & Hr). apply lm_bind in Hr as (? & ? & [= <- <-] & Hr).
  apply lm_bind in Hr as (? & vsh & [-> Hvsh%signed_header_val]%lm_call & Hr).
  apply lm_bind in Hr as (? & ish & [-> Hish%signed_header_val]%lm_call & Hr).
  destruct (VerifyAdjacent _ _ _ _ _ _) as [[]|e|w] eqn:Hv; [left|right|by lm_inv].
  - split; [done|]. exists c1, b. split_and!; [done..| |done]. rewrite <- (verify_block_same c c1) by done.
    by eapply adjacent_verify_block.
  - split; [done|]. destruct (is_invalid_header e); [|by lm_inv]. destruct (ih =? nh); [by lm_inv|].
    apply lm_bind in Hr as (c2 & r & Hb2%(keeps_attempt _ (keeps_findNewPrimary _ _)) & Hr). destruct r as [rep|]; [|by lm_inv].
    apply lm_bind in Hr as (c3 & same & Hsame & Hr). unfold same_hash in Hsame. lm_inv. destruct (negb _); [by lm_inv|].
    eexists. split; [|exact Hr]. by etrans.
Qed.

Lemma sequential_loop_trace fuel new now h v tr c c' res nh tr0 :
  sequential_loop net fuel new now h v tr c = Some (c', Val res) -> height_of (E := ClientError) new = Val nh ->
  is_int64 h -> last tr = Some v -> linked_trace c now tr -> head tr = head tr0 ->
  (h <= nh \/ last tr = Some new \/ tr = tr0) ->
  head res = head tr0 /\ linked_trace c now res /\ (last res = Some new \/ res = tr0).
Proof.
  revert h v tr c. induction fuel as [|fuel IH]; intros h v tr c Hr Hnh Hh Hv Hl Hhd Hend; [done|].
  destruct (sequential_step_run fuel new now h v tr c c' res nh) as [[-> Hgt]|[[Hle Hs]|[Hle Hs]]]; [done..| | |].
  - split_and!; [done..|]. destruct Hend as [|]; [lia|done].
  - destruct Hs as (c1 & b & Hsame & Hnew & Hver & Hr1).
    assert (Hl1 : linked_trace c now (tr ++ [b])) by (by eapply linked_trace_snoc).
    apply IH in Hr1 as (Hh1 & Hl2 & Hend2).
    + split_and!; try done. by eapply linked_trace_same.
    + done.
    + apply int64_range.
    + by rewrite last_snoc.
    + by eapply linked_trace_same.
    + destruct tr; done.
    + destruct (Z.eq_dec h nh) as [->|Hne]; [right; left; by rewrite last_snoc, Hnew|]. left.
      destruct (decide (is_int64 (h + 1))); [rewrite int64_id by done; lia|]. pose proof (int64_range (h + 1)). int_lia.
  - destruct Hs as (c1 & Hsame & Hr1). apply IH in Hr1 as (Hh1 & Hl2 & Hend2); try done; [|by eapply linked_trace_same].
    split_and!; try done. by eapply linked_trace_same.
Qed.

(** [root] reaches a block with the hash of [new] by verified steps. *)
Definition verified_from (c : Client) (now : Time) (root new : LightBlock) : Prop :=
  exists tr b h, head tr = Some root /\ last tr = Some b /\ linked_trace c now tr /\ (2 <= length tr)%nat /\
    lb_hash b = Val h /\ lb_hash new = Val h.

Lemma verified_from_same c c' now root new : same_trust c c' -> verified_from c now root new -> verified_from c' now root new.
Proof. intros Hs (tr & b & h & ? & ? & ? & ?). exists tr, b, h. split_and!; try done; [by eapply linked_trace_same|naive_solver..]. Qed.

Lemma detectDivergence_length fuel tr now c c' : detectDivergence net fuel tr now c = Some (c', Val tt) -> (2 <= length tr)%nat.
Proof. unfold detectDivergence, len. destruct (Z.ltb_spec (Z.of_nat (length tr)) 2); [|lia]. intros. by lm_inv. Qed.

Lemma verifySequential_trace fuel root new now c c' nh x :
  height_of (E := ClientError) new = Val nh -> lb_hash new = Val x ->
  verifySequential net fuel root new now c = Some (c', Val tt) -> verified_from c now root new.
Proof.
  intros Hnh Hx Hr. unfold verifySequential in Hr. apply lm_bind in Hr as (? & th & [-> _]%lm_call & Hr).
  apply lm_bind in Hr as (c1 & tr & Htr & Hd%detectDivergence_length).
  apply (sequential_loop_trace _ _ _ _ _ _ _ _ _ nh [root]) in Htr as (Hhd & Hl & Hend); try done;
    [|apply int64_range|by right; right].
  destruct Hend as [Hend| ->]; [|simpl in Hd; lia]. by exists tr, new, x.
Qed.

Lemma same_hash_val a b c c' r : same_hash a b c = Some (c', Val r) -> c' = c /\ exists x y, lb_hash a = Val x /\ lb_hash b = Val y /\ r = bytes_equal x y.
Proof. unfold same_hash. intros. lm_inv. repeat match goal with H : lift _ = Val _ |- _ => apply lift_val in H end. eauto 10. Qed.

Lemma skippingAgainstPrimary_trace fuel root new now c c' x :
  lb_hash new = Val x -> verifySkippingAgainstPrimary net fuel root new now c = Some (c', Val tt) -> verified_from c now root new.
Proof.
  revert new c. induction fuel as [|fuel IH]; intros new c Hx Hr; [done|]. cbn [verifySkippingAgainstPrimary] in Hr.
  apply lm_bind in Hr as (? & ? & [= <- <-] & Hr). apply lm_bind in Hr as (c1 & r & Hr1 & Hr).
  pose proof (keeps_attempt _ (keeps_verifySkipping _ _ _ _ _) _ _ _ Hr1) as Hk1. apply lm_attempt in Hr1. destruct r as [tr|e].
  - apply detectDivergence_length in Hr. unfold verifySkipping in Hr1.
    apply skip_loop_trace in Hr1 as (Hhd & Hla & Hl); [|done|done|apply linked_trace_one]. by exists tr, new, x.
  - destruct e as [| | |from to reason| | | | | | |]; try by lm_inv. apply lm_bind in Hr as (? & nh & [-> Hnh]%lm_call & Hr).
    match type of Hr with match ?n with _ => _ end _ = _ => destruct n as [?|rm] eqn:Hnext end; [by lm_inv|].
    apply lm_bind in Hr as (c2 & r & Hr2 & Hr). pose proof (keeps_attempt _ (keeps_findNewPrimary _ _) _ _ _ Hr2) as Hk2.
    destruct r as [rep|]; [|by lm_inv]. apply lm_bind in Hr as (? & same & (-> & y & z & Hy & Hz & ->)%same_hash_val & Hr).
    destruct (bytes_equal_spec y z) as [->|]; [|by lm_inv]. cbn [negb] in Hr.
    assert (z = x) as -> by congruence.
    apply (IH _ _ Hy) in Hr as (tr & b & h & ?). apply (verified_from_same c2); [symmetry; by etrans|]. exists tr, b, h.
    intuition congruence.
Qed.

Lemma updateTrusted_run l c c' :
  updateTrustedLightBlock l c = Some (c', Val tt) ->
  exists s h, SaveLightBlock (cl_store c) l = Val s /\ lb_header (E := ClientError) l = Val h /\
    cl_store c' = (if cl_pruningSize c >? 0 then Prune s (cl_pruningSize c) else s) /\
    match cl_latest c with
    | None => cl_latest c' = Some l
    | Some b => exists bh, lb_header (E := ClientError) b = Val bh /\ cl_latest c' = (if h_Height h >? h_Height bh then Some l else Some b)
    end.
Proof.
  unfold updateTrustedLightBlock. intros Hr. apply lm_bind in Hr as (? & ? & [= <- <-] & Hr).
  apply lm_bind in Hr as (? & s & [-> Hs%wrap_err_val]%lm_call & Hr). apply lm_bind in Hr as (? & ? & [= <- <-] & Hr).
  apply lm_bind in Hr as (c2 & [] & Hp & Hr). apply lm_bind in Hr as (? & hz & [-> (h & Hh & <-)%height_of_val]%lm_call & Hr).
  exists s, h. split_and!; [done..| |].
  all: assert (cl_store c2 = (if cl_pruningSize c >? 0 then Prune s (cl_pruningSize c) else s) /\ cl_latest c2 = cl_latest c) as [Hst Hla]
    by (destruct (cl_pruningSize c >? 0); lm_inv; done).
  all: destruct (cl_latest c) as [b|]; [|by lm_inv].
  all: apply lm_bind in Hr as (? & bz & [-> (bh & Hbh & <-)%height_of_val]%lm_call & Hr).
  all: try exists bh; destruct (h_Height h >? h_Height bh); lm_inv; done.
Qed.

(** A block that is saved has a hash. *)
Lemma saved_hash s l s' : SaveLightBlock s l = Val s' -> exists x, lb_hash l = Val x.
Proof.
  unfold SaveLightBlock. intros (h & (sh & Hsh & Hh)%lb_header_val & _)%bind_val. unfold lb_hash, sh_hash, Header_Hash. rewrite Hsh, Hh.
  destruct (_ =? 0); [eauto|]. destruct (StdTimeMarshal _); [|eauto]. by apply HashFromByteSlices_total.
Qed.

(** C8: what the light client adds to its store.  When the verification of a
    block succeeds, either the block is older than all blocks in the store, or the
    latest trusted block, or the newest stored block below it, reaches a block with
    the same header by a chain of blocks each of which the verifier accepts from the
    one before with the client's trust level, trusting period and clock drift.  The
    block is then saved, the store pruned to its size, and the latest block moves
    only forward. *)
Theorem light_client_trusts fuel new now c c' :
  verifyLightBlock net fuel new now c = Some (c', Val tt) ->
  exists nh latest lh, lb_header (E := ClientError) new = Val nh /\ cl_latest c = Some latest /\
    lb_header (E := ClientError) latest = Val lh /\
    (h_Height nh < FirstLightBlockHeight (cl_store c) \/
     (h_Height lh <= h_Height nh /\ verified_from c now latest new) \/
     exists root, LightBlockBefore (cl_store c) (h_Height nh) = Val root /\ verified_from c now root new) /\
    exists s, SaveLightBlock (cl_store c) new = Val s /\
      cl_store c' = (if cl_pruningSize c >? 0 then Prune s (cl_pruningSize c) else s) /\
      cl_latest c' = (if h_Height nh >? h_Height lh then Some new else Some latest).
Proof.
  intros Hr. unfold verifyLightBlock in Hr. apply lm_bind in Hr as (? & ? & [= <- <-] & Hr).
  apply lm_bind in Hr as (c0 & verifyFunc & Hmode & Hr).
  assert (c0 = c /\ forall root c1, verifyFunc root new now c = Some (c1, Val tt) -> same_trust c c1 /\
    forall x nh, lb_hash new = Val x -> height_of (E := ClientError) new = Val nh -> verified_from c now root new) as [-> Hf].
  { destruct (cl_mode c); lm_inv; split; try done; intros root c1 Hv; split;
      [by eapply keeps_verifySequential|intros; by eapply verifySequential_trace|
       by eapply keeps_skippingAgainstPrimary|intros; by eapply skippingAgainstPrimary_trace]. }
  apply lm_bind in Hr as (? & nh & [-> Hnh]%lm_call & Hr). apply lm_bind in Hr as (? & latest & [-> Hla]%lm_call & Hr).
  destruct (cl_latest c) as [l|] eqn:Hl; [|done]. injection Hla as ->.
  apply lm_bind in Hr as (? & lhh & [-> (lh & Hlh & <-)%height_of_val]%lm_call & Hr). apply lm_bind in Hr as (c1 & [] & Hv & Hup).
  apply updateTrusted_run in Hup as (s & nh' & Hs & Hnh' & Hst & Hlat).
  assert (nh' = nh) as -> by congruence.
  assert (Hcase : same_trust c c1 /\ (h_Height nh < FirstLightBlockHeight (cl_store c) \/
     (h_Height lh <= h_Height nh /\ verified_from c now latest new) \/
     exists root, LightBlockBefore (cl_store c) (h_Height nh) = Val root /\ verified_from c now root new)).
  { pose proof (proj2 (height_of_val (E := ClientError) new _) (ex_intro _ nh (conj Hnh eq_refl))) as Hhof.
    destruct (saved_hash _ _ _ Hs) as [x Hx]. rewrite Z.geb_leb in Hv. destruct (Z.leb_spec (h_Height lh) (h_Height nh)) as [Hle|Hlt].
    - apply Hf in Hv as [Hk Hv]. eauto 10.
    - destruct (Z.ltb_spec (h_Height nh) (FirstLightBlockHeight (cl_store c))) as [Hfst|Hge].
      + split; [|by left]. do 2 (apply lm_bind in Hv as (? & ? & [-> _]%lm_call & Hv)). by eapply keeps_backwards.
      + apply lm_bind in Hv as (? & root & [-> Hroot%wrap_err_val]%lm_call & Hv). apply Hf in Hv as [Hk Hv]. eauto 10. }
  destruct Hcase as [(_ & _ & _ & _ & _ & Hks & Hkl & Hkp) Hcase]. rewrite Hks in Hs. rewrite Hkp in Hst. rewrite Hkl, Hl in Hlat.
  destruct Hlat as (lh' & Hlh' & Hlat). assert (lh' = lh) as -> by congruence.
  exists nh, latest, lh. split_and!; [done..|]. exists s. done.
Qed.

(** ** The search ends *)

(** What the provider's documentation asks: a block returned for a positive height has that height. *)
Definition answers_height : Prop :=
  forall n p z lb, 0 < z -> net_LightBlock net n p z = inl lb -> exists h, lb_header (E := ClientError) lb = Val h /\ h_Height h = z.

(** The cases of a composed call that failed. *)
Lemma fail_if_fail {E} b (e e' : E) : fail_if b e = Fail e' -> b = true /\ e' = e.
Proof. destruct b; simpl; naive_solver. Qed.
Lemma panic_if_fail {E} b w (e : E) : panic_if b w <> Fail e.
Proof. by destruct b. Qed.
Lemma lift_fail {E A} (m : go A) (e : E) : lift m <> Fail e.
Proof. by destruct m as [|[]|]. Qed.
Lemma wrap_err_fail {E E' A} (f : E -> E') (m : outcome E A) e : wrap_err f m = Fail e -> exists e', m = Fail e' /\ e = f e'.
Proof. destruct m; simpl; naive_solver. Qed.
Ltac fail_cases :=
  repeat match goal with
  | H : (_ ≫= _) = Fail _ |- _ => apply bind_fail in H as [H|(? & ? & H)]
  | H : fail_if _ _ = Fail _ |- _ => apply fail_if_fail in H as [_ H]; try discriminate H
  | H : panic_if _ _ = Fail _ |- _ => by apply panic_if_fail in H
  | H : lift _ = Fail _ |- _ => by apply lift_fail in H
  | H : wrap_err _ _ = Fail _ |- _ => apply wrap_err_fail in H as (? & ? & H); try discriminate H
  | H : Val _ = Fail _ |- _ => discriminate H
  | H : Val _ = Val _ |- _ => injection H as H; subst
  | H : wrap_err _ _ = Val _ |- _ => apply wrap_err_val in H
  | H : ValidateTrustLevel _ = Fail _ |- _ => apply fail_if_fail in H as [_ H]; discriminate H
  end.

(** The verifier asks for more trust only for a later block that is not the next one. *)
Lemma verify_cannot_trust c v b now e hv hb :
  verify_block c v b now = Fail (ErrNewValSetCantBeTrusted e) ->
  lb_header (E := ClientError) v = Val hv -> lb_header (E := ClientError) b = Val hb ->
  h_Height hv < h_Height hb /\ h_Height hb <> int64 (h_Height hv + 1).
Proof.
  intros Hf (vsh & Hvsh & Hvh)%lb_header_val (bsh & Hbsh & Hbh)%lb_header_val.
  unfold verify_block, signed_header in Hf. rewrite Hvsh, Hbsh in Hf.
  cbn [mbind outcome_bind] in Hf. unfold LightVerify, deref in Hf. rewrite Hvh, Hbh in Hf.
  cbn [mbind outcome_bind] in Hf. destruct (Z.eqb_spec (h_Height hb) (int64 (h_Height hv + 1))) as [Heq|Hne]; cbn [negb] in Hf.
  - exfalso. unfold VerifyAdjacent, deref, verify_new_commit in Hf. rewrite Hvh, Hbh in Hf. fail_cases.
    destruct (sh_Commit bsh); [|done]. fail_cases.
  - split; [|done]. unfold VerifyNonAdjacent, deref in Hf. rewrite Hvh, Hbh in Hf. fail_cases.
    all: match goal with H : verifyNewHeaderAndVals _ _ _ _ _ = Val _ |- _ => revert H end.
    all: intros Hnew; unfold verifyNewHeaderAndVals, deref in Hnew; rewrite Hbh in Hnew; inv_val; z_bool; lia.
Qed.

(** The largest height for which the pivot is computed without overflow. *)
Definition max_search_height : Z := 2 ^ 59.

Lemma schedule_between lo hi : 0 < lo -> hi <= max_search_height -> lo + 1 < hi -> lo < schedule lo hi < hi.
Proof.
  unfold max_search_height. intros Hlo Hhi Hgap. unfold schedule, verifySkippingNumerator, verifySkippingDenominator.
  rewrite (int64_id (hi - lo)) by int_lia. rewrite (int64_id ((hi - lo) * 9)) by int_lia.
  rewrite Z.quot_div_nonneg by lia.
  assert (1 <= (hi - lo) * 9 / 16 < hi - lo) by (split; [apply Z.div_le_lower_bound; lia|apply Z.div_lt_upper_bound; lia]).
  rewrite int64_id by int_lia. lia.
Qed.

(** The cached blocks are at decreasing heights, all above [lo]. *)
Fixpoint descending (lo hi : Z) (l : list LightBlock) : Prop :=
  match l with
  | [] => True
  | b :: l => exists h, lb_header (E := ClientError) b = Val h /\ lo < h_Height h <= hi /\ descending lo (h_Height h - 1) l
  end.
Lemma descending_length lo hi l : descending lo hi l -> (l = [] \/ Z.of_nat (length l) <= hi - lo).
Proof.
  revert hi. induction l as [|b l IH]; intros hi; [by left|]. intros (h & _ & Hh & Hl). right. simpl.
  destruct (IH _ Hl) as [->|]; simpl; lia.
Qed.
Lemma descending_lookup lo hi l i b : descending lo hi l -> l !! i = Some b ->
  exists h, lb_header (E := ClientError) b = Val h /\ lo < h_Height h <= hi - Z.of_nat i /\ descending (h_Height h) hi (take i l).
Proof.
  revert hi i. induction l as [|x l IH]; intros hi i; [done|]. intros (h & Hx & Hh & Hl) Hi. destruct i as [|i].
  - injection Hi as ->. exists h. simpl. split_and!; [done|lia..|done].
  - destruct (IH _ _ Hl Hi) as (hb & Hb & Hr & Ht). exists hb. split; [done|]. split; [lia|]. exists h. split_and!; [done|lia..|done].
Qed.
Lemma descending_snoc lo hi l b h hb lastb : descending lo hi l -> last l = Some lastb ->
  lb_header (E := ClientError) lastb = Val h -> lb_header (E := ClientError) b = Val hb -> lo < h_Height hb < h_Height h ->
  descending lo hi (l ++ [b]).
Proof.
  revert hi. induction l as [|x l IH]; intros hi; [done|]. intros (hx & Hx & Hr & Hl) Hla Hh Hb Hlt.
  exists hx. split_and!; [done|lia..|]. fold (app l [b]). destruct l as [|y l].
  - injection Hla as ->. assert (hx = h) as -> by congruence. exists hb. simpl. split_and!; [done|lia..|done].
  - eapply IH; try done.
Qed.

Lemma getLightBlock_answer p z c : answers_height -> 0 < z ->
  exists c', (exists e, getLightBlock net p z c = Some (c', Val (inr e))) \/
    exists lb h, getLightBlock net p z c = Some (c', Val (inl lb)) /\ lb_header (E := ClientError) lb = Val h /\ h_Height h = z.
Proof.
  intros Ha Hz. unfold getLightBlock, mbind, LM_bind, tick, mret, LM_ret. eexists.
  destruct (net_CtxErr net (cl_calls c)); [eauto|]. destruct (net_LightBlock net (cl_calls c) p z) as [lb|e] eqn:Hn; [right|eauto].
  destruct (Ha _ _ _ _ Hz Hn) as (h & ? & ?). eauto.
Qed.

Lemma skip_loop_ends fuel s new now cache d v tr c hv N (G : Z) :
  answers_height -> lb_header (E := ClientError) v = Val hv -> 0 < h_Height hv -> N <= max_search_height -> N - h_Height hv <= G ->
  descending (h_Height hv) N cache -> (d < length cache)%nat ->
  (N - h_Height hv) * (G + 1) + (G - Z.of_nat d) < Z.of_nat fuel ->
  skip_loop net fuel s new now cache d v tr c <> None.
Proof.
  intros Ha. revert cache d v tr c hv. induction fuel as [|fuel IH]; intros cache d v tr c hv Hv Hpos HN HG Hdes Hd Hfuel.
  { destruct (descending_length _ _ _ Hdes) as [->|]; [simpl in Hd; lia|]. nia. }
  destruct (lookup_lt_is_Some_2 cache d Hd) as [b Hb].
  destruct (descending_lookup _ _ _ _ _ Hdes Hb) as (hb & Hhb & Hr & Htake).
  assert (Hvh : height_of (E := ClientError) v = Val (h_Height hv)) by (apply height_of_val; eauto).
  assert (Hbh : height_of (E := ClientError) b = Val (h_Height hb)) by (apply height_of_val; eauto).
  cbn [skip_loop]. rewrite (lm_run client _ _ c c) by done. rewrite (lm_run_call _ b) by (by apply slice_get_nat).
  rewrite (lm_run_call _ _ _ _ Hvh), (lm_run_call _ _ _ _ Hbh).
  assert (Hdeeper : forall cache' c', descending (h_Height hv) N cache' -> (S d < length cache')%nat ->
    skip_loop net fuel s new now cache' (S d) v tr c' <> None) by (intros; eapply IH; eauto; lia).
  destruct (verify_block c v b now) as [u|e|w] eqn:Hver; [| |done].
  - destruct (Nat.eqb_spec d 0) as [->|Hne]; [done|]. eapply IH; eauto; [lia|lia| |].
    + rewrite length_take. lia.
    + assert (Z.of_nat d <= G); [|nia]. apply lookup_lt_Some in Hb. destruct (descending_length _ _ _ Hdes) as [->|]; [simpl in Hd; lia|lia].
  - destruct e as [| | | | |e]; try done. destruct (Nat.eqb_spec d (length cache - 1)) as [->|Hne]; [|apply Hdeeper; [done|lia]].
    destruct (verify_cannot_trust _ _ _ _ _ _ _ Hver Hv Hhb) as [Hlt Hnext].
    destruct (schedule_between (h_Height hv) (h_Height hb)) as [Hlo Hhi]; [done|lia| |].
    { rewrite int64_id in Hnext by (unfold max_search_height in *; int_lia). lia. }
    destruct (getLightBlock_answer s (schedule (h_Height hv) (h_Height hb)) c) as (c' & [[pe Hg]|(lb & hl & Hg & Hlb & Hlh)]); [done|lia| |];
      rewrite (lm_run _ _ _ _ _ Hg); [done|]. apply Hdeeper.
    + eapply (descending_snoc _ _ _ _ _ _ b); eauto; [|lia]. rewrite last_lookup. replace (Nat.pred (length cache)) with (length cache - 1)%nat by lia. done.
    + rewrite length_app. simpl. lia.
Qed.

(** C28: skipping verification ends.  When the provider answers a request for a
    height with a block of that height, and the heights leave room for the product in
    the pivot, the search between two blocks ends, with a trace, an error or a panic, after
    at most [(gap + 1) * (gap + 1)] rounds of its loop: each round either moves the
    verified block up or goes to a deeper pivot strictly between the two. *)
Theorem skipping_terminates fuel s trusted new now c ht hn :
  answers_height ->
  lb_header (E := ClientError) trusted = Val ht -> lb_header (E := ClientError) new = Val hn ->
  0 < h_Height ht < h_Height hn -> h_Height hn <= max_search_height ->
  (h_Height hn - h_Height ht + 1) * (h_Height hn - h_Height ht + 1) <= Z.of_nat fuel ->
  exists c' r, verifySkipping net fuel s trusted new now c = Some (c', r).
Proof.
  intros Ha Ht Hn Hgap Hmax Hfuel. destruct (verifySkipping net fuel s trusted new now c) as [[c' r]|] eqn:Hr; [eauto|].
  exfalso. revert Hr. apply (skip_loop_ends _ _ _ _ _ _ _ _ _ ht (h_Height hn) (h_Height hn - h_Height ht)); try done; try (simpl; lia).
  exists hn. simpl. split_and!; [done|lia..|done].
Qed.
End client.

(** ** Concrete clients *)

#[local] Existing Instances digest_crypto digest_batch digest_laws toy_sha256 toy_time toy_wrappers.

Definition sample_light (height time : Z) (data : byte) : LightBlock :=
  mkLightBlock (Some (sample_signed_header height time data)) (Some sample_set).
Definition sample_root : LightBlock := sample_light 4 70 x01.
(** A client that trusts block 4, with primary 0 and the given witnesses. *)
Definition sample_client (m : mode) (witnesses : list Provider) : Client :=
  mkClient [x61] 100 m DefaultTrustLevel 10 0 witnesses
    (match SaveLightBlock (mkLightStore ∅ 0) sample_root with Val s => s | _ => mkLightStore ∅ 0 end) (Some sample_root) 10 [] 0.

(** A network on which all providers have the same chain. *)
Definition sample_chain (z : Z) : LightBlock := if z =? 4 then sample_root else sample_light z (70 + z) x02.
Definition honest_net : Network := mkNetwork (fun _ _ z => inl (sample_chain z)) (fun _ => false) (fun _ => []).
Definition sample_client_after : Client :=
  match verifyLightBlock honest_net 30 (sample_chain 9) 85 (sample_client skipping [1%nat]) with Some (c, _) => c | None => sample_client skipping [] end.

Lemma light_client_trusts_witness :
  verifyLightBlock honest_net 30 (sample_chain 9) 85 (sample_client skipping [1%nat]) = Some (sample_client_after, Val tt) /\
  cl_latest sample_client_after = Some (sample_chain 9).
Proof.
  assert (Hr : verifyLightBlock honest_net 30 (sample_chain 9) 85 (sample_client skipping [1%nat]) = Some (sample_client_after, Val tt))
    by (vm_compute; reflexivity).
  split; [exact Hr|].
  destruct (light_client_trusts honest_net 30 (sample_chain 9) 85 (sample_client skipping [1%nat]) sample_client_after Hr)
    as (nh & latest & lh & Hnh & Hla & Hlh & _ & s & _ & _ & Hres).
  rewrite Hres. injection Hla as <-. injection Hnh as <-. injection Hlh as <-. reflexivity.
Defined.

Lemma honest_answers : answers_height honest_net.
Proof.
  intros n p z lb Hz [= <-]. unfold sample_chain. destruct (Z.eqb_spec z 4) as [->|]; eexists; split; reflexivity.
Qed.
Lemma skipping_terminates_witness :
  exists c' r, verifySkipping honest_net 36 0%nat sample_root (sample_chain 9) 85 (sample_client skipping [1%nat]) = Some (c', r).
Proof.
  apply (skipping_terminates honest_net 36 0%nat sample_root (sample_chain 9) 85 (sample_client skipping [1%nat])
    (sample_header 4 70 x01) (sample_header 9 79 x02)).
  - exact honest_answers.
  - reflexivity.
  - reflexivity.
  - split; reflexivity.
  - vm_compute. discriminate.
  - vm_compute. discriminate.
Defined.

(** *** A second answer of the primary *)

(** The first trusted block, whose predecessor is block 4. *)
Definition linked_header : Header :=
  mkHeader (mkConsensus BlockProtocol 1) [x61] 5 77 (mkBlockID (header_hash_of (sample_header 4 70 x01)) (mkPartSetHeader 1 (replicate 32 x01)))
    [] [] sample_vals_hash sample_vals_hash [] [] [] [] (replicate 20 x03).
Definition linked_block : LightBlock :=
  let bid := mkBlockID (header_hash_of linked_header) (mkPartSetHeader 1 (replicate 32 x01)) in
  mkLightBlock (Some (mkSignedHeader (Some linked_header) (Some (mkCommit 5 1 bid [sign_for bid 5 0 x03; sign_for bid 5 1 x02; NewCommitSigAbsent]))))
    (Some sample_set).
Definition linked_client : Client :=
  mkClient [x61] 100 skipping DefaultTrustLevel 10 0 [1%nat]
    (match SaveLightBlock (mkLightStore ∅ 0) linked_block with Val s => s | _ => mkLightStore ∅ 0 end) (Some linked_block) 10 [] 0.
(** The primary answers the first request with another block than the later ones. *)
Definition two_faced_net : Network :=
  mkNetwork (fun n _ z => inl (if (n =? 0)%nat then sample_light z 70 x09 else sample_light z 70 x01)) (fun _ => false) (fun _ => []).
Definition linked_client_after : Client :=
  match VerifyLightBlockAtHeight two_faced_net 10 4 85 linked_client with Some (c, _) => c | None => linked_client end.

(** Backwards verification does not look at the block it is for.  A primary
    that answers the request for a height below the first trusted one with any block,
    and the requests of the verification with the real chain, has its block returned
    as verified and saved as trusted, although that block is not the predecessor of
    the trusted one: the loop ends at the target's height without a comparison with
    the target. *)
Lemma backwards_trusts_unverified :
  exists net fuel now c c' l h first,
    answers_height net /\ lb_header (E := ClientError) l = Val h /\ cl_latest c = Some first /\
    VerifyLightBlockAtHeight net fuel (h_Height h) now c = Some (c', Val l) /\
    ls_blocks (cl_store c') !! h_Height h <> None /\
    exists hf e, lb_header (E := ClientError) first = Val hf /\ h_Height hf = h_Height h + 1 /\ VerifyBackwards h hf = Fail e.
Proof.
  exists two_faced_net, 10%nat, 85, linked_client, linked_client_after, (sample_light 4 70 x09), (sample_header 4 70 x09), linked_block.
  split; [|split; [reflexivity|split; [reflexivity|split; [vm_compute; reflexivity|split; [vm_compute; discriminate|]]]]].
  - intros n p z lb Hz [= <-]. destruct (n =? 0)%nat; eexists; split; reflexivity.
  - exists linked_header, (ErrInvalidHeader InvLastBlock). split; [reflexivity|]. split; [reflexivity|]. vm_compute. reflexivity.
Qed.

(** *** A witness that hides another *)

(** Block 9 with other data and no valid signature. *)
Definition forged_block : LightBlock :=
  let sh := sample_signed_header 9 79 x05 in
  let bid := mkBlockID (header_hash_of (sample_header 9 79 x05)) (mkPartSetHeader 1 (replicate 32 x05)) in
  let forged := mkCommitSig BlockIDFlagCommit (replicate 20 x03) 77 [x00] in
  mkLightBlock (Some (mkSignedHeader (sh_Header sh) (Some (mkCommit 9 1 bid [forged; mkCommitSig BlockIDFlagCommit (replicate 20 x02) 77 [x00]; NewCommitSigAbsent]))))
    (Some sample_set).
(** The primary 0 and the honest witness 2 have signed blocks for height 9 that
    differ; witness 1 makes one up, and its messages arrive first. *)
Definition hiding_net : Network :=
  mkNetwork (fun _ p z =>
    inl (if z =? 9 then match p with 0%nat => sample_light 9 79 x02 | 1%nat => forged_block | _ => sample_light 9 79 x03 end else sample_chain z))
    (fun _ => false) (fun _ => [0; 0; 1]%nat).
Definition hiding_client_after : Client :=
  match verifyLightBlock hiding_net 30 (sample_light 9 79 x02) 85 (sample_client skipping [1; 2]%nat) with Some (c, _) => c | None => sample_client skipping [] end.

(** A bad witness can silence an honest one.  A witness whose conflicting header
    does not verify is reported as a conflict and then also as a match, and only as
    many messages are read as there are witnesses.  So the client accepts the primary's
    block and sends no evidence although another of its witnesses answers every request,
    with a block for the same height that has another header and that the client
    verifies from its latest trusted block. *)
Theorem conflicting_witness_hides_divergence :
  exists net fuel now c c' new latest w other h h',
    answers_height net /\ w ∈ cl_witnesses c /\ cl_latest c = Some latest /\
    (forall n, net_CtxErr net n = false) /\
    (forall n, net_LightBlock net n w (h_Height h) = inl other) /\
    lb_header (E := ClientError) new = Val h /\ lb_header (E := ClientError) other = Val h' /\ h_Height h' = h_Height h /\
    lb_hash new <> lb_hash other /\ verify_block c latest other now = Val tt /\
    verifyLightBlock net fuel new now c = Some (c', Val tt) /\ cl_latest c' = Some new /\ cl_sent c' = [].
Proof.
  exists hiding_net, 30%nat, 85, (sample_client skipping [1; 2]%nat), hiding_client_after, (sample_light 9 79 x02), sample_root, 2%nat,
    (sample_light 9 79 x03), (sample_header 9 79 x02), (sample_header 9 79 x03).
  split; [|split; [set_solver|do 6 (split; [reflexivity|])]].
  - intros n p z lb Hz [= <-]. unfold sample_chain.
    destruct (Z.eqb_spec z 9) as [->|]; [destruct p as [|[|]]; eexists; split; reflexivity|].
    destruct (Z.eqb_spec z 4) as [->|]; eexists; split; reflexivity.
  - split; [vm_compute; discriminate|]. repeat (split; [vm_compute; reflexivity|]). vm_compute. reflexivity.
Qed.
