(* ===== verification/StateOutcome.v ===== *)
(** * Methods that change their receiver and may fail

    A Go method with a pointer receiver that returns an error leaves the receiver as
    it was when the error occurred.  [ST S E A] is such a method on a receiver [S]:
    it returns the receiver it reached, and a value, an error or a panic. *)
From Stdlib Require Import ZArith Lia.
From stdpp Require Import base list strings.
From S2P Require Import Prelude.

Definition ST (S E A : Type) : Type := S -> S * outcome E A.
#[export] Instance ST_ret S E : MRet (ST S E) := fun _ a s => (s, Val a).
#[export] Instance ST_bind S E : MBind (ST S E) := fun _ _ k m s =>
  match m s with
  | (s', Val a) => k a s'
  | (s', Fail e) => (s', Fail e)
  | (s', Panic w) => (s', Panic w)
  end.

Section state.
Context {S E : Type}.

Definition self : ST S E S := fun s => (s, Val s).
Definition change (f : S -> S) : ST S E unit := fun s => (f s, Val tt).
Definition throw {A} (e : E) : ST S E A := fun s => (s, Fail e).
Definition crash {A} (why : string) : ST S E A := fun s => (s, Panic why).
Definition run_call {A} (m : outcome E A) : ST S E A := fun s => (s, m).
Definition st_when (b : bool) (m : ST S E unit) : ST S E unit := if b then m else mret tt.
Definition throw_if (b : bool) (e : E) : ST S E unit := if b then throw e else mret tt.

(** ** Invariants *)

(** [keeps P m]: from a receiver with [P] the method reaches one with [P], whatever it returns. *)
Definition st_keeps (P : S -> Prop) {A} (m : ST S E A) : Prop := forall s, P s -> P (m s).1.

Lemma st_keeps_ret P {A} (a : A) : st_keeps P (mret a).
Proof. by intros s. Qed.
Lemma st_keeps_self P : st_keeps P self.
Proof. by intros s. Qed.
Lemma st_keeps_throw P {A} e : st_keeps P (throw (A := A) e).
Proof. by intros s. Qed.
Lemma st_keeps_crash P {A} w : st_keeps P (crash (A := A) w).
Proof. by intros s. Qed.
Lemma st_keeps_run_call P {A} (m : outcome E A) : st_keeps P (run_call m).
Proof. by intros s. Qed.
Lemma st_keeps_throw_if P b e : st_keeps P (throw_if b e).
Proof. by destruct b; intros s. Qed.
Lemma st_keeps_change P f : (forall s, P s -> P (f s)) -> st_keeps P (change f).
Proof. intros Hf s. apply Hf. Qed.
Lemma st_keeps_when P b m : st_keeps P m -> st_keeps P (st_when b m).
Proof. destruct b; [done|]. intros _. apply st_keeps_ret. Qed.
Lemma st_keeps_bind P {A B} (m : ST S E A) (k : A -> ST S E B) :
  st_keeps P m -> (forall a, st_keeps P (k a)) -> st_keeps P (m ≫= k).
Proof.
  intros Hm Hk s Hs. unfold mbind, ST_bind. specialize (Hm s Hs). destruct (m s) as [s' [a|e|w]]; [|done..]. by apply Hk.
Qed.

(** ** Runs that return a value *)

Lemma st_bind_val {A B} (m : ST S E A) (k : A -> ST S E B) s s' b :
  (m ≫= k) s = (s', Val b) <-> exists s1 a, m s = (s1, Val a) /\ k a s1 = (s', Val b).
Proof.
  unfold mbind, ST_bind. split.
  - destruct (m s) as [s1 [a|e|w]]; naive_solver.
  - by intros (s1 & a & -> & Hk).
Qed.
Lemma st_run {A B} (m : ST S E A) (k : A -> ST S E B) s s1 a : m s = (s1, Val a) -> (m ≫= k) s = k a s1.
Proof. unfold mbind, ST_bind. by intros ->. Qed.
Lemma st_fail {A B} (m : ST S E A) (k : A -> ST S E B) s s1 e : m s = (s1, Fail e) -> (m ≫= k) s = (s1, Fail e).
Proof. unfold mbind, ST_bind. by intros ->. Qed.
Lemma throw_if_val b (e : E) s s' u : throw_if b e s = (s', Val u) <-> b = false /\ s' = s.
Proof. destruct b, u; simpl; unfold throw, mret, ST_ret; naive_solver. Qed.

(** ** Weakest preconditions *)

(** The method reaches [Q] when it returns a value and [F] when it fails or panics. *)
Definition st_wp {A} (m : ST S E A) (s : S) (Q : A -> S -> Prop) (F : S -> Prop) : Prop :=
  match m s with (s', Val a) => Q a s' | (s', _) => F s' end.

Lemma wp_bind {A B} (m : ST S E A) (k : A -> ST S E B) s Q F :
  st_wp m s (fun a s' => st_wp (k a) s' Q F) F -> st_wp (m ≫= k) s Q F.
Proof. unfold st_wp, mbind, ST_bind. by destruct (m s) as [s' [a|e|w]]. Qed.
Lemma wp_bind_inv {A B} (m : ST S E A) (k : A -> ST S E B) s Q F :
  st_wp (m ≫= k) s Q F -> st_wp m s (fun a s' => st_wp (k a) s' Q F) F.
Proof. unfold st_wp, mbind, ST_bind. by destruct (m s) as [s' [a|e|w]]. Qed.
Lemma wp_mono {A} (m : ST S E A) s (Q Q' : A -> S -> Prop) (F F' : S -> Prop) :
  st_wp m s Q F -> (forall a s', Q a s' -> Q' a s') -> (forall s', F s' -> F' s') -> st_wp m s Q' F'.
Proof. unfold st_wp. destruct (m s) as [s' [a|e|w]]; auto. Qed.
Lemma wp_ret {A} (a : A) s Q F : Q a s -> st_wp (mret a) s Q F.
Proof. done. Qed.
Lemma wp_self s Q F : Q s s -> st_wp self s Q F.
Proof. done. Qed.
Lemma wp_change f s Q F : Q tt (f s) -> st_wp (change f) s Q F.
Proof. done. Qed.
Lemma wp_throw {A} e s Q F : F s -> st_wp (throw (A := A) e) s Q F.
Proof. done. Qed.
Lemma wp_crash {A} w s Q F : F s -> st_wp (crash (A := A) w) s Q F.
Proof. done. Qed.
Lemma wp_throw_if b e s Q F : (b = true -> F s) -> (b = false -> Q tt s) -> st_wp (throw_if b e) s Q F.
Proof. destruct b; unfold st_wp, throw_if; simpl; auto. Qed.
Lemma wp_run_call {A} (m : outcome E A) s Q F : (forall a, m = Val a -> Q a s) -> F s -> st_wp (run_call m) s Q F.
Proof. unfold st_wp, run_call. destruct m; auto. Qed.
Lemma wp_when b m s Q F : (b = true -> st_wp m s Q F) -> (b = false -> Q tt s) -> st_wp (st_when b m) s Q F.
Proof. intros Ht Hf. destruct b; [by apply Ht|by apply Hf]. Qed.
Lemma keeps_wp P {A} (m : ST S E A) : (forall s, P s -> st_wp m s (fun _ => P) P) -> st_keeps P m.
Proof. intros Hm s Hs. specialize (Hm s Hs). unfold st_wp in Hm. by destruct (m s) as [s' [a|e|w]]. Qed.
Lemma wp_keeps P {A} (m : ST S E A) s : st_keeps P m -> P s -> st_wp m s (fun _ => P) P.
Proof. intros Hm Hs. specialize (Hm s Hs). unfold st_wp. by destruct (m s) as [s' [a|e|w]]. Qed.
(** What is known of a run that returned. *)
Lemma wp_val {A} (m : ST S E A) s Q F s' a : st_wp m s Q F -> m s = (s', Val a) -> Q a s'.
Proof. unfold st_wp. intros Hm Hr. by rewrite Hr in Hm. Qed.
Lemma wp_both {A} (m : ST S E A) s (Q Q' : A -> S -> Prop) (F : S -> Prop) :
  st_wp m s Q F -> (forall s' a, m s = (s', Val a) -> Q' a s') -> st_wp m s (fun a s' => Q a s' /\ Q' a s') F.
Proof. unfold st_wp. destruct (m s) as [s' [a|e|w]]; auto. Qed.
End state.

(** Run a method symbolically, up to the calls that have a specification of their own. *)
Ltac wp_step :=
  match goal with
  | |- st_wp (_ ≫= _) _ _ _ => apply wp_bind
  | |- st_wp (mret _) _ _ _ => apply wp_ret
  | |- st_wp self _ _ _ => apply wp_self
  | |- st_wp (change _) _ _ _ => apply wp_change
  | |- st_wp (throw _) _ _ _ => apply wp_throw
  | |- st_wp (crash _) _ _ _ => apply wp_crash
  | |- st_wp (throw_if _ _) _ _ _ => apply wp_throw_if; intros ?
  | |- st_wp (run_call _) _ _ _ => apply wp_run_call; [intros ? ?|]
  | |- st_wp (let _ := _ in _) _ _ _ => cbv zeta
  end.
Ltac wp_tac := repeat wp_step.
Ltac wp_case :=
  match goal with
  | |- st_wp (if ?b then _ else _) _ _ _ => destruct b eqn:?
  | |- st_wp (match ?x with _ => _ end) _ _ _ => destruct x eqn:?
  end.

Create HintDb st_keeps discriminated.
#[export] Hint Resolve st_keeps_ret st_keeps_self st_keeps_throw st_keeps_crash st_keeps_run_call st_keeps_throw_if : st_keeps.

(** Follow the structure of a method down to its primitive steps. *)
Ltac st_step :=
  match goal with
  | |- forall _, _ => intro
  | |- st_keeps _ (_ ≫= _) => apply st_keeps_bind
  | |- st_keeps _ (st_when _ _) => apply st_keeps_when
  | |- st_keeps _ (if ?b then _ else _) => destruct b
  | |- st_keeps _ (match ?x with _ => _ end) => destruct x
  | |- st_keeps _ (let _ := _ in _) => cbv zeta
  end.
Ltac st_tac := repeat (st_step || (solve [eauto with st_keeps nocore])).

(** Decompose a run that returned a value. *)
Ltac st_inv :=
  repeat match goal with
  | H : (_ ≫= _) _ = (_, Val _) |- _ => apply st_bind_val in H as (? & ? & ? & ?)
  | H : self _ = (_, Val _) |- _ => unfold self in H; injection H as ? ?; subst
  | H : change _ _ = (_, Val _) |- _ => unfold change in H; (injection H as ? ? || injection H as ?); subst
  | H : mret _ _ = (_, Val _) |- _ => unfold mret, ST_ret in H; (injection H as ? ? || injection H as ?); subst
  | H : throw_if _ _ _ = (_, Val _) |- _ => apply throw_if_val in H as [? ?]; subst
  | H : throw _ _ = (_, Val _) |- _ => discriminate H
  | H : crash _ _ = (_, Val _) |- _ => discriminate H
  | H : run_call _ _ = (_, Val _) |- _ => unfold run_call in H; injection H as ? ?; subst
  end.
