(* ===== verification/PeerManager.v ===== *)
(** * internal/p2p: the peer manager

    Models internal/p2p/peermanager.go with [NodeAddress.Validate] and
    [NodeID.Validate].  A map from node IDs to [true] is a set.  [peerInfo.Copy]
    copies the struct but not its map of addresses, so the map is an object behind a
    reference that all copies of a peer share; its entries are copied in place, which
    does not change them.  The cached ranking is a list of keys of the peer map: its
    pointers are those of the map.

    The order in which a map is ranged over, the clock and the jitter are an argument
    [Env] of each call.  The database of peers does not fail and is not read after the
    start; wakers and subscriptions are not modelled, the updates that are broadcast
    are kept in a log. *)
From Stdlib Require Import ZArith Lia Strings.Byte Strings.Ascii.
From stdpp Require Import base list strings gmap.
From S2P Require Import Prelude.
From S2P Require Import SafeMath.
From S2P Require Import Types.
From S2P Require Import StateOutcome.

(** ** Addresses *)

Abbreviation NodeID := string.

(** The characters of [[0-9a-f]]. *)
Definition is_hex_digit (c : ascii) : bool :=
  let n := N_of_ascii c in ((48 <=? n) && (n <=? 57) || (97 <=? n) && (n <=? 102))%N.
Fixpoint all_hex (s : string) : bool := match s with EmptyString => true | String c s => is_hex_digit c && all_hex s end.
Inductive NodeIDError := ErrEmptyNodeID | ErrNodeIDLength | ErrNodeIDDigits.
Definition NodeID_Validate (id : NodeID) : outcome NodeIDError unit :=
  _ ← fail_if (String.length id =? 0)%nat ErrEmptyNodeID;
  _ ← fail_if (negb (String.length id =? 40)%nat) ErrNodeIDLength;
  fail_if (negb (all_hex id)) ErrNodeIDDigits.

Record NodeAddress := mkNodeAddress { na_NodeID : NodeID; na_Protocol : string; na_Hostname : string; na_Port : Z; na_Path : string }.
#[export] Instance NodeAddress_eq_dec : EqDecision NodeAddress.
Proof. solve_decision. Defined.
#[export] Instance NodeAddress_countable : Countable NodeAddress.
Proof.
  refine (inj_countable' (fun a => (na_NodeID a, na_Protocol a, na_Hostname a, na_Port a, na_Path a))
    (fun '(i, p, h, n, q) => mkNodeAddress i p h n q) _). by intros [].
Defined.

Inductive PMError :=
  | ErrNoProtocol | ErrNoPeerID | ErrInvalidPeerID (e : NodeIDError) | ErrPortNoHost | ErrSelf | ErrConnected | ErrFull | ErrRemoved
  | ErrNoSelfID | ErrOptions (why : string).

Definition NodeAddress_Validate (a : NodeAddress) : outcome PMError unit :=
  _ ← fail_if (bool_decide (na_Protocol a = "")) ErrNoProtocol;
  _ ← fail_if (bool_decide (na_NodeID a = "")) ErrNoPeerID;
  _ ← wrap_err ErrInvalidPeerID (NodeID_Validate (na_NodeID a));
  fail_if ((na_Port a >? 0) && bool_decide (na_Hostname a = "")) ErrPortNoHost.

(** ** Options *)

Definition MaxUint8 : Z := 255.
Definition PeerScorePersistent : Z := MaxUint8.
Definition retryNever : Z := MaxInt64.
Definition uint16_add (a b : Z) : Z := wrap_unsigned 16 (a + b).

Record PeerManagerOptions := mkOptions {
  PersistentPeers : list NodeID;
  MaxPeers : Z;
  MaxConnected : Z;
  MaxConnectedUpgrade : Z;
  MinRetryTime : Z;
  MaxRetryTime : Z;
  MaxRetryTimePersistent : Z;
  RetryTimeJitter : Z;
  PeerScores : gmap NodeID Z;
  PrivatePeers : gset NodeID;
  SelfAddress : NodeAddress;
  persistentPeers : option (gset NodeID)
}.

Fixpoint validate_ids (ids : list NodeID) : outcome NodeIDError unit :=
  match ids with [] => Val tt | id :: rest => _ ← NodeID_Validate id; validate_ids rest end.

(** The sum of the two limits is computed on [uint16]. *)
Definition Options_Validate (o : PeerManagerOptions) : outcome PMError unit :=
  _ ← wrap_err ErrInvalidPeerID (validate_ids (PersistentPeers o));
  _ ← wrap_err ErrInvalidPeerID (validate_ids (elements (PrivatePeers o)));
  _ ← fail_if ((MaxConnected o >? 0) && (len (PersistentPeers o) >? MaxConnected o)) (ErrOptions "number of persistent peers can't exceed MaxConnected");
  _ ← fail_if ((MaxPeers o >? 0) && ((MaxConnected o =? 0) || (uint16_add (MaxConnected o) (MaxConnectedUpgrade o) >? MaxPeers o)))
        (ErrOptions "MaxConnected and MaxConnectedUpgrade can't exceed MaxPeers");
  _ ← fail_if ((MaxRetryTime o >? 0) && (MinRetryTime o =? 0)) (ErrOptions "can't set MaxRetryTime without MinRetryTime");
  _ ← fail_if ((MaxRetryTime o >? 0) && (MinRetryTime o >? MaxRetryTime o)) (ErrOptions "MinRetryTime is greater than MaxRetryTime");
  _ ← fail_if ((MaxRetryTimePersistent o >? 0) && (MinRetryTime o =? 0)) (ErrOptions "can't set MaxRetryTimePersistent without MinRetryTime");
  fail_if ((MaxRetryTimePersistent o >? 0) && (MinRetryTime o >? MaxRetryTimePersistent o))
    (ErrOptions "MinRetryTime is greater than MaxRetryTimePersistent").

Definition optimize (o : PeerManagerOptions) : PeerManagerOptions :=
  mkOptions (PersistentPeers o) (MaxPeers o) (MaxConnected o) (MaxConnectedUpgrade o) (MinRetryTime o) (MaxRetryTime o)
    (MaxRetryTimePersistent o) (RetryTimeJitter o) (PeerScores o) (PrivatePeers o) (SelfAddress o) (Some (list_to_set (PersistentPeers o))).
Definition isPersistent (o : PeerManagerOptions) (id : NodeID) : go bool :=
  match persistentPeers o with
  | None => Panic "isPersistentPeer() called before optimize()"
  | Some s => Val (bool_decide (id ∈ s))
  end.

(** ** Peers *)

Record peerAddressInfo := mkAddressInfo {
  ai_Address : NodeAddress; ai_LastDialSuccess : Time; ai_LastDialFailure : Time; ai_DialFailures : Z
}.
Abbreviation AddressMap := (gmap NodeAddress peerAddressInfo).

(** [None] is the nil map. *)
Record peerInfo := mkPeerInfo {
  pi_ID : NodeID;
  pi_AddressInfo : option nat;
  pi_LastConnected : Time;
  pi_Persistent : bool;
  pi_Seed : bool;
  pi_Height : Z;
  pi_FixedScore : Z;
  pi_MutableScore : Z
}.
Definition zero_peer : peerInfo := mkPeerInfo "" None zero_time false false 0 0 0.

Record peerStore := mkPeerStore {
  ps_peers : gmap NodeID peerInfo;
  ps_ranked : option (list NodeID);
  (** The maps of addresses; references are given out in order. *)
  ps_maps : gmap nat AddressMap;
  ps_next : nat
}.

Definition addresses_of (s : peerStore) (p : peerInfo) : AddressMap := default ∅ (pi_AddressInfo p ≫= fun r => ps_maps s !! r).

Definition peerInfo_Validate (p : peerInfo) : outcome PMError unit := fail_if (bool_decide (pi_ID p = "")) ErrNoPeerID.

Definition Score (s : peerStore) (p : peerInfo) : Z :=
  if pi_FixedScore p >? 0 then pi_FixedScore p
  else if pi_Persistent p then PeerScorePersistent
  else
    let score := int64 (pi_MutableScore p - sumZ (fun '(_, a) => ai_DialFailures a) (map_to_list (addresses_of s p))) in
    if score <=? 0 then 0 else if score >=? MaxUint8 then MaxUint8 else score.

Definition with_peers (s : peerStore) (peers : gmap NodeID peerInfo) (ranked : option (list NodeID)) : peerStore :=
  mkPeerStore peers ranked (ps_maps s) (ps_next s).
Definition with_map (s : peerStore) (r : nat) (m : AddressMap) : peerStore :=
  mkPeerStore (ps_peers s) (ps_ranked s) (<[r := m]> (ps_maps s)) (ps_next s).
(** A new empty map. *)
Definition new_map (s : peerStore) : peerStore :=
  mkPeerStore (ps_peers s) (ps_ranked s) (<[ps_next s := ∅]> (ps_maps s)) (S (ps_next s)).

(** The new score and the old one are both computed over the shared map. *)
Definition peerStore_Set (s : peerStore) (peer : peerInfo) : outcome PMError peerStore :=
  _ ← peerInfo_Validate peer;
  let same := match ps_peers s !! pi_ID peer with Some current => Score s current =? Score s peer | None => false end in
  Val (with_peers s (<[pi_ID peer := peer]> (ps_peers s)) (if same then ps_ranked s else None)).

Definition peerStore_Delete (s : peerStore) (id : NodeID) : peerStore :=
  match ps_peers s !! id with None => s | Some _ => with_peers s (base.delete id (ps_peers s)) None end.

Definition peerStore_Size (s : peerStore) : Z := Z.of_nat (size (ps_peers s)).

(** What a call meets: the clock, the order of ranges over maps and the jitter drawn for an address. *)
Record Env := mkEnv {
  env_now : Time;
  env_ids : list NodeID -> list NodeID;
  env_addresses : list NodeAddress -> list NodeAddress;
  env_upgrades : list (NodeID * NodeID) -> list (NodeID * NodeID);
  env_jitter : NodeAddress -> Z -> Z
}.
Record env_ok (e : Env) : Prop := {
  env_ids_perm l : env_ids e l ≡ₚ l;
  env_addresses_perm l : env_addresses e l ≡ₚ l;
  env_upgrades_perm l : env_upgrades e l ≡ₚ l
}.

Definition score_at (s : peerStore) (id : NodeID) : Z := match ps_peers s !! id with Some p => Score s p | None => 0 end.
Definition rank (e : Env) (s : peerStore) : list NodeID :=
  sort_by (fun a b => score_at s a >? score_at s b) (env_ids e (map_to_list (ps_peers s)).*1).
Definition Ranked (e : Env) (s : peerStore) : peerStore * list peerInfo :=
  let l := match ps_ranked s with Some l => l | None => rank e s end in
  (with_peers s (ps_peers s) (Some l), omap (fun id => ps_peers s !! id) l).

(** ** The manager *)

Inductive PeerStatus := PeerStatusUp | PeerStatusDown | PeerStatusGood | PeerStatusBad.
#[export] Instance PeerStatus_eq_dec : EqDecision PeerStatus.
Proof. solve_decision. Defined.
Record PeerUpdate := mkPeerUpdate { pu_NodeID : NodeID; pu_Status : PeerStatus; pu_Channels : list Z }.

Record PeerManager := mkPeerManager {
  pm_selfID : NodeID;
  pm_options : PeerManagerOptions;
  pm_store : peerStore;
  pm_dialing : gset NodeID;
  pm_upgrading : gmap NodeID NodeID;
  pm_connected : gset NodeID;
  pm_ready : gset NodeID;
  pm_evict : gset NodeID;
  pm_evicting : gset NodeID;
  pm_updates : list PeerUpdate
}.
Definition set_store (m : PeerManager) (s : peerStore) : PeerManager :=
  mkPeerManager (pm_selfID m) (pm_options m) s (pm_dialing m) (pm_upgrading m) (pm_connected m) (pm_ready m) (pm_evict m) (pm_evicting m) (pm_updates m).
Definition set_dialing (m : PeerManager) (d : gset NodeID) (u : gmap NodeID NodeID) : PeerManager :=
  mkPeerManager (pm_selfID m) (pm_options m) (pm_store m) d u (pm_connected m) (pm_ready m) (pm_evict m) (pm_evicting m) (pm_updates m).
Definition set_connected (m : PeerManager) (c : gset NodeID) : PeerManager :=
  mkPeerManager (pm_selfID m) (pm_options m) (pm_store m) (pm_dialing m) (pm_upgrading m) c (pm_ready m) (pm_evict m) (pm_evicting m) (pm_updates m).
Definition set_evict (m : PeerManager) (ev evg : gset NodeID) : PeerManager :=
  mkPeerManager (pm_selfID m) (pm_options m) (pm_store m) (pm_dialing m) (pm_upgrading m) (pm_connected m) (pm_ready m) ev evg (pm_updates m).
Definition set_ready (m : PeerManager) (r : gset NodeID) : PeerManager :=
  mkPeerManager (pm_selfID m) (pm_options m) (pm_store m) (pm_dialing m) (pm_upgrading m) (pm_connected m) r (pm_evict m) (pm_evicting m) (pm_updates m).
Definition log_update (m : PeerManager) (u : PeerUpdate) : PeerManager :=
  mkPeerManager (pm_selfID m) (pm_options m) (pm_store m) (pm_dialing m) (pm_upgrading m) (pm_connected m) (pm_ready m) (pm_evict m) (pm_evicting m)
    (pm_updates m ++ [u]).

Abbreviation PM := (ST PeerManager PMError).

Definition save_peer (peer : peerInfo) : PM unit :=
  m ← self; s ← run_call (peerStore_Set (pm_store m) peer); change (fun m => set_store m s).
Definition ranked_peers (e : Env) : PM (list peerInfo) :=
  m ← self; let '(s, l) := Ranked e (pm_store m) in _ ← change (fun m => set_store m s); mret l.

Definition configurePeer (o : PeerManagerOptions) (peer : peerInfo) : go peerInfo :=
  persistent ← isPersistent o (pi_ID peer);
  Val (mkPeerInfo (pi_ID peer) (pi_AddressInfo peer) (pi_LastConnected peer) persistent (pi_Seed peer) (pi_Height peer)
    (default 0 (PeerScores o !! pi_ID peer)) (pi_MutableScore peer)).

Definition newPeerInfo (id : NodeID) : PM peerInfo :=
  m ← self;
  let r := ps_next (pm_store m) in
  _ ← change (fun m => set_store m (new_map (pm_store m)));
  run_call (lift (configurePeer (pm_options m) (mkPeerInfo id (Some r) zero_time false false 0 0 0))).

(** [m.store.Get(id)], or a new peer. *)
Definition get_or_new (id : NodeID) : PM peerInfo :=
  m ← self;
  match ps_peers (pm_store m) !! id with Some p => mret p | None => newPeerInfo id end.

(** The loop of [prunePeers], from the lowest rank. *)
Fixpoint prune_loop (ids : list NodeID) (m : PeerManager) : PeerManager :=
  match ids with
  | [] => m
  | id :: rest =>
      if peerStore_Size (pm_store m) <=? MaxPeers (pm_options m) then m
      else if bool_decide (id ∈ pm_dialing m) || bool_decide (id ∈ pm_connected m) then prune_loop rest m
      else prune_loop rest (set_store m (peerStore_Delete (pm_store m) id))
  end.
Definition prunePeers (e : Env) : PM unit :=
  m ← self;
  if (MaxPeers (pm_options m) =? 0) || (peerStore_Size (pm_store m) <=? MaxPeers (pm_options m)) then mret tt
  else ranked ← ranked_peers e; change (prune_loop (reverse (pi_ID <$> ranked))).

Definition Add (e : Env) (address : NodeAddress) : PM bool :=
  _ ← run_call (NodeAddress_Validate address);
  m ← self;
  _ ← throw_if (bool_decide (na_NodeID address = pm_selfID m)) ErrSelf;
  peer ← get_or_new (na_NodeID address);
  m ← self;
  let addrs := addresses_of (pm_store m) peer in
  if bool_decide (is_Some (addrs !! address)) then mret false
  else
    match pi_AddressInfo peer with
    | None => crash "assignment to entry in nil map"
    | Some r =>
        _ ← change (fun m => set_store m (with_map (pm_store m) r (<[address := mkAddressInfo address zero_time zero_time 0]> addrs)));
        _ ← save_peer peer;
        _ ← prunePeers e;
        mret true
    end.

(** ** Dialing *)

Definition retryDelay (o : PeerManagerOptions) (failures : Z) (persistent : bool) (jitter : Z -> Z) : Z :=
  if failures =? 0 then 0
  else if MinRetryTime o =? 0 then retryNever
  else
    let maxDelay := if persistent && (MaxRetryTimePersistent o >? 0) then MaxRetryTimePersistent o else MaxRetryTime o in
    let delay := int64 (MinRetryTime o * failures) in
    let delay := if RetryTimeJitter o >? 0 then int64 (delay + jitter (RetryTimeJitter o)) else delay in
    if (maxDelay >? 0) && (delay >? maxDelay) then maxDelay else delay.

(** [m.upgrading[id]], empty when there is no entry. *)
Definition upgrading_to (m : PeerManager) (id : NodeID) : NodeID := default "" (pm_upgrading m !! id).

Fixpoint candidate_loop (m : PeerManager) (score : Z) (ranked : list peerInfo) : NodeID :=
  match ranked with
  | [] => ""
  | candidate :: rest =>
      let id := pi_ID candidate in
      if Score (pm_store m) candidate >=? score then ""
      else if bool_decide (id ∉ pm_connected m) || bool_decide (id ∈ pm_evict m) || bool_decide (id ∈ pm_evicting m)
              || negb (bool_decide (upgrading_to m id = "")) then candidate_loop m score rest
      else id
  end.
Definition findUpgradeCandidate (e : Env) (id : NodeID) (score : Z) : PM NodeID :=
  m ← self;
  match List.find (fun '(_, to) => bool_decide (to = id)) (env_upgrades e (map_to_list (pm_upgrading m))) with
  | Some (from, _) => mret from
  | None => ranked ← ranked_peers e; m ← self; mret (candidate_loop m score (reverse ranked))
  end.

(** The first address of the peer whose retry delay has passed. *)
Definition retry_passed (e : Env) (o : PeerManagerOptions) (persistent : bool) (a : peerAddressInfo) : bool :=
  negb (clip64 (env_now e - ai_LastDialFailure a) <? retryDelay o (ai_DialFailures a) persistent (env_jitter e (ai_Address a))).
Definition eligible_address (e : Env) (m : PeerManager) (peer : peerInfo) : option NodeAddress :=
  let addrs := addresses_of (pm_store m) peer in
  let infos := omap (fun a => addrs !! a) (env_addresses e (map_to_list addrs).*1) in
  ai_Address <$> List.find (retry_passed e (pm_options m) (pi_Persistent peer)) infos.

Definition full (m : PeerManager) : bool :=
  (MaxConnected (pm_options m) >? 0) && (Z.of_nat (size (pm_connected m)) >=? MaxConnected (pm_options m)).

Definition dial (id : NodeID) (address : NodeAddress) : PM (option NodeAddress) :=
  _ ← change (fun m => set_dialing m ({[ id ]} ∪ pm_dialing m) (pm_upgrading m));
  mret (Some address).

(** [None] is the empty address. *)
Fixpoint dial_loop (e : Env) (peers : list peerInfo) : PM (option NodeAddress) :=
  match peers with
  | [] => mret None
  | peer :: rest =>
      m ← self;
      let id := pi_ID peer in
      if bool_decide (id ∈ pm_dialing m) || bool_decide (id ∈ pm_connected m) then dial_loop e rest
      else
        match eligible_address e m peer with
        | None => dial_loop e rest
        | Some address =>
            if full m then
              from ← findUpgradeCandidate e id (Score (pm_store m) peer);
              if bool_decide (from = "") then mret None
              else
                _ ← change (fun m => set_dialing m (pm_dialing m) (<[from := id]> (pm_upgrading m)));
                dial id address
            else dial id address
        end
  end.
Definition TryDialNext (e : Env) : PM (option NodeAddress) :=
  m ← self;
  if (MaxConnected (pm_options m) >? 0) &&
     (Z.of_nat (size (pm_connected m) + size (pm_dialing m)) >=? MaxConnected (pm_options m) + MaxConnectedUpgrade (pm_options m))
  then mret None
  else ranked ← ranked_peers e; dial_loop e ranked.

(** The dial to a peer has ended: it is no longer dialing, nor claims an upgrade. *)
Definition stop_dialing (m : PeerManager) (id : NodeID) : PeerManager :=
  set_dialing m (pm_dialing m ∖ {[ id ]}) (filter (fun '(_, to) => to <> id) (pm_upgrading m)).

Definition DialFailed (e : Env) (address : NodeAddress) : PM unit :=
  _ ← change (fun m => stop_dialing m (na_NodeID address));
  m ← self;
  match ps_peers (pm_store m) !! na_NodeID address with
  | None => mret tt
  | Some peer =>
      let addrs := addresses_of (pm_store m) peer in
      match addrs !! address, pi_AddressInfo peer with
      | Some a, Some r =>
          let a := mkAddressInfo (ai_Address a) (ai_LastDialSuccess a) (env_now e) (uint32 (ai_DialFailures a + 1)) in
          _ ← change (fun m => set_store m (with_map (pm_store m) r (<[address := a]> addrs)));
          save_peer peer
      | _, _ => mret tt
      end
  end.

Definition set_LastConnected (p : peerInfo) (t : Time) : peerInfo :=
  mkPeerInfo (pi_ID p) (pi_AddressInfo p) t (pi_Persistent p) (pi_Seed p) (pi_Height p) (pi_FixedScore p) (pi_MutableScore p).

(** The peer claimed for the upgrade to [id], empty when there is none. *)
Definition claimed_for (e : Env) (m : PeerManager) (id : NodeID) : NodeID :=
  match last (List.filter (fun '(_, to) => bool_decide (to = id)) (env_upgrades e (map_to_list (pm_upgrading m)))) with
  | Some (from, _) => from
  | None => ""
  end.

Definition Dialed (e : Env) (address : NodeAddress) : PM unit :=
  let id := na_NodeID address in
  m ← self;
  let upgradeFromPeer := claimed_for e m id in
  _ ← change (fun m => stop_dialing m id);
  _ ← throw_if (bool_decide (id = pm_selfID m)) ErrSelf;
  _ ← throw_if (bool_decide (id ∈ pm_connected m)) ErrConnected;
  let at_limit := Z.of_nat (size (pm_connected m)) >=? MaxConnected (pm_options m) + MaxConnectedUpgrade (pm_options m) in
  _ ← throw_if (full m && (bool_decide (upgradeFromPeer = "") || at_limit)) ErrFull;
  match ps_peers (pm_store m) !! id with
  | None => throw ErrRemoved
  | Some peer =>
      let peer := set_LastConnected peer (env_now e) in
      let addrs := addresses_of (pm_store m) peer in
      _ ← match addrs !! address, pi_AddressInfo peer with
          | Some a, Some r =>
              let a := mkAddressInfo (ai_Address a) (env_now e) (ai_LastDialFailure a) 0 in
              change (fun m => set_store m (with_map (pm_store m) r (<[address := a]> addrs)))
          | _, _ => mret tt
          end;
      _ ← save_peer peer;
      _ ← (if negb (bool_decide (upgradeFromPeer = "")) && full m then
             m ← self;
             u ← (match ps_peers (pm_store m) !! upgradeFromPeer with
                  | Some p => findUpgradeCandidate e (pi_ID p) (Score (pm_store m) p)
                  | None => mret ""
                  end);
             let victim := if bool_decide (u = "") then upgradeFromPeer else u in
             change (fun m => set_evict m ({[ victim ]} ∪ pm_evict m) (pm_evicting m))
           else mret tt);
      change (fun m => set_connected m ({[ pi_ID peer ]} ∪ pm_connected m))
  end.

(** [addr.DialFailures = 0] for all addresses. *)
Definition reset_failures (addrs : AddressMap) : AddressMap :=
  (fun a => mkAddressInfo (ai_Address a) (ai_LastDialSuccess a) (ai_LastDialFailure a) 0) <$> addrs.

Definition Accepted (e : Env) (peerID : NodeID) : PM unit :=
  m ← self;
  _ ← throw_if (bool_decide (peerID = pm_selfID m)) ErrSelf;
  _ ← throw_if (bool_decide (peerID ∈ pm_connected m)) ErrConnected;
  _ ← throw_if ((MaxConnected (pm_options m) >? 0) &&
        (Z.of_nat (size (pm_connected m)) >=? MaxConnected (pm_options m) + MaxConnectedUpgrade (pm_options m))) ErrFull;
  peer ← get_or_new peerID;
  _ ← change (fun m => match pi_AddressInfo peer with
                       | Some r => set_store m (with_map (pm_store m) r (reset_failures (addresses_of (pm_store m) peer)))
                       | None => m
                       end);
  upgradeFromPeer ← (if full m then
                       m ← self;
                       from ← findUpgradeCandidate e (pi_ID peer) (Score (pm_store m) peer);
                       _ ← throw_if (bool_decide (from = "")) ErrFull;
                       mret from
                     else mret "");
  _ ← save_peer (set_LastConnected peer (env_now e));
  _ ← change (fun m => set_connected m ({[ peerID ]} ∪ pm_connected m));
  st_when (negb (bool_decide (upgradeFromPeer = ""))) (change (fun m => set_evict m ({[ upgradeFromPeer ]} ∪ pm_evict m) (pm_evicting m))).

(** ** Connected peers *)

Definition Ready (peerID : NodeID) (channels : list Z) : PM unit :=
  m ← self;
  st_when (bool_decide (peerID ∈ pm_connected m))
    (change (fun m => log_update (set_ready m ({[ peerID ]} ∪ pm_ready m)) (mkPeerUpdate peerID PeerStatusUp channels))).

(** The first peer scheduled for eviction that can be evicted; those before it are dropped. *)
Fixpoint evict_loop (ids : list NodeID) (m : PeerManager) : PeerManager * option NodeID :=
  match ids with
  | [] => (m, None)
  | id :: rest =>
      let m := set_evict m (pm_evict m ∖ {[ id ]}) (pm_evicting m) in
      if bool_decide (id ∈ pm_connected m) && bool_decide (id ∉ pm_evicting m)
      then (set_evict m (pm_evict m) ({[ id ]} ∪ pm_evicting m), Some id)
      else evict_loop rest m
  end.
Definition TryEvictNext (e : Env) : PM NodeID :=
  m ← self;
  let '(m', id) := evict_loop (env_ids e (elements (pm_evict m))) m in
  _ ← change (fun _ => m');
  match id with
  | Some id => mret id
  | None =>
      if (MaxConnected (pm_options m) =? 0) ||
         (Z.of_nat (size (pm_connected m)) - Z.of_nat (size (pm_evicting m)) <=? MaxConnected (pm_options m)) then mret ""
      else
        ranked ← ranked_peers e;
        m ← self;
        match List.find (fun p => bool_decide (pi_ID p ∈ pm_connected m) && bool_decide (pi_ID p ∉ pm_evicting m)) (reverse ranked) with
        | Some peer => _ ← change (fun m => set_evict m (pm_evict m) ({[ pi_ID peer ]} ∪ pm_evicting m)); mret (pi_ID peer)
        | None => mret ""
        end
  end.

Definition Disconnected (peerID : NodeID) : PM unit :=
  m ← self;
  let ready := bool_decide (peerID ∈ pm_ready m) in
  _ ← change (fun m =>
        let m := set_connected m (pm_connected m ∖ {[ peerID ]}) in
        let m := set_dialing m (pm_dialing m) (base.delete peerID (pm_upgrading m)) in
        let m := set_evict m (pm_evict m ∖ {[ peerID ]}) (pm_evicting m ∖ {[ peerID ]}) in
        set_ready m (pm_ready m ∖ {[ peerID ]}));
  st_when ready (change (fun m => log_update m (mkPeerUpdate peerID PeerStatusDown []))).

Definition Errored (peerID : NodeID) : PM unit :=
  m ← self;
  st_when (bool_decide (peerID ∈ pm_connected m)) (change (fun m => set_evict m ({[ peerID ]} ∪ pm_evict m) (pm_evicting m))).

Definition add_mutable (p : peerInfo) (d : Z) : peerInfo :=
  mkPeerInfo (pi_ID p) (pi_AddressInfo p) (pi_LastConnected p) (pi_Persistent p) (pi_Seed p) (pi_Height p) (pi_FixedScore p)
    (int64 (pi_MutableScore p + d)).
(** A peer that is not in the store gets an entry with nothing set; the ranking is kept. *)
Definition processPeerEvent (pu : PeerUpdate) : PM unit :=
  change (fun m =>
    let p := default zero_peer (ps_peers (pm_store m) !! pu_NodeID pu) in
    let p := match pu_Status pu with PeerStatusBad => add_mutable p (-1) | PeerStatusGood => add_mutable p 1 | _ => p end in
    set_store m (with_peers (pm_store m) (<[pu_NodeID pu := p]> (ps_peers (pm_store m))) (ps_ranked (pm_store m)))).

Definition SetHeight (peerID : NodeID) (height : Z) : PM unit :=
  peer ← get_or_new peerID;
  save_peer (mkPeerInfo (pi_ID peer) (pi_AddressInfo peer) (pi_LastConnected peer) (pi_Persistent peer) (pi_Seed peer) height
    (pi_FixedScore peer) (pi_MutableScore peer)).

Definition GetHeight (m : PeerManager) (peerID : NodeID) : Z := pi_Height (default zero_peer (ps_peers (pm_store m) !! peerID)).
Definition PeerManager_Status (m : PeerManager) (id : NodeID) : PeerStatus :=
  if bool_decide (id ∈ pm_ready m) then PeerStatusUp else PeerStatusDown.

(** The inner loop of [Advertise]; [true] when the limit was reached. *)
Fixpoint advertise_addresses (m : PeerManager) (limit : Z) (infos : list (NodeAddress * peerAddressInfo)) (acc : list NodeAddress)
    : bool * list NodeAddress :=
  match infos with
  | [] => (false, acc)
  | (nodeAddr, info) :: rest =>
      if len acc >=? limit then (true, acc)
      else advertise_addresses m limit rest (if bool_decide (na_NodeID nodeAddr ∈ PrivatePeers (pm_options m)) then acc else acc ++ [ai_Address info])
  end.
Fixpoint advertise_loop (e : Env) (m : PeerManager) (peerID : NodeID) (limit : Z) (peers : list peerInfo) (acc : list NodeAddress) : list NodeAddress :=
  match peers with
  | [] => acc
  | peer :: rest =>
      if bool_decide (pi_ID peer = peerID) then advertise_loop e m peerID limit rest acc
      else
        let addrs := addresses_of (pm_store m) peer in
        let infos := omap (fun a => pair a <$> addrs !! a) (env_addresses e (map_to_list addrs).*1) in
        let '(done, acc) := advertise_addresses m limit infos acc in
        if (done : bool) then acc else advertise_loop e m peerID limit rest acc
  end.
Definition Advertise (e : Env) (peerID : NodeID) (limit : Z) : PM (list NodeAddress) :=
  ranked ← ranked_peers e;
  m ← self;
  let me := SelfAddress (pm_options m) in
  let acc := if negb (bool_decide (na_Hostname me = "")) && negb (na_Port me =? 0) then [me] else [] in
  mret (advertise_loop e m peerID limit ranked acc).

(** ** Construction *)

(** A stored peer, with its addresses parsed. *)
Record PeerMessage := mkPeerMessage { pmsg_ID : NodeID; pmsg_LastConnected : option Time; pmsg_AddressInfo : list peerAddressInfo }.

Fixpoint load_addresses (l : list peerAddressInfo) (acc : AddressMap) : outcome PMError AddressMap :=
  match l with
  | [] => Val acc
  | a :: rest => _ ← NodeAddress_Validate (ai_Address a); load_addresses rest (<[ai_Address a := a]> acc)
  end.
Fixpoint loadPeers (msgs : list PeerMessage) (s : peerStore) : outcome PMError peerStore :=
  match msgs with
  | [] => Val s
  | msg :: rest =>
      addrs ← load_addresses (pmsg_AddressInfo msg) ∅;
      let p := mkPeerInfo (pmsg_ID msg) (Some (ps_next s)) (default zero_time (pmsg_LastConnected msg)) false false 0 0 0 in
      _ ← peerInfo_Validate p;
      loadPeers rest (mkPeerStore (<[pmsg_ID msg := p]> (ps_peers s)) None (<[ps_next s := addrs]> (ps_maps s)) (S (ps_next s)))
  end.
Definition newPeerStore (msgs : list PeerMessage) : outcome PMError peerStore := loadPeers msgs (mkPeerStore ∅ None ∅ 0).

Fixpoint configure_each (ids : list NodeID) : PM unit :=
  match ids with
  | [] => mret tt
  | id :: rest =>
      m ← self;
      _ ← match ps_peers (pm_store m) !! id with
          | Some peer => p ← run_call (lift (configurePeer (pm_options m) peer)); save_peer p
          | None => mret tt
          end;
      configure_each rest
  end.
Definition configurePeers (e : Env) : PM unit :=
  _ ← change (fun m => set_store m (peerStore_Delete (pm_store m) (pm_selfID m)));
  m ← self;
  let configure : gset NodeID := list_to_set (PersistentPeers (pm_options m)) ∪ dom (PeerScores (pm_options m)) in
  configure_each (env_ids e (elements configure)).

Definition NewPeerManager (e : Env) (selfID : NodeID) (msgs : list PeerMessage) (options : PeerManagerOptions) : outcome PMError PeerManager :=
  _ ← fail_if (bool_decide (selfID = "")) ErrNoSelfID;
  _ ← Options_Validate options;
  store ← newPeerStore msgs;
  let m := mkPeerManager selfID (optimize options) store ∅ ∅ ∅ ∅ ∅ ∅ [] in
  match (_ ← configurePeers e; prunePeers e) m with
  | (m, Val _) => Val m
  | (_, Fail err) => Fail err
  | (_, Panic w) => Panic w
  end.
