(* ===== verification/PeerManagerProofs.v ===== *)
(** * The peer manager keeps its books

    The invariant of the sets the manager keeps, through every operation, whatever
    the order in which maps are ranged over; what dialing and evicting choose; and
    the corners where it does not do what it means to. *)
From Stdlib Require Import ZArith Lia Strings.Byte Strings.Ascii.
From stdpp Require Import base list strings gmap sets.
From S2P Require Import Prelude.
From S2P Require Import SafeMath.
From S2P Require Import Types.
From S2P Require Import StateOutcome.
From S2P Require Import PeerManager.

(** ** The store *)

(** A peer is in order when it is stored under its own ID. *)
Definition in_order (s : peerStore) (id : NodeID) : Prop := id <> "" /\ exists p, ps_peers s !! id = Some p /\ pi_ID p = id.

Record store_ok (s : peerStore) (connected : gset NodeID) : Prop := {
  so_keys id p : ps_peers s !! id = Some p -> pi_ID p = id /\ id <> "" \/ pi_ID p = "" /\ pi_AddressInfo p = None;
  so_connected id : id ∈ connected -> in_order s id;
  so_ranked l : ps_ranked s = Some l -> NoDup l /\ (forall id, id ∈ l -> is_Some (ps_peers s !! id)) /\ forall id, in_order s id -> id ∈ l
}.

Lemma rank_perm e s : env_ok e -> rank e s ≡ₚ (map_to_list (ps_peers s)).*1.
Proof. intros He. unfold rank. by rewrite sort_by_perm, env_ids_perm. Qed.
Lemma rank_elem e s id : env_ok e -> id ∈ rank e s <-> is_Some (ps_peers s !! id).
Proof.
  intros He. rewrite (rank_perm e s He), list_elem_of_fmap. split.
  - intros ([k p] & -> & Hin%elem_of_map_to_list). by exists p.
  - intros [p Hp%elem_of_map_to_list]. by exists (id, p).
Qed.

Lemma Ranked_ok e s C : env_ok e -> store_ok s C -> store_ok (Ranked e s).1 C.
Proof.
  intros He [Hk Hc Hr]. split; simpl; [done|done|]. intros l [= <-]. destruct (ps_ranked s) as [l|] eqn:Hl; [by apply Hr|].
  split; [|split].
  - rewrite (rank_perm e s He). apply NoDup_fst_map_to_list.
  - intros id. by apply rank_elem.
  - intros id (_ & p & Hp & _). apply rank_elem; [done|]. by exists p.
Qed.
Lemma Ranked_elem e s C p : env_ok e -> store_ok s C -> p ∈ (Ranked e s).2 -> exists id, ps_peers s !! id = Some p.
Proof. intros He Hs. simpl. rewrite list_elem_of_omap. intros (id & _ & Hp). eauto. Qed.
Lemma Ranked_has e s C id p : env_ok e -> store_ok s C -> in_order s id -> ps_peers s !! id = Some p -> p ∈ (Ranked e s).2.
Proof.
  intros He Hs Hid Hp. simpl. rewrite list_elem_of_omap. exists id. split; [|done].
  destruct (ps_ranked s) as [l|] eqn:Hl; [by apply (so_ranked _ _ Hs)|]. apply rank_elem; [done|]. by exists p.
Qed.

Lemma Set_ok s C p s' : store_ok s C -> (forall q, ps_peers s !! pi_ID p = Some q -> pi_ID q = pi_ID p) ->
  peerStore_Set s p = Val s' -> store_ok s' C /\ in_order s' (pi_ID p) /\ (forall id, in_order s id -> in_order s' id) /\
    ps_maps s' = ps_maps s /\ ps_next s' = ps_next s.
Proof.
  intros [Hk Hc Hr] Hq. unfold peerStore_Set, peerInfo_Validate. intros Hs. inv_val.
  match goal with H : bool_decide _ = false |- _ => apply bool_decide_eq_false in H; rename H into Hne end.
  assert (Hmono : forall id, in_order s id -> in_order (with_peers s (<[pi_ID p := p]> (ps_peers s)) None) id).
  { intros id (Hid & q & Hp & Hi). split; [done|]. destruct (decide (id = pi_ID p)) as [->|]; simpl.
    - exists p. by rewrite lookup_insert_eq.
    - exists q. by rewrite lookup_insert_ne. }
  split_and!; try done; [split; simpl|..].
  - intros id q. destruct (decide (id = pi_ID p)) as [->|]; [rewrite lookup_insert_eq; intros [= <-]; left; by split|].
    rewrite lookup_insert_ne by done. apply Hk.
  - intros id Hid. by apply Hmono, Hc.
  - intros l. destruct (ps_peers s !! pi_ID p) as [cur|] eqn:Hcur; [|done]. destruct (Score s cur =? Score s p); [|done].
    intros (Hnd & Hsub & Hall)%Hr. split_and!; [done| |].
    + intros id Hid. destruct (decide (id = pi_ID p)) as [->|]; [rewrite lookup_insert_eq|rewrite lookup_insert_ne by done]; eauto.
    + intros id (Hne' & q & Hp' & Hi). destruct (decide (id = pi_ID p)) as [->|].
      * apply Hall. split; [done|]. exists cur. eauto.
      * simpl in Hp'. rewrite lookup_insert_ne in Hp' by done. apply Hall. split; [done|]. eauto.
  - split; [done|]. exists p. simpl. by rewrite lookup_insert_eq.
Qed.

Lemma Delete_ok s C id : store_ok s C -> id ∉ C -> store_ok (peerStore_Delete s id) C.
Proof.
  intros [Hk Hc Hr] Hid. unfold peerStore_Delete. destruct (ps_peers s !! id) as [p|] eqn:Hp; [|done]. split; simpl.
  - intros k q [_ Hq]%lookup_delete_Some. eauto.
  - intros k Hin. destruct (Hc k Hin) as (Hne & q & Hq & Hi). split; [done|]. exists q. simpl. rewrite lookup_delete_ne by set_solver. done.
  - done.
Qed.
Lemma store_ok_maps s C maps next : store_ok s C -> store_ok (mkPeerStore (ps_peers s) (ps_ranked s) maps next) C.
Proof. by intros [Hk Hc Hr]. Qed.
Lemma store_ok_sub s C C' : store_ok s C -> C' ⊆ C -> store_ok s C'.
Proof. intros [Hk Hc Hr] Hsub. split; [done| |done]. intros id Hid. apply Hc. set_solver. Qed.
Lemma store_ok_add s C id : store_ok s C -> in_order s id -> store_ok s ({[ id ]} ∪ C).
Proof. intros [Hk Hc Hr] Hid. split; [done| |done]. intros k [->%elem_of_singleton|?]%elem_of_union; eauto. Qed.

(** ** The invariant *)

(** The last status that was broadcast for a peer. *)
Definition last_status (l : list PeerUpdate) (id : NodeID) : option PeerStatus :=
  pu_Status <$> last (List.filter (fun u => bool_decide (pu_NodeID u = id)) l).

Record pm_ok (m : PeerManager) : Prop := {
  ok_options : 0 <= MaxConnected (pm_options m) /\ 0 <= MaxConnectedUpgrade (pm_options m);
  ok_limit : 0 < MaxConnected (pm_options m) ->
    Z.of_nat (size (pm_connected m)) <= MaxConnected (pm_options m) + MaxConnectedUpgrade (pm_options m);
  ok_self : pm_selfID m ∉ pm_connected m;
  ok_ready : pm_ready m ⊆ pm_connected m;
  ok_evict : pm_evict m ⊆ pm_connected m;
  ok_evicting : pm_evicting m ⊆ pm_connected m;
  ok_upgrading from to : pm_upgrading m !! from = Some to -> from ∈ pm_connected m /\ to ∈ pm_dialing m;
  ok_claims f1 f2 to : pm_upgrading m !! f1 = Some to -> pm_upgrading m !! f2 = Some to -> f1 = f2;
  ok_store : store_ok (pm_store m) (pm_connected m);
  ok_status id : last_status (pm_updates m) id = Some PeerStatusUp <-> id ∈ pm_ready m
}.

Lemma pm_ok_store m s : pm_ok m -> store_ok s (pm_connected m) -> pm_ok (set_store m s).
Proof. by intros []. Qed.
Lemma pm_ok_evict m ev evg : pm_ok m -> ev ⊆ pm_connected m -> evg ⊆ pm_connected m -> pm_ok (set_evict m ev evg).
Proof. by intros []. Qed.

(** The same manager but for the ranking it remembers. *)
Definition same_but_rank (m m' : PeerManager) : Prop := exists r, m' = set_store m (with_peers (pm_store m) (ps_peers (pm_store m)) r).

Lemma ranked_peers_run e m : exists m', ranked_peers e m = (m', Val (Ranked e (pm_store m)).2) /\
  m' = set_store m (Ranked e (pm_store m)).1 /\ same_but_rank m m'.
Proof. eexists. split; [reflexivity|]. split; [done|]. by eexists. Qed.
Lemma ranked_ok e m : env_ok e -> pm_ok m -> pm_ok (set_store m (Ranked e (pm_store m)).1).
Proof. intros He Hm. apply pm_ok_store; [done|]. apply Ranked_ok; [done|]. apply Hm. Qed.
Lemma keeps_ranked e : env_ok e -> st_keeps pm_ok (ranked_peers e).
Proof. intros He m Hm. by apply ranked_ok. Qed.

Lemma keeps_new id : st_keeps pm_ok (newPeerInfo id).
Proof.
  unfold newPeerInfo. st_tac. apply st_keeps_change. intros m Hm. apply pm_ok_store; [done|]. apply store_ok_maps, Hm.
Qed.
Lemma keeps_get id : st_keeps pm_ok (get_or_new id).
Proof. unfold get_or_new. st_tac. apply keeps_new. Qed.

(** What [get_or_new] returns. *)
Lemma get_or_new_val id m m' p : get_or_new id m = (m', Val p) ->
  (ps_peers (pm_store m) !! id = Some p /\ m' = m) \/
  (ps_peers (pm_store m) !! id = None /\ pi_ID p = id /\ m' = set_store m (new_map (pm_store m)) /\ pi_AddressInfo p = Some (ps_next (pm_store m))).
Proof.
  unfold get_or_new. intros Hr. apply st_bind_val in Hr as (m1 & ? & [= <- <-] & Hr).
  destruct (ps_peers (pm_store m) !! id) as [q|]; [left; st_inv; done|]. right. unfold newPeerInfo in Hr.
  apply st_bind_val in Hr as (? & ? & [= <- <-] & Hr). apply st_bind_val in Hr as (? & ? & [= <- <-] & Hr).
  unfold run_call in Hr. injection Hr as <- Hr. unfold configurePeer in Hr. apply lift_val in Hr.
  inv_val. done.
Qed.

Lemma save_peer_run p m m' r : pm_ok m -> (forall q, ps_peers (pm_store m) !! pi_ID p = Some q -> pi_ID q = pi_ID p) ->
  save_peer p m = (m', r) ->
  pm_ok m' /\ exists s, m' = set_store m s /\ (r = Val tt -> in_order s (pi_ID p) /\ forall id, in_order (pm_store m) id -> in_order s id).
Proof.
  intros Hm Hq. unfold save_peer, mbind, ST_bind, self, run_call, change. destruct (peerStore_Set (pm_store m) p) as [s|e|w] eqn:Hs.
  - intros [= <- <-]. destruct (Set_ok _ _ _ _ (ok_store _ Hm) Hq Hs) as (Hok & Hin & Hmono & _).
    split; [by apply pm_ok_store|]. exists s. done.
  - intros [= <- <-]. split; [done|]. exists (pm_store m). by destruct m.
  - intros [= <- <-]. split; [done|]. exists (pm_store m). by destruct m.
Qed.

Lemma prune_loop_ok ids m : pm_ok m -> pm_ok (prune_loop ids m).
Proof.
  revert m. induction ids as [|id ids IH]; intros m Hm; simpl; [done|]. destruct (_ <=? _); [done|].
  destruct (bool_decide (id ∈ pm_dialing m)); [by apply IH|]. destruct (bool_decide (id ∈ pm_connected m)) eqn:Hc; [by apply IH|].
  apply IH, pm_ok_store; [done|]. apply Delete_ok; [apply Hm|]. by apply bool_decide_eq_false in Hc.
Qed.
Lemma keeps_prune e : env_ok e -> st_keeps pm_ok (prunePeers e).
Proof. intros He. unfold prunePeers. st_tac; [by apply keeps_ranked|]. apply st_keeps_change. intros m. apply prune_loop_ok. Qed.

Lemma get_or_new_wp id m : pm_ok m ->
  st_wp (get_or_new id) m (fun p m' => pm_ok m' /\ (exists s, m' = set_store m s /\ ps_peers s = ps_peers (pm_store m)) /\
    (pi_ID p <> "" -> pi_ID p = id) /\
    (pi_ID p <> "" -> forall q, ps_peers (pm_store m) !! pi_ID p = Some q -> pi_ID q = pi_ID p)) pm_ok.
Proof.
  intros Hm. eapply wp_mono; [apply (wp_both _ _ _ (fun p m' => _) _ (wp_keeps _ _ _ (keeps_get id) Hm) (get_or_new_val id m))| |done].
  intros p m' [Hm' [[Hp ->]|(Hp & Hid & -> & _)]]; split_and!; try done.
  - exists (pm_store m). by destruct m.
  - intros Hne. destruct (so_keys _ _ (ok_store _ Hm) _ _ Hp) as [[]|[]]; done.
  - intros Hne q Hq. destruct (so_keys _ _ (ok_store _ Hm) _ _ Hp) as [[Hi _]|[]]; [|done]. rewrite Hi in Hq. congruence.
  - by eexists.
  - intros _ q Hq. congruence.
Qed.
Lemma save_peer_wp p m (Q : unit -> PeerManager -> Prop) : pm_ok m ->
  (pi_ID p <> "" -> forall q, ps_peers (pm_store m) !! pi_ID p = Some q -> pi_ID q = pi_ID p) ->
  (forall s, store_ok s (pm_connected m) -> pi_ID p <> "" -> in_order s (pi_ID p) ->
     (forall id, in_order (pm_store m) id -> in_order s id) -> Q tt (set_store m s)) ->
  st_wp (save_peer p) m Q pm_ok.
Proof.
  intros Hm Hq HQ. unfold save_peer. wp_tac; [|done]. destruct (decide (pi_ID p = "")) as [He|Hne].
  - exfalso. match goal with H : peerStore_Set _ _ = _ |- _ => unfold peerStore_Set, peerInfo_Validate in H; inv_val end.
    match goal with H : bool_decide _ = false |- _ => apply bool_decide_eq_false in H end. done.
  - match goal with H : peerStore_Set _ _ = _ |- _ => destruct (Set_ok _ _ _ _ (ok_store _ Hm) (Hq Hne) H) as (? & ? & ? & _) end. auto.
Qed.

Lemma pm_ok_map m r addrs : pm_ok m -> pm_ok (set_store m (with_map (pm_store m) r addrs)).
Proof. intros Hm. apply pm_ok_store; [done|]. apply store_ok_maps, Hm. Qed.

Lemma keeps_Add e a : env_ok e -> st_keeps pm_ok (Add e a).
Proof.
  intros He. apply keeps_wp. intros m Hm. unfold Add. wp_tac; try done. eapply wp_mono; [by apply get_or_new_wp| |done].
  intros p m1 (Hm1 & (s1 & -> & Hs1) & _ & Hq). wp_tac. wp_case; [by wp_tac|]. wp_case; wp_tac; [|done].
  apply save_peer_wp; [by apply pm_ok_map|simpl; by rewrite Hs1|]. intros s Hs _ _ _. wp_tac.
  eapply wp_mono; [apply wp_keeps; [by apply keeps_prune|]|done|done]. apply pm_ok_store; [by apply pm_ok_map|done].
Qed.

(** *** Dialing *)

Lemma find_elem {A} (f : A -> bool) l x : List.find f l = Some x -> x ∈ l /\ f x = true.
Proof. intros [Hin Hf]%find_some. split; [by apply list_elem_of_In|done]. Qed.

Lemma candidate_loop_val m score l id : candidate_loop m score l = id -> id <> "" ->
  exists p, p ∈ l /\ pi_ID p = id /\ Score (pm_store m) p < score /\ id ∈ pm_connected m /\ (id ∉ pm_evict m) /\ (id ∉ pm_evicting m) /\ upgrading_to m id = "".
Proof.
  induction l as [|p l IH]; simpl; [naive_solver|]. rewrite Z.geb_leb. destruct (Z.leb_spec score (Score (pm_store m) p)); [naive_solver|].
  repeat case_bool_decide; simpl; intros <- Hne;
    try (destruct (IH eq_refl Hne) as (q & Hq & ?); exists q; split; [by right|done]).
  exists p. split; [by left|]. done.
Qed.

(** What an upgrade may replace. *)
Definition replaceable (m : PeerManager) (id from : NodeID) (score : Z) : Prop :=
  pm_upgrading m !! from = Some id \/
  (from ∈ pm_connected m /\ (from ∉ pm_evict m) /\ (from ∉ pm_evicting m) /\ upgrading_to m from = "" /\
   exists p, ps_peers (pm_store m) !! from = Some p /\ Score (pm_store m) p < score).

Lemma ranked_wp e m Q F : env_ok e -> pm_ok m ->
  (forall m', same_but_rank m m' -> pm_ok m' -> (forall p, p ∈ (Ranked e (pm_store m)).2 -> exists id, ps_peers (pm_store m) !! id = Some p) ->
     Q (Ranked e (pm_store m)).2 m') ->
  st_wp (ranked_peers e) m Q F.
Proof.
  intros He Hm HQ. destruct (ranked_peers_run e m) as (m' & Hr & Heq & Hsame). unfold st_wp. rewrite Hr. apply HQ; [done| |].
  - rewrite Heq. by apply ranked_ok.
  - intros p. eapply Ranked_elem; [done|apply Hm].
Qed.
Lemma same_but_rank_score m r p : Score (pm_store (set_store m (with_peers (pm_store m) (ps_peers (pm_store m)) r))) p = Score (pm_store m) p.
Proof. done. Qed.

Lemma connected_peer m id k p : pm_ok m -> id ∈ pm_connected m -> ps_peers (pm_store m) !! k = Some p -> pi_ID p = id -> ps_peers (pm_store m) !! id = Some p.
Proof.
  intros Hm Hid Hk Hp. destruct (so_connected _ _ (ok_store _ Hm) id Hid) as (Hne & _).
  destruct (so_keys _ _ (ok_store _ Hm) _ _ Hk) as [[Hi _]|[Hi _]]; congruence.
Qed.

Lemma findUpgrade_wp e id score m (Q : NodeID -> PeerManager -> Prop) F : env_ok e -> pm_ok m ->
  (forall m' from, same_but_rank m m' -> pm_ok m' -> (from <> "" -> replaceable m id from score) -> Q from m') ->
  st_wp (findUpgradeCandidate e id score) m Q F.
Proof.
  intros He Hm HQ. unfold findUpgradeCandidate. wp_tac. wp_case.
  - destruct p as [from to]. wp_tac. apply HQ; [by exists (ps_ranked (pm_store m)); destruct m as [??[]]|done|].
    intros _. left. match goal with H : List.find _ _ = _ |- _ => apply find_elem in H as [Hin Hto] end.
    apply bool_decide_eq_true in Hto as ->. rewrite (env_upgrades_perm e He) in Hin. by apply elem_of_map_to_list in Hin.
  - wp_tac. apply ranked_wp; [done..|]. intros m' Hsame Hm' Hr. wp_tac. apply HQ; [done|done|]. intros Hne. right.
    destruct (candidate_loop_val _ _ _ _ eq_refl Hne) as (p & Hp & Hid & Hsc & Hc & He1 & He2 & Hu).
    destruct Hsame as [r ->]. simpl in *. rewrite elem_of_reverse in Hp. destruct (Hr p Hp) as [k Hk].
    split_and!; try done. exists p. split; [|done]. by eapply connected_peer.
Qed.

(** An address whose retry delay has passed. *)
Definition can_retry (e : Env) (m : PeerManager) (p : peerInfo) (address : NodeAddress) : Prop :=
  exists k a, addresses_of (pm_store m) p !! k = Some a /\ ai_Address a = address /\
    retryDelay (pm_options m) (ai_DialFailures a) (pi_Persistent p) (env_jitter e address) <= clip64 (env_now e - ai_LastDialFailure a).
Lemma eligible_val e m p address : eligible_address e m p = Some address -> can_retry e m p address.
Proof.
  unfold eligible_address. destruct (List.find _ _) as [a|] eqn:Hf; [|done]. intros [= <-]. apply find_elem in Hf as [Hin Hr].
  apply list_elem_of_omap in Hin as (k & _ & Hk). exists k, a. split_and!; [done..|]. unfold retry_passed in Hr. inv_val. z_bool. lia.
Qed.

(** What [TryDialNext] decides when it returns an address. *)
Definition dial_decision (e : Env) (m m' : PeerManager) (address : NodeAddress) : Prop :=
  exists id p, ps_peers (pm_store m) !! id = Some p /\ pi_ID p = id /\ can_retry e m p address /\
    (id ∉ pm_dialing m) /\ (id ∉ pm_connected m) /\ pm_dialing m' = {[ id ]} ∪ pm_dialing m /\
    pm_connected m' = pm_connected m /\ pm_evict m' = pm_evict m /\ pm_evicting m' = pm_evicting m /\ pm_ready m' = pm_ready m /\
    (if full m then exists from q, from ∈ pm_connected m /\ (from ∉ pm_evict m) /\ (from ∉ pm_evicting m) /\ upgrading_to m from = "" /\
                    ps_peers (pm_store m) !! from = Some q /\ Score (pm_store m) q < Score (pm_store m) p /\
                    pm_upgrading m' = <[from := id]> (pm_upgrading m)
     else pm_upgrading m' = pm_upgrading m).

Lemma pm_ok_dial m id u : pm_ok m -> (id ∉ pm_dialing m) ->
  (u = pm_upgrading m \/ exists from, from ∈ pm_connected m /\ u = <[from := id]> (pm_upgrading m)) ->
  pm_ok (set_dialing m ({[ id ]} ∪ pm_dialing m) u).
Proof.
  intros Hm Hid Hu. pose proof Hm as []. split; simpl; try done.
  - intros from to Hft. destruct Hu as [->|(f & Hf & ->)].
    + destruct (ok_upgrading0 _ _ Hft). set_solver.
    + apply lookup_insert_Some in Hft as [[<- <-]|[_ Hft]]; [set_solver|]. destruct (ok_upgrading0 _ _ Hft). set_solver.
  - destruct Hu as [->|(f & Hf & ->)]; [done|]. intros f1 f2 to H1 H2.
    apply lookup_insert_Some in H1 as [[E1 T1]|[Hn1 H1]], H2 as [[E2 T2]|[Hn2 H2]]; subst; try done.
    + by destruct (ok_upgrading0 _ _ H2).
    + by destruct (ok_upgrading0 _ _ H1).
    + by eapply ok_claims0.
Qed.

Lemma eligible_in_order e m k p address : pm_ok m -> ps_peers (pm_store m) !! k = Some p -> eligible_address e m p = Some address ->
  pi_ID p = k.
Proof.
  intros Hm Hk (k' & a & Ha & _)%eligible_val. destruct (so_keys _ _ (ok_store _ Hm) _ _ Hk) as [[? _]|[_ Hn]]; [done|].
  unfold addresses_of in Ha. rewrite Hn in Ha. simpl in Ha. by rewrite lookup_empty in Ha.
Qed.

Lemma dial_loop_wp e peers m : env_ok e -> pm_ok m -> (forall p, p ∈ peers -> exists k, ps_peers (pm_store m) !! k = Some p) ->
  st_wp (dial_loop e peers) m (fun r m' => pm_ok m' /\ match r with Some address => dial_decision e m m' address | None => pm_connected m' = pm_connected m end) pm_ok.
Proof.
  intros He Hm. induction peers as [|p peers IH]; intros Hp; cbn [dial_loop]; wp_tac; [done|].
  assert (IH' := IH ltac:(intros q Hq; apply Hp; by right)). wp_case; [done|]. wp_case; [|done].
  match goal with H : eligible_address _ _ _ = Some ?a |- _ => rename a into address, H into Hel end.
  match goal with H : _ || _ = false |- _ => apply orb_false_iff in H as [Hd Hc] end.
  apply bool_decide_eq_false in Hd, Hc. destruct (Hp p) as [k Hk]; [by left|].
  pose proof (eligible_in_order _ _ _ _ _ Hm Hk Hel) as Hid. apply eligible_val in Hel. rewrite Hid in *. wp_case.
  - wp_tac. apply findUpgrade_wp; [done..|]. intros m' from [r ->] Hm' Hrep. wp_case; [by wp_tac|].
    match goal with H : bool_decide _ = false |- _ => apply bool_decide_eq_false in H; rename H into Hne end.
    unfold dial. wp_tac. destruct (Hrep Hne) as [Hcl|(Hf & Hf1 & Hf2 & Hf3 & q & Hq & Hsc)].
    { by destruct (ok_upgrading _ Hm _ _ Hcl). }
    split; [apply (pm_ok_dial _ _ _ Hm'); [done|right; eauto]|].
    exists k, p. match goal with H : full m = true |- _ => rewrite H end. split_and!; try done. exists from, q. done.
  - unfold dial. wp_tac. split; [apply (pm_ok_dial _ _ _ Hm); auto|].
    exists k, p. match goal with H : full m = false |- _ => rewrite H end. done.
Qed.

Lemma TryDialNext_wp e m : env_ok e -> pm_ok m ->
  st_wp (TryDialNext e) m (fun r m' => pm_ok m' /\ match r with Some address => dial_decision e m m' address | None => pm_connected m' = pm_connected m end) pm_ok.
Proof.
  intros He Hm. unfold TryDialNext. wp_tac. wp_case; [by wp_tac|]. wp_tac. apply ranked_wp; [done..|]. intros m' [r ->] Hm' Hr.
  apply (dial_loop_wp e _ _ He Hm'). done.
Qed.

Lemma stop_dialing_ok m id : pm_ok m -> pm_ok (stop_dialing m id).
Proof.
  intros Hm. pose proof Hm as []. split; simpl; try done.
  - intros from to [Hft Hne]%map_lookup_filter_Some. simpl in Hne. destruct (ok_upgrading0 _ _ Hft). set_solver.
  - intros f1 f2 to [H1 _]%map_lookup_filter_Some [H2 _]%map_lookup_filter_Some. by eapply ok_claims0.
Qed.

Lemma stored_same_id m id p (q : peerInfo) : pm_ok m -> ps_peers (pm_store m) !! id = Some p -> pi_ID p <> "" -> pi_ID p = id /\
  (forall q, ps_peers (pm_store m) !! pi_ID p = Some q -> pi_ID q = pi_ID p).
Proof.
  intros Hm Hp Hne. destruct (so_keys _ _ (ok_store _ Hm) _ _ Hp) as [[Hi _]|[Hi _]]; [|done]. rewrite Hi. split; [done|]. intros; congruence.
Qed.

Lemma keeps_DialFailed e a : st_keeps pm_ok (DialFailed e a).
Proof.
  apply keeps_wp. intros m Hm. unfold DialFailed. wp_tac. pose proof (stop_dialing_ok m (na_NodeID a) Hm) as Hs. wp_case; [|by wp_tac].
  match goal with H : ps_peers _ !! _ = Some ?p |- _ => rename H into Hp, p into peer end.
  wp_case; [|by wp_tac]. wp_case; [|by wp_tac]. wp_tac. apply save_peer_wp; [by apply pm_ok_map|..].
  - intros Hne q Hq. by apply (stored_same_id _ _ peer peer Hs Hp Hne).
  - intros s Hst _ _ _. by apply pm_ok_store; [apply pm_ok_map|].
Qed.

Lemma pm_ok_connect m id : pm_ok m -> in_order (pm_store m) id -> id <> pm_selfID m -> id ∉ pm_connected m ->
  (0 < MaxConnected (pm_options m) -> Z.of_nat (size (pm_connected m)) < MaxConnected (pm_options m) + MaxConnectedUpgrade (pm_options m)) ->
  pm_ok (set_connected m ({[ id ]} ∪ pm_connected m)).
Proof.
  intros Hm Hin Hself Hnew Hroom. pose proof Hm as []. split; simpl; try done; try (etrans; [eassumption|apply union_subseteq_r]).
  - intros Hpos. rewrite size_union by (apply disjoint_singleton_l; done). rewrite size_singleton. specialize (Hroom Hpos). lia.
  - rewrite not_elem_of_union, not_elem_of_singleton. done.
  - intros from to Hft. destruct (ok_upgrading0 _ _ Hft). split; [by apply elem_of_union_r|done].
  - by apply store_ok_add.
Qed.

(** A connection that is added: who, and who has to go for it. *)
Definition connects (m m' : PeerManager) (id : NodeID) : Prop :=
  id <> pm_selfID m /\ (id ∉ pm_connected m) /\ pm_connected m' = {[ id ]} ∪ pm_connected m /\ pm_evicting m' = pm_evicting m /\
  (if full m then exists victim, victim ∈ pm_connected m /\ pm_evict m' = {[ victim ]} ∪ pm_evict m else pm_evict m' = pm_evict m).

Lemma limit_room m :
  (0 < MaxConnected (pm_options m) -> Z.of_nat (size (pm_connected m)) < MaxConnected (pm_options m) + MaxConnectedUpgrade (pm_options m)) <->
  ((MaxConnected (pm_options m) >? 0) && (Z.of_nat (size (pm_connected m)) >=? MaxConnected (pm_options m) + MaxConnectedUpgrade (pm_options m)) = false).
Proof.
  rewrite Z.gtb_ltb, Z.geb_leb. destruct (Z.ltb_spec 0 (MaxConnected (pm_options m))); cbn [andb].
  - rewrite Z.leb_gt. split; auto.
  - split; [done|lia].
Qed.

Lemma keeps_evict_victim m v : pm_ok m -> v ∈ pm_connected m -> pm_ok (set_evict m ({[ v ]} ∪ pm_evict m) (pm_evicting m)).
Proof. intros Hm Hv. pose proof (ok_evict _ Hm). apply pm_ok_evict; [done| |apply Hm]. apply union_least; [by apply singleton_subseteq_l|done]. Qed.

Lemma replaceable_connected m id from score : pm_ok m -> replaceable m id from score -> from ∈ pm_connected m.
Proof. intros Hm [Hu|(Hf & _)]; [|done]. by destruct (ok_upgrading _ Hm _ _ Hu). Qed.

Lemma Accepted_wp e id m : env_ok e -> pm_ok m ->
  st_wp (Accepted e id) m (fun _ m' => pm_ok m' /\ connects m m' id) pm_ok.
Proof.
  intros He Hm. unfold Accepted. wp_tac; try done.
  repeat match goal with H : bool_decide _ = false |- _ => apply bool_decide_eq_false in H end.
  match goal with H : _ && _ = false |- _ => pose proof (proj2 (limit_room m) H) as Hroom end.
  eapply wp_mono; [by apply get_or_new_wp| |done]. intros p m1 (Hm1 & (s1 & -> & Hs1) & Hid & Hq). wp_tac.
  set (m2 := match pi_AddressInfo p with Some _ => _ | None => _ end).
  assert (Hm2 : pm_ok m2 /\ exists s2, m2 = set_store m s2 /\ ps_peers s2 = ps_peers (pm_store m)).
  { unfold m2. destruct (pi_AddressInfo p); [|by eauto]. split; [by apply pm_ok_map|by eexists]. }
  destruct Hm2 as (Hm2 & s2 & E2 & Hs2). rewrite E2 in *. clear m2 E2.
  assert (Hfin : forall from s3, pm_ok (set_store m s3) -> ps_peers s3 = ps_peers (pm_store m) ->
    (if full m then from <> "" /\ from ∈ pm_connected m else from = "") ->
    st_wp (_ ← save_peer (set_LastConnected p (env_now e)); _ ← change (fun m => set_connected m ({[ id ]} ∪ pm_connected m));
      st_when (negb (bool_decide (from = ""))) (change (fun m => set_evict m ({[ from ]} ∪ pm_evict m) (pm_evicting m))))
      (set_store m s3) (fun _ m' => pm_ok m' /\ connects m m' id) pm_ok).
  { intros from s3 Hm3 Hs3 Hf. wp_tac. apply save_peer_wp; [done|simpl; by rewrite Hs3|]. intros s4 Hst Hne Hin _. simpl in *.
    specialize (Hid Hne). rewrite Hid in Hin.
    assert (Hc : pm_ok (set_connected (set_store (set_store m s3) s4) ({[ id ]} ∪ pm_connected m))).
    { apply (pm_ok_connect (set_store (set_store m s3) s4)); try done. by apply pm_ok_store. }
    wp_tac. apply wp_when; intros Hb; wp_tac.
    - destruct (full m) eqn:Hfull; [|by subst from; rewrite bool_decide_eq_true_2 in Hb]. destruct Hf as [_ Hf]. simpl.
      split; [apply (keeps_evict_victim _ _ Hc); by apply elem_of_union_r|]. unfold connects. rewrite Hfull. split_and!; try done. by exists from.
    - destruct (full m) eqn:Hfull; [destruct Hf as [Hf _]; by rewrite bool_decide_eq_false_2 in Hb|].
      split; [done|]. unfold connects. rewrite Hfull. done. }
  wp_case; wp_tac.
  - apply findUpgrade_wp; [done..|]. intros m' from [r ->] Hm' Hrep. wp_tac; [done|]. apply wp_bind_inv, Hfin; [done..|].
    match goal with H : bool_decide _ = false |- _ => apply bool_decide_eq_false in H; rename H into Hne end.
    split; [done|]. apply (replaceable_connected (set_store m s2) _ _ _ Hm2 (Hrep Hne)).
  - by apply wp_bind_inv, Hfin.
Qed.

Lemma claimed_connected e m id : env_ok e -> pm_ok m -> claimed_for e m id <> "" -> claimed_for e m id ∈ pm_connected m.
Proof.
  intros He Hm. unfold claimed_for. destruct (last _) as [[f t]|] eqn:Hla; [|done]. intros _.
  apply last_Some_elem_of, list_elem_of_In, filter_In in Hla as [Hin%list_elem_of_In Ht].
  rewrite (env_upgrades_perm e He) in Hin. apply elem_of_map_to_list in Hin. by destruct (ok_upgrading _ Hm _ _ Hin).
Qed.

Lemma Dialed_wp e a m : env_ok e -> pm_ok m ->
  st_wp (Dialed e a) m (fun _ m' => pm_ok m' /\ connects m m' (na_NodeID a)) pm_ok.
Proof.
  intros He Hm. unfold Dialed. pose proof (claimed_connected e m (na_NodeID a) He Hm) as Hfrom.
  pose proof (stop_dialing_ok m (na_NodeID a) Hm) as Hs. wp_tac; try done. set (from := claimed_for e m (na_NodeID a)) in *.
  repeat match goal with H : bool_decide _ = false |- _ => apply bool_decide_eq_false in H end.
  match goal with H : full m && _ = false |- _ => rename H into Hlim end.
  assert (Hroom : 0 < MaxConnected (pm_options m) -> Z.of_nat (size (pm_connected m)) < MaxConnected (pm_options m) + MaxConnectedUpgrade (pm_options m)).
  { intros Hpos. destruct (ok_options _ Hm) as [_ Hu]. destruct (full m) eqn:Hfull.
    - cbn [andb] in Hlim. apply orb_false_iff in Hlim as [_ Hlim]. z_bool. lia.
    - unfold full in Hfull. rewrite (proj2 (Z.gtb_lt _ _) Hpos) in Hfull. cbn [andb] in Hfull. z_bool. lia. }
  wp_case; [|by wp_tac]. match goal with H : ps_peers _ !! _ = Some ?p |- _ => rename H into Hp, p into peer end.
  wp_tac. eapply (wp_mono _ _ (fun _ m2 => exists s2, m2 = set_store (stop_dialing m (na_NodeID a)) s2 /\ pm_ok m2 /\ ps_peers s2 = ps_peers (pm_store m))
    _ _ pm_ok); [|intros [] m2 (s2 & -> & Hm2 & Hs2)|done].
  { wp_case; [wp_case|]; wp_tac; try (eexists; split; [reflexivity|split; [by apply pm_ok_map|done]]);
      exists (pm_store m); split; by try destruct m. }
  wp_tac. apply save_peer_wp; [done| |].
  { intros Hne q. simpl. rewrite Hs2. by apply (stored_same_id _ _ peer peer Hm Hp Hne). }
  intros s3 Hst Hne Hin Hmono. simpl in *. destruct (stored_same_id _ _ peer peer Hm Hp Hne) as [Hid _].
  set (m3 := set_store _ s3). assert (Hm3 : pm_ok m3) by (by apply pm_ok_store). rewrite Hid in *.
  assert (Hroom3 : pm_connected m3 = pm_connected m /\ pm_evict m3 = pm_evict m /\ pm_evicting m3 = pm_evicting m /\ pm_selfID m3 = pm_selfID m /\
    pm_options m3 = pm_options m /\ in_order (pm_store m3) (na_NodeID a)) by done.
  clearbody m3. destruct Hroom3 as (C3 & V3 & G3 & S3 & O3 & I3).
  assert (Hconn : forall m4, pm_ok m4 -> pm_connected m4 = pm_connected m -> pm_selfID m4 = pm_selfID m -> pm_options m4 = pm_options m ->
    in_order (pm_store m4) (na_NodeID a) -> pm_ok (set_connected m4 ({[ na_NodeID a ]} ∪ pm_connected m4))).
  { intros m4 Hm4 C4 S4 O4 I4. apply pm_ok_connect; [done|done| | |]; rewrite ?C4, ?S4, ?O4; done. }
  wp_tac. wp_case.
  - match goal with H : _ && full m = true |- _ => apply andb_true_iff in H as [Hf Hfull] end.
    apply negb_true_iff, bool_decide_eq_false in Hf. wp_tac.
    eapply (wp_mono _ _ (fun u m4 => same_but_rank m3 m4 /\ pm_ok m4 /\ (u <> "" -> u ∈ pm_connected m)) _ _ pm_ok); [| |done].
    { wp_case; [|wp_tac; split_and!; try done; exists (ps_ranked (pm_store m3)); by destruct m3 as [??[]]].
      apply findUpgrade_wp; [done..|]. intros m4 u Hsame Hm4 Hrep. split_and!; try done. intros Hu. rewrite <- C3.
      eapply replaceable_connected; [exact Hm3|]. by apply Hrep. }
    intros u m4 ([r ->] & Hm4 & Hu). wp_tac.
    assert (Hv : (if bool_decide (u = "") then from else u) ∈ pm_connected m).
    { destruct (decide (u = "")); [rewrite bool_decide_eq_true_2 by done; by apply Hfrom|rewrite bool_decide_eq_false_2 by done; by apply Hu]. }
    split.
    + apply Hconn; [|exact C3|exact S3|exact O3|exact I3]. apply (keeps_evict_victim _ _ Hm4). simpl. by rewrite C3.
    + unfold connects. rewrite Hfull. simpl. rewrite C3, G3, V3. split_and!; try done. eexists. split; [|reflexivity]. done.
  - wp_tac. split; [by apply Hconn|]. unfold connects. destruct (full m) eqn:Hfull; simpl; [|by rewrite C3, G3, V3].
    exfalso. cbn [andb] in Hlim. apply orb_false_iff in Hlim as [Hl _]. 
    match goal with H : negb _ && true = false |- _ => rewrite Hl in H; done end.
Qed.

(** *** Connected peers *)

Lemma last_status_snoc l u id : last_status (l ++ [u]) id = if bool_decide (pu_NodeID u = id) then Some (pu_Status u) else last_status l id.
Proof.
  unfold last_status. rewrite List.filter_app. cbn [List.filter]. destruct (bool_decide (pu_NodeID u = id)).
  - by rewrite last_snoc.
  - by rewrite app_nil_r.
Qed.

Lemma keeps_Ready id ch : st_keeps pm_ok (Ready id ch).
Proof.
  apply keeps_wp. intros m Hm. unfold Ready. wp_tac. apply wp_when; intros Hc; wp_tac; [|done]. apply bool_decide_eq_true in Hc.
  pose proof Hm as []. split; simpl; try done.
  - apply union_least; [by apply singleton_subseteq_l|done].
  - intros k. rewrite last_status_snoc. cbn [pu_NodeID pu_Status]. rewrite elem_of_union, elem_of_singleton, <- ok_status0.
    clear. case_bool_decide; naive_solver.
Qed.

Lemma keeps_Disconnected id : st_keeps pm_ok (Disconnected id).
Proof.
  apply keeps_wp. intros m Hm. unfold Disconnected. wp_tac.
  set (m1 := set_ready _ _). pose proof Hm as [Ho Hl Hs Hr He Hg Hu Hcl Hst Hls].
  assert (Hm1 : forall log, (forall k, last_status log k = Some PeerStatusUp <-> k ∈ pm_ready m ∖ {[ id ]}) ->
    pm_ok (mkPeerManager (pm_selfID m1) (pm_options m1) (pm_store m1) (pm_dialing m1) (pm_upgrading m1) (pm_connected m1) (pm_ready m1) (pm_evict m1) (pm_evicting m1) log)).
  { intros log Hlog. unfold m1. split; simpl; try done; try (by apply difference_mono_r).
    - intros Hpos. pose proof (subseteq_size (pm_connected m ∖ {[ id ]}) (pm_connected m) (subseteq_difference_l _ _ _ (reflexivity _))).
      specialize (Hl Hpos). lia.
    - intros [? _]%elem_of_difference. done.
    - intros from to [Hne Hft]%lookup_delete_Some. destruct (Hu _ _ Hft). split; [|done]. apply elem_of_difference. split; [done|].
      by rewrite elem_of_singleton.
    - intros f1 f2 to [_ H1]%lookup_delete_Some [_ H2]%lookup_delete_Some. by eapply Hcl.
    - apply (store_ok_sub _ _ _ Hst). by apply subseteq_difference_l. }
  apply wp_when; intros Hb; wp_tac.
  - apply (Hm1 (pm_updates m ++ [_])). intros k. rewrite last_status_snoc. cbn [pu_NodeID pu_Status]. rewrite elem_of_difference, elem_of_singleton, <- Hls.
    clear. case_bool_decide; naive_solver.
  - apply (Hm1 (pm_updates m)). intros k. rewrite elem_of_difference, elem_of_singleton, <- Hls.
    apply bool_decide_eq_false in Hb. split; [|by intros []]. intros Hk. split; [done|]. intros ->. apply Hb. by apply Hls.
Qed.

Lemma keeps_Errored id : st_keeps pm_ok (Errored id).
Proof.
  apply keeps_wp. intros m Hm. unfold Errored. wp_tac. apply wp_when; intros Hc; wp_tac; [|done]. apply bool_decide_eq_true in Hc.
  by apply keeps_evict_victim.
Qed.

Lemma in_order_insert s id p q k r : ps_peers s !! id = Some p -> pi_ID q = pi_ID p ->
  in_order (with_peers s (<[id := q]> (ps_peers s)) r) k <-> in_order s k.
Proof.
  intros Hp Hi. unfold in_order. simpl. destruct (decide (id = k)) as [->|Hne]; [rewrite lookup_insert_eq|by rewrite lookup_insert_ne].
  rewrite Hp. split; intros (? & ? & [= <-] & ?); (split; [done|]); eexists; (split; [done|]); congruence.
Qed.
Lemma keeps_processPeerEvent pu : st_keeps pm_ok (processPeerEvent pu).
Proof.
  apply keeps_wp. intros m Hm. unfold processPeerEvent. wp_tac. apply pm_ok_store; [done|]. set (id := pu_NodeID pu). set (s := pm_store m).
  destruct (ok_store _ Hm) as [Hk Hc Hr]. fold s in Hk, Hc, Hr.
  assert (Hid : forall p, pi_ID (match pu_Status pu with PeerStatusBad => add_mutable p (-1) | PeerStatusGood => add_mutable p 1 | _ => p end) = pi_ID p
    /\ pi_AddressInfo (match pu_Status pu with PeerStatusBad => add_mutable p (-1) | PeerStatusGood => add_mutable p 1 | _ => p end) = pi_AddressInfo p)
    by (intros; by destruct (pu_Status pu)).
  set (q := match pu_Status pu with PeerStatusBad => _ | PeerStatusGood => _ | _ => _ end). destruct (Hid (default zero_peer (ps_peers s !! id))) as [Hq1 Hq2].
  fold q in Hq1, Hq2. destruct (ps_peers s !! id) as [p|] eqn:Hp; simpl in Hq1, Hq2.
  - split; simpl.
    + intros k x. destruct (decide (id = k)) as [<-|]; [rewrite lookup_insert_eq; intros [= <-]; rewrite Hq1, Hq2; by apply Hk|].
      rewrite lookup_insert_ne by done. apply Hk.
    + intros k Hk'. by apply (in_order_insert s id p q k _ Hp Hq1), Hc.
    + intros l (Hnd & Hsub & Hall)%Hr. split_and!; [done| |].
      * intros k Hin. apply lookup_insert_is_Some'. by right; apply Hsub.
      * intros k Hin. apply Hall. by apply (in_order_insert s id p q k (ps_ranked s) Hp Hq1).
  - split; simpl.
    + intros k x. destruct (decide (id = k)) as [<-|]; [rewrite lookup_insert_eq; intros [= <-]; by right|]. rewrite lookup_insert_ne by done. apply Hk.
    + intros k Hk'. destruct (Hc k Hk') as (Hne & x & Hx & Hi). split; [done|]. exists x. simpl. by rewrite lookup_insert_ne by congruence.
    + intros l (Hnd & Hsub & Hall)%Hr. split_and!; [done| |].
      * intros k Hin. apply lookup_insert_is_Some'. by right; apply Hsub.
      * intros k (Hne & x & Hx & Hi). simpl in Hx. apply lookup_insert_Some in Hx as [[<- <-]|[Hn Hx]]; [congruence|]. apply Hall. split; [done|]. eauto.
Qed.

Lemma keeps_SetHeight id h : st_keeps pm_ok (SetHeight id h).
Proof.
  apply keeps_wp. intros m Hm. unfold SetHeight. wp_tac. eapply wp_mono; [by apply get_or_new_wp| |done].
  intros p m1 (Hm1 & (s1 & -> & Hs1) & _ & Hq). apply save_peer_wp; [done|simpl; by rewrite Hs1|]. intros s Hs _ _ _. by apply pm_ok_store.
Qed.
Lemma keeps_Advertise e id limit : env_ok e -> st_keeps pm_ok (Advertise e id limit).
Proof. intros He. unfold Advertise. st_tac. by apply keeps_ranked. Qed.

(** *** Eviction *)

Lemma evict_loop_spec ids m m' r : evict_loop ids m = (m', r) -> exists ev evg, m' = set_evict m ev evg /\ ev ⊆ pm_evict m /\
  match r with
  | Some id => id ∈ ids /\ id ∈ pm_connected m /\ (id ∉ pm_evicting m) /\ evg = {[ id ]} ∪ pm_evicting m
  | None => ev = pm_evict m ∖ list_to_set ids /\ evg = pm_evicting m
  end.
Proof.
  revert m. induction ids as [|id ids IH]; intros m Hr; cbn [evict_loop] in Hr.
  - injection Hr as <- <-. exists (pm_evict m), (pm_evicting m). split_and!; [by destruct m|done|set_solver|done].
  - cbv zeta in Hr. destruct (bool_decide (id ∈ _) && bool_decide (id ∉ _)) eqn:Hb.
    + injection Hr as <- <-. apply andb_true_iff in Hb as [Hc%bool_decide_eq_true He%bool_decide_eq_true]. simpl in *.
      eexists _, _. split; [reflexivity|]. split; [set_solver|]. split; [by left|done].
    + apply IH in Hr as (ev & evg & -> & Hsub & Hcase). simpl in *. exists ev, evg. split; [done|]. split; [set_solver|]. destruct r as [x|].
      * destruct Hcase as (? & ? & ? & ?). split; [by right|done].
      * destruct Hcase as [-> ->]. split; [set_solver|done].
Qed.

(** What [TryEvictNext] returns. *)
Definition evict_decision (m m' : PeerManager) (r : NodeID) : Prop :=
  pm_connected m' = pm_connected m /\
  (r <> "" -> r ∈ pm_connected m /\ (r ∉ pm_evicting m) /\ pm_evicting m' = {[ r ]} ∪ pm_evicting m) /\
  (r = "" -> pm_evict m' = ∅ /\ pm_evicting m' = pm_evicting m /\
     (MaxConnected (pm_options m) = 0 \/ Z.of_nat (size (pm_connected m)) - Z.of_nat (size (pm_evicting m)) <= MaxConnected (pm_options m))).

Lemma not_all_evicting (c g : gset NodeID) : g ⊆ c -> (size g < size c)%nat -> exists id, id ∈ c /\ id ∉ g.
Proof.
  intros Hsub Hlt. destruct (set_choose_L (c ∖ g)) as [id Hid]; [|exists id; set_solver].
  intros He. assert (Hcg : c ⊆ g) by set_solver. pose proof (subseteq_size c g Hcg). lia.
Qed.

Lemma connected_nonempty m id : pm_ok m -> id ∈ pm_connected m -> id <> "".
Proof. intros Hm Hid. by destruct (so_connected _ _ (ok_store _ Hm) id Hid). Qed.

Lemma TryEvictNext_wp e m F : env_ok e -> pm_ok m ->
  st_wp (TryEvictNext e) m (fun r m' => pm_ok m' /\ evict_decision m m' r) F.
Proof.
  intros He Hm. unfold TryEvictNext. wp_tac. destruct (evict_loop _ m) as [m1 r] eqn:Hl.
  apply evict_loop_spec in Hl as (ev & evg & -> & Hsub & Hcase). pose proof (ok_evict _ Hm) as Hev. pose proof (ok_evicting _ Hm) as Hevg.
  assert (Hm1 : pm_ok (set_evict m ev evg)).
  { apply pm_ok_evict; [done|by etrans|]. destruct r; [|by destruct Hcase as [_ ->]]. destruct Hcase as (_ & Hc & _ & ->).
    apply union_least; [by apply singleton_subseteq_l|done]. }
  wp_tac. destruct r as [id|]; wp_tac.
  - destruct Hcase as (_ & Hc & Hg & ->). split; [done|]. split; [done|]. split; [done|]. intros ->. by destruct (connected_nonempty m "" Hm Hc).
  - destruct Hcase as [Hee ->]. rewrite (env_ids_perm e He), list_to_set_elements_L, difference_diag_L in Hee. subst ev.
    destruct ((_ =? 0) || _) eqn:Hb; wp_tac.
    + split; [done|]. split; [done|]. split; [done|]. intros _. split_and!; [done..|]. apply orb_true_iff in Hb as [Hb|Hb]; z_bool; auto.
    + apply orb_false_iff in Hb as [Hb1 Hb2]. z_bool. apply ranked_wp; [done..|]. intros m2 [rk ->] Hm2 Hr. wp_tac. 
      destruct (not_all_evicting _ _ Hevg) as (id & Hid & Hng); [destruct (ok_options _ Hm); lia|].
      destruct (so_connected _ _ (ok_store _ Hm) id Hid) as (Hne & p & Hp & Hi).
      assert (Hin : p ∈ (Ranked e (pm_store m)).2) by (by apply (Ranked_has e (pm_store m) (pm_connected m) id p); [|apply Hm|split; eauto|]).
      wp_case; wp_tac; match goal with H : List.find _ _ = _ |- _ => rename H into Hf end.
      * apply find_elem in Hf as [Hq [Hc%bool_decide_eq_true Hg%bool_decide_eq_true]%andb_true_iff]. simpl in *.
        split; [apply (pm_ok_evict _ _ _ Hm2); [apply empty_subseteq|apply union_least; [by apply singleton_subseteq_l|done]]|].
        split; [done|]. split; [done|]. intros Hq'. rewrite Hq' in Hc. by destruct (connected_nonempty m "" Hm Hc).
      * exfalso. rewrite <- elem_of_reverse, list_elem_of_In in Hin. apply (find_none _ _ Hf p) in Hin. simpl in Hin. rewrite Hi in Hin.
        by rewrite !bool_decide_eq_true_2 in Hin.
Qed.

(** *** Construction *)

Lemma loadPeers_ok msgs s s' : loadPeers msgs s = Val s' -> ps_ranked s = None -> store_ok s ∅ -> store_ok s' ∅.
Proof.
  revert s. induction msgs as [|msg msgs IH]; intros s Hl Hn Hs; cbn [loadPeers] in Hl; [by injection Hl as <-|].
  inv_val. match goal with H : loadPeers _ _ = _ |- _ => apply IH in H; [done|done|] end.
  match goal with H : peerInfo_Validate _ = _ |- _ => unfold peerInfo_Validate in H; inv_val end.
  match goal with H : bool_decide _ = false |- _ => apply bool_decide_eq_false in H; rename H into Hne end.
  destruct Hs as [Hk Hc Hr]. split; simpl; [|set_solver|done]. intros id p [[<- <-]|[_ Hp]]%lookup_insert_Some; [by left|by apply Hk].
Qed.

Lemma configure_keeps_id o p p' : configurePeer o p = Val p' -> pi_ID p' = pi_ID p.
Proof. unfold configurePeer. intros Hv. inv_val. done. Qed.
Lemma keeps_configure_each ids : st_keeps pm_ok (configure_each ids).
Proof.
  induction ids as [|id ids IH]; [apply st_keeps_ret|]. apply keeps_wp. intros m Hm. cbn [configure_each]. wp_tac.
  eapply (wp_mono _ _ (fun _ => pm_ok) _ _ pm_ok); [|intros _ m' Hm'; by apply wp_keeps|done]. wp_case; [|by wp_tac].
  wp_tac; [|done]. match goal with H : lift _ = Val _ |- _ => apply lift_val, configure_keeps_id in H; rename H into Hi end.
  match goal with H : ps_peers _ !! id = Some _ |- _ => rename H into Hp end.
  apply save_peer_wp; [done| |intros s Hs _ _ _; by apply pm_ok_store].
  rewrite Hi. intros Hne. by apply (stored_same_id m id _ p Hm Hp).
Qed.

Lemma NewPeerManager_ok e self msgs o m : env_ok e -> 0 <= MaxConnected o -> 0 <= MaxConnectedUpgrade o ->
  NewPeerManager e self msgs o = Val m -> pm_ok m.
Proof.
  intros He Hc Hu Hn. unfold NewPeerManager in Hn. inv_val.
  match goal with H : newPeerStore _ = Val ?s |- _ => rename s into st, H into Hst end.
  set (m0 := mkPeerManager self (optimize o) st ∅ ∅ ∅ ∅ ∅ ∅ []) in *.
  assert (Hm0 : pm_ok m0).
  { split; try done; try (simpl; set_solver).
    - intros _. change (pm_connected m0) with (∅ : gset NodeID). rewrite size_empty. change (pm_options m0) with (optimize o). simpl. lia.
    - apply (loadPeers_ok _ _ _ Hst eq_refl). split; simpl; [by intros ??; rewrite lookup_empty|set_solver|done]. }
  assert (Hk : st_keeps pm_ok (_ ← configurePeers e; prunePeers e)).
  { unfold configurePeers. st_tac; [|by apply keeps_configure_each|by apply keeps_prune]. 
    apply st_keeps_change. intros x Hx. apply pm_ok_store; [done|]. apply Delete_ok; apply Hx. }
  specialize (Hk m0 Hm0).
  match goal with H : (let (_, _) := ?x in _) = Val _ |- _ => destruct x as [m1 [?|?|?]]; simpl in Hk; congruence end.
Qed.

(** ** Runs *)

(** The calls the router and the reactors make, in any order, each with its own environment. *)
Inductive Call :=
  | CAdd (a : NodeAddress) | CTryDialNext | CDialFailed (a : NodeAddress) | CDialed (a : NodeAddress) | CAccepted (id : NodeID)
  | CReady (id : NodeID) (channels : list Z) | CTryEvictNext | CDisconnected (id : NodeID) | CErrored (id : NodeID)
  | CEvent (pu : PeerUpdate) | CSetHeight (id : NodeID) (h : Z) | CAdvertise (id : NodeID) (limit : Z).
Definition perform (e : Env) (c : Call) (m : PeerManager) : PeerManager :=
  match c with
  | CAdd a => (Add e a m).1
  | CTryDialNext => (TryDialNext e m).1
  | CDialFailed a => (DialFailed e a m).1
  | CDialed a => (Dialed e a m).1
  | CAccepted id => (Accepted e id m).1
  | CReady id ch => (Ready id ch m).1
  | CTryEvictNext => (TryEvictNext e m).1
  | CDisconnected id => (Disconnected id m).1
  | CErrored id => (Errored id m).1
  | CEvent pu => (processPeerEvent pu m).1
  | CSetHeight id h => (SetHeight id h m).1
  | CAdvertise id limit => (Advertise e id limit m).1
  end.
Inductive managed : PeerManager -> Prop :=
  | managed_new e self msgs o m : env_ok e -> 0 <= MaxConnected o <= 65535 -> 0 <= MaxConnectedUpgrade o <= 65535 ->
      NewPeerManager e self msgs o = Val m -> managed m
  | managed_call e c m : env_ok e -> managed m -> managed (perform e c m).

Lemma wp_result {A} (op : PM A) m (Q : A -> PeerManager -> Prop) : st_wp op m (fun a m' => pm_ok m' /\ Q a m') pm_ok -> pm_ok (op m).1.
Proof. unfold st_wp. by destruct (op m) as [m' [a|x|w]]; [intros []| |]. Qed.

Lemma managed_ok m : managed m -> pm_ok m.
Proof.
  induction 1 as [e self msgs o m He [Hc _] [Hu _] Hn|e c m He _ IH]; [by eapply NewPeerManager_ok|]. destruct c; cbn [perform].
  - by apply keeps_Add.
  - by eapply wp_result, TryDialNext_wp.
  - by apply keeps_DialFailed.
  - by eapply wp_result, Dialed_wp.
  - by eapply wp_result, Accepted_wp.
  - by apply keeps_Ready.
  - by eapply wp_result, TryEvictNext_wp.
  - by apply keeps_Disconnected.
  - by apply keeps_Errored.
  - by apply keeps_processPeerEvent.
  - by apply keeps_SetHeight.
  - by apply keeps_Advertise.
Qed.

(** ** What the manager promises *)

(** C13: the books of the peer manager agree, in every state its calls can reach, in
    any order and for any order of ranging over maps.  No more peers are connected than
    the limit with the upgrade slots, and never the node itself; peers that are ready,
    scheduled for eviction or being evicted are connected; a connected peer is claimed
    for an upgrade by one dialed peer at most; and a peer is ready exactly when the last
    update that was broadcast for it says so. *)
Theorem peer_manager_consistent m : managed m ->
  (0 < MaxConnected (pm_options m) -> Z.of_nat (size (pm_connected m)) <= MaxConnected (pm_options m) + MaxConnectedUpgrade (pm_options m)) /\
  (pm_selfID m ∉ pm_connected m) /\
  pm_ready m ⊆ pm_connected m /\ pm_evict m ⊆ pm_connected m /\ pm_evicting m ⊆ pm_connected m /\
  (forall from to, pm_upgrading m !! from = Some to -> from ∈ pm_connected m /\ to ∈ pm_dialing m) /\
  (forall f1 f2 to, pm_upgrading m !! f1 = Some to -> pm_upgrading m !! f2 = Some to -> f1 = f2) /\
  (forall id, last_status (pm_updates m) id = Some PeerStatusUp <-> PeerManager_Status m id = PeerStatusUp).
Proof.
  intros []%managed_ok. split_and!; try done. intros id. rewrite ok_status0. unfold PeerManager_Status. case_bool_decide; naive_solver.
Qed.

(** C40: whom the peer manager dials.  In every state reached by its calls, whatever the order in
    which Go visits its maps, an address that [TryDialNext] returns belongs to a stored peer
    that is neither connected nor being dialed, the retry delay of the address has passed, and
    the peer is recorded as being dialed; where the number of connections is limited, those
    connected and being dialed leave room for it.  When all regular slots are taken, a connected
    peer with a lower score, that is not leaving and not claimed already, is claimed for the
    upgrade; otherwise the claims stay as they are. *)
Theorem dial_next_sound e m m' address : managed m -> env_ok e -> TryDialNext e m = (m', Val (Some address)) ->
  dial_decision e m m' address /\
  (0 < MaxConnected (pm_options m) ->
   Z.of_nat (size (pm_connected m) + size (pm_dialing m)) < MaxConnected (pm_options m) + MaxConnectedUpgrade (pm_options m)).
Proof.
  intros Hm%managed_ok He Hr. destruct (wp_val _ _ _ _ _ _ (TryDialNext_wp e m He Hm) Hr) as [_ Hd]. split; [done|]. intros Hpos.
  unfold TryDialNext in Hr. apply st_bind_val in Hr as (? & ? & [= <- <-] & Hr).
  rewrite (proj2 (Z.gtb_lt _ _) Hpos), Z.geb_leb in Hr. destruct (Z.leb_spec (MaxConnected (pm_options m) + MaxConnectedUpgrade (pm_options m))
    (Z.of_nat (size (pm_connected m) + size (pm_dialing m)))); [by st_inv|lia].
Qed.

(** Eviction keeps up.  A call for the next peer to evict always returns; the peer
    it returns is connected and was not being evicted yet.  When it returns none, nobody
    is scheduled and the peers that stay connected fit in the regular slots. *)
Theorem evict_next_sound e m : managed m -> env_ok e ->
  exists m' r, TryEvictNext e m = (m', Val r) /\ evict_decision m m' r.
Proof.
  intros Hm%managed_ok He. pose proof (TryEvictNext_wp e m (fun _ => False) He Hm) as Hw. unfold st_wp in Hw.
  destruct (TryEvictNext e m) as [m' [r|x|w]]; [|done..]. exists m', r. naive_solver.
Qed.

(** ** Where it goes wrong *)

Lemma zero_peer_event st p : p = zero_peer ->
  pi_ID (match st with PeerStatusBad => add_mutable p (-1) | PeerStatusGood => add_mutable p 1 | _ => p end) = "" /\
  pi_AddressInfo (match st with PeerStatusBad => add_mutable p (-1) | PeerStatusGood => add_mutable p 1 | _ => p end) = None.
Proof. intros ->. by destruct st. Qed.

(** An event about a peer that is no longer stored makes the peer unusable.  After
    the event a connection from the peer is never accepted again, and adding an address
    of the peer panics on its nil map: the event stores a peer without an ID and
    without a map of addresses. *)
Theorem unknown_peer_event_blocks_peer m id st ch : managed m -> ps_peers (pm_store m) !! id = None ->
  let m' := (processPeerEvent (mkPeerUpdate id st ch) m).1 in
  (forall e m2, env_ok e -> Accepted e id m' <> (m2, Val tt)) /\
  (forall e a, na_NodeID a = id -> id <> pm_selfID m -> NodeAddress_Validate a = Val tt -> exists m2 w, Add e a m' = (m2, Panic w)).
Proof.
  intros Hm%managed_ok Hno m'. assert (Hm' : pm_ok m') by (by apply keeps_processPeerEvent).
  assert (Hp : exists p, ps_peers (pm_store m') !! id = Some p /\ pi_ID p = "" /\ pi_AddressInfo p = None /\ pm_selfID m' = pm_selfID m).
  { unfold m'. simpl. rewrite lookup_insert_eq, Hno. eexists. split; [reflexivity|].
    destruct (zero_peer_event st zero_peer eq_refl) as [H1 H2]. done. }
  clearbody m'. destruct Hp as (p & Hp & Hid & Hai & Hself). split.
  - intros e m2 He Hr. revert Hr. assert (Hw : st_wp (Accepted e id) m' (fun _ _ => False) (fun _ => True)).
    { unfold Accepted, get_or_new. wp_tac; try done. rewrite Hp. wp_tac. rewrite Hai.
      assert (Hsave : forall x Q, st_wp (save_peer (set_LastConnected p (env_now e))) x Q (fun _ => True)).
      { intros x Q. unfold save_peer, peerStore_Set, peerInfo_Validate. wp_tac; [|done]. inv_val. simpl in *.
        match goal with H : bool_decide _ = false |- _ => apply bool_decide_eq_false in H end. done. }
      wp_case; wp_tac; [|apply Hsave]. apply findUpgrade_wp; [done..|]. intros m3 from _ _ _. wp_tac; [done|apply Hsave]. }
    unfold st_wp in Hw. intros Hr. by rewrite Hr in Hw.
  - intros e a <- Hne Ha. unfold Add. rewrite (st_run _ _ _ m' tt) by (unfold run_call; by rewrite Ha).
    rewrite (st_run _ _ _ m' m') by done. rewrite (st_run _ _ _ m' tt) by (by rewrite bool_decide_eq_false_2 by congruence).
    rewrite (st_run _ _ _ m' p) by (unfold get_or_new; rewrite (st_run _ _ _ m' m') by done; by rewrite Hp).
    rewrite (st_run _ _ _ m' m') by done. unfold addresses_of. rewrite Hai. simpl. eexists _, _. reflexivity.
Qed.

(** *** Concrete managers *)

Definition plain_env (now : Time) : Env := mkEnv now id id id (fun _ _ => 0).
Lemma plain_env_ok now : env_ok (plain_env now).
Proof. by split. Qed.
Fixpoint repeat_char (n : nat) (c : Ascii.ascii) : string := match n with O => "" | S n => String c (repeat_char n c) end.
Definition node_id (c : Ascii.ascii) : NodeID := repeat_char 40 c.
Definition node_address (c : Ascii.ascii) : NodeAddress := mkNodeAddress (node_id c) "mconntcp" "host" 26656 "".
Definition one_slot : PeerManagerOptions := mkOptions [] 10 1 1 5 0 0 0 ∅ ∅ (node_address "0"%char) None.
Definition manager0 : PeerManager :=
  match NewPeerManager (plain_env 0) (node_id "0"%char) [] one_slot with Val m => m | _ => mkPeerManager "" one_slot (mkPeerStore ∅ None ∅ 0) ∅ ∅ ∅ ∅ ∅ ∅ [] end.
Lemma manager0_managed : managed manager0.
Proof. by apply (managed_new (plain_env 0) (node_id "0"%char) [] one_slot); [apply plain_env_ok|vm_compute; split; discriminate..|vm_compute; reflexivity]. Qed.
Definition run_calls (l : list Call) (m : PeerManager) : PeerManager := fold_left (fun m c => perform (plain_env 100) c m) l m.
Lemma run_calls_managed l m : managed m -> managed (run_calls l m).
Proof. revert m. induction l as [|c l IH]; intros m Hm; [done|]. apply IH, managed_call; [apply plain_env_ok|done]. Qed.

(** Peer [a] is connected; [b] is known. *)
Definition connected_run : list Call := [CAdd (node_address "a"%char); CAdd (node_address "b"%char); CAccepted (node_id "a"%char); CReady (node_id "a"%char) [1]; CTryDialNext].
Definition manager1 : PeerManager := run_calls connected_run manager0.

Lemma manager1_managed : managed manager1.
Proof. apply run_calls_managed, manager0_managed. Qed.

Lemma peer_manager_consistent_witness : PeerManager_Status manager1 (node_id "a"%char) = PeerStatusUp /\ size (pm_connected manager1) = 1%nat.
Proof.
  split; [|vm_compute; reflexivity]. destruct (peer_manager_consistent manager1 manager1_managed) as (_ & _ & _ & _ & _ & _ & _ & Hst).
  apply Hst. vm_compute. reflexivity.
Defined.

Definition manager2 : PeerManager := run_calls [CAdd (node_address "a"%char)] manager0.
Lemma manager2_managed : managed manager2.
Proof. apply run_calls_managed, manager0_managed. Qed.
Definition manager2_dialing : PeerManager := (TryDialNext (plain_env 100) manager2).1.
Lemma manager2_dials : TryDialNext (plain_env 100) manager2 = (manager2_dialing, Val (Some (node_address "a"%char))).
Proof.
  assert (Hr : (TryDialNext (plain_env 100) manager2).2 = Val (Some (node_address "a"%char))) by (vm_compute; reflexivity).
  rewrite <- Hr. apply surjective_pairing.
Qed.
Lemma dial_next_sound_witness : size (pm_dialing manager2_dialing) = 1%nat /\ dial_decision (plain_env 100) manager2 manager2_dialing (node_address "a"%char).
Proof.
  split; [vm_compute; reflexivity|].
  exact (proj1 (dial_next_sound (plain_env 100) manager2 manager2_dialing (node_address "a"%char) manager2_managed (plain_env_ok 100) manager2_dials)).
Defined.

Definition manager3 : PeerManager := run_calls [CErrored (node_id "a"%char)] manager1.
Lemma manager3_managed : managed manager3.
Proof. apply run_calls_managed, manager1_managed. Qed.
Lemma evict_next_sound_witness : exists m' r, TryEvictNext (plain_env 100) manager3 = (m', Val r) /\ evict_decision manager3 m' r.
Proof. exact (evict_next_sound (plain_env 100) manager3 manager3_managed (plain_env_ok 100)). Defined.

Lemma unknown_peer_event_blocks_peer_witness :
  exists m2 w, Add (plain_env 100) (node_address "c"%char) (processPeerEvent (mkPeerUpdate (node_id "c"%char) PeerStatusGood []) manager1).1 = (m2, Panic w).
Proof.
  assert (Hno : ps_peers (pm_store manager1) !! node_id "c"%char = None) by (vm_compute; reflexivity).
  destruct (unknown_peer_event_blocks_peer manager1 (node_id "c"%char) PeerStatusGood [] manager1_managed Hno) as [_ Hadd].
  apply Hadd; [reflexivity|vm_compute; discriminate|vm_compute; reflexivity].
Defined.

Definition manager4 : PeerManager := run_calls [CEvent (mkPeerUpdate (node_id "b"%char) PeerStatusGood [])] manager1.
Lemma manager4_managed : managed manager4.
Proof. apply run_calls_managed, manager1_managed. Qed.

(** The cached ranking hides an upgrade.  Events change the score of a peer without
    invalidating the ranking (and failed dials do not either, because [Copy] shares the
    map of addresses).  There is a reachable state in which a known peer that can be
    dialed has a higher score than a connected one that is not leaving, a slot for
    upgrades is free, and yet nobody is dialed; without the cache the peer is dialed. *)
Theorem stale_ranking_misses_upgrade :
  exists e m better worse, managed m /\ env_ok e /\ better ∈ map_to_list (ps_peers (pm_store m)) /\ worse ∈ map_to_list (ps_peers (pm_store m)) /\
    eligible_address e m better.2 <> None /\ (better.1 ∉ pm_connected m) /\ (better.1 ∉ pm_dialing m) /\
    worse.1 ∈ pm_connected m /\ pm_evict m = ∅ /\ pm_evicting m = ∅ /\ pm_upgrading m = ∅ /\
    Score (pm_store m) worse.2 < Score (pm_store m) better.2 /\
    (TryDialNext e m).2 = Val None /\
    (TryDialNext e (set_store m (with_peers (pm_store m) (ps_peers (pm_store m)) None))).2 <> Val None.
Proof.
  exists (plain_env 200), manager4, (node_id "b"%char, default zero_peer (ps_peers (pm_store manager4) !! node_id "b"%char)),
    (node_id "a"%char, default zero_peer (ps_peers (pm_store manager4) !! node_id "a"%char)).
  split; [exact manager4_managed|]. split; [apply plain_env_ok|].
  split; [apply elem_of_map_to_list; vm_compute; reflexivity|]. split; [apply elem_of_map_to_list; vm_compute; reflexivity|].
  split; [vm_compute; discriminate|]. split; [apply (bool_decide_unpack _); vm_compute; exact I|]. split; [apply (bool_decide_unpack _); vm_compute; exact I|].
  split; [apply (bool_decide_unpack _); vm_compute; exact I|]. repeat (split; [vm_compute; reflexivity|]). vm_compute. discriminate.
Qed.
