(* ===== verification/Pruning.v ===== *)
(** * Ranges of keys of a database, and their deletion in batches

    The stores of internal/state/store.go and internal/store/store.go keep their records under
    keys that order heights (and parts) as numbers, and delete ranges of them in batches of a
    thousand: the state store from the end, the block store from the start.  A table of the
    database is a map from keys to records; an iterator visits a range in the order of keys, and
    the writes of a batch take effect at once. *)
From Stdlib Require Import ZArith Lia Sorting.Sorted.
From stdpp Require Import base list gmap.
From S2P Require Import Prelude.

(** Keys compared as the encoded keys are. *)
Class KeyOrder (K : Type) := {
  key_lt : K -> K -> bool;
  key_lt_irrefl k : key_lt k k = false;
  key_lt_trans a b c : key_lt a b = true -> key_lt b c = true -> key_lt a c = true;
  key_lt_total a b : a = b \/ key_lt a b = true \/ key_lt b a = true
}.

#[export] Instance height_order : KeyOrder Z.
Proof. refine {| key_lt := Z.ltb |}; [intros; lia|intros a b c; rewrite !Z.ltb_lt; lia|intros a b; rewrite !Z.ltb_lt; lia]. Defined.

(** A height and the index of a part. *)
#[export] Instance part_order : KeyOrder (Z * Z).
Proof.
  refine {| key_lt a b := (a.1 <? b.1) || ((a.1 =? b.1) && (a.2 <? b.2)) |}.
  - intros [h i]. simpl. lia.
  - intros [h i] [h' i'] [h'' i'']. simpl. rewrite !orb_true_iff, !andb_true_iff, !Z.ltb_lt, !Z.eqb_eq. lia.
  - intros [h i] [h' i']. simpl. rewrite !orb_true_iff, !andb_true_iff, !Z.ltb_lt, !Z.eqb_eq.
    destruct (Z.lt_trichotomy h h') as [?|[->|?]]; [tauto| |tauto]. destruct (Z.lt_trichotomy i i') as [?|[->|?]]; tauto.
Defined.

Section ranges.
Context {K V : Type} `{!EqDecision K, !Countable K, !KeyOrder K}.

Definition in_range (start stop k : K) : bool := negb (key_lt k start) && key_lt k stop.
(** The iterators. *)
Definition keys_in (m : gmap K V) (start stop : K) : list K := sort_by key_lt (List.filter (in_range start stop) (map_to_list m).*1).
Definition Iterator (m : gmap K V) (start stop : K) : list (K * V) := omap (fun k => pair k <$> m !! k) (keys_in m start stop).

Definition delete_keys (ks : list K) (m : gmap K V) : gmap K V := foldr base.delete m ks.

(** ** The state store: from the end *)

Definition batch_size : nat := Z.to_nat 1000.
(** The keys for the batch and the end of the range that remains. *)
Definition reverseBatchDelete (m : gmap K V) (start stop : K) : list K * K :=
  let ks := take batch_size (reverse (keys_in m start stop)) in
  (ks, if (length ks =? batch_size)%nat then default start (last ks) else start).
Fixpoint prune_loop (fuel : nat) (m : gmap K V) (start stop : K) : gmap K V :=
  match fuel with
  | O => m
  | S fuel =>
      let '(batch, stop') := reverseBatchDelete m start stop in
      let m := delete_keys batch m in
      if bool_decide (start = stop') then m else prune_loop fuel m start stop'
  end.
Definition pruneRange (m : gmap K V) (start stop : K) : gmap K V := prune_loop (S (base.size m)) m start stop.

(** ** The block store: from the start *)

(** The hook gives further keys, of another table, to delete with a record. *)
Context {E X : Type}.
Definition Hook : Type := K -> V -> outcome E (list X).
Fixpoint run_hook (hook : Hook) (kvs : list (K * V)) : outcome E (list X) :=
  match kvs with [] => Val [] | (k, v) :: rest => xs ← hook k v; ys ← run_hook hook rest; Val (xs ++ ys) end.
Definition batchDelete (hook : Hook) (m : gmap K V) (start stop : K) : outcome E (list K * list X * K) :=
  let kvs := take batch_size (Iterator m start stop) in
  xs ← run_hook hook kvs;
  Val (kvs.*1, xs, if (length kvs =? batch_size)%nat then default stop (last kvs.*1) else stop).
(** What is left of the table, the keys deleted from the other one, how many records went and the error. *)
Fixpoint prune_blocks_loop (hook : Hook) (fuel : nat) (m : gmap K V) (start stop : K) (extra : list X) (total : Z) : gmap K V * list X * outcome E Z :=
  match fuel with
  | O => (m, extra, Val total)
  | S fuel =>
      match batchDelete hook m start stop with
      | Fail e => (m, extra, Fail e)
      | Panic w => (m, extra, Panic w)
      | Val (batch, xs, start') =>
          let m := delete_keys batch m in
          let extra := extra ++ xs in
          let total := total + len batch in
          if bool_decide (start' = stop) then (m, extra, Val total) else prune_blocks_loop hook fuel m start' stop extra total
      end
  end.
Definition prune_range_blocks (hook : Hook) (m : gmap K V) (start stop : K) : gmap K V * list X * outcome E Z :=
  prune_blocks_loop hook (S (base.size m)) m start stop [] 0.

(** ** What the deletions leave *)

Lemma key_lt_asym a b : key_lt a b = true -> key_lt b a = false.
Proof. intros Hab. destruct (key_lt b a) eqn:Hba; [|done]. pose proof (key_lt_trans _ _ _ Hab Hba) as Hc. by rewrite key_lt_irrefl in Hc. Qed.
Lemma keys_sorted (m : gmap K V) start stop : StronglySorted (fun a b => key_lt b a = false) (keys_in m start stop).
Proof.
  apply (sort_by_sorted key_lt key_lt_asym). intros a b c. unfold sort_le. intros Hba Hcb. destruct (key_lt c a) eqn:Hca; [|done].
  destruct (key_lt_total a b) as [->|[Hab|Hab]]; [congruence| |congruence]. rewrite (key_lt_trans _ _ _ Hca Hab) in Hcb. done.
Qed.
Lemma keys_in_elem (m : gmap K V) start stop k : k ∈ keys_in m start stop <-> is_Some (m !! k) /\ in_range start stop k = true.
Proof.
  unfold keys_in. rewrite sort_by_perm, list_elem_of_In, filter_In, <- list_elem_of_In, list_elem_of_fmap. split.
  - intros [([k' v] & -> & Hin%elem_of_map_to_list) Hr]. eauto.
  - intros [[v Hv] Hr]. split; [|done]. exists (k, v). split; [done|]. by apply elem_of_map_to_list.
Qed.
Lemma keys_in_nodup (m : gmap K V) start stop : NoDup (keys_in m start stop).
Proof. unfold keys_in. rewrite sort_by_perm. apply NoDup_ListNoDup, List.NoDup_filter, NoDup_ListNoDup, NoDup_fst_map_to_list. Qed.

Lemma delete_keys_lookup ks (m : gmap K V) k : delete_keys ks m !! k = if decide (k ∈ ks) then None else m !! k.
Proof.
  induction ks as [|x ks IH]; [done|]. simpl. destruct (decide (k = x)) as [->|Hne].
  - rewrite lookup_delete_eq. by rewrite decide_True by (by left).
  - rewrite lookup_delete_ne by done. rewrite IH. destruct (decide (k ∈ ks)); [rewrite decide_True by (by right)|rewrite decide_False by (by apply not_elem_of_cons)]; done.
Qed.
Lemma delete_keys_size ks (m : gmap K V) : NoDup ks -> (forall k, k ∈ ks -> is_Some (m !! k)) -> base.size m = (length ks + base.size (delete_keys ks m))%nat.
Proof.
  induction ks as [|x ks IH]; intros Hnd Hin; [done|]. apply NoDup_cons in Hnd as [Hx Hnd]. simpl. rewrite (IH Hnd) by (intros k Hk; apply Hin; by right).
  destruct (Hin x) as [v Hv]; [by left|]. assert (Hl : delete_keys ks m !! x = Some v) by (by rewrite delete_keys_lookup, decide_False).
  rewrite map_size_delete, Hl. assert (base.size (delete_keys ks m) <> 0)%nat; [|lia]. intros Hz%map_size_empty_inv. by rewrite Hz in Hl.
Qed.

(** What a batch leaves of a sorted list of keys is on the far side of its last key. *)
Lemma take_last_split (R : K -> K -> Prop) l n x y : StronglySorted R l -> last (take n l) = Some x -> y ∈ drop n l -> R x y.
Proof.
  intros Hs Hx Hy. apply last_Some in Hx as [l1 Hx]. rewrite <- (take_drop n l), Hx in Hs. clear Hx. rewrite <- app_assoc in Hs. induction l1 as [|z l1 IH]; simpl in Hs.
  - apply StronglySorted_inv in Hs as [_ Hs]. rewrite Forall_forall in Hs. by apply Hs.
  - apply StronglySorted_inv in Hs as [Hs _]. by apply IH.
Qed.
Lemma reverse_sorted (R : K -> K -> Prop) l : StronglySorted R l -> StronglySorted (fun a b => R b a) (reverse l).
Proof.
  induction 1 as [|x l Hs IH Hx]; [constructor|]. rewrite reverse_cons. clear Hs. rewrite Forall_forall in Hx. assert (Hx' : forall y, y ∈ reverse l -> R x y) by (intros y Hy; apply Hx; by apply elem_of_reverse).
  clear Hx. induction IH as [|y k Hk IHk Hy]; simpl; [repeat constructor|]. constructor; [apply IHk; intros z Hz; apply Hx'; by right|].
  rewrite Forall_app. split; [done|]. repeat constructor. apply Hx'. by left.
Qed.

Lemma prune_loop_spec fuel : forall (m : gmap K V) start stop, (base.size m < fuel)%nat -> forall k,
  prune_loop fuel m start stop !! k = if in_range start stop k then None else m !! k.
Proof.
  induction fuel as [|fuel IH]; intros m start stop Hf k; [lia|]. cbn [prune_loop]. unfold reverseBatchDelete. set (rk := reverse (keys_in m start stop)). set (ks := take batch_size rk).
  assert (Hin : forall x, x ∈ rk <-> is_Some (m !! x) /\ in_range start stop x = true) by (intros x; unfold rk; by rewrite elem_of_reverse, keys_in_elem).
  assert (Hks : forall x, x ∈ ks -> x ∈ rk) by (intros x Hx; rewrite <- (take_drop batch_size rk); apply elem_of_app; by left).
  assert (Hnd : NoDup rk) by (unfold rk; rewrite reverse_Permutation; apply keys_in_nodup).
  assert (Hndk : NoDup ks) by (rewrite <- (take_drop batch_size rk) in Hnd; by apply NoDup_app in Hnd as [? _]).
  assert (Hsize := delete_keys_size ks m Hndk ltac:(intros x Hx; by apply Hin, Hks)).
  assert (Hrest : forall x, (x ∈ ks) \/ (x ∈ drop batch_size rk) \/ (x ∉ rk)).
  { intros x. destruct (decide (x ∈ rk)) as [Hx|]; [|tauto]. rewrite <- (take_drop batch_size rk) in Hx. apply elem_of_app in Hx. tauto. }
  assert (Hdone : (forall x, (x ∉ drop batch_size rk)) -> delete_keys ks m !! k = if in_range start stop k then None else m !! k).
  { intros Hall. rewrite delete_keys_lookup. destruct (decide (k ∈ ks)) as [Hk|Hk]; [apply Hks, Hin in Hk as [_ ->]; done|]. destruct (in_range start stop k) eqn:Hr; [|done].
    destruct (m !! k) eqn:Hm; [|done]. destruct (Hrest k) as [?|[?|Hn]]; [done|by apply Hall in H|]. destruct Hn. apply Hin. eauto. }
  destruct (Nat.eqb_spec (length ks) batch_size) as [Hfull|Hshort].
  - destruct (last ks) as [x|] eqn:Hlast; [|apply last_None in Hlast; rewrite Hlast in Hfull; done]. simpl.
    assert (Hx : x ∈ rk) by (apply Hks; apply last_Some_elem_of in Hlast; done). pose proof (proj1 (Hin x) Hx) as [_ Hrx]. unfold in_range in Hrx. apply andb_true_iff in Hrx as [Hx1%negb_true_iff Hx2].
    assert (Hsplit : forall y, y ∈ drop batch_size rk -> key_lt x y = false).
    { intros y. apply (take_last_split (fun a b => key_lt a b = false) rk batch_size); [|done]. apply (reverse_sorted (fun a b => key_lt b a = false)), keys_sorted. }
    destruct (bool_decide (start = x)) eqn:Hsx; [apply bool_decide_eq_true in Hsx as <-|apply bool_decide_eq_false in Hsx].
    + apply Hdone. intros y Hy. pose proof (Hsplit y Hy) as Hl. assert (Hyr : y ∈ rk) by (rewrite <- (take_drop batch_size rk); apply elem_of_app; by right).
      apply Hin in Hyr as [_ Hyr]. unfold in_range in Hyr. apply andb_true_iff in Hyr as [Hyr%negb_true_iff _].
      assert (y = start) as -> by (destruct (key_lt_total y start) as [|[|]]; [done|congruence|congruence]).
      rewrite <- (take_drop batch_size rk) in Hnd. apply NoDup_app in Hnd as (_ & Hd & _). apply (Hd start); [|done]. by apply last_Some_elem_of in Hlast.
    + rewrite IH; [|unfold batch_size in Hfull; lia]. rewrite delete_keys_lookup. unfold in_range at 1 2. destruct (key_lt k start) eqn:Hks1; simpl.
      { destruct (decide (k ∈ ks)) as [Hk|Hk]; [|done]. apply Hks, Hin in Hk as [_ Hk]. unfold in_range in Hk. rewrite Hks1 in Hk. done. }
      destruct (key_lt k x) eqn:Hkx; [by rewrite (key_lt_trans k x stop)|]. destruct (decide (k ∈ ks)) as [Hk|Hk].
      * apply Hks, Hin in Hk as [_ Hk]. unfold in_range in Hk. rewrite Hks1 in Hk. simpl in Hk. by rewrite Hk.
      * destruct (key_lt k stop) eqn:Hkst; [|done]. destruct (m !! k) eqn:Hm; [|done]. destruct (Hrest k) as [?|[Hd|Hn]]; [done| |].
        -- apply Hsplit in Hd. assert (k = x) as -> by (destruct (key_lt_total k x) as [|[|]]; [done|congruence|congruence]). destruct Hk. by apply last_Some_elem_of in Hlast.
        -- destruct Hn. apply Hin. unfold in_range. rewrite Hks1, Hkst. eauto.
  - rewrite bool_decide_true by done. apply Hdone. intros y Hy. assert (length rk <= batch_size)%nat by (unfold ks in Hshort; rewrite length_take in Hshort; lia).
    rewrite drop_ge in Hy by done. by apply not_elem_of_nil in Hy.
Qed.
(** [pruneRange] deletes the range and nothing else. *)
Lemma pruneRange_spec (m : gmap K V) start stop k : pruneRange m start stop !! k = if in_range start stop k then None else m !! k.
Proof. apply prune_loop_spec. lia. Qed.

Lemma Iterator_keys (m : gmap K V) start stop : (Iterator m start stop).*1 = keys_in m start stop.
Proof.
  unfold Iterator. assert (Hin : forall k, k ∈ keys_in m start stop -> is_Some (m !! k)) by (intros k Hk; by apply keys_in_elem in Hk as [? _]).
  induction (keys_in m start stop) as [|k l IH]; [done|]. simpl. destruct (Hin k) as [v Hv]; [by left|]. rewrite Hv. simpl. f_equal. apply IH. intros x Hx. apply Hin. by right.
Qed.
Lemma Iterator_elem (m : gmap K V) start stop k v : (k, v) ∈ Iterator m start stop <-> m !! k = Some v /\ in_range start stop k = true.
Proof.
  unfold Iterator. rewrite list_elem_of_omap. split.
  - intros (k' & Hk & Hv). apply keys_in_elem in Hk as [_ Hr]. destruct (m !! k') eqn:Hm; [|done]. simpl in Hv. by injection Hv as <- <-.
  - intros [Hm Hr]. exists k. rewrite Hm. split; [apply keys_in_elem; eauto|done].
Qed.
Lemma run_hook_val (hook : Hook) f kvs : (forall k v, (k, v) ∈ kvs -> hook k v = Val (f k v)) -> run_hook hook kvs = Val (kvs ≫= fun kv => f kv.1 kv.2).
Proof.
  induction kvs as [|[k v] kvs IH]; intros Hf; [done|]. simpl. rewrite Hf by (by left). cbn [mbind outcome_bind]. rewrite IH by (intros; apply Hf; by right). done.
Qed.

Lemma prune_blocks_spec (hook : Hook) f fuel : forall (m : gmap K V) start stop extra total, (base.size m < fuel)%nat ->
  (forall k v, m !! k = Some v -> in_range start stop k = true -> hook k v = Val (f k v)) ->
  exists m' xs, prune_blocks_loop hook fuel m start stop extra total = (m', extra ++ xs, Val (total + len (keys_in m start stop))) /\
    (forall k, m' !! k = if in_range start stop k then None else m !! k) /\
    (forall x, x ∈ xs <-> exists k v, m !! k = Some v /\ in_range start stop k = true /\ x ∈ f k v).
Proof.
  induction fuel as [|fuel IH]; intros m start stop extra total Hf Hhook; [lia|]. cbn [prune_blocks_loop]. unfold batchDelete. set (it := Iterator m start stop). set (kvs := take batch_size it).
  assert (Hkvs : forall kv, kv ∈ kvs -> kv ∈ it) by (intros kv Hkv; rewrite <- (take_drop batch_size it); apply elem_of_app; by left).
  rewrite (run_hook_val hook f) by (intros k v [Hm Hr]%Hkvs%Iterator_elem; by apply Hhook). cbn [mbind outcome_bind].
  assert (Hks : kvs.*1 = take batch_size (keys_in m start stop)) by (unfold kvs, it; by rewrite fmap_take, Iterator_keys). set (ks := kvs.*1) in *.
  assert (Hlen : length kvs = length ks) by (unfold ks; by rewrite length_fmap). rewrite Hlen. set (sk := keys_in m start stop) in *.
  assert (Hin : forall x, x ∈ sk <-> is_Some (m !! x) /\ in_range start stop x = true) by (intros x; apply keys_in_elem).
  assert (Hsub : forall x, x ∈ ks -> x ∈ sk) by (intros x Hx; rewrite <- (take_drop batch_size sk); apply elem_of_app; left; by rewrite <- Hks).
  assert (Hnd : NoDup sk) by apply keys_in_nodup. assert (Hndk : NoDup ks) by (rewrite Hks; rewrite <- (take_drop batch_size sk) in Hnd; by apply NoDup_app in Hnd as [? _]).
  assert (Hsize := delete_keys_size ks m Hndk ltac:(intros x Hx; by apply Hin, Hsub)).
  assert (Hxs : forall x, x ∈ (kvs ≫= fun kv => f kv.1 kv.2) <-> exists k v, m !! k = Some v /\ k ∈ ks /\ x ∈ f k v).
  { intros x. rewrite list_elem_of_bind. split.
    - intros ([k v] & Hx & Hkv). pose proof (Hkvs _ Hkv) as [Hm _]%Iterator_elem. exists k, v. split_and!; [done| |done]. apply list_elem_of_fmap. by exists (k, v).
    - intros (k & v & Hm & Hk & Hx). exists (k, v). split; [done|]. apply list_elem_of_fmap in Hk as ([k' v'] & -> & Hkv). pose proof (Hkvs _ Hkv) as [Hm' _]%Iterator_elem. simpl in *. congruence. }
  destruct (Nat.eqb_spec (length ks) batch_size) as [Hfull|Hshort].
  - destruct (last ks) as [x|] eqn:Hlast; [|apply last_None in Hlast; rewrite Hlast in Hfull; done]. simpl.
    assert (Hx : x ∈ sk) by (apply Hsub; by apply last_Some_elem_of in Hlast). pose proof (proj1 (Hin x) Hx) as [_ Hrx]. unfold in_range in Hrx. apply andb_true_iff in Hrx as [Hx1%negb_true_iff Hx2].
    assert (Hsplit : forall y, y ∈ drop batch_size sk -> key_lt y x = false).
    { intros y. rewrite Hks in Hlast. apply (take_last_split (fun a b => key_lt b a = false) sk batch_size); [apply keys_sorted|done]. }
    rewrite bool_decide_false by (intros ->; by rewrite key_lt_irrefl in Hx2).
    assert (Hrest : forall y, in_range start stop y = true -> is_Some (m !! y) -> (y ∈ ks) \/ (in_range x stop y = true /\ (y ∉ ks))).
    { intros y Hr Hm. destruct (decide (y ∈ ks)) as [|Hn]; [by left|]. right. split; [|done]. assert (Hy : y ∈ sk) by (by apply Hin). rewrite <- (take_drop batch_size sk), <- Hks in Hy.
      apply elem_of_app in Hy as [?|Hy]; [done|]. apply Hsplit in Hy. unfold in_range in *. rewrite Hy. apply andb_true_iff in Hr as [_ ->]. done. }
    assert (Hlow : forall y, in_range x stop y = true -> in_range start stop y = true).
    { intros y. unfold in_range. rewrite !andb_true_iff, !negb_true_iff. intros [H1 H2]. split; [|done]. destruct (key_lt y start) eqn:Hys; [|done].
      destruct (key_lt_total x start) as [->|[Hc|Hc]]; [congruence|congruence|]. by rewrite (key_lt_trans _ _ _ Hys Hc) in H1. }
    destruct (IH (delete_keys ks m) x stop (extra ++ (kvs ≫= fun kv => f kv.1 kv.2)) (total + len ks)) as (m' & xs & Hrun & Hm' & Hxs').
    { unfold batch_size in Hfull. lia. }
    { intros k v Hm Hr. rewrite delete_keys_lookup in Hm. destruct (decide (k ∈ ks)); [done|]. apply Hhook; [done|by apply Hlow]. }
    exists m', ((kvs ≫= fun kv => f kv.1 kv.2) ++ xs). rewrite Hrun, <- app_assoc. split_and!.
    + do 2 f_equal. assert (Hperm : sk ≡ₚ ks ++ keys_in (delete_keys ks m) x stop); [|unfold len; rewrite Hperm, length_app; lia].
      apply NoDup_Permutation; [done| |].
      * apply NoDup_app. split_and!; [done| |apply keys_in_nodup]. intros y Hy [Hm _]%keys_in_elem. rewrite delete_keys_lookup, decide_True in Hm by done. by destruct Hm.
      * intros y. rewrite elem_of_app, keys_in_elem, delete_keys_lookup, Hin. split.
        -- intros [Hm Hr]. destruct (Hrest y Hr Hm) as [|[Hr' Hn]]; [by left|]. right. by rewrite decide_False.
        -- intros [Hy|[Hm Hr]]; [by apply Hin, Hsub|]. destruct (decide (y ∈ ks)); [by destruct Hm|]. split; [done|by apply Hlow].
    + intros k. rewrite Hm', delete_keys_lookup. destruct (in_range x stop k) eqn:Hr; [by rewrite (Hlow k Hr)|]. destruct (decide (k ∈ ks)) as [Hk|Hk]; [apply Hsub, Hin in Hk as [_ ->]; done|].
      destruct (in_range start stop k) eqn:Hr'; [|done]. destruct (m !! k) eqn:Hm; [|done]. destruct (Hrest k Hr') as [?|[? _]]; [eauto|done|congruence].
    + intros z. rewrite elem_of_app, Hxs, Hxs'. split.
      * intros [(k & v & Hm & Hk & Hz)|(k & v & Hm & Hr & Hz)]; exists k, v; [split_and!; try done; by apply Hin, Hsub|].
        rewrite delete_keys_lookup in Hm. destruct (decide (k ∈ ks)); [done|]. split_and!; try done. by apply Hlow.
      * intros (k & v & Hm & Hr & Hz). destruct (Hrest k Hr) as [Hk|[Hr' Hn]]; [eauto|left; by exists k, v|right]. exists k, v. rewrite delete_keys_lookup, decide_False by done. done.
  - rewrite bool_decide_true by done. assert (Hall : ks = sk).
    { rewrite Hks. apply take_ge. rewrite Hks, length_take in Hshort. lia. }
    exists (delete_keys ks m), (kvs ≫= fun kv => f kv.1 kv.2). split_and!; [by rewrite Hall| |].
    + intros k. rewrite delete_keys_lookup. destruct (decide (k ∈ ks)) as [Hk|Hk]; [apply Hsub, Hin in Hk as [_ ->]; done|]. destruct (in_range start stop k) eqn:Hr; [|done].
      destruct (m !! k) eqn:Hm; [|done]. destruct Hk. rewrite Hall. apply Hin. eauto.
    + intros z. rewrite Hxs. split; intros (k & v & Hm & Hr & Hz); exists k, v; (split_and!; [done| |done]); [by apply Hin; rewrite <- Hall|]. rewrite Hall. apply Hin. eauto.
Qed.
End ranges.
