(* ===== verification/StateStore.v ===== *)
(** * internal/state/store.go: the state store

    Models the genesis document (types/genesis.go), the genesis state and the message of a
    state (internal/state/state.go) and the store of states, validator sets, consensus
    parameters and ABCI responses.  Each kind of record is a table by height; the database does
    not fail and writes a batch at once.  Records are kept as messages and go through the
    conversions from and to messages. *)
From Stdlib Require Import ZArith Lia Strings.Byte Strings.String.
From stdpp Require Import base list strings gmap.
From S2P Require Import Prelude.
From S2P Require Import SafeMath.
From S2P Require Import Merkle.
From S2P Require Import Validator.
From S2P Require Import Types.
From S2P Require Import Header.
From S2P Require Import Block.
From S2P Require Import ChainState.
From S2P Require Import Evidence.
From S2P Require Import Pruning.

(** ** Genesis *)

Record GenesisValidator := mkGenesisValidator { gv_Address : bytes; gv_PubKey : option PubKey; gv_Power : Z }.
Record GenesisDoc := mkGenesisDoc {
  gd_GenesisTime : Time;
  gd_ChainID : ChainID;
  gd_InitialHeight : Z;
  gd_ConsensusParams : option ConsensusParams;
  gd_Validators : list GenesisValidator;
  gd_AppHash : bytes
}.
(** [InitStateVersion]. *)
Definition InitStateVersion (software : string) : Version := mkVersion (mkConsensus 11 0) software.

Inductive GenesisError := ErrGenesisChainID | ErrGenesisChainIDLen | ErrGenesisHeight | ErrGenesisParams (e : ParamsError) | ErrGenesisPower | ErrGenesisAddress.

Section genesis.
Context `{!Crypto}.

Fixpoint complete_validators (l : list GenesisValidator) : outcome GenesisError (list GenesisValidator) :=
  match l with
  | [] => Val []
  | v :: rest =>
      _ ← fail_if (gv_Power v =? 0) ErrGenesisPower;
      v ← (if len (gv_Address v) >? 0 then
             pk ← deref (gv_PubKey v);
             _ ← fail_if (negb (bytes_equal (pk_Address pk) (gv_Address v))) ErrGenesisAddress;
             Val v
           else pk ← deref (gv_PubKey v); Val (mkGenesisValidator (pk_Address pk) (gv_PubKey v) (gv_Power v)));
      rest ← complete_validators rest;
      Val (v :: rest)
  end.
Definition ValidateAndComplete (g : GenesisDoc) (now : Time) : outcome GenesisError GenesisDoc :=
  _ ← fail_if (len (gd_ChainID g) =? 0) ErrGenesisChainID;
  _ ← fail_if (len (gd_ChainID g) >? MaxChainIDLen) ErrGenesisChainIDLen;
  _ ← fail_if (gd_InitialHeight g <? 0) ErrGenesisHeight;
  let initial := if gd_InitialHeight g =? 0 then 1 else gd_InitialHeight g in
  params ← (match gd_ConsensusParams g with
            | None => Val DefaultConsensusParams
            | Some p => _ ← wrap_err ErrGenesisParams (ValidateConsensusParams p); Val p
            end);
  vals ← complete_validators (gd_Validators g);
  Val (mkGenesisDoc (if gd_GenesisTime g =? zero_time then now else gd_GenesisTime g) (gd_ChainID g) initial (Some params) vals (gd_AppHash g)).

Fixpoint genesis_validators (l : list GenesisValidator) : outcome GenesisError (list Validator) :=
  match l with
  | [] => Val []
  | v :: rest => pk ← deref (gv_PubKey v); vs ← genesis_validators rest; Val (NewValidator pk (gv_Power v) :: vs)
  end.
Definition MakeGenesisState (software : string) (g : GenesisDoc) (now : Time) : outcome GenesisError State :=
  g ← ValidateAndComplete g now;
  '(vals, next) ←
    (if len (gd_Validators g) =? 0 then Val (empty_set, empty_set)
     else
       vs ← genesis_validators (gd_Validators g);
       vals ← lift (NewValidatorSet vs);
       vals' ← lift (NewValidatorSet vs);
       next ← lift (CopyIncrementProposerPriority vals' 1);
       Val (vals, next));
  params ← deref (gd_ConsensusParams g);
  Val (mkState (InitStateVersion software) (gd_ChainID g) (gd_InitialHeight g) 0 nilBlockID (gd_GenesisTime g) (Some next) (Some vals) (Some empty_set)
         (gd_InitialHeight g) params (gd_InitialHeight g) [] (gd_AppHash g)).
End genesis.

(** ** Messages *)

Definition empty_message : ValidatorSet := mkValidatorSet [] None 0.
(** [ToProto] of a pointer to a validator set. *)
Definition set_ToProto (vals : option ValidatorSet) : outcome EvError ValidatorSet :=
  match vals with None => Val empty_message | Some vals => ValidatorSet_ToProto vals end.
(** [ValidatorSetFromProto] of a pointer to a message. *)
Definition set_FromProto (vp : option ValidatorSet) : outcome EvError ValidatorSet :=
  match vp with None => Fail ErrFromProto | Some vp => ValidatorSetFromProto vp end.

(** The message of a state: the same fields, with the validator sets as messages. *)
Definition with_sets (state : State) (vals next last : option ValidatorSet) : State :=
  mkState (sm_Version state) (sm_ChainID state) (sm_InitialHeight state) (sm_LastBlockHeight state) (sm_LastBlockID state) (sm_LastBlockTime state)
    next vals last (sm_LastHeightValidatorsChanged state) (sm_ConsensusParams state) (sm_LastHeightConsensusParamsChanged state) (sm_LastResultsHash state) (sm_AppHash state).
Definition State_ToProto (state : State) : outcome EvError State :=
  vals ← set_ToProto (sm_Validators state);
  next ← set_ToProto (sm_NextValidators state);
  last ← (if sm_LastBlockHeight state >=? 1 then lv ← set_ToProto (sm_LastValidators state); Val (Some lv) else Val None);
  Val (with_sets state (Some vals) (Some next) last).
Definition State_FromProto (pb : State) : outcome EvError State :=
  _ ← wrap_err (fun _ => ErrFromProto) (BlockID_ValidateBasic (sm_LastBlockID pb));
  vals ← set_FromProto (sm_Validators pb);
  next ← set_FromProto (sm_NextValidators pb);
  last ← (if sm_LastBlockHeight pb >=? 1 then set_FromProto (sm_LastValidators pb) else Val empty_set);
  Val (with_sets pb (Some vals) (Some next) (Some last)).

(** ** The store *)

(** A nil set, or the empty parameters, stand for those at the height of the last change. *)
Record ValidatorsInfo := mkValidatorsInfo { vi_ValidatorSet : option ValidatorSet; vi_LastHeightChanged : Z }.
Record ConsensusParamsInfo := mkConsensusParamsInfo { ci_ConsensusParams : option ConsensusParams; ci_LastHeightChanged : Z }.

Record StateDB := mkStateDB {
  db_validators : gmap Z ValidatorsInfo;
  db_params : gmap Z ConsensusParamsInfo;
  db_responses : gmap Z ABCIResponses;
  db_state : option State
}.
Definition empty_db : StateDB := mkStateDB ∅ ∅ ∅ None.
Definition set_validators (db : StateDB) (m : gmap Z ValidatorsInfo) : StateDB := mkStateDB m (db_params db) (db_responses db) (db_state db).
Definition set_params (db : StateDB) (m : gmap Z ConsensusParamsInfo) : StateDB := mkStateDB (db_validators db) m (db_responses db) (db_state db).
Definition set_responses (db : StateDB) (m : gmap Z ABCIResponses) : StateDB := mkStateDB (db_validators db) (db_params db) m (db_state db).
Definition set_state (db : StateDB) (s : State) : StateDB := mkStateDB (db_validators db) (db_params db) (db_responses db) (Some s).

Inductive StateStoreError :=
  | ErrStateMessage (e : EvError) | ErrChangedAfter | ErrNoValue | ErrNoValSetForHeight (height : Z) | ErrValidatorsNotFound | ErrParamsNotFound
  | ErrNoABCIResponses (height : Z) | ErrRetainHeight.

Definition valSetCheckpointInterval : Z := 100000.
Definition lastStoredHeightFor (height lastHeightChanged : Z) : Z :=
  let checkpointHeight := int64 (height - Z.rem height valSetCheckpointInterval) in
  Z.max checkpointHeight lastHeightChanged.

Definition saveValidatorsInfo (db : StateDB) (height lastHeightChanged : Z) (valSet : option ValidatorSet) : outcome StateStoreError StateDB :=
  _ ← fail_if (lastHeightChanged >? height) ErrChangedAfter;
  set ← (if (height =? lastHeightChanged) || (Z.rem height valSetCheckpointInterval =? 0)
         then pv ← wrap_err ErrStateMessage (set_ToProto valSet); Val (Some pv) else Val None);
  Val (set_validators db (<[height := mkValidatorsInfo set lastHeightChanged]> (db_validators db))).
Definition saveConsensusParamsInfo (db : StateDB) (nextHeight changeHeight : Z) (params : ConsensusParams) : StateDB :=
  set_params db (<[nextHeight := mkConsensusParamsInfo (if changeHeight =? nextHeight then Some params else None) changeHeight]> (db_params db)).
Definition loadValidatorsInfo (db : StateDB) (height : Z) : outcome StateStoreError ValidatorsInfo :=
  match db_validators db !! height with Some v => Val v | None => Fail ErrNoValue end.
Definition loadConsensusParamsInfo (db : StateDB) (height : Z) : outcome StateStoreError ConsensusParamsInfo :=
  match db_params db !! height with Some v => Val v | None => Fail ErrNoValue end.

(** [state.Bytes] panics when the state has no message. *)
Definition state_Bytes (state : State) : outcome StateStoreError State :=
  match State_ToProto state with Val m => Val m | Fail _ => Panic "State.ToProto" | Panic w => Panic w end.

Definition Store_Load (db : StateDB) : outcome StateStoreError State :=
  match db_state db with None => Val empty_state | Some m => wrap_err ErrStateMessage (State_FromProto m) end.

Definition Store_Save (db : StateDB) (state : State) : outcome StateStoreError StateDB :=
  let nextHeight := int64 (sm_LastBlockHeight state + 1) in
  let first := nextHeight =? 1 in
  let nextHeight := if first then sm_InitialHeight state else nextHeight in
  db ← (if first then saveValidatorsInfo db nextHeight nextHeight (sm_Validators state) else Val db);
  db ← saveValidatorsInfo db (int64 (nextHeight + 1)) (sm_LastHeightValidatorsChanged state) (sm_NextValidators state);
  let db := saveConsensusParamsInfo db nextHeight (sm_LastHeightConsensusParamsChanged state) (sm_ConsensusParams state) in
  m ← state_Bytes state;
  Val (set_state db m).

Definition Bootstrap (db : StateDB) (state : State) : outcome StateStoreError StateDB :=
  let height := int64 (sm_LastBlockHeight state + 1) in
  let height := if height =? 1 then sm_InitialHeight state else height in
  db ← (if (height >? 1) && negb (match sm_LastValidators state with None => true | Some v => is_empty v end)
        then saveValidatorsInfo db (int64 (height - 1)) (int64 (height - 1)) (sm_LastValidators state) else Val db);
  db ← saveValidatorsInfo db height height (sm_Validators state);
  db ← saveValidatorsInfo db (int64 (height + 1)) (int64 (height + 1)) (sm_NextValidators state);
  let db := saveConsensusParamsInfo db height (sm_LastHeightConsensusParamsChanged state) (sm_ConsensusParams state) in
  m ← state_Bytes state;
  Val (set_state db m).

(** The loop over the heights from [lower] on. *)
Fixpoint save_sets (db : StateDB) (lower : Z) (vals : ValidatorSet) (heights : list Z) : outcome StateStoreError StateDB :=
  match heights with [] => Val db | h :: rest => db ← saveValidatorsInfo db h lower (Some vals); save_sets db lower vals rest end.
Definition SaveValidatorSets (db : StateDB) (lowerHeight upperHeight : Z) (vals : ValidatorSet) : outcome StateStoreError StateDB :=
  save_sets db lowerHeight vals (seqZ lowerHeight (upperHeight - lowerHeight + 1)).

Definition SaveABCIResponses (db : StateDB) (height : Z) (r : ABCIResponses) : StateDB := set_responses db (<[height := r]> (db_responses db)).
Definition LoadABCIResponses (db : StateDB) (height : Z) : outcome StateStoreError ABCIResponses :=
  match db_responses db !! height with Some r => Val r | None => Fail (ErrNoABCIResponses height) end.

Definition LoadValidators (db : StateDB) (height : Z) : outcome StateStoreError ValidatorSet :=
  match db_validators db !! height with
  | None => Fail (ErrNoValSetForHeight height)
  | Some valInfo =>
      match vi_ValidatorSet valInfo with
      | Some m => wrap_err ErrStateMessage (ValidatorSetFromProto m)
      | None =>
          let lastStoredHeight := lastStoredHeightFor height (vi_LastHeightChanged valInfo) in
          match loadValidatorsInfo db lastStoredHeight with
          | Val (mkValidatorsInfo (Some m) _) =>
              vs ← wrap_err ErrStateMessage (ValidatorSetFromProto m);
              times ← lift (SafeConvertInt32 (int64 (height - lastStoredHeight)));
              vs ← lift (IncrementProposerPriority vs times);
              vi2 ← wrap_err ErrStateMessage (ValidatorSet_ToProto vs);
              wrap_err ErrStateMessage (ValidatorSetFromProto vi2)
          | _ => Fail ErrValidatorsNotFound
          end
      end
  end.

(** The parameters are read through the pointers of the message. *)
Definition LoadConsensusParams (db : StateDB) (height : Z) : outcome StateStoreError ConsensusParams :=
  match db_params db !! height with
  | None => Fail ErrParamsNotFound
  | Some info =>
      match ci_ConsensusParams info with
      | Some p => Val p
      | None =>
          match db_params db !! ci_LastHeightChanged info with
          | None => Fail ErrParamsNotFound
          | Some info2 => deref (ci_ConsensusParams info2)
          end
      end
  end.

(** ** Pruning *)

Definition pruneValidatorSets (db : StateDB) (retainHeight : Z) : outcome StateStoreError StateDB :=
  valInfo ← loadValidatorsInfo db retainHeight;
  let last := lastStoredHeightFor retainHeight (vi_LastHeightChanged valInfo) in
  match loadValidatorsInfo db last with
  | Val (mkValidatorsInfo (Some _) _) =>
      let m := if last <? retainHeight then pruneRange (db_validators db) (int64 (last + 1)) retainHeight else db_validators db in
      Val (set_validators db (pruneRange m 1 last))
  | _ => Fail ErrValidatorsNotFound
  end.
Definition pruneConsensusParams (db : StateDB) (retainHeight : Z) : outcome StateStoreError StateDB :=
  info ← loadConsensusParamsInfo db retainHeight;
  let changed := ci_LastHeightChanged info in
  m ← (match ci_ConsensusParams info with
       | Some _ => Val (db_params db)
       | None =>
           match loadConsensusParamsInfo db changed with
           | Val (mkConsensusParamsInfo (Some _) _) => Val (pruneRange (db_params db) (int64 (changed + 1)) retainHeight)
           | _ => Fail ErrParamsNotFound
           end
       end);
  Val (set_params db (pruneRange m 1 changed)).
Definition pruneABCIResponses (db : StateDB) (height : Z) : StateDB := set_responses db (pruneRange (db_responses db) 1 height).

(** What was pruned before an error stays pruned. *)
Definition PruneStates (db : StateDB) (retainHeight : Z) : StateDB * outcome StateStoreError unit :=
  if retainHeight <=? 0 then (db, Fail ErrRetainHeight)
  else
    match pruneConsensusParams db retainHeight with
    | Val db =>
        match pruneValidatorSets db retainHeight with
        | Val db => (pruneABCIResponses db retainHeight, Val tt)
        | Fail e => (db, Fail e)
        | Panic w => (db, Panic w)
        end
    | Fail e => (db, Fail e)
    | Panic w => (db, Panic w)
    end.
