(* ===== verification/StateStoreProofs.v ===== *)
(** * What the state store keeps of the chain *)
From Stdlib Require Import ZArith Lia Strings.Byte Strings.String.
From stdpp Require Import base list strings gmap.
From S2P Require Import Prelude.
From S2P Require Import SafeMath.
From S2P Require Import Merkle.
From S2P Require Import MerkleProofs.
From S2P Require Import Validator.
From S2P Require Import RoundRobin.
From S2P Require Import ProposerProofs.
From S2P Require Import ValidatorUpdateProofs.
From S2P Require Import ValidatorSetProofs.
From S2P Require Import Types.
From S2P Require Import Header.
From S2P Require Import Block.
From S2P Require Import ChainState.
From S2P Require Import ChainStateProofs.
From S2P Require Import Evidence.
From S2P Require Import Pruning.
From S2P Require Import StateStore.

(** ** Validator sets as messages *)

Definition key_ok (v : Validator) : Prop := (exists pk, PubKey_ v = Some pk /\ len (pk_Bytes pk) = PubKeySize (pk_Type pk)) /\ len (Address v) = AddressSize.

(** Sets that can be written and read: keys of the size of their type, addresses of the right
    size and one of the validators as proposer. *)
Record storable (vals : ValidatorSet) : Prop := {
  st_electable : electable vals;
  st_keys : Forall key_ok (Validators vals);
  st_proposer : exists p, Proposer vals = Some p /\ key_ok p /\ 0 <= VotingPower p
}.

Lemma to_proto_validators l : Forall key_ok l -> validators_to_proto (Some <$> l) = Val l.
Proof.
  induction 1 as [|v l [(pk & Hpk & _) _] _ IH]; [done|]. rewrite fmap_cons. cbn [validators_to_proto Validator_ToProto]. rewrite Hpk, bool_decide_false by done. cbn [fail_if mbind outcome_bind]. rewrite IH. done.
Qed.
Lemma from_proto_validator v : key_ok v -> ValidatorFromProto v = Val v.
Proof. intros [(pk & Hpk & Hl) _]. unfold ValidatorFromProto, key_from_proto. rewrite Hpk, Hl, Z.eqb_refl. done. Qed.
Lemma from_proto_validators l : Forall key_ok l -> validators_from_proto l = Val l.
Proof. induction 1 as [|v l Hv _ IH]; [done|]. simpl. rewrite from_proto_validator by done. cbn [mbind outcome_bind]. by rewrite IH. Qed.
Lemma validate_key_ok v : key_ok v -> 0 <= VotingPower v -> Validator_ValidateBasic (Some v) = Val tt.
Proof.
  intros [(pk & Hpk & _) Ha] Hp. unfold Validator_ValidateBasic. rewrite Hpk, bool_decide_false by done. destruct (Z.ltb_spec (VotingPower v) 0); [lia|].
  rewrite Ha, Z.eqb_refl. done.
Qed.

Lemma validate_each_ok l : forall i, Forall key_ok l -> Forall (fun v => 0 < VotingPower v) l -> validate_each i l = Val tt.
Proof.
  induction l as [|v l IH]; intros i Hk Hp; [done|]. apply Forall_cons in Hk as [Hv Hk]. apply Forall_cons in Hp as [Hpv Hp]. cbn [validate_each].
  rewrite validate_key_ok by (done || lia). cbn [wrap_err mbind outcome_bind]. by apply IH.
Qed.

Lemma set_message vals : storable vals -> exists m, ValidatorSet_ToProto vals = Val m /\ ValidatorSetFromProto m = Val vals.
Proof.
  intros [[Hne Hnd Hp Ht Hm] Hk (p & Hpr & Hpk & Hpp)]. unfold ValidatorSet_ToProto. rewrite nonempty_is_empty by done. rewrite to_proto_validators by done. cbn [mbind outcome_bind].
  rewrite Hpr. unfold Validator_ToProto. destruct Hpk as [(pk & Hpk & Hpl) Hpa]. rewrite Hpk, bool_decide_false by done. cbn [fail_if mbind outcome_bind]. eexists. split; [done|].
  unfold ValidatorSetFromProto. simpl. rewrite from_proto_validators by done. cbn [mbind outcome_bind]. rewrite from_proto_validator by (split; eauto). cbn [mbind outcome_bind].
  pose proof (total_pos _ Hp Hne). unfold TotalVotingPower. simpl. rewrite updateTotalVotingPower_val by done. cbn [mbind outcome_bind lift]. simpl.
  unfold ValidatorSet_ValidateBasic. destruct vals as [l pr t]; simpl in *. rewrite nonempty_is_empty by done. rewrite validate_each_ok by done. cbn [fail_if mbind outcome_bind wrap_err].
  assert (Hvb := validate_key_ok p ltac:(split; eauto) Hpp). unfold Validator_ValidateBasic in Hvb. rewrite Hvb. simpl. rewrite Ht, Hpr. done.
Qed.

Lemma storable_rotated vals times : storable vals -> wf_set vals -> 0 < times ->
  exists vals', IncrementProposerPriority vals times = Val vals' /\ storable vals' /\ same_validators (Validators vals) (Validators vals').
Proof.
  intros [Hel Hk _] Hwf Ht. destruct (IncrementProposerPriority_same vals times Hwf (el_nonempty _ Hel) Ht) as (v' & p & Hi & Hs & Htot & Hpr & Hin). exists v'. split_and!; [done| |done].
  pose proof (electable_same _ _ Hel Hs Htot) as Hel'.
  assert (Hk' : Forall key_ok (Validators v')).
  { apply Forall_forall. intros w Hw. apply list_elem_of_lookup in Hw as [i Hw]. destruct (Forall2_lookup_r _ _ _ _ _ Hs Hw) as (u & Hu & Ha & Hpk & _).
    rewrite Forall_forall in Hk. destruct (Hk u) as [(pk & Hkk & Hl) Had]; [by eapply list_elem_of_lookup_2|]. split; [exists pk; split; congruence|congruence]. }
  split; [done|done|]. exists p. rewrite Forall_forall in Hk'. pose proof (el_power _ Hel') as Hpow. rewrite Forall_forall in Hpow. split_and!; [done|by apply Hk'|]. specialize (Hpow p Hin). simpl in Hpow. lia.
Qed.

(** ** The table of validator sets *)

(** The set a height is served from: the last checkpoint or the last change. *)
Definition checkpoint (h : Z) : Z := h - h mod valSetCheckpointInterval.
Definition source_height (h c : Z) : Z := Z.max (checkpoint h) c.
Lemma lastStored_source h c : 0 <= h <= MaxInt64 -> lastStoredHeightFor h c = source_height h c.
Proof.
  intros Hh. unfold lastStoredHeightFor, source_height, checkpoint. rewrite Z.rem_mod_nonneg by (unfold valSetCheckpointInterval; lia).
  pose proof (Z.mod_pos_bound h valSetCheckpointInterval ltac:(done)). rewrite int64_id; [done|]. pose proof (Z.mod_le h valSetCheckpointInterval ltac:(lia) ltac:(done)). int_lia.
Qed.
Lemma checkpoint_le h : 0 <= h -> 0 <= checkpoint h <= h /\ h - checkpoint h < valSetCheckpointInterval.
Proof.
  intros Hh. unfold checkpoint. pose proof (Z.mod_pos_bound h valSetCheckpointInterval ltac:(done)). pose proof (Z.mod_le h valSetCheckpointInterval Hh ltac:(done)). lia.
Qed.
Lemma checkpoint_self h : 0 <= h -> (Z.rem h valSetCheckpointInterval =? 0) = bool_decide (checkpoint h = h).
Proof.
  intros Hh. rewrite Z.rem_mod_nonneg by (done || lia). unfold checkpoint. destruct (Z.eqb_spec (h mod valSetCheckpointInterval) 0); [rewrite bool_decide_true|rewrite bool_decide_false]; try done; lia.
Qed.
(** A checkpoint that is not past a height is that height's checkpoint. *)
Lemma checkpoint_mono a b : 0 <= a <= b -> checkpoint b <= a -> checkpoint a = checkpoint b.
Proof.
  unfold checkpoint. intros Hab Hc. pose proof (Z.div_mod a valSetCheckpointInterval ltac:(done)). pose proof (Z.div_mod b valSetCheckpointInterval ltac:(done)).
  assert (Hq : a / valSetCheckpointInterval = b / valSetCheckpointInterval); [|lia]. apply Z.le_antisymm; [apply Z.div_le_mono; [done|lia]|].
  apply Z.div_le_lower_bound; [done|]. lia.
Qed.
Lemma checkpoint_next h : 0 <= h -> checkpoint (h + 1) = h + 1 \/ checkpoint (h + 1) = checkpoint h.
Proof.
  intros Hh. destruct (checkpoint_le (h + 1) ltac:(lia)) as [Hc _]. destruct (Z.eq_dec (checkpoint (h + 1)) (h + 1)); [by left|right]. symmetry. apply checkpoint_mono; lia.
Qed.

(** A table pruned to a height: of the heights before it only [keep] is left; the others stay. *)
Definition pruned_to {V} (retain keep : Z) (m m' : gmap Z V) : Prop :=
  forall k, 1 <= k -> m' !! k = if bool_decide (k < retain /\ k <> keep) then None else m !! k.
Lemma pruned_to_spec {V} retain keep (m m' : gmap Z V) :
  (forall k, m' !! k = if (1 <=? k) && (k <? retain) && negb (k =? keep) then None else m !! k) -> pruned_to retain keep m m'.
Proof.
  intros Hm k Hk. rewrite Hm. destruct (Z.leb_spec 1 k); [|lia]. destruct (Z.ltb_spec k retain), (Z.eqb_spec k keep); simpl;
    [rewrite bool_decide_false|rewrite bool_decide_true|rewrite bool_decide_false..]; try done; lia.
Qed.

Section tables.
(** The validator set of every height and the height of its last change. *)
Context (H : Z -> ValidatorSet) (C : Z -> Z).

Definition set_stored (h : Z) : bool := (h =? C h) || (Z.rem h valSetCheckpointInterval =? 0).
Record holds_set (m : gmap Z ValidatorsInfo) (h : Z) : Prop := {
  hs_info : exists info msg, m !! h = Some info /\ vi_ValidatorSet info = Some msg /\ ValidatorSetFromProto msg = Val (H h);
  hs_storable : storable (H h);
  hs_wf : wf_set (H h)
}.
Record vals_at (m : gmap Z ValidatorsInfo) (h : Z) : Prop := {
  va_range : 1 <= C h <= h;
  va_info : exists info, m !! h = Some info /\ vi_LastHeightChanged info = C h /\
    (vi_ValidatorSet info = None <-> source_height h (C h) <> h);
  va_source : holds_set m (source_height h (C h));
  va_same : same_validators (Validators (H (source_height h (C h)))) (Validators (H h))
}.
Record vals_inv (base top : Z) (m : gmap Z ValidatorsInfo) : Prop := {
  vi_at h : base <= h <= top -> vals_at m h;
  vi_unchanged h h' : base <= h <= h' -> h' <= top -> C h' <= h -> C h = C h'
}.

Lemma source_bounds h : 1 <= C h <= h -> 1 <= source_height h (C h) <= h /\ h - source_height h (C h) < valSetCheckpointInterval.
Proof. intros Hc. unfold source_height. pose proof (checkpoint_le h ltac:(lia)). lia. Qed.

(** Reading a set: the validators of the height, with the priorities rotated from the source. *)
Lemma LoadValidators_at db h : vals_at (db_validators db) h -> h <= MaxInt64 ->
  exists vs, LoadValidators db h = Val vs /\ same_validators (Validators (H h)) (Validators vs) /\
    (if decide (source_height h (C h) = h) then vs = H h else IncrementProposerPriority (H (source_height h (C h))) (h - source_height h (C h)) = Val vs).
Proof.
  intros [Hr (info & Hm & Hch & Hset) [(info' & msg & Hm' & Hmsg & Hfrom) Hst Hwf] Hsame] Hmax. pose proof (source_bounds h Hr) as [Hb Hd]. unfold LoadValidators. rewrite Hm.
  set (L := source_height h (C h)) in *. destruct (decide (L = h)) as [He|He].
  - rewrite He in Hm', Hfrom. assert (info' = info) as -> by congruence. rewrite Hmsg, Hfrom. cbn [wrap_err]. by exists (H h).
  - assert (vi_ValidatorSet info = None) as -> by (by apply Hset). rewrite Hch, lastStored_source by lia. fold L. unfold loadValidatorsInfo. rewrite Hm'. destruct info' as [o c']; simpl in Hmsg. rewrite Hmsg.
    rewrite Hfrom. cbn [wrap_err mbind outcome_bind]. rewrite int64_id by int_lia. unfold SafeConvertInt32. assert (Hdm : h - L < MaxInt32) by (unfold valSetCheckpointInterval in Hd; unfold MaxInt32; lia).
    destruct (Z.gtb_spec (h - L) MaxInt32); [lia|]. destruct (Z.ltb_spec (h - L) MinInt32); [unfold MinInt32 in *; lia|]. rewrite int32_id by (unfold is_int32, MinInt32; lia). cbn [lift mbind outcome_bind].
    destruct (storable_rotated (H L) (h - L) Hst Hwf ltac:(lia)) as (vs & Hi & Hst' & Hs'). rewrite Hi. cbn [lift mbind outcome_bind].
    destruct (set_message vs Hst') as (m2 & Ht2 & Hf2). rewrite Ht2. cbn [wrap_err mbind outcome_bind]. rewrite Hf2. cbn [wrap_err]. exists vs. split_and!; [done| |done].
    etransitivity; [by symmetry|done].
Qed.

Lemma holds_set_frame m m' h : m' !! h = m !! h -> holds_set m h -> holds_set m' h.
Proof. intros He [(info & msg & Hm & Hms & Hf) Hst Hwf]. split; [|done..]. exists info, msg. by rewrite He. Qed.
Lemma vals_at_frame m m' h : m' !! h = m !! h -> m' !! source_height h (C h) = m !! source_height h (C h) -> vals_at m h -> vals_at m' h.
Proof. intros He Hes [Hr (info & Hm & Hc & Hs) Hsrc Hsame]. split; [done| |by apply (holds_set_frame m)|done]. exists info. by rewrite He. Qed.

(** Writing the next height: a change, or the validators of the height before. *)
Lemma saveValidatorsInfo_inv db base top : vals_inv base top (db_validators db) -> 0 < base <= top -> top + 1 <= MaxInt64 -> storable (H (top + 1)) -> wf_set (H (top + 1)) ->
  (C (top + 1) = top + 1 \/ (C (top + 1) = C top /\ same_validators (Validators (H top)) (Validators (H (top + 1))))) ->
  exists db', saveValidatorsInfo db (top + 1) (C (top + 1)) (Some (H (top + 1))) = Val db' /\ vals_inv base (top + 1) (db_validators db') /\
    db_params db' = db_params db /\ db_responses db' = db_responses db.
Proof.
  intros [Hat Hun] Hbase Hmax Hst Hwf Hchg. pose proof (vi_at _ _ _ (Build_vals_inv _ _ _ Hat Hun) top ltac:(lia)) as Htop. pose proof (va_range _ _ Htop) as Hrt.
  assert (Hr : 1 <= C (top + 1) <= top + 1) by lia. destruct (set_message _ Hst) as (msg & Hto & Hfrom). unfold saveValidatorsInfo. destruct (Z.gtb_spec (C (top + 1)) (top + 1)); [lia|].
  cbn [fail_if mbind outcome_bind]. assert (Hstored : ((top + 1 =? C (top + 1)) || (Z.rem (top + 1) valSetCheckpointInterval =? 0)) = bool_decide (source_height (top + 1) (C (top + 1)) = top + 1)).
  { rewrite checkpoint_self by lia. unfold source_height. pose proof (checkpoint_le (top + 1) ltac:(lia)) as [? _].
    destruct (Z.eqb_spec (top + 1) (C (top + 1))); simpl; [rewrite bool_decide_true; [done|lia]|]. apply bool_decide_ext. lia. }
  rewrite Hstored. set (set := if bool_decide (source_height (top + 1) (C (top + 1)) = top + 1) then Some msg else None).
  assert (Hset : (if bool_decide (source_height (top + 1) (C (top + 1)) = top + 1) then pv ← wrap_err ErrStateMessage (set_ToProto (Some (H (top + 1)))); Val (Some pv) else Val None) = (Val set : outcome StateStoreError _)).
  { unfold set. case_bool_decide; [|done]. simpl. rewrite Hto. done. }
  rewrite Hset. cbn [mbind outcome_bind]. eexists. split; [done|]. simpl. split; [|done]. set (m' := <[top + 1 := _]> _).
  assert (Hold : forall k, k <= top -> m' !! k = db_validators db !! k) by (intros k Hk; apply lookup_insert_ne; lia).
  assert (Hnew : m' !! (top + 1) = Some (mkValidatorsInfo set (C (top + 1)))) by apply lookup_insert_eq.
  assert (Hsrc : holds_set m' (source_height (top + 1) (C (top + 1))) /\ same_validators (Validators (H (source_height (top + 1) (C (top + 1))))) (Validators (H (top + 1)))).
  { destruct (decide (source_height (top + 1) (C (top + 1)) = top + 1)) as [He|He].
    - rewrite He. split; [|reflexivity]. split; [|done..]. exists (mkValidatorsInfo set (C (top + 1))), msg. split; [done|]. split; [|done]. simpl. unfold set. by rewrite bool_decide_true.
    - destruct Hchg as [Hc|[Hc Hs]]; [unfold source_height in He; pose proof (checkpoint_le (top + 1)); lia|].
      assert (Hss : source_height (top + 1) (C (top + 1)) = source_height top (C top)).
      { unfold source_height in *. rewrite Hc in *. destruct (checkpoint_next top) as [Hcp|Hcp]; [lia| |by rewrite Hcp]. rewrite Hcp in He. lia. }
      rewrite Hss. pose proof (source_bounds top Hrt) as [Hb _]. split; [apply (holds_set_frame (db_validators db)); [apply Hold; lia|apply (va_source _ _ Htop)]|].
      etransitivity; [apply (va_same _ _ Htop)|done]. }
  split.
  - intros h Hh. destruct (decide (h = top + 1)) as [->|Hne].
    + split; [done| |apply Hsrc|apply Hsrc]. exists (mkValidatorsInfo set (C (top + 1))). split_and!; [done|done|]. unfold set. simpl. case_bool_decide; split; try done.
    + pose proof (Hat h ltac:(lia)) as Hv. pose proof (source_bounds h (va_range _ _ Hv)) as [Hb _]. apply (vals_at_frame (db_validators db)); [apply Hold; lia|apply Hold; lia|done].
  - intros h h' Hh Hh' Hc. destruct (decide (h' = top + 1)) as [->|Hne]; [|apply Hun; lia]. destruct (decide (h = top + 1)) as [->|Hne']; [done|].
    destruct Hchg as [Hc'|[Hc' _]]; [lia|]. rewrite Hc'. apply Hun; lia.
Qed.

(** Pruning keeps every height from the one retained on. *)
Lemma pruneValidatorSets_inv db base top retain : vals_inv base top (db_validators db) -> 0 < base -> base <= retain <= top -> top < MaxInt64 ->
  exists db', pruneValidatorSets db retain = Val db' /\ vals_inv retain top (db_validators db') /\ db_params db' = db_params db /\ db_responses db' = db_responses db /\ db_state db' = db_state db /\
    pruned_to retain (source_height retain (C retain)) (db_validators db) (db_validators db').
Proof.
  intros [Hat Hun] Hb0 Hret Hmax. pose proof (Hat retain ltac:(lia)) as [Hr (info & Hm & Hch & _) [(info' & msg & Hm' & Hms & _) _ _] _]. pose proof (source_bounds retain Hr) as [Hsb _].
  unfold pruneValidatorSets, loadValidatorsInfo. rewrite Hm. cbn [mbind outcome_bind]. rewrite Hch, lastStored_source by lia. set (L := source_height retain (C retain)) in *. rewrite Hm'.
  destruct info' as [o c']; simpl in Hms. rewrite Hms. rewrite int64_id by int_lia. set (m1 := if L <? retain then _ else _). eexists. split; [done|]. simpl.
  assert (Hspec : forall k, pruneRange m1 1 L !! k = if (1 <=? k) && (k <? retain) && negb (k =? L) then None else db_validators db !! k).
  { intros k. rewrite pruneRange_spec. unfold m1. destruct (Z.ltb_spec L retain) as [Hl|Hl].
    - rewrite pruneRange_spec. unfold in_range. simpl. repeat match goal with |- context [?a <? ?b] => destruct (Z.ltb_spec a b) end; destruct (Z.leb_spec 1 k), (Z.eqb_spec k L); simpl; try done; lia.
    - unfold in_range. simpl. repeat match goal with |- context [?a <? ?b] => destruct (Z.ltb_spec a b) end; destruct (Z.leb_spec 1 k), (Z.eqb_spec k L); simpl; try done; lia. }
  assert (Hkeep : forall k, retain <= k \/ k = L -> pruneRange m1 1 L !! k = db_validators db !! k).
  { intros k Hk. rewrite Hspec. destruct (Z.ltb_spec k retain), (Z.eqb_spec k L); rewrite ?andb_false_r; simpl; rewrite ?andb_false_r; try done. lia. }
  split_and!; try done.
  - split; [|intros; apply Hun; lia]. intros h Hh. pose proof (Hat h ltac:(lia)) as Hv. apply (vals_at_frame (db_validators db)); [apply Hkeep; lia| |done]. apply Hkeep.
    destruct (Z.le_gt_cases retain (source_height h (C h))) as [|Hlt]; [by left|right]. unfold L, source_height in *. pose proof (Hun retain h ltac:(lia) ltac:(lia) ltac:(lia)) as ->.
    rewrite (checkpoint_mono retain h); [done|lia|lia].
  - by apply pruned_to_spec.
Qed.
End tables.

(** ** The table of consensus parameters *)

Section params.
Context (P : Z -> ConsensusParams) (D : Z -> Z).

Record params_at (m : gmap Z ConsensusParamsInfo) (h : Z) : Prop := {
  pa_range : 1 <= D h <= h;
  pa_info : exists info, m !! h = Some info /\ ci_LastHeightChanged info = D h /\ ci_ConsensusParams info = if D h =? h then Some (P h) else None;
  pa_source : exists info, m !! D h = Some info /\ ci_ConsensusParams info = Some (P h)
}.
Record params_inv (base top : Z) (m : gmap Z ConsensusParamsInfo) : Prop := {
  pi_at h : base <= h <= top -> params_at m h;
  pi_unchanged h h' : base <= h <= h' -> h' <= top -> D h' <= h -> D h = D h'
}.

Lemma LoadConsensusParams_at db h : params_at (db_params db) h -> LoadConsensusParams db h = Val (P h).
Proof.
  intros [_ (info & Hm & Hc & Hp) (info' & Hm' & Hp')]. unfold LoadConsensusParams. rewrite Hm, Hp. destruct (D h =? h); [done|]. rewrite Hc, Hm', Hp'. done.
Qed.
Lemma params_at_frame m m' h : m' !! h = m !! h -> m' !! D h = m !! D h -> params_at m h -> params_at m' h.
Proof. intros He Hed [Hr Hi Hs]. split; [done|by rewrite He|by rewrite Hed]. Qed.

Lemma saveParams_inv db base top : params_inv base top (db_params db) -> 0 < base <= top -> (D (top + 1) = top + 1 \/ (D (top + 1) = D top /\ P (top + 1) = P top)) ->
  params_inv base (top + 1) (db_params (saveConsensusParamsInfo db (top + 1) (D (top + 1)) (P (top + 1)))).
Proof.
  intros [Hat Hun] Hbase Hchg. pose proof (Hat top ltac:(lia)) as Htop. pose proof (pa_range _ _ Htop). simpl. set (m' := <[top + 1 := _]> _).
  assert (Hold : forall k, k <= top -> m' !! k = db_params db !! k) by (intros k Hk; apply lookup_insert_ne; lia). split.
  - intros h Hh. destruct (decide (h = top + 1)) as [->|Hne].
    + split; [lia|eexists; split; [apply lookup_insert_eq|done]|]. destruct Hchg as [Hc|[Hc Hp]].
      * rewrite Hc. eexists. split; [apply lookup_insert_eq|]. simpl. by rewrite Hc, Z.eqb_refl.
      * rewrite Hc, Hold, Hp by lia. apply (pa_source _ _ Htop).
    + pose proof (Hat h ltac:(lia)) as Hv. pose proof (pa_range _ _ Hv). apply (params_at_frame (db_params db)); [apply Hold; lia|apply Hold; lia|done].
  - intros h h' Hh Hh' Hc. destruct (decide (h' = top + 1)) as [->|Hne]; [|apply Hun; lia]. destruct (decide (h = top + 1)) as [->|Hne']; [done|].
    destruct Hchg as [Hc'|[Hc' _]]; [lia|]. rewrite Hc'. apply Hun; lia.
Qed.

Lemma pruneConsensusParams_inv db base top retain : params_inv base top (db_params db) -> 0 < base -> base <= retain <= top -> top < MaxInt64 ->
  exists db', pruneConsensusParams db retain = Val db' /\ params_inv retain top (db_params db') /\ db_validators db' = db_validators db /\ db_responses db' = db_responses db /\ db_state db' = db_state db /\
    pruned_to retain (D retain) (db_params db) (db_params db').
Proof.
  intros [Hat Hun] Hb0 Hret Hmax. pose proof (Hat retain ltac:(lia)) as [Hr (info & Hm & Hch & Hp) (info' & Hm' & Hp')].
  unfold pruneConsensusParams, loadConsensusParamsInfo. rewrite Hm. cbn [mbind outcome_bind]. rewrite Hch, Hp, int64_id by int_lia.
  assert (Hgoal : forall m1, (forall k, pruneRange m1 1 (D retain) !! k = if (1 <=? k) && (k <? retain) && negb (k =? D retain) then None else db_params db !! k) ->
    exists db', (Val (set_params db (pruneRange m1 1 (D retain))) : outcome StateStoreError StateDB) = Val db' /\ params_inv retain top (db_params db') /\ db_validators db' = db_validators db /\ db_responses db' = db_responses db /\
      db_state db' = db_state db /\ pruned_to retain (D retain) (db_params db) (db_params db')).
  { intros m1 Hspec. eexists. split; [done|]. simpl. split_and!; try done.
    - assert (Hkeep : forall k, retain <= k \/ k = D retain -> pruneRange m1 1 (D retain) !! k = db_params db !! k).
      { intros k Hk. rewrite Hspec. destruct (Z.ltb_spec k retain), (Z.eqb_spec k (D retain)); rewrite ?andb_false_r; simpl; rewrite ?andb_false_r; try done. lia. }
      split; [|intros; apply Hun; lia]. intros h Hh. pose proof (Hat h ltac:(lia)) as Hv. apply (params_at_frame (db_params db)); [apply Hkeep; lia| |done]. apply Hkeep.
      destruct (Z.le_gt_cases retain (D h)) as [|Hlt]; [by left|right]. symmetry. apply Hun; lia.
    - by apply pruned_to_spec. }
  destruct (Z.eqb_spec (D retain) retain) as [He|He].
  - cbn [mbind outcome_bind]. apply Hgoal. intros k. rewrite pruneRange_spec. unfold in_range. simpl.
    repeat match goal with |- context [?a <? ?b] => destruct (Z.ltb_spec a b) end; destruct (Z.leb_spec 1 k), (Z.eqb_spec k (D retain)); simpl; try done; lia.
  - rewrite Hm'. destruct info' as [o c']; simpl in Hp'. rewrite Hp'. cbn [mbind outcome_bind]. apply Hgoal. intros k. rewrite !pruneRange_spec. unfold in_range. simpl.
    repeat match goal with |- context [?a <? ?b] => destruct (Z.ltb_spec a b) end; destruct (Z.leb_spec 1 k), (Z.eqb_spec k (D retain)); simpl; try done; lia.
Qed.
End params.

(** ** The states of a chain *)

Definition next_height (s : State) : Z := if sm_LastBlockHeight s =? 0 then sm_InitialHeight s else sm_LastBlockHeight s + 1.

(** A state that can be written and read. *)
Record saveable (s : State) : Prop := {
  sv_initial : 1 <= sm_InitialHeight s;
  sv_height : sm_LastBlockHeight s = 0 \/ 1 <= sm_LastBlockHeight s;
  sv_max : next_height s + 1 < MaxInt64;
  sv_vals : exists v, sm_Validators s = Some v /\ storable v /\ wf_set v;
  sv_next : exists v, sm_NextValidators s = Some v /\ storable v /\ wf_set v;
  sv_last : if sm_LastBlockHeight s =? 0 then sm_LastValidators s = Some empty_set else exists v, sm_LastValidators s = Some v /\ storable v;
  sv_id : BlockID_ValidateBasic (sm_LastBlockID s) = Val tt
}.

(** What a block does to the state, as far as the store depends on it. *)
Record succeeds (s s' : State) : Prop := {
  su_height : sm_LastBlockHeight s' = next_height s;
  su_initial : sm_InitialHeight s' = sm_InitialHeight s;
  su_vals : sm_Validators s' = sm_NextValidators s;
  su_changed : sm_LastHeightValidatorsChanged s' = next_height s + 2 \/
    (sm_LastHeightValidatorsChanged s' = sm_LastHeightValidatorsChanged s /\
     exists v v', sm_NextValidators s = Some v /\ sm_NextValidators s' = Some v' /\ same_validators (Validators v) (Validators v'));
  su_params : sm_LastHeightConsensusParamsChanged s' = next_height s + 1 \/
    (sm_LastHeightConsensusParamsChanged s' = sm_LastHeightConsensusParamsChanged s /\ sm_ConsensusParams s' = sm_ConsensusParams s)
}.
(** The state a chain starts from. *)
Record starts (s : State) : Prop := {
  sr_height : sm_LastBlockHeight s = 0;
  sr_vals : sm_LastHeightValidatorsChanged s = sm_InitialHeight s;
  sr_params : sm_LastHeightConsensusParamsChanged s = sm_InitialHeight s;
  sr_same : exists v v', sm_Validators s = Some v /\ sm_NextValidators s = Some v' /\ same_validators (Validators v) (Validators v')
}.

Section chain.
Context `{!Crypto, !BatchCrypto, !Sha256, !TimeCodec, !WrapperCodec, !EvidenceOps, !BlockCodec}.

(** Applying a block leads from a state to one that succeeds it. *)
Lemma updateState_succeeds st bid h resp ups st' appHash : saveable st -> h_Height h = next_height st -> updateState st bid h resp ups = Val st' -> succeeds st (with_AppHash st' appHash).
Proof.
  intros Hs Hh Hup. destruct (sv_next _ Hs) as (nv & En & Hst & Hwf). pose proof (sv_max _ Hs). pose proof (sv_initial _ Hs). pose proof (sv_height _ Hs) as Hpos.
  assert (1 <= next_height st) by (unfold next_height; destruct (Z.eqb_spec (sm_LastBlockHeight st) 0); lia).
  unfold updateState in Hup. rewrite En in Hup. cbn [deref mbind outcome_bind] in Hup. apply bind_val in Hup as ([nval lhv] & Hn & Hup). apply bind_val in Hup as (rot & Hrot & Hup).
  destruct (IncrementProposerPriority nval 1) as [rot'| |] eqn:Hi; [|done..]. cbn [lift] in Hrot. injection Hrot as <-.
  apply bind_val in Hup as ([[np ver] lhp] & Hp & Hup). destruct (sm_Validators st); [|done]. cbn [deref mbind outcome_bind] in Hup.
  apply bind_val in Hup as (res & _ & Hup). injection Hup as <-. split; simpl; [done|done|done| |].
  - destruct (len ups >? 0); [left|right].
    + apply bind_val in Hn as (x & _ & Hx). injection Hx as _ <-. rewrite Hh, int64_id by int_lia. lia.
    + injection Hn as <- <-. split; [done|]. exists nv, rot'. split_and!; [done|done|].
      destruct (IncrementProposerPriority_same nv 1 Hwf (el_nonempty _ (st_electable _ Hst)) ltac:(lia)) as (v' & p & Hi' & Hsame & _). congruence.
  - destruct (ar_ConsensusParamUpdates resp) as [u|].
    + left. apply bind_val in Hp as (x & _ & Hx). injection Hx as <- <- <-. rewrite Hh, int64_id by int_lia. lia.
    + right. by injection Hp as <- <- <-.
Qed.
End chain.

(** The state made from a genesis document with validators is one a chain starts from. *)
Lemma genesis_starts `{!Crypto} software g now s : MakeGenesisState software g now = Val s -> gd_Validators g <> [] -> starts s /\ state_ok s.
Proof.
  unfold MakeGenesisState. intros Hg Hne. apply bind_val in Hg as (g' & Hv & Hg). unfold ValidateAndComplete in Hv. do 3 apply bind_val in Hv as ([] & _ & Hv).
  apply bind_val in Hv as (params & Hpar & Hv). apply bind_val in Hv as (vs & Hcv & Hv). injection Hv as <-. simpl in Hg.
  assert (Hlen : vs <> []).
  { destruct (gd_Validators g) as [|x l]; [done|]. simpl in Hcv. apply bind_val in Hcv as ([] & _ & Hcv). apply bind_val in Hcv as (x' & _ & Hcv). apply bind_val in Hcv as (r & _ & Hcv). by injection Hcv as <-. }
  assert (Hok : ValidateConsensusParams params = Val tt).
  { destruct (gd_ConsensusParams g) as [p|]; [|by injection Hpar as <-]. apply bind_val in Hpar as ([] & Hp & Hpar). injection Hpar as <-.
    destruct (ValidateConsensusParams p) as [[]| |]; [done|discriminate..]. }
  destruct (Z.eqb_spec (len vs) 0) as [Hz|_]; [unfold len in Hz; destruct vs; [done|simpl in Hz; lia]|].
  apply bind_val in Hg as ([v nv] & Hsets & Hg). injection Hg as <-. apply bind_val in Hsets as (valz & Hz & Hsets).
  destruct (NewValidatorSet valz) as [v1| |] eqn:Hnew; cbn [lift mbind outcome_bind] in Hsets; [|done..]. apply bind_val in Hsets as (nv' & Hinc & Hsets).
  injection Hsets as <- <-. unfold CopyIncrementProposerPriority, ValidatorSet_Copy in Hinc. destruct (IncrementProposerPriority v1 1) as [nv1| |] eqn:Hi; [|done..]. injection Hinc as <-.
  assert (Hr : reachable v1) by (by eapply reach_new). pose proof (reachable_invariant _ Hr) as Hwf.
  assert (Hne1 : Validators v1 <> []).
  { intros Hnil. unfold IncrementProposerPriority, is_empty in Hi. unfold IsNilOrEmpty in Hi. by rewrite Hnil in Hi. }
  destruct (IncrementProposerPriority_same v1 1 Hwf Hne1 ltac:(lia)) as (w & p & Hi' & Hsame & _). assert (w = nv1) as -> by congruence. split.
  - split; simpl; [done|done|done|]. by exists v1, nv1.
  - split; simpl; [|by exists v1| |done].
    + exists nv1. split_and!; [done|apply (reach_rotate v1 1 nv1 Hr ltac:(by left) Hi)|by eapply same_nonempty].
    + exists empty_set. split; [done|]. by apply (reach_new []).
Qed.

(** ** The store of a chain *)

Lemma state_message s : saveable s -> exists m, State_ToProto s = Val m /\ State_FromProto m = Val s.
Proof.
  intros [Hi Hh Hm (v & Ev & Hv & _) (nv & En & Hn & _) Hl Hid]. unfold State_ToProto. rewrite Ev, En. cbn [set_ToProto].
  destruct (set_message v Hv) as (mv & Htv & Hfv). destruct (set_message nv Hn) as (mn & Htn & Hfn). rewrite Htv. cbn [mbind outcome_bind]. rewrite Htn. cbn [mbind outcome_bind].
  destruct (Z.geb_spec (sm_LastBlockHeight s) 1) as [Hge|Hlt].
  - destruct (Z.eqb_spec (sm_LastBlockHeight s) 0); [lia|]. destruct Hl as (lv & El & Hsl). destruct (set_message lv Hsl) as (ml & Htl & Hfl). rewrite El. cbn [set_ToProto]. rewrite Htl. cbn [mbind outcome_bind].
    eexists. split; [done|]. unfold State_FromProto. simpl. rewrite Hid. cbn [wrap_err mbind outcome_bind]. rewrite Hfv. cbn [mbind outcome_bind]. rewrite Hfn. cbn [mbind outcome_bind].
    destruct (Z.geb_spec (sm_LastBlockHeight s) 1); [|lia]. cbn [set_FromProto]. rewrite Hfl. cbn [mbind outcome_bind]. unfold with_sets. simpl. destruct s; simpl in *. by subst.
  - destruct (Z.eqb_spec (sm_LastBlockHeight s) 0); [|lia]. cbn [mbind outcome_bind]. eexists. split; [done|]. unfold State_FromProto. simpl. rewrite Hid. cbn [wrap_err mbind outcome_bind].
    rewrite Hfv. cbn [mbind outcome_bind]. rewrite Hfn. cbn [mbind outcome_bind]. destruct (Z.geb_spec (sm_LastBlockHeight s) 1); [lia|]. cbn [mbind outcome_bind]. unfold with_sets. simpl. destruct s; simpl in *. by subst.
Qed.

(** The states of a chain, from its first state on. *)
Record chain (states : list State) : Prop := {
  ch_saveable : Forall saveable states;
  ch_start s : states !! 0%nat = Some s -> starts s;
  ch_step i s s' : states !! i = Some s -> states !! S i = Some s' -> succeeds s s'
}.

(** What the store is asked to do: save the states of the chain in turn, prune to a height that
    it holds, and keep responses.  [n] states are saved, and the store serves heights from [base] on. *)
Inductive store_reach (states : list State) : nat -> Z -> StateDB -> Prop :=
| store_first s db : states !! 0%nat = Some s -> Store_Save empty_db s = Val db -> store_reach states 1 (sm_InitialHeight s) db
| store_save n base db s db' : store_reach states n base db -> states !! n = Some s -> Store_Save db s = Val db' -> store_reach states (S n) base db'
| store_prune n base db s retain db' : store_reach states (S n) base db -> states !! n = Some s -> base <= retain <= next_height s ->
    PruneStates db retain = (db', Val tt) -> store_reach states (S n) retain db'
| store_responses n base db h r : store_reach states n base db -> store_reach states n base (SaveABCIResponses db h r).

Section history.
Context (states : list State) (s0 : State).
Hypothesis Hchain : chain states.
Hypothesis Hs0 : states !! 0%nat = Some s0.

Abbreviation ih := (sm_InitialHeight s0).
Definition idx (h : Z) : nat := Z.to_nat (h - ih).
Definition H_of (h : Z) : ValidatorSet :=
  match states !! idx h with
  | Some s => default empty_set (sm_Validators s)
  | None => match states !! (idx h - 1)%nat with Some s => default empty_set (sm_NextValidators s) | None => empty_set end
  end.
Definition C_of (h : Z) : Z := if h =? ih then ih else match states !! (idx h - 1)%nat with Some s => sm_LastHeightValidatorsChanged s | None => 0 end.
Definition P_of (h : Z) : ConsensusParams := match states !! idx h with Some s => sm_ConsensusParams s | None => DefaultConsensusParams end.
Definition D_of (h : Z) : Z := match states !! idx h with Some s => sm_LastHeightConsensusParamsChanged s | None => 0 end.

Lemma chain_heights i s : states !! i = Some s -> saveable s /\ next_height s = ih + Z.of_nat i /\ sm_InitialHeight s = ih /\ (sm_LastBlockHeight s = 0 <-> i = O).
Proof.
  destruct Hchain as [Hsv Hst Hstep]. rewrite Forall_lookup in Hsv. revert s. induction i as [|i IH]; intros s Hs.
  - assert (s = s0) as -> by congruence. pose proof (sr_height _ (Hst s0 Hs0)) as Hz. split; [by apply (Hsv 0%nat)|]. unfold next_height. rewrite Hz. simpl. split_and!; [lia|done|done].
  - destruct (states !! i) as [p|] eqn:Hp; [|apply lookup_ge_None in Hp; apply lookup_lt_Some in Hs; lia]. destruct (IH p eq_refl) as (Hsp & Hn & Hi & _).
    destruct (Hstep i p s Hp Hs) as [Hh Hin _ _ _]. split; [by apply (Hsv (S i))|]. pose proof (sv_initial _ Hsp). unfold next_height at 1. rewrite Hh, Hn. destruct (Z.eqb_spec (ih + Z.of_nat i) 0); [lia|].
    split_and!; [lia|congruence|lia].
Qed.
Lemma ih_pos : 1 <= ih.
Proof. destruct (chain_heights 0 s0 Hs0) as (Hs & _). apply (sv_initial _ Hs). Qed.
Lemma idx_next i s : states !! i = Some s -> idx (next_height s) = i /\ idx (next_height s + 1) = S i.
Proof. intros Hs. destruct (chain_heights i s Hs) as (_ & Hn & _). unfold idx. lia. Qed.

Lemma H_current i s : states !! i = Some s -> sm_Validators s = Some (H_of (next_height s)).
Proof. intros Hs. destruct (chain_heights i s Hs) as (Hv & _). destruct (sv_vals _ Hv) as (v & Ev & _). unfold H_of. destruct (idx_next i s Hs) as [-> _]. by rewrite Hs, Ev. Qed.
Lemma H_next i s : states !! i = Some s -> sm_NextValidators s = Some (H_of (next_height s + 1)).
Proof.
  intros Hs. destruct (chain_heights i s Hs) as (Hv & _). destruct (sv_next _ Hv) as (v & Ev & _). unfold H_of. destruct (idx_next i s Hs) as [_ ->].
  destruct (states !! S i) as [s'|] eqn:Hs'; [rewrite (su_vals _ _ (ch_step _ Hchain i s s' Hs Hs')), Ev; done|]. replace (S i - 1)%nat with i by lia. by rewrite Hs, Ev.
Qed.
Lemma C_next i s : states !! i = Some s -> sm_LastHeightValidatorsChanged s = C_of (next_height s + 1).
Proof.
  intros Hs. destruct (chain_heights i s Hs) as (_ & Hn & _). unfold C_of. destruct (Z.eqb_spec (next_height s + 1) ih); [lia|]. destruct (idx_next i s Hs) as [_ ->].
  replace (S i - 1)%nat with i by lia. by rewrite Hs.
Qed.
Lemma P_current i s : states !! i = Some s -> sm_ConsensusParams s = P_of (next_height s) /\ sm_LastHeightConsensusParamsChanged s = D_of (next_height s).
Proof. intros Hs. unfold P_of, D_of. destruct (idx_next i s Hs) as [-> _]. by rewrite Hs. Qed.
Lemma H_wf i s : states !! i = Some s -> (storable (H_of (next_height s)) /\ wf_set (H_of (next_height s))) /\ storable (H_of (next_height s + 1)) /\ wf_set (H_of (next_height s + 1)).
Proof.
  intros Hs. destruct (chain_heights i s Hs) as (Hv & _). destruct (sv_vals _ Hv) as (v & Ev & ? & ?), (sv_next _ Hv) as (v' & Ev' & ? & ?).
  rewrite (H_current i s Hs) in Ev. rewrite (H_next i s Hs) in Ev'. by simplify_eq.
Qed.

(** The store after [n] states. *)
Record store_ok (n : nat) (base : Z) (db : StateDB) : Prop := {
  so_pos : 0 < base;
  so_range s : states !! n = Some s -> base <= next_height s;
  so_vals s : states !! n = Some s -> vals_inv H_of C_of base (next_height s + 1) (db_validators db);
  so_pars s : states !! n = Some s -> params_inv P_of D_of base (next_height s) (db_params db);
  so_state s : states !! n = Some s -> Store_Load db = Val s
}.

Lemma save_next_height s : saveable s -> int64 (sm_LastBlockHeight s + 1) = sm_LastBlockHeight s + 1 /\ (sm_LastBlockHeight s + 1 =? 1) = (sm_LastBlockHeight s =? 0) /\ int64 (next_height s + 1) = next_height s + 1.
Proof.
  intros Hs. pose proof (sv_max _ Hs) as Hm. pose proof (sv_height _ Hs). pose proof (sv_initial _ Hs). unfold next_height in *.
  destruct (Z.eqb_spec (sm_LastBlockHeight s) 0); rewrite !int64_id by int_lia; (split_and!; [done|lia|done]).
Qed.

(** The first state writes the sets of the first two heights. *)
Lemma first_save_ok : exists db, Store_Save empty_db s0 = Val db /\ store_ok 0 ih db.
Proof.
  destruct (chain_heights 0 s0 Hs0) as (Hsv & Hn & _ & Hz). pose proof (ch_start _ Hchain s0 Hs0) as [Hz0 Hlv Hlp (v & v' & Ev & Ev' & Hsame)]. pose proof (sv_max _ Hsv) as Hmax. pose proof ih_pos as Hih.
  destruct (save_next_height s0 Hsv) as (H1 & H2 & H3). replace (ih + Z.of_nat 0) with ih in Hn by lia.
  unfold Store_Save. rewrite H1, H2, Hz0. simpl (0 =? 0). cbv iota. rewrite Hn in H3, Hmax. rewrite H3.
  pose proof (H_current 0 s0 Hs0) as Hcur. pose proof (H_next 0 s0 Hs0) as Hnx. pose proof (C_next 0 s0 Hs0) as Hc. destruct (P_current 0 s0 Hs0) as [Hp Hd]. destruct (H_wf 0 s0 Hs0) as ((Hst & Hwf) & Hst' & Hwf').
  rewrite Hn in *. destruct (set_message _ Hst) as (msg & Hto & Hfrom). rewrite Hcur. set (db1 := set_validators empty_db {[ih := mkValidatorsInfo (Some msg) ih]}).
  assert (Hfirst : saveValidatorsInfo empty_db ih ih (Some (H_of ih)) = Val db1).
  { unfold saveValidatorsInfo. destruct (Z.gtb_spec ih ih); [lia|]. rewrite Z.eqb_refl. cbn [orb fail_if mbind outcome_bind set_ToProto]. by rewrite Hto. }
  rewrite Hfirst. cbn [mbind outcome_bind]. assert (Cih : C_of ih = ih) by (unfold C_of; by rewrite Z.eqb_refl).
  assert (Hsrc : source_height ih (C_of ih) = ih) by (rewrite Cih; unfold source_height; pose proof (checkpoint_le ih); lia).
  assert (Hinv1 : vals_inv H_of C_of ih ih (db_validators db1)).
  { assert (Hl : db_validators db1 !! ih = Some (mkValidatorsInfo (Some msg) ih)) by apply lookup_singleton_eq.
    split; [|intros h h' Hh Hh' _; by replace h with h' by lia]. intros h Hh. replace h with ih by lia. split; [rewrite Cih; lia| | |].
    - eexists. split; [exact Hl|]. rewrite Cih. simpl. split; [done|]. rewrite <- Cih at 2. rewrite Hsrc. done.
    - rewrite Hsrc. split; [|done..]. by exists (mkValidatorsInfo (Some msg) ih), msg.
    - rewrite Hsrc. reflexivity. }
  assert (Hchg : C_of (ih + 1) = C_of ih /\ same_validators (Validators (H_of ih)) (Validators (H_of (ih + 1)))).
  { split; [congruence|]. rewrite Ev in Hcur. rewrite Ev' in Hnx. injection Hcur as <-. injection Hnx as <-. done. }
  destruct (saveValidatorsInfo_inv H_of C_of db1 ih ih Hinv1 ltac:(lia) ltac:(lia) Hst' Hwf' ltac:(by right)) as (db2 & Hsave & Hinv2 & Hpar & _).
  rewrite Hc, Hnx, Hsave. cbn [mbind outcome_bind]. destruct (state_message s0 Hsv) as (m & Htm & Hfm). unfold state_Bytes. rewrite Htm. cbn [mbind outcome_bind].
  eexists. split; [done|]. split; [lia| | | |]; intros s Hs; assert (s = s0) as -> by congruence; rewrite ?Hn.
  - lia.
  - exact Hinv2.
  - simpl. rewrite Hpar. rewrite Hlp, Hp, Z.eqb_refl. simpl. split; [|intros h h' Hh Hh' _; by replace h with h' by lia]. intros h Hh. replace h with ih by lia. rewrite Hlp in Hd. split; [lia| |].
    + eexists. split; [apply lookup_insert_eq|]. simpl. rewrite <- Hd, Z.eqb_refl. done.
    + eexists. rewrite <- Hd. split; [apply lookup_insert_eq|]. done.
  - unfold Store_Load. simpl. rewrite Hfm. done.
Qed.

Lemma next_save_ok n base db s s' : store_ok n base db -> states !! n = Some s -> states !! S n = Some s' ->
  exists db', Store_Save db s' = Val db' /\ store_ok (S n) base db'.
Proof.
  intros [Hpos Hrange Hvals Hpars _] Hs Hs'. specialize (Hrange s Hs). specialize (Hvals s Hs). specialize (Hpars s Hs).
  destruct (chain_heights n s Hs) as (Hsv & Hn & _). destruct (chain_heights (S n) s' Hs') as (Hsv' & Hn' & _ & Hz). pose proof (ch_step _ Hchain n s s' Hs Hs') as [Hh _ Hv Hchg Hpchg].
  assert (Hnn : next_height s' = next_height s + 1) by lia. pose proof (sv_max _ Hsv') as Hmax. destruct (save_next_height s' Hsv') as (H1 & H2 & H3).
  unfold Store_Save. rewrite H1, H2. destruct (Z.eqb_spec (sm_LastBlockHeight s') 0) as [Hz0|Hz0]; [apply Hz in Hz0; done|]. cbn [mbind outcome_bind].
  assert (Hlb : sm_LastBlockHeight s' + 1 = next_height s') by (unfold next_height; destruct (Z.eqb_spec (sm_LastBlockHeight s') 0); lia). rewrite Hlb, H3, Hnn in *.
  pose proof (H_next (S n) s' Hs') as Hnx. pose proof (C_next (S n) s' Hs') as Hc. destruct (P_current (S n) s' Hs') as [Hp Hd]. destruct (H_wf (S n) s' Hs') as (_ & Hst' & Hwf').
  pose proof (C_next n s Hs) as Hc0. destruct (P_current n s Hs) as [Hp0 Hd0]. pose proof (H_next n s Hs) as Hnx0. rewrite Hnn in *.
  assert (Hcases : C_of (next_height s + 1 + 1) = next_height s + 1 + 1 \/
    (C_of (next_height s + 1 + 1) = C_of (next_height s + 1) /\ same_validators (Validators (H_of (next_height s + 1))) (Validators (H_of (next_height s + 1 + 1))))).
  { destruct Hchg as [Hch|[Hch (v & v' & Ev & Ev' & Hsame)]]; [left; lia|right]. split; [congruence|]. rewrite Ev in Hnx0. rewrite Ev' in Hnx. injection Hnx0 as <-. by injection Hnx as <-. }
  destruct (saveValidatorsInfo_inv H_of C_of db base (next_height s + 1) Hvals ltac:(lia) ltac:(lia) Hst' Hwf' Hcases) as (db2 & Hsave & Hinv2 & Hpar & _).
  rewrite Hc, Hnx, Hsave. cbn [mbind outcome_bind]. destruct (state_message s' Hsv') as (m & Htm & Hfm). unfold state_Bytes. rewrite Htm. cbn [mbind outcome_bind].
  eexists. split; [done|]. split; [done| | | |]; intros x Hx; assert (x = s') as -> by congruence; rewrite ?Hnn.
  - lia.
  - exact Hinv2.
  - assert (Hps := saveParams_inv P_of D_of db base (next_height s) Hpars ltac:(lia)). simpl in Hps |- *. rewrite Hpar, Hp, Hd. apply Hps.
    destruct Hpchg as [Hch|[Hch Hsame]]; [left; lia|right; split; congruence].
  - unfold Store_Load. simpl. rewrite Hfm. done.
Qed.

Lemma prune_ok n base db s retain : store_ok n base db -> states !! n = Some s -> base <= retain <= next_height s ->
  exists db', PruneStates db retain = (db', Val tt) /\ store_ok n retain db' /\
    pruned_to retain (source_height retain (C_of retain)) (db_validators db) (db_validators db') /\ pruned_to retain (D_of retain) (db_params db) (db_params db') /\
    forall k, db_responses db' !! k = if (1 <=? k) && (k <? retain) then None else db_responses db !! k.
Proof.
  intros [Hpos Hrange Hvals Hpars Hload] Hs Hr. specialize (Hvals s Hs). specialize (Hpars s Hs). destruct (chain_heights n s Hs) as (Hsv & _). pose proof (sv_max _ Hsv) as Hmax.
  unfold PruneStates. destruct (Z.leb_spec retain 0); [lia|].
  destruct (pruneConsensusParams_inv P_of D_of db base (next_height s) retain Hpars Hpos Hr ltac:(lia)) as (db1 & Hrun1 & Hinv1 & Hv1 & Hr1 & Hst1 & Hgone1). rewrite Hrun1. rewrite <- Hv1 in Hvals.
  destruct (pruneValidatorSets_inv H_of C_of db1 base (next_height s + 1) retain Hvals Hpos ltac:(lia) ltac:(lia)) as (db2 & Hrun2 & Hinv2 & Hp2 & Hr2 & Hst2 & Hgone2). rewrite Hrun2.
  eexists. split; [done|]. split; [|simpl; rewrite Hp2, <- Hv1; split; [done|split; [done|]]].
  - split; [lia| | | |]; intros x Hx; assert (x = s) as -> by congruence; [lia|done|simpl; by rewrite Hp2|].
    unfold Store_Load in *. simpl. rewrite Hst2, Hst1. by apply Hload.
  - intros k. rewrite pruneRange_spec, Hr2, Hr1. unfold in_range. simpl.
    destruct (Z.ltb_spec k 1), (Z.leb_spec 1 k); try lia; simpl; [done|]. by destruct (k <? retain).
Qed.

Lemma reach_ok n base db : store_reach states n base db -> exists k, n = S k /\ store_ok k base db.
Proof.
  induction 1 as [s db Hs Hsave|n base db s db' _ (k & -> & IH) Hs Hsave|n base db s retain db' _ (k & [= <-] & IH) Hs Hr Hp|n base db h r _ (k & -> & IH)].
  - assert (s = s0) as -> by congruence. destruct first_save_ok as (db0 & Hf & Hok). assert (db0 = db) as -> by congruence. by exists 0%nat.
  - destruct (states !! k) as [p|] eqn:Hp; [|apply lookup_ge_None in Hp; apply lookup_lt_Some in Hs; lia].
    destruct (next_save_ok k base db p s IH Hp Hs) as (db1 & Hrun & Hok). assert (db1 = db') as -> by congruence. by exists (S k).
  - destruct (prune_ok n base db s retain IH Hs Hr) as (db1 & Hrun & Hok & _). assert (db1 = db') as -> by congruence. by exists n.
  - exists k. split; [done|]. destruct IH. by split.
Qed.
End history.

(** C18: While the states of a chain are saved in turn and the store is pruned to heights it
    holds, it serves every height from the pruned one on: [Load] returns the last state saved,
    [LoadConsensusParams] the parameters of a height's state, and [LoadValidators] a set with the
    validators and powers of that height (with its proposer priorities computed anew), also for
    the height after the next. *)
Theorem state_store_serves states n base db s : chain states -> store_reach states (S n) base db -> states !! n = Some s ->
  Store_Load db = Val s /\
  (forall i t, states !! i = Some t -> (i <= n)%nat -> base <= next_height t ->
     LoadConsensusParams db (next_height t) = Val (sm_ConsensusParams t) /\
     exists vals vs, sm_Validators t = Some vals /\ LoadValidators db (next_height t) = Val vs /\ same_validators (Validators vals) (Validators vs)) /\
  (exists vals vs, sm_NextValidators s = Some vals /\ LoadValidators db (next_height s + 1) = Val vs /\ same_validators (Validators vals) (Validators vs)).
Proof.
  intros Hch Hr Hs. destruct (states !! 0%nat) as [s0|] eqn:Hs0; [|apply lookup_ge_None in Hs0; apply lookup_lt_Some in Hs; lia].
  destruct (reach_ok states s0 Hch Hs0 _ _ _ Hr) as (k & [= <-] & [Hpos Hrange Hvals Hpars Hload]). specialize (Hvals s Hs). specialize (Hpars s Hs). specialize (Hrange s Hs).
  destruct (chain_heights states s0 Hch Hs0 n s Hs) as (Hsv & Hn & _). pose proof (sv_max _ Hsv) as Hmax. split; [by apply Hload|]. split.
  - intros i t Ht Hi Hb. destruct (chain_heights states s0 Hch Hs0 i t Ht) as (_ & Hnt & _). destruct (P_current states s0 Hch Hs0 i t Ht) as [-> _]. split.
    + apply (LoadConsensusParams_at _ (D_of states s0)). apply (pi_at _ _ _ _ _ Hpars). lia.
    + destruct (LoadValidators_at (H_of states s0) (C_of states s0) db (next_height t)) as (vs & Hl & Hsame & _); [apply (vi_at _ _ _ _ _ Hvals); lia|lia|].
      exists (H_of states s0 (next_height t)), vs. split_and!; [by apply (H_current states s0 Hch Hs0 i)|done|done].
  - destruct (LoadValidators_at (H_of states s0) (C_of states s0) db (next_height s + 1)) as (vs & Hl & Hsame & _); [apply (vi_at _ _ _ _ _ Hvals); lia|lia|].
    exists (H_of states s0 (next_height s + 1)), vs. split_and!; [by apply (H_next states s0 Hch Hs0 n)|done|done].
Qed.

(** C19: The state store never refuses its part: the first state of a chain and every next one
    is saved, and pruning to a height the store holds succeeds.  It removes the responses
    below that height, all validator sets below it but the one its record refers to (that of
    the last checkpoint or of the last change, whichever is later) and all parameters below it
    but those its record refers to (of the last change).  These two records are still there,
    with a validator set and with parameters, and every record from the retained height on is
    unchanged. *)
Theorem state_store_accepts states : chain states ->
  (forall s, states !! 0%nat = Some s -> exists db, Store_Save empty_db s = Val db) /\
  (forall n base db, store_reach states n base db ->
     (forall s, states !! n = Some s -> exists db', Store_Save db s = Val db') /\
     (forall s retain, states !! (n - 1)%nat = Some s -> base <= retain <= next_height s ->
        exists db' vi ci, PruneStates db retain = (db', Val tt) /\ db_validators db !! retain = Some vi /\ db_params db !! retain = Some ci /\
          let keep := lastStoredHeightFor retain (vi_LastHeightChanged vi) in
          let keep' := ci_LastHeightChanged ci in
          1 <= keep <= retain /\ 1 <= keep' <= retain /\
          (exists info msg, db_validators db' !! keep = Some info /\ vi_ValidatorSet info = Some msg) /\
          (exists info params, db_params db' !! keep' = Some info /\ ci_ConsensusParams info = Some params) /\
          pruned_to retain keep (db_validators db) (db_validators db') /\ pruned_to retain keep' (db_params db) (db_params db') /\
          (forall k, db_responses db' !! k = if (1 <=? k) && (k <? retain) then None else db_responses db !! k))).
Proof.
  intros Hch. split.
  - intros s Hs. destruct (first_save_ok states s Hch Hs) as (db & Hdb & _). by exists db.
  - intros n base db Hr. destruct (states !! 0%nat) as [s0|] eqn:Hs0.
    2: { exfalso. apply lookup_ge_None in Hs0. induction Hr as [s db Hs _| | |]; try done. by rewrite lookup_ge_None_2 in Hs. }
    destruct (reach_ok states s0 Hch Hs0 _ _ _ Hr) as (k & -> & Hok). split.
    + intros s' Hs'. destruct (states !! k) as [p|] eqn:Hp; [|apply lookup_ge_None in Hp; apply lookup_lt_Some in Hs'; lia].
      destruct (next_save_ok states s0 Hch Hs0 k base db p s' Hok Hp Hs') as (db' & Hdb & _). by exists db'.
    + intros s retain Hs Hret. replace (S k - 1)%nat with k in Hs by lia.
      destruct (prune_ok states s0 Hch Hs0 k base db s retain Hok Hs Hret) as (db' & Hp & Hok' & Hgv & Hgp & Hgr). destruct (chain_heights states s0 Hch Hs0 k s Hs) as (Hsv & _).
      pose proof (sv_max _ Hsv) as Hmax. pose proof (so_pos _ _ _ _ _ Hok) as Hpos. assert (Hbase : base <= retain <= next_height s + 1) by lia.
      destruct (vi_at _ _ _ _ _ (so_vals _ _ _ _ _ Hok s Hs) retain Hbase) as [Hrv (vi & Hvi & Hvc & _) _ _].
      destruct (pi_at _ _ _ _ _ (so_pars _ _ _ _ _ Hok s Hs) retain Hret) as [Hrp (ci & Hci & Hcc & _) _].
      destruct (vi_at _ _ _ _ _ (so_vals _ _ _ _ _ Hok' s Hs) retain ltac:(lia)) as [_ _ [(info & msg & Hinfo & Hmsg & _) _ _] _].
      destruct (pi_at _ _ _ _ _ (so_pars _ _ _ _ _ Hok' s Hs) retain ltac:(lia)) as [_ _ (info' & Hinfo' & Hpar)].
      exists db', vi, ci. rewrite Hvc, Hcc, lastStored_source by lia. pose proof (source_bounds _ retain Hrv) as [Hsb _].
      cbn zeta. split_and!; try done; try lia; [by exists info, msg|by eexists _, _].
Qed.

(** ** A small chain *)

#[local] Definition toy_address : Crypto := {| pk_Address pk := take 20 (pk_Bytes pk); VerifySignature _ _ _ := true |}.
#[local] Existing Instance toy_address.
Definition member (b : byte) (power : Z) : Validator := NewValidator (mkPubKey Ed25519 (replicate 32 b)) power.

Definition lone_set : ValidatorSet := mkValidatorSet [member x01 10] (Some (member x01 10)) 10.
Definition lone_state (height : Z) : State :=
  mkState (InitStateVersion "") [x63] 1 height nilBlockID zero_time (Some lone_set) (Some lone_set) (Some (if height =? 0 then empty_set else lone_set)) 1 DefaultConsensusParams 1 [] [].
Definition lone_chain : list State := [lone_state 0; lone_state 1; lone_state 2].

Lemma lone_key_ok : key_ok (member x01 10).
Proof. split; [|reflexivity]. eexists. split; reflexivity. Qed.
Lemma lone_wf : wf_set lone_set.
Proof. split; simpl; [apply NoDup_singleton|repeat constructor|reflexivity|vm_compute; discriminate|]. repeat constructor; vm_compute; discriminate. Qed.
Lemma lone_storable : storable lone_set.
Proof.
  split; [apply wf_electable; [apply lone_wf|discriminate]|repeat constructor; apply lone_key_ok|]. eexists. split; [reflexivity|]. split; [apply lone_key_ok|vm_compute; discriminate].
Qed.
Lemma lone_saveable h : 0 <= h < 100 -> saveable (lone_state h).
Proof.
  pose proof lone_storable. pose proof lone_wf. intros Hh. split; simpl; [lia|lia| |by exists lone_set|by exists lone_set| |reflexivity].
  - unfold next_height. simpl. destruct (Z.eqb_spec h 0); int_lia.
  - destruct (Z.eqb_spec h 0); [done|by exists lone_set].
Qed.
Lemma lone_is_chain : chain lone_chain.
Proof.
  split.
  - unfold lone_chain. rewrite !Forall_cons. split_and!; [apply lone_saveable; lia..|constructor].
  - intros s [= <-]. split; [done|done|done|]. by exists lone_set, lone_set.
  - intros i s s' Hs Hs'. assert (Hnext : forall h, 0 <= h < 2 -> succeeds (lone_state h) (lone_state (h + 1))).
    { intros h Hh. split; simpl; [unfold next_height; simpl; destruct (Z.eqb_spec h 0); lia|done|done| |by right]. right. split; [done|]. by exists lone_set, lone_set. }
    destruct i as [|[|[|i]]]; simplify_eq/=; [apply (Hnext 0)|apply (Hnext 1)]; lia.
Qed.

Definition lone_run : outcome StateStoreError StateDB :=
  db ← Store_Save empty_db (lone_state 0);
  db ← Store_Save db (lone_state 1);
  let '(db, r) := PruneStates db 2 in
  _ ← r;
  Store_Save db (lone_state 2).
Lemma lone_reach db : lone_run = Val db -> store_reach lone_chain 3 2 db.
Proof.
  unfold lone_run. intros Hrun. apply bind_val in Hrun as (d0 & H0 & Hrun). apply bind_val in Hrun as (d1 & H1 & Hrun). destruct (PruneStates d1 2) as [d2 r] eqn:H2.
  apply bind_val in Hrun as ([] & -> & H3). apply (store_save _ 2 2 d2 (lone_state 2)); [|done|done]. apply (store_prune _ 1 1 d1 (lone_state 1) 2); [|done|unfold next_height; simpl; lia|done].
  apply (store_save _ 1 1 d0 (lone_state 1)); [|done|done]. by apply (store_first lone_chain (lone_state 0)).
Qed.

Lemma state_store_serves_witness : exists db vs, lone_run = Val db /\ Store_Load db = Val (lone_state 2) /\ LoadValidators db 4 = Val vs.
Proof.
  destruct lone_run as [db| |] eqn:Hrun; [|vm_compute in Hrun; discriminate..].
  destruct (state_store_serves lone_chain 2 2 db (lone_state 2) lone_is_chain (lone_reach db Hrun) eq_refl) as (Hl & _ & vals & vs & _ & Hv & _).
  exists db, vs. split; [reflexivity|]. split; [exact Hl|exact Hv].
Defined.
(** After two states the store is pruned to height 2: the set of height 1 stays, since height
    2 refers to it, and the responses of height 1 go. *)
Definition lone_two : outcome StateStoreError StateDB :=
  db ← Store_Save empty_db (lone_state 0);
  db ← Store_Save db (lone_state 1);
  Val (SaveABCIResponses db 1 (mkABCIResponses [] [] None)).
Lemma state_store_accepts_witness : exists db db' vi, lone_two = Val db /\ PruneStates db 2 = (db', Val tt) /\
  db_validators db !! 2 = Some vi /\ lastStoredHeightFor 2 (vi_LastHeightChanged vi) = 1 /\
  (exists info msg, db_validators db' !! 1 = Some info /\ vi_ValidatorSet info = Some msg) /\
  is_Some (db_responses db !! 1) /\ db_responses db' !! 1 = None.
Proof.
  assert (Hchk : match lone_two with Val db => match db_validators db !! 2 with Some vi => (lastStoredHeightFor 2 (vi_LastHeightChanged vi) =? 1) && bool_decide (is_Some (db_responses db !! 1)) | None => false end | _ => false end = true)
    by (vm_compute; reflexivity).
  destruct lone_two as [db| |] eqn:Hrun; [|discriminate Hchk..].
  assert (Hreach : store_reach lone_chain 2 1 db).
  { unfold lone_two in Hrun. apply bind_val in Hrun as (d0 & H0 & Hrun). apply bind_val in Hrun as (d1 & H1 & [= <-]). apply store_responses.
    apply (store_save _ 1 1 d0 (lone_state 1)); [|done|done]. by apply (store_first lone_chain (lone_state 0)). }
  destruct (state_store_accepts lone_chain lone_is_chain) as [_ Hall]. destruct (Hall 2%nat 1 db Hreach) as [_ Hprune].
  destruct (Hprune (lone_state 1) 2) as (db' & vi & ci & Hp & Hvi & _ & _ & _ & Hset & _ & _ & _ & Hresp); [reflexivity|vm_compute; split; discriminate|].
  rewrite Hvi in Hchk. apply andb_true_iff in Hchk as [Hk Hr]. apply Z.eqb_eq in Hk. apply bool_decide_eq_true in Hr. rewrite Hk in Hset.
  exists db, db', vi. split_and!; done || (by rewrite Hresp).
Defined.

(** ** The proposer of a loaded set *)

(** Four validators, of which one leaves and another joins after three rounds. *)
Definition shuffled_set : outcome ValidatorSetError ValidatorSet :=
  v ← lift (NewValidatorSet [member x00 50; member x01 50; member x03 50; member x02 10]);
  v ← lift (IncrementProposerPriority v 1);
  v ← lift (IncrementProposerPriority v 1);
  v ← UpdateWithChangeSet v [member x04 2; member x00 0];
  lift (IncrementProposerPriority v 1).
(** The set is stored at its height; the two heights after it are served from it. *)
Definition shuffled_db (v : ValidatorSet) : outcome StateStoreError StateDB :=
  db ← saveValidatorsInfo empty_db 12 12 (Some v);
  db ← saveValidatorsInfo db 13 12 (Some v);
  saveValidatorsInfo db 14 12 (Some v).
Definition proposer_address {E} (o : outcome E ValidatorSet) : option bytes := match o with Val v => Address <$> Proposer v | _ => None end.

(** Consensus rotates the set once per block and rescales the priorities each time; the store
    rescales once and then rotates as often: the proposers can differ. *)
Lemma loaded_proposer_differs : exists v db, shuffled_set = Val v /\ shuffled_db v = Val db /\
  proposer_address (w ← IncrementProposerPriority v 1; IncrementProposerPriority w 1) = Some (replicate 20 x01) /\
  proposer_address (LoadValidators db 14) = Some (replicate 20 x02).
Proof.
  destruct shuffled_set as [v| |] eqn:Hv; [|vm_compute in Hv; discriminate..]. vm_compute in Hv. injection Hv as <-.
  eexists _, _. split; [reflexivity|]. split; [vm_compute; reflexivity|]. split; vm_compute; reflexivity.
Qed.
