(* ===== verification/BlockStore.v ===== *)
(** * internal/store/store.go: the block store

    Models the store of blocks as parts with their metas, commits and hashes (types/block_meta.go
    for the metas).  Each kind of key is a table: heights for metas and commits, heights with
    indexes for parts, hashes for the heights of blocks.  The database does not fail and writes a
    batch at once; what is read goes through the conversions from messages. *)
From Stdlib Require Import ZArith Lia Strings.Byte.
From stdpp Require Import base list strings gmap.
From S2P Require Import Prelude.
From S2P Require Import Merkle.
From S2P Require Import Validator.
From S2P Require Import Types.
From S2P Require Import PartSet.
From S2P Require Import Header.
From S2P Require Import Block.
From S2P Require Import ChainState.
From S2P Require Import Evidence.
From S2P Require Import Pruning.

Record BlockMeta := mkBlockMeta { bm_BlockID : BlockID; bm_BlockSize : Z; bm_Header : Header; bm_NumTxs : Z }.

Record BlockDB := mkBlockDB {
  bd_metas : gmap Z BlockMeta;
  bd_parts : gmap (Z * Z) Part;
  bd_commits : gmap Z Commit;
  bd_seen : option Commit;
  bd_hashes : gmap bytes Z
}.
Definition empty_blocks : BlockDB := mkBlockDB ∅ ∅ ∅ None ∅.

Inductive BlockStoreError := ErrBadMeta (e : EvError) | ErrMetaHash | ErrPruneHeight | ErrPruneTooHigh | ErrBlockExists.

Section blocks.
Context `{!Crypto, !Sha256, !TimeCodec, !WrapperCodec, !EvidenceOps, !BlockCodec}.

(** ** Metas *)

Definition Block_Size (b : Block) : Z := match Block_Marshal b with Some bz => len bz | None => 0 end.
(** [Block.Hash] fills the hashes missing in the header. *)
Definition hash_fills (b : Block) : go (Block * bytes) :=
  hash ← Block_Hash (Some b);
  b ← (match b_LastCommit b with None => Val b | Some _ => fillHeader b end);
  Val (b, hash).
Definition NewBlockMeta (b : Block) (parts : PartSet) : go BlockMeta :=
  '(b, hash) ← hash_fills b;
  Val (mkBlockMeta (mkBlockID hash (PartSet_Header (Some parts))) (Block_Size b) (b_Header b) (len (b_Txs b))).
Definition BlockMeta_ValidateBasic (bm : BlockMeta) : outcome BlockStoreError unit :=
  _ ← wrap_err (fun _ => ErrBadMeta ErrFromProto) (BlockID_ValidateBasic (bm_BlockID bm));
  h ← lift (Header_Hash (bm_Header bm));
  fail_if (negb (bytes_equal (bid_Hash (bm_BlockID bm)) h)) ErrMetaHash.
Definition BlockMetaFromProto (bm : BlockMeta) : outcome BlockStoreError BlockMeta :=
  _ ← wrap_err (fun _ => ErrBadMeta ErrFromProto) (BlockID_ValidateBasic (bm_BlockID bm));
  _ ← wrap_err ErrBadMeta (HeaderFromProto (bm_Header bm));
  _ ← BlockMeta_ValidateBasic bm;
  Val bm.

(** ** Reading *)

(** A method that panics when the record does not convert. *)
Definition must {E A} (o : outcome E A) : go A := match o with Val a => Val a | Fail _ => Panic "error reading" | Panic w => Panic w end.

Definition all_heights : Z * Z := (1, MaxInt64).
Definition BlockStore_Base (db : BlockDB) : Z := default 0 (head (keys_in (bd_metas db) all_heights.1 all_heights.2)).
Definition BlockStore_Height (db : BlockDB) : Z := default 0 (last (keys_in (bd_metas db) all_heights.1 all_heights.2)).
Definition BlockStore_Size (db : BlockDB) : Z :=
  let height := BlockStore_Height db in
  if height =? 0 then 0 else int64 (height + 1 - BlockStore_Base db).
Definition LoadBaseMeta (db : BlockDB) : go (option BlockMeta) :=
  match Iterator (bd_metas db) all_heights.1 all_heights.2 with
  | [] => Val None
  | (_, bm) :: _ => bm ← must (BlockMetaFromProto bm); Val (Some bm)
  end.
Definition LoadBlockMeta (db : BlockDB) (height : Z) : go (option BlockMeta) :=
  match bd_metas db !! height with None => Val None | Some bm => bm ← must (BlockMetaFromProto bm); Val (Some bm) end.
Definition PartFromProto (p : Part) : outcome PartError Part :=
  _ ← wrap_err ErrPartProof (Proof_ValidateBasic (pt_Proof p));
  _ ← Part_ValidateBasic p;
  Val p.
Definition LoadBlockPart (db : BlockDB) (height index : Z) : go (option Part) :=
  match bd_parts db !! (height, index) with None => Val None | Some p => p ← must (PartFromProto p); Val (Some p) end.
(** The bytes of the parts; [None] when one is missing. *)
Fixpoint load_parts (db : BlockDB) (height i : Z) (n : nat) : go (option bytes) :=
  match n with
  | O => Val (Some [])
  | S n =>
      part ← LoadBlockPart db height i;
      match part with
      | None => Val None
      | Some p => rest ← load_parts db height (i + 1) n; Val (match rest with Some bz => Some (pt_Bytes p ++ bz) | None => None end)
      end
  end.
Definition LoadBlock (db : BlockDB) (height : Z) : go (option Block) :=
  meta ← LoadBlockMeta db height;
  match meta with
  | None => Val None
  | Some meta =>
      buf ← load_parts db height 0 (Z.to_nat (psh_Total (bid_PartSetHeader (bm_BlockID meta))));
      match buf with
      | None => Val None
      | Some bz => b ← must (BlockFromBytes bz); Val (Some b)
      end
  end.
Definition LoadBlockByHash (db : BlockDB) (hash : bytes) : go (option Block) :=
  match bd_hashes db !! hash with None => Val None | Some height => LoadBlock db height end.
Definition LoadBlockMetaByHash (db : BlockDB) (hash : bytes) : go (option BlockMeta) :=
  match bd_hashes db !! hash with None => Val None | Some height => LoadBlockMeta db height end.
Definition LoadBlockCommit (db : BlockDB) (height : Z) : go (option Commit) :=
  match bd_commits db !! height with None => Val None | Some c => c ← must (CommitFromProto c); Val (Some c) end.
Definition LoadSeenCommit (db : BlockDB) : go (option Commit) :=
  match bd_seen db with None => Val None | Some c => c ← must (CommitFromProto c); Val (Some c) end.

(** ** Writing *)

Fixpoint save_parts (db : gmap (Z * Z) Part) (height i : Z) (n : nat) (ps : PartSet) : go (gmap (Z * Z) Part) :=
  match n with
  | O => Val db
  | S n =>
      part ← GetPart ps i;
      match part with
      | None => Panic "unable to make part into proto"
      | Some p => save_parts (<[(height, i) := p]> db) height (i + 1) n ps
      end
  end.
Definition must_encode (c : option Commit) : go Commit := match c with Some c => Val c | None => Panic "unable to marshal" end.
Definition SaveBlock (db : BlockDB) (block : option Block) (blockParts : PartSet) (seenCommit : option Commit) : go BlockDB :=
  match block with
  | None => Panic "BlockStore can only save a non-nil block"
  | Some block =>
      let height := h_Height (b_Header block) in
      '(block, hash) ← hash_fills block;
      _ ← panic_if ((BlockStore_Base db >? 0) && negb (height =? int64 (BlockStore_Height db + 1))) "BlockStore can only save contiguous blocks";
      _ ← panic_if (negb (IsComplete blockParts)) "BlockStore can only save complete block part sets";
      parts ← save_parts (bd_parts db) height 0 (Z.to_nat (ps_total blockParts)) blockParts;
      meta ← NewBlockMeta block blockParts;
      lc ← must_encode (b_LastCommit block);
      sc ← must_encode seenCommit;
      Val (mkBlockDB (<[height := meta]> (bd_metas db)) parts (<[int64 (height - 1) := lc]> (bd_commits db)) (Some sc) (<[hash := height]> (bd_hashes db)))
  end.
Definition SaveSeenCommit (db : BlockDB) (seenCommit : Commit) : BlockDB :=
  mkBlockDB (bd_metas db) (bd_parts db) (bd_commits db) (Some seenCommit) (bd_hashes db).
Definition SaveSignedHeader (db : BlockDB) (h : Header) (c : Commit) (blockID : BlockID) : outcome BlockStoreError BlockDB :=
  match bd_metas db !! h_Height h with
  | Some _ => Fail ErrBlockExists
  | None =>
      Val (mkBlockDB (<[h_Height h := mkBlockMeta blockID (-1) h (-1)]> (bd_metas db)) (bd_parts db) (<[h_Height h := c]> (bd_commits db)) (bd_seen db) (bd_hashes db))
  end.

(** ** Pruning *)

Definition removeBlockHash (_ : Z) (value : BlockMeta) : outcome BlockStoreError (list bytes) :=
  bm ← BlockMetaFromProto value;
  Val [bid_Hash (bm_BlockID bm)].
Definition no_hook {K V} (_ : K) (_ : V) : outcome BlockStoreError (list bytes) := Val [].

(** The metas go first, with their hashes, then the parts and the commits. *)
Definition PruneBlocks (db : BlockDB) (height : Z) : BlockDB * outcome BlockStoreError Z :=
  if height <=? 0 then (db, Fail ErrPruneHeight)
  else if height >? BlockStore_Height db then (db, Fail ErrPruneTooHigh)
  else
    let '(metas, hashes, r) := prune_range_blocks removeBlockHash (bd_metas db) 0 height in
    let db := mkBlockDB metas (bd_parts db) (bd_commits db) (bd_seen db) (delete_keys hashes (bd_hashes db)) in
    match r with
    | Val pruned =>
        let '(parts, _, r) := prune_range_blocks (X := bytes) no_hook (bd_parts db) (0, 0) (height, 0) in
        let db := mkBlockDB (bd_metas db) parts (bd_commits db) (bd_seen db) (bd_hashes db) in
        match r with
        | Val _ =>
            let '(commits, _, r) := prune_range_blocks (X := bytes) no_hook (bd_commits db) 0 height in
            let db := mkBlockDB (bd_metas db) (bd_parts db) commits (bd_seen db) (bd_hashes db) in
            (db, match r with Val _ => Val pruned | Fail e => Fail e | Panic w => Panic w end)
        | Fail e => (db, Fail e)
        | Panic w => (db, Panic w)
        end
    | Fail e => (db, Fail e)
    | Panic w => (db, Panic w)
    end.
End blocks.
