(* ===== verification/BlockStoreProofs.v ===== *)
(** * What the block store keeps *)
From Stdlib Require Import ZArith Lia Strings.Byte Sorting.Sorted.
From stdpp Require Import base list strings gmap.
From S2P Require Import Prelude.
From S2P Require Import Merkle.
From S2P Require Import MerkleProofs.
From S2P Require Import Validator.
From S2P Require Import Types.
From S2P Require Import SignBytesProofs.
From S2P Require Import ValidationProofs.
From S2P Require Import LightVerifierProofs.
From S2P Require Import PartSet.
From S2P Require Import Header.
From S2P Require Import Block.
From S2P Require Import BlockProofs.
From S2P Require Import ChainState.
From S2P Require Import Evidence.
From S2P Require Import Pruning.
From S2P Require Import BlockStore.

Lemma must_val {E A} (o : outcome E A) a : o = Val a -> must o = Val a.
Proof. by intros ->. Qed.

Section store.
Context `{!Crypto, !Sha256, !TimeCodec, !WrapperCodec, !EvidenceOps, !BlockCodec}.

(** ** The first and the last height *)

Lemma range_ends {V} (m : gmap Z V) base top : 1 <= base <= top -> top < MaxInt64 -> (forall h, is_Some (m !! h) <-> base <= h <= top) ->
  head (keys_in m 1 MaxInt64) = Some base /\ last (keys_in m 1 MaxInt64) = Some top.
Proof.
  intros Hr Hmax Hm. assert (Hin : forall h, h ∈ keys_in m 1 MaxInt64 <-> base <= h <= top).
  { intros h. rewrite keys_in_elem, Hm. unfold in_range. simpl. rewrite andb_true_iff, negb_true_iff, Z.ltb_ge, Z.ltb_lt. lia. }
  pose proof (keys_sorted m 1 MaxInt64) as Hs. simpl in Hs. split.
  - destruct (keys_in m 1 MaxInt64) as [|x l] eqn:Hk; [exfalso; specialize (Hin base); destruct Hin as [_ Hin]; apply (not_elem_of_nil base), Hin; lia|]. simpl. f_equal.
    apply StronglySorted_inv in Hs as [_ Hs]. rewrite Forall_forall in Hs. assert (Hx : base <= x <= top) by (apply Hin; by left).
    assert (Hb : base ∈ x :: l) by (apply Hin; lia). apply elem_of_cons in Hb as [->|Hb]; [done|]. specialize (Hs base Hb). simpl in Hs. lia.
  - destruct (last (keys_in m 1 MaxInt64)) as [x|] eqn:Hl; [|apply last_None in Hl; exfalso; apply (not_elem_of_nil base); rewrite <- Hl; apply Hin; lia]. f_equal.
    assert (Hx : base <= x <= top) by (apply Hin; by apply last_Some_elem_of in Hl). assert (Ht : top ∈ keys_in m 1 MaxInt64) by (apply Hin; lia).
    apply last_Some in Hl as [l Hl]. rewrite Hl in Ht, Hs. apply elem_of_app in Ht as [Ht|Ht]; [|by apply list_elem_of_singleton in Ht].
    clear -Hs Ht Hx. induction l as [|y l IH]; [by apply not_elem_of_nil in Ht|]. simpl in Hs. apply StronglySorted_inv in Hs as [Hs Hy]. apply elem_of_cons in Ht as [->|Ht]; [|by apply IH].
    rewrite Forall_app in Hy. destruct Hy as [_ Hy]. inversion Hy as [|? ? Hxy]; subst. lia.
Qed.

(** ** A block that can be saved *)

Record block_ready (b : Block) (ps : PartSet) (seen : Commit) (hash : bytes) : Prop := {
  br_height : 1 <= h_Height (b_Header b) < MaxInt64 - 1;
  br_valid : Block_ValidateBasic (Some b) = Val tt;
  br_hash : Header_Hash (b_Header b) = Val hash;
  br_complete : IsComplete ps = true;
  br_parts : exists pts bz, ps_parts ps = Some <$> pts /\ ps_total ps = len pts /\ Forall (fun p => PartFromProto p = Val p) pts /\
    mjoin (pt_Bytes <$> pts) = bz /\ Block_Unmarshal bz = Some b;
  br_id : BlockID_ValidateBasic (mkBlockID hash (PartSet_Header (Some ps))) = Val tt;
  br_commit : exists lc, b_LastCommit b = Some lc /\ CommitFromProto lc = Val lc;
  br_seen : CommitFromProto seen = Val seen
}.

Lemma fill_same hash compute : compute = Val hash -> fill hash compute = Val hash.
Proof. unfold fill. intros ->. by destruct (len hash =? 0). Qed.
Lemma fail_negb_eq {E} (a b : bytes) (e : E) : fail_if (negb (bytes_equal a b)) e = Val tt -> a = b.
Proof. destruct (bytes_equal_spec a b); [done|]. simpl. discriminate. Qed.
Lemma valid_filled b : Block_ValidateBasic (Some b) = Val tt -> fillHeader b = Val b /\ Header_ValidateBasic (b_Header b) = Val tt.
Proof.
  unfold Block_ValidateBasic. intros Hv. apply bind_val in Hv as ([] & Hh & Hv). destruct (b_LastCommit b) as [lc|] eqn:Hlc; [|done]. apply bind_val in Hv as ([] & _ & Hv).
  apply bind_val in Hv as (w1 & G1 & Hv). apply bind_val in Hv as ([] & E1%fail_negb_eq & Hv). apply bind_val in Hv as (w2 & G2 & Hv). apply bind_val in Hv as ([] & E2%fail_negb_eq & Hv).
  apply bind_val in Hv as ([] & _ & Hv). apply bind_val in Hv as (w3 & G3 & E3%fail_negb_eq). subst. split.
  - unfold fillHeader. rewrite Hlc. destruct (Commit_Hash (Some lc)) as [x1| |] eqn:F1; [|done..]. destruct (Txs_Hash (b_Txs b)) as [x2| |] eqn:F2; [|done..]. destruct (EvidenceList_Hash (b_Evidence b)) as [x3| |] eqn:F3; [|done..].
    simpl in G1, G2, G3. injection G1 as ->. injection G2 as ->. injection G3 as ->. rewrite !fill_same by done. cbn [mbind outcome_bind]. destruct b as [h ? ? ?]; simpl in *. destruct h; simpl in *. by subst.
  - destruct (Header_ValidateBasic (b_Header b)) as [[]| |]; done.
Qed.

Lemma ready_hash b ps seen hash : block_ready b ps seen hash -> hash_fills b = Val (b, hash).
Proof.
  intros Hr. destruct (br_commit _ _ _ _ Hr) as (lc & Hlc & _). destruct (valid_filled b (br_valid _ _ _ _ Hr)) as [Hf _]. unfold hash_fills, Block_Hash. rewrite Hlc, Hf. cbn [mbind outcome_bind].
  rewrite (br_hash _ _ _ _ Hr). done.
Qed.
Definition meta_of (b : Block) (ps : PartSet) (hash : bytes) : BlockMeta := mkBlockMeta (mkBlockID hash (PartSet_Header (Some ps))) (Block_Size b) (b_Header b) (len (b_Txs b)).
Lemma ready_meta b ps seen hash : block_ready b ps seen hash -> NewBlockMeta b ps = Val (meta_of b ps hash) /\ BlockMetaFromProto (meta_of b ps hash) = Val (meta_of b ps hash).
Proof.
  intros Hr. unfold NewBlockMeta. rewrite (ready_hash _ _ _ _ Hr). split; [done|]. destruct (valid_filled b (br_valid _ _ _ _ Hr)) as [_ Hh].
  unfold BlockMetaFromProto, BlockMeta_ValidateBasic, HeaderFromProto, meta_of. cbn [bm_BlockID bm_Header bid_Hash]. rewrite (br_id _ _ _ _ Hr). cbn [wrap_err mbind outcome_bind].
  assert (Hl : BlockID_ValidateBasic (h_LastBlockID (b_Header b)) = Val tt).
  { unfold Header_ValidateBasic in Hh. do 4 apply bind_val in Hh as ([] & _ & Hh). apply bind_val in Hh as ([] & Hh & _). destruct (BlockID_ValidateBasic _) as [[]| |]; done. }
  rewrite Hl, Hh. cbn [wrap_err mbind outcome_bind]. rewrite (br_hash _ _ _ _ Hr). cbn [lift mbind outcome_bind]. by rewrite bytes_equal_refl.
Qed.

(** ** A stored block *)

Record holds_block (db : BlockDB) (b : Block) (h : Z) : Prop := {
  hb_meta : exists meta pts, bd_metas db !! h = Some meta /\ BlockMetaFromProto meta = Val meta /\ psh_Total (bid_PartSetHeader (bm_BlockID meta)) = len pts /\
    (forall i p, pts !! i = Some p -> bd_parts db !! (h, Z.of_nat i) = Some p /\ PartFromProto p = Val p) /\
    Block_Unmarshal (mjoin (pt_Bytes <$> pts)) = Some b /\ Block_ValidateBasic (Some b) = Val tt
}.

Lemma load_parts_val db h pts : forall i, (forall j p, pts !! j = Some p -> bd_parts db !! (h, i + Z.of_nat j) = Some p /\ PartFromProto p = Val p) ->
  load_parts db h i (length pts) = Val (Some (mjoin (pt_Bytes <$> pts))).
Proof.
  induction pts as [|p pts IH]; intros i Hp; [done|]. cbn [load_parts length]. destruct (Hp 0%nat p eq_refl) as [Hl Hf]. replace (i + Z.of_nat 0) with i in Hl by lia.
  unfold LoadBlockPart. rewrite Hl, (must_val _ _ Hf). cbn [mbind outcome_bind]. rewrite IH; [done|]. intros j q Hq. replace (i + 1 + Z.of_nat j) with (i + Z.of_nat (S j)) by lia. by apply Hp.
Qed.
Lemma LoadBlock_held db b h : holds_block db b h -> LoadBlock db h = Val (Some b).
Proof.
  intros [(meta & pts & Hm & Hf & Ht & Hp & Hu & Hv)]. unfold LoadBlock, LoadBlockMeta. rewrite Hm, (must_val _ _ Hf). cbn [mbind outcome_bind]. rewrite Ht. unfold len. rewrite Nat2Z.id.
  rewrite load_parts_val by (intros j p Hj; by apply Hp). cbn [mbind outcome_bind]. unfold BlockFromBytes. rewrite Hu, Hv. done.
Qed.
Lemma holds_block_frame db db' b h : bd_metas db' !! h = bd_metas db !! h -> (forall i, 0 <= i -> bd_parts db' !! (h, i) = bd_parts db !! (h, i)) -> holds_block db b h -> holds_block db' b h.
Proof. intros Hm Hp [(meta & pts & ? & ? & ? & Hps & ? & ?)]. split. exists meta, pts. rewrite Hm. split_and!; try done. intros i p Hi. rewrite Hp by lia. by apply Hps. Qed.

Lemma save_parts_val ps h pts : ps_parts ps = Some <$> pts -> forall n i m, (i + n = length pts)%nat ->
  exists m', save_parts m h (Z.of_nat i) n ps = Val m' /\
    (forall j p, (i <= j)%nat -> pts !! j = Some p -> m' !! (h, Z.of_nat j) = Some p) /\ (forall k, (k.1 <> h \/ k.2 < Z.of_nat i) -> m' !! k = m !! k).
Proof.
  intros Hps. induction n as [|n IH]; intros i m Hn; cbn [save_parts].
  { exists m. split_and!; [done| |done]. intros j p Hj Hp. apply lookup_lt_Some in Hp. lia. }
  destruct (lookup_lt_is_Some_2 pts i) as [p Hp]; [lia|]. unfold GetPart, slice_get. rewrite zlookup_nat, Hps, list_lookup_fmap, Hp. cbn [fmap option_fmap option_map mbind outcome_bind].
  replace (Z.of_nat i + 1) with (Z.of_nat (S i)) by lia. destruct (IH (S i) (<[(h, Z.of_nat i) := p]> m)) as (m' & Hrun & Hin & Hout); [lia|]. exists m'. split_and!; [done| |].
  - intros j q Hj Hq. destruct (decide (j = i)) as [->|Hne]; [|apply Hin; [lia|done]]. rewrite Hout by (simpl; lia). rewrite lookup_insert_eq. congruence.
  - intros [a c] Hk. simpl in Hk. rewrite Hout by (simpl; lia). apply lookup_insert_ne. intros Heq. injection Heq as ? ?. lia.
Qed.

(** ** Runs *)

(** Blocks are saved in turn with their seen commits, and the store is pruned to any height for
    which that succeeds; the base is the highest of the first height and those pruned to. *)
Inductive blocks_reach : list (Block * Commit) -> Z -> BlockDB -> Prop :=
| reach_first b ps seen hash db : block_ready b ps seen hash -> SaveBlock empty_blocks (Some b) ps (Some seen) = Val db -> blocks_reach [(b, seen)] (h_Height (b_Header b)) db
| reach_save bs base db b ps seen hash db' : blocks_reach bs base db -> block_ready b ps seen hash -> SaveBlock db (Some b) ps (Some seen) = Val db' ->
    blocks_reach (bs ++ [(b, seen)]) base db'
| reach_prune bs base db retain db' n : blocks_reach bs base db -> PruneBlocks db retain = (db', Val n) -> blocks_reach bs (Z.max base retain) db'.

Record blocks_ok (bs : list (Block * Commit)) (base top : Z) (db : BlockDB) : Prop := {
  bo_range : 1 <= base <= top;
  bo_max : top < MaxInt64 - 1;
  bo_metas h : is_Some (bd_metas db !! h) <-> base <= h <= top;
  bo_valid h meta : bd_metas db !! h = Some meta -> BlockMetaFromProto meta = Val meta;
  bo_turn : exists first, first <= base /\ top = first + len bs - 1 /\ forall i b seen, bs !! i = Some (b, seen) -> h_Height (b_Header b) = first + Z.of_nat i;
  bo_last : exists b seen, last bs = Some (b, seen) /\ h_Height (b_Header b) = top /\ LoadSeenCommit db = Val (Some seen);
  bo_blocks b seen : (b, seen) ∈ bs -> let h := h_Height (b_Header b) in h <= top /\ (base <= h -> holds_block db b h) /\
    (base < h -> exists lc, b_LastCommit b = Some lc /\ CommitFromProto lc = Val lc /\ bd_commits db !! (h - 1) = Some lc)
}.

Lemma blocks_ends bs base top db : blocks_ok bs base top db -> BlockStore_Base db = base /\ BlockStore_Height db = top /\ BlockStore_Size db = top - base + 1.
Proof.
  intros Hok. pose proof (bo_range _ _ _ _ Hok). pose proof (bo_max _ _ _ _ Hok). destruct (range_ends (bd_metas db) base top) as [Hh Hl]; [done|lia|apply (bo_metas _ _ _ _ Hok)|].
  unfold BlockStore_Size, BlockStore_Base, BlockStore_Height. simpl. rewrite Hh, Hl. simpl. destruct (Z.eqb_spec top 0); [lia|]. rewrite int64_id by int_lia. split_and!; [done|done|lia].
Qed.

(** Writing the block of the next height, or of any height into an empty store. *)
Lemma SaveBlock_val db b ps seen hash : block_ready b ps seen hash -> (BlockStore_Base db >? 0) && negb (h_Height (b_Header b) =? int64 (BlockStore_Height db + 1)) = false ->
  exists lc db', b_LastCommit b = Some lc /\ CommitFromProto lc = Val lc /\ SaveBlock db (Some b) ps (Some seen) = Val db' /\ bd_metas db' = <[h_Height (b_Header b) := meta_of b ps hash]> (bd_metas db) /\
    bd_commits db' = <[h_Height (b_Header b) - 1 := lc]> (bd_commits db) /\ bd_seen db' = Some seen /\ bd_hashes db' = <[hash := h_Height (b_Header b)]> (bd_hashes db) /\
    holds_block db' b (h_Height (b_Header b)) /\ (forall h i, h <> h_Height (b_Header b) -> bd_parts db' !! (h, i) = bd_parts db !! (h, i)).
Proof.
  intros Hr Hnext. destruct (br_commit _ _ _ _ Hr) as (lc & Hlc & Hlcv). destruct (br_parts _ _ _ _ Hr) as (pts & bz & Hps & Htot & Hval & Hjoin & Hun). pose proof (br_height _ _ _ _ Hr).
  unfold SaveBlock. rewrite (ready_hash _ _ _ _ Hr). cbn [mbind outcome_bind]. rewrite Hnext. cbn [panic_if mbind outcome_bind]. rewrite (br_complete _ _ _ _ Hr). cbn [negb panic_if mbind outcome_bind].
  rewrite Htot. unfold len. rewrite Nat2Z.id. destruct (save_parts_val ps (h_Height (b_Header b)) pts Hps (length pts) 0%nat (bd_parts db)) as (parts & Hsave & Hin & Hout); [done|].
  change (Z.of_nat 0) with 0 in Hsave. rewrite Hsave. cbn [mbind outcome_bind]. destruct (ready_meta _ _ _ _ Hr) as [Hmeta Hmv]. rewrite Hmeta. cbn [mbind outcome_bind]. rewrite Hlc. cbn [must_encode mbind outcome_bind].
  rewrite int64_id by int_lia. exists lc. eexists. split_and!; try done; simpl.
  - split. exists (meta_of b ps hash), pts. simpl. rewrite lookup_insert_eq. split_and!; try done.
    + intros i p Hp. split; [apply Hin; [lia|done]|]. rewrite Forall_lookup in Hval. by apply (Hval i).
    + by rewrite Hjoin.
    + apply (br_valid _ _ _ _ Hr).
  - intros h i Hne. apply Hout. by left.
Qed.

Lemma save_first_ok b ps seen hash : block_ready b ps seen hash ->
  exists db, SaveBlock empty_blocks (Some b) ps (Some seen) = Val db /\ blocks_ok [(b, seen)] (h_Height (b_Header b)) (h_Height (b_Header b)) db /\ LoadBlockByHash db hash = Val (Some b).
Proof.
  intros Hr. destruct (SaveBlock_val empty_blocks b ps seen hash Hr eq_refl) as (lc & db & Hlc & Hlcv & Hs & Hm & Hc & Hsn & Hh & Hb & _). pose proof (br_height _ _ _ _ Hr). exists db. split_and!; [done| |].
  - split; [lia|lia| | |exists (h_Height (b_Header b))| |].
    + intros h. rewrite Hm. destruct (decide (h = h_Height (b_Header b))) as [->|Hne]; [rewrite lookup_insert_eq; split; [lia|eauto]|]. rewrite lookup_insert_ne by done. split; [by intros [? ?]|lia].
    + intros h meta. rewrite Hm. intros [[_ <-]|[_ ?]]%lookup_insert_Some; [by destruct (ready_meta _ _ _ _ Hr)|done].
    + unfold len. simpl. split_and!; [lia|lia|]. intros i b' seen' Hi. apply list_lookup_singleton_Some in Hi as [-> [= <- <-]]. lia.
    + exists b, seen. split_and!; [done|done|]. unfold LoadSeenCommit. rewrite Hsn, (must_val _ _ (br_seen _ _ _ _ Hr)). done.
    + intros b' seen' [= -> ->]%list_elem_of_singleton. simpl. split_and!; [lia|done|lia].
  - unfold LoadBlockByHash. rewrite Hh, lookup_insert_eq. by apply LoadBlock_held.
Qed.

Lemma save_next_ok bs base top db b ps seen hash : blocks_ok bs base top db -> block_ready b ps seen hash -> h_Height (b_Header b) = top + 1 ->
  exists db', SaveBlock db (Some b) ps (Some seen) = Val db' /\ blocks_ok (bs ++ [(b, seen)]) base (top + 1) db' /\ LoadBlockByHash db' hash = Val (Some b).
Proof.
  intros Hok Hr Hht. destruct (blocks_ends _ _ _ _ Hok) as (Hb & Hh & _). pose proof (bo_range _ _ _ _ Hok). pose proof (bo_max _ _ _ _ Hok). pose proof (br_height _ _ _ _ Hr).
  destruct (SaveBlock_val db b ps seen hash Hr) as (lc & db' & Hlc & Hlcv & Hs & Hm & Hc & Hsn & Hhs & Hhold & Hparts).
  { rewrite Hh, Hht, int64_id by int_lia. rewrite Z.eqb_refl. by rewrite andb_false_r. }
  rewrite Hht in *. exists db'. split_and!; [done| |].
  - destruct (bo_turn _ _ _ _ Hok) as (first & Hf & Htop & Hturn). split; [lia|lia| | |exists first| |].
    + intros h. rewrite Hm. destruct (decide (h = top + 1)) as [->|Hne]; [rewrite lookup_insert_eq; split; [lia|eauto]|]. rewrite lookup_insert_ne by done. rewrite (bo_metas _ _ _ _ Hok). lia.
    + intros h meta. rewrite Hm. intros [[_ <-]|[_ Hk]]%lookup_insert_Some; [by destruct (ready_meta _ _ _ _ Hr)|by apply (bo_valid _ _ _ _ Hok h)].
    + unfold len in *. rewrite length_app. simpl. split_and!; [lia|lia|]. intros i b' seen' Hi. apply lookup_snoc_Some in Hi as [[_ Hi]|[-> [= -> ->]]]; [by apply (Hturn i b' seen')|lia].
    + exists b, seen. rewrite last_snoc. split_and!; [done|done|]. unfold LoadSeenCommit. rewrite Hsn, (must_val _ _ (br_seen _ _ _ _ Hr)). done.
    + intros b' seen' [Hin|[= -> ->]%list_elem_of_singleton]%elem_of_app; simpl.
      * destruct (bo_blocks _ _ _ _ Hok b' seen' Hin) as (Ht & Hkeep & Hcm). split_and!; [lia| |].
        -- intros Hbb. apply (holds_block_frame db); [rewrite Hm; apply lookup_insert_ne; lia|intros i _; apply Hparts; lia|by apply Hkeep].
        -- intros Hbb. destruct (Hcm Hbb) as (lc' & ? & ? & ?). exists lc'. split_and!; [done|done|]. rewrite Hc, lookup_insert_ne by lia. done.
      * rewrite Hht. split_and!; [lia|done|]. intros _. exists lc. split_and!; [done|done|]. by rewrite Hc, lookup_insert_eq.
  - unfold LoadBlockByHash. rewrite Hhs, lookup_insert_eq. by apply LoadBlock_held.
Qed.

(** Pruning leaves the retained height and what follows it. *)
Lemma prune_blocks_ok bs base top db retain : blocks_ok bs base top db -> 1 <= retain <= top ->
  exists db', PruneBlocks db retain = (db', Val (Z.max base retain - base)) /\ blocks_ok bs (Z.max base retain) top db' /\
    (forall h i, 0 <= i -> 0 <= h < retain -> bd_parts db' !! (h, i) = None /\ bd_commits db' !! h = None).
Proof.
  intros Hok Hret. destruct (blocks_ends _ _ _ _ Hok) as (Hb & Hh & _). pose proof (bo_range _ _ _ _ Hok). pose proof (bo_max _ _ _ _ Hok). unfold PruneBlocks. destruct (Z.leb_spec retain 0); [lia|].
  rewrite Hh. destruct (Z.gtb_spec retain top); [lia|]. unfold prune_range_blocks.
  destruct (prune_blocks_spec removeBlockHash (fun _ v => [bid_Hash (bm_BlockID v)]) (S (base.size (bd_metas db))) (bd_metas db) 0 retain [] 0) as (metas & xs & Hrun & Hms & _); [lia| |].
  { intros k v Hk _. unfold removeBlockHash. rewrite (bo_valid _ _ _ _ Hok k v Hk). done. }
  rewrite Hrun. cbn [bd_metas bd_parts bd_commits bd_seen bd_hashes].
  destruct (prune_blocks_spec (X := bytes) no_hook (fun _ _ => []) (S (base.size (bd_parts db))) (bd_parts db) (0, 0) (retain, 0) [] 0) as (parts & ys & Hrun2 & Hps & _); [lia|done|].
  rewrite Hrun2. cbn [bd_metas bd_parts bd_commits bd_seen bd_hashes].
  destruct (prune_blocks_spec (X := bytes) no_hook (fun _ _ => []) (S (base.size (bd_commits db))) (bd_commits db) 0 retain [] 0) as (commits & zs & Hrun3 & Hcs & _); [lia|done|]. rewrite Hrun3.
  assert (Hkey : forall k, in_range 0 retain k = (0 <=? k) && (k <? retain)) by (intros k; unfold in_range; simpl; by rewrite Z.leb_antisym).
  assert (Hcount : len (keys_in (bd_metas db) 0 retain) = Z.max base retain - base).
  { assert (Hperm : keys_in (bd_metas db) 0 retain ≡ₚ seqZ base (Z.max base retain - base)); [|unfold len; rewrite Hperm, length_seqZ; lia].
    apply NoDup_Permutation; [apply keys_in_nodup|apply NoDup_seqZ|]. intros k. rewrite keys_in_elem, (bo_metas _ _ _ _ Hok), Hkey, elem_of_seqZ, andb_true_iff, Z.leb_le, Z.ltb_lt. lia. }
  eexists. split; [by rewrite Hcount|]. split.
  - split; [lia|done| | | | |]; cbn [bd_metas bd_parts bd_commits bd_seen bd_hashes].
    + intros h. rewrite Hms, Hkey. destruct (Z.leb_spec 0 h), (Z.ltb_spec h retain); simpl; try (rewrite (bo_metas _ _ _ _ Hok); lia). split; [by intros [? ?]|lia].
    + intros h meta Hk. rewrite Hms in Hk. destruct (in_range 0 retain h); [done|]. by apply (bo_valid _ _ _ _ Hok h).
    + destruct (bo_turn _ _ _ _ Hok) as (first & Hf & Htop & Hturn). exists first. split_and!; [lia|done|done].
    + apply (bo_last _ _ _ _ Hok).
    + intros b seen Hin. destruct (bo_blocks _ _ _ _ Hok b seen Hin) as (Ht & Hkeep & Hcm). simpl. split_and!; [done| |].
      * intros Hbb. apply (holds_block_frame db); [simpl; rewrite Hms, Hkey; destruct (Z.ltb_spec (h_Height (b_Header b)) retain); [lia|by rewrite andb_false_r]| |apply Hkeep; lia].
        intros i Hi. simpl. rewrite Hps. unfold in_range. simpl. destruct (Z.ltb_spec (h_Height (b_Header b)) retain); [lia|]. destruct (Z.ltb_spec i 0); [lia|]. simpl. by rewrite !andb_false_r.
      * intros Hbb. destruct (Hcm ltac:(lia)) as (lc & ? & ? & ?). exists lc. split_and!; [done|done|]. rewrite Hcs, Hkey. destruct (Z.ltb_spec (h_Height (b_Header b) - 1) retain); [lia|by rewrite andb_false_r].
  - intros h i Hi Hh0. simpl. rewrite Hps, Hcs, Hkey. unfold in_range. simpl. destruct (Z.leb_spec 0 h), (Z.ltb_spec h retain); try lia. simpl. split; [|done].
    destruct (Z.ltb_spec h 0); [lia|]. destruct (Z.ltb_spec i 0); [lia|]. by rewrite andb_false_r.
Qed.

Lemma saved_height bs base top db b ps seen hash db' : blocks_ok bs base top db -> block_ready b ps seen hash -> SaveBlock db (Some b) ps (Some seen) = Val db' -> h_Height (b_Header b) = top + 1.
Proof.
  intros Hok Hr Hs. destruct (blocks_ends _ _ _ _ Hok) as (Hb & Hh & _). pose proof (bo_range _ _ _ _ Hok). pose proof (bo_max _ _ _ _ Hok). unfold SaveBlock in Hs.
  rewrite (ready_hash _ _ _ _ Hr) in Hs. cbn [mbind outcome_bind] in Hs. apply bind_val in Hs as ([] & Hp & _). rewrite Hb, Hh, int64_id in Hp by int_lia.
  destruct (Z.gtb_spec base 0); [|lia]. destruct (Z.eqb_spec (h_Height (b_Header b)) (top + 1)); done.
Qed.

Lemma blocks_reach_ok bs base db : blocks_reach bs base db -> exists top, blocks_ok bs base top db.
Proof.
  induction 1 as [b ps seen hash db Hr Hs|bs base db b ps seen hash db' _ [top IH] Hr Hs|bs base db retain db' n _ [top IH] Hp].
  - destruct (save_first_ok b ps seen hash Hr) as (db' & Hs' & Hok & _). assert (db' = db) as -> by congruence. eauto.
  - destruct (save_next_ok bs base top db b ps seen hash IH Hr) as (db1 & Hs' & Hok & _); [by eapply saved_height|]. assert (db1 = db') as -> by congruence. eauto.
  - destruct (blocks_ends _ _ _ _ IH) as (_ & Hh & _). assert (Hle : 1 <= retain <= top).
    { unfold PruneBlocks in Hp. destruct (Z.leb_spec retain 0); [done|]. rewrite Hh in Hp. destruct (Z.gtb_spec retain top); [done|lia]. }
    destruct (prune_blocks_ok bs base top db retain IH Hle) as (db1 & Hp' & Hok & _). assert (db1 = db') as -> by congruence. eauto.
Qed.

(** C20: The block store holds a contiguous range of heights.  After any sequence of successful
    saves and prunes, the blocks saved have consecutive heights; [Base] is the height of the
    first block or the highest one pruned to, [Height] that of the last block, and [Size] the
    number of heights from one to the other.  At each of these heights a block was saved and
    is loaded as it was saved, and at every other height none is found; the commit of a block
    is the last commit of the next one; and the seen commit is that saved with the last block. *)
Theorem block_store_serves bs base db : blocks_reach bs base db ->
  exists first top, BlockStore_Base db = base /\ BlockStore_Height db = top /\ BlockStore_Size db = top - base + 1 /\
    first <= base <= top /\ top = first + len bs - 1 /\ (forall i b seen, bs !! i = Some (b, seen) -> h_Height (b_Header b) = first + Z.of_nat i) /\
    (exists b seen, last bs = Some (b, seen) /\ h_Height (b_Header b) = top /\ LoadSeenCommit db = Val (Some seen)) /\
    (forall h, base <= h <= top -> exists b seen, (b, seen) ∈ bs /\ h_Height (b_Header b) = h /\ LoadBlock db h = Val (Some b)) /\
    (forall h, h < base \/ top < h -> LoadBlock db h = Val None) /\
    forall b seen, (b, seen) ∈ bs -> let h := h_Height (b_Header b) in
      (base <= h -> h <= top /\ LoadBlock db h = Val (Some b)) /\ (h < base -> LoadBlock db h = Val None) /\
      (base < h -> LoadBlockCommit db (h - 1) = Val (b_LastCommit b)).
Proof.
  intros Hr. destruct (blocks_reach_ok bs base db Hr) as [top Hok]. destruct (blocks_ends _ _ _ _ Hok) as (Hb & Hh & Hsz). destruct (bo_turn _ _ _ _ Hok) as (first & Hf & Ht & Hturn).
  pose proof (bo_range _ _ _ _ Hok) as Hrange. exists first, top.
  assert (Hnone : forall h, h < base \/ top < h -> LoadBlock db h = Val None).
  { intros h Hlt. unfold LoadBlock, LoadBlockMeta. destruct (bd_metas db !! _) eqn:Hm; [|done]. assert (base <= h <= top) by (apply (bo_metas _ _ _ _ Hok); eauto). lia. }
  split_and!; [done|done|done|done|lia|done|done|apply (bo_last _ _ _ _ Hok)| |done|].
  - intros h Hbh. destruct (lookup_lt_is_Some_2 bs (Z.to_nat (h - first))) as [[b seen] Hi]; [unfold len in Ht; lia|]. exists b, seen. pose proof (Hturn _ _ _ Hi) as Hbh'.
    assert (h_Height (b_Header b) = h) as Heq by lia. split_and!; [by eapply list_elem_of_lookup_2|done|]. destruct (bo_blocks _ _ _ _ Hok b seen) as (_ & Hkeep & _); [by eapply list_elem_of_lookup_2|].
    rewrite <- Heq. apply LoadBlock_held, Hkeep. lia.
  - intros b seen Hin. destruct (bo_blocks _ _ _ _ Hok b seen Hin) as (Hle & Hkeep & Hcm). simpl. split_and!.
    + intros Hbb. split; [done|]. by apply LoadBlock_held, Hkeep.
    + intros Hlt. apply Hnone. by left.
    + intros Hbb. destruct (Hcm Hbb) as (lc & -> & Hv & Hc). unfold LoadBlockCommit. rewrite Hc, (must_val _ _ Hv). done.
Qed.

(** C21: The block store takes every next block: a block that is ready, of the height after the
    last one, is saved without a panic and found by its hash; a block of another height panics;
    and pruning to a height of the store succeeds, reports the number of blocks below it and
    removes all their parts and commits. *)
Theorem block_store_accepts bs base db top : blocks_reach bs base db -> BlockStore_Height db = top ->
  (forall b ps seen hash, block_ready b ps seen hash ->
     (h_Height (b_Header b) = top + 1 -> exists db', SaveBlock db (Some b) ps (Some seen) = Val db' /\ LoadBlockByHash db' hash = Val (Some b)) /\
     (h_Height (b_Header b) <> top + 1 -> exists w, SaveBlock db (Some b) ps (Some seen) = Panic w)) /\
  (forall retain, base <= retain <= top -> exists db', PruneBlocks db retain = (db', Val (retain - base)) /\
     forall h i, 0 <= i -> 0 <= h < retain -> bd_parts db' !! (h, i) = None /\ bd_commits db' !! h = None).
Proof.
  intros Hr Ht. destruct (blocks_reach_ok bs base db Hr) as [top' Hok]. destruct (blocks_ends _ _ _ _ Hok) as (Hb & Hh & _). assert (top' = top) as -> by congruence. split.
  - intros b ps seen hash Hrb. split.
    + intros He. destruct (save_next_ok bs base top db b ps seen hash Hok Hrb He) as (db' & Hs & _ & Hl). by exists db'.
    + intros Hne. pose proof (bo_range _ _ _ _ Hok). pose proof (bo_max _ _ _ _ Hok). unfold SaveBlock. rewrite (ready_hash _ _ _ _ Hrb). cbn [mbind outcome_bind]. rewrite Hb, Hh, (int64_id (top + 1)) by int_lia.
      destruct (Z.gtb_spec base 0); [|lia]. destruct (Z.eqb_spec (h_Height (b_Header b)) (top + 1)); [done|]. by eexists.
  - intros retain Hret. pose proof (bo_range _ _ _ _ Hok). destruct (prune_blocks_ok bs base top db retain Hok ltac:(lia)) as (db' & Hp & _ & Hgone).
    rewrite Z.max_r in Hp by lia. by exists db'.
Qed.
End store.

(** ** A concrete store *)

#[local] Existing Instances digest_crypto toy_sha256 toy_time toy_wrappers toy_evidence.
#[local] Instance sample_block_eq_dec : EqDecision (@Block toy_evidence).
Proof. solve_decision. Defined.

(** The block of the next height, and a codec that knows these two blocks. *)
Definition later_header (h : Header) : Header :=
  mkHeader (h_Version h) (h_ChainID h) (h_Height h + 1) (h_Time h) (h_LastBlockID h) (h_LastCommitHash h) (h_DataHash h) (h_ValidatorsHash h)
    (h_NextValidatorsHash h) (h_ConsensusHash h) (h_AppHash h) (h_LastResultsHash h) (h_EvidenceHash h) (h_ProposerAddress h).
Definition later_block : Block := mkBlock (later_header (b_Header sample_block)) (b_Txs sample_block) (b_Evidence sample_block) (b_LastCommit sample_block).
Definition pair_marshal (b1 b2 b : Block) : option bytes := if decide (b = b1) then Some [x01] else if decide (b = b2) then Some [x02] else None.
Definition pair_unmarshal (b1 b2 : Block) (bz : bytes) : option Block :=
  if bytes_equal bz [x01] then Some b1 else if bytes_equal bz [x02] then Some b2 else None.
Lemma pair_marshal_law b1 b2 b bz : pair_marshal b1 b2 b = Some bz -> pair_unmarshal b1 b2 bz = Some b.
Proof. unfold pair_marshal. repeat case_decide; subst; intros [= <-]; reflexivity. Qed.
Definition pair_codec : @BlockCodec toy_evidence :=
  {| Block_Marshal := pair_marshal sample_block later_block; Block_Unmarshal := pair_unmarshal sample_block later_block;
     EvidenceList_Size := fun l => Some (len l); Block_Unmarshal_Marshal := pair_marshal_law sample_block later_block |}.
#[local] Existing Instance pair_codec.

Definition parts_of (bz : bytes) : PartSet := match NewPartSetFromData bz BlockPartSizeBytes with Val ps => ps | _ => mkPartSet 0 [] [] None 0 0 end.
Definition one_parts : PartSet := parts_of [x01].
Definition later_parts : PartSet := parts_of [x02].
Definition one_seen : Commit := match b_LastCommit sample_block with Some c => c | None => mkCommit 0 0 nilBlockID [] end.
Definition hash_of (b : Block) : bytes := match Header_Hash (b_Header b) with Val h => h | _ => [] end.
Definition one_hash : bytes := hash_of sample_block.

Definition single_part (ps : PartSet) : list Part := [default (mkPart 0 [] (Merkle.mkProof 0 0 None [])) (head (omap id (ps_parts ps)))].
Lemma one_ready : block_ready sample_block one_parts one_seen one_hash.
Proof.
  split; [vm_compute; split; [discriminate|reflexivity]|vm_compute; reflexivity..| | | |vm_compute; reflexivity].
  - exists (single_part one_parts), [x01]. split; [vm_compute; reflexivity|]. split; [vm_compute; reflexivity|]. split; [|split; vm_compute; reflexivity].
    apply Forall_singleton. vm_compute. reflexivity.
  - vm_compute. reflexivity.
  - exists one_seen. split; vm_compute; reflexivity.
Qed.
Lemma later_ready : block_ready later_block later_parts one_seen (hash_of later_block).
Proof.
  split; [vm_compute; split; [discriminate|reflexivity]|vm_compute; reflexivity..| | | |vm_compute; reflexivity].
  - exists (single_part later_parts), [x02]. split; [vm_compute; reflexivity|]. split; [vm_compute; reflexivity|]. split; [|split; vm_compute; reflexivity].
    apply Forall_singleton. vm_compute. reflexivity.
  - vm_compute. reflexivity.
  - exists one_seen. split; vm_compute; reflexivity.
Qed.
Definition one_store : go BlockDB := SaveBlock empty_blocks (Some sample_block) one_parts (Some one_seen).
Lemma one_reach db : one_store = Val db -> blocks_reach [(sample_block, one_seen)] 5 db.
Proof. intros Hs. exact (reach_first sample_block one_parts one_seen one_hash db one_ready Hs). Qed.
Lemma one_store_val : exists db, one_store = Val db.
Proof. destruct (save_first_ok sample_block one_parts one_seen one_hash one_ready) as (db & Hdb & _). by exists db. Qed.

(** Two blocks are saved and the first is pruned. *)
Definition two_store : go BlockDB :=
  db ← one_store;
  SaveBlock db (Some later_block) later_parts (Some one_seen).
Lemma block_store_serves_witness : exists db db', two_store = Val db /\ PruneBlocks db 6 = (db', Val 1) /\
  BlockStore_Base db' = 6 /\ BlockStore_Size db' = 1 /\ LoadBlock db' 5 = Val None /\ LoadBlock db' 6 = Val (Some later_block).
Proof.
  destruct (save_first_ok sample_block one_parts one_seen one_hash one_ready) as (db1 & H1 & Hok1 & _).
  destruct (save_next_ok _ _ _ db1 later_block later_parts one_seen (hash_of later_block) Hok1 later_ready) as (db & H2 & Hok2 & _); [vm_compute; reflexivity|].
  destruct (prune_blocks_ok _ _ _ db 6 Hok2) as (db' & Hp & _); [vm_compute; split; discriminate|].
  assert (Hn : Z.max (h_Height (b_Header sample_block)) 6 - h_Height (b_Header sample_block) = 1) by (vm_compute; reflexivity). rewrite Hn in Hp.
  assert (Hdb : two_store = Val db) by (unfold two_store, one_store; rewrite H1; exact H2).
  assert (Hreach : blocks_reach [(sample_block, one_seen); (later_block, one_seen)] 6 db').
  { apply (reach_prune _ 5 db 6 db' 1); [|exact Hp].
    apply (reach_save [(sample_block, one_seen)] 5 db1 later_block later_parts one_seen (hash_of later_block) db); [by apply one_reach|apply later_ready|exact H2]. }
  destruct (block_store_serves _ 6 db' Hreach) as (first & top & Hb & _ & Hs & _ & _ & _ & (b & seen & Hlast & Ht & _) & _ & Hnone & Hall).
  assert (Htop : top = 6).
  { apply (f_equal (fun o => match o with Some (x, _) => h_Height (b_Header x) | None => 0 end)) in Hlast. rewrite <- Ht. etransitivity; [symmetry; exact Hlast|vm_compute; reflexivity]. }
  rewrite Htop in Hs.
  exists db, db'. split; [exact Hdb|]. split; [exact Hp|]. split; [exact Hb|]. split; [exact Hs|]. split; [apply Hnone; left; reflexivity|].
  destruct (Hall later_block one_seen) as ((_ & Hl) & _); [right; left|vm_compute; discriminate|exact Hl].
Defined.
Lemma one_height db : one_store = Val db -> BlockStore_Height db = 5.
Proof.
  intros Hdb. destruct (save_first_ok sample_block one_parts one_seen one_hash one_ready) as (db' & Hdb' & Hok & _). unfold one_store in Hdb. rewrite Hdb in Hdb'. injection Hdb' as <-.
  destruct (blocks_ends _ _ _ _ Hok) as (_ & Hh & _). rewrite Hh. vm_compute. reflexivity.
Qed.
Lemma block_store_accepts_witness : exists db db', one_store = Val db /\ PruneBlocks db 5 = (db', Val 0).
Proof.
  destruct one_store_val as [db Hdb]. destruct (block_store_accepts [(sample_block, one_seen)] 5 db 5 (one_reach db Hdb) (one_height db Hdb)) as [_ Hp].
  destruct (Hp 5) as (db' & Hpr & _); [split; discriminate|]. exists db, db'. split; [exact Hdb|exact Hpr].
Defined.
