(* ===== verification/SnapshotPool.v ===== *)
(** * internal/statesync/snapshots.go: the pool of snapshots offered by peers

    Models snapshots and their keys, the pool with its indexes by format, height and peer, its
    blacklists, and the ranking of snapshots.  A nested map of the source is a map to sets; the
    inner maps only ever hold [true] (or the peer itself).  What the Go library leaves open, the
    order of a map iteration and of [sort.Slice], is the class [RankOrders]. *)
From Stdlib Require Import ZArith Lia Strings.Byte Strings.String Sorting.Sorted.
From stdpp Require Import base list strings gmap pretty.
From S2P Require Import Prelude.
From S2P Require Import Merkle.
From S2P Require Import PeerManager.

(** ** Snapshots *)

Record snapshot := mkSnapshot {
  s_Height : Z;
  s_Format : Z;
  s_Chunks : Z;
  s_Hash : bytes;
  s_Metadata : bytes;
  s_trustedAppHash : bytes
}.
Definition set_trusted (s : snapshot) (appHash : bytes) : snapshot :=
  mkSnapshot (s_Height s) (s_Format s) (s_Chunks s) (s_Hash s) (s_Metadata s) appHash.

(** [%v] of an unsigned integer. *)
Definition decimal (z : Z) : string := pretty (Z.to_N z).
Definition key_text (s : snapshot) : string :=
  (decimal (s_Height s) +:+ ":" +:+ decimal (s_Format s) +:+ ":" +:+ decimal (s_Chunks s))%string.

Definition recentSnapshots : Z := 10.

(** What the Go library leaves open: [sort.Slice] sorts when [less] is a strict weak order on the
    elements, and only permutes them otherwise; a map is visited in any order. *)
Class RankOrders := {
  range_keys : list bytes -> list bytes;
  range_keys_perm l : range_keys l ≡ₚ l;
  slice_sort : (snapshot -> snapshot -> bool) -> list snapshot -> list snapshot;
  slice_sort_perm less l : slice_sort less l ≡ₚ l;
  slice_sort_sorted (less : snapshot -> snapshot -> bool) l :
    (forall a b, a ∈ l -> b ∈ l -> less a b = true -> less b a = false) ->
    (forall a b c, a ∈ l -> b ∈ l -> c ∈ l -> sort_le less a b -> sort_le less b c -> sort_le less a c) ->
    StronglySorted (sort_le less) (slice_sort less l)
}.

(** ** The pool *)

Record snapshotPool := mkPool {
  sp_snapshots : gmap bytes snapshot;
  sp_snapshotPeers : gmap bytes (gset NodeID);
  sp_formatIndex : gmap Z (gset bytes);
  sp_heightIndex : gmap Z (gset bytes);
  sp_peerIndex : gmap NodeID (gset bytes);
  sp_formatBlacklist : gset Z;
  sp_peerBlacklist : gset NodeID;
  sp_snapshotBlacklist : gset bytes
}.
Definition newSnapshotPool : snapshotPool := mkPool ∅ ∅ ∅ ∅ ∅ ∅ ∅ ∅.

(** [m[k]] of a map of maps (a missing inner map is nil, which reads as empty), [m[k][x] = true]
    and [delete(m[k], x)]. *)
Section nested.
Context {K A : Type} `{Countable K, Countable A}.
Definition inner (m : gmap K (gset A)) (k : K) : gset A := default ∅ (m !! k).
Definition inner_add (k : K) (x : A) (m : gmap K (gset A)) : gmap K (gset A) := <[k := {[x]} ∪ inner m k]> m.
Definition inner_del (k : K) (x : A) (m : gmap K (gset A)) : gmap K (gset A) := alter (fun s => s ∖ {[x]}) k m.
End nested.

Definition removeSnapshot (p : snapshotPool) (key : bytes) : snapshotPool :=
  match sp_snapshots p !! key with
  | None => p
  | Some s =>
      mkPool (delete key (sp_snapshots p)) (delete key (sp_snapshotPeers p))
        (inner_del (s_Format s) key (sp_formatIndex p)) (inner_del (s_Height s) key (sp_heightIndex p))
        (foldr (fun id m => inner_del id key m) (sp_peerIndex p) (elements (inner (sp_snapshotPeers p) key)))
        (sp_formatBlacklist p) (sp_peerBlacklist p) (sp_snapshotBlacklist p)
  end.

(** One iteration of the loop of [removePeer]. *)
Definition forget_peer (peerID : NodeID) (key : bytes) (p : snapshotPool) : snapshotPool :=
  let p := mkPool (sp_snapshots p) (inner_del key peerID (sp_snapshotPeers p)) (sp_formatIndex p) (sp_heightIndex p) (sp_peerIndex p)
             (sp_formatBlacklist p) (sp_peerBlacklist p) (sp_snapshotBlacklist p) in
  if bool_decide (inner (sp_snapshotPeers p) key = ∅) then removeSnapshot p key else p.
Definition removePeer (p : snapshotPool) (peerID : NodeID) : snapshotPool :=
  let p := foldr (forget_peer peerID) p (elements (inner (sp_peerIndex p) peerID)) in
  mkPool (sp_snapshots p) (sp_snapshotPeers p) (sp_formatIndex p) (sp_heightIndex p) (delete peerID (sp_peerIndex p))
    (sp_formatBlacklist p) (sp_peerBlacklist p) (sp_snapshotBlacklist p).
Definition RemovePeer (p : snapshotPool) (peerID : NodeID) : snapshotPool := removePeer p peerID.

Definition RejectFormat (p : snapshotPool) (format : Z) : snapshotPool :=
  let p := mkPool (sp_snapshots p) (sp_snapshotPeers p) (sp_formatIndex p) (sp_heightIndex p) (sp_peerIndex p)
             ({[format]} ∪ sp_formatBlacklist p) (sp_peerBlacklist p) (sp_snapshotBlacklist p) in
  foldr (fun key p => removeSnapshot p key) p (elements (inner (sp_formatIndex p) format)).
Definition RejectPeer (p : snapshotPool) (peerID : NodeID) : snapshotPool :=
  if bool_decide (peerID = "") then p
  else
    let p := removePeer p peerID in
    mkPool (sp_snapshots p) (sp_snapshotPeers p) (sp_formatIndex p) (sp_heightIndex p) (sp_peerIndex p)
      (sp_formatBlacklist p) ({[peerID]} ∪ sp_peerBlacklist p) (sp_snapshotBlacklist p).

Section pool.
Context `{!Sha256}.

(** [snapshot.Key]. *)
Definition Key (s : snapshot) : bytes := sha256 (String.list_byte_of_string (key_text s) ++ s_Hash s ++ s_Metadata s).

Definition Pool_Add (p : snapshotPool) (peerID : NodeID) (s : snapshot) : snapshotPool * bool :=
  let key := Key s in
  if bool_decide (s_Format s ∈ sp_formatBlacklist p) then (p, false)
  else if bool_decide (peerID ∈ sp_peerBlacklist p) then (p, false)
  else if bool_decide (key ∈ sp_snapshotBlacklist p) then (p, false)
  else if Z.of_nat (size (inner (sp_peerIndex p) peerID)) >=? recentSnapshots then (p, false)
  else
    let snapshotPeers := inner_add key peerID (sp_snapshotPeers p) in
    let peerIndex := inner_add peerID key (sp_peerIndex p) in
    match sp_snapshots p !! key with
    | Some _ =>
        (mkPool (sp_snapshots p) snapshotPeers (sp_formatIndex p) (sp_heightIndex p) peerIndex
           (sp_formatBlacklist p) (sp_peerBlacklist p) (sp_snapshotBlacklist p), false)
    | None =>
        (mkPool (<[key := s]> (sp_snapshots p)) snapshotPeers (inner_add (s_Format s) key (sp_formatIndex p))
           (inner_add (s_Height s) key (sp_heightIndex p)) peerIndex
           (sp_formatBlacklist p) (sp_peerBlacklist p) (sp_snapshotBlacklist p), true)
    end.

Definition Pool_Reject (p : snapshotPool) (s : snapshot) : snapshotPool :=
  let key := Key s in
  removeSnapshot (mkPool (sp_snapshots p) (sp_snapshotPeers p) (sp_formatIndex p) (sp_heightIndex p) (sp_peerIndex p)
    (sp_formatBlacklist p) (sp_peerBlacklist p) ({[key]} ∪ sp_snapshotBlacklist p)) key.

Definition GetPeers (p : snapshotPool) (s : snapshot) : list NodeID :=
  sort_by String.ltb (elements (inner (sp_snapshotPeers p) (Key s))).
(** [rand] is the answer of [rand.Intn]. *)
Definition GetPeer (p : snapshotPool) (s : snapshot) (rand : Z) : go NodeID :=
  let peers := GetPeers p s in
  if len peers =? 0 then Val "" else slice_get peers (rand mod len peers).

Definition num_peers (p : snapshotPool) (key : bytes) : Z := Z.of_nat (size (inner (sp_snapshotPeers p) key)).
Definition sorterFactory (p : snapshotPool) (a b : snapshot) : bool :=
  if s_Height a >? s_Height b then true
  else if s_Height a <? s_Height b then false
  else if num_peers p (Key a) >? num_peers p (Key b) then true
  else if s_Format a >? s_Format b then true
  else false.

(** The median of a list of counts. *)
Definition median_peers (numPeers : list Z) : go Z :=
  let numPeers := sort_by Z.ltb numPeers in
  let median := len numPeers / 2 in
  if len numPeers mod 2 =? 0 then
    a ← slice_get numPeers (median - 1);
    b ← slice_get numPeers median;
    Val ((a + b) / 2)
  else slice_get numPeers median.

Definition Ranked `{!RankOrders} (p : snapshotPool) : go (list snapshot) :=
  if bool_decide (sp_snapshots p = ∅) then Val []
  else
    let keys := range_keys (map_to_list (sp_snapshots p)).*1 in
    median ← median_peers ((num_peers p) <$> keys);
    let common := filter (fun key => median < num_peers p key) keys in
    let uncommon := filter (fun key => ~ median < num_peers p key) keys in
    let at_keys := omap (fun key => sp_snapshots p !! key) in
    Val (slice_sort (sorterFactory p) (at_keys common) ++ slice_sort (sorterFactory p) (at_keys uncommon)).
Definition Best `{!RankOrders} (p : snapshotPool) : go (option snapshot) :=
  ranked ← Ranked p;
  Val (head ranked).
End pool.
