(* ===== verification/SnapshotPoolProofs.v ===== *)
(** * The snapshot pool keeps its indexes and honours its blacklists

    The invariant [snapshots_ok] and its preservation by every operation, what [Best] returns, and
    where the ranking and the keys differ from what their comments say. *)
From Stdlib Require Import ZArith Lia Strings.Byte Strings.String Sorting.Sorted.
From stdpp Require Import base list strings gmap pretty sorting.
From S2P Require Import Prelude.
From S2P Require Import Merkle.
From S2P Require Import MerkleProofs.
From S2P Require Import PeerManager.
From S2P Require Import SnapshotPool.

(** ** Maps of sets *)

Section nested.
Context {K A : Type} `{Countable K, Countable A}.
Implicit Types (m : gmap K (gset A)) (k j : K) (x y : A).

Lemma elem_inner_add k x m j y : y ∈ inner (inner_add k x m) j <-> (j = k /\ y = x) \/ y ∈ inner m j.
Proof.
  unfold inner, inner_add. destruct (decide (j = k)) as [->|Hj].
  - rewrite lookup_insert_eq. simpl. set_solver.
  - rewrite lookup_insert_ne by done. naive_solver.
Qed.
Lemma elem_inner_del k x m j y : y ∈ inner (inner_del k x m) j <-> y ∈ inner m j /\ ~ (j = k /\ y = x).
Proof.
  unfold inner, inner_del. destruct (decide (j = k)) as [->|Hj].
  - rewrite lookup_alter_eq. destruct (m !! k); simpl; set_solver.
  - rewrite lookup_alter_ne by done. naive_solver.
Qed.
Lemma elem_inner_dels x m (l : list K) j y :
  y ∈ inner (foldr (fun id m => inner_del id x m) m l) j <-> y ∈ inner m j /\ ~ (j ∈ l /\ y = x).
Proof.
  induction l as [|k l IH]; simpl; [set_solver|].
  rewrite elem_inner_del, IH, elem_of_cons. naive_solver.
Qed.
Lemma elem_inner_delete k m j y : y ∈ inner (delete k m) j <-> y ∈ inner m j /\ j <> k.
Proof.
  unfold inner. destruct (decide (j = k)) as [->|Hj].
  - rewrite lookup_delete_eq. set_solver.
  - rewrite lookup_delete_ne by done. naive_solver.
Qed.
End nested.
Create HintDb inner.
#[export] Hint Rewrite @elem_inner_add @elem_inner_del @elem_inner_dels @elem_inner_delete @elem_of_elements : inner.

Ltac pool_cbn := cbn [sp_snapshots sp_snapshotPeers sp_formatIndex sp_heightIndex sp_peerIndex sp_formatBlacklist sp_peerBlacklist sp_snapshotBlacklist].

(** ** The invariant *)

Section invariant.
Context `{!Sha256}.

(** The invariant while the keys [gone] of the peer [id] are being forgotten and the snapshots at
    the keys [bad] are still to be removed. *)
Record pool_inv (id : NodeID) (gone bad : gset bytes) (p : snapshotPool) : Prop := {
  pi_key : forall k s, sp_snapshots p !! k = Some s -> Key s = k;
  pi_stored : forall k j, j ∈ inner (sp_snapshotPeers p) k -> is_Some (sp_snapshots p !! k);
  pi_peers : forall k s, sp_snapshots p !! k = Some s -> k ∉ bad -> exists j, j ∈ inner (sp_snapshotPeers p) k;
  pi_peerIndex : forall j k, k ∈ inner (sp_peerIndex p) j <-> (j ∈ inner (sp_snapshotPeers p) k \/ (j = id /\ k ∈ gone));
  pi_gone : forall k, k ∈ gone -> id ∉ inner (sp_snapshotPeers p) k;
  pi_formatIndex : forall f k, k ∈ inner (sp_formatIndex p) f <-> (exists s, sp_snapshots p !! k = Some s /\ s_Format s = f);
  pi_heightIndex : forall h k, k ∈ inner (sp_heightIndex p) h <-> (exists s, sp_snapshots p !! k = Some s /\ s_Height s = h);
  pi_recent : forall j, Z.of_nat (size (inner (sp_peerIndex p) j)) <= recentSnapshots;
  pi_allowed : forall k s, sp_snapshots p !! k = Some s -> k ∉ bad -> s_Format s ∉ sp_formatBlacklist p /\ k ∉ sp_snapshotBlacklist p;
  pi_banned : forall j k, j ∈ sp_peerBlacklist p -> k ∉ inner (sp_peerIndex p) j
}.

(** Every snapshot is stored under its key and has a peer; the indexes by peer, format and height
    are exactly those of the stored snapshots; no peer has more than [recentSnapshots]; nothing
    blacklisted is in the pool. *)
Definition snapshots_ok (p : snapshotPool) : Prop := pool_inv "" ∅ ∅ p.

Lemma pool_inv_idle id p : pool_inv id ∅ ∅ p <-> snapshots_ok p.
Proof.
  split; intros [? ? ? Hpi ? ? ? ? ? ?]; constructor; auto; try set_solver; intros j k; rewrite Hpi; set_solver.
Qed.

Lemma newSnapshotPool_ok : snapshots_ok newSnapshotPool.
Proof.
  unfold newSnapshotPool. split; cbn; intros *; unfold inner; rewrite ?lookup_empty; cbn; try done; try set_solver.
Qed.

Lemma inner_size_le (a b : gset bytes) : (forall x, x ∈ a -> x ∈ b) -> Z.of_nat (size a) <= Z.of_nat (size b).
Proof. intros Hab. apply Nat2Z.inj_le, subseteq_size. set_solver. Qed.

(** A key of an index by an attribute of the snapshots, when the snapshot at [key] is deleted. *)
Lemma attr_index_delete {B} `{Countable B} (attr : snapshot -> B) (idx : gmap B (gset bytes)) (m : gmap bytes snapshot) key s :
  m !! key = Some s ->
  (forall b k, k ∈ inner idx b <-> (exists s, m !! k = Some s /\ attr s = b)) ->
  forall b k, k ∈ inner (inner_del (attr s) key idx) b <-> (exists s, delete key m !! k = Some s /\ attr s = b).
Proof.
  intros Hs Hidx b k. rewrite elem_inner_del, Hidx. setoid_rewrite lookup_delete_Some.
  destruct (decide (k = key)) as [->|Hne]; naive_solver congruence.
Qed.
Lemma attr_index_insert {B} `{Countable B} (attr : snapshot -> B) (idx : gmap B (gset bytes)) (m : gmap bytes snapshot) key s :
  m !! key = None ->
  (forall b k, k ∈ inner idx b <-> (exists s, m !! k = Some s /\ attr s = b)) ->
  forall b k, k ∈ inner (inner_add (attr s) key idx) b <-> (exists s', <[key := s]> m !! k = Some s' /\ attr s' = b).
Proof.
  intros Hs Hidx b k. rewrite elem_inner_add, Hidx. setoid_rewrite lookup_insert_Some.
  destruct (decide (k = key)) as [->|Hne]; naive_solver congruence.
Qed.

Lemma removeSnapshot_inv id gone bad p key :
  pool_inv id gone bad p -> pool_inv id gone (bad ∖ {[key]}) (removeSnapshot p key).
Proof.
  intros [Hk Hst Hp Hpi Hg Hf Hh Hr Ha Hb]. unfold removeSnapshot.
  destruct (sp_snapshots p !! key) as [s|] eqn:E.
  2:{ split; try done.
      - intros k s Hs Hn. apply (Hp k s Hs). destruct (decide (k = key)); [congruence|set_solver].
      - intros k s Hs Hn. apply (Ha k s Hs). destruct (decide (k = key)); [congruence|set_solver]. }
  split; pool_cbn.
  - intros k s' [_ H']%lookup_delete_Some. eauto.
  - intros k j [Hj Hne]%elem_inner_delete. rewrite lookup_delete_ne by done. eauto.
  - intros k s' [Hne H']%lookup_delete_Some Hn. destruct (Hp k s' H') as [j Hj]; [set_solver|].
    exists j. by apply elem_inner_delete.
  - intros j k. rewrite elem_inner_dels, elem_inner_delete, Hpi, elem_of_elements.
    destruct (decide (k = key)) as [->|]; naive_solver.
  - intros k Hkg [? ?]%elem_inner_delete. by apply (Hg k).
  - by apply attr_index_delete.
  - by apply attr_index_delete.
  - intros j. etrans; [|apply (Hr j)]. apply inner_size_le. intros k [? _]%elem_inner_dels. done.
  - intros k s' [Hne H']%lookup_delete_Some Hn. apply (Ha k s' H'). set_solver.
  - intros j k Hj [Hk' _]%elem_inner_dels. by apply (Hb j k).
Qed.

(** Removing the snapshots at a list of keys leaves the rest of [bad] to be removed. *)
Lemma removeSnapshots_inv id gone bad p (l : list bytes) :
  pool_inv id gone bad p -> pool_inv id gone (bad ∖ list_to_set l) (foldr (fun key p => removeSnapshot p key) p l).
Proof.
  intros Hp. induction l as [|k l IH]; cbn [foldr].
  - replace (bad ∖ list_to_set []) with bad by set_solver. done.
  - replace (bad ∖ list_to_set (k :: l)) with (bad ∖ list_to_set l ∖ {[k]}) by set_solver. by apply removeSnapshot_inv.
Qed.

Lemma forget_peer_inv id gone p key :
  pool_inv id gone ∅ p -> key ∈ inner (sp_peerIndex p) id -> pool_inv id ({[key]} ∪ gone) ∅ (forget_peer id key p).
Proof.
  intros [Hk Hst Hp Hpi Hg Hf Hh Hr Ha Hb] Hkey. unfold forget_peer. pool_cbn. set (q := mkPool _ _ _ _ _ _ _ _).
  assert (Hq : forall bad, (inner (inner_del key id (sp_snapshotPeers p)) key = ∅ -> key ∈ bad) -> pool_inv id ({[key]} ∪ gone) bad q).
  { intros bad Hbad. subst q. split; pool_cbn; try done.
    - intros k j [Hj _]%elem_inner_del. eauto.
    - intros k s Hs Hn. destruct (Hp k s Hs) as [j Hj]; [set_solver|]. destruct (decide (k = key)) as [->|Hne].
      + apply set_choose_L. intros Hemp. by apply Hn, Hbad.
      + exists j. apply elem_inner_del. naive_solver.
    - intros j k. rewrite Hpi, elem_inner_del. rewrite elem_of_union, elem_of_singleton.
      destruct (decide (k = key)) as [->|]; [|naive_solver]. destruct (decide (j = id)) as [->|]; [|naive_solver].
      apply Hpi in Hkey. naive_solver.
    - intros k Hkg [Hi Hn]%elem_inner_del. apply elem_of_union in Hkg as [->%elem_of_singleton|Hkg]; [naive_solver|]. by apply (Hg k).
    - intros k s Hs _. apply (Ha k s Hs). set_solver. }
  case_bool_decide as Hemp.
  - replace ∅ with ({[key]} ∖ {[key]} : gset bytes) by set_solver. apply removeSnapshot_inv, Hq. set_solver.
  - apply Hq. done.
Qed.

Lemma removeSnapshot_peerIndex p key j : inner (sp_snapshotPeers p) key = ∅ -> inner (sp_peerIndex (removeSnapshot p key)) j = inner (sp_peerIndex p) j.
Proof.
  intros He. unfold removeSnapshot. destruct (sp_snapshots p !! key); [|done]. pool_cbn. by rewrite He, elements_empty.
Qed.
Lemma forget_peers_inv id p (l : list bytes) :
  snapshots_ok p -> (forall k, k ∈ l -> k ∈ inner (sp_peerIndex p) id) ->
  pool_inv id (list_to_set l) ∅ (foldr (forget_peer id) p l) /\
  inner (sp_peerIndex (foldr (forget_peer id) p l)) id = inner (sp_peerIndex p) id.
Proof.
  intros Hp. induction l as [|k l IH]; intros Hl; cbn [foldr list_to_set].
  - split; [by apply pool_inv_idle|done].
  - destruct IH as [IH Hsame]; [set_solver|]. split.
    + apply forget_peer_inv; [done|]. rewrite Hsame. set_solver.
    + rewrite <- Hsame. unfold forget_peer. pool_cbn. case_bool_decide as He; [|done]. by rewrite removeSnapshot_peerIndex.
Qed.

Lemma pool_removePeer_ok p id : snapshots_ok p -> snapshots_ok (removePeer p id).
Proof.
  intros Hp. unfold removePeer.
  destruct (forget_peers_inv id p (elements (inner (sp_peerIndex p) id)) Hp) as [Hi Hsame]; [set_solver|].
  set (q := foldr _ _ _) in *. destruct Hi as [Hk Hst Hpe Hpi Hg Hf Hh Hr Ha Hb]. split; pool_cbn; try done.
  - intros j k. rewrite elem_inner_delete, Hpi. split; [naive_solver|]. intros [Hj|[_ []%not_elem_of_empty]]. split; [by left|].
    intros ->. apply (Hg k); [|done]. rewrite list_to_set_elements, <- Hsame, Hpi. by left.
  - intros j. etrans; [|apply (Hr j)]. apply inner_size_le. intros k [? _]%elem_inner_delete. done.
  - intros j k Hj [Hk' _]%elem_inner_delete. by apply (Hb j k).
Qed.
Lemma removePeer_gone p id k : k ∉ inner (sp_peerIndex (removePeer p id)) id.
Proof. unfold removePeer. pool_cbn. rewrite elem_inner_delete. naive_solver. Qed.

Lemma RejectPeer_ok p id : snapshots_ok p -> snapshots_ok (RejectPeer p id).
Proof.
  intros Hp. unfold RejectPeer. case_bool_decide; [done|]. pose proof (removePeer_gone p id) as Hgone.
  apply (pool_removePeer_ok p id) in Hp as [Hk Hst Hpe Hpi Hg Hf Hh Hr Ha Hb]. split; pool_cbn; try done.
  intros j k [->%elem_of_singleton|Hj]%elem_of_union; [done|by apply Hb].
Qed.

Lemma Pool_Reject_ok p s : snapshots_ok p -> snapshots_ok (Pool_Reject p s).
Proof.
  intros [Hk Hst Hpe Hpi Hg Hf Hh Hr Ha Hb]. unfold Pool_Reject, snapshots_ok.
  replace ∅ with ({[Key s]} ∖ {[Key s]} : gset bytes) at 2 by set_solver. apply removeSnapshot_inv.
  split; pool_cbn; try done.
  - intros k s' Hs _. apply (Hpe k s' Hs). set_solver.
  - intros k s' Hs Hn. destruct (Ha k s' Hs) as [? ?]; [set_solver|]. split; [done|]. by intros [?|?]%elem_of_union.
Qed.

Lemma RejectFormat_ok p f : snapshots_ok p -> snapshots_ok (RejectFormat p f).
Proof.
  intros [Hk Hst Hpe Hpi Hg Hf Hh Hr Ha Hb]. unfold RejectFormat, snapshots_ok. pool_cbn.
  set (bad := inner (sp_formatIndex p) f).
  replace ∅ with (bad ∖ list_to_set (elements bad) : gset bytes) at 2 by (rewrite list_to_set_elements_L; set_solver).
  apply removeSnapshots_inv. split; pool_cbn; try done.
  - intros k s' Hs _. apply (Hpe k s' Hs). set_solver.
  - intros k s' Hs Hn. destruct (Ha k s' Hs) as [? ?]; [set_solver|]. split; [|done].
    intros [Hsf%elem_of_singleton|]%elem_of_union; [|done]. apply Hn, Hf. eauto.
Qed.

Lemma Pool_Add_ok p id s : snapshots_ok p -> snapshots_ok (Pool_Add p id s).1.
Proof.
  intros Hp. unfold Pool_Add. do 3 (case_bool_decide; [done|]).
  destruct (_ >=? _) eqn:Hn; [done|]. z_bool. destruct Hp as [Hk Hst Hpe Hpi Hg Hf Hh Hr Ha Hb].
  assert (Hsize : forall j, Z.of_nat (size (inner (inner_add id (Key s) (sp_peerIndex p)) j)) <= recentSnapshots).
  { intros j. destruct (decide (j = id)) as [->|Hne].
    - unfold inner_add, inner at 1. rewrite lookup_insert_eq. cbn. rewrite size_union_alt, size_singleton.
      assert (size (inner (sp_peerIndex p) id ∖ {[Key s]}) <= size (inner (sp_peerIndex p) id))%nat by (apply subseteq_size; set_solver). lia.
    - unfold inner_add, inner at 1. rewrite lookup_insert_ne by done. apply Hr. }
  destruct (sp_snapshots p !! Key s) as [s'|] eqn:E; cbn [fst]; split; pool_cbn; try done.
  - intros k j [[-> ->]|Hj]%elem_inner_add; eauto.
  - intros k s'' Hs Hn'. destruct (Hpe k s'' Hs Hn') as [j Hj]. exists j. apply elem_inner_add. eauto.
  - intros j k. rewrite !elem_inner_add, Hpi. naive_solver.
  - intros j k Hj [[-> ->]|Hk']%elem_inner_add; [done|]. by apply (Hb j k).
  - intros k s'' [[<- <-]|[_ Hs]]%lookup_insert_Some; eauto.
  - intros k j [[-> ->]|Hj]%elem_inner_add; rewrite lookup_insert_is_Some'; eauto.
  - intros k s'' [[<- <-]|[_ Hs]]%lookup_insert_Some Hn'; setoid_rewrite elem_inner_add; [by eauto|].
    destruct (Hpe k s'' Hs Hn') as [j Hj]. eauto.
  - intros j k. rewrite !elem_inner_add, Hpi. naive_solver.
  - by apply attr_index_insert.
  - by apply attr_index_insert.
  - intros k s'' [[<- <-]|[_ Hs]]%lookup_insert_Some Hn'; [done|eauto].
  - intros j k Hj [[-> ->]|Hk']%elem_inner_add; [done|]. by apply (Hb j k).
Qed.

(** ** The operations in any order *)

Inductive snap_op :=
  | OpAdd (peerID : NodeID) (s : snapshot)
  | OpReject (s : snapshot)
  | OpRejectFormat (format : Z)
  | OpRejectPeer (peerID : NodeID)
  | OpRemovePeer (peerID : NodeID).
Definition snap_step (p : snapshotPool) (op : snap_op) : snapshotPool :=
  match op with
  | OpAdd id s => (Pool_Add p id s).1
  | OpReject s => Pool_Reject p s
  | OpRejectFormat f => RejectFormat p f
  | OpRejectPeer id => RejectPeer p id
  | OpRemovePeer id => RemovePeer p id
  end.
Definition snap_run : list snap_op -> snapshotPool -> snapshotPool := fun ops p => foldl snap_step p ops.

Lemma snap_step_ok p op : snapshots_ok p -> snapshots_ok (snap_step p op).
Proof.
  destruct op; cbn; eauto using Pool_Add_ok, Pool_Reject_ok, RejectFormat_ok, RejectPeer_ok, pool_removePeer_ok.
Qed.

(** The blacklists only grow. *)
Definition blacklists_le (p q : snapshotPool) : Prop :=
  sp_formatBlacklist p ⊆ sp_formatBlacklist q /\ sp_peerBlacklist p ⊆ sp_peerBlacklist q /\ sp_snapshotBlacklist p ⊆ sp_snapshotBlacklist q.
#[export] Instance blacklists_le_preorder : PreOrder blacklists_le.
Proof. split; [done|]. intros p q r (?&?&?) (?&?&?). repeat split; by etrans. Qed.

Lemma removeSnapshot_blacklists p key : blacklists_le p (removeSnapshot p key).
Proof. unfold removeSnapshot. by destruct (sp_snapshots p !! key). Qed.
Lemma foldr_blacklists {A} (f : A -> snapshotPool -> snapshotPool) p l :
  (forall a q, blacklists_le q (f a q)) -> blacklists_le p (foldr f p l).
Proof. intros Hf. induction l as [|a l IH]; cbn; [done|]. by rewrite IH at 1. Qed.
Lemma removePeer_blacklists p id : blacklists_le p (removePeer p id).
Proof.
  unfold removePeer. etrans; [eapply (foldr_blacklists (forget_peer id) p)|repeat split; cbn; reflexivity].
  intros k q. unfold forget_peer. case_bool_decide; [etrans; [|apply removeSnapshot_blacklists]|]; by repeat split.
Qed.
Lemma snap_step_blacklists p op : blacklists_le p (snap_step p op).
Proof.
  destruct op as [id s|s|f|id|id]; cbn.
  - unfold Pool_Add. do 3 (case_bool_decide; [reflexivity|]). destruct (_ >=? _); [reflexivity|].
    destruct (sp_snapshots p !! Key s); by repeat split.
  - unfold Pool_Reject. etrans; [|apply removeSnapshot_blacklists]. repeat split; set_solver.
  - unfold RejectFormat. etrans; [|apply (foldr_blacklists (fun k q => removeSnapshot q k)); intros; apply removeSnapshot_blacklists].
    repeat split; set_solver.
  - unfold RejectPeer. case_bool_decide; [done|]. etrans; [apply (removePeer_blacklists p id)|]. repeat split; set_solver.
  - apply removePeer_blacklists.
Qed.
Lemma snap_run_blacklists ops p : blacklists_le p (snap_run ops p).
Proof.
  revert p. induction ops as [|op ops IH]; intros p; cbn; [done|]. etrans; [apply snap_step_blacklists|apply IH].
Qed.
Lemma snap_run_ok ops p : snapshots_ok p -> snapshots_ok (snap_run ops p).
Proof. revert p. induction ops as [|op ops IH]; intros p Hp; cbn; [done|]. by apply IH, snap_step_ok. Qed.

Lemma snap_run_split ops op p : op ∈ ops -> exists q, blacklists_le (snap_step q op) (snap_run ops p).
Proof.
  intros (l1 & l2 & ->)%list_elem_of_split. exists (snap_run l1 p). unfold snap_run. rewrite foldl_app. cbn.
  apply snap_run_blacklists.
Qed.
Lemma rejected_blacklisted q op :
  match op with
  | OpReject s => Key s ∈ sp_snapshotBlacklist (snap_step q op)
  | OpRejectFormat f => f ∈ sp_formatBlacklist (snap_step q op)
  | OpRejectPeer id => id <> "" -> id ∈ sp_peerBlacklist (snap_step q op)
  | _ => True
  end.
Proof.
  destruct op as [id s|s|f|id|id]; cbn; [done| | | |done].
  - unfold Pool_Reject. apply (removeSnapshot_blacklists (mkPool _ _ _ _ _ _ _ _)). cbn. set_solver.
  - unfold RejectFormat. apply (foldr_blacklists (fun k q => removeSnapshot q k)); [intros; apply removeSnapshot_blacklists|].
    cbn. set_solver.
  - intros Hne. unfold RejectPeer. rewrite bool_decide_false by done. cbn. set_solver.
Qed.

(** C25: after any sequence of operations on a new pool, every snapshot is stored under its key
    and has a peer, the indexes by peer, format and height hold exactly the stored snapshots and
    no peer has more than ten; and what was rejected is never used again: neither a rejected
    snapshot nor one of a rejected format is in the pool, and no snapshot has a rejected peer. *)
Theorem snapshot_pool_consistent (ops : list snap_op) :
  let p := snap_run ops newSnapshotPool in
  snapshots_ok p /\
  (forall s, OpReject s ∈ ops -> sp_snapshots p !! Key s = None) /\
  (forall f, OpRejectFormat f ∈ ops -> forall k s, sp_snapshots p !! k = Some s -> s_Format s <> f) /\
  (forall id, OpRejectPeer id ∈ ops -> id <> "" -> forall s, id ∉ GetPeers p s).
Proof.
  intros p. assert (Hp : snapshots_ok p) by apply snap_run_ok, newSnapshotPool_ok. split; [done|].
  destruct Hp as [Hk Hst Hpe Hpi Hg Hf Hh Hr Ha Hb].
  split; [|split].
  - intros s (q & _ & _ & Hq)%(snap_run_split _ _ newSnapshotPool). pose proof (rejected_blacklisted q (OpReject s)) as Hs.
    apply eq_None_not_Some. intros [s' Hs']. destruct (Ha _ _ Hs') as [_ Hn]; [by apply not_elem_of_empty|]. by apply Hn, Hq.
  - intros f (q & Hq & _)%(snap_run_split _ _ newSnapshotPool) k s Hs <-. pose proof (rejected_blacklisted q (OpRejectFormat (s_Format s))) as Hf'.
    destruct (Ha _ _ Hs) as [Hn _]; [by apply not_elem_of_empty|]. by apply Hn, Hq.
  - intros id (q & _ & Hq & _)%(snap_run_split _ _ newSnapshotPool) Hne s Hin. pose proof (rejected_blacklisted q (OpRejectPeer id) Hne) as Hid.
    unfold GetPeers in Hin. rewrite sort_by_perm, elem_of_elements in Hin. apply (Hb id (Key s)); [by apply Hq|]. apply Hpi. by left.
Qed.
End invariant.

(** ** The ranking *)

Section ranking.
Context `{!Sha256, !RankOrders}.

Lemma median_peers_total l : l <> [] -> exists m, median_peers l = Val m.
Proof.
  intros Hl. unfold median_peers.
  assert (Hlen : len (sort_by Z.ltb l) = len l) by (unfold len; by rewrite sort_by_perm). rewrite Hlen.
  assert (Hpos : 0 < len l) by (destruct l; [done|unfold len; simpl; lia]).
  assert (Hget : forall i, 0 <= i < len l -> exists a, slice_get (E := Empty_set) (sort_by Z.ltb l) i = Val a).
  { intros i Hi. destruct (zlookup (sort_by Z.ltb l) i) as [a|] eqn:E.
    - exists a. unfold slice_get. by rewrite E.
    - apply zlookup_None in E. lia. }
  pose proof (Z.div_mod (len l) 2). pose proof (Z.mod_pos_bound (len l) 2).
  destruct (Z.eqb_spec (len l mod 2) 0) as [He|He].
  - destruct (Hget (len l / 2 - 1)) as [a ->]; [lia|]. destruct (Hget (len l / 2)) as [b ->]; [lia|]. go_step. eauto.
  - apply Hget. lia.
Qed.
Lemma median_peers_perm l l' : l ≡ₚ l' -> median_peers l = median_peers l'.
Proof.
  intros Hp. unfold median_peers. replace (sort_by Z.ltb l') with (sort_by Z.ltb l); [done|].
  assert (Ha : forall a b, (a <? b) = true -> (b <? a) = false) by (intros; z_bool; apply Z.ltb_ge; lia).
  assert (Ht : forall a b c, sort_le Z.ltb a b -> sort_le Z.ltb b c -> sort_le Z.ltb a c) by (unfold sort_le; intros; z_bool; apply Z.ltb_ge; lia).
  apply (sort_unique Z.ltb l); [|by rewrite sort_by_perm|by rewrite sort_by_perm|by apply sort_by_sorted..].
  unfold sort_le. intros a b _ _ ??. z_bool. lia.
Qed.

(** The snapshots at a list of keys. *)
Lemma elem_at_keys (p : snapshotPool) (l : list bytes) s :
  s ∈ omap (fun key => sp_snapshots p !! key) l <-> exists k, k ∈ l /\ sp_snapshots p !! k = Some s.
Proof. apply list_elem_of_omap. Qed.
Lemma elem_range_keys (p : snapshotPool) k : k ∈ range_keys (map_to_list (sp_snapshots p)).*1 <-> is_Some (sp_snapshots p !! k).
Proof.
  rewrite range_keys_perm, list_elem_of_fmap. split.
  - intros ([k' s] & -> & Hs%elem_of_map_to_list). eauto.
  - intros [s Hs]. exists (k, s). split; [done|]. by apply elem_of_map_to_list.
Qed.

(** The sorter is a strict weak order among snapshots of one format. *)
Lemma sorter_lexicographic p a b :
  s_Format a = s_Format b ->
  sorterFactory p a b = false <->
  (s_Height a <= s_Height b /\ (s_Height a = s_Height b -> num_peers p (Key a) <= num_peers p (Key b))).
Proof.
  intros Hf. unfold sorterFactory. rewrite Hf, !Z.gtb_ltb, Z.ltb_irrefl.
  repeat match goal with |- context [?x <? ?y] => destruct (Z.ltb_spec x y) end; split; try done; try lia; naive_solver lia.
Qed.

(** The head of a sorted list of snapshots of one format. *)
Lemma slice_sort_head p l s f :
  (forall a, a ∈ l -> s_Format a = f) -> head (slice_sort (sorterFactory p) l) = Some s ->
  forall a, a ∈ l -> sorterFactory p a s = false.
Proof.
  intros Hf Hh a Ha.
  assert (Hsorted : StronglySorted (sort_le (sorterFactory p)) (slice_sort (sorterFactory p) l)).
  { apply slice_sort_sorted; unfold sort_le.
    - intros x y Hx Hy Hxy. apply sorter_lexicographic; [by rewrite !Hf|].
      assert (~ sorterFactory p x y = false) as Hn by congruence. rewrite sorter_lexicographic in Hn by (by rewrite !Hf). lia.
    - intros x y z Hx Hy Hz. rewrite !sorter_lexicographic by (by rewrite !Hf). lia. }
  rewrite <- (slice_sort_perm (sorterFactory p)) in Ha. destruct (slice_sort (sorterFactory p) l) as [|x l'] eqn:E; [done|].
  injection Hh as ->. apply elem_of_cons in Ha as [->|Ha].
  - apply sorter_lexicographic; [done|]. lia.
  - inversion Hsorted as [|? ? _ Hall]; subst. by eapply Forall_forall in Hall.
Qed.

(** The first snapshot of the ranking: common (satisfying [P]) when some stored snapshot is. *)
Lemma ranked_head p keys (P : bytes -> Prop) `{!forall k, Decision (P k)} :
  sp_snapshots p <> ∅ -> (forall k, k ∈ keys <-> is_Some (sp_snapshots p !! k)) -> snapshots_ok p ->
  let at_keys := omap (fun key => sp_snapshots p !! key) in
  exists s,
    head (slice_sort (sorterFactory p) (at_keys (filter P keys)) ++ slice_sort (sorterFactory p) (at_keys (filter (fun k => ~ P k) keys))) = Some s /\
    (exists k, sp_snapshots p !! k = Some s) /\
    (forall k s', sp_snapshots p !! k = Some s' -> P k -> P (Key s)) /\
    (forall f, (forall k s', sp_snapshots p !! k = Some s' -> s_Format s' = f) ->
      forall s', (exists k, sp_snapshots p !! k = Some s' /\ (P k <-> P (Key s))) -> sorterFactory p s' s = false).
Proof.
  intros Hne Hkeys Hok at_keys.
  assert (Hat : forall (Q : bytes -> Prop) `{!forall k, Decision (Q k)} s, s ∈ at_keys (filter Q keys) <-> (exists k, Q k /\ sp_snapshots p !! k = Some s)).
  { intros Q ? s. unfold at_keys. rewrite elem_at_keys. setoid_rewrite list_elem_of_filter. setoid_rewrite Hkeys. naive_solver. }
  assert (Hk : forall k s, sp_snapshots p !! k = Some s -> Key s = k) by apply Hok.
  set (common := at_keys (filter P keys)) in *. set (uncommon := at_keys (filter (fun k => ~ P k) keys)) in *.
  assert (Hfrom : forall l s, head (slice_sort (sorterFactory p) l) = Some s -> s ∈ l).
  { intros l s Hh. rewrite <- (slice_sort_perm (sorterFactory p)). destruct (slice_sort _ l); [done|]. injection Hh as ->. left. }
  destruct (head (slice_sort (sorterFactory p) common)) as [s|] eqn:Hc.
  - exists s. pose proof (Hfrom _ _ Hc) as (k & HP & Hs)%Hat. rewrite (Hk k s Hs). split_and!; [|by eauto..|].
    + by destruct (slice_sort _ common).
    + intros f Hf s' (k' & Hs' & Hside). eapply (slice_sort_head p common); [|exact Hc|apply Hat; naive_solver].
      intros a (? & _ & ?)%Hat. eauto.
  - assert (Hnone : forall k s, sp_snapshots p !! k = Some s -> ~ P k).
    { intros k s Hs HP. assert (Hin : s ∈ common) by (apply Hat; eauto). rewrite <- (slice_sort_perm (sorterFactory p)) in Hin.
      destruct (slice_sort _ common); [by apply not_elem_of_nil in Hin|done]. }
    destruct (head (slice_sort (sorterFactory p) uncommon)) as [s|] eqn:Hu.
    + exists s. pose proof (Hfrom _ _ Hu) as (k & HP & Hs)%Hat. rewrite (Hk k s Hs). split_and!; [|by eauto|naive_solver|].
      * by destruct (slice_sort _ common).
      * intros f Hf s' (k' & Hs' & Hside). eapply (slice_sort_head p uncommon); [|exact Hu|apply Hat; naive_solver].
        intros a (? & _ & ?)%Hat. eauto.
    + apply map_choose in Hne as (k & s & Hs). assert (Hin : s ∈ uncommon) by (apply Hat; eauto).
      rewrite <- (slice_sort_perm (sorterFactory p)) in Hin. destruct (slice_sort _ uncommon); [by apply not_elem_of_nil in Hin|done].
Qed.

(** [Best] never panics; it is nil exactly when the pool is empty, and otherwise a stored
    snapshot that a peer has.  It has more peers than the median whenever some snapshot has; and
    when the snapshots have one format, no snapshot on the same side of the median has a greater
    height, or the same height and more peers. *)
Lemma best_snapshot (p : snapshotPool) :
  snapshots_ok p ->
  (sp_snapshots p = ∅ /\ Best p = Val None) \/
  (exists s median,
    Best p = Val (Some s) /\ sp_snapshots p !! Key s = Some s /\ (exists id, id ∈ GetPeers p s) /\
    median_peers (num_peers p <$> (map_to_list (sp_snapshots p)).*1) = Val median /\
    (forall k s', sp_snapshots p !! k = Some s' -> median < num_peers p k -> median < num_peers p (Key s)) /\
    ((forall k s', sp_snapshots p !! k = Some s' -> s_Format s' = s_Format s) ->
     forall k s', sp_snapshots p !! k = Some s' -> (median < num_peers p k <-> median < num_peers p (Key s)) ->
       s_Height s' <= s_Height s /\ (s_Height s' = s_Height s -> num_peers p k <= num_peers p (Key s)))).
Proof.
  intros Hok. unfold Best, Ranked. destruct (decide (sp_snapshots p = ∅)) as [He|He].
  { left. by rewrite bool_decide_true. }
  right. rewrite bool_decide_false by done. set (keys := range_keys _).
  rewrite (median_peers_perm (num_peers p <$> (map_to_list (sp_snapshots p)).*1) (num_peers p <$> keys)) by (subst keys; by rewrite range_keys_perm).
  destruct (median_peers_total (num_peers p <$> keys)) as [median Hm].
  { apply map_choose in He as (k & s & Hs). intros Hnil%fmap_nil_inv.
    assert (Hk : k ∈ keys) by (apply elem_range_keys; eauto). rewrite Hnil in Hk. by apply not_elem_of_nil in Hk. }
  rewrite Hm. go_step. set (P := fun key : bytes => median < num_peers p key).
  change (filter (fun key => median < num_peers p key) keys) with (filter P keys).
  change (filter (fun key => ~ median < num_peers p key) keys) with (filter (fun key => ~ P key) keys).
  destruct (ranked_head p keys P) as (s & Hhead & Hs & Hfirst & Hbest); [done|intros k; apply elem_range_keys|done|].
  exists s, median. rewrite Hhead. assert (Hst : sp_snapshots p !! Key s = Some s) by (destruct Hs as [k Hk]; by rewrite (pi_key _ _ _ _ Hok k s Hk)).
  split_and!; try done.
  - destruct (pi_peers _ _ _ _ Hok _ s Hst) as [id Hid]; [by apply not_elem_of_empty|]. exists id.
    unfold GetPeers. by rewrite sort_by_perm, elem_of_elements.
  - intros Hf k s' Hs' Hside. rewrite <- (pi_key _ _ _ _ Hok k s' Hs'). apply sorter_lexicographic; [eauto|].
    apply (Hbest (s_Format s)); [eauto|]. exists k. split; done.
Qed.
End ranking.

(** ** Keys *)

Lemma list_byte_of_append (a b : string) : String.list_byte_of_string (a +:+ b) = String.list_byte_of_string a ++ String.list_byte_of_string b.
Proof. unfold String.list_byte_of_string. induction a as [|c a IH]; [done|]. change ((String c a +:+ b)%string) with (String c (a +:+ b)). cbn. f_equal. exact IH. Qed.

(** Two snapshots that differ in the number of chunks and in the hash have one key, for
    every hash function, because the fields are hashed without separators: twelve chunks with
    the hash [hash], and one chunk with the digit two before [hash].  Once a peer has announced the
    second, the first is never stored: announcing it counts for the second, and its peer is
    listed among the peers of the second. *)
Lemma key_confuses_snapshots `{!Sha256} (p p1 : snapshotPool) (evil honest : NodeID) (height format : Z) (hash metadata : bytes) :
  let real := mkSnapshot height format 12 hash metadata [] in
  let fake := mkSnapshot height format 1 (x32 :: hash) metadata [] in
  Pool_Add p evil fake = (p1, true) ->
  honest ∉ sp_peerBlacklist p -> Z.of_nat (size (inner (sp_peerIndex p1) honest)) < recentSnapshots ->
  let '(p2, added) := Pool_Add p1 honest real in
  Key real = Key fake /\ added = false /\ sp_snapshots p2 !! Key real = Some fake /\ honest ∈ GetPeers p2 fake.
Proof.
  intros real fake Hadd Hh Hn.
  assert (Hkey : Key real = Key fake).
  { unfold Key, key_text. cbn [s_Height s_Format s_Chunks s_Hash s_Metadata real fake]. f_equal.
    change (decimal 12) with ("1" +:+ "2")%string. change (decimal 1) with "1".
    rewrite !list_byte_of_append. change (String.list_byte_of_string "2") with [x32]. by rewrite <- !app_assoc. }
  unfold Pool_Add in Hadd |- *. rewrite !Hkey. revert Hadd. do 3 (case_bool_decide; [done|]).
  destruct (_ >=? _) eqn:Hge; [done|]. destruct (sp_snapshots p !! Key fake) eqn:E; [done|]. intros [= <-].
  revert Hn. pool_cbn. intros Hn. rewrite !bool_decide_false by done.
  destruct (Z.of_nat (size (inner (inner_add evil (Key fake) (sp_peerIndex p)) honest)) >=? recentSnapshots) eqn:Hge'; [z_bool; lia|].
  rewrite lookup_insert_eq. split_and!; pool_cbn; [done|done|by rewrite lookup_insert_eq|].
  unfold GetPeers. pool_cbn. rewrite sort_by_perm, elem_of_elements. apply elem_inner_add. by left.
Qed.

(** ** Concrete pools *)

(** Insertion sort is one of the sorts the class allows. *)
Section insertion.
Context {A : Type} (less : A -> A -> bool) (P : A -> Prop).
Hypothesis less_asym : forall a b, P a -> P b -> less a b = true -> less b a = false.
Hypothesis le_trans : forall a b c, P a -> P b -> P c -> sort_le less a b -> sort_le less b c -> sort_le less a c.
Lemma sort_insert_sorted_in x l : P x -> Forall P l -> StronglySorted (sort_le less) l -> StronglySorted (sort_le less) (sort_insert less x l).
Proof.
  intros Hx Hl Hs. induction Hs as [|y l Hs IH Hy]; cbn; [by repeat constructor|]. apply Forall_cons in Hl as [Py Pl].
  destruct (less y x) eqn:Hyx.
  - constructor; [by apply IH|]. rewrite sort_insert_perm. constructor; [|done]. by apply less_asym.
  - constructor; [by constructor|]. constructor; [done|]. rewrite Forall_forall in Hy, Pl |- *. intros z Hz. apply (le_trans _ y); auto.
Qed.
Lemma sort_by_sorted_in l : Forall P l -> StronglySorted (sort_le less) (sort_by less l).
Proof.
  induction 1 as [|x l Hx Hl IH]; [constructor|]. change (sort_by less (x :: l)) with (sort_insert less x (sort_by less l)).
  apply sort_insert_sorted_in; [done| |done]. by rewrite sort_by_perm.
Qed.
End insertion.
Definition insertion_ranks : RankOrders.
Proof.
  refine {| range_keys l := l; slice_sort less l := sort_by less l |}; intros; [done|apply sort_by_perm|].
  apply (sort_by_sorted_in less (fun a => a ∈ l)); [done..|]. by apply Forall_forall.
Defined.
#[local] Existing Instances toy_sha256 insertion_ranks.

Definition high_snapshot : snapshot := mkSnapshot 10 1 1 [x61] [] [].
Definition low_snapshot : snapshot := mkSnapshot 5 1 1 [x62] [] [].
Definition rich_snapshot : snapshot := mkSnapshot 5 2 1 [x63] [] [].
Definition two_snapshots : list snap_op :=
  [OpAdd "p1" high_snapshot; OpAdd "p1" low_snapshot; OpAdd "p2" low_snapshot].

(** The ranking does not prefer the greatest height: a snapshot that more peers than the median
    have comes first. *)
Lemma ranking_ignores_height : Best (snap_run two_snapshots newSnapshotPool) = Val (Some low_snapshot) /\ s_Height low_snapshot < s_Height high_snapshot.
Proof. split; [vm_compute; reflexivity|]. reflexivity. Qed.

(** The sorter is not an order: at one height, a snapshot with more peers and one with a greater
    format each come before the other. *)
Lemma sorter_inconsistent :
  let p := snap_run (OpAdd "p1" rich_snapshot :: two_snapshots) newSnapshotPool in
  sorterFactory p low_snapshot rich_snapshot = true /\ sorterFactory p rich_snapshot low_snapshot = true.
Proof. vm_compute. split; reflexivity. Qed.

Lemma snapshot_pool_consistent_witness :
  sp_snapshots (snap_run (two_snapshots ++ [OpReject high_snapshot; OpAdd "p2" high_snapshot]) newSnapshotPool) !! Key high_snapshot = None.
Proof.
  destruct (snapshot_pool_consistent (two_snapshots ++ [OpReject high_snapshot; OpAdd "p2" high_snapshot])) as (_ & Hr & _).
  apply Hr. apply elem_of_app. right. left.
Defined.

Lemma key_confuses_snapshots_witness :
  exists p1, Pool_Add newSnapshotPool "evil" (mkSnapshot 10 1 1 [x32; x61] [] []) = (p1, true) /\
    sp_snapshots (Pool_Add p1 "honest" (mkSnapshot 10 1 12 [x61] [] [])).1 !! Key (mkSnapshot 10 1 12 [x61] [] []) = Some (mkSnapshot 10 1 1 [x32; x61] [] []).
Proof.
  set (p1 := (Pool_Add newSnapshotPool "evil" (mkSnapshot 10 1 1 [x32; x61] [] [])).1). exists p1.
  assert (Hadd : Pool_Add newSnapshotPool "evil" (mkSnapshot 10 1 1 [x32; x61] [] []) = (p1, true)) by (vm_compute; reflexivity).
  split; [exact Hadd|]. pose proof (key_confuses_snapshots newSnapshotPool p1 "evil" "honest" 10 1 [x61] [] Hadd) as Hc.
  cbn zeta in Hc. destruct (Pool_Add p1 "honest" _) as [p2 added]. destruct Hc as (_ & _ & Hc & _); [|vm_compute; reflexivity|exact Hc].
  apply not_elem_of_empty.
Defined.
