(* ===== verification/ChunkQueue.v ===== *)
(** * internal/statesync/chunks.go: the queue of chunks of a snapshot

    Models the queue with the files of its temporary directory and the channels it hands out.  A
    method holds the lock from its first to its last step; [Next] takes it twice and is modelled as
    the two sections between which it waits, [Next_lookup] and [Next_resume].  A channel is a
    number; [cq_chans] has the state of each.  The file system fails only for files that do not
    exist. *)
From Stdlib Require Import ZArith Lia Strings.Byte Strings.String.
From stdpp Require Import base list strings gmap.
From S2P Require Import Prelude.
From S2P Require Import StateOutcome.
From S2P Require Import PeerManager.
From S2P Require Import SnapshotPool.

(** ** Channels with room for one value *)

Record channel := mkChannel { ch_buffer : option Z; ch_closed : bool }.
Definition make_channel : channel := mkChannel None false.

(** [ch <- x] and [close(ch)].  A send on a full channel would wait with the lock held. *)
Definition chan_send (x : Z) (c : channel) : go channel :=
  if ch_closed c then Panic "send on closed channel"
  else match ch_buffer c with Some _ => Panic "send blocks" | None => Val (mkChannel (Some x) false) end.
Definition chan_close (c : channel) : go channel :=
  if ch_closed c then Panic "close of closed channel" else Val (mkChannel (ch_buffer c) true).
(** [_, ok := <-ch]: nothing while the channel is open and empty.  A channel has one receiver, which
    reads it once: what the read leaves in it is never observed, and the read is not recorded. *)
Definition chan_recv (c : channel) : option bool :=
  match ch_buffer c with
  | Some _ => Some true
  | None => if ch_closed c then Some false else None
  end.

(** ** The queue *)

Record chunk := mkChunk { ck_Height : Z; ck_Format : Z; ck_Index : Z; ck_Chunk : option bytes; ck_Sender : NodeID }.

(** [cq_chunkFiles] has the indexes with a path; the path of an index is fixed, and [cq_files] is
    what the directory holds. *)
Record chunkQueue := mkChunkQueue {
  cq_snapshot : option snapshot;
  cq_files : gmap Z bytes;
  cq_chunkFiles : gset Z;
  cq_chunkSenders : gmap Z NodeID;
  cq_chunkAllocated : gset Z;
  cq_chunkReturned : gset Z;
  cq_waiters : gmap Z (list nat);
  cq_chans : list channel
}.

Inductive ChunkError :=
  | ErrNoChunks | ErrNilChunk | ErrChunkHeight | ErrChunkFormat | ErrChunkIndex
  | ErrRemoveChunk | ErrLoadChunk | errDone | errTimeout.
#[export] Instance ChunkError_eq_dec : EqDecision ChunkError.
Proof. solve_decision. Defined.

Definition newChunkQueue (s : snapshot) : outcome ChunkError chunkQueue :=
  _ ← fail_if (s_Chunks s =? 0) ErrNoChunks;
  Val (mkChunkQueue (Some s) ∅ ∅ ∅ ∅ ∅ ∅ []).

Abbreviation CQ := (ST chunkQueue ChunkError).

Definition set_chans (cs : list channel) (q : chunkQueue) : chunkQueue :=
  mkChunkQueue (cq_snapshot q) (cq_files q) (cq_chunkFiles q) (cq_chunkSenders q) (cq_chunkAllocated q) (cq_chunkReturned q) (cq_waiters q) cs.
Definition set_waiters (w : gmap Z (list nat)) (q : chunkQueue) : chunkQueue :=
  mkChunkQueue (cq_snapshot q) (cq_files q) (cq_chunkFiles q) (cq_chunkSenders q) (cq_chunkAllocated q) (cq_chunkReturned q) w (cq_chans q).
Definition set_returned (r : gset Z) (q : chunkQueue) : chunkQueue :=
  mkChunkQueue (cq_snapshot q) (cq_files q) (cq_chunkFiles q) (cq_chunkSenders q) (cq_chunkAllocated q) r (cq_waiters q) (cq_chans q).
Definition set_allocated (a : gset Z) (q : chunkQueue) : chunkQueue :=
  mkChunkQueue (cq_snapshot q) (cq_files q) (cq_chunkFiles q) (cq_chunkSenders q) a (cq_chunkReturned q) (cq_waiters q) (cq_chans q).
Definition set_senders (m : gmap Z NodeID) (q : chunkQueue) : chunkQueue :=
  mkChunkQueue (cq_snapshot q) (cq_files q) (cq_chunkFiles q) m (cq_chunkAllocated q) (cq_chunkReturned q) (cq_waiters q) (cq_chans q).

(** An operation on one channel. *)
Definition on_channel (op : channel -> go channel) (id : nat) : CQ unit :=
  q ← self;
  match cq_chans q !! id with
  | Some c => c' ← run_call (lift (op c)); change (set_chans (<[id := c']> (cq_chans q)))
  | None => crash "no such channel"
  end.
Fixpoint for_each {A} (l : list A) (f : A -> CQ unit) : CQ unit :=
  match l with [] => mret tt | a :: l => _ ← f a; for_each l f end.

(** [ioutil.WriteFile] and the two entries that [Add] makes. *)
Definition store_chunk (index : Z) (body : bytes) (sender : NodeID) (q : chunkQueue) : chunkQueue :=
  mkChunkQueue (cq_snapshot q) (<[index := body]> (cq_files q)) ({[index]} ∪ cq_chunkFiles q) (<[index := sender]> (cq_chunkSenders q))
    (cq_chunkAllocated q) (cq_chunkReturned q) (cq_waiters q) (cq_chans q).

Definition Queue_Add (c : option chunk) : CQ bool :=
  match c with
  | Some (mkChunk height format index (Some body) sender) =>
      q ← self;
      match cq_snapshot q with
      | None => mret false
      | Some s =>
          _ ← throw_if (negb (height =? s_Height s)) ErrChunkHeight;
          _ ← throw_if (negb (format =? s_Format s)) ErrChunkFormat;
          _ ← throw_if (index >=? s_Chunks s) ErrChunkIndex;
          if bool_decide (index ∈ cq_chunkFiles q) then mret false
          else
            _ ← change (store_chunk index body sender);
            _ ← for_each (default [] (cq_waiters q !! index)) (fun id => _ ← on_channel (chan_send index) id; on_channel chan_close id);
            _ ← change (fun q => set_waiters (delete index (cq_waiters q)) q);
            mret true
      end
  | _ => throw ErrNilChunk
  end.

(** The first index below [n] that is not in the set, from [i] on. *)
Fixpoint first_missing (fuel : nat) (i : Z) (m : gset Z) : option Z :=
  match fuel with
  | O => None
  | S fuel => if bool_decide (i ∈ m) then first_missing fuel (i + 1) m else Some i
  end.

Definition Allocate : CQ Z :=
  q ← self;
  match cq_snapshot q with
  | None => throw errDone
  | Some s =>
      _ ← throw_if (uint32 (Z.of_nat (size (cq_chunkAllocated q))) >=? s_Chunks s) errDone;
      match first_missing (Z.to_nat (s_Chunks s)) 0 (cq_chunkAllocated q) with
      | Some i => _ ← change (fun q => set_allocated ({[i]} ∪ cq_chunkAllocated q) q); mret i
      | None => throw errDone
      end
  end.

Definition Queue_Close : CQ unit :=
  q ← self;
  match cq_snapshot q with
  | None => mret tt
  | Some _ =>
      _ ← for_each (concat (map_to_list (cq_waiters q)).*2) (on_channel chan_close);
      change (fun q => mkChunkQueue None ∅ (cq_chunkFiles q) (cq_chunkSenders q) (cq_chunkAllocated q) (cq_chunkReturned q) ∅ (cq_chans q))
  end.

Definition drop_chunk (index : Z) (q : chunkQueue) : chunkQueue :=
  mkChunkQueue (cq_snapshot q) (delete index (cq_files q)) (cq_chunkFiles q ∖ {[index]}) (cq_chunkSenders q)
    (cq_chunkAllocated q ∖ {[index]}) (cq_chunkReturned q ∖ {[index]}) (cq_waiters q) (cq_chans q).
Definition discard (index : Z) : CQ unit :=
  q ← self;
  match cq_snapshot q with
  | None => mret tt
  | Some _ =>
      if bool_decide (index ∈ cq_chunkFiles q) then
        _ ← throw_if (bool_decide (cq_files q !! index = None)) ErrRemoveChunk;
        change (drop_chunk index)
      else mret tt
  end.
Definition Discard (index : Z) : CQ unit := discard index.

Definition DiscardSender (peerID : NodeID) : CQ unit :=
  q ← self;
  for_each (map_to_list (cq_chunkSenders q)) (fun '(index, sender) =>
    q ← self;
    if bool_decide (sender = peerID) && negb (bool_decide (index ∈ cq_chunkReturned q)) then
      _ ← discard index;
      change (fun q => set_senders (delete index (cq_chunkSenders q)) q)
    else mret tt).

Definition GetSender (q : chunkQueue) (index : Z) : NodeID := default "" (cq_chunkSenders q !! index).
Definition Has (q : chunkQueue) (index : Z) : bool := bool_decide (index ∈ cq_chunkFiles q).
Definition Queue_Size (q : chunkQueue) : Z := match cq_snapshot q with None => 0 | Some s => s_Chunks s end.
Definition numChunksReturned (q : chunkQueue) : Z := Z.of_nat (size (cq_chunkReturned q)).

Definition load (index : Z) : CQ (option chunk) :=
  q ← self;
  if bool_decide (index ∈ cq_chunkFiles q) then
    match cq_files q !! index with
    | None => throw ErrLoadChunk
    | Some body =>
        match cq_snapshot q with
        | None => crash "nil pointer dereference"
        | Some s => mret (Some (mkChunk (s_Height s) (s_Format s) index (Some body) (GetSender q index)))
        end
    end
  else mret None.

Definition nextUp : CQ Z :=
  q ← self;
  match cq_snapshot q with
  | None => throw errDone
  | Some s => match first_missing (Z.to_nat (s_Chunks s)) 0 (cq_chunkReturned q) with Some i => mret i | None => throw errDone end
  end.

Definition mark_returned (index : Z) : CQ unit := change (fun q => set_returned ({[index]} ∪ cq_chunkReturned q) q).

(** The first section of [Next]: the index, and its chunk unless it has to be waited for. *)
Definition Next_lookup : CQ (Z * option chunk) :=
  index ← nextUp;
  c ← load index;
  _ ← mark_returned index;
  mret (index, c).
(** The last section, after the channel of [WaitFor] had a value; the chunk may be nil. *)
Definition Next_resume (index : Z) : CQ (option chunk) :=
  c ← load index;
  _ ← mark_returned index;
  mret c.

Definition Retry (index : Z) (q : chunkQueue) : chunkQueue := set_returned (cq_chunkReturned q ∖ {[index]}) q.
Definition RetryAll (q : chunkQueue) : chunkQueue := set_returned ∅ q.

(** [make(chan uint32, 1)]. *)
Definition new_channel (c : channel) : CQ nat :=
  q ← self;
  _ ← change (set_chans (cq_chans q ++ [c]));
  mret (length (cq_chans q)).
Definition WaitFor (index : Z) : CQ nat :=
  q ← self;
  match cq_snapshot q with
  | None => new_channel (mkChannel None true)
  | Some s =>
      if index >=? s_Chunks s then new_channel (mkChannel None true)
      else if bool_decide (index ∈ cq_chunkFiles q) then new_channel (mkChannel (Some index) true)
      else
        id ← new_channel make_channel;
        _ ← change (fun q => set_waiters (<[index := default [] (cq_waiters q !! index) ++ [id]]> (cq_waiters q)) q);
        mret id
  end.
