(* ===== verification/ChunkQueueProofs.v ===== *)
(** * The chunk queue: its invariant and the effect of its methods

    [queue_ok] says that the files are those of the chunks present, and that the channels of the
    waiters are open, empty and apart; so no method panics or blocks on a channel. *)
From Stdlib Require Import ZArith Lia Strings.Byte Strings.String.
From stdpp Require Import base list strings gmap.
From S2P Require Import Prelude.
From S2P Require Import StateOutcome.
From S2P Require Import PeerManager.
From S2P Require Import SnapshotPool.
From S2P Require Import ChunkQueue.

Record queue_ok (s : snapshot) (q : chunkQueue) : Prop := {
  qo_open : cq_snapshot q = Some s;
  qo_files : forall i, i ∈ cq_chunkFiles q <-> is_Some (cq_files q !! i);
  qo_returned : forall i, i ∈ cq_chunkReturned q -> 0 <= i < s_Chunks s;
  qo_allocated : forall i, i ∈ cq_chunkAllocated q -> 0 <= i < s_Chunks s;
  qo_waiters : forall i l, cq_waiters q !! i = Some l -> i ∉ cq_chunkFiles q /\ NoDup l /\ Forall (fun c => cq_chans q !! c = Some make_channel) l;
  qo_apart : forall i j l l' c, cq_waiters q !! i = Some l -> cq_waiters q !! j = Some l' -> c ∈ l -> c ∈ l' -> i = j
}.

(** The chunk that [load] finds. *)
Definition chunk_at (s : snapshot) (q : chunkQueue) (i : Z) : option chunk :=
  (fun body => mkChunk (s_Height s) (s_Format s) i (Some body) (GetSender q i)) <$> cq_files q !! i.

Ltac queue_cbn :=
  cbn [cq_snapshot cq_files cq_chunkFiles cq_chunkSenders cq_chunkAllocated cq_chunkReturned cq_waiters cq_chans
       set_chans set_waiters set_returned set_allocated set_senders store_chunk drop_chunk].
Ltac queue_cbn_in H :=
  cbn [cq_snapshot cq_files cq_chunkFiles cq_chunkSenders cq_chunkAllocated cq_chunkReturned cq_waiters cq_chans
       set_chans set_waiters set_returned set_allocated set_senders store_chunk drop_chunk] in H.

Lemma newChunkQueue_val s : 0 < s_Chunks s -> newChunkQueue s = Val (mkChunkQueue (Some s) ∅ ∅ ∅ ∅ ∅ ∅ []).
Proof. intros Hs. unfold newChunkQueue. destruct (Z.eqb_spec (s_Chunks s) 0); [lia|done]. Qed.
Lemma newChunkQueue_ok s q : newChunkQueue s = Val q -> queue_ok s q /\ cq_chunkReturned q = ∅ /\ cq_files q = ∅ /\ cq_waiters q = ∅.
Proof.
  unfold newChunkQueue. intros Hq. inv_val. split; [|done]. split; queue_cbn; try done; try set_solver.
  intros i. rewrite lookup_empty. split; [set_solver|by intros []%is_Some_None].
Qed.

(** ** Searching *)

Lemma first_missing_spec fuel i m :
  match first_missing fuel i m with
  | Some j => i <= j < i + Z.of_nat fuel /\ j ∉ m /\ forall k, i <= k < j -> k ∈ m
  | None => forall k, i <= k < i + Z.of_nat fuel -> k ∈ m
  end.
Proof.
  revert i. induction fuel as [|fuel IH]; intros i; cbn [first_missing]; [intros; lia|].
  case_bool_decide as Hi.
  - specialize (IH (i + 1)). destruct (first_missing fuel (i + 1) m) as [j|].
    + destruct IH as (? & ? & Hk). split_and!; [lia..|done|]. intros k ?. destruct (decide (k = i)) as [->|]; [done|]. apply Hk. lia.
    + intros k ?. destruct (decide (k = i)) as [->|]; [done|]. apply IH. lia.
  - split_and!; [lia..|done|lia].
Qed.

(** ** Reading *)

Section queue.
Context (s : snapshot).
Implicit Types q : chunkQueue.

Lemma load_spec q i : queue_ok s q -> load i q = (q, Val (chunk_at s q i)).
Proof.
  intros Hq. unfold load, chunk_at, self, mbind, ST_bind. cbn. case_bool_decide as Hi.
  - apply (qo_files _ _ Hq) in Hi as [body Hb]. rewrite Hb. cbn. by rewrite (qo_open _ _ Hq).
  - assert (cq_files q !! i = None) as ->; [|done]. apply eq_None_not_Some. by rewrite <- (qo_files _ _ Hq).
Qed.

(** The lowest index that was not returned. *)
Definition next_index q (i : Z) : Prop :=
  0 <= i < s_Chunks s /\ i ∉ cq_chunkReturned q /\ forall k, 0 <= k < i -> k ∈ cq_chunkReturned q.
Definition all_returned q : Prop := forall k, 0 <= k < s_Chunks s -> k ∈ cq_chunkReturned q.

Lemma Next_lookup_spec q : queue_ok s q ->
  (exists i, next_index q i /\ Next_lookup q = (set_returned ({[i]} ∪ cq_chunkReturned q) q, Val (i, chunk_at s q i))) \/
  (all_returned q /\ Next_lookup q = (q, Fail errDone)).
Proof.
  intros Hq. unfold Next_lookup, nextUp, self, mark_returned, mbind, ST_bind. cbn. rewrite (qo_open _ _ Hq).
  pose proof (first_missing_spec (Z.to_nat (s_Chunks s)) 0 (cq_chunkReturned q)) as Hf.
  destruct (first_missing _ 0 _) as [i|].
  - left. exists i. cbn. rewrite load_spec by done. cbn. split; [|done]. destruct Hf as (? & ? & ?). split_and!; [lia..|done|done].
  - right. split; [|done]. intros k Hk. apply Hf. lia.
Qed.

Lemma set_returned_ok q r : queue_ok s q -> (forall i, i ∈ r -> 0 <= i < s_Chunks s) -> queue_ok s (set_returned r q).
Proof. intros [] Hr. by split. Qed.

Lemma Next_resume_spec q i : queue_ok s q ->
  Next_resume i q = (set_returned ({[i]} ∪ cq_chunkReturned q) q, Val (chunk_at s q i)).
Proof. intros Hq. unfold Next_resume, mbind, ST_bind. cbn. by rewrite load_spec. Qed.

(** ** Discarding *)

(** What discarding may do: it removes files and their marks, and keeps the senders of the chunks
    that stay. *)
Record discards q q' : Prop := {
  di_snapshot : cq_snapshot q' = cq_snapshot q;
  di_waiters : cq_waiters q' = cq_waiters q;
  di_chans : cq_chans q' = cq_chans q;
  di_chunkFiles : forall i, i ∈ cq_chunkFiles q' -> i ∈ cq_chunkFiles q;
  di_files : forall i body, cq_files q' !! i = Some body -> cq_files q !! i = Some body /\ GetSender q' i = GetSender q i;
  di_returned : forall i, i ∈ cq_chunkReturned q' -> i ∈ cq_chunkReturned q;
  di_kept : forall i, i ∈ cq_chunkReturned q' -> i ∈ cq_chunkFiles q -> i ∈ cq_chunkFiles q'
}.
Lemma discards_refl q : discards q q.
Proof. by split. Qed.
Lemma discards_trans q1 q2 q3 : discards q1 q2 -> discards q2 q3 -> discards q1 q3.
Proof.
  intros [? ? ? Hc Hf Hr Hk] [? ? ? Hc' Hf' Hr' Hk']. split; try congruence; auto.
  intros i body [Hb Hs]%Hf'. apply Hf in Hb as [? Hs']. split; [done|congruence].
Qed.

Lemma drop_chunk_ok q i : queue_ok s q -> queue_ok s (drop_chunk i q) /\ discards q (drop_chunk i q).
Proof.
  intros [Ho Hf Hr Ha Hw Hap]. split; split; queue_cbn; try done.
  - intros j. rewrite lookup_delete_is_Some, <- Hf, elem_of_difference, elem_of_singleton. clear. naive_solver.
  - intros j [? _]%elem_of_difference. auto.
  - intros j [? _]%elem_of_difference. auto.
  - intros j l Hl. destruct (Hw j l Hl) as (Hn & ? & ?). split; [|done]. by intros [? _]%elem_of_difference.
  - by intros j [? _]%elem_of_difference.
  - intros j body [? Hb]%lookup_delete_Some. done.
  - by intros j [? _]%elem_of_difference.
  - intros j [_ ?]%elem_of_difference ?. by apply elem_of_difference.
Qed.
Lemma discard_spec q i : queue_ok s q -> discard i q = ((if bool_decide (i ∈ cq_chunkFiles q) then drop_chunk i q else q), Val tt).
Proof.
  intros Hq. unfold discard, self, mbind, ST_bind. cbn. rewrite (qo_open _ _ Hq). case_bool_decide as Hi; [|done].
  apply (qo_files _ _ Hq) in Hi as [body Hb]. by rewrite Hb, bool_decide_false.
Qed.

Lemma for_each_discard q l : queue_ok s q ->
  exists q', for_each l Discard q = (q', Val tt) /\ queue_ok s q' /\ discards q q' /\
    (forall i, i ∈ l -> i ∈ cq_chunkFiles q -> i ∉ cq_chunkReturned q') /\
    (forall i, i ∈ cq_chunkReturned q -> i ∉ l -> i ∈ cq_chunkReturned q').
Proof.
  revert q. induction l as [|j l IH]; intros q Hq; cbn [for_each].
  - exists q. split_and!; [done|done|apply discards_refl|by intros i []%not_elem_of_nil|done].
  - unfold Discard at 1. rewrite (st_run _ _ _ _ _ (discard_spec q j Hq)). case_bool_decide as Hj.
    + destruct (drop_chunk_ok q j Hq) as [Hok Hd]. destruct (IH _ Hok) as (q' & Hrun & Hok' & Hd' & Hgone & Hstay).
      exists q'. split_and!; [done|done|by eapply discards_trans| |].
      * intros i Hi Hin. destruct (decide (i = j)) as [->|Hne].
        -- intros Hr%(di_returned _ _ Hd'). queue_cbn_in Hr. apply elem_of_difference in Hr as [_ []]. by apply elem_of_singleton.
        -- apply elem_of_cons in Hi as [?|Hi]; [done|]. apply Hgone; [done|]. queue_cbn. by rewrite elem_of_difference, elem_of_singleton.
      * intros i Hi [Hn Hn']%not_elem_of_cons. apply Hstay; [|done]. queue_cbn. by rewrite elem_of_difference, elem_of_singleton.
    + destruct (IH _ Hq) as (q' & Hrun & Hok' & Hd' & Hgone & Hstay). exists q'. split_and!; [done..| |].
      * intros i Hi Hin. apply elem_of_cons in Hi as [->|Hi]; [done|]. by apply Hgone.
      * intros i Hi [_ Hn]%not_elem_of_cons. by apply Hstay.
Qed.

(** One iteration of the loop of [DiscardSender], on an index that was not returned. *)
Lemma forget_sender q i : queue_ok s q -> i ∉ cq_chunkReturned q ->
  let q' := set_senders (delete i (cq_chunkSenders q)) (if bool_decide (i ∈ cq_chunkFiles q) then drop_chunk i q else q) in
  queue_ok s q' /\ discards q q' /\ forall j, j ∈ cq_chunkReturned q -> j ∈ cq_chunkReturned q'.
Proof.
  intros Hq Hi q'.
  assert (Hd : queue_ok s (if bool_decide (i ∈ cq_chunkFiles q) then drop_chunk i q else q) /\
               discards q (if bool_decide (i ∈ cq_chunkFiles q) then drop_chunk i q else q)).
  { case_bool_decide; [by apply drop_chunk_ok|]. split; [done|apply discards_refl]. }
  assert (Hno : cq_files (if bool_decide (i ∈ cq_chunkFiles q) then drop_chunk i q else q) !! i = None).
  { case_bool_decide as Hf; queue_cbn; [apply lookup_delete_eq|]. apply eq_None_not_Some. by rewrite <- (qo_files _ _ Hq). }
  assert (Hret : forall j, j ∈ cq_chunkReturned q -> j ∈ cq_chunkReturned (if bool_decide (i ∈ cq_chunkFiles q) then drop_chunk i q else q)).
  { intros j Hj. case_bool_decide; queue_cbn; [|done]. apply elem_of_difference. split; [done|]. intros ->%elem_of_singleton. done. }
  assert (Hsend : cq_chunkSenders (if bool_decide (i ∈ cq_chunkFiles q) then drop_chunk i q else q) = cq_chunkSenders q) by (by case_bool_decide).
  subst q'. set (q1 := if bool_decide _ then _ else _) in *. clearbody q1.
  destruct Hd as [[Ho Hf Hr Ha Hw Hap] [? ? ? Hc Hfi Hre Hk]]. split_and!; [by split|split; queue_cbn; try done|done].
  intros j body Hb. destruct (Hfi j body Hb) as [? HS]. split; [done|]. rewrite <- HS. unfold GetSender. queue_cbn.
  rewrite lookup_delete_ne by (intros ->; congruence). by rewrite Hsend.
Qed.
Lemma DiscardSender_spec q id : queue_ok s q ->
  exists q', DiscardSender id q = (q', Val tt) /\ queue_ok s q' /\ discards q q' /\ forall i, i ∈ cq_chunkReturned q -> i ∈ cq_chunkReturned q'.
Proof.
  intros Hq. unfold DiscardSender. rewrite (st_run _ _ q q q eq_refl). generalize (map_to_list (cq_chunkSenders q)) as l. intros l.
  revert q Hq. induction l as [|[i sender] l IH]; intros q Hq; cbn [for_each].
  - exists q. split_and!; [done|done|apply discards_refl|done].
  - unfold mbind at 1, ST_bind at 1. rewrite (st_run _ _ q q q eq_refl). cbn beta.
    destruct (bool_decide (sender = id) && negb (bool_decide (i ∈ cq_chunkReturned q))) eqn:E; cbn beta iota.
    + apply andb_true_iff in E as [_ Hi%negb_true_iff]. apply bool_decide_eq_false in Hi.
      rewrite (st_run _ _ _ _ _ (discard_spec q i Hq)). cbn.
      destruct (forget_sender q i Hq Hi) as (Hok & Hd & Hr). cbn zeta in *.
      assert (Hsend : cq_chunkSenders (if bool_decide (i ∈ cq_chunkFiles q) then drop_chunk i q else q) = cq_chunkSenders q) by (by case_bool_decide).
      rewrite Hsend. destruct (IH _ Hok) as (q' & Hrun & Hok' & Hd' & Hr'). exists q'. split_and!; [done|done|by eapply discards_trans|auto].
    + cbn. by apply IH.
Qed.

(** ** Channels *)

Definition signalled (i : Z) (l : list nat) (cs : list channel) : list channel := foldl (fun cs id => <[id := mkChannel (Some i) true]> cs) cs l.

Lemma signalled_cons i j l cs : signalled i (j :: l) cs = signalled i l (<[j := mkChannel (Some i) true]> cs).
Proof. done. Qed.
Lemma signalled_other i l cs id : id ∉ l -> signalled i l cs !! id = cs !! id.
Proof.
  revert cs. induction l as [|j l IH]; intros cs Hid; [done|]. apply not_elem_of_cons in Hid as [? ?].
  rewrite signalled_cons, IH by done. by apply list_lookup_insert_ne.
Qed.
Lemma signalled_in i l cs id c : NoDup l -> id ∈ l -> cs !! id = Some c -> signalled i l cs !! id = Some (mkChannel (Some i) true).
Proof.
  revert cs c. induction l as [|j l IH]; intros cs c Hnd Hid Hc; [by apply not_elem_of_nil in Hid|]. apply NoDup_cons in Hnd as [Hj Hnd].
  rewrite signalled_cons. apply elem_of_cons in Hid as [->|Hid].
  - rewrite signalled_other by done. apply list_lookup_insert_eq. by eapply lookup_lt_Some.
  - destruct (decide (id = j)) as [->|Hne]; [done|]. apply (IH _ c); [done..|]. by rewrite list_lookup_insert_ne.
Qed.

Lemma on_channel_run (op : channel -> go channel) q id c c' :
  cq_chans q !! id = Some c -> op c = Val c' -> on_channel op id q = (set_chans (<[id := c']> (cq_chans q)) q, Val tt).
Proof. intros Hc Hop. unfold on_channel, self, mbind, ST_bind. cbn. by rewrite Hc, Hop. Qed.

(** Signalling waiters whose channels are open, empty and apart. *)
Lemma signal_waiters q i l :
  NoDup l -> Forall (fun c => cq_chans q !! c = Some make_channel) l ->
  for_each l (fun id => _ ← on_channel (chan_send i) id; on_channel chan_close id) q = (set_chans (signalled i l (cq_chans q)) q, Val tt).
Proof.
  revert q. induction l as [|id l IH]; intros q Hnd Hl; cbn [for_each]; [by destruct q|].
  apply NoDup_cons in Hnd as [Hid Hnd]. apply Forall_cons in Hl as [Hc Hl].
  pose proof (lookup_lt_Some _ _ _ Hc) as Hlt.
  rewrite (st_run _ _ q (set_chans (<[id := mkChannel (Some i) true]> (cq_chans q)) q) tt).
  2:{ rewrite (st_run _ _ _ _ _ (on_channel_run _ _ _ _ (mkChannel (Some i) false) Hc eq_refl)).
      rewrite (on_channel_run _ _ id (mkChannel (Some i) false) (mkChannel (Some i) true)); queue_cbn.
      - by rewrite list_insert_insert_eq.
      - by apply list_lookup_insert_eq.
      - done. }
  rewrite IH; [done|done|]. queue_cbn. rewrite Forall_forall in Hl |- *. intros c Hin. rewrite list_lookup_insert_ne; [by apply Hl|]. by intros ->.
Qed.

(** [ch] is the channel of a call [WaitFor(i)]: a waiter, or signalled with the chunk present. *)
Definition waiting q (i : Z) (ch : nat) : Prop :=
  (exists l, cq_waiters q !! i = Some l /\ ch ∈ l) \/ (cq_chans q !! ch = Some (mkChannel (Some i) true) /\ i ∈ cq_chunkFiles q).

(** What the other goroutines may do to a queue: chunks arrive, channels are added and signalled. *)
Record grows q q' : Prop := {
  gr_returned : cq_chunkReturned q' = cq_chunkReturned q;
  gr_chunkFiles : forall i, i ∈ cq_chunkFiles q -> i ∈ cq_chunkFiles q';
  gr_chunks : forall i ck, chunk_at s q i = Some ck -> chunk_at s q' i = Some ck;
  gr_waiting : forall i ch, waiting q i ch -> waiting q' i ch
}.
Lemma grows_refl q : grows q q.
Proof. by split. Qed.

(** [Add] of a chunk that was not there, with its waiters. *)
Definition added (i : Z) (body : bytes) (sender : NodeID) q : chunkQueue :=
  let q1 := store_chunk i body sender q in
  set_waiters (delete i (cq_waiters q)) (set_chans (signalled i (default [] (cq_waiters q !! i)) (cq_chans q)) q1).

Lemma added_ok q i body sender : queue_ok s q -> i ∉ cq_chunkFiles q -> queue_ok s (added i body sender q) /\ grows q (added i body sender q).
Proof.
  intros [Ho Hf Hr Ha Hw Hap] Hi. unfold added.
  assert (Hin : NoDup (default [] (cq_waiters q !! i)) /\ Forall (fun c => cq_chans q !! c = Some make_channel) (default [] (cq_waiters q !! i))).
  { destruct (cq_waiters q !! i) as [l|] eqn:E; cbn; [by destruct (Hw i l E) as (_ & ? & ?)|split; constructor]. }
  destruct Hin as [Hnd Hopen]. rewrite Forall_forall in Hopen.
  assert (Hother : forall j l c, j <> i -> cq_waiters q !! j = Some l -> c ∈ l -> c ∉ default [] (cq_waiters q !! i)).
  { intros j l c Hne Hl Hc Hc'. destruct (cq_waiters q !! i) as [l'|] eqn:E; cbn in Hc'; [|by apply not_elem_of_nil in Hc']. by apply Hne, (Hap j i l l' c). }
  split; split; queue_cbn; try done.
  - intros j. rewrite lookup_insert_is_Some, <- Hf, elem_of_union, elem_of_singleton. clear. destruct (decide (i = j)); naive_solver.
  - intros j l [Hne Hl]%lookup_delete_Some. destruct (Hw j l Hl) as (Hn & Hd & Hall). split_and!; [|done|].
    + intros [->%elem_of_singleton|?]%elem_of_union; done.
    + rewrite Forall_forall in Hall |- *. intros c Hc. rewrite signalled_other by (by apply (Hother j l)). by apply Hall.
  - intros j j' l l' c [_ Hl]%lookup_delete_Some [_ Hl']%lookup_delete_Some. by apply (Hap j j' l l' c).
  - intros j Hj. apply elem_of_union. by right.
  - intros j ck. unfold chunk_at, GetSender. queue_cbn. destruct (decide (j = i)) as [->|Hne].
    + assert (cq_files q !! i = None) as ->; [|done]. apply eq_None_not_Some. by rewrite <- Hf.
    + by rewrite !lookup_insert_ne by done.
  - intros j ch [(l & Hl & Hc)|[Hc Hj]].
    + destruct (decide (j = i)) as [->|Hne].
      * right. queue_cbn. rewrite Hl in Hnd, Hopen |- *. cbn in *. split; [|by apply elem_of_union; left; apply elem_of_singleton].
        eapply signalled_in; [done|done|by apply Hopen].
      * left. queue_cbn. exists l. by rewrite lookup_delete_ne.
    + right. queue_cbn. split; [|by apply elem_of_union; right]. rewrite signalled_other; [done|].
      intros Hin%Hopen. rewrite Hc in Hin. discriminate Hin.
Qed.

Lemma Queue_Add_spec q c : queue_ok s q ->
  exists q' r, Queue_Add (Some c) q = (q', r) /\ queue_ok s q' /\ grows q q' /\
    ((q' = q /\ (r = Val false \/ exists e, r = Fail e)) \/
     (r = Val true /\ forall i ck, chunk_at s q' i = Some ck -> chunk_at s q i = Some ck \/ ck = c)).
Proof.
  intros Hq. destruct c as [h f i [body|] sender].
  2:{ exists q, (Fail ErrNilChunk). split_and!; [done|done|apply grows_refl|]. left. eauto. }
  unfold Queue_Add. rewrite (st_run _ _ q q q eq_refl), (qo_open _ _ Hq).
  assert (Hsame : forall r : outcome ChunkError bool, (r = Val false \/ exists e, r = Fail e) ->
    exists q' r', (q, r) = (q', r') /\ queue_ok s q' /\ grows q q' /\
    ((q' = q /\ (r' = Val false \/ exists e, r' = Fail e)) \/
     (r' = Val true /\ forall j ck, chunk_at s q' j = Some ck -> chunk_at s q j = Some ck \/ ck = mkChunk h f i (Some body) sender))).
  { intros r Hr. exists q, r. split_and!; [done|done|apply grows_refl|]. by left. }
  destruct (Z.eqb_spec h (s_Height s)) as [->|]; [|apply (Hsame (Fail ErrChunkHeight)); eauto].
  destruct (Z.eqb_spec f (s_Format s)) as [->|]; [|apply (Hsame (Fail ErrChunkFormat)); eauto].
  destruct (i >=? s_Chunks s) eqn:Hlt; [apply (Hsame (Fail ErrChunkIndex)); eauto|]. cbn [negb throw_if].
  do 3 rewrite (st_run _ _ q q tt eq_refl).
  case_bool_decide as Hi; [apply (Hsame (Val false)); eauto|].
  assert (Hin : NoDup (default [] (cq_waiters q !! i)) /\ Forall (fun c => cq_chans q !! c = Some make_channel) (default [] (cq_waiters q !! i))).
  { destruct (cq_waiters q !! i) as [l|] eqn:E; cbn; [by destruct (qo_waiters _ _ Hq i l E) as (_ & ? & ?)|split; constructor]. }
  destruct Hin as [Hnd Hopen]. destruct (added_ok q i body sender Hq Hi) as [Hok Hg].
  exists (added i body sender q), (Val true). split_and!; [|done|done|].
  - rewrite (st_run _ _ q (store_chunk i body sender q) tt eq_refl).
    by rewrite (st_run _ _ _ _ _ (signal_waiters (store_chunk i body sender q) i _ Hnd Hopen)).
  - right. split; [done|]. intros j ck. unfold chunk_at, added, GetSender. queue_cbn. destruct (decide (j = i)) as [->|Hne].
    + rewrite !lookup_insert_eq. cbn. intros [= <-]. by right.
    + rewrite !lookup_insert_ne by done. by left.
Qed.

Lemma Allocate_spec q : queue_ok s q -> exists q' r, Allocate q = (q', r) /\ queue_ok s q' /\ grows q q' /\
  ((q' = q /\ r = Fail errDone) \/
   (exists i, r = Val i /\ 0 <= i < s_Chunks s /\ i ∉ cq_chunkAllocated q /\ q' = set_allocated ({[i]} ∪ cq_chunkAllocated q) q)).
Proof.
  intros Hq. unfold Allocate. rewrite (st_run _ _ q q q eq_refl), (qo_open _ _ Hq). destruct (_ >=? _).
  { exists q, (Fail errDone). split_and!; [done|done|apply grows_refl|by left]. }
  cbn [throw_if]. rewrite (st_run _ _ q q tt eq_refl).
  pose proof (first_missing_spec (Z.to_nat (s_Chunks s)) 0 (cq_chunkAllocated q)) as Hf. destruct (first_missing _ _ _) as [i|].
  - destruct Hf as (Hi & Hn & _). exists (set_allocated ({[i]} ∪ cq_chunkAllocated q) q), (Val i). split_and!; [done| |by split|].
    + destruct Hq as [Ho Hf Hr Ha Hw Hap]. split; queue_cbn; try done. intros j [->%elem_of_singleton|?]%elem_of_union; [lia|auto].
    + right. exists i. split_and!; [done|lia|lia|done|done].
  - exists q, (Fail errDone). split_and!; [done|done|apply grows_refl|by left].
Qed.

(** A queue with one more channel. *)
Lemma more_channels q c : queue_ok s q -> queue_ok s (set_chans (cq_chans q ++ [c]) q) /\ grows q (set_chans (cq_chans q ++ [c]) q).
Proof.
  intros [Ho Hf Hr Ha Hw Hap].
  split; split; queue_cbn; try done.
  - intros j l Hl. destruct (Hw j l Hl) as (? & ? & Hall). split_and!; [done..|]. eapply Forall_impl; [exact Hall|].
    intros id Hid. cbn. by apply lookup_app_l_Some.
  - intros j ch [Hl|[Hc Hj]]; [by left|right]. split; [|done]. queue_cbn. by apply lookup_app_l_Some.
Qed.
Lemma WaitFor_spec q i : queue_ok s q -> exists q' ch, WaitFor i q = (q', Val ch) /\ queue_ok s q' /\ grows q q' /\
  (i < s_Chunks s -> waiting q' i ch) /\ (forall j, chunk_at s q' j = chunk_at s q j).
Proof.
  intros Hq. unfold WaitFor. rewrite (st_run _ _ q q q eq_refl), (qo_open _ _ Hq).
  assert (Hnew : forall c, new_channel c q = (set_chans (cq_chans q ++ [c]) q, Val (length (cq_chans q)))) by done.
  destruct (i >=? s_Chunks s) eqn:Hlt; z_bool.
  { destruct (more_channels q (mkChannel None true) Hq) as [? ?]. eexists _, _. split_and!; [apply Hnew|done|done|lia|done]. }
  case_bool_decide as Hi.
  { destruct (more_channels q (mkChannel (Some i) true) Hq) as [? ?]. eexists _, _. split_and!; [apply Hnew|done|done| |done].
    intros _. right. queue_cbn. split; [|done]. rewrite lookup_app_r by done. by rewrite Nat.sub_diag. }
  rewrite (st_run _ _ _ _ _ (Hnew make_channel)). destruct (more_channels q make_channel Hq) as [[Ho Hf Hr Ha Hw Hap] Hg].
  set (q1 := set_chans _ q) in *. set (ch := length (cq_chans q)).
  assert (Hch : cq_chans q1 !! ch = Some make_channel) by (subst q1 ch; queue_cbn; rewrite lookup_app_r by done; by rewrite Nat.sub_diag).
  assert (Hfresh : forall j l, cq_waiters q1 !! j = Some l -> ch ∉ l).
  { intros j l Hl Hin. destruct (qo_waiters _ _ Hq j l Hl) as (_ & _ & Hall). rewrite Forall_forall in Hall.
    apply Hall in Hin. apply lookup_lt_Some in Hin. subst ch. lia. }
  set (l0 := default [] (cq_waiters q1 !! i)).
  assert (Hl0 : NoDup l0 /\ Forall (fun c => cq_chans q1 !! c = Some make_channel) l0 /\ ch ∉ l0).
  { subst l0. destruct (cq_waiters q1 !! i) as [l|] eqn:E; cbn; [destruct (Hw i l E) as (_ & ? & ?); eauto|].
    split_and!; [constructor|constructor|apply not_elem_of_nil]. }
  destruct Hl0 as (Hnd & Hopen & Hno).
  exists (set_waiters (<[i := l0 ++ [ch]]> (cq_waiters q1)) q1), ch. split_and!; [done| | | |done].
  - split; queue_cbn; try done.
    + intros j l [[<- <-]|[_ Hl]]%lookup_insert_Some; [|by eauto]. split_and!; [done| |].
      * apply NoDup_app. split_and!; [done| |apply NoDup_singleton]. intros c Hc ->%list_elem_of_singleton. done.
      * apply Forall_app. split; [done|]. by apply Forall_singleton.
    + intros j j' l l' c [[<- <-]|[Hne Hl]]%lookup_insert_Some [[<- <-]|[Hne' Hl']]%lookup_insert_Some Hc Hc'; [done|..].
      * apply elem_of_app in Hc as [Hc| ->%list_elem_of_singleton]; [|by destruct (Hfresh j' l' Hl')].
        subst l0. destruct (cq_waiters q1 !! i) as [li|] eqn:E; cbn in Hc; [|by apply not_elem_of_nil in Hc]. by apply (Hap i j' li l' c).
      * apply elem_of_app in Hc' as [Hc'| ->%list_elem_of_singleton]; [|by destruct (Hfresh j l Hl)].
        subst l0. destruct (cq_waiters q1 !! i) as [li|] eqn:E; cbn in Hc'; [|by apply not_elem_of_nil in Hc']. by apply (Hap j i l li c).
      * by apply (Hap j j' l l' c).
  - destruct Hg as [? ? ? Hgw]. split; try done. intros j c Hw'. apply Hgw in Hw'. destruct Hw' as [(l & Hl & Hc)|[? ?]]; [left|by right].
    queue_cbn. destruct (decide (j = i)) as [->|Hne].
    + exists (l0 ++ [ch]). rewrite lookup_insert_eq. split; [done|]. subst l0. rewrite Hl. apply elem_of_app. by left.
    + exists l. by rewrite lookup_insert_ne.
  - intros _. left. queue_cbn. exists (l0 ++ [ch]). rewrite lookup_insert_eq. split; [done|]. apply elem_of_app. right. by apply list_elem_of_singleton.
Qed.

Lemma close_channels q l : NoDup l -> Forall (fun c => cq_chans q !! c = Some make_channel) l ->
  exists cs, for_each l (on_channel chan_close) q = (set_chans cs q, Val tt).
Proof.
  revert q. induction l as [|id l IH]; intros q Hnd Hl; cbn [for_each]; [exists (cq_chans q); by destruct q|].
  apply NoDup_cons in Hnd as [Hid Hnd]. apply Forall_cons in Hl as [Hc Hl].
  rewrite (st_run _ _ _ _ _ (on_channel_run chan_close q id make_channel (mkChannel None true) Hc eq_refl)).
  destruct (IH (set_chans (<[id := mkChannel None true]> (cq_chans q)) q) Hnd) as [cs Hcs]; [|by exists cs].
  rewrite Forall_forall in Hl |- *. intros c Hin. queue_cbn. rewrite list_lookup_insert_ne; [by apply Hl|]. by intros ->.
Qed.
Lemma elem_concat_values {K} `{Countable K} (m : gmap K (list nat)) c : c ∈ concat (map_to_list m).*2 <-> exists i l, m !! i = Some l /\ c ∈ l.
Proof.
  rewrite list_elem_of_In, in_concat. setoid_rewrite <- list_elem_of_In. split.
  - intros (l & Hl & Hc). apply list_elem_of_fmap in Hl as ([i l'] & -> & Hl%elem_of_map_to_list). eauto.
  - intros (i & l & Hl & Hc). exists l. split; [|done]. apply list_elem_of_fmap. exists (i, l). split; [done|]. by apply elem_of_map_to_list.
Qed.
Lemma NoDup_concat_values (m : gmap Z (list nat)) :
  (forall i l, m !! i = Some l -> NoDup l) ->
  (forall i j l l' c, m !! i = Some l -> m !! j = Some l' -> c ∈ l -> c ∈ l' -> i = j) -> NoDup (concat (map_to_list m).*2).
Proof.
  intros Hnd Hap.
  assert (Hbind : forall L : list (Z * list nat), concat L.*2 = L ≫= snd) by (induction L as [|[? ?] L IH]; [done|]; cbn; by rewrite IH).
  rewrite Hbind. apply NoDup_bind.
  - intros [i l] [j l'] c Hl%elem_of_map_to_list Hl'%elem_of_map_to_list Hc Hc'. cbn in *.
    assert (i = j) as -> by (by apply (Hap i j l l' c)). congruence.
  - intros [i l] Hl%elem_of_map_to_list. by apply (Hnd i l).
  - apply NoDup_map_to_list.
Qed.

Lemma Queue_Close_spec q : queue_ok s q \/ cq_snapshot q = None -> exists q', Queue_Close q = (q', Val tt) /\ cq_snapshot q' = None.
Proof.
  intros [Hq|Hc]; unfold Queue_Close; rewrite (st_run _ _ q q q eq_refl).
  - rewrite (qo_open _ _ Hq). destruct (close_channels q (concat (map_to_list (cq_waiters q)).*2)) as [cs Hcs].
    + apply NoDup_concat_values; [|apply (qo_apart _ _ Hq)]. intros i l Hl. by destruct (qo_waiters _ _ Hq i l Hl) as (_ & ? & _).
    + apply Forall_forall. intros c (i & l & Hl & Hc)%elem_concat_values. destruct (qo_waiters _ _ Hq i l Hl) as (_ & _ & Hall).
      rewrite Forall_forall in Hall. by apply Hall.
    + rewrite (st_run _ _ _ _ _ Hcs). by eexists.
  - rewrite Hc. by exists q.
Qed.
End queue.
