(* ===== verification/StateSync.v ===== *)
(** * internal/statesync/syncer.go: restoring a snapshot

    The goroutine of [SyncAny] is a machine whose states are the calls at which it waits: for the
    state provider, for the application, for a chunk, or asleep.  An event gives the answer of one
    such call; the code up to the next call runs in one step, under the locks of the pool and the
    queue.  In between come the events of the other goroutines: snapshots, chunks and removed peers
    from the reactor, and the steps of the chunk fetchers.  The trace has the calls to the
    application and the state provider with their answers, the timeouts, the chunks received and
    the requests sent, latest first.  [trustedAppHash] of a snapshot is set by [Sync] before it is read: the queue,
    which has the same object, sees it; the copy in the pool keeps the hash it had. *)
From Stdlib Require Import ZArith Lia Strings.Byte Strings.String.
From stdpp Require Import base list strings gmap.
From S2P Require Import Prelude.
From S2P Require Import StateOutcome.
From S2P Require Import Merkle.
From S2P Require Import Types.
From S2P Require Import Header.
From S2P Require Import Block.
From S2P Require Import ChainState.
From S2P Require Import PeerManager.
From S2P Require Import SnapshotPool.
From S2P Require Import ChunkQueue.

(** ** Answers of the application and the state provider *)

Inductive OfferResult := OfferUnknown | OfferAccept | OfferAbort | OfferReject | OfferRejectFormat | OfferRejectSender.
Inductive ApplyResult := ApplyUnknown | ApplyAccept | ApplyAbort | ApplyRetry | ApplyRetrySnapshot | ApplyRejectSnapshot.
#[export] Instance OfferResult_eq_dec : EqDecision OfferResult.
Proof. solve_decision. Defined.
#[export] Instance ApplyResult_eq_dec : EqDecision ApplyResult.
Proof. solve_decision. Defined.
Record ResponseApplySnapshotChunk := mkApplied { ra_Result : ApplyResult; ra_RefetchChunks : list Z; ra_RejectSenders : list string }.
Record ResponseInfo := mkInfo { ri_AppVersion : Z; ri_LastBlockHeight : Z; ri_LastBlockAppHash : bytes }.

(** An answer of the state provider: a value, or an error and whether the context was cancelled and
    whether the error is [light.ErrNoWitnesses]. *)
Inductive Provided (A : Type) := Provides (a : A) | ProviderErr (cancelled noWitnesses : bool).
Global Arguments Provides {A} _.
Global Arguments ProviderErr {A} _ _.

Inductive SyncError :=
  | errNoSnapshots | errQueue (e : ChunkError) | errInProgress
  | errAbort | errRetrySnapshot | errRejectSnapshot | errRejectFormat | errRejectSender | errVerifyFailed
  | errContext | errNoWitnesses | errOffer | errUnknownResult | errFetch (e : ChunkError) | errApply | errDiscard (e : ChunkError)
  | errQuery | errAppVersion.
#[export] Instance SyncError_eq_dec : EqDecision SyncError.
Proof. solve_decision. Defined.

(** The checks of an answer of the provider in [Sync]. *)
Definition provided {A} (a : Provided A) : outcome SyncError A :=
  match a with
  | Provides a => Val a
  | ProviderErr cancelled noWitnesses =>
      _ ← fail_if cancelled errContext;
      _ ← fail_if noWitnesses errNoWitnesses;
      Fail errRejectSnapshot
  end.

Definition offerSnapshot (resp : option OfferResult) : outcome SyncError unit :=
  match resp with
  | None => Fail errOffer
  | Some OfferAccept => Val tt
  | Some OfferAbort => Fail errAbort
  | Some OfferReject => Fail errRejectSnapshot
  | Some OfferRejectFormat => Fail errRejectFormat
  | Some OfferRejectSender => Fail errRejectSender
  | Some OfferUnknown => Fail errUnknownResult
  end.

Definition verifyApp (s : snapshot) (appVersion : Z) (resp : option ResponseInfo) : outcome SyncError unit :=
  match resp with
  | None => Fail errQuery
  | Some resp =>
      _ ← fail_if (negb (ri_AppVersion resp =? appVersion)) errAppVersion;
      _ ← fail_if (negb (bytes_equal (s_trustedAppHash s) (ri_LastBlockAppHash resp))) errVerifyFailed;
      fail_if (negb (uint64 (ri_LastBlockHeight resp) =? s_Height s)) errVerifyFailed
  end.

(** ** The state *)

(** Where the goroutine of [SyncAny] waits.  [SChoose] and [SRetry] are the head of its loop, without
    and with a snapshot to retry; the last states are those of [applyChunks]. *)
Inductive sync_pc :=
  | SChoose
  | SRetry (s : snapshot)
  | SAppHash (s : snapshot)
  | SOffer (s : snapshot)
  | SState (s : snapshot)
  | SCommit (s : snapshot) (st : State)
  | SNext (s : snapshot) (st : State) (c : Commit)
  | SWaitFor (s : snapshot) (st : State) (c : Commit) (index : Z)
  | SWait (s : snapshot) (st : State) (c : Commit) (index : Z) (ch : nat)
  | SApply (s : snapshot) (st : State) (c : Commit) (ck : chunk)
  | SInfo (s : snapshot) (st : State) (c : Commit)
  | SDone (r : outcome SyncError (State * Commit)).

(** A goroutine of [fetchChunks]: what it does next, whether its context is cancelled, and whether
    its queue is still the current one (otherwise that queue is closed). *)
Inductive fetch_pc := FAllocate | FSleep | FRequest (index : Z) | FWaitFor (index : Z) | FSelect (index : Z) (ch : nat) | FStopped.
Record fetcher := mkFetcher { f_pc : fetch_pc; f_snapshot : snapshot; f_cancelled : bool; f_live : bool }.

(** What a trace records.  An offer comes with the peers that have announced the snapshot when
    the application answers; a chunk with the snapshot it belongs to; [ObFailed] is an error of
    the state provider, and [ObTimedOut] the end of the wait for a chunk. *)
Inductive observed :=
  | ObAppHash (height : Z) (appHash : bytes)
  | ObState (height : Z) (st : State)
  | ObCommit (height : Z) (c : Commit)
  | ObFailed (s : snapshot) (cancelled noWitnesses : bool)
  | ObReceived (c : chunk)
  | ObOffered (s : snapshot) (r : option OfferResult) (peers : list NodeID)
  | ObApplied (s : snapshot) (c : chunk) (r : option ResponseApplySnapshotChunk)
  | ObTimedOut (s : snapshot)
  | ObInfo (r : option ResponseInfo)
  | ObRequested (peer : NodeID) (s : snapshot) (index : Z).

(** [sy_queue] is the variable [chunks] of [SyncAny]; [s.chunks] points to it while [sy_active]. *)
Record syncer := mkSyncer {
  sy_pool : snapshotPool;
  sy_queue : option chunkQueue;
  sy_active : bool;
  sy_pc : sync_pc;
  sy_fetchers : list fetcher;
  sy_avgChunkTime : Z;
  sy_lastHeight : Z;
  sy_trace : list observed
}.
Record SyncConfig := mkSyncConfig { sc_fetchers : Z; sc_discoveryTime : Z }.

Definition minimumDiscoveryTime : Z := 5 * 10 ^ 9.
(** The discovery time that [SyncAny] uses. *)
Definition discovery (cfg : SyncConfig) : Z :=
  if negb (sc_discoveryTime cfg =? 0) && (sc_discoveryTime cfg <? minimumDiscoveryTime) then minimumDiscoveryTime else sc_discoveryTime cfg.

Definition newSyncer : syncer := mkSyncer newSnapshotPool None false SChoose [] 0 0 [].

Definition set_pool (p : snapshotPool) (y : syncer) : syncer :=
  mkSyncer p (sy_queue y) (sy_active y) (sy_pc y) (sy_fetchers y) (sy_avgChunkTime y) (sy_lastHeight y) (sy_trace y).
Definition set_queue (q : option chunkQueue) (y : syncer) : syncer :=
  mkSyncer (sy_pool y) q (sy_active y) (sy_pc y) (sy_fetchers y) (sy_avgChunkTime y) (sy_lastHeight y) (sy_trace y).
Definition set_active (b : bool) (y : syncer) : syncer :=
  mkSyncer (sy_pool y) (sy_queue y) b (sy_pc y) (sy_fetchers y) (sy_avgChunkTime y) (sy_lastHeight y) (sy_trace y).
Definition set_pc (pc : sync_pc) (y : syncer) : syncer :=
  mkSyncer (sy_pool y) (sy_queue y) (sy_active y) pc (sy_fetchers y) (sy_avgChunkTime y) (sy_lastHeight y) (sy_trace y).
Definition set_fetchers (fs : list fetcher) (y : syncer) : syncer :=
  mkSyncer (sy_pool y) (sy_queue y) (sy_active y) (sy_pc y) fs (sy_avgChunkTime y) (sy_lastHeight y) (sy_trace y).
Definition set_avg (t : Z) (y : syncer) : syncer :=
  mkSyncer (sy_pool y) (sy_queue y) (sy_active y) (sy_pc y) (sy_fetchers y) t (sy_lastHeight y) (sy_trace y).
Definition set_lastHeight (h : Z) (y : syncer) : syncer :=
  mkSyncer (sy_pool y) (sy_queue y) (sy_active y) (sy_pc y) (sy_fetchers y) (sy_avgChunkTime y) h (sy_trace y).
Definition observe (o : observed) (y : syncer) : syncer :=
  mkSyncer (sy_pool y) (sy_queue y) (sy_active y) (sy_pc y) (sy_fetchers y) (sy_avgChunkTime y) (sy_lastHeight y) (o :: sy_trace y).

(** ** The end of [Sync] in the loop of [SyncAny] *)

Definition close_queue (oq : option chunkQueue) : go (option chunkQueue) :=
  match oq with
  | None => Val None
  | Some q => match Queue_Close q with (q', Panic w) => Panic w | (q', _) => Val (Some q') end
  end.
(** [SyncAny] returns, with its deferred [chunks.Close()]. *)
Definition finish (r : outcome SyncError (State * Commit)) (y : syncer) : go syncer :=
  q ← close_queue (sy_queue y);
  Val (set_pc (SDone r) (set_queue q y)).
(** The end of an iteration whose snapshot is given up. *)
Definition next_iteration (y : syncer) : go syncer :=
  _ ← close_queue (sy_queue y);
  Val (set_pc SChoose (set_queue None (set_fetchers ((fun f => mkFetcher (f_pc f) (f_snapshot f) (f_cancelled f) false) <$> sy_fetchers y) y))).

Definition cancel_fetchers (fs : list fetcher) : list fetcher := (fun f => mkFetcher (f_pc f) (f_snapshot f) true (f_live f)) <$> fs.

Section sync.
Context `{!Sha256, !RankOrders}.

(** What [SyncAny] does with the result of [Sync], whose deferred calls run first. *)
Definition sync_return (s : snapshot) (r : outcome SyncError (State * Commit)) (y : syncer) : go syncer :=
  let y := set_fetchers (cancel_fetchers (sy_fetchers y)) (set_active false y) in
  match r with
  | Val _ => finish r (set_lastHeight (int64 (s_Height s)) y)
  | Fail errRetrySnapshot => Val (set_pc (SRetry s) (set_queue (RetryAll <$> sy_queue y) y))
  | Fail (errFetch errTimeout) => next_iteration (set_pool (Pool_Reject (sy_pool y) s) y)
  | Fail errRejectSnapshot => next_iteration (set_pool (Pool_Reject (sy_pool y) s) y)
  | Fail errRejectFormat => next_iteration (set_pool (RejectFormat (sy_pool y) (s_Format s)) y)
  | Fail errRejectSender => next_iteration (set_pool (foldl RejectPeer (sy_pool y) (GetPeers (sy_pool y) s)) y)
  | Fail _ => finish r y
  | Panic w => Panic w
  end.

(** The head of the loop, and the start of [Sync]. *)
Definition start_sync (s : snapshot) (y : syncer) : go syncer :=
  if sy_active y then finish (Fail errInProgress) y
  else Val (set_pc (SAppHash s) (set_active true y)).
Definition choose (cfg : SyncConfig) (y : syncer) : go syncer :=
  best ← Best (sy_pool y);
  match best with
  | None => if discovery cfg =? 0 then finish (Fail errNoSnapshots) y else Val y
  | Some s =>
      match newChunkQueue s with
      | Val q => start_sync s (set_queue (Some q) y)
      | Fail e => finish (Fail (errQueue e)) y
      | Panic w => Panic w
      end
  end.

(** ** [applyChunks] *)

(** A method of the queue, and what follows its value or its error. *)
Definition on_queue {A} (m : CQ A) (y : syncer) (k : A -> syncer -> go syncer) (err : ChunkError -> syncer -> go syncer) : go syncer :=
  q ← deref (sy_queue y);
  match m q with
  | (q, Val a) => k a (set_queue (Some q) y)
  | (q, Fail e) => err e (set_queue (Some q) y)
  | (_, Panic w) => Panic w
  end.
(** An error of [Next]: [errDone] ends the loop, and the application is queried. *)
Definition next_failed (s : snapshot) (st : State) (c : Commit) (e : ChunkError) (y : syncer) : go syncer :=
  if bool_decide (e = errDone) then Val (set_pc (SInfo s st c) y) else sync_return s (Fail (errFetch e)) y.

Fixpoint reject_senders (senders : list string) (y : syncer) : go (syncer * option ChunkError) :=
  match senders with
  | [] => Val (y, None)
  | sender :: rest =>
      if bool_decide (sender = "") then reject_senders rest y
      else
        let y := set_pool (RejectPeer (sy_pool y) sender) y in
        q ← deref (sy_queue y);
        match DiscardSender sender q with
        | (q, Val _) => reject_senders rest (set_queue (Some q) y)
        | (q, Fail e) => Val (set_queue (Some q) y, Some e)
        | (_, Panic w) => Panic w
        end
  end.
(** [time.Since(start).Nanoseconds() / int64(chunks.numChunksReturned())]; an [int] has 64 bits. *)
Definition average (elapsed : Z) (q : chunkQueue) : go Z :=
  let n := numChunksReturned q in
  if n =? 0 then Panic "integer divide by zero" else Val (Z.quot elapsed n).
Definition apply_result (s : snapshot) (st : State) (c : Commit) (ck : chunk) (r : ApplyResult) (elapsed : Z) (y : syncer) : go syncer :=
  match r with
  | ApplyAccept =>
      q ← deref (sy_queue y);
      avg ← average elapsed q;
      Val (set_pc (SNext s st c) (set_avg avg y))
  | ApplyAbort => sync_return s (Fail errAbort) y
  | ApplyRetry => Val (set_pc (SNext s st c) (set_queue (Retry (ck_Index ck) <$> sy_queue y) y))
  | ApplyRetrySnapshot => sync_return s (Fail errRetrySnapshot) y
  | ApplyRejectSnapshot => sync_return s (Fail errRejectSnapshot) y
  | ApplyUnknown => sync_return s (Fail errUnknownResult) y
  end.
Definition apply_response (s : snapshot) (st : State) (c : Commit) (ck : chunk) (resp : option ResponseApplySnapshotChunk) (elapsed : Z) (y : syncer) : go syncer :=
  match resp with
  | None => sync_return s (Fail errApply) y
  | Some resp =>
      on_queue (for_each (ra_RefetchChunks resp) Discard) y
        (fun _ y =>
          '(y, failed) ← reject_senders (ra_RejectSenders resp) y;
          match failed with
          | Some e => sync_return s (Fail (errDiscard e)) y
          | None => apply_result s st c ck (ra_Result resp) elapsed y
          end)
        (fun e y => sync_return s (Fail (errDiscard e)) y)
  end.

(** ** The steps of the goroutine *)

Inductive sync_event :=
  | EvLoop
  | EvAppHash (a : Provided bytes)
  | EvOffer (r : option OfferResult)
  | EvState (a : Provided State)
  | EvCommit (a : Provided Commit)
  | EvNext
  | EvWaitFor
  | EvWake
  | EvTimeout
  | EvApply (resp : option ResponseApplySnapshotChunk) (elapsed : Z)
  | EvInfo (resp : option ResponseInfo).

(** Continue with the value of a call, or return from [Sync] with its error. *)
Definition or_return {A} (s : snapshot) (m : outcome SyncError A) (k : A -> syncer -> go syncer) (y : syncer) : go syncer :=
  match m with Val a => k a y | Fail e => sync_return s (Fail e) y | Panic w => Panic w end.
Definition spawn (cfg : SyncConfig) (s : snapshot) : list fetcher := replicate (Z.to_nat (sc_fetchers cfg)) (mkFetcher FAllocate s false true).

(** [snapshot.trustedAppHash = appHash], seen through the queue. *)
Definition trust (appHash : bytes) (q : chunkQueue) : chunkQueue :=
  mkChunkQueue ((fun s => set_trusted s appHash) <$> cq_snapshot q) (cq_files q) (cq_chunkFiles q) (cq_chunkSenders q) (cq_chunkAllocated q)
    (cq_chunkReturned q) (cq_waiters q) (cq_chans q).

(** A channel that is not there never delivers. *)
Definition recv_on (q : chunkQueue) (ch : nat) : option bool := c ← cq_chans q !! ch; chan_recv c.
Definition wake (s : snapshot) (st : State) (c : Commit) (index : Z) (ch : nat) (y : syncer) : go syncer :=
  q ← deref (sy_queue y);
  match recv_on q ch with
  | None => Val y
  | Some false => next_failed s st c errDone y
  | Some true =>
      on_queue (Next_resume index) y
        (fun ck y => ck ← deref ck; Val (set_pc (SApply s st c ck) y))
        (next_failed s st c)
  end.

(** An error of the provider is recorded. *)
Definition note_failure {A} (s : snapshot) (a : Provided A) (y : syncer) : syncer :=
  match a with Provides _ => y | ProviderErr cancelled noWitnesses => observe (ObFailed s cancelled noWitnesses) y end.

(** An event that does not answer the call at which the goroutine waits is none of its own. *)
Definition routine_step (cfg : SyncConfig) (y : syncer) (ev : sync_event) : go syncer :=
  match sy_pc y, ev with
  | SChoose, EvLoop => choose cfg y
  | SRetry s, EvLoop => start_sync s y
  | SAppHash s, EvAppHash a => or_return s (provided a) (fun h y => Val (set_pc (SOffer (set_trusted s h)) (observe (ObAppHash (s_Height s) h) (set_queue (trust h <$> sy_queue y) y)))) (note_failure s a y)
  | SOffer s, EvOffer r =>
      or_return s (offerSnapshot r) (fun _ y => Val (set_pc (SState s) (set_fetchers (sy_fetchers y ++ spawn cfg s) y))) (observe (ObOffered s r (GetPeers (sy_pool y) s)) y)
  | SState s, EvState a => or_return s (provided a) (fun st y => Val (set_pc (SCommit s st) (observe (ObState (s_Height s) st) y))) (note_failure s a y)
  | SCommit s st, EvCommit a => or_return s (provided a) (fun c y => Val (set_pc (SNext s st c) (observe (ObCommit (s_Height s) c) y))) (note_failure s a y)
  | SNext s st c, EvNext =>
      on_queue Next_lookup y
        (fun '(index, ck) y => Val (set_pc (match ck with Some ck => SApply s st c ck | None => SWaitFor s st c index end) y))
        (next_failed s st c)
  | SWaitFor s st c index, EvWaitFor => on_queue (WaitFor index) y (fun ch y => Val (set_pc (SWait s st c index ch) y)) (next_failed s st c)
  | SWait s st c index ch, EvWake => wake s st c index ch y
  | SWait s st c index ch, EvTimeout => next_failed s st c errTimeout (observe (ObTimedOut s) y)
  | SApply s st c ck, EvApply resp elapsed => apply_response s st c ck resp elapsed (observe (ObApplied s ck resp) y)
  | SInfo s st c, EvInfo resp =>
      or_return s (verifyApp s (ver_App (sv_Consensus (sm_Version st))) resp) (fun _ y => sync_return s (Val (st, c)) y) (observe (ObInfo resp) y)
  | _, _ => Val y
  end.

(** ** The other goroutines *)

Definition AddChunk (c : chunk) (y : syncer) : go syncer :=
  if sy_active y then
    on_queue (Queue_Add (Some c)) y (fun added y => Val (if added : bool then observe (ObReceived c) y else y)) (fun _ y => Val y)
  else Val y.
Definition AddSnapshot (peerID : NodeID) (s : snapshot) (y : syncer) : syncer := set_pool (Pool_Add (sy_pool y) peerID s).1 y.
Definition Syncer_RemovePeer (peerID : NodeID) (y : syncer) : syncer := set_pool (RemovePeer (sy_pool y) peerID) y.

(** The message goes to a peer of the snapshot, if it has one. *)
Definition requestChunk (s : snapshot) (index rand : Z) (y : syncer) : go syncer :=
  peer ← GetPeer (sy_pool y) s rand;
  Val (if bool_decide (peer = "") then y else observe (ObRequested peer s index) y).

(** What wakes a fetcher: its own progress (with the random number of [GetPeer]), its channel, its
    ticker, the end of its sleep, and its context. *)
Inductive fetch_event := FeStep (rand : Z) | FeWake | FeTick | FeSlept | FeStop.

Definition set_fetcher (i : nat) (f : fetcher) (pc : fetch_pc) (y : syncer) : syncer :=
  set_fetchers (<[i := mkFetcher pc (f_snapshot f) (f_cancelled f) (f_live f)]> (sy_fetchers y)) y.
(** A method of the fetcher's queue; once replaced, that queue is closed. *)
Definition on_fetch_queue {A} (f : fetcher) (m : CQ A) (closed : outcome ChunkError A) (y : syncer) (k : outcome ChunkError A -> syncer -> go syncer) : go syncer :=
  if f_live f then
    on_queue m y (fun a y => k (Val a) y) (fun e y => k (Fail e) y)
  else k closed y.

Definition fetch_step (i : nat) (ev : fetch_event) (y : syncer) : go syncer :=
  match sy_fetchers y !! i with
  | None => Val y
  | Some f =>
      let goto pc y : go syncer := Val (set_fetcher i f pc y) in
      match f_pc f, ev with
      | FAllocate, FeStep _ =>
          on_fetch_queue f Allocate (Fail errDone) y (fun r y =>
            match r with Val index => goto (FRequest index) y | Fail errDone => goto FSleep y | _ => goto FStopped y end)
      | FSleep, FeSlept => goto FAllocate y
      | FRequest index, FeStep rand => y ← requestChunk (f_snapshot f) index rand y; goto (FWaitFor index) y
      | FWaitFor index, FeStep _ =>
          on_fetch_queue f (WaitFor index) (Val 0%nat) y (fun r y => match r with Val ch => goto (FSelect index ch) y | _ => goto FStopped y end)
      | FSelect index ch, FeWake =>
          if f_live f then
            q ← deref (sy_queue y);
            match recv_on q ch with Some _ => goto FAllocate y | None => Val y end
          else goto FAllocate y
      | FSelect index ch, FeTick => goto (FRequest index) y
      | FSleep, FeStop | FSelect _ _, FeStop => if f_cancelled f then goto FStopped y else Val y
      | _, _ => Val y
      end
  end.

Inductive event :=
  | EvRoutine (ev : sync_event)
  | EvChunk (c : chunk)
  | EvSnapshot (peerID : NodeID) (s : snapshot)
  | EvRemovePeer (peerID : NodeID)
  | EvFetch (i : nat) (ev : fetch_event).
Definition sync_step (cfg : SyncConfig) (y : syncer) (ev : event) : go syncer :=
  match ev with
  | EvRoutine ev => routine_step cfg y ev
  | EvChunk c => AddChunk c y
  | EvSnapshot peerID s => Val (AddSnapshot peerID s y)
  | EvRemovePeer peerID => Val (Syncer_RemovePeer peerID y)
  | EvFetch i ev => fetch_step i ev y
  end.
Fixpoint sync_run (cfg : SyncConfig) (y : syncer) (evs : list event) : go syncer :=
  match evs with [] => Val y | ev :: evs => y ← sync_step cfg y ev; sync_run cfg y evs end.
End sync.
