(* ===== verification/StateSyncProofs.v ===== *)
(** * State sync restores what it verified

    An invariant of the machine of StateSync.v under any interleaving of its goroutines, and what it
    gives: what is known when [SyncAny] succeeds, how chunks reach the application, that rejections
    are honoured, and the one way in which the goroutine panics. *)
From Stdlib Require Import ZArith Lia Strings.Byte Strings.String.
From stdpp Require Import base list strings gmap.
From S2P Require Import Prelude.
From S2P Require Import StateOutcome.
From S2P Require Import Merkle.
From S2P Require Import MerkleProofs.
From S2P Require Import Types.
From S2P Require Import Header.
From S2P Require Import Block.
From S2P Require Import ChainState.
From S2P Require Import PeerManager.
From S2P Require Import SnapshotPool.
From S2P Require Import SnapshotPoolProofs.
From S2P Require Import ChunkQueue.
From S2P Require Import ChunkQueueProofs.
From S2P Require Import StateSync.

(** ** Properties of traces *)

(** The application was offered [s] and accepted it, and was offered nothing since. *)
Definition offered (tr : list observed) (s : snapshot) : Prop :=
  exists l1 peers l2, tr = l1 ++ ObOffered s (Some OfferAccept) peers :: l2 /\ forall s' r ps, ObOffered s' r ps ∉ l1.

(** What may follow the acceptance of chunk [i] without undoing it. *)
Definition leaves_chunk (i : Z) (o : observed) : Prop :=
  match o with
  | ObOffered _ _ _ => False
  | ObApplied _ c r => ck_Index c <> i /\ forall resp, r = Some resp -> i ∉ ra_RefetchChunks resp
  | _ => True
  end.
(** Since the last offer, the application accepted chunk [i] and did not ask for it again. *)
Definition accepted_since (tr : list observed) (i : Z) : Prop :=
  exists l1 s c resp l2, tr = l1 ++ ObApplied s c (Some resp) :: l2 /\ ck_Index c = i /\ ra_Result resp = ApplyAccept /\ (i ∉ ra_RefetchChunks resp) /\
    Forall (leaves_chunk i) l1.

Lemma accepted_cons tr i o : leaves_chunk i o -> accepted_since tr i -> accepted_since (o :: tr) i.
Proof. intros Ho (l1 & s & c & resp & l2 & -> & ? & ? & ? & ?). exists (o :: l1), s, c, resp, l2. split_and!; try done. by constructor. Qed.
Lemma accepted_now tr s c resp : ra_Result resp = ApplyAccept -> ck_Index c ∉ ra_RefetchChunks resp -> accepted_since (ObApplied s c (Some resp) :: tr) (ck_Index c).
Proof. intros. exists [], s, c, resp, tr. split_and!; try done. Qed.
Lemma offered_cons tr s o : (forall s' r ps, o <> ObOffered s' r ps) -> offered tr s -> offered (o :: tr) s.
Proof.
  intros Ho (l1 & peers & l2 & -> & Hl). exists (o :: l1), peers, l2. split; [done|]. intros s' r ps [Heq|Hin]%elem_of_cons; [by apply (Ho s' r ps)|by apply (Hl s' r ps)].
Qed.

(** What an answer rejects.  A snapshot: a REJECT of its offer, a REJECT_SNAPSHOT of one of its
    chunks, a chunk that does not arrive in time, and an error of the state provider that leaves it
    witnesses and is not due to the end of the sync. *)
Definition drops_snapshot (o : observed) : option snapshot :=
  match o with
  | ObOffered s (Some OfferReject) _ => Some s
  | ObApplied s _ (Some resp) => if decide (ra_Result resp = ApplyRejectSnapshot) then Some s else None
  | ObTimedOut s => Some s
  | ObFailed s false false => Some s
  | _ => None
  end.
(** A format: a REJECT_FORMAT of an offer. *)
Definition drops_format (o : observed) : option Z := match o with ObOffered s (Some OfferRejectFormat) _ => Some (s_Format s) | _ => None end.
(** Peers: a REJECT_SENDER of an offer, those that have announced the snapshot; and those that the
    answer to a chunk names. *)
Definition drops_peers (o : observed) : list NodeID :=
  match o with
  | ObOffered _ (Some OfferRejectSender) peers => peers
  | ObApplied _ _ (Some resp) => ra_RejectSenders resp
  | _ => []
  end.

Section sync.
Context `{!Sha256, !RankOrders}.

(** The application has restored the snapshot: the provider gave its app hash, state and commit, the
    application accepted the offer with that hash and every chunk since, and then reported the
    hash, the height and the version of that state. *)
Definition restored (tr : list observed) (st : State) (c : Commit) : Prop :=
  exists s info l rest,
    tr = l ++ ObInfo (Some info) :: rest /\ (forall o, o ∈ l -> exists peer s i, o = ObRequested peer s i) /\
    ObAppHash (s_Height s) (s_trustedAppHash s) ∈ rest /\ ObState (s_Height s) st ∈ rest /\ ObCommit (s_Height s) c ∈ rest /\
    offered rest s /\ (forall i, 0 <= i < s_Chunks s -> accepted_since rest i) /\
    ri_LastBlockAppHash info = s_trustedAppHash s /\ uint64 (ri_LastBlockHeight info) = s_Height s /\
    ri_AppVersion info = ver_App (sv_Consensus (sm_Version st)).

(** What holds of an observation, given those before it.  An offered snapshot and its format were
    not rejected; a chunk applied was received as it is, is one of the snapshot on offer, and all
    chunks before it are accepted; the chunk waited for in vain is one of the snapshot on offer;
    a request goes to a peer that was not rejected. *)
Definition event_ok (before : list observed) (o : observed) : Prop :=
  match o with
  | ObOffered s' _ _ =>
      ObAppHash (s_Height s') (s_trustedAppHash s') ∈ before /\
      (forall o s, o ∈ before -> drops_snapshot o = Some s -> Key s' <> Key s) /\
      (forall o format, o ∈ before -> drops_format o = Some format -> s_Format s' <> format)
  | ObApplied s ck _ =>
      ObReceived ck ∈ before /\ (forall j, 0 <= j < ck_Index ck -> accepted_since before j) /\
      offered before s /\ ck_Height ck = s_Height s /\ ck_Format ck = s_Format s /\ 0 <= ck_Index ck < s_Chunks s
  | ObTimedOut s => offered before s
  | ObRequested peer s i =>
      0 <= i < s_Chunks s /\ peer <> "" /\ forall o, o ∈ before -> peer ∉ drops_peers o
  | _ => True
  end.
Fixpoint trace_ok (tr : list observed) : Prop :=
  match tr with [] => True | o :: tr => event_ok tr o /\ trace_ok tr end.

Lemma trace_ok_split l1 o l2 : trace_ok (l1 ++ o :: l2) -> event_ok l2 o.
Proof. induction l1 as [|o' l1 IH]; cbn; [by intros []|intros [_ ?]; auto]. Qed.

(** ** The invariant *)

Definition allowed (p : snapshotPool) (s : snapshot) : Prop := (Key s ∉ sp_snapshotBlacklist p) /\ s_Format s ∉ sp_formatBlacklist p.

(** The rejections in the trace are in the blacklists, but for the answer [e] that is being handled. *)
Definition rejecting (err : SyncError) : Prop := err = errRejectSnapshot \/ err = errFetch errTimeout.
Definition honoured_but (e : option (snapshot * SyncError)) (p : snapshotPool) (tr : list observed) : Prop :=
  (forall o s, o ∈ tr -> drops_snapshot o = Some s -> Key s ∈ sp_snapshotBlacklist p \/ exists err, e = Some (s, err) /\ rejecting err) /\
  (forall o format, o ∈ tr -> drops_format o = Some format ->
     format ∈ sp_formatBlacklist p \/ exists s, e = Some (s, errRejectFormat) /\ format = s_Format s) /\
  (forall o id, o ∈ tr -> id ∈ drops_peers o -> id <> "" ->
     id ∈ sp_peerBlacklist p \/ exists s, e = Some (s, errRejectSender) /\ id ∈ GetPeers p s).

(** The queue of a snapshot holds chunks as they were received. *)
Definition session (s : snapshot) (oq : option chunkQueue) (tr : list observed) (P : chunkQueue -> Prop) : Prop :=
  exists q, oq = Some q /\ queue_ok s q /\ (forall i ck, chunk_at s q i = Some ck -> ObReceived ck ∈ tr) /\ P q.
Definition untouched (q : chunkQueue) : Prop := cq_chunkReturned q = ∅.
(** Every chunk returned, but for the one in hand, is accepted and present. *)
Definition progress (tr : list observed) (cur : option Z) (q : chunkQueue) : Prop :=
  forall i, i ∈ cq_chunkReturned q -> cur = Some i \/ (accepted_since tr i /\ i ∈ cq_chunkFiles q).
Definition upto (s : snapshot) (i : Z) (q : chunkQueue) : Prop :=
  0 <= i < s_Chunks s /\ i ∈ cq_chunkReturned q /\ forall j, 0 <= j < i -> j ∈ cq_chunkReturned q.

Definition knows (tr : list observed) (s : snapshot) : Prop := ObAppHash (s_Height s) (s_trustedAppHash s) ∈ tr.
Definition settled (tr : list observed) (s : snapshot) (st : State) (c : Commit) : Prop :=
  knows tr s /\ offered tr s /\ ObState (s_Height s) st ∈ tr /\ ObCommit (s_Height s) c ∈ tr.

Definition pc_ok (pc : sync_pc) (p : snapshotPool) (oq : option chunkQueue) (active : bool) (tr : list observed) : Prop :=
  match pc with
  | SChoose => oq = None /\ active = false
  | SRetry s => active = false /\ allowed p s /\ session s oq tr untouched
  | SAppHash s => active = true /\ allowed p s /\ session s oq tr untouched
  | SOffer s => active = true /\ allowed p s /\ session s oq tr untouched /\ knows tr s
  | SState s => active = true /\ allowed p s /\ session s oq tr untouched /\ knows tr s /\ offered tr s
  | SCommit s st => active = true /\ allowed p s /\ session s oq tr untouched /\ knows tr s /\ offered tr s /\ ObState (s_Height s) st ∈ tr
  | SNext s st c => active = true /\ allowed p s /\ session s oq tr (progress tr None) /\ settled tr s st c
  | SWaitFor s st c i => active = true /\ allowed p s /\ session s oq tr (fun q => progress tr (Some i) q /\ upto s i q) /\ settled tr s st c
  | SWait s st c i ch =>
      active = true /\ allowed p s /\ session s oq tr (fun q => progress tr (Some i) q /\ upto s i q /\ waiting q i ch) /\ settled tr s st c
  | SApply s st c ck =>
      active = true /\ allowed p s /\
      session s oq tr (fun q => progress tr (Some (ck_Index ck)) q /\ upto s (ck_Index ck) q /\ chunk_at s q (ck_Index ck) = Some ck) /\ settled tr s st c
  | SInfo s st c =>
      active = true /\ allowed p s /\ session s oq tr (fun _ => True) /\ settled tr s st c /\ (forall i, 0 <= i < s_Chunks s -> accepted_since tr i)
  | SDone r => active = false /\ (forall q, oq = Some q -> cq_snapshot q = None) /\ (forall st c, r = Val (st, c) -> restored tr st c)
  end.

Definition fetcher_ok (oq : option chunkQueue) (f : fetcher) : Prop :=
  (f_live f = true -> exists q, oq = Some q /\ forall s, cq_snapshot q = Some s -> s_Chunks s = s_Chunks (f_snapshot f)) /\
  match f_pc f with FRequest i | FWaitFor i | FSelect i _ => 0 <= i < s_Chunks (f_snapshot f) | _ => True end.

Record sync_ok_but (e : option (snapshot * SyncError)) (y : syncer) : Prop := {
  so_pool : snapshots_ok (sy_pool y);
  so_honoured : honoured_but e (sy_pool y) (sy_trace y);
  so_trace : trace_ok (sy_trace y);
  so_fetchers : Forall (fetcher_ok (sy_queue y)) (sy_fetchers y)
}.
Definition sync_ok (y : syncer) : Prop :=
  sync_ok_but None y /\ pc_ok (sy_pc y) (sy_pool y) (sy_queue y) (sy_active y) (sy_trace y).

Lemma newSyncer_ok : sync_ok newSyncer.
Proof.
  split; [|done]. split; cbn; [apply newSnapshotPool_ok| |done|constructor].
  split_and!; intros *; by intros []%not_elem_of_nil.
Qed.

(** ** The end of [Sync] *)

Lemma honoured_mono p p' tr : blacklists_le p p' -> honoured_but None p tr -> honoured_but None p' tr.
Proof.
  intros (Hf & Hp & Hs) (H1 & H2 & H3). split_and!.
  - intros o s Hin Hd. destruct (H1 o s Hin Hd) as [?|(? & [=] & _)]. left. by apply Hs.
  - intros o f Hin Hd. destruct (H2 o f Hin Hd) as [?|(? & [=] & _)]. left. by apply Hf.
  - intros o id Hin Hd Hne. destruct (H3 o id Hin Hd Hne) as [?|(? & [=] & _)]. left. by apply Hp.
Qed.
Lemma honoured_done p p' tr s err : blacklists_le p p' ->
  (rejecting err -> Key s ∈ sp_snapshotBlacklist p') -> (err = errRejectFormat -> s_Format s ∈ sp_formatBlacklist p') ->
  (err = errRejectSender -> forall id, id ∈ GetPeers p s -> id <> "" -> id ∈ sp_peerBlacklist p') ->
  honoured_but (Some (s, err)) p tr -> honoured_but None p' tr.
Proof.
  intros (Hlf & Hlp & Hls) Hs Hf Hp (H1 & H2 & H3). split_and!.
  - intros o s' Hin Hd. left. destruct (H1 o s' Hin Hd) as [?|(? & [= -> ->] & Hr)]; [by apply Hls|by apply Hs].
  - intros o f Hin Hd. left. destruct (H2 o f Hin Hd) as [?|(? & [= -> ->] & ->)]; [by apply Hlf|by apply Hf].
  - intros o id Hin Hd Hne. left. destruct (H3 o id Hin Hd Hne) as [?|(? & [= -> ->] & Hg)]; [by apply Hlp|by apply Hp].
Qed.
(** The next observation, an answer that is about to be handled with the error [err]. *)
Lemma honoured_answer p tr s err o :
  (forall s', drops_snapshot o = Some s' -> s' = s /\ rejecting err) -> (forall f, drops_format o = Some f -> f = s_Format s /\ err = errRejectFormat) ->
  (forall id, id ∈ drops_peers o -> id <> "" -> id ∈ sp_peerBlacklist p \/ (err = errRejectSender /\ id ∈ GetPeers p s)) ->
  honoured_but None p tr -> honoured_but (Some (s, err)) p (o :: tr).
Proof.
  intros Hs Hf Hp (H1 & H2 & H3). split_and!.
  - intros o' s' [->|Hin]%elem_of_cons Hd; [right; destruct (Hs s' Hd) as [-> ?]; eauto|left]. by destruct (H1 o' s' Hin Hd) as [?|(? & [=] & _)].
  - intros o' f [->|Hin]%elem_of_cons Hd; [right; destruct (Hf f Hd) as [-> ->]; eauto|left]. by destruct (H2 o' f Hin Hd) as [?|(? & [=] & _)].
  - intros o' id [->|Hin]%elem_of_cons Hd Hne; [destruct (Hp id Hd Hne) as [?|[-> ?]]; [by left|right; eauto]|left].
    by destruct (H3 o' id Hin Hd Hne) as [?|(? & [=] & _)].
Qed.

Lemma session_mono s oq tr (P Q : chunkQueue -> Prop) : (forall q, P q -> Q q) -> session s oq tr P -> session s oq tr Q.
Proof. intros HPQ (q & ? & ? & ? & ?). exists q. auto. Qed.
Lemma session_any s oq tr P : session s oq tr P -> session s oq tr (fun _ => True).
Proof. by apply session_mono. Qed.
Lemma close_session s oq tr P : session s oq tr P -> exists q', close_queue oq = Val (Some q') /\ cq_snapshot q' = None.
Proof.
  intros (q & -> & Hq & _). destruct (Queue_Close_spec s q (or_introl Hq)) as (q' & Hc & Hn). exists q'. cbn. by rewrite Hc.
Qed.

Lemma RejectPeers_ok ids p : snapshots_ok p -> snapshots_ok (foldl RejectPeer p ids) /\ blacklists_le p (foldl RejectPeer p ids) /\
  forall id, id ∈ ids -> id <> "" -> id ∈ sp_peerBlacklist (foldl RejectPeer p ids).
Proof.
  revert p. induction ids as [|id ids IH]; intros p Hp; cbn; [split_and!; try done; by intros id []%not_elem_of_nil|].
  destruct (IH _ (RejectPeer_ok p id Hp)) as (? & Hle & Hall). split_and!; [done|etrans; [apply (snap_step_blacklists p (OpRejectPeer id))|exact Hle]|].
  intros id' [->|?]%elem_of_cons Hne; [|auto]. destruct Hle as (_ & Hpb & _). apply Hpb. by apply (rejected_blacklisted _ (OpRejectPeer id)).
Qed.

(** Fetchers whose queue is given up, or closed, or whose context is cancelled. *)
Lemma fetchers_drop oq fs : Forall (fetcher_ok oq) fs -> Forall (fetcher_ok None) ((fun f => mkFetcher (f_pc f) (f_snapshot f) (f_cancelled f) false) <$> fs).
Proof. intros Hf. rewrite Forall_fmap. eapply Forall_impl; [exact Hf|]. intros f [_ Hpc]. by split. Qed.
Lemma fetchers_cancel oq fs : Forall (fetcher_ok oq) fs -> Forall (fetcher_ok oq) (cancel_fetchers fs).
Proof. intros Hf. unfold cancel_fetchers. rewrite Forall_fmap. eapply Forall_impl; [exact Hf|]. intros f [Hl Hpc]. by split. Qed.
Lemma fetchers_queue oq q q' fs :
  oq = Some q -> (forall s', cq_snapshot q' = Some s' -> exists s, cq_snapshot q = Some s /\ s_Chunks s' = s_Chunks s) ->
  Forall (fetcher_ok oq) fs -> Forall (fetcher_ok (Some q')) fs.
Proof.
  intros -> Hq Hf. eapply Forall_impl; [exact Hf|]. intros f [Hl Hpc]. split; [|done]. intros Hlive.
  destruct (Hl Hlive) as (q0 & [= <-] & Hs). exists q'. split; [done|]. intros s' Hs'. destruct (Hq s' Hs') as (s & Hs1 & ->). auto.
Qed.

Ltac y_cbn := cbn [sy_pool sy_queue sy_active sy_pc sy_fetchers sy_avgChunkTime sy_lastHeight sy_trace
  set_pool set_queue set_active set_pc set_fetchers set_avg set_lastHeight observe].

Lemma finish_ok e s r y P :
  sync_ok_but e y -> honoured_but None (sy_pool y) (sy_trace y) -> session s (sy_queue y) (sy_trace y) P -> sy_active y = false ->
  (forall st c, r = Val (st, c) -> restored (sy_trace y) st c) -> exists y', finish r y = Val y' /\ sync_ok y'.
Proof.
  intros [Hp _ Ht Hf] Hh Hs Ha Hr. unfold finish. destruct (close_session _ _ _ _ Hs) as (q' & -> & Hn). go_step. eexists. split; [done|].
  split; y_cbn.
  - split; y_cbn; try done. destruct Hs as (q & Hq & _). eapply fetchers_queue; [exact Hq| |exact Hf]. intros s' Hs'. congruence.
  - split_and!; [done| |done]. by intros q [= <-].
Qed.
Lemma next_iteration_ok e s y P :
  sync_ok_but e y -> honoured_but None (sy_pool y) (sy_trace y) -> session s (sy_queue y) (sy_trace y) P -> sy_active y = false ->
  exists y', next_iteration y = Val y' /\ sync_ok y'.
Proof.
  intros [Hp _ Ht Hf] Hh Hs Ha. unfold next_iteration. destruct (close_session _ _ _ _ Hs) as (q' & -> & Hn). go_step. eexists. split; [done|].
  split; y_cbn; [|done]. split; y_cbn; try done. by eapply fetchers_drop.
Qed.

(** The states in which [Sync] gives up the snapshot with a pool that has handled the answer. *)
Lemma give_up_ok s y e p' P :
  sync_ok_but e y -> session s (sy_queue y) (sy_trace y) P -> snapshots_ok p' -> honoured_but None p' (sy_trace y) ->
  exists y', next_iteration (set_pool p' (set_fetchers (cancel_fetchers (sy_fetchers y)) (set_active false y))) = Val y' /\ sync_ok y'.
Proof.
  intros [Hp _ Ht Hf] Hs Hp' Hh. apply (next_iteration_ok None s _ P); [|done..]. split; y_cbn; try done. by apply fetchers_cancel.
Qed.

Lemma sync_return_ok s r y e P :
  sync_ok_but e y -> (e = None \/ exists err, r = Fail err /\ e = Some (s, err)) -> session s (sy_queue y) (sy_trace y) P -> allowed (sy_pool y) s ->
  (forall w, r <> Panic w) -> (forall st c, r = Val (st, c) -> restored (sy_trace y) st c) ->
  exists y', sync_return s r y = Val y' /\ sync_ok y'.
Proof.
  intros Hy He Hs Hal Hw Hr.
  assert (Hh : forall err p', r = Fail err -> blacklists_le (sy_pool y) p' -> (rejecting err -> Key s ∈ sp_snapshotBlacklist p') ->
    (err = errRejectFormat -> s_Format s ∈ sp_formatBlacklist p') ->
    (err = errRejectSender -> forall id, id ∈ GetPeers (sy_pool y) s -> id <> "" -> id ∈ sp_peerBlacklist p') -> honoured_but None p' (sy_trace y)).
  { intros err p' -> Hle Hrs Hrf Hrp. pose proof (so_honoured _ _ Hy) as Hh. destruct He as [->|(err' & [= <-] & ->)]; [by eapply honoured_mono|].
    by eapply honoured_done. }
  assert (Hfin : forall y', sy_pool y' = sy_pool y -> sy_queue y' = sy_queue y -> sy_trace y' = sy_trace y -> sy_active y' = false ->
    sy_fetchers y' = cancel_fetchers (sy_fetchers y) -> honoured_but None (sy_pool y) (sy_trace y) -> exists y'', finish r y' = Val y'' /\ sync_ok y'').
  { intros y' E1 E2 E3 E4 E5 Hn. apply (finish_ok e s r y' P); rewrite ?E1, ?E2, ?E3; try done.
    split; rewrite ?E1, ?E2, ?E3, ?E5; [apply Hy..|]. apply fetchers_cancel, Hy. }
  unfold sync_return. destruct r as [[st c]|err|w]; [| |by destruct (Hw w)].
  { apply Hfin; try done. destruct He as [->|(? & ? & _)]; [apply Hy|done]. }
  assert (Hother : ~ rejecting err -> err <> errRejectFormat -> err <> errRejectSender ->
    exists y'', finish (Fail err) (set_fetchers (cancel_fetchers (sy_fetchers y)) (set_active false y)) = Val y'' /\ sync_ok y'').
  { intros Hn1 Hn2 Hn3. apply Hfin; try done. by apply (Hh err). }
  assert (Hreject : rejecting err ->
    exists y', next_iteration (set_pool (Pool_Reject (sy_pool y) s) (set_fetchers (cancel_fetchers (sy_fetchers y)) (set_active false y))) = Val y' /\ sync_ok y').
  { intros Herr. apply (give_up_ok s y e _ P); [done..|by apply Pool_Reject_ok, Hy|].
    apply (Hh err); [done|apply (snap_step_blacklists _ (OpReject s))|intros _; apply (rejected_blacklisted _ (OpReject s))|by destruct Herr; subst..]. }
  destruct err as [|e0| | | | | | | | | | | |e0| |e0| |]; try (by apply Hother; [intros [|]|..]); y_cbn.
  - (* retry *)
    eexists. split; [done|]. destruct Hs as (q & Hq & Hok & Hrec & _). destruct Hy as [Hp Hho Ht Hf]. rewrite Hq. cbn.
    split; y_cbn.
    + split; y_cbn; [done| |done|].
      * apply (Hh errRetrySnapshot); [done|done|by intros [|]|done..].
      * apply (fetchers_queue (Some q) q); [done|by eauto|]. rewrite <- Hq. by apply fetchers_cancel.
    + split_and!; [done|done|]. exists (RetryAll q). split_and!; [done| |done|done]. apply set_returned_ok; [done|]. by intros i []%not_elem_of_empty.
  - apply Hreject. by left.
  - apply (give_up_ok s y e _ P); [done..|by apply RejectFormat_ok, Hy|].
    apply (Hh errRejectFormat); [done|apply (snap_step_blacklists _ (OpRejectFormat (s_Format s)))|by intros [|]| |done].
    intros _. apply (rejected_blacklisted _ (OpRejectFormat (s_Format s))).
  - destruct (RejectPeers_ok (GetPeers (sy_pool y) s) (sy_pool y)) as (Hp' & Hle & Hall); [apply Hy|].
    apply (give_up_ok s y e _ P); [done..|]. apply (Hh errRejectSender); [done|done|by intros [|]|done|done].
  - destruct (decide (e0 = errTimeout)) as [->|Hne]; [apply Hreject; by right|]. assert (Hn : ~ rejecting (errFetch e0)) by (intros [|[= ?]]; done). destruct e0; try done; by apply Hother.
Qed.

(** ** The other goroutines *)

Definition is_request (o : observed) : Prop := match o with ObRequested _ _ _ => True | _ => False end.
Definition env_obs (o : observed) : Prop := match o with ObRequested _ _ _ | ObReceived _ => True | _ => False end.
(** How the other goroutines change a queue, when the trace has become [tr]. *)
Definition queue_env (tr : list observed) (q q' : chunkQueue) : Prop :=
  (forall s, queue_ok s q -> queue_ok s q' /\ grows s q q' /\ forall i ck, chunk_at s q' i = Some ck -> chunk_at s q i = Some ck \/ ObReceived ck ∈ tr) /\
  (cq_snapshot q = None -> cq_snapshot q' = None).
Definition oqueue_env (tr : list observed) (oq oq' : option chunkQueue) : Prop :=
  oq' = oq \/ exists q q', oq = Some q /\ oq' = Some q' /\ queue_env tr q q'.

Lemma accepted_env l tr i : Forall env_obs l -> accepted_since tr i -> accepted_since (l ++ tr) i.
Proof. intros Hl Ha. induction Hl as [|o l Ho _ IH]; [done|]. apply accepted_cons; [|done]. by destruct o. Qed.
Lemma offered_env l tr s : Forall env_obs l -> offered tr s -> offered (l ++ tr) s.
Proof. intros Hl Ha. induction Hl as [|o l Ho _ IH]; [done|]. apply offered_cons; [|done]. intros s' r ps ->. done. Qed.
Lemma restored_env l tr st c : Forall is_request l -> restored tr st c -> restored (l ++ tr) st c.
Proof.
  intros Hl (s & info & l' & rest & -> & Hl' & Hrest). exists s, info, (l ++ l'), rest. split_and!; try apply Hrest; [by rewrite <- app_assoc|].
  intros o [Ho|Ho]%elem_of_app; [|auto]. eapply Forall_forall in Hl; [|exact Ho]. destruct o; try done. eauto.
Qed.
Lemma settled_env l tr s st c : Forall env_obs l -> settled tr s st c -> settled (l ++ tr) s st c.
Proof.
  intros Hl (Hk & Ho & Hst & Hc). unfold settled, knows. split_and!; try (apply elem_of_app; by right). by apply offered_env.
Qed.
Lemma session_env s oq oq' tr l (P P' : chunkQueue -> Prop) :
  oqueue_env (l ++ tr) oq oq' -> (forall q q', queue_ok s q -> grows s q q' -> P q -> P' q') -> session s oq tr P -> session s oq' (l ++ tr) P'.
Proof.
  intros Hoq HP (q & Hq & Hok & Hrec & HPq). destruct Hoq as [->|(q0 & q' & Hq0 & -> & Henv & _)].
  - exists q. split_and!; [done|done| |]. { intros i ck Hck%Hrec. apply elem_of_app. by right. } apply (HP q q Hok); [apply grows_refl|done].
  - rewrite Hq in Hq0. injection Hq0 as <-. destruct (Henv s Hok) as (Hok' & Hg & Hnew). exists q'. split_and!; [done|done| |by apply (HP q)].
    intros i ck [Hck%Hrec|?]%Hnew; [|done]. apply elem_of_app. by right.
Qed.

Lemma untouched_grows s q q' : grows s q q' -> untouched q -> untouched q'.
Proof. unfold untouched. by intros [-> _ _ _]. Qed.
Lemma progress_grows s l tr cur q q' : Forall env_obs l -> grows s q q' -> progress tr cur q -> progress (l ++ tr) cur q'.
Proof.
  intros Hl [Hr Hf _ _] Hp i Hi. rewrite Hr in Hi. destruct (Hp i Hi) as [?|[? ?]]; [by left|right]. split; [by apply accepted_env|auto].
Qed.
Lemma upto_grows s i q q' : grows s q q' -> upto s i q -> upto s i q'.
Proof. unfold upto. by intros [-> _ _ _]. Qed.

Lemma pc_ok_env pc p p' oq oq' a tr l :
  pc_ok pc p oq a tr -> sp_snapshotBlacklist p' = sp_snapshotBlacklist p -> sp_formatBlacklist p' = sp_formatBlacklist p ->
  Forall env_obs l -> (a = true \/ Forall is_request l) -> oqueue_env (l ++ tr) oq oq' -> pc_ok pc p' oq' a (l ++ tr).
Proof.
  intros Hpc Hsb Hfb Hl Ha Hoq.
  assert (Hal : forall s, allowed p s -> allowed p' s) by (unfold allowed; intros s; by rewrite Hsb, Hfb).
  assert (Hun : forall s, session s oq tr untouched -> session s oq' (l ++ tr) untouched)
    by (intros s; apply session_env; [done|]; intros q q' _; apply untouched_grows).
  assert (Hkn : forall s, knows tr s -> knows (l ++ tr) s) by (intros s Hk; apply elem_of_app; by right).
  destruct pc as [|s|s|s|s|s st|s st c|s st c i|s st c i ch|s st c ck|s st c|r]; cbn in *.
  - destruct Hoq as [->|(q & q' & -> & _)]; [done|]. by destruct Hpc.
  - destruct Hpc as (? & ? & ?). split_and!; eauto.
  - destruct Hpc as (? & ? & ?). split_and!; eauto.
  - destruct Hpc as (? & ? & ? & ?). split_and!; eauto.
  - destruct Hpc as (? & ? & ? & ? & ?). split_and!; eauto using offered_env.
  - destruct Hpc as (? & ? & ? & ? & ? & ?). split_and!; eauto using offered_env. apply elem_of_app. by right.
  - destruct Hpc as (? & ? & Hse & ?). split_and!; [done|auto| |by apply settled_env]. eapply session_env; [done| |exact Hse].
    intros q q' _. by apply progress_grows.
  - destruct Hpc as (? & ? & Hse & ?). split_and!; [done|auto| |by apply settled_env]. eapply session_env; [done| |exact Hse].
    intros q q' _ Hg [? ?]. split; [by eapply progress_grows|by eapply upto_grows].
  - destruct Hpc as (? & ? & Hse & ?). split_and!; [done|auto| |by apply settled_env]. eapply session_env; [done| |exact Hse].
    intros q q' _ Hg (? & ? & ?). split_and!; [by eapply progress_grows|by eapply upto_grows|by apply Hg].
  - destruct Hpc as (? & ? & Hse & ?). split_and!; [done|auto| |by apply settled_env]. eapply session_env; [done| |exact Hse].
    intros q q' _ Hg (? & ? & ?). split_and!; [by eapply progress_grows|by eapply upto_grows|by apply Hg].
  - destruct Hpc as (? & ? & Hse & ? & ?). split_and!; [done|auto| |by apply settled_env|auto using accepted_env]. by eapply session_env.
  - destruct Hpc as (-> & Hc & Hr). split_and!; [done| |].
    + destruct Hoq as [->|(q & q' & Hq & -> & _ & Hcl)]; [done|]. intros q0 [= <-]. auto.
    + intros st c ->. destruct Ha as [?|?]; [done|]. apply restored_env; auto.
Qed.

(** The queue of any state: none, open for a snapshot, or closed. *)
Lemma pc_queue pc p oq a tr : pc_ok pc p oq a tr ->
  match oq with None => True | Some q => (exists s, queue_ok s q) \/ cq_snapshot q = None end.
Proof.
  destruct oq as [q|]; [|done]. destruct pc as [|s|s|s|s|s st|s st c|s st c i|s st c i ch|s st c ck|s st c|r]; cbn.
  1: by intros [? ?].
  11: by intros (_ & Hc & _); right; apply Hc.
  all: intros Hpc; left; exists s; repeat match goal with H : _ /\ _ |- _ => destruct H end;
    match goal with H : session _ _ _ _ |- _ => destruct H as (q0 & [= <-] & ? & _) end; done.
Qed.
Lemma pc_active pc p oq tr : pc_ok pc p oq true tr -> exists s, session s oq tr (fun _ => True).
Proof.
  destruct pc as [|s|s|s|s|s st|s st c|s st c i|s st c i ch|s st c ck|s st c|r]; cbn; try (by intros (? & _)); try (by intros [_ ?]).
  all: intros Hpc; exists s; repeat match goal with H : _ /\ _ |- _ => destruct H end;
    match goal with H : session _ _ _ _ |- _ => by apply session_any in H end.
Qed.

Definition same_blacklists (p p' : snapshotPool) : Prop :=
  sp_snapshotBlacklist p' = sp_snapshotBlacklist p /\ sp_formatBlacklist p' = sp_formatBlacklist p /\ sp_peerBlacklist p' = sp_peerBlacklist p.

Lemma env_ok y y' l :
  sync_ok y -> sy_pc y' = sy_pc y -> sy_active y' = sy_active y -> sy_trace y' = l ++ sy_trace y ->
  snapshots_ok (sy_pool y') -> same_blacklists (sy_pool y) (sy_pool y') -> Forall env_obs l -> (sy_active y = true \/ Forall is_request l) ->
  trace_ok (l ++ sy_trace y) -> Forall (fetcher_ok (sy_queue y')) (sy_fetchers y') -> oqueue_env (l ++ sy_trace y) (sy_queue y) (sy_queue y') ->
  sync_ok y'.
Proof.
  intros [[Hp (H1 & H2 & H3) Ht Hf] Hpc] Epc Eact Etr Hp' (E1 & E2 & E3) Hl Ha Ht' Hf' Hoq. split.
  - split; rewrite ?Etr; try done.
    assert (Hin : forall o, o ∈ l ++ sy_trace y -> ~ env_obs o -> o ∈ sy_trace y).
    { intros o [Ho|?]%elem_of_app Hn; [|done]. eapply Forall_forall in Hl; [|exact Ho]. done. }
    split_and!; rewrite ?E1, ?E2, ?E3.
    + intros o s Ho Hd. apply (H1 o s); [|done]. apply Hin; [done|]. intros He. by destruct o.
    + intros o f Ho Hd. apply (H2 o f); [|done]. apply Hin; [done|]. intros He. by destruct o.
    + intros o id Ho Hd Hne. left. destruct (H3 o id) as [?|(? & [=] & _)]; try done. apply Hin; [done|]. intros He. destruct o; try done; by apply not_elem_of_nil in Hd.
  - rewrite Epc, Eact, Etr. by eapply pc_ok_env.
Qed.

Lemma queue_ok_unique s s' q : queue_ok s q -> queue_ok s' q -> s = s'.
Proof. intros [Ho _ _ _ _ _] [Ho' _ _ _ _ _]. congruence. Qed.

Lemma Pool_Add_blacklists p id s : same_blacklists p (Pool_Add p id s).1.
Proof.
  unfold Pool_Add. do 3 (case_bool_decide; [done|]). destruct (_ >=? _); [done|]. by destruct (sp_snapshots p !! Key s).
Qed.
Lemma removeSnapshot_same p key : same_blacklists p (removeSnapshot p key).
Proof. unfold removeSnapshot. by destruct (sp_snapshots p !! key). Qed.
Lemma removePeer_same p id : same_blacklists p (removePeer p id).
Proof.
  unfold removePeer, same_blacklists. cbn. induction (elements (inner (sp_peerIndex p) id)) as [|k l IH]; [done|]. cbn.
  unfold forget_peer at 1 3 5. case_bool_decide; [|exact IH].
  match goal with |- context [removeSnapshot ?q k] => destruct (removeSnapshot_same q k) as (-> & -> & ->) end. exact IH.
Qed.

Lemma env_pool_ok y p' : sync_ok y -> snapshots_ok p' -> same_blacklists (sy_pool y) p' -> sync_ok (set_pool p' y).
Proof.
  intros Hy Hp Hb. apply (env_ok y _ []); try done; [by right|apply Hy..|by left].
Qed.

Lemma AddChunk_ok c y : sync_ok y -> exists y', AddChunk c y = Val y' /\ sync_ok y'.
Proof.
  intros Hy. unfold AddChunk. destruct (sy_active y) eqn:Ha; [|by exists y].
  destruct Hy as [Hb Hpc] eqn:EHy. clear EHy. rewrite Ha in Hpc. destruct (pc_active _ _ _ _ Hpc) as (s & q & Hq & Hok & Hrec & _).
  destruct (Queue_Add_spec s q c Hok) as (q' & r & Hrun & Hok' & Hg & Hcase). unfold on_queue. rewrite Hq. cbn [deref]. go_step. rewrite Hrun.
  assert (Hfe : Forall (fetcher_ok (Some q')) (sy_fetchers y)).
  { eapply (fetchers_queue (sy_queue y) q); [done| |apply Hb]. rewrite (qo_open _ _ Hok), (qo_open _ _ Hok'). eauto. }
  destruct Hcase as [[-> Hr]|[-> Hnew]].
  - assert (Hsame : sync_ok (set_queue (Some q) y)).
    { apply (env_ok y _ []); try done; [apply Hb|by left|apply Hb|by left]. }
    destruct Hr as [->|[e ->]]; eauto.
  - eexists. split; [done|]. apply (env_ok y _ [ObReceived c]); try done; [apply Hb|by repeat constructor|by left|split; [done|apply Hb]|].
    right. exists q, q'. split_and!; [done|done|]. split.
    + intros s' Hs'. pose proof (queue_ok_unique _ _ _ Hok Hs') as <-. split_and!; [done|done|]. intros i ck [?| ->]%Hnew; [by left|right; by left].
    + intros Hn. rewrite (qo_open _ _ Hok) in Hn. discriminate Hn.
Qed.

(** ** Fetchers *)

Lemma GetPeer_spec p s rand : exists peer, GetPeer p s rand = Val peer /\ (peer <> "" -> peer ∈ GetPeers p s).
Proof.
  unfold GetPeer. destruct (Z.eqb_spec (len (GetPeers p s)) 0) as [He|He]; [by exists ""|].
  assert (0 < len (GetPeers p s)) by (unfold len in *; lia). pose proof (Z.mod_pos_bound rand (len (GetPeers p s))).
  destruct (zlookup (GetPeers p s) (rand mod len (GetPeers p s))) as [peer|] eqn:E; [|apply zlookup_None in E; lia].
  exists peer. unfold slice_get. rewrite E. split; [done|]. intros _. apply zlookup_Some in E as [_ E]. by eapply list_elem_of_lookup_2.
Qed.
Lemma elem_GetPeers p s id : id ∈ GetPeers p s <-> id ∈ inner (sp_snapshotPeers p) (Key s).
Proof. unfold GetPeers. by rewrite sort_by_perm, elem_of_elements. Qed.

(** A fetcher moves on, and the queue with it. *)
Lemma fetcher_moves y i f pc oq' l tr :
  sync_ok y -> sy_fetchers y !! i = Some f ->
  match pc with FRequest j | FWaitFor j | FSelect j _ => 0 <= j < s_Chunks (f_snapshot f) | _ => True end ->
  Forall is_request l -> tr = l ++ sy_trace y -> trace_ok tr -> oqueue_env tr (sy_queue y) oq' ->
  (forall q', oq' = Some q' -> exists q, sy_queue y = Some q /\ forall s', cq_snapshot q' = Some s' -> exists s, cq_snapshot q = Some s /\ s_Chunks s' = s_Chunks s) ->
  sync_ok (set_fetchers (<[i := mkFetcher pc (f_snapshot f) (f_cancelled f) (f_live f)]> (sy_fetchers y))
    (mkSyncer (sy_pool y) oq' (sy_active y) (sy_pc y) (sy_fetchers y) (sy_avgChunkTime y) (sy_lastHeight y) tr)).
Proof.
  intros Hy Hf Hpc Hl -> Ht Hoq Hq'. apply (env_ok y _ l); try done; [apply Hy|..].
  - eapply Forall_impl; [exact Hl|]. by intros [].
  - by right.
  - y_cbn. assert (Hfs : Forall (fetcher_ok oq') (sy_fetchers y)).
    { destruct Hoq as [->|(q & q' & Hq & -> & _)]; [apply Hy|]. destruct (Hq' q' eq_refl) as (q0 & Hq0 & Hs).
      eapply fetchers_queue; [exact Hq0|exact Hs|apply Hy]. }
    apply Forall_insert; [done|]. eapply Forall_lookup_1 in Hfs as [Hlive _]; [|exact Hf]. by split.
Qed.

(** Calls of the fetchers on a queue that is open or closed. *)
Lemma queue_env_refl tr q : queue_env tr q q.
Proof. split; [|done]. intros s Hs. split_and!; [done|apply grows_refl|]. by left. Qed.
Lemma Allocate_env tr q : (exists s, queue_ok s q) \/ cq_snapshot q = None ->
  exists q' r, Allocate q = (q', r) /\ queue_env tr q q' /\ cq_snapshot q' = cq_snapshot q /\ (forall w, r <> Panic w) /\
    forall i s, r = Val i -> cq_snapshot q = Some s -> 0 <= i < s_Chunks s.
Proof.
  intros [[s Hs]|Hn].
  - destruct (Allocate_spec s q Hs) as (q' & r & Hrun & Hok & Hg & Hcase). exists q', r. split; [done|].
    destruct Hcase as [[-> ->]|(i & -> & Hi & _ & ->)].
    + split_and!; [apply queue_env_refl|done|done|done].
    + split_and!; [|done|done|].
      * split; [|by rewrite (qo_open _ _ Hs)]. intros s' Hs'. pose proof (queue_ok_unique _ _ _ Hs Hs') as <-. split_and!; [done..|]. by left.
      * intros j s' [= <-] Hs'. rewrite (qo_open _ _ Hs) in Hs'. by injection Hs' as <-.
  - exists q, (Fail errDone). unfold Allocate. rewrite (st_run _ _ q q q eq_refl), Hn. split_and!; [done|apply queue_env_refl|done..].
Qed.
Lemma WaitFor_env tr q i : (exists s, queue_ok s q) \/ cq_snapshot q = None ->
  exists q' ch, WaitFor i q = (q', Val ch) /\ queue_env tr q q' /\ cq_snapshot q' = cq_snapshot q.
Proof.
  intros [[s Hs]|Hn].
  - destruct (WaitFor_spec s q i Hs) as (q' & ch & Hrun & Hok & Hg & _ & Hsame). exists q', ch. split; [done|]. split.
    + split; [|by rewrite (qo_open _ _ Hs)]. intros s' Hs'. pose proof (queue_ok_unique _ _ _ Hs Hs') as <-. split_and!; [done..|].
      intros j ck. rewrite Hsame. by left.
    + by rewrite (qo_open _ _ Hs), (qo_open _ _ Hok).
  - unfold WaitFor. rewrite (st_run _ _ q q q eq_refl), Hn. eexists _, _. split_and!; [done| |done].
    split; [|done]. intros s Hs. rewrite (qo_open _ _ Hs) in Hn. discriminate Hn.
Qed.

Lemma fetcher_ok_at y i f : sync_ok y -> sy_fetchers y !! i = Some f -> fetcher_ok (sy_queue y) f.
Proof. intros Hy Hf. eapply Forall_lookup_1; [apply Hy|exact Hf]. Qed.

(** A move that leaves the queue and the trace. *)
Lemma fetcher_goto y i f pc :
  sync_ok y -> sy_fetchers y !! i = Some f ->
  match pc with FRequest j | FWaitFor j | FSelect j _ => 0 <= j < s_Chunks (f_snapshot f) | _ => True end -> sync_ok (set_fetcher i f pc y).
Proof.
  intros Hy Hf Hpc. destruct y. apply (fetcher_moves _ i f pc _ [] _ Hy Hf Hpc); try done; [apply Hy|by left|]. cbn. intros q' ->. exists q'. eauto.
Qed.
(** A call on the queue of a live fetcher. *)
Lemma fetcher_call y i f {A} (m : CQ A) (k : outcome ChunkError A -> fetch_pc) :
  sync_ok y -> sy_fetchers y !! i = Some f -> f_live f = true ->
  (forall q, sy_queue y = Some q -> exists q' r, m q = (q', r) /\ queue_env (sy_trace y) q q' /\ cq_snapshot q' = cq_snapshot q /\ (forall w, r <> Panic w) /\
     match k r with FRequest j | FWaitFor j | FSelect j _ => 0 <= j < s_Chunks (f_snapshot f) | _ => True end) ->
  exists y', on_queue m y (fun a y => Val (set_fetcher i f (k (Val a)) y)) (fun e y => Val (set_fetcher i f (k (Fail e)) y)) = Val y' /\ sync_ok y'.
Proof.
  intros Hy Hf Hlive Hm. destruct (fetcher_ok_at y i f Hy Hf) as [Hl _]. destruct (Hl Hlive) as (q & Hq & _).
  destruct (Hm q Hq) as (q' & r & Hrun & Henv & Hs & Hw & Hk). unfold on_queue. rewrite Hq. cbn [deref]. go_step. rewrite Hrun.
  assert (Hok : sync_ok (set_fetcher i f (k r) (set_queue (Some q') y))).
  { apply (fetcher_moves y i f (k r) (Some q') [] (sy_trace y) Hy Hf Hk); try done; [apply Hy|right; eauto|].
    intros q0 [= <-]. exists q. split; [done|]. rewrite Hs. eauto. }
  destruct r as [a|e|w]; [eauto..|by destruct (Hw w)].
Qed.

Lemma fetch_queue_case y q : sync_ok y -> sy_queue y = Some q -> (exists s, queue_ok s q) \/ cq_snapshot q = None.
Proof. intros [_ Hpc] Hq. apply pc_queue in Hpc. by rewrite Hq in Hpc. Qed.

Lemma requestChunk_ok y i f j rand : sync_ok y -> sy_fetchers y !! i = Some f -> 0 <= j < s_Chunks (f_snapshot f) ->
  exists y', (y ← requestChunk (f_snapshot f) j rand y; Val (set_fetcher i f (FWaitFor j) y)) = Val y' /\ sync_ok y'.
Proof.
  intros Hy Hf Hj. unfold requestChunk. destruct (GetPeer_spec (sy_pool y) (f_snapshot f) rand) as (peer & -> & Hpeer). go_step. eexists. split; [done|].
  case_bool_decide as He; [by apply fetcher_goto|].
  assert (Ht : trace_ok (ObRequested peer (f_snapshot f) j :: sy_trace y)).
  { split; [|apply Hy]. split_and!; [lia..|done|]. intros o Hin Hrej. destruct Hy as [[Hp (_ & _ & H3) _ _] _].
    destruct (H3 o peer Hin Hrej He) as [Hb|(? & [=] & _)]. apply Hpeer, elem_GetPeers in He. apply (pi_banned _ _ _ _ Hp peer (Key (f_snapshot f)) Hb).
    apply (pi_peerIndex _ _ _ _ Hp). by left. }
  apply (fetcher_moves y i f (FWaitFor j) (sy_queue y) [ObRequested peer (f_snapshot f) j] _ Hy Hf Hj); try done; [by repeat constructor|by left|].
  intros q' ->. eauto.
Qed.

Lemma fetch_step_ok i ev y : sync_ok y -> exists y', fetch_step i ev y = Val y' /\ sync_ok y'.
Proof.
  intros Hy. unfold fetch_step. destruct (sy_fetchers y !! i) as [f|] eqn:Hf; [|by eauto].
  pose proof (fetcher_ok_at y i f Hy Hf) as [Hl Hpc].
  assert (Hgoto : forall pc, match pc with FRequest j | FWaitFor j | FSelect j _ => 0 <= j < s_Chunks (f_snapshot f) | _ => True end ->
    exists y', Val (E := Empty_set) (set_fetcher i f pc y) = Val y' /\ sync_ok y') by (intros pc Hj; eexists; split; [done|by apply fetcher_goto]).
  destruct (f_pc f) as [| |j|j|j ch|] eqn:Epc, ev as [rand| | | |]; try (by eauto).
  - unfold on_fetch_queue. destruct (f_live f) eqn:Hlive; [|by apply Hgoto].
    pose (k r := match r with Val index => FRequest index | Fail errDone => FSleep | _ => FStopped end).
    destruct (fetcher_call y i f Allocate k Hy Hf Hlive) as (y' & Hrun & Hok).
    { intros q Hq. destruct (Allocate_env (sy_trace y) q (fetch_queue_case y q Hy Hq)) as (q' & r & Ha & He & Hs & Hw & Hi). exists q', r. split_and!; [done..|].
      destruct (Hl eq_refl) as (q0 & Hq0 & Hch). rewrite Hq in Hq0. injection Hq0 as <-.
      destruct r as [j|e|w]; cbn; [|by destruct e|done]. destruct (cq_snapshot q) as [s|] eqn:Es.
      - rewrite <- (Hch s eq_refl). by apply (Hi j s).
      - unfold Allocate in Ha. rewrite (st_run _ _ q q q eq_refl), Es in Ha. discriminate Ha. }
    exists y'. split; [|done]. rewrite <- Hrun. unfold on_queue. destruct (sy_queue y) as [q|]; [|done]. cbn [deref]. go_step.
    destruct (Allocate q) as [q' [a|e|w]]; [done| |done]. by destruct e.
  - destruct (f_cancelled f); [by apply Hgoto|eauto].
  - by apply requestChunk_ok.
  - unfold on_fetch_queue. destruct (f_live f) eqn:Hlive; [|by apply Hgoto].
    pose (k (r : outcome ChunkError nat) := match r with Val ch => FSelect j ch | _ => FStopped end).
    destruct (fetcher_call y i f (WaitFor j) k Hy Hf Hlive) as (y' & Hrun & Hok).
    { intros q Hq. destruct (WaitFor_env (sy_trace y) q j (fetch_queue_case y q Hy Hq)) as (q' & ch & Ha & He & Hs). exists q', (Val ch). by split_and!. }
    exists y'. split; [|done]. rewrite <- Hrun. unfold on_queue. destruct (sy_queue y) as [q|]; [|done]. cbn [deref]. go_step. by destruct (WaitFor j q) as [q' [a|e|w]].
  - destruct (f_live f) eqn:Hlive; [|by apply Hgoto]. destruct (Hl eq_refl) as (q & Hq & _). rewrite Hq. cbn [deref]. go_step.
    destruct (recv_on q ch); [by apply Hgoto|eauto].
  - destruct (f_cancelled f); [by apply Hgoto|eauto].
Qed.

(** ** The goroutine of [SyncAny] *)

Lemma observe_ok e e' y o : sync_ok_but e y -> event_ok (sy_trace y) o -> honoured_but e' (sy_pool y) (o :: sy_trace y) -> sync_ok_but e' (observe o y).
Proof. intros [Hp Hh Ht Hf] Ho Hh'. split; y_cbn; try done. Qed.
(** Observations that reject nothing. *)
Definition plain (o : observed) : Prop := drops_snapshot o = None /\ drops_format o = None /\ drops_peers o = [].
Lemma honoured_plain e p tr o : plain o -> honoured_but e p tr -> honoured_but e p (o :: tr).
Proof.
  intros (N1 & N2 & N3) (H1 & H2 & H3). split_and!.
  - intros o' s [->|?]%elem_of_cons Hd; [congruence|eauto].
  - intros o' f [->|?]%elem_of_cons Hd; [congruence|eauto].
  - intros o' id [->|?]%elem_of_cons Hd; [rewrite N3 in Hd; by apply not_elem_of_nil in Hd|eauto].
Qed.
Lemma honoured_offer p tr s r err : offerSnapshot r = Fail err -> honoured_but None p tr -> honoured_but (Some (s, err)) p (ObOffered s r (GetPeers p s) :: tr).
Proof.
  intros Hr. apply honoured_answer.
  - intros s' Hd. destruct r as [[]|]; simplify_eq/=. split; [done|by left].
  - intros f Hd. destruct r as [[]|]; by simplify_eq/=.
  - intros id Hd _. destruct r as [[]|]; simplify_eq/=; try (by apply not_elem_of_nil in Hd). by right.
Qed.

(** The machine in a state whose queue is given: a step builds the next state from its parts. *)
Lemma sync_ok_build y pc : sync_ok_but None y -> pc_ok pc (sy_pool y) (sy_queue y) (sy_active y) (sy_trace y) -> sync_ok (set_pc pc y).
Proof. intros [] Hpc. split; [by split|done]. Qed.

Lemma finish_idle e y : sync_ok_but None y -> sy_queue y = None -> sy_active y = false -> exists y', finish (Fail e) y = Val y' /\ sync_ok y'.
Proof.
  intros [Hp Hh Ht Hf] Hq Ha. unfold finish. rewrite Hq. go_step. eexists. split; [done|]. split; y_cbn.
  - split; y_cbn; try done. by rewrite Hq in Hf.
  - by split_and!.
Qed.

Lemma choose_ok cfg y : sync_ok y -> sy_pc y = SChoose -> exists y', choose cfg y = Val y' /\ sync_ok y'.
Proof.
  intros [Hb Hpc] Epc. rewrite Epc in Hpc. destruct Hpc as [Hq Ha]. unfold choose.
  assert (Hsame : sync_ok y) by (split; [done|by rewrite Epc]).
  destruct (best_snapshot (sy_pool y) (so_pool _ _ Hb)) as [[_ ->]|(s & m & -> & Hs & _)]; go_step.
  - destruct (_ =? 0); [by apply finish_idle|eauto].
  - destruct (newChunkQueue s) as [q|e|w] eqn:En; [|by apply finish_idle|].
    2:{ unfold newChunkQueue in En. by destruct (s_Chunks s =? 0). }
    apply newChunkQueue_ok in En as (Hok & Hr & Hfi & _). unfold start_sync. y_cbn. rewrite Ha. eexists. split; [done|].
    apply sync_ok_build.
    + destruct Hb as [Hp Hh Ht Hf]. split; y_cbn; try done. eapply Forall_impl; [exact Hf|]. intros f [Hl ?]. split; [|done].
      intros Hlive. destruct (Hl Hlive) as (q0 & Hq0 & _). congruence.
    + y_cbn. split_and!; [done| |].
      * destruct (pi_allowed _ _ _ _ (so_pool _ _ Hb) _ _ Hs) as [? ?]; [by apply not_elem_of_empty|]. by split.
      * exists q. split_and!; [done|done| |done]. intros i ck. unfold chunk_at. rewrite Hfi, lookup_empty. done.
Qed.

Lemma trust_ok s q h : queue_ok s q -> queue_ok (set_trusted s h) (trust h q).
Proof. intros [Ho Hf Hr Ha Hw Hap]. split; cbn; try done. by rewrite Ho. Qed.
Lemma Key_trusted s h : Key (set_trusted s h) = Key s.
Proof. done. Qed.

(** An error of the provider, whether it ends the sync or rejects the snapshot. *)
Lemma provider_failed_ok {A} s (a : Provided A) e y P : sync_ok_but None y -> session s (sy_queue y) (sy_trace y) P -> allowed (sy_pool y) s ->
  provided a = Fail e -> exists y', sync_return s (Fail e) (note_failure s a y) = Val y' /\ sync_ok y'.
Proof.
  intros Hb Hs Hal Ha. destruct a as [|c n]; [done|]. apply (sync_return_ok s _ _ (Some (s, e)) P); try done; [|by eauto|].
  - apply (observe_ok None); [done|done|]. apply honoured_answer; [|done|by intros id []%not_elem_of_nil|apply Hb].
    intros s' Hd. destruct c, n; simplify_eq/=. split; [done|by left].
  - destruct Hs as (q & ? & ? & Hrec & ?). exists q. split_and!; try done. intros i ck Hck. right. by apply (Hrec i ck).
Qed.

Lemma AppHash_ok s a y : sync_ok y -> sy_pc y = SAppHash s ->
  exists y', or_return s (provided a) (fun h y => Val (set_pc (SOffer (set_trusted s h)) (observe (ObAppHash (s_Height s) h) (set_queue (trust h <$> sy_queue y) y)))) (note_failure s a y) = Val y' /\ sync_ok y'.
Proof.
  intros [Hb Hpc] Epc. rewrite Epc in Hpc. destruct Hpc as (Ha & Hal & Hs). unfold or_return.
  destruct (provided a) as [h|e|w] eqn:Ea.
  - destruct a; [|by destruct cancelled, noWitnesses]. cbn [note_failure]. eexists. split; [done|]. destruct Hs as (q & Hq & Hok & Hrec & Hun). apply sync_ok_build.
    + apply (observe_ok None); [|done|apply honoured_plain; [done|apply Hb]]. destruct Hb as [Hp Hh Ht Hf]. split; y_cbn; try done. rewrite Hq. cbn.
      eapply fetchers_queue; [exact Hq| |exact Hf]. intros s' Hs'. cbn in Hs'. destruct (cq_snapshot q); [|done]. injection Hs' as <-. eauto.
    + y_cbn. split_and!; [done|exact Hal|rewrite Hq; cbn|by left]. exists (trust h q). split_and!; [done|by apply trust_ok| |done].
      intros i ck Hck. right. by apply (Hrec i ck).
  - by eapply provider_failed_ok.
  - destruct a as [|[] []]; done.
Qed.

Lemma Offer_ok cfg s r y : sync_ok y -> sy_pc y = SOffer s ->
  exists y', or_return s (offerSnapshot r) (fun _ y => Val (set_pc (SState s) (set_fetchers (sy_fetchers y ++ spawn cfg s) y))) (observe (ObOffered s r (GetPeers (sy_pool y) s)) y) = Val y' /\ sync_ok y'.
Proof.
  intros [Hb Hpc] Epc. rewrite Epc in Hpc. destruct Hpc as (Ha & Hal & Hs & Hk). unfold or_return.
  set (ps := GetPeers (sy_pool y) s). assert (Hev : event_ok (sy_trace y) (ObOffered s r ps)).
  { destruct Hb as [Hp (H1 & H2 & _) Ht Hf], Hal as [Hn1 Hn2]. split_and!; [done| |].
    - intros o s' Hin Hd He. destruct (H1 o s' Hin Hd) as [Hx|(? & [=] & _)]. rewrite <- He in Hx. done.
    - intros o f Hin Hd He. destruct (H2 o f Hin Hd) as [Hx|(? & [=] & _)]. rewrite <- He in Hx. done. }
  assert (Hs' : session s (sy_queue y) (ObOffered s r ps :: sy_trace y) untouched).
  { destruct Hs as (q & Hq & Hok & Hrec & Hun). exists q. split_and!; [done|done| |done]. intros i ck Hck. right. by apply (Hrec i ck). }
  destruct (offerSnapshot r) as [[]|e|w] eqn:Er.
  - assert (r = Some OfferAccept) as -> by (by destruct r as [[]|]). eexists. split; [done|]. apply sync_ok_build.
    + assert (Hb' : sync_ok_but None (observe (ObOffered s (Some OfferAccept) ps) y)).
      { apply (observe_ok None); [done|done|]. apply honoured_plain; [done|apply Hb]. }
      destruct Hb' as [Hp Hh Ht Hf]. split; y_cbn; try done. apply Forall_app. split; [done|]. apply Forall_replicate. split; [|done].
      intros _. destruct Hs as (q & Hq & Hok & _). exists q. split; [done|]. intros s' Hs1. rewrite (qo_open _ _ Hok) in Hs1. by injection Hs1 as <-.
    + y_cbn. split_and!; [done|done|done|by right|]. exists [], ps, (sy_trace y). split; [done|]. by intros s' r ps' []%not_elem_of_nil.
  - apply (sync_return_ok s _ _ (Some (s, e)) untouched); try done; [|by eauto].
    apply (observe_ok None); [done|done|]. apply honoured_offer; [done|apply Hb].
  - by destruct r as [[]|].
Qed.

(** Observing something that is no offer and no chunk applied keeps what a session knows. *)
Lemma session_cons s oq tr o P : session s oq tr P -> session s oq (o :: tr) P.
Proof. intros (q & ? & ? & Hrec & ?). exists q. split_and!; try done. intros i ck Hck. right. by apply (Hrec i ck). Qed.
Lemma knows_cons tr s o : knows tr s -> knows (o :: tr) s.
Proof. intros. by right. Qed.
Lemma settled_cons tr s st c o : (forall s' r ps, o <> ObOffered s' r ps) -> settled tr s st c -> settled (o :: tr) s st c.
Proof. intros Ho (? & ? & ? & ?). split_and!; [by right|by apply offered_cons|by right|by right]. Qed.

Lemma State_ok s a y : sync_ok y -> sy_pc y = SState s ->
  exists y', or_return s (provided a) (fun st y => Val (set_pc (SCommit s st) (observe (ObState (s_Height s) st) y))) (note_failure s a y) = Val y' /\ sync_ok y'.
Proof.
  intros [Hb Hpc] Epc. rewrite Epc in Hpc. destruct Hpc as (Ha & Hal & Hs & Hk & Ho). unfold or_return.
  destruct (provided a) as [st|e|w] eqn:Ea.
  - destruct a; [|by destruct cancelled, noWitnesses]. cbn [note_failure]. eexists. split; [done|]. apply sync_ok_build.
    + apply (observe_ok None); [done|done|]. apply honoured_plain; [done|apply Hb].
    + y_cbn. split_and!; [done|done|by apply session_cons|by apply knows_cons|by apply offered_cons|by left].
  - by eapply provider_failed_ok.
  - destruct a as [|[] []]; done.
Qed.
Lemma Commit_ok s st a y : sync_ok y -> sy_pc y = SCommit s st ->
  exists y', or_return s (provided a) (fun c y => Val (set_pc (SNext s st c) (observe (ObCommit (s_Height s) c) y))) (note_failure s a y) = Val y' /\ sync_ok y'.
Proof.
  intros [Hb Hpc] Epc. rewrite Epc in Hpc. destruct Hpc as (Ha & Hal & Hs & Hk & Ho & Hst). unfold or_return.
  destruct (provided a) as [c|e|w] eqn:Ea.
  - destruct a; [|by destruct cancelled, noWitnesses]. cbn [note_failure]. eexists. split; [done|]. apply sync_ok_build.
    + apply (observe_ok None); [done|done|]. apply honoured_plain; [done|apply Hb].
    + y_cbn. split_and!; [done|done| |split_and!; [by apply knows_cons|by apply offered_cons|by right|by left]].
      eapply session_mono; [|by apply session_cons]. intros q Hun i Hi. rewrite Hun in Hi. by apply not_elem_of_empty in Hi.
  - by eapply provider_failed_ok.
  - destruct a as [|[] []]; done.
Qed.

(** A state with another queue of the same snapshot. *)
Lemma with_queue s q q' y : sync_ok_but None y -> sy_queue y = Some q -> queue_ok s q -> queue_ok s q' -> sync_ok_but None (set_queue (Some q') y).
Proof.
  intros [Hp Hh Ht Hf] Hq Hok Hok'. split; y_cbn; try done. eapply fetchers_queue; [exact Hq| |exact Hf].
  rewrite (qo_open _ _ Hok), (qo_open _ _ Hok'). eauto.
Qed.
Lemma chunk_at_index s q i ck : chunk_at s q i = Some ck -> ck_Index ck = i /\ ck_Height ck = s_Height s /\ ck_Format ck = s_Format s /\ is_Some (cq_files q !! i).
Proof. unfold chunk_at. destruct (cq_files q !! i); [|done]. cbn. intros [= <-]. eauto. Qed.

Lemma Timeout_ok s st c i ch y : sync_ok y -> sy_pc y = SWait s st c i ch ->
  exists y', next_failed s st c errTimeout (observe (ObTimedOut s) y) = Val y' /\ sync_ok y'.
Proof.
  intros [Hb Hpc] Epc. rewrite Epc in Hpc. destruct Hpc as (Ha & Hal & Hs & (_ & Ho & _)). unfold next_failed. rewrite bool_decide_false by done.
  eapply (sync_return_ok s _ _ (Some (s, errFetch errTimeout))); try done; [|by eauto|by apply session_cons].
  apply (observe_ok None); [done|done|]. apply honoured_answer; [|done|by intros id []%not_elem_of_nil|apply Hb]. intros s' [= <-]. split; [done|by right].
Qed.

Lemma Next_ok s st c y : sync_ok y -> sy_pc y = SNext s st c ->
  exists y', on_queue Next_lookup y
    (fun '(index, ck) y => Val (set_pc (match ck with Some ck => SApply s st c ck | None => SWaitFor s st c index end) y))
    (next_failed s st c) = Val y' /\ sync_ok y'.
Proof.
  intros [Hb Hpc] Epc. rewrite Epc in Hpc. destruct Hpc as (Ha & Hal & (q & Hq & Hok & Hrec & Hpr) & Hse). unfold on_queue. rewrite Hq. cbn [deref]. go_step.
  destruct (Next_lookup_spec s q Hok) as [(i & (Hi & Hni & Hlow) & ->)|[Hall ->]].
  - assert (Hok' : queue_ok s (set_returned ({[i]} ∪ cq_chunkReturned q) q)).
    { apply set_returned_ok; [done|]. intros j [->%elem_of_singleton|Hj]%elem_of_union; [done|]. by apply (qo_returned _ _ Hok). }
    assert (Hpr' : progress (sy_trace y) (Some i) (set_returned ({[i]} ∪ cq_chunkReturned q) q)).
    { intros j [->%elem_of_singleton|Hj]%elem_of_union; [by left|]. destruct (Hpr j Hj) as [?|?]; [done|by right]. }
    assert (Hup : upto s i (set_returned ({[i]} ∪ cq_chunkReturned q) q)).
    { split_and!; [lia..|apply elem_of_union; left; by apply elem_of_singleton|]. intros j Hj. apply elem_of_union. right. by apply Hlow. }
    destruct (chunk_at s q i) as [ck|] eqn:Hck; eexists; (split; [done|]); apply sync_ok_build; try (by eapply with_queue); y_cbn.
    + split_and!; [done|done| |done]. exists (set_returned ({[i]} ∪ cq_chunkReturned q) q). destruct (chunk_at_index _ _ _ _ Hck) as [-> _]. by split_and!.
    + split_and!; [done|done| |done]. exists (set_returned ({[i]} ∪ cq_chunkReturned q) q). by split_and!.
  - unfold next_failed. rewrite bool_decide_true by done. eexists. split; [done|]. apply sync_ok_build; [by eapply with_queue|]. y_cbn.
    split_and!; [done|done|by exists q|done|]. intros i Hi. by destruct (Hpr i (Hall i Hi)) as [?|[? _]].
Qed.

Lemma WaitFor_ok s st c i y : sync_ok y -> sy_pc y = SWaitFor s st c i ->
  exists y', on_queue (WaitFor i) y (fun ch y => Val (set_pc (SWait s st c i ch) y)) (next_failed s st c) = Val y' /\ sync_ok y'.
Proof.
  intros [Hb Hpc] Epc. rewrite Epc in Hpc. destruct Hpc as (Ha & Hal & (q & Hq & Hok & Hrec & Hpr & Hup) & Hse). unfold on_queue. rewrite Hq. cbn [deref]. go_step.
  destruct (WaitFor_spec s q i Hok) as (q' & ch & -> & Hok' & Hg & Hw & Hsame). eexists. split; [done|]. apply sync_ok_build; [by eapply with_queue|]. y_cbn.
  split_and!; [done|done| |done]. exists q'. split_and!; [done|done| |by apply (progress_grows s [] _ _ q)|by eapply upto_grows|apply Hw, Hup].
  intros j ck. rewrite Hsame. apply Hrec.
Qed.

Lemma waiting_recv s q i ch : queue_ok s q -> waiting q i ch -> recv_on q ch = None \/ (recv_on q ch = Some true /\ i ∈ cq_chunkFiles q).
Proof.
  intros Hok [(l & Hl & Hc)|[Hc Hi]]; unfold recv_on.
  - destruct (qo_waiters _ _ Hok i l Hl) as (_ & _ & Hall). rewrite Forall_forall in Hall. rewrite (Hall ch Hc). by left.
  - rewrite Hc. by right.
Qed.
Lemma wake_ok s st c i ch y : sync_ok y -> sy_pc y = SWait s st c i ch -> exists y', wake s st c i ch y = Val y' /\ sync_ok y'.
Proof.
  intros Hy Epc. pose proof Hy as [Hb Hpc]. rewrite Epc in Hpc. destruct Hpc as (Ha & Hal & (q & Hq & Hok & Hrec & Hpr & Hup & Hwait) & Hse).
  unfold wake. rewrite Hq. cbn [deref]. go_step. destruct (waiting_recv s q i ch Hok Hwait) as [->|[-> Hi]]; [by eauto|].
  unfold on_queue. rewrite Hq. cbn [deref]. go_step. rewrite (Next_resume_spec s q i Hok).
  assert (Hsame : set_returned ({[i]} ∪ cq_chunkReturned q) q = q).
  { replace ({[i]} ∪ cq_chunkReturned q) with (cq_chunkReturned q); [by destruct q|]. destruct Hup as (_ & Hret & _). clear -Hret. set_solver. }
  rewrite Hsame. destruct (chunk_at s q i) as [ck|] eqn:Hck.
  - cbn [deref]. go_step. eexists. split; [done|]. apply sync_ok_build; [by eapply with_queue|]. y_cbn. destruct (chunk_at_index _ _ _ _ Hck) as [Hidx _].
    split_and!; [done|done| |done]. exists q. rewrite Hidx. by split_and!.
  - apply (qo_files _ _ Hok) in Hi as [body Hbody]. unfold chunk_at in Hck. rewrite Hbody in Hck. discriminate Hck.
Qed.

Lemma verifyApp_val s v resp : verifyApp s v resp = Val tt ->
  exists info, resp = Some info /\ ri_LastBlockAppHash info = s_trustedAppHash s /\ uint64 (ri_LastBlockHeight info) = s_Height s /\ ri_AppVersion info = v.
Proof.
  destruct resp as [info|]; [|done]. cbn [verifyApp]. intros Hv. inv_val. z_bool. exists info.
  split_and!; try done. symmetry. by destruct (bytes_equal_spec (s_trustedAppHash s) (ri_LastBlockAppHash info)).
Qed.
Lemma Info_ok s st c resp y : sync_ok y -> sy_pc y = SInfo s st c ->
  exists y', or_return s (verifyApp s (ver_App (sv_Consensus (sm_Version st))) resp) (fun _ y => sync_return s (Val (st, c)) y) (observe (ObInfo resp) y) = Val y' /\ sync_ok y'.
Proof.
  intros [Hb Hpc] Epc. rewrite Epc in Hpc. destruct Hpc as (Ha & Hal & Hs & (Hk & Ho & Hst & Hc) & Hacc). unfold or_return.
  assert (Hb' : sync_ok_but None (observe (ObInfo resp) y)) by (apply (observe_ok None); [done|done|]; apply honoured_plain; [done|apply Hb]).
  destruct (verifyApp _ _ _) as [[]|e|w] eqn:Ev.
  - apply verifyApp_val in Ev as (info & -> & Hh & Hhe & Hv).
    apply (sync_return_ok s _ _ None (fun _ => True)); try done; [by left|by apply session_cons|].
    intros st' c' [= <- <-]. y_cbn. exists s, info, [], (sy_trace y). split_and!; try done. by intros o []%not_elem_of_nil.
  - apply (sync_return_ok s _ _ None (fun _ => True)); try done; [by left|by apply session_cons].
  - exfalso. destruct resp as [info|]; [|done]. cbn [verifyApp] in Ev.
    by destruct (negb (ri_AppVersion info =? ver_App (sv_Consensus (sm_Version st)))), (negb (bytes_equal (s_trustedAppHash s) (ri_LastBlockAppHash info))),
      (negb (uint64 (ri_LastBlockHeight info) =? s_Height s)).
Qed.

(** ** Answers to a chunk *)

Lemma RejectPeer_allowed p id s : allowed p s -> allowed (RejectPeer p id) s.
Proof.
  unfold RejectPeer, allowed. case_bool_decide; [done|]. pool_cbn. by destruct (removePeer_same p id) as (-> & -> & _).
Qed.
Lemma reject_senders_spec s senders y q :
  sy_queue y = Some q -> queue_ok s q -> snapshots_ok (sy_pool y) -> allowed (sy_pool y) s ->
  exists q' p', reject_senders senders y = Val (set_queue (Some q') (set_pool p' y), None) /\
    queue_ok s q' /\ discards q q' /\ (forall i, i ∈ cq_chunkReturned q -> i ∈ cq_chunkReturned q') /\
    snapshots_ok p' /\ allowed p' s /\ blacklists_le (sy_pool y) p' /\ (forall id, id ∈ senders -> id <> "" -> id ∈ sp_peerBlacklist p').
Proof.
  revert y q. induction senders as [|id senders IH]; intros y q Hq Hok Hp Hal; cbn [reject_senders].
  - exists q, (sy_pool y). split_and!; try done.
    + destruct y. cbn in *. by rewrite Hq.
    + by intros id []%not_elem_of_nil.
  - case_bool_decide as He.
    + destruct (IH y q Hq Hok Hp Hal) as (q' & p' & ? & ? & ? & ? & ? & ? & ? & Hs). exists q', p'. split_and!; try done.
      intros id' [->|?]%elem_of_cons ?; [done|auto].
    + y_cbn. rewrite Hq. cbn [deref]. go_step. destruct (DiscardSender_spec s q id Hok) as (q1 & -> & Hok1 & Hd1 & Hr1).
      destruct (IH (set_queue (Some q1) (set_pool (RejectPeer (sy_pool y) id) y)) q1) as (q' & p' & Hrun & Hok' & Hd' & Hr' & Hp' & Hal' & Hle & Hs); y_cbn;
        [done|done|by apply RejectPeer_ok|by apply RejectPeer_allowed|].
      exists q', p'. split_and!; try done; [by eapply discards_trans|auto| |].
      * etrans; [apply (snap_step_blacklists _ (OpRejectPeer id))|exact Hle].
      * intros id' [->|?]%elem_of_cons ?; [|auto]. destruct Hle as (_ & Hpb & _). apply Hpb. by apply (rejected_blacklisted _ (OpRejectPeer id)).
Qed.

(** The application accepts a chunk and asks again for every chunk marked as returned: given to it
    and neither retried nor discarded since. *)
Definition divides_by_zero (y : syncer) (ev : sync_event) : Prop :=
  exists s st c ck resp elapsed q,
    sy_pc y = SApply s st c ck /\ ev = EvApply (Some resp) elapsed /\ ra_Result resp = ApplyAccept /\ sy_queue y = Some q /\
    forall i, i ∈ cq_chunkReturned q -> i ∈ ra_RefetchChunks resp.

Lemma Applied_event s st c ck y r : sync_ok y -> sy_pc y = SApply s st c ck -> event_ok (sy_trace y) (ObApplied s ck r).
Proof.
  intros [Hb Hpc] Epc. rewrite Epc in Hpc. destruct Hpc as (_ & _ & (q & Hq & Hok & Hrec & Hpr & (Hi & _ & Hlow) & Hck) & (_ & Ho & _)).
  split; [by apply (Hrec (ck_Index ck))|]. split.
  - intros j Hj. destruct (Hpr j (Hlow j Hj)) as [[= Heq]|[? _]]; [lia|done].
  - destruct (chunk_at_index _ _ _ _ Hck) as (_ & ? & ? & _). split_and!; try done; lia.
Qed.

(** The chunks still returned after the answer are accepted. *)
Lemma progress_applied s tr ck resp q q' :
  queue_ok s q -> progress tr (Some (ck_Index ck)) q -> is_Some (cq_files q !! ck_Index ck) -> discards q q' ->
  (forall i, i ∈ ra_RefetchChunks resp -> i ∈ cq_chunkFiles q -> i ∉ cq_chunkReturned q') ->
  forall i, i ∈ cq_chunkReturned q' ->
    i ∈ cq_chunkFiles q' /\ (i <> ck_Index ck -> accepted_since (ObApplied s ck (Some resp) :: tr) i) /\
    (i = ck_Index ck -> ra_Result resp = ApplyAccept -> accepted_since (ObApplied s ck (Some resp) :: tr) i).
Proof.
  intros Hok Hpr Hck Hd Hgone i Hi. pose proof (di_returned _ _ Hd i Hi) as Hi0.
  assert (Hfile : i ∈ cq_chunkFiles q) by (destruct (Hpr i Hi0) as [[= Heq]|[_ ?]]; [apply (qo_files _ _ Hok); by rewrite <- Heq|done]).
  assert (Hno : i ∉ ra_RefetchChunks resp) by (intros Hin; by apply (Hgone i)).
  split_and!.
  - by apply (di_kept _ _ Hd).
  - intros Hne. destruct (Hpr i Hi0) as [[= ?]|[Hacc _]]; [done|]. apply accepted_cons; [|done]. split; [done|]. by intros r [= <-].
  - intros -> Hr. by apply accepted_now.
Qed.

Lemma apply_response_ok s st c ck resp elapsed y : sync_ok y -> sy_pc y = SApply s st c ck ->
  match apply_response s st c ck resp elapsed (observe (ObApplied s ck resp) y) with
  | Val y' => sync_ok y' /\ ~ divides_by_zero y (EvApply resp elapsed)
  | Panic _ => divides_by_zero y (EvApply resp elapsed)
  | Fail _ => False
  end.
Proof.
  intros Hy Epc. pose proof (Applied_event _ _ _ _ _ resp Hy Epc) as Hev. destruct Hy as [Hb Hpc]. rewrite Epc in Hpc.
  destruct Hpc as (Ha & Hal & (q & Hq & Hok & Hrec & Hpr & Hup & Hck) & Hse).
  destruct (chunk_at_index _ _ _ _ Hck) as (_ & _ & _ & Hfile).
  destruct resp as [resp|]; cbn [apply_response].
  2:{ destruct (sync_return_ok s (Fail errApply) (observe (ObApplied s ck None) y) None (fun _ => True)) as (y' & -> & Hok'); try done.
      - apply (observe_ok None); [done|done|]. apply honoured_plain; [done|apply Hb].
      - by left.
      - apply session_cons. exists q. by split_and!.
      - split; [done|]. by intros (? & ? & ? & ? & ? & ? & ? & _ & ? & _). }
  unfold on_queue. y_cbn. rewrite Hq. cbn [deref]. go_step.
  destruct (for_each_discard s q (ra_RefetchChunks resp) Hok) as (q1 & -> & Hok1 & Hd1 & Hgone & Hstay).
  set (y1 := set_queue (Some q1) (observe (ObApplied s ck (Some resp)) y)).
  destruct (reject_senders_spec s (ra_RejectSenders resp) y1 q1) as (q2 & p2 & -> & Hok2 & Hd2 & Hr2 & Hp2 & Hal2 & Hle2 & Hs2);
    [done|done|apply Hb|done|]. go_step. subst y1.
  set (y2 := set_queue (Some q2) (set_pool p2 _)).
  pose proof (discards_trans _ _ _ Hd1 Hd2) as Hd.
  assert (Hb2 : sync_ok_but (Some (s, errRejectSnapshot)) y2 /\ (ra_Result resp <> ApplyRejectSnapshot -> sync_ok_but None y2)).
  { assert (Hh0 : honoured_but None p2 (sy_trace y)) by (eapply honoured_mono; [exact Hle2|apply Hb]).
    assert (Hh : honoured_but (Some (s, errRejectSnapshot)) p2 (ObApplied s ck (Some resp) :: sy_trace y)).
    { apply honoured_answer; [|done|auto|done]. cbn [drops_snapshot]. case_decide; [|done]. intros s' [= <-]. split; [done|by left]. }
    assert (Hhn : ra_Result resp <> ApplyRejectSnapshot -> honoured_but None p2 (ObApplied s ck (Some resp) :: sy_trace y)).
    { intros Hne. destruct Hh as (H1 & H2 & H3), Hh0 as (G1 & _). split_and!.
      - intros o s' [->|Hin]%elem_of_cons Hdr; [cbn [drops_snapshot] in Hdr; by rewrite decide_False in Hdr|eauto].
      - intros o f Hin Hdr. left. by destruct (H2 o f Hin Hdr) as [?|(? & [=] & _)].
      - intros o id Hin Hdr Hn. left. by destruct (H3 o id Hin Hdr Hn) as [?|(? & [=] & _)]. }
    assert (Hfe : Forall (fetcher_ok (Some q2)) (sy_fetchers y)).
    { eapply fetchers_queue; [exact Hq| |apply Hb]. rewrite (qo_open _ _ Hok), (qo_open _ _ Hok2). eauto. }
    split; [|intros Hne]; (split; subst y2; y_cbn; [done|auto|split; [done|apply Hb]|done]). }
  destruct Hb2 as [Hb2r Hb2].
  assert (Hrec2 : forall i ck', chunk_at s q2 i = Some ck' -> ObReceived ck' ∈ sy_trace y2).
  { intros i ck' Hc. right. apply (Hrec i ck'). revert Hc. unfold chunk_at. destruct (cq_files q2 !! i) as [body|] eqn:Eb; [|done]. cbn. intros [= <-].
    destruct (di_files _ _ Hd i body Eb) as [-> ->]. done. }
  assert (Hsess : forall P : chunkQueue -> Prop, P q2 -> session s (sy_queue y2) (sy_trace y2) P) by (intros P HP; by exists q2).
  assert (Hse2 : settled (sy_trace y2) s st c) by (by apply settled_cons).
  assert (Hpr2 : forall i, i ∈ cq_chunkReturned q2 -> i ∈ cq_chunkFiles q2 /\ (i <> ck_Index ck -> accepted_since (sy_trace y2) i) /\
    (i = ck_Index ck -> ra_Result resp = ApplyAccept -> accepted_since (sy_trace y2) i)).
  { apply (progress_applied s (sy_trace y) ck resp q q2); try done. intros i Hi Hf Hr. apply (Hgone i Hi Hf). by apply (di_returned _ _ Hd2). }
  assert (Hret : forall err, ra_Result resp <> ApplyRejectSnapshot -> exists y', sync_return s (Fail err) y2 = Val y' /\ sync_ok y').
  { intros err Hne. specialize (Hb2 Hne). apply (sync_return_ok s _ y2 None (fun _ => True)); try done; [by left|by apply Hsess]. }
  assert (Hno : ra_Result resp <> ApplyAccept -> ~ divides_by_zero y (EvApply (Some resp) elapsed)).
  { intros Hne (? & ? & ? & ? & ? & ? & ? & _ & [= <- <-] & ? & _). done. }
  destruct (ra_Result resp) eqn:Er; cbn [apply_result]; try specialize (Hb2 ltac:(done)).
  - destruct (Hret errUnknownResult) as (y' & -> & Hy'); [done|]. auto.
  - subst y2. y_cbn. cbn [deref]. go_step. unfold average, numChunksReturned.
    destruct (Z.eqb_spec (Z.of_nat (size (cq_chunkReturned q2))) 0) as [Hz|Hz]; go_step.
    + exists s, st, c, ck, resp, elapsed, q. split_and!; try done. intros i Hi. destruct (decide (i ∈ ra_RefetchChunks resp)) as [|Hn]; [done|].
      exfalso. assert (Hi2 : i ∈ cq_chunkReturned q2) by (apply Hr2, Hstay; done).
      assert (size (cq_chunkReturned q2) = 0%nat) as Hs%size_empty_iff by lia. by apply Hs, not_elem_of_empty in Hi2.
    + split.
      * apply sync_ok_build; [by destruct Hb2; split|]. y_cbn. split_and!; [done|done| |done]. apply Hsess. intros i Hi. right.
        destruct (Hpr2 i Hi) as (Hf & Hne & Heq). split; [|done]. destruct (decide (i = ck_Index ck)); auto.
      * intros (s' & st' & c' & ck' & resp' & el & q' & _ & [= <- <-] & _ & Hq' & Hall). rewrite Hq in Hq'. injection Hq' as <-.
        apply Hz. assert (cq_chunkReturned q2 = ∅) as ->; [|done]. apply set_eq. intros i. split; [|by intros []%not_elem_of_empty].
        intros Hi. destruct (Hpr2 i Hi) as (Hf & _). pose proof (di_returned _ _ Hd i Hi) as Hi0. exfalso.
        apply (Hgone i); [by apply Hall|by apply (di_chunkFiles _ _ Hd)|by apply (di_returned _ _ Hd2)].
  - destruct (Hret errAbort) as (y' & -> & Hy'); [done|]. auto.
  - split; [|by apply Hno]. subst y2. y_cbn. cbn [fmap option_fmap option_map].
    assert (Hok3 : queue_ok s (Retry (ck_Index ck) q2)).
    { apply set_returned_ok; [done|]. intros i [Hi _]%elem_of_difference. by apply (qo_returned _ _ Hok2). }
    apply sync_ok_build; [apply (with_queue s q2); [|done..]; by destruct Hb2; split|]. y_cbn. split_and!; [done|done| |done].
    exists (Retry (ck_Index ck) q2). split_and!; [done|done|done|]. intros i [Hi Hn]%elem_of_difference. right.
    destruct (Hpr2 i Hi) as (Hf & Hne & _). split; [|done]. apply Hne. intros ->. apply Hn. by apply elem_of_singleton.
  - destruct (Hret errRetrySnapshot) as (y' & -> & Hy'); [done|]. auto.
  - destruct (sync_return_ok s (Fail errRejectSnapshot) y2 (Some (s, errRejectSnapshot)) (fun _ => True)) as (y' & -> & Hy'); try done; [by eauto|by apply Hsess|]. auto.
Qed.

(** ** Every step *)

Lemma routine_step_ok cfg y ev : sync_ok y ->
  match routine_step cfg y ev with
  | Val y' => sync_ok y' /\ ~ divides_by_zero y ev
  | Panic _ => divides_by_zero y ev
  | Fail _ => False
  end.
Proof.
  intros Hy.
  assert (Hval : forall m : go syncer, (exists y', m = Val y' /\ sync_ok y') -> (forall s st c ck, sy_pc y <> SApply s st c ck) ->
    match m with Val y' => sync_ok y' /\ ~ divides_by_zero y ev | Panic _ => divides_by_zero y ev | Fail _ => False end).
  { intros m (y' & -> & Hok) Hn. split; [done|]. intros (s & st & c & ck & resp & t & q & Hpc & _). by apply (Hn s st c ck). }
  assert (Hidle : (forall resp t, ev <> EvApply resp t) -> sync_ok y /\ ~ divides_by_zero y ev).
  { intros Hn. split; [done|]. intros (s & st & c & ck & resp & t & q & _ & Hev & _). by apply (Hn (Some resp) t). }
  unfold routine_step.
  destruct (sy_pc y) as [|s|s|s|s|s st|s st c|s st c i|s st c i ch|s st c ck|s st c|r] eqn:Epc;
    destruct ev as [|a|r'|a|a| | | | |resp t|resp]; try (by apply Hidle); try (by apply (Hval (Val y)); [eauto|]); try (apply Hval; [|done]).
  - by apply choose_ok.
  - destruct Hy as [Hb Hpc]. rewrite Epc in Hpc. destruct Hpc as (Ha & Hal & Hs). unfold start_sync. rewrite Ha. eexists. split; [done|].
    apply sync_ok_build; [by destruct Hb; split|]. by split_and!.
  - by apply AppHash_ok.
  - by apply Offer_ok.
  - by apply State_ok.
  - by apply Commit_ok.
  - by apply Next_ok.
  - by apply WaitFor_ok.
  - by apply (wake_ok s st c i ch).
  - by apply (Timeout_ok s st c i ch).
  - by apply apply_response_ok.
  - by apply Info_ok.
Qed.

Lemma syncer_step_ok cfg y ev : sync_ok y ->
  match sync_step cfg y ev with
  | Val y' => sync_ok y' /\ (forall e, ev = EvRoutine e -> ~ divides_by_zero y e)
  | Panic _ => exists e, ev = EvRoutine e /\ divides_by_zero y e
  | Fail _ => False
  end.
Proof.
  intros Hy. destruct ev as [e|c|id s|id|i e]; cbn [sync_step].
  - pose proof (routine_step_ok cfg y e Hy) as Hs. destruct (routine_step cfg y e) as [y'|[]|w]; [|eauto].
    destruct Hs as [? ?]. split; [done|]. by intros e' [= <-].
  - by destruct (AddChunk_ok c y Hy) as (y' & -> & ?).
  - split; [|done]. apply env_pool_ok; [done|apply Pool_Add_ok, Hy|apply Pool_Add_blacklists].
  - split; [|done]. apply env_pool_ok; [done|apply pool_removePeer_ok, Hy|apply removePeer_same].
  - by destruct (fetch_step_ok i e y Hy) as (y' & -> & ?).
Qed.
Lemma syncer_run_ok cfg evs y y' : sync_ok y -> sync_run cfg y evs = Val y' -> sync_ok y'.
Proof.
  revert y. induction evs as [|ev evs IH]; intros y Hy; cbn [sync_run]; [by intros [= <-]|].
  intros (y1 & Hstep & Hrun)%bind_val. pose proof (syncer_step_ok cfg y ev Hy) as Hs. rewrite Hstep in Hs. by eapply IH; [apply Hs|].
Qed.
Lemma sync_run_new cfg evs y : sync_run cfg newSyncer evs = Val y -> sync_ok y.
Proof. apply syncer_run_ok, newSyncer_ok. Qed.

(** C22: when [SyncAny] succeeds, in any interleaving of its goroutine with the fetchers and the
    reactor, the state and commit it returns are those the state provider gave for the height of
    a snapshot; the application accepted the offer of that snapshot with the app hash of the
    provider, has since accepted every chunk of it and asked for none again, and then reported
    exactly that app hash, that height and the version in that state. *)
Theorem state_sync_restores (cfg : SyncConfig) (evs : list event) (y : syncer) (st : State) (c : Commit) :
  sync_run cfg newSyncer evs = Val y -> sy_pc y = SDone (Val (st, c)) -> restored (sy_trace y) st c.
Proof. intros [_ Hpc]%sync_run_new Epc. rewrite Epc in Hpc. destruct Hpc as (_ & _ & Hr). by apply Hr. Qed.

(** C23: throughout a sync, in any interleaving: a snapshot is offered with the app hash that the
    provider gave for its height, and never after its rejection, be it by the answer to its offer
    or to one of its chunks, by a timeout or by a failure of the state provider, nor after the
    rejection of its format; a chunk given to the application is one that arrived, with its bytes
    and its sender, belongs to the snapshot on offer, and comes when all chunks before it are
    accepted; a chunk is requested only from a peer that the application has not rejected, neither
    by name in the answer to a chunk nor, in the answer to an offer, as one of the peers that had
    announced the snapshot; and the pool keeps its invariant. *)
Theorem state_sync_orderly (cfg : SyncConfig) (evs : list event) (y : syncer) :
  sync_run cfg newSyncer evs = Val y ->
  snapshots_ok (sy_pool y) /\ forall after o before, sy_trace y = after ++ o :: before -> event_ok before o.
Proof.
  intros [[Hp _ Ht _] _]%sync_run_new. split; [done|]. intros after o before Htr. rewrite Htr in Ht. by eapply trace_ok_split.
Qed.

(** C24: a step of a sync panics exactly when the application accepts a chunk and the same answer
    asks again for every chunk marked as returned, that is, given to it and neither retried nor
    discarded since: the average time per chunk is then divided by zero.  No
    channel is closed or sent on twice, no nil chunk is read and no index is out of range, in any
    interleaving. *)
Theorem state_sync_panics (cfg : SyncConfig) (evs : list event) (y : syncer) (ev : event) :
  sync_run cfg newSyncer evs = Val y ->
  (exists w, sync_step cfg y ev = Panic w) <-> (exists e, ev = EvRoutine e /\ divides_by_zero y e).
Proof.
  intros Hy%sync_run_new. pose proof (syncer_step_ok cfg y ev Hy) as Hs. destruct (sync_step cfg y ev) as [y'|[]|w]; split.
  - by intros [? ?].
  - intros (e & -> & Hd). destruct Hs as [_ Hn]. by destruct (Hn e eq_refl).
  - done.
  - by exists w.
Qed.
End sync.

(** ** Concrete runs *)

#[local] Existing Instances toy_sha256 insertion_ranks.

Definition one_fetcher : SyncConfig := mkSyncConfig 1 0.
Definition sample_snapshot (chunks : Z) : snapshot := mkSnapshot 10 1 chunks [x61] [] [].
Definition sample_chunk (i : Z) (sender : NodeID) : chunk := mkChunk 10 1 i (Some [x62]) sender.
Definition sample_commit : Commit := mkCommit 10 0 nilBlockID [].
Definition sample_hash : bytes := [x68].
Definition answers (r : ApplyResult) (refetch : list Z) (reject : list string) : event :=
  EvRoutine (EvApply (Some (mkApplied r refetch reject)) 5).

(** A peer offers a snapshot, and the application accepts it. *)
Definition begin_sync : list event :=
  [EvRoutine EvLoop; EvRoutine (EvAppHash (Provides sample_hash)); EvRoutine (EvOffer (Some OfferAccept))].
Definition begin_chunks : list event :=
  begin_sync ++ [EvRoutine (EvState (Provides empty_state)); EvRoutine (EvCommit (Provides sample_commit))].
Definition begin_run (chunks : Z) : list event := EvSnapshot "p1" (sample_snapshot chunks) :: begin_chunks.
Definition next_chunk (i : Z) (sender : NodeID) : list event := [EvChunk (sample_chunk i sender); EvRoutine EvNext].

(** A chunk is refetched, a later one is waited for, and the sync succeeds. *)
Definition whole_run : list event :=
  begin_run 2 ++
  [EvFetch 0 (FeStep 0); EvFetch 0 (FeStep 7); EvFetch 0 (FeStep 0)] ++ next_chunk 0 "p1" ++ [answers ApplyAccept [] []; EvFetch 0 FeWake;
   EvRoutine EvNext; EvRoutine EvWaitFor; EvRoutine EvWake; EvChunk (sample_chunk 1 "p1"); EvRoutine EvWake; answers ApplyAccept [0] [];
   EvChunk (sample_chunk 0 "p2"); EvRoutine EvNext; answers ApplyAccept [] []; EvRoutine EvNext;
   EvRoutine (EvInfo (Some (mkInfo 0 10 sample_hash)))].

(** A test of the state after a run. *)
Definition after_run (cfg : SyncConfig) (evs : list event) (test : syncer -> bool) : bool :=
  match sync_run cfg newSyncer evs with Val y => test y | _ => false end.
Lemma run_reaches cfg evs test : after_run cfg evs test = true -> exists y, sync_run cfg newSyncer evs = Val y /\ test y = true.
Proof. unfold after_run. destruct (sync_run cfg newSyncer evs) as [y|e|w]; [|done..]. by exists y. Qed.
Definition succeeded (y : syncer) : bool := match sy_pc y with SDone (Val _) => true | _ => false end.
Definition applying (y : syncer) : bool := match sy_pc y with SApply _ _ _ _ => true | _ => false end.

Lemma state_sync_restores_witness : exists y st c, sync_run one_fetcher newSyncer whole_run = Val y /\ restored (sy_trace y) st c.
Proof.
  destruct (run_reaches one_fetcher whole_run succeeded) as (y & Hrun & Ht); [vm_compute; reflexivity|].
  destruct (sy_pc y) as [| | | | | | | | | | |[[st c]| |]] eqn:Epc; unfold succeeded in Ht; rewrite Epc in Ht; try discriminate Ht.
  exists y, st, c. split; [exact Hrun|]. exact (state_sync_restores one_fetcher whole_run y st c Hrun Epc).
Defined.
(** The senders of the first snapshot are rejected, and the second one, of another peer, is offered. *)
Definition second_offer : list event :=
  [EvSnapshot "p1" (sample_snapshot 2); EvSnapshot "p2" (mkSnapshot 9 1 2 [x61] [] []);
   EvRoutine EvLoop; EvRoutine (EvAppHash (Provides sample_hash)); EvRoutine (EvOffer (Some OfferRejectSender));
   EvRoutine EvLoop; EvRoutine (EvAppHash (Provides sample_hash)); EvRoutine (EvOffer (Some OfferAccept));
   EvFetch 0 (FeStep 0); EvFetch 0 (FeStep 0)].
Lemma state_sync_orderly_witness : exists y peer s i before o, sync_run one_fetcher newSyncer second_offer = Val y /\
  sy_trace y = ObRequested peer s i :: before /\ o ∈ before /\ drops_peers o = ["p1"%string] /\ peer <> "p1"%string.
Proof.
  destruct (run_reaches one_fetcher second_offer (fun y => match sy_trace y with ObRequested _ _ _ :: before => existsb (fun o => bool_decide (drops_peers o = ["p1"%string])) before | _ => false end))
    as (y & Hrun & Ht); [vm_compute; reflexivity|].
  destruct (sy_trace y) as [|[| | | | | | | | |peer s i] before] eqn:Etr; try discriminate Ht. apply existsb_exists in Ht as (o & Ho & Hd). apply list_elem_of_In in Ho. apply bool_decide_eq_true in Hd.
  exists y, peer, s, i, before, o. split; [exact Hrun|]. split; [exact Etr|]. split; [exact Ho|]. split; [exact Hd|]. intros ->.
  destruct (state_sync_orderly one_fetcher second_offer y Hrun) as [_ Hall]. destruct (Hall [] (ObRequested "p1" s i) before Etr) as (_ & _ & Hno).
  apply (Hno o Ho). rewrite Hd. left.
Defined.

(** The application accepts the first chunk and asks for it again: the goroutine panics. *)
Lemma refetch_first_chunk_panics : sync_run one_fetcher newSyncer (begin_run 2 ++ next_chunk 0 "p1" ++ [answers ApplyAccept [0] []]) = Panic "integer divide by zero".
Proof. vm_compute. reflexivity. Qed.
Lemma state_sync_panics_witness :
  exists y, sync_run one_fetcher newSyncer (begin_run 2 ++ next_chunk 0 "p1") = Val y /\ exists e, answers ApplyAccept [0] [] = EvRoutine e /\ divides_by_zero y e.
Proof.
  destruct (run_reaches one_fetcher (begin_run 2 ++ next_chunk 0 "p1") (fun y => negb (is_val (sync_step one_fetcher y (answers ApplyAccept [0] [])))))
    as (y & Hrun & Ht); [vm_compute; reflexivity|].
  exists y. split; [exact Hrun|]. apply (state_sync_panics one_fetcher _ y (answers ApplyAccept [0] []) Hrun).
  destruct (sync_step one_fetcher y (answers ApplyAccept [0] [])) as [?|[]|w]; [discriminate Ht|]. exists w. reflexivity.
Defined.

(** A snapshot without chunks, announced by one peer, ends the whole sync with an error although
    another snapshot could be restored. *)
Lemma zero_chunk_snapshot_ends_sync :
  after_run one_fetcher (EvSnapshot "evil" (mkSnapshot 11 1 0 [x61] [] []) :: EvSnapshot "p1" (sample_snapshot 2) :: [EvRoutine EvLoop])
    (fun y => match sy_pc y with SDone (Fail (errQueue ErrNoChunks)) => true | _ => false end) = true.
Proof. vm_compute. reflexivity. Qed.

(** A chunk of a sender that the application rejected is accepted and applied afterwards. *)
Lemma rejected_sender_chunk_applied :
  after_run one_fetcher (begin_run 2 ++ next_chunk 0 "p2" ++ [answers ApplyAccept [] ["p2"%string]] ++ next_chunk 1 "p2")
    (fun y => match sy_pc y with SApply _ _ _ ck => bool_decide (ck_Sender ck = "p2") && bool_decide ("p2"%string ∈ sp_peerBlacklist (sy_pool y)) | _ => false end) = true.
Proof. vm_compute. reflexivity. Qed.

(** When the application retries the snapshot while a chunk is being fetched, the fetcher stops and
    nobody fetches that chunk again: it stays allocated, and the new fetcher finds nothing to do. *)
Definition retry_run : list event :=
  begin_run 2 ++
  [EvFetch 0 (FeStep 0); EvFetch 0 (FeStep 7); EvFetch 0 (FeStep 0)] ++ next_chunk 0 "p1" ++ [EvFetch 0 FeWake; EvFetch 0 (FeStep 0);
   EvFetch 0 (FeStep 7); EvFetch 0 (FeStep 0); answers ApplyRetrySnapshot [] []; EvFetch 0 FeStop] ++ begin_chunks ++ [EvFetch 1 (FeStep 0)].
Lemma retry_strands_chunk :
  after_run one_fetcher retry_run (fun y =>
    match sy_queue y, f_pc <$> sy_fetchers y with
    | Some q, [FStopped; FSleep] => bool_decide (1 ∈ cq_chunkAllocated q) && negb (bool_decide (1 ∈ cq_chunkFiles q)) && negb (is_val ((Allocate q).2))
    | _, _ => false
    end) = true.
Proof. vm_compute. reflexivity. Qed.
