(* ===== verification/CList.v ===== *)
(** * internal/libs/clist: the linked list transactions are gossiped from

    Elements are objects that point to each other; the list keeps its first and last
    element and its length.  An element that was removed keeps its pointer to the next one,
    so that iterators can go on.  The wait groups and channels that wake waiting
    iterators, and the mutexes, are not modelled. *)
From Stdlib Require Import ZArith Lia Strings.String.
From stdpp Require Import base list strings gmap.
From S2P Require Import Prelude.

Section clist.
Context {A : Type}.

Record CElement := mkCElement { ce_prev : option nat; ce_next : option nat; ce_removed : bool; ce_Value : A }.
Record CList := mkCList { cl_elems : gmap nat CElement; cl_fresh : nat; cl_head : option nat; cl_tail : option nat; cl_len : Z; cl_maxLen : Z }.

Definition MaxLength : Z := MaxInt64.
Definition newWithMax (maxLength : Z) : CList := mkCList ∅ 0 None None 0 maxLength.
Definition CList_New : CList := newWithMax MaxLength.

Definition set_elem (e : nat) (f : CElement -> CElement) (m : gmap nat CElement) : gmap nat CElement := alter f e m.
Definition SetNext (next : option nat) (c : CElement) : CElement := mkCElement (ce_prev c) next (ce_removed c) (ce_Value c).
Definition SetPrev (prev : option nat) (c : CElement) : CElement := mkCElement prev (ce_next c) (ce_removed c) (ce_Value c).
Definition SetRemoved (c : CElement) : CElement := mkCElement (ce_prev c) (ce_next c) true (ce_Value c).

(** The element behind a pointer that is not nil. *)
Definition element (l : CList) (e : nat) : go CElement :=
  match cl_elems l !! e with Some c => Val c | None => Panic "invalid memory address or nil pointer dereference" end.
Definition Next (l : CList) (e : nat) : option nat := cl_elems l !! e ≫= ce_next.
Definition Front (l : CList) : option nat := cl_head l.
Definition Back (l : CList) : option nat := cl_tail l.

Definition PushBack (l : CList) (v : A) : go (CList * nat) :=
  let e := cl_fresh l in
  _ ← panic_if (cl_len l >=? cl_maxLen l) "clist: maximum length list reached";
  match cl_tail l with
  | None => Val (mkCList (<[e := mkCElement None None false v]> (cl_elems l)) (S e) (Some e) (Some e) (cl_len l + 1) (cl_maxLen l), e)
  | Some t => Val (mkCList (set_elem t (SetNext (Some e)) (<[e := mkCElement (Some t) None false v]> (cl_elems l))) (S e) (cl_head l) (Some e) (cl_len l + 1)
                     (cl_maxLen l), e)
  end.

(** [e] is an element made by the list. *)
Definition CList_Remove (l : CList) (e : nat) : go (CList * A) :=
  c ← element l e;
  _ ← panic_if (negb (bool_decide (is_Some (cl_head l))) || negb (bool_decide (is_Some (cl_tail l)))) "Remove(e) on empty CList";
  _ ← panic_if (bool_decide (ce_prev c = None) && negb (bool_decide (cl_head l = Some e))) "Remove(e) with false head";
  _ ← panic_if (bool_decide (ce_next c = None) && negb (bool_decide (cl_tail l = Some e))) "Remove(e) with false tail";
  let elems := cl_elems l in
  let '(elems, hd) := match ce_prev c with None => (elems, ce_next c) | Some p => (set_elem p (SetNext (ce_next c)) elems, cl_head l) end in
  let '(elems, tl) := match ce_next c with None => (elems, ce_prev c) | Some n => (set_elem n (SetPrev (ce_prev c)) elems, cl_tail l) end in
  Val (mkCList (set_elem e SetRemoved elems) (cl_fresh l) hd tl (cl_len l - 1) (cl_maxLen l), ce_Value c).

Definition DetachPrev (l : CList) (e : nat) : go CList :=
  c ← element l e;
  _ ← panic_if (negb (ce_removed c)) "DetachPrev() must be called after Remove(e)";
  Val (mkCList (set_elem e (SetPrev None) (cl_elems l)) (cl_fresh l) (cl_head l) (cl_tail l) (cl_len l) (cl_maxLen l)).

(** ** The list it represents *)

Record clist_rep (l : CList) (refs : list nat) : Prop := {
  crep_nodup : NoDup refs;
  crep_links a x b : refs = a ++ x :: b -> exists c, cl_elems l !! x = Some c /\ ce_prev c = last a /\ ce_next c = head b /\ ce_removed c = false;
  crep_head : cl_head l = head refs;
  crep_tail : cl_tail l = last refs;
  crep_len : cl_len l = len refs;
  crep_fresh x : is_Some (cl_elems l !! x) -> (x < cl_fresh l)%nat
}.

Lemma newWithMax_rep n : clist_rep (newWithMax n) [].
Proof. split; try done; [constructor|by intros [] ? ?|]. intros x Hx. simpl in Hx. rewrite lookup_empty in Hx. by destruct Hx. Qed.

Lemma rep_elem l refs x : clist_rep l refs -> x ∈ refs -> exists c, cl_elems l !! x = Some c /\ ce_removed c = false.
Proof. intros Hr (a & b & ->)%list_elem_of_split. destruct (crep_links _ _ Hr a x b eq_refl) as (c & ? & _ & _ & ?). eauto. Qed.

Lemma set_elem_ne (m : gmap nat CElement) e f x : x <> e -> set_elem e f m !! x = m !! x.
Proof. intros Hne. apply lookup_alter_ne. done. Qed.
Lemma set_elem_is_Some (m : gmap nat CElement) e f x : is_Some (set_elem e f m !! x) <-> is_Some (m !! x).
Proof. unfold set_elem. destruct (decide (e = x)) as [->|Hne]; [rewrite lookup_alter_eq; by rewrite fmap_is_Some|by rewrite lookup_alter_ne]. Qed.
Lemma set_elem_value (m : gmap nat CElement) e f x : (forall c, ce_Value (f c) = ce_Value c) -> ce_Value <$> set_elem e f m !! x = ce_Value <$> m !! x.
Proof.
  intros Hf. unfold set_elem. destruct (decide (e = x)) as [->|Hne]; [rewrite lookup_alter_eq|by rewrite lookup_alter_ne].
  destruct (m !! x); simpl; [|done]. by rewrite Hf.
Qed.

(** [PushBack] appends. *)
Lemma PushBack_rep l refs v : clist_rep l refs -> len refs < cl_maxLen l ->
  exists l' e, PushBack l v = Val (l', e) /\ clist_rep l' (refs ++ [e]) /\ (e ∉ refs) /\ cl_maxLen l' = cl_maxLen l /\
    cl_elems l !! e = None /\ ce_Value <$> cl_elems l' !! e = Some v /\
    forall x, x <> e -> ce_Value <$> cl_elems l' !! x = ce_Value <$> cl_elems l !! x.
Proof.
  intros Hr Hlen. pose proof Hr as [Hnd Hlinks Hhd Htl Hl Hfr]. unfold PushBack. rewrite Hl.
  destruct (Z.geb_spec (len refs) (cl_maxLen l)); [lia|]. simpl. set (e := cl_fresh l).
  assert (Hnew : cl_elems l !! e = None) by (apply eq_None_not_Some; intros Hs%Hfr; unfold e in Hs; lia).
  assert (Hin : e ∉ refs) by (intros He; destruct (rep_elem _ _ _ Hr He) as (c & Hc & _); congruence).
  assert (Hlen' : len refs + 1 = len (refs ++ [e])) by (unfold len; rewrite length_app; simpl; lia).
  assert (Hnd' : NoDup (refs ++ [e])) by (apply NoDup_app; split; [done|]; split; [intros x Hx Hy%list_elem_of_singleton; congruence|apply NoDup_singleton]).
  rewrite Htl. destruct (last refs) as [t|] eqn:Hlast.
  - apply last_Some in Hlast as [r0 ->]. set (m := <[e := _]> (cl_elems l)).
    assert (Ht : t <> e) by (intros ->; apply Hin; apply elem_of_app; right; by left).
    eexists _, e. split; [done|]. split_and!; try done.
    + split; simpl; try done.
      * intros a x b Hab. destruct (exists_last (l := x :: b)) as (b' & y & Hb'); [done|]. rewrite Hb', app_assoc in Hab.
        apply app_inj_tail in Hab as [Hrefs <-]. destruct b' as [|x' b''].
        -- simpl in Hb'. injection Hb' as -> ->. rewrite app_nil_r in Hrefs. subst a. exists (mkCElement (Some t) None false v).
           rewrite set_elem_ne by done. unfold m. rewrite lookup_insert_eq, last_snoc. done.
        -- injection Hb' as -> ->. assert (Hx : x' <> e) by (intros ->; apply Hin; rewrite Hrefs; apply elem_of_app; right; by left).
           destruct (Hlinks a x' b'' Hrefs) as (c & Hc & Hp & Hn & Hrm). destruct (decide (x' = t)) as [->|Hne].
           ++ destruct b'' as [|z b'']; [|exfalso]. 
              ** exists (SetNext (Some e) c). unfold set_elem, m. rewrite lookup_alter_eq, lookup_insert_ne, Hc by done. done.
              ** rewrite Hrefs in Hnd. apply NoDup_app in Hnd as (_ & _ & Hnd). apply NoDup_cons in Hnd as [Hni _]. apply Hni.
                 destruct (exists_last (l := z :: b'')) as (b3 & y & Hb3); [done|]. rewrite Hb3, app_comm_cons, app_assoc in Hrefs.
                 apply app_inj_tail in Hrefs as [_ <-]. rewrite Hb3. apply elem_of_app. right. by left.
           ++ exists c. rewrite set_elem_ne by done. unfold m. rewrite lookup_insert_ne by done. split_and!; try done. rewrite Hn. destruct b''; [|done].
              exfalso. apply app_inj_tail in Hrefs as [_ Heq]. done.
      * rewrite Hhd. by destruct r0.
      * by rewrite last_snoc.
      * intros x Hx%set_elem_is_Some. unfold m in Hx. destruct (decide (e = x)) as [<-|Hne]; [lia|]. rewrite lookup_insert_ne in Hx by done. apply Hfr in Hx. unfold e. lia.
    + simpl. rewrite set_elem_ne by done. unfold m. by rewrite lookup_insert_eq.
    + intros x Hx. simpl. rewrite set_elem_value by done. unfold m. by rewrite lookup_insert_ne by done.
  - apply last_None in Hlast as ->. eexists _, e. split; [done|]. split_and!; try done.
    + split; simpl; try done.
      * intros a x b Hab. destruct a as [|? [|]]; simplify_eq/=. eexists. rewrite lookup_insert_eq. done.
      * intros x Hx. destruct (decide (e = x)) as [<-|Hne]; [lia|]. rewrite lookup_insert_ne in Hx by done. apply Hfr in Hx. unfold e. lia.
    + simpl. by rewrite lookup_insert_eq.
    + intros x Hx. simpl. by rewrite lookup_insert_ne by done.
Qed.

Definition opt_set (o : option nat) (f : CElement -> CElement) (m : gmap nat CElement) : gmap nat CElement :=
  match o with None => m | Some p => set_elem p f m end.
Lemma opt_set_lookup o f m x : opt_set o f m !! x = if bool_decide (o = Some x) then f <$> m !! x else m !! x.
Proof.
  unfold opt_set, set_elem. destruct o as [p|]; case_bool_decide as Hp; simplify_eq; [apply lookup_alter_eq| |done].
  apply lookup_alter_ne. congruence.
Qed.

Lemma opt_set_value o f m x : (forall c, ce_Value (f c) = ce_Value c) -> ce_Value <$> opt_set o f m !! x = ce_Value <$> m !! x.
Proof. intros Hf. destruct o; [by apply set_elem_value|done]. Qed.

Lemma NoDup_last_head (a b : list nat) e : NoDup (a ++ e :: b) -> (e ∉ a) /\ (e ∉ b) /\ forall x, x ∈ a -> (x ∉ b).
Proof. intros (Hna & Hd & [Hnb _]%NoDup_cons)%NoDup_app. split_and!; [|done|]; intros; intros Hin; eapply Hd; (done || by left || by right). Qed.

(** What the list looks like after the links around [e] were closed. *)
Lemma unlink_rep l a e b l' : clist_rep l (a ++ e :: b) ->
  cl_elems l' = set_elem e SetRemoved (opt_set (head b) (SetPrev (last a)) (opt_set (last a) (SetNext (head b)) (cl_elems l))) ->
  cl_head l' = head (a ++ b) -> cl_tail l' = last (a ++ b) -> cl_len l' = cl_len l - 1 -> cl_fresh l' = cl_fresh l -> clist_rep l' (a ++ b).
Proof.
  intros [Hnd Hlinks Hhd Htl Hl Hfr] Hel Hh Ht Hln Hf. pose proof (NoDup_last_head _ _ _ Hnd) as (Hea & Heb & Hab).
  assert (Hlook : forall x, x <> e -> cl_elems l' !! x =
    (if bool_decide (head b = Some x) then SetPrev (last a) else id) <$> ((if bool_decide (last a = Some x) then SetNext (head b) else id) <$> cl_elems l !! x)).
  { intros x Hx. rewrite Hel, set_elem_ne, !opt_set_lookup by done. repeat case_bool_decide; by rewrite ?option_fmap_id. }
  split; try done.
  - apply NoDup_app in Hnd as (? & Hd & [? ?]%NoDup_cons). apply NoDup_app. split_and!; [done| |done]. intros x Hx Hy. apply (Hd x Hx). by right.
  - intros a1 x b1 Heq. destruct (app_eq_inv _ _ _ _ Heq) as [([|y k] & -> & Hk)|(k & -> & ->)].
    + simpl in Hk. subst b. rewrite app_nil_r in *. destruct (Hlinks (a1 ++ [e]) x b1) as (c & Hc & Hp & Hn & Hr); [by rewrite <- app_assoc|].
      assert (x <> e) by (intros ->; apply Heb; by left). exists (SetPrev (last a1) c). rewrite Hlook, Hc by done. simpl.
      rewrite bool_decide_true by done. rewrite bool_decide_false; [done|]. intros Hx%last_Some. destruct Hx as [z ->]. apply (Hab x); [apply elem_of_app; right; by left|by left].
    + simpl in Hk. injection Hk as <- ->. destruct (Hlinks a1 x (k ++ e :: b)) as (c & Hc & Hp & Hn & Hr); [by rewrite <- app_assoc|].
      assert (x <> e) by (intros ->; apply Hea, elem_of_app; right; by left).
      assert (Hxb : head b <> Some x) by (destruct b; [done|]; intros [= ->]; apply (Hab x); [apply elem_of_app; right; by left|by left]).
      rewrite Hlook, Hc by done. rewrite (bool_decide_false (head b = Some x)) by done. simpl. destruct (decide (k = [])) as [->|Hk].
      * exists (SetNext (head b) c). rewrite last_snoc, bool_decide_true by done. simpl. done.
      * exists c. rewrite bool_decide_false; [|].
        -- simpl. split_and!; try done. rewrite Hn. by destruct k.
        -- destruct (exists_last Hk) as (k' & z & ->). rewrite app_comm_cons, app_assoc, last_snoc. intros [= ->].
           rewrite <- app_assoc in Hnd. apply NoDup_app in Hnd as (_ & _ & Hnd). simpl in Hnd. apply NoDup_cons in Hnd as [Hni _]. apply Hni.
           rewrite !elem_of_app. left. right. by left.
    + destruct (Hlinks (a ++ e :: k) x b1) as (c & Hc & Hp & Hn & Hr); [by rewrite <- app_assoc|].
      assert (Hxb : x ∈ k ++ x :: b1) by (apply elem_of_app; right; by left). assert (x <> e) by (intros ->; done).
      assert (Hxa : last a <> Some x) by (intros [z ->]%last_Some; apply (Hab x); [apply elem_of_app; right; by left|done]).
      rewrite Hlook, Hc by done. rewrite (bool_decide_false (last a = Some x)) by done. simpl. destruct k as [|y k].
      * rewrite bool_decide_true by done. eexists. split; [done|]. simpl. by rewrite app_nil_r.
      * rewrite bool_decide_false. 
        -- exists c. split_and!; try done. rewrite Hp. rewrite last_app_cons, last_app_cons. done.
        -- simpl. intros [= ->]. apply NoDup_app in Hnd as (_ & _ & Hnd). apply NoDup_cons in Hnd as [_ Hnd]. simpl in Hnd. apply NoDup_cons in Hnd as [Hni _].
           apply Hni, elem_of_app. right. by left.
  - rewrite Hln, Hl. unfold len. rewrite !length_app. simpl. lia.
  - intros x Hx. rewrite Hf. apply Hfr. rewrite Hel in Hx. apply set_elem_is_Some in Hx. rewrite !opt_set_lookup in Hx.
    by repeat case_bool_decide; rewrite ?fmap_is_Some in Hx.
Qed.

(** [Remove] takes an element out; the removed element still leads to the one after it. *)
Lemma CList_Remove_rep l a e b : clist_rep l (a ++ e :: b) ->
  exists l' c c', cl_elems l !! e = Some c /\ CList_Remove l e = Val (l', ce_Value c) /\ clist_rep l' (a ++ b) /\ cl_maxLen l' = cl_maxLen l /\
    cl_elems l' !! e = Some c' /\ ce_removed c' = true /\ ce_next c' = head b /\
    forall x, ce_Value <$> cl_elems l' !! x = ce_Value <$> cl_elems l !! x.
Proof.
  intros Hr. pose proof Hr as [Hnd Hlinks Hhd Htl Hl Hfr]. destruct (Hlinks a e b eq_refl) as (c & Hc & Hp & Hn & Hrm).
  pose proof (NoDup_last_head _ _ _ Hnd) as (Hea & Heb & _).
  set (elems := set_elem e SetRemoved (opt_set (head b) (SetPrev (last a)) (opt_set (last a) (SetNext (head b)) (cl_elems l)))).
  set (l' := mkCList elems (cl_fresh l) (head (a ++ b)) (last (a ++ b)) (cl_len l - 1) (cl_maxLen l)).
  assert (Hrem : CList_Remove l e = Val (l', ce_Value c)).
  { unfold CList_Remove, element. rewrite Hc. cbn [mbind outcome_bind]. rewrite Hp, Hn, Hhd, Htl.
    assert (Hh : is_Some (head (a ++ e :: b))) by (destruct a; simpl; eauto). assert (Ht : is_Some (last (a ++ e :: b))).
    { rewrite last_app_cons. destruct (exists_last (l := e :: b)) as (r & z & ->); [done|]. rewrite last_snoc. eauto. }
    rewrite (bool_decide_true (is_Some (head _))), (bool_decide_true (is_Some (last _))) by done. simpl.
    assert (Hh' : bool_decide (last a = None) && negb (bool_decide (head (a ++ e :: b) = Some e)) = false).
    { destruct a as [|y a]; [by rewrite (bool_decide_true (head ([] ++ e :: b) = Some e)), andb_false_r by done|]. rewrite bool_decide_false; [done|].
      destruct (exists_last (l := y :: a)) as (r & z & Hz); [done|]. by rewrite Hz, last_snoc. }
    assert (Ht' : bool_decide (head b = None) && negb (bool_decide (last (a ++ e :: b) = Some e)) = false).
    { destruct b as [|y b]; [by rewrite last_snoc, (bool_decide_true (Some e = Some e)), andb_false_r by done|by rewrite bool_decide_false by done]. }
    assert (Hhead : head (a ++ b) = match last a with None => head b | Some _ => head (a ++ e :: b) end).
    { destruct a as [|y a]; [done|]. destruct (exists_last (l := y :: a)) as (r & z & Hz); [done|]. by rewrite Hz, last_snoc, <- Hz. }
    assert (Htail : last (a ++ b) = match head b with None => last a | Some _ => last (a ++ e :: b) end).
    { destruct b as [|y b]; [by rewrite app_nil_r|]. simpl. destruct (exists_last (l := y :: b)) as (r & z & Hz); [done|].
      rewrite Hz. by rewrite app_comm_cons, !app_assoc, !last_snoc. }
    rewrite Hh', Ht'. simpl. unfold l', elems, opt_set. rewrite Hhead, Htail. by destruct (last a), (head b). }
  exists l', c, (SetRemoved c). split; [done|]. split; [done|]. split; [by apply (unlink_rep l a e b)|]. split; [done|].
  assert (He : elems !! e = Some (SetRemoved c)).
  { unfold elems, set_elem. rewrite lookup_alter_eq, !opt_set_lookup, Hc. rewrite !bool_decide_false; [done| |].
    - intros [z ->]%last_Some. apply Hea, elem_of_app. right. by left.
    - destruct b; [done|]. intros [= ->]. apply Heb. by left. }
  split; [done|]. split; [done|]. split; [done|]. intros x. simpl. unfold elems. by rewrite set_elem_value, !opt_set_value by done.
Qed.

(** Detaching a removed element leaves the list as it is. *)
Lemma DetachPrev_rep l refs e c : clist_rep l refs -> cl_elems l !! e = Some c -> ce_removed c = true ->
  exists l', DetachPrev l e = Val l' /\ clist_rep l' refs /\ cl_maxLen l' = cl_maxLen l /\
    (forall x, Next l' x = Next l x) /\ forall x, ce_Value <$> cl_elems l' !! x = ce_Value <$> cl_elems l !! x.
Proof.
  intros Hr Hc Hrm. unfold DetachPrev, element. rewrite Hc. cbn [mbind outcome_bind]. rewrite Hrm. simpl. eexists. split; [done|]. split_and!.
  - pose proof Hr as [Hnd Hlinks Hhd Htl Hl Hfr]. split; simpl; try done.
    + intros a x b Heq. destruct (Hlinks a x b Heq) as (d & Hd & ?). exists d. rewrite set_elem_ne; [done|]. intros ->. assert (d = c) as -> by congruence.
      destruct (Hlinks a e b Heq) as (d' & Hd' & _ & _ & Hf). congruence.
    + intros x Hx%set_elem_is_Some. by apply Hfr.
  - done.
  - intros x. unfold Next. simpl. unfold set_elem. destruct (decide (e = x)) as [->|Hne]; [by rewrite lookup_alter_eq, Hc|by rewrite lookup_alter_ne].
  - intros x. simpl. by apply set_elem_value.
Qed.
End clist.
Arguments CElement : clear implicits.
Arguments CList : clear implicits.
