(* ===== verification/Heap.v ===== *)
(** * container/heap of the Go library, on which the mempool's priority queue is built

    The interface [heap.Interface] is a class and the algorithms are written against it;
    [HeapLaws] says what an implementation promises, and the theorems that the algorithms
    keep the heap order and the items use the laws only.  Indices stay far below the
    range of [int], so the test for their overflow in [down] is left out. *)
From Stdlib Require Import ZArith Lia.
From stdpp Require Import base list.
From S2P Require Import Prelude.

Class HeapInterface (H A : Type) := {
  Len : H -> Z;
  Less : H -> Z -> Z -> go bool;
  Swap : H -> Z -> Z -> go H;
  Push : H -> A -> H;
  Pop : H -> go (H * A)
}.

Section algorithms.
Context `{HI : HeapInterface H A}.

Fixpoint up (fuel : nat) (h : H) (j : Z) : go H :=
  match fuel with
  | O => Val h
  | S fuel =>
      let i := Z.quot (j - 1) 2 in
      if i =? j then Val h
      else
        less ← Less h j i;
        if (less : bool) then h ← Swap h i j; up fuel h i else Val h
  end.

(** The index the item ends at. *)
Fixpoint down_loop (fuel : nat) (h : H) (i n : Z) : go (H * Z) :=
  match fuel with
  | O => Val (h, i)
  | S fuel =>
      let j1 := 2 * i + 1 in
      if j1 >=? n then Val (h, i)
      else
        right ← (if j1 + 1 <? n then Less h (j1 + 1) j1 else Val false);
        let j := if (right : bool) then j1 + 1 else j1 in
        less ← Less h j i;
        if (less : bool) then h ← Swap h i j; down_loop fuel h j n else Val (h, i)
  end.
Definition down (h : H) (i0 n : Z) : go (H * bool) :=
  '(h, i) ← down_loop (Z.to_nat (Len h)) h i0 n;
  Val (h, i >? i0).

Definition heap_Push (h : H) (x : A) : go H :=
  let h := Push h x in up (Z.to_nat (Len h)) h (Len h - 1).
Definition heap_Pop (h : H) : go (H * A) :=
  let n := Len h - 1 in
  h ← Swap h 0 n;
  '(h, _) ← down h 0 n;
  Pop h.
Definition heap_Remove (h : H) (i : Z) : go (H * A) :=
  let n := Len h - 1 in
  h ← (if n =? i then Val h
       else
         h ← Swap h i n;
         '(h, moved) ← down h i n;
         if (moved : bool) then Val h else up (Z.to_nat (Len h)) h i);
  Pop h.
End algorithms.

(** ** Heap order *)

(** Exchange two positions. *)
Definition exchange {A} `{!Inhabited A} (l : list A) (i j : nat) : list A := <[i := l !!! j]> (<[j := l !!! i]> l).

Section order.
Context {A : Type} `{!Inhabited A} (lt : A -> A -> bool).

Definition better_eq (a b : A) : Prop := lt b a = false.
Class StrictOrderBool : Prop := {
  so_asym a b : lt a b = true -> lt b a = false;
  so_trans a b c : better_eq a b -> better_eq b c -> better_eq a c
}.

Definition parent (c : nat) : nat := (c - 1) / 2.
(** In the first [n] positions, every item but those excused is no better than its parent. *)
Definition ordered_but (P : nat -> Prop) (l : list A) (n : nat) : Prop :=
  forall c, (1 <= c < n)%nat -> ~ P c -> better_eq (l !!! parent c) (l !!! c).
Definition heap_ordered (l : list A) : Prop := ordered_but (fun _ => False) l (length l).

Lemma exchange_lookup (l : list A) i j k : (i < length l)%nat -> (j < length l)%nat ->
  exchange l i j !!! k = l !!! (if decide (k = i) then j else if decide (k = j) then i else k).
Proof.
  intros Hi Hj. unfold exchange. destruct (decide (k = i)) as [->|Hki]; [by rewrite list_lookup_total_insert_eq by (by rewrite length_insert)|].
  rewrite list_lookup_total_insert_ne by done. destruct (decide (k = j)) as [->|Hkj]; [by rewrite list_lookup_total_insert_eq|].
  by rewrite list_lookup_total_insert_ne.
Qed.
Lemma exchange_length (l : list A) i j : length (exchange l i j) = length l.
Proof. unfold exchange. by rewrite !length_insert. Qed.
Lemma exchange_perm (l : list A) i j : (i < length l)%nat -> (j < length l)%nat -> exchange l i j ≡ₚ l.
Proof.
  intros Hi Hj. assert (Hlen : length (exchange l i j) = length l) by apply exchange_length.
  apply Permutation_inj. split; [done|]. exists (fun k => if decide (k = i) then j else if decide (k = j) then i else k). split.
  - intros x y. repeat case_decide; congruence.
  - intros k. destruct (decide (k < length l)%nat) as [Hk|Hk].
    + rewrite !list_lookup_lookup_total_lt; [|repeat case_decide; lia|lia]. by rewrite exchange_lookup.
    + rewrite !lookup_ge_None_2; [done|repeat case_decide; lia|lia].
Qed.

Lemma parent_lt c : (1 <= c)%nat -> (parent c < c)%nat.
Proof. intros Hc. unfold parent. apply Nat.Div0.div_lt_upper_bound. lia. Qed.
Lemma parent_eq c i : parent c = i -> (1 <= c)%nat -> c = (2 * i + 1)%nat \/ c = (2 * i + 2)%nat.
Proof. unfold parent. intros Hp Hc. pose proof (Nat.div_mod_eq (c - 1) 2). pose proof (Nat.mod_upper_bound (c - 1) 2). lia. Qed.
Lemma parent_left i : parent (2 * i + 1) = i.
Proof. unfold parent. replace (2 * i + 1 - 1)%nat with (i * 2)%nat by lia. by apply Nat.div_mul. Qed.
Lemma parent_right i : parent (2 * i + 2) = i.
Proof. unfold parent. replace (2 * i + 2 - 1)%nat with (1 + i * 2)%nat by lia. by rewrite Nat.div_add. Qed.

Context `{!StrictOrderBool}.

Lemma better_refl a : better_eq a a.
Proof. unfold better_eq. destruct (lt a a) eqn:He; [|done]. pose proof (so_asym _ _ He). congruence. Qed.

(** One step of [up]: the item at [j] is better than its parent. *)
Lemma up_step l n j : (1 <= j < n)%nat -> (n <= length l)%nat ->
  ordered_but (fun c => c = j) l n -> (forall c, (c < n)%nat -> (1 <= c)%nat -> parent c = j -> better_eq (l !!! parent j) (l !!! c)) ->
  lt (l !!! j) (l !!! parent j) = true ->
  let l' := exchange l (parent j) j in
  ordered_but (fun c => c = parent j) l' n /\
  (forall c, (c < n)%nat -> (1 <= c)%nat -> parent c = parent j -> (1 <= parent j)%nat -> better_eq (l' !!! parent (parent j)) (l' !!! c)).
Proof.
  intros Hj Hn Hord Hgrand Hlt l'. pose proof (parent_lt j) as Hpj. set (i := parent j) in *.
  assert (Hl : forall k, l' !!! k = l !!! (if decide (k = i) then j else if decide (k = j) then i else k)) by (intros k; apply exchange_lookup; lia).
  assert (Hji : better_eq (l !!! j) (l !!! i)) by (by apply so_asym).
  split.
  - intros c Hc Hne. rewrite !Hl. pose proof (parent_lt c) as Hpc. destruct (decide (c = i)) as [->|Hci]; [done|]. destruct (decide (c = j)) as [->|Hcj].
    + fold i. rewrite decide_True by done. done.
    + destruct (decide (parent c = i)) as [Hpi|Hpi].
      * apply (so_trans _ (l !!! i)); [done|]. rewrite <- Hpi. apply Hord; [lia|]. done.
      * destruct (decide (parent c = j)) as [Hpj'|Hpj']; [apply Hgrand; (done || lia)|apply Hord; (done || lia)].
  - intros c Hc Hc1 Hpc Hi1. rewrite !Hl. pose proof (parent_lt i) as Hpi. rewrite !(decide_False (P := parent i = _)) by lia.
    pose proof (parent_lt c Hc1). rewrite (decide_False (P := c = i)) by lia.
    assert (Hii : better_eq (l !!! parent i) (l !!! i)) by (apply Hord; lia).
    destruct (decide (c = j)) as [->|Hcj]; [done|]. apply (so_trans _ (l !!! i)); [done|]. rewrite <- Hpc. apply Hord; [lia|done].
Qed.

(** One step of [down]: [j] is the better child of [i] and better than [i]. *)
Lemma down_step l n i j : (i < n)%nat -> (n <= length l)%nat -> (1 <= j < n)%nat -> parent j = i ->
  (forall c, (1 <= c < n)%nat -> parent c = i -> better_eq (l !!! j) (l !!! c)) -> lt (l !!! j) (l !!! i) = true ->
  ordered_but (fun c => parent c = i \/ c = i) l n ->
  (forall c, (1 <= c < n)%nat -> parent c = i -> (1 <= i)%nat -> better_eq (l !!! parent i) (l !!! c)) ->
  let l' := exchange l i j in
  ordered_but (fun c => parent c = j) l' n /\
  (forall c, (1 <= c < n)%nat -> parent c = j -> better_eq (l' !!! i) (l' !!! c)).
Proof.
  intros Hi Hn Hj Hpj Hbest Hlt Hord Hgrand l'. pose proof (parent_lt j) as Hij.
  assert (Hl : forall k, l' !!! k = l !!! (if decide (k = i) then j else if decide (k = j) then i else k)) by (intros k; apply exchange_lookup; lia).
  split.
  - intros c Hc Hne. rewrite !Hl. pose proof (parent_lt c) as Hpc. destruct (decide (parent c = i)) as [Hpi|Hpi].
    + rewrite (decide_False (P := c = i)) by lia. destruct (decide (c = j)) as [->|Hcj]; [by apply so_asym|by apply Hbest].
    + rewrite (decide_False (P := parent c = j)) by done. destruct (decide (c = i)) as [->|Hci]; [apply Hgrand; (done || lia)|].
      rewrite (decide_False (P := c = j)) by congruence. apply Hord; [done|]. tauto.
  - intros c Hc Hp. rewrite !Hl. rewrite decide_True by done. pose proof (parent_lt c). rewrite (decide_False (P := c = i)), (decide_False (P := c = j)) by lia.
    rewrite <- Hp. apply Hord; [done|]. lia.
Qed.
End order.

(** ** What an implementation promises *)

Class HeapLaws {H A : Type} `{!Inhabited A} (HI : HeapInterface H A) (lt : A -> A -> bool) := {
  items : H -> list A;
  good : H -> Prop;
  law_len h : Len h = len (items h);
  law_less h i j : (i < length (items h))%nat -> (j < length (items h))%nat ->
    Less h (Z.of_nat i) (Z.of_nat j) = Val (lt (items h !!! i) (items h !!! j));
  law_swap h i j : good h -> (i < length (items h))%nat -> (j < length (items h))%nat ->
    exists h', Swap h (Z.of_nat i) (Z.of_nat j) = Val h' /\ items h' = exchange (items h) i j /\ good h';
  law_push h x : good h -> (x ∉ items h) -> items (Push h x) = items h ++ [x] /\ good (Push h x);
  law_pop h l x : good h -> items h = l ++ [x] -> exists h', Pop h = Val (h', x) /\ items h' = l /\ good h'
}.

Section theorems.
Context {H A : Type} `{!Inhabited A} {HI : HeapInterface H A} {lt : A -> A -> bool} `{HL : !HeapLaws HI lt} `{!StrictOrderBool lt}.

(** [h'] is [h] with items up to position [n] in another order. *)
Definition rearranged (h h' : H) (n : nat) : Prop :=
  good h' /\ items h' ≡ₚ items h /\ forall k, (n <= k)%nat -> items h' !!! k = items h !!! k.
Lemma rearranged_refl h n : good h -> rearranged h h n.
Proof. done. Qed.
Lemma rearranged_trans h1 h2 h3 n : rearranged h1 h2 n -> rearranged h2 h3 n -> rearranged h1 h3 n.
Proof. intros (_ & Hp & Hk) (Hg & Hp' & Hk'). split_and!; [done|by rewrite Hp'|]. intros k Hn. rewrite Hk', Hk by done. done. Qed.
Lemma rearranged_length h h' n : rearranged h h' n -> length (items h') = length (items h).
Proof. intros (_ & Hp & _). by rewrite Hp. Qed.
Lemma rearranged_swap h h' i j n : good h' -> items h' = exchange (items h) i j -> (i < length (items h))%nat -> (j < length (items h))%nat ->
  (i < n)%nat -> (j < n)%nat -> rearranged h h' n.
Proof.
  intros Hg He Hi Hj Hin Hjn. split; [done|]. rewrite He. split; [by apply exchange_perm|]. intros k Hk. rewrite exchange_lookup by done.
  by rewrite !decide_False by lia.
Qed.

Lemma quot_parent j : (1 <= j)%nat -> Z.quot (Z.of_nat j - 1) 2 = Z.of_nat (parent j).
Proof. intros Hj. unfold parent. rewrite Nat2Z.inj_div, Nat2Z.inj_sub by lia. apply Z.quot_div_nonneg; lia. Qed.

Lemma up_spec fuel h j n : good h -> (j < n)%nat -> (n <= length (items h))%nat -> (j < fuel)%nat ->
  ordered_but lt (fun c => c = j) (items h) n ->
  (forall c, (c < n)%nat -> (1 <= c)%nat -> parent c = j -> (1 <= j)%nat -> better_eq lt (items h !!! parent j) (items h !!! c)) ->
  exists h', up fuel h (Z.of_nat j) = Val h' /\ rearranged h h' n /\ ordered_but lt (fun _ => False) (items h') n.
Proof.
  revert h j. induction fuel as [|fuel IH]; intros h j Hg Hj Hn Hf Hord Hgrand; [lia|]. simpl. destruct (decide (j = 0)%nat) as [->|Hj0].
  { simpl. exists h. split_and!; [done|by apply rearranged_refl|]. intros c Hc _. apply Hord; lia. }
  rewrite quot_parent by lia. pose proof (parent_lt j) as Hpj. destruct (Z.eqb_spec (Z.of_nat (parent j)) (Z.of_nat j)); [lia|].
  rewrite law_less by lia. cbn [mbind outcome_bind]. destruct (lt _ _) eqn:Hlt.
  - destruct (law_swap h (parent j) j Hg) as (h1 & Hs & Hi1 & Hg1); [lia|lia|]. rewrite Hs. cbn [mbind outcome_bind].
    destruct (up_step lt (items h) n j) as [Hord1 Hgr1]; [lia|lia|done|intros c Hc Hc1 Hp; apply Hgrand; (done || lia)|done|].
    assert (Hr : rearranged h h1 n) by (eapply rearranged_swap; (done || lia)).
    destruct (IH h1 (parent j)) as (h' & Hup & Hr' & Ho); [done|lia|rewrite (rearranged_length _ _ _ Hr); lia|lia|by rewrite Hi1| |].
    { rewrite Hi1. intros c Hc Hc1 Hp Hp1. by apply Hgr1. }
    exists h'. split_and!; [done|by eapply rearranged_trans|done].
  - exists h. split_and!; [done|by apply rearranged_refl|]. intros c Hc _. destruct (decide (c = j)) as [->|Hne]; [done|]. by apply Hord.
Qed.

Lemma down_loop_spec fuel h i n : good h -> (i < n)%nat -> (n <= length (items h))%nat -> (n <= i + fuel)%nat ->
  ordered_but lt (fun c => parent c = i \/ c = i) (items h) n ->
  (forall c, (1 <= c < n)%nat -> parent c = i -> (1 <= i)%nat -> better_eq lt (items h !!! parent i) (items h !!! c)) ->
  exists h' i', down_loop fuel h (Z.of_nat i) (Z.of_nat n) = Val (h', Z.of_nat i') /\ (i <= i')%nat /\ rearranged h h' n /\
    (if decide (i' = i) then h' = h /\ ordered_but lt (fun c => c = i) (items h') n else ordered_but lt (fun _ => False) (items h') n).
Proof.
  revert h i. induction fuel as [|fuel IH]; intros h i Hg Hi Hn Hf Hord Hgrand; [lia|]. cbn [down_loop].
  assert (Hstay : (forall c, (1 <= c < n)%nat -> parent c = i -> better_eq lt (items h !!! i) (items h !!! c)) ->
    exists h' i', Val (h, Z.of_nat i) = (Val (h', Z.of_nat i') : go (H * Z)) /\ (i <= i')%nat /\ rearranged h h' n /\
      (if decide (i' = i) then h' = h /\ ordered_but lt (fun c => c = i) (items h') n else ordered_but lt (fun _ => False) (items h') n)).
  { intros Hch. exists h, i. split_and!; [done|done|by apply rearranged_refl|]. rewrite decide_True by done. split; [done|].
    intros c Hc Hne. destruct (decide (parent c = i)) as [Hp|Hp]; [rewrite Hp; by apply Hch|]. apply Hord; [done|tauto]. }
  destruct (Z.geb_spec (2 * Z.of_nat i + 1) (Z.of_nat n)) as [Hge|Hlt1].
  { apply Hstay. intros c Hc Hp. apply parent_eq in Hp; [|lia]. lia. }
  set (r := if 2 * Z.of_nat i + 1 + 1 <? Z.of_nat n then _ else _).
  assert (Hr : exists b : bool, r = Val b /\ let j := if b then (2 * i + 2)%nat else (2 * i + 1)%nat in (j < n)%nat /\
    forall c, (1 <= c < n)%nat -> parent c = i -> better_eq lt (items h !!! j) (items h !!! c)).
  { unfold r. destruct (Z.ltb_spec (2 * Z.of_nat i + 1 + 1) (Z.of_nat n)) as [Hlt2|Hge2].
    - replace (2 * Z.of_nat i + 1 + 1) with (Z.of_nat (2 * i + 2)) by lia. replace (2 * Z.of_nat i + 1) with (Z.of_nat (2 * i + 1)) by lia.
      rewrite law_less by lia. eexists. split; [done|]. destruct (lt (items h !!! (2 * i + 2)%nat) _) eqn:Hb; (split; [lia|]); intros c Hc Hp.
      + apply parent_eq in Hp as [->| ->]; [by apply so_asym|by apply better_refl|lia].
      + apply parent_eq in Hp as [->| ->]; [by apply better_refl|done|lia].
    - exists false. split; [done|]. split; [lia|]. intros c Hc Hp. apply parent_eq in Hp as [->| ->]; [by apply better_refl|lia|lia]. }
  destruct Hr as (b & -> & Hj & Hbest). cbn [mbind outcome_bind]. set (j := if b then (2 * i + 2)%nat else (2 * i + 1)%nat) in *.
  replace (if b then 2 * Z.of_nat i + 1 + 1 else 2 * Z.of_nat i + 1) with (Z.of_nat j) by (unfold j; destruct b; lia).
  assert (Hpj : parent j = i) by (unfold j; destruct b; [apply parent_right|apply parent_left]). assert (Hj1 : (1 <= j)%nat) by (unfold j; destruct b; lia).
  pose proof (parent_lt j Hj1). rewrite law_less by lia. cbn [mbind outcome_bind]. destruct (lt (items h !!! j) _) eqn:Hlt.
  - destruct (law_swap h i j Hg) as (h1 & Hs & Hi1 & Hg1); [lia|lia|]. rewrite Hs. cbn [mbind outcome_bind].
    destruct (down_step lt (items h) n i j) as [Hord1 Hgr1]; [lia|lia|lia|done|done|done|done|done|].
    assert (Hre : rearranged h h1 n) by (eapply rearranged_swap; (done || lia)).
    destruct (IH h1 j) as (h' & i' & Hd & Hle & Hr' & Ho); [done|lia|rewrite (rearranged_length _ _ _ Hre); lia|lia| | |].
    { rewrite Hi1. intros c Hc Hne. apply Hord1; [done|]. tauto. }
    { rewrite Hi1, Hpj. intros c Hc Hp _. by apply Hgr1. }
    exists h', i'. split_and!; [done|lia|by eapply rearranged_trans|]. rewrite (decide_False (P := i' = i)) by lia.
    destruct (decide (i' = j)) as [->|]; [|done]. destruct Ho as [-> Ho]. intros c Hc _. destruct (decide (c = j)) as [->|Hne]; [|by apply Ho].
    rewrite Hi1. apply Hord1; [done|]. rewrite Hpj. lia.
  - apply Hstay. intros c Hc Hp. apply (so_trans lt _ (items h !!! j)); [done|by apply Hbest].
Qed.

Lemma heap_Push_spec h x : good h -> (x ∉ items h) -> heap_ordered lt (items h) ->
  exists h', heap_Push h x = Val h' /\ good h' /\ items h' ≡ₚ x :: items h /\ heap_ordered lt (items h').
Proof.
  intros Hg Hx Ho. destruct (law_push h x Hg Hx) as [Hi Hg1]. unfold heap_Push. set (h1 := Push h x) in *. rewrite law_len.
  assert (Hlen : length (items h1) = S (length (items h))) by (rewrite Hi, length_app; simpl; lia).
  replace (len (items h1) - 1) with (Z.of_nat (length (items h))) by (unfold len; lia).
  destruct (up_spec (Z.to_nat (len (items h1))) h1 (length (items h)) (length (items h1))) as (h' & Hu & Hr & Ho'); [done|lia|lia|unfold len; lia| | |].
  - intros c Hc Hne. rewrite Hi, !lookup_total_app_l; [apply Ho; (lia || tauto)|lia|pose proof (parent_lt c); lia].
  - intros c Hc Hc1 Hp. pose proof (parent_lt c Hc1). lia.
  - exists h'. rewrite Hu. split_and!; [done|by destruct Hr| |].
    + destruct Hr as (_ & Hp & _). by rewrite Hp, Hi, Permutation_app_comm.
    + unfold heap_ordered. by rewrite (rearranged_length _ _ _ Hr).
Qed.

(** The last item is taken off once the first [n] are in order. *)
Lemma Pop_last h n : good h -> length (items h) = S n -> ordered_but lt (fun _ => False) (items h) n ->
  exists h', Pop h = Val (h', items h !!! n) /\ good h' /\ items h ≡ₚ (items h !!! n) :: items h' /\ heap_ordered lt (items h').
Proof.
  intros Hg Hl Ho. assert (Hne : items h <> []) by (intros He; rewrite He in Hl; done). destruct (exists_last Hne) as (l & x & He).
  assert (Hn : length l = n) by (rewrite He, length_app in Hl; simpl in Hl; lia). assert (Hx : items h !!! n = x) by (rewrite He, lookup_total_app_r, Hn, Nat.sub_diag by lia; done).
  destruct (law_pop h l x Hg He) as (h' & Hp & Hi & Hg'). exists h'. rewrite Hx, Hi. split_and!; [done|done|by rewrite He, Permutation_app_comm|].
  unfold heap_ordered. rewrite Hn. intros c Hc Hf. pose proof (parent_lt c). specialize (Ho c Hc Hf). rewrite He in Ho. rewrite !lookup_total_app_l in Ho by lia. done.
Qed.

(** The first item of an ordered heap is as good as any other. *)
Lemma heap_top l c : heap_ordered lt l -> (c < length l)%nat -> better_eq lt (l !!! 0%nat) (l !!! c).
Proof.
  intros Ho. induction c as [c IH] using lt_wf_ind. intros Hc. destruct (decide (c = 0)%nat) as [->|Hne]; [by apply better_refl|].
  pose proof (parent_lt c). apply (so_trans lt _ (l !!! parent c)); [apply IH; lia|]. apply Ho; [lia|tauto].
Qed.

Lemma heap_Pop_spec h : good h -> items h <> [] -> heap_ordered lt (items h) ->
  exists h' x, heap_Pop h = Val (h', x) /\ good h' /\ items h ≡ₚ x :: items h' /\ heap_ordered lt (items h') /\
    forall y, y ∈ items h -> better_eq lt x y.
Proof.
  intros Hg Hne Ho. destruct (length (items h)) as [|n] eqn:Hlen; [by apply nil_length_inv in Hlen|]. unfold heap_Pop. rewrite law_len.
  replace (len (items h) - 1) with (Z.of_nat n) by (unfold len; lia). change 0 with (Z.of_nat 0).
  destruct (law_swap h 0 n Hg) as (h1 & Hs & Hi1 & Hg1); [lia|lia|]. rewrite Hs. cbn [mbind outcome_bind].
  assert (Hr1 : rearranged h h1 (S n)) by (eapply rearranged_swap; (done || lia)). pose proof (rearranged_length _ _ _ Hr1) as Hl1.
  assert (Hlast : items h1 !!! n = items h !!! 0%nat) by (rewrite Hi1, exchange_lookup by lia; by repeat case_decide; subst).
  assert (Hdown : exists h2 b, down h1 (Z.of_nat 0) (Z.of_nat n) = Val (h2, b) /\ rearranged h1 h2 n /\ ordered_but lt (fun _ => False) (items h2) n).
  { unfold down. rewrite law_len. destruct (decide (n = 0)%nat) as [->|Hn0].
    - exists h1, false. assert (Z.to_nat (len (items h1)) = 1%nat) as -> by (unfold len; lia). simpl. split_and!; [done|by apply rearranged_refl|]. intros c Hc. lia.
    - destruct (down_loop_spec (Z.to_nat (len (items h1))) h1 0 n) as (h2 & i & Hd & Hi & Hr & Ho2); [done|lia|lia|unfold len; lia| |lia|].
      { intros c Hc Hnc. rewrite Hi1, !exchange_lookup by lia. pose proof (parent_lt c). rewrite !(decide_False (P := c = _)), !(decide_False (P := parent c = _)) by lia.
        apply Ho; (lia || tauto). }
      rewrite Hd. cbn [mbind outcome_bind]. eexists h2, _. split; [done|]. split; [done|]. destruct (decide (i = 0)%nat); [|done].
      intros c Hc _. apply Ho2; lia. }
  destruct Hdown as (h2 & b & -> & Hr2 & Ho2). cbn [mbind outcome_bind]. pose proof (rearranged_length _ _ _ Hr2) as Hl2.
  destruct (Pop_last h2 n) as (h' & Hp & Hg' & Hperm & Ho'); [by destruct Hr2|lia|done|]. assert (Hx : items h2 !!! n = items h !!! 0%nat) by (destruct Hr2 as (_ & _ & Hk); by rewrite Hk).
  rewrite Hx in Hp, Hperm. exists h', (items h !!! 0%nat). rewrite Hp. split_and!; [done|done| |done|].
  - rewrite <- Hperm. destruct Hr1 as (_ & Hp1 & _), Hr2 as (_ & Hp2 & _). by rewrite Hp2, Hp1.
  - intros y [c Hc]%list_elem_of_lookup. pose proof (lookup_lt_Some _ _ _ Hc).
    assert (items h !!! c = y) as <- by (by apply list_lookup_total_correct). apply heap_top; [done|lia].
Qed.

Lemma heap_Remove_spec h i : good h -> (i < length (items h))%nat -> heap_ordered lt (items h) ->
  exists h', heap_Remove h (Z.of_nat i) = Val (h', items h !!! i) /\ good h' /\ items h ≡ₚ (items h !!! i) :: items h' /\ heap_ordered lt (items h').
Proof.
  intros Hg Hi Ho. destruct (length (items h)) as [|n] eqn:Hlen; [lia|]. unfold heap_Remove. rewrite law_len.
  replace (len (items h) - 1) with (Z.of_nat n) by (unfold len; lia). destruct (Z.eqb_spec (Z.of_nat n) (Z.of_nat i)) as [He|Hne].
  { assert (i = n) as -> by lia. cbn [mbind outcome_bind]. apply Pop_last; [done|done|]. intros c Hc _. apply Ho; (lia || tauto). }
  destruct (law_swap h i n Hg) as (h1 & Hs & Hi1 & Hg1); [lia|lia|]. rewrite Hs. cbn [mbind outcome_bind].
  assert (Hr1 : rearranged h h1 (S n)) by (eapply rearranged_swap; (done || lia)). pose proof (rearranged_length _ _ _ Hr1) as Hl1.
  assert (Hl : forall k, (k < n)%nat -> k <> i -> items h1 !!! k = items h !!! k) by (intros k Hk Hki; rewrite Hi1, exchange_lookup by lia; by rewrite !decide_False by lia).
  assert (Hlast : items h1 !!! n = items h !!! i) by (rewrite Hi1, exchange_lookup by lia; by rewrite (decide_False (P := n = i)), decide_True by lia).
  assert (Hord1 : ordered_but lt (fun c => parent c = i \/ c = i) (items h1) n).
  { intros c Hc Hnc. pose proof (parent_lt c). rewrite !Hl by (lia || tauto). apply Ho; (lia || tauto). }
  assert (Hgr1 : forall c, (1 <= c < n)%nat -> parent c = i -> (1 <= i)%nat -> better_eq lt (items h1 !!! parent i) (items h1 !!! c)).
  { intros c Hc Hp Hi0. pose proof (parent_lt c). pose proof (parent_lt i). rewrite !Hl by lia. apply (so_trans lt _ (items h !!! i)); [apply Ho; (lia || tauto)|].
    rewrite <- Hp. apply Ho; (lia || tauto). }
  assert (Hmid : exists h2, ('(h, moved) ← down h1 (Z.of_nat i) (Z.of_nat n); if (moved : bool) then Val h else up (Z.to_nat (Len h)) h (Z.of_nat i)) = Val h2 /\
    rearranged h1 h2 n /\ ordered_but lt (fun _ => False) (items h2) n).
  { unfold down. rewrite law_len. destruct (down_loop_spec (Z.to_nat (len (items h1))) h1 i n) as (h2 & i' & Hd & Hii & Hr & Ho2); [done|lia|lia|unfold len; lia|done|done|].
    rewrite Hd. cbn [mbind outcome_bind]. destruct (Z.gtb_spec (Z.of_nat i') (Z.of_nat i)).
    - exists h2. rewrite decide_False in Ho2 by lia. done.
    - assert (i' = i) as -> by lia. rewrite decide_True in Ho2 by done. destruct Ho2 as [-> Ho2]. rewrite law_len.
      destruct (up_spec (Z.to_nat (len (items h1))) h1 i n) as (h3 & Hu & Hr3 & Ho3); [done|lia|lia|unfold len; lia|done| |].
      + intros c Hc Hc1 Hp Hi0. apply Hgr1; (lia || done).
      + by exists h3. }
  destruct Hmid as (h2 & -> & Hr2 & Ho2). cbn [mbind outcome_bind]. pose proof (rearranged_length _ _ _ Hr2) as Hl2.
  destruct (Pop_last h2 n) as (h' & Hp & Hg' & Hperm & Ho'); [by destruct Hr2|lia|done|].
  assert (Hx : items h2 !!! n = items h !!! i) by (destruct Hr2 as (_ & _ & Hk); by rewrite Hk). rewrite Hx in Hp, Hperm.
  exists h'. rewrite Hp. split_and!; [done|done| |done]. rewrite <- Hperm. destruct Hr1 as (_ & Hp1 & _), Hr2 as (_ & Hp2 & _). by rewrite Hp2, Hp1.
Qed.

(** *** Without order: the operations return and keep the items *)

Lemma up_total fuel h j n : good h -> (j < n)%nat -> (n <= length (items h))%nat -> exists h', up fuel h (Z.of_nat j) = Val h' /\ rearranged h h' n.
Proof.
  revert h j. induction fuel as [|fuel IH]; intros h j Hg Hj Hn; [exists h; by split; [|apply rearranged_refl]|]. simpl. destruct (decide (j = 0)%nat) as [->|Hj0].
  { simpl. exists h. by split; [|apply rearranged_refl]. }
  rewrite quot_parent by lia. pose proof (parent_lt j) as Hpj. destruct (Z.eqb_spec (Z.of_nat (parent j)) (Z.of_nat j)); [lia|].
  rewrite law_less by lia. cbn [mbind outcome_bind]. destruct (lt _ _); [|exists h; by split; [|apply rearranged_refl]].
  destruct (law_swap h (parent j) j Hg) as (h1 & Hs & Hi1 & Hg1); [lia|lia|]. rewrite Hs. cbn [mbind outcome_bind].
  assert (Hr : rearranged h h1 n) by (eapply rearranged_swap; (done || lia)).
  destruct (IH h1 (parent j)) as (h' & Hup & Hr'); [done|lia|rewrite (rearranged_length _ _ _ Hr); lia|]. exists h'. split; [done|by eapply rearranged_trans].
Qed.
Lemma down_loop_total fuel h i n : good h -> (i <= n)%nat -> (n <= length (items h))%nat ->
  exists h' i', down_loop fuel h (Z.of_nat i) (Z.of_nat n) = Val (h', i') /\ rearranged h h' n.
Proof.
  revert h i. induction fuel as [|fuel IH]; intros h i Hg Hi Hn; [eexists h, _; by split; [|apply rearranged_refl]|]. cbn [down_loop].
  destruct (Z.geb_spec (2 * Z.of_nat i + 1) (Z.of_nat n)) as [Hge|Hlt1]; [eexists h, _; by split; [|apply rearranged_refl]|].
  set (r := if 2 * Z.of_nat i + 1 + 1 <? Z.of_nat n then _ else _).
  assert (Hr : exists (b : bool) (j : nat), r = Val b /\ (if b then 2 * Z.of_nat i + 1 + 1 else 2 * Z.of_nat i + 1) = Z.of_nat j /\ (j < n)%nat).
  { unfold r. destruct (Z.ltb_spec (2 * Z.of_nat i + 1 + 1) (Z.of_nat n)); [|exists false, (2 * i + 1)%nat; split_and!; [done|lia|lia]].
    replace (2 * Z.of_nat i + 1 + 1) with (Z.of_nat (2 * i + 2)) by lia. replace (2 * Z.of_nat i + 1) with (Z.of_nat (2 * i + 1)) by lia.
    rewrite law_less by lia. set (b := lt _ _). exists b, (if b then 2 * i + 2 else 2 * i + 1)%nat. split; [done|]. destruct b; split; lia. }
  destruct Hr as (b & j & -> & Hjz & Hj). cbn [mbind outcome_bind]. rewrite Hjz, law_less by lia. cbn [mbind outcome_bind].
  destruct (lt _ _); [|eexists h, _; by split; [|apply rearranged_refl]].
  destruct (law_swap h i j Hg) as (h1 & Hs & Hi1 & Hg1); [lia|lia|]. rewrite Hs. cbn [mbind outcome_bind].
  assert (Hre : rearranged h h1 n) by (eapply rearranged_swap; (done || lia)).
  destruct (IH h1 j) as (h' & i' & Hd & Hr'); [done|lia|rewrite (rearranged_length _ _ _ Hre); lia|]. exists h', i'. split; [done|by eapply rearranged_trans].
Qed.

Lemma heap_Push_items h x : good h -> (x ∉ items h) -> exists h', heap_Push h x = Val h' /\ good h' /\ items h' ≡ₚ x :: items h.
Proof.
  intros Hg Hx. destruct (law_push h x Hg Hx) as [Hi Hg1]. unfold heap_Push. set (h1 := Push h x) in *. rewrite law_len.
  assert (Hlen : length (items h1) = S (length (items h))) by (rewrite Hi, length_app; simpl; lia).
  replace (len (items h1) - 1) with (Z.of_nat (length (items h))) by (unfold len; lia).
  destruct (up_total (Z.to_nat (len (items h1))) h1 (length (items h)) (length (items h1))) as (h' & Hu & Hr); [done|lia|lia|].
  exists h'. rewrite Hu. destruct Hr as (? & Hp & _). split_and!; [done|done|]. by rewrite Hp, Hi, Permutation_app_comm.
Qed.

Lemma Pop_last_items h n : good h -> length (items h) = S n ->
  exists h', Pop h = Val (h', items h !!! n) /\ good h' /\ items h ≡ₚ (items h !!! n) :: items h'.
Proof.
  intros Hg Hl. assert (Hne : items h <> []) by (intros He; rewrite He in Hl; done). destruct (exists_last Hne) as (l & x & He).
  assert (Hn : length l = n) by (rewrite He, length_app in Hl; simpl in Hl; lia). assert (Hx : items h !!! n = x) by (rewrite He, lookup_total_app_r, Hn, Nat.sub_diag by lia; done).
  destruct (law_pop h l x Hg He) as (h' & Hp & Hi & Hg'). exists h'. rewrite Hx, Hi. split_and!; [done|done|by rewrite He, Permutation_app_comm].
Qed.

Lemma heap_Remove_items h i : good h -> (i < length (items h))%nat ->
  exists h', heap_Remove h (Z.of_nat i) = Val (h', items h !!! i) /\ good h' /\ items h ≡ₚ (items h !!! i) :: items h'.
Proof.
  intros Hg Hi. destruct (length (items h)) as [|n] eqn:Hlen; [lia|]. unfold heap_Remove. rewrite law_len.
  replace (len (items h) - 1) with (Z.of_nat n) by (unfold len; lia). destruct (Z.eqb_spec (Z.of_nat n) (Z.of_nat i)) as [He|Hne].
  { assert (i = n) as -> by lia. cbn [mbind outcome_bind]. by apply Pop_last_items. }
  destruct (law_swap h i n Hg) as (h1 & Hs & Hi1 & Hg1); [lia|lia|]. rewrite Hs. cbn [mbind outcome_bind].
  assert (Hr1 : rearranged h h1 (S n)) by (eapply rearranged_swap; (done || lia)). pose proof (rearranged_length _ _ _ Hr1) as Hl1.
  assert (Hlast : items h1 !!! n = items h !!! i) by (rewrite Hi1, exchange_lookup by lia; by rewrite (decide_False (P := n = i)), decide_True by lia).
  unfold down. rewrite law_len. destruct (down_loop_total (Z.to_nat (len (items h1))) h1 i n) as (h2 & i' & Hd & Hr2); [done|lia|lia|].
  rewrite Hd. cbn [mbind outcome_bind]. pose proof (rearranged_length _ _ _ Hr2) as Hl2.
  assert (Hmid : exists h3, (if i' >? Z.of_nat i then Val h2 else up (Z.to_nat (Len h2)) h2 (Z.of_nat i)) = Val h3 /\ rearranged h2 h3 n).
  { destruct (_ >? _); [exists h2; split; [done|apply rearranged_refl; by destruct Hr2]|]. apply up_total; [by destruct Hr2|lia|lia]. }
  destruct Hmid as (h3 & -> & Hr3). cbn [mbind outcome_bind]. pose proof (rearranged_length _ _ _ Hr3) as Hl3.
  destruct (Pop_last_items h3 n) as (h' & Hp & Hg' & Hperm); [by destruct Hr3|lia|].
  assert (Hx : items h3 !!! n = items h !!! i) by (destruct Hr2 as (_ & _ & Hk), Hr3 as (_ & _ & Hk'); by rewrite Hk', Hk).
  rewrite Hx in Hp, Hperm. exists h'. rewrite Hp. split_and!; [done|done|]. rewrite <- Hperm.
  destruct Hr1 as (_ & Hp1 & _), Hr2 as (_ & Hp2 & _), Hr3 as (_ & Hp3 & _). by rewrite Hp3, Hp2, Hp1.
Qed.

Lemma heap_Pop_items h : good h -> items h <> [] -> exists h' x, heap_Pop h = Val (h', x) /\ good h' /\ items h ≡ₚ x :: items h'.
Proof.
  intros Hg Hne. destruct (length (items h)) as [|n] eqn:Hlen; [by apply nil_length_inv in Hlen|]. unfold heap_Pop. rewrite law_len.
  replace (len (items h) - 1) with (Z.of_nat n) by (unfold len; lia). change 0 with (Z.of_nat 0).
  destruct (law_swap h 0 n Hg) as (h1 & Hs & Hi1 & Hg1); [lia|lia|]. rewrite Hs. cbn [mbind outcome_bind].
  assert (Hr1 : rearranged h h1 (S n)) by (eapply rearranged_swap; (done || lia)). pose proof (rearranged_length _ _ _ Hr1) as Hl1.
  unfold down. rewrite law_len. destruct (down_loop_total (Z.to_nat (len (items h1))) h1 0 n) as (h2 & i' & Hd & Hr2); [done|lia|lia|].
  rewrite Hd. cbn [mbind outcome_bind]. pose proof (rearranged_length _ _ _ Hr2) as Hl2. destruct (Pop_last_items h2 n) as (h' & Hp & Hg' & Hperm); [by destruct Hr2|lia|].
  exists h', (items h2 !!! n). rewrite Hp. split_and!; [done|done|]. rewrite <- Hperm. destruct Hr1 as (_ & Hp1 & _), Hr2 as (_ & Hp2 & _). by rewrite Hp2, Hp1.
Qed.

(** Both readings at once: the items are kept, and so is the order if there was one. *)
Lemma heap_Push_full h x : good h -> (x ∉ items h) ->
  exists h', heap_Push h x = Val h' /\ good h' /\ items h' ≡ₚ x :: items h /\ (heap_ordered lt (items h) -> heap_ordered lt (items h')).
Proof.
  intros Hg Hx. destruct (heap_Push_items h x Hg Hx) as (h' & Hp & Hg' & Hi). exists h'. split_and!; [done..|]. intros Ho.
  destruct (heap_Push_spec h x Hg Hx Ho) as (h2 & Hp2 & _ & _ & Ho2). rewrite Hp in Hp2. by injection Hp2 as <-.
Qed.
Lemma heap_Remove_full h i x : good h -> items h !! i = Some x ->
  exists h', heap_Remove h (Z.of_nat i) = Val (h', x) /\ good h' /\ items h ≡ₚ x :: items h' /\ (heap_ordered lt (items h) -> heap_ordered lt (items h')).
Proof.
  intros Hg Hx. pose proof (lookup_lt_Some _ _ _ Hx) as Hi. rewrite <- (list_lookup_total_correct _ _ _ Hx).
  destruct (heap_Remove_items h i Hg Hi) as (h' & Hp & Hg' & Hit). exists h'. split_and!; [done..|]. intros Ho.
  destruct (heap_Remove_spec h i Hg Hi Ho) as (h2 & Hp2 & _ & _ & Ho2). rewrite Hp in Hp2. by injection Hp2 as <-.
Qed.
End theorems.
