(* ===== verification/Mempool.v ===== *)
(** * internal/mempool/v1: the prioritized mempool

    Models the transaction cache (internal/mempool/cache.go), the transaction store and
    the sorted lists (v1/tx.go), the priority queue (v1/priority_queue.go) and the mempool
    itself (v1/mempool.go), with the filters of internal/mempool/mempool.go.

    A [*WrappedTx] is a reference; the objects are in [tm_objs], so that an object that the
    store, the queue, the lists and the gossip list share is changed once for all of them.
    The field heapIndex of the objects is the map [pq_index] of the queue.  The answers of
    the application arrive as separate calls: [tx_callback] for a new transaction and
    [defaultTxCallback] when transactions are checked again.  Locks, metrics and logging
    are not modelled. *)
From Stdlib Require Import ZArith Lia Strings.String Sorting.Sorted.
From stdpp Require Import base list strings gmap.
From S2P Require Import Prelude.
From S2P Require Import Merkle.
From S2P Require Import Proto.
From S2P Require Import Types.
From S2P Require Import SafeMath.
From S2P Require Import Block.
From S2P Require Import CList.
From S2P Require Import Heap.

(** ** Orders the Go library leaves open *)

(** [sort.Slice] by a key (the order of equal keys is open) and the order in which the values
    of a map are visited. *)
Class GoOrders := {
  sort_slice : (nat -> Z) -> list nat -> list nat;
  visit : list nat -> list nat;
  sort_slice_perm key l : sort_slice key l ≡ₚ l;
  sort_slice_sorted key l : StronglySorted (fun a b => key a <= key b) (sort_slice key l);
  visit_perm l : visit l ≡ₚ l
}.

(** [sort.Search]: binary search for the first index at which [f] holds. *)
Fixpoint search_loop (fuel : nat) (f : Z -> bool) (i j : Z) : Z :=
  match fuel with
  | O => i
  | S fuel =>
      if i <? j then
        let h := Z.shiftr (i + j) 1 in
        if f h then search_loop fuel f i h else search_loop fuel f (h + 1) j
      else i
  end.
Definition sort_Search (n : Z) (f : Z -> bool) : Z := search_loop (Z.to_nat n) f 0 n.

(** ** Transactions *)

Record WrappedTx := mkWrappedTx {
  w_tx : Tx;
  w_hash : bytes;
  w_height : Z;
  w_gasWanted : Z;
  w_priority : Z;
  w_sender : string;
  w_timestamp : Time;
  w_peers : gset Z;
  w_gossipEl : option nat;
  w_removed : bool
}.
Definition WrappedTx_Size (w : WrappedTx) : Z := len (w_tx w).

Definition with_priority (p : Z) (w : WrappedTx) : WrappedTx :=
  mkWrappedTx (w_tx w) (w_hash w) (w_height w) (w_gasWanted w) p (w_sender w) (w_timestamp w) (w_peers w) (w_gossipEl w) (w_removed w).
Definition with_peers (ps : gset Z) (w : WrappedTx) : WrappedTx :=
  mkWrappedTx (w_tx w) (w_hash w) (w_height w) (w_gasWanted w) (w_priority w) (w_sender w) (w_timestamp w) ps (w_gossipEl w) (w_removed w).
Definition with_gossipEl (e : nat) (w : WrappedTx) : WrappedTx :=
  mkWrappedTx (w_tx w) (w_hash w) (w_height w) (w_gasWanted w) (w_priority w) (w_sender w) (w_timestamp w) (w_peers w) (Some e) (w_removed w).
Definition mark_removed (w : WrappedTx) : WrappedTx :=
  mkWrappedTx (w_tx w) (w_hash w) (w_height w) (w_gasWanted w) (w_priority w) (w_sender w) (w_timestamp w) (w_peers w) (w_gossipEl w) true.

Abbreviation Objs := (gmap nat WrappedTx).
Definition zero_wtx : WrappedTx := mkWrappedTx [] [] 0 0 0 "" zero_time ∅ None false.
#[export] Instance WrappedTx_inhabited : Inhabited WrappedTx := populate zero_wtx.

(** ** The cache *)

(** [LRUTxCache]: the keys in the order of the list; the map finds them in it. *)
Inductive TxCache := NopTxCache | LRUTxCache (size : Z) (keys : list bytes).
Definition NewLRUTxCache (cacheSize : Z) : TxCache := LRUTxCache cacheSize [].

Definition cache_Reset (c : TxCache) : TxCache := match c with NopTxCache => NopTxCache | LRUTxCache size _ => LRUTxCache size [] end.
Definition drop_key (key : bytes) (keys : list bytes) : list bytes := filter (fun k => k <> key) keys.

Section cache.
Context `{!Sha256}.

Definition Tx_Key (tx : Tx) : bytes := sha256 tx.

Definition cache_Push (c : TxCache) (tx : Tx) : TxCache * bool :=
  match c with
  | NopTxCache => (c, true)
  | LRUTxCache size keys =>
      let key := Tx_Key tx in
      if bool_decide (key ∈ keys) then (LRUTxCache size (drop_key key keys ++ [key]), false)
      else
        let keys := if len keys >=? size then tail keys else keys in
        (LRUTxCache size (keys ++ [key]), true)
  end.
Definition cache_Remove (c : TxCache) (tx : Tx) : TxCache :=
  match c with NopTxCache => c | LRUTxCache size keys => LRUTxCache size (drop_key (Tx_Key tx) keys) end.
End cache.

(** ** The store *)

Record TxStore := mkTxStore { ts_hashTxs : gmap bytes nat; ts_senderTxs : gmap string nat }.
Definition NewTxStore : TxStore := mkTxStore ∅ ∅.
Definition TxStore_Size (s : TxStore) : Z := Z.of_nat (base.size (ts_hashTxs s)).
Definition GetAllTxs `{!GoOrders} (s : TxStore) : list nat := visit (map_to_list (ts_hashTxs s)).*2.
Definition GetTxBySender (s : TxStore) (sender : string) : option nat := ts_senderTxs s !! sender.
Definition GetTxByHash (s : TxStore) (hash : bytes) : option nat := ts_hashTxs s !! hash.
(** [false] for a transaction that is not stored. *)
Definition IsTxRemoved (objs : Objs) (s : TxStore) (hash : bytes) : bool :=
  match ts_hashTxs s !! hash with Some r => w_removed (objs !!! r) | None => false end.
Definition has_sender (w : WrappedTx) : bool := negb (bool_decide (w_sender w = "")).
Definition SetTx `{!Sha256} (s : TxStore) (r : nat) (w : WrappedTx) : TxStore :=
  mkTxStore (<[Tx_Key (w_tx w) := r]> (ts_hashTxs s)) (if has_sender w then <[w_sender w := r]> (ts_senderTxs s) else ts_senderTxs s).
(** The object is marked as removed by the caller, [removeTx]. *)
Definition TxStore_RemoveTx `{!Sha256} (s : TxStore) (w : WrappedTx) : TxStore :=
  mkTxStore (base.delete (Tx_Key (w_tx w)) (ts_hashTxs s)) (if has_sender w then base.delete (w_sender w) (ts_senderTxs s) else ts_senderTxs s).
Definition TxHasPeer (objs : Objs) (s : TxStore) (hash : bytes) (peerID : Z) : bool :=
  match ts_hashTxs s !! hash with Some r => bool_decide (peerID ∈ w_peers (objs !!! r)) | None => false end.
Definition GetOrSetPeerByTxHash (objs : Objs) (s : TxStore) (hash : bytes) (peerID : Z) : Objs * (option nat * bool) :=
  match ts_hashTxs s !! hash with
  | None => (objs, (None, false))
  | Some r =>
      if bool_decide (peerID ∈ w_peers (objs !!! r)) then (objs, (Some r, true))
      else (alter (fun w => with_peers ({[peerID]} ∪ w_peers w) w) r objs, (Some r, false))
  end.

(** ** Sorted lists *)

Definition height_less (a b : WrappedTx) : bool := w_height a >=? w_height b.
Definition timestamp_less (a b : WrappedTx) : bool := w_timestamp a >=? w_timestamp b.

Section lists.
Context (objs : Objs) (less : WrappedTx -> WrappedTx -> bool).

Definition list_search (txs : list nat) (w : WrappedTx) : Z :=
  sort_Search (len txs) (fun i => match txs !! Z.to_nat i with Some r => less (objs !!! r) w | None => false end).
Definition list_Insert (txs : list nat) (r : nat) : list nat :=
  let i := Z.to_nat (list_search txs (objs !!! r)) in
  take i txs ++ r :: drop i txs.
(** From index [i] on, the first occurrence of the reference is taken out. *)
Fixpoint remove_ref (txs : list nat) (r : nat) : list nat :=
  match txs with [] => [] | x :: rest => if (x =? r)%nat then rest else x :: remove_ref rest r end.
Definition list_Remove (txs : list nat) (r : nat) : list nat :=
  let i := Z.to_nat (list_search txs (objs !!! r)) in
  take i txs ++ remove_ref (drop i txs) r.
End lists.

(** ** The priority queue *)

Record TxPriorityQueue := mkPQ { pq_txs : list nat; pq_index : gmap nat Z }.
Definition NewTxPriorityQueue : TxPriorityQueue := mkPQ [] ∅.

Definition tx_less (objs : Objs) (a b : nat) : bool :=
  let x := objs !!! a in
  let y := objs !!! b in
  if w_priority x =? w_priority y then w_timestamp x <? w_timestamp y else w_priority x >? w_priority y.

Definition pq_Less (objs : Objs) (pq : TxPriorityQueue) (i j : Z) : go bool :=
  a ← slice_get (pq_txs pq) i;
  b ← slice_get (pq_txs pq) j;
  Val (tx_less objs a b).
Definition pq_Swap (pq : TxPriorityQueue) (i j : Z) : go TxPriorityQueue :=
  a ← slice_get (pq_txs pq) i;
  b ← slice_get (pq_txs pq) j;
  txs ← slice_set (pq_txs pq) i b;
  txs ← slice_set txs j a;
  Val (mkPQ txs (<[a := j]> (<[b := i]> (pq_index pq)))).
Definition pq_Push (pq : TxPriorityQueue) (r : nat) : TxPriorityQueue :=
  mkPQ (pq_txs pq ++ [r]) (<[r := len (pq_txs pq)]> (pq_index pq)).
Definition pq_Pop (pq : TxPriorityQueue) : go (TxPriorityQueue * nat) :=
  item ← slice_get (pq_txs pq) (len (pq_txs pq) - 1);
  Val (mkPQ (take (length (pq_txs pq) - 1) (pq_txs pq)) (<[item := -1]> (pq_index pq)), item).
Definition NumTxs (pq : TxPriorityQueue) : Z := len (pq_txs pq).

#[export] Instance pq_heap (objs : Objs) : HeapInterface TxPriorityQueue nat :=
  {| Len := NumTxs; Less := pq_Less objs; Swap := pq_Swap; Push := pq_Push; Pop := pq_Pop |}.

(** An object that was never in the queue has index 0. *)
Definition heapIndex (pq : TxPriorityQueue) (r : nat) : Z := default 0 (pq_index pq !! r).
Definition pq_RemoveTx (objs : Objs) (pq : TxPriorityQueue) (r : nat) : go TxPriorityQueue :=
  if heapIndex pq r <? NumTxs pq then '(pq, _) ← heap_Remove (HI := pq_heap objs) pq (heapIndex pq r); Val pq else Val pq.
Definition PushTx (objs : Objs) (pq : TxPriorityQueue) (r : nat) : go TxPriorityQueue := heap_Push (HI := pq_heap objs) pq r.
Definition PopTx (objs : Objs) (pq : TxPriorityQueue) : go (TxPriorityQueue * nat) := heap_Pop (HI := pq_heap objs) pq.

Fixpoint evict_scan (objs : Objs) (priority txSize cap currSize : Z) (txs : list nat) (toEvict : list nat) : list nat :=
  match txs with
  | [] => []
  | r :: rest =>
      if w_priority (objs !!! r) <? priority then
        let toEvict := toEvict ++ [r] in
        let currSize := int64 (currSize - WrappedTx_Size (objs !!! r)) in
        if int64 (currSize + txSize) <=? cap then toEvict else evict_scan objs priority txSize cap currSize rest toEvict
      else []
  end.
Definition GetEvictableTxs `{!GoOrders} (objs : Objs) (pq : TxPriorityQueue) (priority txSize totalSize cap : Z) : list nat :=
  evict_scan objs priority txSize cap totalSize (sort_slice (fun r => w_priority (objs !!! r)) (pq_txs pq)) [].

(** ** The mempool *)

Record ResponseCheckTx := mkResponseCheckTx { rc_Code : Z; rc_GasWanted : Z; rc_Priority : Z; rc_Sender : string }.
Definition CodeTypeOK : Z := 0.

(** [None] is a nil filter; [false] is its error. *)
Definition PreCheckFunc : Type := option (Tx -> bool).
Definition PostCheckFunc : Type := option (Tx -> ResponseCheckTx -> bool).

(** The encoded size of a list of transactions: a tag, the length and the bytes of each. *)
Definition ComputeProtoSizeForTxs (txs : list Tx) : Z := sumZ (fun tx => 1 + len tx + len (uvarint (len tx))) txs.
Definition PreCheckMaxBytes (maxBytes : Z) : PreCheckFunc := Some (fun tx => ComputeProtoSizeForTxs [tx] <=? maxBytes).
Definition PostCheckMaxGas (maxGas : Z) : PostCheckFunc :=
  Some (fun _ res => if maxGas =? -1 then true else negb (rc_GasWanted res <? 0) && (rc_GasWanted res <=? maxGas)).

Record MempoolConfig := mkMempoolConfig {
  mc_Recheck : bool;
  mc_Size : Z;
  mc_MaxTxsBytes : Z;
  mc_CacheSize : Z;
  mc_KeepInvalidTxsInCache : bool;
  mc_MaxTxBytes : Z;
  mc_TTLDuration : Z;
  mc_TTLNumBlocks : Z
}.

(** [tm_txsAvailable]: nil, or whether a signal waits in the channel of capacity one.
    [tm_objs] and [tm_fresh] are the objects made so far. *)
Record TxMempool := mkTxMempool {
  tm_config : MempoolConfig;
  tm_txsAvailable : option bool;
  tm_notifiedTxsAvailable : bool;
  tm_height : Z;
  tm_sizeBytes : Z;
  tm_cache : TxCache;
  tm_txStore : TxStore;
  tm_gossipIndex : CList nat;
  tm_recheckCursor : option nat;
  tm_recheckEnd : option nat;
  tm_priorityIndex : TxPriorityQueue;
  tm_heightIndex : list nat;
  tm_timestampIndex : list nat;
  tm_preCheck : PreCheckFunc;
  tm_postCheck : PostCheckFunc;
  tm_objs : Objs;
  tm_fresh : nat
}.

Definition NewTxMempool (cfg : MempoolConfig) (height : Z) (pre : PreCheckFunc) (post : PostCheckFunc) : TxMempool :=
  mkTxMempool cfg None false height 0 (if mc_CacheSize cfg >? 0 then NewLRUTxCache (mc_CacheSize cfg) else NopTxCache) NewTxStore CList_New None None
    NewTxPriorityQueue [] [] pre post ∅ 0.

Definition set_cache (m : TxMempool) (c : TxCache) : TxMempool :=
  mkTxMempool (tm_config m) (tm_txsAvailable m) (tm_notifiedTxsAvailable m) (tm_height m) (tm_sizeBytes m) c (tm_txStore m) (tm_gossipIndex m)
    (tm_recheckCursor m) (tm_recheckEnd m) (tm_priorityIndex m) (tm_heightIndex m) (tm_timestampIndex m) (tm_preCheck m) (tm_postCheck m) (tm_objs m) (tm_fresh m).
Definition set_objs (m : TxMempool) (objs : Objs) (fresh : nat) : TxMempool :=
  mkTxMempool (tm_config m) (tm_txsAvailable m) (tm_notifiedTxsAvailable m) (tm_height m) (tm_sizeBytes m) (tm_cache m) (tm_txStore m) (tm_gossipIndex m)
    (tm_recheckCursor m) (tm_recheckEnd m) (tm_priorityIndex m) (tm_heightIndex m) (tm_timestampIndex m) (tm_preCheck m) (tm_postCheck m) objs fresh.
Definition set_recheck (m : TxMempool) (cursor last : option nat) : TxMempool :=
  mkTxMempool (tm_config m) (tm_txsAvailable m) (tm_notifiedTxsAvailable m) (tm_height m) (tm_sizeBytes m) (tm_cache m) (tm_txStore m) (tm_gossipIndex m)
    cursor last (tm_priorityIndex m) (tm_heightIndex m) (tm_timestampIndex m) (tm_preCheck m) (tm_postCheck m) (tm_objs m) (tm_fresh m).
Definition set_available (m : TxMempool) (av : option bool) (notified : bool) : TxMempool :=
  mkTxMempool (tm_config m) av notified (tm_height m) (tm_sizeBytes m) (tm_cache m) (tm_txStore m) (tm_gossipIndex m)
    (tm_recheckCursor m) (tm_recheckEnd m) (tm_priorityIndex m) (tm_heightIndex m) (tm_timestampIndex m) (tm_preCheck m) (tm_postCheck m) (tm_objs m) (tm_fresh m).
Definition set_block (m : TxMempool) (height : Z) (pre : PreCheckFunc) (post : PostCheckFunc) : TxMempool :=
  mkTxMempool (tm_config m) (tm_txsAvailable m) false height (tm_sizeBytes m) (tm_cache m) (tm_txStore m) (tm_gossipIndex m)
    (tm_recheckCursor m) (tm_recheckEnd m) (tm_priorityIndex m) (tm_heightIndex m) (tm_timestampIndex m) pre post (tm_objs m) (tm_fresh m).
(** The store, the indexes and the size. *)
Definition set_indexes (m : TxMempool) (size : Z) (store : TxStore) (gossip : CList nat) (pq : TxPriorityQueue) (hs ts : list nat) : TxMempool :=
  mkTxMempool (tm_config m) (tm_txsAvailable m) (tm_notifiedTxsAvailable m) (tm_height m) size (tm_cache m) store gossip
    (tm_recheckCursor m) (tm_recheckEnd m) pq hs ts (tm_preCheck m) (tm_postCheck m) (tm_objs m) (tm_fresh m).
Definition set_pq (m : TxMempool) (pq : TxPriorityQueue) : TxMempool :=
  set_indexes m (tm_sizeBytes m) (tm_txStore m) (tm_gossipIndex m) pq (tm_heightIndex m) (tm_timestampIndex m).
Definition set_lists (m : TxMempool) (hs ts : list nat) : TxMempool :=
  set_indexes m (tm_sizeBytes m) (tm_txStore m) (tm_gossipIndex m) (tm_priorityIndex m) hs ts.

Definition EnableTxsAvailable (m : TxMempool) : TxMempool := set_available m (Some false) (tm_notifiedTxsAvailable m).
Definition TxMempool_Size (m : TxMempool) : Z := TxStore_Size (tm_txStore m).

Definition notifyTxsAvailable (m : TxMempool) : go TxMempool :=
  _ ← panic_if (TxMempool_Size m =? 0) "attempt to notify txs available but mempool is empty!";
  match tm_txsAvailable m with
  | Some _ => if tm_notifiedTxsAvailable m then Val m else Val (set_available m (Some true) true)
  | None => Val m
  end.

Definition tx_at (m : TxMempool) (r : nat) : WrappedTx := tm_objs m !!! r.

(** [false] is [ErrMempoolIsFull]. *)
Definition canAddTx (m : TxMempool) (w : WrappedTx) : bool :=
  negb ((TxMempool_Size m >=? mc_Size (tm_config m)) || (int64 (WrappedTx_Size w + tm_sizeBytes m) >? mc_MaxTxsBytes (tm_config m))).

Section mempool.
Context `{!Sha256, !GoOrders}.

Inductive CheckTxError := ErrTxTooLarge | ErrPreCheck | ErrProxyAppConn | ErrTxInCache | ErrCheckTxAsync.

(** Whether the connection to the application has failed, and whether the request could be sent. *)
Definition CheckTx (m : TxMempool) (proxy_error async_error : bool) (tx : Tx) (senderID : Z) : TxMempool * option CheckTxError :=
  if len tx >? mc_MaxTxBytes (tm_config m) then (m, Some ErrTxTooLarge)
  else if (match tm_preCheck m with Some f => negb (f tx) | None => false end) then (m, Some ErrPreCheck)
  else if proxy_error then (m, Some ErrProxyAppConn)
  else
    let '(cache, pushed) := cache_Push (tm_cache m) tx in
    let m := set_cache m cache in
    if negb pushed then (set_objs m (GetOrSetPeerByTxHash (tm_objs m) (tm_txStore m) (Tx_Key tx) senderID).1 (tm_fresh m), Some ErrTxInCache)
    else if async_error then (set_cache m (cache_Remove (tm_cache m) tx), Some ErrCheckTxAsync)
    else (m, None).

Definition insertTx (m : TxMempool) (r : nat) : go TxMempool :=
  let w := tx_at m r in
  let store := SetTx (tm_txStore m) r w in
  pq ← PushTx (tm_objs m) (tm_priorityIndex m) r;
  let hs := list_Insert (tm_objs m) height_less (tm_heightIndex m) r in
  let ts := list_Insert (tm_objs m) timestamp_less (tm_timestampIndex m) r in
  '(gossip, e) ← PushBack (tm_gossipIndex m) r;
  let m := set_objs m (alter (with_gossipEl e) r (tm_objs m)) (tm_fresh m) in
  Val (set_indexes m (int64 (tm_sizeBytes m + WrappedTx_Size w)) store gossip pq hs ts).

Definition removeTx (m : TxMempool) (r : nat) (removeFromCache : bool) : go TxMempool :=
  let w := tx_at m r in
  if IsTxRemoved (tm_objs m) (tm_txStore m) (w_hash w) then Val m
  else
    let store := TxStore_RemoveTx (tm_txStore m) w in
    let m := set_objs m (alter mark_removed r (tm_objs m)) (tm_fresh m) in
    pq ← pq_RemoveTx (tm_objs m) (tm_priorityIndex m) r;
    let hs := list_Remove (tm_objs m) height_less (tm_heightIndex m) r in
    let ts := list_Remove (tm_objs m) timestamp_less (tm_timestampIndex m) r in
    el ← (match w_gossipEl w with Some e => Val e | None => Panic "invalid memory address or nil pointer dereference" end);
    '(gossip, _) ← CList_Remove (tm_gossipIndex m) el;
    gossip ← DetachPrev gossip el;
    let m := set_indexes m (int64 (tm_sizeBytes m - WrappedTx_Size w)) store gossip pq hs ts in
    Val (if removeFromCache then set_cache m (cache_Remove (tm_cache m) (w_tx w)) else m).
Fixpoint removeTxs (m : TxMempool) (rs : list nat) (removeFromCache : bool) : go TxMempool :=
  match rs with [] => Val m | r :: rest => m ← removeTx m r removeFromCache; removeTxs m rest removeFromCache end.

(** [res] is [None] for a response of another type. *)
Definition initTxCallback (m : TxMempool) (r : nat) (res : option ResponseCheckTx) (senderID : Z) : go TxMempool :=
  match res with
  | None => Val m
  | Some res =>
      let w := tx_at m r in
      let post := match tm_postCheck m with Some f => f (w_tx w) res | None => true end in
      if negb post || negb (rc_Code res =? CodeTypeOK) then
        Val (if mc_KeepInvalidTxsInCache (tm_config m) then m else set_cache m (cache_Remove (tm_cache m) (w_tx w)))
      else
        let sender := rc_Sender res in
        let priority := rc_Priority res in
        if negb (bool_decide (sender = "")) && bool_decide (is_Some (GetTxBySender (tm_txStore m) sender)) then Val m
        else
          let evictTxs := if canAddTx m w then []
                          else GetEvictableTxs (tm_objs m) (tm_priorityIndex m) priority (WrappedTx_Size w) (tm_sizeBytes m) (mc_MaxTxsBytes (tm_config m)) in
          if negb (canAddTx m w) && bool_decide (evictTxs = []) then Val (set_cache m (cache_Remove (tm_cache m) (w_tx w)))
          else
            m ← removeTxs m evictTxs true;
            let w := tx_at m r in
            let w := mkWrappedTx (w_tx w) (w_hash w) (w_height w) (rc_GasWanted res) priority sender (w_timestamp w) {[senderID]} (w_gossipEl w) (w_removed w) in
            m ← insertTx (set_objs m (<[r := w]> (tm_objs m)) (tm_fresh m)) r;
            notifyTxsAvailable m
  end.
(** The callback [CheckTx] registers: the object is made when the answer arrives. *)
Definition tx_callback (m : TxMempool) (now : Time) (tx : Tx) (res : option ResponseCheckTx) (senderID : Z) : go TxMempool :=
  _ ← panic_if (bool_decide (is_Some (tm_recheckCursor m))) "recheck cursor is non-nil in CheckTx callback";
  let r := tm_fresh m in
  let w := mkWrappedTx tx (Tx_Key tx) (tm_height m) 0 0 "" now ∅ None false in
  initTxCallback (set_objs m (<[r := w]> (tm_objs m)) (S r)) r res senderID.

(** [false] is the error that the transaction was not found. *)
Definition RemoveTxByKey (m : TxMempool) (key : bytes) : go (TxMempool * bool) :=
  match GetTxByHash (tm_txStore m) key with
  | Some r => m ← removeTx m r false; Val (m, true)
  | None => Val (m, false)
  end.

Definition Flush (m : TxMempool) : go TxMempool :=
  let m := set_lists m [] [] in
  m ← removeTxs m (GetAllTxs (tm_txStore m)) false;
  let m := set_indexes m 0 (tm_txStore m) (tm_gossipIndex m) (tm_priorityIndex m) (tm_heightIndex m) (tm_timestampIndex m) in
  Val (set_cache m (cache_Reset (tm_cache m))).

(** *** Taking transactions for a block *)

Definition max_num : Z := 50.
(** The queue that is left, the references taken from it and the transactions to return. *)
Fixpoint reap_loop (fuel : nat) (objs : Objs) (maxBytes maxGas totalSize totalGas : Z) (pq : TxPriorityQueue) (taken : list nat) (txs : list Tx)
    : go (TxPriorityQueue * list nat * list Tx) :=
  match fuel with
  | O => Val (pq, taken, txs)
  | S fuel =>
      if NumTxs pq >? 0 then
        '(pq, r) ← PopTx objs pq;
        let w := objs !!! r in
        let taken := taken ++ [r] in
        let size := ComputeProtoSizeForTxs [w_tx w] in
        if (maxBytes >? -1) && (int64 (totalSize + size) >? maxBytes) then Val (pq, taken, txs)
        else
          let gas := int64 (totalGas + w_gasWanted w) in
          if (maxGas >? -1) && (gas >? maxGas) then Val (pq, taken, txs)
          else
            let txs := txs ++ [w_tx w] in
            if len txs >=? max_num then Val (pq, taken, txs)
            else reap_loop fuel objs maxBytes maxGas (int64 (totalSize + size)) gas pq taken txs
      else Val (pq, taken, txs)
  end.
Fixpoint push_all (objs : Objs) (pq : TxPriorityQueue) (rs : list nat) : go TxPriorityQueue :=
  match rs with [] => Val pq | r :: rest => pq ← PushTx objs pq r; push_all objs pq rest end.
Definition ReapMaxBytesMaxGas (m : TxMempool) (maxBytes maxGas : Z) : go (TxMempool * list Tx) :=
  '(pq, taken, txs) ← reap_loop (length (pq_txs (tm_priorityIndex m))) (tm_objs m) maxBytes maxGas 0 0 (tm_priorityIndex m) [] [];
  pq ← push_all (tm_objs m) pq taken;
  Val (set_pq m pq, txs).

Fixpoint reap_max_loop (fuel : nat) (objs : Objs) (max : Z) (pq : TxPriorityQueue) (taken : list nat) : go (TxPriorityQueue * list nat) :=
  match fuel with
  | O => Val (pq, taken)
  | S fuel =>
      if (NumTxs pq >? 0) && (len taken <? max) then '(pq, r) ← PopTx objs pq; reap_max_loop fuel objs max pq (taken ++ [r]) else Val (pq, taken)
  end.
Definition ReapMaxTxs (m : TxMempool) (max : Z) : go (TxMempool * list Tx) :=
  let numTxs := NumTxs (tm_priorityIndex m) in
  let max := if max <? 0 then numTxs else max in
  '(pq, taken) ← reap_max_loop (length (pq_txs (tm_priorityIndex m))) (tm_objs m) max (tm_priorityIndex m) [];
  pq ← push_all (tm_objs m) pq taken;
  Val (set_pq m pq, (fun r => w_tx (tx_at m r)) <$> taken).

(** *** After a block *)

Fixpoint update_txs (m : TxMempool) (i : Z) (txs : list Tx) (codes : list Z) : go TxMempool :=
  match txs with
  | [] => Val m
  | tx :: rest =>
      code ← slice_get codes i;
      let m := if code =? CodeTypeOK then set_cache m (cache_Push (tm_cache m) tx).1
               else if mc_KeepInvalidTxsInCache (tm_config m) then m else set_cache m (cache_Remove (tm_cache m) tx) in
      m ← (match GetTxByHash (tm_txStore m) (Tx_Key tx) with Some r => removeTx m r false | None => Val m end);
      update_txs m (i + 1) rest codes
  end.

(** The leading transactions that satisfy [expired], and the rest. *)
Fixpoint split_expired (expired : nat -> bool) (txs : list nat) : list nat * list nat :=
  match txs with
  | r :: rest => if expired r then let '(a, b) := split_expired expired rest in (r :: a, b) else ([], txs)
  | [] => ([], [])
  end.
Definition purgeExpiredTxs (m : TxMempool) (blockHeight : Z) (now : Time) : go TxMempool :=
  let cfg := tm_config m in
  let '(old, hs) := if mc_TTLNumBlocks cfg >? 0
                    then split_expired (fun r => int64 (blockHeight - w_height (tx_at m r)) >? mc_TTLNumBlocks cfg) (tm_heightIndex m)
                    else ([], tm_heightIndex m) in
  let '(old', ts) := if mc_TTLDuration cfg >? 0
                     then split_expired (fun r => clip64 (now - w_timestamp (tx_at m r)) >? mc_TTLDuration cfg) (tm_timestampIndex m)
                     else ([], tm_timestampIndex m) in
  let expiredTxs := fold_left (fun e r => <[Tx_Key (w_tx (tx_at m r)) := r]> e) (old ++ old') (∅ : gmap bytes nat) in
  removeTxs (set_lists m hs ts) (visit (map_to_list expiredTxs).*2) false.

(** The requests sent to the application, and the cursors that wait for the answers. *)
Fixpoint recheck_requests (fuel : nat) (m : TxMempool) (e : option nat) : go (list Tx) :=
  match fuel, e with
  | S fuel, Some e =>
      c ← element (tm_gossipIndex m) e;
      let w := tx_at m (ce_Value c) in
      rest ← recheck_requests fuel m (ce_next c);
      Val (if IsTxRemoved (tm_objs m) (tm_txStore m) (w_hash w) then rest else w_tx w :: rest)
  | _, _ => Val []
  end.
Definition updateReCheckTxs (m : TxMempool) : go (TxMempool * list Tx) :=
  _ ← panic_if (TxMempool_Size m =? 0) "attempted to update re-CheckTx txs when mempool is empty";
  let m := set_recheck m (Front (tm_gossipIndex m)) (Back (tm_gossipIndex m)) in
  requests ← recheck_requests (cl_fresh (tm_gossipIndex m)) m (Front (tm_gossipIndex m));
  Val (m, requests).

Definition Update (m : TxMempool) (blockHeight : Z) (blockTxs : list Tx) (codes : list Z) (newPreFn : PreCheckFunc) (newPostFn : PostCheckFunc) (now : Time)
    : go (TxMempool * list Tx) :=
  let m := set_block m blockHeight (match newPreFn with Some _ => newPreFn | None => tm_preCheck m end)
             (match newPostFn with Some _ => newPostFn | None => tm_postCheck m end) in
  m ← update_txs m 0 blockTxs codes;
  m ← purgeExpiredTxs m blockHeight now;
  if TxMempool_Size m >? 0 then
    if mc_Recheck (tm_config m) then updateReCheckTxs m else m ← notifyTxsAvailable m; Val (m, [])
  else Val (m, []).

(** Moves the cursor to the transaction that was answered; [None] when the end is reached first. *)
Fixpoint find_recheck (fuel : nat) (m : TxMempool) (tx : Tx) (cursor : nat) : go (option (nat * nat)) :=
  match fuel with
  | O => Val None
  | S fuel =>
      c ← element (tm_gossipIndex m) cursor;
      if bytes_equal tx (w_tx (tx_at m (ce_Value c))) then Val (Some (cursor, ce_Value c))
      else if bool_decide (Some cursor = tm_recheckEnd m) then Val None
      else
        match ce_next c with
        | None => Panic "invalid memory address or nil pointer dereference"
        | Some next => find_recheck fuel m tx next
        end
  end.
Definition defaultTxCallback (m : TxMempool) (tx : Tx) (res : option ResponseCheckTx) : go TxMempool :=
  match tm_recheckCursor m, res with
  | None, _ | _, None => Val m
  | Some cursor, Some res =>
      found ← find_recheck (cl_fresh (tm_gossipIndex m)) m tx cursor;
      match found with
      | None => Val (set_recheck m None (tm_recheckEnd m))
      | Some (cursor, r) =>
          let m := set_recheck m (Some cursor) (tm_recheckEnd m) in
          let w := tx_at m r in
          m ← (if IsTxRemoved (tm_objs m) (tm_txStore m) (w_hash w) then Val m
               else
                 let post := match tm_postCheck m with Some f => f tx res | None => true end in
                 if (rc_Code res =? CodeTypeOK) && post then Val (set_objs m (alter (with_priority (rc_Priority res)) r (tm_objs m)) (tm_fresh m))
                 else
                   _ ← panic_if (negb (bool_decide (w_gossipEl w = Some cursor))) "corrupted reCheckTx cursor";
                   removeTx m r (negb (mc_KeepInvalidTxsInCache (tm_config m))));
          let next := if bool_decide (Some cursor = tm_recheckEnd m) then None else Next (tm_gossipIndex m) cursor in
          let m := set_recheck m next (tm_recheckEnd m) in
          if bool_decide (next = None) && (TxMempool_Size m >? 0) then notifyTxsAvailable m else Val m
      end
  end.
End mempool.
