(* ===== verification/MempoolProofs.v ===== *)
(** * The indexes of the mempool agree, and blocks are filled in the order of priority *)
From Stdlib Require Import ZArith Lia Strings.Byte Strings.String Sorting.Sorted.
From stdpp Require Import base list strings gmap.
From S2P Require Import Prelude.
From S2P Require Import Merkle.
From S2P Require Import MerkleProofs.
From S2P Require Import Proto.
From S2P Require Import SafeMath.
From S2P Require Import Types.
From S2P Require Import Block.
From S2P Require Import CList.
From S2P Require Import Heap.
From S2P Require Import Mempool.

(** ** The priority queue is a heap *)

Lemma tx_less_order objs : StrictOrderBool (tx_less objs).
Proof.
  split; unfold better_eq, tx_less.
  - intros a b. repeat case_match; z_bool; try lia; intros; z_bool; repeat case_match; z_bool; try lia; try done.
  - intros a b c. repeat case_match; z_bool; intros; z_bool; try lia; try done.
Qed.

(** Every transaction of the queue knows its place, and those of [D] that left it have the index -1. *)
Record pq_good (D : nat -> Prop) (pq : TxPriorityQueue) : Prop := {
  pqg_nodup : NoDup (pq_txs pq);
  pqg_index i r : pq_txs pq !! i = Some r -> pq_index pq !! r = Some (Z.of_nat i);
  pqg_left r : D r -> (r ∉ pq_txs pq) -> pq_index pq !! r = Some (-1)
}.

Lemma slice_get_in {E A} `{!Inhabited A} (l : list A) i : (i < length l)%nat -> slice_get (E := E) l (Z.of_nat i) = Val (l !!! i).
Proof. intros Hi. unfold slice_get. rewrite zlookup_nat. by rewrite list_lookup_lookup_total_lt. Qed.
Lemma slice_set_nat {E A} (l : list A) i a : (i < length l)%nat -> slice_set (E := E) l (Z.of_nat i) a = Val (<[i := a]> l).
Proof. intros [x Hx]%lookup_lt_is_Some_2. unfold slice_set. by rewrite zlookup_nat, Hx, Nat2Z.id. Qed.

Lemma exchange_lookup_Some (l : list nat) i j k r : (i < length l)%nat -> (j < length l)%nat -> exchange l i j !! k = Some r ->
  (k = i /\ r = l !!! j) \/ (k <> i /\ k = j /\ r = l !!! i) \/ (k <> i /\ k <> j /\ l !! k = Some r).
Proof.
  intros Hi Hj. unfold exchange. intros [(<- & <- & _)|(Hne & Hk)]%list_lookup_insert_Some; [by left|].
  apply list_lookup_insert_Some in Hk as [(<- & <- & _)|(Hne' & Hk)]; [right; left; done|right; right; done].
Qed.

#[export] Program Instance pq_laws objs (D : nat -> Prop) : HeapLaws (pq_heap objs) (tx_less objs) := {| items := pq_txs; good := pq_good D |}.
Next Obligation. done. Qed.
Next Obligation.
  intros objs D pq i j Hi Hj. simpl in *. unfold pq_Less. rewrite !slice_get_in by done. done.
Qed.
Next Obligation.
  intros objs D pq i j [Hnd Hidx Hleft] Hi Hj. simpl in *. unfold pq_Swap. rewrite !slice_get_in by done. cbn [mbind outcome_bind].
  rewrite slice_set_nat by done. cbn [mbind outcome_bind]. rewrite slice_set_nat by (by rewrite length_insert). cbn [mbind outcome_bind].
  set (a := pq_txs pq !!! i). set (b := pq_txs pq !!! j). eexists. split; [done|].
  assert (Hex : <[j := a]> (<[i := b]> (pq_txs pq)) = exchange (pq_txs pq) i j).
  { unfold exchange. fold a b. destruct (decide (i = j)) as [<-|Hne]; [done|]. by rewrite list_insert_insert_ne. }
  simpl. rewrite Hex. split; [done|]. assert (Hperm : exchange (pq_txs pq) i j ≡ₚ pq_txs pq) by (by apply exchange_perm).
  assert (Ha : pq_txs pq !! i = Some a) by (by apply list_lookup_lookup_total_lt). assert (Hb : pq_txs pq !! j = Some b) by (by apply list_lookup_lookup_total_lt).
  split; simpl; [by rewrite Hperm| |].
  - intros k r Hk. apply exchange_lookup_Some in Hk as [(-> & ->)|[(Hk & -> & ->)|(Hki & Hkj & Hk)]]; [| | |done|done].
    + fold b. destruct (decide (a = b)) as [Hab|Hab]; [|by rewrite lookup_insert_ne, lookup_insert_eq by done].
      rewrite Hab, lookup_insert_eq. f_equal. f_equal. eapply NoDup_lookup; [exact Hnd|done|]. by rewrite Hab in Ha.
    + fold a. by rewrite lookup_insert_eq.
    + rewrite !lookup_insert_ne; [by apply Hidx| |]; intros <-; [apply Hkj|apply Hki]; eapply NoDup_lookup; done.
  - intros r Hr Hni. rewrite Hperm in Hni. rewrite !lookup_insert_ne; [by apply Hleft| |]; intros <-; apply Hni; eapply list_elem_of_lookup_2; done.
Qed.
Next Obligation.
  intros objs D pq x [Hnd Hidx Hleft] Hx. simpl in *. split; [done|]. split; simpl.
  - apply NoDup_app. split_and!; [done| |apply NoDup_singleton]. intros y Hy ->%list_elem_of_singleton. done.
  - intros i r [Hi|[Hge Hi]]%lookup_app_Some.
    + rewrite lookup_insert_ne; [by apply Hidx|]. intros <-. apply Hx. eapply list_elem_of_lookup_2; done.
    + destruct (i - length (pq_txs pq))%nat eqn:Hd; [|done]. simpl in Hi. injection Hi as ->. rewrite lookup_insert_eq. unfold len. f_equal. lia.
  - intros r Hr Hni. rewrite lookup_insert_ne; [apply Hleft; [done|]|]; [intros Hin; apply Hni, elem_of_app; by left|].
    intros <-. apply Hni, elem_of_app. right. by left.
Qed.
Next Obligation.
  intros objs D pq l x [Hnd Hidx Hleft] Hl. simpl in *. unfold pq_Pop. rewrite Hl in *. unfold len. rewrite length_app. simpl.
  replace (Z.of_nat (length l + 1) - 1) with (Z.of_nat (length l)) by lia. rewrite slice_get_in by (rewrite length_app; simpl; lia).
  cbn [mbind outcome_bind]. rewrite lookup_total_app_r, Nat.sub_diag by lia. simpl. eexists. split; [done|].
  assert (Ht : take (length l + 1 - 1) (l ++ [x]) = l) by (replace (length l + 1 - 1)%nat with (length l) by lia; apply take_app_length).
  simpl. rewrite Ht. split; [done|]. apply NoDup_app in Hnd as (Hnd & Hd & _). split; simpl; [done| |].
  - intros i r Hi. rewrite lookup_insert_ne; [apply Hidx; by apply lookup_app_l_Some|]. intros <-. apply (Hd x); [eapply list_elem_of_lookup_2; done|by left].
  - intros r Hr Hni. destruct (decide (x = r)) as [->|Hne]; [by rewrite lookup_insert_eq|]. rewrite lookup_insert_ne by done. apply Hleft; [done|].
    intros [?| ->%list_elem_of_singleton]%elem_of_app; done.
Qed.

(** ** Sorted lists *)

Lemma search_loop_spec n f : (forall a b, 0 <= a <= b -> b < n -> f a = true -> f b = true) -> forall fuel i j,
  0 <= i <= j -> j <= n -> j - i <= Z.of_nat fuel -> (forall k, 0 <= k < i -> f k = false) -> (forall k, j <= k < n -> f k = true) ->
  let p := search_loop fuel f i j in
  i <= p <= j /\ (forall k, 0 <= k < p -> f k = false) /\ (forall k, p <= k < n -> f k = true).
Proof.
  intros Hmono. induction fuel as [|fuel IH]; intros i j Hij Hjn Hf Hlo Hhi; cbn [search_loop].
  { assert (i = j) as -> by lia. split; [lia|done]. }
  destruct (Z.ltb_spec i j); [|assert (i = j) as -> by lia; split; [lia|done]].
  rewrite Z.shiftr_div_pow2 by lia. change (2 ^ 1) with 2. set (h := (i + j) / 2). assert (Hh : i <= h < j) by (unfold h; split; [apply Z.div_le_lower_bound|apply Z.div_lt_upper_bound]; lia).
  destruct (f h) eqn:Hfh.
  - destruct (IH i h) as (? & ? & ?); [lia|lia|lia|done| |split; [lia|done]]. intros k Hk. apply (Hmono h k); [lia|lia|done].
  - destruct (IH (h + 1) j) as (? & ? & ?); [lia|lia|lia| |done|split; [lia|done]]. intros k Hk.
    destruct (f k) eqn:Hfk; [|done]. rewrite <- Hfh. symmetry. apply (Hmono k h); [lia|lia|done].
Qed.

Section sorted.
Context (objs : Objs) (key : WrappedTx -> Z).
Let less (a b : WrappedTx) : bool := key a >=? key b.
Definition sorted_by (txs : list nat) : Prop := StronglySorted (fun a b => key (objs !!! a) <= key (objs !!! b)) txs.

Lemma sorted_lookup txs i j a b : sorted_by txs -> txs !! i = Some a -> txs !! j = Some b -> (i <= j)%nat -> key (objs !!! a) <= key (objs !!! b).
Proof.
  intros Hs. revert i j. induction Hs as [|x l Hs IH Hx]; intros i j Ha Hb Hij; [done|]. destruct i as [|i], j as [|j]; simplify_eq/=; try lia.
  - by eapply Forall_lookup_1 in Hx.
  - apply (IH i j); [done..|lia].
Qed.

(** What the search finds: the list before it is smaller, the rest is not. *)
Lemma list_search_spec txs w : sorted_by txs ->
  let p := Z.to_nat (list_search objs less txs w) in
  (p <= length txs)%nat /\ (forall x, x ∈ take p txs -> key (objs !!! x) < key w) /\ (forall x, x ∈ drop p txs -> key w <= key (objs !!! x)).
Proof.
  intros Hs. unfold list_search, sort_Search. set (f := fun i => _).
  assert (Hf : forall i r, txs !! i = Some r -> f (Z.of_nat i) = less (objs !!! r) w) by (intros i r Hr; unfold f; by rewrite Nat2Z.id, Hr).
  destruct (search_loop_spec (len txs) f) with (fuel := Z.to_nat (len txs)) (i := 0) (j := len txs) as (Hp & Hlo & Hhi); [|unfold len; lia|lia|unfold len; lia|lia|lia|].
  { intros a b Hab Hb. unfold f. destruct (lookup_lt_is_Some_2 txs (Z.to_nat a)) as [x Hx]; [unfold len in *; lia|].
    destruct (lookup_lt_is_Some_2 txs (Z.to_nat b)) as [y Hy]; [unfold len in *; lia|]. rewrite Hx, Hy. unfold less. intros Hle. z_bool.
    rewrite Z.geb_leb. apply Z.leb_le. pose proof (sorted_lookup txs _ _ _ _ Hs Hx Hy). lia. }
  set (p := search_loop _ _ _ _) in *. unfold len in *. split; [lia|]. split; intros x [k Hk]%list_elem_of_lookup.
  - apply lookup_take_Some in Hk as [Hk Hlt]. specialize (Hlo (Z.of_nat k)). rewrite (Hf _ _ Hk) in Hlo. unfold less in Hlo. rewrite Z.geb_leb in Hlo.
    apply Z.leb_gt, Hlo. lia.
  - rewrite lookup_drop in Hk. pose proof (lookup_lt_Some _ _ _ Hk). specialize (Hhi (Z.of_nat (Z.to_nat p + k))). rewrite (Hf _ _ Hk) in Hhi. unfold less in Hhi. rewrite Z.geb_leb in Hhi.
    apply Z.leb_le, Hhi. lia.
Qed.

Lemma sorted_app a b : sorted_by (a ++ b) <-> sorted_by a /\ sorted_by b /\ forall x y, x ∈ a -> y ∈ b -> key (objs !!! x) <= key (objs !!! y).
Proof.
  unfold sorted_by. induction a as [|z a IH]; simpl.
  - split; [|tauto]. intros Hb. split_and!; [constructor|done|]. intros x y Hx. by apply not_elem_of_nil in Hx.
  - split.
    + intros [Hs Hz]%StronglySorted_inv. apply IH in Hs as (Ha & Hb & Hab). apply Forall_app in Hz as [Hza Hzb]. split_and!; [by constructor|done|].
      intros x y [->|Hx]%elem_of_cons Hy; [|by apply Hab]. rewrite Forall_forall in Hzb. by apply Hzb.
    + intros ([Ha Hz]%StronglySorted_inv & Hb & Hab). constructor; [apply IH; split_and!; [done|done|]; intros; apply Hab; [by right|done]|].
      apply Forall_app. split; [done|]. apply Forall_forall. intros y Hy. apply Hab; [by left|done].
Qed.

Lemma list_Insert_spec txs r : sorted_by txs -> sorted_by (list_Insert objs less txs r) /\ list_Insert objs less txs r ≡ₚ r :: txs.
Proof.
  intros Hs. unfold list_Insert. destruct (list_search_spec txs (objs !!! r) Hs) as (_ & Hlo & Hhi). set (p := Z.to_nat _) in *.
  pose proof Hs as Hs'. rewrite <- (take_drop p txs) in Hs'. apply sorted_app in Hs' as (Ha & Hb & Hab). split.
  - apply sorted_app. split_and!; [done| |].
    + constructor; [done|]. apply Forall_forall. intros x Hx. by apply Hhi.
    + intros x y Hx [->|Hy]%elem_of_cons; [specialize (Hlo _ Hx); lia|by apply Hab].
  - rewrite <- Permutation_middle. by rewrite take_drop.
Qed.

Lemma remove_ref_spec txs r : remove_ref txs r `sublist_of` txs /\ (r ∈ txs -> txs ≡ₚ r :: remove_ref txs r).
Proof.
  induction txs as [|x txs [IHs IHp]]; simpl; [split; [constructor|by intros ?%not_elem_of_nil]|]. destruct (Nat.eqb_spec x r) as [->|Hne].
  - split; [by constructor|done].
  - split; [by constructor|]. intros [->|Hr]%elem_of_cons; [done|]. rewrite Permutation_swap. f_equiv. by apply IHp.
Qed.
Lemma sorted_sublist a b : a `sublist_of` b -> sorted_by b -> sorted_by a.
Proof.
  intros Hsub. unfold sorted_by. induction Hsub as [|x l k Hlk IH|x l k Hlk IH]; [done| |].
  - intros [Hs Hx]%StronglySorted_inv. constructor; [by apply IH|]. apply Forall_forall. intros y Hy. rewrite Forall_forall in Hx. apply Hx.
    eapply sublist_subseteq; done.
  - intros [Hs _]%StronglySorted_inv. by apply IH.
Qed.
Lemma list_Remove_spec txs r : sorted_by txs -> r ∈ txs -> sorted_by (list_Remove objs less txs r) /\ txs ≡ₚ r :: list_Remove objs less txs r.
Proof.
  intros Hs Hr. unfold list_Remove. destruct (list_search_spec txs (objs !!! r) Hs) as (_ & Hlo & Hhi). set (p := Z.to_nat _) in *.
  destruct (remove_ref_spec (drop p txs) r) as [Hsub Hperm]. split.
  - eapply sorted_sublist; [|exact Hs]. etrans; [apply sublist_app; [reflexivity|exact Hsub]|]. by rewrite take_drop.
  - rewrite <- (take_drop p txs) at 1. rewrite Permutation_middle. f_equiv. apply Hperm.
    rewrite <- (take_drop p txs) in Hr. apply elem_of_app in Hr as [Hr|]; [|done]. specialize (Hlo _ Hr). lia.
Qed.
(** Removing what is not there changes nothing. *)
Lemma list_Remove_absent txs r : (r ∉ txs) -> list_Remove objs less txs r = txs.
Proof.
  intros Hr. unfold list_Remove. set (p := Z.to_nat _). assert (Hd : r ∉ drop p txs) by (intros Hin; apply Hr; eapply sublist_subseteq; [apply sublist_drop|done]).
  assert (He : forall l, (r ∉ l) -> remove_ref l r = l).
  { induction l as [|x l IH]; [done|]. intros [Hne Hni]%not_elem_of_cons. simpl. destruct (Nat.eqb_spec x r) as [->|]; [done|]. by rewrite IH. }
  rewrite He by done. apply take_drop.
Qed.
End sorted.

(** ** The invariant *)

Section pool.
Context `{!Sha256, !GoOrders}.

Record config_ok (cfg : MempoolConfig) : Prop := {
  cok_size : 0 <= mc_Size cfg <= MaxInt64;
  cok_tx : 0 <= mc_MaxTxBytes cfg;
  cok_txs : 0 <= mc_MaxTxsBytes cfg;
  cok_sum : mc_MaxTxBytes cfg + mc_MaxTxsBytes cfg <= MaxInt64
}.

(** The transactions in the mempool, and those that ever were. *)
Definition live (m : TxMempool) : list nat := pq_txs (tm_priorityIndex m).
Definition gossiped (m : TxMempool) (r : nat) : Prop := exists e, ce_Value <$> cl_elems (tm_gossipIndex m) !! e = Some r.
Definition gossip_of (objs : Objs) (r : nat) : nat := default 0%nat (w_gossipEl (objs !!! r)).

Record tx_ok (m : TxMempool) (r : nat) : Prop := {
  tok_made : is_Some (tm_objs m !! r);
  tok_here : w_removed (tx_at m r) = false;
  tok_hash : w_hash (tx_at m r) = Tx_Key (w_tx (tx_at m r));
  tok_len : len (w_tx (tx_at m r)) <= mc_MaxTxBytes (tm_config m);
  tok_gossip : exists e, w_gossipEl (tx_at m r) = Some e /\ ce_Value <$> cl_elems (tm_gossipIndex m) !! e = Some r
}.

(** All indexes hold the same transactions, except that the list by height lacks those of
    [mh] and the list by time those of [mt]. *)
Record pool_but (mh mt : list nat) (m : TxMempool) : Prop := {
  pk_config : config_ok (tm_config m);
  pk_pq : pq_good (gossiped m) (tm_priorityIndex m);
  pk_tx r : r ∈ live m -> tx_ok m r;
  pk_fresh r : is_Some (tm_objs m !! r) -> (r < tm_fresh m)%nat;
  pk_made r : gossiped m r -> is_Some (tm_objs m !! r);
  pk_gossip : exists els, clist_rep (tm_gossipIndex m) els /\ els ≡ₚ gossip_of (tm_objs m) <$> live m;
  pk_max : cl_maxLen (tm_gossipIndex m) = MaxInt64;
  pk_hash k r : ts_hashTxs (tm_txStore m) !! k = Some r <-> r ∈ live m /\ Tx_Key (w_tx (tx_at m r)) = k;
  pk_sender s r : ts_senderTxs (tm_txStore m) !! s = Some r <-> r ∈ live m /\ w_sender (tx_at m r) = s /\ s <> "";
  pk_height : sorted_by (tm_objs m) w_height (tm_heightIndex m) /\ mh ++ tm_heightIndex m ≡ₚ live m;
  pk_time : sorted_by (tm_objs m) w_timestamp (tm_timestampIndex m) /\ mt ++ tm_timestampIndex m ≡ₚ live m;
  pk_size : tm_sizeBytes m = sumZ (fun r => WrappedTx_Size (tx_at m r)) (live m);
  pk_bytes : tm_sizeBytes m <= mc_MaxTxsBytes (tm_config m);
  pk_count : len (live m) <= mc_Size (tm_config m)
}.
Definition pool_ok : TxMempool -> Prop := pool_but [] [].
Definition pool_ordered (m : TxMempool) : Prop := heap_ordered (tx_less (tm_objs m)) (live m).

(** What the operations on single transactions leave alone. *)
Definition frame (m m' : TxMempool) : Prop :=
  tm_config m' = tm_config m /\ tm_height m' = tm_height m /\ tm_recheckCursor m' = tm_recheckCursor m /\ tm_recheckEnd m' = tm_recheckEnd m /\
  tm_preCheck m' = tm_preCheck m /\ tm_postCheck m' = tm_postCheck m /\ tm_fresh m' = tm_fresh m /\
  tm_txsAvailable m' = tm_txsAvailable m /\ tm_notifiedTxsAvailable m' = tm_notifiedTxsAvailable m.

Lemma heap_ordered_ext objs objs' l : (forall r, r ∈ l -> w_priority (objs' !!! r) = w_priority (objs !!! r) /\ w_timestamp (objs' !!! r) = w_timestamp (objs !!! r)) ->
  heap_ordered (tx_less objs) l -> heap_ordered (tx_less objs') l.
Proof.
  intros He Ho c Hc Hf. specialize (Ho c Hc Hf). unfold better_eq, tx_less in *. pose proof (parent_lt c).
  assert (Hin : forall k, (k < length l)%nat -> l !!! k ∈ l) by (intros k Hk; apply list_elem_of_lookup_2 with k; by apply list_lookup_lookup_total_lt).
  destruct (He (l !!! c)) as [-> ->]; [apply Hin; lia|]. destruct (He (l !!! parent c)) as [-> ->]; [apply Hin; lia|]. done.
Qed.

Lemma sorted_ext objs objs' key l : (forall r, r ∈ l -> key (objs' !!! r) = key (objs !!! r)) -> sorted_by objs key l -> sorted_by objs' key l.
Proof.
  unfold sorted_by. intros He Hs. induction Hs as [|x l Hs IH Hx]; constructor; [apply IH; intros; apply He; by right|].
  rewrite Forall_forall in Hx |- *. intros y Hy. rewrite !He; [by apply Hx|by right|by left].
Qed.

Lemma alter_total (objs : Objs) f r k : alter f r objs !!! k = if decide (k = r /\ is_Some (objs !! r)) then f (objs !!! r) else objs !!! k.
Proof.
  destruct (decide (k = r)) as [->|Hne].
  - rewrite !lookup_total_alt, lookup_alter_eq. destruct (objs !! r) eqn:Hr; simpl.
    + by rewrite decide_True by eauto.
    + rewrite decide_False; [done|]. intros [_ [? ?]]. done.
  - rewrite decide_False by tauto. by rewrite !lookup_total_alt, lookup_alter_ne.
Qed.

Lemma pq_good_weaken (D D' : nat -> Prop) pq : (forall r, D' r -> D r \/ r ∈ pq_txs pq) -> pq_good D pq -> pq_good D' pq.
Proof. intros Hd [Hn Hi Hl]. split; [done..|]. intros r Hr Hni. destruct (Hd r Hr); [by apply Hl|done]. Qed.

(** The invariant is about the indexes and the objects only. *)
Definition indexes (m : TxMempool) :=
  (tm_config m, tm_sizeBytes m, tm_txStore m, tm_gossipIndex m, tm_priorityIndex m, tm_heightIndex m, tm_timestampIndex m, tm_objs m, tm_fresh m).
Lemma pool_ext mh mt m m' : indexes m' = indexes m -> pool_but mh mt m -> pool_but mh mt m'.
Proof.
  destruct m, m'. unfold indexes. simpl. intros [= -> -> -> -> -> -> -> -> ->] []. split; try done. intros r Hr. destruct (pk_tx0 r Hr). by split.
Qed.
Lemma ordered_ext m m' : indexes m' = indexes m -> pool_ordered m -> pool_ordered m'.
Proof. destruct m, m'. unfold indexes. simpl. intros [= -> -> -> -> -> -> -> -> ->]. done. Qed.

(** *** Removing a transaction *)

(** What [removeTx] does to the objects does not show in the indexes. *)
Lemma mark_total (objs : Objs) r k : (alter mark_removed r objs !!! k) =
  if decide (k = r /\ is_Some (objs !! r)) then mark_removed (objs !!! r) else objs !!! k.
Proof. apply alter_total. Qed.

Definition without (r : nat) (l : list nat) : list nat := filter (fun x => x <> r) l.
Lemma without_elem r l x : x ∈ without r l <-> x <> r /\ x ∈ l.
Proof. unfold without. by rewrite list_elem_of_filter. Qed.
Lemma without_absent r l : (r ∉ l) -> without r l = l.
Proof. induction l as [|y l IH]; [done|]. intros [Hne Hq]%not_elem_of_cons. unfold without in *. rewrite filter_cons_True by congruence. by rewrite IH. Qed.
Lemma without_perm r l k : NoDup (l ++ k) -> r ∈ l -> l ++ k ≡ₚ r :: (without r l ++ k).
Proof.
  intros Hnd (a & b & ->)%list_elem_of_split. rewrite <- app_assoc in Hnd. simpl in Hnd. apply NoDup_app in Hnd as (_ & Ha & [Hb _]%NoDup_cons).
  assert (Hw : without r (a ++ r :: b) = without r a ++ without r b) by (unfold without; rewrite filter_app, filter_cons_False; [done|tauto]).
  rewrite Hw, !without_absent.
  - rewrite <- !app_assoc. simpl. symmetry. apply Permutation_middle.
  - intros Hin. apply Hb, elem_of_app. by left.
  - intros Hin. apply (Ha r Hin). by left.
Qed.


(** One sorted index when [r] leaves. *)
Lemma index_remove objs objs' key missing idx liv liv' r : (forall k, key (objs' !!! k) = key (objs !!! k)) ->
  NoDup liv -> r ∈ liv -> liv ≡ₚ r :: liv' -> sorted_by objs key idx -> missing ++ idx ≡ₚ liv ->
  let idx' := list_Remove objs' (fun a b => key a >=? key b) idx r in
  sorted_by objs' key idx' /\ without r missing ++ idx' ≡ₚ liv'.
Proof.
  intros Hkey Hnd Hr Hperm Hs Hidx. assert (Hs' : sorted_by objs' key idx) by (by apply (sorted_ext objs)).
  simpl. assert (Hnd' : NoDup (missing ++ idx)) by (by rewrite Hidx).
  destruct (decide (r ∈ idx)) as [Hin|Hni].
  - destruct (list_Remove_spec objs' key idx r Hs' Hin) as [Hsr Hpr]. split; [done|].
    assert (Hm : r ∉ missing) by (intros Hm; apply NoDup_app in Hnd' as (_ & Hd & _); by apply (Hd r)). rewrite without_absent by done.
    clear Hsr. set (idx' := list_Remove _ _ _ _) in *. clearbody idx'. apply (Permutation_cons_inv (a := r)). rewrite <- Hperm, <- Hidx, Hpr. apply Permutation_middle.
  - rewrite list_Remove_absent by done. split; [done|]. assert (Hm : r ∈ missing) by (rewrite <- Hidx in Hr; apply elem_of_app in Hr as [|]; done).
    apply (Permutation_cons_inv (a := r)). rewrite <- Hperm, <- Hidx. symmetry. by apply without_perm.
Qed.

Lemma fmap_ext_in {A B} (f g : A -> B) (l : list A) : (forall x, x ∈ l -> f x = g x) -> f <$> l = g <$> l.
Proof. intros He. apply list_fmap_ext. intros i x Hi. apply He. by eapply list_elem_of_lookup_2. Qed.

Lemma live_size_nonneg (m : TxMempool) l : 0 <= sumZ (fun r => WrappedTx_Size (tx_at m r)) l.
Proof. apply sumZ_nonneg, Forall_forall. intros x _. unfold WrappedTx_Size, len. lia. Qed.

(** The queue when a transaction leaves it. *)
Lemma pq_RemoveTx_ok objs D pq r : pq_good D pq -> r ∈ pq_txs pq ->
  exists pq', pq_RemoveTx objs pq r = Val pq' /\ pq_good D pq' /\ pq_txs pq ≡ₚ r :: pq_txs pq' /\
    (heap_ordered (tx_less objs) (pq_txs pq) -> heap_ordered (tx_less objs) (pq_txs pq')).
Proof.
  intros Hg [i Hi]%list_elem_of_lookup. pose proof (pqg_index _ _ Hg _ _ Hi) as Hx. unfold pq_RemoveTx, heapIndex. rewrite Hx. simpl.
  pose proof (lookup_lt_Some _ _ _ Hi). destruct (Z.ltb_spec (Z.of_nat i) (NumTxs pq)); [|unfold NumTxs, len in *; lia].
  pose proof (tx_less_order objs) as Hso. destruct (heap_Remove_full (HL := pq_laws objs D) pq i r Hg Hi) as (pq' & Hr & Hg' & Hp & Ho).
  rewrite Hr. cbn [mbind outcome_bind]. by exists pq'.
Qed.

(** The gossip list when an element leaves it. *)
Lemma gossip_remove_ok l els e rest : clist_rep l els -> els ≡ₚ e :: rest ->
  exists l1 v l2 els', CList_Remove l e = Val (l1, v) /\ DetachPrev l1 e = Val l2 /\ clist_rep l2 els' /\ els' ≡ₚ rest /\ cl_maxLen l2 = cl_maxLen l /\
    forall x, (ce_Value : CElement nat -> nat) <$> cl_elems l2 !! x = ce_Value <$> cl_elems l !! x.
Proof.
  intros Hrep Hp. assert (He : e ∈ els) by (rewrite Hp; by left). apply list_elem_of_split in He as (a & b & ->).
  destruct (CList_Remove_rep l a e b Hrep) as (l1 & c & c' & _ & Hrem & Hrep1 & Hmax1 & Hc' & Hrm & _ & Hv1).
  destruct (DetachPrev_rep l1 (a ++ b) e c' Hrep1 Hc' Hrm) as (l2 & Hd & Hrep2 & Hmax2 & _ & Hv2).
  exists l1, (ce_Value c), l2, (a ++ b). split_and!; [done|done|done| |congruence|by intros x; rewrite Hv2].
  apply (Permutation_cons_inv (a := e)). rewrite <- Hp. apply Permutation_middle.
Qed.

Lemma removeTx_ok mh mt m r b : pool_but mh mt m -> r ∈ live m ->
  exists m', removeTx m r b = Val m' /\ pool_but (without r mh) (without r mt) m' /\ live m ≡ₚ r :: live m' /\ frame m m' /\
    (forall k, k <> r -> tm_objs m' !! k = tm_objs m !! k) /\ (pool_ordered m -> pool_ordered m') /\
    tm_sizeBytes m' = tm_sizeBytes m - WrappedTx_Size (tx_at m r) /\ (forall k, gossiped m' k <-> gossiped m k).
Proof.
  intros Hok Hr. pose proof (pk_tx _ _ _ Hok _ Hr) as [[w0 Hw0] Hhere Hhash Hlen (e & He & Hev)]. pose proof (pqg_nodup _ _ (pk_pq _ _ _ Hok)) as Hnd. fold (live m) in Hnd.
  assert (Hst : ts_hashTxs (tm_txStore m) !! w_hash (tx_at m r) = Some r) by (apply (pk_hash _ _ _ Hok); by rewrite Hhash).
  set (objs' := alter mark_removed r (tm_objs m)).
  assert (Ho : forall k, objs' !!! k = if decide (k = r) then mark_removed (tx_at m r) else tx_at m k).
  { intros k. unfold objs'. rewrite alter_total, Hw0. unfold tx_at. destruct (decide (k = r)) as [->|Hne]; [by rewrite decide_True by eauto|by rewrite decide_False by tauto]. }
  assert (Hsame : forall {B} (f : WrappedTx -> B), (forall w, f (mark_removed w) = f w) -> forall k, f (objs' !!! k) = f (tx_at m k)).
  { intros B f Hf k. rewrite Ho. destruct (decide (k = r)) as [->|]; [apply Hf|done]. }
  destruct (pq_RemoveTx_ok objs' _ _ _ (pk_pq _ _ _ Hok) Hr) as (pq' & Hpq & Hgood & Hlive & Hord). fold (live m) in Hlive, Hord.
  destruct (pk_gossip _ _ _ Hok) as (els & Hrep & Hels).
  assert (Hel : els ≡ₚ e :: (gossip_of (tm_objs m) <$> pq_txs pq')).
  { rewrite Hels, Hlive. simpl. unfold gossip_of at 1. fold (tx_at m r). by rewrite He. }
  destruct (gossip_remove_ok _ _ _ _ Hrep Hel) as (l1 & v & l2 & els' & Hrem & Hdet & Hrep2 & Hels2 & Hmax2 & Hv).
  set (hs := list_Remove objs' height_less (tm_heightIndex m) r). set (ts := list_Remove objs' timestamp_less (tm_timestampIndex m) r).
  pose proof (live_size_nonneg m (pq_txs pq')) as Hnn. pose proof (pk_size _ _ _ Hok) as Hsz. rewrite Hlive in Hsz. simpl in Hsz.
  assert (Hint : int64 (tm_sizeBytes m - WrappedTx_Size (tx_at m r)) = tm_sizeBytes m - WrappedTx_Size (tx_at m r)).
  { pose proof (pk_bytes _ _ _ Hok). destruct (pk_config _ _ _ Hok). apply int64_id. unfold WrappedTx_Size, len in *. int_lia. }
  set (m1 := set_indexes (set_objs m objs' (tm_fresh m)) (tm_sizeBytes m - WrappedTx_Size (tx_at m r)) (TxStore_RemoveTx (tm_txStore m) (tx_at m r)) l2 pq' hs ts).
  set (m' := if b then set_cache m1 (cache_Remove (tm_cache m1) (w_tx (tx_at m r))) else m1).
  exists m'.
  assert (Hrun : removeTx m r b = Val m').
  { unfold removeTx, IsTxRemoved. rewrite Hst. fold (tx_at m r). rewrite Hhere. cbn [tm_objs tm_priorityIndex set_objs tm_heightIndex tm_timestampIndex tm_gossipIndex]. fold objs'.
    rewrite Hpq. cbn [mbind outcome_bind]. rewrite He. cbn [mbind outcome_bind]. rewrite Hrem. cbn [mbind outcome_bind]. rewrite Hdet. cbn [mbind outcome_bind].
    cbn [tm_sizeBytes set_objs]. rewrite Hint. by unfold m', m1; destruct b. }
  assert (Hobjs : tm_objs m' = objs') by (by unfold m'; destruct b). assert (Hpq' : tm_priorityIndex m' = pq') by (by unfold m'; destruct b).
  split; [done|]. split; [|split_and!].
  - assert (Hm1 : pool_but (without r mh) (without r mt) m1); [|unfold m'; destruct b; [by apply (pool_ext _ _ m1)|done]].
    assert (Hin : forall k, k ∈ live m1 <-> k <> r /\ k ∈ live m).
    { intros k. rewrite Hlive. change (live m1) with (pq_txs pq'). rewrite Hlive in Hnd. apply NoDup_cons in Hnd as [Hni _]. split.
      - intros Hk. split; [intros ->; done|by right].
      - intros [Hne [->|Hk]%elem_of_cons]; done. }
    assert (Hat : forall k, k ∈ live m1 -> tx_at m1 k = tx_at m k) by (intros k [Hne _]%Hin; change (tx_at m1 k) with (objs' !!! k); by rewrite Ho, decide_False).
    assert (Hsm : forall k, is_Some (tm_objs m1 !! k) <-> is_Some (tm_objs m !! k)).
    { intros k. change (tm_objs m1) with objs'. unfold objs'. destruct (decide (r = k)) as [->|Hne]; [rewrite lookup_alter_eq; by rewrite fmap_is_Some|by rewrite lookup_alter_ne]. }
    assert (Hgs : forall k, gossiped m1 k <-> gossiped m k) by (intros k; unfold gossiped; change (tm_gossipIndex m1) with l2; by setoid_rewrite Hv).
    destruct Hok as [Hcfg Hgd Htx Hfr Hmade _ Hmax Hhk Hsk [Hhs Hhp] [Hts Htp] _ Hby Hcnt]. split; try done.
    + apply (pq_good_weaken (gossiped m)); [|done]. intros k Hk. left. by apply Hgs.
    + intros k Hk. pose proof (proj1 (Hin k) Hk) as [Hne Hk']. destruct (Htx k Hk') as [? ? ? ? (e' & He' & Hv')].
      split; rewrite ?Hat by done; try done; [by apply Hsm|]. exists e'. split; [done|]. change (tm_gossipIndex m1) with l2. by rewrite Hv.
    + intros k Hk. apply Hfr. by apply Hsm.
    + intros k Hk. apply Hsm, Hmade, Hgs, Hk.
    + exists els'. split; [done|]. rewrite Hels2. change (live m1) with (pq_txs pq'). erewrite (fmap_ext_in _ (gossip_of (tm_objs m1))); [done|].
      intros k Hk. unfold gossip_of. change (tm_objs m1 !!! k) with (tx_at m1 k). by rewrite Hat.
    + change (tm_gossipIndex m1) with l2. congruence.
    + intros k q. change (ts_hashTxs (tm_txStore m1)) with (base.delete (Tx_Key (w_tx (tx_at m r))) (ts_hashTxs (tm_txStore m))). rewrite lookup_delete_Some, Hhk. split.
      * intros (Hne & Hq & Hk). assert (Hq1 : q ∈ live m1) by (apply Hin; split; [intros ->; done|done]). split; [done|]. by rewrite Hat.
      * intros [Hq Hk]. rewrite Hat in Hk by done. apply Hin in Hq as [Hne Hq]. split_and!; [|done|done].
        intros Heq. apply Hne. assert (ts_hashTxs (tm_txStore m) !! k = Some q) as E1 by (by apply Hhk). assert (ts_hashTxs (tm_txStore m) !! k = Some r) as E2 by (by apply Hhk). congruence.
    + intros sd q. assert (Hsd : ts_senderTxs (tm_txStore m1) !! sd = Some q <-> ts_senderTxs (tm_txStore m) !! sd = Some q /\ q <> r).
      { simpl. unfold has_sender. case_bool_decide as Hse; simpl.
        - split; [|tauto]. intros Hq. split; [done|]. intros ->. apply Hsk in Hq as (_ & Hq1 & Hq2). congruence.
        - rewrite lookup_delete_Some. split.
          + intros [Hne Hq]. split; [done|]. intros ->. apply Hsk in Hq as (_ & Hq1 & Hq2). congruence.
          + intros [Hq Hne]. split; [|done]. intros <-. assert (ts_senderTxs (tm_txStore m) !! w_sender (tx_at m r) = Some r) by (by apply Hsk). congruence. }
      rewrite Hsd, Hsk. split.
      * intros [(Hq & Hs1 & Hs2) Hne]. assert (Hq1 : q ∈ live m1) by (by apply Hin). by rewrite Hat.
      * intros (Hq & Hs1 & Hs2). rewrite Hat in Hs1 by done. apply Hin in Hq as [Hne Hq]. done.
    + apply (index_remove (tm_objs m) objs' w_height mh (tm_heightIndex m) (live m) (pq_txs pq') r); try done. by apply Hsame.
    + apply (index_remove (tm_objs m) objs' w_timestamp mt (tm_timestampIndex m) (live m) (pq_txs pq') r); try done. by apply Hsame.
    + simpl. rewrite Hsz. change (live m1) with (pq_txs pq'). rewrite (sumZ_ext (fun k => WrappedTx_Size (tx_at m1 k)) (fun k => WrappedTx_Size (tx_at m k))); [lia|].
      apply Forall_forall. intros k Hk. by rewrite Hat.
    + simpl. unfold WrappedTx_Size, len. lia.
    + change (live m1) with (pq_txs pq'). assert (len (live m) = len (pq_txs pq') + 1) by (unfold len; rewrite Hlive; simpl; lia). simpl. lia.
  - by unfold live; rewrite Hpq'.
  - unfold m', m1. by destruct b.
  - intros k Hk. rewrite Hobjs. unfold objs'. by rewrite lookup_alter_ne.
  - unfold pool_ordered, live. rewrite Hobjs, Hpq'. intros Hob. apply Hord. eapply heap_ordered_ext; [|exact Hob]. intros k _. split; by apply Hsame.
  - unfold m'. by destruct b.
  - intros k. unfold gossiped. assert (tm_gossipIndex m' = l2) as -> by (unfold m'; by destruct b). by setoid_rewrite Hv.
Qed.

Definition minus (rs l : list nat) : list nat := fold_left (fun l r => without r l) rs l.
Lemma minus_nil rs : minus rs [] = [].
Proof. induction rs as [|r rs IH]; [done|]. simpl. exact IH. Qed.
Lemma minus_elem rs l x : x ∈ minus rs l <-> x ∈ l /\ (x ∉ rs).
Proof.
  revert l. induction rs as [|r rs IH]; intros l; simpl; [split; [intros; split; [done|apply not_elem_of_nil]|tauto]|].
  unfold minus in *. simpl. rewrite IH, without_elem, not_elem_of_cons. tauto.
Qed.

Lemma frame_refl m : frame m m.
Proof. by unfold frame. Qed.
Lemma frame_trans m1 m2 m3 : frame m1 m2 -> frame m2 m3 -> frame m1 m3.
Proof. intros (E1 & E2 & E3 & E4 & E5 & E6 & E7 & E8 & E9) (F1 & F2 & F3 & F4 & F5 & F6 & F7 & F8 & F9). unfold frame. split_and!; congruence. Qed.

Lemma removeTxs_ok rs : forall mh mt m b, pool_but mh mt m -> NoDup rs -> (forall r, r ∈ rs -> r ∈ live m) ->
  exists m', removeTxs m rs b = Val m' /\ pool_but (minus rs mh) (minus rs mt) m' /\ live m ≡ₚ rs ++ live m' /\ frame m m' /\
    (forall k, (k ∉ rs) -> tm_objs m' !! k = tm_objs m !! k) /\ (pool_ordered m -> pool_ordered m') /\
    tm_sizeBytes m' = tm_sizeBytes m - sumZ (fun r => WrappedTx_Size (tx_at m r)) rs /\ (forall k, gossiped m' k <-> gossiped m k).
Proof.
  induction rs as [|r rs IH]; intros mh mt m b Hok Hnd Hin; cbn [removeTxs].
  { exists m. split_and!; try done. change (sumZ _ []) with 0. lia. }
  apply NoDup_cons in Hnd as [Hr Hnd]. destruct (removeTx_ok mh mt m r b Hok) as (m1 & Hrun & Hok1 & Hl1 & Hf1 & Ho1 & Hord1 & Hsz1 & Hg1); [apply Hin; by left|].
  destruct (IH _ _ m1 b Hok1 Hnd) as (m2 & Hrun2 & Hok2 & Hl2 & Hf2 & Ho2 & Hord2 & Hsz2 & Hg2).
  { intros x Hx. assert (Hx' : x ∈ live m) by (apply Hin; by right). rewrite Hl1 in Hx'. apply elem_of_cons in Hx' as [->|]; done. }
  rewrite Hrun. cbn [mbind outcome_bind]. exists m2. split_and!; [done|done| | | | | |].
  - by rewrite Hl1, Hl2.
  - by eapply frame_trans.
  - intros k [Hk Hks]%not_elem_of_cons. rewrite Ho2, Ho1 by done. done.
  - auto.
  - rewrite Hsz2, Hsz1. simpl. rewrite (sumZ_ext (fun k => WrappedTx_Size (tx_at m1 k)) (fun k => WrappedTx_Size (tx_at m k))); [lia|].
    apply Forall_forall. intros k Hk. unfold tx_at. rewrite !lookup_total_alt, Ho1; [done|]. intros ->. done.
  - intros k. by rewrite Hg2, Hg1.
Qed.

(** *** Adding a transaction *)

Record addable (m : TxMempool) (r : nat) : Prop := {
  add_made : is_Some (tm_objs m !! r);
  add_new : ~ gossiped m r;
  add_absent : r ∉ live m;
  add_here : w_removed (tx_at m r) = false;
  add_hash : w_hash (tx_at m r) = Tx_Key (w_tx (tx_at m r));
  add_len : len (w_tx (tx_at m r)) <= mc_MaxTxBytes (tm_config m);
  add_key : ts_hashTxs (tm_txStore m) !! Tx_Key (w_tx (tx_at m r)) = None;
  add_sender : w_sender (tx_at m r) = "" \/ ts_senderTxs (tm_txStore m) !! w_sender (tx_at m r) = None;
  add_room : tm_sizeBytes m + WrappedTx_Size (tx_at m r) <= mc_MaxTxsBytes (tm_config m);
  add_count : len (live m) < mc_Size (tm_config m)
}.

Lemma index_insert objs objs' key idx liv liv' r : (forall k, key (objs' !!! k) = key (objs !!! k)) -> sorted_by objs key idx -> idx ≡ₚ liv -> liv' ≡ₚ r :: liv ->
  let idx' := list_Insert objs (fun a b => key a >=? key b) idx r in
  sorted_by objs' key idx' /\ idx' ≡ₚ liv'.
Proof.
  intros Hkey Hs Hp Hl idx'. destruct (list_Insert_spec objs key idx r Hs) as [Hs' Hp']. split; [by apply (sorted_ext objs)|].
  unfold idx'. by rewrite Hp', Hl, Hp.
Qed.

Lemma insertTx_ok m r : pool_ok m -> addable m r ->
  exists m', insertTx m r = Val m' /\ pool_ok m' /\ live m' ≡ₚ r :: live m /\ frame m m' /\ (pool_ordered m -> pool_ordered m') /\
    (forall k, k <> r -> tm_objs m' !! k = tm_objs m !! k) /\ w_tx (tx_at m' r) = w_tx (tx_at m r).
Proof.
  intros Hok [[w Hw] Hnew Habs Hhere Hhash Hlen Hkey Hsend Hroom Hcount]. pose proof Hok as [Hcfg Hgd Htx Hfr Hmade (els & Hrep & Hels) Hmax Hhk Hsk [Hhs Hhp] [Hts Htp] Hsz Hby Hcnt].
  pose proof (tx_less_order (tm_objs m)) as Hso. destruct (heap_Push_full (HL := pq_laws (tm_objs m) (gossiped m)) (tm_priorityIndex m) r Hgd Habs) as (pq' & Hpush & Hgd' & Hlive & Hord).
  assert (Hll : len els = len (live m)) by (unfold len; by rewrite Hels, length_fmap).
  destruct (PushBack_rep (tm_gossipIndex m) els r Hrep) as (l' & e & Hpb & Hrep' & Hen & Hmax' & Hfe & Hve & Hvx).
  { rewrite Hll, Hmax. destruct Hcfg. lia. }
  pose proof (live_size_nonneg m (live m)) as Hnn.
  assert (Hint : int64 (tm_sizeBytes m + WrappedTx_Size (tx_at m r)) = tm_sizeBytes m + WrappedTx_Size (tx_at m r)).
  { destruct Hcfg. apply int64_id. unfold WrappedTx_Size, len in *. int_lia. }
  set (objs' := alter (with_gossipEl e) r (tm_objs m)).
  set (hs := list_Insert (tm_objs m) height_less (tm_heightIndex m) r). set (ts := list_Insert (tm_objs m) timestamp_less (tm_timestampIndex m) r).
  set (m' := set_indexes (set_objs m objs' (tm_fresh m)) (tm_sizeBytes m + WrappedTx_Size (tx_at m r)) (SetTx (tm_txStore m) r (tx_at m r)) l' pq' hs ts).
  exists m'.
  assert (Hrun : insertTx m r = Val m').
  { unfold insertTx, PushTx. rewrite Hpush. cbn [mbind outcome_bind]. rewrite Hpb. cbn [mbind outcome_bind]. cbn [tm_sizeBytes set_objs]. by rewrite Hint. }
  assert (Ho : forall k, objs' !!! k = if decide (k = r) then with_gossipEl e (tx_at m r) else tx_at m k).
  { intros k. unfold objs'. rewrite alter_total, Hw. unfold tx_at. destruct (decide (k = r)) as [->|Hne]; [by rewrite decide_True by eauto|by rewrite decide_False by tauto]. }
  assert (Hsame : forall {B} (f : WrappedTx -> B), (forall w, f (with_gossipEl e w) = f w) -> forall k, f (objs' !!! k) = f (tx_at m k)).
  { intros B f Hf k. rewrite Ho. destruct (decide (k = r)) as [->|]; [apply Hf|done]. }
  change (live m') with (pq_txs pq'). simpl in Hlive, Hord. fold (live m) in Hlive, Hord.
  split; [done|]. split; [|split_and!; [done|done| | |]].
  - assert (Hat : forall k, k <> r -> tx_at m' k = tx_at m k) by (intros k Hne; change (tx_at m' k) with (objs' !!! k); by rewrite Ho, decide_False).
    assert (Hin : forall k, k ∈ live m' <-> k = r \/ k ∈ live m) by (intros k; change (live m') with (pq_txs pq'); by rewrite Hlive, elem_of_cons).
    assert (Hne : forall k, k ∈ live m -> k <> r) by (intros k Hk ->; done).
    assert (Hsm : forall k, is_Some (tm_objs m' !! k) <-> is_Some (tm_objs m !! k)).
    { intros k. change (tm_objs m') with objs'. unfold objs'. destruct (decide (r = k)) as [->|Hk]; [rewrite lookup_alter_eq; by rewrite fmap_is_Some|by rewrite lookup_alter_ne]. }
    assert (Hgs : forall k, gossiped m' k <-> k = r \/ gossiped m k).
    { intros k. unfold gossiped. change (tm_gossipIndex m') with l'. split.
      - intros [x Hx]. destruct (decide (x = e)) as [->|Hxe]; [left; congruence|right; exists x; by rewrite <- Hvx].
      - intros [->|[x Hx]]; [by exists e|]. exists x. rewrite Hvx; [done|]. intros ->. by rewrite Hfe in Hx. }
    assert (Hr' : r ∈ live m') by (apply Hin; by left).
    assert (Hwr : tx_at m' r = with_gossipEl e (tx_at m r)) by (change (tx_at m' r) with (objs' !!! r); by rewrite Ho, decide_True).
    split; try done.
    + apply (pq_good_weaken (gossiped m)); [|done]. intros k [->|Hk]%Hgs; [by right|by left].
    + intros k Hk. destruct (decide (k = r)) as [->|Hkr].
      * split; rewrite ?Hwr; try done; [apply Hsm; eauto|]. exists e. done.
      * apply Hin in Hk as [|Hk]; [done|]. destruct (Htx k Hk) as [? ? ? ? (x & Hx & Hv)]. split; rewrite ?Hat by done; try done; [by apply Hsm|].
        exists x. split; [done|]. change (tm_gossipIndex m') with l'. rewrite Hvx; [done|]. intros ->. by rewrite Hfe in Hv.
    + intros k Hk. apply Hfr. by apply Hsm.
    + intros k [->|Hk]%Hgs; apply Hsm; [eauto|by apply Hmade].
    + exists (els ++ [e]). split; [done|]. change (live m') with (pq_txs pq'). rewrite Hlive. simpl. rewrite Permutation_app_comm, Hels. simpl.
      change (tm_objs m') with objs'. assert (gossip_of objs' r = e) as -> by (unfold gossip_of; by rewrite Ho, decide_True). f_equiv.
      erewrite (fmap_ext_in _ (gossip_of objs')); [done|]. intros k Hk. unfold gossip_of. rewrite Ho, decide_False by (by apply Hne). done.
    + simpl. congruence.
    + intros k q. change (ts_hashTxs (tm_txStore m')) with (<[Tx_Key (w_tx (tx_at m r)) := r]> (ts_hashTxs (tm_txStore m))). rewrite lookup_insert_Some, Hhk, Hin. split.
      * intros [[<- <-]|(Hk & Hq & Hqk)]; [rewrite Hwr; auto|]. rewrite Hat by (by apply Hne). auto.
      * intros [[->|Hq] Hk]; [left; rewrite Hwr in Hk; auto|]. right. rewrite Hat in Hk by (by apply Hne). split_and!; [|done|done].
        intros Heq. assert (ts_hashTxs (tm_txStore m) !! k = Some q) as E1 by (by apply Hhk). congruence.
    + intros sd q. rewrite Hin. simpl. unfold has_sender. case_bool_decide as Hs0; simpl.
      * rewrite Hsk. split; [intros (Hq & ? & ?); rewrite Hat by (by apply Hne); auto|]. intros ([->|Hq] & Hs1 & Hs2); [rewrite Hwr in Hs1; simpl in Hs1; congruence|].
        rewrite Hat in Hs1 by (by apply Hne). done.
      * destruct Hsend as [|Hsn]; [done|]. rewrite lookup_insert_Some, Hsk. split.
        -- intros [[<- <-]|(Hk & Hq & Hqs & Hq0)]; [rewrite Hwr; auto|]. rewrite Hat by (by apply Hne). auto.
        -- intros ([->|Hq] & Hs1 & Hs2); [left; rewrite Hwr in Hs1; auto|]. right. rewrite Hat in Hs1 by (by apply Hne). split_and!; try done.
           intros Heq. assert (ts_senderTxs (tm_txStore m) !! sd = Some q) as E1 by (by apply Hsk). congruence.
    + simpl. apply (index_insert (tm_objs m) objs' w_height (tm_heightIndex m) (live m) (pq_txs pq') r); try done. by apply Hsame.
    + simpl. apply (index_insert (tm_objs m) objs' w_timestamp (tm_timestampIndex m) (live m) (pq_txs pq') r); try done. by apply Hsame.
    + simpl. change (live m') with (pq_txs pq'). rewrite Hlive, Hsz. simpl. rewrite Hwr.
      rewrite (sumZ_ext (fun k => WrappedTx_Size (tx_at m' k)) (fun k => WrappedTx_Size (tx_at m k))); [unfold WrappedTx_Size; simpl; lia|].
      apply Forall_forall. intros k Hk. rewrite Hat by (by apply Hne). done.
    + change (live m') with (pq_txs pq'). assert (len (pq_txs pq') = len (live m) + 1) by (unfold len; rewrite Hlive; simpl; lia). simpl. lia.
  - intros Hob. unfold pool_ordered. change (live m') with (pq_txs pq'). change (tm_objs m') with objs'. apply Hord in Hob. eapply heap_ordered_ext; [|exact Hob].
    intros k _. split; by apply Hsame.
  - intros k Hk. simpl. unfold objs'. by rewrite lookup_alter_ne.
  - change (tx_at m' r) with (objs' !!! r). rewrite Ho. by rewrite decide_True.
Qed.

(** *** New transactions *)

Lemma store_refs mh mt m : pool_but mh mt m -> (map_to_list (ts_hashTxs (tm_txStore m))).*2 ≡ₚ live m.
Proof.
  intros Hok. apply NoDup_Permutation.
  - apply NoDup_fmap_2_strong; [|apply NoDup_map_to_list]. intros [k1 r1] [k2 r2] H1%elem_of_map_to_list H2%elem_of_map_to_list Heq. simpl in Heq. subst r2.
    apply (pk_hash _ _ _ Hok) in H1 as [_ <-]. apply (pk_hash _ _ _ Hok) in H2 as [_ <-]. done.
  - exact (pqg_nodup _ _ (pk_pq _ _ _ Hok)).
  - intros r. rewrite list_elem_of_fmap. split.
    + intros ([k q] & -> & Hk%elem_of_map_to_list). by apply (pk_hash _ _ _ Hok) in Hk as [? _].
    + intros Hr. exists (Tx_Key (w_tx (tx_at m r)), r). split; [done|]. apply elem_of_map_to_list, (pk_hash _ _ _ Hok). done.
Qed.
Lemma pool_Size mh mt m : pool_but mh mt m -> TxMempool_Size m = len (live m).
Proof.
  intros Hok. unfold TxMempool_Size, TxStore_Size, len. rewrite <- (store_refs _ _ _ Hok), length_fmap, length_map_to_list. done.
Qed.

(** An object outside the indexes can be made or changed. *)
Lemma pool_set_obj mh mt m r w fresh : pool_but mh mt m -> (r ∉ live m) -> (r < fresh)%nat -> (tm_fresh m <= fresh)%nat ->
  pool_but mh mt (set_objs m (<[r := w]> (tm_objs m)) fresh) /\ forall k, k <> r -> tx_at (set_objs m (<[r := w]> (tm_objs m)) fresh) k = tx_at m k.
Proof.
  intros Hok Hr Hrf Hf. set (m' := set_objs _ _ _). assert (Hat : forall k, k <> r -> tx_at m' k = tx_at m k).
  { intros k Hk. unfold tx_at. simpl. by rewrite lookup_total_insert_ne by done. }
  split; [|done]. assert (Hne : forall k, k ∈ live m -> k <> r) by (intros k Hk ->; done).
  destruct Hok as [Hcfg Hgd Htx Hfr Hmade (els & Hrep & Hels) Hmax Hhk Hsk [Hhs Hhp] [Hts Htp] Hsz Hby Hcnt]. split; try done.
  - intros k Hk. destruct (Htx k Hk). split; rewrite ?Hat by (by apply Hne); try done. simpl. by rewrite lookup_insert_ne by (apply not_eq_sym, Hne, Hk).
  - intros k Hk. simpl in *. destruct (decide (r = k)) as [<-|Hk']; [done|]. rewrite lookup_insert_ne in Hk by done. apply Hfr in Hk. lia.
  - intros k Hk. simpl. destruct (decide (r = k)) as [<-|Hk']; [rewrite lookup_insert_eq; eauto|]. rewrite lookup_insert_ne by done. by apply Hmade.
  - exists els. split; [done|]. rewrite Hels. change (live m') with (live m). erewrite (fmap_ext_in _ (gossip_of (tm_objs m'))); [done|].
    intros k Hk. unfold gossip_of. change (tm_objs m' !!! k) with (tx_at m' k). by rewrite Hat by (by apply Hne).
  - intros k q. change (tm_txStore m') with (tm_txStore m). rewrite Hhk. change (live m') with (live m). split; intros [Hq Hk]; (split; [done|]); rewrite Hat in * by (by apply Hne); done.
  - intros k q. change (tm_txStore m') with (tm_txStore m). rewrite Hsk. change (live m') with (live m). split; intros (Hq & Hk & Hs); split_and!; try done; rewrite Hat in * by (by apply Hne); done.
  - split; [|done]. eapply sorted_ext; [|exact Hhs]. intros k Hk. change (tm_objs m' !!! k) with (tx_at m' k). rewrite Hat; [done|]. apply Hne. rewrite <- Hhp. apply elem_of_app. by right.
  - split; [|done]. eapply sorted_ext; [|exact Hts]. intros k Hk. change (tm_objs m' !!! k) with (tx_at m' k). rewrite Hat; [done|]. apply Hne. rewrite <- Htp. apply elem_of_app. by right.
  - simpl. rewrite Hsz. change (live m') with (live m). apply sumZ_ext, Forall_forall. intros k Hk. by rewrite Hat by (by apply Hne).
Qed.
Lemma ordered_set_obj m r w fresh : (r ∉ live m) -> pool_ordered m -> pool_ordered (set_objs m (<[r := w]> (tm_objs m)) fresh).
Proof.
  intros Hr Ho. unfold pool_ordered. eapply heap_ordered_ext; [|exact Ho]. intros k Hk. simpl. rewrite lookup_total_insert_ne; [done|]. intros <-. done.
Qed.

(** What is evicted has a lower priority and leaves room. *)
Lemma evict_scan_spec (objs : Objs) priority txSize cap txs : forall curr acc, sumZ (fun r => WrappedTx_Size (objs !!! r)) txs <= curr -> 0 <= txSize -> curr + txSize <= MaxInt64 ->
  evict_scan objs priority txSize cap curr txs acc = [] \/
  exists p, p <> [] /\ p `prefix_of` txs /\ evict_scan objs priority txSize cap curr txs acc = acc ++ p /\
    (forall r, r ∈ p -> w_priority (objs !!! r) < priority) /\ curr - sumZ (fun r => WrappedTx_Size (objs !!! r)) p + txSize <= cap.
Proof.
  induction txs as [|r txs IH]; intros curr acc Hsum Htx Hmax; simpl; [by left|]. destruct (Z.ltb_spec (w_priority (objs !!! r)) priority) as [Hp|]; [|by left].
  change (WrappedTx_Size (objs !!! r) + sumZ (fun r => WrappedTx_Size (objs !!! r)) txs <= curr) in Hsum. set (sz := WrappedTx_Size (objs !!! r)) in *. assert (Hsz : 0 <= sz) by (unfold sz, WrappedTx_Size, len; lia).
  assert (Hnn : 0 <= sumZ (fun r => WrappedTx_Size (objs !!! r)) txs) by (apply sumZ_nonneg, Forall_forall; intros x _; unfold WrappedTx_Size, len; lia).
  rewrite (int64_id (curr - sz)) by int_lia. rewrite int64_id by int_lia. destruct (Z.leb_spec (curr - sz + txSize) cap).
  - right. exists [r]. split_and!; [done|by apply prefix_cons, prefix_nil|done| |simpl; fold sz; lia]. intros x ->%list_elem_of_singleton. done.
  - destruct (IH (curr - sz) (acc ++ [r])) as [He|(p & Hne & Hpre & He & Hpr & Hroom)]; [lia|done|lia|by left|]. right. exists (r :: p).
    split_and!; [done|by apply prefix_cons|by rewrite He, <- app_assoc| |simpl; fold sz; lia]. intros x [->|Hx]%elem_of_cons; [done|by apply Hpr].
Qed.
Lemma GetEvictableTxs_spec m r priority E : pool_ok m -> len (w_tx (tx_at m r)) <= mc_MaxTxBytes (tm_config m) ->
  E = GetEvictableTxs (tm_objs m) (tm_priorityIndex m) priority (WrappedTx_Size (tx_at m r)) (tm_sizeBytes m) (mc_MaxTxsBytes (tm_config m)) -> E <> [] ->
  NoDup E /\ (forall k, k ∈ E -> k ∈ live m /\ w_priority (tx_at m k) < priority) /\
  tm_sizeBytes m - sumZ (fun k => WrappedTx_Size (tx_at m k)) E + WrappedTx_Size (tx_at m r) <= mc_MaxTxsBytes (tm_config m).
Proof.
  intros Hok Hlen -> Hne. unfold GetEvictableTxs in *. set (srt := sort_slice _ _) in *. assert (Hp : srt ≡ₚ live m) by apply sort_slice_perm.
  destruct (evict_scan_spec (tm_objs m) priority (WrappedTx_Size (tx_at m r)) (mc_MaxTxsBytes (tm_config m)) srt (tm_sizeBytes m) []) as [He|(p & _ & [q Hq] & He & Hpr & Hroom)].
  - rewrite Hp, (pk_size _ _ _ Hok). done.
  - unfold WrappedTx_Size, len. lia.
  - pose proof (pk_bytes _ _ _ Hok). destruct (pk_config _ _ _ Hok). unfold WrappedTx_Size. lia.
  - done.
  - rewrite He. simpl. pose proof (pqg_nodup _ _ (pk_pq _ _ _ Hok)) as Hnd. fold (live m) in Hnd. rewrite <- Hp, Hq in Hnd. apply NoDup_app in Hnd as (Hnd & _ & _).
    split_and!; [done| |done]. intros k Hk. split; [|by apply Hpr]. rewrite <- Hp, Hq. apply elem_of_app. by left.
Qed.

(** The transactions of a lower priority. *)
Definition below (objs : Objs) (priority : Z) (l : list nat) : list nat := filter (fun r => w_priority (objs !!! r) < priority) l.
Lemma lower_ext objs objs' priority l : (forall r, r ∈ l -> objs' !!! r = objs !!! r) -> below objs' priority l = below objs priority l.
Proof.
  unfold below. intros He. induction l as [|x l IH]; [done|]. rewrite !filter_cons, He by (by left). rewrite IH by (intros r Hr; apply He; by right). done.
Qed.
Lemma evict_scan_empty (objs : Objs) priority txSize cap txs : forall curr acc, sorted_by objs w_priority txs -> sumZ (fun r => WrappedTx_Size (objs !!! r)) txs <= curr ->
  0 <= txSize -> curr + txSize <= MaxInt64 -> evict_scan objs priority txSize cap curr txs acc = [] ->
  below objs priority txs = [] \/ cap < curr - sumZ (fun r => WrappedTx_Size (objs !!! r)) (below objs priority txs) + txSize.
Proof.
  induction txs as [|r txs IH]; intros curr acc Hs Hsum Htx Hmax He; simpl in He; [by left|]. apply StronglySorted_inv in Hs as [Hs Hr]. unfold below. rewrite filter_cons.
  change (WrappedTx_Size (objs !!! r) + sumZ (fun r => WrappedTx_Size (objs !!! r)) txs <= curr) in Hsum. set (sz := WrappedTx_Size (objs !!! r)) in *. assert (Hsz : 0 <= sz) by (unfold sz, WrappedTx_Size, len; lia).
  assert (Hnn : 0 <= sumZ (fun r => WrappedTx_Size (objs !!! r)) txs) by (apply sumZ_nonneg, Forall_forall; intros x _; unfold WrappedTx_Size, len; lia).
  destruct (Z.ltb_spec (w_priority (objs !!! r)) priority) as [Hp|Hp].
  - rewrite (int64_id (curr - sz)), int64_id in He by int_lia. destruct (Z.leb_spec (curr - sz + txSize) cap) as [|Hcap]; [by destruct acc|].
    right. destruct (decide _); [|done]. simpl. fold sz. destruct (IH (curr - sz) (acc ++ [r])) as [Hb|Hb]; [done|lia|done|lia|done| |]; unfold below in Hb; [rewrite Hb; simpl; lia|lia].
  - left. destruct (decide _); [lia|]. apply elem_of_nil_inv. intros x [Hx Hin]%list_elem_of_filter. rewrite Forall_forall in Hr. specialize (Hr x Hin). simpl in Hr. lia.
Qed.
Lemma GetEvictableTxs_empty m txSize priority : pool_ok m -> 0 <= txSize <= mc_MaxTxBytes (tm_config m) ->
  GetEvictableTxs (tm_objs m) (tm_priorityIndex m) priority txSize (tm_sizeBytes m) (mc_MaxTxsBytes (tm_config m)) = [] ->
  below (tm_objs m) priority (live m) = [] \/
  mc_MaxTxsBytes (tm_config m) < tm_sizeBytes m - sumZ (fun r => WrappedTx_Size (tx_at m r)) (below (tm_objs m) priority (live m)) + txSize.
Proof.
  intros Hok Hsize He. unfold GetEvictableTxs in He. set (srt := sort_slice _ _) in *. assert (Hp : srt ≡ₚ live m) by apply sort_slice_perm.
  apply evict_scan_empty in He as [He|He].
  - left. unfold below in *. apply Permutation_nil_r. rewrite <- Hp. by rewrite He.
  - right. unfold below in *. by rewrite Hp in He.
  - apply (sort_slice_sorted (fun r => w_priority (tm_objs m !!! r))).
  - rewrite Hp, (pk_size _ _ _ Hok). done.
  - lia.
  - pose proof (pk_bytes _ _ _ Hok). destruct (pk_config _ _ _ Hok). lia.
Qed.

Lemma notify_ok mh mt m : pool_but mh mt m -> live m <> [] ->
  exists m', notifyTxsAvailable m = Val m' /\ indexes m' = indexes m /\ tm_recheckCursor m' = tm_recheckCursor m /\ tm_recheckEnd m' = tm_recheckEnd m.
Proof.
  intros Hok Hne. unfold notifyTxsAvailable. rewrite (pool_Size _ _ _ Hok). destruct (Z.eqb_spec (len (live m)) 0) as [He|]; [unfold len in He; destruct (live m); [done|simpl in He; lia]|].
  simpl. destruct (tm_txsAvailable m); [destruct (tm_notifiedTxsAvailable m)|]; eexists; split; done.
Qed.

(** What survives the removal of other transactions. *)
Lemma store_shrinks mh mt mh' mt' m m' rs : pool_but mh mt m -> pool_but mh' mt' m' -> live m ≡ₚ rs ++ live m' ->
  (forall k, (k ∉ rs) -> tm_objs m' !! k = tm_objs m !! k) ->
  (forall k q, ts_hashTxs (tm_txStore m') !! k = Some q -> ts_hashTxs (tm_txStore m) !! k = Some q) /\
  (forall s q, ts_senderTxs (tm_txStore m') !! s = Some q -> ts_senderTxs (tm_txStore m) !! s = Some q).
Proof.
  intros Hok Hok' Hl Ho. pose proof (pqg_nodup _ _ (pk_pq _ _ _ Hok)) as Hnd. fold (live m) in Hnd. rewrite Hl in Hnd. apply NoDup_app in Hnd as (_ & Hd & _).
  assert (Hat : forall q, q ∈ live m' -> q ∈ live m /\ tx_at m' q = tx_at m q).
  { intros q Hq. split; [rewrite Hl; apply elem_of_app; by right|]. unfold tx_at. rewrite !lookup_total_alt, Ho; [done|]. intros Hr. by apply (Hd q). }
  split.
  - intros k q (Hq & Hk)%(pk_hash _ _ _ Hok'). destruct (Hat q Hq) as [Hq' He]. apply (pk_hash _ _ _ Hok). by rewrite <- He.
  - intros sd q (Hq & Hs & Hs0)%(pk_sender _ _ _ Hok'). destruct (Hat q Hq) as [Hq' He]. apply (pk_sender _ _ _ Hok). by rewrite <- He.
Qed.

Lemma insert_new_ok m r w : pool_ok m -> (r ∉ live m) -> ~ gossiped m r -> (r < tm_fresh m)%nat ->
  w_removed w = false -> w_hash w = Tx_Key (w_tx w) -> len (w_tx w) <= mc_MaxTxBytes (tm_config m) -> ts_hashTxs (tm_txStore m) !! Tx_Key (w_tx w) = None ->
  (w_sender w = "" \/ ts_senderTxs (tm_txStore m) !! w_sender w = None) -> tm_sizeBytes m + WrappedTx_Size w <= mc_MaxTxsBytes (tm_config m) -> len (live m) < mc_Size (tm_config m) ->
  exists m', (m ← insertTx (set_objs m (<[r := w]> (tm_objs m)) (tm_fresh m)) r; notifyTxsAvailable m) = Val m' /\ pool_ok m' /\ live m' ≡ₚ r :: live m /\
    tm_config m' = tm_config m /\ tm_recheckCursor m' = tm_recheckCursor m /\ (pool_ordered m -> pool_ordered m') /\ w_tx (tx_at m' r) = w_tx w /\
    (forall k, k <> r -> tm_objs m' !! k = tm_objs m !! k).
Proof.
  intros Hok Hr Hg Hfr Hrm Hh Hlen Hk Hs Hroom Hcnt. set (m1 := set_objs m _ _).
  destruct (pool_set_obj [] [] m r w (tm_fresh m) Hok Hr Hfr (Nat.le_refl _)) as [Hok1 _]. fold m1 in Hok1.
  assert (Hat : tx_at m1 r = w) by (unfold tx_at; simpl; by rewrite lookup_total_insert_eq).
  destruct (insertTx_ok m1 r Hok1) as (m2 & Hi & Hok2 & Hl & Hf & Ho & Hobj & Htx).
  { split; rewrite ?Hat; try done. simpl. rewrite lookup_insert_eq. eauto. }
  rewrite Hi. cbn [mbind outcome_bind]. assert (Hne : live m2 <> []) by (intros He; rewrite He in Hl; by apply Permutation_nil_cons in Hl).
  destruct (notify_ok [] [] m2 Hok2 Hne) as (m' & Hn & Hidx & Hcur & _). exists m'. rewrite Hn.
  assert (Hlive : live m' = live m2) by (unfold indexes in Hidx; unfold live; congruence). assert (Hobjs : tm_objs m' = tm_objs m2) by (unfold indexes in Hidx; congruence).
  destruct Hf as (Hc & _ & Hrc & _). split_and!; [done|by apply (pool_ext _ _ m2)|by rewrite Hlive|unfold indexes in Hidx; simplify_eq/=; congruence|by rewrite Hcur, Hrc| | |].
  - intros Hord. apply (ordered_ext m2); [done|]. by apply Ho, ordered_set_obj.
  - unfold tx_at in *. by rewrite Hobjs, Htx, Hat.
  - intros k Hkr. rewrite Hobjs, Hobj by done. simpl. by rewrite lookup_insert_ne.
Qed.

(** Why an answered transaction does not enter: the answer is not about it, the filter or the
    application refuses it, its sender has one already, or there is no room and the transactions
    of a lower priority do not make enough. *)
Definition turned_away (m : TxMempool) (now : Time) (tx : Tx) (res : option ResponseCheckTx) : Prop :=
  match res with
  | None => True
  | Some answer =>
      (exists f, tm_postCheck m = Some f /\ f tx answer = false) \/ rc_Code answer <> CodeTypeOK \/
      (rc_Sender answer <> "" /\ is_Some (GetTxBySender (tm_txStore m) (rc_Sender answer))) \/
      (canAddTx m (mkWrappedTx tx (Tx_Key tx) (tm_height m) 0 0 "" now ∅ None false) = false /\
       (below (tm_objs m) (rc_Priority answer) (live m) = [] \/
        mc_MaxTxsBytes (tm_config m) < tm_sizeBytes m - sumZ (fun r => WrappedTx_Size (tx_at m r)) (below (tm_objs m) (rc_Priority answer) (live m)) + len tx))
  end.

(** The answer to a new transaction: it is turned away, or it enters and transactions of lower
    priority make room for it. *)
Lemma tx_callback_ok m now tx res senderID : pool_ok m -> tm_recheckCursor m = None ->
  len tx <= mc_MaxTxBytes (tm_config m) -> ts_hashTxs (tm_txStore m) !! Tx_Key tx = None ->
  exists m', tx_callback m now tx res senderID = Val m' /\ pool_ok m' /\ tm_config m' = tm_config m /\ tm_recheckCursor m' = None /\
    (pool_ordered m -> pool_ordered m') /\ (forall k, k ∈ live m -> k ∈ live m' -> tx_at m' k = tx_at m k) /\
    ((live m' = live m /\ turned_away m now tx res) \/
     exists answer E, res = Some answer /\ rc_Code answer = CodeTypeOK /\ (E = [] <-> canAddTx m (mkWrappedTx tx (Tx_Key tx) (tm_height m) 0 0 "" now ∅ None false) = true) /\
       (forall k, k ∈ E -> k ∈ live m /\ w_priority (tx_at m k) < rc_Priority answer) /\
       E ++ live m' ≡ₚ tm_fresh m :: live m /\ w_tx (tx_at m' (tm_fresh m)) = tx).
Proof.
  intros Hok Hcur Hlen Hkey. unfold tx_callback. rewrite Hcur, bool_decide_false by (intros [? ?]; done). cbn [panic_if mbind outcome_bind].
  set (r := tm_fresh m). set (w := mkWrappedTx _ _ _ _ _ _ _ _ _ _). set (m0 := set_objs m _ _).
  assert (Hnone : tm_objs m !! r = None) by (apply eq_None_not_Some; intros Hs%(pk_fresh _ _ _ Hok); unfold r in Hs; lia).
  assert (Hr : r ∉ live m) by (intros Hin; destruct (pk_tx _ _ _ Hok _ Hin) as [[? ?]]; congruence).
  assert (Hng : ~ gossiped m r) by (intros Hgo; destruct (pk_made _ _ _ Hok _ Hgo); congruence).
  destruct (pool_set_obj [] [] m r w (S r) Hok Hr) as [Hok0 Hat0]; [lia|unfold r; lia|]. fold m0 in Hok0, Hat0. assert (Hw : tx_at m0 r = w) by (unfold tx_at; simpl; by rewrite lookup_total_insert_eq).
  assert (Hord0 : pool_ordered m -> pool_ordered m0) by (by apply ordered_set_obj).
  assert (Hat0' : forall k, k ∈ live m -> tx_at m0 k = tx_at m k) by (intros k Hk; apply Hat0; intros ->; done).
  match goal with |- exists m', _ = _ /\ @?P m' => set (Q := P) end.
  assert (Hreject : forall mr, indexes mr = indexes m0 -> tm_recheckCursor mr = None -> turned_away m now tx res -> exists m', (Val mr : go TxMempool) = Val m' /\ Q m').
  { intros mr Hidx Hc Haway. exists mr. split; [done|]. assert (Hlive : live mr = live m) by (unfold indexes in Hidx; unfold live; simplify_eq/=; congruence).
    assert (Hobjs : tm_objs mr = tm_objs m0) by (unfold indexes in Hidx; congruence).
    unfold Q. split_and!; [by apply (pool_ext _ _ m0)|unfold indexes in Hidx; simplify_eq/=; congruence|done|intros; apply (ordered_ext m0); auto| |by left].
    intros k Hk _. rewrite <- Hat0' by done. unfold tx_at. by rewrite Hobjs. }
  unfold initTxCallback. destruct res as [res|]; [|by apply Hreject]. rewrite Hw. destruct (negb _ || negb _) eqn:Hbad.
  { apply Hreject; try (by destruct (mc_KeepInvalidTxsInCache _)). apply orb_true_iff in Hbad as [Hb%negb_true_iff|Hb%negb_true_iff%Z.eqb_neq]; [left|by right; left].
    change (tm_postCheck m0) with (tm_postCheck m) in Hb. destruct (tm_postCheck m) as [f|]; [by exists f|done]. }
  apply orb_false_iff in Hbad as [_ Hcode%negb_false_iff%Z.eqb_eq]. destruct (negb _ && bool_decide (is_Some (GetTxBySender _ _))) eqn:Hsend.
  { apply Hreject; [done..|]. apply andb_true_iff in Hsend as [Hs1%negb_true_iff%bool_decide_eq_false Hs2%bool_decide_eq_true]. right; right; by left. }
  set (E := if canAddTx m0 w then [] else _). destruct (negb (canAddTx m0 w) && bool_decide (E = [])) eqn:Hfull.
  { apply Hreject; [done..|]. apply andb_true_iff in Hfull as [Hf1%negb_true_iff Hf2%bool_decide_eq_true]. right; right; right. split; [exact Hf1|]. unfold E in Hf2. rewrite Hf1 in Hf2.
    apply GetEvictableTxs_empty in Hf2; [|done|split; [unfold WrappedTx_Size, len; lia|done]]. change (live m0) with (live m) in Hf2. rewrite (lower_ext (tm_objs m) (tm_objs m0)) in Hf2 by (intros; by apply Hat0').
    destruct Hf2 as [Hf2|Hf2]; [by left|right]. erewrite (sumZ_ext _ (fun r => WrappedTx_Size (tx_at m0 r))); [exact Hf2|].
    apply Forall_forall. intros x [_ Hx]%list_elem_of_filter. by rewrite Hat0'. }
  assert (HE : NoDup E /\ (forall k, k ∈ E -> k ∈ live m0 /\ w_priority (tx_at m0 k) < rc_Priority res) /\
    tm_sizeBytes m0 - sumZ (fun k => WrappedTx_Size (tx_at m0 k)) E + WrappedTx_Size w <= mc_MaxTxsBytes (tm_config m0) /\
    len (live m0) - len E < mc_Size (tm_config m0) /\ (E = [] <-> canAddTx m0 w = true)).
  { unfold E. destruct (canAddTx m0 w) eqn:Hcan.
    - split_and!; [constructor|by intros k ?%not_elem_of_nil| | |done]; unfold canAddTx in Hcan; apply negb_true_iff, orb_false_iff in Hcan as [Hc1 Hc2];
        rewrite (pool_Size _ _ _ Hok0) in Hc1; z_bool.
      + change (WrappedTx_Size w) with (len tx) in *. change (tm_sizeBytes m0) with (tm_sizeBytes m) in *. change (tm_config m0) with (tm_config m) in *. change (sumZ _ []) with 0.
        pose proof (pk_bytes _ _ _ Hok). destruct (pk_config _ _ _ Hok). pose proof (live_size_nonneg m (live m)) as Hnn. rewrite <- (pk_size _ _ _ Hok) in Hnn.
        assert (0 <= len tx) by (unfold len; lia). rewrite int64_id in Hc2 by int_lia. lia.
      + change (len []) with 0. lia.
    - simpl in Hfull. apply bool_decide_eq_false in Hfull.
      destruct (GetEvictableTxs_spec m0 r (rc_Priority res) _ Hok0 ltac:(by rewrite Hw) eq_refl) as (Hnd & Hin & Hroom); [by rewrite Hw|]. rewrite Hw in *.
      split_and!; [done|done|done| |split; [done|discriminate]]. pose proof (pk_count _ _ _ Hok0). set (ev := GetEvictableTxs _ _ _ _ _ _) in *.
      assert (0 < len ev) by (unfold len; destruct ev; [done|simpl; lia]). lia. }
  destruct HE as (Hnd & Hin & Hroom & Hcount & Hcan). destruct (removeTxs_ok E [] [] m0 true Hok0 Hnd) as (m1 & Hrm & Hok1 & Hl1 & Hf1 & Ho1 & Hord1 & Hsz1 & Hgo1); [intros k Hk; by apply Hin|].
  rewrite Hrm. cbn [mbind outcome_bind]. rewrite !minus_nil in Hok1. destruct (store_shrinks [] [] [] [] m0 m1 E Hok0 Hok1 Hl1 Ho1) as [Hhk Hsk].
  assert (HrE : r ∉ E) by (intros HrE; apply Hin in HrE as [Hrl _]; done). assert (Hw1 : tx_at m1 r = w) by (unfold tx_at; rewrite lookup_total_alt, Ho1 by done; rewrite <- lookup_total_alt; exact Hw).
  destruct Hf1 as (Hcfg1 & _ & Hcur1 & _ & _ & _ & Hfr1 & _). rewrite Hw1.
  set (w' := mkWrappedTx _ _ _ _ _ _ _ _ _ _).
  destruct (insert_new_ok m1 r w') as (m' & Hins & Hok' & Hl' & Hcfg' & Hcur' & Hord' & Htx' & Hobj'); try done.
  - intros Hin'. apply Hr. change (live m) with (live m0). rewrite Hl1. apply elem_of_app. by right.
  - intros Hg1. apply Hng. apply Hgo1 in Hg1. exact Hg1.
  - rewrite Hfr1. simpl. lia.
  - rewrite Hcfg1. done.
  - destruct (ts_hashTxs (tm_txStore m1) !! _) eqn:Hx; [|done]. apply Hhk in Hx. simpl in Hx. congruence.
  - simpl. apply andb_false_iff in Hsend as [Hs%negb_false_iff%bool_decide_eq_true|Hs%bool_decide_eq_false]; [by left|]. right.
    destruct (ts_senderTxs (tm_txStore m1) !! _) eqn:Hx; [|done]. apply Hsk in Hx. exfalso. apply Hs. exists n. exact Hx.
  - rewrite Hsz1, Hcfg1. change (WrappedTx_Size w') with (WrappedTx_Size w). lia.
  - rewrite Hcfg1. assert (len (live m0) = len E + len (live m1)) by (unfold len; rewrite Hl1, length_app; lia). lia.
  - exists m'. rewrite Hins. split; [done|]. unfold Q. split_and!; [done|by rewrite Hcfg', Hcfg1|by rewrite Hcur', Hcur1|auto| |].
    + intros k Hk Hk'. rewrite <- (Hat0' k Hk). unfold tx_at. rewrite !lookup_total_alt, Hobj', Ho1; [done| |intros ->; done].
      intros HkE. rewrite Hl' in Hk'. apply elem_of_cons in Hk' as [->|Hk']; [done|]. pose proof (pqg_nodup _ _ (pk_pq _ _ _ Hok0)) as Hn. fold (live m0) in Hn.
      rewrite Hl1 in Hn. apply NoDup_app in Hn as (_ & Hd & _). by apply (Hd k).
    + right. exists res, E. split_and!; [done|done|done| | |done].
      * intros k Hk. destruct (Hin k Hk) as [Hkl Hkp]. split; [done|]. by rewrite <- Hat0'.
      * rewrite Hl'. rewrite <- Permutation_middle. change (live m) with (live m0). by rewrite Hl1.
Qed.

(** *** Blocks, flushing and expiry *)

Lemma pool_set_lists mh mt mh' mt' m hs ts : pool_but mh mt m -> sorted_by (tm_objs m) w_height hs -> mh' ++ hs ≡ₚ live m ->
  sorted_by (tm_objs m) w_timestamp ts -> mt' ++ ts ≡ₚ live m -> pool_but mh' mt' (set_lists m hs ts).
Proof. intros [] Hs Hp Hs' Hp'. split; try done. intros r Hr. destruct (pk_tx0 r Hr). by split. Qed.

Lemma pool_nothing_missing mh mt m : pool_but mh mt m -> (forall x, (x ∉ mh) /\ (x ∉ mt)) -> pool_ok m.
Proof.
  intros Hok Hx. assert (mh = []) as -> by (apply elem_of_nil_inv; intros x; apply Hx). assert (mt = []) as -> by (apply elem_of_nil_inv; intros x; apply Hx). done.
Qed.

Lemma RemoveTxByKey_ok m key : pool_ok m ->
  exists m' b, RemoveTxByKey m key = Val (m', b) /\ pool_ok m' /\ frame m m' /\ (pool_ordered m -> pool_ordered m') /\
    (forall r, r ∈ live m' <-> r ∈ live m /\ Tx_Key (w_tx (tx_at m r)) <> key) /\ (forall r, r ∈ live m' -> tx_at m' r = tx_at m r).
Proof.
  intros Hok. unfold RemoveTxByKey, GetTxByHash. destruct (ts_hashTxs (tm_txStore m) !! key) as [r|] eqn:Hk.
  - pose proof (proj1 (pk_hash _ _ _ Hok _ _) Hk) as [Hr Hkey]. destruct (removeTx_ok [] [] m r false Hok Hr) as (m' & Hrun & Hok' & Hl & Hf & Ho & Hord & _).
    rewrite Hrun. cbn [mbind outcome_bind]. exists m', true. pose proof (pqg_nodup _ _ (pk_pq _ _ _ Hok)) as Hnd. fold (live m) in Hnd. rewrite Hl in Hnd. apply NoDup_cons in Hnd as [Hni _].
    split_and!; try done.
    + intros q. rewrite Hl, elem_of_cons. split.
      * intros Hq. split; [by right|]. intros Hqk. apply Hni. assert (ts_hashTxs (tm_txStore m) !! key = Some q) as E1; [|congruence].
        apply (pk_hash _ _ _ Hok). split; [rewrite Hl; by right|done].
      * intros [[->|Hq] Hne]; done.
    + intros q Hq. unfold tx_at. rewrite !lookup_total_alt, Ho; [done|]. intros ->. done.
  - exists m, false. split_and!; try done. intros r. split; [|tauto]. intros Hr. split; [done|]. intros <-.
    assert (ts_hashTxs (tm_txStore m) !! Tx_Key (w_tx (tx_at m r)) = Some r) by (by apply (pk_hash _ _ _ Hok)). congruence.
Qed.

Lemma Flush_ok m : pool_ok m -> exists m', Flush m = Val m' /\ pool_ok m' /\ live m' = [] /\ tm_config m' = tm_config m /\
  tm_recheckCursor m' = tm_recheckCursor m /\ tm_recheckEnd m' = tm_recheckEnd m.
Proof.
  intros Hok. unfold Flush. set (m0 := set_lists m [] []).
  assert (Hok0 : pool_but (tm_heightIndex m) (tm_timestampIndex m) m0).
  { apply (pool_set_lists [] []); [done|constructor| |constructor|]; rewrite app_nil_r; [apply (pk_height _ _ _ Hok)|apply (pk_time _ _ _ Hok)]. }
  assert (Hrs : GetAllTxs (tm_txStore m0) ≡ₚ live m0) by (unfold GetAllTxs; rewrite visit_perm; by apply (store_refs _ _ _ Hok0)).
  set (rs := GetAllTxs (tm_txStore m0)) in *. destruct (removeTxs_ok rs _ _ m0 false Hok0) as (m1 & Hrun & Hok1 & Hl & Hf & _ & _ & Hsz & _).
  { rewrite Hrs. apply (pqg_nodup _ _ (pk_pq _ _ _ Hok)). } { intros r Hr. by rewrite <- Hrs. }
  rewrite Hrun. cbn [mbind outcome_bind]. assert (Hnil : live m1 = []).
  { assert (length (live m1) = 0)%nat as Hn; [|by apply nil_length_inv in Hn]. assert (length (live m0) = length rs + length (live m1))%nat by (rewrite Hl, length_app; lia).
    assert (length rs = length (live m0)) by (by rewrite Hrs). lia. }
  set (m2 := set_cache _ _). assert (Hidx : indexes m2 = indexes m1).
  { unfold indexes. simpl. pose proof (pk_size _ _ _ Hok1) as Hs. rewrite Hnil in Hs. change (sumZ _ []) with 0 in Hs. by rewrite Hs. }
  exists m2. destruct Hf as (Hc & _ & Hcu & Hce & _). split; [done|]. split; [|done]. apply (pool_ext _ _ m1); [done|].
  apply (pool_nothing_missing _ _ m1 Hok1). intros x. split.
  - intros Hx. pose proof (pk_height _ _ _ Hok1) as [_ Hp]. assert (x ∈ live m1) as Hin by (rewrite <- Hp; apply elem_of_app; by left). rewrite Hnil in Hin. by apply not_elem_of_nil in Hin.
  - intros Hx. pose proof (pk_time _ _ _ Hok1) as [_ Hp]. assert (x ∈ live m1) as Hin by (rewrite <- Hp; apply elem_of_app; by left). rewrite Hnil in Hin. by apply not_elem_of_nil in Hin.
Qed.

Lemma split_expired_app f txs : (split_expired f txs).1 ++ (split_expired f txs).2 = txs /\ (forall r, r ∈ (split_expired f txs).1 -> f r = true).
Proof.
  induction txs as [|r txs [IH1 IH2]]; simpl; [split; [done|by intros r ?%not_elem_of_nil]|]. destruct (f r) eqn:Hf; [|split; [done|by intros x ?%not_elem_of_nil]].
  destruct (split_expired f txs) as [a b]. simpl in *. split; [congruence|]. intros x [->|Hx]%elem_of_cons; [done|by apply IH2].
Qed.

Lemma keyed_lookup (f : nat -> bytes) l : forall (acc : gmap bytes nat) k r, (forall a b, a ∈ l -> b ∈ l -> f a = f b -> a = b) ->
  fold_left (fun e r => <[f r := r]> e) l acc !! k = Some r <-> (r ∈ l /\ f r = k) \/ (acc !! k = Some r /\ forall q, q ∈ l -> f q <> k).
Proof.
  induction l as [|x l IH]; intros acc k r Hinj; simpl.
  - split; [intros Ha; right; split; [done|by intros q ?%not_elem_of_nil]|]. intros [[?%not_elem_of_nil _]|[Ha _]]; done.
  - rewrite IH by (intros a b Ha Hb; apply Hinj; by right). rewrite lookup_insert_Some. split.
    + intros [[Hr Hk]|[[[<- <-]|[Hne Ha]] Hq]]; [left; split; [by right|done]|left; split; [by left|done]|].
      right. split; [done|]. intros q [->|Hql]%elem_of_cons; [done|by apply Hq].
    + intros [[[->|Hr]%elem_of_cons Hk]|[Ha Hq]].
      * destruct (decide (x ∈ l)) as [Hx|Hx]; [by left|]. right. split; [by left|]. intros q Hql Hfq. apply Hx. rewrite (Hinj x q); [done|by left|by right|congruence].
      * left. done.
      * right. split; [right; split; [apply Hq; by left|done]|]. intros q Hql. apply Hq. by right.
Qed.

(** The expired transactions leave; nothing else does. *)
Lemma purgeExpiredTxs_ok m height now : pool_ok m ->
  exists m' rs, purgeExpiredTxs m height now = Val m' /\ pool_ok m' /\ live m ≡ₚ rs ++ live m' /\ frame m m' /\ (pool_ordered m -> pool_ordered m') /\
    (forall r, r ∈ live m' -> tx_at m' r = tx_at m r) /\
    forall r, r ∈ rs -> (0 < mc_TTLNumBlocks (tm_config m) < int64 (height - w_height (tx_at m r))) \/ (0 < mc_TTLDuration (tm_config m) < clip64 (now - w_timestamp (tx_at m r))).
Proof.
  intros Hok. unfold purgeExpiredTxs. set (cfg := tm_config m).
  set (h := if mc_TTLNumBlocks cfg >? 0 then _ else _). set (t := if mc_TTLDuration cfg >? 0 then _ else _).
  assert (Hh : h.1 ++ h.2 = tm_heightIndex m /\ forall r, r ∈ h.1 -> 0 < mc_TTLNumBlocks cfg < int64 (height - w_height (tx_at m r))).
  { unfold h. destruct (Z.gtb_spec (mc_TTLNumBlocks cfg) 0); [|split; [done|by intros r ?%not_elem_of_nil]].
    destruct (split_expired_app (fun r => int64 (height - w_height (tx_at m r)) >? mc_TTLNumBlocks cfg) (tm_heightIndex m)) as [Ha Hb].
    split; [done|]. intros r Hr%Hb. z_bool. lia. }
  assert (Ht : t.1 ++ t.2 = tm_timestampIndex m /\ forall r, r ∈ t.1 -> 0 < mc_TTLDuration cfg < clip64 (now - w_timestamp (tx_at m r))).
  { unfold t. destruct (Z.gtb_spec (mc_TTLDuration cfg) 0); [|split; [done|by intros r ?%not_elem_of_nil]].
    destruct (split_expired_app (fun r => clip64 (now - w_timestamp (tx_at m r)) >? mc_TTLDuration cfg) (tm_timestampIndex m)) as [Ha Hb].
    split; [done|]. intros r Hr%Hb. z_bool. lia. }
  destruct h as [old hs], t as [old' ts]. simpl in Hh, Ht. destruct Hh as [Hh Hho], Ht as [Ht Hto].
  destruct (pk_height _ _ _ Hok) as [Hhs Hhp], (pk_time _ _ _ Hok) as [Hts Htp]. simpl in Hhp, Htp. rewrite <- Hh in Hhs, Hhp. rewrite <- Ht in Hts, Htp.
  assert (Hok0 : pool_but old old' (set_lists m hs ts)) by (apply (pool_set_lists [] []); [done|by apply sorted_app in Hhs as (_ & ? & _)|done|by apply sorted_app in Hts as (_ & ? & _)|done]).
  assert (Hlive : forall r, r ∈ old ++ old' -> r ∈ live m) by (intros r [Hr|Hr]%elem_of_app; [rewrite <- Hhp|rewrite <- Htp]; apply elem_of_app; by left).
  set (expired := fold_left _ (old ++ old') _). set (rs := visit _).
  assert (Hexp : forall k r, expired !! k = Some r <-> r ∈ old ++ old' /\ Tx_Key (w_tx (tx_at m r)) = k).
  { intros k r. unfold expired. rewrite (keyed_lookup (fun r => Tx_Key (w_tx (tx_at m r)))), lookup_empty; [naive_solver|]. intros a b Ha%Hlive Hb%Hlive Heq.
    assert (E1 : ts_hashTxs (tm_txStore m) !! Tx_Key (w_tx (tx_at m a)) = Some a) by (by apply (pk_hash _ _ _ Hok)).
    assert (E2 : ts_hashTxs (tm_txStore m) !! Tx_Key (w_tx (tx_at m a)) = Some b) by (by apply (pk_hash _ _ _ Hok)). congruence. }
  assert (Hrs : forall r, r ∈ rs <-> r ∈ old ++ old').
  { intros r. unfold rs. rewrite visit_perm, list_elem_of_fmap. split.
    - intros ([k q] & -> & Hk%elem_of_map_to_list). by apply Hexp in Hk as [? _].
    - intros Hr. exists (Tx_Key (w_tx (tx_at m r)), r). split; [done|]. apply elem_of_map_to_list, Hexp. done. }
  assert (Hnd : NoDup rs).
  { unfold rs. rewrite visit_perm. apply NoDup_fmap_2_strong; [|apply NoDup_map_to_list].
    intros [k1 r1] [k2 r2] H1%elem_of_map_to_list H2%elem_of_map_to_list Heq. simpl in Heq. subst r2. apply Hexp in H1 as [_ <-]. apply Hexp in H2 as [_ <-]. done. }
  destruct (removeTxs_ok rs _ _ (set_lists m hs ts) false Hok0 Hnd) as (m' & Hrun & Hok' & Hl & Hf & Ho & Hord & _); [intros r Hr; by apply Hlive, Hrs|].
  exists m', rs. split_and!; [done| |done|done|done| |].
  - apply (pool_nothing_missing _ _ m' Hok'). intros x. rewrite !minus_elem, !Hrs, !elem_of_app. tauto.
  - intros r Hr. unfold tx_at. rewrite !lookup_total_alt, Ho; [done|]. intros Hin. pose proof (pqg_nodup _ _ (pk_pq _ _ _ Hok)) as Hn. fold (live m) in Hn.
    change (live m) with (live (set_lists m hs ts)) in Hn. rewrite Hl in Hn. apply NoDup_app in Hn as (_ & Hd & _). by apply (Hd r).
  - intros r [Hr|Hr]%Hrs%elem_of_app; [left; by apply Hho|right; by apply Hto].
Qed.

Lemma update_txs_ok txs : forall m i codes, pool_ok m -> 0 <= i -> i + len txs <= len codes ->
  exists m', update_txs m i txs codes = Val m' /\ pool_ok m' /\ (tm_config m' = tm_config m /\ tm_recheckCursor m' = tm_recheckCursor m) /\ (pool_ordered m -> pool_ordered m') /\
    (forall r, r ∈ live m' <-> r ∈ live m /\ (Tx_Key (w_tx (tx_at m r)) ∉ Tx_Key <$> txs)) /\ (forall r, r ∈ live m' -> tx_at m' r = tx_at m r).
Proof.
  induction txs as [|tx txs IH]; intros m i codes Hok Hi Hlen; cbn [update_txs].
  { exists m. split_and!; try done. intros r. split; [|tauto]. intros Hr. split; [done|]. apply not_elem_of_nil. }
  assert (Hlen' : i + 1 + len txs <= len codes) by (unfold len in *; simpl in *; lia).
  assert (Hget : exists code, slice_get (E := Empty_set) codes i = Val code).
  { unfold slice_get, zlookup. destruct (Z.leb_spec 0 i); [|lia]. destruct (lookup_lt_is_Some_2 codes (Z.to_nat i)) as [c Hc]; [unfold len in *; simpl in *; lia|]. rewrite Hc. eauto. }
  destruct Hget as [code Hget]. rewrite Hget. cbn [mbind outcome_bind]. set (m0 := if code =? CodeTypeOK then _ else _).
  assert (Hidx : indexes m0 = indexes m) by (unfold m0; destruct (code =? CodeTypeOK); [done|]; by destruct (mc_KeepInvalidTxsInCache _)).
  assert (Hok0 : pool_ok m0) by (by apply (pool_ext _ _ m)).
  assert (Hlive0 : live m0 = live m) by (unfold indexes in Hidx; unfold live; congruence). assert (Hobj0 : tm_objs m0 = tm_objs m) by (unfold indexes in Hidx; congruence).
  assert (Hcfg0 : tm_config m0 = tm_config m) by (unfold indexes in Hidx; congruence).
  assert (Hcur0 : tm_recheckCursor m0 = tm_recheckCursor m) by (unfold m0; destruct (code =? CodeTypeOK); [done|]; by destruct (mc_KeepInvalidTxsInCache _)). assert (Hat0 : forall r, tx_at m0 r = tx_at m r) by (intros r; unfold tx_at; by rewrite Hobj0).
  destruct (RemoveTxByKey_ok m0 (Tx_Key tx) Hok0) as (m1 & b & Hrun & Hok1 & Hf & Hord & Hin & Hat1).
  assert (Hrm : (match GetTxByHash (tm_txStore m0) (Tx_Key tx) with Some r => removeTx m0 r false | None => Val m0 end) = Val m1).
  { unfold RemoveTxByKey in Hrun. destruct (GetTxByHash _ _); [|by simplify_eq]. apply bind_val in Hrun as (x & Hx & Hrun). by simplify_eq. }
  rewrite Hrm. cbn [mbind outcome_bind]. destruct (IH m1 (i + 1) codes Hok1) as (m' & Hrun' & Hok' & [Hcfg' Hcur'] & Hord' & Hin' & Hat'); [lia|done|].
  exists m'. destruct Hf as (Hcfg1 & _ & Hcur1 & _). split_and!; [done|done|congruence|congruence| | |].
  - intros Ho. apply Hord', Hord. by apply (ordered_ext m).
  - intros r. rewrite Hin', fmap_cons, not_elem_of_cons. split.
    + intros [Hr Hk]. rewrite Hat1, Hat0 in Hk by done. apply Hin in Hr as [Hr Hk']. rewrite Hlive0 in Hr. rewrite Hat0 in Hk'. done.
    + intros (Hr & Hk & Hks). assert (Hr1 : r ∈ live m1) by (apply Hin; rewrite Hlive0, Hat0; done). split; [done|]. by rewrite Hat1, Hat0.
  - intros r Hr. rewrite Hat' by done. apply Hin' in Hr as [Hr _]. by rewrite Hat1, Hat0.
Qed.

Lemma recheck_requests_val m els : clist_rep (tm_gossipIndex m) els -> forall fuel e, (match e with Some x => x ∈ els | None => True end) ->
  exists txs, recheck_requests fuel m e = Val txs.
Proof.
  intros Hrep. induction fuel as [|fuel IH]; intros [x|] He; simpl; eauto. apply list_elem_of_split in He as (a & b & Hab).
  destruct (crep_links _ _ Hrep a x b Hab) as (c & Hc & _ & Hn & _). unfold element. rewrite Hc. cbn [mbind outcome_bind].
  destruct (IH (ce_next c)) as [txs Htxs]; [|rewrite Htxs; cbn [mbind outcome_bind]; eauto]. rewrite Hn. destruct b as [|y b]; [done|]. simpl. rewrite Hab. apply elem_of_app. right. right. by left.
Qed.

Lemma Update_ok m height txs codes pre post now : pool_ok m -> len txs <= len codes ->
  exists m' reqs, Update m height txs codes pre post now = Val (m', reqs) /\ pool_ok m' /\ tm_config m' = tm_config m /\ (pool_ordered m -> pool_ordered m') /\
    (mc_Recheck (tm_config m) = false -> tm_recheckCursor m = None -> tm_recheckCursor m' = None) /\
    (forall r, r ∈ live m' -> r ∈ live m /\ (Tx_Key (w_tx (tx_at m r)) ∉ Tx_Key <$> txs) /\ tx_at m' r = tx_at m r) /\
    (forall r, r ∈ live m -> (r ∉ live m') -> (Tx_Key (w_tx (tx_at m r)) ∈ Tx_Key <$> txs) \/
       (0 < mc_TTLNumBlocks (tm_config m) < int64 (height - w_height (tx_at m r))) \/ (0 < mc_TTLDuration (tm_config m) < clip64 (now - w_timestamp (tx_at m r)))).
Proof.
  intros Hok Hlen. unfold Update. set (m0 := set_block _ _ _ _). assert (Hok0 : pool_ok m0) by (by apply (pool_ext _ _ m)).
  destruct (update_txs_ok txs m0 0 codes Hok0) as (m1 & Hrun1 & Hok1 & [Hcfg1 Hcur1] & Hord1 & Hin1 & Hat1); [lia|lia|]. rewrite Hrun1. cbn [mbind outcome_bind].
  destruct (purgeExpiredTxs_ok m1 height now Hok1) as (m2 & rs & Hrun2 & Hok2 & Hl2 & Hf2 & Hord2 & Hat2 & Hexp). rewrite Hrun2. cbn [mbind outcome_bind].
  assert (Hin2 : forall r, r ∈ live m2 -> r ∈ live m1) by (intros r Hr; rewrite Hl2; apply elem_of_app; by right).
  assert (Hcur2 : tm_recheckCursor m2 = tm_recheckCursor m) by (destruct Hf2 as (_ & _ & -> & _); done).
  assert (Hend : exists m' reqs, (if TxMempool_Size m2 >? 0 then if mc_Recheck (tm_config m2) then updateReCheckTxs m2 else m ← notifyTxsAvailable m2; Val (m, []) else Val (m2, [])) = Val (m', reqs) /\
    indexes m' = indexes m2 /\ (mc_Recheck (tm_config m2) = false -> tm_recheckCursor m' = tm_recheckCursor m2)).
  { rewrite (pool_Size _ _ _ Hok2). destruct (Z.gtb_spec (len (live m2)) 0) as [Hpos|]; [|by exists m2, []]. destruct (mc_Recheck (tm_config m2)).
    - unfold updateReCheckTxs. rewrite (pool_Size _ _ _ Hok2). destruct (Z.eqb_spec (len (live m2)) 0); [lia|]. cbn [panic_if mbind outcome_bind].
      destruct (pk_gossip _ _ _ Hok2) as (els & Hrep & _). set (m3 := set_recheck _ _ _).
      destruct (recheck_requests_val m3 els Hrep (cl_fresh (tm_gossipIndex m3)) (Front (tm_gossipIndex m3))) as [reqs Hreqs].
      { unfold Front. simpl. rewrite (crep_head _ _ Hrep). destruct els; [done|by left]. }
      rewrite Hreqs. cbn [mbind outcome_bind]. by exists m3, reqs.
    - destruct (notify_ok [] [] m2 Hok2) as (m3 & Hn & Hidx & Hc & _); [intros He; rewrite He in Hpos; done|]. rewrite Hn. cbn [mbind outcome_bind]. by exists m3, []. }
  destruct Hend as (m' & reqs & Hrun & Hidx & Hcur). exists m', reqs. assert (Hlive : live m' = live m2) by (unfold indexes in Hidx; unfold live; congruence).
  assert (Hcfg2 : tm_config m2 = tm_config m) by (destruct Hf2 as (-> & _); done). assert (Hat : forall r, tx_at m' r = tx_at m2 r) by (intros r; unfold tx_at; unfold indexes in Hidx; congruence).
  split_and!; [done|by apply (pool_ext _ _ m2)|unfold indexes in Hidx; congruence| | | |].
  - intros Ho. apply (ordered_ext m2); [done|]. apply Hord2, Hord1. done.
  - intros Hre Hc. rewrite Hcur by congruence. by rewrite Hcur2.
  - intros r. rewrite Hlive. intros Hr. pose proof (Hin2 r Hr) as Hr1. destruct (proj1 (Hin1 r) Hr1) as [Hr0 Hk]. split_and!; [done|done|]. by rewrite Hat, Hat2, Hat1.
  - intros r Hr Hnr. rewrite Hlive in Hnr. destruct (decide (Tx_Key (w_tx (tx_at m r)) ∈ Tx_Key <$> txs)) as [|Hk]; [by left|]. right.
    assert (Hr1 : r ∈ live m1) by (by apply Hin1). assert (Hrs : r ∈ rs) by (rewrite Hl2 in Hr1; apply elem_of_app in Hr1 as [|]; done).
    pose proof (Hexp r Hrs) as He. rewrite Hat1, Hcfg1 in He by done. exact He.
Qed.

(** *** Checking again *)

(** Changes of the priority and of the peers do not show in the invariant. *)
Definition inert (f : WrappedTx -> WrappedTx) : Prop := forall w,
  w_tx (f w) = w_tx w /\ w_hash (f w) = w_hash w /\ w_height (f w) = w_height w /\ w_sender (f w) = w_sender w /\
  w_timestamp (f w) = w_timestamp w /\ w_gossipEl (f w) = w_gossipEl w /\ w_removed (f w) = w_removed w.
Lemma pool_alter mh mt m r f : inert f -> pool_but mh mt m -> pool_but mh mt (set_objs m (alter f r (tm_objs m)) (tm_fresh m)).
Proof.
  intros Hinert [Hcfg Hgd Htx Hfr Hmade (els & Hrep & Hels) Hmax Hhk Hsk [Hhs Hhp] [Hts Htp] Hsz Hby Hcnt]. set (m' := set_objs _ _ _).
  assert (Hsame : forall {B} (g : WrappedTx -> B), (forall w, g (f w) = g w) -> forall k, g (tx_at m' k) = g (tx_at m k)).
  { intros B g Hg k. unfold tx_at. simpl. rewrite alter_total. destruct (decide _) as [[-> _]|]; [apply Hg|done]. }
  assert (Hsm : forall k, is_Some (tm_objs m' !! k) <-> is_Some (tm_objs m !! k)).
  { intros k. simpl. destruct (decide (r = k)) as [->|Hk]; [rewrite lookup_alter_eq; by rewrite fmap_is_Some|by rewrite lookup_alter_ne]. }
  split; try done.
  - intros k Hk. destruct (Htx k Hk) as [? ? ? ? (e & He & Hv)]. split; rewrite ?(Hsame _ w_removed (fun w => ltac:(by destruct (Hinert w) as (?&?&?&?&?&?&?)))), ?(Hsame _ w_hash (fun w => ltac:(by destruct (Hinert w) as (?&?&?&?&?&?&?)))), ?(Hsame _ w_tx (fun w => ltac:(by destruct (Hinert w) as (?&?&?&?&?&?&?)))) by done; try done; [by apply Hsm|].
    exists e. by rewrite (Hsame _ w_gossipEl (fun w => ltac:(by destruct (Hinert w) as (?&?&?&?&?&?&?)))).
  - intros k Hk. apply Hfr. by apply Hsm.
  - intros k Hk. apply Hsm. by apply Hmade.
  - exists els. split; [done|]. rewrite Hels. change (live m') with (live m). erewrite (fmap_ext_in _ (gossip_of (tm_objs m'))); [done|].
    intros k Hk. unfold gossip_of. change (tm_objs m' !!! k) with (tx_at m' k). by rewrite (Hsame _ w_gossipEl (fun w => ltac:(by destruct (Hinert w) as (?&?&?&?&?&?&?)))).
  - intros k q. rewrite (Hsame _ w_tx (fun w => ltac:(by destruct (Hinert w) as (?&?&?&?&?&?&?)))) by done. apply Hhk.
  - intros k q. rewrite (Hsame _ w_sender (fun w => ltac:(by destruct (Hinert w) as (?&?&?&?&?&?&?)))) by done. apply Hsk.
  - split; [|done]. eapply sorted_ext; [|exact Hhs]. intros k Hk. apply (Hsame _ w_height). intros w. apply Hinert.
  - split; [|done]. eapply sorted_ext; [|exact Hts]. intros k Hk. apply (Hsame _ w_timestamp). intros w. apply Hinert.
  - simpl. rewrite Hsz. change (live m') with (live m). apply sumZ_ext, Forall_forall. intros k Hk. unfold WrappedTx_Size. by rewrite (Hsame _ w_tx (fun w => ltac:(by destruct (Hinert w) as (?&?&?&?&?&?&?)))).
Qed.

(** A transaction that already left cannot be removed: its index in the queue is -1. *)
Lemma removeTx_gone mh mt m r b : pool_but mh mt m -> gossiped m r -> (r ∉ live m) -> exists why, removeTx m r b = Panic why.
Proof.
  intros Hok Hg Hr. unfold removeTx. assert (IsTxRemoved (tm_objs m) (tm_txStore m) (w_hash (tx_at m r)) = false) as ->.
  { unfold IsTxRemoved. destruct (ts_hashTxs (tm_txStore m) !! _) as [q|] eqn:Hq; [|done]. apply (pk_hash _ _ _ Hok) in Hq as [Hq _]. by destruct (pk_tx _ _ _ Hok q Hq). }
  unfold pq_RemoveTx, heapIndex. cbn [tm_priorityIndex set_objs]. rewrite (pqg_left _ _ (pk_pq _ _ _ Hok) r Hg Hr). simpl.
  destruct (Z.ltb_spec (-1) (NumTxs (tm_priorityIndex m))); [|unfold NumTxs, len in *; lia]. unfold heap_Remove. cbn [Len pq_heap Pop Swap].
  destruct (Z.eqb_spec (NumTxs (tm_priorityIndex m) - 1) (-1)) as [He|Hne]; cbn [mbind outcome_bind]; [|unfold pq_Swap, slice_get; cbn; eauto].
  unfold pq_Pop, slice_get. change (len (pq_txs (tm_priorityIndex m))) with (NumTxs (tm_priorityIndex m)). rewrite He. cbn. eauto.
Qed.

Lemma find_recheck_spec m tx fuel : forall cursor found, find_recheck fuel m tx cursor = Val (Some found) -> gossiped m found.2 /\ w_tx (tx_at m found.2) = tx.
Proof.
  induction fuel as [|fuel IH]; intros cursor found Hf; simpl in Hf; [done|]. apply bind_val in Hf as (c & Hc & Hf).
  destruct (bytes_equal_spec tx (w_tx (tx_at m (ce_Value c)))) as [Hb|_]; [|destruct (bool_decide _); [done|]; destruct (ce_next c); [by eapply IH|done]].
  injection Hf as <-. simpl. split; [|done]. exists cursor. unfold element in Hc. destruct (cl_elems _ !! cursor); by simplify_eq/=.
Qed.

Lemma defaultTxCallback_ok m tx res m' : pool_ok m -> defaultTxCallback m tx res = Val m' ->
  pool_ok m' /\ tm_config m' = tm_config m /\ (tm_recheckCursor m = None -> m' = m).
Proof.
  intros Hok. unfold defaultTxCallback. destruct (tm_recheckCursor m) as [cursor|]; [|by intros [= <-]]. destruct res as [res|]; [|by intros [= <-]].
  intros Hrun. apply bind_val in Hrun as (found & Hfind & Hrun). destruct found as [[cur r]|]; [|simplify_eq; split_and!; try done; by apply (pool_ext _ _ m)].
  apply find_recheck_spec in Hfind as [Hg Htx]. simpl in Hg. set (m0 := set_recheck m (Some cur) (tm_recheckEnd m)) in *. assert (Hok0 : pool_ok m0) by (by apply (pool_ext _ _ m)).
  apply bind_val in Hrun as (m1 & Hm1 & Hrun). assert (Hok1 : pool_ok m1 /\ tm_config m1 = tm_config m).
  { destruct (IsTxRemoved _ _ _); [by simplify_eq|]. destruct (_ && _); [injection Hm1 as <-; split; [by apply (pool_alter [] [] m0 r (with_priority (rc_Priority res)))|done]|].
    apply bind_val in Hm1 as ([] & _ & Hm1). destruct (decide (r ∈ live m0)) as [Hr|Hr].
    - destruct (removeTx_ok [] [] m0 r (negb (mc_KeepInvalidTxsInCache (tm_config m0))) Hok0 Hr) as (m2 & Hrm & Hok2 & _ & Hf & _).
      assert (m2 = m1) as -> by congruence. split; [done|by destruct Hf as (-> & _)].
    - destruct (removeTx_gone [] [] m0 r (negb (mc_KeepInvalidTxsInCache (tm_config m0))) Hok0 Hg Hr) as [why Hw]. congruence. }
  destruct Hok1 as [Hok1 Hcfg1]. set (m2 := set_recheck m1 _ _) in *. assert (Hok2 : pool_ok m2) by (by apply (pool_ext _ _ m1)).
  clear Hm1. destruct (_ && _) eqn:Hn in Hrun; [|injection Hrun as <-; split; [done|]; split; [exact Hcfg1|done]]. apply andb_true_iff in Hn as [_ Hsz]. z_bool. rewrite (pool_Size _ _ _ Hok2) in Hsz.
  destruct (notify_ok [] [] m2 Hok2) as (m3 & Hn & Hidx & _); [intros He; rewrite He in Hsz; done|]. assert (m3 = m') as -> by congruence.
  split; [by apply (pool_ext _ _ m2)|]. split; [unfold indexes in Hidx; simplify_eq/=; congruence|done].
Qed.

(** *** Submitting *)

Lemma CheckTx_ok m pe ae tx id : pool_ok m -> pool_ok (CheckTx m pe ae tx id).1 /\ tm_config (CheckTx m pe ae tx id).1 = tm_config m /\
  tm_recheckCursor (CheckTx m pe ae tx id).1 = tm_recheckCursor m /\ (pool_ordered m -> pool_ordered (CheckTx m pe ae tx id).1).
Proof.
  intros Hok. unfold CheckTx. destruct (_ >? _); [done|]. destruct (match tm_preCheck m with Some f => negb (f tx) | None => false end); [done|]. destruct pe; [done|].
  destruct (cache_Push _ _) as [c b]. destruct b; simpl.
  - destruct ae; simpl; (split_and!; [by apply (pool_ext _ _ m)|done|done|by apply ordered_ext]).
  - unfold GetOrSetPeerByTxHash. destruct (ts_hashTxs (tm_txStore m) !! Tx_Key tx) as [r|]; simpl; [|split_and!; [by apply (pool_ext _ _ m)|done|done|by apply ordered_ext]].
    case_bool_decide; simpl; [split_and!; [by apply (pool_ext _ _ m)|done|done|by apply ordered_ext]|]. set (f := fun w => with_peers _ w). split_and!; [|done|done|].
    + apply (pool_ext _ _ (set_objs m (alter f r (tm_objs m)) (tm_fresh m))); [done|]. by apply pool_alter.
    + intros Ho. unfold pool_ordered. eapply heap_ordered_ext; [|exact Ho]. intros k _. simpl. rewrite alter_total. by destruct (decide _) as [[-> _]|].
Qed.

(** *** Taking transactions for a block *)

Definition in_order (objs : Objs) (l : list nat) : Prop := StronglySorted (better_eq (tx_less objs)) l.

Lemma PopTx_ok objs D pq : pq_good D pq -> pq_txs pq <> [] ->
  exists pq' r, PopTx objs pq = Val (pq', r) /\ pq_good D pq' /\ pq_txs pq ≡ₚ r :: pq_txs pq' /\
    (heap_ordered (tx_less objs) (pq_txs pq) -> heap_ordered (tx_less objs) (pq_txs pq') /\ forall y, y ∈ pq_txs pq -> better_eq (tx_less objs) r y).
Proof.
  intros Hg Hne. pose proof (tx_less_order objs) as Hso. destruct (heap_Pop_items (HL := pq_laws objs D) pq Hg Hne) as (pq' & r & Hp & Hg' & Hi).
  exists pq', r. split_and!; [done..|]. intros Ho. destruct (heap_Pop_spec (HL := pq_laws objs D) pq Hg Hne Ho) as (pq2 & r2 & Hp2 & _ & _ & Ho2 & Hb).
  unfold PopTx in *. rewrite Hp in Hp2. injection Hp2 as <- <-. done.
Qed.

Lemma push_all_ok objs D rs : forall pq, pq_good D pq -> NoDup (rs ++ pq_txs pq) ->
  exists pq', push_all objs pq rs = Val pq' /\ pq_good D pq' /\ pq_txs pq' ≡ₚ rs ++ pq_txs pq /\ (heap_ordered (tx_less objs) (pq_txs pq) -> heap_ordered (tx_less objs) (pq_txs pq')).
Proof.
  pose proof (tx_less_order objs) as Hso. induction rs as [|r rs IH]; intros pq Hg Hnd; simpl; [by exists pq|]. simpl in Hnd. apply NoDup_cons in Hnd as [Hni Hnd].
  destruct (heap_Push_full (HL := pq_laws objs D) pq r Hg) as (pq1 & Hp & Hg1 & Hi1 & Ho1); [intros Hin; apply Hni, elem_of_app; by right|].
  unfold PushTx. rewrite Hp. cbn [mbind outcome_bind]. simpl in Hi1. destruct (IH pq1 Hg1) as (pq' & Hrun & Hg' & Hi & Ho).
  { rewrite Hi1, <- Permutation_middle. by apply NoDup_cons. }
  exists pq'. split_and!; [done|done| |auto]. by rewrite Hi, Hi1, <- Permutation_middle.
Qed.

Definition tx_size (objs : Objs) (r : nat) : Z := ComputeProtoSizeForTxs [w_tx (objs !!! r)].
Definition tx_gas (objs : Objs) (r : nat) : Z := w_gasWanted (objs !!! r).
Lemma tx_size_nonneg objs r : 0 <= tx_size objs r.
Proof. unfold tx_size, ComputeProtoSizeForTxs, len. simpl. lia. Qed.

(** The limits are far enough from the range of the integers. *)
Definition within_range (objs : Objs) (maxBytes maxGas : Z) (l : list nat) : Prop :=
  forall r, r ∈ l -> (-1 < maxBytes -> maxBytes + tx_size objs r <= MaxInt64) /\ (-1 < maxGas -> 0 <= tx_gas objs r /\ maxGas + tx_gas objs r <= MaxInt64).

Lemma sumZ_snoc {A} (f : A -> Z) l x : sumZ f (l ++ [x]) = sumZ f l + f x.
Proof. rewrite sumZ_app. simpl. lia. Qed.

Section reap.
Context (objs : Objs) (D : nat -> Prop) (maxBytes maxGas : Z).
(** Why the loop stopped after [ret]: nothing is left, the block has 50 transactions, or the next one is too much. *)
Definition stopped (ts tg : Z) (n : Z) (ret new left : list nat) : Prop :=
  (left = [] /\ new = ret) \/ (n + len ret = max_num /\ new = ret) \/
  exists r, new = ret ++ [r] /\ ((-1 < maxBytes /\ maxBytes < ts + sumZ (tx_size objs) ret + tx_size objs r) \/ (-1 < maxGas /\ maxGas < tg + sumZ (tx_gas objs) ret + tx_gas objs r)).

Lemma reap_loop_spec fuel : forall pq taken txs ts tg, pq_good D pq -> (length (pq_txs pq) <= fuel)%nat -> len txs < max_num ->
  within_range objs maxBytes maxGas (pq_txs pq) -> (-1 < maxBytes -> 0 <= ts <= maxBytes) -> (-1 < maxGas -> 0 <= tg <= maxGas) ->
  exists pq' new ret, reap_loop fuel objs maxBytes maxGas ts tg pq taken txs = Val (pq', taken ++ new, txs ++ ((fun r => w_tx (objs !!! r)) <$> ret)) /\
    pq_good D pq' /\ pq_txs pq ≡ₚ new ++ pq_txs pq' /\ len txs + len ret <= max_num /\
    (-1 < maxBytes -> ts + sumZ (tx_size objs) ret <= maxBytes) /\ (-1 < maxGas -> tg + sumZ (tx_gas objs) ret <= maxGas) /\
    stopped ts tg (len txs) ret new (pq_txs pq') /\
    (heap_ordered (tx_less objs) (pq_txs pq) -> heap_ordered (tx_less objs) (pq_txs pq') /\ in_order objs new /\
       forall a b, a ∈ new -> b ∈ pq_txs pq' -> better_eq (tx_less objs) a b).
Proof.
  assert (Hnone : forall pq taken txs ts tg, pq_good D pq -> len txs < max_num -> (-1 < maxBytes -> 0 <= ts <= maxBytes) -> (-1 < maxGas -> 0 <= tg <= maxGas) -> pq_txs pq = [] ->
    exists pq' new ret, (Val (pq, taken, txs) : go (TxPriorityQueue * list nat * list Tx)) = Val (pq', taken ++ new, txs ++ ((fun r => w_tx (objs !!! r)) <$> ret)) /\
    pq_good D pq' /\ pq_txs pq ≡ₚ new ++ pq_txs pq' /\ len txs + len ret <= max_num /\
    (-1 < maxBytes -> ts + sumZ (tx_size objs) ret <= maxBytes) /\ (-1 < maxGas -> tg + sumZ (tx_gas objs) ret <= maxGas) /\
    stopped ts tg (len txs) ret new (pq_txs pq') /\
    (heap_ordered (tx_less objs) (pq_txs pq) -> heap_ordered (tx_less objs) (pq_txs pq') /\ in_order objs new /\
       forall a b, a ∈ new -> b ∈ pq_txs pq' -> better_eq (tx_less objs) a b)).
  { intros pq taken txs ts tg Hg Hn Hb Hgas He. exists pq, [], []. rewrite !app_nil_r. change (len []) with 0. simpl. split_and!; try done; try lia; [by left|].
    intros Ho. split_and!; [done|constructor|]. by intros a b ?%not_elem_of_nil. }
  induction fuel as [|fuel IH]; intros pq taken txs ts tg Hg Hf Hn Hrange Hb Hgas; cbn [reap_loop].
  { apply Hnone; try done. apply nil_length_inv. lia. }
  destruct (Z.gtb_spec (NumTxs pq) 0) as [Hpos|Hz]; [|apply Hnone; try done; unfold NumTxs, len in Hz; destruct (pq_txs pq); [done|simpl in Hz; lia]].
  destruct (PopTx_ok objs D pq Hg) as (pq1 & r & Hpop & Hg1 & Hp1 & Ho1); [intros He; unfold NumTxs in Hpos; rewrite He in Hpos; done|].
  rewrite Hpop. cbn [mbind outcome_bind]. fold (tx_size objs r). fold (tx_gas objs r). assert (Hr : r ∈ pq_txs pq) by (rewrite Hp1; by left).
  destruct (Hrange r Hr) as [Hrb Hrg]. pose proof (tx_size_nonneg objs r) as Hs0.
  assert (Hlen1 : (length (pq_txs pq1) <= fuel)%nat) by (assert (length (pq_txs pq) = S (length (pq_txs pq1))) by (by rewrite Hp1); lia).
  assert (Hone : heap_ordered (tx_less objs) (pq_txs pq) -> heap_ordered (tx_less objs) (pq_txs pq1) /\ in_order objs [r] /\ forall a b, a ∈ [r] -> b ∈ pq_txs pq1 -> better_eq (tx_less objs) a b).
  { intros Ho. destruct (Ho1 Ho) as [Ho' Hbest]. split_and!; [done|repeat constructor|]. intros a b ->%list_elem_of_singleton Hbb. apply Hbest. rewrite Hp1. by right. }
  destruct ((maxBytes >? -1) && _) eqn:Hc1.
  { apply andb_true_iff in Hc1 as [Hm1 Hm2]. z_bool. specialize (Hb Hm1). specialize (Hrb Hm1). rewrite int64_id in Hm2 by int_lia. exists pq1, [r], []. rewrite app_nil_r.
    change (len []) with 0. change (sumZ _ []) with 0. split_and!; try done; try lia. right; right. exists r. split; [done|]. left. split; [done|]. change (sumZ _ []) with 0. lia. }
  destruct ((maxGas >? -1) && _) eqn:Hc2.
  { apply andb_true_iff in Hc2 as [Hm1 Hm2]. z_bool. specialize (Hgas Hm1). specialize (Hrg Hm1). rewrite int64_id in Hm2 by int_lia. exists pq1, [r], []. rewrite app_nil_r.
    change (len []) with 0. change (sumZ _ []) with 0. split_and!; try done; try lia. right; right. exists r. split; [done|]. right. split; [done|]. change (sumZ _ []) with 0. lia. }
  assert (Hbs : -1 < maxBytes -> int64 (ts + tx_size objs r) = ts + tx_size objs r /\ 0 <= ts + tx_size objs r <= maxBytes).
  { intros Hm. specialize (Hb Hm). specialize (Hrb Hm). assert (He : int64 (ts + tx_size objs r) = ts + tx_size objs r) by (apply int64_id; int_lia). split; [done|].
    apply andb_false_iff in Hc1 as [Hc1|Hc1]; z_bool; [lia|]. rewrite He in Hc1. lia. }
  assert (Hgs : -1 < maxGas -> int64 (tg + tx_gas objs r) = tg + tx_gas objs r /\ 0 <= tg + tx_gas objs r <= maxGas).
  { intros Hm. specialize (Hgas Hm). specialize (Hrg Hm). assert (He : int64 (tg + tx_gas objs r) = tg + tx_gas objs r) by (apply int64_id; int_lia). split; [done|].
    apply andb_false_iff in Hc2 as [Hc2|Hc2]; z_bool; [lia|]. rewrite He in Hc2. lia. }
  assert (Hl1 : len (txs ++ [w_tx (objs !!! r)]) = len txs + 1) by (unfold len; rewrite length_app; simpl; lia). rewrite Hl1.
  destruct (Z.geb_spec (len txs + 1) max_num).
  { exists pq1, [r], [r]. assert (Hl : len [r] = 1) by done. split; [done|]. split; [done|]. split; [done|]. split; [rewrite Hl; lia|].
    split; [intros Hm; destruct (Hbs Hm); simpl; lia|]. split; [intros Hm; destruct (Hgs Hm); simpl; lia|]. split; [|done].
    right; left. rewrite Hl. split; [lia|done]. }
  destruct (IH pq1 (taken ++ [r]) (txs ++ [w_tx (objs !!! r)]) (int64 (ts + tx_size objs r)) (int64 (tg + tx_gas objs r)) Hg1 Hlen1)
    as (pq' & new & ret & Hrun & Hg' & Hp & Hcnt & Hby & Hga & Hstop & Hord).
  { lia. } { intros x Hx. apply Hrange. rewrite Hp1. by right. } { intros Hm. destruct (Hbs Hm) as [-> ?]. lia. } { intros Hm. destruct (Hgs Hm) as [-> ?]. lia. }
  exists pq', (r :: new), (r :: ret). rewrite Hrun, <- !app_assoc. rewrite Hl1 in *. assert (Hlr : len (r :: ret) = 1 + len ret) by (unfold len; simpl; lia).
  split_and!; [done|done|by rewrite Hp1, Hp|lia| | | |].
  - intros Hm. destruct (Hbs Hm) as [He _]. rewrite He in Hby. specialize (Hby Hm). simpl. lia.
  - intros Hm. destruct (Hgs Hm) as [He _]. rewrite He in Hga. specialize (Hga Hm). simpl. lia.
  - destruct Hstop as [[-> ->]|[[Hc ->]|(x & -> & Hx)]]; [by left|right; left; split; [lia|done]|]. right; right. exists x. split; [done|].
    destruct Hx as [[Hm Hx]|[Hm Hx]]; [left|right]; (split; [done|]); simpl; [destruct (Hbs Hm) as [He _]|destruct (Hgs Hm) as [He _]]; rewrite He in Hx; lia.
  - intros Ho. destruct (Ho1 Ho) as [Ho' Hbest]. destruct (Hord Ho') as (Ho2 & Hin & Hab). split_and!; [done| |].
    + constructor; [done|]. apply Forall_forall. intros x Hx. apply Hbest. rewrite Hp1, Hp. right. apply elem_of_app. by left.
    + intros a b [->|Ha]%elem_of_cons Hbb; [|by apply Hab]. apply Hbest. rewrite Hp1, Hp. right. apply elem_of_app. by right.
Qed.
End reap.

(** The loops return and keep the items, whatever the limits. *)
Lemma reap_loop_items objs D maxBytes maxGas fuel : forall pq taken txs ts tg, pq_good D pq ->
  exists pq' new txs', reap_loop fuel objs maxBytes maxGas ts tg pq taken txs = Val (pq', taken ++ new, txs') /\ pq_good D pq' /\ pq_txs pq ≡ₚ new ++ pq_txs pq' /\
    (heap_ordered (tx_less objs) (pq_txs pq) -> heap_ordered (tx_less objs) (pq_txs pq')).
Proof.
  induction fuel as [|fuel IH]; intros pq taken txs ts tg Hg; cbn [reap_loop]; [exists pq, [], txs; by rewrite app_nil_r|].
  destruct (Z.gtb_spec (NumTxs pq) 0) as [Hpos|Hz]; [|exists pq, [], txs; by rewrite app_nil_r].
  destruct (PopTx_ok objs D pq Hg) as (pq1 & r & Hpop & Hg1 & Hp1 & Ho1); [intros He; unfold NumTxs in Hpos; rewrite He in Hpos; done|].
  rewrite Hpop. cbn [mbind outcome_bind]. assert (Ho : heap_ordered (tx_less objs) (pq_txs pq) -> heap_ordered (tx_less objs) (pq_txs pq1)) by (intros Ho; by apply Ho1).
  destruct (_ && _); [by exists pq1, [r], txs|]. destruct (_ && _); [by exists pq1, [r], txs|]. destruct (_ >=? _); [by eexists pq1, [r], _|].
  match goal with |- context [reap_loop fuel objs maxBytes maxGas ?a ?b pq1 ?c ?d] => destruct (IH pq1 c d a b Hg1) as (pq' & new & txs' & Hrun & Hg' & Hp & Ho') end.
  exists pq', (r :: new), txs'. rewrite Hrun, <- app_assoc. split_and!; [done|done|by rewrite Hp1, Hp|auto].
Qed.
Lemma reap_max_loop_spec objs D max fuel : forall pq taken, pq_good D pq -> (length (pq_txs pq) <= fuel)%nat ->
  exists pq' new, reap_max_loop fuel objs max pq taken = Val (pq', taken ++ new) /\ pq_good D pq' /\ pq_txs pq ≡ₚ new ++ pq_txs pq' /\
    (heap_ordered (tx_less objs) (pq_txs pq) -> heap_ordered (tx_less objs) (pq_txs pq') /\ in_order objs new /\ forall a b, a ∈ new -> b ∈ pq_txs pq' -> better_eq (tx_less objs) a b) /\
    (pq_txs pq' = [] \/ max <= len taken + len new) /\ (len taken <= max -> len taken + len new <= max).
Proof.
  assert (Hnone : forall pq taken, pq_good D pq -> (pq_txs pq = [] \/ max <= len taken) -> exists pq' new, (Val (pq, taken) : go (TxPriorityQueue * list nat)) = Val (pq', taken ++ new) /\ pq_good D pq' /\ pq_txs pq ≡ₚ new ++ pq_txs pq' /\
    (heap_ordered (tx_less objs) (pq_txs pq) -> heap_ordered (tx_less objs) (pq_txs pq') /\ in_order objs new /\ forall a b, a ∈ new -> b ∈ pq_txs pq' -> better_eq (tx_less objs) a b) /\
    (pq_txs pq' = [] \/ max <= len taken + len new) /\ (len taken <= max -> len taken + len new <= max)).
  { intros pq taken Hg Hend. exists pq, []. rewrite app_nil_r. change (len []) with 0. split_and!; try done.
    - intros Ho. split_and!; [done|constructor|]. by intros a b ?%not_elem_of_nil.
    - destruct Hend; [by left|right; lia].
    - lia. }
  induction fuel as [|fuel IH]; intros pq taken Hg Hf; cbn [reap_max_loop]; [apply Hnone; [done|]; left; apply nil_length_inv; lia|].
  destruct (Z.gtb_spec (NumTxs pq) 0) as [Hpos|Hz]; [|apply Hnone; [done|]; left; unfold NumTxs, len in Hz; destruct (pq_txs pq); [done|simpl in Hz; lia]].
  destruct (Z.ltb_spec (len taken) max) as [Hm|Hm]; simpl; [|apply Hnone; [done|by right]].
  destruct (PopTx_ok objs D pq Hg) as (pq1 & r & Hpop & Hg1 & Hp1 & Ho1); [intros He; unfold NumTxs in Hpos; rewrite He in Hpos; done|].
  rewrite Hpop. cbn [mbind outcome_bind]. assert (Hlen1 : (length (pq_txs pq1) <= fuel)%nat) by (assert (length (pq_txs pq) = S (length (pq_txs pq1))) by (by rewrite Hp1); lia).
  destruct (IH pq1 (taken ++ [r]) Hg1 Hlen1) as (pq' & new & Hrun & Hg' & Hp & Hord & Hend & Hmax). exists pq', (r :: new).
  assert (Hl : len (taken ++ [r]) + len new = len taken + len (r :: new)) by (unfold len; rewrite length_app; simpl; lia).
  assert (Hl1 : len (taken ++ [r]) = len taken + 1) by (unfold len; rewrite length_app; simpl; lia). rewrite Hl in Hend, Hmax.
  rewrite Hrun, <- app_assoc. split_and!; [done|done|by rewrite Hp1, Hp| |done|intros; apply Hmax; lia]. intros Ho. destruct (Ho1 Ho) as [Ho' Hbest]. destruct (Hord Ho') as (Ho2 & Hin & Hab). split_and!; [done| |].
  - constructor; [done|]. apply Forall_forall. intros x Hx. apply Hbest. rewrite Hp1, Hp. right. apply elem_of_app. by left.
  - intros a b [->|Ha]%elem_of_cons Hbb; [|by apply Hab]. apply Hbest. rewrite Hp1, Hp. right. apply elem_of_app. by right.
Qed.

(** Putting the transactions back into the queue leaves the mempool as it was. *)
Lemma reap_restores mh mt m pq new : pool_but mh mt m -> pq_good (gossiped m) pq -> live m ≡ₚ new ++ pq_txs pq ->
  exists pq', push_all (tm_objs m) pq new = Val pq' /\ pool_but mh mt (set_pq m pq') /\ pq_txs pq' ≡ₚ live m /\
    (heap_ordered (tx_less (tm_objs m)) (pq_txs pq) -> pool_ordered (set_pq m pq')).
Proof.
  intros Hok Hg Hp. destruct (push_all_ok (tm_objs m) (gossiped m) new pq Hg) as (pq' & Hrun & Hg' & Hp' & Ho).
  { rewrite <- Hp. apply (pqg_nodup _ _ (pk_pq _ _ _ Hok)). }
  exists pq'. rewrite <- Hp in Hp'. split_and!; [done| |done|done]. destruct Hok as [Hcfg Hgd Htx Hfr Hmade (els & Hrep & Hels) Hmax Hhk Hsk [Hhs Hhp] [Hts Htp] Hsz Hby Hcnt].
  assert (Hin : forall r, r ∈ live (set_pq m pq') <-> r ∈ live m) by (intros r; change (live (set_pq m pq')) with (pq_txs pq'); by rewrite Hp').
  split; try done.
  - intros r Hr%Hin. destruct (Htx r Hr). by split.
  - exists els. split; [done|]. rewrite Hels. change (live (set_pq m pq')) with (pq_txs pq'). simpl. by rewrite Hp'.
  - intros k r. rewrite Hin. apply Hhk.
  - intros k r. rewrite Hin. apply Hsk.
  - split; [done|]. rewrite Hhp. by symmetry.
  - split; [done|]. rewrite Htp. by symmetry.
  - simpl. rewrite Hsz. symmetry. change (live (set_pq m pq')) with (pq_txs pq'). by rewrite Hp'.
  - assert (len (live (set_pq m pq')) = len (live m)) as -> by (unfold len; change (live (set_pq m pq')) with (pq_txs pq'); by rewrite Hp'). done.
Qed.

Lemma ReapMaxBytesMaxGas_returns m maxBytes maxGas : pool_ok m ->
  exists m' txs, ReapMaxBytesMaxGas m maxBytes maxGas = Val (m', txs) /\ pool_ok m' /\ frame m m' /\ live m' ≡ₚ live m /\ tm_objs m' = tm_objs m /\ (pool_ordered m -> pool_ordered m').
Proof.
  intros Hok. unfold ReapMaxBytesMaxGas.
  destruct (reap_loop_items (tm_objs m) (gossiped m) maxBytes maxGas (length (pq_txs (tm_priorityIndex m))) (tm_priorityIndex m) [] [] 0 0 (pk_pq _ _ _ Hok)) as (pq & new & txs & Hrun & Hg & Hp & Ho).
  rewrite Hrun. cbn [mbind outcome_bind]. simpl ([] ++ new). destruct (reap_restores [] [] m pq new Hok Hg Hp) as (pq' & Hpush & Hok' & Hp' & Ho').
  rewrite Hpush. cbn [mbind outcome_bind]. exists (set_pq m pq'), txs. split_and!; try done. auto.
Qed.

(** What [ret] is of the mempool: the best transactions, the best first. *)
Definition best_first (objs : Objs) (ret rest : list nat) : Prop := in_order objs ret /\ forall a b, a ∈ ret -> b ∈ rest -> better_eq (tx_less objs) a b.

Lemma best_first_snoc objs ret r rest : best_first objs (ret ++ [r]) rest -> best_first objs ret (r :: rest).
Proof.
  intros [Hs Hb]. unfold in_order in *. assert (Hr : StronglySorted (better_eq (tx_less objs)) ret /\ forall a, a ∈ ret -> better_eq (tx_less objs) a r).
  { clear Hb. induction ret as [|x ret IH]; simpl in Hs; [split; [constructor|by intros a ?%not_elem_of_nil]|]. apply StronglySorted_inv in Hs as [Hs Hx]. destruct (IH Hs) as [Hs' Ha].
    rewrite Forall_app in Hx. destruct Hx as [Hx Hxr]. split; [by constructor|]. intros a [->|?]%elem_of_cons; [by inversion Hxr|by apply Ha]. }
  destruct Hr as [Hs' Ha]. split; [done|]. intros a b Haret [->|Hbr]%elem_of_cons; [by apply Ha|]. apply Hb; [apply elem_of_app; by left|done].
Qed.

(** The block takes as many of the best transactions as the limits allow. *)
Lemma ReapMaxBytesMaxGas_best m maxBytes maxGas : pool_ok m -> pool_ordered m -> within_range (tm_objs m) maxBytes maxGas (live m) ->
  exists m' ret rest, ReapMaxBytesMaxGas m maxBytes maxGas = Val (m', (fun r => w_tx (tx_at m r)) <$> ret) /\ live m ≡ₚ ret ++ rest /\ best_first (tm_objs m) ret rest /\
    len ret <= max_num /\ (-1 < maxBytes -> sumZ (tx_size (tm_objs m)) ret <= maxBytes) /\ (-1 < maxGas -> sumZ (tx_gas (tm_objs m)) ret <= maxGas) /\
    (rest = [] \/ len ret = max_num \/ exists r, r ∈ rest /\
       ((-1 < maxBytes /\ maxBytes < sumZ (tx_size (tm_objs m)) (ret ++ [r])) \/ (-1 < maxGas /\ maxGas < sumZ (tx_gas (tm_objs m)) (ret ++ [r])))).
Proof.
  intros Hok Hord Hrange. destruct (ReapMaxBytesMaxGas_returns m maxBytes maxGas Hok) as (m' & txs & Hreap & _).
  destruct (reap_loop_spec (tm_objs m) (gossiped m) maxBytes maxGas (length (pq_txs (tm_priorityIndex m))) (tm_priorityIndex m) [] [] 0 0 (pk_pq _ _ _ Hok))
    as (pq & new & ret & Hrun & Hg & Hp & Hcnt & Hby & Hga & Hstop & Ho); [done|done|done|lia|lia|].
  destruct (Ho Hord) as (_ & Hin & Hab). fold (live m) in Hp. change (len []) with 0 in *.
  assert (Htxs : txs = (fun r => w_tx (tx_at m r)) <$> ret).
  { unfold ReapMaxBytesMaxGas in Hreap. rewrite Hrun in Hreap. cbn [mbind outcome_bind] in Hreap. apply bind_val in Hreap as (pq' & _ & Hr). by injection Hr as _ <-. }
  rewrite Htxs in Hreap. destruct Hstop as [[He ->]|[[Hn ->]|(r & -> & Hx)]].
  - exists m', ret, (pq_txs pq). split_and!; try done; try lia. by left.
  - exists m', ret, (pq_txs pq). split_and!; try done; try lia.
  - exists m', ret, (r :: pq_txs pq). split_and!; try done; try lia.
    + rewrite Hp, <- app_assoc. done.
    + by apply best_first_snoc.
    + right; right. exists r. split; [by left|]. rewrite !sumZ_snoc. destruct Hx as [[]|[]]; [left|right]; (split; [done|lia]).
Qed.

Lemma ReapMaxTxs_best m max : pool_ok m ->
  exists m' ret rest, ReapMaxTxs m max = Val (m', (fun r => w_tx (tx_at m r)) <$> ret) /\ pool_ok m' /\ frame m m' /\ live m' ≡ₚ live m /\ tm_objs m' = tm_objs m /\
    (pool_ordered m -> pool_ordered m' /\ best_first (tm_objs m) ret rest) /\ live m ≡ₚ ret ++ rest /\ len ret = if max <? 0 then len (live m) else Z.min max (len (live m)).
Proof.
  intros Hok. unfold ReapMaxTxs. set (mx := if max <? 0 then _ else max).
  destruct (reap_max_loop_spec (tm_objs m) (gossiped m) mx (length (pq_txs (tm_priorityIndex m))) (tm_priorityIndex m) [] (pk_pq _ _ _ Hok)) as (pq & new & Hrun & Hg & Hp & Ho & Hend & Hmax); [done|].
  rewrite Hrun. cbn [mbind outcome_bind]. simpl ([] ++ new). destruct (reap_restores [] [] m pq new Hok Hg Hp) as (pq' & Hpush & Hok' & Hp' & Ho').
  rewrite Hpush. cbn [mbind outcome_bind]. exists (set_pq m pq'), new, (pq_txs pq). change (len []) with 0 in *. fold (live m) in Hp. split_and!; try done.
  - intros Hord. destruct (Ho Hord) as (Hord' & Hin & Hab). split; [auto|done].
  - assert (Hl : len (live m) = len new + len (pq_txs pq)) by (unfold len; rewrite Hp, length_app; lia). assert (0 <= len (pq_txs pq) /\ 0 <= len new) by (unfold len; lia).
    assert (Hmx : mx = if max <? 0 then len (live m) else max) by done. assert (Hend' : len (pq_txs pq) = 0 \/ mx <= 0 + len new) by (destruct Hend as [->|]; auto). clear Hend.
    clearbody mx. destruct (Z.ltb_spec max 0); lia.
Qed.

Lemma NewTxMempool_ok cfg height pre post : config_ok cfg -> pool_ok (NewTxMempool cfg height pre post) /\ pool_ordered (NewTxMempool cfg height pre post).
Proof.
  intros Hc. split; [|intros c Hl; simpl in Hl; lia]. split; simpl; try done.
  - split; [constructor| |]; simpl; [by intros i r ?|]. intros r [e He]. simpl in He. done.
  - by intros r ?%not_elem_of_nil.
  - intros r [? ?]. done.
  - intros r [e He]. done.
  - exists []. split; [apply newWithMax_rep|done].
  - intros k r. split; [by rewrite lookup_empty|]. by intros [?%not_elem_of_nil _].
  - intros k r. split; [by rewrite lookup_empty|]. by intros [?%not_elem_of_nil _].
  - split; [constructor|done].
  - split; [constructor|done].
  - apply (cok_txs _ Hc).
  - apply (cok_size _ Hc).
Qed.
End pool.
