(* ===== verification/MempoolRun.v ===== *)
(** * Runs of the mempool

    The operations of internal/mempool/v1/mempool.go as steps of one state machine, what every
    run keeps, what a block takes and clears, and runs in which the code goes wrong. *)
From Stdlib Require Import ZArith Lia Strings.Byte Strings.String Sorting.Sorted.
From stdpp Require Import base list strings gmap sorting.
From S2P Require Import Prelude.
From S2P Require Import Merkle.
From S2P Require Import MerkleProofs.
From S2P Require Import Proto.
From S2P Require Import Types.
From S2P Require Import SafeMath.
From S2P Require Import Block.
From S2P Require Import CList.
From S2P Require Import Heap.
From S2P Require Import Mempool.
From S2P Require Import MempoolProofs.

Section runs.
Context `{!Sha256, !GoOrders}.

(** The calls that change the mempool: those of clients and peers, of the application's
    answers, and of the consensus. *)
Inductive PoolOp :=
| OpCheckTx (proxy_error async_error : bool) (tx : Tx) (senderID : Z)
| OpAnswer (now : Time) (tx : Tx) (res : option ResponseCheckTx) (senderID : Z)
| OpRecheck (tx : Tx) (res : option ResponseCheckTx)
| OpRemove (key : bytes)
| OpFlush
| OpEnable
| OpReap (maxBytes maxGas : Z)
| OpReapMax (max : Z)
| OpUpdate (height : Z) (txs : list Tx) (codes : list Z) (pre : PreCheckFunc) (post : PostCheckFunc) (now : Time).

Definition pool_exec (m : TxMempool) (op : PoolOp) : go TxMempool :=
  match op with
  | OpCheckTx pe ae tx id => Val (CheckTx m pe ae tx id).1
  | OpAnswer now tx res id => tx_callback m now tx res id
  | OpRecheck tx res => defaultTxCallback m tx res
  | OpRemove key => '(m, _) ← RemoveTxByKey m key; Val m
  | OpFlush => Flush m
  | OpEnable => Val (EnableTxsAvailable m)
  | OpReap mb mg => '(m, _) ← ReapMaxBytesMaxGas m mb mg; Val m
  | OpReapMax max => '(m, _) ← ReapMaxTxs m max; Val m
  | OpUpdate h txs codes pre post now => '(m, _) ← Update m h txs codes pre post now; Val m
  end.
Fixpoint pool_run (m : TxMempool) (ops : list PoolOp) : go TxMempool :=
  match ops with [] => Val m | op :: rest => m ← pool_exec m op; pool_run m rest end.

(** What the callers see to: an answer is for a transaction that [CheckTx] let through and that
    is not in the mempool already, and a block has a result for each transaction. *)
Definition admissible (m : TxMempool) (op : PoolOp) : bool :=
  match op with
  | OpAnswer _ tx _ _ => (len tx <=? mc_MaxTxBytes (tm_config m)) && bool_decide (ts_hashTxs (tm_txStore m) !! Tx_Key tx = None)
  | OpUpdate _ txs codes _ _ _ => len txs <=? len codes
  | _ => true
  end.
Fixpoint sensible (m : TxMempool) (ops : list PoolOp) : bool :=
  match ops with
  | [] => true
  | op :: rest => admissible m op && match pool_exec m op with Val m' => sensible m' rest | _ => true end
  end.

Lemma exec_keeps m op m' : pool_ok m -> admissible m op = true -> pool_exec m op = Val m' -> pool_ok m' /\ tm_config m' = tm_config m.
Proof.
  intros Hok Hadm Hrun. destruct op as [pe ae tx id|now tx res id|tx res|key| | |mb mg|max|h txs codes pre post now]; simpl in Hadm, Hrun.
  - injection Hrun as <-. destruct (CheckTx_ok m pe ae tx id Hok) as (? & ? & _). done.
  - apply andb_true_iff in Hadm as [Hlen Hkey%bool_decide_eq_true]. z_bool. destruct (tm_recheckCursor m) eqn:Hc; [unfold tx_callback in Hrun; by rewrite Hc in Hrun|].
    destruct (tx_callback_ok m now tx res id Hok Hc Hlen Hkey) as (m1 & Hm1 & ? & ? & _). assert (m1 = m') as <- by congruence. done.
  - destruct (defaultTxCallback_ok m tx res m' Hok Hrun) as (? & ? & _). done.
  - destruct (RemoveTxByKey_ok m key Hok) as (m1 & b & Hm1 & Hok1 & (Hc & _) & _). rewrite Hm1 in Hrun. by simplify_eq/=.
  - destruct (Flush_ok m Hok) as (m1 & Hm1 & ? & _ & ? & _). assert (m1 = m') as <- by congruence. done.
  - injection Hrun as <-. split; [by apply (pool_ext _ _ m)|done].
  - destruct (ReapMaxBytesMaxGas_returns m mb mg Hok) as (m1 & txs & Hm1 & Hok1 & (Hc & _) & _). rewrite Hm1 in Hrun. by simplify_eq/=.
  - destruct (ReapMaxTxs_best m max Hok) as (m1 & ret & rest & Hm1 & Hok1 & (Hc & _) & _). rewrite Hm1 in Hrun. by simplify_eq/=.
  - z_bool. destruct (Update_ok m h txs codes pre post now Hok Hadm) as (m1 & reqs & Hm1 & ? & ? & _). rewrite Hm1 in Hrun. by simplify_eq/=.
Qed.

Lemma run_keeps ops : forall m m', pool_ok m -> sensible m ops = true -> pool_run m ops = Val m' -> pool_ok m' /\ tm_config m' = tm_config m.
Proof.
  induction ops as [|op ops IH]; intros m m' Hok Hs Hrun; simpl in *; [by simplify_eq|]. apply andb_true_iff in Hs as [Ha Hs]. apply bind_val in Hrun as (m1 & Hm1 & Hrun).
  rewrite Hm1 in Hs. destruct (exec_keeps m op m1 Hok Ha Hm1) as [Hok1 <-]. by apply IH.
Qed.

(** Without rechecks no answer finds a recheck under way and the priorities stay as they are. *)
Definition settled (m : TxMempool) : Prop := pool_ok m /\ pool_ordered m /\ mc_Recheck (tm_config m) = false /\ tm_recheckCursor m = None.

Lemma exec_settled m op : settled m -> admissible m op = true -> exists m', pool_exec m op = Val m' /\ settled m' /\ tm_config m' = tm_config m.
Proof.
  intros (Hok & Ho & Hr & Hc) Hadm. unfold settled. destruct op as [pe ae tx id|now tx res id|tx res|key| | |mb mg|max|h txs codes pre post now]; simpl in Hadm |- *.
  - destruct (CheckTx_ok m pe ae tx id Hok) as (? & Hcfg & Hcur & Hord). eexists. split; [done|]. rewrite Hcfg, Hcur. split_and!; auto.
  - apply andb_true_iff in Hadm as [Hlen Hkey%bool_decide_eq_true]. z_bool.
    destruct (tx_callback_ok m now tx res id Hok Hc Hlen Hkey) as (m1 & Hm1 & ? & Hcfg & Hcur & Hord & _). exists m1. rewrite Hcfg. split_and!; auto.
  - unfold defaultTxCallback. rewrite Hc. by exists m.
  - destruct (RemoveTxByKey_ok m key Hok) as (m1 & b & Hm1 & Hok1 & (Hcfg & _ & Hcur & _) & Hord & _). rewrite Hm1. simpl. exists m1. rewrite Hcfg, Hcur. split_and!; auto.
  - destruct (Flush_ok m Hok) as (m1 & Hm1 & Hok1 & Hl & Hcfg & Hcur & _). exists m1. rewrite Hm1, Hcfg, Hcur. split_and!; try done. intros c Hlt. rewrite Hl in Hlt. simpl in Hlt. lia.
  - eexists. split; [done|]. split_and!; try done. by apply (pool_ext _ _ m).
  - destruct (ReapMaxBytesMaxGas_returns m mb mg Hok) as (m1 & txs & Hm1 & Hok1 & (Hcfg & _ & Hcur & _) & _ & _ & Hord). rewrite Hm1. simpl. exists m1. rewrite Hcfg, Hcur. split_and!; auto.
  - destruct (ReapMaxTxs_best m max Hok) as (m1 & ret & rest & Hm1 & Hok1 & (Hcfg & _ & Hcur & _) & _ & _ & Hord & _). rewrite Hm1. simpl. exists m1. rewrite Hcfg, Hcur.
    destruct (Hord Ho). split_and!; auto.
  - z_bool. destruct (Update_ok m h txs codes pre post now Hok Hadm) as (m1 & reqs & Hm1 & Hok1 & Hcfg & Hord & Hcur & _). rewrite Hm1. simpl. exists m1. rewrite Hcfg. split_and!; auto.
Qed.
Lemma run_settled ops : forall m, settled m -> sensible m ops = true -> exists m', pool_run m ops = Val m' /\ settled m' /\ tm_config m' = tm_config m.
Proof.
  induction ops as [|op ops IH]; intros m Hok Hs; simpl in *; [by exists m|]. apply andb_true_iff in Hs as [Ha Hs].
  destruct (exec_settled m op Hok Ha) as (m1 & Hm1 & Hok1 & <-). rewrite Hm1 in Hs |- *. by apply IH.
Qed.

Lemma run_from_new cfg height pre post ops m : config_ok cfg -> mc_Recheck cfg = false -> let new := NewTxMempool cfg height pre post in
  sensible new ops = true -> pool_run new ops = Val m -> settled m /\ tm_config m = cfg.
Proof.
  intros Hcfg Hr new Hs Hrun. destruct (NewTxMempool_ok cfg height pre post Hcfg) as [Hok Ho]. destruct (run_settled ops new) as (m' & Hm' & Hset & Hc); [done|done|]. assert (m' = m) as -> by congruence. done.
Qed.

(** C14: Whatever the order of submissions, answers, rechecks, removals, flushes, reaps and
    blocks, as long as no transaction enters twice: the priority queue, the list by height, the
    list by time, the gossip list and the two maps of the store hold exactly the same
    transactions; the lists are sorted; no two transactions have the same key or the same
    sender; [Size] is their number and [SizeBytes] their bytes, and both are within the limits
    of the configuration. *)
Theorem mempool_consistent cfg height pre post ops m : config_ok cfg -> sensible (NewTxMempool cfg height pre post) ops = true ->
  pool_run (NewTxMempool cfg height pre post) ops = Val m ->
  NoDup (pq_txs (tm_priorityIndex m)) /\
  tm_heightIndex m ≡ₚ pq_txs (tm_priorityIndex m) /\ sorted_by (tm_objs m) w_height (tm_heightIndex m) /\
  tm_timestampIndex m ≡ₚ pq_txs (tm_priorityIndex m) /\ sorted_by (tm_objs m) w_timestamp (tm_timestampIndex m) /\
  (exists els, clist_rep (tm_gossipIndex m) els /\ els ≡ₚ gossip_of (tm_objs m) <$> pq_txs (tm_priorityIndex m)) /\
  (forall key r, GetTxByHash (tm_txStore m) key = Some r <-> r ∈ pq_txs (tm_priorityIndex m) /\ Tx_Key (w_tx (tx_at m r)) = key) /\
  (forall sender r, GetTxBySender (tm_txStore m) sender = Some r <-> r ∈ pq_txs (tm_priorityIndex m) /\ w_sender (tx_at m r) = sender /\ sender <> "") /\
  TxMempool_Size m = NumTxs (tm_priorityIndex m) /\ TxMempool_Size m <= mc_Size cfg /\
  tm_sizeBytes m = sumZ (fun r => WrappedTx_Size (tx_at m r)) (pq_txs (tm_priorityIndex m)) /\ tm_sizeBytes m <= mc_MaxTxsBytes cfg.
Proof.
  intros Hcfg Hs Hrun. destruct (NewTxMempool_ok cfg height pre post Hcfg) as [Hnew _]. destruct (run_keeps ops _ m Hnew Hs Hrun) as [Hok Hc]. simpl in Hc.
  pose proof (pool_Size _ _ _ Hok) as Hsz. pose proof Hok as [_ [Hnd _ _] _ _ _ Hg _ Hh Hsd [Hhs Hhp] [Hts Htp] Hsum Hby Hcnt]. rewrite Hc in Hby, Hcnt.
  split_and!; try done. rewrite Hsz. exact Hcnt.
Qed.

(** C16: When the mempool does not check transactions again after a block and its limits are
    in range, no sequence of calls makes it panic, provided that no transaction enters twice
    (the application's answer is for a transaction that is not in the mempool already and
    that is within the limit on its size) and that every [Update] comes with a result for each
    of its transactions: every such run returns, with the indexes consistent and the priority
    queue in heap order, and no recheck is ever under way.  (Without the first condition the
    indexes can differ, [tx_enters_twice]; without the second [Update] panics.) *)
Theorem mempool_never_panics cfg height pre post ops : config_ok cfg -> mc_Recheck cfg = false -> sensible (NewTxMempool cfg height pre post) ops = true ->
  exists m, pool_run (NewTxMempool cfg height pre post) ops = Val m /\ pool_ok m /\ pool_ordered m /\ tm_recheckCursor m = None.
Proof.
  intros Hcfg Hr Hs. destruct (NewTxMempool_ok cfg height pre post Hcfg) as [Hok Ho]. destruct (run_settled ops (NewTxMempool cfg height pre post)) as (m & Hm & (? & ? & _ & ?) & _); [done|done|].
  by exists m.
Qed.

(** C15: After any run without rechecks in which no transaction enters twice and every block
    has a result for each transaction, [ReapMaxBytesMaxGas] fills a block with the best
    transactions, the best first (the higher priority, and of equal priorities the older one):
    none that it leaves is better than one it takes; it takes at most 50, keeps to the limits on
    bytes and gas that are not negative, and stops only because the mempool is empty, because
    it has 50, or because the next best transaction would exceed a limit.  The cap of 50 also
    holds when both limits are negative, where the interface documents that all available
    transactions are returned: then it takes 50 or, if there are fewer, all.  The mempool stays
    consistent and ordered.  The limits and the transactions' sizes and gas are such that no
    sum leaves the range of 64-bit integers and no gas is negative. *)
Theorem reap_by_priority cfg height pre post ops m maxBytes maxGas : config_ok cfg -> mc_Recheck cfg = false ->
  sensible (NewTxMempool cfg height pre post) ops = true -> pool_run (NewTxMempool cfg height pre post) ops = Val m ->
  within_range (tm_objs m) maxBytes maxGas (pq_txs (tm_priorityIndex m)) ->
  exists m' taken left, ReapMaxBytesMaxGas m maxBytes maxGas = Val (m', (fun r => w_tx (tx_at m r)) <$> taken) /\
    pool_ok m' /\ pool_ordered m' /\ pq_txs (tm_priorityIndex m') ≡ₚ pq_txs (tm_priorityIndex m) /\
    pq_txs (tm_priorityIndex m) ≡ₚ taken ++ left /\ best_first (tm_objs m) taken left /\ len taken <= 50 /\
    (-1 < maxBytes -> sumZ (tx_size (tm_objs m)) taken <= maxBytes) /\ (-1 < maxGas -> sumZ (tx_gas (tm_objs m)) taken <= maxGas) /\
    (left = [] \/ len taken = 50 \/ exists r, r ∈ left /\
       ((-1 < maxBytes /\ maxBytes < sumZ (tx_size (tm_objs m)) (taken ++ [r])) \/ (-1 < maxGas /\ maxGas < sumZ (tx_gas (tm_objs m)) (taken ++ [r])))) /\
    (maxBytes < 0 -> maxGas < 0 -> len taken = Z.min 50 (NumTxs (tm_priorityIndex m))).
Proof.
  intros Hcfg Hr Hs Hrun Hrange. destruct (run_from_new cfg height pre post ops m Hcfg Hr Hs Hrun) as [(Hok & Ho & _) _].
  destruct (ReapMaxBytesMaxGas_returns m maxBytes maxGas Hok) as (m1 & txs & Hm1 & Hok1 & _ & Hl1 & _ & Ho1).
  destruct (ReapMaxBytesMaxGas_best m maxBytes maxGas Hok Ho Hrange) as (m' & ret & rest & Hm' & Hrest). assert (m1 = m') as -> by congruence.
  exists m', ret, rest. split; [done|]. split; [done|]. split; [auto|]. split; [done|].
  destruct Hrest as (Hperm & Hbest & Hmax & Hb & Hg & Hstop). split_and!; try done. intros Hnb Hng. apply Permutation_length in Hperm as Hlen.
  unfold live in Hlen. rewrite length_app in Hlen. unfold NumTxs, len, max_num in *.
  destruct Hstop as [->|[?|(r & _ & [?|?])]]; [simpl in Hlen; lia..|lia|lia].
Qed.

(** The answer to a new transaction either leaves the mempool's transactions as they
    were, and only because the filter or the application refuses the newcomer, its sender has a
    transaction already, or there is no room and even all transactions of a lower priority would
    not make enough; or it lets the transaction in, and then, exactly when there was no room,
    others are evicted, each of a lower priority than the newcomer.  No other transaction changes
    or leaves. *)
Lemma mempool_admission m now tx res senderID : pool_ok m -> tm_recheckCursor m = None -> len tx <= mc_MaxTxBytes (tm_config m) -> GetTxByHash (tm_txStore m) (Tx_Key tx) = None ->
  exists m', tx_callback m now tx res senderID = Val m' /\ pool_ok m' /\ (forall k, k ∈ pq_txs (tm_priorityIndex m) -> k ∈ pq_txs (tm_priorityIndex m') -> tx_at m' k = tx_at m k) /\
    ((pq_txs (tm_priorityIndex m') = pq_txs (tm_priorityIndex m) /\ turned_away m now tx res) \/
     exists answer evicted, res = Some answer /\ rc_Code answer = CodeTypeOK /\
       (evicted = [] <-> canAddTx m (mkWrappedTx tx (Tx_Key tx) (tm_height m) 0 0 "" now ∅ None false) = true) /\
       (forall k, k ∈ evicted -> k ∈ pq_txs (tm_priorityIndex m) /\ w_priority (tx_at m k) < rc_Priority answer) /\
       evicted ++ pq_txs (tm_priorityIndex m') ≡ₚ tm_fresh m :: pq_txs (tm_priorityIndex m) /\ w_tx (tx_at m' (tm_fresh m)) = tx).
Proof.
  intros Hok Hc Hlen Hkey. destruct (tx_callback_ok m now tx res senderID Hok Hc Hlen Hkey) as (m' & Hm' & Hok' & _ & _ & _ & Hsame & Hwho). by exists m'.
Qed.

(** C17: After any run in which no transaction entered twice and every block had a result for
    each transaction, [Update] with a result for each transaction of the block returns and
    leaves no transaction of the block in the mempool: neither under its key nor in the
    priority queue.  What else it removes has outlived the configured number of blocks or time;
    the remaining transactions are unchanged and the indexes agree.  (Where a transaction has
    entered twice one copy stays, [tx_enters_twice].) *)
Theorem block_clears_mempool cfg height pre post ops m blockHeight txs codes newPre newPost now : config_ok cfg ->
  sensible (NewTxMempool cfg height pre post) ops = true -> pool_run (NewTxMempool cfg height pre post) ops = Val m -> len txs <= len codes ->
  exists m' requests, Update m blockHeight txs codes newPre newPost now = Val (m', requests) /\ pool_ok m' /\
    (forall tx, tx ∈ txs -> GetTxByHash (tm_txStore m') (Tx_Key tx) = None /\ forall r, r ∈ pq_txs (tm_priorityIndex m') -> w_tx (tx_at m' r) <> tx) /\
    (forall r, r ∈ pq_txs (tm_priorityIndex m') -> r ∈ pq_txs (tm_priorityIndex m) /\ tx_at m' r = tx_at m r) /\
    (forall r, r ∈ pq_txs (tm_priorityIndex m) -> (r ∉ pq_txs (tm_priorityIndex m')) -> (Tx_Key (w_tx (tx_at m r)) ∈ Tx_Key <$> txs) \/
       (0 < mc_TTLNumBlocks cfg < int64 (blockHeight - w_height (tx_at m r))) \/ (0 < mc_TTLDuration cfg < clip64 (now - w_timestamp (tx_at m r)))).
Proof.
  intros Hcfg Hs Hrun Hlen. destruct (NewTxMempool_ok cfg height pre post Hcfg) as [Hnew _]. destruct (run_keeps ops _ m Hnew Hs Hrun) as [Hok Hc]. simpl in Hc.
  destruct (Update_ok m blockHeight txs codes newPre newPost now Hok Hlen) as (m' & reqs & Hup & Hok' & _ & _ & _ & Hstay & Hgo). rewrite Hc in Hgo.
  exists m', reqs. split_and!; try done.
  - intros tx Htx. assert (Hgone : forall r, r ∈ live m' -> Tx_Key (w_tx (tx_at m' r)) <> Tx_Key tx).
    { intros r Hr Hk. destruct (Hstay r Hr) as (_ & Hno & He). destruct Hno. rewrite He in Hk. rewrite Hk. by apply list_elem_of_fmap_2. }
    split; [|intros r Hr <-; by apply (Hgone r)].
    unfold GetTxByHash. destruct (_ !! _) as [r|] eqn:Hr; [|done]. apply (pk_hash _ _ _ Hok') in Hr as [Hr Hk]. by destruct (Hgone r).
  - intros r Hr. by destruct (Hstay r Hr) as (? & _ & ?).
Qed.
End runs.

(** ** Concrete runs *)

Definition insertion_orders : GoOrders.
Proof.
  refine {| sort_slice key l := merge_sort (fun a b => key a <= key b) l; visit l := l |}; [|..|done]; intros key l.
  - apply merge_sort_Permutation.
  - assert (Transitive (fun a b => key a <= key b)) by (intros a b c; lia). assert (base.Total (fun a b => key a <= key b)) by (intros a b; lia).
    apply (StronglySorted_merge_sort (fun a b => key a <= key b)).
Defined.
#[local] Existing Instances toy_sha256 insertion_orders.

Definition small_config (recheck : bool) (size cache : Z) : MempoolConfig := mkMempoolConfig recheck size 100 cache false 20 0 0.
Lemma small_config_ok recheck size cache : 0 <= size <= MaxInt64 -> config_ok (small_config recheck size cache).
Proof. intros Hs. split; simpl; int_lia. Qed.
Definition empty_pool (recheck : bool) (size cache : Z) : TxMempool := NewTxMempool (small_config recheck size cache) 1 None None.

Definition txA : Tx := [x61].
Definition txB : Tx := [x62; x62].
Definition txC : Tx := [x63].
Definition accepted (priority : Z) (sender : string) : option ResponseCheckTx := Some (mkResponseCheckTx 0 1 priority sender).
Definition refused : option ResponseCheckTx := Some (mkResponseCheckTx 1 0 0 "").

(** Three transactions come in, of which the third displaces the first. *)
Definition displacing : list PoolOp :=
  [OpCheckTx false false txA 1; OpAnswer 10 txA (accepted 1 "a") 1; OpCheckTx false false txB 2; OpAnswer 20 txB (accepted 5 "b") 2; OpCheckTx false false txB 3;
   OpCheckTx false false txC 1; OpAnswer 30 txC (accepted 7 "c") 1; OpReapMax (-1)].

(** The mempool after a run, and a test of it that is evaluated. *)
Lemma run_returns (test : TxMempool -> bool) m ops : match pool_run m ops with Val m' => test m' | _ => false end = true -> exists m', pool_run m ops = Val m' /\ test m' = true.
Proof. destruct (pool_run m ops) as [m'| |]; [|discriminate..]. by exists m'. Qed.

Lemma mempool_consistent_witness : exists m, pool_run (empty_pool true 2 10) displacing = Val m /\ TxMempool_Size m <= 2 /\ tm_sizeBytes m <= 100.
Proof.
  destruct (run_returns (fun _ => true) (empty_pool true 2 10) displacing) as (m & Hrun & _); [vm_compute; reflexivity|].
  destruct (mempool_consistent (small_config true 2 10) 1 None None displacing m) as (_ & _ & _ & _ & _ & _ & _ & _ & _ & Hn & _ & Hb);
    [apply small_config_ok; int_lia|vm_compute; reflexivity|exact Hrun|]. exists m. split; [exact Hrun|]. split; assumption.
Defined.

Lemma mempool_never_panics_witness : exists m, pool_run (empty_pool false 2 10) displacing = Val m /\ tm_recheckCursor m = None.
Proof.
  destruct (mempool_never_panics (small_config false 2 10) 1 None None displacing) as (m & Hm & _ & _ & Hc);
    [apply small_config_ok; int_lia|reflexivity|vm_compute; reflexivity|]. exists m. split; assumption.
Defined.

(** The limit of four bytes leaves room for the best transaction only. *)
Lemma reap_by_priority_witness : exists m m' taken, pool_run (empty_pool false 2 10) displacing = Val m /\
  ReapMaxBytesMaxGas m 4 (-1) = Val (m', (fun r => w_tx (tx_at m r)) <$> taken) /\ sumZ (tx_size (tm_objs m)) taken <= 4.
Proof.
  destruct (run_returns (fun m => forallb (fun r => tx_size (tm_objs m) r <=? 20) (live m)) (empty_pool false 2 10) displacing) as (m & Hrun & Htest); [vm_compute; reflexivity|].
  destruct (reap_by_priority (small_config false 2 10) 1 None None displacing m 4 (-1)) as (m' & taken & left & Hreap & _ & _ & _ & _ & _ & _ & Hb & _);
    [apply small_config_ok; int_lia|reflexivity|vm_compute; reflexivity|exact Hrun| |].
  { intros r Hr. split; [|intros Hg; lia]. intros _. rewrite forallb_forall in Htest. specialize (Htest r). cbv beta in Htest.
    assert ((tx_size (tm_objs m) r <=? 20) = true) by (apply Htest; by apply list_elem_of_In). z_bool. int_lia. }
  exists m, m', taken. split; [exact Hrun|]. split; [exact Hreap|]. apply Hb. lia.
Defined.

Lemma mempool_admission_witness : exists m', tx_callback (empty_pool false 2 10) 10 txA (accepted 1 "a") 1 = Val m' /\ pool_ok m'.
Proof.
  destruct (mempool_admission (empty_pool false 2 10) 10 txA (accepted 1 "a") 1) as (m' & Hm' & Hok & _);
    [apply NewTxMempool_ok, small_config_ok; int_lia|reflexivity|vm_compute; discriminate|vm_compute; reflexivity|]. exists m'. split; assumption.
Defined.

Lemma block_clears_mempool_witness : exists m m' requests, pool_run (empty_pool true 2 10) displacing = Val m /\
  Update m 2 [txC] [0] None None 40 = Val (m', requests) /\ GetTxByHash (tm_txStore m') (Tx_Key txC) = None.
Proof.
  destruct (run_returns (fun _ => true) (empty_pool true 2 10) displacing) as (m & Hrun & _); [vm_compute; reflexivity|].
  destruct (block_clears_mempool (small_config true 2 10) 1 None None displacing m 2 [txC] [0] None None 40) as (m' & reqs & Hup & _ & Hgone & _);
    [apply small_config_ok; int_lia|vm_compute; reflexivity|exact Hrun|reflexivity|]. exists m, m', reqs. split; [exact Hrun|]. split; [exact Hup|]. destruct (Hgone txC) as [H _]; [by left|exact H].
Defined.

(** ** Where the code goes wrong *)

(** A cache that has forgotten a transaction of the mempool lets it in again: the two copies
    share one entry of the store, and the block that has the transaction removes one of them
    only, so that the next block is offered it once more. *)
Definition entering_twice : list PoolOp :=
  [OpCheckTx false false txA 1; OpAnswer 10 txA (accepted 1 "") 1; OpCheckTx false false txB 2; OpAnswer 20 txB (accepted 5 "") 2;
   OpCheckTx false false txA 1; OpAnswer 30 txA (accepted 1 "") 1].
Definition reaped_after (recheck : bool) (cache : Z) (ops : list PoolOp) : go (list Tx * Z) :=
  m ← pool_run (empty_pool recheck 5 cache) ops; '(m, txs) ← ReapMaxTxs m (-1); Val (txs, TxMempool_Size m).
Lemma tx_enters_twice : reaped_after false 1 entering_twice = Val ([txB; txA; txA], 2) /\
  reaped_after false 1 (entering_twice ++ [OpUpdate 2 [txA] [0] None None 40]) = Val ([txB; txA], 1).
Proof. split; vm_compute; reflexivity. Qed.

(** A recheck changes the priority of a transaction where it is in the heap: the next block takes
    the transaction of priority 5 before the one of priority 9. *)
Lemma recheck_breaks_order : reaped_after true 10
  [OpCheckTx false false txA 1; OpAnswer 10 txA (accepted 1 "") 1; OpCheckTx false false txB 2; OpAnswer 20 txB (accepted 5 "") 2;
   OpUpdate 2 [] [] None None 40; OpRecheck txA (accepted 9 ""); OpRecheck txB (accepted 5 "")] = Val ([txB; txA], 2).
Proof. vm_compute. reflexivity. Qed.

(** A transaction that is removed by its key while its recheck is under way and then refused is
    removed again, from index -1 of the heap. *)
Lemma refused_after_removal_panics : pool_run (empty_pool true 5 10)
  [OpCheckTx false false txA 1; OpAnswer 10 txA (accepted 1 "") 1; OpUpdate 2 [] [] None None 40; OpRemove (Tx_Key txA); OpRecheck txA refused] = Panic "index out of range".
Proof. vm_compute. reflexivity. Qed.

(** A transaction turned away because its sender has one already stays in the cache: it can not
    be submitted again after the other one is in a block. *)
Lemma same_sender_locked_out :
  (m ← pool_run (empty_pool false 5 10)
     [OpCheckTx false false txA 1; OpAnswer 10 txA (accepted 1 "a") 1; OpCheckTx false false txB 1; OpAnswer 20 txB (accepted 1 "a") 1; OpUpdate 2 [txA] [0] None None 40];
   Val ((CheckTx m false false txB 1).2, TxMempool_Size m)) = Val (Some ErrTxInCache, 0).
Proof. vm_compute. reflexivity. Qed.
