(* ===== verification/BlockSync.v ===== *)
(** * internal/blocksync/v2: block sync

    Models the scheduler (scheduler.go), the processor (processor.go,
    processor_context.go) and the routing of events between them in the reactor
    ([demux] and [newReactor] of reactor.go).  The tickers, the priority queues of the
    routines and the network are not modelled: events arrive in any order.

    [now] is [time.Now()] during the call.  Maps are [gmap]; the loops over them do not
    depend on the order, since they choose minima or are sorted. *)
From Stdlib Require Import ZArith Lia Strings.Byte Strings.String.
From stdpp Require Import base list strings gmap.
From S2P Require Import Prelude.
From S2P Require Import Merkle.
From S2P Require Import SafeMath.
From S2P Require Import Validator.
From S2P Require Import Types.
From S2P Require Import Validation.
From S2P Require Import PartSet.
From S2P Require Import Header.
From S2P Require Import Block.
From S2P Require Import ChainState.
From S2P Require Import PeerManager.

(** ** The scheduler *)

Inductive blockState := blockStateUnknown | blockStateNew | blockStatePending | blockStateReceived | blockStateProcessed.
#[export] Instance blockState_eq_dec : EqDecision blockState.
Proof. solve_decision. Defined.
Inductive peerState := peerStateNew | peerStateReady | peerStateRemoved.
#[export] Instance peerState_eq_dec : EqDecision peerState.
Proof. solve_decision. Defined.

Record scPeer := mkScPeer { sp_peerID : NodeID; sp_state : peerState; sp_base : Z; sp_height : Z; sp_lastTouched : Time; sp_lastRate : Z }.
Definition newScPeer (peerID : NodeID) : scPeer := mkScPeer peerID peerStateNew (-1) (-1) zero_time 0.

Record scheduler := mkScheduler {
  sc_initHeight : Z;
  sc_height : Z;
  sc_lastAdvance : Time;
  sc_syncTimeout : Z;
  sc_peers : gmap NodeID scPeer;
  sc_peerTimeout : Z;
  sc_minRecvRate : Z;
  sc_targetPending : Z;
  sc_blockStates : gmap Z blockState;
  sc_pendingBlocks : gmap Z NodeID;
  sc_pendingTime : gmap Z Time;
  sc_receivedBlocks : gmap Z NodeID
}.
Definition second : Z := 1000000000.
Definition newScheduler (initHeight : Z) (startTime : Time) : scheduler :=
  mkScheduler initHeight initHeight startTime (60 * second) ∅ (15 * second) 0 10 ∅ ∅ ∅ ∅.

Definition upd_peers (sc : scheduler) (peers : gmap NodeID scPeer) : scheduler :=
  mkScheduler (sc_initHeight sc) (sc_height sc) (sc_lastAdvance sc) (sc_syncTimeout sc) peers (sc_peerTimeout sc) (sc_minRecvRate sc)
    (sc_targetPending sc) (sc_blockStates sc) (sc_pendingBlocks sc) (sc_pendingTime sc) (sc_receivedBlocks sc).
Definition upd_blocks (sc : scheduler) (states : gmap Z blockState) (pending : gmap Z NodeID) (times : gmap Z Time) (received : gmap Z NodeID)
    : scheduler :=
  mkScheduler (sc_initHeight sc) (sc_height sc) (sc_lastAdvance sc) (sc_syncTimeout sc) (sc_peers sc) (sc_peerTimeout sc) (sc_minRecvRate sc)
    (sc_targetPending sc) states pending times received.
Definition upd_height (sc : scheduler) (init height : Z) (lastAdvance : Time) : scheduler :=
  mkScheduler init height lastAdvance (sc_syncTimeout sc) (sc_peers sc) (sc_peerTimeout sc) (sc_minRecvRate sc)
    (sc_targetPending sc) (sc_blockStates sc) (sc_pendingBlocks sc) (sc_pendingTime sc) (sc_receivedBlocks sc).
Definition setStateAtHeight (sc : scheduler) (height : Z) (st : blockState) : scheduler :=
  upd_blocks sc (<[height := st]> (sc_blockStates sc)) (sc_pendingBlocks sc) (sc_pendingTime sc) (sc_receivedBlocks sc).

Definition ensurePeer (sc : scheduler) (peerID : NodeID) : scheduler * scPeer :=
  match sc_peers sc !! peerID with
  | Some p => (sc, p)
  | None => (upd_peers sc (<[peerID := newScPeer peerID]> (sc_peers sc)), newScPeer peerID)
  end.

(** [false] when the peer is unknown or not ready. *)
Definition touchPeer (sc : scheduler) (peerID : NodeID) (time : Time) : scheduler * bool :=
  match sc_peers sc !! peerID with
  | None => (sc, false)
  | Some p =>
      if bool_decide (sp_state p = peerStateReady)
      then (upd_peers sc (<[peerID := mkScPeer (sp_peerID p) (sp_state p) (sp_base p) (sp_height p) time (sp_lastRate p)]> (sc_peers sc)), true)
      else (sc, false)
  end.

Definition ready_peers (sc : scheduler) : list scPeer :=
  List.filter (fun p => bool_decide (sp_state p = peerStateReady)) (map_to_list (sc_peers sc)).*2.

(** Heights that [from] maps to the peer go back to the state New. *)
Definition reset_heights (from : gmap Z NodeID) (peerID : NodeID) (states : gmap Z blockState) : gmap Z blockState :=
  foldr (fun h m => <[h := blockStateNew]> m) states (map_to_list (filter (fun '(_, p) => p = peerID) from)).*1.

Definition removePeer (sc : scheduler) (peerID : NodeID) : scheduler :=
  match sc_peers sc !! peerID with
  | None => sc
  | Some peer =>
      if bool_decide (sp_state peer = peerStateRemoved) then sc
      else
        let theirs := filter (fun '(_, p) => p = peerID) (sc_pendingBlocks sc) in
        let states := reset_heights (sc_pendingBlocks sc) peerID (sc_blockStates sc) in
        let times := filter (fun '(h, _) => theirs !! h = None) (sc_pendingTime sc) in
        let pending := filter (fun '(_, p) => p <> peerID) (sc_pendingBlocks sc) in
        let states := reset_heights (sc_receivedBlocks sc) peerID states in
        let received := filter (fun '(_, p) => p <> peerID) (sc_receivedBlocks sc) in
        let sc := upd_peers sc (<[peerID := mkScPeer (sp_peerID peer) peerStateRemoved (sp_base peer) (sp_height peer)
                                              (sp_lastTouched peer) (sp_lastRate peer)]> (sc_peers sc)) in
        let maxPeerHeight :=
          foldr (fun p m => if negb (bool_decide (sp_peerID p = sp_peerID peer)) && (sp_height p >? m) then sp_height p else m) 0 (ready_peers sc) in
        upd_blocks sc (filter (fun '(h, _) => h <= maxPeerHeight) states) pending times received
  end.

(** The height of the highest ready peer, or the last processed height. *)
Definition maxHeight (sc : scheduler) : Z :=
  foldr (fun p m => if m <? sp_height p then sp_height p else m) (int64 (sc_height sc - 1)) (ready_peers sc).

Definition getStateAtHeight (sc : scheduler) (height : Z) : blockState :=
  if height <? sc_height sc then blockStateProcessed else default blockStateUnknown (sc_blockStates sc !! height).

Fixpoint add_loop (sc : scheduler) (heights : list Z) : scheduler :=
  match heights with
  | [] => sc
  | i :: rest =>
      if i >? maxHeight sc then sc
      else add_loop (if bool_decide (getStateAtHeight sc i = blockStateUnknown) then setStateAtHeight sc i blockStateNew else sc) rest
  end.
Definition addNewBlocks (sc : scheduler) : scheduler :=
  if Z.of_nat (size (sc_blockStates sc)) >=? sc_targetPending sc then sc
  else add_loop sc (seqZ (sc_height sc) (int64 (sc_targetPending sc + sc_height sc) - sc_height sc)).

(** [false] is an error, after which the peer is removed. *)
Definition setPeerRange (sc : scheduler) (peerID : NodeID) (base height : Z) : scheduler * bool :=
  let '(sc, peer) := ensurePeer sc peerID in
  if bool_decide (sp_state peer = peerStateRemoved) then (sc, true)
  else if (height <? sp_height peer) || (base >? height) then (removePeer sc peerID, false)
  else
    let sc := upd_peers sc (<[peerID := mkScPeer (sp_peerID peer) peerStateReady base height (sp_lastTouched peer) (sp_lastRate peer)]> (sc_peers sc)) in
    (addNewBlocks sc, true).

Definition getPeersWithHeight (sc : scheduler) (height : Z) : list NodeID :=
  sp_peerID <$> List.filter (fun p => (sp_base p <=? height) && (height <=? sp_height p)) (ready_peers sc).

(** [PeerByID]. *)
Definition sort_peers (l : list NodeID) : list NodeID := sort_by String.ltb l.

Definition prunablePeers (sc : scheduler) (now : Time) : list NodeID :=
  sort_peers ((List.filter (fun '(_, p) => bool_decide (sp_state p = peerStateReady) &&
                 ((clip64 (now - sp_lastTouched p) >? sc_peerTimeout sc) || (sp_lastRate p <? sc_minRecvRate sc)))
                (map_to_list (sc_peers sc))).*1).

(** [false] is an error.  The rate is the size divided by the nanoseconds waited. *)
Definition markReceived (sc : scheduler) (peerID : NodeID) (height size : Z) (now : Time) : scheduler * bool :=
  if negb (bool_decide (getStateAtHeight sc height = blockStatePending)) || negb (bool_decide (default "" (sc_pendingBlocks sc !! height) = peerID))
  then (sc, false)
  else
    match sc_pendingTime sc !! height with
    | None => (sc, false)
    | Some pendingTime =>
        if clip64 (now - pendingTime) <=? 0 then (sc, false)
        else
          match sc_peers sc !! peerID with
          | None => (sc, false)
          | Some p =>
              let sc := upd_peers sc (<[peerID := mkScPeer (sp_peerID p) (sp_state p) (sp_base p) (sp_height p) (sp_lastTouched p)
                                                    (Z.quot size (clip64 (now - pendingTime)))]> (sc_peers sc)) in
              (upd_blocks sc (<[height := blockStateReceived]> (sc_blockStates sc)) (base.delete height (sc_pendingBlocks sc))
                 (base.delete height (sc_pendingTime sc)) (<[height := peerID]> (sc_receivedBlocks sc)), true)
          end
    end.

Definition markPending (sc : scheduler) (peerID : NodeID) (height : Z) (time : Time) : scheduler * bool :=
  if negb (bool_decide (getStateAtHeight sc height = blockStateNew)) then (sc, false)
  else
    match sc_peers sc !! peerID with
    | None => (sc, false)
    | Some p =>
        if negb (bool_decide (sp_state p = peerStateReady)) || (height >? sp_height p) || (height <? sp_base p) then (sc, false)
        else (upd_blocks sc (<[height := blockStatePending]> (sc_blockStates sc)) (<[height := peerID]> (sc_pendingBlocks sc))
                (<[height := time]> (sc_pendingTime sc)) (sc_receivedBlocks sc), true)
    end.

Definition markProcessed (sc : scheduler) (height : Z) (now : Time) : scheduler :=
  let sc := upd_height sc (sc_initHeight sc) (int64 (height + 1)) now in
  addNewBlocks (upd_blocks sc (base.delete height (sc_blockStates sc)) (base.delete height (sc_pendingBlocks sc))
                  (base.delete height (sc_pendingTime sc)) (base.delete height (sc_receivedBlocks sc))).

Definition allBlocksProcessed (sc : scheduler) : bool :=
  if (size (sc_peers sc) =? 0)%nat then false else sc_height sc >=? maxHeight sc.

(** The lowest height in the state New, or -1. *)
Definition nextHeightToSchedule (sc : scheduler) : Z :=
  let min := foldr (fun '(h, st) m => if bool_decide (st = blockStateNew) && (h <? m) then h else m) MaxInt64 (map_to_list (sc_blockStates sc)) in
  if min =? MaxInt64 then -1 else min.

Definition pendingFrom (sc : scheduler) (peerID : NodeID) : list Z :=
  (map_to_list (filter (fun '(_, p) => p = peerID) (sc_pendingBlocks sc))).*1.
Definition num_pending (sc : scheduler) (peerID : NodeID) : Z := len (pendingFrom sc peerID).

(** Of the peers with the height and the fewest pending requests, the first by ID. *)
Definition selectPeer (sc : scheduler) (height : Z) : option NodeID :=
  let peers := getPeersWithHeight sc height in
  let minPending := foldr (fun p m => Z.min (num_pending sc p) m) MaxInt64 peers in
  head (sort_peers (List.filter (fun p => num_pending sc p =? minPending) peers)).

(** ** Events *)

Section blocksync.
Context `{!Crypto, !BatchCrypto, !Sha256, !TimeCodec, !WrapperCodec, !EvidenceOps, !BlockCodec}.

Inductive Event :=
  (** from the reactor *)
  | bcResetState (state : State)
  | bcStatusResponse (peerID : NodeID) (base height : Z)
  | bcBlockResponse (time : Time) (peerID : NodeID) (size : Z) (block : Block)
  | bcNoBlockResponse (peerID : NodeID) (height : Z)
  | bcAddNewPeer (peerID : NodeID)
  | bcRemovePeer (peerID : NodeID)
  | rTrySchedule (time : Time)
  | rTryPrunePeer (time : Time)
  | rProcessBlock
  (** from the scheduler *)
  | scFinishedEv (reason : string)
  | scBlockRequest (peerID : NodeID) (height : Z)
  | scBlockReceived (peerID : NodeID) (block : Block)
  | scPeerError (peerID : NodeID)
  | scPeersPruned (peers : list NodeID)
  | scSchedulerFail
  (** from the processor *)
  | pcBlockVerificationFailure (height : Z) (firstPeerID secondPeerID : NodeID)
  | pcBlockProcessed (height : Z) (peerID : NodeID)
  | pcFinished (blocksSynced : Z) (state : State)
  | noOp.

Definition handleBlockResponse (sc : scheduler) (time : Time) (peerID : NodeID) (size : Z) (block : Block) : scheduler * Event :=
  let '(sc, ok) := touchPeer sc peerID time in
  if negb ok then (sc, noOp)
  else
    let '(sc, ok) := markReceived sc peerID (h_Height (b_Header block)) size time in
    if negb ok then (removePeer sc peerID, scPeerError peerID) else (sc, scBlockReceived peerID block).

Definition handleNoBlockResponse (sc : scheduler) (peerID : NodeID) : scheduler * Event :=
  match sc_peers sc !! peerID with
  | Some p => if bool_decide (sp_state p = peerStateRemoved) then (sc, noOp) else (removePeer sc peerID, scPeerError peerID)
  | None => (sc, noOp)
  end.

Definition handleBlockProcessed (sc : scheduler) (now : Time) (height : Z) : go (scheduler * Event) :=
  _ ← panic_if (negb (height =? sc_height sc)) "processed height, but expected height";
  let sc := markProcessed sc height now in
  Val (sc, if allBlocksProcessed sc then scFinishedEv "processed all blocks" else noOp).

Definition handleBlockProcessError (sc : scheduler) (first second : NodeID) : scheduler * Event :=
  let sc := removePeer sc first in
  let sc := if bool_decide (first <> second) then removePeer sc second else sc in
  (sc, if allBlocksProcessed sc then scFinishedEv "error on last block" else noOp).

Definition handleAddNewPeer (sc : scheduler) (peerID : NodeID) : scheduler * Event := ((ensurePeer sc peerID).1, noOp).

Definition handleRemovePeer (sc : scheduler) (peerID : NodeID) : scheduler * Event :=
  let sc := removePeer sc peerID in
  (sc, if allBlocksProcessed sc then scFinishedEv "removed peer" else scPeerError peerID).

(** The peer that owes the next block is removed without being named in the event. *)
Definition handleTryPrunePeer (sc : scheduler) (now time : Time) : scheduler * Event :=
  let sc := match sc_pendingTime sc !! sc_height sc with
            | Some asked => if clip64 (now - asked) >? sc_peerTimeout sc then removePeer sc (default "" (sc_pendingBlocks sc !! sc_height sc)) else sc
            | None => sc
            end in
  match prunablePeers sc time with
  | [] => (sc, noOp)
  | prunable =>
      let sc := fold_left removePeer prunable sc in
      (sc, if allBlocksProcessed sc then scFinishedEv "after try prune" else scPeersPruned prunable)
  end.

Definition init_height (state : State) : Z :=
  let initHeight := int64 (sm_LastBlockHeight state + 1) in if initHeight =? 1 then sm_InitialHeight state else initHeight.
Definition handleResetState (sc : scheduler) (now : Time) (state : State) : scheduler * Event :=
  (addNewBlocks (upd_height sc (init_height state) (init_height state) now), noOp).

Definition handleTrySchedule (sc : scheduler) (now time : Time) : scheduler * Event :=
  if clip64 (now - sc_lastAdvance sc) >? sc_syncTimeout sc then (sc, scFinishedEv "timeout, no advance")
  else
    let nextHeight := nextHeightToSchedule sc in
    if nextHeight =? -1 then (sc, noOp)
    else
      match selectPeer sc nextHeight with
      | None => (sc, scSchedulerFail)
      | Some bestPeerID =>
          let '(sc, ok) := markPending sc bestPeerID nextHeight time in
          (sc, if (ok : bool) then scBlockRequest bestPeerID nextHeight else scSchedulerFail)
      end.

Definition handleStatusResponse (sc : scheduler) (peerID : NodeID) (base height : Z) : scheduler * Event :=
  let '(sc, ok) := setPeerRange sc peerID base height in
  (sc, if (ok : bool) then noOp else scPeerError peerID).

Definition scheduler_handle (sc : scheduler) (now : Time) (event : Event) : go (scheduler * Event) :=
  match event with
  | bcResetState state => Val (handleResetState sc now state)
  | bcStatusResponse peerID base height => Val (handleStatusResponse sc peerID base height)
  | bcBlockResponse time peerID size block => Val (handleBlockResponse sc time peerID size block)
  | bcNoBlockResponse peerID _ => Val (handleNoBlockResponse sc peerID)
  | rTrySchedule time => Val (handleTrySchedule sc now time)
  | bcAddNewPeer peerID => Val (handleAddNewPeer sc peerID)
  | bcRemovePeer peerID => Val (handleRemovePeer sc peerID)
  | rTryPrunePeer time => Val (handleTryPrunePeer sc now time)
  | pcBlockProcessed height _ => handleBlockProcessed sc now height
  | pcBlockVerificationFailure _ first second => Val (handleBlockProcessError sc first second)
  | _ => Val (sc, scSchedulerFail)
  end.

(** ** The processor *)

(** The context is the state, the executor's cache and the blocks saved so far. *)
Record pcState := mkPcState {
  pc_queue : gmap Z (Block * NodeID);
  pc_draining : bool;
  pc_blocksSynced : Z;
  pc_state : State;
  pc_cache : ValidCache;
  pc_saved : list (Block * PartSet * option Commit)
}.
Definition newPcState (state : State) : pcState := mkPcState ∅ false 0 state ∅ [].
Definition pc_height (pc : pcState) : Z := sm_LastBlockHeight (pc_state pc).
Definition with_queue (pc : pcState) (q : gmap Z (Block * NodeID)) : pcState :=
  mkPcState q (pc_draining pc) (pc_blocksSynced pc) (pc_state pc) (pc_cache pc) (pc_saved pc).

Definition nextTwo (pc : pcState) : option ((Block * NodeID) * (Block * NodeID)) :=
  first ← pc_queue pc !! int64 (pc_height pc + 1);
  second ← pc_queue pc !! int64 (pc_height pc + 2);
  Some (first, second).
Definition synced (pc : pcState) : bool := (size (pc_queue pc) <=? 1)%nat.
Definition enqueue (pc : pcState) (peerID : NodeID) (block : Block) (height : Z) : go pcState :=
  match pc_queue pc !! height with
  | Some _ => Panic "duplicate block enqueued by processor"
  | None => Val (with_queue pc (<[height := (block, peerID)]> (pc_queue pc)))
  end.
Definition purgePeer (pc : pcState) (peerID : NodeID) : pcState := with_queue pc (filter (fun '(_, (_, p)) => p <> peerID) (pc_queue pc)).

(** What the executor meets while it applies a block. *)
Record Applier := mkApplier { ap_evidence_ok : list Evidence -> bool; ap_execution : Execution }.

(** [rProcessBlock] for the next two blocks. *)
Definition process_block (ap : Applier) (pc : pcState) (firstItem secondItem : Block * NodeID) : go (pcState * Event) :=
  let first := firstItem.1 in
  let second := secondItem.1 in
  let height := h_Height (b_Header first) in
  firstParts ← MakePartSet first BlockPartSizeBytes;
  hash ← Block_Hash (Some first);
  let firstID := mkBlockID hash (PartSet_Header (Some firstParts)) in
  match VerifyCommitLight (sm_ChainID (pc_state pc)) (sm_Validators (pc_state pc)) firstID height (b_LastCommit second) with
  | Panic w => Panic w
  | Fail _ =>
      let pc := purgePeer pc firstItem.2 in
      let pc := if bool_decide (firstItem.2 <> secondItem.2) then purgePeer pc secondItem.2 else pc in
      Val (pc, pcBlockVerificationFailure height firstItem.2 secondItem.2)
  | Val _ =>
      '(cache, res) ← ApplyBlock (pc_cache pc) (ap_evidence_ok ap) (ap_execution ap) (pc_state pc) firstID first;
      match res with
      | inr _ => Panic "failed to process committed block"
      | inl state =>
          Val (mkPcState (base.delete height (pc_queue pc)) (pc_draining pc) (pc_blocksSynced pc + 1) state cache
                 (pc_saved pc ++ [(first, firstParts, b_LastCommit second)]),
               pcBlockProcessed height firstItem.2)
      end
  end.

Definition processor_handle (ap : Applier) (pc : pcState) (event : Event) : go (pcState * Event) :=
  match event with
  | bcResetState state => Val (mkPcState (pc_queue pc) (pc_draining pc) (pc_blocksSynced pc) state (pc_cache pc) (pc_saved pc), noOp)
  | scFinishedEv _ =>
      if synced pc then Val (pc, pcFinished (pc_blocksSynced pc) (pc_state pc))
      else Val (mkPcState (pc_queue pc) true (pc_blocksSynced pc) (pc_state pc) (pc_cache pc) (pc_saved pc), noOp)
  | scPeerError peerID => Val (purgePeer pc peerID, noOp)
  | scBlockReceived peerID block =>
      let height := h_Height (b_Header block) in
      if height >? pc_height pc then pc ← enqueue pc peerID block height; Val (pc, noOp) else Val (pc, noOp)
  | rProcessBlock =>
      match nextTwo pc with
      | None => Val (pc, if pc_draining pc then pcFinished (pc_blocksSynced pc) (pc_state pc) else noOp)
      | Some (first, second) => process_block ap pc first second
      end
  | _ => Val (pc, noOp)
  end.

(** ** The reactor *)

(** Where [demux] sends an event of the scheduler: to the processor. *)
Definition demux_scheduler (event : Event) : list Event :=
  match event with
  | scBlockReceived _ _ | scPeerError _ | scFinishedEv _ => [event]
  | scPeersPruned peers => scPeerError <$> peers
  | _ => []
  end.
(** An event of the processor: to the scheduler. *)
Definition demux_processor (event : Event) : list Event :=
  match event with pcBlockProcessed _ _ | pcBlockVerificationFailure _ _ _ => [event] | _ => [] end.

(** The two routines with the events that wait for them.  Once the scheduler has sent
    [scFinishedEv] the reactor stops it; until then it may handle more events. *)
Record Sync := mkSync {
  sy_scheduler : scheduler;
  sy_processor : pcState;
  sy_to_scheduler : list Event;
  sy_to_processor : list Event;
  sy_finished : bool;
  sy_stopped : bool
}.
Definition newReactor (state : State) (now : Time) : Sync :=
  mkSync (newScheduler (init_height state) now) (newPcState state) [] [] false false.

(** What the reactor sends to the scheduler on behalf of peers and tickers. *)
Definition external (event : Event) : bool :=
  match event with
  | bcStatusResponse _ _ _ | bcBlockResponse _ _ _ _ | bcNoBlockResponse _ _ | bcAddNewPeer _ | bcRemovePeer _ | rTrySchedule _ | rTryPrunePeer _ => true
  | _ => false
  end.

Inductive SyncStep :=
  (** an event from outside is handled by the scheduler *)
  | Outside (now : Time) (event : Event)
  (** the scheduler or the processor takes one of the events waiting for it *)
  | TakeScheduler (now : Time) (i : nat)
  | TakeProcessor (ap : Applier) (i : nat)
  | ProcessTick (ap : Applier)
  | StopScheduler.

Definition run_scheduler (sy : Sync) (now : Time) (event : Event) (waiting : list Event) : go Sync :=
  if sy_stopped sy then Val (mkSync (sy_scheduler sy) (sy_processor sy) waiting (sy_to_processor sy) (sy_finished sy) true)
  else
    '(sc, out) ← scheduler_handle (sy_scheduler sy) now event;
    Val (mkSync sc (sy_processor sy) waiting (sy_to_processor sy ++ demux_scheduler out)
           (match out with scFinishedEv _ => true | _ => sy_finished sy end) false).
Definition run_processor (sy : Sync) (ap : Applier) (event : Event) (waiting : list Event) : go Sync :=
  '(pc, out) ← processor_handle ap (sy_processor sy) event;
  Val (mkSync (sy_scheduler sy) pc (sy_to_scheduler sy ++ demux_processor out) waiting (sy_finished sy) (sy_stopped sy)).

Definition sync_step (sy : Sync) (step : SyncStep) : go Sync :=
  match step with
  | Outside now event => if external event then run_scheduler sy now event (sy_to_scheduler sy) else Val sy
  | TakeScheduler now i =>
      match sy_to_scheduler sy !! i with Some ev => run_scheduler sy now ev (base.delete i (sy_to_scheduler sy)) | None => Val sy end
  | TakeProcessor ap i =>
      match sy_to_processor sy !! i with Some ev => run_processor sy ap ev (base.delete i (sy_to_processor sy)) | None => Val sy end
  | ProcessTick ap => run_processor sy ap rProcessBlock (sy_to_processor sy)
  | StopScheduler =>
      Val (mkSync (sy_scheduler sy) (sy_processor sy) (sy_to_scheduler sy) (sy_to_processor sy) (sy_finished sy) (sy_finished sy || sy_stopped sy))
  end.
Fixpoint sync_run (sy : Sync) (steps : list SyncStep) : go Sync :=
  match steps with [] => Val sy | step :: rest => sy ← sync_step sy step; sync_run sy rest end.
End blocksync.
