(* ===== verification/BlockSyncProofs.v ===== *)
(** * Block sync requests what peers offer and applies what is committed *)
From Stdlib Require Import ZArith Lia Strings.Byte Strings.String.
From stdpp Require Import base list strings gmap.
From S2P Require Import Prelude.
From S2P Require Import Merkle.
From S2P Require Import MerkleProofs.
From S2P Require Import SafeMath.
From S2P Require Import Validator.
From S2P Require Import ProposerProofs.
From S2P Require Import ValidatorUpdateProofs.
From S2P Require Import ValidatorSetProofs.
From S2P Require Import Types.
From S2P Require Import SignBytesProofs.
From S2P Require Import Validation.
From S2P Require Import ValidationProofs.
From S2P Require Import PartSet.
From S2P Require Import Header.
From S2P Require Import LightVerifier.
From S2P Require Import LightVerifierProofs.
From S2P Require Import Block.
From S2P Require Import ChainState.
From S2P Require Import ChainStateProofs.
From S2P Require Import PeerManager.
From S2P Require Import BlockSync.

Create HintDb blocksync.

(** ** The invariant of the scheduler *)

Definition is_ready (sc : scheduler) (id : NodeID) (h : Z) : Prop :=
  exists p, sc_peers sc !! id = Some p /\ sp_state p = peerStateReady /\ h <= sp_height p.
(** A ready peer has the height. *)
Definition offered (sc : scheduler) (h : Z) : Prop := exists id, is_ready sc id h.

Record sc_ok (sc : scheduler) : Prop := {
  sok_target : sc_targetPending sc = 10;
  sok_height : 0 < sc_height sc /\ sc_height sc + 11 <= MaxInt64;
  sok_ids id p : sc_peers sc !! id = Some p -> sp_peerID p = id;
  sok_pending h id : sc_pendingBlocks sc !! h = Some id -> sc_blockStates sc !! h = Some blockStatePending /\ is_ready sc id h;
  sok_times h : is_Some (sc_pendingTime sc !! h) <-> is_Some (sc_pendingBlocks sc !! h);
  sok_received h id : sc_receivedBlocks sc !! h = Some id -> sc_blockStates sc !! h = Some blockStateReceived /\ is_ready sc id h;
  sok_states h st : sc_blockStates sc !! h = Some st ->
    sc_height sc <= h < sc_height sc + 10 /\ offered sc h /\
    match st with
    | blockStateNew => True
    | blockStatePending => is_Some (sc_pendingBlocks sc !! h)
    | blockStateReceived => is_Some (sc_receivedBlocks sc !! h)
    | _ => False
    end
}.

Lemma ready_peers_elem sc p : p ∈ ready_peers sc <-> exists id, sc_peers sc !! id = Some p /\ sp_state p = peerStateReady.
Proof.
  unfold ready_peers. rewrite list_elem_of_In, filter_In, <- list_elem_of_In, list_elem_of_fmap, bool_decide_eq_true. split.
  - intros [([id q] & -> & Hin%elem_of_map_to_list) Hs]. by exists id.
  - intros (id & Hp & Hs). split; [|done]. exists (id, p). split; [done|]. by apply elem_of_map_to_list.
Qed.

Lemma fold_max_le (f : scPeer -> Z) (P : scPeer -> bool) l z h :
  h <= foldr (fun p m => if P p && (f p >? m) then f p else m) z l <-> h <= z \/ exists p, p ∈ l /\ P p = true /\ h <= f p.
Proof.
  induction l as [|p l IH]; simpl; [split; [by left|intros [|(? & ?%not_elem_of_nil & _)]; done]|].
  set (m := foldr _ _ _) in *. rewrite Z.gtb_ltb. split.
  - destruct (P p) eqn:HP; simpl; [destruct (Z.ltb_spec m (f p))|].
    + intros Hh. right. exists p. split; [by left|done].
    + intros [|(q & ? & ?)]%IH; [by left|]. right. exists q. split; [by right|done].
    + intros [|(q & ? & ?)]%IH; [by left|]. right. exists q. split; [by right|done].
  - intros Hc. assert (h <= m \/ (P p = true /\ h <= f p)) as [Hm|[HP Hp]].
    { destruct Hc as [Hz|(q & [->|Hq]%elem_of_cons & HP & Hh)]; [left; apply IH; by left|by right|left; apply IH; right; eauto]. }
    + destruct (P p); simpl; [destruct (Z.ltb_spec m (f p)); lia|done].
    + rewrite HP. simpl. destruct (Z.ltb_spec m (f p)); lia.
Qed.

Lemma maxHeight_le sc h : sc_ok sc -> sc_height sc <= h -> h <= maxHeight sc <-> offered sc h.
Proof.
  intros Hok Hh. destruct (sok_height _ Hok). unfold maxHeight.
  pose proof (fold_max_le sp_height (fun _ => true) (ready_peers sc) (int64 (sc_height sc - 1)) h) as Hm.
  assert (Heq : foldr (fun p m => if true && (sp_height p >? m) then sp_height p else m) (int64 (sc_height sc - 1)) (ready_peers sc) =
    foldr (fun p m => if m <? sp_height p then sp_height p else m) (int64 (sc_height sc - 1)) (ready_peers sc)).
  { clear. induction (ready_peers sc) as [|p l IH]; [done|]. simpl in IH |- *. by rewrite IH, Z.gtb_ltb. }
  cbv beta in Hm. rewrite Heq in Hm. rewrite Hm, int64_id by int_lia. split.
  - intros [|(p & (id & Hp & Hs)%ready_peers_elem & _ & Hle)]; [lia|]. exists id, p. done.
  - intros (id & p & Hp & Hs & Hle). right. exists p. split; [|done]. apply ready_peers_elem. eauto.
Qed.

(** Peers that are ready stay ready and only gain heights. *)
Definition peers_grow (sc : scheduler) (peers : gmap NodeID scPeer) : Prop :=
  (forall id p, peers !! id = Some p -> sp_peerID p = id) /\
  forall id p, sc_peers sc !! id = Some p -> sp_state p = peerStateReady ->
    exists p', peers !! id = Some p' /\ sp_state p' = peerStateReady /\ sp_height p <= sp_height p'.

Lemma sc_ok_grow sc peers : sc_ok sc -> peers_grow sc peers -> sc_ok (upd_peers sc peers).
Proof.
  intros [] [Hids Hg].
  assert (Hr : forall id h, is_ready sc id h -> is_ready (upd_peers sc peers) id h).
  { intros id h (p & Hp & Hs & Hh). destruct (Hg _ _ Hp Hs) as (p' & ? & ? & ?). exists p'. simpl. split_and!; [done..|lia]. }
  split; simpl; try done.
  - intros h id Hp. destruct (sok_pending0 _ _ Hp). auto.
  - intros h id Hp. destruct (sok_received0 _ _ Hp). auto.
  - intros h st Hst. destruct (sok_states0 _ _ Hst) as (? & (id & ?) & ?). split; [done|]. split; [exists id; auto|done].
Qed.
(** One peer changes, keeping its ID; it stays ready if it was. *)
Lemma peers_grow_one sc id p : sc_ok sc -> sp_peerID p = id ->
  (forall q, sc_peers sc !! id = Some q -> sp_state q = peerStateReady -> sp_state p = peerStateReady /\ sp_height q <= sp_height p) ->
  peers_grow sc (<[id := p]> (sc_peers sc)).
Proof.
  intros Hok Hid Hq. split.
  - intros k q [[<- <-]|[_ Hk]]%lookup_insert_Some; [done|]. by apply (sok_ids _ Hok).
  - intros k q Hk Hs. destruct (decide (id = k)) as [->|Hne].
    + exists p. rewrite lookup_insert_eq. destruct (Hq q Hk Hs). done.
    + exists q. rewrite lookup_insert_ne by done. done.
Qed.

Lemma ensurePeer_ok sc id : sc_ok sc -> sc_ok (ensurePeer sc id).1 /\ sc_peers (ensurePeer sc id).1 !! id = Some (ensurePeer sc id).2.
Proof.
  intros Hok. unfold ensurePeer. destruct (sc_peers sc !! id) as [p|] eqn:Hp; [done|]. simpl. split; [|apply lookup_insert_eq].
  apply sc_ok_grow; [done|]. apply peers_grow_one; [done..|]. intros q Hq. congruence.
Qed.
Lemma touchPeer_ok sc id t : sc_ok sc -> sc_ok (touchPeer sc id t).1.
Proof.
  intros Hok. unfold touchPeer. destruct (sc_peers sc !! id) as [p|] eqn:Hp; [|done]. case_bool_decide; [|done]. simpl.
  apply sc_ok_grow; [done|]. apply peers_grow_one; [done|exact (sok_ids _ Hok _ _ Hp)|]. intros q Hq. simpl. assert (q = p) as -> by congruence. done.
Qed.

(** *** New blocks *)

Lemma setNew_ok sc i : sc_ok sc -> sc_height sc <= i < sc_height sc + 10 -> offered sc i -> getStateAtHeight sc i = blockStateUnknown ->
  sc_ok (setStateAtHeight sc i blockStateNew).
Proof.
  intros Hok Hi Ho Hu. pose proof Hok as []. assert (Hnone : sc_blockStates sc !! i = None \/ sc_blockStates sc !! i = Some blockStateUnknown).
  { unfold getStateAtHeight in Hu. destruct (Z.ltb_spec i (sc_height sc)); [lia|]. destruct (sc_blockStates sc !! i); simpl in Hu; subst; auto. }
  assert (Hne : forall h, sc_blockStates sc !! h = Some blockStatePending \/ sc_blockStates sc !! h = Some blockStateReceived -> h <> i).
  { intros h Hh ->. destruct Hnone as [Hn|Hn], Hh as [Hh|Hh]; congruence. }
  split; simpl; try done.
  - intros h id Hp. destruct (sok_pending0 _ _ Hp). rewrite lookup_insert_ne; [done|]. apply not_eq_sym; auto.
  - intros h id Hp. destruct (sok_received0 _ _ Hp). rewrite lookup_insert_ne; [done|]. apply not_eq_sym; auto.
  - intros h st [[<- <-]|[_ Hst]]%lookup_insert_Some; [done|]. by apply sok_states0.
Qed.
Lemma add_loop_ok sc l : sc_ok sc -> (forall i, i ∈ l -> sc_height sc <= i < sc_height sc + 10) -> sc_ok (add_loop sc l).
Proof.
  revert sc. induction l as [|i l IH]; intros sc Hok Hl; simpl; [done|]. destruct (Z.gtb_spec i (maxHeight sc)) as [|Hle]; [done|].
  assert (Hi : sc_height sc <= i < sc_height sc + 10) by (apply Hl; by left).
  case_bool_decide as Hu; (apply IH; [|intros k Hk; apply Hl; by right]); [|done].
  apply setNew_ok; [done..| |done]. apply maxHeight_le; [done|lia|lia].
Qed.
Lemma addNewBlocks_ok sc : sc_ok sc -> sc_ok (addNewBlocks sc).
Proof.
  intros Hok. unfold addNewBlocks. destruct (_ >=? _); [done|]. apply add_loop_ok; [done|]. destruct Hok as [Ht [] _ _ _ _ _].
  intros i Hi%elem_of_seqZ. rewrite Ht, int64_id in Hi by int_lia. lia.
Qed.

(** *** Removing a peer *)

Lemma reset_heights_lookup from id states h :
  reset_heights from id states !! h = if bool_decide (from !! h = Some id) then Some blockStateNew else states !! h.
Proof.
  unfold reset_heights. set (l := (map_to_list _).*1).
  assert (Hl : h ∈ l <-> from !! h = Some id).
  { unfold l. rewrite list_elem_of_fmap. split.
    - intros ([k v] & -> & [Hk Hv]%elem_of_map_to_list%map_lookup_filter_Some). simpl in *. by subst.
    - intros Hf. exists (h, id). split; [done|]. apply elem_of_map_to_list, map_lookup_filter_Some. done. }
  clearbody l. assert (Hfold : foldr (fun k (m : gmap Z blockState) => <[k := blockStateNew]> m) states l !! h = if decide (h ∈ l) then Some blockStateNew else states !! h).
  { clear Hl. induction l as [|k l IH]; [|cbn [foldr]].
    - done.
    - destruct (decide (k = h)) as [->|Hne].
      + rewrite lookup_insert_eq, decide_True by (by left). done.
      + rewrite lookup_insert_ne, IH by done. destruct (decide (h ∈ l)) as [Hi|Hi].
        * by rewrite decide_True by (by right).
        * rewrite decide_False; [done|]. intros [->|]%elem_of_cons; done. }
  rewrite Hfold. case_bool_decide; destruct (decide _); tauto.
Qed.

Lemma removed_offer sc id peer h : sc_peers sc !! id = Some peer ->
  let sc' := upd_peers sc (<[id := mkScPeer (sp_peerID peer) peerStateRemoved (sp_base peer) (sp_height peer) (sp_lastTouched peer) (sp_lastRate peer)]> (sc_peers sc)) in
  0 < h ->
  h <= foldr (fun p m => if negb (bool_decide (sp_peerID p = sp_peerID peer)) && (sp_height p >? m) then sp_height p else m) 0 (ready_peers sc') -> offered sc' h.
Proof.
  intros Hp sc' Hh Hle.
  apply (fold_max_le sp_height (fun p => negb (bool_decide (sp_peerID p = sp_peerID peer)))) in Hle.
  destruct Hle as [|(q & (k & Hk & Hs)%ready_peers_elem & _ & Hq)]; [lia|]. exists k, q. done.
Qed.

Lemma is_ready_removed sc id peer k h : k <> id -> is_ready sc k h ->
  is_ready (upd_peers sc (<[id := peer]> (sc_peers sc))) k h.
Proof. intros Hne (p & Hp & Hs & Hh). exists p. simpl. rewrite lookup_insert_ne by done. done. Qed.

Lemma removePeer_ok sc id : sc_ok sc -> sc_ok (removePeer sc id).
Proof.
  intros Hok. unfold removePeer. destruct (sc_peers sc !! id) as [peer|] eqn:Hp; [|done]. case_bool_decide as Hst; [done|].
  pose proof (removed_offer sc id peer) as Hoff. pose proof (is_ready_removed sc id) as Hrem.
  set (mx := foldr _ _ _) in *. set (sc' := upd_peers sc _) in *. destruct Hok as [Ht Hh Hids Hpe Hti Hre Hss].
  assert (Hle : forall h k, k <> id -> is_ready sc k h -> 0 < h -> h <= mx).
  { intros h k Hk (q & Hq & Hqs & Hqh) _. unfold mx. apply (fold_max_le sp_height (fun p => negb (bool_decide (sp_peerID p = sp_peerID peer)))). right.
    exists q. split; [apply ready_peers_elem; exists k; simpl; rewrite lookup_insert_ne by done; done|]. split; [|done].
    rewrite (Hids _ _ Hq), (Hids _ _ Hp), bool_decide_false by done. done. }
  assert (Hpos : forall h st, sc_blockStates sc !! h = Some st -> 0 < h) by (intros h st [? _]%Hss; lia).
  split; simpl.
  - done.
  - done.
  - intros k q [[<- <-]|[_ Hq]]%lookup_insert_Some; [simpl; by apply Hids|by apply Hids].
  - intros h k [Hk Hne]%map_lookup_filter_Some. destruct (Hpe _ _ Hk) as [Hs Hr]. split; [|by apply Hrem].
    apply map_lookup_filter_Some. split; [|apply (Hle h k); eauto].
    rewrite !reset_heights_lookup, bool_decide_false, bool_decide_false; [done|congruence|].
    intros Hx%Hre. destruct Hx. congruence.
  - intros h. destruct (sc_pendingBlocks sc !! h) as [k|] eqn:Hk.
    + assert (is_Some (sc_pendingTime sc !! h)) as [t Htm] by (apply Hti; eauto). destruct (decide (k = id)) as [->|Hne].
      * split; intros [x [Hx1 Hx2]%map_lookup_filter_Some].
        -- exfalso. assert (filter (fun '(_, p) => p = id) (sc_pendingBlocks sc) !! h = Some id) by (by apply map_lookup_filter_Some). congruence.
        -- congruence.
      * split; intros _; [exists k; by apply map_lookup_filter_Some|]. exists t. apply map_lookup_filter_Some. split; [done|].
        apply map_lookup_filter_None. right. intros x Hx. congruence.
    + split; intros [x [Hx _]%map_lookup_filter_Some]; [|congruence]. assert (is_Some (sc_pendingBlocks sc !! h)) as [? ?] by (apply Hti; eauto). congruence.
  - intros h k [Hk Hne]%map_lookup_filter_Some. destruct (Hre _ _ Hk) as [Hs Hr]. split; [|by apply Hrem].
    apply map_lookup_filter_Some. split; [|apply (Hle h k); eauto].
    rewrite !reset_heights_lookup, bool_decide_false, bool_decide_false; [done| |congruence].
    intros Hx%Hpe. destruct Hx. congruence.
  - intros h st [Hs Hmx]%map_lookup_filter_Some. rewrite !reset_heights_lookup in Hs.
    case_bool_decide as Hrc; [|case_bool_decide as Hpc]; simplify_eq.
    + destruct (Hre _ _ Hrc) as [Hs _]. destruct (Hss _ _ Hs) as [? _]. split_and!; [lia|lia| |done]. apply Hoff; [done|lia|done].
    + destruct (Hpe _ _ Hpc) as [Hs _]. destruct (Hss _ _ Hs) as [? _]. split_and!; [lia|lia| |done]. apply Hoff; [done|lia|done].
    + destruct (Hss _ _ Hs) as (? & _ & Hm). split_and!; [lia|lia|apply Hoff; [done|lia|done]|]. destruct st; try done.
      * destruct Hm as [k Hk]. exists k. apply map_lookup_filter_Some. split; [done|congruence].
      * destruct Hm as [k Hk]. exists k. apply map_lookup_filter_Some. split; [done|congruence].
Qed.

Lemma removePeers_ok l sc : sc_ok sc -> sc_ok (fold_left removePeer l sc).
Proof. revert sc. induction l as [|id l IH]; intros sc Hok; simpl; [done|]. apply IH, removePeer_ok, Hok. Qed.

(** *** Status, requests, responses and progress *)

Lemma setPeerRange_ok sc id base height : sc_ok sc -> sc_ok (setPeerRange sc id base height).1.
Proof.
  intros Hok. destruct (ensurePeer_ok sc id Hok) as [He Hp]. unfold setPeerRange. destruct (ensurePeer sc id) as [sc' peer]. simpl in *.
  case_bool_decide; [done|]. destruct (_ || _) eqn:Hc; [by apply removePeer_ok|]. apply orb_false_iff in Hc as [Hlt%Z.ltb_ge _]. simpl.
  apply addNewBlocks_ok, sc_ok_grow; [done|]. apply peers_grow_one; [done|exact (sok_ids _ He _ _ Hp)|].
  intros q Hq _. assert (q = peer) as -> by congruence. done.
Qed.

Lemma state_at sc h st : st <> blockStateUnknown -> st <> blockStateProcessed -> getStateAtHeight sc h = st ->
  sc_blockStates sc !! h = Some st.
Proof.
  intros Hu Hp. unfold getStateAtHeight. destruct (_ <? _); [congruence|]. destruct (sc_blockStates sc !! h); simpl; congruence.
Qed.

Lemma is_ready_blocks sc s p t r id h : is_ready (upd_blocks sc s p t r) id h <-> is_ready sc id h.
Proof. done. Qed.

Lemma markReceived_true sc id height size now sc' : markReceived sc id height size now = (sc', true) -> sc_ok sc ->
  sc_pendingBlocks sc !! height = Some id /\ sc_receivedBlocks sc' = <[height := id]> (sc_receivedBlocks sc).
Proof.
  intros Hm Hok. unfold markReceived in Hm. destruct (_ || _) eqn:Hg; [done|].
  apply orb_false_iff in Hg as [Hst%negb_false_iff%bool_decide_eq_true Hid%negb_false_iff%bool_decide_eq_true].
  destruct (sc_pendingTime sc !! height); [|done]. destruct (_ <=? _); [done|]. destruct (sc_peers sc !! id); [|done]. simplify_eq/=.
  apply state_at in Hst; [|done..]. destruct (sok_states _ Hok _ _ Hst) as (_ & _ & [k Hk]). rewrite Hk. done.
Qed.

Lemma received_ok sc height id : sc_ok sc -> sc_pendingBlocks sc !! height = Some id ->
  sc_ok (upd_blocks sc (<[height := blockStateReceived]> (sc_blockStates sc)) (base.delete height (sc_pendingBlocks sc))
           (base.delete height (sc_pendingTime sc)) (<[height := id]> (sc_receivedBlocks sc))).
Proof.
  intros [Ht Hh Hids Hpe Hti Hre Hss] Hp. destruct (Hpe _ _ Hp) as [Hst Hr]. destruct (Hss _ _ Hst) as (Hw & _ & _). split; simpl; try done.
  - intros h k [Hne Hk]%lookup_delete_Some. rewrite lookup_insert_ne by done. destruct (Hpe _ _ Hk). done.
  - intros h. destruct (decide (height = h)) as [->|Hne]; [by rewrite !lookup_delete_eq|]. rewrite !lookup_delete_ne by done. apply Hti.
  - intros h k [[<- <-]|[Hne Hk]]%lookup_insert_Some; [by rewrite lookup_insert_eq|]. rewrite lookup_insert_ne by done. destruct (Hre _ _ Hk). done.
  - intros h st [[<- <-]|[Hne Hk]]%lookup_insert_Some.
    + split; [done|]. split; [by exists id|]. rewrite lookup_insert_eq. eauto.
    + rewrite lookup_delete_ne, lookup_insert_ne by done. apply Hss. done.
Qed.

Lemma pending_ok sc height id t : sc_ok sc -> sc_blockStates sc !! height = Some blockStateNew -> is_ready sc id height ->
  sc_ok (upd_blocks sc (<[height := blockStatePending]> (sc_blockStates sc)) (<[height := id]> (sc_pendingBlocks sc))
           (<[height := t]> (sc_pendingTime sc)) (sc_receivedBlocks sc)).
Proof.
  intros [Ht Hh Hids Hpe Hti Hre Hss] Hst Hr. destruct (Hss _ _ Hst) as (Hw & _ & _). split; simpl; try done.
  - intros h k [[<- <-]|[Hne Hk]]%lookup_insert_Some; [by rewrite lookup_insert_eq|]. rewrite lookup_insert_ne by done. destruct (Hpe _ _ Hk). done.
  - intros h. destruct (decide (height = h)) as [->|Hne]; [rewrite !lookup_insert_eq; by split; eauto|]. rewrite !lookup_insert_ne by done. apply Hti.
  - intros h k Hk. destruct (Hre _ _ Hk) as [Hs ?]. rewrite lookup_insert_ne; [done|]. intros ->. congruence.
  - intros h st [[<- <-]|[Hne Hk]]%lookup_insert_Some.
    + split; [done|]. split; [by exists id|]. rewrite lookup_insert_eq. eauto.
    + rewrite lookup_insert_ne by done. apply Hss. done.
Qed.

Lemma markReceived_ok sc id height size now : sc_ok sc -> sc_ok (markReceived sc id height size now).1.
Proof.
  intros Hok. destruct (markReceived sc id height size now) as [sc' b] eqn:Hm. simpl.
  pose proof (markReceived_true sc id height size now sc') as Ht. unfold markReceived in Hm. destruct (_ || _) eqn:Hg; [by simplify_eq|].
  destruct (sc_pendingTime sc !! height) as [t|] eqn:Htime; [|by simplify_eq]. destruct (_ <=? _) eqn:Hpos; [by simplify_eq|].
  destruct (sc_peers sc !! id) as [p|] eqn:Hp; [|by simplify_eq].
  assert (Hpend : sc_pendingBlocks sc !! height = Some id).
  { apply Ht; [|done]. unfold markReceived. rewrite Hg, Htime, Hpos, Hp. by injection Hm as <- <-. }
  injection Hm as <- <-. clear Ht. match goal with |- sc_ok (upd_blocks (upd_peers _ ?ps) _ _ _ _) => apply (received_ok (upd_peers sc ps)) end; [|done].
  apply sc_ok_grow; [done|]. apply peers_grow_one; [done|exact (sok_ids _ Hok _ _ Hp)|]. intros q Hq. assert (q = p) as -> by congruence. done.
Qed.

Lemma markPending_true sc id height t sc' : markPending sc id height t = (sc', true) ->
  exists p, sc_peers sc !! id = Some p /\ sp_state p = peerStateReady /\ sp_base p <= height <= sp_height p /\
    getStateAtHeight sc height = blockStateNew /\
    sc' = upd_blocks sc (<[height := blockStatePending]> (sc_blockStates sc)) (<[height := id]> (sc_pendingBlocks sc))
            (<[height := t]> (sc_pendingTime sc)) (sc_receivedBlocks sc).
Proof.
  unfold markPending. case_bool_decide as Hst; simpl; [|done]. destruct (sc_peers sc !! id) as [p|]; [|done].
  case_bool_decide as Hs; simpl; [|done]. destruct (Z.gtb_spec height (sp_height p)); simpl; [done|]. destruct (Z.ltb_spec height (sp_base p)); [done|].
  intros [= <-]. exists p. split_and!; done || lia.
Qed.
Lemma markPending_false sc id height t sc' : markPending sc id height t = (sc', false) -> sc' = sc.
Proof. unfold markPending. repeat case_match; by intros [= <-]. Qed.
Lemma markPending_ok sc id height t : sc_ok sc -> sc_ok (markPending sc id height t).1.
Proof.
  intros Hok. destruct (markPending sc id height t) as [sc' []] eqn:Hm.
  - apply markPending_true in Hm as (p & Hp & Hs & Hh & Hst & ->). apply pending_ok; [done|by apply state_at|]. exists p. split_and!; [done..|lia].
  - by apply markPending_false in Hm as ->.
Qed.

Lemma markProcessed_ok sc now : sc_ok sc -> sc_height sc + 12 <= MaxInt64 -> sc_ok (markProcessed sc (sc_height sc) now).
Proof.
  intros [Ht Hh Hids Hpe Hti Hre Hss] Hb. unfold markProcessed. apply addNewBlocks_ok. set (h0 := sc_height sc) in *.
  assert (Hi : int64 (h0 + 1) = h0 + 1) by (apply int64_id; int_lia). split; simpl; rewrite ?Hi; try done.
  - lia.
  - intros h k [Hne Hk]%lookup_delete_Some. rewrite lookup_delete_ne by done. by apply Hpe.
  - intros h. destruct (decide (h0 = h)) as [<-|Hne]; [by rewrite !lookup_delete_eq|]. rewrite !lookup_delete_ne by done. apply Hti.
  - intros h k [Hne Hk]%lookup_delete_Some. rewrite lookup_delete_ne by done. by apply Hre.
  - intros h st [Hne Hk]%lookup_delete_Some. rewrite !lookup_delete_ne by done. destruct (Hss _ _ Hk) as (? & ? & ?). split; [lia|done].
Qed.
#[export] Hint Resolve removePeer_ok removePeers_ok setPeerRange_ok markReceived_ok markPending_ok touchPeer_ok : blocksync.

(** ** Every event keeps the scheduler consistent *)

Lemma add_loop_height l sc : sc_height (add_loop sc l) = sc_height sc.
Proof. revert sc. induction l as [|i l IH]; intros sc; simpl; [done|]. destruct (_ >? _); [done|]. rewrite IH. by case_bool_decide. Qed.
Lemma addNewBlocks_height sc : sc_height (addNewBlocks sc) = sc_height sc.
Proof. unfold addNewBlocks. destruct (_ >=? _); [done|apply add_loop_height]. Qed.
Lemma removePeer_height sc id : sc_height (removePeer sc id) = sc_height sc.
Proof. unfold removePeer. destruct (sc_peers sc !! id); [|done]. by case_bool_decide. Qed.
Lemma removePeers_height l sc : sc_height (fold_left removePeer l sc) = sc_height sc.
Proof. revert sc. induction l as [|id l IH]; intros sc; simpl; [done|]. by rewrite IH, removePeer_height. Qed.
Lemma ensurePeer_height sc id : sc_height (ensurePeer sc id).1 = sc_height sc.
Proof. unfold ensurePeer. by destruct (sc_peers sc !! id). Qed.
Lemma touchPeer_height sc id t : sc_height (touchPeer sc id t).1 = sc_height sc.
Proof. unfold touchPeer. destruct (sc_peers sc !! id); [|done]. by case_bool_decide. Qed.
Lemma setPeerRange_height sc id b h : sc_height (setPeerRange sc id b h).1 = sc_height sc.
Proof.
  unfold setPeerRange. rewrite <- (ensurePeer_height sc id). destruct (ensurePeer sc id) as [sc' p]. simpl. case_bool_decide; [done|].
  destruct (_ || _); simpl; [apply removePeer_height|by rewrite addNewBlocks_height].
Qed.
Lemma markReceived_height sc id h sz t : sc_height (markReceived sc id h sz t).1 = sc_height sc.
Proof. unfold markReceived. by repeat case_match. Qed.
Lemma markPending_height sc id h t : sc_height (markPending sc id h t).1 = sc_height sc.
Proof. unfold markPending. by repeat case_match. Qed.

Section runs.
Context `{!Crypto, !BatchCrypto, !Sha256, !TimeCodec, !WrapperCodec, !EvidenceOps, !BlockCodec}.

(** Events that do not restart the scheduler. *)
Definition is_reset (ev : Event) : bool := match ev with bcResetState _ => true | _ => false end.

(** What one event does to the scheduler, apart from restarting it: it stays consistent,
    and its height stays or moves on by one when the block it waits for was processed. *)
Lemma scheduler_handle_ok sc now ev sc' out : sc_ok sc -> sc_height sc + 12 <= MaxInt64 -> is_reset ev = false ->
  scheduler_handle sc now ev = Val (sc', out) ->
  sc_ok sc' /\ (sc_height sc' = sc_height sc \/ exists id, ev = pcBlockProcessed (sc_height sc) id /\ sc_height sc' = sc_height sc + 1).
Proof.
  intros Hok Hb Hr Hs. destruct ev; simpl in Hs; try done; try (injection Hs as <- <-; by split; [|left]).
  - assert (sc' = (setPeerRange sc peerID base height).1) as -> by (unfold handleStatusResponse in Hs; destruct (setPeerRange _ _ _ _); by simplify_eq).
    rewrite setPeerRange_height. auto using setPeerRange_ok.
  - unfold handleBlockResponse in Hs. pose proof (touchPeer_ok sc peerID time Hok) as Ht. pose proof (touchPeer_height sc peerID time) as Hth.
    destruct (touchPeer sc peerID time) as [sc1 []]; simpl in *; [|by simplify_eq; auto].
    pose proof (markReceived_ok sc1 peerID (h_Height (b_Header block)) size time Ht) as Hm.
    pose proof (markReceived_height sc1 peerID (h_Height (b_Header block)) size time) as Hmh.
    destruct (markReceived _ _ _ _ _) as [sc2 []]; simplify_eq/=; [split; [done|left; congruence]|].
    rewrite removePeer_height. split; [by apply removePeer_ok|left; congruence].
  - unfold handleNoBlockResponse in Hs. destruct (sc_peers sc !! peerID); [case_bool_decide|]; simplify_eq; auto.
    rewrite removePeer_height. auto with blocksync.
  - simplify_eq. rewrite ensurePeer_height. split; [by apply ensurePeer_ok|by left].
  - unfold handleRemovePeer in Hs. simplify_eq. rewrite removePeer_height. auto with blocksync.
  - unfold handleTrySchedule in Hs. destruct (_ >? _); [simplify_eq; auto|]. destruct (_ =? -1); [simplify_eq; auto|].
    destruct (selectPeer _ _) as [id|]; [|simplify_eq; auto]. pose proof (markPending_ok sc id (nextHeightToSchedule sc) time Hok) as Hm.
    pose proof (markPending_height sc id (nextHeightToSchedule sc) time). destruct (markPending _ _ _ _); simplify_eq/=; auto.
  - unfold handleTryPrunePeer in Hs. match type of Hs with context [prunablePeers ?x _] => set (sc1 := x) in * end.
    assert (sc_ok sc1 /\ sc_height sc1 = sc_height sc) as [Hok1 Hh1].
    { unfold sc1. destruct (sc_pendingTime sc !! sc_height sc); [|done]. destruct (_ >? _); [|done]. rewrite removePeer_height. auto with blocksync. }
    destruct (prunablePeers sc1 time); simplify_eq; [auto|]. rewrite removePeers_height, removePeer_height. auto with blocksync.
  - unfold handleBlockProcessError in Hs. simplify_eq. case_bool_decide; rewrite ?removePeer_height; auto with blocksync.
  - unfold handleBlockProcessed in Hs. apply bind_val in Hs as ([] & Hp & Hs). unfold panic_if in Hp. destruct (Z.eqb_spec height (sc_height sc)) as [->|]; [|done].
    simpl in Hs. simplify_eq. split; [by apply markProcessed_ok|]. right. exists peerID. split; [done|]. unfold markProcessed. rewrite addNewBlocks_height. simpl.
    destruct (sok_height _ Hok). apply int64_id. int_lia.
Qed.

(** ** The processor saves committed blocks in order *)

Lemma ApplyBlock_next cache ev ex st bid b cache' st' : ApplyBlock cache ev ex st bid b = Val (cache', inl st') ->
  sm_LastBlockHeight st' = h_Height (b_Header b) /\ sm_LastBlockID st' = bid /\ sm_ChainID st' = sm_ChainID st.
Proof.
  unfold ApplyBlock. intros Hap. apply bind_val in Hap as ([c e] & _ & Hap). destruct e; [done|].
  destruct (apply_valid ex st bid b) as [st1| |] eqn:Ha; simplify_eq. unfold apply_valid in Ha. destruct (ex_Responses ex); [|done].
  apply bind_val in Ha as (? & _ & Ha). apply bind_val in Ha as (? & _ & Ha). apply bind_val in Ha as (ups & _ & Ha). apply bind_val in Ha as (st2 & Hu & Ha).
  assert (sm_LastBlockHeight st2 = h_Height (b_Header b) /\ sm_LastBlockID st2 = bid /\ sm_ChainID st2 = sm_ChainID st) as Hst2.
  { unfold updateState in Hu. apply bind_val in Hu as (? & _ & Hu). apply bind_val in Hu as ([? ?] & _ & Hu). apply bind_val in Hu as (? & _ & Hu).
    apply bind_val in Hu as ([[? ?] ?] & _ & Hu). apply bind_val in Hu as (? & _ & Hu). apply bind_val in Hu as (? & _ & Hu). by simplify_eq. }
  destruct (ex_Commit ex); [|done]. apply bind_val in Ha as (? & _ & Ha). apply bind_val in Ha as (? & _ & Ha). by simplify_eq.
Qed.

(** The commit is one for this block, cut into these parts, by the validators of the state. *)
Definition commits (st : State) (b : Block) (ps : PartSet) (commit : option Commit) : Prop :=
  exists hash, Block_Hash (Some b) = Val hash /\ MakePartSet b BlockPartSizeBytes = Val ps /\
    VerifyCommitLight (sm_ChainID st) (sm_Validators st) (mkBlockID hash (PartSet_Header (Some ps))) (h_Height (b_Header b)) commit = Val tt.

(** Applying the block turns the one state into the other. *)
Definition applies (st : State) (b : Block) (ps : PartSet) (st' : State) : Prop :=
  exists hash cache evidence_ok ex cache', Block_Hash (Some b) = Val hash /\
    ApplyBlock cache evidence_ok ex st (mkBlockID hash (PartSet_Header (Some ps))) b = Val (cache', inl st').

(** Blocks applied one after the other, each with its commit. *)
Inductive synced_from (st0 : State) : list (Block * PartSet * option Commit) -> State -> Prop :=
  | synced_none : synced_from st0 [] st0
  | synced_next saved st b ps commit st' : synced_from st0 saved st -> commits st b ps commit ->
      h_Height (b_Header b) = int64 (sm_LastBlockHeight st + 1) -> applies st b ps st' ->
      synced_from st0 (saved ++ [(b, ps, commit)]) st'.

Lemma applies_next st b ps st' : applies st b ps st' -> sm_LastBlockHeight st' = h_Height (b_Header b) /\ sm_ChainID st' = sm_ChainID st.
Proof. intros (? & ? & ? & ? & ? & _ & Ha). by apply ApplyBlock_next in Ha as (? & _ & ?). Qed.
Lemma applies_ok st b ps st' : state_ok st -> applies st b ps st' -> state_ok st' /\ sm_Validators st' = sm_NextValidators st.
Proof. intros Hok (? & ? & ? & ? & ? & _ & Ha). by eapply ApplyBlock_ok. Qed.
Lemma synced_ok st0 saved st : state_ok st0 -> synced_from st0 saved st -> state_ok st.
Proof. intros Hst. induction 1 as [|saved st b ps commit st' _ IH _ _ Ha]; [done|]. by apply (applies_ok _ _ _ _ IH) in Ha as []. Qed.

Lemma synced_heights st0 saved st : synced_from st0 saved st -> 0 <= sm_LastBlockHeight st0 -> sm_LastBlockHeight st0 + len saved <= MaxInt64 ->
  sm_LastBlockHeight st = sm_LastBlockHeight st0 + len saved /\ sm_ChainID st = sm_ChainID st0 /\
  forall i b ps commit, saved !! i = Some (b, ps, commit) ->
    h_Height (b_Header b) = sm_LastBlockHeight st0 + Z.of_nat i + 1 /\
    exists sti sti', synced_from st0 (take i saved) sti /\ commits sti b ps commit /\ applies sti b ps sti' /\ synced_from st0 (take (S i) saved) sti'.
Proof.
  intros Hs Hge0. induction Hs as [|saved st b ps commit st' Hs IH Hc Hh Ha]; intros Hb.
  - unfold len. simpl. split_and!; [lia|done|]. intros i b ps c Hi. by rewrite lookup_nil in Hi.
  - unfold len in *. rewrite length_app in *. simpl in *. destruct IH as (IHh & IHc & IHi); [lia|]. pose proof (applies_next _ _ _ _ Ha) as [Hst' Hid].
    pose proof Hh as Hh'. rewrite int64_id in Hh by (rewrite IHh; int_lia).
    split_and!; [rewrite Hst', Hh, IHh; lia|congruence|]. intros i b' ps' c' Hi. apply lookup_app_Some in Hi as [Hi|[Hge Hi]].
    + pose proof (lookup_lt_Some _ _ _ Hi). rewrite !take_app_le by lia. by apply IHi.
    + destruct (i - length saved)%nat eqn:Hd; [|done]. simpl in Hi. simplify_eq. assert (i = length saved) as -> by lia.
      split; [rewrite Hh, IHh; lia|]. exists st, st'. rewrite take_app_length. rewrite take_ge by (rewrite length_app; simpl; lia).
      split_and!; [done..|]. by apply synced_next with (st := st).
Qed.

(** What waits in the processor's queue. *)
Definition queue_ok (init : Z) (pc : pcState) : Prop :=
  forall h b id, pc_queue pc !! h = Some (b, id) -> h = h_Height (b_Header b) /\ init <= h.
Record pc_ok (st0 : State) (init : Z) (pc : pcState) : Prop := {
  pok_queue : queue_ok init pc;
  pok_synced : synced_from st0 (pc_saved pc) (pc_state pc);
  pok_from : Forall (fun x => init <= h_Height (b_Header x.1.1)) (pc_saved pc)
}.

Lemma queue_ok_filter init pc (P : Z * (Block * NodeID) -> Prop) `{!forall x, Decision (P x)} : queue_ok init pc ->
  queue_ok init (with_queue pc (filter P (pc_queue pc))).
Proof. intros Hq h b id [Hh _]%map_lookup_filter_Some. by apply (Hq h b id). Qed.
Lemma purgePeer_ok st0 init pc id : pc_ok st0 init pc -> pc_ok st0 init (purgePeer pc id).
Proof. intros [Hq Hs Hf]. split; [by apply queue_ok_filter|done|done]. Qed.

Lemma process_block_ok ap st0 init pc first second pc' out : pc_ok st0 init pc -> nextTwo pc = Some (first, second) ->
  process_block ap pc first second = Val (pc', out) -> pc_ok st0 init pc' /\ ~ is_reset out.
Proof.
  intros Hok Htwo Hp. unfold process_block in Hp. apply bind_val in Hp as (ps & Hps & Hp). apply bind_val in Hp as (hash & Hhash & Hp).
  destruct (VerifyCommitLight _ _ _ _ _) as [[]|e|] eqn:Hv; [|simplify_eq; split; [case_bool_decide; auto using purgePeer_ok|simpl; tauto]|done].
  apply bind_val in Hp as ([cache res] & Ha & Hp). destruct res as [st'|]; [|done]. simplify_eq. split; [|simpl; tauto].
  destruct Hok as [Hq Hs Hfrom]. unfold nextTwo in Htwo. destruct (pc_queue pc !! int64 (pc_height pc + 1)) as [[b p]|] eqn:Hf; [|done].
  destruct (pc_queue pc !! int64 (pc_height pc + 2)); [|done]. simplify_eq/=.
  pose proof (Hq _ _ _ Hf) as [Hkey Hge]. split; [|apply synced_next with (st := pc_state pc); try done|].
  - intros h b' id Hh. simpl in Hh. apply lookup_delete_Some in Hh as [_ Hh]. by apply (Hq h b' id).
  - by exists hash.
  - exists hash. by eauto 10.
  - simpl. apply Forall_app. split; [done|]. constructor; [simpl; lia|done].
Qed.

Definition received_from (init : Z) (ev : Event) : Prop :=
  match ev with scBlockReceived _ b => init <= h_Height (b_Header b) | bcResetState _ => False | _ => True end.

Lemma processor_handle_ok ap st0 init pc ev pc' out : pc_ok st0 init pc -> received_from init ev ->
  processor_handle ap pc ev = Val (pc', out) -> pc_ok st0 init pc' /\ ~ is_reset out.
Proof.
  intros Hok Hev Hp. destruct ev; simpl in Hp; simplify_eq; try (split; [done|simpl; tauto]); try done.
  - destruct (nextTwo pc) as [[first second]|] eqn:Htwo; [by eapply process_block_ok|]. simplify_eq. split; [done|]. destruct (pc_draining pc'); simpl; tauto.
  - destruct (synced pc); simplify_eq; (split; [by destruct Hok; split|simpl; tauto]).
  - destruct (_ >? _); [|simplify_eq; split; [done|simpl; tauto]]. apply bind_val in Hp as (pc1 & He & Hp). simplify_eq. split; [|simpl; tauto].
    unfold enqueue in He. destruct (pc_queue pc !! _); simplify_eq. destruct Hok as [Hq Hs Hf]. split; [|done|done].
    intros h b id Hh. simpl in Hh. apply lookup_insert_Some in Hh as [[<- [= <- <-]]|[_ Hh]]; [done|by apply (Hq h b id)].
  - split; [by apply purgePeer_ok|simpl; tauto].
Qed.

(** ** Runs *)

Lemma touchPeer_blocks sc id t : sc_pendingBlocks (touchPeer sc id t).1 = sc_pendingBlocks sc /\ sc_receivedBlocks (touchPeer sc id t).1 = sc_receivedBlocks sc.
Proof. unfold touchPeer. destruct (sc_peers sc !! id); [|done]. by case_bool_decide. Qed.

(** A block is handed on only when it answers a request made to that peer. *)
Lemma block_received_inv sc now ev sc' id b : sc_ok sc -> scheduler_handle sc now ev = Val (sc', scBlockReceived id b) ->
  (exists t size, ev = bcBlockResponse t id size b) /\ sc_pendingBlocks sc !! h_Height (b_Header b) = Some id /\
  sc_pendingBlocks sc' !! h_Height (b_Header b) = None /\ sc_blockStates sc' !! h_Height (b_Header b) = Some blockStateReceived /\
  sc_receivedBlocks sc' !! h_Height (b_Header b) = Some id.
Proof.
  intros Hok Hs.
  assert (Hev : exists t size, ev = bcBlockResponse t id size b /\ handleBlockResponse sc t id size b = (sc', scBlockReceived id b)).
  { destruct ev; simpl in Hs; try done.
    - unfold handleStatusResponse in Hs. destruct (setPeerRange _ _ _ _) as [? []]; simplify_eq.
    - injection Hs as Hs. assert (peerID = id /\ block = b) as [-> ->]; [|eauto]. unfold handleBlockResponse in Hs.
      destruct (touchPeer _ _ _) as [? []]; simpl in Hs; [|done]. destruct (markReceived _ _ _ _ _) as [? []]; by simplify_eq/=.
    - unfold handleNoBlockResponse in Hs. repeat case_match; simplify_eq.
    - unfold handleRemovePeer in Hs. repeat case_match; simplify_eq.
    - unfold handleTrySchedule in Hs. repeat case_match; simplify_eq.
    - unfold handleTryPrunePeer in Hs. repeat case_match; simplify_eq.
    - unfold handleBlockProcessError in Hs. repeat case_match; simplify_eq.
    - unfold handleBlockProcessed in Hs. apply bind_val in Hs as ([] & _ & Hs). repeat case_match; simplify_eq. }
  destruct Hev as (t & size & -> & Hh). split; [eauto|]. unfold handleBlockResponse in Hh.
  pose proof (touchPeer_ok sc id t Hok) as Ht. pose proof (touchPeer_blocks sc id t) as [Htp Htr].
  destruct (touchPeer sc id t) as [sc1 []]; simpl in *; [|done].
  destruct (markReceived sc1 id (h_Height (b_Header b)) size t) as [sc2 []] eqn:Hm; simplify_eq/=.
  pose proof (markReceived_true _ _ _ _ _ _ Hm Ht) as [Hp Hr]. pose proof (markReceived_ok sc1 id (h_Height (b_Header b)) size t Ht) as Hok2.
  rewrite Hm in Hok2. simpl in Hok2. assert (Hr' : sc_receivedBlocks sc' !! h_Height (b_Header b) = Some id) by (by rewrite Hr, lookup_insert_eq).
  destruct (sok_received _ Hok2 _ _ Hr') as [Hst _]. rewrite <- Htp. split_and!; [done| |done|done].
  destruct (sc_pendingBlocks sc' !! h_Height (b_Header b)) as [k|] eqn:Hk; [|done]. destruct (sok_pending _ Hok2 _ _ Hk). congruence.
Qed.

Lemma pending_window sc h id : sc_ok sc -> sc_pendingBlocks sc !! h = Some id -> sc_height sc <= h < sc_height sc + 10.
Proof. intros Hok Hp. destruct (sok_pending _ Hok _ _ Hp) as [Hs _]. by destruct (sok_states _ Hok _ _ Hs). Qed.

Lemma scheduler_sends sc now ev sc' out : sc_ok sc -> scheduler_handle sc now ev = Val (sc', out) ->
  Forall (received_from (sc_height sc)) (demux_scheduler out).
Proof.
  intros Hok Hs. destruct out; simpl; try by repeat constructor.
  - constructor; [|constructor]. apply block_received_inv in Hs as (_ & Hp & _); [|done]. simpl. destruct (pending_window _ _ _ Hok Hp). done.
  - apply Forall_fmap, Forall_true. done.
Qed.

(** The state of a run, [n] steps after its start. *)
Record sync_ok (st0 : State) (n : Z) (sy : Sync) : Prop := {
  yok_scheduler : sc_ok (sy_scheduler sy);
  yok_height : init_height st0 <= sc_height (sy_scheduler sy) <= init_height st0 + n;
  yok_to_scheduler : Forall (fun ev => ~ is_reset ev) (sy_to_scheduler sy);
  yok_to_processor : Forall (received_from (init_height st0)) (sy_to_processor sy);
  yok_processor : pc_ok st0 (init_height st0) (sy_processor sy)
}.

Lemma received_from_le i j ev : i <= j -> received_from j ev -> received_from i ev.
Proof. destruct ev; simpl; try done. lia. Qed.

Lemma run_scheduler_ok st0 n sy now ev waiting sy' : sync_ok st0 n sy -> init_height st0 + n + 12 <= MaxInt64 -> is_reset ev = false ->
  Forall (fun ev => ~ is_reset ev) waiting -> run_scheduler sy now ev waiting = Val sy' -> sync_ok st0 (n + 1) sy'.
Proof.
  intros [Hsc Hh Hts Htp Hpc] Hb Hev Hw Hr. unfold run_scheduler in Hr. destruct (sy_stopped sy); [simplify_eq; split; simpl; try done; lia|].
  apply bind_val in Hr as ([sc out] & Hs & Hr). simplify_eq. pose proof (scheduler_sends _ _ _ _ _ Hsc Hs) as Hout.
  apply scheduler_handle_ok in Hs as [Hok Hhh]; [|done|lia|done]. split; simpl; try done.
  - destruct Hhh as [->|(? & _ & ->)]; lia.
  - apply Forall_app. split; [done|]. eapply Forall_impl; [exact Hout|]. intros e. apply received_from_le. lia.
Qed.

Lemma demux_processor_resets out : ~ is_reset out -> Forall (fun ev => ~ is_reset ev) (demux_processor out).
Proof. destruct out; simpl; intros; repeat constructor; done. Qed.
Lemma run_processor_ok st0 n sy ap ev waiting sy' : sync_ok st0 n sy -> received_from (init_height st0) ev ->
  Forall (received_from (init_height st0)) waiting -> run_processor sy ap ev waiting = Val sy' -> sync_ok st0 (n + 1) sy'.
Proof.
  intros [Hsc Hh Hts Htp Hpc] Hev Hw Hr. unfold run_processor in Hr. apply bind_val in Hr as ([pc out] & Hp & Hr). simplify_eq.
  apply (processor_handle_ok _ st0 (init_height st0)) in Hp as [Hok Hout]; [|done..]. split; simpl; try done; [lia|].
  apply Forall_app. auto using demux_processor_resets.
Qed.

Lemma sync_ok_le st0 n m sy : n <= m -> sync_ok st0 n sy -> sync_ok st0 m sy.
Proof. intros Hnm []. split; try done. lia. Qed.
Lemma sync_step_ok st0 n sy step sy' : sync_ok st0 n sy -> init_height st0 + n + 12 <= MaxInt64 ->
  sync_step sy step = Val sy' -> sync_ok st0 (n + 1) sy'.
Proof.
  intros Hok Hb Hs. pose proof Hok as [Hsc Hh Hts Htp Hpc]. destruct step as [now ev|now i|ap i|ap|]; simpl in Hs.
  - destruct (external ev) eqn:He; [|simplify_eq; eapply sync_ok_le, Hok; lia]. eapply run_scheduler_ok; [done..| |done|done]. by destruct ev.
  - destruct (sy_to_scheduler sy !! i) as [ev|] eqn:Hi; [|simplify_eq; eapply sync_ok_le, Hok; lia].
    eapply run_scheduler_ok; [done..| | |done].
    + pose proof (Forall_lookup_1 _ _ _ _ Hts Hi) as Hn. simpl in Hn. by destruct (is_reset ev).
    + by apply Forall_delete.
  - destruct (sy_to_processor sy !! i) as [ev|] eqn:Hi; [|simplify_eq; eapply sync_ok_le, Hok; lia].
    eapply run_processor_ok; [done|exact (Forall_lookup_1 _ _ _ _ Htp Hi)| |done]. by apply Forall_delete.
  - apply (run_processor_ok st0 n sy ap rProcessBlock (sy_to_processor sy)); done.
  - simplify_eq. split; simpl; try done. lia.
Qed.

Lemma sync_run_ok st0 steps n sy sy' : sync_ok st0 n sy -> init_height st0 + n + len steps + 12 <= MaxInt64 ->
  sync_run sy steps = Val sy' -> sync_ok st0 (n + len steps) sy'.
Proof.
  revert n sy. induction steps as [|s steps IH]; intros n sy Hok Hb Hr; unfold len in *; simpl in *; [simplify_eq; by rewrite Z.add_0_r|].
  apply bind_val in Hr as (sy1 & Hs & Hr). apply (sync_step_ok st0 n) in Hs; [|done|lia].
  replace (n + Z.of_nat (S (length steps))) with (n + 1 + Z.of_nat (length steps)) by lia. eapply IH; [exact Hs|lia|done].
Qed.
Lemma newReactor_ok st now : 0 < init_height st -> init_height st + 12 <= MaxInt64 -> sync_ok st 0 (newReactor st now).
Proof.
  intros Hpos Hb. split; simpl; [|lia|done|done|].
  - split; simpl; [done|lia| | | | |]; intros *; rewrite !lookup_empty; done || (by split; intros [? ?]).
  - split; [done|constructor|constructor].
Qed.
Lemma reachable_sync_ok st now steps sy : 0 < init_height st -> init_height st + len steps + 12 <= MaxInt64 ->
  sync_run (newReactor st now) steps = Val sy -> sync_ok st (len steps) sy.
Proof.
  intros Hi Hb Hr. apply (sync_run_ok st steps 0) in Hr; [by rewrite Z.add_0_l in Hr| |lia]. apply newReactor_ok; [done|]. unfold len in Hb. lia.
Qed.

(** ** The theorems *)

Lemma window_size {A} (m : gmap Z A) h n : 0 <= n -> (forall k, is_Some (m !! k) -> h <= k < h + n) -> Z.of_nat (size m) <= n.
Proof.
  intros Hn Hm. rewrite <- size_dom. assert (Hsub : dom m ⊆ list_to_set (C := gset Z) (seqZ h n)).
  { intros k Hk%elem_of_dom. apply elem_of_list_to_set, elem_of_seqZ. by apply Hm. }
  apply subseteq_size in Hsub. rewrite size_list_to_set in Hsub by apply NoDup_seqZ. rewrite length_seqZ in Hsub. lia.
Qed.

(** *** Requests *)

Lemma nextHeight_spec sc : sc_ok sc ->
  (nextHeightToSchedule sc = -1 /\ forall h, sc_blockStates sc !! h <> Some blockStateNew) \/
  (nextHeightToSchedule sc <> -1 /\ sc_blockStates sc !! nextHeightToSchedule sc = Some blockStateNew /\
   forall h, sc_blockStates sc !! h = Some blockStateNew -> nextHeightToSchedule sc <= h).
Proof.
  intros Hok. unfold nextHeightToSchedule.
  assert (Hfold : forall l, let m := foldr (fun '(h, st) m => if bool_decide (st = blockStateNew) && (h <? m) then h else m) MaxInt64 l in
    (m = MaxInt64 \/ (m, blockStateNew) ∈ l) /\ forall h, (h, blockStateNew) ∈ l -> m <= h).
  { induction l as [|[h st'] l [IH1 IH2]]; cbn [foldr]; [split; [by left|intros ? ?%not_elem_of_nil; done]|]. set (m := foldr _ _ l) in *.
    case_bool_decide as Hst; simpl; [subst st'; destruct (Z.ltb_spec h m)|].
    - split; [right; by left|]. intros k [[= ->]|Hk]%elem_of_cons; [done|]. specialize (IH2 _ Hk). lia.
    - split; [destruct IH1; [by left|right; by right]|]. intros k [[= ->]|Hk]%elem_of_cons; [done|by apply IH2].
    - split; [destruct IH1; [by left|right; by right]|]. intros k [[= -> <-]|Hk]%elem_of_cons; [done|by apply IH2]. }
  destruct (Hfold (map_to_list (sc_blockStates sc))) as [Hm Hle]. clear Hfold. set (m := foldr _ _ _) in *.
  assert (Hlt : forall h, sc_blockStates sc !! h = Some blockStateNew -> 0 < h < MaxInt64).
  { intros h Hh. destruct (sok_states _ Hok _ _ Hh) as [? _]. destruct (sok_height _ Hok). lia. }
  setoid_rewrite elem_of_map_to_list in Hle. rewrite elem_of_map_to_list in Hm. destruct (Z.eqb_spec m MaxInt64) as [He|Hne].
  - left. split; [done|]. intros h Hh. specialize (Hle _ Hh). specialize (Hlt _ Hh). lia.
  - right. destruct Hm as [|Hm]; [done|]. specialize (Hlt _ Hm). split_and!; [lia|done|done].
Qed.

Lemma getPeersWithHeight_elem sc h id : sc_ok sc ->
  id ∈ getPeersWithHeight sc h <-> exists p, sc_peers sc !! id = Some p /\ sp_state p = peerStateReady /\ sp_base p <= h <= sp_height p.
Proof.
  intros Hok. unfold getPeersWithHeight. rewrite list_elem_of_fmap. split.
  - intros (p & -> & Hp). apply list_elem_of_In, filter_In in Hp as [Hp Hc]. apply andb_true_iff in Hc as [Hb%Z.leb_le Hh%Z.leb_le].
    apply list_elem_of_In, ready_peers_elem in Hp as (k & Hk & Hs). exists p. rewrite (sok_ids _ Hok _ _ Hk). done.
  - intros (p & Hp & Hs & Hb & Hh). exists p. split; [by rewrite (sok_ids _ Hok _ _ Hp)|]. apply list_elem_of_In, filter_In. split.
    + apply list_elem_of_In, ready_peers_elem. by exists id.
    + apply andb_true_iff. split; by apply Z.leb_le.
Qed.

Lemma fold_min_spec (f : NodeID -> Z) l : (forall x, f x <= MaxInt64) -> l <> [] ->
  exists y, y ∈ l /\ f y = foldr (fun p m => Z.min (f p) m) MaxInt64 l /\ forall x, x ∈ l -> f y <= f x.
Proof.
  intros Hf. induction l as [|x l IH]; [done|]. intros _. simpl. destruct l as [|z l].
  - exists x. simpl. split; [by left|]. split; [specialize (Hf x); lia|]. intros k [->|?%not_elem_of_nil]%elem_of_cons; done.
  - destruct IH as (y & Hy & He & Hmin); [done|]. rewrite <- He. destruct (Z.le_gt_cases (f x) (f y)).
    + exists x. split; [by left|]. split; [lia|]. intros k [->|Hk]%elem_of_cons; [done|]. specialize (Hmin _ Hk). lia.
    + exists y. split; [by right|]. split; [lia|]. intros k [->|Hk]%elem_of_cons; [lia|by apply Hmin].
Qed.

Lemma num_pending_max sc id : sc_ok sc -> num_pending sc id <= 10.
Proof.
  intros Hok. unfold num_pending, pendingFrom, len. rewrite length_fmap, length_map_to_list.
  apply (window_size _ (sc_height sc)); [done|]. intros k [v [Hv _]%map_lookup_filter_Some]. by eapply pending_window.
Qed.

(** Among the peers that cover the height, one with the fewest pending requests. *)
Lemma selectPeer_spec sc h : sc_ok sc ->
  match selectPeer sc h with
  | Some id => id ∈ getPeersWithHeight sc h /\ forall k, k ∈ getPeersWithHeight sc h -> num_pending sc id <= num_pending sc k
  | None => getPeersWithHeight sc h = []
  end.
Proof.
  intros Hok. unfold selectPeer, sort_peers. set (ps := getPeersWithHeight sc h). set (m := foldr _ _ _). set (l := List.filter _ _).
  pose proof (sort_by_perm String.ltb l) as Hperm. destruct (sort_by String.ltb l) as [|id rest] eqn:Hs; simpl.
  - symmetry in Hperm. apply Permutation_nil_r in Hperm. destruct (decide (ps = [])) as [|Hne]; [done|exfalso].
    destruct (fold_min_spec (num_pending sc) ps) as (y & Hy & Hm & _); [intros x; pose proof (num_pending_max sc x Hok); unfold MaxInt64; lia|done|].
    assert (y ∈ l) as Hl; [|rewrite Hperm in Hl; by apply not_elem_of_nil in Hl]. apply list_elem_of_In, filter_In. split; [by apply list_elem_of_In|by apply Z.eqb_eq].
  - assert (Hid : id ∈ l) by (rewrite <- Hperm; by left). apply list_elem_of_In, filter_In in Hid as [Hid%list_elem_of_In Hm%Z.eqb_eq]. split; [done|].
    intros k Hk. assert (Hne : ps <> []) by (intros He; rewrite He in Hk; by apply not_elem_of_nil in Hk).
    destruct (fold_min_spec (num_pending sc) ps) as (y & Hy & Hmy & Hmin); [intros x; pose proof (num_pending_max sc x Hok); unfold MaxInt64; lia|done|].
    rewrite Hm. fold m in Hmy. rewrite <- Hmy. by apply Hmin.
Qed.

Lemma request_inv sc now ev sc' id h : sc_ok sc -> scheduler_handle sc now ev = Val (sc', scBlockRequest id h) ->
  exists t, ev = rTrySchedule t /\ h = nextHeightToSchedule sc /\ h <> -1 /\ selectPeer sc h = Some id /\ markPending sc id h t = (sc', true).
Proof.
  intros Hok Hs. destruct ev; simpl in Hs; try done.
  - unfold handleStatusResponse in Hs. destruct (setPeerRange _ _ _ _) as [? []]; simplify_eq.
  - unfold handleBlockResponse in Hs. repeat case_match; simplify_eq.
  - unfold handleNoBlockResponse in Hs. repeat case_match; simplify_eq.
  - unfold handleRemovePeer in Hs. repeat case_match; simplify_eq.
  - unfold handleTrySchedule in Hs. destruct (_ >? _); [done|]. destruct (Z.eqb_spec (nextHeightToSchedule sc) (-1)); [done|].
    destruct (selectPeer sc _) as [k|] eqn:Hk; [|done]. destruct (markPending _ _ _ _) as [? []] eqn:Hm; simplify_eq. by exists time.
  - unfold handleTryPrunePeer in Hs. repeat case_match; simplify_eq.
  - unfold handleBlockProcessError in Hs. repeat case_match; simplify_eq.
  - unfold handleBlockProcessed in Hs. apply bind_val in Hs as ([] & _ & Hs). repeat case_match; simplify_eq.
Qed.

(** Requests and responses match in every run of block sync.  The scheduler only requests
    the lowest height that is neither requested nor received, from a ready peer whose
    announced range holds it and which owes the fewest blocks among such peers; and it
    hands a block to the processor only when that height is being requested from the
    very peer that sent it, after which the height is no longer pending, so that a second
    answer is not accepted. *)
Lemma block_requests_sound st now steps sy t ev sc' out :
  0 < init_height st -> init_height st + len steps + 12 <= MaxInt64 ->
  sync_run (newReactor st now) steps = Val sy ->
  let sc := sy_scheduler sy in
  scheduler_handle sc t ev = Val (sc', out) ->
  match out with
  | scBlockRequest id h =>
      sc_blockStates sc !! h = Some blockStateNew /\ (forall k, sc_blockStates sc !! k = Some blockStateNew -> h <= k) /\
      (exists p, sc_peers sc !! id = Some p /\ sp_state p = peerStateReady /\ sp_base p <= h <= sp_height p) /\
      (forall k p, sc_peers sc !! k = Some p -> sp_state p = peerStateReady -> sp_base p <= h <= sp_height p -> num_pending sc id <= num_pending sc k) /\
      sc_pendingBlocks sc' !! h = Some id
  | scBlockReceived id b =>
      (exists at_time size, ev = bcBlockResponse at_time id size b) /\ sc_pendingBlocks sc !! h_Height (b_Header b) = Some id /\
      sc_pendingBlocks sc' !! h_Height (b_Header b) = None /\
      forall at_time k size j c, (handleBlockResponse sc' at_time k size b).2 <> scBlockReceived j c
  | _ => True
  end.
Proof.
  intros Hi Hb Hr sc Hs. apply reachable_sync_ok in Hr as [Hok _ _ _ _]; [|done..]. fold sc in Hok. destruct out; try done.
  - apply request_inv in Hs as (t' & -> & -> & Hne & Hsel & Hm); [|done]. pose proof (selectPeer_spec sc (nextHeightToSchedule sc) Hok) as Hsp.
    rewrite Hsel in Hsp. destruct Hsp as [Hin Hmin]. destruct (nextHeight_spec sc Hok) as [[? _]|(_ & Hnew & Hlow)]; [done|].
    apply markPending_true in Hm as (p & Hp & Hst & Hrange & _ & ->). split_and!; [done|done|by exists p| |simpl; by rewrite lookup_insert_eq].
    intros k q Hq Hqs Hqr. apply Hmin, getPeersWithHeight_elem; [done|]. by exists q.
  - pose proof Hs as Hs'. apply block_received_inv in Hs as (Hev & Hp & Hp' & Hst & _); [|done]. split; [done|]. split; [done|]. split; [done|].
    intros at_time k size j c. unfold handleBlockResponse.
    destruct (touchPeer sc' k at_time) as [sc1 ok] eqn:Htp. destruct ok; simpl; [|done].
    assert (Hst1 : getStateAtHeight sc1 (h_Height (b_Header block)) <> blockStatePending).
    { assert (Hbs : sc_blockStates sc1 = sc_blockStates sc') by (unfold touchPeer in Htp; repeat case_match; by simplify_eq).
      unfold getStateAtHeight. destruct (_ <? _); [done|]. by rewrite Hbs, Hst. }
    assert (Hf : markReceived sc1 k (h_Height (b_Header block)) size at_time = (sc1, false)) by (unfold markReceived; by rewrite bool_decide_false by done).
    by rewrite Hf.
Qed.

(** C12: the block sync scheduler stays consistent in every run, whatever peers send and in
    whatever order the two routines take their events.  It tracks at most ten heights,
    all of them in the window of ten that starts at the height it waits for and within the
    reported height of some ready peer; a height is pending exactly when a request and its
    time are recorded, and no height is both pending and received.  Whatever event makes
    it request a block, the height was new and the peer ready with a reported range, from
    its base to its height, that holds the height, and the request is then recorded.  The
    peer of a recorded request or answer is still ready and its reported height still
    reaches the block (a later report may have raised its base). *)
Theorem block_sync_consistent st now steps sy :
  0 < init_height st -> init_height st + len steps + 12 <= MaxInt64 ->
  sync_run (newReactor st now) steps = Val sy ->
  let sc := sy_scheduler sy in
  Z.of_nat (size (sc_blockStates sc)) <= 10 /\
  (forall h, is_Some (sc_blockStates sc !! h) -> sc_height sc <= h < sc_height sc + 10 /\
     exists id p, sc_peers sc !! id = Some p /\ sp_state p = peerStateReady /\ h <= sp_height p) /\
  (forall h, sc_blockStates sc !! h = Some blockStatePending <-> is_Some (sc_pendingBlocks sc !! h)) /\
  (forall h, sc_blockStates sc !! h = Some blockStateReceived <-> is_Some (sc_receivedBlocks sc !! h)) /\
  (forall h, is_Some (sc_pendingTime sc !! h) <-> is_Some (sc_pendingBlocks sc !! h)) /\
  (forall t ev sc' id h, scheduler_handle sc t ev = Val (sc', scBlockRequest id h) ->
     sc_blockStates sc !! h = Some blockStateNew /\ sc_pendingBlocks sc' !! h = Some id /\
     exists p, sc_peers sc !! id = Some p /\ sp_state p = peerStateReady /\ sp_base p <= h <= sp_height p) /\
  (forall h id, sc_pendingBlocks sc !! h = Some id \/ sc_receivedBlocks sc !! h = Some id ->
     exists p, sc_peers sc !! id = Some p /\ sp_state p = peerStateReady /\ h <= sp_height p).
Proof.
  intros Hi Hb Hr sc. pose proof (block_requests_sound st now steps sy) as Hreq.
  pose proof Hr as [[Ht Hh Hids Hpe Hti Hre Hss] _ _ _ _]%reachable_sync_ok; [|done..]. fold sc in Ht, Hh, Hids, Hpe, Hti, Hre, Hss. split_and!.
  - apply (window_size _ (sc_height sc)); [done|]. intros h [st' Hst]. by destruct (Hss _ _ Hst).
  - intros h [st' Hst]. destruct (Hss _ _ Hst) as (? & Ho & _). done.
  - intros h. split; [by intros (_ & _ & ?)%Hss|]. intros [id Hid]. by destruct (Hpe _ _ Hid).
  - intros h. split; [by intros (_ & _ & ?)%Hss|]. intros [id Hid]. by destruct (Hre _ _ Hid).
  - done.
  - intros t ev sc' id h Hs. destruct (Hreq t ev sc' _ Hi Hb Hr Hs) as (? & _ & ? & _ & ?). done.
  - intros h id [Hp|Hp]; [by destruct (Hpe _ _ Hp)|by destruct (Hre _ _ Hp)].
Qed.

(** Scheduling makes progress.  In every run, while the sync has not timed out, if some
    height is still to be requested and a ready peer covers the lowest such height, the
    next scheduling tick requests it. *)
Theorem scheduling_progresses st now steps sy t at_time h id p :
  0 < init_height st -> init_height st + len steps + 12 <= MaxInt64 ->
  sync_run (newReactor st now) steps = Val sy ->
  let sc := sy_scheduler sy in
  clip64 (t - sc_lastAdvance sc) <= sc_syncTimeout sc ->
  sc_blockStates sc !! h = Some blockStateNew -> (forall k, sc_blockStates sc !! k = Some blockStateNew -> h <= k) ->
  sc_peers sc !! id = Some p -> sp_state p = peerStateReady -> sp_base p <= h <= sp_height p ->
  exists sc' k, scheduler_handle sc t (rTrySchedule at_time) = Val (sc', scBlockRequest k h) /\ sc_blockStates sc' !! h = Some blockStatePending.
Proof.
  intros Hi Hb Hr sc Htime Hnew Hlow Hp Hs Hrange. apply reachable_sync_ok in Hr as [Hok _ _ _ _]; [|done..]. fold sc in Hok.
  assert (Hnext : nextHeightToSchedule sc = h).
  { destruct (nextHeight_spec sc Hok) as [[_ Hno]|(_ & Hn & Hle)]; [by apply Hno in Hnew|]. specialize (Hlow _ Hn). specialize (Hle _ Hnew). lia. }
  assert (Hpos : 0 < h) by (destruct (sok_states _ Hok _ _ Hnew) as [? _]; destruct (sok_height _ Hok); lia).
  pose proof (selectPeer_spec sc h Hok) as Hsel. assert (Hin : id ∈ getPeersWithHeight sc h) by (apply getPeersWithHeight_elem; [done|by exists p]).
  simpl. unfold handleTrySchedule. replace (_ >? _) with false by (symmetry; rewrite Z.gtb_ltb; by apply Z.ltb_ge). rewrite Hnext.
  replace (h =? -1) with false by (symmetry; apply Z.eqb_neq; lia).
  destruct (selectPeer sc h) as [k|]; [|rewrite Hsel in Hin; by apply not_elem_of_nil in Hin]. destruct Hsel as [Hk _].
  apply getPeersWithHeight_elem in Hk as (q & Hq & Hqs & Hqb & Hqh); [|done]. unfold markPending.
  assert (Hst : getStateAtHeight sc h = blockStateNew).
  { unfold getStateAtHeight. destruct (sok_states _ Hok _ _ Hnew) as [? _]. destruct (Z.ltb_spec h (sc_height sc)); [lia|]. by rewrite Hnew. }
  rewrite bool_decide_true by done. simpl. rewrite Hq. rewrite bool_decide_true by done. simpl.
  replace (h >? sp_height q) with false by (symmetry; rewrite Z.gtb_ltb; by apply Z.ltb_ge). replace (h <? sp_base q) with false by (symmetry; by apply Z.ltb_ge). simpl.
  eexists _, k. split; [done|]. simpl. by rewrite lookup_insert_eq.
Qed.

Lemma VerifyCommitLight_some cid vals bid h commit : VerifyCommitLight cid vals bid h commit = Val tt ->
  exists vs c, vals = Some vs /\ commit = Some c.
Proof. unfold VerifyCommitLight, verifyBasicValsAndCommit. destruct vals as [vs|], commit as [c|]; [eauto|discriminate..]. Qed.

(** C9: block sync applies only committed blocks, in order.  In every run from a state in
    order (its validator sets reachable and not empty, its parameters valid), the blocks
    saved are at the heights that follow the state's, without gaps.  Each is saved with a
    commit of its hash and its parts, at its height, and the validators that signed it with
    more than two thirds of their power are those of the chain state then in force: the
    state that applying the blocks saved before it, one after the other, has led to, and
    which applying this block turns into the next one, whose validators are the next
    validators of the former.  Heights stay below the largest signed 64-bit integer and a
    commit has at most as many signatures as a 32-bit index can count. *)
Theorem synced_blocks_committed `{!BatchLaws} st now steps sy :
  state_ok st -> 0 <= sm_LastBlockHeight st -> 0 < init_height st -> init_height st + len steps + 12 <= MaxInt64 ->
  sm_LastBlockHeight st + len (pc_saved (sy_processor sy)) <= MaxInt64 ->
  sync_run (newReactor st now) steps = Val sy ->
  let saved := pc_saved (sy_processor sy) in
  synced_from st saved (pc_state (sy_processor sy)) /\
  sm_LastBlockHeight (pc_state (sy_processor sy)) = sm_LastBlockHeight st + len saved /\
  sm_ChainID (pc_state (sy_processor sy)) = sm_ChainID st /\
  forall i b ps commit, saved !! i = Some (b, ps, commit) ->
    h_Height (b_Header b) = sm_LastBlockHeight st + Z.of_nat i + 1 /\
    exists sti sti' vals c hash,
      synced_from st (take i saved) sti /\ applies sti b ps sti' /\ synced_from st (take (S i) saved) sti' /\
      sm_Validators sti = Some vals /\ sm_Validators sti' = sm_NextValidators sti /\
      commit = Some c /\ Block_Hash (Some b) = Val hash /\ MakePartSet b BlockPartSizeBytes = Val ps /\
      (len (c_Signatures c) <= MaxInt32 ->
       c_Height c = h_Height (b_Header b) /\ c_BlockID c = mkBlockID hash (PartSet_Header (Some ps)) /\
       2 * total vals < 3 * signed_power (sm_ChainID st) vals c).
Proof.
  intros Hst Hge Hi Hb Hlen Hr saved. apply reachable_sync_ok in Hr as [_ _ _ _ [_ Hsync _]]; [|done..]. fold saved in Hsync, Hlen. split; [done|].
  pose proof (synced_heights _ _ _ Hsync Hge Hlen) as (Hlast & Hid & Hall). split; [done|]. split; [done|].
  intros i b ps commit Hsaved. destruct (Hall _ _ _ _ Hsaved) as (Hh & sti & sti' & Hsti & (hash & Hhash & Hps & Hv) & Ha & Hsti'). split; [done|].
  destruct (VerifyCommitLight_some _ _ _ _ _ Hv) as (vals & c & Hvals & ->). exists sti, sti', vals, c, hash.
  pose proof (synced_ok _ _ _ Hst Hsti) as Hok. destruct (applies_ok _ _ _ _ Hok Ha) as [_ Hnext]. split_and!; [done..|]. intros Hsigs. rewrite Hvals in Hv.
  assert (Hcid : sm_ChainID sti = sm_ChainID st).
  { apply (synced_heights _ _ _ Hsti Hge). unfold len in *. rewrite length_take. lia. }
  assert (Hwf : wf_set vals) by (destruct (so_current _ Hok) as (? & ? & ? & _); simplify_eq; by apply reachable_invariant).
  rewrite Hcid in Hv. destruct (verified_two_thirds (sm_ChainID st) vals c _ _ Hwf Hsigs (or_intror Hv)) as (-> & -> & Hpower). done.
Qed.

(** A chain whose first block is above height 1 is never synced.  The scheduler starts at
    the initial height of the genesis, but the processor looks for the height after the
    last block, which is 1 when there is none: in every run from such a state no block is
    applied and the state never changes. *)
Theorem initial_height_never_syncs st now steps sy :
  sm_LastBlockHeight st = 0 -> 1 < sm_InitialHeight st -> sm_InitialHeight st + len steps + 12 <= MaxInt64 ->
  sync_run (newReactor st now) steps = Val sy ->
  pc_saved (sy_processor sy) = [] /\ pc_state (sy_processor sy) = st.
Proof.
  intros Hlast Hinit Hb Hr. assert (Hi : init_height st = sm_InitialHeight st) by (unfold init_height; by rewrite Hlast).
  apply reachable_sync_ok in Hr as [_ _ _ _ [_ Hsync Hfrom]]; [|rewrite Hi; lia..]. rewrite Hi in Hfrom.
  assert (Hnil : forall saved st', synced_from st saved st' -> Forall (fun x => sm_InitialHeight st <= h_Height (b_Header x.1.1)) saved -> saved = [] /\ st' = st).
  { intros saved st' Hs. induction Hs as [|saved st1 b ps commit st' Hs IH Hc Hh Ha]; [done|]. intros [Hf Hone]%Forall_app.
    destruct (IH Hf) as [-> ->]. rewrite Hlast in Hh. assert (Hle : sm_InitialHeight st <= h_Height (b_Header b)) by exact (Forall_inv Hone).
    rewrite Hh in Hle. change (int64 (0 + 1)) with 1 in Hle. lia. }
  by apply Hnil.
Qed.
End runs.
