(* ===== verification/Consensus.v ===== *)
(** * internal/consensus/state.go: the consensus state machine of one node

    The round state, and every handler that changes it, as functions in a state
    monad whose computations may panic.  A panic keeps the state reached and the
    deferred calls run, as in Go ([with_defer]).

    - Part sets are shared: [ProposalBlockParts], [LockedBlockParts] and
      [ValidBlockParts] are references into a store, because [AddPart] changes
      the set all of them may point to.
    - What the node does to the outside (timeouts it schedules, messages it sends
      to itself and so to its peers, events, blocks it stores) is appended to a
      log.
    - The clock, the private validator, the stores, the application, the mempool
      and the evidence pool answer through the record [Env]; each call takes the
      number of the call, so two calls may get different answers.
    - Metrics, logging, replay mode and the delays of [FuDelay] are left out:
      they do not influence the transitions.  The validator set memoizes its
      proposer in the round state only. *)
From Stdlib Require Import ZArith Lia Strings.Byte.
From stdpp Require Import base list strings gmap.
From S2P Require Import Prelude.
From S2P Require Import SafeMath.
From S2P Require Import Merkle.
From S2P Require Import Validator.
From S2P Require Import Types.
From S2P Require Import Validation.
From S2P Require Import VoteSet.
From S2P Require Import HeightVoteSet.
From S2P Require Import PartSet.
From S2P Require Import Header.
From S2P Require Import Block.
From S2P Require Import ChainState.

(** ** Steps, messages and timeouts *)

Definition RoundStepNewHeight : Z := 1.
Definition RoundStepNewRound : Z := 2.
Definition RoundStepPropose : Z := 3.
Definition RoundStepPrevote : Z := 4.
Definition RoundStepPrevoteWait : Z := 5.
Definition RoundStepPrecommit : Z := 6.
Definition RoundStepPrecommitWait : Z := 7.
Definition RoundStepCommit : Z := 8.

Definition RoundStep_IsValid (rs : Z) : bool := (1 <=? rs) && (rs <=? 8).

(** The parts of a block message may be nil for the node's own messages. *)
Inductive Message :=
  | ProposalMessage (proposal : Proposal)
  | BlockPartMessage (height round : Z) (part : option Part)
  | VoteMessage (vote : Vote).

(** An empty peer ID marks the node's own messages. *)
Record msgInfo := mkMsgInfo { mi_Msg : Message; mi_PeerID : bytes }.
Record timeoutInfo := mkTimeoutInfo { ti_Duration : Z; ti_Height : Z; ti_Round : Z; ti_Step : Z }.

(** ** Configuration *)

Record ConsensusConfig := mkConsensusConfig {
  TimeoutPropose : Z; TimeoutProposeDelta : Z;
  TimeoutPrevote : Z; TimeoutPrevoteDelta : Z;
  TimeoutPrecommit : Z; TimeoutPrecommitDelta : Z;
  TimeoutCommit : Z;
  SkipTimeoutCommit : bool;
  CreateEmptyBlocks : bool;
  CreateEmptyBlocksInterval : Z
}.
Definition WaitForTxs (cfg : ConsensusConfig) : bool := negb (CreateEmptyBlocks cfg) || (CreateEmptyBlocksInterval cfg >? 0).
Definition Config_Propose (cfg : ConsensusConfig) (round : Z) : Z :=
  int64 (TimeoutPropose cfg + int64 (TimeoutProposeDelta cfg * round)).
Definition Config_Prevote (cfg : ConsensusConfig) (round : Z) : Z :=
  int64 (TimeoutPrevote cfg + int64 (TimeoutPrevoteDelta cfg * round)).
Definition Config_Precommit (cfg : ConsensusConfig) (round : Z) : Z :=
  int64 (TimeoutPrecommit cfg + int64 (TimeoutPrecommitDelta cfg * round)).
Definition Config_Commit (cfg : ConsensusConfig) (t : Time) : Time := t + TimeoutCommit cfg.

(** [Time.Sub] saturates at the bounds of a duration. *)
Definition time_Sub (t u : Time) : Z := Z.max MinInt64 (Z.min MaxInt64 (t - u)).

Section consensus.
Context `{!Crypto, !BatchCrypto, !Sha256, !TimeCodec, !WrapperCodec, !EvidenceOps, !BlockCodec}.

(** ** The round state *)

Record RoundState := mkRoundState {
  rs_Height : Z;
  rs_Round : Z;
  rs_Step : Z;
  rs_StartTime : Time;
  rs_CommitTime : Time;
  rs_Validators : option ValidatorSet;
  rs_Proposal : option Proposal;
  rs_ProposalBlock : option Block;
  rs_ProposalBlockParts : option nat;
  rs_LockedRound : Z;
  rs_LockedBlock : option Block;
  rs_LockedBlockParts : option nat;
  rs_ValidRound : Z;
  rs_ValidBlock : option Block;
  rs_ValidBlockParts : option nat;
  rs_Votes : option HeightVoteSet;
  rs_CommitRound : Z;
  rs_LastCommit : option VoteSet;
  rs_LastValidators : option ValidatorSet;
  rs_TriggeredTimeoutPrecommit : bool
}.

(** Field updates. *)
Definition set_RoundStep (round step : Z) (rs : RoundState) : RoundState :=
  mkRoundState (rs_Height rs) round step (rs_StartTime rs) (rs_CommitTime rs) (rs_Validators rs) (rs_Proposal rs)
    (rs_ProposalBlock rs) (rs_ProposalBlockParts rs) (rs_LockedRound rs) (rs_LockedBlock rs) (rs_LockedBlockParts rs)
    (rs_ValidRound rs) (rs_ValidBlock rs) (rs_ValidBlockParts rs) (rs_Votes rs) (rs_CommitRound rs) (rs_LastCommit rs)
    (rs_LastValidators rs) (rs_TriggeredTimeoutPrecommit rs).
Definition set_CommitRound (round : Z) (time : Time) (rs : RoundState) : RoundState :=
  mkRoundState (rs_Height rs) (rs_Round rs) (rs_Step rs) (rs_StartTime rs) time (rs_Validators rs) (rs_Proposal rs)
    (rs_ProposalBlock rs) (rs_ProposalBlockParts rs) (rs_LockedRound rs) (rs_LockedBlock rs) (rs_LockedBlockParts rs)
    (rs_ValidRound rs) (rs_ValidBlock rs) (rs_ValidBlockParts rs) (rs_Votes rs) round (rs_LastCommit rs)
    (rs_LastValidators rs) (rs_TriggeredTimeoutPrecommit rs).
Definition set_Validators (v : option ValidatorSet) (rs : RoundState) : RoundState :=
  mkRoundState (rs_Height rs) (rs_Round rs) (rs_Step rs) (rs_StartTime rs) (rs_CommitTime rs) v (rs_Proposal rs)
    (rs_ProposalBlock rs) (rs_ProposalBlockParts rs) (rs_LockedRound rs) (rs_LockedBlock rs) (rs_LockedBlockParts rs)
    (rs_ValidRound rs) (rs_ValidBlock rs) (rs_ValidBlockParts rs) (rs_Votes rs) (rs_CommitRound rs) (rs_LastCommit rs)
    (rs_LastValidators rs) (rs_TriggeredTimeoutPrecommit rs).
Definition set_Proposal (p : option Proposal) (rs : RoundState) : RoundState :=
  mkRoundState (rs_Height rs) (rs_Round rs) (rs_Step rs) (rs_StartTime rs) (rs_CommitTime rs) (rs_Validators rs) p
    (rs_ProposalBlock rs) (rs_ProposalBlockParts rs) (rs_LockedRound rs) (rs_LockedBlock rs) (rs_LockedBlockParts rs)
    (rs_ValidRound rs) (rs_ValidBlock rs) (rs_ValidBlockParts rs) (rs_Votes rs) (rs_CommitRound rs) (rs_LastCommit rs)
    (rs_LastValidators rs) (rs_TriggeredTimeoutPrecommit rs).
Definition set_ProposalBlock (b : option Block) (rs : RoundState) : RoundState :=
  mkRoundState (rs_Height rs) (rs_Round rs) (rs_Step rs) (rs_StartTime rs) (rs_CommitTime rs) (rs_Validators rs)
    (rs_Proposal rs) b (rs_ProposalBlockParts rs) (rs_LockedRound rs) (rs_LockedBlock rs) (rs_LockedBlockParts rs)
    (rs_ValidRound rs) (rs_ValidBlock rs) (rs_ValidBlockParts rs) (rs_Votes rs) (rs_CommitRound rs) (rs_LastCommit rs)
    (rs_LastValidators rs) (rs_TriggeredTimeoutPrecommit rs).
Definition set_ProposalBlockParts (p : option nat) (rs : RoundState) : RoundState :=
  mkRoundState (rs_Height rs) (rs_Round rs) (rs_Step rs) (rs_StartTime rs) (rs_CommitTime rs) (rs_Validators rs)
    (rs_Proposal rs) (rs_ProposalBlock rs) p (rs_LockedRound rs) (rs_LockedBlock rs) (rs_LockedBlockParts rs)
    (rs_ValidRound rs) (rs_ValidBlock rs) (rs_ValidBlockParts rs) (rs_Votes rs) (rs_CommitRound rs) (rs_LastCommit rs)
    (rs_LastValidators rs) (rs_TriggeredTimeoutPrecommit rs).
Definition set_Locked (round : Z) (b : option Block) (p : option nat) (rs : RoundState) : RoundState :=
  mkRoundState (rs_Height rs) (rs_Round rs) (rs_Step rs) (rs_StartTime rs) (rs_CommitTime rs) (rs_Validators rs)
    (rs_Proposal rs) (rs_ProposalBlock rs) (rs_ProposalBlockParts rs) round b p (rs_ValidRound rs) (rs_ValidBlock rs)
    (rs_ValidBlockParts rs) (rs_Votes rs) (rs_CommitRound rs) (rs_LastCommit rs) (rs_LastValidators rs)
    (rs_TriggeredTimeoutPrecommit rs).
Definition set_Valid (round : Z) (b : option Block) (p : option nat) (rs : RoundState) : RoundState :=
  mkRoundState (rs_Height rs) (rs_Round rs) (rs_Step rs) (rs_StartTime rs) (rs_CommitTime rs) (rs_Validators rs)
    (rs_Proposal rs) (rs_ProposalBlock rs) (rs_ProposalBlockParts rs) (rs_LockedRound rs) (rs_LockedBlock rs)
    (rs_LockedBlockParts rs) round b p (rs_Votes rs) (rs_CommitRound rs) (rs_LastCommit rs) (rs_LastValidators rs)
    (rs_TriggeredTimeoutPrecommit rs).
Definition set_Votes (v : option HeightVoteSet) (rs : RoundState) : RoundState :=
  mkRoundState (rs_Height rs) (rs_Round rs) (rs_Step rs) (rs_StartTime rs) (rs_CommitTime rs) (rs_Validators rs)
    (rs_Proposal rs) (rs_ProposalBlock rs) (rs_ProposalBlockParts rs) (rs_LockedRound rs) (rs_LockedBlock rs)
    (rs_LockedBlockParts rs) (rs_ValidRound rs) (rs_ValidBlock rs) (rs_ValidBlockParts rs) v (rs_CommitRound rs)
    (rs_LastCommit rs) (rs_LastValidators rs) (rs_TriggeredTimeoutPrecommit rs).
Definition set_LastCommit (v : option VoteSet) (rs : RoundState) : RoundState :=
  mkRoundState (rs_Height rs) (rs_Round rs) (rs_Step rs) (rs_StartTime rs) (rs_CommitTime rs) (rs_Validators rs)
    (rs_Proposal rs) (rs_ProposalBlock rs) (rs_ProposalBlockParts rs) (rs_LockedRound rs) (rs_LockedBlock rs)
    (rs_LockedBlockParts rs) (rs_ValidRound rs) (rs_ValidBlock rs) (rs_ValidBlockParts rs) (rs_Votes rs)
    (rs_CommitRound rs) v (rs_LastValidators rs) (rs_TriggeredTimeoutPrecommit rs).
Definition set_Triggered (b : bool) (rs : RoundState) : RoundState :=
  mkRoundState (rs_Height rs) (rs_Round rs) (rs_Step rs) (rs_StartTime rs) (rs_CommitTime rs) (rs_Validators rs)
    (rs_Proposal rs) (rs_ProposalBlock rs) (rs_ProposalBlockParts rs) (rs_LockedRound rs) (rs_LockedBlock rs)
    (rs_LockedBlockParts rs) (rs_ValidRound rs) (rs_ValidBlock rs) (rs_ValidBlockParts rs) (rs_Votes rs)
    (rs_CommitRound rs) (rs_LastCommit rs) (rs_LastValidators rs) b.

(** The zero value. *)
Definition empty_RoundState : RoundState :=
  mkRoundState 0 0 0 zero_time zero_time None None None None 0 None None 0 None None None 0 None None false.

(** ** The node *)

(** What the node does to the outside. *)
Inductive Action :=
  | ScheduleTimeout (ti : timeoutInfo)
  | SendInternal (msg : Message)
  | NewRoundStep (height round step : Z)
  | FireValidBlock (height round : Z)
  | FireVote (vote : Vote)
  | SendStats (mi : msgInfo)
  | ReportConflictingVotes (voteA voteB : Vote)
  | SaveBlock (block : Block) (parts : option PartSet) (seenCommit : Commit)
  | WriteEndHeight (height : Z).

Record ConsensusState := mkConsensusState {
  cst_rs : RoundState;
  cst_state : State;
  cst_pubKey : option PubKey;
  cst_cache : ValidCache;
  cst_parts : list PartSet;
  cst_calls : nat;
  cst_log : list Action
}.

(** The environment: the answer to the call with the given number. *)
Record Env := mkEnv {
  env_Now : nat -> Time;
  env_WalOk : nat -> bool;
  env_PublishOk : nat -> bool;
  env_FileOk : nat -> bool;
  env_HasPrivValidator : bool;
  env_GetPubKey : nat -> option PubKey;
  env_SignVote : nat -> ChainID -> Vote -> option (bytes * Time);
  env_SignProposal : nat -> ChainID -> Proposal -> option bytes;
  env_CheckEvidence : nat -> list Evidence -> bool;
  env_Execute : nat -> Execution;
  env_PendingEvidence : nat -> Z -> list Evidence * Z;
  env_Reap : nat -> Z -> Z -> list Tx;
  env_StoreHeight : nat -> Z;
  env_LoadAppHash : nat -> Z -> option bytes;
  env_LoadSeenCommit : nat -> option Commit;
  env_LoadBlockCommit : nat -> Z -> option Commit
}.

Definition upd_rs (f : RoundState -> RoundState) (s : ConsensusState) : ConsensusState :=
  mkConsensusState (f (cst_rs s)) (cst_state s) (cst_pubKey s) (cst_cache s) (cst_parts s) (cst_calls s) (cst_log s).
Definition upd_state (st : State) (s : ConsensusState) : ConsensusState :=
  mkConsensusState (cst_rs s) st (cst_pubKey s) (cst_cache s) (cst_parts s) (cst_calls s) (cst_log s).
Definition upd_pubKey (pk : option PubKey) (s : ConsensusState) : ConsensusState :=
  mkConsensusState (cst_rs s) (cst_state s) pk (cst_cache s) (cst_parts s) (cst_calls s) (cst_log s).
Definition upd_cache (c : ValidCache) (s : ConsensusState) : ConsensusState :=
  mkConsensusState (cst_rs s) (cst_state s) (cst_pubKey s) c (cst_parts s) (cst_calls s) (cst_log s).
Definition upd_parts (ps : list PartSet) (s : ConsensusState) : ConsensusState :=
  mkConsensusState (cst_rs s) (cst_state s) (cst_pubKey s) (cst_cache s) ps (cst_calls s) (cst_log s).
Definition upd_calls (n : nat) (s : ConsensusState) : ConsensusState :=
  mkConsensusState (cst_rs s) (cst_state s) (cst_pubKey s) (cst_cache s) (cst_parts s) n (cst_log s).
Definition upd_log (a : Action) (s : ConsensusState) : ConsensusState :=
  mkConsensusState (cst_rs s) (cst_state s) (cst_pubKey s) (cst_cache s) (cst_parts s) (cst_calls s) (cst_log s ++ [a]).

(** ** The monad *)

Definition M (A : Type) : Type := ConsensusState -> ConsensusState * go A.

#[local] Instance M_ret : MRet M := fun _ a s => (s, Val a).
#[local] Instance M_bind : MBind M := fun _ _ k m s =>
  match m s with
  | (s', Val a) => k a s'
  | (s', Fail e) => match e with end
  | (s', Panic w) => (s', Panic w)
  end.

Definition get : M ConsensusState := fun s => (s, Val s).
Definition get_rs : M RoundState := fun s => (s, Val (cst_rs s)).
Definition modify (f : ConsensusState -> ConsensusState) : M unit := fun s => (f s, Val tt).
Definition modify_rs (f : RoundState -> RoundState) : M unit := modify (upd_rs f).
Definition call {A} (m : go A) : M A := fun s => (s, m).
Definition emit (a : Action) : M unit := modify (upd_log a).
Definition tick : M nat := fun s => (upd_calls (S (cst_calls s)) s, Val (cst_calls s)).
Definition nil_deref {A} (p : option A) : M A := call (deref p).

(** [defer]: the deferred call runs whether or not the body panics. *)
Definition with_defer (body deferred : M unit) : M unit := fun s =>
  let '(s1, r1) := body s in
  let '(s2, r2) := deferred s1 in
  (s2, match r2 with Panic w => Panic w | _ => r1 end).

Definition when (b : bool) (m : M unit) : M unit := if b then m else mret tt.

Context (cfg : ConsensusConfig) (env : Env).

Definition ask {A} (f : nat -> A) : M A := n ← tick; mret (f n).

(** ** Access to shared objects *)

Definition votes : M HeightVoteSet := rs ← get_rs; nil_deref (rs_Votes rs).
Definition validators : M ValidatorSet := rs ← get_rs; nil_deref (rs_Validators rs).

(** The part set behind a reference that may be nil. *)
Definition load_parts (ref : option nat) : M (option PartSet) :=
  match ref with
  | None => mret None
  | Some r => s ← get; ps ← nil_deref (cst_parts s !! r); mret (Some ps)
  end.
(** [types.NewPartSetFromHeader]. *)
Definition new_parts (header : PartSetHeader) : M nat :=
  s ← get;
  _ ← modify (upd_parts (cst_parts s ++ [NewPartSetFromHeader header]));
  mret (length (cst_parts s)).

(** Methods of [*VoteSet] that accept nil. *)
Definition maj23 (vs : option VoteSet) : BlockID * bool :=
  match vs with Some vs => TwoThirdsMajority vs | None => (nilBlockID, false) end.
Definition has_maj23 (vs : option VoteSet) : bool := match vs with Some vs => HasTwoThirdsMajority vs | None => false end.
Definition has_any (vs : option VoteSet) : go bool := match vs with Some vs => HasTwoThirdsAny vs | None => Val false end.
Definition has_all (vs : option VoteSet) : go bool := match vs with Some vs => HasAll vs | None => Val false end.

Definition prevotes_of (round : Z) : M (option VoteSet) := hvs ← votes; call (Prevotes hvs round).
Definition precommits_of (round : Z) : M (option VoteSet) := hvs ← votes; call (Precommits hvs round).

(** [cs.Validators.GetProposer()], which memoizes the proposer. *)
Definition proposer : M Validator :=
  vals ← validators;
  '(p, vals) ← call (GetProposer vals);
  _ ← modify_rs (set_Validators (Some vals));
  nil_deref p.

(** ** Small steps *)

Definition updateRoundStep (round step : Z) : M unit := modify_rs (set_RoundStep round step).
Definition newStep : M unit := rs ← get_rs; emit (NewRoundStep (rs_Height rs) (rs_Round rs) (rs_Step rs)).
Definition scheduleTimeout (duration height round step : Z) : M unit :=
  emit (ScheduleTimeout (mkTimeoutInfo duration height round step)).
Definition scheduleRound0 : M unit :=
  now ← ask (env_Now env);
  rs ← get_rs;
  scheduleTimeout (time_Sub (rs_StartTime rs) now) (rs_Height rs) 0 RoundStepNewHeight.
Definition sendInternalMessage (msg : Message) : M unit := emit (SendInternal msg).

(** ** Entering a height *)

(** [NewState]: rebuild the last commit from the stored one. *)
Definition reconstructLastCommit (state : State) : M unit :=
  seen ← ask (env_LoadSeenCommit env);
  commit ← (match seen with
            | Some c => if c_Height c =? sm_LastBlockHeight state then mret seen
                        else ask (fun n => env_LoadBlockCommit env n (sm_LastBlockHeight state))
            | None => ask (fun n => env_LoadBlockCommit env n (sm_LastBlockHeight state))
            end);
  match commit with
  | None => call (Panic "failed to reconstruct last commit; commit not found")
  | Some commit =>
      lv ← nil_deref (sm_LastValidators state);
      lastPrecommits ← call (CommitToVoteSet (sm_ChainID state) commit lv);
      _ ← call (panic_if (negb (HasTwoThirdsMajority lastPrecommits)) "failed to reconstruct last commit; does not have +2/3 maj");
      modify_rs (set_LastCommit (Some lastPrecommits))
  end.

(** The round state at the start of a height, before the new vote sets are made. *)
Definition reset_round (height : Z) (startTime : Time) (validators : option ValidatorSet) (rs : RoundState) : RoundState :=
  mkRoundState height 0 RoundStepNewHeight startTime (rs_CommitTime rs) validators None None None (-1) None None (-1) None None
    (rs_Votes rs) (rs_CommitRound rs) (rs_LastCommit rs) (rs_LastValidators rs) (rs_TriggeredTimeoutPrecommit rs).
Definition reset_votes (hvs : HeightVoteSet) (lastValidators : option ValidatorSet) (rs : RoundState) : RoundState :=
  mkRoundState (rs_Height rs) (rs_Round rs) (rs_Step rs) (rs_StartTime rs) (rs_CommitTime rs) (rs_Validators rs) (rs_Proposal rs)
    (rs_ProposalBlock rs) (rs_ProposalBlockParts rs) (rs_LockedRound rs) (rs_LockedBlock rs) (rs_LockedBlockParts rs)
    (rs_ValidRound rs) (rs_ValidBlock rs) (rs_ValidBlockParts rs) (Some hvs) (-1) (rs_LastCommit rs) lastValidators false.

(** The [switch] of [updateToState] that settles [LastCommit]. *)
Definition update_last_commit (state : State) : M unit :=
  rs ← get_rs;
  if sm_LastBlockHeight state =? 0 then modify_rs (set_LastCommit None)
  else
    match (if rs_CommitRound rs >? -1 then rs_Votes rs else None) with
    | Some hvs =>
        precommits ← call (Precommits hvs (rs_CommitRound rs));
        _ ← call (panic_if (negb (has_maj23 precommits)) "wanted to form a commit, but precommits didn't have 2/3+");
        modify_rs (set_LastCommit precommits)
    | None =>
        call (panic_if (match rs_LastCommit rs with None => true | Some _ => false end)
                "last commit cannot be empty after initial block")
    end.

Definition updateToState (state : State) : M unit :=
  rs ← get_rs;
  _ ← call (panic_if ((rs_CommitRound rs >? -1) && (0 <? rs_Height rs) && negb (rs_Height rs =? sm_LastBlockHeight state))
              "updateToState() expected another state height");
  s ← get;
  let cur := cst_state s in
  _ ← call (panic_if (negb (IsEmpty cur) && (sm_LastBlockHeight cur >? 0) && negb (int64 (sm_LastBlockHeight cur + 1) =? rs_Height rs))
              "inconsistent cs.state.LastBlockHeight+1 vs cs.Height");
  _ ← call (panic_if (negb (IsEmpty cur) && (sm_LastBlockHeight cur >? 0) && (rs_Height rs =? sm_InitialHeight cur))
              "inconsistent cs.state.LastBlockHeight, expected 0 for initial height");
  if negb (IsEmpty cur) && (sm_LastBlockHeight state <=? sm_LastBlockHeight cur) then newStep
  else
    _ ← update_last_commit state;
    let height := int64 (sm_LastBlockHeight state + 1) in
    let height := if height =? 1 then sm_InitialHeight state else height in
    startTime ← (if rs_CommitTime rs =? zero_time then now ← ask (env_Now env); mret (Config_Commit cfg now)
                 else mret (Config_Commit cfg (rs_CommitTime rs)));
    _ ← modify_rs (reset_round height startTime (sm_Validators state));
    vals ← nil_deref (sm_Validators state);
    hvs ← call (NewHeightVoteSet (sm_ChainID state) height vals);
    _ ← modify_rs (reset_votes hvs (sm_LastValidators state));
    _ ← modify (upd_state state);
    newStep.

(** The state [NewState] builds for a chain state. *)
Definition NewState (state : State) : M unit :=
  _ ← when (sm_LastBlockHeight state >? 0) (reconstructLastCommit state);
  updateToState state.

(** ** Signing *)

(** [voteTime]: not before the block voted on. *)
Definition voteTime : M Time :=
  now ← ask (env_Now env);
  rs ← get_rs;
  let timeIota := 1000000 in
  let minVoteTime := match rs_LockedBlock rs with
                     | Some b => h_Time (b_Header b) + timeIota
                     | None => match rs_ProposalBlock rs with Some b => h_Time (b_Header b) + timeIota | None => now end
                     end in
  mret (if now >? minVoteTime then now else minVoteTime).

(** [signVote]: [None] when an error is returned. *)
Definition State_signVote (msgType : Z) (hash : bytes) (header : PartSetHeader) : M (option Vote) :=
  ok ← ask (env_WalOk env);
  if negb ok then mret None
  else
    s ← get;
    match cst_pubKey s with
    | None => mret None
    | Some pk =>
        let addr := pk_Address pk in
        vals ← validators;
        let valIdx := (GetByAddress vals addr).1 in
        time ← voteTime;
        rs ← get_rs;
        let vote := mkVote msgType (rs_Height rs) (rs_Round rs) (mkBlockID hash header) time addr valIdx [] in
        signed ← ask (fun n => env_SignVote env n (sm_ChainID (cst_state s)) vote);
        mret (match signed with
              | Some (sig, ts) => Some (mkVote msgType (rs_Height rs) (rs_Round rs) (mkBlockID hash header) ts addr valIdx sig)
              | None => None
              end)
    end.

Definition signAddVote (msgType : Z) (hash : bytes) (header : PartSetHeader) : M unit :=
  if negb (env_HasPrivValidator env) then mret tt
  else
    s ← get;
    match cst_pubKey s with
    | None => mret tt
    | Some pk =>
        vals ← validators;
        if negb (HasAddress vals (pk_Address pk)) then mret tt
        else
          vote ← State_signVote msgType hash header;
          match vote with
          | Some vote => sendInternalMessage (VoteMessage vote)
          | None => mret tt
          end
    end.

Definition no_header : PartSetHeader := mkPartSetHeader 0 [].

(** [updatePrivValidatorPubKey]; an error leaves the key unchanged. *)
Definition updatePrivValidatorPubKey : M unit :=
  if negb (env_HasPrivValidator env) then mret tt
  else
    pk ← ask (env_GetPubKey env);
    match pk with None => mret tt | Some pk => modify (upd_pubKey (Some pk)) end.

(** [blockExec.ValidateBlock]: whether the block is valid. *)
Definition validate (block : Block) : M bool :=
  n ← tick;
  s ← get;
  '(cache, err) ← call (ValidateBlock (cst_cache s) (env_CheckEvidence env n) (cst_state s) block);
  _ ← modify (upd_cache cache);
  mret (match err with None => true | Some _ => false end).

(** ** Prevote *)

(** The guard of the steps: another height, an earlier round, or a step already taken. *)
Definition step_passed (rs : RoundState) (height round step : Z) : bool :=
  negb (rs_Height rs =? height) || (round <? rs_Round rs) || ((rs_Round rs =? round) && (step <=? rs_Step rs)).

Definition defaultDoPrevote (height round : Z) : M unit :=
  rs ← get_rs;
  match rs_LockedBlock rs with
  | Some b =>
      hash ← call (Block_Hash (Some b));
      parts ← load_parts (rs_LockedBlockParts rs);
      signAddVote PrevoteType hash (PartSet_Header parts)
  | None =>
      match rs_ProposalBlock rs with
      | None => signAddVote PrevoteType [] no_header
      | Some b =>
          valid ← validate b;
          if negb valid then signAddVote PrevoteType [] no_header
          else
            hash ← call (Block_Hash (Some b));
            parts ← load_parts (rs_ProposalBlockParts rs);
            signAddVote PrevoteType hash (PartSet_Header parts)
      end
  end.

Definition enterPrevote (height round : Z) : M unit :=
  rs ← get_rs;
  if step_passed rs height round RoundStepPrevote then mret tt
  else
    with_defer (defaultDoPrevote height round)
      (_ ← updateRoundStep round RoundStepPrevote; newStep).

Definition enterPrevoteWait (height round : Z) : M unit :=
  rs ← get_rs;
  if step_passed rs height round RoundStepPrevoteWait then mret tt
  else
    prevotes ← prevotes_of round;
    any ← call (has_any prevotes);
    _ ← call (panic_if (negb any) "entering prevote wait step, but prevotes does not have any +2/3 votes");
    with_defer (scheduleTimeout (Config_Prevote cfg round) height round RoundStepPrevoteWait)
      (_ ← updateRoundStep round RoundStepPrevoteWait; newStep).

(** ** Precommit *)

(** A polka for a block that is neither locked nor proposed: unlock, and prepare to receive it. *)
Definition unlock_for (blockID : BlockID) : M unit :=
  _ ← modify_rs (set_Locked (-1) None None);
  rs ← get_rs;
  parts ← load_parts (rs_ProposalBlockParts rs);
  _ ← when (negb (HasHeader parts (bid_PartSetHeader blockID)))
        (_ ← modify_rs (set_ProposalBlock None);
         ref ← new_parts (bid_PartSetHeader blockID);
         modify_rs (set_ProposalBlockParts (Some ref)));
  signAddVote PrecommitType [] no_header.

(** The body of [enterPrecommit] once the prevotes have a majority for a block. *)
Definition precommit_block (round : Z) (blockID : BlockID) : M unit :=
  rs ← get_rs;
  locked ← call (Block_HashesTo (rs_LockedBlock rs) (bid_Hash blockID));
  if (locked : bool) then
    _ ← modify_rs (set_Locked round (rs_LockedBlock rs) (rs_LockedBlockParts rs));
    signAddVote PrecommitType (bid_Hash blockID) (bid_PartSetHeader blockID)
  else
    proposed ← call (Block_HashesTo (rs_ProposalBlock rs) (bid_Hash blockID));
    if (proposed : bool) then
      b ← nil_deref (rs_ProposalBlock rs);
      valid ← validate b;
      _ ← call (panic_if (negb valid) "precommit step; +2/3 prevoted for an invalid block");
      _ ← modify_rs (set_Locked round (rs_ProposalBlock rs) (rs_ProposalBlockParts rs));
      signAddVote PrecommitType (bid_Hash blockID) (bid_PartSetHeader blockID)
    else unlock_for blockID.

Definition do_precommit (round : Z) : M unit :=
  prevotes ← prevotes_of round;
  let '(blockID, ok) := maj23 prevotes in
  if negb ok then signAddVote PrecommitType [] no_header
  else
    hvs ← votes;
    '(polRound, _) ← call (POLInfo hvs);
    _ ← call (panic_if (polRound <? round) "this POLRound should be the round");
    if len (bid_Hash blockID) =? 0 then
      rs ← get_rs;
      _ ← when (match rs_LockedBlock rs with Some _ => true | None => false end) (modify_rs (set_Locked (-1) None None));
      signAddVote PrecommitType [] no_header
    else precommit_block round blockID.

Definition enterPrecommit (height round : Z) : M unit :=
  rs ← get_rs;
  if step_passed rs height round RoundStepPrecommit then mret tt
  else
    with_defer (do_precommit round)
      (_ ← updateRoundStep round RoundStepPrecommit; newStep).

Definition enterPrecommitWait (height round : Z) : M unit :=
  rs ← get_rs;
  if negb (rs_Height rs =? height) || (round <? rs_Round rs) || ((rs_Round rs =? round) && rs_TriggeredTimeoutPrecommit rs) then mret tt
  else
    precommits ← precommits_of round;
    any ← call (has_any precommits);
    _ ← call (panic_if (negb any) "entering precommit wait step, but precommits does not have any +2/3 votes");
    with_defer (scheduleTimeout (Config_Precommit cfg round) height round RoundStepPrecommitWait)
      (_ ← modify_rs (set_Triggered true); newStep).

(** ** Propose *)

(** Whether the proposal and its block are there, with the polka it names. *)
Definition isProposalComplete : M bool :=
  rs ← get_rs;
  match rs_Proposal rs, rs_ProposalBlock rs with
  | Some p, Some _ =>
      if p_POLRound p <? 0 then mret true
      else prevotes ← prevotes_of (p_POLRound p); mret (has_maj23 prevotes)
  | _, _ => mret false
  end.

(** [createProposalBlock]: [None] is the nil block. *)
Definition createProposalBlock : M (option (Block * PartSet)) :=
  _ ← call (panic_if (negb (env_HasPrivValidator env)) "entered createProposalBlock with privValidator being nil");
  s ← get;
  let rs := cst_rs s in
  commit ← (if rs_Height rs =? sm_InitialHeight (cst_state s) then mret (Some (mkCommit 0 0 nilBlockID []))
            else match rs_LastCommit rs with
                 | Some lc => if HasTwoThirdsMajority lc then c ← call (MakeCommit lc); mret (Some c) else mret None
                 | None => mret None
                 end);
  match commit, cst_pubKey s with
  | Some commit, Some pk =>
      n ← tick;
      b ← call (CreateProposalBlock (env_PendingEvidence env n) (env_Reap env n) (rs_Height rs) (cst_state s) commit (pk_Address pk));
      mret (Some b)
  | _, _ => mret None
  end.

(** [for i := 0; i < total; i++]: [n] parts from index [i] on. *)
Fixpoint send_parts (n : nat) (i : Z) (parts : PartSet) : M unit :=
  match n with
  | O => mret tt
  | S n' =>
      part ← call (GetPart parts i);
      rs ← get_rs;
      _ ← sendInternalMessage (BlockPartMessage (rs_Height rs) (rs_Round rs) part);
      send_parts n' (i + 1) parts
  end.

(** Sign the proposal for a block and send it with the parts. *)
Definition propose_block (height round : Z) (block : Block) (blockParts : option PartSet) : M unit :=
  hash ← call (Block_Hash (Some block));
  now ← ask (env_Now env);
  s ← get;
  let propBlockID := mkBlockID hash (PartSet_Header blockParts) in
  let proposal := mkProposal ProposalType height round (rs_ValidRound (cst_rs s)) propBlockID now [] in
  signed ← ask (fun n => env_SignProposal env n (sm_ChainID (cst_state s)) proposal);
  match signed with
  | None => mret tt
  | Some sig =>
      _ ← sendInternalMessage (ProposalMessage
            (mkProposal ProposalType height round (rs_ValidRound (cst_rs s)) propBlockID now sig));
      match blockParts with
      | Some ps => send_parts (Z.to_nat (ps_total ps)) 0 ps
      | None => mret tt
      end
  end.

Definition defaultDecideProposal (height round : Z) : M unit :=
  rs ← get_rs;
  match rs_ValidBlock rs with
  | Some b => parts ← load_parts (rs_ValidBlockParts rs); propose_block height round b parts
  | None =>
      created ← createProposalBlock;
      match created with
      | Some (b, ps) => propose_block height round b (Some ps)
      | None => mret tt
      end
  end.

Definition isProposer (address : bytes) : M bool := p ← proposer; mret (bytes_equal (Address p) address).

(** The body of [enterPropose]: propose when it is the node's turn. *)
Definition do_propose (height round : Z) : M unit :=
  _ ← scheduleTimeout (Config_Propose cfg round) height round RoundStepPropose;
  s ← get;
  match (if env_HasPrivValidator env then cst_pubKey s else None) with
  | None => mret tt
  | Some pk =>
      vals ← validators;
      if negb (HasAddress vals (pk_Address pk)) then mret tt
      else
        mine ← isProposer (pk_Address pk);
        if (mine : bool) then defaultDecideProposal height round else mret tt
  end.

Definition enterPropose (height round : Z) : M unit :=
  rs ← get_rs;
  if step_passed rs height round RoundStepPropose then mret tt
  else
    with_defer (do_propose height round)
      (_ ← updateRoundStep round RoundStepPropose;
       _ ← newStep;
       complete ← isProposalComplete;
       rs ← get_rs;
       when complete (enterPrevote height (rs_Round rs))).

(** ** New round *)

Definition needProofBlock (height : Z) : M bool :=
  s ← get;
  if height =? sm_InitialHeight (cst_state s) then mret true
  else
    appHash ← ask (fun n => env_LoadAppHash env n (int64 (height - 1)));
    match appHash with
    | None => call (Panic "needProofBlock: last block meta not found")
    | Some h => mret (negb (bytes_equal (sm_AppHash (cst_state s)) h))
    end.

(** Move the proposer priorities on when rounds were skipped. *)
Definition advance_validators (round : Z) : M unit :=
  rs ← get_rs;
  when (rs_Round rs <? round)
    (vals ← validators;
     times ← call (SafeSubInt32 round (rs_Round rs));
     vals ← call (IncrementProposerPriority vals times);
     modify_rs (set_Validators (Some vals))).

(** The proposal of the previous round is dropped. *)
Definition reset_proposal (rs : RoundState) : RoundState :=
  set_ProposalBlockParts None (set_ProposalBlock None (set_Proposal None rs)).

Definition enterNewRound (height round : Z) : M unit :=
  rs ← get_rs;
  if negb (rs_Height rs =? height) || (round <? rs_Round rs) ||
     ((rs_Round rs =? round) && negb (rs_Step rs =? RoundStepNewHeight)) then mret tt
  else
    _ ← advance_validators round;
    _ ← updateRoundStep round RoundStepNewRound;
    _ ← when (negb (round =? 0)) (modify_rs reset_proposal);
    hvs ← votes;
    next ← call (SafeAddInt32 round 1);
    hvs ← call (SetRound hvs next);
    _ ← modify_rs (set_Votes (Some hvs));
    _ ← modify_rs (set_Triggered false);
    _ ← proposer;
    proof ← (if WaitForTxs cfg && (round =? 0) then needProofBlock height else mret true);
    if negb proof then
      when (CreateEmptyBlocksInterval cfg >? 0)
        (scheduleTimeout (CreateEmptyBlocksInterval cfg) height round RoundStepNewRound)
    else enterPropose height round.

(** ** Commit *)

(** Store the block with the precommits seen for it, unless it is stored already. *)
Definition save_block (block : Block) (parts : option PartSet) : M unit :=
  stored ← ask (env_StoreHeight env);
  when (stored <? h_Height (b_Header block))
    (rs ← get_rs;
     precommits ← precommits_of (rs_CommitRound rs);
     precommits ← nil_deref precommits;
     seenCommit ← call (MakeCommit precommits);
     emit (SaveBlock block parts seenCommit)).

(** Apply the block and move to the next height. *)
Definition apply_block (block : Block) (parts : option PartSet) : M unit :=
  n ← tick;
  hash ← call (Block_Hash (Some block));
  s ← get;
  '(cache, res) ← call (ApplyBlock (cst_cache s) (env_CheckEvidence env n) (env_Execute env n) (cst_state s)
                          (mkBlockID hash (PartSet_Header parts)) block);
  _ ← modify (upd_cache cache);
  match res with
  | inr _ => mret tt
  | inl state =>
      _ ← updateToState state;
      _ ← updatePrivValidatorPubKey;
      scheduleRound0
  end.

Definition finalizeCommit (height : Z) : M unit :=
  rs ← get_rs;
  if negb (rs_Height rs =? height) || negb (rs_Step rs =? RoundStepCommit) then mret tt
  else
    precommits ← precommits_of (rs_CommitRound rs);
    let '(blockID, ok) := maj23 precommits in
    parts ← load_parts (rs_ProposalBlockParts rs);
    _ ← call (panic_if (negb ok) "cannot finalize commit; commit does not have 2/3 majority");
    _ ← call (panic_if (negb (HasHeader parts (bid_PartSetHeader blockID))) "expected ProposalBlockParts header to be commit header");
    same ← call (Block_HashesTo (rs_ProposalBlock rs) (bid_Hash blockID));
    _ ← call (panic_if (negb same) "cannot finalize commit; proposal block does not hash to commit hash");
    block ← nil_deref (rs_ProposalBlock rs);
    valid ← validate block;
    _ ← call (panic_if (negb valid) "+2/3 committed an invalid block");
    _ ← save_block block parts;
    ok ← ask (env_WalOk env);
    _ ← call (panic_if (negb ok) "failed to write end height to consensus WAL");
    _ ← emit (WriteEndHeight height);
    apply_block block parts.

Definition tryFinalizeCommit (height : Z) : M unit :=
  rs ← get_rs;
  _ ← call (panic_if (negb (rs_Height rs =? height)) "tryFinalizeCommit() cs.Height vs height");
  precommits ← precommits_of (rs_CommitRound rs);
  let '(blockID, ok) := maj23 precommits in
  if negb ok || (len (bid_Hash blockID) =? 0) then mret tt
  else
    have ← call (Block_HashesTo (rs_ProposalBlock rs) (bid_Hash blockID));
    when have (finalizeCommit height).

(** The body of [enterCommit]: find the block the precommits are for. *)
Definition do_commit (commitRound : Z) : M unit :=
  precommits ← precommits_of commitRound;
  let '(blockID, ok) := maj23 precommits in
  _ ← call (panic_if (negb ok) "RunActionCommit() expects +2/3 precommits");
  rs ← get_rs;
  locked ← call (Block_HashesTo (rs_LockedBlock rs) (bid_Hash blockID));
  _ ← when locked (modify_rs (fun rs => set_ProposalBlockParts (rs_LockedBlockParts rs) (set_ProposalBlock (rs_LockedBlock rs) rs)));
  rs ← get_rs;
  have ← call (Block_HashesTo (rs_ProposalBlock rs) (bid_Hash blockID));
  parts ← load_parts (rs_ProposalBlockParts rs);
  when (negb have && negb (HasHeader parts (bid_PartSetHeader blockID)))
    (_ ← modify_rs (set_ProposalBlock None);
     ref ← new_parts (bid_PartSetHeader blockID);
     _ ← modify_rs (set_ProposalBlockParts (Some ref));
     rs ← get_rs;
     emit (FireValidBlock (rs_Height rs) (rs_Round rs))).

Definition enterCommit (height commitRound : Z) : M unit :=
  rs ← get_rs;
  if negb (rs_Height rs =? height) || (RoundStepCommit <=? rs_Step rs) then mret tt
  else
    with_defer (do_commit commitRound)
      (rs ← get_rs;
       _ ← updateRoundStep (rs_Round rs) RoundStepCommit;
       now ← ask (env_Now env);
       _ ← modify_rs (set_CommitRound commitRound now);
       _ ← newStep;
       tryFinalizeCommit height).

(** ** Proposals and block parts *)

Inductive SetProposalError := ErrInvalidProposalPOLRound | ErrInvalidProposalSignature.

Definition defaultSetProposal (proposal : Proposal) : M (option SetProposalError) :=
  s ← get;
  let rs := cst_rs s in
  match rs_Proposal rs with
  | Some _ => mret None
  | None =>
      if negb (p_Height proposal =? rs_Height rs) || negb (p_Round proposal =? rs_Round rs) then mret None
      else if (p_POLRound proposal <? -1) || ((p_POLRound proposal >=? 0) && (p_POLRound proposal >=? p_Round proposal))
      then mret (Some ErrInvalidProposalPOLRound)
      else
        p ← proposer;
        pk ← nil_deref (PubKey_ p);
        bz ← call (ProposalSignBytes (sm_ChainID (cst_state s)) proposal);
        if negb (VerifySignature pk bz (p_Signature proposal)) then mret (Some ErrInvalidProposalSignature)
        else
          _ ← modify_rs (set_Proposal (Some proposal));
          _ ← when (match rs_ProposalBlockParts rs with None => true | Some _ => false end)
                (ref ← new_parts (bid_PartSetHeader (p_BlockID proposal));
                 modify_rs (set_ProposalBlockParts (Some ref)));
          mret None
  end.

(** [ioutil.ReadAll]: a read into a buffer longer than the parts. *)
Definition ReadAll (ps : PartSet) : go bytes :=
  r ← GetReader ps;
  let size := sumZ (fun p => match p with Some p => len (pt_Bytes p) | None => 0 end) (ps_parts ps) in
  '(_, bz, _) ← Read (4 * length (ps_parts ps) + 4) r (size + 1);
  Val bz.

Inductive BlockPartError := ErrPartSet (e : PartSetError) | ErrTooManyBytes | ErrDecodeBlock (e : option BlockError).

(** [ProposalBlockParts.AddPart(part)] through the reference. *)
Definition add_part (ref : nat) (part : option Part) : M (bool * option PartSetError) :=
  part ← nil_deref part;
  s ← get;
  ps ← nil_deref (cst_parts s !! ref);
  '(ps, added, err) ← call (AddPart ps part);
  _ ← modify (upd_parts (<[ref := ps]> (cst_parts s)));
  mret (added, err).

(** The valid block follows a polka of the current round for the proposal block. *)
Definition update_valid : M unit :=
  rs ← get_rs;
  prevotes ← prevotes_of (rs_Round rs);
  let '(blockID, hasTwoThirds) := maj23 prevotes in
  when (hasTwoThirds && negb (BlockID_IsZero blockID) && (rs_ValidRound rs <? rs_Round rs))
    (same ← call (Block_HashesTo (rs_ProposalBlock rs) (bid_Hash blockID));
     when same (modify_rs (set_Valid (rs_Round rs) (rs_ProposalBlock rs) (rs_ProposalBlockParts rs)))).

(** What follows once the whole block is there. *)
Definition complete_block (height : Z) (block : Block) : M unit :=
  _ ← modify_rs (set_ProposalBlock (Some block));
  ok ← ask (env_FileOk env);
  _ ← call (panic_if (negb ok) "txs_in_cs");
  _ ← call (Block_Hash (Some block));
  rs ← get_rs;
  prevotes ← prevotes_of (rs_Round rs);
  _ ← update_valid;
  complete ← (if rs_Step rs <=? RoundStepPropose then isProposalComplete else mret false);
  if (complete : bool) then
    _ ← enterPrevote height (rs_Round rs);
    rs ← get_rs;
    when (maj23 prevotes).2 (enterPrecommit height (rs_Round rs))
  else when (rs_Step rs =? RoundStepCommit) (tryFinalizeCommit height).

Definition addProposalBlockPart (height round : Z) (part : option Part) : M (bool * option BlockPartError) :=
  rs ← get_rs;
  if negb (rs_Height rs =? height) then mret (false, None)
  else
    match rs_ProposalBlockParts rs with
    | None => _ ← nil_deref part; mret (false, None)
    | Some ref =>
        '(added, err) ← add_part ref part;
        match err with
        | Some e => mret (added, Some (ErrPartSet e))
        | None =>
            s ← get;
            ps ← nil_deref (cst_parts s !! ref);
            if ps_byteSize ps >? bp_MaxBytes (cp_Block (sm_ConsensusParams (cst_state s))) then mret (added, Some ErrTooManyBytes)
            else if added && IsComplete ps then
              bz ← call (ReadAll ps);
              match BlockFromBytes bz with
              | Panic w => call (Panic w)
              | Fail e => mret (added, Some (ErrDecodeBlock e))
              | Val block => _ ← complete_block height block; mret (added, None)
              end
            else mret (added, None)
        end
    end.

(** ** Votes *)

Inductive VoteError := ErrVote (e : AddVoteError) | ErrUnwantedRound | ErrPublish.

Definition height_error (e : HeightVoteError) : VoteError :=
  match e with ErrGotVoteFromUnwantedRound => ErrUnwantedRound | ErrVoteSet e => ErrVote e end.

(** A precommit of the previous height, while the node waits for the next one. *)
Definition add_last_commit (vote : Vote) : M (bool * option VoteError) :=
  rs ← get_rs;
  if negb (rs_Step rs =? RoundStepNewHeight) then mret (false, None)
  else
    '(vs, added, err) ← call (AddVote (rs_LastCommit rs) (Some vote));
    _ ← modify_rs (set_LastCommit (Some vs));
    let err := option_map ErrVote err in
    if negb added then mret (false, err)
    else
      ok ← ask (env_PublishOk env);
      if negb ok then mret (true, Some ErrPublish)
      else
        _ ← emit (FireVote vote);
        all ← (if SkipTimeoutCommit cfg then call (HasAll vs) else mret false);
        _ ← when all (rs ← get_rs; enterNewRound (rs_Height rs) 0);
        mret (true, err).

(** A polka for another block in a round after the lock: unlock.  [false] is an error of the event bus. *)
Definition unlock_on_polka (vote_round : Z) (blockID : BlockID) : M bool :=
  rs ← get_rs;
  if match rs_LockedBlock rs with Some _ => true | None => false end && (rs_LockedRound rs <? vote_round) && (vote_round <=? rs_Round rs)
  then
    same ← call (Block_HashesTo (rs_LockedBlock rs) (bid_Hash blockID));
    if (same : bool) then mret true
    else
      _ ← modify_rs (set_Locked (-1) None None);
      ask (env_PublishOk env)
  else mret true.

(** A polka in the current round: update the valid block, or prepare to receive it. *)
Definition valid_on_polka (vote_round : Z) (blockID : BlockID) : M bool :=
  rs ← get_rs;
  if negb (len (bid_Hash blockID) =? 0) && (rs_ValidRound rs <? vote_round) && (vote_round =? rs_Round rs) then
    same ← call (Block_HashesTo (rs_ProposalBlock rs) (bid_Hash blockID));
    _ ← (if (same : bool) then modify_rs (set_Valid vote_round (rs_ProposalBlock rs) (rs_ProposalBlockParts rs))
         else modify_rs (set_ProposalBlock None));
    parts ← load_parts (rs_ProposalBlockParts rs);
    _ ← when (negb (HasHeader parts (bid_PartSetHeader blockID)))
          (ref ← new_parts (bid_PartSetHeader blockID); modify_rs (set_ProposalBlockParts (Some ref)));
    _ ← emit (FireValidBlock (rs_Height rs) (rs_Round rs));
    ask (env_PublishOk env)
  else mret true.

(** The transitions a prevote may cause. *)
Definition prevote_transition (height vote_round : Z) (prevotes : option VoteSet) : M unit :=
  rs ← get_rs;
  skip ← (if rs_Round rs <? vote_round then call (has_any prevotes) else mret false);
  if (skip : bool) then enterNewRound height vote_round
  else if (rs_Round rs =? vote_round) && (RoundStepPrevote <=? rs_Step rs) then
    let '(blockID, ok) := maj23 prevotes in
    complete ← (if ok then isProposalComplete else mret false);
    if ok && (complete || (len (bid_Hash blockID) =? 0)) then enterPrecommit height vote_round
    else any ← call (has_any prevotes); when any (enterPrevoteWait height vote_round)
  else
    match rs_Proposal rs with
    | Some p =>
        if (0 <=? p_POLRound p) && (p_POLRound p =? vote_round) then
          complete ← isProposalComplete;
          when complete (enterPrevote height (rs_Round rs))
        else mret tt
    | None => mret tt
    end.

(** A prevote was added; [false] is an error of the event bus. *)
Definition added_prevote (height : Z) (vote : Vote) : M bool :=
  prevotes ← prevotes_of (v_Round vote);
  let '(blockID, ok) := maj23 prevotes in
  fine ← (if ok then
            unlocked ← unlock_on_polka (v_Round vote) blockID;
            if negb unlocked then mret false else valid_on_polka (v_Round vote) blockID
          else mret true);
  if negb fine then mret false
  else _ ← prevote_transition height (v_Round vote) prevotes; mret true.

(** A precommit was added. *)
Definition added_precommit (height : Z) (vote : Vote) : M unit :=
  precommits ← precommits_of (v_Round vote);
  let '(blockID, ok) := maj23 precommits in
  if (ok : bool) then
    _ ← enterNewRound height (v_Round vote);
    _ ← enterPrecommit height (v_Round vote);
    if negb (len (bid_Hash blockID) =? 0) then
      _ ← enterCommit height (v_Round vote);
      all ← (if SkipTimeoutCommit cfg then call (has_all precommits) else mret false);
      rs ← get_rs;
      when all (enterNewRound (rs_Height rs) 0)
    else enterPrecommitWait height (v_Round vote)
  else
    rs ← get_rs;
    any ← (if rs_Round rs <=? v_Round vote then call (has_any precommits) else mret false);
    when any (_ ← enterNewRound height (v_Round vote); enterPrecommitWait height (v_Round vote)).

Definition State_addVote (vote : Vote) (peerID : bytes) : M (bool * option VoteError) :=
  rs ← get_rs;
  if (int64 (v_Height vote + 1) =? rs_Height rs) && (v_Type vote =? PrecommitType) then add_last_commit vote
  else if negb (v_Height vote =? rs_Height rs) then mret (false, None)
  else
    let height := rs_Height rs in
    hvs ← votes;
    '(hvs, added, err) ← call (HeightVoteSet_AddVote hvs vote peerID);
    _ ← modify_rs (set_Votes (Some hvs));
    let err := option_map height_error err in
    if negb added then mret (false, err)
    else
      ok ← ask (env_PublishOk env);
      if negb ok then mret (true, Some ErrPublish)
      else
        _ ← emit (FireVote vote);
        if v_Type vote =? PrevoteType then
          fine ← added_prevote height vote;
          mret (true, if (fine : bool) then err else Some ErrPublish)
        else if v_Type vote =? PrecommitType then _ ← added_precommit height vote; mret (true, err)
        else call (Panic "unexpected vote type").

Inductive TryAddVoteError := ErrPubKeyIsNotSet | ErrConflicting (voteA voteB : Vote) | ErrAddingVote.

Definition tryAddVote (vote : Vote) (peerID : bytes) : M (bool * option TryAddVoteError) :=
  '(added, err) ← State_addVote vote peerID;
  match err with
  | None => mret (added, None)
  | Some (ErrVote (ErrVoteConflictingVotes a b)) =>
      s ← get;
      match cst_pubKey s with
      | None => mret (false, Some ErrPubKeyIsNotSet)
      | Some pk =>
          _ ← when (negb (bytes_equal (v_ValidatorAddress vote) (pk_Address pk))) (emit (ReportConflictingVotes a b));
          mret (added, Some (ErrConflicting a b))
      end
  | Some (ErrVote ErrVoteNonDeterministicSignature) => mret (added, None)
  | Some _ => mret (added, Some ErrAddingVote)
  end.

(** ** The receive routine *)

(** Errors of the handlers are logged. *)
Definition handleMsg (mi : msgInfo) : M unit :=
  match mi_Msg mi with
  | ProposalMessage p => _ ← defaultSetProposal p; mret tt
  | BlockPartMessage height round part =>
      '(added, _) ← addProposalBlockPart height round part;
      when added (emit (SendStats mi))
  | VoteMessage vote =>
      '(added, _) ← tryAddVote vote (mi_PeerID mi);
      when added (emit (SendStats mi))
  end.

Definition handleTimeout (ti : timeoutInfo) : M unit :=
  rs ← get_rs;
  if negb (ti_Height ti =? rs_Height rs) || (ti_Round ti <? rs_Round rs) ||
     ((ti_Round ti =? rs_Round rs) && (ti_Step ti <? rs_Step rs)) then mret tt
  else if ti_Step ti =? RoundStepNewHeight then enterNewRound (ti_Height ti) 0
  else if ti_Step ti =? RoundStepNewRound then enterPropose (ti_Height ti) 0
  else if ti_Step ti =? RoundStepPropose then enterPrevote (ti_Height ti) (ti_Round ti)
  else if ti_Step ti =? RoundStepPrevoteWait then enterPrecommit (ti_Height ti) (ti_Round ti)
  else if ti_Step ti =? RoundStepPrecommitWait then
    _ ← enterPrecommit (ti_Height ti) (ti_Round ti);
    enterNewRound (ti_Height ti) (int32 (ti_Round ti + 1))
  else call (Panic "invalid timeout step").

Definition handleTxsAvailable : M unit :=
  rs ← get_rs;
  if negb (rs_Round rs =? 0) then mret tt
  else if rs_Step rs =? RoundStepNewHeight then
    proof ← needProofBlock (rs_Height rs);
    if (proof : bool) then mret tt
    else
      now ← ask (env_Now env);
      scheduleTimeout (int64 (time_Sub (rs_StartTime rs) now + 1000000)) (rs_Height rs) 0 RoundStepNewRound
  else if rs_Step rs =? RoundStepNewRound then enterPropose (rs_Height rs) 0
  else mret tt.

(** What the receive routine selects on, and the claim of a peer that the
    reactor records in the votes of the height. *)
Inductive Event :=
  | EvMsg (mi : msgInfo)
  | EvTimeout (ti : timeoutInfo)
  | EvTxsAvailable
  | EvPeerMaj23 (height round type : Z) (peerID : bytes) (blockID : BlockID).

Definition peer_maj23 (height round type : Z) (peerID : bytes) (blockID : BlockID) : M unit :=
  rs ← get_rs;
  if negb (rs_Height rs =? height) then mret tt
  else
    hvs ← votes;
    '(hvs, _) ← call (HeightVoteSet_SetPeerMaj23 hvs round type peerID blockID);
    modify_rs (set_Votes (Some hvs)).

(** One turn of [receiveRoutine]; the node's own messages are written to disk first. *)
Definition receive (ev : Event) : M unit :=
  match ev with
  | EvMsg mi =>
      _ ← when (len (mi_PeerID mi) =? 0)
            (ok ← ask (env_WalOk env); call (panic_if (negb ok) "failed to write msg to consensus WAL"));
      handleMsg mi
  | EvTimeout ti => handleTimeout ti
  | EvTxsAvailable => handleTxsAvailable
  | EvPeerMaj23 height round type peerID blockID => peer_maj23 height round type peerID blockID
  end.

(** [CompareHRS]. *)
Definition CompareHRS (h1 r1 s1 h2 r2 s2 : Z) : Z :=
  if h1 <? h2 then -1 else if h1 >? h2 then 1
  else if r1 <? r2 then -1 else if r1 >? r2 then 1
  else if s1 <? s2 then -1 else if s1 >? s2 then 1 else 0.
End consensus.

#[export] Existing Instances M_ret M_bind.
