(* ===== verification/ConsensusFrame.v ===== *)
(** * The consensus state machine: what a handler leaves alone

    Most of a handler computes, records events or schedules timeouts; the round
    state that matters for safety changes in few places.  [quiet] relates the
    states before and after such a computation: the height, round, step, lock,
    votes and commit round are the same, and the log has grown by no vote of the
    node's own and no decision.  The lemmas follow the structure of the
    handlers and are collected in the hint database [frame]. *)
From Stdlib Require Import ZArith Lia Strings.Byte.
From stdpp Require Import base list strings gmap.
From S2P Require Import Prelude.
From S2P Require Import Merkle.
From S2P Require Import Validator.
From S2P Require Import Types.
From S2P Require Import Validation.
From S2P Require Import VoteSet.
From S2P Require Import HeightVoteSet.
From S2P Require Import PartSet.
From S2P Require Import Header.
From S2P Require Import Block.
From S2P Require Import ChainState.
From S2P Require Import Consensus.

Create HintDb frame.

Section frame.
Context `{!Crypto, !BatchCrypto, !Sha256, !TimeCodec, !WrapperCodec, !EvidenceOps, !BlockCodec}.
Implicit Types (s : ConsensusState).

Abbreviation height s := (rs_Height (cst_rs s)).
Abbreviation round s := (rs_Round (cst_rs s)).
Abbreviation step s := (rs_Step (cst_rs s)).

(** ** Postconditions *)

(** [Q] holds of the state and the result of [m], a panic included. *)
Definition post {A} (Q : ConsensusState -> go A -> Prop) (m : M A) s : Prop := Q (m s).1 (m s).2.

Lemma post_bind {A B} Q (m : M A) (k : A -> M B) s :
  post (fun s1 r => match r with Val a => post Q (k a) s1 | Fail e => True | Panic w => Q s1 (Panic w) end) m s ->
  post Q (m ≫= k) s.
Proof. unfold post, mbind, M_bind. by destruct (m s) as [s1 [a|[]|w]]. Qed.

Lemma post_ret {A} Q (a : A) s : Q s (Val a) -> post Q (mret a) s.
Proof. done. Qed.

Lemma post_mono {A} (P Q : ConsensusState -> go A -> Prop) m s :
  (forall s1 r, P s1 r -> Q s1 r) -> post P m s -> post Q m s.
Proof. unfold post. auto. Qed.

Lemma post_call {A} Q (o : go A) s : Q s o -> post Q (call o) s.
Proof. done. Qed.

Lemma post_get {B} Q (k : ConsensusState -> M B) s : post Q (k s) s -> post Q (get ≫= k) s.
Proof. done. Qed.
Lemma post_get_rs {B} Q (k : RoundState -> M B) s : post Q (k (cst_rs s)) s -> post Q (get_rs ≫= k) s.
Proof. done. Qed.

Lemma post_val {A B} Q (m : M A) (k : A -> M B) s s1 a : m s = (s1, Val a) -> post Q (k a) s1 -> post Q (m ≫= k) s.
Proof. intros E. unfold post, mbind, M_bind. by rewrite E. Qed.
(** A computation that only reads. *)
Lemma post_read {A B} Q (m : M A) (k : A -> M B) s :
  (m s).1 = s -> (forall w, Q s (Panic w)) -> (forall a, (m s).2 = Val a -> post Q (k a) s) -> post Q (m ≫= k) s.
Proof.
  intros E Hp Hk. unfold post, mbind, M_bind. destruct (m s) as [s1 [a|[]|w]]; simpl in *; subst; [by apply Hk|done].
Qed.
Lemma post_call_bind {A B} Q (o : go A) (k : A -> M B) s :
  (forall w, Q s (Panic w)) -> (forall a, o = Val a -> post Q (k a) s) -> post Q (call o ≫= k) s.
Proof. intros Hp Hk. by apply post_read. Qed.
Lemma post_when Q b m s : Q s (Val tt) -> (b = true -> post Q m s) -> post Q (when b m) s.
Proof. destruct b; [auto|done]. Qed.

Lemma post_defer (P Q : ConsensusState -> go unit -> Prop) body deferred s :
  post P body s ->
  (forall s1 r1, P s1 r1 -> post (fun s2 r2 => Q s2 (match r2 with Panic w => Panic w | _ => r1 end)) deferred s1) ->
  post Q (with_defer body deferred) s.
Proof.
  unfold post, with_defer. intros J1 J2. destruct (body s) as [s1 r1]. simpl in J1. specialize (J2 s1 r1 J1).
  by destruct (deferred s1) as [s2 r2].
Qed.

(** ** Quiet computations *)

(** An action that is neither a vote nor a decision; a timeout is for the current height and no later round. *)
Definition harmless s (a : Action) : Prop :=
  match a with
  | ScheduleTimeout ti => ti_Height ti = height s /\ ti_Round ti <= round s
  | SendInternal (VoteMessage _) => False
  | SaveBlock _ _ _ => False
  | _ => True
  end.

(** The parts of the state that the safety argument looks at are the same. *)
Record same_core s s' : Prop := {
  sc_height : height s' = height s;
  sc_round : round s' = round s;
  sc_step : step s' = step s;
  sc_locked_round : rs_LockedRound (cst_rs s') = rs_LockedRound (cst_rs s);
  sc_locked_block : rs_LockedBlock (cst_rs s') = rs_LockedBlock (cst_rs s);
  sc_votes : rs_Votes (cst_rs s') = rs_Votes (cst_rs s);
  sc_commit_round : rs_CommitRound (cst_rs s') = rs_CommitRound (cst_rs s);
  sc_state : cst_state s' = cst_state s
}.

#[export] Instance same_core_preorder : PreOrder same_core.
Proof.
  split.
  - by intros s.
  - intros a b c [] []. split; etrans; eassumption.
Qed.

Definition extends (P : Action -> Prop) s s' : Prop := exists l, cst_log s' = cst_log s ++ l /\ Forall P l.

Definition quiet s s' : Prop := same_core s s' /\ extends (harmless s) s s'.

Lemma harmless_core s s' a : same_core s s' -> harmless s' a <-> harmless s a.
Proof. intros []. destruct a as [|[]| | | | | | | ]; simpl; try done. by rewrite sc_height0, sc_round0. Qed.

#[export] Instance quiet_preorder : PreOrder quiet.
Proof.
  split.
  - intros s. split; [done|]. exists []. by rewrite app_nil_r.
  - intros a b c [Hab (l1 & Hl1 & Hf1)] [Hbc (l2 & Hl2 & Hf2)]. split; [by transitivity b|]. exists (l1 ++ l2).
    rewrite Hl2, Hl1, app_assoc. split; [done|]. apply Forall_app. split; [done|].
    eapply Forall_impl; [exact Hf2|]. intros x. apply (harmless_core a b x Hab).
Qed.

(** [m] is quiet when it is run in [s]. *)
Definition quiet_at {A} (m : M A) s : Prop := quiet s (m s).1.

Lemma quiet_post {A} (Q : ConsensusState -> go A -> Prop) m s :
  quiet_at m s -> (forall s1 r, quiet s s1 -> Q s1 r) -> post Q m s.
Proof. unfold quiet_at, post. auto. Qed.

Lemma quiet_bind {A B} (m : M A) (k : A -> M B) s :
  quiet_at m s -> (forall a s1, quiet s s1 -> quiet_at (k a) s1) -> quiet_at (m ≫= k) s.
Proof.
  unfold quiet_at, mbind, M_bind. destruct (m s) as [s1 [a|[]|w]]; simpl; intros J1 J2; [|done].
  transitivity s1; [done|]. by apply J2.
Qed.

(** Binding a computation that only reads. *)
Lemma quiet_read {A B} (m : M A) a (k : A -> M B) s : m s = (s, Val a) -> quiet_at (k a) s -> quiet_at (m ≫= k) s.
Proof. unfold quiet_at, mbind, M_bind. by intros ->. Qed.

Lemma quiet_ret {A} (a : A) s : quiet_at (mret a) s.
Proof. unfold quiet_at. simpl. reflexivity. Qed.
Lemma quiet_get s : quiet_at get s.
Proof. unfold quiet_at. simpl. reflexivity. Qed.
Lemma quiet_get_rs s : quiet_at get_rs s.
Proof. unfold quiet_at. simpl. reflexivity. Qed.
Lemma quiet_call {A} (o : go A) s : quiet_at (call o) s.
Proof. unfold quiet_at. simpl. reflexivity. Qed.
Lemma quiet_nil_deref {A} (p : option A) s : quiet_at (nil_deref p) s.
Proof. apply quiet_call. Qed.
Lemma quiet_when b m s : (b = true -> quiet_at m s) -> quiet_at (when b m) s.
Proof. destruct b; [auto|]. intros _. apply quiet_ret. Qed.
Lemma quiet_tick s : quiet_at tick s.
Proof. split; [by split|]. exists []. simpl. by rewrite app_nil_r. Qed.
Lemma quiet_emit a s : harmless s a -> quiet_at (emit a) s.
Proof. intros Ha. split; [by split|]. exists [a]. split; [done|]. by repeat constructor. Qed.

(** A change of fields outside the core. *)
Lemma quiet_modify f s : same_core s (f s) -> cst_log (f s) = cst_log s -> quiet_at (modify f) s.
Proof. intros Hc Hl. split; [done|]. exists []. simpl. by rewrite app_nil_r. Qed.
Lemma quiet_modify_rs f s : same_core s (upd_rs f s) -> quiet_at (modify_rs f) s.
Proof. intros Hc. by apply quiet_modify. Qed.
Lemma quiet_defer body deferred s :
  quiet_at body s -> (forall s1, quiet s s1 -> quiet_at deferred s1) -> quiet_at (with_defer body deferred) s.
Proof.
  unfold quiet_at, with_defer. intros J1 J2. destruct (body s) as [s1 r1]. simpl in J1. specialize (J2 s1 J1).
  destruct (deferred s1) as [s2 r2]. simpl in *. by transitivity s1.
Qed.
End frame.

#[export] Hint Resolve quiet_ret quiet_get quiet_get_rs quiet_call quiet_nil_deref quiet_tick : frame.

(** Walk through a quiet computation. *)
Ltac quiet_step :=
  match goal with
  | |- quiet_at (mbind _ _) _ => apply quiet_bind; [|intros]
  | |- quiet_at (when _ _) _ => apply quiet_when; intros _
  | |- quiet_at (with_defer _ _) _ => apply quiet_defer; [|intros]
  | |- quiet_at (modify_rs _) _ => apply quiet_modify_rs; split; reflexivity
  | |- quiet_at (modify _) _ => apply quiet_modify; [split; reflexivity|reflexivity]
  | |- quiet_at (emit _) _ => apply quiet_emit; try exact I
  | |- quiet_at (if ?b then _ else _) _ => let E := fresh "E" in destruct b eqn:E
  | |- quiet_at (match ?x with _ => _ end) _ => destruct x
  | |- quiet_at (let '(_, _) := ?x in _) _ => destruct x
  | |- _ => progress (auto with frame)
  end.
Ltac quiet_solve := repeat quiet_step.

Section handlers.
Context `{!Crypto, !BatchCrypto, !Sha256, !TimeCodec, !WrapperCodec, !EvidenceOps, !BlockCodec}.
Context (cfg : ConsensusConfig) (env : Env).
Implicit Types (s : ConsensusState).

Lemma quiet_ask {A} (f : nat -> A) s : quiet_at (ask f) s.
Proof. unfold ask. quiet_solve. Qed.
Hint Resolve quiet_ask : frame.

Lemma quiet_votes s : quiet_at votes s.
Proof. unfold votes. quiet_solve. Qed.
Lemma quiet_validators s : quiet_at validators s.
Proof. unfold validators. quiet_solve. Qed.
Hint Resolve quiet_votes quiet_validators : frame.
Lemma quiet_load_parts ref s : quiet_at (load_parts ref) s.
Proof. unfold load_parts. quiet_solve. Qed.
Lemma quiet_new_parts header s : quiet_at (new_parts header) s.
Proof. unfold new_parts. quiet_solve. Qed.
Lemma quiet_prevotes_of r s : quiet_at (prevotes_of r) s.
Proof. unfold prevotes_of. quiet_solve. Qed.
Lemma quiet_precommits_of r s : quiet_at (precommits_of r) s.
Proof. unfold precommits_of. quiet_solve. Qed.
Lemma quiet_proposer s : quiet_at proposer s.
Proof. unfold proposer. quiet_solve. Qed.
Hint Resolve quiet_load_parts quiet_new_parts quiet_prevotes_of quiet_precommits_of quiet_proposer : frame.
Lemma quiet_newStep s : quiet_at newStep s.
Proof. unfold newStep. quiet_solve. Qed.
Lemma quiet_validate b s : quiet_at (validate env b) s.
Proof. unfold validate. quiet_solve. Qed.
Lemma quiet_voteTime s : quiet_at (voteTime env) s.
Proof. unfold voteTime. quiet_solve. Qed.
Hint Resolve quiet_newStep quiet_validate quiet_voteTime : frame.
Lemma quiet_signVote t hash header s : quiet_at (State_signVote env t hash header) s.
Proof. unfold State_signVote. quiet_solve. Qed.
Lemma quiet_updatePubKey s : quiet_at (updatePrivValidatorPubKey env) s.
Proof. unfold updatePrivValidatorPubKey. quiet_solve. Qed.
Lemma quiet_isProposalComplete s : quiet_at isProposalComplete s.
Proof. unfold isProposalComplete. quiet_solve. Qed.
Lemma quiet_createProposalBlock s : quiet_at (createProposalBlock env) s.
Proof. unfold createProposalBlock. quiet_solve. Qed.
Lemma quiet_needProofBlock h s : quiet_at (needProofBlock env h) s.
Proof. unfold needProofBlock. quiet_solve. Qed.
Hint Resolve quiet_signVote quiet_updatePubKey quiet_isProposalComplete quiet_createProposalBlock quiet_needProofBlock : frame.
Lemma quiet_send_parts n i ps s : quiet_at (send_parts n i ps) s.
Proof.
  revert i s. induction n as [|n IH]; intros i s; cbn [send_parts]; [apply quiet_ret|].
  unfold sendInternalMessage. quiet_solve.
Qed.
Hint Resolve quiet_send_parts : frame.
Lemma quiet_propose_block h r b ps s : quiet_at (propose_block env h r b ps) s.
Proof. unfold propose_block, sendInternalMessage. quiet_solve. Qed.
Hint Resolve quiet_propose_block : frame.
Lemma quiet_decideProposal h r s : quiet_at (defaultDecideProposal env h r) s.
Proof. unfold defaultDecideProposal. quiet_solve. Qed.
Lemma quiet_isProposer addr s : quiet_at (isProposer addr) s.
Proof. unfold isProposer. quiet_solve. Qed.
Hint Resolve quiet_decideProposal quiet_isProposer : frame.
Lemma quiet_scheduleTimeout d h r st s :
  h = rs_Height (cst_rs s) -> r <= rs_Round (cst_rs s) -> quiet_at (scheduleTimeout d h r st) s.
Proof. intros -> Hr. unfold scheduleTimeout. by apply quiet_emit. Qed.
Lemma quiet_do_propose h r s :
  h = rs_Height (cst_rs s) -> r <= rs_Round (cst_rs s) -> quiet_at (do_propose cfg env h r) s.
Proof. intros Hh Hr. unfold do_propose. apply quiet_bind; [by apply quiet_scheduleTimeout|intros]. quiet_solve. Qed.
Lemma quiet_update_valid s : quiet_at update_valid s.
Proof. unfold update_valid. quiet_solve. Qed.
Lemma quiet_setProposal p s : quiet_at (defaultSetProposal p) s.
Proof. unfold defaultSetProposal. quiet_solve. Qed.
Lemma quiet_add_part ref part s : quiet_at (add_part ref part) s.
Proof. unfold add_part. quiet_solve. Qed.
Lemma quiet_valid_on_polka r b s : quiet_at (valid_on_polka env r b) s.
Proof. unfold valid_on_polka. quiet_solve. Qed.
End handlers.

#[export] Hint Resolve quiet_ask quiet_votes quiet_validators quiet_load_parts quiet_new_parts quiet_prevotes_of
  quiet_precommits_of quiet_proposer quiet_newStep quiet_validate quiet_voteTime quiet_signVote quiet_updatePubKey
  quiet_isProposalComplete quiet_createProposalBlock quiet_needProofBlock quiet_decideProposal quiet_isProposer
  quiet_update_valid quiet_setProposal quiet_add_part quiet_valid_on_polka : frame.

(** ** Predicates on the final state *)

Section always.
Context `{!Crypto, !BatchCrypto, !Sha256, !TimeCodec, !WrapperCodec, !EvidenceOps, !BlockCodec}.
Context (P : ConsensusState -> Prop).

(** [P] holds of the state [m] ends in, whether it returns or panics. *)
Definition always {A} (m : M A) s : Prop := P (m s).1.

Lemma always_bind {A B} (m : M A) (k : A -> M B) s :
  always m s -> (forall a, (m s).2 = Val a -> always (k a) (m s).1) -> always (m ≫= k) s.
Proof. unfold always, mbind, M_bind. destruct (m s) as [s1 [a|[]|w]]; simpl; auto. Qed.

(** A computation that only reads. *)
Lemma always_read {A B} (m : M A) (k : A -> M B) s :
  (m s).1 = s -> P s -> (forall a, (m s).2 = Val a -> always (k a) s) -> always (m ≫= k) s.
Proof. intros E Hs Hk. apply always_bind; unfold always; by rewrite ?E. Qed.

Lemma always_quiet {A B} (m : M A) (k : A -> M B) s :
  quiet_at m s -> (forall s1, quiet s s1 -> P s1) -> (forall a s1, quiet s s1 -> always (k a) s1) -> always (m ≫= k) s.
Proof. unfold quiet_at. intros Hq Hs Hk. apply always_bind; [by apply Hs|]. intros a _. by apply Hk. Qed.

Lemma always_get {B} (k : ConsensusState -> M B) s : always (k s) s -> always (get ≫= k) s.
Proof. done. Qed.
Lemma always_get_rs {B} (k : RoundState -> M B) s : always (k (cst_rs s)) s -> always (get_rs ≫= k) s.
Proof. done. Qed.
Lemma always_call {A B} (o : go A) (k : A -> M B) s : P s -> (forall a, o = Val a -> always (k a) s) -> always (call o ≫= k) s.
Proof. intros Hs Hk. by apply always_read. Qed.
Lemma always_ret {A} (a : A) s : P s -> always (mret a) s.
Proof. done. Qed.
Lemma always_modify f s : P (f s) -> always (modify f) s.
Proof. done. Qed.
Lemma always_when b m s : P s -> (b = true -> always m s) -> always (when b m) s.
Proof. destruct b; [auto|done]. Qed.

Lemma always_defer (Pre : ConsensusState -> Prop) body deferred s :
  Pre (body s).1 -> (forall s1, Pre s1 -> always deferred s1) -> always (with_defer body deferred) s.
Proof.
  unfold always, with_defer. intros J1 J2. destruct (body s) as [s1 r1]. simpl in J1. specialize (J2 s1 J1).
  by destruct (deferred s1) as [s2 r2].
Qed.
Lemma always_mono (Q : ConsensusState -> Prop) {A} (m : M A) s : (forall s1, Q s1 -> P s1) -> Q (m s).1 -> always m s.
Proof. unfold always. auto. Qed.

Lemma votes_reads s : (votes s).1 = s.
Proof. unfold votes, nil_deref, call, mbind, M_bind. simpl. by destruct (rs_Votes (cst_rs s)). Qed.
Lemma votes_val s hvs : (votes s).2 = Val hvs -> rs_Votes (cst_rs s) = Some hvs.
Proof.
  unfold votes, nil_deref, call, mbind, M_bind. simpl. destruct (rs_Votes (cst_rs s)); simpl; [congruence|done].
Qed.
Lemma validators_reads s : (validators s).1 = s.
Proof. unfold validators, nil_deref, call, mbind, M_bind. simpl. by destruct (rs_Validators (cst_rs s)). Qed.
Lemma vote_set_reads (f : HeightVoteSet -> go (option VoteSet)) s : ((hvs ← votes; call (f hvs)) s).1 = s.
Proof.
  unfold mbind at 1, M_bind at 1. pose proof (votes_reads s) as E. destruct (votes s) as [s1 [a|[]|w]]; simpl in *; by subst.
Qed.
Lemma vote_set_val (f : HeightVoteSet -> go (option VoteSet)) s vs :
  ((hvs ← votes; call (f hvs)) s).2 = Val vs -> exists hvs, rs_Votes (cst_rs s) = Some hvs /\ f hvs = Val vs.
Proof.
  unfold mbind at 1, M_bind at 1. pose proof (votes_reads s) as E. pose proof (votes_val s) as Ev.
  destruct (votes s) as [s1 [a|[]|w]]; simpl in *; [|done]. intros Hf. exists a. auto.
Qed.
End always.

(** ** The log only grows *)

Create HintDb grow.

Section grows.
Context `{!Crypto, !BatchCrypto, !Sha256, !TimeCodec, !WrapperCodec, !EvidenceOps, !BlockCodec}.

Definition grows {A} (m : M A) : Prop := forall s, cst_log s `prefix_of` cst_log (m s).1.

Lemma grows_bind {A B} (m : M A) (k : A -> M B) : grows m -> (forall a, grows (k a)) -> grows (m ≫= k).
Proof.
  intros J1 J2 s. specialize (J1 s). unfold mbind, M_bind. destruct (m s) as [s1 [a|[]|w]]; simpl in *; [|done].
  etrans; [exact J1|apply J2].
Qed.
Lemma grows_defer body deferred : grows body -> grows deferred -> grows (with_defer body deferred).
Proof.
  intros J1 J2 s. specialize (J1 s). unfold with_defer. destruct (body s) as [s1 r1]. specialize (J2 s1).
  destruct (deferred s1) as [s2 r2]. simpl in *. by etrans.
Qed.
Lemma grows_ret {A} (a : A) : grows (mret a).
Proof. intros s. done. Qed.
Lemma grows_call {A} (o : go A) : grows (call o).
Proof. intros s. done. Qed.
Lemma grows_nil_deref {A} (p : option A) : grows (nil_deref p).
Proof. intros s. done. Qed.
Lemma grows_get : grows get.
Proof. intros s. done. Qed.
Lemma grows_get_rs : grows get_rs.
Proof. intros s. done. Qed.
Lemma grows_tick : grows tick.
Proof. intros s. done. Qed.
Lemma grows_emit a : grows (emit a).
Proof. intros s. simpl. by eexists. Qed.
Lemma grows_modify_rs f : grows (modify_rs f).
Proof. intros s. done. Qed.
Lemma grows_modify f : (forall s, cst_log (f s) = cst_log s) -> grows (modify f).
Proof. intros Hf s. simpl. by rewrite Hf. Qed.
Lemma grows_when b m : grows m -> grows (when b m).
Proof. intros Hm. destruct b; [exact Hm|apply grows_ret]. Qed.
End grows.

#[export] Hint Resolve grows_ret grows_call grows_nil_deref grows_get grows_get_rs grows_tick grows_emit grows_modify_rs : grow.

(** Walk through a handler. *)
Ltac grow_step :=
  match goal with
  | |- grows (mbind _ _) => apply grows_bind; [|intros]
  | |- grows (when _ _) => apply grows_when
  | |- grows (with_defer _ _) => apply grows_defer
  | |- grows (modify _) => apply grows_modify; reflexivity
  | |- grows (if ?b then _ else _) => destruct b
  | |- grows (match ?x with _ => _ end) => destruct x
  | |- grows (let '(_, _) := ?x in _) => destruct x
  | |- _ => progress (auto with grow)
  end.
Ltac grow_solve := repeat grow_step.

Section log.
Context `{!Crypto, !BatchCrypto, !Sha256, !TimeCodec, !WrapperCodec, !EvidenceOps, !BlockCodec}.
Context (cfg : ConsensusConfig) (env : Env).

Lemma grows_ask {A} (f : nat -> A) : grows (ask f).
Proof. unfold ask. grow_solve. Qed.
Lemma grows_votes : grows votes.
Proof. unfold votes. grow_solve. Qed.
Lemma grows_validators : grows validators.
Proof. unfold validators. grow_solve. Qed.
Lemma grows_load_parts ref : grows (load_parts ref).
Proof. unfold load_parts. grow_solve. Qed.
Lemma grows_new_parts header : grows (new_parts header).
Proof. unfold new_parts. grow_solve. Qed.
Hint Resolve grows_ask grows_votes grows_validators grows_load_parts grows_new_parts : grow.
Lemma grows_prevotes_of r : grows (prevotes_of r).
Proof. unfold prevotes_of. grow_solve. Qed.
Lemma grows_precommits_of r : grows (precommits_of r).
Proof. unfold precommits_of. grow_solve. Qed.
Lemma grows_proposer : grows proposer.
Proof. unfold proposer. grow_solve. Qed.
Hint Resolve grows_prevotes_of grows_precommits_of grows_proposer : grow.
Lemma grows_signAddVote t hash header : grows (signAddVote env t hash header).
Proof. unfold signAddVote, State_signVote, voteTime, sendInternalMessage. grow_solve. Qed.
Lemma grows_validate b : grows (validate env b).
Proof. unfold validate. grow_solve. Qed.
Lemma grows_isProposalComplete : grows isProposalComplete.
Proof. unfold isProposalComplete. grow_solve. Qed.
Hint Resolve grows_signAddVote grows_validate grows_isProposalComplete : grow.
Lemma grows_enterPrevote h r : grows (enterPrevote env h r).
Proof. unfold enterPrevote, defaultDoPrevote, updateRoundStep, newStep. grow_solve. Qed.
Lemma grows_enterPrevoteWait h r : grows (enterPrevoteWait cfg h r).
Proof. unfold enterPrevoteWait, updateRoundStep, newStep, scheduleTimeout. grow_solve. Qed.
Lemma grows_enterPrecommit h r : grows (enterPrecommit env h r).
Proof. unfold enterPrecommit, do_precommit, precommit_block, unlock_for, updateRoundStep, newStep. grow_solve. Qed.
Lemma grows_enterPrecommitWait h r : grows (enterPrecommitWait cfg h r).
Proof. unfold enterPrecommitWait, newStep, scheduleTimeout. grow_solve. Qed.
Lemma grows_createProposalBlock : grows (createProposalBlock env).
Proof. unfold createProposalBlock. grow_solve. Qed.
Lemma grows_send_parts n i ps : grows (send_parts n i ps).
Proof. revert i. induction n as [|n IH]; intros i; cbn [send_parts]; unfold sendInternalMessage; grow_solve. Qed.
Hint Resolve grows_enterPrevote grows_enterPrevoteWait grows_enterPrecommit grows_enterPrecommitWait
  grows_createProposalBlock grows_send_parts : grow.
Lemma grows_decideProposal h r : grows (defaultDecideProposal env h r).
Proof. unfold defaultDecideProposal, propose_block, sendInternalMessage. grow_solve. Qed.
Hint Resolve grows_decideProposal : grow.
Lemma grows_enterPropose h r : grows (enterPropose cfg env h r).
Proof. unfold enterPropose, do_propose, isProposer, scheduleTimeout, updateRoundStep, newStep. grow_solve. Qed.
Lemma grows_needProofBlock h : grows (needProofBlock env h).
Proof. unfold needProofBlock. grow_solve. Qed.
Hint Resolve grows_enterPropose grows_needProofBlock : grow.
Lemma grows_enterNewRound h r : grows (enterNewRound cfg env h r).
Proof. unfold enterNewRound, advance_validators, updateRoundStep, scheduleTimeout. grow_solve. Qed.
Lemma grows_updateToState st : grows (updateToState cfg env st).
Proof. unfold updateToState, update_last_commit, newStep. grow_solve. Qed.
Hint Resolve grows_enterNewRound grows_updateToState : grow.
Lemma grows_apply_block b ps : grows (apply_block cfg env b ps).
Proof. unfold apply_block, updatePrivValidatorPubKey, scheduleRound0, scheduleTimeout. grow_solve. Qed.
Hint Resolve grows_apply_block : grow.
Lemma grows_finalizeCommit h : grows (finalizeCommit cfg env h).
Proof. unfold finalizeCommit, save_block. grow_solve. Qed.
Hint Resolve grows_finalizeCommit : grow.
Lemma grows_tryFinalizeCommit h : grows (tryFinalizeCommit cfg env h).
Proof. unfold tryFinalizeCommit. grow_solve. Qed.
Hint Resolve grows_tryFinalizeCommit : grow.
Lemma grows_enterCommit h r : grows (enterCommit cfg env h r).
Proof. unfold enterCommit, do_commit, updateRoundStep, newStep. grow_solve. Qed.
Lemma grows_setProposal p : grows (defaultSetProposal p).
Proof. unfold defaultSetProposal. grow_solve. Qed.
Hint Resolve grows_enterCommit grows_setProposal : grow.
Lemma grows_addProposalBlockPart h r part : grows (addProposalBlockPart cfg env h r part).
Proof. unfold addProposalBlockPart, add_part, complete_block, update_valid. grow_solve. Qed.
Lemma grows_add_last_commit v : grows (add_last_commit cfg env v).
Proof. unfold add_last_commit. grow_solve. Qed.
Lemma grows_added_prevote h v : grows (added_prevote cfg env h v).
Proof. unfold added_prevote, unlock_on_polka, valid_on_polka, prevote_transition. grow_solve. Qed.
Lemma grows_added_precommit h v : grows (added_precommit cfg env h v).
Proof. unfold added_precommit. grow_solve. Qed.
Hint Resolve grows_addProposalBlockPart grows_add_last_commit grows_added_prevote grows_added_precommit : grow.
Lemma grows_addVote v p : grows (State_addVote cfg env v p).
Proof. unfold State_addVote. grow_solve. Qed.
Hint Resolve grows_addVote : grow.

(** Whatever a node receives, its log keeps what it had. *)
Lemma grows_receive ev : grows (receive cfg env ev).
Proof.
  unfold receive, handleMsg, tryAddVote, handleTimeout, handleTxsAvailable, peer_maj23, scheduleTimeout. grow_solve.
Qed.
End log.
