(* ===== verification/ConsensusProofs.v ===== *)
(** * The consensus state machine: the promises of one node

    The invariant a node keeps through every message, timeout and claim of a
    peer: its votes are strictly ordered by height, round and step; it
    precommits a block only with a polka for it in that round; once it has
    precommitted a block it prevotes for another one only after a polka for
    something else in a later round; a block it stores has more than two thirds
    of the precommits.  The proofs use the vote sets through the interface
    [VotesInterface] only. *)
From Stdlib Require Import ZArith Lia Sorting.Sorted Strings.Byte.
From stdpp Require Import base list strings gmap sorting.
From S2P Require Import Prelude.
From S2P Require Import SafeMath.
From S2P Require Import Merkle.
From S2P Require Import Validator.
From S2P Require Import Types.
From S2P Require Import Validation.
From S2P Require Import VoteSet.
From S2P Require Import HeightVoteSet.
From S2P Require Import PartSet.
From S2P Require Import Header.
From S2P Require Import Block.
From S2P Require Import ChainState.
From S2P Require Import Consensus.
From S2P Require Import ConsensusFrame.

Abbreviation height s := (rs_Height (cst_rs s)).
Abbreviation round s := (rs_Round (cst_rs s)).
Abbreviation step s := (rs_Step (cst_rs s)).

(** ** Order of the votes *)

(** Height, round and step in lexicographic order. *)
Definition hrs_lt (h r p h' r' p' : Z) : Prop := h < h' \/ (h = h' /\ (r < r' \/ (r = r' /\ p < p'))).
Definition hrs_le (h r p h' r' p' : Z) : Prop := h < h' \/ (h = h' /\ (r < r' \/ (r = r' /\ p <= p'))).

(** The step in which a vote is cast. *)
Definition vote_step (v : Vote) : Z := if v_Type v =? PrevoteType then RoundStepPrevote else RoundStepPrecommit.
Definition vote_before (v w : Vote) : Prop :=
  hrs_lt (v_Height v) (v_Round v) (vote_step v) (v_Height w) (v_Round w) (vote_step w).
Abbreviation vote_hash v := (bid_Hash (v_BlockID v)).
Definition is_prevote (v : Vote) : Prop := v_Type v = PrevoteType.
(** A precommit for a block, not for nil. *)
Definition commits_to (v : Vote) : Prop := v_Type v = PrecommitType /\ vote_hash v <> [].

(** ** The interface to the votes of a height *)

Class VotesInterface `{!Crypto, !TimeCodec} := {
  (** The votes of a height are in order. *)
  VotesOk : Z -> HeightVoteSet -> Prop;
  (** More than two thirds prevoted, or precommitted, the hash in the round. *)
  Polka : Z -> Z -> bytes -> Prop;
  Decided : Z -> Z -> bytes -> Prop;
  (** Votes that may be delivered, and validators a height may be started with. *)
  vote_ok : Vote -> Prop;
  Good : ChainID -> Z -> ValidatorSet -> Prop;
  vote_ok_round : forall v, vote_ok v -> 0 <= v_Round v;
  law_polka : forall h hvs r vs b, VotesOk h hvs -> Prevotes hvs r = Val (Some vs) ->
    TwoThirdsMajority vs = (b, true) -> Polka h r (bid_Hash b);
  law_decided : forall h hvs r vs b, VotesOk h hvs -> Precommits hvs r = Val (Some vs) ->
    TwoThirdsMajority vs = (b, true) -> vs_height vs = h /\ vs_round vs = r /\ Decided h r (bid_Hash b);
  law_add : forall h hvs v p hvs' a e, VotesOk h hvs -> vote_ok v -> HeightVoteSet_AddVote hvs v p = Val (hvs', a, e) ->
    VotesOk h hvs' /\ hvs_round hvs' = hvs_round hvs;
  law_set_round : forall h hvs r hvs', VotesOk h hvs -> hvs_round hvs <= r -> SetRound hvs r = Val hvs' ->
    VotesOk h hvs' /\ hvs_round hvs' = r;
  law_peer : forall h hvs r t p b hvs' e, VotesOk h hvs -> HeightVoteSet_SetPeerMaj23 hvs r t p b = Val (hvs', e) ->
    VotesOk h hvs' /\ hvs_round hvs' = hvs_round hvs;
  law_new : forall cid h vals hvs, Good cid h vals -> NewHeightVoteSet cid h vals = Val hvs ->
    VotesOk h hvs /\ hvs_round hvs = 0
}.

Section node.
Context `{!Crypto, !BatchCrypto, !Sha256, !TimeCodec, !WrapperCodec, !EvidenceOps, !BlockCodec}.
Context {VI : VotesInterface}.
Context (cfg : ConsensusConfig) (env : Env).
Implicit Types (s : ConsensusState).

(** The votes the node has sent, in order. *)
Definition own_votes (l : list Action) : list Vote :=
  omap (fun a => match a with SendInternal (VoteMessage v) => Some v | _ => None end) l.

(** A polka for something else after the vote, up to round [r]. *)
Definition released (v : Vote) (r : Z) : Prop :=
  exists r' w, v_Round v < r' <= r /\ w <> vote_hash v /\ Polka (v_Height v) r' w.

(** The node is locked on the block it precommitted. *)
Definition locked_on (rs : RoundState) (v : Vote) : Prop :=
  Block_Hash (rs_LockedBlock rs) = Val (vote_hash v) /\ v_Round v <= rs_LockedRound rs.

(** What the sequence of votes of a node shows to the others. *)
Record votes_justified (vs : list Vote) : Prop := {
  vj_polka : forall v, v ∈ vs -> commits_to v -> Polka (v_Height v) (v_Round v) (vote_hash v);
  vj_prevote : forall l1 p l2 v, vs = l1 ++ p :: l2 -> is_prevote p -> v ∈ l1 -> commits_to v ->
    v_Height v = v_Height p -> vote_hash p <> vote_hash v -> released v (v_Round p)
}.

(** A stored block has the hash its commit is for, and that hash was decided. *)
Definition decision_ok (b : Block) (c : Commit) : Prop :=
  bid_Hash (c_BlockID c) <> [] /\ Block_Hash (Some b) = Val (bid_Hash (c_BlockID c)) /\
  Decided (c_Height c) (c_Round c) (bid_Hash (c_BlockID c)).

Record Inv s : Prop := {
  i_round : 0 <= round s;
  i_height : 0 < height s;
  i_votes : exists hvs, rs_Votes (cst_rs s) = Some hvs /\ VotesOk (height s) hvs /\ hvs_round hvs <= round s + 1;
  i_commit : step s = RoundStepCommit -> 0 <= rs_CommitRound (cst_rs s);
  i_locked : hrs_le 0 (rs_LockedRound (cst_rs s)) RoundStepPrecommit 0 (round s) (step s);
  i_sorted : StronglySorted vote_before (own_votes (cst_log s));
  i_past : forall v, v ∈ own_votes (cst_log s) -> hrs_le (v_Height v) (v_Round v) (vote_step v) (height s) (round s) (step s);
  i_timeouts : forall ti, ScheduleTimeout ti ∈ cst_log s -> ti_Height ti < height s \/ (ti_Height ti = height s /\ ti_Round ti <= round s);
  i_lock : forall v, v ∈ own_votes (cst_log s) -> commits_to v -> v_Height v = height s ->
    locked_on (cst_rs s) v \/ released v (round s);
  i_justified : votes_justified (own_votes (cst_log s));
  i_decisions : forall b ps c, SaveBlock b ps c ∈ cst_log s -> decision_ok b c
}.

(** ** Quiet computations keep the invariant *)

Lemma own_votes_app l1 l2 : own_votes (l1 ++ l2) = own_votes l1 ++ own_votes l2.
Proof. apply omap_app. Qed.

Lemma harmless_no_votes s l : Forall (harmless s) l -> own_votes l = [].
Proof. induction 1 as [|a l Ha _ IH]; [done|]. destruct a as [|[]| | | | | | | ]; simpl in *; done. Qed.

Lemma harmless_later s s' l : height s' = height s -> round s <= round s' -> Forall (harmless s) l -> Forall (harmless s') l.
Proof.
  intros Eh Hr Hl. eapply Forall_impl; [exact Hl|]. intros a. destruct a as [ti|[]| | | | | | | ]; simpl; try done. rewrite Eh. lia.
Qed.

Lemma released_mono v r r' : r <= r' -> released v r -> released v r'.
Proof. intros Hle (r0 & w & Hr & Hw & Hp). exists r0, w. split; [lia|done]. Qed.

Lemma locked_on_core s s' v : same_core s s' -> locked_on (cst_rs s') v <-> locked_on (cst_rs s) v.
Proof. intros [_ _ _ E1 E2 _ _ _]. unfold locked_on. by rewrite E1, E2. Qed.

Lemma Inv_quiet s s' : quiet s s' -> Inv s -> Inv s'.
Proof.
  intros [Hc (l & Hl & Hh)] HI. pose proof (harmless_no_votes s l Hh) as Hn. pose proof Hc as [E1 E2 E3 E4 E5 E6 E7 E8].
  assert (Hov : own_votes (cst_log s') = own_votes (cst_log s)) by (by rewrite Hl, own_votes_app, Hn, app_nil_r).
  destruct HI as [I1 I2 I3 I4 I5 I6 I7 I8 I9 I10 I11]. rewrite Forall_forall in Hh.
  split; rewrite ?E1, ?E2, ?E3, ?E4, ?E5, ?E6, ?E7, ?Hov; try done.
  - intros ti. rewrite Hl, elem_of_app. intros [Hi|Hi]; [by apply I8|]. apply Hh in Hi. simpl in Hi. lia.
  - intros v Hv Hcv Hh'. rewrite (locked_on_core s s' v Hc). auto.
  - intros b ps c. rewrite Hl, elem_of_app. intros [Hi|Hi]; [by eapply I11|]. by apply Hh in Hi.
Qed.

(** ** Signing *)

(** A vote of the current height and round for [hash]. *)
Definition cast_in s (t : Z) (hash : bytes) (v : Vote) : Prop :=
  v_Type v = t /\ v_Height v = height s /\ v_Round v = round s /\ vote_hash v = hash.

Lemma cast_in_core s s' t hash v : same_core s s' -> cast_in s' t hash v <-> cast_in s t hash v.
Proof. intros [E1 E2 _ _ _ _ _ _]. unfold cast_in. by rewrite E1, E2. Qed.

(** Continue after a quiet computation. *)
Lemma post_quiet_bind {A B} Q (m : M A) (k : A -> M B) s :
  quiet_at m s -> (forall s1 w, quiet s s1 -> Q s1 (Panic w)) -> (forall a s1, quiet s s1 -> post Q (k a) s1) ->
  post Q (m ≫= k) s.
Proof. intros Hm Hp Hk. apply post_bind. apply quiet_post; [done|]. intros s1 [a|[]|w] Hq; auto. Qed.

Lemma signVote_casts t hash header s :
  post (fun s1 r => quiet s s1 /\ forall v, r = Val (Some v) -> cast_in s t hash v) (State_signVote env t hash header) s.
Proof.
  unfold State_signVote. apply post_quiet_bind; [auto with frame|done|]. intros ok s1 Q1.
  destruct ok; simpl; [|by apply post_ret]. apply post_get.
  destruct (cst_pubKey s1) as [pk|]; [|by apply post_ret].
  apply post_quiet_bind; [auto with frame|by intros; split; [etrans|]|]. intros vals s3 Q3.
  assert (Q03 : quiet s s3) by (by etrans).
  apply post_quiet_bind; [auto with frame|by intros; split; [etrans|]|]. intros time s4 Q4.
  assert (Q04 : quiet s s4) by (by etrans).
  apply post_get_rs.
  apply post_quiet_bind; [auto with frame|by intros; split; [etrans|]|]. intros signed s5 Q5.
  apply post_ret. split; [by etrans|]. intros v Hv. apply Val_inj in Hv. destruct signed as [[sig ts]|]; [|done].
  injection Hv as <-. apply (cast_in_core s s4 t hash _ (proj1 Q04)). done.
Qed.

(** The log has grown by at most one vote, which satisfies [Q]. *)
Definition sends (Q : Vote -> Prop) s s' : Prop :=
  exists l vs, cst_log s' = cst_log s ++ l ++ ((fun v => SendInternal (VoteMessage v)) <$> vs) /\
    Forall (harmless s) l /\ (vs = [] \/ exists v, vs = [v] /\ Q v).
Definition voted (Q : Vote -> Prop) s s' : Prop := same_core s s' /\ sends Q s s'.

Lemma quiet_voted Q s s' : quiet s s' -> voted Q s s'.
Proof.
  intros [Hc (l & Hl & Hh)]. split; [done|]. exists l, []. split; [by rewrite Hl, app_nil_r|]. split; [done|by left].
Qed.

Lemma quiet_then_voted (Q1 Q : Vote -> Prop) s s1 s2 :
  quiet s s1 -> voted Q1 s1 s2 -> (forall v, Q1 v -> Q v) -> voted Q s s2.
Proof.
  intros [Hc (l & Hl & Hh)] [Hc' (l' & vs & Hl' & Hh' & Hvs)] Hm. split; [by etrans|]. exists (l ++ l'), vs.
  rewrite Hl', Hl, !app_assoc. split; [done|]. split.
  - apply Forall_app. split; [done|]. eapply Forall_impl; [exact Hh'|]. intros a. apply (harmless_core s s1 a Hc).
  - destruct Hvs as [?|(v & -> & Hv)]; [by left|right]. exists v. auto.
Qed.

Lemma signAddVote_votes t hash header s : voted (cast_in s t hash) s (signAddVote env t hash header s).1.
Proof.
  change (always (voted (cast_in s t hash) s) (signAddVote env t hash header) s). unfold signAddVote.
  assert (Hs : voted (cast_in s t hash) s s) by (by apply quiet_voted).
  destruct (env_HasPrivValidator env); simpl; [|done].
  apply always_get. destruct (cst_pubKey _) as [pk|]; [|done].
  apply always_read; [exact (validators_reads s)|done|]. intros vals _. destruct (HasAddress vals (pk_Address pk)); simpl; [|done].
  pose proof (signVote_casts t hash header s) as Hsign. destruct Hsign as [Hq Hcast].
  apply always_bind; [by apply quiet_voted|]. intros o Ho.
  destruct o as [v|]; [|by apply always_ret, quiet_voted]. specialize (Hcast v Ho).
  apply (quiet_then_voted (cast_in s t hash) _ s _ _ Hq); [|done]. split; [by split|]. exists [], [v]. split; [done|].
  split; [done|]. right. by exists v.
Qed.

(** Signing after a quiet computation. *)
Lemma signAddVote_after t hash header s s1 :
  quiet s s1 -> voted (cast_in s t hash) s (signAddVote env t hash header s1).1.
Proof.
  intros Hq. eapply quiet_then_voted; [exact Hq|apply signAddVote_votes|]. intros v. by apply (cast_in_core s s1 t hash v (proj1 Hq)).
Qed.

(** ** Moving on *)

Lemma StronglySorted_snoc {A} (R : A -> A -> Prop) l x :
  StronglySorted R l -> (forall y, y ∈ l -> R y x) -> StronglySorted R (l ++ [x]).
Proof.
  intros Hl Hx. apply StronglySorted_app. split; [|split; [done|by repeat constructor]].
  intros y z Hy Hz. apply list_elem_of_singleton in Hz as ->. auto.
Qed.

Lemma votes_justified_snoc vs v :
  votes_justified vs -> (commits_to v -> Polka (v_Height v) (v_Round v) (vote_hash v)) ->
  (is_prevote v -> forall w, w ∈ vs -> commits_to w -> v_Height w = v_Height v -> vote_hash v <> vote_hash w -> released w (v_Round v)) ->
  votes_justified (vs ++ [v]).
Proof.
  intros [J1 J2] Hc Hp. split.
  - intros w Hw. apply elem_of_app in Hw as [Hw|Hw]; [by apply J1|]. by apply list_elem_of_singleton in Hw as ->.
  - intros l1 p l2 w Heq Hpv Hw. destruct l2 as [|x l2 _] using rev_ind.
    + apply app_inj_tail in Heq as [-> ->]. by apply Hp.
    + rewrite app_comm_cons, app_assoc in Heq. apply app_inj_tail in Heq as [Heq _]. by apply (J2 l1 p l2 w).
Qed.

Lemma own_votes_sent vs : own_votes ((fun v => SendInternal (VoteMessage v)) <$> vs) = vs.
Proof. induction vs as [|v vs IH]; [done|]. rewrite fmap_cons. simpl. by rewrite IH. Qed.

(** A vote that may be sent when the node moves from [s] to [s']. *)
Definition may_cast s s' (v : Vote) : Prop :=
  v_Height v = height s /\ v_Round v = round s' /\ hrs_lt 0 (round s) (step s) 0 (round s') (vote_step v) /\ vote_step v <= step s' /\
  (commits_to v -> Polka (v_Height v) (v_Round v) (vote_hash v) /\ locked_on (cst_rs s') v) /\
  (is_prevote v -> forall w, w ∈ own_votes (cst_log s) -> commits_to w -> v_Height w = height s -> vote_hash v <> vote_hash w ->
     released w (round s')).

(** The node moves on within a height. *)
Lemma Inv_advance s s' l vs :
  Inv s -> height s' = height s -> hrs_le 0 (round s) (step s) 0 (round s') (step s') ->
  (exists hvs, rs_Votes (cst_rs s') = Some hvs /\ VotesOk (height s') hvs /\ hvs_round hvs <= round s' + 1) ->
  (step s' = RoundStepCommit -> 0 <= rs_CommitRound (cst_rs s')) ->
  hrs_le 0 (rs_LockedRound (cst_rs s')) RoundStepPrecommit 0 (round s') (step s') ->
  cst_log s' = cst_log s ++ l ++ ((fun v => SendInternal (VoteMessage v)) <$> vs) -> Forall (harmless s') l ->
  (vs = [] \/ exists v, vs = [v] /\ may_cast s s' v) ->
  (forall w, w ∈ own_votes (cst_log s) -> commits_to w -> v_Height w = height s -> locked_on (cst_rs s') w \/ released w (round s')) ->
  Inv s'.
Proof.
  intros [I1 I2 I3 I4 I5 I6 I7 I8 I9 I10 I11] Eh Hle Hv Hc Hlk Hlog Hh Hvs Hold.
  assert (Hov : own_votes (cst_log s') = own_votes (cst_log s) ++ vs).
  { by rewrite Hlog, !own_votes_app, (harmless_no_votes _ _ Hh), own_votes_sent. }
  assert (Hin : forall a, a ∈ cst_log s' -> a ∈ cst_log s \/ harmless s' a \/ exists v, v ∈ vs /\ a = SendInternal (VoteMessage v)).
  { intros a. rewrite Hlog, !elem_of_app. intros [?|[Ha|Ha]]; [by left|right; left|right; right].
    - rewrite Forall_forall in Hh. by apply Hh.
    - apply list_elem_of_fmap in Ha as (v & -> & ?). eauto. }
  unfold hrs_le, hrs_lt in *. split; try done.
  - lia.
  - by rewrite Eh.
  - rewrite Hov. destruct Hvs as [->|(v & -> & E1 & E2 & Hlt & _)]; [by rewrite app_nil_r|].
    apply StronglySorted_snoc; [done|]. intros w Hw. specialize (I7 w Hw). unfold vote_before, hrs_lt in *. lia.
  - intros v. rewrite Hov, elem_of_app. unfold hrs_le. intros [Hw|Hw].
    + specialize (I7 v Hw). lia.
    + destruct Hvs as [->|(v' & -> & E1 & E2 & Hlt & Hls & _)]; [by apply elem_of_nil in Hw|].
      apply list_elem_of_singleton in Hw as ->. unfold hrs_lt in *. lia.
  - intros ti Hti. destruct (Hin _ Hti) as [Ho|[Hn|(v & _ & [=])]].
    + specialize (I8 ti Ho). lia.
    + simpl in Hn. lia.
  - intros w. rewrite Hov, elem_of_app, Eh. intros [Hw|Hw] Hcw Hhw; [by apply Hold|].
    destruct Hvs as [->|(v & -> & E1 & E2 & _ & _ & Hcv & _)]; [by apply elem_of_nil in Hw|].
    apply list_elem_of_singleton in Hw as ->. left. by apply Hcv.
  - rewrite Hov. destruct Hvs as [->|(v & -> & E1 & E2 & _ & _ & Hcv & Hpv)]; [by rewrite app_nil_r|].
    apply votes_justified_snoc; [done|by intros ?; apply Hcv|]. rewrite E1, E2. done.
  - intros b ps c Hb. destruct (Hin _ Hb) as [Ho|[Hn|(v & _ & [=])]]; [by eapply I11|done].
Qed.

(** ** Prevote *)

(** Prevoting [hash] is compatible with the precommits sent before. *)
Definition prevote_allowed s (hash : bytes) : Prop :=
  forall w, w ∈ own_votes (cst_log s) -> commits_to w -> v_Height w = height s -> hash <> vote_hash w -> released w (round s).

Definition prevote_post s : ConsensusState -> Prop :=
  voted (fun v => exists hash, cast_in s PrevoteType hash v /\ prevote_allowed s hash) s.

Lemma doPrevote_post h r s : Inv s -> always (prevote_post s) (defaultDoPrevote env h r) s.
Proof.
  intros HI. unfold defaultDoPrevote. apply always_get_rs.
  assert (Hvote : forall hash header s1, quiet s s1 -> prevote_allowed s hash ->
    always (prevote_post s) (signAddVote env PrevoteType hash header) s1).
  { intros hash header s1 Hq Ha. destruct (signAddVote_after PrevoteType hash header s s1 Hq) as [Hc (l & vs & Hl & Hh & Hvs)].
    split; [done|]. exists l, vs. split; [done|]. split; [done|]. destruct Hvs as [?|(v & -> & Hv)]; [by left|right]. eauto. }
  assert (Hquiet : forall s1, quiet s s1 -> prevote_post s s1) by (intros s1; apply quiet_voted).
  assert (Hfree : rs_LockedBlock (cst_rs s) = None -> forall hash, prevote_allowed s hash).
  { intros Hn hash w Hw Hcw Hh _. destruct (i_lock s HI w Hw Hcw Hh) as [[Hl _]|?]; [|done]. rewrite Hn in Hl.
    apply Val_inj in Hl. by destruct Hcw. }
  destruct (rs_LockedBlock (cst_rs s)) as [b|] eqn:Hlb.
  - apply always_call; [by apply Hquiet|]. intros hash Hhash.
    apply always_quiet; [auto with frame|done|]. intros parts s1 Hq. apply Hvote; [done|].
    intros w Hw Hcw Hh Hne. destruct (i_lock s HI w Hw Hcw Hh) as [[Hl _]|?]; [|done]. rewrite Hlb, Hhash in Hl.
    apply Val_inj in Hl. done.
  - destruct (rs_ProposalBlock (cst_rs s)) as [b|]; [|by apply Hvote; [|apply Hfree]].
    apply always_quiet; [auto with frame|done|]. intros valid s1 Hq.
    destruct valid; simpl; [|by apply Hvote; [|apply Hfree]].
    apply always_call; [by apply Hquiet|]. intros hash Hhash.
    apply always_quiet; [auto with frame|intros; apply Hquiet; by etrans|]. intros parts s2 Hq2. apply Hvote; [by etrans|by apply Hfree].
Qed.

(** The guard of a step, when it lets the node through. *)
Lemma step_not_passed rs h r p :
  step_passed rs h r p = false -> h = rs_Height rs /\ (r > rs_Round rs \/ (r = rs_Round rs /\ rs_Step rs < p)).
Proof.
  unfold step_passed. rewrite !orb_false_iff, andb_false_iff, negb_false_iff. intros [[Hh Hr] Hs]. z_bool.
  split; [done|]. destruct Hs; z_bool; lia.
Qed.

Lemma Inv_hvs s : Inv s -> exists hvs, rs_Votes (cst_rs s) = Some hvs /\ VotesOk (height s) hvs /\ hvs_round hvs <= round s + 1.
Proof. by intros []. Qed.

(** A step whose body is followed by recording and announcing it. *)
Lemma always_step (P Pre : ConsensusState -> Prop) body r p s :
  (forall s1, Pre s1 -> P (upd_rs (set_RoundStep r p) s1)) -> (forall s1 s2, P s1 -> quiet s1 s2 -> P s2) ->
  always Pre body s -> always P (with_defer body (_ ← updateRoundStep r p; newStep)) s.
Proof.
  intros Hset Hq Hb. unfold always, with_defer in *. destruct (body s) as [s1 r1]. simpl in *.
  eapply Hq; [by apply Hset|]. apply (quiet_emit _ (upd_rs (set_RoundStep r p) s1)). exact I.
Qed.

(** The node stays in its height, and height, round and step do not go back. *)
Definition moves s s' : Prop :=
  Inv s' /\ height s' = height s /\ hrs_le 0 (round s) (step s) 0 (round s') (step s') /\ cst_state s' = cst_state s.

Lemma moves_refl s : Inv s -> moves s s.
Proof. unfold moves, hrs_le. split; [done|]. split; [done|]. split; [lia|done]. Qed.
Lemma moves_trans s s1 s2 : moves s s1 -> moves s1 s2 -> moves s s2.
Proof.
  unfold moves, hrs_le. intros (_ & E1 & L1 & T1) (I2 & E2 & L2 & T2). split; [done|]. split; [by rewrite E2|].
  split; [lia|by rewrite T2].
Qed.
Lemma moves_quiet s s1 s2 : moves s s1 -> quiet s1 s2 -> moves s s2.
Proof.
  intros Hm Hq. eapply moves_trans; [exact Hm|]. destruct Hm as (HI & _). destruct (proj1 Hq) as [E1 E2 E3 _ _ _ _ E8].
  split; [by eapply Inv_quiet|]. split; [done|]. rewrite E2, E3. split; [unfold hrs_le; lia|done].
Qed.
Lemma quiet_moves s s1 : Inv s -> quiet s s1 -> moves s s1.
Proof. intros HI. apply moves_quiet. by apply moves_refl. Qed.

(** A move that leaves the lock and the commit round alone, ends at most in round [r], or in
    the round it started in, and goes no further than to the prevote step. *)
Definition lands r s s' : Prop :=
  moves s s' /\ rs_LockedRound (cst_rs s') = rs_LockedRound (cst_rs s) /\ rs_LockedBlock (cst_rs s') = rs_LockedBlock (cst_rs s) /\
  rs_CommitRound (cst_rs s') = rs_CommitRound (cst_rs s) /\ round s' <= Z.max r (round s) /\ step s' <= Z.max (step s) RoundStepPrevote.
Lemma lands_refl r s : Inv s -> lands r s s.
Proof. intros HI. split; [by apply moves_refl|]. split_and!; try done; lia. Qed.
Lemma lands_quiet r s s1 s2 : lands r s s1 -> quiet s1 s2 -> lands r s s2.
Proof.
  intros (Hm & L1 & L2 & L3 & L4 & L5) Hq. split; [by eapply moves_quiet|]. destruct (proj1 Hq) as [_ E2 E3 E4 E5 _ E7 _].
  rewrite E2, E3, E4, E5, E7. done.
Qed.
Lemma lands_trans r s s1 s2 : lands r s s1 -> lands r s1 s2 -> lands r s s2.
Proof.
  intros (Hm & L1 & L2 & L3 & L4 & L5) (Hm' & M1 & M2 & M3 & M4 & M5). split; [by eapply moves_trans|].
  rewrite M1, M2, M3. split_and!; try done; lia.
Qed.
Lemma lands_moves r s s' : lands r s s' -> moves s s'.
Proof. by intros [? _]. Qed.

(** What a vote set that the state holds shows. *)
Lemma Inv_polka s hvs r vs b :
  Inv s -> rs_Votes (cst_rs s) = Some hvs -> Prevotes hvs r = Val (Some vs) -> TwoThirdsMajority vs = (b, true) ->
  Polka (height s) r (bid_Hash b).
Proof. intros HI Hv Hp Hm. destruct (i_votes s HI) as (hvs' & E & Hok & _). eapply law_polka; [|done..]. congruence. Qed.

Lemma enterPrevote_lands h r s : Inv s -> r <= round s -> lands r s (enterPrevote env h r s).1.
Proof.
  intros HI Hr. change (always (lands r s) (enterPrevote env h r) s). unfold enterPrevote. apply always_get_rs.
  destruct (step_passed _ _ _ _) eqn:Hg; [by apply always_ret, lands_refl|].
  apply step_not_passed in Hg as [-> Hg]. assert (r = round s) as -> by lia.
  apply (always_step _ (prevote_post s)); [|intros s1 s2; apply lands_quiet|by apply doPrevote_post].
  intros s1 [[E1 E2 E3 E4 E5 E6 E7 E8] (l & vs & Hl & Hh & Hvs)]. destruct (i_votes s HI) as (hvs & Ev & Hok & Hrd).
  split; [|simpl; split_and!; try done; lia]. split; [|split; [done|split; [simpl; unfold hrs_le, RoundStepPrevote in *; lia|done]]].
  apply (Inv_advance s _ l vs); simpl; try done.
  - unfold hrs_le, RoundStepPrevote in *. lia.
  - exists hvs. by rewrite E1, E6.
  - rewrite E4. pose proof (i_locked s HI). unfold hrs_le, RoundStepPrevote, RoundStepPrecommit in *. lia.
  - by apply (harmless_later s).
  - destruct Hvs as [?|(v & -> & hash & (Ht & Hvh & Hvr & Hash) & Ha)]; [by left|right]. exists v. split; [done|].
    unfold may_cast. simpl. rewrite Hvh, Hvr. unfold vote_step, commits_to, is_prevote. rewrite Ht. simpl.
    split; [done|]. split; [done|]. split; [unfold hrs_lt; lia|]. split; [lia|]. split; [by intros [? _]|]. intros _. by rewrite Hash.
  - intros w Hw Hcw Hhw. unfold locked_on. simpl. rewrite E4, E5. by apply (i_lock s HI).
Qed.
Lemma enterPrevote_inv h r s : Inv s -> r <= round s -> moves s (enterPrevote env h r s).1.
Proof. intros HI Hr. eapply lands_moves, enterPrevote_lands; done. Qed.

(** ** Precommit *)

Lemma HashesTo_true b hash : Block_HashesTo b hash = Val true -> hash <> [] /\ Block_Hash b = Val hash.
Proof.
  unfold Block_HashesTo. destruct (Z.eqb_spec (len hash) 0) as [|Hl]; [done|]. destruct b as [b|]; [|done].
  intros Hb. inv_val. split; [by intros ->|]. destruct (bytes_equal_spec x hash); naive_solver.
Qed.
Lemma HashesTo_false b hash : Block_HashesTo b hash = Val false -> hash <> [] -> Block_Hash b <> Val hash.
Proof.
  unfold Block_HashesTo. intros Hb Hne. destruct (Z.eqb_spec (len hash) 0) as [Hl|Hl].
  { by destruct hash. }
  destruct b as [b|]; [|intros Hh; by apply Val_inj in Hh].
  apply bind_val in Hb as (x & Hx & Hb). rewrite Hx. intros Hh. apply Val_inj in Hh as ->. apply Val_inj in Hb.
  by rewrite bytes_equal_refl in Hb.
Qed.

(** The lock may have moved, in accordance with the precommits sent before. *)
Record lock_moved s s' : Prop := {
  lm_height : height s' = height s;
  lm_round : round s' = round s;
  lm_step : step s' = step s;
  lm_votes : rs_Votes (cst_rs s') = rs_Votes (cst_rs s);
  lm_commit : rs_CommitRound (cst_rs s') = rs_CommitRound (cst_rs s);
  lm_state : cst_state s' = cst_state s;
  lm_locked : rs_LockedRound (cst_rs s') <= round s;
  lm_old : forall w, w ∈ own_votes (cst_log s) -> commits_to w -> v_Height w = height s ->
    locked_on (cst_rs s') w \/ released w (round s)
}.

Lemma lock_moved_refl s : Inv s -> lock_moved s s.
Proof. intros HI. split; try done; [pose proof (i_locked s HI); unfold hrs_le in *; lia|by apply i_lock]. Qed.

Lemma lock_moved_core s s1 s2 : lock_moved s s1 -> same_core s1 s2 -> lock_moved s s2.
Proof.
  intros [] Hc. pose proof Hc as [E1 E2 E3 E4 E5 E6 E7 E8]. split; try (etrans; eassumption).
  - by rewrite E4.
  - intros w Hw Hcw Hhw. rewrite (locked_on_core s1 s2 w Hc). auto.
Qed.

(** The lock is set to [b] or removed; the rest of the round state that matters is the same. *)
Lemma lock_moved_set s s1 r b p :
  same_core s s1 -> r <= round s ->
  (forall w, w ∈ own_votes (cst_log s) -> commits_to w -> v_Height w = height s ->
     (Block_Hash b = Val (vote_hash w) /\ v_Round w <= r) \/ released w (round s)) ->
  lock_moved s (upd_rs (set_Locked r b p) s1).
Proof. intros [] Hr Hw. by split. Qed.

(** What the body of the precommit step guarantees: at most one precommit, for
    nil or for the block with the polka, on which the node is then locked. *)
Definition precommit_post s s' : Prop :=
  lock_moved s s' /\
  sends (fun v => exists hash, cast_in s PrecommitType hash v /\
    (hash <> [] -> Polka (height s) (round s) hash /\ Block_Hash (rs_LockedBlock (cst_rs s')) = Val hash /\
       rs_LockedRound (cst_rs s') = round s)) s s'.

Lemma precommit_post_quiet s s1 : lock_moved s s1 -> extends (harmless s) s s1 -> precommit_post s s1.
Proof. intros Hm (l & Hl & Hh). split; [done|]. exists l, []. split; [by rewrite Hl, app_nil_r|]. split; [done|by left]. Qed.

Lemma extends_lock s s1 s2 : lock_moved s s1 -> extends (harmless s) s s1 -> quiet s1 s2 -> extends (harmless s) s s2.
Proof.
  intros [E1 E2 _ _ _ _ _ _] (l & Hl & Hh) [_ (l2 & Hl2 & Hh2)]. exists (l ++ l2). rewrite Hl2, Hl, app_assoc. split; [done|].
  apply Forall_app. split; [done|]. apply (harmless_later s1); [done|lia|done].
Qed.

Lemma sign_precommit s s1 hash header :
  lock_moved s s1 -> extends (harmless s) s s1 ->
  (hash <> [] -> Polka (height s) (round s) hash /\ Block_Hash (rs_LockedBlock (cst_rs s1)) = Val hash /\
     rs_LockedRound (cst_rs s1) = round s) ->
  always (precommit_post s) (signAddVote env PrecommitType hash header) s1.
Proof.
  intros Hm (l & Hl & Hh) Hhash. unfold always. pose proof (signAddVote_votes PrecommitType hash header s1) as Hsv.
  revert Hsv. generalize ((signAddVote env PrecommitType hash header s1).1). intros s2 [Hc (l2 & vs & Hl2 & Hh2 & Hvs)].
  split; [by eapply lock_moved_core|]. pose proof Hm as [E1 E2 _ _ _ _ _ _]. exists (l ++ l2), vs.
  rewrite Hl2, Hl, !app_assoc. split; [done|]. split.
  - apply Forall_app. split; [done|]. apply (harmless_later s1); [done|lia|done].
  - destruct Hvs as [?|(v & -> & Hv)]; [by left|right]. exists v. split; [done|]. exists hash.
    unfold cast_in in *. rewrite E1, E2 in Hv. split; [done|]. intros Hne. destruct Hc as [_ _ _ E4 E5 _ _ _].
    rewrite E4, E5. auto.
Qed.

Lemma signed_before s w : Inv s -> step s < RoundStepPrecommit -> w ∈ own_votes (cst_log s) -> commits_to w ->
  v_Height w = height s -> v_Round w < round s.
Proof.
  intros HI Hst Hw [Ht _] Hh. pose proof (i_past s HI w Hw) as Hp. unfold vote_step, hrs_le in Hp. rewrite Ht in Hp.
  change (PrecommitType =? PrevoteType) with false in Hp. cbv iota in Hp. lia.
Qed.

(** With a polka for [hash], every older precommit is for [hash] or released. *)
Lemma polka_releases s hash w :
  Inv s -> step s < RoundStepPrecommit -> Polka (height s) (round s) hash -> w ∈ own_votes (cst_log s) -> commits_to w ->
  v_Height w = height s -> hash = vote_hash w \/ released w (round s).
Proof.
  intros HI Hst Hp Hw Hcw Hh. destruct (decide (hash = vote_hash w)) as [?|Hne]; [by left|right].
  exists (round s), hash. rewrite Hh. pose proof (signed_before s w HI Hst Hw Hcw Hh). split; [lia|done].
Qed.

Lemma precommit_block_post b s :
  Inv s -> step s < RoundStepPrecommit -> bid_Hash b <> [] -> Polka (height s) (round s) (bid_Hash b) ->
  always (precommit_post s) (precommit_block env (round s) b) s.
Proof.
  intros HI Hst Hne Hpol. unfold precommit_block. apply always_get_rs.
  assert (Hext : extends (harmless s) s s) by (exists []; by rewrite app_nil_r).
  assert (Hs : precommit_post s s) by (apply precommit_post_quiet; [by apply lock_moved_refl|done]).
  assert (Hset : forall s1 ob p, quiet s s1 -> Block_Hash ob = Val (bid_Hash b) ->
    lock_moved s (upd_rs (set_Locked (round s) ob p) s1)).
  { intros s1 ob p [Hc _] Hob. apply lock_moved_set; [done|lia|]. intros w Hw Hcw Hh.
    destruct (polka_releases s _ w HI Hst Hpol Hw Hcw Hh) as [<-|?]; [left|by right].
    split; [done|]. pose proof (signed_before s w HI Hst Hw Hcw Hh). lia. }
  apply always_call; [done|]. intros [] Hlk.
  - apply HashesTo_true in Hlk as [_ Hlk]. apply always_bind.
    + apply precommit_post_quiet; [by apply (Hset s)|done].
    + intros [] _. apply sign_precommit; [by apply (Hset s)|done|]. intros _. done.
  - pose proof (HashesTo_false _ _ Hlk Hne) as Hnl. apply always_call; [done|]. intros [] Hpr.
    + apply HashesTo_true in Hpr as [_ Hpr].
      assert (Hq1 : forall s1, quiet s s1 -> precommit_post s s1).
      { intros s1 Hq. apply precommit_post_quiet; [|apply Hq]. eapply lock_moved_core; [by apply lock_moved_refl|apply Hq]. }
      apply always_quiet; [auto with frame|done|]. intros blk s1 Q1.
      apply always_quiet; [auto with frame|intros; apply Hq1; by etrans|]. intros valid s2 Q2.
      assert (Q02 : quiet s s2) by (by etrans).
      apply always_call; [by apply Hq1|]. intros [] _. apply always_bind.
      * apply precommit_post_quiet; [by apply Hset|apply Q02].
      * intros [] _. apply sign_precommit; [by apply Hset|apply Q02|]. intros _. done.
    + unfold unlock_for.
      assert (Hun : forall p, lock_moved s (upd_rs (set_Locked (-1) None p) s)).
      { intros p. apply lock_moved_set; [done|pose proof (i_round s HI); lia|]. intros w Hw Hcw Hh. right.
        destruct (polka_releases s _ w HI Hst Hpol Hw Hcw Hh) as [Heq|?]; [|done].
        destruct (i_lock s HI w Hw Hcw Hh) as [[Hl _]|?]; [|done]. by rewrite <- Heq in Hl. }
      apply always_bind; [apply precommit_post_quiet; [apply Hun|exact Hext]|]. intros [] _. set (s0 := (_ s).1) in *.
      assert (Hm : lock_moved s s0) by apply Hun. assert (He : extends (harmless s) s s0) by exact Hext.
      assert (Hq1 : forall s1, quiet s0 s1 -> lock_moved s s1 /\ extends (harmless s) s s1).
      { intros s1 Hq. split; [eapply lock_moved_core; [exact Hm|apply Hq]|by apply (extends_lock s s0)]. }
      apply always_get_rs. apply always_quiet; [auto with frame|intros; by apply precommit_post_quiet; apply Hq1|].
      intros parts s1 Q1. apply always_quiet; [|intros s2 Q2; apply precommit_post_quiet; apply Hq1; by etrans|].
      { quiet_solve. }
      intros [] s2 Q2. apply sign_precommit; [apply Hq1; by etrans|apply Hq1; by etrans|done].
Qed.

Lemma maj23_true o b : maj23 o = (b, true) -> exists vs, o = Some vs /\ TwoThirdsMajority vs = (b, true).
Proof. destruct o as [vs|]; simpl; [eauto|done]. Qed.

(** The majority of prevotes that the node sees is a polka. *)
Lemma prevotes_polka s r o b :
  Inv s -> (prevotes_of r s).2 = Val o -> maj23 o = (b, true) -> Polka (height s) r (bid_Hash b).
Proof.
  intros HI Ho Hm. apply vote_set_val in Ho as (hvs & Hv & Hp). apply maj23_true in Hm as (vs & -> & Hm).
  by eapply Inv_polka.
Qed.
Lemma prevotes_of_reads r s : (prevotes_of r s).1 = s.
Proof. exact (vote_set_reads (fun hvs => Prevotes hvs r) s). Qed.
Lemma precommits_of_reads r s : (precommits_of r s).1 = s.
Proof. exact (vote_set_reads (fun hvs => Precommits hvs r) s). Qed.

Lemma do_precommit_post s :
  Inv s -> step s < RoundStepPrecommit -> always (precommit_post s) (do_precommit env (round s)) s.
Proof.
  intros HI Hst. unfold do_precommit.
  assert (Hext : extends (harmless s) s s) by (exists []; by rewrite app_nil_r).
  assert (Hm0 : lock_moved s s) by (by apply lock_moved_refl).
  assert (Hs : precommit_post s s) by (by apply precommit_post_quiet).
  apply always_read; [apply prevotes_of_reads|done|]. intros o Ho. destruct (maj23 o) as [b ok] eqn:Hmaj.
  destruct ok; simpl; [|by apply sign_precommit]. pose proof (prevotes_polka s _ o b HI Ho Hmaj) as Hpol.
  apply always_read; [apply votes_reads|done|]. intros hvs _. apply always_call; [done|]. intros [pol bid] _.
  apply always_call; [done|]. intros [] _. destruct (Z.eqb_spec (len (bid_Hash b)) 0) as [Hz|Hnz].
  - assert (Hnil : bid_Hash b = []) by (by destruct (bid_Hash b)). rewrite Hnil in Hpol. apply always_get_rs.
    assert (Hrel : forall w, w ∈ own_votes (cst_log s) -> commits_to w -> v_Height w = height s -> released w (round s)).
    { intros w Hw Hcw Hh. destruct (polka_releases s _ w HI Hst Hpol Hw Hcw Hh) as [Heq|?]; [|done]. by destruct Hcw. }
    destruct (rs_LockedBlock (cst_rs s)); cbn [when].
    + assert (Hm : lock_moved s (upd_rs (set_Locked (-1) None None) s)).
      { apply lock_moved_set; [done|pose proof (i_round s HI); lia|]. intros w Hw Hcw Hh. right. by apply Hrel. }
      apply always_bind; [apply precommit_post_quiet; [exact Hm|exact Hext]|]. intros [] _.
      apply sign_precommit; [exact Hm|exact Hext|done].
    + apply always_read; [done|done|]. intros [] _. by apply sign_precommit.
  - apply precommit_block_post; try done. intros Hn. by rewrite Hn in Hnz.
Qed.

Lemma enterPrecommit_inv h r s : Inv s -> r <= round s -> moves s (enterPrecommit env h r s).1.
Proof.
  intros HI Hr. change (always (moves s) (enterPrecommit env h r) s). unfold enterPrecommit. apply always_get_rs.
  destruct (step_passed _ _ _ _) eqn:Hg; [by apply always_ret, moves_refl|].
  apply step_not_passed in Hg as [-> Hg]. assert (r = round s) as -> by lia. assert (Hst : step s < RoundStepPrecommit) by lia.
  apply (always_step _ (precommit_post s)); [|intros s1 s2; apply moves_quiet|by apply do_precommit_post].
  intros s1 [[E1 E2 E3 E4 E5 E6 Hlk Hold] (l & vs & Hl & Hh & Hvs)]. destruct (i_votes s HI) as (hvs & Ev & Hok & Hrd).
  split; [|split; [done|split; [simpl; unfold hrs_le in *; lia|done]]].
  apply (Inv_advance s _ l vs); simpl; try done.
  - unfold hrs_le in *. lia.
  - exists hvs. by rewrite E1, E4.
  - unfold hrs_le. lia.
  - by apply (harmless_later s).
  - destruct Hvs as [?|(v & -> & hash & (Ht & Hvh & Hvr & Hash) & Ha)]; [by left|right]. exists v. split; [done|].
    unfold may_cast. simpl. rewrite Hvh, Hvr. unfold vote_step, commits_to, is_prevote. rewrite Ht, Hash. simpl.
    split; [done|]. split; [done|]. split; [unfold hrs_lt; lia|]. split; [lia|]. split; [|done].
    intros [_ Hne]. destruct (Ha Hne) as (Hp & Hb & Hr0). split; [done|]. unfold locked_on. simpl. rewrite Hash, Hvr. split; [done|lia].
Qed.

(** ** Steps without a vote *)

(** A later step, or a later round, after a quiet computation. *)
Lemma round_moves s s1 r p :
  Inv s -> quiet s s1 -> hrs_le 0 (round s) (step s) 0 r p -> (r = round s -> step s < RoundStepPrecommit \/ step s <= p) ->
  p <> RoundStepCommit -> moves s (upd_rs (set_RoundStep r p) s1).
Proof.
  intros HI [[E1 E2 E3 E4 E5 E6 E7 E8] (l & Hl & Hh)] Hle Hst Hp. destruct (i_votes s HI) as (hvs & Ev & Hok & Hrd).
  split; [|split; [done|split; done]]. apply (Inv_advance s _ l []); simpl; try done.
  - exists hvs. rewrite E1, E6. split; [done|]. split; [done|]. unfold hrs_le in Hle. lia.
  - rewrite E4. pose proof (i_locked s HI). unfold hrs_le in *. lia.
  - by rewrite app_nil_r.
  - apply (harmless_later s); simpl; [done| |done]. unfold hrs_le in Hle. lia.
  - by left.
  - intros w Hw Hcw Hhw. unfold locked_on. simpl. rewrite E4, E5.
    destruct (i_lock s HI w Hw Hcw Hhw) as [?|?]; [by left|right]. eapply released_mono; [|done]. unfold hrs_le in Hle. lia.
Qed.

Lemma enterPrevoteWait_inv h r s : Inv s -> r <= round s -> moves s (enterPrevoteWait cfg h r s).1.
Proof.
  intros HI Hr. change (always (moves s) (enterPrevoteWait cfg h r) s). unfold enterPrevoteWait. apply always_get_rs.
  assert (Hs : moves s s) by (by apply moves_refl).
  destruct (step_passed _ _ _ _) eqn:Hg; [done|]. apply step_not_passed in Hg as [-> Hg]. assert (r = round s) as -> by lia.
  apply always_read; [apply prevotes_of_reads|done|]. intros o _. apply always_call; [done|]. intros any _.
  apply always_call; [done|]. intros [] _.
  apply (always_step _ (quiet s)); [|intros s1 s2; apply moves_quiet|by apply quiet_scheduleTimeout].
  intros s1 Q1. apply round_moves; try done; [unfold hrs_le; lia|lia].
Qed.

Lemma quiet_enterPrecommitWait h r s : r <= round s -> quiet_at (enterPrecommitWait cfg h r) s.
Proof.
  intros Hr. unfold enterPrecommitWait. apply (quiet_read _ (cst_rs s)); [done|].
  destruct (negb (height s =? h)) eqn:Hh; simpl; [apply quiet_ret|]. apply negb_false_iff, Z.eqb_eq in Hh.
  destruct (_ || _); [apply quiet_ret|]. apply quiet_bind; [auto with frame|]. intros o s1 Q1.
  apply quiet_bind; [auto with frame|]. intros any s2 Q2. apply quiet_bind; [auto with frame|]. intros [] s3 Q3.
  assert (Q : quiet s s3) by (etrans; [|etrans]; eassumption). destruct (proj1 Q) as [E1 E2 _ _ _ _ _ _].
  apply quiet_defer; [apply quiet_scheduleTimeout; [by rewrite E1|by rewrite E2]|]. intros s4 _. quiet_solve.
Qed.

(** ** Propose and new round *)

Lemma round_lands s s1 r p :
  Inv s -> quiet s s1 -> hrs_le 0 (round s) (step s) 0 r p -> (r = round s -> step s < RoundStepPrecommit \/ step s <= p) ->
  p <= RoundStepPrevote -> lands r s (upd_rs (set_RoundStep r p) s1).
Proof.
  intros HI Hq Hle Hst Hp. split; [apply round_moves; try done; unfold RoundStepPrevote, RoundStepCommit in *; lia|].
  destruct (proj1 Hq) as [_ _ _ E4 E5 _ E7 _]. simpl. split_and!; try done; lia.
Qed.

Lemma enterPropose_lands h r s : Inv s -> r <= round s -> lands r s (enterPropose cfg env h r s).1.
Proof.
  intros HI Hr. change (always (lands r s) (enterPropose cfg env h r) s). unfold enterPropose. apply always_get_rs.
  destruct (step_passed _ _ _ _) eqn:Hg; [by apply always_ret, lands_refl|].
  apply step_not_passed in Hg as [-> Hg]. assert (r = round s) as -> by lia.
  apply (always_defer _ (quiet s)); [by apply quiet_do_propose|]. intros s1 Q1.
  assert (Hm : lands (round s) s (upd_rs (set_RoundStep (round s) RoundStepPropose) s1)).
  { apply round_lands; try done; [unfold hrs_le; lia|lia]. }
  apply always_bind; [exact Hm|]. intros [] _. change (_ s1).1 with (upd_rs (set_RoundStep (round s) RoundStepPropose) s1).
  set (s2 := upd_rs _ s1) in *. apply always_quiet; [auto with frame|intros; by eapply lands_quiet|]. intros [] s3 Q3.
  apply always_quiet; [auto with frame|intros; eapply lands_quiet; [done|]; by etrans|]. intros complete s4 Q4.
  assert (Hm4 : lands (round s) s s4) by (eapply lands_quiet; [done|]; by etrans).
  assert (Er : round s4 = round s) by (destruct (proj1 Q3) as [_ E3 _ _ _ _ _ _], (proj1 Q4) as [_ E4 _ _ _ _ _ _]; by rewrite E4, E3).
  apply always_get_rs. apply always_when; [done|]. intros _. eapply lands_trans; [exact Hm4|]. rewrite <- Er.
  apply enterPrevote_lands; [apply Hm4|lia].
Qed.
Lemma enterPropose_inv h r s : Inv s -> r <= round s -> moves s (enterPropose cfg env h r s).1.
Proof. intros HI Hr. eapply lands_moves, enterPropose_lands; done. Qed.

Lemma quiet_advance_validators r s : quiet_at (advance_validators r) s.
Proof. unfold advance_validators. quiet_solve. Qed.

Lemma SafeAddInt32_one r next : 0 <= r -> SafeAddInt32 r 1 = Val next -> next = r + 1.
Proof.
  unfold SafeAddInt32. intros Hr. simpl. rewrite (int32_id (MaxInt32 - 1)) by int_lia.
  destruct (r >? MaxInt32 - 1) eqn:Hm; [done|]. intros Hv. apply Val_inj in Hv as <-. z_bool. apply int32_id. int_lia.
Qed.

(** New vote sets for the same height. *)
Lemma Inv_set_Votes s hvs :
  Inv s -> VotesOk (height s) hvs -> hvs_round hvs <= round s + 1 -> moves s (upd_rs (set_Votes (Some hvs)) s).
Proof.
  intros HI Hok Hr. split; [|split; [done|split; [unfold hrs_le; simpl; lia|done]]].
  apply (Inv_advance s _ [] []); simpl; try done; try apply HI.
  - unfold hrs_le. lia.
  - by exists hvs.
  - by rewrite app_nil_r.
  - by left.
Qed.

Lemma enterNewRound_post h r s :
  Inv s -> post (fun s' res => lands r s s' /\ (is_val res = true -> h = height s -> r <= round s')) (enterNewRound cfg env h r) s.
Proof.
  intros HI. unfold enterNewRound. apply post_get_rs. destruct (_ || _ || _) eqn:Hg.
  { apply post_ret. split; [by apply lands_refl|]. intros _ ->.
    rewrite !orb_true_iff, negb_true_iff, andb_true_iff in Hg. destruct Hg as [[Hg|Hg]|[Hg _]]; z_bool; lia. }
  rewrite !orb_false_iff, andb_false_iff, !negb_false_iff in Hg. destruct Hg as [[Hh Hr] Hs]. z_bool. subst h.
  apply post_quiet_bind; [apply quiet_advance_validators|by intros s1 w Q1; split; [eapply lands_quiet; [by apply lands_refl|]|]|]. intros [] s1 Q1.
  set (P := fun s' => lands r s s' /\ r <= round s').
  cut (always P (_ ← updateRoundStep r RoundStepNewRound; _ ← when (negb (r =? 0)) (modify_rs reset_proposal);
    hvs ← votes; next ← call (SafeAddInt32 r 1); hvs ← call (SetRound hvs next); _ ← modify_rs (set_Votes (Some hvs));
    _ ← modify_rs (set_Triggered false); _ ← proposer;
    proof ← (if WaitForTxs cfg && (r =? 0) then needProofBlock env (height s) else mret true);
    if negb proof then when (CreateEmptyBlocksInterval cfg >? 0)
        (scheduleTimeout (CreateEmptyBlocksInterval cfg) (height s) r RoundStepNewRound)
    else enterPropose cfg env (height s) r) s1).
  { intros [Hm Hle]. by split. }
  assert (HP : forall s2 s3, P s2 -> quiet s2 s3 -> P s3).
  { intros s2 s3 [Hm Hle] Hq. split; [by eapply lands_quiet|]. destruct (proj1 Hq) as [_ E2 _ _ _ _ _ _]. by rewrite E2. }
  assert (Hm2 : P (upd_rs (set_RoundStep r RoundStepNewRound) s1)).
  { split; [|simpl; lia]. apply round_lands; try done.
    - unfold hrs_le. destruct Hs as [Hs|Hs]; z_bool; unfold RoundStepNewRound, RoundStepNewHeight in *; lia.
    - intros ->. destruct Hs as [Hs|Hs]; z_bool; unfold RoundStepPrecommit, RoundStepNewHeight in *; lia. }
  apply always_bind; [exact Hm2|]. intros [] _. change (_ s1).1 with (upd_rs (set_RoundStep r RoundStepNewRound) s1).
  set (s2 := upd_rs _ s1) in *. apply always_quiet; [unfold reset_proposal; quiet_solve|intros; by eapply HP|]. intros [] s3 Q3.
  assert (Hm3 : P s3) by (by eapply HP).
  apply always_read; [apply votes_reads|done|]. intros hvs Hv. apply votes_val in Hv.
  apply always_call; [done|]. intros next Hnext. apply always_call; [done|]. intros hvs' Hset.
  pose proof Hm3 as [[[HI3 _] _] Hle3]. destruct (i_votes s3 HI3) as (hvs0 & Ev & Hok & Hrd). assert (hvs0 = hvs) as -> by congruence.
  assert (Er : round s3 = r) by (destruct (proj1 Q3) as [_ E2 _ _ _ _ _ _]; by rewrite E2).
  apply SafeAddInt32_one in Hnext as ->; [|rewrite <- Er; apply HI3].
  assert (Hge : hvs_round hvs <= r + 1) by lia. destruct (law_set_round _ _ _ _ Hok Hge Hset) as [Hok' Hrd'].
  assert (Hm4 : P (upd_rs (set_Votes (Some hvs')) s3)).
  { split; [|done]. eapply lands_trans; [apply Hm3|]. split; [apply Inv_set_Votes; [done|done|lia]|]. simpl. split_and!; try done; lia. }
  apply always_bind; [exact Hm4|]. intros [] _. change (_ s3).1 with (upd_rs (set_Votes (Some hvs')) s3).
  set (s4 := upd_rs _ s3) in *. apply always_quiet; [quiet_solve|intros; by eapply HP|]. intros [] s5 Q5.
  apply always_quiet; [auto with frame|intros; eapply HP; [done|]; by etrans|]. intros pr s6 Q6.
  apply always_quiet; [quiet_solve|intros; eapply HP; [done|]; etrans; [|etrans]; eassumption|]. intros proof s7 Q7.
  assert (Hm7 : P s7) by (eapply HP; [done|]; etrans; [|etrans]; eassumption).
  pose proof Hm7 as [[[HI7 (Eh7 & _)] _] Hle7]. destruct proof; simpl.
  - split; [|]; pose proof (enterPropose_lands (height s) r s7 HI7 Hle7) as Hm8; [by eapply lands_trans; [apply Hm7|]|].
    destruct Hm8 as ((_ & _ & L & _) & _). unfold hrs_le in L. lia.
  - apply always_when; [done|]. intros _. eapply HP; [exact Hm7|]. by apply quiet_scheduleTimeout.
Qed.

Lemma enterNewRound_inv h r s : Inv s -> moves s (enterNewRound cfg env h r s).1.
Proof. intros HI. eapply lands_moves, (enterNewRound_post h r s HI). Qed.
End node.
