(* ===== verification/ConsensusCommitProofs.v ===== *)
(** * The consensus state machine: finishing a height

    A commit stores a block with a majority of precommits and starts the next
    height; every event a node may receive keeps the invariant of
    [ConsensusProofs], and so does a freshly built node. *)
From Stdlib Require Import ZArith Lia Sorting.Sorted Strings.Byte.
From stdpp Require Import base list strings gmap sorting.
From S2P Require Import Prelude.
From S2P Require Import SafeMath.
From S2P Require Import Merkle.
From S2P Require Import Validator.
From S2P Require Import Types.
From S2P Require Import Validation.
From S2P Require Import VoteSet.
From S2P Require Import HeightVoteSet.
From S2P Require Import PartSet.
From S2P Require Import Header.
From S2P Require Import Block.
From S2P Require Import ChainState.
From S2P Require Import Consensus.
From S2P Require Import ConsensusFrame.
From S2P Require Import ConsensusProofs.

Section commit.
Context `{!Crypto, !BatchCrypto, !Sha256, !TimeCodec, !WrapperCodec, !EvidenceOps, !BlockCodec}.
Context {VI : VotesInterface}.
Context (cfg : ConsensusConfig) (env : Env).
Implicit Types (s : ConsensusState).

(** ** Commit *)

(** The part of the invariant that speaks of the log alone; it also holds after a panic. *)
Record log_ok (l : list Action) : Prop := {
  lo_sorted : StronglySorted vote_before (own_votes l);
  lo_justified : votes_justified (own_votes l);
  lo_decisions : forall b ps c, SaveBlock b ps c ∈ l -> decision_ok b c
}.
Lemma Inv_log s : Inv s -> log_ok (cst_log s).
Proof. by intros []. Qed.
Lemma log_ok_quiet s s' : quiet s s' -> log_ok (cst_log s) -> log_ok (cst_log s').
Proof.
  intros [_ (l & Hl & Hh)] [J1 J2 J3]. assert (Hov : own_votes (cst_log s') = own_votes (cst_log s)).
  { by rewrite Hl, own_votes_app, (harmless_no_votes s l Hh), app_nil_r. }
  split; rewrite ?Hov; try done. intros b ps c. rewrite Hl, elem_of_app. intros [?|Hi]; [by eapply J3|].
  rewrite Forall_forall in Hh. by apply Hh in Hi.
Qed.

(** The height that follows a chain state, and the states a node may be given. *)
Definition next_height (st : State) : Z :=
  let h := int64 (sm_LastBlockHeight st + 1) in if h =? 1 then sm_InitialHeight st else h.
Definition good_state (st : State) : Prop :=
  sm_LastBlockHeight st < MaxInt64 /\ forall vals, sm_Validators st = Some vals -> Good (sm_ChainID st) (next_height st) vals.

(** The node is at the start of a height: in round 0, with nothing locked and no commit
    round, and in the step before the first round; only when the configuration lets it skip
    the commit timeout may it have gone on, at most to the prevote step. *)
Definition begun s : Prop :=
  round s = 0 /\ rs_LockedRound (cst_rs s) = -1 /\ rs_LockedBlock (cst_rs s) = None /\ rs_CommitRound (cst_rs s) = -1 /\
  (step s = RoundStepNewHeight \/ (SkipTimeoutCommit cfg = true /\ step s <= RoundStepPrevote)).
Lemma begun_quiet s s' : begun s -> quiet s s' -> begun s'.
Proof. intros Hb [[_ E2 E3 E4 E5 _ E7 _] _]. unfold begun. by rewrite E2, E3, E4, E5, E7. Qed.
Lemma begun_lands s s' : SkipTimeoutCommit cfg = true -> begun s -> lands 0 s s' -> begun s'.
Proof.
  intros Hskip (B1 & B2 & B3 & B4 & B5) ((HI & _) & L1 & L2 & L3 & L4 & L5). pose proof (i_round s' HI).
  unfold begun. rewrite L1, L2, L3. split_and!; try done; [lia|]. right. split; [done|].
  destruct B5 as [E|[_ E]]; unfold RoundStepPrevote, RoundStepNewHeight in *; lia.
Qed.

(** The node stays in its height, or has begun the next one with a good state. *)
Definition ends s s' : Prop := good_state (cst_state s') -> moves s s' \/ (Inv s' /\ height s' = height s + 1 /\ begun s').
Definition ends_post {A} s s' (res : go A) : Prop :=
  (good_state (cst_state s') -> log_ok (cst_log s')) /\ (is_val res = true -> ends s s').

Lemma moves_ends {A} s s' (res : go A) : moves s s' -> ends_post s s' res.
Proof. intros Hm. split; [intros _; apply Inv_log, Hm|intros _ _; by left]. Qed.
Lemma quiet_ends {A} s s' (res : go A) : Inv s -> quiet s s' -> ends_post s s' res.
Proof. intros HI Hq. by apply moves_ends, quiet_moves. Qed.

(** After the new height has begun only quiet computations and moves follow. *)
Lemma ends_quiet s s1 s2 : ends s s1 -> quiet s1 s2 -> ends s s2.
Proof.
  intros He Hq. destruct (proj1 Hq) as [E1 _ _ _ _ _ _ E8]. unfold ends. rewrite E8, E1. intros Hg.
  destruct (He Hg) as [Hm|(HI & Eh & Hb)]; [left; by eapply moves_quiet|right]. split; [by eapply Inv_quiet|]. split; [done|by eapply begun_quiet].
Qed.
Lemma ends_Inv s s' : ends s s' -> good_state (cst_state s') -> Inv s'.
Proof. intros He Hg. destruct (He Hg) as [Hm|[? _]]; [apply Hm|done]. Qed.
Lemma ends_quiet_post {A B} s (m : M A) (k : A -> M B) :
  post (ends_post s) m s -> (forall a s1, ends s s1 -> quiet_at (k a) s1) -> post (ends_post s) (m ≫= k) s.
Proof.
  intros [Hl Hm] Hk. apply post_bind. unfold post. destruct (m s) as [s1 [a|[]|w]]; simpl in *; [|by split].
  specialize (Hm eq_refl). specialize (Hk a s1 Hm). unfold quiet_at in Hk. pose proof (ends_quiet s s1 _ Hm Hk) as He.
  split; [|done]. intros Hg. by apply Inv_log, (ends_Inv s).
Qed.

Lemma quiet_update_last_commit st s : quiet_at (update_last_commit st) s.
Proof. unfold update_last_commit. quiet_solve. Qed.

(** A fresh round state for the height after the one of [s]. *)
Lemma new_height_Inv s st vals hvs start lv rs s' :
  Inv s -> sm_LastBlockHeight st = height s -> good_state st -> sm_Validators st = Some vals ->
  NewHeightVoteSet (sm_ChainID st) (next_height st) vals = Val hvs -> cst_log s' = cst_log s ->
  cst_rs s' = reset_votes hvs lv (reset_round (next_height st) start (sm_Validators st) rs) ->
  Inv s' /\ height s' = height s + 1 /\ begun s'.
Proof.
  intros HI Hlb [Hmax Hgood] Hvals Hnew Hlog Hrs.
  pose proof (i_height s HI) as Hpos. assert (Hnh : next_height st = height s + 1).
  { unfold next_height. rewrite Hlb, int64_id by int_lia. destruct (Z.eqb_spec (height s + 1) 1); [lia|done]. }
  destruct (law_new _ _ _ _ (Hgood vals Hvals) Hnew) as [Hok Hrd]. rewrite Hnh in *.
  destruct HI as [I1 I2 I3 I4 I5 I6 I7 I8 I9 I10 I11].
  split; [|split; [by rewrite Hrs|unfold begun; rewrite Hrs; simpl; split_and!; try done; by left]]. unfold hrs_le in *. split; rewrite ?Hrs, ?Hlog; simpl; unfold hrs_le; try done; try lia.
  - exists hvs. split; [done|]. split; [done|]. lia.
  - intros v Hv. specialize (I7 v Hv). lia.
  - intros ti Hti. specialize (I8 ti Hti). lia.
  - intros v Hv _ Hh. specialize (I7 v Hv). lia.
Qed.

(** The rest of a height change after the vote sets: the state is recorded and announced. *)
Lemma updateToState_post st s :
  Inv s -> 0 <= rs_CommitRound (cst_rs s) -> post (ends_post s) (updateToState cfg env st) s.
Proof.
  intros HI Hcr. unfold updateToState. apply post_get_rs.
  assert (Hs : forall {A} (r : go A), ends_post s s r) by (intros; by apply quiet_ends).
  apply post_call_bind; [done|]. intros [] Hp. apply post_get.
  apply post_call_bind; [done|]. intros [] _. apply post_call_bind; [done|]. intros [] _.
  assert (Hlb : sm_LastBlockHeight st = height s).
  { unfold panic_if in Hp. destruct (_ && _) eqn:Hc; [done|]. pose proof (i_height s HI).
    rewrite !andb_false_iff, negb_false_iff in Hc. destruct Hc as [[Hc|Hc]|Hc]; z_bool; lia. }
  destruct (negb _ && _).
  { apply quiet_post; [auto with frame|]. intros. by apply quiet_ends. }
  apply post_quiet_bind; [apply quiet_update_last_commit|intros; by apply quiet_ends|]. intros [] s1 Q1.
  apply post_quiet_bind; [quiet_solve|intros; apply quiet_ends; [done|by etrans]|]. intros start s2 Q2.
  assert (Q02 : quiet s s2) by (by etrans). assert (HI2 : Inv s2) by (by eapply Inv_quiet).
  set (s3 := upd_rs (reset_round (next_height st) start (sm_Validators st)) s2).
  apply (post_val _ _ _ _ s3 tt); [done|].
  assert (Hlog3 : forall {A} w, ends_post (A:=A) s s3 (Panic w)).
  { intros A w. split; [|done]. intros _. by apply (Inv_log s2). }
  apply post_call_bind; [done|]. intros vals Hvals. apply post_call_bind; [done|]. intros hvs Hnew.
  assert (Hv : sm_Validators st = Some vals) by (destruct (sm_Validators st); simpl in Hvals; congruence).
  set (s4 := upd_rs (reset_votes hvs (sm_LastValidators st)) s3). apply (post_val _ _ _ _ s4 tt); [done|].
  set (s5 := upd_state st s4). apply (post_val _ _ _ _ s5 tt); [done|].
  assert (He : ends s s5).
  { intros Hg. right. destruct (new_height_Inv s2 st vals hvs start (sm_LastValidators st) (cst_rs s2) s5) as (J1 & J2 & J3); try done.
    - rewrite Hlb. symmetry. apply Q02.
    - split; [done|]. rewrite J2. destruct (proj1 Q02) as [E1 _ _ _ _ _ _ _]. by rewrite E1. }
  assert (Q5 : quiet s5 (newStep s5).1) by apply quiet_newStep.
  split; [intros Hg; apply Inv_log, (ends_Inv s); [|done]|intros _]; by eapply ends_quiet.
Qed.

(** ** Storing a block *)

Lemma Inv_save s b ps c : Inv s -> decision_ok b c -> Inv (upd_log (SaveBlock b ps c) s).
Proof.
  intros [I1 I2 I3 I4 I5 I6 I7 I8 I9 I10 I11] Hd.
  assert (Hov : own_votes (cst_log s ++ [SaveBlock b ps c]) = own_votes (cst_log s)).
  { rewrite own_votes_app. simpl. by rewrite app_nil_r. }
  split; simpl; rewrite ?Hov; try done.
  - intros ti. rewrite elem_of_app, list_elem_of_singleton. intros [?|?]; [by apply I8|done].
  - intros b' ps' c'. rewrite elem_of_app, list_elem_of_singleton. intros [?|[= -> -> ->]]; [by eapply I11|done].
Qed.
Lemma moves_save s b ps c : Inv s -> decision_ok b c -> moves s (upd_log (SaveBlock b ps c) s).
Proof. intros HI Hd. split; [by apply Inv_save|]. split; [done|]. split; [unfold hrs_le; simpl; lia|done]. Qed.

(** The precommits the node has for its commit round. *)
Definition commit_for s (b : BlockID) : Prop :=
  exists hvs vs, rs_Votes (cst_rs s) = Some hvs /\ Precommits hvs (rs_CommitRound (cst_rs s)) = Val (Some vs) /\
    TwoThirdsMajority vs = (b, true).

Lemma commit_for_core s s' b : same_core s s' -> commit_for s' b <-> commit_for s b.
Proof. intros [_ _ _ _ _ E6 E7 _]. unfold commit_for. by rewrite E6, E7. Qed.

Lemma precommits_commit s o b :
  (precommits_of (rs_CommitRound (cst_rs s)) s).2 = Val o -> maj23 o = (b, true) -> commit_for s b.
Proof. intros Ho Hm. apply vote_set_val in Ho as (hvs & Hv & Hp). apply maj23_true in Hm as (vs & -> & Hm). by exists hvs, vs. Qed.

(** The commit made of those precommits. *)
Lemma commit_decision s b block vs c :
  Inv s -> commit_for s b -> (precommits_of (rs_CommitRound (cst_rs s)) s).2 = Val (Some vs) -> MakeCommit vs = Val c ->
  bid_Hash b <> [] -> Block_Hash (Some block) = Val (bid_Hash b) -> decision_ok block c.
Proof.
  intros HI (hvs & vs' & Hv & Hp & Hm) Hvs Hc Hne Hb. apply vote_set_val in Hvs as (hvs' & Hv' & Hp').
  assert (hvs' = hvs) as -> by congruence. assert (vs' = vs) as -> by congruence.
  destruct (i_votes s HI) as (hvs' & E & Hok & _). assert (hvs' = hvs) as -> by congruence.
  destruct (law_decided _ _ _ _ _ Hok Hp Hm) as (E1 & E2 & Hd).
  unfold MakeCommit in Hc. inv_val. unfold TwoThirdsMajority in Hm. destruct (vs_maj23 vs) as [m|]; [|done]. injection Hm as ->.
  inv_val. split; [done|]. split; [done|]. simpl. by rewrite E1, E2.
Qed.

(** A move that changes nothing of the round state. *)
Definition saves s s' : Prop := moves s s' /\ cst_rs s' = cst_rs s.

Lemma save_block_post b block parts s :
  Inv s -> commit_for s b -> bid_Hash b <> [] -> Block_Hash (Some block) = Val (bid_Hash b) ->
  always (saves s) (save_block env block parts) s.
Proof.
  intros HI Hcf Hne Hb. unfold save_block. set (s1 := upd_calls (S (cst_calls s)) s).
  assert (Q1 : quiet s s1) by apply quiet_tick. assert (HI1 : Inv s1) by (by eapply Inv_quiet).
  assert (Hm1 : saves s s1) by (split; [by apply quiet_moves|done]).
  apply always_bind; [exact Hm1|]. intros stored _. change (_ s).1 with s1.
  apply always_when; [done|]. intros _. apply always_get_rs.
  apply always_read; [apply precommits_of_reads|done|]. intros o Ho. apply always_call; [done|]. intros vs Hvs.
  assert (o = Some vs) as -> by (destruct o; simpl in Hvs; congruence).
  apply always_call; [done|]. intros c Hc. split; [|done].
  eapply moves_trans; [apply Hm1|]. apply moves_save; [done|].
  by eapply commit_decision.
Qed.

Lemma quiet_scheduleRound0 s : Inv s -> quiet_at (scheduleRound0 env) s.
Proof.
  intros HI. unfold scheduleRound0. apply quiet_bind; [auto with frame|]. intros now s1 [[E1 E2 _ _ _ _ _ _] _].
  apply (quiet_read _ (cst_rs s1)); [done|]. apply quiet_scheduleTimeout; [done|]. rewrite E2. apply HI.
Qed.

(** A continuation that keeps the chain state, moves on when the invariant holds, and leaves
    a height that has begun at its start. *)
Lemma ends_then {A B} s (m : M A) (k : A -> M B) :
  post (ends_post s) m s -> (forall a s1, cst_state (k a s1).1 = cst_state s1) ->
  (forall a s1, Inv s1 -> moves s1 (k a s1).1 /\ (begun s1 -> begun (k a s1).1)) -> post (ends_post s) (m ≫= k) s.
Proof.
  intros [Hl Hm] Hst Hk. apply post_bind. unfold post. destruct (m s) as [s1 [a|[]|w]]; simpl in *; [|by split].
  specialize (Hm eq_refl). specialize (Hst a s1). assert (He : ends s (k a s1).1).
  { intros Hg. rewrite Hst in Hg. destruct (Hk a s1 (ends_Inv s s1 Hm Hg)) as [Hk1 Hk2]. destruct (Hm Hg) as [Hm1|(HI & Eh & Hb)].
    - left. by eapply moves_trans.
    - right. split; [apply Hk1|]. destruct Hk1 as (_ & E & _). rewrite E. auto. }
  split; [|done]. intros Hg. by apply Inv_log, (ends_Inv s).
Qed.

(** ** Applying a block *)

Lemma quiet_state {A} (m : M A) s : quiet_at m s -> cst_state (m s).1 = cst_state s.
Proof. by intros [[_ _ _ _ _ _ _ E] _]. Qed.

Lemma apply_block_post block parts s :
  Inv s -> 0 <= rs_CommitRound (cst_rs s) -> post (ends_post s) (apply_block cfg env block parts) s.
Proof.
  intros HI Hcr. unfold apply_block. apply post_quiet_bind; [auto with frame|intros; by apply quiet_ends|]. intros n s1 Q1.
  assert (HI1 : Inv s1) by (by eapply Inv_quiet).
  assert (Hs1 : forall {A} (r : go A), ends_post s s1 r) by (intros; by apply quiet_ends).
  apply post_call_bind; [done|]. intros hash _. apply post_get. apply post_call_bind; [done|]. intros [cache res] _.
  set (s2 := upd_cache cache s1). assert (Q2 : quiet s1 s2) by (by apply (quiet_modify (upd_cache cache) s1)).
  assert (HI2 : Inv s2) by (by eapply Inv_quiet). apply (post_val _ _ _ _ s2 tt); [done|].
  assert (Q02 : quiet s s2) by (by etrans).
  destruct res as [st|e]; [|apply post_ret; by apply quiet_ends].
  assert (Hcr2 : 0 <= rs_CommitRound (cst_rs s2)) by (destruct (proj1 Q02) as [_ _ _ _ _ _ E _]; by rewrite E).
  apply (post_mono (ends_post s2)).
  { intros s3 r [Hl He]. split; [done|]. intros Hv. specialize (He Hv). intros Hg. destruct (proj1 Q02) as [E1 _ _ _ _ _ _ _].
    destruct (He Hg) as [Hm|(HI3 & Eh & Hb)]; [left|right].
    - eapply moves_trans; [|exact Hm]. by apply quiet_moves.
    - split; [done|]. by rewrite Eh, E1. }
  apply ends_then; [by apply updateToState_post| |].
  - intros a s3. unfold mbind at 1, M_bind at 1. pose proof (quiet_state _ _ (quiet_updatePubKey env s3)) as E.
    destruct (updatePrivValidatorPubKey env s3) as [s4 [[]|[]|w]]; simpl in *; done.
  - intros a s3 HI3. match goal with |- moves _ ?s' /\ _ => cut (quiet s3 s') end.
    { intros Hq. split; [by apply quiet_moves|intros Hb; by eapply begun_quiet]. }
    apply quiet_bind; [apply quiet_updatePubKey|]. intros [] s4 Q4.
    apply quiet_scheduleRound0. by eapply Inv_quiet.
Qed.

Lemma ends_post_from {A} s s1 s2 (r : go A) : moves s s1 -> ends_post s1 s2 r -> ends_post s s2 r.
Proof.
  intros Hm [Hl He]. split; [done|]. intros Hv Hg. destruct (He Hv Hg) as [Hm1|(HI3 & Eh & Hb)]; [left; by eapply moves_trans|right].
  split; [done|]. destruct Hm as (_ & E & _). by rewrite Eh, E.
Qed.

Lemma finalizeCommit_post h s : Inv s -> post (ends_post s) (finalizeCommit cfg env h) s.
Proof.
  intros HI. unfold finalizeCommit. apply post_get_rs.
  assert (Hs : forall s1, quiet s s1 -> forall A (r : go A), ends_post s s1 r) by (intros; by apply quiet_ends).
  destruct (_ || _) eqn:Hg; [apply post_ret; by apply Hs|]. rewrite orb_false_iff, !negb_false_iff in Hg. destruct Hg as [_ Hst]. z_bool.
  pose proof (i_commit s HI Hst) as Hcr.
  apply post_read; [apply precommits_of_reads|by intros; apply Hs|]. intros o Ho. destruct (maj23 o) as [b ok] eqn:Hmaj.
  apply post_quiet_bind; [auto with frame|intros; by apply Hs|]. intros parts s1 Q1.
  apply post_call_bind; [intros; by apply Hs|]. intros [] Hok. unfold panic_if in Hok. destruct ok; [|done].
  apply post_call_bind; [intros; by apply Hs|]. intros [] _.
  apply post_call_bind; [intros; by apply Hs|]. intros same Hsame.
  apply post_call_bind; [intros; by apply Hs|]. intros [] Hsm. destruct same; [|done].
  apply post_call_bind; [intros; by apply Hs|]. intros block Hblk.
  apply post_quiet_bind; [auto with frame|intros; apply Hs; by etrans|]. intros valid s2 Q2.
  assert (Q02 : quiet s s2) by (by etrans). assert (HI2 : Inv s2) by (by eapply Inv_quiet).
  apply post_call_bind; [intros; by apply Hs|]. intros [] _.
  assert (Hpb : rs_ProposalBlock (cst_rs s) = Some block) by (destruct (rs_ProposalBlock (cst_rs s)); simpl in Hblk; congruence).
  rewrite Hpb in Hsame. apply HashesTo_true in Hsame as [Hne Hash].
  assert (Hcf : commit_for s2 b).
  { apply (commit_for_core s s2 b (proj1 Q02)). by eapply precommits_commit. }
  assert (Hsv : always (saves s2) (save_block env block parts) s2) by (by apply (save_block_post b)).
  apply post_bind. unfold post. unfold always in Hsv. destruct (save_block env block parts s2) as [s3 [[]|[]|w]]; simpl in Hsv |- *;
    destruct Hsv as [Hm3 Ers]; [|apply (ends_post_from s s2); [by apply quiet_moves|by apply moves_ends]].
  assert (Hm03 : moves s s3) by (eapply moves_trans; [by apply quiet_moves|done]).
  change (post (ends_post s) (ok ← ask (env_WalOk env); _ ← call (panic_if (negb ok) "failed to write end height to consensus WAL");
    _ ← emit (WriteEndHeight h); apply_block cfg env block parts) s3).
  apply post_quiet_bind; [auto with frame|intros; apply moves_ends; by eapply moves_quiet|]. intros ok s4 Q4.
  assert (Hm4 : moves s s4) by (by eapply moves_quiet).
  apply post_call_bind; [intros; by apply moves_ends|]. intros [] _.
  assert (Hqe : quiet s4 (upd_log (WriteEndHeight h) s4)) by (by apply (quiet_emit _ s4)).
  apply (post_val _ _ _ _ (upd_log (WriteEndHeight h) s4) tt); [done|].
  assert (Hm5 : moves s (upd_log (WriteEndHeight h) s4)) by (by eapply moves_quiet).
  eapply post_mono; [intros; by eapply ends_post_from|]. apply apply_block_post; [apply Hm5|].
  assert (Q45 : quiet s3 (upd_log (WriteEndHeight h) s4)) by (by etrans).
  destruct (proj1 Q45) as [_ _ _ _ _ _ E _], (proj1 Q02) as [_ _ _ _ _ _ E' _]. by rewrite E, Ers, E'.
Qed.

Lemma tryFinalizeCommit_post h s : Inv s -> post (ends_post s) (tryFinalizeCommit cfg env h) s.
Proof.
  intros HI. unfold tryFinalizeCommit. apply post_get_rs.
  assert (Hs : forall A (r : go A), ends_post s s r) by (intros; by apply quiet_ends).
  apply post_call_bind; [by intros|]. intros [] _.
  apply post_read; [apply precommits_of_reads|done|]. intros o _. destruct (maj23 o) as [b ok].
  destruct (_ || _); [by apply post_ret|]. apply post_call_bind; [by intros|]. intros have _.
  apply post_when; [done|]. intros _. by apply finalizeCommit_post.
Qed.

Lemma quiet_do_commit r s : quiet_at (do_commit r) s.
Proof. unfold do_commit. quiet_solve. Qed.

Lemma enterCommit_post h r s : Inv s -> 0 <= r -> post (ends_post s) (enterCommit cfg env h r) s.
Proof.
  intros HI Hr. unfold enterCommit. apply post_get_rs. destruct (_ || _) eqn:Hg; [apply post_ret; by apply quiet_ends|].
  rewrite orb_false_iff, negb_false_iff in Hg. destruct Hg as [_ Hst]. z_bool.
  apply (post_defer (fun s1 _ => quiet s s1)); [apply quiet_do_commit|]. intros s1 r1 Q1. apply post_get_rs.
  destruct (proj1 Q1) as [E1 E2 E3 E4 E5 E6 E7 E8]. destruct Q1 as [_ (l & Hl & Hh)].
  set (s2 := upd_rs (set_RoundStep (round s1) RoundStepCommit) s1). apply (post_val _ _ _ _ s2 tt); [done|].
  set (s3 := upd_calls (S (cst_calls s2)) s2). apply (post_val _ _ _ _ s3 (env_Now env (cst_calls s2))); [done|].
  set (s4 := upd_rs (set_CommitRound r (env_Now env (cst_calls s2))) s3). apply (post_val _ _ _ _ s4 tt); [done|].
  assert (Hm : moves s s4).
  { destruct (i_votes s HI) as (hvs & Ev & Hok & Hrd). split; [|split; [done|split; [simpl; unfold hrs_le; lia|done]]].
    apply (Inv_advance s _ l []); simpl; try done.
    - unfold hrs_le. lia.
    - exists hvs. by rewrite E1, E2, E6.
    - rewrite E2, E4. pose proof (i_locked s HI). unfold hrs_le in *. lia.
    - by rewrite app_nil_r.
    - apply (harmless_later s); simpl; [done|lia|done].
    - by left.
    - intros w Hw Hcw Hhw. unfold locked_on. simpl. rewrite E2, E4, E5. by apply (i_lock s HI). }
  apply post_quiet_bind; [auto with frame|intros; apply moves_ends; by eapply moves_quiet|]. intros [] s5 Q5.
  assert (Hm5 : moves s s5) by (by eapply moves_quiet).
  apply (post_mono (ends_post s5)); [|apply tryFinalizeCommit_post; apply Hm5].
  intros s6 r6 He. destruct (ends_post_from s s5 s6 r6 Hm5 He) as [J1 J2]. split; [done|]. intros Hv. apply J2. by destruct r6.
Qed.

(** ** Handlers that keep the chain state *)

Definition keeps {A} (m : M A) s : Prop := cst_state (m s).1 = cst_state s.

Lemma keeps_bind {A B} (m : M A) (k : A -> M B) s : keeps m s -> (forall a s1, keeps (k a) s1) -> keeps (m ≫= k) s.
Proof.
  unfold keeps, mbind, M_bind. destruct (m s) as [s1 [a|[]|w]]; simpl; intros J1 J2; [|done]. by rewrite J2.
Qed.
Lemma keeps_defer body deferred s : keeps body s -> (forall s1, keeps deferred s1) -> keeps (with_defer body deferred) s.
Proof.
  unfold keeps, with_defer. intros J1 J2. destruct (body s) as [s1 r1]. simpl in J1. specialize (J2 s1).
  destruct (deferred s1) as [s2 r2]. simpl in *. congruence.
Qed.
Lemma keeps_quiet {A} (m : M A) s : quiet_at m s -> keeps m s.
Proof. apply quiet_state. Qed.
Lemma keeps_signAddVote t hash header s : keeps (signAddVote env t hash header) s.
Proof. apply (signAddVote_votes env t hash header s). Qed.

Lemma keeps_doPrevote h r s : keeps (defaultDoPrevote env h r) s.
Proof.
  unfold defaultDoPrevote. apply keeps_bind; [done|]. intros rs s1. destruct (rs_LockedBlock rs).
  - apply keeps_bind; [done|]. intros. apply keeps_bind; [apply keeps_quiet; auto with frame|]. intros. apply keeps_signAddVote.
  - destruct (rs_ProposalBlock rs); [|apply keeps_signAddVote].
    apply keeps_bind; [apply keeps_quiet; auto with frame|]. intros [] s2; simpl; [|apply keeps_signAddVote].
    apply keeps_bind; [done|]. intros. apply keeps_bind; [apply keeps_quiet; auto with frame|]. intros. apply keeps_signAddVote.
Qed.
Lemma keeps_enterPrevote h r s : keeps (enterPrevote env h r) s.
Proof.
  unfold enterPrevote. apply keeps_bind; [done|]. intros rs s1. destruct (step_passed _ _ _ _); [done|].
  apply keeps_defer; [apply keeps_doPrevote|done].
Qed.
Lemma keeps_enterPropose h r s : keeps (enterPropose cfg env h r) s.
Proof.
  unfold enterPropose. apply keeps_bind; [done|]. intros rs s1. destruct (step_passed _ _ _ _); [done|].
  apply keeps_defer.
  - unfold do_propose. apply keeps_bind; [done|]. intros. apply keeps_quiet. quiet_solve.
  - intros s2. apply keeps_bind; [done|]. intros. apply keeps_bind; [done|]. intros.
    apply keeps_bind; [apply keeps_quiet; auto with frame|]. intros complete t0. apply keeps_bind; [done|]. intros. destruct complete; [apply keeps_enterPrevote|done].
Qed.
Lemma keeps_enterNewRound h r s : keeps (enterNewRound cfg env h r) s.
Proof.
  unfold enterNewRound. apply keeps_bind; [done|]. intros rs s1. destruct (_ || _ || _); [done|].
  apply keeps_bind; [apply keeps_quiet, quiet_advance_validators|]. intros. apply keeps_bind; [done|]. intros.
  apply keeps_bind; [by destruct (negb _)|]. intros. apply keeps_bind; [apply keeps_quiet; auto with frame|]. intros.
  apply keeps_bind; [done|]. intros. apply keeps_bind; [done|]. intros. apply keeps_bind; [done|]. intros.
  apply keeps_bind; [done|]. intros. apply keeps_bind; [apply keeps_quiet; auto with frame|]. intros.
  apply keeps_bind; [apply keeps_quiet; quiet_solve|]. intros proof t0. destruct proof; simpl; [apply keeps_enterPropose|]. by destruct (_ >? _).
Qed.

(** ** Proposal parts *)

Lemma complete_block_post h block s : Inv s -> post (ends_post s) (complete_block cfg env h block) s.
Proof.
  intros HI. unfold complete_block.
  assert (Hs : forall s1, quiet s s1 -> forall A (r : go A), ends_post s s1 r) by (intros; by apply quiet_ends).
  apply post_quiet_bind; [quiet_solve|intros; by apply Hs|]. intros [] s1 Q1.
  apply post_quiet_bind; [auto with frame|intros; apply Hs; by etrans|]. intros ok s2 Q2.
  assert (Q02 : quiet s s2) by (by etrans).
  apply post_call_bind; [intros; by apply Hs|]. intros [] _. apply post_call_bind; [intros; by apply Hs|]. intros hash _.
  apply post_get_rs. apply post_read; [apply prevotes_of_reads|intros; by apply Hs|]. intros o _.
  apply post_quiet_bind; [auto with frame|intros; apply Hs; by etrans|]. intros [] s3 Q3.
  apply post_quiet_bind; [quiet_solve|intros; apply Hs; etrans; [|etrans]; eassumption|]. intros complete s4 Q4.
  assert (Q24 : quiet s2 s4) by (by etrans). assert (Q04 : quiet s s4) by (by etrans). assert (HI4 : Inv s4) by (by eapply Inv_quiet).
  assert (Hm4 : moves s s4) by (by apply quiet_moves).
  destruct complete.
  - apply post_bind. pose proof (enterPrevote_inv env h (round s2) s4 HI4) as Hm5. unfold post.
    destruct (proj1 Q24) as [_ E2 _ _ _ _ _ _]. specialize (Hm5 ltac:(lia)).
    destruct (enterPrevote env h (round s2) s4) as [s5 [[]|[]|w]]; simpl in Hm5 |- *; [|apply moves_ends; by eapply moves_trans].
    change (post (ends_post s) (rs ← get_rs; when (maj23 o).2 (enterPrecommit env h (rs_Round rs))) s5).
    assert (Hm05 : moves s s5) by (by eapply moves_trans).
    apply post_get_rs. apply post_when; [by apply moves_ends|]. intros _. apply moves_ends. eapply moves_trans; [exact Hm05|].
    apply enterPrecommit_inv; [apply Hm05|lia].
  - apply post_when; [by apply moves_ends|]. intros _. eapply post_mono; [intros; by eapply ends_post_from|].
    by apply tryFinalizeCommit_post.
Qed.

Lemma ends_post_after {A} s s1 (m : M A) : Inv s -> quiet s s1 -> post (ends_post s1) m s1 -> post (ends_post s) m s1.
Proof. intros HI Hq. apply post_mono. intros. by eapply ends_post_from; [apply quiet_moves|]. Qed.

Lemma addProposalBlockPart_post h r part s : Inv s -> post (ends_post s) (addProposalBlockPart cfg env h r part) s.
Proof.
  intros HI. unfold addProposalBlockPart. apply post_get_rs.
  assert (Hs : forall s1, quiet s s1 -> forall A (r : go A), ends_post s s1 r) by (intros; by apply quiet_ends).
  destruct (negb _); [apply post_ret; by apply Hs|]. destruct (rs_ProposalBlockParts (cst_rs s)) as [ref|].
  2: { apply post_call_bind; [intros; by apply Hs|]. intros. apply post_ret. by apply Hs. }
  apply post_quiet_bind; [auto with frame|intros; by apply Hs|]. intros [added err] s1 Q1.
  destruct err; [apply post_ret; by apply Hs|]. apply post_get. apply post_call_bind; [intros; by apply Hs|]. intros ps _.
  destruct (_ >? _); [apply post_ret; by apply Hs|]. destruct (_ && _); [|apply post_ret; by apply Hs].
  apply post_call_bind; [intros; by apply Hs|]. intros bz _.
  destruct (BlockFromBytes bz) as [block|e|w]; [|apply post_ret; by apply Hs|apply post_call; by apply Hs].
  apply ends_post_after; [done..|]. assert (HI1 : Inv s1) by (by eapply Inv_quiet).
  apply ends_quiet_post; [by apply complete_block_post|]. intros. apply quiet_ret.
Qed.

(** ** Votes *)

(** Moves compose with moves, and with what may end the height. *)
Lemma always_moves_bind {A B} s (m : M A) (k : A -> M B) :
  moves s (m s).1 -> (forall a, (m s).2 = Val a -> moves (m s).1 (k a (m s).1).1) -> always (moves s) (m ≫= k) s.
Proof. intros Hm Hk. apply always_bind; [done|]. intros a Ha. eapply moves_trans; [exact Hm|by apply Hk]. Qed.
Lemma moves_then_ends {A B} s (m : M A) (k : A -> M B) :
  moves s (m s).1 -> (forall a, (m s).2 = Val a -> post (ends_post (m s).1) (k a) (m s).1) -> post (ends_post s) (m ≫= k) s.
Proof.
  intros Hm Hk. apply post_bind. unfold post. destruct (m s) as [s1 [a|[]|w]]; simpl in *; [|by apply moves_ends].
  eapply ends_post_from; [exact Hm|by apply Hk].
Qed.

Lemma unlock_on_polka_moves r b s :
  Inv s -> Polka (height s) r (bid_Hash b) -> moves s (unlock_on_polka env r b s).1.
Proof.
  intros HI Hp. change (always (moves s) (unlock_on_polka env r b) s). unfold unlock_on_polka. apply always_get_rs.
  assert (Hs : moves s s) by (by apply moves_refl).
  destruct (_ && _) eqn:Hg; [|done]. rewrite !andb_true_iff in Hg. destruct Hg as [[Hlb Hlr] Hr]. z_bool.
  apply always_call; [done|]. intros same Hsame. destruct same; [done|].
  assert (Hm : moves s (upd_rs (set_Locked (-1) None None) s)).
  { pose proof (i_round s HI). destruct (i_votes s HI) as (hvs & Ev & Hok & Hrd).
    split; [|split; [done|split; [simpl; unfold hrs_le; lia|done]]].
    apply (Inv_advance s _ [] []); simpl; try done; try apply HI.
    - unfold hrs_le. lia.
    - unfold hrs_le. lia.
    - by rewrite app_nil_r.
    - by left.
    - intros w Hw Hcw Hhw. right. destruct (i_lock s HI w Hw Hcw Hhw) as [[Hl Hle]|?]; [|done].
      exists r, (bid_Hash b). rewrite Hhw. split; [lia|]. split; [|done]. intros Heq. destruct Hcw as [_ Hne].
      rewrite <- Heq in Hl, Hne. by apply (HashesTo_false _ _ Hsame Hne). }
  apply always_bind; [exact Hm|]. intros [] _. eapply moves_quiet; [exact Hm|]. apply quiet_ask.
Qed.

Lemma prevote_transition_moves r o s : Inv s -> moves s (prevote_transition cfg env (height s) r o s).1.
Proof.
  intros HI. change (always (moves s) (prevote_transition cfg env (height s) r o) s). unfold prevote_transition. apply always_get_rs.
  assert (Hs : moves s s) by (by apply moves_refl).
  assert (Hq : forall s1, quiet s s1 -> moves s s1) by (intros; by apply quiet_moves).
  apply always_quiet; [quiet_solve|done|]. intros skip s1 Q1. assert (HI1 : Inv s1) by (by eapply Inv_quiet).
  destruct (proj1 Q1) as [E1 E2 _ _ _ _ _ _].
  assert (Ht : forall s2 s3, quiet s s2 -> moves s2 s3 -> moves s s3) by (intros; eapply moves_trans; [by apply Hq|done]).
  destruct skip; [by apply (Ht s1); [|apply enterNewRound_inv]|].
  destruct (_ && _) eqn:Hg.
  - apply andb_true_iff in Hg as [Hr _]. z_bool. destruct (maj23 o) as [b ok].
    apply always_quiet; [quiet_solve|intros; apply Hq; by etrans|]. intros complete s2 Q2. assert (Q02 : quiet s s2) by (by etrans).
    assert (HI2 : Inv s2) by (by eapply Inv_quiet). destruct (proj1 Q02) as [F1 F2 _ _ _ _ _ _].
    destruct (_ && _); [apply (Ht s2); [done|apply enterPrecommit_inv; [done|lia]]|].
    apply always_call; [by apply Hq|]. intros any _. apply always_when; [by apply Hq|]. intros _.
    apply (Ht s2); [done|]. apply enterPrevoteWait_inv; [done|lia].
  - destruct (rs_Proposal (cst_rs s)) as [pr|]; [|by apply Hq].
    destruct ((0 <=? p_POLRound pr) && (p_POLRound pr =? r)); [|by apply always_ret, Hq].
    apply always_quiet; [auto with frame|intros; apply Hq; by etrans|]. intros complete s2 Q2.
    assert (Q02 : quiet s s2) by (by etrans). apply always_when; [by apply Hq|]. intros _. apply (Ht s2); [done|].
    destruct (proj1 Q02) as [F1 F2 _ _ _ _ _ _]. apply enterPrevote_inv; [by eapply Inv_quiet|lia].
Qed.

Lemma added_prevote_moves v s : Inv s -> moves s (added_prevote cfg env (height s) v s).1.
Proof.
  intros HI. change (always (moves s) (added_prevote cfg env (height s) v) s). unfold added_prevote.
  assert (Hs : moves s s) by (by apply moves_refl).
  apply always_read; [apply prevotes_of_reads|done|]. intros o Ho. destruct (maj23 o) as [b ok] eqn:Hmaj.
  assert (Hfine : moves s ((if ok then unlocked ← unlock_on_polka env (v_Round v) b;
            if negb unlocked then mret false else valid_on_polka env (v_Round v) b else mret true) s).1).
  { destruct ok; [|done]. pose proof (prevotes_polka s _ o b HI Ho Hmaj) as Hp.
    pose proof (unlock_on_polka_moves _ b s HI Hp) as Hm.
    apply (always_moves_bind s (unlock_on_polka env (v_Round v) b)); [done|]. intros unlocked _. apply quiet_moves; [apply Hm|].
    destruct unlocked; [apply quiet_valid_on_polka|apply (quiet_ret false)]. }
  apply always_moves_bind; [exact Hfine|]. intros fine _. pose proof Hfine as (HI1 & E1 & _).
  set (s1 := (_ s).1) in *. destruct fine; simpl; [|by apply (moves_refl s1)]. rewrite <- E1.
  pose proof (prevote_transition_moves (v_Round v) o s1 HI1) as Hm2.
  apply (always_moves_bind s1); [exact Hm2|]. intros [] _. apply moves_refl, Hm2.
Qed.

Lemma enterNewRound_reaches r s : Inv s -> (enterNewRound cfg env (height s) r s).2 = Val tt -> r <= round (enterNewRound cfg env (height s) r s).1.
Proof. intros HI Hv. apply (enterNewRound_post cfg env (height s) r s HI); [by rewrite Hv|done]. Qed.

Lemma added_precommit_post v s :
  Inv s -> 0 <= v_Round v -> post (ends_post s) (added_precommit cfg env (height s) v) s.
Proof.
  intros HI Hr. unfold added_precommit. assert (Hs : forall A (r : go A), ends_post s s r) by (intros; by apply quiet_ends).
  apply post_read; [apply precommits_of_reads|done|]. intros o Ho. destruct (maj23 o) as [b ok].
  pose proof (enterNewRound_inv cfg env (height s) (v_Round v) s HI) as Hm1.
  pose proof (enterNewRound_reaches (v_Round v) s HI) as Hr1. set (s1 := (enterNewRound _ _ _ _ _).1) in *.
  destruct ok.
  - apply moves_then_ends; [exact Hm1|]. intros [] Hv. specialize (Hr1 Hv). fold s1.
    pose proof (enterPrecommit_inv env (height s) (v_Round v) s1 (proj1 Hm1) Hr1) as Hm2.
    apply moves_then_ends; [exact Hm2|]. intros [] _. set (s2 := (enterPrecommit _ _ _ _).1) in *.
    assert (Hr2 : v_Round v <= round s2) by (destruct Hm2 as (_ & _ & L & _); unfold hrs_le in L; lia).
    destruct (negb _); [|apply quiet_post; [by apply quiet_enterPrecommitWait|]; intros; apply quiet_ends; [apply Hm2|done]].
    apply ends_then; [apply enterCommit_post; [apply Hm2|done]| |].
    + intros [] s3. apply keeps_bind; [destruct (SkipTimeoutCommit cfg); done|]. intros all s4. apply keeps_bind; [done|].
      intros rs s5. destruct all; [apply keeps_enterNewRound|done].
    + intros [] s3 HI3. change (always (fun s' => moves s3 s' /\ (begun s3 -> begun s')) (all ← (if SkipTimeoutCommit cfg then call (has_all o) else mret false); rs ← get_rs;
        when all (enterNewRound cfg env (rs_Height rs) 0)) s3).
      assert (Hs3 : moves s3 s3 /\ (begun s3 -> begun s3)) by (split; [by apply moves_refl|done]).
      apply always_read; [by destruct (SkipTimeoutCommit cfg)|done|]. intros all Hall. apply always_get_rs.
      destruct all; [|done]. assert (Hskip : SkipTimeoutCommit cfg = true) by (by destruct (SkipTimeoutCommit cfg)).
      pose proof (enterNewRound_post cfg env (height s3) 0 s3 HI3) as [Hl _]. split; [apply Hl|]. intros Hb. by apply (begun_lands s3).
  - apply post_get_rs. apply post_read; [by destruct (_ <=? _)|done|]. intros any _. apply post_when; [done|]. intros _.
    apply moves_then_ends; [exact Hm1|]. intros [] Hv. specialize (Hr1 Hv). fold s1.
    apply quiet_post; [by apply quiet_enterPrecommitWait|]. intros. apply quiet_ends; [apply Hm1|done].
Qed.

Lemma add_last_commit_moves v s : Inv s -> moves s (add_last_commit cfg env v s).1.
Proof.
  intros HI. change (always (moves s) (add_last_commit cfg env v) s). unfold add_last_commit. apply always_get_rs.
  assert (Hq : forall s1, quiet s s1 -> moves s s1) by (intros; by apply quiet_moves).
  destruct (negb _); [by apply Hq|]. apply always_call; [by apply Hq|]. intros [[vs added] err] _.
  apply always_quiet; [quiet_solve|done|]. intros [] s1 Q1. destruct added; [|by apply Hq].
  apply always_quiet; [auto with frame|intros; apply Hq; by etrans|]. intros ok s2 Q2. assert (Q02 : quiet s s2) by (by etrans).
  destruct ok; [|by apply Hq]. apply always_quiet; [by apply quiet_emit|intros; apply Hq; by etrans|]. intros [] s3 Q3.
  apply always_quiet; [quiet_solve|intros; apply Hq; etrans; [|etrans]; eassumption|]. intros all s4 Q4.
  assert (Q04 : quiet s s4) by (etrans; [|etrans]; eassumption). assert (HI4 : Inv s4) by (by eapply Inv_quiet).
  assert (Hw : moves s4 (when all (rs ← get_rs; enterNewRound cfg env (rs_Height rs) 0) s4).1).
  { apply (always_when (moves s4)); [by apply moves_refl|]. intros _. apply always_get_rs. by apply enterNewRound_inv. }
  apply always_bind; [|intros [] _]; (eapply moves_trans; [by apply Hq|exact Hw]).
Qed.

Lemma addVote_post v p s : Inv s -> vote_ok v -> post (ends_post s) (State_addVote cfg env v p) s.
Proof.
  intros HI Hv. unfold State_addVote. apply post_get_rs.
  assert (Hs : forall A (r : go A), ends_post s s r) by (intros; by apply quiet_ends).
  destruct (_ && _); [by apply moves_ends, add_last_commit_moves|]. destruct (negb _); [by apply post_ret|].
  apply post_read; [apply votes_reads|done|]. intros hvs Hhvs. apply votes_val in Hhvs.
  apply post_call_bind; [done|]. intros [[hvs' added] err] Hadd.
  destruct (i_votes s HI) as (hvs0 & Ev & Hok & Hrd). assert (hvs0 = hvs) as -> by congruence.
  destruct (law_add _ _ _ _ _ _ _ Hok Hv Hadd) as [Hok' Hrd'].
  pose proof (Inv_set_Votes s hvs' HI Hok' ltac:(lia)) as Hm1.
  apply moves_then_ends; [exact Hm1|]. intros [] _. set (s1 := (_ s).1) in *. assert (HI1 : Inv s1) by apply Hm1.
  destruct added; cbn [negb]; [|apply post_ret; by apply quiet_ends].
  apply post_quiet_bind; [auto with frame|intros; by apply quiet_ends|]. intros ok s2 Q2.
  destruct ok; cbn [negb]; [|apply post_ret; by apply quiet_ends].
  assert (Q3 : quiet s2 (upd_log (FireVote v) s2)) by (by apply (quiet_emit _ s2)). apply (post_val _ _ _ _ (upd_log (FireVote v) s2) tt); [done|].
  set (s3 := upd_log _ s2) in *. assert (Q13 : quiet s1 s3) by (by etrans). assert (HI3 : Inv s3) by (by eapply Inv_quiet).
  assert (E : height s = height s3) by (destruct (proj1 Q13) as [-> _ _ _ _ _ _ _]; done). rewrite E.
  apply ends_post_after; [done..|]. destruct (_ =? PrevoteType).
  - apply moves_ends. pose proof (added_prevote_moves v s3 HI3) as Hm.
    apply (always_moves_bind s3); [exact Hm|]. intros fine _. by apply moves_refl, Hm.
  - destruct (_ =? PrecommitType); [|apply post_call; by apply quiet_ends].
    apply ends_quiet_post; [apply added_precommit_post; [done|by apply vote_ok_round]|]. intros. apply quiet_ret.
Qed.

(** ** Events *)

(** What may be delivered to a node: checked votes, and timeouts it has scheduled itself. *)
Definition event_ok s (ev : Event) : Prop :=
  match ev with
  | EvMsg (mkMsgInfo (VoteMessage v) _) => vote_ok v
  | EvTimeout ti => ScheduleTimeout ti ∈ cst_log s
  | _ => True
  end.

Lemma handleMsg_post mi s : Inv s -> event_ok s (EvMsg mi) -> post (ends_post s) (handleMsg cfg env mi) s.
Proof.
  intros HI Hok. unfold handleMsg. destruct mi as [msg peer]. simpl in *.
  assert (Hst : forall (b : bool) s1, quiet_at (when b (emit (SendStats (mkMsgInfo msg peer)))) s1) by (intros [] s1; [by apply quiet_emit|apply quiet_ret]).
  destruct msg as [pr|h r part|v].
  - apply quiet_post; [quiet_solve|]. intros. by apply quiet_ends.
  - apply ends_quiet_post; [by apply addProposalBlockPart_post|]. intros [added err] s1 _. apply Hst.
  - apply ends_quiet_post; [|intros [added err] s1 _; apply Hst]. unfold tryAddVote.
    apply ends_quiet_post; [by apply addVote_post|]. intros [added err] s1 _. quiet_solve.
Qed.

Lemma handleTimeout_moves ti s : Inv s -> ScheduleTimeout ti ∈ cst_log s -> moves s (handleTimeout cfg env ti s).1.
Proof.
  intros HI Hti. change (always (moves s) (handleTimeout cfg env ti) s). unfold handleTimeout. apply always_get_rs.
  assert (Hs : moves s s) by (by apply moves_refl). pose proof (i_round s HI) as Hr0.
  destruct (negb _ || _ || _) eqn:Hg; [done|]. rewrite !orb_false_iff, negb_false_iff in Hg. destruct Hg as [[Hh Hr] _]. z_bool.
  pose proof (i_timeouts s HI ti Hti) as Hle. assert (Er : ti_Round ti <= round s) by lia.
  destruct (_ =? RoundStepNewHeight); [by apply enterNewRound_inv|]. destruct (_ =? RoundStepNewRound); [by apply enterPropose_inv|].
  destruct (_ =? RoundStepPropose); [by apply enterPrevote_inv|]. destruct (_ =? RoundStepPrevoteWait); [by apply enterPrecommit_inv|].
  destruct (_ =? RoundStepPrecommitWait); [|done].
  pose proof (enterPrecommit_inv env (ti_Height ti) (ti_Round ti) s HI Er) as Hm.
  apply (always_moves_bind s); [exact Hm|]. intros [] _. apply enterNewRound_inv, Hm.
Qed.

Lemma handleTxsAvailable_moves s : Inv s -> moves s (handleTxsAvailable cfg env s).1.
Proof.
  intros HI. change (always (moves s) (handleTxsAvailable cfg env) s). unfold handleTxsAvailable. apply always_get_rs.
  assert (Hq : forall s1, quiet s s1 -> moves s s1) by (intros; by apply quiet_moves). pose proof (i_round s HI) as Hr0.
  destruct (negb _); [by apply Hq|]. destruct (_ =? RoundStepNewHeight).
  - apply always_quiet; [auto with frame|done|]. intros proof s1 Q1. destruct proof; [by apply Hq|].
    apply always_quiet; [auto with frame|intros; apply Hq; by etrans|]. intros now s2 Q2. assert (Q02 : quiet s s2) by (by etrans).
    apply Hq. etrans; [exact Q02|]. destruct (proj1 Q02) as [E1 E2 _ _ _ _ _ _]. apply quiet_scheduleTimeout; [by rewrite E1|by rewrite E2].
  - destruct (_ =? RoundStepNewRound); [by apply enterPropose_inv|by apply Hq].
Qed.

Lemma peer_maj23_moves h r t p b s : Inv s -> moves s (peer_maj23 h r t p b s).1.
Proof.
  intros HI. change (always (moves s) (peer_maj23 h r t p b) s). unfold peer_maj23. apply always_get_rs.
  assert (Hs : moves s s) by (by apply moves_refl). destruct (negb _); [done|].
  apply always_read; [apply votes_reads|done|]. intros hvs Hhvs. apply votes_val in Hhvs.
  apply always_call; [done|]. intros [hvs' err] Hset. destruct (i_votes s HI) as (hvs0 & Ev & Hok & Hrd).
  assert (hvs0 = hvs) as -> by congruence. destruct (law_peer _ _ _ _ _ _ _ _ Hok Hset) as [Hok' Hrd'].
  apply (Inv_set_Votes s hvs'); [done|done|lia].
Qed.

(** Every event keeps the node in order: it stays in its height, or has begun
    the next; also when the handler panics the log is in order. *)
Lemma receive_post ev s : Inv s -> event_ok s ev -> post (ends_post s) (receive cfg env ev) s.
Proof.
  intros HI Hok. destruct ev as [mi|ti| |h r t p b]; cbn [receive].
  - apply post_quiet_bind; [quiet_solve|intros; by apply quiet_ends|]. intros [] s1 Q1.
    apply ends_post_after; [done..|]. apply handleMsg_post; [by eapply Inv_quiet|]. by destruct mi as [[]].
  - by apply moves_ends, handleTimeout_moves.
  - by apply moves_ends, handleTxsAvailable_moves.
  - by apply moves_ends, peer_maj23_moves.
Qed.
End commit.
