(* ===== verification/ConsensusVotes.v ===== *)
(** * The votes of a height, as the consensus state machine sees them

    Every vote a vote set holds was handed to [AddVote]; so if all delivered
    votes satisfy a predicate [L], the votes behind a majority do.  This
    discharges the interface [VotesInterface] of [ConsensusProofs]: a polka is a
    list of valid prevotes satisfying [L] with more than two thirds of the
    power. *)
From Stdlib Require Import ZArith Lia Strings.Byte.
From stdpp Require Import base list strings gmap.
From S2P Require Import Prelude.
From S2P Require Import SafeMath.
From S2P Require Import Merkle.
From S2P Require Import Validator.
From S2P Require Import ProposerProofs.
From S2P Require Import ValidatorSetProofs.
From S2P Require Import Types.
From S2P Require Import SignBytesProofs.
From S2P Require Import Validation.
From S2P Require Import VoteSet.
From S2P Require Import VoteSetProofs.
From S2P Require Import HeightVoteSet.
From S2P Require Import HeightVoteSetProofs.
From S2P Require Import PartSet.
From S2P Require Import Header.
From S2P Require Import Block.
From S2P Require Import ChainState.
From S2P Require Import Consensus.
From S2P Require Import ConsensusProofs.

(** ** Every vote held was added *)

Section held.
Context `{!Crypto, !TimeCodec} (L : Vote -> Prop).

Definition only (votes : list (option Vote)) : Prop := Forall (from_option L True) votes.
Definition only_set (vs : VoteSet) : Prop :=
  only (vs_votes vs) /\ map_Forall (fun _ bv => only (bv_votes bv)) (vs_votesByBlock vs).
Definition only_height (hvs : HeightVoteSet) : Prop :=
  map_Forall (fun _ rvs => only_set (rv_Prevotes rvs) /\ only_set (rv_Precommits rvs)) (hvs_roundVoteSets hvs).

Lemma only_lookup votes i v : only votes -> votes !! i = Some (Some v) -> L v.
Proof. intros Ho Hi. by apply (Forall_lookup_1 _ _ _ _ Ho Hi). Qed.
Lemma only_none n : only (replicate n None).
Proof. by apply Forall_replicate. Qed.

Lemma slice_set_only votes i v votes' : only votes -> L v -> slice_set votes i (Some v) = Val (E := Empty_set) votes' -> only votes'.
Proof. intros Ho Hv Hs. apply slice_set_val in Hs as [_ ->]. by apply Forall_insert. Qed.

Lemma copy_votes_only dst src votes : only dst -> only src -> copy_votes dst src = Val votes -> only votes.
Proof.
  intros Hd Hs. revert dst votes Hd. induction Hs as [|x src Hx _ IH]; intros dst votes Hd Hc; cbn [copy_votes] in Hc.
  - by inv_val.
  - destruct Hd as [|y dst Hy Hd].
    + destruct x; [done|]. apply (IH [] votes); [constructor|done].
    + inv_val. apply IH in H1; [|done]. constructor; [by destruct x|done].
Qed.

Lemma put_vote_only vs v p vs' : only_set vs -> L v -> put_vote vs v p = Val vs' -> only_set vs'.
Proof.
  intros [Ho Hb] Hv Hp. unfold put_vote in Hp. apply bind_val in Hp as (votes & Hs & Hp).
  apply bind_val in Hp as ([bits ?] & _ & Hp). inv_val. split; [|done]. by eapply slice_set_only.
Qed.

Lemma add_canonical_only vs v key p vs' c : only_set vs -> L v -> add_canonical vs v key p = Val (vs', c) -> only_set vs'.
Proof.
  intros Ho Hv Hc. unfold add_canonical in Hc. inv_val. destruct x as [e|]; inv_val; simplify_eq.
  - destruct (match vs_maj23 vs with Some m => _ | None => _ end); [by eapply put_vote_only|by inv_val].
  - by eapply put_vote_only.
Qed.

Lemma add_to_block_only vs bv v key p vs' :
  only_set vs -> only (bv_votes bv) -> L v -> add_to_block vs bv v key p = Val vs' -> only_set vs'.
Proof.
  intros [Ho Hb] Hbv Hv Ha. unfold add_to_block in Ha. apply bind_val in Ha as ([tot vals] & _ & Ha).
  apply bind_val in Ha as (x & Hx0 & Ha). assert (Hx : only (bv_votes x)).
  { unfold blockVotes_addVerifiedVote in Hx0. apply bind_val in Hx0 as ([e|] & _ & Hx0); [by inv_val|].
    apply bind_val in Hx0 as ([bits ?] & _ & Hx0). apply bind_val in Hx0 as (votes & Hs & Hx0). inv_val. by eapply slice_set_only. }
  assert (Hw : only_set (with_block (with_valSet vs vals) key x)). { split; [done|]. by apply map_Forall_insert_2. }
  destruct (_ && _); [|by inv_val]. destruct (vs_maj23 _); inv_val; [done|]. destruct Hw as [Hw1 Hw2].
  split; [|done]. by apply (copy_votes_only (vs_votes vs) (bv_votes x)).
Qed.

Lemma addVerifiedVote_only vs v key p vs' a c :
  only_set vs -> L v -> addVerifiedVote vs v key p = Val (vs', a, c) -> only_set vs'.
Proof.
  intros Ho Hv Ha. unfold addVerifiedVote in Ha. apply bind_val in Ha as ([vs1 c1] & Hc & Ha).
  pose proof (add_canonical_only _ _ _ _ _ _ Ho Hv Hc) as Ho1.
  destruct (vs_votesByBlock vs1 !! key) as [bv|] eqn:Hk.
  - pose proof (map_Forall_lookup_1 _ _ _ _ (proj2 Ho1) Hk) as Hbv. simpl in Hbv.
    destruct c1; [destruct (negb _); inv_val; simplify_eq; [done|]|inv_val; simplify_eq]; by eapply add_to_block_only.
  - destruct c1; inv_val; simplify_eq; [done|]. refine (add_to_block_only _ _ _ _ _ _ Ho1 _ Hv H1); apply only_none.
Qed.

(** [AddVote] holds nothing but what it held and the vote it is given. *)
Lemma AddVote_only vs v vs' a e : only_set vs -> L v -> AddVote (Some vs) (Some v) = Val (vs', a, e) -> only_set vs'.
Proof.
  intros Ho Hv Ha. unfold AddVote, addVote in Ha.
  repeat match type of Ha with (if ?b then _ else _) = _ => destruct b; [by simplify_eq|] end.
  destruct (Validator.GetByIndex _ _) as [[addr val]|]; [|by simplify_eq].
  destruct (negb _); [by simplify_eq|]. apply bind_val in Ha as (x & _ & Ha). destruct x; [by simplify_eq|].
  destruct (PubKey_ val); [|done]. destruct (Vote_Verify _ _ _); [|by simplify_eq|done].
  apply bind_val in Ha as ([[vs1 a1] c] & Hadd & Ha). apply addVerifiedVote_only in Hadd; [|done..].
  destruct c; inv_val; by simplify_eq.
Qed.

Lemma SetPeerMaj23_only vs p b : only_set vs -> only_set (SetPeerMaj23 vs p b).1.
Proof.
  intros [Ho Hb]. unfold SetPeerMaj23. destruct (vs_peerMaj23s vs !! p); [done|]. cbn [vs_votesByBlock with_peer].
  destruct (vs_votesByBlock vs !! _) as [bv|] eqn:Hk.
  - pose proof (map_Forall_lookup_1 _ _ _ _ Hb Hk) as Hbv. destruct (bv_peerMaj23 bv); [done|]. split; [done|]. by apply map_Forall_insert_2.
  - split; [done|]. apply map_Forall_insert_2; [apply only_none|done].
Qed.

Lemma NewVoteSet_only cid h r t vals vs : NewVoteSet cid h r t vals = Val vs -> only_set vs.
Proof. unfold NewVoteSet. intros Hn. inv_val. split; [apply only_none|done]. Qed.

(** ** Heights *)

(** The parameters of a height, which no operation changes. *)
Definition same_height (hvs hvs' : HeightVoteSet) : Prop :=
  hvs_chainID hvs' = hvs_chainID hvs /\ hvs_height hvs' = hvs_height hvs /\ hvs_valSet hvs' = hvs_valSet hvs.
#[local] Instance same_height_preorder : PreOrder same_height.
Proof. unfold same_height. split; [firstorder|]. intros a b c. naive_solver congruence. Qed.

Definition grown (hvs hvs' : HeightVoteSet) : Prop := same_height hvs hvs' /\ only_height hvs'.

Lemma addRound_grown hvs r hvs' : only_height hvs -> addRound hvs r = Val hvs' -> grown hvs hvs'.
Proof.
  intros Ho Ha. unfold addRound in Ha. destruct (hvs_roundVoteSets hvs !! r); [done|]. inv_val.
  split; [done|]. apply map_Forall_insert_2; [|done]. split; by eapply NewVoteSet_only.
Qed.

Lemma set_round_loop_grown fuel r round hvs hvs' :
  only_height hvs -> set_round_loop fuel r round hvs = Val hvs' -> grown hvs hvs'.
Proof.
  revert r hvs. induction fuel as [|fuel IH]; intros r hvs Ho Hl; cbn [set_round_loop] in Hl;
    (destruct (r <=? round); [|by inv_val]); [done|].
  destruct (hvs_roundVoteSets hvs !! r); [by apply (IH (int32 (r + 1)))|]. inv_val.
  apply addRound_grown in H1 as [Hs Ho1]; [|done]. apply IH in H2 as [Hs2 Ho2]; [|done]. split; [by etrans|done].
Qed.

(** The loop never ends when the round is the greatest [int32]. *)
Lemma set_round_loop_diverges fuel r round hvs : r <= MaxInt32 <= round -> is_val (set_round_loop fuel r round hvs) = false.
Proof.
  revert r hvs. induction fuel as [|fuel IH]; intros r hvs Hr; cbn [set_round_loop]; (destruct (Z.leb_spec r round); [|lia]); [done|].
  pose proof (int32_range (r + 1)) as Hn. destruct (hvs_roundVoteSets hvs !! r); [apply IH; int_lia|].
  destruct (addRound hvs r) as [h| |]; go_step; [apply IH; int_lia|done..].
Qed.

Lemma put_vote_set_grown hvs r t vs : only_height hvs -> only_set vs -> grown hvs (put_vote_set hvs r t vs).
Proof.
  intros Ho Hv. unfold put_vote_set. destruct (hvs_roundVoteSets hvs !! r) as [rvs|] eqn:Hr; [|done].
  destruct (map_Forall_lookup_1 _ _ _ _ Ho Hr) as [H1 H2]. split; [done|]. apply map_Forall_insert_2; [|done]. by destruct (t =? _).
Qed.

Lemma getVoteSet_only hvs r t vs : only_height hvs -> getVoteSet hvs r t = Val (Some vs) -> only_set vs.
Proof.
  intros Ho Hg. unfold getVoteSet in Hg. destruct (hvs_roundVoteSets hvs !! r) as [rvs|] eqn:Hr; [|done].
  destruct (map_Forall_lookup_1 _ _ _ _ Ho Hr) as [H1 H2]. destruct (t =? _); [by simplify_eq|]. by destruct (t =? _); simplify_eq.
Qed.

Lemma add_to_round_grown hvs v hvs' a e : only_height hvs -> L v -> add_to_round hvs v = Val (hvs', a, e) -> grown hvs hvs'.
Proof.
  intros Ho Hv Ha. unfold add_to_round in Ha. apply bind_val in Ha as ([vs|] & Hg & Ha); [|done].
  apply bind_val in Ha as ([[vs' a'] e'] & Hadd & Ha). inv_val. simplify_eq. apply put_vote_set_grown; [done|].
  eapply AddVote_only; [|done..]. by eapply getVoteSet_only.
Qed.

Lemma HeightVoteSet_AddVote_grown hvs v p hvs' a e :
  only_height hvs -> L v -> HeightVoteSet_AddVote hvs v p = Val (hvs', a, e) -> grown hvs hvs'.
Proof.
  intros Ho Hv Ha. unfold HeightVoteSet_AddVote in Ha. destruct (negb _); [by simplify_eq|].
  apply bind_val in Ha as ([vs|] & _ & Ha); [by eapply add_to_round_grown|]. destruct (_ <? 2); [|by simplify_eq].
  apply bind_val in Ha as (h1 & H1 & Ha). apply addRound_grown in H1 as [Hs Ho1]; [|done].
  apply add_to_round_grown in Ha as [Hs2 Ho2]; [|done..]. split; [|done]. by etrans.
Qed.
End held.

(** ** The interface *)

Section instance.
Context `{!Crypto, !TimeCodec} (chain : ChainID) (V : Z -> list Validator) (L : Vote -> Prop).

(** A valid vote of the validator with the given index. *)
Definition counted (t h r : Z) (i : nat) (v : Vote) : Prop :=
  v_Type v = t /\ v_Height v = h /\ v_Round v = r /\
  exists val pk, V h !! i = Some val /\ PubKey_ val = Some pk /\ Vote_Verify v chain pk = Val tt.

(** Votes for a block with the given hash, by more than two thirds of the power. *)
Definition quorum_for (t h r : Z) (hash : bytes) : Prop :=
  exists bid votes, bid_Hash bid = hash /\ Forall (fun v => 0 < VotingPower v) (V h) /\ length votes = length (V h) /\
    2 * sumZ VotingPower (V h) < 3 * held (for_block bid) (V h) votes /\
    forall i v, votes !! i = Some (Some v) -> L v /\ counted t h r i v.

Definition votes_of (h : Z) (hvs : HeightVoteSet) : Prop :=
  height_inv hvs /\ hvs_height hvs = h /\ hvs_chainID hvs = chain /\ Validators (hvs_valSet hvs) = V h /\ only_height L hvs.

Definition deliverable (v : Vote) : Prop :=
  wire_vote v /\ v_ValidatorIndex v <= MaxInt32 /\ 0 <= v_Round v /\ L v.

(** The validators of a height, and the height itself, are the agreed ones. *)
Definition good_validators (cid : ChainID) (h : Z) (vals : ValidatorSet) : Prop :=
  cid = chain /\ h <> 0 /\ good_set vals /\ Validators vals = V h.

Lemma majority_quorum h hvs r t vs b :
  votes_of h hvs -> IsVoteTypeValid t = true -> getVoteSet hvs r t = Val (Some vs) -> TwoThirdsMajority vs = (b, true) ->
  vs_height vs = h /\ vs_round vs = r /\ quorum_for t h r (bid_Hash b).
Proof.
  intros ([_ Hinv] & Hh & Hc & HV & Ho) Ht Hg Hm.
  assert (Hr : exists rvs, hvs_roundVoteSets hvs !! r = Some rvs).
  { unfold getVoteSet in Hg. destruct (hvs_roundVoteSets hvs !! r); [by eexists|done]. }
  destruct Hr as [rvs Hr]. destruct (getVoteSet_present _ _ _ _ _ _ Hinv Ht Hr) as (vs' & Hg' & Hre & E1 & E2 & E3 & E4 & E5).
  assert (vs' = vs) as -> by congruence. clear Hg'. apply reachable_votes_inv in Hre as Hi.
  split; [congruence|]. split; [done|]. pose proof (getVoteSet_only L _ _ _ _ Ho Hg) as [Hvo _].
  unfold TwoThirdsMajority in Hm. destruct (vs_maj23 vs) as [m|] eqn:Hmaj; [|done]. injection Hm as ->.
  pose proof (majority_power vs b Hi Hmaj) as Hpow. pose proof (inv_len _ _ Hi) as Hlen. pose proof (wf_power _ (inv_set _ _ Hi)) as Hpos.
  rewrite E5, HV in *. exists b, (vs_votes vs). split; [done|]. split; [done|]. split; [done|]. split; [done|].
  intros i v Hiv. split; [by eapply only_lookup|].
  destruct (inv_valid _ _ Hi i v Hiv) as (_ & F1 & F2 & F3 & _ & val & pk & F4 & _ & F5 & F6). rewrite E5, HV in F4.
  split; [congruence|]. split; [congruence|]. split; [congruence|]. exists val, pk. by rewrite <- Hc, <- E1.
Qed.

Lemma votes_of_grown h hvs hvs' : votes_of h hvs -> height_inv hvs' -> grown L hvs hvs' -> votes_of h hvs'.
Proof. intros (_ & E1 & E2 & E3 & _) Hi [(F1 & F2 & F3) Ho]. unfold votes_of. by rewrite F1, F2, F3. Qed.

Lemma votes_of_SetRound h hvs r hvs' :
  votes_of h hvs -> hvs_round hvs <= r -> SetRound hvs r = Val hvs' -> votes_of h hvs' /\ hvs_round hvs' = r.
Proof.
  intros Hok Hr Hset. pose proof Hok as (Hi & _ & _ & _ & Ho). destruct (Z.lt_ge_cases r MaxInt32) as [Hlt|Hge].
  - destruct (SetRound_inv hvs r Hi (conj Hr Hlt)) as (h1 & Hset1 & Hi1 & Hr1 & _). assert (h1 = hvs') as -> by congruence.
    split; [|done]. eapply votes_of_grown; [done..|]. unfold SetRound in Hset. inv_val.
    apply (set_round_loop_grown L) in H3 as [Hs H3]; [|done]. by split.
  - exfalso. unfold SetRound in Hset. inv_val. assert (Hx : x <= MaxInt32).
    { unfold SafeSubInt32 in H1. destruct (_ && _); [done|]. destruct (_ && _); [done|]. inv_val.
      pose proof (int32_range (hvs_round hvs - 1)). int_lia. }
    pose proof (set_round_loop_diverges (Z.to_nat (r - x + 1)) x r hvs (conj Hx Hge)) as Hd. by rewrite H3 in Hd.
Qed.

Lemma votes_of_peer h hvs r t p b hvs' e :
  votes_of h hvs -> HeightVoteSet_SetPeerMaj23 hvs r t p b = Val (hvs', e) -> votes_of h hvs' /\ hvs_round hvs' = hvs_round hvs.
Proof.
  intros Hok Hset. pose proof Hok as (Hi & _ & _ & _ & Ho).
  destruct (SetPeerMaj23_height_inv hvs r t p b Hi) as (h1 & e1 & Hset1 & Hi1). assert (h1 = hvs') as -> by congruence. clear Hset1.
  unfold HeightVoteSet_SetPeerMaj23 in Hset. destruct (negb _); [by simplify_eq|]. apply bind_val in Hset as ([vs|] & Hg & Hset); [|by simplify_eq].
  pose proof (SetPeerMaj23_only L vs p b (getVoteSet_only L _ _ _ _ Ho Hg)) as Hvs. destruct (SetPeerMaj23 vs p b) as [vs' e']. simplify_eq.
  split; [eapply votes_of_grown; [done..|]; by apply put_vote_set_grown|].
  unfold put_vote_set. by destruct (hvs_roundVoteSets hvs !! r).
Qed.

Lemma votes_of_new cid h vals hvs :
  good_validators cid h vals -> NewHeightVoteSet cid h vals = Val hvs -> votes_of h hvs /\ hvs_round hvs = 0.
Proof.
  intros (-> & Hh & Hg & HV) Hn. destruct (NewHeightVoteSet_inv chain h vals Hg Hh) as (h1 & Hn1 & Hi1).
  assert (h1 = hvs) as -> by congruence. clear Hn1. unfold NewHeightVoteSet, HeightVoteSet_Reset in Hn. inv_val.
  apply (addRound_grown L) in H1 as [(F1 & F2 & F3) Ho]; [|done]. split; [|done]. split; [done|]. simpl in *.
  rewrite F1, F2, F3. done.
Qed.

#[export] Instance votes_instance : VotesInterface.
Proof.
  refine {| VotesOk := votes_of; Polka := quorum_for PrevoteType; Decided := quorum_for PrecommitType;
            vote_ok := deliverable; Good := good_validators |}.
  - by intros v (_ & _ & ? & _).
  - intros h hvs r vs b Hok Hp Hm. by apply (majority_quorum h hvs r PrevoteType vs b).
  - intros h hvs r vs b Hok Hp Hm. by apply (majority_quorum h hvs r PrecommitType vs b).
  - intros h hvs v p hvs' a e Hok (Hw & Hmax & Hr & HL) Hadd. pose proof Hok as (Hi & _ & _ & _ & Ho).
    destruct (HeightVoteSet_AddVote_inv hvs v p Hi Hw Hmax) as (h1 & a1 & e1 & Hadd1 & Hi1 & Hr1 & _).
    assert (h1 = hvs') as -> by congruence. split; [|done]. eapply votes_of_grown; [done..|]. by eapply HeightVoteSet_AddVote_grown.
  - apply votes_of_SetRound.
  - apply votes_of_peer.
  - apply votes_of_new.
Defined.
End instance.
