(* ===== verification/ConsensusSafety.v ===== *)
(** * Agreement of the nodes

    Many nodes run the state machine of [Consensus]; any of them may receive, at
    any time and in any order, messages, claims of peers and its own timeouts.
    The rest of the network is arbitrary except for signatures: a delivered vote
    that verifies under the key of a correct node was sent by that node.  If the
    validators without a correct node hold less than a third of the power, no two
    nodes store different blocks for the same height. *)
From Stdlib Require Import ZArith Lia Sorting.Sorted Strings.Byte.
From stdpp Require Import base functions relations list strings gmap sorting.
From S2P Require Import Prelude.
From S2P Require Import Merkle.
From S2P Require Import Validator.
From S2P Require Import ProposerProofs.
From S2P Require Import Types.
From S2P Require Import SignBytesProofs.
From S2P Require Import Validation.
From S2P Require Import VoteSet.
From S2P Require Import VoteSetProofs.
From S2P Require Import HeightVoteSet.
From S2P Require Import HeightVoteSetProofs.
From S2P Require Import PartSet.
From S2P Require Import Header.
From S2P Require Import Block.
From S2P Require Import ChainState.
From S2P Require Import Consensus.
From S2P Require Import ConsensusFrame.
From S2P Require Import ConsensusProofs.
From S2P Require Import ConsensusCommitProofs.
From S2P Require Import ConsensusVotes.

(** ** More votes may be trusted later *)

Section mono.
Context `{!Crypto, !BatchCrypto, !Sha256, !TimeCodec, !WrapperCodec, !EvidenceOps, !BlockCodec}.
Context (chain : ChainID) (V : Z -> list Validator) (L1 L2 : Vote -> Prop) (Hsub : forall v, L1 v -> L2 v).

Abbreviation I1 := (votes_instance chain V L1).
Abbreviation I2 := (votes_instance chain V L2).

Lemma only_mono votes : only L1 votes -> only L2 votes.
Proof. intros Ho. eapply Forall_impl; [exact Ho|]. intros [v|]; [apply Hsub|done]. Qed.
Lemma only_set_mono vs : only_set L1 vs -> only_set L2 vs.
Proof. intros [J1 J2]. split; [by apply only_mono|]. eapply map_Forall_impl; [exact J2|]. intros key bv. apply only_mono. Qed.
Lemma votes_of_mono h hvs : votes_of chain V L1 h hvs -> votes_of chain V L2 h hvs.
Proof.
  intros (J1 & J2 & J3 & J4 & J5). split; [done|]. split; [done|]. split; [done|]. split; [done|].
  eapply map_Forall_impl; [exact J5|]. intros rd rvs [? ?]. split; by apply only_set_mono.
Qed.
Lemma quorum_for_mono t h r hash : quorum_for chain V L1 t h r hash -> quorum_for chain V L2 t h r hash.
Proof.
  intros (bid & votes & J1 & J2 & J3 & J4 & J5). exists bid, votes. split; [done|]. split; [done|]. split; [done|]. split; [done|].
  intros i v Hi. destruct (J5 i v Hi). auto.
Qed.

Lemma released_sub v r : released (VI := I1) v r -> released (VI := I2) v r.
Proof. intros (r' & w & Hr & Hw & Hp). exists r', w. split; [done|]. split; [done|]. by apply quorum_for_mono. Qed.

Lemma log_ok_sub l : log_ok (VI := I1) l -> log_ok (VI := I2) l.
Proof.
  intros [J1 [J2 J3] J4]. split; [done| |].
  - split; [intros v Hv Hc; apply quorum_for_mono; by apply J2|]. intros l1 p l2 v E Hp Hv Hc Hh Hne. apply released_sub. by eapply J3.
  - intros b ps c Hb. destruct (J4 b ps c Hb) as (E1 & E2 & Hd). split; [done|]. split; [done|]. by apply quorum_for_mono.
Qed.

Lemma Inv_sub s : Inv (VI := I1) s -> Inv (VI := I2) s.
Proof.
  intros HI. pose proof (log_ok_sub _ (Inv_log s HI)) as [J1 J2 J3]. destruct HI as [I1 I2 I3 I4 I5 I6 I7 I8 I9 I10 I11].
  split; try done.
  - destruct I3 as (hvs & Hv & Hok & Hr). exists hvs. split; [done|]. split; [by apply votes_of_mono|done].
  - intros v Hv Hc Hh. destruct (I9 v Hv Hc Hh) as [?|?]; [by left|right; by apply released_sub].
Qed.
End mono.

(** ** Quorums intersect in a correct validator *)

Section quorum.
Context `{!Crypto, !TimeCodec} (chain : ChainID) (V : Z -> list Validator).
Context {Node : Type} (owner : PubKey -> option Node).

(** The validator is not run by a correct node. *)
Definition faulty (v : Validator) : bool :=
  match PubKey_ v with Some pk => match owner pk with Some _ => false | None => true end | None => true end.
Definition faulty_power (l : list Validator) : Z := sumZ (fun v => if faulty v then VotingPower v else 0) l.
Definition few_faults (h : Z) : Prop := 3 * faulty_power (V h) < sumZ VotingPower (V h).

Lemma faulty_power_cons v l : faulty_power (v :: l) = (if faulty v then VotingPower v else 0) + faulty_power l.
Proof. done. Qed.
Lemma faulty_power_nonneg l : Forall (fun v => 0 < VotingPower v) l -> 0 <= faulty_power l.
Proof. induction 1 as [|v l Hv _ IH]; [done|]. rewrite faulty_power_cons. destruct (faulty v); lia. Qed.

Lemma held_both_correct P Q l votes votes' :
  faulty_power l < held_both P Q l votes votes' -> Forall (fun v => 0 < VotingPower v) l ->
  exists i val o o', l !! i = Some val /\ faulty val = false /\ votes !! i = Some o /\ votes' !! i = Some o' /\
    vote_counts P o = true /\ vote_counts Q o' = true.
Proof.
  intros Hlt Hpos. revert votes votes' Hlt. induction Hpos as [|val l Hv Hl IH]; intros votes votes' Hlt; [done|].
  pose proof (faulty_power_nonneg l Hl) as Hn. rewrite faulty_power_cons in Hlt.
  destruct votes as [|o votes], votes' as [|o' votes']; cbn [held_both] in Hlt; try (destruct (faulty val); lia).
  destruct (vote_counts P o && vote_counts Q o') eqn:Hb; [destruct (faulty val) eqn:Hf|].
  - destruct (IH votes votes') as (i & Hi); [lia|]. by exists (S i).
  - apply andb_true_iff in Hb as [? ?]. by exists 0%nat, val, o, o'.
  - destruct (IH votes votes') as (i & Hi); [destruct (faulty val); lia|]. by exists (S i).
Qed.

Lemma quorums_meet L1 L2 t1 t2 h r1 r2 hash1 hash2 :
  few_faults h -> quorum_for chain V L1 t1 h r1 hash1 -> quorum_for chain V L2 t2 h r2 hash2 ->
  exists pk n v1 v2, owner pk = Some n /\
    (L1 v1 /\ v_Type v1 = t1 /\ v_Height v1 = h /\ v_Round v1 = r1 /\ vote_hash v1 = hash1 /\ Vote_Verify v1 chain pk = Val tt) /\
    (L2 v2 /\ v_Type v2 = t2 /\ v_Height v2 = h /\ v_Round v2 = r2 /\ vote_hash v2 = hash2 /\ Vote_Verify v2 chain pk = Val tt).
Proof.
  intros Hf (b1 & vs1 & E1 & Hpos & Len1 & Q1 & Hv1) (b2 & vs2 & E2 & _ & Len2 & Q2 & Hv2).
  pose proof (held_overlap _ Hpos (for_block b1) (for_block b2) vs1 vs2 ltac:(congruence)) as Hov. unfold few_faults in Hf.
  destruct (held_both_correct (for_block b1) (for_block b2) (V h) vs1 vs2 ltac:(lia) Hpos)
    as (i & val & [v1|] & [v2|] & Hval & Hok & Hi1 & Hi2 & C1 & C2); try done.
  simpl in C1, C2. apply bool_decide_eq_true in C1, C2.
  destruct (Hv1 i v1 Hi1) as (G1 & A1 & A2 & A3 & val1 & pk & A4 & A5 & A6), (Hv2 i v2 Hi2) as (G2 & B1 & B2 & B3 & val2 & pk2 & B4 & B5 & B6).
  simplify_eq. unfold faulty in Hok. rewrite A5 in Hok. destruct (owner pk) as [n|] eqn:Hn; [|done].
  exists pk, n, v1, v2. split; [done|]. by repeat (split; [done|]).
Qed.
End quorum.

(** ** The world *)

Section world.
Context `{!Crypto, !BatchCrypto, !Sha256, !TimeCodec, !WrapperCodec, !EvidenceOps, !BlockCodec}.
Context (chain : ChainID) (V : Z -> list Validator).
Context {Node : Type} `{!EqDecision Node} (owner : PubKey -> option Node).
Context (cfg : Node -> ConsensusConfig) (env : Node -> Env).

(** A node that has panicked has stopped. *)
Record NodeState := mkNodeState { ns_state : ConsensusState; ns_running : bool }.
Abbreviation World := (Node -> NodeState).
Implicit Types (w : World).

Definition sent w (n : Node) : list Vote := own_votes (cst_log (ns_state (w n))).

(** Signatures cannot be forged: what verifies under the key of a correct node was signed by it. *)
Definition unforged w (v : Vote) : Prop :=
  vote_sized chain v /\
  forall pk n bz, owner pk = Some n -> VoteSignBytes chain v = Val bz -> VerifySignature pk bz (v_Signature v) = true ->
    exists u, u ∈ sent w n /\ vote_sized chain u /\ VoteSignBytes chain u = Val bz.

Abbreviation VI_at w := (votes_instance chain V (unforged w)).

(** A node receives an event; the validators its new state names are the agreed ones. *)
Inductive world_step : World -> World -> Prop :=
  | ws_receive w n ev s' r :
      ns_running (w n) = true -> event_ok (VI := VI_at w) (ns_state (w n)) ev ->
      receive (cfg n) (env n) ev (ns_state (w n)) = (s', r) -> good_state (VI := VI_at w) (cst_state s') ->
      world_step w (<[n := mkNodeState s' (is_val r)]> w).

(** A node before [NewState], and after it has been started for a chain state. *)
Definition unstarted (cache : ValidCache) : ConsensusState := mkConsensusState empty_RoundState empty_state None cache [] 0 [].
Definition boot (n : Node) (st : State) : M unit :=
  _ ← NewState (cfg n) (env n) st; _ ← updatePrivValidatorPubKey (env n); scheduleRound0 (env n).
Definition booted (n : Node) (s : ConsensusState) : Prop :=
  exists cache st, boot n st (unstarted cache) = (s, Val tt) /\ sm_LastBlockHeight st < MaxInt64 /\ 0 < next_height st /\
    forall vals, sm_Validators st = Some vals -> good_validators chain V (sm_ChainID st) (next_height st) vals.
Definition initial_world w : Prop := forall n, ns_running (w n) = true /\ booted n (ns_state (w n)).

(** ** Starting a node *)

Lemma quiet_reconstruct n st s : quiet_at (reconstructLastCommit (env n) st) s.
Proof. unfold reconstructLastCommit. quiet_solve. Qed.

(** The first height: nothing has been voted yet. *)
Definition idle s : Prop := height s = 0 /\ round s = 0 /\ IsEmpty (cst_state s) = true /\ Forall (harmless s) (cst_log s).

Lemma idle_quiet s s' : quiet s s' -> idle s -> idle s'.
Proof.
  intros [[E1 E2 E3 E4 E5 E6 E7 E8] (l & Hl & Hh)] (F1 & F2 & F3 & F4). split; [by rewrite E1|]. split; [by rewrite E2|]. split; [by rewrite E8|].
  rewrite Hl. apply Forall_app. split; (eapply harmless_later; [done|lia|done]).
Qed.

Lemma first_height_Inv {VI : VotesInterface} s st vals hvs start lv rs s' :
  idle s -> good_state st -> 0 < next_height st -> sm_Validators st = Some vals ->
  NewHeightVoteSet (sm_ChainID st) (next_height st) vals = Val hvs -> cst_log s' = cst_log s ->
  cst_rs s' = reset_votes hvs lv (reset_round (next_height st) start (sm_Validators st) rs) ->
  Inv s' /\ own_votes (cst_log s') = [].
Proof.
  intros (Hh & _ & _ & Hl) [Hmax Hgood] Hpos Hvals Hnew Hlog Hrs. pose proof (harmless_no_votes s _ Hl) as Hov.
  destruct (law_new _ _ _ _ (Hgood vals Hvals) Hnew) as [Hok Hrd]. rewrite Forall_forall in Hl.
  split; [|by rewrite Hlog]. split; rewrite ?Hrs, ?Hlog, ?Hov; simpl; unfold hrs_le.
  - lia.
  - done.
  - exists hvs. split; [done|]. split; [done|]. lia.
  - done.
  - lia.
  - constructor.
  - by intros v ?%elem_of_nil.
  - intros ti Hti. apply Hl in Hti. simpl in Hti. lia.
  - by intros v ?%elem_of_nil.
  - split; [by intros v ?%elem_of_nil|]. intros l1 p l2 v E. by destruct l1.
  - intros b ps c Hb. by apply Hl in Hb.
Qed.

Lemma updateToState_first {VI : VotesInterface} n st s :
  idle s -> good_state st -> 0 < next_height st ->
  post (fun s' r => is_val r = true -> Inv s' /\ own_votes (cst_log s') = []) (updateToState (cfg n) (env n) st) s.
Proof.
  intros Hidle Hg Hpos. pose proof Hidle as (_ & _ & He & _). unfold updateToState. apply post_get_rs. apply post_call_bind; [done|]. intros [] _. apply post_get.
  rewrite He. simpl negb. rewrite !andb_false_l. apply post_call_bind; [done|]. intros [] _. apply post_call_bind; [done|]. intros [] _.
  apply post_quiet_bind; [apply quiet_update_last_commit|done|]. intros [] s1 Q1.
  apply post_quiet_bind; [quiet_solve|done|]. intros start s2 Q2.
  assert (Hidle2 : idle s2) by (eapply idle_quiet; [|done]; by etrans).
  set (s3 := upd_rs (reset_round (next_height st) start (sm_Validators st)) s2).
  apply (post_val _ _ _ _ s3 tt); [done|]. apply post_call_bind; [done|]. intros vals Hvals.
  apply post_call_bind; [done|]. intros hvs Hnew.
  assert (Hv : sm_Validators st = Some vals) by (destruct (sm_Validators st); simpl in Hvals; congruence).
  set (s4 := upd_rs (reset_votes hvs (sm_LastValidators st)) s3). apply (post_val _ _ _ _ s4 tt); [done|].
  set (s5 := upd_state st s4). apply (post_val _ _ _ _ s5 tt); [done|].
  destruct (first_height_Inv s2 st vals hvs start (sm_LastValidators st) (cst_rs s2) s5) as [HI Hov]; try done.
  pose proof (quiet_newStep s5) as Q5. intros _. split; [by eapply Inv_quiet|].
  destruct Q5 as [_ (l & -> & Hl)]. by rewrite own_votes_app, Hov, (harmless_no_votes _ _ Hl).
Qed.

Lemma booted_Inv w n s : booted n s -> Inv (VI := VI_at w) s /\ own_votes (cst_log s) = [].
Proof.
  intros (cache & st & Hb & Hmax & Hpos & Hgood).
  cut (post (fun s' r => is_val r = true -> Inv (VI := VI_at w) s' /\ own_votes (cst_log s') = []) (boot n st) (unstarted cache)).
  { unfold post. rewrite Hb. auto. }
  unfold boot. apply post_bind. unfold NewState. apply post_quiet_bind; [|done|].
  { apply quiet_when. intros _. apply quiet_reconstruct. }
  intros [] s1 Q1. assert (Hi : idle s1) by (by apply (idle_quiet (unstarted cache) s1)).
  eapply post_mono; [|apply (updateToState_first (VI := VI_at w) n st s1 Hi); done].
  intros s2 [[]|[]|x] Hup; [|done]. destruct (Hup eq_refl) as [HI Hov].
  apply quiet_post; [apply quiet_bind; [auto with frame|]; intros [] s3 Q3; apply (quiet_scheduleRound0 (VI := VI_at w)); by eapply Inv_quiet|].
  intros s3 r Q3 _. split; [by eapply Inv_quiet|]. destruct Q3 as [_ (l & -> & Hl)].
  by rewrite own_votes_app, Hov, (harmless_no_votes _ _ Hl).
Qed.

(** ** Every reachable world is in order *)

Definition reachable_world w : Prop := exists w0, initial_world w0 /\ rtc world_step w0 w.

Definition world_ok w : Prop := forall n,
  log_ok (VI := VI_at w) (cst_log (ns_state (w n))) /\ (ns_running (w n) = true -> Inv (VI := VI_at w) (ns_state (w n))).

Lemma own_votes_prefix l l' : l `prefix_of` l' -> own_votes l `prefix_of` own_votes l'.
Proof. intros [k ->]. rewrite own_votes_app. by eexists. Qed.

Lemma step_sent w w' n : world_step w w' -> sent w n `prefix_of` sent w' n.
Proof.
  intros Hst. destruct Hst as [w m ev s' r _ _ Hr _]. unfold sent. destruct (decide (n = m)) as [->|Hne].
  - rewrite fn_lookup_insert. simpl. apply own_votes_prefix. pose proof (grows_receive (cfg m) (env m) ev (ns_state (w m))) as Hg.
    by rewrite Hr in Hg.
  - by rewrite fn_lookup_insert_ne by done.
Qed.
Lemma steps_sent w w' n : rtc world_step w w' -> sent w n `prefix_of` sent w' n.
Proof. induction 1 as [|w w1 w2 Hst _ IH]; [done|]. etrans; [by apply step_sent|done]. Qed.

Lemma unforged_mono w w' v : (forall n, sent w n `prefix_of` sent w' n) -> unforged w v -> unforged w' v.
Proof.
  intros Hsub [Hs Hu]. split; [done|]. intros pk n bz Ho Hb Hv. destruct (Hu pk n bz Ho Hb Hv) as (u & Hin & Hsz & Hbz).
  exists u. split; [|done]. destruct (Hsub n) as [k ->]. set_solver.
Qed.

(** What the step of a node shows, in terms of the votes sent before it. *)
Lemma step_log w n ev s' r :
  world_ok w -> ns_running (w n) = true -> event_ok (VI := VI_at w) (ns_state (w n)) ev ->
  receive (cfg n) (env n) ev (ns_state (w n)) = (s', r) -> good_state (VI := VI_at w) (cst_state s') ->
  log_ok (VI := VI_at w) (cst_log s') /\ (is_val r = true -> Inv (VI := VI_at w) s').
Proof.
  intros Hok Hrun Hev Hr Hg. destruct (Hok n) as [_ HI]. specialize (HI Hrun).
  pose proof (receive_post (VI := VI_at w) (cfg n) (env n) ev _ HI Hev) as [Hl He]. rewrite Hr in Hl, He. simpl in *.
  split; [by apply Hl|]. intros Hv. by apply (ends_Inv (VI := VI_at w) (cfg n) (ns_state (w n)) s' (He Hv)).
Qed.

Lemma step_world_ok w w' : world_ok w -> world_step w w' -> world_ok w'.
Proof.
  intros Hok Hst m. assert (Hsub : forall v, unforged w v -> unforged w' v).
  { intros v. apply unforged_mono. intros n. by apply step_sent. }
  destruct Hst as [w n ev s' r Hrun Hev Hr Hg]. destruct (decide (m = n)) as [->|Hne].
  - destruct (step_log w n ev s' r Hok Hrun Hev Hr Hg) as [Hl HI]. rewrite fn_lookup_insert. simpl.
    split; [by apply (log_ok_sub chain V (unforged w))|]. intros Hv. apply (Inv_sub chain V (unforged w)); auto.
  - rewrite fn_lookup_insert_ne by done. destruct (Hok m) as [Hl HI].
    split; [by apply (log_ok_sub chain V (unforged w))|]. intros Hv. apply (Inv_sub chain V (unforged w)); auto.
Qed.

Lemma initial_world_ok w : initial_world w -> world_ok w /\ forall n, sent w n = [].
Proof.
  intros Hi. assert (Hn : forall n, Inv (VI := VI_at w) (ns_state (w n)) /\ sent w n = []).
  { intros n. destruct (Hi n) as [_ Hb]. exact (booted_Inv w n _ Hb). }
  split; intros n; destruct (Hn n) as [HI Hs]; [|done]. split; [by apply Inv_log|done].
Qed.

Lemma reachable_world_ok w : reachable_world w -> world_ok w.
Proof.
  intros (w0 & Hi & Hs). apply initial_world_ok in Hi as [Hok _]. induction Hs as [|w w1 w2 Hst _ IH]; [done|].
  apply IH. by eapply step_world_ok.
Qed.

(** ** Agreement *)

(** The vote of a correct validator in a quorum was sent by its node. *)
Lemma sent_by w pk n v :
  owner pk = Some n -> unforged w v -> Vote_Verify v chain pk = Val tt ->
  exists u, u ∈ sent w n /\ v_Type u = v_Type v /\ v_Height u = v_Height v /\ v_Round u = v_Round v /\ vote_hash u = vote_hash v.
Proof.
  intros Ho [Hs Hu] Hv. unfold Vote_Verify in Hv. apply bind_val in Hv as ([] & _ & Hv).
  apply bind_val in Hv as (x & Hx & Hv). apply lift_val in Hx. apply fail_if_val, negb_false_iff in Hv.
  destruct (Hu pk n x Ho Hx Hv) as (u & Hin & Hsz & Hbz). exists u. split; [done|].
  destruct (VoteSignBytes_inj chain chain x u v Hsz Hs Hbz Hx) as (_ & E1 & E2 & E3 & E4 & _).
  by rewrite E1, E2, E3, E4.
Qed.

(** Two quorums of a height share a correct node that sent both votes. *)
Lemma shared_node w1 w2 t1 t2 h r1 r2 hash1 hash2 :
  few_faults V owner h ->
  quorum_for chain V (unforged w1) t1 h r1 hash1 -> quorum_for chain V (unforged w2) t2 h r2 hash2 ->
  exists n u1 u2, (u1 ∈ sent w1 n /\ v_Type u1 = t1 /\ v_Height u1 = h /\ v_Round u1 = r1 /\ vote_hash u1 = hash1) /\
    (u2 ∈ sent w2 n /\ v_Type u2 = t2 /\ v_Height u2 = h /\ v_Round u2 = r2 /\ vote_hash u2 = hash2).
Proof.
  intros Hf Q1 Q2. destruct (quorums_meet chain V owner _ _ _ _ _ _ _ _ _ Hf Q1 Q2)
    as (pk & n & v1 & v2 & Ho & (L1 & A1 & A2 & A3 & A4 & A5) & (L2 & B1 & B2 & B3 & B4 & B5)).
  destruct (sent_by w1 pk n v1 Ho L1 A5) as (u1 & U1 & C1 & C2 & C3 & C4).
  destruct (sent_by w2 pk n v2 Ho L2 B5) as (u2 & U2 & D1 & D2 & D3 & D4).
  exists n, u1, u2. split_and!; (done || congruence).
Qed.

(** A vote that comes first in the order stands first in the list. *)
Lemma sorted_before l1 p l2 v :
  StronglySorted vote_before (l1 ++ p :: l2) -> v ∈ l1 ++ p :: l2 -> vote_before v p -> v ∈ l1.
Proof.
  intros Hs Hv Hb. apply elem_of_app in Hv as [?|Hv]; [done|]. apply elem_of_cons in Hv as [->|Hv].
  - unfold vote_before, hrs_lt in Hb. lia.
  - apply StronglySorted_app in Hs as (_ & _ & Hs). apply StronglySorted_inv in Hs as [_ Hs]. rewrite Forall_forall in Hs.
    specialize (Hs v Hv). unfold vote_before, hrs_lt in *. lia.
Qed.

Lemma sorted_unique l u v :
  StronglySorted vote_before l -> u ∈ l -> v ∈ l -> v_Type u = v_Type v -> v_Height u = v_Height v -> v_Round u = v_Round v -> u = v.
Proof.
  intros Hs Hu Hv Et Eh Er. induction Hs as [|x l Hs IH Hx]; [by apply elem_of_nil in Hu|]. rewrite Forall_forall in Hx.
  assert (Hst : vote_step u = vote_step v) by (unfold vote_step; by rewrite Et).
  apply elem_of_cons in Hu as [->|Hu], Hv as [->|Hv]; auto.
  - apply Hx in Hv. unfold vote_before, hrs_lt in Hv. lia.
  - apply Hx in Hu. unfold vote_before, hrs_lt in Hu. lia.
Qed.

(** Once a block is decided, no node that precommitted it prevotes for another in a later round. *)
Lemma no_switch w0 wf h r hash :
  initial_world w0 -> few_faults V owner h -> world_ok wf -> quorum_for chain V (unforged wf) PrecommitType h r hash -> hash <> [] ->
  forall w, rtc world_step w0 w -> rtc world_step w wf ->
  forall n v p, v ∈ sent wf n -> v_Type v = PrecommitType -> v_Height v = h -> v_Round v = r -> vote_hash v = hash ->
    p ∈ sent w n -> is_prevote p -> v_Height p = h -> r < v_Round p -> vote_hash p = hash.
Proof.
  intros Hi Hf Hokf Hdec Hne w Hs. apply initial_world_ok in Hi as [Hok0 Hsent0].
  assert (Hmain : world_ok w /\ (rtc world_step w wf -> forall n v p, v ∈ sent wf n -> v_Type v = PrecommitType -> v_Height v = h ->
    v_Round v = r -> vote_hash v = hash -> p ∈ sent w n -> is_prevote p -> v_Height p = h -> r < v_Round p -> vote_hash p = hash)).
  2: by apply Hmain.
  revert w Hs. refine (rtc_ind_r _ w0 _ _); [|intros w w' Hs Hst IH].
  { split; [done|]. intros _ n v p _ _ _ _ _ Hp. rewrite Hsent0 in Hp. by apply elem_of_nil in Hp. }
  destruct IH as [Hok IH]. split; [by eapply step_world_ok|]. intros Hrest n v p Hv Et Eh Er Ehash Hp Hpv Hph Hlt.
  assert (Hrest0 : rtc world_step w wf) by (by eapply rtc_l). specialize (IH Hrest0).
  assert (Hlog : p ∈ sent w n \/ log_ok (VI := VI_at w) (cst_log (ns_state (w' n)))).
  { destruct Hst as [w m ev s' res Hrun Hev Hres Hg]. destruct (decide (n = m)) as [->|Hnm].
    - right. rewrite fn_lookup_insert. by eapply step_log.
    - left. unfold sent in *. by rewrite fn_lookup_insert_ne in Hp by done. }
  destruct Hlog as [Hold|[_ [_ Hj] _]]; [by eapply IH|]. fold (sent w' n) in Hj.
  destruct (steps_sent w' wf n Hrest) as [k Hk]. apply list_elem_of_split in Hp as (l1 & l2 & Hsplit).
  destruct (Hokf n) as [[Hsorted _ _] _]. fold (sent wf n) in Hsorted. rewrite Hk, Hsplit, <- app_assoc in Hsorted, Hv.
  assert (Hin : v ∈ l1).
  { eapply sorted_before; [exact Hsorted|exact Hv|]. unfold vote_before, hrs_lt. lia. }
  destruct (decide (vote_hash p = hash)) as [?|Hdiff]; [done|exfalso].
  assert (Hcv : commits_to v) by (split; [done|congruence]).
  destruct (Hj l1 p l2 v Hsplit Hpv Hin Hcv ltac:(congruence) ltac:(congruence)) as (r' & x & Hr' & Hx & Hpol). simpl in Hpol.
  rewrite Eh in Hpol. destruct (shared_node wf w _ _ _ _ _ _ _ Hf Hdec Hpol) as (m & u1 & u2 & (A1 & A2 & A3 & A4 & A5) & (B1 & B2 & B3 & B4 & B5)).
  specialize (IH m u1 u2 A1 A2 A3 A4 A5 B1 B2 B3 ltac:(lia)). congruence.
Qed.

Lemma decided_once w h r1 r2 hash1 hash2 :
  reachable_world w -> few_faults V owner h -> r1 <= r2 ->
  quorum_for chain V (unforged w) PrecommitType h r1 hash1 -> quorum_for chain V (unforged w) PrecommitType h r2 hash2 ->
  hash1 <> [] -> hash2 <> [] -> hash1 = hash2.
Proof.
  intros Hreach Hf Hle Q1 Q2 N1 N2. pose proof (reachable_world_ok w Hreach) as Hok. destruct Hreach as (w0 & Hi & Hs).
  destruct (shared_node w w _ _ _ _ _ _ _ Hf Q1 Q2) as (n & u1 & u2 & (A1 & A2 & A3 & A4 & A5) & (B1 & B2 & B3 & B4 & B5)).
  destruct (Hok n) as [[Hsorted [Hpol _] _] _]. fold (sent w n) in Hsorted, Hpol.
  destruct (decide (r1 = r2)) as [Heq|Hneq].
  - assert (u1 = u2) as <- by (apply (sorted_unique (sent w n)); try done; congruence). congruence.
  - assert (Hp2 : quorum_for chain V (unforged w) PrevoteType h r2 hash2).
    { specialize (Hpol u2 B1 ltac:(split; [done|congruence])). by rewrite B3, B4, B5 in Hpol. }
    destruct (shared_node w w _ _ _ _ _ _ _ Hf Q1 Hp2) as (m & v1 & v2 & (C1 & C2 & C3 & C4 & C5) & (D1 & D2 & D3 & D4 & D5)).
    rewrite <- D5. symmetry.
    apply (no_switch w0 w h r1 hash1 Hi Hf Hok Q1 N1 w Hs (rtc_refl _ _) m v1 v2); try done. lia.
Qed.

(** C1: agreement.  In every execution of any number of correct nodes, with
    messages, claims of peers and timeouts in any order, votes that cannot be forged
    and less than a third of the power of the height without a correct node, two
    blocks stored for the same height have the same hash. *)
Theorem consensus_agreement w n1 n2 b1 ps1 c1 b2 ps2 c2 :
  reachable_world w -> few_faults V owner (c_Height c1) ->
  SaveBlock b1 ps1 c1 ∈ cst_log (ns_state (w n1)) -> SaveBlock b2 ps2 c2 ∈ cst_log (ns_state (w n2)) ->
  c_Height c1 = c_Height c2 -> Block_Hash (Some b1) = Block_Hash (Some b2).
Proof.
  intros Hreach Hf S1 S2 Hh. pose proof (reachable_world_ok w Hreach) as Hok.
  destruct (lo_decisions _ (proj1 (Hok n1)) _ _ _ S1) as (N1 & -> & D1).
  destruct (lo_decisions _ (proj1 (Hok n2)) _ _ _ S2) as (N2 & -> & D2). rewrite <- Hh in D2. f_equal.
  destruct (Z.le_ge_cases (c_Round c1) (c_Round c2)); [|symmetry]; by eapply decided_once.
Qed.

(** C2: what a correct node's votes promise.  It never casts two votes of one
    type for the same height and round; it precommits a block only when more than two
    thirds of the power prevoted that block in the round; and once it has precommitted
    a block, it prevotes for anything else in the height only after more than two
    thirds of the power prevoted for something else in a round after its precommit. *)
Theorem consensus_votes_safe w n :
  reachable_world w ->
  (forall u v, u ∈ sent w n -> v ∈ sent w n -> v_Type u = v_Type v -> v_Height u = v_Height v -> v_Round u = v_Round v -> u = v) /\
  (forall v, v ∈ sent w n -> commits_to v ->
     quorum_for chain V (unforged w) PrevoteType (v_Height v) (v_Round v) (vote_hash v)) /\
  (forall l1 p l2 v, sent w n = l1 ++ p :: l2 -> is_prevote p -> v ∈ l1 -> commits_to v -> v_Height v = v_Height p ->
     vote_hash p <> vote_hash v ->
     exists r hash, v_Round v < r <= v_Round p /\ hash <> vote_hash v /\
       quorum_for chain V (unforged w) PrevoteType (v_Height v) r hash).
Proof.
  intros Hreach. destruct (reachable_world_ok w Hreach n) as [[Hs [Hp Hl] _] _]. split; [|done].
  intros u v. by apply sorted_unique.
Qed.

(** C3: a stored block is a decided block.  The commit stored with it is for
    its hash, and validators with more than two thirds of the power of the commit's
    height validly precommitted that hash in the commit's round. *)
Theorem consensus_stores_decided w n b ps c :
  reachable_world w -> SaveBlock b ps c ∈ cst_log (ns_state (w n)) ->
  Block_Hash (Some b) = Val (bid_Hash (c_BlockID c)) /\ bid_Hash (c_BlockID c) <> [] /\
  quorum_for chain V (unforged w) PrecommitType (c_Height c) (c_Round c) (bid_Hash (c_BlockID c)).
Proof.
  intros Hreach Hb. by destruct (lo_decisions _ (proj1 (reachable_world_ok w Hreach n)) _ _ _ Hb) as (? & ? & ?).
Qed.

(** C11: a node never goes back.  Whatever it receives, when the handler returns the node is
    at the same height in the same or a later round and step, or at the start of the next
    height: in round 0 with nothing locked and no commit round, and in the step before
    the first round, unless the configuration skips the commit timeout, where it may have
    gone on within round 0, at most to the prevote step. *)
Theorem consensus_steps_forward w n ev s' :
  reachable_world w -> ns_running (w n) = true -> event_ok (VI := VI_at w) (ns_state (w n)) ev ->
  receive (cfg n) (env n) ev (ns_state (w n)) = (s', Val tt) -> good_state (VI := VI_at w) (cst_state s') ->
  (height s' = height (ns_state (w n)) /\
   hrs_le 0 (round (ns_state (w n))) (step (ns_state (w n))) 0 (round s') (step s')) \/
  (height s' = height (ns_state (w n)) + 1 /\ round s' = 0 /\
   rs_LockedRound (cst_rs s') = -1 /\ rs_LockedBlock (cst_rs s') = None /\ rs_CommitRound (cst_rs s') = -1 /\
   (step s' = RoundStepNewHeight \/ (SkipTimeoutCommit (cfg n) = true /\ step s' <= RoundStepPrevote))).
Proof.
  intros Hreach Hrun Hev Hr Hg. destruct (reachable_world_ok w Hreach n) as [_ HI].
  pose proof (receive_post (VI := VI_at w) (cfg n) (env n) ev _ (HI Hrun) Hev) as [_ He]. rewrite Hr in He. simpl in He.
  destruct (He eq_refl Hg) as [(_ & Hh & Hle & _)|(_ & Hh & Hb)]; [by left|by right].
Qed.
End world.

(** ** The first height *)

(** Before the first block there is no last commit, so a precommit for the
    height before the first one, which [ValidateBasic] lets pass, makes the consensus
    routine panic while it waits to start the first height. *)
Theorem initial_precommit_panics `{!Crypto, !BatchCrypto, !Sha256, !TimeCodec, !WrapperCodec, !EvidenceOps, !BlockCodec} cfg env s vote peer :
  rs_LastCommit (cst_rs s) = None -> step s = RoundStepNewHeight -> int64 (v_Height vote + 1) = height s -> v_Type vote = PrecommitType ->
  peer <> [] -> receive cfg env (EvMsg (mkMsgInfo (VoteMessage vote) peer)) s = (s, Panic "AddVote() on nil VoteSet").
Proof.
  intros Hl Hst Hh Ht Hp. destruct peer as [|c peer]; [done|]. unfold receive. cbn [mi_PeerID].
  assert (Hlen : (len (c :: peer) =? 0) = false) by (apply Z.eqb_neq; unfold len; simpl; lia). rewrite Hlen.
  unfold handleMsg, tryAddVote, State_addVote, add_last_commit, mbind, M_bind. simpl.
  rewrite Hh, Ht, Z.eqb_refl. simpl. rewrite Hst, Hl. done.
Qed.
