(* ===== verification/ConsensusRun.v ===== *)
(** * A run of the consensus state machine

    Two correct nodes with the keys of validators of power 3 and 2, and a silent
    validator of power 1, decide their first block.  The run shows that the
    hypotheses of the theorems about the consensus state machine can hold, and
    that the model computes. *)
From Stdlib Require Import ZArith Lia Sorting.Sorted Strings.Byte.
From stdpp Require Import base functions relations list strings gmap.
From S2P Require Import Prelude.
From S2P Require Import SafeMath.
From S2P Require Import Merkle.
From S2P Require Import MerkleProofs.
From S2P Require Import Validator.
From S2P Require Import ProposerProofs.
From S2P Require Import ValidatorSetProofs.
From S2P Require Import Types.
From S2P Require Import SignBytesProofs.
From S2P Require Import Validation.
From S2P Require Import VoteSet.
From S2P Require Import VoteSetProofs.
From S2P Require Import HeightVoteSet.
From S2P Require Import HeightVoteSetProofs.
From S2P Require Import PartSet.
From S2P Require Import Header.
From S2P Require Import LightVerifierProofs.
From S2P Require Import Block.
From S2P Require Import BlockProofs.
From S2P Require Import ChainState.
From S2P Require Import ChainStateProofs.
From S2P Require Import Consensus.
From S2P Require Import ConsensusFrame.
From S2P Require Import ConsensusProofs.
From S2P Require Import ConsensusCommitProofs.
From S2P Require Import ConsensusVotes.
From S2P Require Import ConsensusSafety.

#[local] Existing Instances digest_crypto digest_batch toy_sha256 toy_time toy_wrappers toy_evidence.

(** ** The chain *)

Definition next_set : ValidatorSet := match IncrementProposerPriority sample_set 1 with Val v => v | _ => sample_set end.
Definition genesis : State :=
  mkState (mkVersion (mkConsensus BlockProtocol 0) "") [x61] 1 0 nilBlockID 77 (Some next_set) (Some sample_set) (Some empty_set) 1
    DefaultConsensusParams 1 [] [].

Definition vals_hash (vals : ValidatorSet) : bytes := match ValidatorSet_Hash vals with Val h => h | _ => [] end.
Definition first_block : Block :=
  match MakeBlock 1 [] (Some (mkCommit 0 0 nilBlockID [])) [] with
  | Val b => mkBlock (Header_Populate (b_Header b) (mkConsensus BlockProtocol 0) [x61] 77 nilBlockID (vals_hash sample_set) (vals_hash next_set)
                        (HashConsensusParams DefaultConsensusParams) [] [] (replicate 20 x03)) (b_Txs b) (b_Evidence b) (b_LastCommit b)
  | _ => sample_block
  end.

#[local] Instance toy_block_eq_dec : EqDecision (@Block toy_evidence).
Proof. solve_decision. Defined.

(** A codec that knows the first block only. *)
Definition toy_codec : @BlockCodec toy_evidence.
Proof.
  refine {| Block_Marshal := fun b => if decide (b = first_block) then Some [x01] else None;
            Block_Unmarshal := fun bz => if bytes_equal bz [x01] then Some first_block else None;
            EvidenceList_Size := fun l => Some (len l) |}.
  abstract (intros b bz; destruct (decide (b = first_block)) as [->|]; [|done]; intros [= <-]; done).
Defined.
#[local] Existing Instance toy_codec.

(** ** The nodes *)

Definition node_key (n : bool) : PubKey := if n then sample_key x03 else sample_key x02.
Definition key_owner (pk : PubKey) : option bool :=
  if decide (pk = node_key true) then Some true else if decide (pk = node_key false) then Some false else None.

Definition sign (pk : PubKey) (bz : go bytes) : option bytes :=
  match bz with Val bz => Some (take 1 (pk_Bytes pk) ++ toy_digest bz) | _ => None end.

Definition node_env (n : bool) : Env :=
  mkEnv (fun i => 100 + Z.of_nat i) (fun _ => true) (fun _ => true) (fun _ => true) true (fun _ => Some (node_key n))
    (fun _ c v => match sign (node_key n) (VoteSignBytes c v) with Some s => Some (s, v_Timestamp v) | None => None end)
    (fun _ c p => sign (node_key n) (ProposalSignBytes c p))
    (fun _ _ => true) (fun _ => mkExecution (Some (mkABCIResponses [] [] None)) true (Some [x05]) true true)
    (fun _ _ => ([], 0)) (fun _ _ _ => []) (fun _ => 0) (fun _ _ => None) (fun _ => None) (fun _ _ => None).
Definition node_cfg (n : bool) : ConsensusConfig := mkConsensusConfig 3000 500 1000 500 1000 500 1000 false true 0.

Definition started (n : bool) : ConsensusState := (boot node_cfg node_env n genesis (unstarted ∅)).1.
Definition world0 : bool -> NodeState := fun n => mkNodeState (started n) true.

(** One node receives an event. *)
Definition exec (w : bool -> NodeState) (e : bool * Event) : bool -> NodeState :=
  let n := e.1 in
  let '(s', r) := receive (node_cfg n) (node_env n) e.2 (ns_state (w n)) in
  <[n := mkNodeState s' (is_val r)]> w.

(** ** Scripts *)

(** A node's first timeout expires, or a message a node has sent reaches another or itself. *)
Inductive Command := Wake (n : bool) | Deliver (from to : bool) (i : nat).

Definition messages (s : ConsensusState) : list Message :=
  omap (fun a => match a with SendInternal m => Some m | _ => None end) (cst_log s).
Definition timeouts (s : ConsensusState) : list timeoutInfo :=
  omap (fun a => match a with ScheduleTimeout ti => Some ti | _ => None end) (cst_log s).

Definition event_of (w : bool -> NodeState) (c : Command) : option (bool * Event) :=
  match c with
  | Wake n => match timeouts (ns_state (w n)) with ti :: _ => Some (n, EvTimeout ti) | [] => None end
  | Deliver from to i =>
      match messages (ns_state (w from)) !! i with
      | Some m => Some (to, EvMsg (mkMsgInfo m (if eqb from to then [] else [x70])))
      | None => None
      end
  end.
Definition run_command (w : bool -> NodeState) (c : Command) : bool -> NodeState :=
  match event_of w c with Some e => exec w e | None => w end.

(** The validators of each height. *)
Definition validators_at (h : Z) : list Validator := if h =? 1 then Validators sample_set else Validators next_set.

(** The conditions of a step, decided. *)
Definition sized_check (v : Vote) : bool :=
  (MinInt32 <=? v_Type v) && (v_Type v <=? MaxInt32) && (MinInt64 <=? v_Height v) && (v_Height v <=? MaxInt64) &&
  (0 <=? v_Round v) && (v_Round v <=? MaxInt32) && (0 <=? psh_Total (bid_PartSetHeader (v_BlockID v))) &&
  (psh_Total (bid_PartSetHeader (v_BlockID v)) <? 2 ^ 32) && (v_ValidatorIndex v <=? MaxInt32).
Definition wire_check (v : Vote) : bool :=
  (BlockID_IsZero (v_BlockID v) || BlockID_IsComplete (v_BlockID v)) && match toy_time_marshal (v_Timestamp v) with Some _ => true | None => false end.
Definition origin_check (w : bool -> NodeState) (v : Vote) : bool :=
  match VoteSignBytes [x61] v with
  | Val bz => forallb (fun n => negb (digest_verify (node_key n) bz (v_Signature v)) || bool_decide (v ∈ sent w n)) [true; false]
  | _ => false
  end.
Definition set_check (o : option ValidatorSet) (vals : ValidatorSet) : bool :=
  match o with
  | Some v => bool_decide (Validators v = Validators vals) && bool_decide (Proposer v = Proposer vals) && (totalVotingPower v =? totalVotingPower vals)
  | None => true
  end.
Definition state_check (st : State) : bool :=
  bytes_equal (sm_ChainID st) [x61] && (sm_InitialHeight st =? 1) &&
  ((sm_LastBlockHeight st =? 0) && set_check (sm_Validators st) sample_set || (sm_LastBlockHeight st =? 1) && set_check (sm_Validators st) next_set).
Definition event_check (w : bool -> NodeState) (ev : Event) : bool :=
  match ev with EvMsg (mkMsgInfo (VoteMessage v) _) => sized_check v && wire_check v && origin_check w v | _ => true end.
Definition command_check (w : bool -> NodeState) (c : Command) : bool :=
  match event_of w c with
  | Some (n, ev) =>
      ns_running (w n) && event_check w ev && state_check (cst_state (receive (node_cfg n) (node_env n) ev (ns_state (w n))).1)
  | None => false
  end.
Fixpoint script_check (w : bool -> NodeState) (l : list Command) : bool :=
  match l with [] => true | c :: l' => command_check w c && script_check (run_command w c) l' end.
Definition run (l : list Command) : bool -> NodeState := foldl run_command world0 l.

(** Proposal and part are messages 0 and 1 of the proposer, its votes 2 and 3. *)
Definition first_height : list Command :=
  [Wake true; Wake false; Deliver true true 0; Deliver true true 1; Deliver true false 0; Deliver true false 1;
   Deliver true true 2; Deliver false true 0; Deliver false false 0; Deliver true false 2;
   Deliver true true 3; Deliver false true 1; Deliver false false 1; Deliver true false 3].

Lemma first_height_checked : script_check world0 first_height = true.
Proof. vm_compute. reflexivity. Qed.

(** ** The checks are enough *)

Abbreviation trusted w := (unforged [x61] key_owner w).
Abbreviation instance_at w := (votes_instance [x61] validators_at (trusted w)).
Abbreviation step_in := (world_step [x61] validators_at key_owner node_cfg node_env).

Lemma key_owner_some pk n : key_owner pk = Some n -> pk = node_key n.
Proof. unfold key_owner. destruct (decide _) as [->|]; [by intros [= <-]|]. destruct (decide _) as [->|]; [by intros [= <-]|done]. Qed.

Lemma sized_check_ok v : sized_check v = true -> vote_sized [x61] v /\ 0 <= v_Round v /\ v_ValidatorIndex v <= MaxInt32.
Proof.
  unfold sized_check. rewrite !andb_true_iff. intros Hc. decompose [and] Hc. z_bool.
  split; [|done]. split_and!; [int_lia..|vm_compute; discriminate].
Qed.

Lemma origin_check_ok w v : sized_check v = true -> origin_check w v = true -> trusted w v.
Proof.
  intros Hs Hc. apply sized_check_ok in Hs as [Hs _]. split; [done|]. intros pk n bz Ho Hbz Hv. exists v. split; [|done].
  apply key_owner_some in Ho as ->. unfold origin_check in Hc. rewrite Hbz in Hc. rewrite forallb_forall in Hc.
  specialize (Hc n). assert (Hin : List.In n [true; false]) by (destruct n; simpl; auto). specialize (Hc Hin).
  change (digest_verify (node_key n) bz (v_Signature v) = true) in Hv. rewrite Hv in Hc. simpl in Hc. by apply bool_decide_eq_true in Hc.
Qed.

Lemma wire_check_ok v : sized_check v = true -> wire_check v = true -> wire_vote v.
Proof.
  intros Hs Hc. apply sized_check_ok in Hs as [(_ & _ & _ & Hp & _) _]. unfold wire_check in Hc. apply andb_true_iff in Hc as [Hb Ht].
  split; [split; [by apply orb_true_iff in Hb|done]|]. change (is_Some (toy_time_marshal (v_Timestamp v))).
  by destruct (toy_time_marshal (v_Timestamp v)).
Qed.

Lemma set_check_ok v vals : set_check (Some v) vals = true -> v = vals.
Proof.
  unfold set_check. rewrite !andb_true_iff. intros [[H1 H2] H3]. apply bool_decide_eq_true in H1, H2. apply Z.eqb_eq in H3.
  destruct v, vals. by simpl in *; subst.
Qed.

Lemma next_good : good_set next_set.
Proof.
  split; [|split; [|by vm_compute]].
  - apply (reach_rotate sample_set 1); [apply sample_reachable|by left|vm_compute; reflexivity].
  - vm_compute. repeat constructor; eauto.
Qed.

Lemma state_check_ok w st : state_check st = true -> good_state (VI := instance_at w) st.
Proof.
  unfold state_check. rewrite andb_true_iff, andb_true_iff, orb_true_iff, !andb_true_iff. intros [[Hc Hi] Hor].
  destruct (bytes_equal_spec (sm_ChainID st) [x61]) as [Hcid|]; [|done]. apply Z.eqb_eq in Hi.
  assert (Hcase : exists h vals, sm_LastBlockHeight st = h /\ h < MaxInt64 /\ set_check (sm_Validators st) vals = true /\ good_set vals /\
    (if int64 (h + 1) =? 1 then 1 else int64 (h + 1)) <> 0 /\
    Validators vals = validators_at (if int64 (h + 1) =? 1 then 1 else int64 (h + 1))).
  { destruct Hor as [[Hh Hv]|[Hh Hv]]; apply Z.eqb_eq in Hh.
    - exists 0, sample_set. split_and!; [done|done|done|apply sample_good|done|done].
    - exists 1, next_set. split_and!; [done|done|done|apply next_good|done|done]. }
  destruct Hcase as (h & vals & Hh & Hmax & Hv & Hg & Hz & HV). split; [by rewrite Hh|]. intros v Hsv. rewrite Hsv in Hv.
  apply set_check_ok in Hv as ->. unfold next_height. rewrite Hh, Hi. split_and!; done.
Qed.

Lemma timeout_in_log s ti l : timeouts s = ti :: l -> ScheduleTimeout ti ∈ cst_log s.
Proof.
  intros Ht. assert (Hin : ti ∈ timeouts s) by (rewrite Ht; set_solver). unfold timeouts in Hin.
  apply list_elem_of_omap in Hin as (a & Ha & Hx). by destruct a; simplify_eq.
Qed.

Lemma command_ok w c : command_check w c = true -> step_in w (run_command w c).
Proof.
  unfold command_check, run_command. destruct (event_of w c) as [[n ev]|] eqn:He; [|done]. rewrite !andb_true_iff. intros [[Hr Hev] Hst].
  unfold exec. simpl. destruct (receive (node_cfg n) (node_env n) ev (ns_state (w n))) as [s' r] eqn:Hrec. simpl in *.
  refine (ws_receive _ _ _ _ _ w n ev s' r Hr _ Hrec _); [|by apply state_check_ok].
  destruct c as [m|from to i]; simpl in He.
  - destruct (timeouts (ns_state (w m))) as [|ti l] eqn:Ht; [done|]. injection He as <- <-. by eapply timeout_in_log.
  - destruct (messages _ !! i) as [msg|]; [|done]. injection He as <- <-. destruct msg as [|? ? ?|v]; try done.
    simpl in *. rewrite !andb_true_iff in Hev. destruct Hev as [[J1 J2] J3].
    split; [by apply wire_check_ok|]. destruct (sized_check_ok v J1) as (_ & J4 & J5). split; [done|]. split; [done|]. by apply origin_check_ok.
Qed.

Lemma script_ok w l : script_check w l = true -> rtc step_in w (foldl run_command w l).
Proof.
  revert w. induction l as [|c l IH]; intros w Hc; [reflexivity|]. simpl in Hc. apply andb_true_iff in Hc as [H1 H2]. simpl.
  eapply rtc_l; [by apply command_ok|by apply IH].
Qed.

Lemma world0_initial : initial_world [x61] validators_at node_cfg node_env world0.
Proof.
  intros n. split; [done|]. exists ∅, genesis. split.
  - simpl. unfold started. assert (Hv : (boot node_cfg node_env n genesis (unstarted ∅)).2 = Val tt) by (destruct n; vm_compute; reflexivity).
    destruct (boot _ _ _ _ _) as [s r]. simpl in *. by rewrite Hv.
  - split; [done|]. split; [done|]. intros vals Hv. change (Some sample_set = Some vals) in Hv. apply (inj Some) in Hv as <-.
    split; [reflexivity|]. split; [done|]. split; [apply sample_good|reflexivity].
Qed.

Definition decided_world : bool -> NodeState := run first_height.
Lemma decided_reachable : reachable_world [x61] validators_at key_owner node_cfg node_env decided_world.
Proof. exists world0. split; [apply world0_initial|]. apply script_ok. exact first_height_checked. Qed.

(** The blocks a node has stored. *)
Definition saved (s : ConsensusState) : list (Block * option PartSet * Commit) :=
  omap (fun a => match a with SaveBlock b ps c => Some (b, ps, c) | _ => None end) (cst_log s).
Lemma saved_in_log s b ps c : (b, ps, c) ∈ saved s -> SaveBlock b ps c ∈ cst_log s.
Proof. intros Hin. apply list_elem_of_omap in Hin as (a & Ha & Hx). by destruct a; simplify_eq. Qed.
Definition stored (n : bool) : Block * option PartSet * Commit :=
  match saved (ns_state (decided_world n)) with x :: _ => x | [] => (sample_block, None, mkCommit 0 0 nilBlockID []) end.
Lemma stored_in_log n : SaveBlock (stored n).1.1 (stored n).1.2 (stored n).2 ∈ cst_log (ns_state (decided_world n)).
Proof.
  apply saved_in_log. assert (Hs : exists l, saved (ns_state (decided_world n)) = stored n :: l) by (destruct n; eexists; vm_compute; reflexivity).
  destruct Hs as [l ->]. destruct (stored n) as [[b ps] c]. apply elem_of_cons. by left.
Qed.

Lemma consensus_agreement_witness :
  c_Height (stored true).2 = 1 /\ c_Height (stored false).2 = 1 /\ Block_Hash (Some (stored true).1.1) = Block_Hash (Some (stored false).1.1).
Proof.
  split; [vm_compute; reflexivity|]. split; [vm_compute; reflexivity|].
  apply (consensus_agreement [x61] validators_at key_owner node_cfg node_env decided_world true false
    (stored true).1.1 (stored true).1.2 (stored true).2 (stored false).1.1 (stored false).1.2 (stored false).2).
  - apply decided_reachable.
  - vm_compute. reflexivity.
  - apply stored_in_log.
  - apply stored_in_log.
  - vm_compute. reflexivity.
Defined.

(** The votes the first node has sent, and their promises. *)
Lemma consensus_votes_safe_witness :
  length (sent decided_world true) = 2%nat /\
  forall v, v ∈ sent decided_world true -> commits_to v ->
    quorum_for [x61] validators_at (trusted decided_world) PrevoteType (v_Height v) (v_Round v) (vote_hash v).
Proof.
  split; [vm_compute; reflexivity|].
  apply (consensus_votes_safe [x61] validators_at key_owner node_cfg node_env decided_world true decided_reachable).
Defined.

Lemma consensus_stores_decided_witness :
  quorum_for [x61] validators_at (trusted decided_world) PrecommitType (c_Height (stored true).2) (c_Round (stored true).2)
    (bid_Hash (c_BlockID (stored true).2)).
Proof.
  apply (consensus_stores_decided [x61] validators_at key_owner node_cfg node_env decided_world true
    (stored true).1.1 (stored true).1.2 (stored true).2 decided_reachable). apply stored_in_log.
Defined.

(** The first timeout takes a node into the first round. *)
Definition first_timeout : timeoutInfo := mkTimeoutInfo 998 1 0 RoundStepNewHeight.
Definition woken : ConsensusState := (receive (node_cfg true) (node_env true) (EvTimeout first_timeout) (started true)).1.
Lemma world0_reachable : reachable_world [x61] validators_at key_owner node_cfg node_env world0.
Proof. exists world0. split; [apply world0_initial|reflexivity]. Qed.
Lemma consensus_steps_forward_witness :
  step (started true) = RoundStepNewHeight /\ step woken = RoundStepPropose /\
  height woken = height (started true) /\ hrs_le 0 (round (started true)) (step (started true)) 0 (round woken) (step woken).
Proof.
  split; [vm_compute; reflexivity|]. split; [vm_compute; reflexivity|].
  destruct (consensus_steps_forward [x61] validators_at key_owner node_cfg node_env world0 true (EvTimeout first_timeout) woken world0_reachable)
    as [H|[H _]]; [| | | |exact H|vm_compute in H; discriminate H].
  - reflexivity.
  - apply (timeout_in_log (started true) first_timeout []). vm_compute. reflexivity.
  - assert (Hv : (receive (node_cfg true) (node_env true) (EvTimeout first_timeout) (started true)).2 = Val tt) by (vm_compute; reflexivity).
    unfold woken. simpl ns_state. destruct (receive _ _ _ _) as [s r]. simpl in *. by rewrite Hv.
  - apply state_check_ok. vm_compute. reflexivity.
Defined.

(** A precommit for height 0 that passes the basic checks. *)
Definition stray_vote : Vote := mkVote PrecommitType 0 0 nilBlockID 77 (replicate 20 x01) 2 [x01].
Lemma initial_precommit_panics_witness :
  Vote_ValidateBasic stray_vote = Val tt /\
  receive (node_cfg true) (node_env true) (EvMsg (mkMsgInfo (VoteMessage stray_vote) [x70])) (started true) =
    (started true, Panic "AddVote() on nil VoteSet").
Proof.
  split; [vm_compute; reflexivity|].
  apply (initial_precommit_panics (node_cfg true) (node_env true) (started true) stray_vote [x70]).
  - vm_compute. reflexivity.
  - vm_compute. reflexivity.
  - vm_compute. reflexivity.
  - reflexivity.
  - discriminate.
Defined.

(** ** The chain state of the run *)

Lemma genesis_ok : state_ok genesis.
Proof.
  split.
  - exists next_set. split; [reflexivity|]. split; [apply next_good|]. vm_compute. discriminate.
  - exists sample_set. split; [reflexivity|]. split; [apply sample_good|]. vm_compute. discriminate.
  - exists empty_set. split; [reflexivity|]. apply (reach_new []). vm_compute. reflexivity.
  - vm_compute. reflexivity.
Qed.

Definition sample_response : ABCIResponses := mkABCIResponses [] [] None.
Lemma update_state_ok_witness :
  exists st', updateState genesis (sample_blockid x07) (b_Header first_block) sample_response sample_changes = Val st' /\
    state_ok st' /\ sm_Validators st' = Some next_set.
Proof.
  destruct (update_state_ok genesis (sample_blockid x07) (b_Header first_block) sample_response sample_changes genesis_ok) as [(e & He & _)|H].
  - vm_compute. discriminate.
  - exfalso. vm_compute in He. discriminate He.
  - destruct H as (st' & vals & vals' & Hu & Hok & Hv & _). exists st'. split; [exact Hu|]. split; [exact Hok|]. rewrite Hv. reflexivity.
Defined.

Lemma proposal_validates_witness : validateBlock genesis first_block = Val tt.
Proof.
  assert (Hm : exists ps, State_MakeBlock genesis 1 [] (mkCommit 0 0 nilBlockID []) [] (replicate 20 x03) = Val (first_block, ps)).
  { eexists. vm_compute. reflexivity. }
  destruct Hm as [ps Hm].
  apply (proposal_validates genesis 1 [] (mkCommit 0 0 nilBlockID []) [] (replicate 20 x03) first_block ps 0 Hm).
  - reflexivity.
  - reflexivity.
  - vm_compute. reflexivity.
  - eexists. vm_compute. reflexivity.
  - vm_compute. discriminate.
  - vm_compute. discriminate.
  - reflexivity.
  - vm_compute. reflexivity.
  - intros vals Hv. change (Some sample_set = Some vals) in Hv. apply (inj Some) in Hv as <-. vm_compute. reflexivity.
  - reflexivity.
  - vm_compute. discriminate.
Defined.
