(* ===== verification/BlockSyncRun.v ===== *)
(** * Concrete runs of block sync

    The theorems of BlockSyncProofs at runs that fetch and apply a block, and a run in
    which the two routines disagree about the blocks of a removed peer. *)
From Stdlib Require Import ZArith Lia Strings.Byte Strings.String.
From stdpp Require Import base list strings gmap.
From S2P Require Import Prelude.
From S2P Require Import Merkle.
From S2P Require Import MerkleProofs.
From S2P Require Import SafeMath.
From S2P Require Import Validator.
From S2P Require Import ProposerProofs.
From S2P Require Import ValidatorUpdateProofs.
From S2P Require Import ValidatorSetProofs.
From S2P Require Import Types.
From S2P Require Import SignBytesProofs.
From S2P Require Import Validation.
From S2P Require Import ValidationProofs.
From S2P Require Import PartSet.
From S2P Require Import Header.
From S2P Require Import LightVerifier.
From S2P Require Import LightVerifierProofs.
From S2P Require Import Block.
From S2P Require Import BlockProofs.
From S2P Require Import ChainState.
From S2P Require Import BlockStoreProofs.
From S2P Require Import PeerManager.
From S2P Require Import ConsensusRun.
From S2P Require Import BlockSync.
From S2P Require Import BlockSyncProofs.

#[local] Existing Instances digest_crypto digest_batch digest_laws toy_sha256 toy_time toy_wrappers toy_evidence toy_codec toy_block_eq_dec.

Definition first_id : BlockID :=
  match Block_Hash (Some first_block), MakePartSet first_block BlockPartSizeBytes with
  | Val hash, Val ps => mkBlockID hash (PartSet_Header (Some ps))
  | _, _ => nilBlockID
  end.
Definition first_commit : Commit := mkCommit 1 1 first_id [sign_for first_id 1 0 x03; sign_for first_id 1 1 x02; NewCommitSigAbsent].
(** The second block, of which only the last commit is used here. *)
Definition second_block : Block :=
  mkBlock (mkHeader (mkConsensus BlockProtocol 0) [x61] 2 78 first_id [] [] [] [] [] [] [] [] (replicate 20 x03)) [] [] (Some first_commit).

Definition executes : Applier := mkApplier (fun _ => true) (mkExecution (Some (mkABCIResponses [] [] None)) true (Some [x05]) true true).

(** A peer offers two blocks, both are requested, received and queued, and the first is applied. *)
Definition fetch_script : list SyncStep :=
  [Outside 1 (bcStatusResponse "alice" 1 2); Outside 2 (rTrySchedule 2); Outside 3 (rTrySchedule 3);
   Outside 4 (bcBlockResponse 4 "alice" 100 first_block); Outside 5 (bcBlockResponse 5 "alice" 100 second_block);
   TakeProcessor executes 0; TakeProcessor executes 0; ProcessTick executes; TakeScheduler 6 0].
Definition fetched : Sync := match sync_run (newReactor genesis 0) fetch_script with Val sy => sy | _ => newReactor genesis 0 end.

Lemma is_val_eq {E A} (m : outcome E A) (d : A) : is_val m = true -> m = Val (match m with Val a => a | _ => d end).
Proof. by destruct m. Qed.
Lemma fetched_run : sync_run (newReactor genesis 0) fetch_script = Val fetched.
Proof. apply is_val_eq. vm_compute. reflexivity. Qed.

Lemma block_sync_consistent_witness : Z.of_nat (size (sc_blockStates (sy_scheduler fetched))) <= 10.
Proof.
  destruct (block_sync_consistent genesis 0 fetch_script fetched) as [Hs _]; [vm_compute; reflexivity|vm_compute; discriminate|exact fetched_run|exact Hs].
Defined.

(** Before the first request. *)
Definition offered_script : list SyncStep := [Outside 1 (bcStatusResponse "alice" 1 2)].
Definition offer : Sync := match sync_run (newReactor genesis 0) offered_script with Val sy => sy | _ => newReactor genesis 0 end.
Lemma offer_run : sync_run (newReactor genesis 0) offered_script = Val offer.
Proof. apply is_val_eq. vm_compute. reflexivity. Qed.

Lemma block_requests_sound_witness : exists sc', scheduler_handle (sy_scheduler offer) 2 (rTrySchedule 2) = Val (sc', scBlockRequest "alice" 1) /\
  sc_pendingBlocks sc' !! 1 = Some "alice".
Proof.
  set (r := handleTrySchedule (sy_scheduler offer) 2 2). assert (Hr : r.2 = scBlockRequest "alice" 1) by (vm_compute; reflexivity).
  exists r.1. assert (Hs : scheduler_handle (sy_scheduler offer) 2 (rTrySchedule 2) = Val (r.1, scBlockRequest "alice" 1)).
  { rewrite <- Hr. cbn [scheduler_handle]. fold r. by destruct r. }
  split; [exact Hs|].
  destruct (block_requests_sound genesis 0 offered_script offer 2 (rTrySchedule 2) r.1 (scBlockRequest "alice" 1)) as (_ & _ & _ & _ & Hp);
    [vm_compute; reflexivity|vm_compute; discriminate|exact offer_run|exact Hs|exact Hp].
Defined.

Lemma only_new_lowest (m : gmap Z blockState) h : forallb (fun '(k, _) => h <=? k) (map_to_list m) = true ->
  forall k st, m !! k = Some st -> h <= k.
Proof.
  rewrite forallb_forall. intros Hl k st Hk. apply elem_of_map_to_list, list_elem_of_In, Hl in Hk. by apply Z.leb_le.
Qed.
Lemma scheduling_progresses_witness : exists sc' k,
  scheduler_handle (sy_scheduler offer) 2 (rTrySchedule 2) = Val (sc', scBlockRequest k 1) /\ sc_blockStates sc' !! 1 = Some blockStatePending.
Proof.
  apply (scheduling_progresses genesis 0 offered_script offer 2 2 1 "alice" (mkScPeer "alice" peerStateReady 1 2 zero_time 0));
    [vm_compute; reflexivity|vm_compute; discriminate|exact offer_run|vm_compute; discriminate|vm_compute; reflexivity| |vm_compute; reflexivity|reflexivity|simpl; lia].
  intros k. apply only_new_lowest. vm_compute. reflexivity.
Defined.

(** Two blocks of a chain, applied one after the other: the second is made from the state
    after the first, and the third holds its commit. *)
Definition sign_at (time : Z) (bid : BlockID) (height i : Z) (b : byte) : CommitSig :=
  match VoteSignBytes [x61] (mkVote PrecommitType height 1 bid time (replicate 20 b) i []) with
  | Val bz => mkCommitSig BlockIDFlagCommit (replicate 20 b) time (b :: toy_digest bz)
  | _ => NewCommitSigAbsent
  end.
Definition commit_at (time height : Z) (bid : BlockID) : Commit :=
  mkCommit height 1 bid [sign_at time bid height 0 x03; sign_at time bid height 1 x02; NewCommitSigAbsent].
Definition state_after (st : State) (bid : BlockID) (b : Block) : State :=
  match ApplyBlock ∅ (fun _ => true) (ap_execution executes) st bid b with Val (_, inl st') => st' | _ => st end.
Definition made (st : State) (height : Z) (commit : Commit) : Block :=
  match MakeBlock height [] (Some commit) [], sm_Validators st, sm_NextValidators st, sm_LastValidators st with
  | Val b, Some vals, Some next, Some last =>
      mkBlock (Header_Populate (b_Header b) (sv_Consensus (sm_Version st)) (sm_ChainID st) (MedianTime commit last) (sm_LastBlockID st) (vals_hash vals)
                 (vals_hash next) (HashConsensusParams (sm_ConsensusParams st)) (sm_AppHash st) (sm_LastResultsHash st) (replicate 20 x03))
        (b_Txs b) (b_Evidence b) (b_LastCommit b)
  | _, _, _, _ => first_block
  end.
Definition chain_state1 : State := state_after genesis first_id first_block.
Definition chain_block2 : Block := made chain_state1 2 (commit_at 78 1 first_id).

(** A codec that knows these two blocks. *)
Definition chain_codec : @BlockCodec toy_evidence :=
  {| Block_Marshal := pair_marshal first_block chain_block2; Block_Unmarshal := pair_unmarshal first_block chain_block2;
     EvidenceList_Size := fun l => Some (len l); Block_Unmarshal_Marshal := pair_marshal_law first_block chain_block2 |}.

Section two_blocks.
#[local] Existing Instance chain_codec.
Definition id_of (b : Block) : BlockID :=
  match Block_Hash (Some b), MakePartSet b BlockPartSizeBytes with
  | Val hash, Val ps => mkBlockID hash (PartSet_Header (Some ps))
  | _, _ => nilBlockID
  end.
Definition chain_block3 : Block := made (state_after chain_state1 (id_of chain_block2) chain_block2) 3 (commit_at 79 2 (id_of chain_block2)).
Definition chain_script : list SyncStep :=
  [Outside 1 (bcStatusResponse "alice" 1 3); Outside 2 (rTrySchedule 2); Outside 3 (rTrySchedule 3); Outside 3 (rTrySchedule 3);
   Outside 4 (bcBlockResponse 4 "alice" 100 first_block); Outside 5 (bcBlockResponse 5 "alice" 100 chain_block2);
   Outside 5 (bcBlockResponse 5 "alice" 100 chain_block3);
   TakeProcessor executes 0; TakeProcessor executes 0; TakeProcessor executes 0; ProcessTick executes; ProcessTick executes; TakeScheduler 6 0].
Definition chained : Sync := match sync_run (newReactor genesis 0) chain_script with Val sy => sy | _ => newReactor genesis 0 end.
Lemma chained_run : sync_run (newReactor genesis 0) chain_script = Val chained.
Proof. apply is_val_eq. vm_compute. reflexivity. Qed.

(** The second block was signed by the next validators of the genesis. *)
Lemma synced_blocks_committed_witness : exists b ps c,
  pc_saved (sy_processor chained) !! 1%nat = Some (b, ps, Some c) /\ b = chain_block2 /\ h_Height (b_Header b) = 2 /\
  sm_LastBlockHeight (pc_state (sy_processor chained)) = 2 /\
  exists sti vals, synced_from genesis (take 1 (pc_saved (sy_processor chained))) sti /\ sm_Validators sti = Some vals /\
    2 * total vals < 3 * signed_power [x61] vals c.
Proof.
  assert (Hl : len (pc_saved (sy_processor chained)) = 2) by (vm_compute; reflexivity).
  assert (Hb2 : ((fun x => bool_decide (x.1.1 = chain_block2)) <$> pc_saved (sy_processor chained) !! 1%nat) = Some true) by (vm_compute; reflexivity).
  assert (Hsigs : ((fun x => match x.2 with Some c => len (c_Signatures c) | None => 0 end) <$> pc_saved (sy_processor chained) !! 1%nat) = Some 3)
    by (vm_compute; reflexivity).
  destruct (pc_saved (sy_processor chained) !! 1%nat) as [[[b ps] commit]|] eqn:Hs; [|discriminate Hb2]. injection Hb2 as Hb2%bool_decide_eq_true.
  destruct (synced_blocks_committed genesis 0 chain_script chained genesis_ok) as (_ & Hh & _ & Hall);
    [vm_compute; discriminate|vm_compute; reflexivity|vm_compute; discriminate|rewrite Hl; vm_compute; discriminate|exact chained_run|].
  rewrite Hl in Hh. destruct (Hall 1%nat b ps commit Hs) as (Hb & sti & sti' & vals & c & hash & Hsti & _ & _ & Hvals & _ & -> & _ & _ & Hsig).
  exists b, ps, c. split; [reflexivity|]. split; [exact Hb2|]. split; [exact Hb|]. split; [exact Hh|]. exists sti, vals. split; [exact Hsti|]. split; [exact Hvals|].
  apply Hsig. injection Hsigs as ->. vm_compute. discriminate.
Defined.
End two_blocks.

(** A chain that starts at height 5. *)
Definition late_genesis : State :=
  mkState (mkVersion (mkConsensus BlockProtocol 0) "") [x61] 5 0 nilBlockID 77 (Some next_set) (Some sample_set) (Some empty_set) 1
    DefaultConsensusParams 1 [] [].
Definition block_of (height : Z) : Block :=
  mkBlock (mkHeader (mkConsensus BlockProtocol 0) [x61] height 78 first_id [] [] [] [] [] [] [] [] (replicate 20 x03)) [] [] (Some first_commit).
Definition late_script : list SyncStep :=
  [Outside 1 (bcStatusResponse "alice" 5 6); Outside 2 (rTrySchedule 2); Outside 3 (rTrySchedule 3);
   Outside 4 (bcBlockResponse 4 "alice" 100 (block_of 5)); Outside 5 (bcBlockResponse 5 "alice" 100 (block_of 6));
   TakeProcessor executes 0; TakeProcessor executes 0; ProcessTick executes].
Definition late : Sync := match sync_run (newReactor late_genesis 0) late_script with Val sy => sy | _ => newReactor late_genesis 0 end.
Lemma late_run : sync_run (newReactor late_genesis 0) late_script = Val late.
Proof. apply is_val_eq. vm_compute. reflexivity. Qed.
Lemma initial_height_never_syncs_witness : size (pc_queue (sy_processor late)) = 2%nat /\ pc_state (sy_processor late) = late_genesis.
Proof.
  split; [vm_compute; reflexivity|].
  apply (initial_height_never_syncs late_genesis 0 late_script late); [reflexivity|reflexivity|vm_compute; discriminate|exact late_run].
Defined.

(** Two blocks are requested from one peer, which answers with the second only; the peer
    is removed for owing the first; both are then requested from another peer. *)
Definition slow_peer_script : list SyncStep :=
  [Outside 1 (bcStatusResponse "alice" 1 2); Outside 2 (rTrySchedule 2); Outside 3 (rTrySchedule 3);
   Outside 4 (bcBlockResponse 4 "alice" 100 second_block); TakeProcessor executes 0;
   Outside (16 * second) (rTryPrunePeer (16 * second)); Outside (16 * second) (bcStatusResponse "bob" 1 2);
   Outside (17 * second) (rTrySchedule (17 * second)); Outside (17 * second) (rTrySchedule (17 * second));
   Outside (18 * second) (bcBlockResponse (18 * second) "bob" 100 second_block)].

(** A slow peer crashes block sync.  When the scheduler removes the peer that owes the
    next block it names no peer to the processor, which keeps the blocks that peer had
    delivered; the scheduler requests them again from another peer, and the processor
    panics on the answer because the height is still in its queue.  Every event of this
    run is one an honest network can produce. *)
Theorem removed_peer_blocks_crash :
  is_val (sync_run (newReactor genesis 0) slow_peer_script) = true /\
  sync_run (newReactor genesis 0) (slow_peer_script ++ [TakeProcessor executes 0]) = Panic "duplicate block enqueued by processor".
Proof. split; vm_compute; reflexivity. Qed.

(** A peer that has just announced its range counts as idle since the zero time, and is
    pruned by the next tick. *)
Lemma addNewBlocks_peers sc : sc_peers (addNewBlocks sc) = sc_peers sc /\ sc_peerTimeout (addNewBlocks sc) = sc_peerTimeout sc.
Proof.
  unfold addNewBlocks. destruct (_ >=? _); [done|]. generalize (seqZ (sc_height sc) (int64 (sc_targetPending sc + sc_height sc) - sc_height sc)).
  intros l. revert sc. induction l as [|i l IH]; intros sc; simpl; [done|]. destruct (_ >? _); [done|]. case_bool_decide; [|apply IH].
  destruct (IH (setStateAtHeight sc i blockStateNew)) as [-> ->]. done.
Qed.
Lemma fresh_peer_pruned sc id base height now : sc_peers sc !! id = None -> -1 <= height -> base <= height ->
  sc_peerTimeout sc < clip64 (now - zero_time) -> id ∈ prunablePeers (setPeerRange sc id base height).1 now.
Proof.
  intros Hnew Hh Hb Ht. unfold setPeerRange, ensurePeer. rewrite Hnew. simpl.
  destruct (Z.ltb_spec height (-1)); [lia|]. destruct (Z.gtb_spec base height); [lia|]. simpl.
  set (sc1 := upd_peers _ _). destruct (addNewBlocks_peers sc1) as [Hp Hto]. unfold prunablePeers, sort_peers. rewrite sort_by_perm, Hp, Hto.
  apply list_elem_of_fmap. exists (id, mkScPeer id peerStateReady base height zero_time 0). split; [done|]. apply list_elem_of_In, filter_In. split.
  - apply list_elem_of_In, elem_of_map_to_list. simpl. by rewrite lookup_insert_eq.
  - apply andb_true_iff. split; [done|]. apply orb_true_iff. left. rewrite Z.gtb_ltb. apply Z.ltb_lt. done.
Qed.
